(* ===== verification/_CoqProject ===== *)
-Q . S2P
Prelude.v
PatchTypes.v
StreamingParser.v
PatchGrammar.v
SeekSequence.v
TextFile.v
FileUpdate.v
ApplyPatch.v
PatchDelta.v
PatchEndToEnd.v
AbsolutePath.v
Invocation.v
ExecRule.v
ExecPolicy.v
ExecPolicyParser.v
ExecAmend.v
HeadTail.v
Truncate.v
ResponseItems.v
CallPairs.v
ContextFragments.v
JsonPatch.v
WorldState.v
MediaStrip.v
TokenUsage.v
History.v
Compact.v
Rollout.v
StreamText.v
InlineTag.v
TaggedLines.v
Utf8Stream.v
AssistantText.v
ShellCommand.v
Permissions.v
PathUri.v
PermissionProfiles.v
PolicyTransforms.v
TextPos.v
Keys.v
TextArea.v
TextAreaVim.v
TextAreaInv.v
TextAreaMoves.v
TextAreaElements.v
TextAreaSafety.v
TextAreaRuns.v
PasteBurst.v
TableDetect.v
TableHoldback.v
StreamRender.v
StreamController.v
StreamLaws.v
StreamRuns.v
StreamTicks.v
StreamExamples.v
NetAddr.v
NetHost.v
NetConfig.v
NetRuntime.v
NetPolicy.v
NetSafety.v
NetExamples.v
ConfigToml.v
ConfigMerge.v
ConfigLayers.v
ConfigLaws.v
ConfigValid.v
ShellEnv.v
ConfigExamples.v
InputQueue.v
AgentPath.v
AgentRegistry.v
AgentRuns.v
AgentResidency.v
ThreadItems.v
ThreadHistory.v
ThreadProjection.v
ThreadRuns.v
ExecApproval.v
