(* ===== verification/Prelude.v ===== *)
(** * Verification of the core logic of the agent's Rust workspace

    The repository is a command-line coding agent.  Its Rust workspace
    ([src/codex-rs]) runs a model that proposes patches and shell commands;
    what is proposed is parsed, checked against a policy, executed, and what
    comes back is cut to size and recorded in a history that is sent to the
    model again.  This library models the parts that take those decisions and
    that change the user's files, and proves what makes them correct.

    ** The program's parts and the files that model them

    - Patches: [apply-patch/src].  The text of a patch goes through
      [parser.rs] (boundaries, heredoc unwrapping) and [streaming_parser.rs]
      (a state machine fed with pieces of text) to a list of hunks; for each
      update hunk [file_update.rs] locates the chunks with [seek_sequence.rs]
      and rebuilds the contents, line by line or through [text_file.rs], which
      keeps the terminator of every line; [lib.rs] applies the hunks to a
      filesystem, records what it committed and prints a summary.
        - PatchTypes.v: [Hunk], [UpdateFileChunk], [ParseError] and the
          invariant [chunk_wf] between parser and file update.
        - StreamingParser.v: [StreamingPatchParser] with [push_delta],
          [process_line] and [finish]; [parse_patch], strict and lenient.
        - PatchGrammar.v: syntax trees of the patches that are accepted, with
          printer and denotation, independent of the parser; then all
          trees of the documented grammar, and which of them are accepted.
        - SeekSequence.v: [seek_sequence], its four passes, the eof start.
        - TextFile.v: [SourceFile::parse], [apply_replacements],
          [into_contents].
        - FileUpdate.v: [compute_replacements] and the new contents in the
          modes [NormalizeToLf] and [PreserveLineEndings].
        - ApplyPatch.v: [apply_hunks_to_files] with add, delete, update and
          move, every error path, [AppliedPatchDelta], [print_summary] and the
          entry points.
        - PatchDelta.v: what the delta says about the filesystem; an in-memory
          filesystem.
        - PatchEndToEnd.v: the composition from patch text to files.
        - Invocation.v: [invocation.rs], from the arguments of a command to
          the patch it carries and the verified changes shown to the user.
    - Paths: [utils/absolute-path/src], AbsolutePath.v.  Home expansion,
      lexical normalisation, joining; the policy uses it to resolve programs.
    - Command policy: [execpolicy/src].  Policy files are scripts whose calls
      build a [Policy]; commands and network hosts are checked against it; the
      user's answers are appended to a policy file.
        - ExecRule.v: [Decision], prefix patterns, rule matches, network
          rules ([decision.rs], [rule.rs], [executable_name.rs], [error.rs]).
        - ExecPolicy.v: [Policy] and [Evaluation] ([policy.rs]).
        - ExecPolicyParser.v: the builder, its builtins and the pending
          example validation ([parser.rs]), [load_policies].
        - ExecAmend.v: [amend.rs] and [sandbox_migration.rs].
    - Shell commands: [shell-command/src], ShellCommand.v.  The shells and
      wrappers a command may go through ([shell_detect.rs], [bash.rs]: plain
      commands of a script, literal prefixes of a heredoc) and the test for
      dangerous commands ([command_safety/is_dangerous_command.rs]).
    - Approval: [core/src/exec_policy.rs] with [exec_policy/model_policy.rs],
      [exec_policy/executable_identity.rs] and [tools/sandboxing.rs],
      ExecApproval.v.  From a command, the policy and the settings of the
      session to the requirement: run, ask, or refuse (the requirement that
      the source calls [Forbidden] is [Refused] here).
    - Permissions: [protocol/src/permissions.rs], Permissions.v.  The
      resolution of a path against the entries of a filesystem policy, over
      the classes [PathUriLexical] and [PathUriLaws].  PathUri.v
      ([utils/path-uri/src/lib.rs]: identity, convention, containment and
      ancestors of path URIs, and that they keep those laws).  PermissionProfiles.v
      (profiles and additional permissions, [protocol/src/models.rs]) and
      PolicyTransforms.v ([sandboxing/src/policy_transforms.rs]: what of a
      request is granted, and the permissions that result).
    - Streamed model text: [utils/stream-parser/src].  StreamText.v (the
      trait and its chunks), InlineTag.v (hidden inline tags, citations),
      TaggedLines.v (blocks between tag lines, proposed plans), Utf8Stream.v
      (bytes to text), AssistantText.v (the composition).
    - Output: HeadTail.v, the capped buffer of a running command
      ([core/src/unified_exec/head_tail_buffer.rs]); Truncate.v, truncation
      of texts and of tool outputs ([utils/string/src/truncate.rs],
      [utils/output-truncation/src/lib.rs]).
    - History: [core/src/context_manager].  What the model and the user said
      is recorded, normalised for each request, rolled back and measured.
        - ResponseItems.v: [ResponseItem] and its envelope and annotations
          ([protocol/src/models.rs], [history/src/lib.rs],
          [context-fragments/src/annotated_content.rs]).
        - CallPairs.v: the pairing of tool calls with their outputs
          ([normalize.rs]); MediaStrip.v: its stripping of media the model
          does not support; TokenUsage.v: token counts and estimates
          ([protocol/src/protocol.rs], [history.rs]).
        - History.v: [ContextManager] with all its operations ([history.rs]).
    - Injected context: ContextFragments.v.  Fragments that the agent adds to
      the conversation, how they are told from the user's messages
      ([context-fragments/src], [core/src/context], [event_mapping.rs]),
      merged into messages ([context_manager/updates.rs]) and sent only when
      changed ([state/additional_context.rs]).
    - World state: [core/src/context/world_state/mod.rs].  JsonPatch.v, merge
      patches on JSON values; WorldState.v, sections, snapshots, the records from
      which a baseline is replayed, and the steps of a session that write them
      ([core/src/session/mod.rs], [codex_thread.rs]).
    - Compaction: Compact.v ([core/src/compact.rs]), the history that replaces
      a long one.
    - Rollouts: Rollout.v ([core/src/session/rollout_reconstruction.rs]), how
      history and settings are rebuilt from what a session persisted; it uses
      History.v, Compact.v and WorldState.v.
    - Threads: [app-server-protocol/src/protocol].  The turns and items that a
      client of the app server sees, rebuilt from a rollout or kept up to date
      by change sets.
        - ThreadItems.v: items and how events become items ([v2/item.rs],
          [item_builders.rs], [review_format.rs]).
        - ThreadHistory.v: [ThreadHistoryBuilder] with all its handlers
          ([thread_history.rs]).
        - ThreadProjection.v and ThreadRuns.v: the projection of a change set on
          a client's view, and the theorems.
    - Network: [network-proxy/src].  The proxy through which commands reach the
      network decides on every host.
        - NetAddr.v: addresses, their parser and the non-public ones
          ([std::net], [policy.rs]).
        - NetHost.v: the normalisation of hosts, domain patterns and their
          compilation ([policy.rs]).
        - NetConfig.v: the configuration, its domain entries, the constraints of
          an administrator and their validation ([config.rs], [state.rs]).
        - NetRuntime.v: the decision on a host, the check at the connection, the
          updates of the lists and the log of refusals ([runtime.rs],
          [network_policy.rs], [connect_policy.rs]).
        - NetPolicy.v and NetSafety.v: the theorems, and in NetSafety.v the upstream
          proxies and the peers that requests are connected to ([upstream.rs],
          [connect_policy.rs], the dials of [http_proxy.rs], [mitm.rs] and
          [socks5.rs]); NetExamples.v: a matcher for globs, a concrete world, the
          witnesses.
    - Sub-agents: [core/src/agent].  Agents spawn agents, up to a limit.
        - AgentPath.v: paths of agents and references to them
          ([protocol/src/agent_path.rs]).
        - AgentRegistry.v: the registry with its reservations, nicknames and
          depths ([registry.rs]); AgentRuns.v: the tasks that spawn and finish
          agents as a step relation, and the theorems.
        - AgentResidency.v: which agents stay loaded
          ([control/residency.rs]).
    - Input of a session: InputQueue.v ([core/src/session/input_queue.rs]), the
      input of the running turn and the mail of other agents.
    - Configuration: [config/src].  The settings of a session are merged from
      layers: managed, of the user, of the project, of the command line.
        - ConfigToml.v: values, their merging, the legacy names of keys and the
          overrides of the command line ([merge.rs], [key_aliases.rs],
          [overrides.rs]); ConfigMerge.v: merging seen path by path.
        - ConfigLayers.v: the layers, their precedence, the origins that are
          reported, and the validation of a layer ([state.rs],
          [config_layer_source.rs], [fingerprint.rs]).
        - ConfigLaws.v and ConfigValid.v: the theorems; ConfigExamples.v:
          instances and witnesses.
    - Environment of a command: ShellEnv.v.  Which variables a command that the
      model proposed is given ([protocol/src/shell_environment.rs],
      [core/src/exec_env.rs]).
    - The composer: [tui/src/bottom_pane].  The text that the user edits.
        - TextPos.v: byte positions in strings; [run] and [returns].
        - Keys.v: key events, bindings and keymaps ([key_hint.rs],
          [keymap.rs]).
        - TextArea.v: text, cursor, elements, kill buffer and wrapping cache
          with every edit and move ([textarea.rs], [textarea/wrapping.rs]).
        - TextAreaVim.v: the Vim modes and the dispatch of keys
          ([textarea/vim.rs], [textarea/vim_commands.rs]).
        - TextAreaInv.v, TextAreaMoves.v, TextAreaElements.v and
          TextAreaSafety.v: the invariant and one lemma per operation;
          TextAreaRuns.v: the theorems.
        - PasteBurst.v: the detector of pastes that arrive as single keys
          ([paste_burst.rs]) and a specification of its use.
    - Streamed messages: [tui/src/streaming].  A message of the model is shown
      while it arrives; what may still change stays in a tail.
        - TableDetect.v: lines of tables and code fences ([table_detect.rs]), and
          the unwrapping of fences around tables ([markdown.rs]);
          TableHoldback.v: the scanner for tables ([table_holdback.rs]).
        - StreamRender.v: the collector of complete lines and the incremental
          render ([markdown_stream.rs], [render.rs], [code_fence.rs]).
        - StreamController.v: the queue, the core of a stream and the policy that
          paces it ([mod.rs], [controller.rs], [chunking.rs]); StreamTicks.v: the
          controllers, the ticks ([commit_tick.rs]) and the theorems on time.
        - StreamLaws.v and StreamRuns.v: the invariant and the theorems;
          StreamExamples.v: a renderer, the witnesses.

    ** How code is translated

    A Rust string is the list of its code points ([rstr]); lengths and slices
    in bytes are computed from the UTF-8 length of each code point, and
    slicing off a character boundary panics.  [Result] is [result]; code that
    can also panic returns an [outcome] with [Done], [Fail] and [Panic], so
    that the absence of panics is a statement.  A method on [&mut self]
    returns the new state, on its error paths too.  [HashMap] and [MultiMap]
    are [gmap]s, [HashSet] is [gset].  Counters in [usize] are [N] with the
    saturating operations of the source ([usize_max] is the 64-bit maximum).

    Most loops of the modelled code are structural recursions on the data they
    consume (lines, characters, chunks, hunks, rules).  Ten run on fuel, each
    with a proof that the fuel chosen is enough: the loop of the inline tag
    parser ([inline_loop], by the length of what is pending), the walks over a
    parse tree that keep a stack of nodes ([word_only_walk] and
    [literal_walk], by the number of nodes below), the stripping of file
    extensions in [detect_shell_loop] (by the length of the name), the widening
    of a range to whole elements ([expand_loop], by the number of elements: every
    pass but the last takes in another one), the search for the next
    character boundary ([next_char_boundary], by the bytes that follow), the
    unloading of agents ([reserve_slot], one round per loaded agent), the
    merging of configuration values ([merge_at], by the depth of the overlay),
    the peeling of quote markers ([strip_blockquote_prefix], by the length of the
    line) and the ancestors of a URI ([last_of], by its segments).  The
    recursion of the danger test through wrappers is bounded in the source,
    by eight levels; the model counts the levels that are left.  Every
    definition is total; the witnesses evaluate them.

    Code outside the repository is an argument.  The filesystem, path URIs and
    writers are the classes [ExecutorFileSystem], [PathUriOps] and [Writer]
    (ApplyPatch.v), and what patches rely on is [FileSystemLaws]
    (PatchDelta.v): a write or removal that succeeds on a recordable path
    changes that path only, a write that fails for a missing directory and the
    creation of that directory change no file, a removal that fails has at
    most removed its file.  The operations on policy
    files are [PolicyFileOps] with [PolicyFileLaws] (ExecAmend.v).  Both laws
    have an in-memory instance, on which the witnesses run.  The Starlark
    interpreter is the sequence of builtin calls a script makes; [shlex],
    [serde_json], derived [Debug] texts, version-5 UUIDs, the renderer of
    unified diffs, the parse trees and query matches of tree-sitter, and the
    process environment ([path_env]) are function arguments, as are the XML
    decoder of hook prompts, the JSON decoder of inter-agent messages, the
    size of an item's JSON and the image and audio codecs of the estimates.
    Doubles, which scale one budget, are those of [SpecFloat].  JSON maps are
    lists of entries under the classes [MapOps] and [MapLaws], with the
    insertion-ordered and the sorted map as instances.  Path URIs as
    permissions use them are [PathUriLexical] with [PathUriLaws]; the instances are
    the URIs of PathUri.v, over arguments for percent-decoding, base64 and the
    conversions of the [url] crate, and plain POSIX paths.  Graphemes, words, widths and the layout of wrapped
    rows are the class [Segmentation] with [SegmentationLaws], with code points
    as instance; the globs of domain patterns are [Globs] with [GlobLaws], with a
    matcher for [?] and [*] as instance; the answers of name servers and of the
    reloader are arguments.  TOML tables are [MapOps] and [MapLaws] too, over
    arguments for floats and datetimes; lowercasing and the wildcards of the
    environment's patterns are [Lowercase] and [WildMatch] with their laws, with
    instances for ASCII and for [?] and [*]; the hash of a layer and the decoder
    of a filter's action are functions.  The Markdown renderer and the highlighter
    of code are the class [Renderer]: the theorems on streams hold for every
    renderer whose offsets index its source ([RendererLaws]).  Instants are numbers of nanoseconds that the caller
    passes.

    ** What the theorems show

    - Parsing.  Feeding a patch in pieces is the same as feeding it at once
      (including the state left by an error); a patch of the grammar is accepted
      exactly when every update has a change and every context a line, and then
      parses to the hunks it denotes; whatever parses consists of complete
      hunks whose context pairs are well formed, which is what keeps the file
      update from panicking.
    - Locating and rebuilding.  The search returns the first position under
      the strictest comparison that matches anywhere, and fails only when
      nothing matches.  A file splits into lines and back without loss for
      every mixture of endings; the two ways of applying replacements agree;
      in the preserving mode only replaced lines are rewritten; a chunk whose
      old lines occur replaces their first occurrence.
    - Applying.  No patch text panics on any filesystem.  A failing
      application has applied exactly the hunks before the failing one.  A
      delta whose [exact] flag survived replays the initial contents to the
      final ones, and undoes them, whatever the outcome.  End to end, the text of
      an update by one change without a context, whose old lines occur as they are
      spelled, changes exactly its file, in exactly its lines but for a blank one at
      the end, and the summary and delta say so.
    - Policy.  The decision is the most severe of the matches; rules written
      for the exact program take precedence; a basename rule applies to a path
      only as the host-executable entries permit; an overlay never relaxes a
      decision; compiled domains follow the last rule of a host; an accepted
      policy file has had all its examples checked; appended rules keep the
      file and are read back.
    - Invocation.  Verification is total, and the changes it computes before
      anything is written are what the application does, if no file is moved
      onto the target of another hunk.
    - Shell commands.  The danger test says yes exactly on a forced removal
      under at most eight wrappers and on anything under nine; the plain commands found in a script are
      literal words of its text; a dangerous plain command of a script is
      found.
    - Approval.  No setting runs a dangerous command that no rule matches
      without the user's consent; a session that never asks is never
      asked; the sandbox is bypassed only when escalation was requested or on
      an allow rule for every part of the command; rules that a session ignores grant nothing; a proposed
      amendment, once accepted, lets the same command run.
    - Permissions.  A path is decided by its most specific entry, with denial
      winning ties; denials survive the replacement of the policy; the metadata directories
      stay protected unless a writable root lies inside one of them.  A
      profile survives its conversions; cut down to read-only access it reads
      what it read and writes nothing; granted permissions stay within the
      request and never remove a denial.
    - Streamed text.  Parsing in pieces, cut anywhere (inside a tag or inside
      a character), is parsing the whole; what is hidden is exactly the tagged
      text; malformed bytes are reported with the state rolled back.
    - Output.  The buffer, however it is fed or merged, is the summary of the
      stream it was fed; truncation never fails, stays in its budget on
      character boundaries and counts what it removed.
    - History.  Pairing drops exactly the orphaned outputs, answers exactly
      the unanswered calls in place, and is idempotent; removing the oldest
      item keeps the pairing.  A prepared prompt is paired and free of
      unsupported media; recording appends and cuts only large outputs; a
      rollback removes exactly the turns asked for and composes.
    - Injected context.  What is injected is recognised when read back;
      merging fragments loses and reorders nothing.
    - World state.  The patch between two snapshots turns the first into the
      second, and a session's records replay to the baseline it holds, through
      turns, requests, compactions, injected items and reconstructions.
    - Compaction.  It keeps the newest messages of the user within the budget,
      and compacting again finds the same messages.
    - Rollouts.  The scan backwards finds the settings, reference context and
      baseline of the turns that survive, where the specification is a stack
      that rollbacks pop; the history is that of a full replay unless a
      rollback took a checkpoint away.
    - Threads.  A change set turns what a client knew into what the server
      knows; turns and items have distinct ids; a rollback removes the last
      turns.
    - Network.  The tests for non-public addresses are the special-purpose
      blocks; a denied host is never reached; without local binding no
      connection goes to a non-public address unless its very literal is on the
      allow list, whatever names resolve to and whatever the user is asked, or it
      goes to an upstream proxy that the environment names, for a public target;
      managed patterns contain the patterns they admit; updates of the lists
      take effect, respect the constraints and linearise.
    - Sub-agents.  Paths are exactly those of the documented form, references
      resolve to what they stand for and prefixes select subtrees; in every
      interleaving of the locked sections and the updates of the counter slots are
      accounted for, the limit holds and the two indexes agree; a spawn that fails leaves nothing behind; nicknames are distinct;
      making room for another agent ends and spares busy ones.
    - Input.  Every input and every mail leaves the queue once and in order, to the
      caller of a read or a drain or by being cleared; what is announced as pending is what a read returns; mail that is put off waits; a
      turn is given a parent or a root only if all mail agrees.
    - Configuration.  The value of a setting is that of the highest layer that
      decides it, and the origin reported for it names that layer, but for the
      filters of the shell environment and the domains of the network; layers stay in
      the order of their precedence; an override of the command line takes effect;
      what is merged from valid layers is valid.
    - Environment.  A variable that looks like a secret reaches a command only if
      the policy says so; the filters of the configuration are obeyed.
    - Text area.  No key and no edit panics, whatever the bindings; keys leave
      elements whole; a yank undoes a kill; the cursor stays on the screen.
    - Streams.  Nothing panics, whatever the renderer; without formatting every
      line is shown once and in order; exactly the lines before a possible table
      leave the tail, for the incremental scanner and the cached lengths; a tick
      bounds the backlog and the mode does not oscillate; unwrapping removes only
      fence lines.
    - Paste bursts.  Nothing that is typed is lost, duplicated or reordered, and
      everything is shown once the user pauses, unless Enter comes while a first
      character is held back.

    Some theorems record behaviour that differs from what a comment, a
    document or the evident intent says: the parser rejects updates without a
    change and contexts without a line, which the documented grammar has; an update
    that moves a file onto its
    own path removes it; the LF-normalising mode drops a trailing blank line;
    an eof search looks only at the end of the file; relative programs are
    resolved and matched by basename; host normalisation is not idempotent;
    verification does not look at the destination of a move, so after a move
    onto the file of a later hunk the application writes other contents than
    were verified; the protection of the metadata directories depends on the
    order of the policy's entries; a rollback of a turn that was compacted
    loses the history before it; a rollback without turns is not a no-op; an
    external context whose key holds an angle bracket is taken for the user's
    words; granting a directory drops the read-only parts of the request; a Vim
    find panics on an element that holds a line feed; an Enter right after a held
    first character loses that character; a pattern with a port escapes the
    managed allow list; a list update drops refusals logged while it runs; two
    tasks that make room at the same time can exceed the capacity for loaded
    agents; the origin of a setting is reported wrongly for a key that holds a
    dot and for a setting that another layer replaced; a stream that was emitted
    completely is emitted again in part when the terminal became narrower.

    ** What is not modelled, and what comes next

    Not modelled: the transport of the network proxy, processes, sandboxes of
    the operating system, rendering and the other views of the user interface,
    serialisation, the rendering of unified diffs (by a third-party crate),
    Windows branches, and symbolic links (they belong to the filesystem
    instance).  Candidates for extension, in order: the hooks of the network
    proxy ([mitm_hook.rs]); the writable roots of [permissions.rs]; the sections
    of the world state; the composer around the text area
    ([chat_composer.rs]); the summaries of commands for display
    ([shell-command/src/parse_command.rs]); the writer of Markdown lines.

    ** This file

    Strings and their operations, [result] and [outcome] with their monads,
    the scope [rust_scope], the hint databases [codex] and [codex_rw], and the list, option
    and string lemmas that the components share. *)

From Stdlib Require Import NArith ZArith Lia Ascii String Sorting.Sorted.
From Stdlib Require DecimalN.
From stdpp Require Import base list gmap strings.

(** ** Rust strings

    A Rust [String]/[&str] is a sequence of Unicode scalar values; it is
    modelled as the list of their code points.  [lit] embeds the ASCII
    literals of the source. *)
Abbreviation rstr := (list N) (only parsing).

Definition lit (s : string) : rstr :=
  (fun c => N_of_ascii c) <$> String.list_ascii_of_string s.

#[global] Arguments lit : simpl never.

Definition chr (c : ascii) : N := N_of_ascii c.

Definition c_lf : N := 10.
Definition c_cr : N := 13.
Definition c_dquote : N := 34.
Definition c_percent : N := 37.
Definition c_star : N := 42.
Definition c_dot : N := 46.
Definition c_colon : N := 58.
Definition c_question : N := 63.
Definition c_backslash : N := 92.

(** [char::is_whitespace]: the Unicode [White_Space] property. *)
Definition is_whitespace (c : N) : bool :=
  ((9 <=? c) && (c <=? 13) || (c =? 32) || (c =? 133) || (c =? 160)
   || (c =? 5760) || ((8192 <=? c) && (c <=? 8202)) || (c =? 8232)
   || (c =? 8233) || (c =? 8239) || (c =? 8287) || (c =? 12288))%N.

(** [char::len_utf8] and [str::len] (in bytes). *)
Definition len_utf8 (c : N) : nat :=
  if (c <? 128)%N then 1 else if (c <? 2048)%N then 2
  else if (c <? 65536)%N then 3 else 4.

Fixpoint str_len (s : rstr) : nat :=
  match s with [] => 0 | c :: r => len_utf8 c + str_len r end.

(** String equality as a boolean, [==] of the source. *)
Declare Scope rust_scope.
Delimit Scope rust_scope with rust.
Definition str_eqb (a b : rstr) : bool := bool_decide (a = b).
Infix "==" := str_eqb (at level 70, no associativity) : rust_scope.
Notation "a != b" := (negb (str_eqb a b)) (at level 70, no associativity) : rust_scope.

Definition is_some {A} (o : option A) : bool :=
  match o with Some _ => true | None => false end.

(** [Option::is_some_and]. *)
Definition is_some_and {A} (o : option A) (p : A -> bool) : bool :=
  match o with Some a => p a | None => false end.

(** Update of the element [Vec::last_mut] points at. *)
Fixpoint alter_last {A} (f : A -> A) (l : list A) : list A :=
  match l with
  | [] => []
  | [x] => [f x]
  | x :: r => x :: alter_last f r
  end.

Definition is_empty {A} (l : list A) : bool :=
  match l with [] => true | _ => false end.

Fixpoint drop_while {A} (p : A -> bool) (l : list A) : list A :=
  match l with
  | [] => []
  | x :: r => if p x then drop_while p r else l
  end.

Definition drop_while_end {A} (p : A -> bool) (l : list A) : list A :=
  reverse (drop_while p (reverse l)).

Definition trim_start (s : rstr) : rstr := drop_while is_whitespace s.
Definition trim_end (s : rstr) : rstr := drop_while_end is_whitespace s.
Definition trim (s : rstr) : rstr := trim_end (trim_start s).

(** [str::strip_prefix], [str::starts_with] and their suffix versions. *)
Fixpoint strip_prefix (p s : rstr) : option rstr :=
  match p, s with
  | [], _ => Some s
  | a :: p', b :: s' => if (a =? b)%N then strip_prefix p' s' else None
  | _ :: _, [] => None
  end.

Definition starts_with (p s : rstr) : bool :=
  match strip_prefix p s with Some _ => true | None => false end.

Definition strip_suffix (p s : rstr) : option rstr :=
  reverse <$> strip_prefix (reverse p) (reverse s).

Definition ends_with (p s : rstr) : bool :=
  match strip_suffix p s with Some _ => true | None => false end.

(** [str::split] on one character: always at least one piece. *)
Fixpoint split_on (c : N) (s : rstr) : list rstr :=
  match s with
  | [] => [[]]
  | x :: r =>
      if (x =? c)%N then [] :: split_on c r
      else match split_on c r with
           | [] => [[x]]
           | l :: ls => (x :: l) :: ls
           end
  end.

(** [str::split_inclusive] on one character: each piece keeps its
    terminator and no empty piece follows the last one. *)
Fixpoint split_inclusive (c : N) (s : rstr) : list rstr :=
  match s with
  | [] => []
  | x :: r =>
      if (x =? c)%N then [x] :: split_inclusive c r
      else match split_inclusive c r with
           | [] => [[x]]
           | l :: ls => (x :: l) :: ls
           end
  end.

(** [str::lines]: split after each LF, dropping the LF and one CR before it. *)
Definition strip_line_ending (l : rstr) : rstr :=
  match strip_suffix [c_lf] l with
  | None => l
  | Some l' => default l' (strip_suffix [c_cr] l')
  end.

Definition lines (s : rstr) : list rstr :=
  strip_line_ending <$> split_inclusive c_lf s.

(** [[String]::join]. *)
Fixpoint join (sep : rstr) (l : list rstr) : rstr :=
  match l with
  | [] => []
  | [x] => x
  | x :: r => x ++ sep ++ join sep r
  end.

Definition to_ascii_lowercase (s : rstr) : rstr :=
  (fun c => if (65 <=? c)%N && (c <=? 90)%N then (c + 32)%N else c) <$> s.

Definition eq_ignore_ascii_case (a b : rstr) : bool :=
  str_eqb (to_ascii_lowercase a) (to_ascii_lowercase b).

Definition is_ascii_digit (c : N) : bool := (48 <=? c)%N && (c <=? 57)%N.

Definition contains_char (c : N) (s : rstr) : bool := existsb (N.eqb c) s.

(** [str::contains] and [str::split_once] of a string, [str::split_once],
    [str::rsplit_once] and [str::trim_end_matches] of one character. *)
Fixpoint contains_str (p s : rstr) : bool :=
  starts_with p s || match s with [] => false | _ :: r => contains_str p r end.

Fixpoint split_once (c : N) (s : rstr) : option (rstr * rstr) :=
  match s with
  | [] => None
  | x :: r =>
      if (x =? c)%N then Some ([], r)
      else match split_once c r with Some (a, b) => Some (x :: a, b) | None => None end
  end.

Fixpoint split_once_str (p s : rstr) : option (rstr * rstr) :=
  match strip_prefix p s with
  | Some rest => Some ([], rest)
  | None =>
      match s with
      | [] => None
      | x :: r => match split_once_str p r with Some (a, b) => Some (x :: a, b) | None => None end
      end
  end.

Definition rsplit_once (c : N) (s : rstr) : option (rstr * rstr) :=
  match split_once c (reverse s) with
  | Some (a, b) => Some (reverse b, reverse a)
  | None => None
  end.

Definition count_char (c : N) (s : rstr) : nat := length (filter (eq c) s).

Definition trim_end_matches (c : N) (s : rstr) : rstr := drop_while_end (N.eqb c) s.

(** ** Iterators *)

(** [Iterator::take_while]. *)
Fixpoint take_while {A} (p : A -> bool) (l : list A) : list A :=
  match l with
  | [] => []
  | x :: r => if p x then x :: take_while p r else []
  end.

(** [Iterator::find_map]. *)
Fixpoint find_map {A B} (f : A -> option B) (l : list A) : option B :=
  match l with
  | [] => None
  | x :: r => match f x with Some b => Some b | None => find_map f r end
  end.

(** [Iterator::max_by_key]: the last of the greatest elements. *)
Definition max_by {A} (le : A -> A -> bool) (l : list A) : option A :=
  foldl (fun best x => match best with
                       | None => Some x
                       | Some b => if le b x then Some x else Some b
                       end) None l.

(** ** Fallible computations

    [result E A] is Rust's [Result<A, E>].  [outcome E A] adds the third
    way a Rust function can end, a panic (failed [debug_assert!], integer
    underflow, slice index out of range, [expect] on [None]). *)
Inductive result (E A : Type) : Type :=
| Ok (a : A)
| Err (e : E).
Arguments Ok {E A} a.
Arguments Err {E A} e.

Inductive outcome (E A : Type) : Type :=
| Done (a : A)
| Fail (e : E)
| Panic.
Arguments Done {E A} a.
Arguments Fail {E A} e.
Arguments Panic {E A}.

#[export] Instance result_ret E : MRet (result E) := fun A a => Ok a.
#[export] Instance result_bind E : MBind (result E) := fun A B f m =>
  match m with Ok a => f a | Err e => Err e end.
#[export] Instance result_fmap E : FMap (result E) := fun A B f m =>
  match m with Ok a => Ok (f a) | Err e => Err e end.

#[export] Instance outcome_ret E : MRet (outcome E) := fun A a => Done a.
#[export] Instance outcome_bind E : MBind (outcome E) := fun A B f m =>
  match m with Done a => f a | Fail e => Fail e | Panic => Panic end.
#[export] Instance outcome_fmap E : FMap (outcome E) := fun A B f m =>
  match m with Done a => Done (f a) | Fail e => Fail e | Panic => Panic end.

Definition lift_result {E A} (r : result E A) : outcome E A :=
  match r with Ok a => Done a | Err e => Fail e end.

Definition map_err {E F A} (f : E -> F) (r : result E A) : result F A :=
  match r with Ok a => Ok a | Err e => Err (f e) end.

Definition ok_or {E A} (o : option A) (e : E) : result E A :=
  match o with Some a => Ok a | None => Err e end.

Definition is_ok {E A} (r : result E A) : bool :=
  match r with Ok _ => true | Err _ => false end.

(** [std::io::Error]: the kinds the source looks at, and a message. *)
Inductive ErrorKind := NotFound | AlreadyExists | InvalidInput | InvalidData | OtherKind.

#[export] Instance error_kind_eq_dec : EqDecision ErrorKind.
Proof. solve_decision. Defined.

Record io_error := mkIoError { kind : ErrorKind; io_message : rstr }.

Definition is_not_found (e : io_error) : bool := bool_decide (kind e = NotFound).

(** ** Machine-width counters of the 64-bit build *)
Definition usize_max : N := 18446744073709551615.

Definition sat_add (a b : N) : N := N.min (a + b) usize_max.
Definition sat_mul (a b : N) : N := N.min (a * b) usize_max.

(** [usize::to_string] *)
Fixpoint uint_digits (d : Decimal.uint) : rstr :=
  match d with
  | Decimal.Nil => []
  | Decimal.D0 r => 48%N :: uint_digits r
  | Decimal.D1 r => 49%N :: uint_digits r
  | Decimal.D2 r => 50%N :: uint_digits r
  | Decimal.D3 r => 51%N :: uint_digits r
  | Decimal.D4 r => 52%N :: uint_digits r
  | Decimal.D5 r => 53%N :: uint_digits r
  | Decimal.D6 r => 54%N :: uint_digits r
  | Decimal.D7 r => 55%N :: uint_digits r
  | Decimal.D8 r => 56%N :: uint_digits r
  | Decimal.D9 r => 57%N :: uint_digits r
  end.

Definition decimal (n : N) : rstr := uint_digits (N.to_uint n).

(** Checked subtraction of [usize] values: underflow panics. *)
Definition usize_sub {E} (a b : nat) : outcome E nat :=
  if b <=? a then Done (a - b) else Panic.

(** [&v[a..b]]: panics unless [a <= b <= v.len()]. *)
Definition slice {E A} (l : list A) (a b : nat) : outcome E (list A) :=
  if (a <=? b) && (b <=? length l) then Done (take (b - a) (drop a l)) else Panic.

(** ** Stable sort by a key, [slice::sort_by_key]. *)
Section stable_sort.
Context {A : Type} (key : A -> nat).

Fixpoint insert_by_key (x : A) (l : list A) : list A :=
  match l with
  | [] => [x]
  | y :: r => if key x <=? key y then x :: l else y :: insert_by_key x r
  end.

Fixpoint sort_by_key (l : list A) : list A :=
  match l with
  | [] => []
  | x :: r => insert_by_key x (sort_by_key r)
  end.
End stable_sort.

(** ** Automation

    [codex] is the hint database of the development. *)
Create HintDb codex.
Create Rewrite HintDb codex_rw.

(** Split boolean conjunctions and comparisons into propositions. *)
Ltac destruct_bools :=
  repeat match goal with
  | H : (_ && _)%bool = true |- _ => apply andb_true_iff in H as [? ?]
  | H : (_ || _)%bool = false |- _ => apply orb_false_iff in H as [? ?]
  | H : negb _ = true |- _ => apply negb_true_iff in H
  | H : negb _ = false |- _ => apply negb_false_iff in H
  | H : (_ <=? _) = true |- _ => apply Nat.leb_le in H
  | H : (_ <=? _) = false |- _ => apply Nat.leb_gt in H
  | H : (_ <? _) = true |- _ => apply Nat.ltb_lt in H
  | H : (_ <? _) = false |- _ => apply Nat.ltb_ge in H
  | H : (_ =? _) = true |- _ => apply Nat.eqb_eq in H
  | H : (_ =? _) = false |- _ => apply Nat.eqb_neq in H
  | H : bool_decide _ = true |- _ => apply bool_decide_eq_true in H
  | H : bool_decide _ = false |- _ => apply bool_decide_eq_false in H
  end.

(** Case split on the scrutinees of the hypothesis, innermost first. *)
Ltac break_match_in H :=
  match type of H with
  | context [match ?x with _ => _ end] =>
      lazymatch x with
      | context [match _ with _ => _ end] => fail
      | _ => let E := fresh "E" in destruct x eqn:E
      end
  end.

Ltac break_match :=
  match goal with
  | |- context [match ?x with _ => _ end] =>
      lazymatch x with
      | context [match _ with _ => _ end] => fail
      | _ => let E := fresh "E" in destruct x eqn:E
      end
  end.

(** ** Lemmas on lists and strings *)

Lemma alter_last_snoc {A} (f : A -> A) l x : alter_last f (l ++ [x]) = l ++ [f x].
Proof. induction l as [|y [|z l] IH]; simpl in *; congruence. Qed.

Lemma alter_last_cases {A} (f : A -> A) (l : list A) :
  l = [] \/ exists init x, l = init ++ [x] /\ alter_last f l = init ++ [f x].
Proof.
  destruct l as [|x init _] using rev_ind; [by left|right].
  exists init, x. by rewrite alter_last_snoc.
Qed.

Lemma is_empty_true {A} (l : list A) : is_empty l = true <-> l = [].
Proof. by destruct l. Qed.

Lemma is_empty_false {A} (l : list A) : is_empty l = false <-> l <> [].
Proof. by destruct l. Qed.

Lemma str_eqb_true a b : str_eqb a b = true <-> a = b.
Proof. apply bool_decide_eq_true. Qed.

Lemma str_eqb_refl a : str_eqb a a = true.
Proof. by apply str_eqb_true. Qed.

Lemma strip_prefix_Some p s r : strip_prefix p s = Some r <-> s = p ++ r.
Proof.
  revert s. induction p as [|a p IH]; intros [|b s]; simpl;
    try by split; congruence.
  destruct (N.eqb_spec a b) as [->|Hne]; [rewrite IH|]; split; congruence.
Qed.

#[global] Arguments strip_prefix : simpl never.

Lemma strip_prefix_app p r : strip_prefix p (p ++ r) = Some r.
Proof. by apply strip_prefix_Some. Qed.

Lemma strip_suffix_Some p s r : strip_suffix p s = Some r <-> s = r ++ p.
Proof.
  unfold strip_suffix. rewrite fmap_Some. split.
  - intros (q & Hq%strip_prefix_Some & ->).
    apply (f_equal reverse) in Hq.
    by rewrite reverse_app, !reverse_involutive in Hq.
  - intros ->. exists (reverse r).
    by rewrite reverse_app, strip_prefix_app, reverse_involutive.
Qed.

#[export] Hint Rewrite @alter_last_snoc str_eqb_refl strip_prefix_app : codex_rw.

(** *** Trimming *)

Lemma drop_while_app_ne {A} (p : A -> bool) l1 l2 :
  drop_while p l1 <> [] -> drop_while p (l1 ++ l2) = drop_while p l1 ++ l2.
Proof. induction l1 as [|x l1 IH]; simpl; [done|]. destruct (p x); auto. Qed.

Lemma drop_while_app_nil {A} (p : A -> bool) l1 l2 :
  drop_while p l1 = [] -> drop_while p (l1 ++ l2) = drop_while p l2.
Proof. induction l1 as [|x l1 IH]; simpl; [done|]. destruct (p x); auto; done. Qed.

Lemma drop_while_end_snoc {A} (p : A -> bool) l x :
  drop_while_end p (l ++ [x]) = if p x then drop_while_end p l else l ++ [x].
Proof.
  unfold drop_while_end. rewrite reverse_snoc. simpl. destruct (p x); [done|].
  by rewrite reverse_cons, reverse_involutive.
Qed.

Lemma drop_while_end_prefix {A} (p : A -> bool) l :
  exists r, l = drop_while_end p l ++ r /\ Forall (fun x => p x = true) r.
Proof.
  induction l as [|x l IH] using rev_ind; [by exists []|]. rewrite drop_while_end_snoc.
  destruct (p x) eqn:E; [|by exists []; rewrite app_nil_r].
  destruct IH as (r & Hl & Hr). exists (r ++ [x]). rewrite app_assoc, <- Hl.
  split; [done|]. apply Forall_app. split; [done|by constructor].
Qed.

Lemma drop_while_idemp {A} (p : A -> bool) l :
  drop_while p (drop_while p l) = drop_while p l.
Proof. induction l as [|x l IH]; simpl; [done|]. destruct (p x) eqn:E; simpl; by rewrite ?E. Qed.

Lemma drop_while_nil_iff {A} (p : A -> bool) l :
  drop_while p l = [] <-> Forall (fun x => p x = true) l.
Proof.
  induction l as [|x l IH]; simpl; [by split|].
  rewrite Forall_cons. destruct (p x); [rewrite IH; tauto|]. split; [done|].
  by intros [? _].
Qed.

Lemma drop_while_suffix {A} (p : A -> bool) l : exists l', l = l' ++ drop_while p l.
Proof.
  induction l as [|x l [l' IH]]; simpl; [by exists []|].
  destruct (p x); [|by exists []]. exists (x :: l'). simpl. by f_equal.
Qed.

Lemma reverse_nil_iff {A} (l : list A) : reverse l = [] <-> l = [].
Proof.
  split; [|by intros ->]. intros H. by rewrite <- (reverse_involutive l), H.
Qed.

(** [trim_end] from the front: a character survives when it is not blank or
    something after it survives. *)
Lemma trim_end_cons c s :
  trim_end (c :: s) =
  match trim_end s with
  | [] => if is_whitespace c then [] else [c]
  | u => c :: u
  end.
Proof.
  unfold trim_end, drop_while_end. rewrite reverse_cons.
  destruct (drop_while is_whitespace (reverse s)) as [|x u] eqn:E.
  - rewrite drop_while_app_nil by done. simpl. by destruct (is_whitespace c).
  - rewrite drop_while_app_ne by by rewrite E.
    rewrite E, reverse_app. simpl.
    destruct (reverse (x :: u)) eqn:Er; [|done].
    apply (proj1 (reverse_nil_iff _)) in Er. done.
Qed.

Lemma trim_end_app a b : trim_end b <> [] -> trim_end (a ++ b) = a ++ trim_end b.
Proof.
  intros Hb. induction a as [|c a IH]; simpl; [done|].
  rewrite trim_end_cons, IH. destruct (a ++ trim_end b) eqn:E; [|done].
  by apply app_nil in E as [_ ?].
Qed.

Lemma trim_end_idemp s : trim_end (trim_end s) = trim_end s.
Proof. unfold trim_end, drop_while_end. by rewrite reverse_involutive, drop_while_idemp. Qed.

(** A string is right-trimmed when [trim_end] leaves it alone. *)
Lemma trim_end_prefix_id a b : b <> [] -> trim_end b = b -> trim_end (a ++ b) = a ++ b.
Proof. intros Hne Hb. rewrite trim_end_app; by rewrite Hb. Qed.

Lemma strip_prefix_head_ne a p c s : a <> c -> strip_prefix (a :: p) (c :: s) = None.
Proof. intros H. unfold strip_prefix. by destruct (N.eqb_spec a c). Qed.

Lemma strip_prefix_nil_cons a p : strip_prefix (a :: p) [] = None.
Proof. done. Qed.

(** *** Splitting into lines *)

Definition no_lf (s : rstr) : Prop := c_lf ∉ s.

Lemma split_inclusive_no_lf s : no_lf s -> s <> [] -> split_inclusive c_lf s = [s].
Proof.
  unfold no_lf. induction s as [|c s IH]; [done|]. intros H _. simpl.
  apply not_elem_of_cons in H as [Hc H].
  destruct (N.eqb_spec c c_lf) as [->|_]; [done|].
  destruct s as [|d s]; [done|]. by rewrite IH.
Qed.

Lemma split_inclusive_line s r :
  no_lf s -> split_inclusive c_lf (s ++ c_lf :: r) = (s ++ [c_lf]) :: split_inclusive c_lf r.
Proof.
  unfold no_lf. induction s as [|c s IH]; simpl; [done|].
  intros [Hc H]%not_elem_of_cons.
  destruct (N.eqb_spec c c_lf) as [->|_]; [done|]. by rewrite IH.
Qed.

(** A line of text that survives the line splitting unchanged. *)
Definition clean_line (s : rstr) : Prop := no_lf s /\ last s <> Some c_cr.

Lemma strip_suffix_last_ne c s : last s <> Some c -> strip_suffix [c] s = None.
Proof.
  intros H. destruct (strip_suffix [c] s) as [r|] eqn:E; [|done].
  apply strip_suffix_Some in E as ->. by rewrite last_snoc in H.
Qed.

Lemma strip_line_ending_clean s : clean_line s -> strip_line_ending (s ++ [c_lf]) = s.
Proof.
  intros [Hlf Hcr]. unfold strip_line_ending.
  replace (strip_suffix [c_lf] (s ++ [c_lf])) with (Some s)
    by (symmetry; by apply strip_suffix_Some).
  by rewrite strip_suffix_last_ne.
Qed.

Lemma strip_line_ending_no_lf s : no_lf s -> strip_line_ending s = s.
Proof.
  intros H. unfold strip_line_ending.
  destruct (strip_suffix [c_lf] s) as [r|] eqn:E; [|done].
  apply strip_suffix_Some in E as ->. exfalso. apply H. set_solver.
Qed.

Lemma join_cons sep x y l : join sep (x :: y :: l) = x ++ sep ++ join sep (y :: l).
Proof. done. Qed.

(** Splitting undoes joining, for clean lines the last of which is not empty. *)
Lemma lines_join ls l :
  Forall clean_line ls -> no_lf l -> l <> [] ->
  lines (join [c_lf] (ls ++ [l])) = ls ++ [l].
Proof.
  intros Hls Hl Hne. unfold lines. induction Hls as [|s ls Hs Hls IH]; simpl.
  - rewrite split_inclusive_no_lf by done. simpl. by rewrite strip_line_ending_no_lf.
  - destruct (ls ++ [l]) as [|y t] eqn:E; [by apply app_nil in E as [_ ?]|].
    change (s ++ [c_lf] ++ join [c_lf] (y :: t)) with (s ++ c_lf :: join [c_lf] (y :: t)).
    rewrite split_inclusive_line by apply Hs. simpl.
    rewrite strip_line_ending_clean by done. by f_equal.
Qed.

(** *** The stable sort *)
Section stable_sort_facts.
Context {A : Type} (key : A -> nat).

Lemma insert_by_key_perm x l : insert_by_key key x l ≡ₚ x :: l.
Proof.
  induction l as [|y l IH]; simpl; [done|].
  destruct (key x <=? key y); [done|]. rewrite IH. apply Permutation_swap.
Qed.

Lemma sort_by_key_perm l : sort_by_key key l ≡ₚ l.
Proof. induction l as [|x l IH]; simpl; [done|]. by rewrite insert_by_key_perm, IH. Qed.

Lemma sort_by_key_sorted l :
  StronglySorted (fun a b => key a <= key b) (sort_by_key key l).
Proof.
  induction l as [|x l IH]; simpl; [constructor|].
  induction IH as [|y r Hr IH Hy]; simpl; [by repeat constructor|].
  destruct (Nat.leb_spec (key x) (key y)) as [Hle|Hlt].
  - constructor; [by constructor|]. constructor; [done|].
    eapply Forall_impl; [exact Hy|]. simpl. lia.
  - constructor; [done|]. rewrite insert_by_key_perm. constructor; [lia|done].
Qed.
End stable_sort_facts.

(** *** Iterators and sums *)

Lemma find_map_Some {A B} (f : A -> option B) l b :
  find_map f l = Some b -> exists a, a ∈ l /\ f a = Some b.
Proof.
  induction l as [|x l IH]; simpl; [done|]. destruct (f x) eqn:E.
  - intros [= ->]. exists x. split; [apply elem_of_cons; by left|done].
  - intros (a & Ha & Hf)%IH. exists a. split; [apply elem_of_cons; by right|done].
Qed.

Lemma find_map_None {A B} (f : A -> option B) l a :
  find_map f l = None -> a ∈ l -> f a = None.
Proof.
  induction l as [|x l IH]; simpl; [by intros _ ?%elem_of_nil|].
  destruct (f x) eqn:E; [done|]. intros H [->|Ha]%elem_of_cons; auto.
Qed.


Lemma max_by_spec {A} (le : A -> A -> bool) (l : list A) :
  (forall a, le a a = true) -> (forall a b, le a b = false -> le b a = true) ->
  (forall a b c, le a b = true -> le b c = true -> le a c = true) ->
  match max_by le l with
  | None => l = []
  | Some m => m ∈ l /\ forall x, x ∈ l -> le x m = true
  end.
Proof.
  intros Hrefl Htot Htrans. induction l as [|y l IH] using rev_ind; [done|].
  unfold max_by in *. rewrite foldl_snoc.
  destruct (foldl _ None l) as [m|]; [|subst l; split; [set_solver|]].
  - destruct IH as [Hm Hmax]. destruct (le m y) eqn:E; (split; [set_solver|]);
      intros x [Hx|Hx]%elem_of_app; eauto; apply list_elem_of_singleton in Hx as ->; eauto.
  - intros x ->%list_elem_of_singleton. apply Hrefl.
Qed.

Lemma mapM_sound {A B} (f : A -> option B) (R : A -> B -> Prop) l k :
  (forall a b, a ∈ l -> f a = Some b -> R a b) -> mapM f l = Some k -> Forall2 R l k.
Proof.
  intros HR H. apply mapM_Some in H. revert HR. induction H; intros HR; constructor.
  - apply HR; [apply elem_of_cons; by left|done].
  - apply IHForall2. intros a b Ha. apply HR. apply elem_of_cons. by right.
Qed.

Lemma sum_list_with_app {A} (f : A -> nat) l k :
  sum_list_with f (l ++ k) = sum_list_with f l + sum_list_with f k.
Proof. induction l; simpl; lia. Qed.

Lemma sum_list_with_reverse {A} (f : A -> nat) l :
  sum_list_with f (reverse l) = sum_list_with f l.
Proof. induction l; rewrite ?reverse_cons, ?sum_list_with_app; simpl; lia. Qed.

Lemma sum_list_with_filter {A} (f : A -> nat) (p : A -> bool) l :
  sum_list_with f (List.filter p l) <= sum_list_with f l.
Proof. induction l as [|x l IH]; simpl; [done|]. destruct (p x); simpl; lia. Qed.

(** ** Parts of strings *)

Lemma drop_while_subset {A} (f : A -> bool) (l : list A) : drop_while f l ⊆ l.
Proof.
  destruct (drop_while_suffix f l) as [l' Hl]. rewrite Hl at 2. intros x Hx.
  apply elem_of_app. by right.
Qed.

Lemma drop_while_end_subset {A} (f : A -> bool) (l : list A) : drop_while_end f l ⊆ l.
Proof.
  unfold drop_while_end. intros x Hx. rewrite elem_of_reverse in Hx. apply drop_while_subset in Hx. by rewrite elem_of_reverse in Hx.
Qed.

Lemma trim_subset s : trim s ⊆ s.
Proof. intros x Hx%drop_while_end_subset%drop_while_subset. done. Qed.

Lemma split_once_subset c s a b : split_once c s = Some (a, b) -> a ⊆ s /\ b ⊆ s.
Proof.
  revert a. induction s as [|x s IH]; intros a; simpl; [done|]. destruct (x =? c)%N.
  - intros [= <- <-]. split; [by intros y Hy%elem_of_nil|]. intros y Hy. by right.
  - destruct (split_once c s) as [[a' b']|]; [|done]. intros [= <- <-].
    destruct (IH a' eq_refl) as [Ha Hb]. split; intros y Hy; [|right; auto].
    apply elem_of_cons in Hy as [->|Hy]; [left|right; auto].
Qed.

Lemma contains_char_false c s : contains_char c s = false <-> c ∉ s.
Proof.
  unfold contains_char. rewrite <- not_true_iff_false, existsb_exists. split.
  - intros Hn Hin. apply Hn. exists c. rewrite N.eqb_refl. by rewrite <- list_elem_of_In.
  - intros Hn (x & Hx & <-%N.eqb_eq). by apply Hn, list_elem_of_In.
Qed.

Lemma to_ascii_lowercase_elem x s :
  x ∈ to_ascii_lowercase s -> (x ∈ s \/ 97 <= x <= 122)%N /\ ~ (65 <= x <= 90)%N.
Proof.
  unfold to_ascii_lowercase. rewrite list_elem_of_fmap. intros (y & -> & Hy).
  destruct (N.leb_spec 65 y), (N.leb_spec y 90); simpl; split; auto; try lia.
Qed.

Lemma split_once_Some c s a b : split_once c s = Some (a, b) -> s = a ++ c :: b.
Proof.
  revert a. induction s as [|x s IH]; simpl; [done|]. intros a.
  destruct (N.eqb_spec x c) as [->|_]; [by intros [= <- <-]|].
  destruct (split_once c s) as [[a' b']|]; [|done]. intros [= <- <-]. by rewrite (IH a').
Qed.

Lemma rsplit_once_Some c s a b : rsplit_once c s = Some (a, b) -> s = a ++ c :: b.
Proof.
  unfold rsplit_once. destruct (split_once c (reverse s)) as [[x y]|] eqn:E; [|done].
  intros [= <- <-]. apply split_once_Some, (f_equal reverse) in E.
  rewrite reverse_involutive in E. by rewrite E, reverse_app, reverse_cons, <- app_assoc.
Qed.

Lemma ends_with_app e s : ends_with e (s ++ e) = true.
Proof. unfold ends_with. by rewrite (proj2 (strip_suffix_Some e (s ++ e) s)). Qed.

Lemma str_len_app a b : str_len (a ++ b) = str_len a + str_len b.
Proof. induction a; simpl; lia. Qed.

Lemma uint_digits_inj a b : uint_digits a = uint_digits b -> a = b.
Proof. revert b. induction a; destruct b; cbn; intros [=]; f_equal; auto. Qed.

Lemma decimal_inj m n : decimal m = decimal n -> m = n.
Proof. intros H%uint_digits_inj. by apply DecimalN.Unsigned.to_uint_inj. Qed.

Lemma decimal_digits n : Forall (fun c => is_ascii_digit c = true) (decimal n).
Proof. unfold decimal. generalize (N.to_uint n). intros d. induction d; cbn; by constructor. Qed.

Lemma take_while_prefix {A} (p : A -> bool) l : exists r, l = take_while p l ++ r.
Proof.
  induction l as [|x l [r IH]]; simpl; [by exists []|]. destruct (p x); [|by exists (x :: l)].
  exists r. simpl. by rewrite <- IH.
Qed.

(** Lines of a text that grows *)
Lemma split_inclusive_app c a b :
  a = [] \/ last a = Some c -> split_inclusive c (a ++ b) = split_inclusive c a ++ split_inclusive c b.
Proof.
  induction a as [|x a IH]; intros Ha; [done|]. destruct Ha as [?|Ha]; [done|]. simpl.
  destruct a as [|y a].
  { simpl in Ha. injection Ha as ->. by rewrite N.eqb_refl. }
  rewrite IH by by right. destruct (x =? c)%N; [done|].
  destruct (split_inclusive c (y :: a)) as [|l ls] eqn:E; [|done].
  simpl in E. destruct (y =? c)%N; [done|]. by destruct (split_inclusive c a).
Qed.

Lemma ends_with_last c s : ends_with [c] s = true <-> last s = Some c.
Proof.
  unfold ends_with. destruct (strip_suffix [c] s) as [r|] eqn:E.
  - apply strip_suffix_Some in E as ->. by rewrite last_snoc.
  - split; [done|]. intros [r ->]%last_Some.
    by rewrite (proj2 (strip_suffix_Some [c] (r ++ [c]) r) eq_refl) in E.
Qed.
