(* ===== verification/PatchTypes.v ===== *)
(** * PatchTypes: the data of the apply-patch crate

    The types of [codex-rs/apply-patch/src/parser.rs] and the update mode of
    [lib.rs]: parse errors, hunks, update chunks, with the well-formedness
    invariant of a chunk that the parser establishes and the file update
    relies on.  A [PathBuf] built from patch text is modelled as that text
    ([display] and [to_string_lossy] give it back). *)

From stdpp Require Import base list gmap strings.
From S2P Require Import Prelude.

Definition BEGIN_PATCH_MARKER : rstr := lit "*** Begin Patch".
Definition END_PATCH_MARKER : rstr := lit "*** End Patch".
Definition ADD_FILE_MARKER : rstr := lit "*** Add File: ".
Definition DELETE_FILE_MARKER : rstr := lit "*** Delete File: ".
Definition UPDATE_FILE_MARKER : rstr := lit "*** Update File: ".
Definition MOVE_TO_MARKER : rstr := lit "*** Move to: ".
Definition EOF_MARKER : rstr := lit "*** End of File".
Definition CHANGE_CONTEXT_MARKER : rstr := lit "@@ ".
Definition EMPTY_CHANGE_CONTEXT_MARKER : rstr := lit "@@".
Definition ENVIRONMENT_ID_MARKER : rstr := lit "*** Environment ID:".

Definition PARSE_IN_STRICT_MODE : bool := false.

Inductive ApplyPatchFileUpdateMode :=
| NormalizeToLf
| PreserveLineEndings.

#[export] Instance update_mode_eq_dec : EqDecision ApplyPatchFileUpdateMode.
Proof. solve_decision. Defined.

Inductive ParseError :=
| InvalidPatchError (message : rstr)
| InvalidHunkError (message : rstr) (line_number : nat).

#[export] Instance parse_error_eq_dec : EqDecision ParseError.
Proof. solve_decision. Defined.

Record UpdateFileChunk := mkChunk {
  change_context : option rstr;
  old_lines : list rstr;
  new_lines : list rstr;
  context_line_indices : list (nat * nat);
  is_end_of_file : bool
}.

Definition default_chunk : UpdateFileChunk := mkChunk None [] [] [] false.

#[export] Instance chunk_eq_dec : EqDecision UpdateFileChunk.
Proof. solve_decision. Defined.

Inductive Hunk :=
| AddFile (path : rstr) (contents : rstr)
| DeleteFile (path : rstr)
| UpdateFile (path : rstr) (move_path : option rstr) (chunks : list UpdateFileChunk).

#[export] Instance hunk_eq_dec : EqDecision Hunk.
Proof. solve_decision. Defined.

(** [Hunk::path]: the move destination for rename hunks. *)
Definition hunk_path (h : Hunk) : rstr :=
  match h with
  | AddFile p _ => p
  | DeleteFile p => p
  | UpdateFile _ (Some p) _ => p
  | UpdateFile p None _ => p
  end.

(** The path [Hunk::resolve_path] joins onto the working directory. *)
Definition resolved_hunk_path (h : Hunk) : rstr :=
  match h with
  | UpdateFile p _ _ => p
  | AddFile _ _ | DeleteFile _ => hunk_path h
  end.

(** [UpdateFileChunk::push_context_line]. *)
Definition push_context_line (line : rstr) (c : UpdateFileChunk) : UpdateFileChunk :=
  mkChunk (change_context c)
    (old_lines c ++ [line])
    (new_lines c ++ [line])
    (context_line_indices c ++ [(length (old_lines c), length (new_lines c))])
    (is_end_of_file c).

Definition push_old_line (line : rstr) (c : UpdateFileChunk) : UpdateFileChunk :=
  mkChunk (change_context c) (old_lines c ++ [line]) (new_lines c)
    (context_line_indices c) (is_end_of_file c).

Definition push_new_line (line : rstr) (c : UpdateFileChunk) : UpdateFileChunk :=
  mkChunk (change_context c) (old_lines c) (new_lines c ++ [line])
    (context_line_indices c) (is_end_of_file c).

Definition mark_end_of_file (c : UpdateFileChunk) : UpdateFileChunk :=
  mkChunk (change_context c) (old_lines c) (new_lines c)
    (context_line_indices c) true.

(** A chunk with neither removed nor added nor context lines. *)
Definition chunk_is_empty (c : UpdateFileChunk) : bool :=
  is_empty (old_lines c) && is_empty (new_lines c).

Record ApplyPatchArgs := mkArgs {
  patch : rstr;
  hunks : list Hunk;
  workdir : option rstr;
  environment_id : option rstr
}.

(** ** Well-formed chunks

    The recorded context pairs point at equal lines of the two sides and
    increase strictly on both sides; [o] and [n] are lower bounds. *)
Fixpoint context_from (olds news : list rstr) (o n : nat) (idx : list (nat * nat)) : Prop :=
  match idx with
  | [] => True
  | (a, b) :: r =>
      o <= a /\ n <= b /\ a < length olds /\ b < length news
      /\ olds !! a = news !! b /\ context_from olds news (S a) (S b) r
  end.

Definition chunk_wf (c : UpdateFileChunk) : Prop :=
  context_from (old_lines c) (new_lines c) 0 0 (context_line_indices c).

#[export] Instance context_from_dec olds news o n idx :
  Decision (context_from olds news o n idx).
Proof.
  revert o n. induction idx as [|[a b] r IH]; intros o n; simpl; [apply _|].
  specialize (IH (S a) (S b)). apply _.
Defined.

#[export] Instance chunk_wf_dec c : Decision (chunk_wf c).
Proof. unfold chunk_wf. apply _. Defined.

Definition hunk_wf (h : Hunk) : Prop :=
  match h with
  | UpdateFile _ _ cs => Forall chunk_wf cs
  | _ => True
  end.

(** Appending to either side keeps the recorded pairs valid. *)
Lemma context_from_app olds news olds' news' o n idx :
  context_from olds news o n idx ->
  context_from (olds ++ olds') (news ++ news') o n idx.
Proof.
  revert o n. induction idx as [|[a b] r IH]; intros o n; simpl; [done|].
  intros (? & ? & Ha & Hb & Heq & Hr).
  rewrite !length_app, !lookup_app_l by done.
  repeat split; try lia; auto.
Qed.

Lemma context_from_snoc olds news o n idx line :
  context_from olds news o n idx ->
  o <= length olds -> n <= length news ->
  context_from (olds ++ [line]) (news ++ [line]) o n
    (idx ++ [(length olds, length news)]).
Proof.
  intros H Ho Hn.
  assert (Hend : context_from (olds ++ [line]) (news ++ [line])
            (length olds) (length news) [(length olds, length news)]).
  { simpl. rewrite !length_app. simpl.
    rewrite !lookup_app_r, !Nat.sub_diag by lia. repeat split; auto; lia. }
  revert o n H Ho Hn. induction idx as [|[a b] r IH]; intros o n; simpl.
  - intros _ Ho Hn. destruct Hend as (_ & _ & Hrest).
    split; [done|]. split; [done|exact Hrest].
  - intros (? & ? & Ha & Hb & Heq & Hr) _ _.
    rewrite !length_app, !lookup_app_l by done.
    split_and!; try lia; [done|]. apply IH; [done|lia|lia].
Qed.

Lemma default_chunk_wf : chunk_wf default_chunk.
Proof. done. Qed.

Lemma push_context_line_wf line c : chunk_wf c -> chunk_wf (push_context_line line c).
Proof. intros H. apply context_from_snoc; [exact H|lia|lia]. Qed.

Lemma push_old_line_wf line c : chunk_wf c -> chunk_wf (push_old_line line c).
Proof.
  intros H. unfold chunk_wf, push_old_line; simpl.
  rewrite <- (app_nil_r (new_lines c)). by apply context_from_app.
Qed.

Lemma push_new_line_wf line c : chunk_wf c -> chunk_wf (push_new_line line c).
Proof.
  intros H. unfold chunk_wf, push_new_line; simpl.
  rewrite <- (app_nil_r (old_lines c)). by apply context_from_app.
Qed.

Lemma mark_end_of_file_wf c : chunk_wf c -> chunk_wf (mark_end_of_file c).
Proof. done. Qed.

#[export] Hint Resolve default_chunk_wf push_context_line_wf push_old_line_wf
  push_new_line_wf mark_end_of_file_wf : codex.
