(* ===== verification/StreamingParser.v ===== *)
(** * StreamingParser: [codex-rs/apply-patch/src/streaming_parser.rs] and [parser.rs]

    The incremental patch parser, and [parse_patch] on top of it.  Its state is the record
    [StreamingPatchParser]; a method that takes [&mut self] and returns a
    [Result] becomes a function returning the result together with the state
    the object is left in, on the error paths too. *)

From stdpp Require Import base list gmap strings.
From S2P Require Import Prelude PatchTypes.

Open Scope rust_scope.

Inductive StreamingParserMode :=
| NotStarted
| StartedPatch
| InAddFile
| InDeleteFile
| InUpdateFile (hunk_line_number : nat)
| EndedPatch.

Record StreamingParserState := mkState {
  mode : StreamingParserMode;
  st_hunks : list Hunk;
  st_environment_id : option rstr
}.

Record StreamingPatchParser := mkParser {
  line_buffer : rstr;
  state : StreamingParserState;
  line_number : nat
}.

Definition default_parser : StreamingPatchParser :=
  mkParser [] (mkState NotStarted [] None) 0.

Definition set_mode (m : StreamingParserMode) (p : StreamingPatchParser) :=
  mkParser (line_buffer p)
    (mkState m (st_hunks (state p)) (st_environment_id (state p))) (line_number p).

Definition set_hunks (hs : list Hunk) (p : StreamingPatchParser) :=
  mkParser (line_buffer p)
    (mkState (mode (state p)) hs (st_environment_id (state p))) (line_number p).

Definition set_environment_id (e : option rstr) (p : StreamingPatchParser) :=
  mkParser (line_buffer p)
    (mkState (mode (state p)) (st_hunks (state p)) e) (line_number p).

(** Push a hunk and switch mode, the common tail of the header branches. *)
Definition start_hunk (h : Hunk) (m : StreamingParserMode) (p : StreamingPatchParser) :=
  set_mode m (set_hunks (st_hunks (state p) ++ [h]) p).

Definition parser_environment_id (p : StreamingPatchParser) : option rstr :=
  st_environment_id (state p).

(** ** Messages *)
Definition msg_first_line : rstr :=
  lit "The first line of the patch must be '*** Begin Patch'".
Definition msg_last_line : rstr :=
  lit "The last line of the patch must be '*** End Patch'".
Definition msg_no_lines : rstr := lit "Update hunk does not contain any lines".
Definition msg_unexpected (line : rstr) : rstr :=
  lit "Unexpected line found in update hunk: '" ++ line ++
  lit "'. Every line should start with ' ' (context line), '+' (added line), or '-' (removed line)".
Definition msg_expected_context (line : rstr) : rstr :=
  lit "Expected update hunk to start with a @@ context marker, got: '" ++ line ++ lit "'".
Definition msg_bad_header (trimmed : rstr) : rstr :=
  lit "'" ++ trimmed ++
  lit "' is not a valid hunk header. Valid hunk headers: '*** Add File: {path}', '*** Delete File: {path}', '*** Update File: {path}'".
Definition msg_empty_hunk (path : rstr) : rstr :=
  lit "Update file hunk for path '" ++ path ++ lit "' is empty".

(** ** [ensure_update_hunk_is_not_empty] *)
Definition ensure_update_hunk_is_not_empty (line : rstr) (p : StreamingPatchParser)
  : result ParseError unit :=
  match last (st_hunks (state p)) with
  | Some (UpdateFile path _ chunks) =>
      match is_empty chunks, mode (state p) with
      | true, InUpdateFile hunk_line_number =>
          Err (InvalidHunkError (msg_empty_hunk path) hunk_line_number)
      | _, _ =>
          if is_some_and (last chunks) chunk_is_empty then
            if line == END_PATCH_MARKER
            then Err (InvalidHunkError msg_no_lines (line_number p))
            else Err (InvalidHunkError (msg_unexpected line) (line_number p))
          else Ok tt
      end
  | _ => Ok tt
  end.

(** ** [handle_hunk_headers_and_end_patch] *)
Definition environment_line (trimmed : rstr) (p : StreamingPatchParser) : option rstr :=
  match mode (state p) with
  | StartedPatch => strip_prefix ENVIRONMENT_ID_MARKER trimmed
  | _ => None
  end.

Definition guarded (line : rstr) (k : StreamingPatchParser) (p : StreamingPatchParser)
  : result ParseError bool * StreamingPatchParser :=
  match ensure_update_hunk_is_not_empty line p with
  | Ok _ => (Ok true, k)
  | Err e => (Err e, p)
  end.

Definition handle_hunk_headers_and_end_patch (trimmed : rstr) (p : StreamingPatchParser)
  : result ParseError bool * StreamingPatchParser :=
  match environment_line trimmed p with
  | Some environment_id =>
      if is_some (st_environment_id (state p))
      then (Err (InvalidPatchError
             (lit "apply_patch environment_id cannot be specified more than once")), p)
      else
        let environment_id := trim environment_id in
        if is_empty environment_id
        then (Err (InvalidPatchError
               (lit "apply_patch environment_id cannot be empty")), p)
        else (Ok true, set_environment_id (Some environment_id) p)
  | None =>
  if trimmed == END_PATCH_MARKER then guarded trimmed (set_mode EndedPatch p) p
  else match strip_prefix ADD_FILE_MARKER trimmed with
  | Some path => guarded trimmed (start_hunk (AddFile path []) InAddFile p) p
  | None =>
  match strip_prefix DELETE_FILE_MARKER trimmed with
  | Some path => guarded trimmed (start_hunk (DeleteFile path) InDeleteFile p) p
  | None =>
  match strip_prefix UPDATE_FILE_MARKER trimmed with
  | Some path =>
      guarded trimmed
        (start_hunk (UpdateFile path None []) (InUpdateFile (line_number p)) p) p
  | None => (Ok false, p)
  end end end end.

(** ** The line handlers of [process_line], one per mode *)

(** [if chunks.is_empty() { chunks.push(default) }] before a change line. *)
Definition ensure_chunk (chunks : list UpdateFileChunk) : list UpdateFileChunk :=
  if is_empty chunks then [default_chunk] else chunks.

Definition is_context_marker (update_line : rstr) : bool :=
  (update_line == EMPTY_CHANGE_CONTEXT_MARKER)
  || starts_with CHANGE_CONTEXT_MARKER update_line.

(** The body of the [UpdateFile] arm on the hunk being built: its move path
    and chunks.  Every error is returned before anything is changed. *)
Definition update_hunk_line (line : rstr) (line_number : nat)
    (move_path : option rstr) (chunks : list UpdateFileChunk)
  : result ParseError (option rstr * list UpdateFileChunk) :=
  let update_line := trim_end line in
  if is_some_and (last chunks) is_end_of_file && is_empty update_line
  then Ok (move_path, chunks)
  else if is_some_and (last chunks) is_end_of_file && negb (is_context_marker update_line)
  then Err (InvalidHunkError (msg_expected_context line) line_number)
  else match (if is_empty chunks && negb (is_some move_path)
              then strip_prefix MOVE_TO_MARKER update_line else None) with
  | Some move_to_path => Ok (Some move_to_path, chunks)
  | None =>
  if is_context_marker update_line && is_some_and (last chunks) chunk_is_empty
  then Err (InvalidHunkError (msg_unexpected line) line_number)
  else if update_line == EMPTY_CHANGE_CONTEXT_MARKER
  then Ok (move_path, chunks ++ [default_chunk])
  else match strip_prefix CHANGE_CONTEXT_MARKER update_line with
  | Some ctx => Ok (move_path, chunks ++ [mkChunk (Some ctx) [] [] [] false])
  | None =>
  if update_line == EOF_MARKER then
    if is_some_and (last chunks) chunk_is_empty
    then Err (InvalidHunkError msg_no_lines line_number)
    else Ok (move_path, alter_last mark_end_of_file chunks)
  else if is_empty line
  then Ok (move_path, alter_last (push_context_line []) (ensure_chunk chunks))
  else match strip_prefix (lit " ") line with
  | Some l => Ok (move_path, alter_last (push_context_line l) (ensure_chunk chunks))
  | None =>
  match strip_prefix (lit "+") line with
  | Some l => Ok (move_path, alter_last (push_new_line l) (ensure_chunk chunks))
  | None =>
  match strip_prefix (lit "-") line with
  | Some l => Ok (move_path, alter_last (push_old_line l) (ensure_chunk chunks))
  | None =>
  if is_some_and (last chunks) (fun c => negb (chunk_is_empty c))
  then Err (InvalidHunkError (msg_expected_context line) line_number)
  else Err (InvalidHunkError (msg_unexpected line) line_number)
  end end end end end.

(** [hunks.last_mut()] seen as an [UpdateFile]. *)
Definition process_update_line (line : rstr) (p : StreamingPatchParser)
  : result ParseError unit * StreamingPatchParser :=
  match last (st_hunks (state p)) with
  | Some (UpdateFile path move_path chunks) =>
      match update_hunk_line line (line_number p) move_path chunks with
      | Ok (move_path', chunks') =>
          (Ok tt, set_hunks (alter_last (fun _ => UpdateFile path move_path' chunks')
                               (st_hunks (state p))) p)
      | Err e => (Err e, p)
      end
  | _ => (Err (InvalidHunkError (msg_unexpected line) (line_number p)), p)
  end.

Definition process_add_line (line : rstr) (p : StreamingPatchParser)
  : result ParseError unit * StreamingPatchParser :=
  match strip_prefix (lit "+") line, last (st_hunks (state p)) with
  | Some line_to_add, Some (AddFile path contents) =>
      (Ok tt, set_hunks (alter_last
                (fun _ => AddFile path (contents ++ line_to_add ++ [c_lf]))
                (st_hunks (state p))) p)
  | _, _ => (Err (InvalidHunkError (msg_bad_header (trim line)) (line_number p)), p)
  end.

(** [if self.handle_hunk_headers_and_end_patch(t)? { return Ok(()) }]. *)
Definition or_header (t : rstr)
    (k : StreamingPatchParser -> result ParseError unit * StreamingPatchParser)
    (p : StreamingPatchParser) : result ParseError unit * StreamingPatchParser :=
  match handle_hunk_headers_and_end_patch t p with
  | (Ok true, p') => (Ok tt, p')
  | (Ok false, p') => k p'
  | (Err e, p') => (Err e, p')
  end.

Definition reject_header (line : rstr) (p : StreamingPatchParser)
  : result ParseError unit * StreamingPatchParser :=
  (Err (InvalidHunkError (msg_bad_header (trim line)) (line_number p)), p).

Definition process_line (line : rstr) (p : StreamingPatchParser)
  : result ParseError unit * StreamingPatchParser :=
  let trimmed := trim line in
  match mode (state p) with
  | NotStarted =>
      if trimmed == BEGIN_PATCH_MARKER then (Ok tt, set_mode StartedPatch p)
      else (Err (InvalidPatchError msg_first_line), p)
  | StartedPatch => or_header trimmed (reject_header line) p
  | InAddFile => or_header trimmed (process_add_line line) p
  | InDeleteFile => or_header trimmed (reject_header line) p
  | InUpdateFile _ => or_header (trim_end line) (process_update_line line) p
  | EndedPatch =>
      if is_empty trimmed then (Ok tt, p)
      else (Err (InvalidPatchError msg_last_line), p)
  end.

(** ** [push_delta] and [finish] *)

(** [line.truncate(line.strip_suffix('\r').map_or(line.len(), str::len))]. *)
Definition chomp_cr (line : rstr) : rstr := default line (strip_suffix [c_cr] line).

(** [std::mem::take(&mut self.line_buffer)] and [self.line_number += 1]. *)
Definition take_line (p : StreamingPatchParser) : StreamingPatchParser :=
  mkParser [] (state p) (S (line_number p)).

Definition push_char (ch : N) (p : StreamingPatchParser)
  : result ParseError unit * StreamingPatchParser :=
  if (ch =? c_lf)%N
  then process_line (chomp_cr (line_buffer p)) (take_line p)
  else (Ok tt, mkParser (line_buffer p ++ [ch]) (state p) (line_number p)).

Fixpoint push_chars (delta : rstr) (p : StreamingPatchParser)
  : result ParseError unit * StreamingPatchParser :=
  match delta with
  | [] => (Ok tt, p)
  | ch :: rest =>
      match push_char ch p with
      | (Ok _, p') => push_chars rest p'
      | (Err e, p') => (Err e, p')
      end
  end.

Definition push_delta (delta : rstr) (p : StreamingPatchParser)
  : result ParseError (list Hunk) * StreamingPatchParser :=
  match push_chars delta p with
  | (Ok _, p') => (Ok (st_hunks (state p')), p')
  | (Err e, p') => (Err e, p')
  end.

(** The buffered last line, without a line feed. *)
Definition finish_line (p : StreamingPatchParser)
  : result ParseError unit * StreamingPatchParser :=
  if is_empty (line_buffer p) then (Ok tt, p)
  else
    let line := line_buffer p in
    let p' := take_line p in
    if trim line == END_PATCH_MARKER then
      match ensure_update_hunk_is_not_empty (trim line) p' with
      | Ok _ => (Ok tt, set_mode EndedPatch p')
      | Err e => (Err e, p')
      end
    else process_line line p'.

Definition finish (p : StreamingPatchParser)
  : result ParseError (list Hunk) * StreamingPatchParser :=
  match finish_line p with
  | (Err e, p') => (Err e, p')
  | (Ok _, p') =>
      match mode (state p') with
      | EndedPatch => (Ok (st_hunks (state p')), p')
      | _ => (Err (InvalidPatchError msg_last_line), p')
      end
  end.

(** ** Feeding text in pieces *)

(** Successive [push_delta] calls, stopping at the first error. *)
Fixpoint push_deltas (deltas : list rstr) (p : StreamingPatchParser)
  : result ParseError (list Hunk) * StreamingPatchParser :=
  match deltas with
  | [] => (Ok (st_hunks (state p)), p)
  | d :: ds =>
      match push_delta d p with
      | (Ok _, p') => push_deltas ds p'
      | (Err e, p') => (Err e, p')
      end
  end.

Lemma push_chars_app a b p :
  push_chars (a ++ b) p =
  match push_chars a p with
  | (Ok _, p') => push_chars b p'
  | (Err e, p') => (Err e, p')
  end.
Proof.
  revert p. induction a as [|ch a IH]; intros p; simpl; [done|].
  destruct (push_char ch p) as [[[]|e] p']; [apply IH|done].
Qed.

Lemma push_deltas_push_chars ds p :
  push_deltas ds p =
  match push_chars (concat ds) p with
  | (Ok _, p') => (Ok (st_hunks (state p')), p')
  | (Err e, p') => (Err e, p')
  end.
Proof.
  revert p. induction ds as [|d ds IH]; intros p; simpl; [done|].
  rewrite push_chars_app. unfold push_delta.
  destruct (push_chars d p) as [[[]|e] p']; [apply IH|done].
Qed.

(** ** The parser invariant *)

(** A hunk the parser may return: an update hunk has chunks, none empty. *)
Definition hunk_complete (h : Hunk) : Prop :=
  match h with
  | UpdateFile _ _ chunks =>
      chunks <> [] /\ Forall (fun c => chunk_is_empty c = false) chunks
  | AddFile _ contents => contents = [] \/ last contents = Some c_lf
  | DeleteFile _ => True
  end.

(** The chunks of the hunk under construction: only the last may be empty. *)
Definition chunks_open (chunks : list UpdateFileChunk) : Prop :=
  chunks = [] \/
  exists init c, chunks = init ++ [c] /\
    Forall (fun c => chunk_is_empty c = false) init.

Definition mode_inv (m : StreamingParserMode) (hs : list Hunk) : Prop :=
  match m with
  | NotStarted | StartedPatch => hs = []
  | InAddFile =>
      exists init path contents, hs = init ++ [AddFile path contents] /\
        Forall hunk_complete (init ++ [AddFile path contents])
  | InDeleteFile =>
      exists init path, hs = init ++ [DeleteFile path] /\ Forall hunk_complete init
  | InUpdateFile _ =>
      exists init path mv chunks, hs = init ++ [UpdateFile path mv chunks] /\
        Forall hunk_complete init /\ chunks_open chunks
  | EndedPatch => Forall hunk_complete hs
  end.

Definition parser_inv (p : StreamingPatchParser) : Prop :=
  mode_inv (mode (state p)) (st_hunks (state p)) /\
  Forall hunk_wf (st_hunks (state p)).

Lemma default_parser_inv : parser_inv default_parser.
Proof. split; [done|constructor]. Qed.

Lemma take_line_inv p : parser_inv p -> parser_inv (take_line p).
Proof. done. Qed.

Lemma chunks_open_ensure chunks : chunks_open chunks -> chunks_open (ensure_chunk chunks).
Proof.
  intros H. unfold ensure_chunk. destruct (is_empty chunks); [|done].
  right. by exists [], default_chunk.
Qed.

Lemma chunks_open_alter f chunks : chunks_open chunks -> chunks_open (alter_last f chunks).
Proof.
  intros [->|(init & c & -> & H)]; [by left|].
  right. rewrite alter_last_snoc. eauto.
Qed.

(** Appending a fresh chunk is allowed when the last one is not empty. *)
Lemma chunks_open_snoc chunks c :
  chunks_open chunks -> is_some_and (last chunks) chunk_is_empty = false ->
  chunks_open (chunks ++ [c]).
Proof.
  intros [->|(init & d & -> & H)] Hl; right.
  - by exists [], c.
  - exists (init ++ [d]), c. split; [done|].
    rewrite last_snoc in Hl. apply Forall_app; auto.
Qed.

Lemma Forall_alter_last {A} (P : A -> Prop) f l :
  (forall x, P x -> P (f x)) -> Forall P l -> Forall P (alter_last f l).
Proof.
  intros Hf H. destruct (alter_last_cases f l) as [->|(init & x & -> & ->)]; [done|].
  apply Forall_app in H as [? Hx]. apply Forall_app; split; [done|].
  rewrite Forall_singleton in *. auto.
Qed.

Lemma Forall_wf_ensure chunks :
  Forall chunk_wf chunks -> Forall chunk_wf (ensure_chunk chunks).
Proof.
  unfold ensure_chunk. destruct (is_empty chunks); auto using default_chunk_wf.
Qed.

#[export] Hint Resolve default_parser_inv take_line_inv chunks_open_ensure
  chunks_open_alter chunks_open_snoc Forall_alter_last Forall_wf_ensure : codex.

(** What one line does to the hunk under construction. *)
Lemma update_hunk_line_inv line ln mv chunks mv' chunks' :
  update_hunk_line line ln mv chunks = Ok (mv', chunks') ->
  chunks_open chunks -> Forall chunk_wf chunks ->
  chunks_open chunks' /\ Forall chunk_wf chunks'.
Proof.
  intros H Ho Hw. unfold update_hunk_line, is_context_marker in H.
  destruct (is_some_and (last chunks) chunk_is_empty) eqn:Hlast.
  all: repeat (break_match_in H; simplify_eq).
  all: rewrite ?andb_true_r, ?andb_false_r in *; simplify_eq.
  all: unfold starts_with in *; repeat match goal with
       | E : strip_prefix ?a ?b = _, E' : context [strip_prefix ?a ?b] |- _ =>
           rewrite E in E'
       end; rewrite ?orb_true_r in *; simplify_eq.
  all: split; eauto 6 with codex.
  all: try (apply Forall_app; split; [done|]; repeat constructor).
  all: auto 8 with codex.
Qed.

(** When the emptiness check passes, the finished hunk is complete. *)
Lemma ensure_update_hunk_complete line p :
  parser_inv p -> ensure_update_hunk_is_not_empty line p = Ok tt ->
  Forall hunk_complete (st_hunks (state p)).
Proof.
  intros [Hm _]. unfold ensure_update_hunk_is_not_empty.
  destruct p as [buf [m hs env] ln]; simpl in *.
  destruct m; simpl in Hm.
  - by subst.
  - by subst.
  - destruct Hm as (init & path & contents & -> & H). done.
  - destruct Hm as (init & path & -> & H). intros _.
    apply Forall_app. by split; [|repeat constructor].
  - destruct Hm as (init & path & mv & chunks & -> & H & Ho).
    rewrite last_snoc. intros Hens. apply Forall_app; split; [done|].
    apply Forall_singleton. simpl.
    destruct Ho as [->|(ci & c & -> & Hc)]; [done|].
    rewrite last_snoc in Hens. simpl in Hens.
    split; [by intros [_ ?]%app_nil|]. apply Forall_app; split; [done|].
    apply Forall_singleton.
    destruct (is_empty (ci ++ [c])) eqn:E; [by apply is_empty_true, app_nil in E as [_ ?]|].
    destruct (chunk_is_empty c); [|done]. by destruct (line == END_PATCH_MARKER).
  - done.
Qed.

Lemma guarded_inv line k p :
  parser_inv p ->
  (Forall hunk_complete (st_hunks (state p)) -> parser_inv k) ->
  parser_inv (guarded line k p).2.
Proof.
  intros Hp Hk. unfold guarded.
  destruct (ensure_update_hunk_is_not_empty line p) as [[]|e] eqn:E; simpl; [|done].
  apply Hk. by eapply ensure_update_hunk_complete.
Qed.

(** A header starts a well-formed hunk after complete ones. *)
Lemma start_hunk_inv h m p :
  parser_inv p -> hunk_wf h ->
  (forall init, Forall hunk_complete init -> mode_inv m (init ++ [h])) ->
  Forall hunk_complete (st_hunks (state p)) -> parser_inv (start_hunk h m p).
Proof.
  intros [_ Hw] Hh Hm Hc. split; simpl; [by apply Hm|].
  apply Forall_app; split; [done|]. by apply Forall_singleton.
Qed.

Lemma handle_header_inv t p :
  parser_inv p -> parser_inv (handle_hunk_headers_and_end_patch t p).2.
Proof.
  intros Hp. unfold handle_hunk_headers_and_end_patch.
  destruct (environment_line t p) as [env|]; [by repeat break_match|].
  destruct (t == END_PATCH_MARKER).
  { apply guarded_inv; [done|]. intros Hc. by split; [|apply Hp]. }
  destruct (strip_prefix ADD_FILE_MARKER t) as [path|].
  { apply guarded_inv; [done|]. apply start_hunk_inv; [done..|].
    intros init Hc. exists init, path, []. split; [done|].
    apply Forall_app; split; [done|]. apply Forall_singleton. by left. }
  destruct (strip_prefix DELETE_FILE_MARKER t) as [path|].
  { apply guarded_inv; [done|]. apply start_hunk_inv; [done..|].
    intros init Hc. by exists init, path. }
  destruct (strip_prefix UPDATE_FILE_MARKER t) as [path|]; [|done].
  apply guarded_inv; [done|]. apply start_hunk_inv; [done|constructor|].
  intros init Hc. exists init, path, None, []. by split_and!; [| |left].
Qed.

(** A header test that does not apply leaves the state unchanged. *)
Lemma handle_header_false t p p' :
  handle_hunk_headers_and_end_patch t p = (Ok false, p') -> p' = p.
Proof.
  unfold handle_hunk_headers_and_end_patch, guarded. intros H.
  by repeat (break_match_in H; simplify_eq).
Qed.

Lemma process_update_line_inv line n p :
  mode (state p) = InUpdateFile n -> parser_inv p ->
  parser_inv (process_update_line line p).2.
Proof.
  destruct p as [buf [m hs env] ln]; simpl. intros -> [Hm Hw]; simpl in *.
  destruct Hm as (init & path & mv & chunks & -> & Hc & Ho).
  unfold process_update_line; simpl. rewrite last_snoc.
  apply Forall_app in Hw as [Hwi Hwl]. rewrite Forall_singleton in Hwl.
  destruct (update_hunk_line line ln mv chunks) as [[mv' chunks']|e] eqn:E; simpl.
  - destruct (update_hunk_line_inv _ _ _ _ _ _ E Ho Hwl) as [Ho' Hw'].
    rewrite alter_last_snoc. split; simpl.
    + exists init, path, mv', chunks'. done.
    + apply Forall_app; split; [done|]. by apply Forall_singleton.
  - split; simpl; [by exists init, path, mv, chunks|].
    apply Forall_app; split; [done|]. by apply Forall_singleton.
Qed.

Lemma process_add_line_inv line p :
  mode (state p) = InAddFile -> parser_inv p ->
  parser_inv (process_add_line line p).2.
Proof.
  destruct p as [buf [m hs env] ln]; simpl. intros -> [Hm Hw]; simpl in *.
  destruct Hm as (init & path & contents & -> & Hc).
  unfold process_add_line; simpl. rewrite last_snoc.
  apply Forall_app in Hw as [Hwi Hwl].
  destruct (strip_prefix (lit "+") line) as [added|]; simpl; split; simpl.
  - exists init, path, (contents ++ added ++ [c_lf]). rewrite alter_last_snoc.
    split; [done|]. apply Forall_app in Hc as [? _]. apply Forall_app; split; [done|].
    apply Forall_singleton. right. by rewrite app_assoc, last_snoc.
  - rewrite alter_last_snoc. apply Forall_app; split; [done|]. by apply Forall_singleton.
  - by exists init, path, contents.
  - apply Forall_app; split; [done|]. by apply Forall_singleton.
Qed.

Lemma or_header_inv t k p :
  parser_inv p -> parser_inv (k p).2 -> parser_inv (or_header t k p).2.
Proof.
  intros Hp Hk. unfold or_header.
  pose proof (handle_header_inv t p Hp) as Hh.
  destruct (handle_hunk_headers_and_end_patch t p) as [[[]|e] p'] eqn:E; simpl in *; [done| |done].
  by rewrite (handle_header_false _ _ _ E).
Qed.

Lemma process_line_inv line p : parser_inv p -> parser_inv (process_line line p).2.
Proof.
  intros Hp. unfold process_line. destruct (mode (state p)) eqn:Hm.
  - destruct (trim line == BEGIN_PATCH_MARKER); simpl; [|done].
    destruct Hp as [Hi Hw]. rewrite Hm in Hi. by split.
  - by apply or_header_inv.
  - apply or_header_inv; [done|]. by apply process_add_line_inv.
  - by apply or_header_inv.
  - apply or_header_inv; [done|]. by eapply process_update_line_inv.
  - by destruct (is_empty (trim line)).
Qed.

Lemma push_chars_inv delta p : parser_inv p -> parser_inv (push_chars delta p).2.
Proof.
  revert p. induction delta as [|ch delta IH]; intros p Hp; simpl; [done|].
  assert (Hc : parser_inv (push_char ch p).2).
  { unfold push_char. destruct (ch =? c_lf)%N; [by apply process_line_inv|done]. }
  destruct (push_char ch p) as [[[]|e] p']; simpl in *; auto.
Qed.

Lemma finish_line_inv p : parser_inv p -> parser_inv (finish_line p).2.
Proof.
  intros Hp. unfold finish_line.
  destruct (is_empty (line_buffer p)); [done|].
  destruct (trim (line_buffer p) == END_PATCH_MARKER); [|by apply process_line_inv].
  destruct (ensure_update_hunk_is_not_empty _ (take_line p)) as [[]|e] eqn:E; [|done].
  split; simpl; [|apply Hp]. by apply (ensure_update_hunk_complete _ (take_line p)) in E.
Qed.

Lemma finish_complete p hs p' :
  parser_inv p -> finish p = (Ok hs, p') ->
  Forall hunk_complete hs /\ Forall hunk_wf hs.
Proof.
  intros Hp Hf. pose proof (finish_line_inv p Hp) as Hi.
  unfold finish in Hf. destruct (finish_line p) as [[[]|e] q]; simpl in *; [|done].
  destruct Hi as [Hm Hw]. destruct (mode (state q)) eqn:E; simplify_eq. done.
Qed.

(** ** Properties *)

(** The streaming parser does not depend on how the text is cut: feeding it
    in any pieces gives the same result, hunks or error, and leaves the same
    parser state as feeding it at once. *)
Theorem streaming_cut_irrelevant deltas p :
  push_deltas deltas p = push_delta (concat deltas) p.
Proof. apply push_deltas_push_chars. Qed.

(** ** [parser.rs]

    Boundary checks (strict and lenient, the latter unwrapping a heredoc) and
    [parse_patch] on top of the streaming parser. *)

Inductive ParseMode := Strict | Lenient.

(** [check_start_and_end_lines_strict] *)
Definition check_start_and_end_lines_strict (first_line last_line : option rstr)
  : result ParseError unit :=
  match trim <$> first_line, trim <$> last_line with
  | Some first, Some last =>
      if (first == BEGIN_PATCH_MARKER) && (last == END_PATCH_MARKER) then Ok tt
      else if first != BEGIN_PATCH_MARKER then Err (InvalidPatchError msg_first_line)
      else Err (InvalidPatchError msg_last_line)
  | Some first, None =>
      if first != BEGIN_PATCH_MARKER then Err (InvalidPatchError msg_first_line)
      else Err (InvalidPatchError msg_last_line)
  | None, _ => Err (InvalidPatchError msg_last_line)
  end.

Definition check_patch_boundaries_strict (lines : list rstr)
  : result ParseError (list rstr) :=
  match check_start_and_end_lines_strict (head lines) (last lines) with
  | Ok _ => Ok lines
  | Err e => Err e
  end.

Definition heredoc_start (first : rstr) : bool :=
  (first == lit "<<EOF") || (first == lit "<<'EOF'")
  || (first == lit "<<" ++ [c_dquote] ++ lit "EOF" ++ [c_dquote]).

(** [&original_lines[1..original_lines.len() - 1]] *)
Definition inner_lines (lines : list rstr) : list rstr :=
  take (length lines - 2) (drop 1 lines).

Definition check_patch_boundaries_lenient (original_lines : list rstr)
  : result ParseError (list rstr) :=
  match check_patch_boundaries_strict original_lines with
  | Ok lines => Ok lines
  | Err original_parse_error =>
      match original_lines with
      | first :: _ :: _ =>
          if heredoc_start first
             && is_some_and (last original_lines) (ends_with (lit "EOF"))
             && (4 <=? length original_lines)
          then check_patch_boundaries_strict (inner_lines original_lines)
          else Err original_parse_error
      | _ => Err original_parse_error
      end
  end.

Definition parse_patch_text (patch : rstr) (mode : ParseMode)
  : result ParseError ApplyPatchArgs :=
  let lines := lines (trim patch) in
  let checked :=
    match mode with
    | Strict => check_patch_boundaries_strict lines
    | Lenient => check_patch_boundaries_lenient lines
    end in
  match checked with
  | Err e => Err e
  | Ok patch_lines =>
      let patch := join [c_lf] patch_lines in
      match push_delta patch default_parser with
      | (Err e, _) => Err e
      | (Ok _, parser) =>
          match finish parser with
          | (Err e, _) => Err e
          | (Ok hunks, parser') =>
              Ok (mkArgs patch hunks None (parser_environment_id parser'))
          end
      end
  end.

Definition parse_patch (patch : rstr) : result ParseError ApplyPatchArgs :=
  parse_patch_text patch (if PARSE_IN_STRICT_MODE then Strict else Lenient).

(** ** Every accepted patch has complete, well-formed hunks *)
Lemma parse_patch_text_hunks patch m args :
  parse_patch_text patch m = Ok args ->
  Forall hunk_complete (hunks args) /\ Forall hunk_wf (hunks args).
Proof.
  unfold parse_patch_text. destruct (match m with Strict => _ | Lenient => _ end); [|done].
  pose proof (push_chars_inv (join [c_lf] a) default_parser default_parser_inv) as Hi.
  unfold push_delta. destruct (push_chars _ _) as [[[]|e] p]; simpl in *; [|done].
  destruct (finish p) as [[hs|e] p'] eqn:Hf; [|done].
  intros [= <-]. by eapply finish_complete.
Qed.

(** A patch that parses yields only complete and well-formed hunks: an
    update has at least one chunk and none is empty, added contents are empty
    or end in a line feed, and the recorded context pairs of every chunk are
    increasing indices of equal lines of its two sides. *)
Theorem parse_patch_sound patch args :
  parse_patch patch = Ok args ->
  Forall hunk_complete (hunks args) /\ Forall hunk_wf (hunks args).
Proof. apply parse_patch_text_hunks. Qed.

Lemma parse_patch_sound_witness :
  let args := mkArgs (join [c_lf] [lit "*** Begin Patch"; lit "*** Update File: a"; lit "@@";
                                   lit " x"; lit "+y"; lit "*** End Patch"])
                [UpdateFile (lit "a") None
                   [mkChunk None [lit "x"] [lit "x"; lit "y"] [(0, 0)] false]] None None in
  Forall hunk_complete (hunks args) /\ Forall hunk_wf (hunks args).
Proof.
  intros args. apply (parse_patch_sound (lit "<<EOF" ++ [c_lf] ++ patch args ++ [c_lf] ++ lit "EOF")).
  vm_compute. reflexivity.
Defined.
