(* ===== verification/PatchGrammar.v ===== *)
(** * PatchGrammar: the documented patch grammar as a specification

    The comment at the top of [parser.rs] gives the Lark grammar of a patch.
    This file states the part of it that the parser accepts, in which every update
    has a change and every context is followed by a line, as a syntax tree, a printer
    ([render_patch]) and a denotation into hunks ([denote_hunk]), independently of the
    parser, and proves that [parse_patch] accepts every printed tree and returns
    exactly the hunks it denotes.  The second part has the
    whole documented grammar, which lets an update have no change, and a change be
    contexts and lines in any order, while the parser wants every update to have a
    change and every context to be followed by a line: its trees ([doc_hunk]), the
    trees among them that the parser accepts ([tree_of]), and the theorem that it
    accepts exactly those, with the hunks that they denote. *)

From Stdlib Require Import Lia.
From stdpp Require Import base list gmap strings.
From S2P Require Import Prelude PatchTypes StreamingParser.

Open Scope rust_scope.

(** ** Syntax *)
Inductive change_op := Keep (t : rstr) | Insert (t : rstr) | Remove (t : rstr).

(** How a change announces itself; only the first may be [Headless]. *)
Inductive change_header := Headless | EmptyHeader | ContextHeader (c : rstr).

Record change := mkChange {
  ch_header : change_header;
  ch_first : change_op;
  ch_rest : list change_op;
  ch_eof : bool
}.

Inductive hunk_tree :=
| AddTree (path : rstr) (added : list rstr)
| DeleteTree (path : rstr)
| UpdateTree (path : rstr) (move : option rstr) (first : change) (rest : list change).

(** ** Printing *)
Definition render_op (o : change_op) : rstr :=
  match o with
  | Keep t => lit " " ++ t
  | Insert t => lit "+" ++ t
  | Remove t => lit "-" ++ t
  end.

Definition render_header (h : change_header) : list rstr :=
  match h with
  | Headless => []
  | EmptyHeader => [EMPTY_CHANGE_CONTEXT_MARKER]
  | ContextHeader c => [CHANGE_CONTEXT_MARKER ++ c]
  end.

Definition ch_ops (c : change) : list change_op := ch_first c :: ch_rest c.

Definition render_change (c : change) : list rstr :=
  render_header (ch_header c) ++ (render_op <$> ch_ops c)
  ++ (if ch_eof c then [EOF_MARKER] else []).

Definition render_move (m : option rstr) : list rstr :=
  match m with Some p => [MOVE_TO_MARKER ++ p] | None => [] end.

Definition render_hunk (h : hunk_tree) : list rstr :=
  match h with
  | AddTree path added => (ADD_FILE_MARKER ++ path) :: ((fun l => lit "+" ++ l) <$> added)
  | DeleteTree path => [DELETE_FILE_MARKER ++ path]
  | UpdateTree path m c cs =>
      (UPDATE_FILE_MARKER ++ path) :: render_move m
      ++ render_change c ++ (cs ≫= render_change)
  end.

Definition render_env (e : option rstr) : list rstr :=
  match e with Some e => [ENVIRONMENT_ID_MARKER ++ lit " " ++ e] | None => [] end.

Definition render_body (env : option rstr) (hs : list hunk_tree) : list rstr :=
  BEGIN_PATCH_MARKER :: render_env env ++ (hs ≫= render_hunk).

Definition render_patch (env : option rstr) (hs : list hunk_tree) : rstr :=
  join [c_lf] (render_body env hs ++ [END_PATCH_MARKER]).

(** ** Denotation *)
Definition denote_op (c : UpdateFileChunk) (o : change_op) : UpdateFileChunk :=
  match o with
  | Keep t => push_context_line t c
  | Insert t => push_new_line t c
  | Remove t => push_old_line t c
  end.

Definition header_context (h : change_header) : option rstr :=
  match h with ContextHeader c => Some c | _ => None end.

Definition denote_change (c : change) : UpdateFileChunk :=
  let chunk := foldl denote_op (mkChunk (header_context (ch_header c)) [] [] [] false)
                 (ch_ops c) in
  if ch_eof c then mark_end_of_file chunk else chunk.

Definition denote_hunk (h : hunk_tree) : Hunk :=
  match h with
  | AddTree path added => AddFile path (added ≫= fun l => l ++ [c_lf])
  | DeleteTree path => DeleteFile path
  | UpdateTree path m c cs => UpdateFile path m (denote_change <$> c :: cs)
  end.

(** ** Trees the printer can express faithfully

    Lines are free of line feeds and of a trailing carriage return, which
    the line splitting removes; names are not empty and carry no trailing
    blanks, which the header recognition removes. *)
Definition good_name (s : rstr) : Prop := no_lf s /\ s <> [] /\ trim_end s = s.

Definition op_text (o : change_op) : rstr :=
  match o with Keep t | Insert t | Remove t => t end.

Definition good_header (first : bool) (h : change_header) : Prop :=
  match h with
  | Headless => first = true
  | EmptyHeader => True
  | ContextHeader c => good_name c
  end.

Definition good_change (first : bool) (c : change) : Prop :=
  good_header first (ch_header c) /\ Forall (fun o => clean_line (op_text o)) (ch_ops c).

Definition good_hunk (h : hunk_tree) : Prop :=
  match h with
  | AddTree path added => good_name path /\ Forall clean_line added
  | DeleteTree path => good_name path
  | UpdateTree path m c cs =>
      good_name path /\ (forall p, m = Some p -> good_name p)
      /\ good_change true c /\ Forall (good_change false) cs
  end.

Definition good_env (e : option rstr) : Prop :=
  forall s, e = Some s -> good_name s /\ trim s = s.

(** ** Feeding whole lines *)
Fixpoint feed_lines (ls : list rstr) (p : StreamingPatchParser)
  : result ParseError unit * StreamingPatchParser :=
  match ls with
  | [] => (Ok tt, p)
  | l :: rest =>
      match process_line (chomp_cr l) (take_line p) with
      | (Ok _, p') => feed_lines rest p'
      | (Err e, p') => (Err e, p')
      end
  end.

Lemma feed_lines_app a b p :
  feed_lines (a ++ b) p =
  match feed_lines a p with
  | (Ok _, p') => feed_lines b p'
  | (Err e, p') => (Err e, p')
  end.
Proof.
  revert p. induction a as [|l a IH]; intros p; simpl; [done|].
  destruct (process_line (chomp_cr l) (take_line p)) as [[[]|e] p']; [apply IH|done].
Qed.

Lemma feed_lines_cons l ls p :
  feed_lines (l :: ls) p =
  match feed_lines [l] p with
  | (Ok _, p') => feed_lines ls p'
  | (Err e, p') => (Err e, p')
  end.
Proof. apply (feed_lines_app [l] ls). Qed.

Lemma push_chars_no_lf s p :
  no_lf s -> push_chars s p = (Ok tt, mkParser (line_buffer p ++ s) (state p) (line_number p)).
Proof.
  unfold no_lf. revert p. induction s as [|c s IH]; intros p; simpl.
  - rewrite app_nil_r. by destruct p.
  - intros [Hc H]%not_elem_of_cons. unfold push_char.
    destruct (N.eqb_spec c c_lf) as [->|_]; [done|].
    rewrite IH by done. simpl. by rewrite <- app_assoc.
Qed.

Lemma process_line_buffer line p : line_buffer (process_line line p).2 = line_buffer p.
Proof.
  unfold process_line, or_header, process_update_line, process_add_line,
    handle_hunk_headers_and_end_patch, guarded.
  by repeat (break_match; simpl).
Qed.

(** Pushing the joined lines feeds all but the last, which stays buffered. *)
Lemma push_chars_join ls l p :
  Forall no_lf ls -> no_lf l -> line_buffer p = [] ->
  push_chars (join [c_lf] (ls ++ [l])) p =
  match feed_lines ls p with
  | (Ok _, p') => (Ok tt, mkParser l (state p') (line_number p'))
  | (Err e, p') => (Err e, p')
  end.
Proof.
  intros Hls Hl. revert p. induction Hls as [|s ls Hs Hls IH]; intros p Hp; simpl.
  - rewrite push_chars_no_lf by done. by rewrite Hp.
  - destruct (ls ++ [l]) as [|y t] eqn:E; [by apply app_nil in E as [_ ?]|].
    rewrite push_chars_app, push_chars_no_lf by done. simpl. unfold push_char. simpl.
    rewrite Hp. simpl.
    pose proof (process_line_buffer (chomp_cr s) (take_line p)) as Hb.
    change (mkParser [] (state p) (S (line_number p))) with (take_line p).
    unfold take_line at 1; simpl.
    change (mkParser [] (state p) (S (line_number p))) with (take_line p).
    destruct (process_line (chomp_cr s) (take_line p)) as [[[]|e] p']; [|done].
    by apply IH.
Qed.

(** ** Line recognition *)

Lemma str_eqb_false a b : a <> b -> str_eqb a b = false.
Proof. apply bool_decide_eq_false_2. Qed.

Ltac lit_neq := apply str_eqb_false; intros Hlit; vm_compute in Hlit; discriminate Hlit.

(** Strings that do not look like a marker: empty, or not starting with the
    marker's first character. *)
Definition head_not (a : N) (s : rstr) : Prop := head s <> Some a.

Lemma strip_prefix_head_not a p s : head_not a s -> strip_prefix (a :: p) s = None.
Proof.
  intros H. destruct s as [|c s]; [done|]. apply strip_prefix_head_ne.
  intros ->. by apply H.
Qed.

Lemma str_eqb_head_not a p s : head_not a s -> str_eqb s (a :: p) = false.
Proof. intros H. apply str_eqb_false. intros ->. by apply H. Qed.

Lemma trim_end_head_not a x t : x <> a -> head_not a (trim_end (x :: t)).
Proof.
  intros H. rewrite trim_end_cons. unfold head_not.
  destruct (trim_end t); [destruct (is_whitespace x)|]; simpl; congruence.
Qed.

Definition star : N := 42.
Definition at_sign : N := 64.

Lemma handle_not_header s p n :
  mode (state p) = InUpdateFile n -> head_not star s ->
  handle_hunk_headers_and_end_patch s p = (Ok false, p).
Proof.
  intros Hm Hs. unfold handle_hunk_headers_and_end_patch, environment_line. rewrite Hm.
  change END_PATCH_MARKER with (star :: tail END_PATCH_MARKER).
  change ADD_FILE_MARKER with (star :: tail ADD_FILE_MARKER).
  change DELETE_FILE_MARKER with (star :: tail DELETE_FILE_MARKER).
  change UPDATE_FILE_MARKER with (star :: tail UPDATE_FILE_MARKER).
  by rewrite str_eqb_head_not, !strip_prefix_head_not.
Qed.

Lemma process_update_mode line p n :
  mode (state p) = InUpdateFile n ->
  handle_hunk_headers_and_end_patch (trim_end line) p = (Ok false, p) ->
  process_line line p = process_update_line line p.
Proof. intros Hm Hh. unfold process_line, or_header. by rewrite Hm, Hh. Qed.

(** *** Change lines *)

Definition op_char (o : change_op) : N :=
  match o with Keep _ => 32 | Insert _ => 43 | Remove _ => 45 end.

Lemma render_op_cons o : render_op o = op_char o :: op_text o.
Proof. by destruct o. Qed.

Lemma op_char_ne o : op_char o <> star /\ op_char o <> at_sign.
Proof. by destruct o. Qed.

Definition not_eof (chunks : list UpdateFileChunk) : Prop :=
  is_some_and (last chunks) is_end_of_file = false.

Lemma update_hunk_line_op o ln mv chunks :
  not_eof chunks ->
  update_hunk_line (render_op o) ln mv chunks
  = Ok (mv, alter_last (fun c => denote_op c o) (ensure_chunk chunks)).
Proof.
  intros Heof. unfold update_hunk_line. rewrite Heof. simpl.
  destruct (op_char_ne o) as [Hstar Hat].
  pose proof (trim_end_head_not star _ (op_text o) Hstar) as Hs.
  pose proof (trim_end_head_not at_sign _ (op_text o) Hat) as Ha.
  rewrite render_op_cons. unfold is_context_marker, starts_with.
  change MOVE_TO_MARKER with (star :: tail MOVE_TO_MARKER).
  change EOF_MARKER with (star :: tail EOF_MARKER).
  change EMPTY_CHANGE_CONTEXT_MARKER with (at_sign :: tail EMPTY_CHANGE_CONTEXT_MARKER).
  change CHANGE_CONTEXT_MARKER with (at_sign :: tail CHANGE_CONTEXT_MARKER).
  rewrite !str_eqb_head_not, !strip_prefix_head_not by done. simpl.
  replace (if is_empty chunks && negb (is_some mv) then None else None)
    with (@None rstr) by (by destruct (is_empty chunks && negb (is_some mv))).
  destruct o as [t|t|t]; simpl op_char; simpl op_text.
  - by rewrite (strip_prefix_app (lit " ") t : strip_prefix (lit " ") (32%N :: t) = Some t).
  - change (lit " ") with [32%N]. rewrite strip_prefix_head_ne by done.
    by rewrite (strip_prefix_app (lit "+") t : strip_prefix (lit "+") (43%N :: t) = Some t).
  - change (lit " ") with [32%N]. rewrite strip_prefix_head_ne by done.
    change (lit "+") with [43%N]. rewrite strip_prefix_head_ne by done.
    by rewrite (strip_prefix_app (lit "-") t : strip_prefix (lit "-") (45%N :: t) = Some t).
Qed.

Definition closed (chunks : list UpdateFileChunk) : Prop :=
  is_some_and (last chunks) chunk_is_empty = false.

Lemma update_hunk_line_empty_header ln mv chunks :
  closed chunks ->
  update_hunk_line EMPTY_CHANGE_CONTEXT_MARKER ln mv chunks
  = Ok (mv, chunks ++ [default_chunk]).
Proof.
  intros Hc. unfold update_hunk_line.
  replace (trim_end EMPTY_CHANGE_CONTEXT_MARKER) with EMPTY_CHANGE_CONTEXT_MARKER by done.
  replace (is_context_marker EMPTY_CHANGE_CONTEXT_MARKER) with true by done.
  rewrite Hc, !andb_false_r. simpl.
  replace (strip_prefix MOVE_TO_MARKER EMPTY_CHANGE_CONTEXT_MARKER) with (@None rstr) by done.
  by destruct (is_empty chunks && negb (is_some mv)).
Qed.

Lemma update_hunk_line_context c ln mv chunks :
  good_name c -> closed chunks ->
  update_hunk_line (CHANGE_CONTEXT_MARKER ++ c) ln mv chunks
  = Ok (mv, chunks ++ [mkChunk (Some c) [] [] [] false]).
Proof.
  intros (_ & Hne & Ht) Hc. unfold update_hunk_line, is_context_marker, starts_with.
  rewrite trim_end_prefix_id, strip_prefix_app by done.
  rewrite orb_true_r, Hc, !andb_false_r. simpl.
  replace (strip_prefix MOVE_TO_MARKER (CHANGE_CONTEXT_MARKER ++ c)) with (@None rstr) by done.
  replace (str_eqb (CHANGE_CONTEXT_MARKER ++ c) EMPTY_CHANGE_CONTEXT_MARKER) with false
    by (symmetry; lit_neq).
  by destruct (is_empty chunks && negb (is_some mv)).
Qed.

Lemma update_hunk_line_eof ln mv chunks :
  closed chunks -> not_eof chunks ->
  update_hunk_line EOF_MARKER ln mv chunks
  = Ok (mv, alter_last mark_end_of_file chunks).
Proof.
  intros Hc He. unfold update_hunk_line. rewrite He, Hc.
  replace (trim_end EOF_MARKER) with EOF_MARKER by done. simpl.
  replace (is_context_marker EOF_MARKER) with false by done.
  replace (strip_prefix MOVE_TO_MARKER EOF_MARKER) with (@None rstr) by done.
  by destruct (is_empty chunks && negb (is_some mv)).
Qed.

Lemma update_hunk_line_move path ln :
  good_name path ->
  update_hunk_line (MOVE_TO_MARKER ++ path) ln None [] = Ok (Some path, []).
Proof.
  intros (_ & Hne & Ht). unfold update_hunk_line.
  rewrite trim_end_prefix_id by done. 
  cbn [last is_some_and is_empty is_some negb andb]. by rewrite strip_prefix_app.
Qed.

(** ** Feeding printed changes *)

Abbreviation at_state m hs env ln := (mkParser [] (mkState m hs env) ln).

Lemma chomp_cr_id s : last s <> Some c_cr -> chomp_cr s = s.
Proof. intros H. unfold chomp_cr. by rewrite strip_suffix_last_ne. Qed.

Lemma trim_end_last_ne s : trim_end s = s -> last s <> Some c_cr.
Proof.
  intros H Hl. apply last_Some in Hl as [s' ->].
  apply (f_equal reverse) in H. unfold trim_end, drop_while_end in H.
  rewrite reverse_involutive, reverse_snoc in H. simpl in H.
  destruct (drop_while_suffix is_whitespace (reverse s')) as [l' Hs].
  apply (f_equal length) in H, Hs. rewrite length_app in Hs. simpl in H. lia.
Qed.

Lemma good_name_last m s : good_name s -> last (m ++ s) <> Some c_cr.
Proof.
  intros (_ & Hne & Ht). rewrite last_app. pose proof (trim_end_last_ne s Ht) as Hl.
  destruct (last s) eqn:E; [congruence|]. by apply last_None in E.
Qed.

Lemma clean_last x s : clean_line s -> x <> c_cr -> last (x :: s) <> Some c_cr.
Proof.
  intros [_ Hl] Hx. rewrite last_cons. destruct (last s); congruence.
Qed.

Lemma feed_update_line line n init path mv cs mv' cs' env ln :
  last line <> Some c_cr ->
  (forall p, mode (state p) = InUpdateFile n ->
     handle_hunk_headers_and_end_patch (trim_end line) p = (Ok false, p)) ->
  update_hunk_line line (S ln) mv cs = Ok (mv', cs') ->
  feed_lines [line] (at_state (InUpdateFile n) (init ++ [UpdateFile path mv cs]) env ln)
  = (Ok tt, at_state (InUpdateFile n) (init ++ [UpdateFile path mv' cs']) env (S ln)).
Proof.
  intros Hl Hh Hu. simpl. rewrite chomp_cr_id by done.
  rewrite (process_update_mode _ _ n) by (try apply Hh; done).
  unfold process_update_line, take_line. simpl. rewrite last_snoc, Hu.
  unfold set_hunks. simpl. by rewrite alter_last_snoc.
Qed.

Lemma denote_op_eof c o : is_end_of_file (denote_op c o) = is_end_of_file c.
Proof. by destruct o. Qed.

Lemma denote_op_not_empty c o : chunk_is_empty (denote_op c o) = false.
Proof.
  destruct o; unfold chunk_is_empty; simpl; rewrite ?andb_false_iff;
    rewrite !is_empty_false; [left|right|left]; by intros [_ ?]%app_nil.
Qed.

Lemma foldl_denote_op_eof ops c :
  is_end_of_file (foldl denote_op c ops) = is_end_of_file c.
Proof. revert c. induction ops as [|o ops IH]; intros c; simpl; [done|]. by rewrite IH, denote_op_eof. Qed.

Lemma foldl_denote_op_not_empty c o ops :
  chunk_is_empty (foldl denote_op (denote_op c o) ops) = false.
Proof.
  revert c o. induction ops as [|o' ops IH]; intros c o; simpl; [|apply IH].
  apply denote_op_not_empty.
Qed.

Lemma feed_ops ops n init path mv pre c env ln :
  is_end_of_file c = false ->
  Forall (fun o => clean_line (op_text o)) ops ->
  feed_lines (render_op <$> ops)
    (at_state (InUpdateFile n) (init ++ [UpdateFile path mv (pre ++ [c])]) env ln)
  = (Ok tt, at_state (InUpdateFile n)
       (init ++ [UpdateFile path mv (pre ++ [foldl denote_op c ops])]) env
       (length ops + ln)).
Proof.
  intros He Hops. revert c ln He. induction Hops as [|o ops Ho Hops IH]; intros c ln He; [done|].
  rewrite fmap_cons, feed_lines_cons.
  rewrite (feed_update_line _ n init path mv (pre ++ [c]) mv (pre ++ [denote_op c o])).
  - rewrite IH by by rewrite denote_op_eof. do 2 f_equal. simpl. lia.
  - rewrite render_op_cons. apply clean_last; [done|]. by destruct o.
  - intros p Hm. apply (handle_not_header _ _ n); [done|].
    rewrite render_op_cons. apply trim_end_head_not, op_char_ne.
  - rewrite update_hunk_line_op by (unfold not_eof; by rewrite last_snoc).
    unfold ensure_chunk. rewrite (proj2 (is_empty_false (pre ++ [c]))), alter_last_snoc; [done|].
    by intros [_ ?]%app_nil.
Qed.

Lemma feed_eof (b : bool) n init path mv pre c env ln :
  is_end_of_file c = false -> chunk_is_empty c = false ->
  exists ln', feed_lines (if b then [EOF_MARKER] else [])
    (at_state (InUpdateFile n) (init ++ [UpdateFile path mv (pre ++ [c])]) env ln)
  = (Ok tt, at_state (InUpdateFile n)
       (init ++ [UpdateFile path mv (pre ++ [if b then mark_end_of_file c else c])]) env ln').
Proof.
  intros He Hc. destruct b; [|by eexists]. eexists. apply feed_update_line; [done| |].
  - intros p Hm. unfold handle_hunk_headers_and_end_patch, environment_line. by rewrite Hm.
  - rewrite update_hunk_line_eof by (unfold closed, not_eof; by rewrite last_snoc).
    by rewrite alter_last_snoc.
Qed.

(** The header line, or for a headless change its first line, opens a chunk. *)
Lemma feed_header_and_first c n init path mv cs env ln :
  good_header (is_empty cs) (ch_header c) -> closed cs -> clean_line (op_text (ch_first c)) ->
  exists ln', feed_lines (render_header (ch_header c) ++ [render_op (ch_first c)])
    (at_state (InUpdateFile n) (init ++ [UpdateFile path mv cs]) env ln)
  = (Ok tt, at_state (InUpdateFile n) (init ++ [UpdateFile path mv
       (cs ++ [denote_op (mkChunk (header_context (ch_header c)) [] [] [] false) (ch_first c)])])
       env ln').
Proof.
  intros Hg Hc Ho. destruct (ch_header c) as [| |ctx] eqn:Eh; simpl in Hg.
  - apply is_empty_true in Hg as ->. eexists. apply feed_update_line.
    + rewrite render_op_cons. apply clean_last; [done|]. by destruct (ch_first c).
    + intros p Hm. apply (handle_not_header _ _ n); [done|].
      rewrite render_op_cons. apply trim_end_head_not, op_char_ne.
    + by rewrite update_hunk_line_op.
  - eexists. unfold render_header. rewrite feed_lines_app.
    rewrite (feed_update_line _ n init path mv cs mv (cs ++ [default_chunk])); [| done | |].
    + by apply (feed_ops [ch_first c]); [|constructor].
    + intros p Hm. by apply (handle_not_header _ _ n).
    + by apply update_hunk_line_empty_header.
  - eexists. unfold render_header. rewrite feed_lines_app.
    rewrite (feed_update_line _ n init path mv cs mv (cs ++ [mkChunk (Some ctx) [] [] [] false])).
    + by apply (feed_ops [ch_first c]); [|constructor].
    + by apply good_name_last.
    + intros p Hm. apply (handle_not_header _ _ n); [done|].
      rewrite trim_end_prefix_id by apply Hg. done.
    + by apply update_hunk_line_context.
Qed.

Lemma denote_change_not_empty c : chunk_is_empty (denote_change c) = false.
Proof.
  unfold denote_change, ch_ops. simpl.
  destruct (ch_eof c); [unfold mark_end_of_file, chunk_is_empty; simpl|];
    apply foldl_denote_op_not_empty.
Qed.

Lemma closed_denote cs : closed (denote_change <$> cs).
Proof.
  unfold closed. destruct (last (denote_change <$> cs)) as [d|] eqn:El; [|done].
  apply last_Some_elem_of, list_elem_of_fmap in El as (d' & -> & _).
  apply denote_change_not_empty.
Qed.

Lemma feed_change c n init path mv cs env ln :
  good_change (is_empty cs) c -> closed cs ->
  exists ln', feed_lines (render_change c)
    (at_state (InUpdateFile n) (init ++ [UpdateFile path mv cs]) env ln)
  = (Ok tt, at_state (InUpdateFile n)
       (init ++ [UpdateFile path mv (cs ++ [denote_change c])]) env ln').
Proof.
  intros [Hg Hops] Hc. unfold ch_ops in Hops. apply Forall_cons in Hops as [Ho Hops].
  unfold render_change, denote_change, ch_ops.
  rewrite fmap_cons, <- app_comm_cons, (cons_middle (render_op (ch_first c))), app_assoc.
  rewrite feed_lines_app.
  destruct (feed_header_and_first c n init path mv cs env ln Hg Hc Ho) as [ln1 ->].
  rewrite feed_lines_app, feed_ops; [|by rewrite denote_op_eof|done].
  simpl. destruct (feed_eof (ch_eof c) n init path mv cs
    (foldl denote_op (denote_op (mkChunk (header_context (ch_header c)) [] [] [] false)
      (ch_first c)) (ch_rest c)) env (length (ch_rest c) + ln1)) as [ln2 ->]; [| |by exists ln2].
  - by rewrite foldl_denote_op_eof, denote_op_eof.
  - apply foldl_denote_op_not_empty.
Qed.

Lemma feed_changes ds n init path mv cs env ln :
  Forall (good_change false) ds -> cs <> [] -> closed cs ->
  exists ln', feed_lines (ds ≫= render_change)
    (at_state (InUpdateFile n) (init ++ [UpdateFile path mv cs]) env ln)
  = (Ok tt, at_state (InUpdateFile n)
       (init ++ [UpdateFile path mv (cs ++ (denote_change <$> ds))]) env ln').
Proof.
  intros Hds. revert cs ln. induction Hds as [|d ds Hd Hds IH]; intros cs ln Hne Hc.
  - rewrite app_nil_r. by exists ln.
  - rewrite bind_cons, feed_lines_app.
    destruct (feed_change d n init path mv cs env ln) as [ln1 ->]; [| done |].
    { by rewrite (proj2 (is_empty_false cs)). }
    replace (cs ++ (denote_change <$> d :: ds))
      with ((cs ++ [denote_change d]) ++ (denote_change <$> ds)) by by rewrite <- app_assoc.
    apply IH.
    + by intros [_ ?]%app_nil.
    + unfold closed. rewrite last_snoc. apply denote_change_not_empty.
Qed.

(** ** Feeding printed hunks *)

(** A state between hunks: a header may follow. *)
Definition between (m : StreamingParserMode) (hs : list Hunk) : Prop :=
  match m with
  | StartedPatch | InAddFile | InDeleteFile | InUpdateFile _ => True
  | NotStarted | EndedPatch => False
  end /\
  match last hs with
  | Some (UpdateFile _ _ cs) => cs <> [] /\ closed cs
  | _ => True
  end.

Lemma between_ensure line buf m hs env ln :
  between m hs ->
  ensure_update_hunk_is_not_empty line (mkParser buf (mkState m hs env) ln) = Ok tt.
Proof.
  intros [_ H]. unfold ensure_update_hunk_is_not_empty. simpl.
  destruct (last hs) as [[| |path mv cs]|]; [done..| |done].
  destruct H as [Hne Hc]. apply is_empty_false in Hne as ->. unfold closed in Hc.
  by rewrite Hc.
Qed.

(** A trimmed line that is a header is handled the same way in every mode. *)
Lemma feed_header_line line m hs env ln p' :
  between m hs -> trim line = line -> trim_end line = line -> last line <> Some c_cr ->
  handle_hunk_headers_and_end_patch line (at_state m hs env (S ln)) = (Ok true, p') ->
  feed_lines [line] (at_state m hs env ln) = (Ok tt, p').
Proof.
  intros [Hm _] Ht Hte Hl Hh. simpl. rewrite chomp_cr_id by done.
  unfold process_line, take_line. simpl. rewrite Ht, Hte.
  unfold or_header. destruct m; done || by rewrite Hh.
Qed.

Lemma trim_marker (m path : rstr) :
  (exists c r, m = c :: r /\ is_whitespace c = false) -> good_name path ->
  trim (m ++ path) = m ++ path /\ trim_end (m ++ path) = m ++ path.
Proof.
  intros (c & r & -> & Hc) (_ & Hne & Ht).
  assert (Hs : trim_start ((c :: r) ++ path) = (c :: r) ++ path)
    by (unfold trim_start; simpl; by rewrite Hc).
  unfold trim. rewrite Hs. split; by apply trim_end_prefix_id.
Qed.

(** One lemma for the three headers: [marker] is recognised and pushes [h]. *)
Lemma feed_hunk_header marker path h m' m hs env ln :
  between m hs -> good_name path ->
  (exists c r, marker = c :: r /\ is_whitespace c = false) ->
  (forall p, handle_hunk_headers_and_end_patch (marker ++ path) p
             = guarded (marker ++ path) (start_hunk h (m' p) p) p) ->
  feed_lines [marker ++ path] (at_state m hs env ln)
  = (Ok tt, at_state (m' (at_state m hs env (S ln))) (hs ++ [h]) env (S ln)).
Proof.
  intros Hb Hp Hm Hh. destruct (trim_marker marker path Hm Hp) as [Ht Hte].
  apply feed_header_line; [done..| by apply good_name_last |].
  rewrite Hh. unfold guarded. by rewrite between_ensure.
Qed.

(** A file header is neither an environment line nor the end marker. *)
Ltac recognise_header marker path p :=
  unfold handle_hunk_headers_and_end_patch, environment_line;
  replace (match mode (state p) with StartedPatch =>
    strip_prefix ENVIRONMENT_ID_MARKER (marker ++ path) | _ => None end)
    with (@None rstr) by (by destruct (mode (state p)));
  replace (str_eqb (marker ++ path) END_PATCH_MARKER) with false
    by (symmetry; lit_neq);
  by rewrite strip_prefix_app.

Lemma handle_add path p :
  handle_hunk_headers_and_end_patch (ADD_FILE_MARKER ++ path) p
  = guarded (ADD_FILE_MARKER ++ path) (start_hunk (AddFile path []) InAddFile p) p.
Proof. recognise_header ADD_FILE_MARKER path p. Qed.

Lemma handle_delete path p :
  handle_hunk_headers_and_end_patch (DELETE_FILE_MARKER ++ path) p
  = guarded (DELETE_FILE_MARKER ++ path) (start_hunk (DeleteFile path) InDeleteFile p) p.
Proof. recognise_header DELETE_FILE_MARKER path p. Qed.

Lemma handle_update path p :
  handle_hunk_headers_and_end_patch (UPDATE_FILE_MARKER ++ path) p
  = guarded (UPDATE_FILE_MARKER ++ path)
      (start_hunk (UpdateFile path None []) (InUpdateFile (line_number p)) p) p.
Proof. recognise_header UPDATE_FILE_MARKER path p. Qed.

Lemma marker_head (m : rstr) : head m = Some star ->
  exists c r, m = c :: r /\ is_whitespace c = false.
Proof. destruct m as [|c r]; simpl; intros; simplify_eq. by exists star, r. Qed.

(** Added lines accumulate in the file contents. *)
Lemma feed_added added hs path contents env ln :
  Forall clean_line added ->
  exists ln', feed_lines ((fun l => lit "+" ++ l) <$> added)
    (at_state InAddFile (hs ++ [AddFile path contents]) env ln)
  = (Ok tt, at_state InAddFile
       (hs ++ [AddFile path (contents ++ (added ≫= fun l => l ++ [c_lf]))]) env ln').
Proof.
  intros Ha. revert contents ln. induction Ha as [|l added Hl Ha IH]; intros contents ln.
  { exists ln. by rewrite app_nil_r. }
  rewrite fmap_cons, feed_lines_cons, bind_cons, app_assoc.
  assert (Hline : feed_lines [lit "+" ++ l] (at_state InAddFile (hs ++ [AddFile path contents]) env ln)
    = (Ok tt, at_state InAddFile (hs ++ [AddFile path (contents ++ l ++ [c_lf])]) env (S ln))).
  { simpl. rewrite chomp_cr_id by (by apply (clean_last 43)).
    unfold process_line, or_header. simpl.
    assert (Hs : head_not star (trim (lit "+" ++ l)))
      by (apply (trim_end_head_not star 43 l); done).
    unfold handle_hunk_headers_and_end_patch. simpl.
    change END_PATCH_MARKER with (star :: tail END_PATCH_MARKER).
    change ADD_FILE_MARKER with (star :: tail ADD_FILE_MARKER).
    change DELETE_FILE_MARKER with (star :: tail DELETE_FILE_MARKER).
    change UPDATE_FILE_MARKER with (star :: tail UPDATE_FILE_MARKER).
    rewrite str_eqb_head_not, !strip_prefix_head_not by done.
    unfold process_add_line. simpl.
    rewrite last_snoc. unfold set_hunks. simpl. by rewrite alter_last_snoc. }
  rewrite Hline. apply IH.
Qed.

Lemma feed_move mv hs path env n ln :
  (forall p, mv = Some p -> good_name p) ->
  exists ln', feed_lines (render_move mv) (at_state (InUpdateFile n) (hs ++ [UpdateFile path None []]) env ln)
  = (Ok tt, at_state (InUpdateFile n) (hs ++ [UpdateFile path mv []]) env ln').
Proof.
  intros Hmv. destruct mv as [dest|]; [|by eexists]. specialize (Hmv dest eq_refl). eexists.
  apply feed_update_line; [by apply good_name_last| |by apply update_hunk_line_move].
  intros p Hm. rewrite trim_end_prefix_id by apply Hmv.
  unfold handle_hunk_headers_and_end_patch, environment_line. rewrite Hm.
  replace (str_eqb (MOVE_TO_MARKER ++ dest) END_PATCH_MARKER) with false
    by (symmetry; lit_neq). done.
Qed.

Lemma feed_hunk h m hs env ln :
  good_hunk h -> between m hs ->
  exists m' ln', between m' (hs ++ [denote_hunk h]) /\
    feed_lines (render_hunk h) (at_state m hs env ln)
    = (Ok tt, at_state m' (hs ++ [denote_hunk h]) env ln').
Proof.
  intros Hg Hb. destruct h as [path added|path|path mv c cs]; simpl in Hg.
  - destruct Hg as [Hp Ha]. unfold render_hunk. rewrite feed_lines_cons.
    rewrite (feed_hunk_header _ path (AddFile path []) (fun _ => InAddFile));
      [|done|done|by apply marker_head|apply handle_add].
    destruct (feed_added added hs path [] env (S ln) Ha) as [ln' ->].
    eexists InAddFile, _. split; [|done]. unfold between. by rewrite last_snoc.
  - unfold render_hunk.
    rewrite (feed_hunk_header _ path (DeleteFile path) (fun _ => InDeleteFile));
      [|done|done|by apply marker_head|apply handle_delete].
    eexists InDeleteFile, _. split; [|done]. unfold between. by rewrite last_snoc.
  - destruct Hg as (Hp & Hmv & Hc & Hcs). unfold render_hunk. rewrite feed_lines_cons.
    rewrite (feed_hunk_header _ path (UpdateFile path None [])
      (fun p => InUpdateFile (line_number p)));
      [|done|done|by apply marker_head|apply handle_update].
    rewrite feed_lines_app. simpl line_number.
    destruct (feed_move mv hs path env (S ln) (S ln) Hmv) as [ln1 ->]. rewrite feed_lines_app.
    destruct (feed_change c (S ln) hs path mv [] env ln1 Hc) as [ln2 ->]; [done|].
    change ([] ++ [denote_change c]) with [denote_change c].
    assert (Hcl : closed [denote_change c]) by apply denote_change_not_empty.
    destruct (feed_changes cs (S ln) hs path mv [denote_change c] env ln2 Hcs) as [ln3 ->];
      [done|done|].
    eexists _, _. split; [|done]. unfold between. rewrite last_snoc.
    split; [done|]. split; [done|]. apply (closed_denote (c :: cs)).
Qed.

Lemma feed_hunks trees m hs env ln :
  Forall good_hunk trees -> between m hs ->
  exists m' ln', between m' (hs ++ (denote_hunk <$> trees)) /\
    feed_lines (trees ≫= render_hunk) (at_state m hs env ln)
    = (Ok tt, at_state m' (hs ++ (denote_hunk <$> trees)) env ln').
Proof.
  intros Ht. revert m hs ln. induction Ht as [|h trees Hh Ht IH]; intros m hs ln Hb.
  - rewrite app_nil_r. by exists m, ln.
  - rewrite bind_cons, feed_lines_app.
    destruct (feed_hunk h m hs env ln Hh Hb) as (m1 & ln1 & Hb1 & ->).
    replace (hs ++ (denote_hunk <$> h :: trees))
      with ((hs ++ [denote_hunk h]) ++ (denote_hunk <$> trees)) by by rewrite <- app_assoc.
    by apply IH.
Qed.

Lemma feed_env env ln :
  good_env env ->
  exists ln', feed_lines (render_env env) (at_state StartedPatch [] None ln)
  = (Ok tt, at_state StartedPatch [] env ln').
Proof.
  intros He. destruct env as [e|]; [|by eexists].
  destruct (He e eq_refl) as [Hn Ht]. eexists. unfold render_env. rewrite app_assoc.
  destruct (trim_marker (ENVIRONMENT_ID_MARKER ++ lit " ") e) as [Hm Hme];
    [by apply marker_head|done|].
  apply feed_header_line; [done|done|done|by apply good_name_last|].
  unfold handle_hunk_headers_and_end_patch, environment_line. cbn [state mode].
  rewrite <- app_assoc, strip_prefix_app. cbn [state st_environment_id is_some].
  assert (Hsp : trim (lit " " ++ e) = e) by exact Ht.
  rewrite Hsp, (proj2 (is_empty_false e)) by apply Hn. done.
Qed.

(** ** Printed patches are split into their lines *)

Lemma good_name_clean m s : no_lf m -> good_name s -> clean_line (m ++ s).
Proof.
  intros Hm Hs. split; [|by apply good_name_last].
  destruct Hs as [Hs _]. unfold no_lf in *. by apply not_elem_of_app.
Qed.

Lemma clean_cons x s : x <> c_cr -> x <> c_lf -> clean_line s -> clean_line (x :: s).
Proof.
  intros Hcr Hlf Hs. split; [|by apply clean_last]. destruct Hs as [Hs _].
  unfold no_lf in *. by apply not_elem_of_cons.
Qed.

Lemma marker_no_lf (m : rstr) : bool_decide (c_lf ∉ m) = true -> no_lf m.
Proof. apply bool_decide_eq_true. Qed.

Lemma render_change_clean b c : good_change b c -> Forall clean_line (render_change c).
Proof.
  intros [Hh Ho]. unfold render_change. rewrite !Forall_app. split_and!.
  - destruct (ch_header c) as [| |ctx]; [constructor|..]; apply Forall_singleton.
    + by split; [apply marker_no_lf|].
    + apply good_name_clean; [by apply marker_no_lf|done].
  - rewrite Forall_fmap. eapply Forall_impl; [exact Ho|]. intros o Hc. simpl.
    rewrite render_op_cons. by apply clean_cons; [destruct o..|].
  - destruct (ch_eof c); [|constructor]. apply Forall_singleton.
    by split; [apply marker_no_lf|].
Qed.

Lemma render_hunk_clean h : good_hunk h -> Forall clean_line (render_hunk h).
Proof.
  destruct h as [path added|path|path mv c cs]; unfold good_hunk, render_hunk.
  - intros [Hp Ha]. constructor; [apply good_name_clean; [by apply marker_no_lf|done]|].
    apply Forall_fmap. eapply Forall_impl; [exact Ha|]. intros l Hl. by apply clean_cons.
  - intros Hp. apply Forall_singleton, good_name_clean; [by apply marker_no_lf|done].
  - intros (Hp & Hmv & Hc & Hcs).
    constructor; [apply good_name_clean; [by apply marker_no_lf|done]|].
    rewrite !Forall_app. split_and!.
    + destruct mv as [d|]; [|constructor]. apply Forall_singleton, good_name_clean;
        [by apply marker_no_lf|auto].
    + by eapply render_change_clean.
    + apply Forall_bind. eapply Forall_impl; [exact Hcs|].
      intros d Hd. by eapply render_change_clean.
Qed.

Lemma render_body_clean env trees :
  good_env env -> Forall good_hunk trees -> Forall clean_line (render_body env trees).
Proof.
  intros He Ht. constructor; [by split; [apply marker_no_lf|]|].
  apply Forall_app. split.
  - destruct env as [e|]; [|constructor]. apply Forall_singleton.
    unfold render_env. rewrite app_assoc.
    apply good_name_clean; [by apply marker_no_lf|by apply He].
  - apply Forall_bind. eapply Forall_impl; [exact Ht|]. apply render_hunk_clean.
Qed.

Lemma join_snoc sep ls l : exists pre, join sep (ls ++ [l]) = pre ++ l.
Proof.
  induction ls as [|x ls [pre IH]]; [by exists []|].
  destruct (ls ++ [l]) as [|y t] eqn:E; [by apply app_nil in E as [_ ?]|].
  exists (x ++ sep ++ pre). simpl app. rewrite E, join_cons, IH. by rewrite !app_assoc.
Qed.

Lemma render_patch_trim env trees : trim (render_patch env trees) = render_patch env trees.
Proof.
  unfold trim, trim_start.
  assert (Hs : drop_while is_whitespace (render_patch env trees) = render_patch env trees).
  { unfold render_patch, render_body. by destruct (render_env env ++ (trees ≫= render_hunk)). }
  rewrite Hs. unfold render_patch.
  destruct (join_snoc [c_lf] (render_body env trees) END_PATCH_MARKER) as [pre ->].
  by apply trim_end_prefix_id.
Qed.

Lemma feed_body env trees :
  good_env env -> Forall good_hunk trees ->
  exists m ln, between m (denote_hunk <$> trees) /\
    feed_lines (render_body env trees) default_parser
    = (Ok tt, at_state m (denote_hunk <$> trees) env ln).
Proof.
  intros He Ht. unfold render_body. rewrite feed_lines_cons.
  replace (feed_lines [BEGIN_PATCH_MARKER] default_parser)
    with (@Ok ParseError unit tt, at_state StartedPatch [] None 1) by reflexivity.
  rewrite feed_lines_app. destruct (feed_env env 1 He) as [ln1 ->].
  by apply (feed_hunks trees StartedPatch []).
Qed.

Lemma boundaries_rendered env trees :
  check_patch_boundaries_lenient (render_body env trees ++ [END_PATCH_MARKER])
  = Ok (render_body env trees ++ [END_PATCH_MARKER]).
Proof.
  unfold check_patch_boundaries_lenient, check_patch_boundaries_strict.
  rewrite last_snoc. unfold render_body. rewrite <- app_comm_cons. reflexivity.
Qed.

Lemma finish_rendered m hs env ln :
  between m hs ->
  (finish (mkParser END_PATCH_MARKER (mkState m hs env) ln)).1 = Ok hs /\
  parser_environment_id (finish (mkParser END_PATCH_MARKER (mkState m hs env) ln)).2 = env.
Proof.
  intros Hb. unfold finish, finish_line.
  replace (is_empty (line_buffer (mkParser END_PATCH_MARKER (mkState m hs env) ln)))
    with false by reflexivity.
  cbn [line_buffer]. replace (trim END_PATCH_MARKER) with END_PATCH_MARKER by reflexivity.
  rewrite str_eqb_refl. unfold take_line. cbn [state line_number].
  by rewrite between_ensure.
Qed.

Lemma parse_patch_render env trees :
  good_env env -> Forall good_hunk trees ->
  parse_patch (render_patch env trees)
  = Ok (mkArgs (render_patch env trees) (denote_hunk <$> trees) None env).
Proof.
  intros He Ht. unfold parse_patch, parse_patch_text. cbn [PARSE_IN_STRICT_MODE].
  rewrite render_patch_trim.
  pose proof (render_body_clean env trees He Ht) as Hc. unfold render_patch at 1.
  rewrite lines_join by (done || by apply marker_no_lf).
  rewrite boundaries_rendered. unfold push_delta.
  rewrite push_chars_join; [| |by apply marker_no_lf|done].
  2: { eapply Forall_impl; [exact Hc|]. by intros ? []. }
  destruct (feed_body env trees He Ht) as (m & ln & Hb & ->).
  cbn [state line_number].
  destruct (finish_rendered m (denote_hunk <$> trees) env ln Hb) as [Hf Hid].
  destruct (finish _) as [r p']. simpl in Hf, Hid. by rewrite Hf, Hid.
Qed.

(** * The whole documented grammar *)

(** ** Trees of the grammar *)

(** [change_context] or [change_line] *)
Inductive doc_item := DocContext (c : option rstr) | DocLine (o : change_op).

(** [change: (change_context | change_line)+ eof_line?]; an update without a change has
    no items and no end marker. *)
Record doc_change := mkDocChange { doc_items : list doc_item; doc_eof : bool }.

Inductive doc_hunk :=
| DocAdd (path : rstr) (added : list rstr)
| DocDelete (path : rstr)
| DocUpdate (path : rstr) (move : option rstr) (c : doc_change).

Definition header_of (c : option rstr) : change_header :=
  match c with Some c => ContextHeader c | None => EmptyHeader end.

Definition render_item (i : doc_item) : list rstr :=
  match i with DocContext c => render_header (header_of c) | DocLine o => [render_op o] end.

Definition render_doc_change (c : doc_change) : list rstr :=
  (doc_items c ≫= render_item) ++ (if doc_eof c then [EOF_MARKER] else []).

Definition render_doc_hunk (h : doc_hunk) : list rstr :=
  match h with
  | DocAdd path added => render_hunk (AddTree path added)
  | DocDelete path => render_hunk (DeleteTree path)
  | DocUpdate path m c => (UPDATE_FILE_MARKER ++ path) :: render_move m ++ render_doc_change c
  end.

Definition render_doc_body (env : option rstr) (hs : list doc_hunk) : list rstr :=
  BEGIN_PATCH_MARKER :: render_env env ++ (hs ≫= render_doc_hunk).

(** The text of a patch *)
Definition render_doc (env : option rstr) (hs : list doc_hunk) : rstr :=
  join [c_lf] (render_doc_body env hs ++ [END_PATCH_MARKER]).

(** ** Which of them are patches *)

(** The items in groups, each with its header and its lines. *)
Fixpoint groups (h : change_header) (ops : list change_op) (items : list doc_item)
  : list (change_header * list change_op) :=
  match items with
  | [] => [(h, ops)]
  | DocLine o :: items => groups h (ops ++ [o]) items
  | DocContext c :: items => (h, ops) :: groups (header_of c) [] items
  end.

Definition item_groups (items : list doc_item) : list (change_header * list change_op) :=
  match items with
  | DocContext c :: items => groups (header_of c) [] items
  | _ => groups Headless [] items
  end.

(** A group is a change if it has a line. *)
Definition group_change (g : change_header * list change_op) : option change :=
  match g.2 with [] => None | o :: ops => Some (mkChange g.1 o ops false) end.

Definition set_eof (c : change) : change := mkChange (ch_header c) (ch_first c) (ch_rest c) true.

(** The tree of a hunk: an update needs a line in every group, and so a group. *)
Definition tree_of (h : doc_hunk) : option hunk_tree :=
  match h with
  | DocAdd path added => Some (AddTree path added)
  | DocDelete path => Some (DeleteTree path)
  | DocUpdate path m c =>
      match mapM group_change (item_groups (doc_items c)) with
      | Some changes =>
          match (if doc_eof c then alter_last set_eof changes else changes) with
          | c :: cs => Some (UpdateTree path m c cs)
          | [] => None
          end
      | None => None
      end
  end.

(** Names are not empty and have no trailing blanks, contexts too; lines have no line
    feed and do not end in a carriage return. *)
Definition good_item (i : doc_item) : Prop :=
  match i with
  | DocContext c => forall s, c = Some s -> good_name s
  | DocLine o => clean_line (op_text o)
  end.

Definition good_doc (h : doc_hunk) : Prop :=
  match h with
  | DocAdd path added => good_name path /\ Forall clean_line added
  | DocDelete path => good_name path
  | DocUpdate path m c =>
      good_name path /\ (forall p, m = Some p -> good_name p) /\ Forall good_item (doc_items c)
  end.

(** ** Trees print as the hunks they come from *)

Lemma mapM_group_cons h ops gs :
  mapM group_change ((h, ops) :: gs)
  = match ops with
    | [] => None
    | o :: ops => match mapM group_change gs with Some cs => Some (mkChange h o ops false :: cs) | None => None end
    end.
Proof. by destruct ops. Qed.

Lemma groups_render h ops items cs :
  mapM group_change (groups h ops items) = Some cs ->
  render_header h ++ (render_op <$> ops) ++ (items ≫= render_item) = cs ≫= render_change.
Proof.
  revert h ops cs. induction items as [|i items IH]; intros h ops cs; cbn [groups].
  - destruct ops as [|o ops]; [done|]. intros [= <-]. rewrite bind_cons. unfold render_change. cbn [ch_eof ch_header].
    change ([] ≫= ?f) with (@nil rstr). by rewrite !app_nil_r.
  - destruct i as [c|o].
    + rewrite mapM_group_cons. destruct ops as [|o ops]; [done|].
      destruct (mapM group_change (groups (header_of c) [] items)) as [cs'|] eqn:E; [|done]. intros [= <-].
      rewrite !bind_cons, <- (IH _ _ _ E). unfold render_change, ch_ops. cbn [ch_header ch_first ch_rest ch_eof render_item].
      rewrite app_nil_r, <- !app_assoc. done.
    + intros E. rewrite bind_cons, <- (IH _ _ _ E), fmap_app, <- !app_assoc. done.
Qed.

Lemma item_groups_render items cs :
  mapM group_change (item_groups items) = Some cs -> (items ≫= render_item) = cs ≫= render_change.
Proof.
  intros E. destruct items as [|[c|o] items]; [done| |]; by apply groups_render in E.
Qed.

Lemma set_eof_render cs :
  cs <> [] -> Forall (fun c => ch_eof c = false) cs ->
  alter_last set_eof cs ≫= render_change = (cs ≫= render_change) ++ [EOF_MARKER].
Proof.
  intros Hne. destruct cs as [|c cs _] using rev_ind; [done|]. rewrite Forall_app, Forall_singleton. intros [_ Hc].
  rewrite alter_last_snoc, !bind_app. cbn. rewrite !app_nil_r, <- app_assoc. f_equal.
  unfold render_change, set_eof, ch_ops. cbn [ch_header ch_first ch_rest ch_eof]. rewrite Hc, app_nil_r.
  by rewrite <- !app_assoc.
Qed.

Lemma group_changes_eof gs cs :
  mapM group_change gs = Some cs -> Forall (fun c => ch_eof c = false) cs.
Proof.
  intros H%mapM_Some. induction H as [|g c gs cs Hg _ IH]; [done|]. constructor; [|done].
  unfold group_change in Hg. destruct g as [h [|o ops]]; [done|]. by injection Hg as <-.
Qed.

Lemma tree_of_render h t : tree_of h = Some t -> render_doc_hunk h = render_hunk t.
Proof.
  destruct h as [path added|path|path m c]; [by intros [= <-]..|]. cbn [tree_of].
  destruct (mapM group_change _) as [cs|] eqn:E; [|done]. cbn [render_doc_hunk]. unfold render_doc_change.
  rewrite (item_groups_render _ _ E). pose proof (group_changes_eof _ _ E) as Heof. destruct (doc_eof c).
  - destruct cs as [|c0 cs]; [done|]. rewrite <- set_eof_render by done.
    destruct (alter_last set_eof (c0 :: cs)); [done|]. by intros [= <-].
  - rewrite app_nil_r. destruct cs as [|c0 cs]; [done|]. by intros [= <-].
Qed.

(** ** Trees are good when the hunks are *)

Lemma groups_good h ops items cs b :
  mapM group_change (groups h ops items) = Some cs -> good_header b h ->
  Forall (fun o => clean_line (op_text o)) ops -> Forall good_item items ->
  match cs with c :: cs => good_change b c /\ Forall (good_change false) cs | [] => True end.
Proof.
  revert h ops cs b. induction items as [|i items IH]; intros h ops cs b; cbn [groups].
  - cbn. destruct ops as [|o ops]; [done|]. intros [= <-] Hh Hops _. split; [|constructor]. by split.
  - intros E Hh Hops [Hi Hitems]%Forall_cons. destruct i as [c|o].
    + rewrite mapM_group_cons in E. destruct ops as [|o ops]; [done|]. destruct (mapM group_change (groups (header_of c) [] items)) as [cs'|] eqn:E'; [|done].
      injection E as <-. split; [by split|]. specialize (IH (header_of c) [] cs' false E').
      assert (Hg : good_header false (header_of c)) by (destruct c as [c|]; [by apply Hi|done]).
      specialize (IH Hg ltac:(constructor) Hitems). destruct cs' as [|c' cs']; [constructor|]. destruct IH. by constructor.
    + apply (IH h (ops ++ [o])); [done|done| |done]. apply Forall_app. split; [done|]. by constructor.
Qed.

Lemma item_groups_good items cs :
  mapM group_change (item_groups items) = Some cs -> Forall good_item items ->
  match cs with c :: cs => good_change true c /\ Forall (good_change false) cs | [] => True end.
Proof.
  intros E H. destruct items as [|[c|o] items]; [done| |].
  - apply Forall_cons in H as [Hc H]. eapply groups_good; [exact E| |constructor|done].
    destruct c as [c|]; [by apply Hc|done].
  - eapply groups_good; [exact E|done|constructor|done].
Qed.

Lemma set_eof_good b c : good_change b c -> good_change b (set_eof c).
Proof. done. Qed.

Lemma alter_last_good c cs :
  good_change true c -> Forall (good_change false) cs ->
  match alter_last set_eof (c :: cs) with
  | c :: cs => good_change true c /\ Forall (good_change false) cs
  | [] => False
  end.
Proof.
  intros Hc Hcs. destruct cs as [|d cs _] using rev_ind; [by split; [apply set_eof_good|]|].
  change (c :: cs ++ [d]) with ((c :: cs) ++ [d]). rewrite alter_last_snoc. cbn.
  split; [done|]. apply Forall_app in Hcs as [Hcs [Hd _]%Forall_cons]. apply Forall_app. split; [done|].
  apply Forall_singleton. by apply set_eof_good.
Qed.

Lemma tree_of_good h t : good_doc h -> tree_of h = Some t -> good_hunk t.
Proof.
  destruct h as [path added|path|path m c]; [by intros H [= <-]..|]. intros (Hp & Hm & Hi). cbn [tree_of].
  destruct (mapM group_change _) as [cs|] eqn:E; [|done]. pose proof (item_groups_good _ _ E Hi) as Hg.
  destruct cs as [|c0 cs]; [by destruct (doc_eof c)|]. destruct Hg as [Hc Hcs]. destruct (doc_eof c).
  - pose proof (alter_last_good c0 cs Hc Hcs) as Ha. destruct (alter_last set_eof (c0 :: cs)); [done|].
    intros [= <-]. by destruct Ha.
  - by intros [= <-].
Qed.

(** ** Updates that are no patches *)

(** The chunks of an update that cannot end: none, or the last without lines. *)
Definition unfinished (cs : list UpdateFileChunk) : Prop :=
  cs = [] \/ is_some_and (last cs) chunk_is_empty = true.

(** The chunks after the lines [ops] of a group with a header, or with a line. *)
Definition in_group (h : change_header) (ops : list change_op) (cs : list UpdateFileChunk) : Prop :=
  not_eof cs /\ cs <> []
  /\ match ops with
     | [] => h <> Headless /\ is_some_and (last cs) chunk_is_empty = true
     | _ => closed cs
     end.

(** What feeding lines to an update does: an error, or chunks of a kind. *)
Definition feeds (ls : list rstr) (P : list UpdateFileChunk -> Prop) n init path mv cs env ln : Prop :=
  (exists e p, feed_lines ls (at_state (InUpdateFile n) (init ++ [UpdateFile path mv cs]) env ln) = (Err e, p))
  \/ exists cs' ln', P cs'
       /\ feed_lines ls (at_state (InUpdateFile n) (init ++ [UpdateFile path mv cs]) env ln)
          = (Ok tt, at_state (InUpdateFile n) (init ++ [UpdateFile path mv cs']) env ln').

Lemma feed_line_op o n init path mv cs env ln :
  clean_line (op_text o) -> not_eof cs ->
  feed_lines [render_op o] (at_state (InUpdateFile n) (init ++ [UpdateFile path mv cs]) env ln)
  = (Ok tt, at_state (InUpdateFile n)
       (init ++ [UpdateFile path mv (alter_last (fun c => denote_op c o) (ensure_chunk cs))]) env (S ln)).
Proof.
  intros Ho He. apply feed_update_line; [| |by apply update_hunk_line_op].
  - rewrite render_op_cons. apply clean_last; [done|]. by destruct o.
  - intros p Hm. apply (handle_not_header _ _ n); [done|]. rewrite render_op_cons. apply trim_end_head_not, op_char_ne.
Qed.

Lemma op_in_group o h ops cs :
  not_eof cs -> in_group h (ops ++ [o]) (alter_last (fun c => denote_op c o) (ensure_chunk cs)).
Proof.
  intros He.
  assert (Hx : exists pre c, ensure_chunk cs = pre ++ [c] /\ is_end_of_file c = false).
  { unfold ensure_chunk. destruct cs as [|c cs _] using rev_ind; [by exists [], default_chunk|].
    rewrite (proj2 (is_empty_false (cs ++ [c]))) by (by intros [_ ?]%app_nil). exists cs, c. split; [done|].
    unfold not_eof in He. by rewrite last_snoc in He. }
  destruct Hx as (pre & c & -> & Hc). rewrite alter_last_snoc. split; [|split].
  - unfold not_eof. rewrite last_snoc. cbn. by rewrite denote_op_eof.
  - by intros [_ ?]%app_nil.
  - assert (Hcl : closed (pre ++ [denote_op c o])) by (unfold closed; rewrite last_snoc; apply denote_op_not_empty).
    by destruct (ops ++ [o]) eqn:E; [apply app_nil in E as [_ ?]|].
Qed.

Lemma feed_context c n init path mv cs env ln :
  (forall s, c = Some s -> good_name s) -> closed cs ->
  feed_lines (render_header (header_of c)) (at_state (InUpdateFile n) (init ++ [UpdateFile path mv cs]) env ln)
  = (Ok tt, at_state (InUpdateFile n) (init ++ [UpdateFile path mv (cs ++ [mkChunk c [] [] [] false])]) env (S ln)).
Proof.
  intros Hc Hcl. destruct c as [c|]; cbn [header_of render_header].
  - specialize (Hc c eq_refl). apply feed_update_line; [by apply good_name_last| |by apply update_hunk_line_context].
    intros p Hm. apply (handle_not_header _ _ n); [done|]. rewrite trim_end_prefix_id by apply Hc. done.
  - apply feed_update_line; [done| |by apply update_hunk_line_empty_header].
    intros p Hm. by apply (handle_not_header _ _ n).
Qed.

Lemma context_in_group c cs : in_group (header_of c) [] (cs ++ [mkChunk c [] [] [] false]).
Proof.
  unfold in_group, not_eof. rewrite last_snoc. split; [done|]. split; [by intros [_ ?]%app_nil|].
  split; [by destruct c|done].
Qed.

(** A line of an update that is an error. *)
Lemma feed_update_err line n init path mv cs env ln e :
  last line <> Some c_cr ->
  (forall p, mode (state p) = InUpdateFile n -> handle_hunk_headers_and_end_patch (trim_end line) p = (Ok false, p)) ->
  update_hunk_line line (S ln) mv cs = Err e ->
  exists p, feed_lines [line] (at_state (InUpdateFile n) (init ++ [UpdateFile path mv cs]) env ln) = (Err e, p).
Proof.
  intros Hl Hh Hu. eexists. cbn [feed_lines]. rewrite chomp_cr_id by done.
  rewrite (process_update_mode _ _ n) by (try apply Hh; done).
  unfold process_update_line, take_line. cbn [state st_hunks line_number]. rewrite last_snoc, Hu. reflexivity.
Qed.

Lemma context_twice c n init path mv cs env ln :
  (forall s, c = Some s -> good_name s) -> is_some_and (last cs) chunk_is_empty = true -> not_eof cs ->
  exists e p, feed_lines (render_header (header_of c)) (at_state (InUpdateFile n) (init ++ [UpdateFile path mv cs]) env ln)
              = (Err e, p).
Proof.
  intros Hc Hcl He.
  assert (Hm : forall line, trim_end line = line -> is_context_marker line = true -> strip_prefix MOVE_TO_MARKER line = None ->
    exists e, update_hunk_line line (S ln) mv cs = Err e).
  { intros line Ht Hctx Hmv. unfold update_hunk_line. rewrite Ht, He, Hctx, Hcl, Hmv. cbn.
    destruct (is_empty cs && negb (is_some mv)); by eexists. }
  destruct c as [c|]; cbn [header_of render_header].
  - specialize (Hc c eq_refl). destruct (Hm (CHANGE_CONTEXT_MARKER ++ c)) as [e Ee].
    + apply trim_end_prefix_id; apply Hc.
    + unfold is_context_marker, starts_with. by rewrite strip_prefix_app, orb_true_r.
    + done.
    + exists e. apply (feed_update_err _ _ _ _ _ _ _ _ e); [by apply good_name_last| |done].
      intros p Hp. apply (handle_not_header _ _ n); [done|]. rewrite trim_end_prefix_id by apply Hc. done.
  - destruct (Hm EMPTY_CHANGE_CONTEXT_MARKER) as [e Ee]; [done..|]. exists e.
    apply (feed_update_err _ _ _ _ _ _ _ _ e); [done| |done]. intros p Hp. by apply (handle_not_header _ _ n).
Qed.

Lemma feeds_app a b P Q n init path mv cs env ln :
  feeds a P n init path mv cs env ln ->
  (forall cs' ln', P cs' -> feeds b Q n init path mv cs' env ln') ->
  feeds (a ++ b) Q n init path mv cs env ln.
Proof.
  intros [(e & p & H)|(cs' & ln' & HP & H)] Hb.
  - left. exists e, p. by rewrite feed_lines_app, H.
  - destruct (Hb cs' ln' HP) as [(e & p & H')|(cs2 & ln2 & HQ & H')].
    + left. exists e, p. by rewrite feed_lines_app, H.
    + right. exists cs2, ln2. split; [done|]. by rewrite feed_lines_app, H.
Qed.

(** Items with a group that has no line end in an error, or leave the update unfinished. *)
Lemma feed_groups items h ops n init path mv cs env ln :
  mapM group_change (groups h ops items) = None -> in_group h ops cs -> Forall good_item items ->
  feeds (items ≫= render_item) unfinished n init path mv cs env ln.
Proof.
  revert h ops cs ln. induction items as [|i items IH]; intros h ops cs ln E (He & Hne & Hg) Hi.
  - cbn in E. destruct ops as [|o ops]; [|done]. right. exists cs, ln. split; [right; by apply Hg|done].
  - apply Forall_cons in Hi as [Hi Hitems]. rewrite bind_cons. destruct i as [c|o]; cbn [groups] in E; cbn [render_item].
    + destruct ops as [|o ops].
      { destruct Hg as [_ Hg]. destruct (context_twice c n init path mv cs env ln Hi Hg He) as (e & p & H).
        left. exists e, p. by rewrite feed_lines_app, H. }
      rewrite mapM_group_cons in E.
      apply (feeds_app _ _ (in_group (header_of c) [])).
      * right. eexists _, _. split; [|by apply feed_context]. apply context_in_group.
      * intros cs' ln' Hcs'. apply (IH (header_of c) []); [|done|done].
        by destruct (mapM group_change (groups (header_of c) [] items)).
    + apply (feeds_app _ _ (in_group h (ops ++ [o]))).
      * right. eexists _, _. split; [|by apply feed_line_op]. by apply op_in_group.
      * intros cs' ln' Hcs'. by apply (IH h (ops ++ [o])).
Qed.

Lemma feed_bad_items items n init path mv env ln :
  mapM group_change (item_groups items) = None -> Forall good_item items ->
  feeds (items ≫= render_item) unfinished n init path mv [] env ln.
Proof.
  intros E Hi. destruct items as [|i items].
  { right. exists [], ln. split; [by left|done]. }
  apply Forall_cons in Hi as [Hi Hitems]. rewrite bind_cons. destruct i as [c|o]; cbn [item_groups groups] in E.
  - apply (feeds_app _ _ (in_group (header_of c) [])).
    + right. eexists _, _. split; [|by apply feed_context]. apply (context_in_group c []).
    + intros cs' ln' Hcs'. by apply (feed_groups items (header_of c) []).
  - apply (feeds_app _ _ (in_group Headless ([] ++ [o]))).
    + right. eexists _, _. split; [|by apply feed_line_op]. by apply op_in_group.
    + intros cs' ln' Hcs'. by apply (feed_groups items Headless ([] ++ [o])).
Qed.

(** The end marker does not finish it. *)
Lemma feed_bad_eof n init path mv cs env ln :
  unfinished cs -> feeds [EOF_MARKER] unfinished n init path mv cs env ln.
Proof.
  intros Hu. assert (Hh : forall p, mode (state p) = InUpdateFile n ->
    handle_hunk_headers_and_end_patch (trim_end EOF_MARKER) p = (Ok false, p)).
  { intros p Hm. unfold handle_hunk_headers_and_end_patch, environment_line. by rewrite Hm. }
  destruct Hu as [->|Hu].
  - right. exists [], (S ln). split; [by left|]. by apply feed_update_line; [|done|destruct mv].
  - left. assert (He : exists e, update_hunk_line EOF_MARKER (S ln) mv cs = Err e).
    { unfold update_hunk_line. replace (trim_end EOF_MARKER) with EOF_MARKER by done. rewrite Hu.
      replace (is_context_marker EOF_MARKER) with false by done.
      replace (strip_prefix MOVE_TO_MARKER EOF_MARKER) with (@None rstr) by done.
      destruct (is_some_and (last cs) is_end_of_file); cbn; [by eexists|].
      destruct (is_empty cs && negb (is_some mv)); by eexists. }
    destruct He as [e He]. exists e. by apply (feed_update_err _ _ _ _ _ _ _ _ e).
Qed.

Lemma feed_bad_change c n init path mv env ln :
  mapM group_change (item_groups (doc_items c)) = None -> Forall good_item (doc_items c) ->
  feeds (render_doc_change c) unfinished n init path mv [] env ln.
Proof.
  intros E Hi. unfold render_doc_change. apply (feeds_app _ _ unfinished); [by apply feed_bad_items|].
  intros cs' ln' Hu. destruct (doc_eof c); [by apply feed_bad_eof|]. right. by exists cs', ln'.
Qed.

(** An update that has no tree. *)
Lemma tree_of_None path m c : tree_of (DocUpdate path m c) = None -> mapM group_change (item_groups (doc_items c)) = None.
Proof.
  cbn [tree_of]. destruct (mapM group_change _) as [cs|] eqn:E; [|done].
  assert (Hne : cs <> []).
  { apply mapM_Some in E. intros ->. inversion E as [Hg|]. unfold item_groups in Hg.
    assert (Hgs : forall h ops items, groups h ops items <> []).
    { intros h ops items. revert ops. by induction items as [|[c0|o] items IH]; intros ops; cbn; [| |apply IH]. }
    destruct (doc_items c) as [|[c0|o] items]; by apply (eq_sym), Hgs in Hg. }
  destruct cs as [|c0 cs]; [done|]. destruct (doc_eof c); [|done].
  destruct (alter_last set_eof (c0 :: cs)) eqn:Ea; [|done].
  destruct cs as [|d cs _] using rev_ind; [done|]. change (c0 :: cs ++ [d]) with ((c0 :: cs) ++ [d]) in Ea.
  by rewrite alter_last_snoc in Ea.
Qed.

(** ** Nothing follows an unfinished update *)

Lemma unfinished_ensure line buf n init path mv cs env ln :
  unfinished cs ->
  exists e, ensure_update_hunk_is_not_empty line
    (mkParser buf (mkState (InUpdateFile n) (init ++ [UpdateFile path mv cs]) env) ln) = Err e.
Proof.
  intros Hu. unfold ensure_update_hunk_is_not_empty. cbn [state st_hunks mode line_number]. rewrite last_snoc.
  destruct (is_empty cs) eqn:E; [by eexists|]. destruct Hu as [-> | ->]; [done|].
  destruct (line == END_PATCH_MARKER); by eexists.
Qed.

Definition first_line (h : doc_hunk) : rstr * rstr :=
  match h with
  | DocAdd path _ => (ADD_FILE_MARKER, path)
  | DocDelete path => (DELETE_FILE_MARKER, path)
  | DocUpdate path _ _ => (UPDATE_FILE_MARKER, path)
  end.

Lemma first_line_render h : exists rest, render_doc_hunk h = ((first_line h).1 ++ (first_line h).2) :: rest.
Proof. destruct h; by eexists. Qed.

Lemma feed_header_err h rest n init path mv cs env ln :
  good_doc h -> unfinished cs ->
  exists e p, feed_lines (render_doc_hunk h ++ rest)
    (at_state (InUpdateFile n) (init ++ [UpdateFile path mv cs]) env ln) = (Err e, p).
Proof.
  intros Hg Hu. destruct (first_line_render h) as [tail ->]. rewrite <- app_comm_cons.
  set (line := (first_line h).1 ++ (first_line h).2).
  assert (Hline : good_name (first_line h).2) by (destruct h as [? ?|?|? ? ?]; cbn in *; tauto).
  assert (Hmk : exists c r, (first_line h).1 = c :: r /\ is_whitespace c = false) by (destruct h; by apply marker_head).
  assert (Hh : exists k, forall p, handle_hunk_headers_and_end_patch line p = guarded line (k p) p).
  { destruct h as [q ?|q|q ? ?]; eexists; intros p; [apply handle_add|apply handle_delete|apply handle_update]. }
  destruct Hh as [k Hk]. destruct (trim_marker _ _ Hmk Hline) as [_ Hte]. fold line in Hte.
  destruct (unfinished_ensure line [] n init path mv cs env (S ln) Hu) as [e He].
  exists e. eexists. rewrite feed_lines_cons. cbn [feed_lines]. rewrite chomp_cr_id by (by apply good_name_last).
  unfold process_line, take_line, or_header. cbn [state mode line_number]. rewrite Hte, Hk. unfold guarded.
  by rewrite He.
Qed.

Lemma finish_unfinished n init path mv cs env ln :
  unfinished cs ->
  exists e p, finish (mkParser END_PATCH_MARKER (mkState (InUpdateFile n) (init ++ [UpdateFile path mv cs]) env) ln) = (Err e, p).
Proof.
  intros Hu. unfold finish, finish_line.
  replace (is_empty (line_buffer (mkParser END_PATCH_MARKER _ ln))) with false by reflexivity.
  cbn [line_buffer]. replace (trim END_PATCH_MARKER) with END_PATCH_MARKER by reflexivity. rewrite str_eqb_refl.
  unfold take_line. cbn [state line_number].
  destruct (unfinished_ensure END_PATCH_MARKER [] n init path mv cs env (S ln) Hu) as [e ->]. by eexists _, _.
Qed.

(** A bad update after good hunks, and whatever comes after it. *)
Lemma feed_bad_hunk h post m hs env ln :
  good_doc h -> tree_of h = None -> Forall good_doc post -> between m hs ->
  (exists e p, feed_lines (render_doc_hunk h ++ (post ≫= render_doc_hunk)) (at_state m hs env ln) = (Err e, p))
  \/ exists n path mv cs ln', unfinished cs
       /\ feed_lines (render_doc_hunk h ++ (post ≫= render_doc_hunk)) (at_state m hs env ln)
          = (Ok tt, at_state (InUpdateFile n) (hs ++ [UpdateFile path mv cs]) env ln').
Proof.
  intros Hg Ht Hpost Hb. destruct h as [path added|path|path mv c]; [done..|].
  apply tree_of_None in Ht. destruct Hg as (Hp & Hmv & Hi). cbn [render_doc_hunk].
  rewrite <- app_comm_cons, feed_lines_cons.
  rewrite (feed_hunk_header _ path (UpdateFile path None []) (fun p => InUpdateFile (line_number p)));
    [|done|done|by apply marker_head|apply handle_update].
  rewrite <- app_assoc, feed_lines_app. cbn [line_number].
  destruct (feed_move mv hs path env (S ln) (S ln) Hmv) as [ln1 ->]. rewrite feed_lines_app.
  destruct (feed_bad_change c (S ln) hs path mv env ln1 Ht Hi) as [(e & p & ->)| (cs & ln2 & Hu & ->)]; [left; by eexists _, _|].
  destruct Hpost as [|h2 post Hg2 _].
  - right. by exists (S ln), path, mv, cs, ln2.
  - left. rewrite bind_cons. by apply feed_header_err.
Qed.

(** ** The theorem *)

Lemma render_doc_tree env hs trees : mapM tree_of hs = Some trees -> render_doc env hs = render_patch env trees.
Proof.
  intros E. unfold render_doc, render_patch, render_doc_body, render_body. do 3 f_equal. f_equal.
  apply mapM_Some in E. induction E as [|h t hs trees Ht _ IH]; [done|].
  by rewrite !bind_cons, IH, (tree_of_render h t Ht).
Qed.

Lemma trees_good hs trees : mapM tree_of hs = Some trees -> Forall good_doc hs -> Forall good_hunk trees.
Proof.
  intros E. apply mapM_Some in E. induction E as [|h t hs trees Ht _ IH]; [done|].
  intros [Hh Hhs]%Forall_cons. constructor; [by eapply tree_of_good|by apply IH].
Qed.

Lemma render_item_clean i : good_item i -> Forall clean_line (render_item i).
Proof.
  destruct i as [[c|]|o]; cbn; intros H; apply Forall_singleton.
  - apply good_name_clean; [by apply marker_no_lf|by apply H].
  - by split; [apply marker_no_lf|].
  - rewrite render_op_cons. by apply clean_cons; [destruct o..|].
Qed.

Lemma render_doc_hunk_clean h : good_doc h -> Forall clean_line (render_doc_hunk h).
Proof.
  destruct h as [path added|path|path mv c]; [by apply (render_hunk_clean (AddTree path added))
    |by apply (render_hunk_clean (DeleteTree path))|].
  intros (Hp & Hmv & Hi). cbn [render_doc_hunk]. constructor; [apply good_name_clean; [by apply marker_no_lf|done]|].
  apply Forall_app. split.
  - destruct mv as [d|]; [|constructor]. apply Forall_singleton, good_name_clean; [by apply marker_no_lf|auto].
  - unfold render_doc_change. apply Forall_app. split.
    + apply Forall_bind. eapply Forall_impl; [exact Hi|]. apply render_item_clean.
    + destruct (doc_eof c); [|constructor]. apply Forall_singleton. by split; [apply marker_no_lf|].
Qed.

Lemma render_doc_body_clean env hs :
  good_env env -> Forall good_doc hs -> Forall clean_line (render_doc_body env hs).
Proof.
  intros He Hh. constructor; [by split; [apply marker_no_lf|]|]. apply Forall_app. split.
  - destruct env as [e|]; [|constructor]. apply Forall_singleton. unfold render_env. rewrite app_assoc.
    apply good_name_clean; [by apply marker_no_lf|by apply He].
  - apply Forall_bind. eapply Forall_impl; [exact Hh|]. apply render_doc_hunk_clean.
Qed.

Lemma render_doc_trim env hs : trim (render_doc env hs) = render_doc env hs.
Proof.
  unfold trim, trim_start.
  assert (Hs : drop_while is_whitespace (render_doc env hs) = render_doc env hs).
  { unfold render_doc, render_doc_body. by destruct (render_env env ++ (hs ≫= render_doc_hunk)). }
  rewrite Hs. unfold render_doc.
  destruct (join_snoc [c_lf] (render_doc_body env hs) END_PATCH_MARKER) as [pre ->].
  by apply trim_end_prefix_id.
Qed.

(** The first hunk without a tree. *)
Lemma mapM_tree_None hs :
  mapM tree_of hs = None ->
  exists pre h post trees, hs = pre ++ h :: post /\ mapM tree_of pre = Some trees /\ tree_of h = None.
Proof.
  induction hs as [|h hs IH]; [done|]. cbn. destruct (tree_of h) as [t|] eqn:E.
  - cbn. destruct (mapM tree_of hs) as [ts|]; [done|]. intros _.
    destruct (IH eq_refl) as (pre & h' & post & trees & -> & Hpre & Hh'). exists (h :: pre), h', post, (t :: trees).
    cbn. by rewrite E, Hpre.
  - intros _. by exists [], h, hs, [].
Qed.

Lemma feed_bad_body env hs :
  good_env env -> Forall good_doc hs -> mapM tree_of hs = None ->
  (exists e p, feed_lines (render_doc_body env hs) default_parser = (Err e, p))
  \/ exists n init path mv cs ln, unfinished cs
       /\ feed_lines (render_doc_body env hs) default_parser
          = (Ok tt, at_state (InUpdateFile n) (init ++ [UpdateFile path mv cs]) env ln).
Proof.
  intros He Hg (pre & h & post & trees & -> & Hpre & Hh)%mapM_tree_None.
  apply Forall_app in Hg as [Hgpre [Hgh Hgpost]%Forall_cons].
  unfold render_doc_body. rewrite feed_lines_cons.
  replace (feed_lines [BEGIN_PATCH_MARKER] default_parser)
    with (@Ok ParseError unit tt, at_state StartedPatch [] None 1) by reflexivity.
  rewrite feed_lines_app. destruct (feed_env env 1 He) as [ln1 ->].
  assert (Hr : pre ≫= render_doc_hunk = trees ≫= render_hunk).
  { clear -Hpre. apply mapM_Some in Hpre. induction Hpre as [|x t pre trees Ht _ IH]; [done|].
    by rewrite !bind_cons, IH, (tree_of_render x t Ht). }
  rewrite bind_app, bind_cons, Hr, feed_lines_app.
  destruct (feed_hunks trees StartedPatch [] env ln1 (trees_good _ _ Hpre Hgpre)) as (m & ln2 & Hb & ->); [done|].
  destruct (feed_bad_hunk h post m _ env ln2 Hgh Hh Hgpost Hb) as [?|(n & path & mv & cs & ln3 & Hu & ->)]; [by left|].
  right. by eexists _, _, _, _, _, _.
Qed.

Lemma parse_patch_rejects env hs :
  good_env env -> Forall good_doc hs -> mapM tree_of hs = None -> exists e, parse_patch (render_doc env hs) = Err e.
Proof.
  intros He Hg Hn. unfold parse_patch, parse_patch_text. cbn [PARSE_IN_STRICT_MODE]. rewrite render_doc_trim.
  pose proof (render_doc_body_clean env hs He Hg) as Hc. unfold render_doc at 1.
  rewrite lines_join by (done || by apply marker_no_lf).
  assert (Hb : check_patch_boundaries_lenient (render_doc_body env hs ++ [END_PATCH_MARKER])
               = Ok (render_doc_body env hs ++ [END_PATCH_MARKER])).
  { unfold check_patch_boundaries_lenient, check_patch_boundaries_strict.
    rewrite last_snoc. unfold render_doc_body. rewrite <- app_comm_cons. reflexivity. }
  rewrite Hb. unfold push_delta. rewrite push_chars_join; [| |by apply marker_no_lf|done].
  2: { eapply Forall_impl; [exact Hc|]. by intros ? []. }
  destruct (feed_bad_body env hs He Hg Hn) as [(e & p & ->)| (n & init & path & mv & cs & ln & Hu & ->)]; [by eexists|].
  cbn [state line_number]. destruct (finish_unfinished n init path mv cs env ln Hu) as (e & p & ->). by eexists.
Qed.

(** C26: A patch of the documented grammar is accepted exactly when every update in it
    has a change and every context of a change is followed by a line; then parsing gives
    the environment id and the hunks that the grammar tree denotes, and otherwise an
    error (the grammar lets an update have no change, and a change be only contexts).
    Names and contexts are not empty and have no trailing blanks, and no line ends in a
    carriage return. *)
Theorem parse_patch_accepts_grammar env (hs : list doc_hunk) :
  good_env env -> Forall good_doc hs ->
  match mapM tree_of hs with
  | Some trees =>
      parse_patch (render_doc env hs) = Ok (mkArgs (render_doc env hs) (denote_hunk <$> trees) None env)
  | None => exists e, parse_patch (render_doc env hs) = Err e
  end.
Proof.
  intros He Hg. destruct (mapM tree_of hs) as [trees|] eqn:E; [|by apply parse_patch_rejects].
  rewrite (render_doc_tree env hs trees E). apply parse_patch_render; [done|by eapply trees_good].
Qed.

(** Two files of a patch that has one more update without a change. *)
Definition example_docs : list doc_hunk :=
  [DocAdd (lit "b.txt") [lit "*** End Patch"; []];
   DocUpdate (lit "a.txt") (Some (lit "c.txt"))
     (mkDocChange [DocLine (Keep (lit "one")); DocLine (Remove (lit "two")); DocContext (Some (lit "fn f()"));
                   DocLine (Insert (lit "*** Add File: x"))] true);
   DocDelete (lit "d.txt")].
Definition example_empty : doc_hunk := DocUpdate (lit "e.txt") None (mkDocChange [] false).
Definition example_context : doc_hunk :=
  DocUpdate (lit "f.txt") None (mkDocChange [DocContext None; DocContext None; DocLine (Insert [])] false).

#[local] Ltac solve_good :=
  repeat match goal with
  | |- Forall _ _ => constructor
  | |- _ /\ _ => split
  | |- no_lf _ => unfold no_lf; vm_compute; intros Hin;
      repeat (apply elem_of_cons in Hin as [Hin|Hin]; [discriminate Hin|]);
      by apply elem_of_nil in Hin
  | |- _ => progress simpl
  | |- _ => progress intros
  | H : Some _ = Some _ |- _ => injection H as <-
  | H : None = Some _ |- _ => discriminate H
  | |- _ <> _ => vm_compute; discriminate
  | |- _ = _ => vm_compute; reflexivity
  | |- _ => progress unfold good_env, good_doc, good_item, good_name, clean_line
  end.

Lemma parse_patch_accepts_grammar_witness :
  (exists trees, mapM tree_of example_docs = Some trees
     /\ parse_patch (render_doc (Some (lit "env-1")) example_docs)
        = Ok (mkArgs (render_doc (Some (lit "env-1")) example_docs) (denote_hunk <$> trees) None (Some (lit "env-1"))))
  /\ (exists e, parse_patch (render_doc None (example_empty :: example_docs)) = Err e)
  /\ exists e, parse_patch (render_doc None [example_context]) = Err e.
Proof.
  split_and!.
  - eexists. split; [vm_compute; reflexivity|].
    apply (parse_patch_accepts_grammar (Some (lit "env-1")) example_docs); unfold example_docs; solve_good.
  - apply (parse_patch_accepts_grammar None (example_empty :: example_docs)); unfold example_docs, example_empty; solve_good.
  - apply (parse_patch_accepts_grammar None [example_context]); unfold example_context; solve_good.
Defined.
