(* ===== verification/SeekSequence.v ===== *)
(** * SeekSequence: [codex-rs/apply-patch/src/seek_sequence.rs]

    The fuzzy search that locates the lines of a chunk in a file: four passes
    of decreasing strictness over the same window of candidate positions.
    [search_in] is the loop common to the four passes, [line_matches] the
    comparison of each pass. *)

From stdpp Require Import base list gmap strings.
From S2P Require Import Prelude PatchTypes.

Open Scope rust_scope.

(** [normalise]: typographic punctuation folded to ASCII after trimming. *)
Definition normalise_char (c : N) : N :=
  (if ((8208 <=? c) && (c <=? 8213)) || (c =? 8722) then 45
   else if (8216 <=? c) && (c <=? 8219) then 39
   else if (8220 <=? c) && (c <=? 8223) then 34
   else if (c =? 160) || ((8194 <=? c) && (c <=? 8202)) || (c =? 8239)
           || (c =? 8287) || (c =? 12288) then 32
   else c)%N.

Definition normalise (s : rstr) : rstr := normalise_char <$> trim s.

Inductive strictness := Exact | TrimEnd | TrimBoth | Normalised.

Definition line_key (k : strictness) (s : rstr) : rstr :=
  match k with
  | Exact => s
  | TrimEnd => trim_end s
  | TrimBoth => trim s
  | Normalised => normalise s
  end.

(** The inner loop: does every pattern line match the line at its offset?
    Reading [lines[i + p_idx]] past the end would panic; [matches_at] is
    false there, and the search never gets there. *)
Fixpoint matches_here (k : strictness) (lines pattern : list rstr) {struct pattern} : bool :=
  match pattern, lines with
  | [], _ => true
  | p :: pattern', l :: lines' =>
      (line_key k l == line_key k p) && matches_here k lines' pattern'
  | _ :: _, [] => false
  end.

Definition matches_at (k : strictness) (lines pattern : list rstr) (i : nat) : bool :=
  matches_here k (drop i lines) pattern.

(** [for i in start..start + n { if matches { return Some(i) } }] *)
Fixpoint search_in (k : strictness) (lines pattern : list rstr) (start n : nat)
  : option nat :=
  match n with
  | 0 => None
  | S n' =>
      if matches_at k lines pattern start then Some start
      else search_in k lines pattern (S start) n'
  end.

(** [search_start..=lines.len() - pattern.len()] as start and count. *)
Definition window (lines pattern : list rstr) (search_start : nat) : nat :=
  S (length lines - length pattern) - search_start.

Definition search_pass (k : strictness) (lines pattern : list rstr) (search_start : nat)
  : option nat :=
  search_in k lines pattern search_start (window lines pattern search_start).

Definition seek_start (lines pattern : list rstr) (start : nat) (eof : bool)
    (update_file_mode : ApplyPatchFileUpdateMode) : nat :=
  if eof && (length pattern <=? length lines) then
    let eof_start := length lines - length pattern in
    match update_file_mode with
    | NormalizeToLf => eof_start
    | PreserveLineEndings => Nat.max eof_start start
    end
  else start.

Definition or_else {A} (o1 o2 : option A) : option A :=
  match o1 with Some _ => o1 | None => o2 end.

Definition seek_sequence (lines pattern : list rstr) (start : nat) (eof : bool)
    (update_file_mode : ApplyPatchFileUpdateMode) : option nat :=
  if is_empty pattern then Some start
  else if length lines <? length pattern then None
  else
    let search_start := seek_start lines pattern start eof update_file_mode in
    or_else (search_pass Exact lines pattern search_start)
    (or_else (search_pass TrimEnd lines pattern search_start)
    (or_else (search_pass TrimBoth lines pattern search_start)
    (search_pass Normalised lines pattern search_start))).

(** ** Comparisons of decreasing strictness *)

Lemma trim_trim_end s : trim (trim_end s) = trim s.
Proof.
  unfold trim, trim_start. induction s as [|c s IH]; [done|].
  rewrite trim_end_cons. destruct (trim_end s) as [|d u] eqn:E.
  - simpl. destruct (is_whitespace c) eqn:Ec; simpl.
    + rewrite <- IH. done.
    + rewrite Ec. by rewrite !trim_end_cons, E.
  - simpl. destruct (is_whitespace c) eqn:Ec; [exact IH|].
    rewrite <- E. rewrite !trim_end_cons, trim_end_idemp. done.
Qed.

(** The passes are ordered: a match of one pass is a match of the next. *)
Lemma line_key_weaken a b :
  (a = b -> line_key TrimEnd a = line_key TrimEnd b) /\
  (line_key TrimEnd a = line_key TrimEnd b -> line_key TrimBoth a = line_key TrimBoth b) /\
  (line_key TrimBoth a = line_key TrimBoth b ->
     line_key Normalised a = line_key Normalised b).
Proof.
  simpl. split_and!; [by intros ->| |].
  - intros H. rewrite <- (trim_trim_end a), H. apply trim_trim_end.
  - unfold normalise. by intros ->.
Qed.

(** What a match says position by position. *)
Lemma matches_here_spec k lines pattern :
  matches_here k lines pattern = true <->
  length pattern <= length lines /\
  forall j p l, pattern !! j = Some p -> lines !! j = Some l -> line_key k l = line_key k p.
Proof.
  revert lines. induction pattern as [|p pattern IH]; intros lines; simpl.
  { split; [|done]. intros _. split; [lia|]. intros j q l Hq. by rewrite lookup_nil in Hq. }
  destruct lines as [|l lines]; simpl; [split; [done|lia]|].
  rewrite andb_true_iff, str_eqb_true, IH. split.
  - intros (Hl & Hlen & Hr). split; [lia|]. intros [|j] q m Hq Hm; simpl in *; simplify_eq; eauto.
  - intros [Hlen Hr]. split_and!; [by apply (Hr 0)|lia|].
    intros j q m Hq Hm. by apply (Hr (S j)).
Qed.

Lemma matches_at_bound k lines pattern i :
  pattern <> [] -> matches_at k lines pattern i = true -> i + length pattern <= length lines.
Proof.
  intros Hne H. unfold matches_at in H. apply matches_here_spec in H as [H _].
  rewrite length_drop in H. destruct pattern; [done|]. simpl in *. lia.
Qed.

Lemma matches_here_weaken k k' lines pattern :
  (forall a b, line_key k a = line_key k b -> line_key k' a = line_key k' b) ->
  matches_here k lines pattern = true -> matches_here k' lines pattern = true.
Proof. rewrite !matches_here_spec. intros Hk [Hl H]. split; eauto. Qed.

(** Every pass implies the most permissive one. *)
Lemma matches_at_normalised k lines pattern i :
  matches_at k lines pattern i = true -> matches_at Normalised lines pattern i = true.
Proof.
  apply matches_here_weaken. intros a b.
  destruct (line_key_weaken a b) as (H1 & H2 & H3). destruct k; auto.
Qed.

(** ** The search loop *)

Lemma search_in_Some k lines pattern start n i :
  search_in k lines pattern start n = Some i ->
  start <= i < start + n /\ matches_at k lines pattern i = true /\
  forall j, start <= j < i -> matches_at k lines pattern j = false.
Proof.
  revert start. induction n as [|n IH]; intros start; simpl; [done|].
  destruct (matches_at k lines pattern start) eqn:E; intros H.
  - simplify_eq. split_and!; [lia|lia|done|]. intros j Hj. lia.
  - destruct (IH _ H) as (Hi & Hm & Hj). split_and!; [lia|lia|done|].
    intros j Hjr. destruct (decide (j = start)) as [->|]; [done|]. apply Hj. lia.
Qed.

Lemma search_in_None k lines pattern start n :
  search_in k lines pattern start n = None ->
  forall j, start <= j < start + n -> matches_at k lines pattern j = false.
Proof.
  revert start. induction n as [|n IH]; intros start; simpl; [lia|].
  destruct (matches_at k lines pattern start) eqn:E; [done|]. intros H j Hj.
  destruct (decide (j = start)) as [->|]; [done|]. apply (IH _ H). lia.
Qed.

(** A pass is exhaustive: it finds the first matching position, and fails
    only when no position from its start on matches. *)
Lemma search_pass_Some k lines pattern start i :
  search_pass k lines pattern start = Some i ->
  start <= i /\ matches_at k lines pattern i = true /\
  forall j, start <= j < i -> matches_at k lines pattern j = false.
Proof. intros H. apply search_in_Some in H as ([? ?] & ? & ?). done. Qed.

Lemma search_pass_None k lines pattern start :
  pattern <> [] -> search_pass k lines pattern start = None ->
  forall j, start <= j -> matches_at k lines pattern j = false.
Proof.
  intros Hne H j Hj. destruct (matches_at k lines pattern j) eqn:E; [|done].
  rewrite <- E. apply (search_in_None _ _ _ _ _ H). split; [done|].
  pose proof (matches_at_bound _ _ _ _ Hne E). unfold window. lia.
Qed.

(** [seek_sequence] returns the result of the strictest pass that succeeds. *)
Lemma seek_sequence_Some lines pattern start eof m i :
  pattern <> [] -> seek_sequence lines pattern start eof m = Some i ->
  seek_start lines pattern start eof m <= i /\
  exists k, matches_at k lines pattern i = true /\
    search_pass k lines pattern (seek_start lines pattern start eof m) = Some i.
Proof.
  intros Hne. unfold seek_sequence. rewrite (proj2 (is_empty_false pattern) Hne).
  destruct (length lines <? length pattern); [done|].
  set (s := seek_start lines pattern start eof m).
  assert (Hpass : forall k, search_pass k lines pattern s = Some i -> s <= i /\
    exists k, matches_at k lines pattern i = true /\ search_pass k lines pattern s = Some i).
  { intros k Hk. destruct (search_pass_Some _ _ _ _ _ Hk) as (? & ? & _). eauto. }
  unfold or_else. intros H. repeat break_match_in H; simplify_eq; eauto.
Qed.

Lemma seek_sequence_None lines pattern start eof m :
  seek_sequence lines pattern start eof m = None ->
  forall k j, seek_start lines pattern start eof m <= j ->
  matches_at k lines pattern j = false.
Proof.
  intros H k j Hj. apply not_true_iff_false. intros Hm.
  unfold seek_sequence in H. destruct (is_empty pattern) eqn:Ee; [done|].
  apply is_empty_false in Ee. destruct (length lines <? length pattern) eqn:El.
  { apply Nat.ltb_lt in El. pose proof (matches_at_bound _ _ _ _ Ee Hm). lia. }
  unfold or_else in H. repeat break_match_in H; simplify_eq.
  apply matches_at_normalised in Hm.
  by rewrite (search_pass_None Normalised lines pattern _ Ee H j Hj) in Hm.
Qed.

(** The position found fits in the file. *)
Lemma seek_sequence_bound lines pattern start eof m i :
  start <= length lines -> seek_sequence lines pattern start eof m = Some i ->
  i + length pattern <= length lines.
Proof.
  intros Hs H. destruct (decide (pattern = [])) as [->|Hne].
  - unfold seek_sequence in H. simpl in *. simplify_eq. lia.
  - destruct (seek_sequence_Some _ _ _ _ _ _ Hne H) as (_ & k & Hm & _).
    by eapply matches_at_bound.
Qed.

(** In [PreserveLineEndings] mode the search never goes back. *)
Lemma seek_sequence_forward lines pattern start eof i :
  seek_sequence lines pattern start eof PreserveLineEndings = Some i -> start <= i.
Proof.
  intros H. destruct (decide (pattern = [])) as [->|Hne].
  - unfold seek_sequence in H. simpl in *. by simplify_eq.
  - destruct (seek_sequence_Some _ _ _ _ _ _ Hne H) as (Hi & _).
    unfold seek_start in Hi. destruct (eof && _); lia.
Qed.

(** ** Properties *)

(** How far the comparison was relaxed. *)
Definition rank (k : strictness) : nat :=
  match k with Exact => 0 | TrimEnd => 1 | TrimBoth => 2 | Normalised => 3 end.

Lemma seek_sequence_strictest lines pattern start eof m i :
  pattern <> [] -> seek_sequence lines pattern start eof m = Some i ->
  exists k, search_pass k lines pattern (seek_start lines pattern start eof m) = Some i /\
    forall k', rank k' < rank k ->
      search_pass k' lines pattern (seek_start lines pattern start eof m) = None.
Proof.
  intros Hne. unfold seek_sequence. rewrite (proj2 (is_empty_false pattern) Hne).
  destruct (_ <? _); [done|]. set (st := seek_start _ _ _ _ _).
  destruct (search_pass Exact _ _ st) eqn:E1; simpl.
  { intros [= <-]. exists Exact. split; [done|]. simpl. lia. }
  destruct (search_pass TrimEnd _ _ st) eqn:E2; simpl.
  { intros [= <-]. exists TrimEnd. split; [done|]. intros []; simpl; done || lia. }
  destruct (search_pass TrimBoth _ _ st) eqn:E3; simpl.
  { intros [= <-]. exists TrimBoth. split; [done|]. intros []; simpl; done || lia. }
  intros E4. exists Normalised. split; [done|]. intros []; simpl; done || lia.
Qed.

(** A match is reported with the strictest comparison that matches
    anywhere from the search start, at the first place where it does, and lies
    within the file. *)
Theorem seek_sequence_sound lines pattern start eof m i :
  pattern <> [] -> seek_sequence lines pattern start eof m = Some i ->
  exists k, matches_at k lines pattern i = true /\ i + length pattern <= length lines /\
    seek_start lines pattern start eof m <= i /\
    (forall j, seek_start lines pattern start eof m <= j < i ->
       matches_at k lines pattern j = false) /\
    (forall k' j, rank k' < rank k -> seek_start lines pattern start eof m <= j ->
       matches_at k' lines pattern j = false).
Proof.
  intros Hne Hs. destruct (seek_sequence_strictest _ _ _ _ _ _ Hne Hs) as (k & Hk & Hstrict).
  destruct (search_pass_Some _ _ _ _ _ Hk) as (Hst & Hm & Hfirst).
  exists k. split_and!; eauto using matches_at_bound, search_pass_None.
Qed.

Lemma seek_sequence_sound_witness :
  exists k, matches_at k [lit "a"; lit "b "; lit "b"] [lit "b"] 2 = true /\
    forall k' j, rank k' < rank k -> 0 <= j ->
      matches_at k' [lit "a"; lit "b "; lit "b"] [lit "b"] j = false.
Proof.
  destruct (seek_sequence_sound [lit "a"; lit "b "; lit "b"] [lit "b"] 0 false NormalizeToLf 2)
    as (k & Hm & _ & _ & _ & Hs); [discriminate|vm_compute; reflexivity|].
  by exists k.
Defined.

(** The search fails exactly when no position from the search start on
    matches under any of the comparisons. *)
Theorem seek_sequence_complete lines pattern start eof m :
  seek_sequence lines pattern start eof m = None <->
  pattern <> [] /\
  forall k j, seek_start lines pattern start eof m <= j -> matches_at k lines pattern j = false.
Proof.
  split.
  - intros Hn. split; [|by apply seek_sequence_None]. by intros ->.
  - intros [Hne Hno]. destruct (seek_sequence lines pattern start eof m) as [i|] eqn:Hs; [|done].
    destruct (seek_sequence_Some _ _ _ _ _ _ Hne Hs) as (Hi & k & Hm & _).
    by rewrite (Hno k i Hi) in Hm.
Qed.

(** With [eof] in the LF-normalising mode the only candidate is the end of
    the file, whatever [start] is: a match elsewhere is not searched for, and
    the match found may lie before [start]. *)
Theorem seek_eof_only_at_end lines pattern start i :
  pattern <> [] ->
  seek_sequence lines pattern start true NormalizeToLf = Some i ->
  i = length lines - length pattern.
Proof.
  intros Hne Hs. destruct (seek_sequence_Some _ _ _ _ _ _ Hne Hs) as (Hi & k & Hm & _).
  pose proof (matches_at_bound _ _ _ _ Hne Hm) as Hb. revert Hi. unfold seek_start. simpl.
  rewrite (proj2 (Nat.leb_le _ _)) by lia. lia.
Qed.

Lemma seek_eof_only_at_end_witness :
  seek_sequence [lit "x"; lit "y"; lit "x"; lit "z"] [lit "x"; lit "z"] 3 true NormalizeToLf
    = Some 2 /\
  seek_sequence [lit "x"; lit "y"] [lit "x"] 0 true NormalizeToLf = None.
Proof.
  split; [|vm_compute; reflexivity].
  assert (Hs : exists i, seek_sequence [lit "x"; lit "y"; lit "x"; lit "z"] [lit "x"; lit "z"]
    3 true NormalizeToLf = Some i) by (eexists; vm_compute; reflexivity).
  destruct Hs as [i Hs]. rewrite Hs. f_equal.
  apply (seek_eof_only_at_end [lit "x"; lit "y"; lit "x"; lit "z"] [lit "x"; lit "z"] 3 i);
    [discriminate|exact Hs].
Defined.
