(* ===== verification/TextFile.v ===== *)
(** * TextFile: [codex-rs/apply-patch/src/text_file.rs]

    A source file as logical lines that remember their terminators.  The
    byte cursor of [SourceFile::parse] becomes a recursion on the text that
    carries the pending line (reversed, as in [contents[line_start..cursor]]
    read backwards): CR and LF are ASCII, so they never occur inside a
    multi-byte character and cutting there is cutting between characters. *)

From stdpp Require Import base list gmap strings.
From S2P Require Import Prelude.

Definition Replacement : Type := nat * nat * list rstr.

Definition repl_start (r : Replacement) : nat := r.1.1.
Definition repl_len (r : Replacement) : nat := r.1.2.
Definition repl_lines (r : Replacement) : list rstr := r.2.

Inductive LineEnding := Lf | CrLf | Cr.

#[export] Instance line_ending_eq_dec : EqDecision LineEnding.
Proof. solve_decision. Defined.

Definition ending_str (e : LineEnding) : rstr :=
  match e with Lf => [c_lf] | CrLf => [c_cr; c_lf] | Cr => [c_cr] end.

Record SourceLine := mkLine { text : rstr; ending : option LineEnding }.

Record SourceFile := mkFile {
  file_lines : list SourceLine;
  preferred_ending : LineEnding
}.

(** ** [SourceFile::parse] *)

(** The scanning loop: [pending] is the current line so far, reversed. *)
Fixpoint parse_lines (contents : rstr) (pending : rstr) : list SourceLine :=
  match contents with
  | [] => if is_empty pending then [] else [mkLine (reverse pending) None]
  | c :: rest =>
      if (c =? c_cr)%N then
        match rest with
        | d :: rest' =>
            if (d =? c_lf)%N
            then mkLine (reverse pending) (Some CrLf) :: parse_lines rest' []
            else mkLine (reverse pending) (Some Cr) :: parse_lines rest []
        | [] => mkLine (reverse pending) (Some Cr) :: parse_lines rest []
        end
      else if (c =? c_lf)%N
      then mkLine (reverse pending) (Some Lf) :: parse_lines rest []
      else parse_lines rest (c :: pending)
  end.

(** [preferred_ending.get_or_insert(ending)] keeps the first ending seen. *)
Fixpoint first_ending (ls : list SourceLine) : option LineEnding :=
  match ls with
  | [] => None
  | l :: r => match ending l with Some e => Some e | None => first_ending r end
  end.

Definition parse (contents : rstr) : SourceFile :=
  let ls := parse_lines contents [] in
  mkFile ls (default Lf (first_ending ls)).

Definition line_texts (f : SourceFile) : list rstr := text <$> file_lines f.

(** ** [SourceFile::into_contents] *)
Definition line_contents (l : SourceLine) : rstr :=
  text l ++ match ending l with Some e => ending_str e | None => [] end.

Definition into_contents (f : SourceFile) : rstr := file_lines f ≫= line_contents.

(** ** [SourceFile::apply_replacements]

    The loop consumes the source lines through one iterator; [start_idx -
    source_index] and the [debug_assert!] before it need the replacements in
    source order, and a violation panics. *)
Fixpoint replace_loop {E} (preferred : LineEnding) (source : list SourceLine)
    (source_index : nat) (replacements : list Replacement) : outcome E (list SourceLine) :=
  match replacements with
  | [] => Done source
  | (start_idx, old_len, new_segment) :: rest =>
      skip ← usize_sub start_idx source_index;
      tail ← replace_loop preferred (drop old_len (drop skip source)) (start_idx + old_len) rest;
      Done (take skip source
            ++ ((fun t => mkLine t (Some preferred)) <$> new_segment) ++ tail)
  end.

(** [line.ending.get_or_insert(self.preferred_ending)] on every line. *)
Definition terminate (preferred : LineEnding) (l : SourceLine) : SourceLine :=
  mkLine (text l) (Some (default preferred (ending l))).

Definition apply_replacements {E} (replacements : list Replacement) (f : SourceFile)
  : outcome E SourceFile :=
  new_lines ← replace_loop (preferred_ending f) (file_lines f) 0 replacements;
  Done (mkFile (terminate (preferred_ending f) <$> new_lines) (preferred_ending f)).

(** ** Round trip *)

Lemma parse_lines_contents contents pending :
  parse_lines contents pending ≫= line_contents = reverse pending ++ contents.
Proof.
  enough (H : forall n contents pending, length contents <= n ->
    parse_lines contents pending ≫= line_contents = reverse pending ++ contents) by eauto.
  clear. induction n as [|n IH]; intros contents pending Hn.
  all: destruct contents as [|c rest]; simpl in *; try lia.
  1,2: destruct (is_empty pending) eqn:E; [by apply is_empty_true in E as ->|].
  1,2: simpl; unfold line_contents; simpl; by rewrite !app_nil_r.
  destruct (N.eqb_spec c c_cr) as [->|_].
  - assert (Hcr : forall r, length r <= n ->
      (mkLine (reverse pending) (Some Cr) :: parse_lines r []) ≫= line_contents
      = reverse pending ++ c_cr :: r).
    { intros r Hr. rewrite bind_cons, IH by done. unfold line_contents. simpl.
      by rewrite <- app_assoc. }
    destruct rest as [|d rest']; [apply Hcr; simpl; lia|].
    destruct (N.eqb_spec d c_lf) as [->|_]; [|by apply Hcr; lia].
    rewrite bind_cons, IH by (simpl in *; lia). unfold line_contents. simpl.
    by rewrite <- app_assoc.
  - destruct (N.eqb_spec c c_lf) as [->|_].
    + rewrite bind_cons, IH by lia. unfold line_contents. simpl. by rewrite <- app_assoc.
    + rewrite IH, reverse_cons by lia. by rewrite <- app_assoc.
Qed.

(** ** Lines carry no terminator of their own *)

Definition no_terminator (s : rstr) : Prop := Forall (fun c => c <> c_cr /\ c <> c_lf) s.

(** Every line has a terminator except possibly a last, non-empty one. *)
Fixpoint lines_wf (ls : list SourceLine) : Prop :=
  match ls with
  | [] => True
  | l :: r =>
      no_terminator (text l) /\ lines_wf r /\
      (ending l = None -> r = [] /\ text l <> [])
  end.

Lemma parse_lines_wf contents pending :
  no_terminator pending -> lines_wf (parse_lines contents pending).
Proof.
  enough (H : forall n contents pending, length contents <= n -> no_terminator pending ->
    lines_wf (parse_lines contents pending)) by eauto.
  clear. induction n as [|n IH]; intros contents pending Hn Hp.
  all: assert (Hrev : no_terminator (reverse pending)) by by apply Forall_reverse.
  all: assert (Hnil : no_terminator []) by constructor.
  all: destruct contents as [|c rest]; simpl in *; try lia.
  1,2: destruct (is_empty pending) eqn:E; simpl; [done|].
  1,2: apply is_empty_false in E; split_and!; [done..|];
       intros _; split; [done|]; by rewrite reverse_nil_iff.
  destruct (N.eqb_spec c c_cr) as [->|Hcr].
  - destruct rest as [|d rest']; [by repeat split|].
    destruct (d =? c_lf)%N; (split; [done|]; split; [|done]); apply IH; simpl in *; done || lia.
  - destruct (N.eqb_spec c c_lf) as [->|Hlf].
    + split; [done|]. split; [|done]. apply IH; [lia|done].
    + apply IH; [lia|]. by constructor.
Qed.

(** ** Ordered replacements and their meaning

    [ordered idx len rs]: the replacements are in source order from [idx],
    pairwise disjoint, and end within a file of [len] lines.  [splice] is what
    they mean on the remaining lines [l], which start at index [idx]; [inj]
    makes a line of the new text. *)
Fixpoint ordered (idx len : nat) (rs : list Replacement) : Prop :=
  match rs with
  | [] => idx <= len
  | r :: rest =>
      idx <= repl_start r /\ ordered (repl_start r + repl_len r) len rest
  end.

Fixpoint splice {A} (inj : rstr -> A) (idx : nat) (l : list A) (rs : list Replacement) : list A :=
  match rs with
  | [] => l
  | r :: rest =>
      take (repl_start r - idx) l ++ (inj <$> repl_lines r)
      ++ splice inj (repl_start r + repl_len r)
           (drop (repl_start r + repl_len r - idx) l) rest
  end.

#[export] Instance ordered_dec idx len rs : Decision (ordered idx len rs).
Proof. revert idx. induction rs as [|r rs IH]; intros idx; simpl; apply _. Defined.

Lemma ordered_bound idx len rs : ordered idx len rs -> idx <= len.
Proof.
  revert idx. induction rs as [|r rs IH]; intros idx; simpl; [done|].
  intros [H Hr]. apply IH in Hr. lia.
Qed.

Lemma ordered_weaken idx idx' len rs : idx' <= idx -> ordered idx len rs -> ordered idx' len rs.
Proof. destruct rs; simpl; intuition lia. Qed.

(** Mapping the lines commutes with splicing. *)
Lemma splice_fmap {A B} (f : A -> B) inj idx l rs :
  f <$> splice inj idx l rs = splice (f ∘ inj) idx (f <$> l) rs.
Proof.
  revert idx l. induction rs as [|r rs IH]; intros idx l; simpl; [done|].
  rewrite !fmap_app, IH, fmap_take, fmap_drop, list_fmap_compose. done.
Qed.

(** Lines before the first replacement are copied. *)
Lemma splice_skip {A} (inj : rstr -> A) k idx len l rs :
  ordered (idx + k) len rs -> k <= length l ->
  splice inj idx l rs = take k l ++ splice inj (idx + k) (drop k l) rs.
Proof.
  destruct rs as [|r rs]; simpl; [by rewrite take_drop|]. intros [H _] Hk.
  rewrite drop_drop.
  replace (k + (repl_start r + repl_len r - (idx + k)))
    with (repl_start r + repl_len r - idx) by lia.
  replace (repl_start r - idx) with (k + (repl_start r - (idx + k))) by lia.
  by rewrite <- take_take_drop, <- app_assoc.
Qed.

Lemma replace_loop_splice {E} p source idx rs :
  ordered idx (idx + length source) rs ->
  replace_loop (E := E) p source idx rs
  = Done (splice (fun t => mkLine t (Some p)) idx source rs).
Proof.
  revert idx source. induction rs as [|[[s n] seg] rs IH]; intros idx source; simpl; [done|].
  unfold repl_start, repl_len, repl_lines; simpl. intros [Hs Ho].
  unfold usize_sub. rewrite (proj2 (Nat.leb_le _ _) Hs). simpl.
  pose proof (ordered_bound _ _ _ Ho) as Hb.
  rewrite drop_drop. replace (s - idx + n) with (s + n - idx) by lia.
  rewrite IH; [done|].
  rewrite length_drop. by replace (s + n + (length source - (s + n - idx))) with
    (idx + length source) by lia.
Qed.

(** Out of order, the loop panics: the check is not vacuous. *)
Lemma replace_loop_panics {E} p source idx s n seg rs :
  s < idx -> replace_loop (E := E) p source idx ((s, n, seg) :: rs) = Panic.
Proof.
  intros H. simpl. unfold usize_sub. by rewrite (proj2 (Nat.leb_gt _ _) H).
Qed.

Lemma apply_replacements_splice {E} rs f :
  ordered 0 (length (file_lines f)) rs ->
  apply_replacements (E := E) rs f =
  Done (mkFile (terminate (preferred_ending f)
                <$> splice (fun t => mkLine t (Some (preferred_ending f))) 0 (file_lines f) rs)
          (preferred_ending f)).
Proof. intros Ho. unfold apply_replacements. by rewrite replace_loop_splice. Qed.

(** ** Properties *)

(** Reading a file into lines and writing it back without a change gives
    the same text, whatever mixture of LF, CRLF and CR it uses; the line texts
    hold no terminator, and only a last, non-empty line can lack one. *)
Theorem source_file_round_trip contents :
  into_contents (parse contents) = contents /\ lines_wf (file_lines (parse contents)).
Proof.
  split; [apply (parse_lines_contents contents [])|apply parse_lines_wf; constructor].
Qed.

(** Replacing ordered line ranges of a source file succeeds, gives the
    spliced line texts, leaves the ending of every copied line as it was and
    terminates every other line with the file's preferred ending. *)
Theorem source_file_replacements {E} rs f :
  ordered 0 (length (file_lines f)) rs ->
  exists f', apply_replacements (E := E) rs f = Done f' /\
    line_texts f' = splice id 0 (line_texts f) rs /\
    (forall l, l ∈ file_lines f' ->
       ending l = Some (preferred_ending f) \/ l ∈ file_lines f).
Proof.
  intros Ho. eexists; split; [by apply apply_replacements_splice|]. split.
  - unfold line_texts. simpl. rewrite <- list_fmap_compose.
    by rewrite (splice_fmap (text ∘ terminate (preferred_ending f))).
  - intros l. simpl. intros ([t [e|]] & -> & Hin)%list_elem_of_fmap; [|by left].
    revert Hin. generalize (file_lines f), 0. clear. induction rs as [|r rs IH]; intros ls i; simpl.
    { by right. }
    rewrite !elem_of_app. intros [Hin|[Hin|Hin]].
    + right. rewrite <- (take_drop (repl_start r - i) ls). apply elem_of_app. by left.
    + left. apply list_elem_of_fmap in Hin as (? & [= -> ->] & _). done.
    + destruct (IH _ _ Hin) as [?|Hd]; [by left|right].
      rewrite <- (take_drop (repl_start r + repl_len r - i) ls). apply elem_of_app. by right.
Qed.

Definition example_file : SourceFile :=
  parse (lit "a" ++ [c_cr; c_lf] ++ lit "b" ++ [c_lf] ++ lit "c").

Lemma source_file_replacements_witness :
  exists f', apply_replacements (E := unit) [(1, 1, [lit "x"; lit "y"])] example_file = Done f' /\
    line_texts f' = [lit "a"; lit "x"; lit "y"; lit "c"].
Proof.
  destruct (source_file_replacements (E := unit) [(1, 1, [lit "x"; lit "y"])] example_file)
    as (f' & Hf & Ht & _); [by apply (bool_decide_unpack _); vm_compute|].
  exists f'. split; [exact Hf|]. rewrite Ht. vm_compute. reflexivity.
Defined.
