(* ===== verification/FileUpdate.v ===== *)
(** * FileUpdate: [codex-rs/apply-patch/src/file_update.rs]

    From the chunks of an update hunk to the new contents of the file:
    locating each chunk ([compute_replacements]), and rebuilding the text in
    the two update modes.  Reading the file is the caller's business
    ([ApplyPatch]); here the original contents are given.

    Functions that index, slice or subtract return an [outcome]: [Fail] is the
    [ComputeReplacements] error with its message, [Panic] a Rust panic. *)

From stdpp Require Import base list gmap strings sorting.
From S2P Require Import Prelude PatchTypes SeekSequence TextFile.

Open Scope rust_scope.

(** ** Errors *)
Definition msg_no_context (ctx_line path : rstr) : rstr :=
  lit "Failed to find context '" ++ ctx_line ++ lit "' in " ++ path.

Definition msg_no_lines (path : rstr) (olds : list rstr) : rstr :=
  lit "Failed to find expected lines in " ++ path ++ lit ":" ++ [c_lf] ++ join [c_lf] olds.

(** ** Replacements of one located chunk *)

(** [&v[..v.len() - 1]] *)
Definition drop_last {A} (l : list A) : list A := take (length l - 1) l.

Definition last_is_empty (l : list rstr) : bool := is_some_and (last l) is_empty.

(** The region left over after the last context line. *)
Definition final_replacement (start_idx pattern_len : nat) (new_slice : list rstr)
    (old_start new_start : nat) : outcome rstr (list Replacement) :=
  if negb (old_start =? pattern_len) || negb (new_start =? length new_slice) then
    old_len ← usize_sub pattern_len old_start;
    segment ← slice new_slice new_start (length new_slice);
    Done [(start_idx + old_start, old_len, segment)]
  else Done [].

(** The loop over [chunk.context_line_indices] of the preserving mode. *)
Fixpoint context_replacements (start_idx pattern_len : nat) (new_slice : list rstr)
    (old_start new_start : nat) (indices : list (nat * nat))
  : outcome rstr (list Replacement) :=
  match indices with
  | [] => final_replacement start_idx pattern_len new_slice old_start new_start
  | (old_context, new_context) :: rest =>
      if (pattern_len <=? old_context) || (length new_slice <=? new_context)
      then final_replacement start_idx pattern_len new_slice old_start new_start
      else
        pushed ←
          (if negb (old_start =? old_context) || negb (new_start =? new_context) then
             old_len ← usize_sub old_context old_start;
             segment ← slice new_slice new_start new_context;
             Done [(start_idx + old_start, old_len, segment)]
           else Done []);
        others ← context_replacements start_idx pattern_len new_slice
                   (S old_context) (S new_context) rest;
        Done (pushed ++ others)
  end.

(** Search for the old lines, retried without a final empty line. *)
Definition locate_chunk (original_lines : list rstr) (line_index : nat)
    (chunk : UpdateFileChunk) (update_file_mode : ApplyPatchFileUpdateMode)
  : option (nat * list rstr * list rstr) :=
  match seek_sequence original_lines (old_lines chunk) line_index
          (is_end_of_file chunk) update_file_mode with
  | Some idx => Some (idx, old_lines chunk, new_lines chunk)
  | None =>
      if last_is_empty (old_lines chunk) then
        let pattern := drop_last (old_lines chunk) in
        let new_slice :=
          if last_is_empty (new_lines chunk) then drop_last (new_lines chunk)
          else new_lines chunk in
        match seek_sequence original_lines pattern line_index
                (is_end_of_file chunk) update_file_mode with
        | Some idx => Some (idx, pattern, new_slice)
        | None => None
        end
      else None
  end.

(** Where a chunk without old lines inserts. *)
Definition insertion_index (original_lines : list rstr)
    (update_file_mode : ApplyPatchFileUpdateMode) : nat :=
  match update_file_mode with
  | NormalizeToLf =>
      if last_is_empty original_lines then length original_lines - 1
      else length original_lines
  | PreserveLineEndings => length original_lines
  end.

(** Skip past the line named by [change_context]. *)
Definition seek_context (original_lines : list rstr) (path : rstr) (line_index : nat)
    (chunk : UpdateFileChunk) (update_file_mode : ApplyPatchFileUpdateMode)
  : outcome rstr nat :=
  match change_context chunk with
  | None => Done line_index
  | Some ctx_line =>
      match seek_sequence original_lines [ctx_line] line_index false update_file_mode with
      | Some idx => Done (idx + 1)
      | None => Fail (msg_no_context ctx_line path)
      end
  end.

(** One iteration of the loop over chunks: the replacements it pushes and the
    new [line_index]. *)
Definition chunk_step (original_lines : list rstr) (path : rstr)
    (update_file_mode : ApplyPatchFileUpdateMode) (line_index : nat)
    (chunk : UpdateFileChunk) : outcome rstr (list Replacement * nat) :=
  line_index ← seek_context original_lines path line_index chunk update_file_mode;
  if is_empty (old_lines chunk)
  then Done ([(insertion_index original_lines update_file_mode, 0, new_lines chunk)], line_index)
  else
    match locate_chunk original_lines line_index chunk update_file_mode with
    | None => Fail (msg_no_lines path (old_lines chunk))
    | Some (start_idx, pattern, new_slice) =>
        pushed ←
          match update_file_mode with
          | NormalizeToLf => Done [(start_idx, length pattern, new_slice)]
          | PreserveLineEndings =>
              context_replacements start_idx (length pattern) new_slice 0 0
                (context_line_indices chunk)
          end;
        Done (pushed, start_idx + length pattern)
    end.

Fixpoint chunk_loop (original_lines : list rstr) (path : rstr)
    (update_file_mode : ApplyPatchFileUpdateMode) (line_index : nat)
    (chunks : list UpdateFileChunk) : outcome rstr (list Replacement) :=
  match chunks with
  | [] => Done []
  | chunk :: rest =>
      '(pushed, line_index') ← chunk_step original_lines path update_file_mode line_index chunk;
      others ← chunk_loop original_lines path update_file_mode line_index' rest;
      Done (pushed ++ others)
  end.

Definition compute_replacements (original_lines : list rstr) (path : rstr)
    (chunks : list UpdateFileChunk) (update_file_mode : ApplyPatchFileUpdateMode)
  : outcome rstr (list Replacement) :=
  replacements ← chunk_loop original_lines path update_file_mode 0 chunks;
  Done (sort_by_key repl_start replacements).

(** ** The line-vector rebuild of the normalizing mode *)

(** [for _ in 0..old_len { if start_idx < lines.len() { lines.remove(start_idx); } }] *)
Fixpoint remove_loop (old_len start_idx : nat) (lines : list rstr) : list rstr :=
  match old_len with
  | 0 => lines
  | S n =>
      remove_loop n start_idx
        (if start_idx <? length lines then delete start_idx lines else lines)
  end.

(** [Vec::insert], which panics past the end. *)
Definition vec_insert (i : nat) (x : rstr) (lines : list rstr) : outcome rstr (list rstr) :=
  if i <=? length lines then Done (take i lines ++ x :: drop i lines) else Panic.

Fixpoint insert_loop (start_idx : nat) (segment : list rstr) (lines : list rstr)
  : outcome rstr (list rstr) :=
  match segment with
  | [] => Done lines
  | x :: rest => lines' ← vec_insert start_idx x lines; insert_loop (S start_idx) rest lines'
  end.

Definition apply_one (lines : list rstr) (r : Replacement) : outcome rstr (list rstr) :=
  insert_loop (repl_start r) (repl_lines r) (remove_loop (repl_len r) (repl_start r) lines).

(** [for r in replacements.iter().rev()] *)
Fixpoint apply_rev (lines : list rstr) (reversed : list Replacement)
  : outcome rstr (list rstr) :=
  match reversed with
  | [] => Done lines
  | r :: rest => lines' ← apply_one lines r; apply_rev lines' rest
  end.

Definition apply_line_replacements (lines : list rstr) (replacements : list Replacement)
  : outcome rstr (list rstr) :=
  apply_rev lines (reverse replacements).

(** ** New contents *)
Definition split_file_lines (original_contents : rstr) : list rstr :=
  let original_lines := split_on c_lf original_contents in
  if last_is_empty original_lines then drop_last original_lines else original_lines.

Definition join_file_lines (new_lines : list rstr) : rstr :=
  join [c_lf] (if last_is_empty new_lines then new_lines else new_lines ++ [[]]).

Definition derive_new_contents (path : rstr) (original_contents : rstr)
    (chunks : list UpdateFileChunk) (update_file_mode : ApplyPatchFileUpdateMode)
  : outcome rstr rstr :=
  match update_file_mode with
  | NormalizeToLf =>
      let original_lines := split_file_lines original_contents in
      replacements ← compute_replacements original_lines path chunks update_file_mode;
      new_lines ← apply_line_replacements original_lines replacements;
      Done (join_file_lines new_lines)
  | PreserveLineEndings =>
      let source_file := TextFile.parse original_contents in
      replacements ← compute_replacements (line_texts source_file) path chunks update_file_mode;
      new_file ← TextFile.apply_replacements replacements source_file;
      Done (into_contents new_file)
  end.

(** ** Replacements of the preserving mode are ordered *)

(** A context line splits the region; the pieces are in order. *)
Lemma context_replacements_ordered start_idx pl ns olds news o n idx :
  context_from olds news o n idx -> o <= pl -> n <= length ns ->
  exists rs, context_replacements start_idx pl ns o n idx = Done rs /\
    ordered (start_idx + o) (start_idx + pl) rs.
Proof.
  assert (Hfinal : forall o n, o <= pl -> n <= length ns -> exists rs,
    final_replacement start_idx pl ns o n = Done rs /\
    ordered (start_idx + o) (start_idx + pl) rs).
  { intros o' n' Ho Hn. unfold final_replacement, usize_sub, slice.
    rewrite (proj2 (Nat.leb_le _ _) Ho), (proj2 (Nat.leb_le _ _) Hn), Nat.leb_refl.
    destruct (_ || _); simpl; eexists; (split; [done|]); simpl; unfold repl_start, repl_len;
      simpl; lia. }
  revert o n. induction idx as [|[a b] idx IH]; intros o n Hc Ho Hn; simpl in *; [auto|].
  destruct Hc as (Hoa & Hnb & _ & _ & _ & Hc).
  destruct ((pl <=? a) || (length ns <=? b)) eqn:E; [auto|]. destruct_bools.
  destruct (IH (S a) (S b) Hc) as (rs & -> & Hord); [lia..|].
  unfold usize_sub, slice. rewrite (proj2 (Nat.leb_le _ _) Hoa), (proj2 (Nat.leb_le _ _) Hnb).
  rewrite (proj2 (Nat.leb_le b (length ns))) by lia.
  destruct (_ || _); simpl; eexists; (split; [done|]); simpl.
  - unfold repl_start, repl_len; simpl. split; [lia|].
    eapply ordered_weaken; [|exact Hord]. lia.
  - eapply ordered_weaken; [|exact Hord]. lia.
Qed.

(** Before sorting, insertions at the end may be interleaved with the
    replacements found in order. *)
Fixpoint in_order_or_end (idx len : nat) (rs : list Replacement) : Prop :=
  match rs with
  | [] => idx <= len
  | r :: rest =>
      (repl_start r = len /\ repl_len r = 0 /\ in_order_or_end idx len rest) \/
      (idx <= repl_start r /\ in_order_or_end (repl_start r + repl_len r) len rest)
  end.

Lemma in_order_or_end_app a b len rs rest :
  ordered a b rs -> in_order_or_end b len rest -> in_order_or_end a len (rs ++ rest).
Proof.
  revert a. induction rs as [|r rs IH]; intros a; simpl.
  2: { intros [Ha Ho] Hr. right. split; [done|]. by apply IH. }
  intros Hab. destruct rest as [|r rest]; simpl; [lia|]. revert r rest.
  enough (H : forall rest, in_order_or_end b len rest -> in_order_or_end a len rest)
    by (intros r rest; apply (H (r :: rest))).
  induction rest as [|r rest IH]; simpl; [lia|].
  intros [(? & ? & ?)|[? ?]]; [left; auto|right; split; [lia|done]].
Qed.

Lemma ordered_insert_end idx len seg rs :
  ordered idx len rs -> ordered idx len (insert_by_key repl_start (len, 0, seg) rs).
Proof.
  revert idx. induction rs as [|r rs IH]; intros idx; simpl.
  - unfold repl_start, repl_len; simpl. lia.
  - intros [H Ho]. change (repl_start (len, 0, seg)) with len.
    pose proof (ordered_bound _ _ _ Ho) as Hb.
    destruct (Nat.leb_spec len (repl_start r)); simpl; [|auto].
    unfold repl_start at 1 2, repl_len at 1; simpl. split_and!; [lia|lia|done].
Qed.

Lemma ordered_insert_front idx len r rs :
  idx <= repl_start r -> ordered (repl_start r + repl_len r) len rs ->
  ordered idx len (insert_by_key repl_start r rs).
Proof.
  intros Hi Ho. destruct rs as [|r' rs]; simpl; [done|].
  destruct Ho as [H Ho]. rewrite (proj2 (Nat.leb_le _ _)) by lia. by simpl.
Qed.

Lemma sorted_replacements_ordered idx len rs :
  in_order_or_end idx len rs -> ordered idx len (sort_by_key repl_start rs).
Proof.
  revert idx. induction rs as [|r rs IH]; intros idx; simpl; [done|].
  intros [(Hs & Hl & H)|[Hs H]].
  - destruct r as [[s n] seg]. unfold repl_start, repl_len in Hs, Hl. simpl in *. subst.
    by apply ordered_insert_end, IH.
  - by apply ordered_insert_front, IH.
Qed.

(** Ordered replacements are already sorted. *)
Lemma sort_by_key_ordered idx len rs :
  ordered idx len rs -> sort_by_key repl_start rs = rs.
Proof.
  revert idx. induction rs as [|r rs IH]; intros idx; simpl; [done|].
  intros [_ Ho]. rewrite (IH _ Ho). destruct rs as [|r' rs]; [done|]. simpl in *.
  destruct Ho as [Ho _]. by rewrite (proj2 (Nat.leb_le _ _)) by lia.
Qed.

(** ** The loop over chunks *)

Lemma length_drop_last {A} (l : list A) : length (drop_last l) = length l - 1.
Proof. unfold drop_last. rewrite length_take. lia. Qed.

Lemma locate_chunk_spec lines li c m i pat ns :
  li <= length lines -> locate_chunk lines li c m = Some (i, pat, ns) ->
  i + length pat <= length lines /\ (m = PreserveLineEndings -> li <= i).
Proof.
  intros Hli. unfold locate_chunk. intros H.
  assert (Hsk : forall p i, seek_sequence lines p li (is_end_of_file c) m = Some i ->
    i + length p <= length lines /\ (m = PreserveLineEndings -> li <= i)).
  { intros p j Hj. split; [by eapply seek_sequence_bound|].
    intros ->. by eapply seek_sequence_forward. }
  repeat break_match_in H; simplify_eq; eauto.
Qed.

Lemma seek_context_spec lines path li c m :
  li <= length lines ->
  match seek_context lines path li c m with
  | Done li' => li <= li' <= length lines
  | Fail e => exists ctx, change_context c = Some ctx /\ e = msg_no_context ctx path
  | Panic => False
  end.
Proof.
  intros Hli. unfold seek_context. destruct (change_context c) as [ctx|]; [|lia].
  destruct (seek_sequence lines [ctx] li false m) as [i|] eqn:E; [|by exists ctx].
  pose proof (seek_sequence_bound _ _ _ _ _ _ Hli E) as Hb. simpl in Hb.
  destruct (seek_sequence_Some lines [ctx] li false m i) as [Hi _]; [done..|].
  unfold seek_start in Hi. simpl in Hi. lia.
Qed.

Lemma chunk_step_preserve lines path li c :
  chunk_wf c -> li <= length lines ->
  match chunk_step lines path PreserveLineEndings li c with
  | Done (pushed, li') =>
      li' <= length lines /\
      forall rest, in_order_or_end li' (length lines) rest ->
                   in_order_or_end li (length lines) (pushed ++ rest)
  | Fail _ => True
  | Panic => False
  end.
Proof.
  intros Hwf Hli. unfold chunk_step.
  pose proof (seek_context_spec lines path li c PreserveLineEndings Hli) as Hctx.
  destruct (seek_context lines path li c PreserveLineEndings) as [li1| |]; simpl; [|done|done].
  assert (Hmono : forall rest, in_order_or_end li1 (length lines) rest ->
    in_order_or_end li (length lines) rest).
  { intros rest Hr. eapply (in_order_or_end_app li li1 _ []); [simpl; lia|done]. }
  destruct (is_empty (old_lines c)); simpl.
  { split; [lia|]. intros rest Hr. left. auto. }
  destruct (locate_chunk lines li1 c PreserveLineEndings) as [[[i pat] ns]|] eqn:El; [|done].
  apply locate_chunk_spec in El as [Hb Hf]; [|lia]. specialize (Hf eq_refl).
  destruct (context_replacements_ordered i (length pat) ns (old_lines c) (new_lines c) 0 0
    (context_line_indices c) Hwf) as (rs & -> & Hord); [lia..|]. simpl.
  split; [done|]. intros rest Hr. apply Hmono.
  eapply in_order_or_end_app; [|exact Hr]. eapply ordered_weaken; [|exact Hord]. lia.
Qed.

Lemma chunk_loop_preserve lines path li chunks :
  Forall chunk_wf chunks -> li <= length lines ->
  match chunk_loop lines path PreserveLineEndings li chunks with
  | Done rs => in_order_or_end li (length lines) rs
  | Fail _ => True
  | Panic => False
  end.
Proof.
  intros Hwf. revert li. induction Hwf as [|c chunks Hc Hwf IH]; intros li Hli; simpl; [done|].
  pose proof (chunk_step_preserve lines path li c Hc Hli) as Hs.
  destruct (chunk_step lines path PreserveLineEndings li c) as [[pushed li']| |]; simpl; [|done..].
  destruct Hs as [Hli' Hs]. specialize (IH li' Hli').
  destruct (chunk_loop lines path PreserveLineEndings li' chunks); simpl; auto.
Qed.

Lemma compute_replacements_preserve lines path chunks :
  Forall chunk_wf chunks ->
  match compute_replacements lines path chunks PreserveLineEndings with
  | Done rs => ordered 0 (length lines) rs
  | Fail _ => True
  | Panic => False
  end.
Proof.
  intros Hwf. unfold compute_replacements.
  pose proof (chunk_loop_preserve lines path 0 chunks Hwf (Nat.le_0_l _)) as H.
  destruct (chunk_loop _ _ _ _ _); simpl; [|done..]. by apply sorted_replacements_ordered.
Qed.

(** ** The line-vector rebuild *)

Lemma remove_loop_spec n s l : remove_loop n s l = take s l ++ drop (s + n) l.
Proof.
  revert l. induction n as [|n IH]; intros l; simpl.
  - by rewrite Nat.add_0_r, take_drop.
  - rewrite IH. destruct (Nat.ltb_spec s (length l)) as [H|H].
    + rewrite delete_take_drop, take_app_le, take_take, Nat.min_id by (rewrite length_take; lia).
      f_equal. rewrite drop_app_ge, length_take, Nat.min_l, drop_drop by (rewrite ?length_take; lia).
      f_equal. lia.
    + by rewrite !(drop_ge l) by lia.
Qed.

Lemma insert_loop_spec seg s l :
  s <= length l -> insert_loop s seg l = Done (take s l ++ seg ++ drop s l).
Proof.
  revert s l. induction seg as [|x seg IH]; intros s l Hs; simpl.
  - by rewrite take_drop.
  - unfold vec_insert. rewrite (proj2 (Nat.leb_le _ _) Hs). simpl.
    assert (Hlen : length (take s l ++ [x]) = S s)
      by (rewrite length_app, length_take; simpl; lia).
    rewrite (cons_middle x), app_assoc, IH.
    + rewrite take_app_length', drop_app_length' by done. by rewrite <- !app_assoc.
    + rewrite length_app, Hlen, length_drop. lia.
Qed.

Lemma apply_one_spec l r :
  repl_start r <= length l ->
  apply_one l r = Done (take (repl_start r) l ++ repl_lines r
                        ++ drop (repl_start r + repl_len r) l).
Proof.
  intros H. unfold apply_one. rewrite remove_loop_spec, insert_loop_spec.
  - rewrite take_app_length', drop_app_length' by (rewrite length_take; lia). done.
  - rewrite length_app, length_take. lia.
Qed.

Lemma apply_rev_app l a b :
  apply_rev l (a ++ b) = (l' ← apply_rev l a; apply_rev l' b).
Proof.
  revert l. induction a as [|r a IH]; intros l; simpl; [done|].
  destruct (apply_one l r); simpl; auto.
Qed.

Lemma apply_line_replacements_cons l r rs :
  apply_line_replacements l (r :: rs)
  = (l' ← apply_line_replacements l rs; apply_one l' r).
Proof.
  unfold apply_line_replacements. rewrite reverse_cons, apply_rev_app.
  destruct (apply_rev l (reverse rs)) as [l'| |]; simpl; [|done|done].
  by destruct (apply_one l' r).
Qed.

(** In descending order of start, an insertion point is always in range. *)
Lemma apply_line_replacements_total l rs :
  StronglySorted (fun a b => repl_start a <= repl_start b) rs ->
  Forall (fun r => repl_start r <= length l) rs ->
  exists l', apply_line_replacements l rs = Done l' /\
    forall k, k <= length l -> Forall (fun r => k <= repl_start r) rs -> k <= length l'.
Proof.
  intros Hs. induction Hs as [|r rs Hs IH Hr]; intros Hf.
  { exists l. split; [done|]. auto. }
  apply Forall_cons in Hf as [Hrl Hf].
  destruct (IH Hf) as (l1 & Hl1 & Hk). rewrite apply_line_replacements_cons, Hl1. simpl.
  assert (Hr1 : repl_start r <= length l1) by (apply Hk; done).
  rewrite apply_one_spec by done. eexists. split; [done|].
  intros k Hkl Hkr. apply Forall_cons in Hkr as [Hk1 _].
  rewrite !length_app, length_take. lia.
Qed.

(** On ordered replacements the rebuild is the splice. *)
Lemma apply_line_replacements_splice idx l rs :
  ordered idx (length l) rs ->
  apply_line_replacements l rs = Done (take idx l ++ splice id idx (drop idx l) rs).
Proof.
  revert idx. induction rs as [|r rs IH]; intros idx Ho.
  { simpl. by rewrite take_drop. }
  destruct Ho as [Hi Ho]. pose proof (ordered_bound _ _ _ Ho) as Hb.
  rewrite apply_line_replacements_cons, (IH _ Ho). simpl.
  assert (Hlen : length (take (repl_start r + repl_len r) l) = repl_start r + repl_len r)
    by (rewrite length_take; lia).
  rewrite apply_one_spec by (rewrite length_app, Hlen; lia).
  rewrite take_app_le, take_take, Nat.min_l by (rewrite ?Hlen; lia).
  rewrite drop_app_length' by done. rewrite list_fmap_id, !drop_drop.
  replace (idx + (repl_start r + repl_len r - idx)) with (repl_start r + repl_len r) by lia.
  rewrite (app_assoc (take idx l)), take_take_drop.
  by replace (idx + (repl_start r - idx)) with (repl_start r) by lia.
Qed.

(** ** No panic in the normalizing mode *)

Lemma insertion_index_le lines m : insertion_index lines m <= length lines.
Proof. unfold insertion_index. destruct m; [destruct (last_is_empty lines)|]; lia. Qed.

Lemma chunk_loop_normalize lines path li chunks :
  li <= length lines ->
  match chunk_loop lines path NormalizeToLf li chunks with
  | Done rs => Forall (fun r => repl_start r <= length lines) rs
  | Fail _ => True
  | Panic => False
  end.
Proof.
  revert li. induction chunks as [|c chunks IH]; intros li Hli; simpl; [constructor|].
  unfold chunk_step. pose proof (seek_context_spec lines path li c NormalizeToLf Hli) as Hctx.
  destruct (seek_context lines path li c NormalizeToLf) as [li1| |]; simpl; [|done|done].
  destruct (is_empty (old_lines c)); simpl.
  - specialize (IH li1 ltac:(lia)).
    destruct (chunk_loop lines path NormalizeToLf li1 chunks); simpl; [|done|done].
    constructor; [apply (insertion_index_le lines NormalizeToLf)|done].
  - destruct (locate_chunk lines li1 c NormalizeToLf) as [[[i pat] ns]|] eqn:El; [|done].
    apply locate_chunk_spec in El as [Hb _]; [|lia]. simpl.
    specialize (IH (i + length pat) Hb).
    destruct (chunk_loop lines path NormalizeToLf (i + length pat) chunks); simpl; [|done|done].
    constructor; [|done]. unfold repl_start. simpl. lia.
Qed.

Lemma derive_normalize_no_panic path contents chunks :
  derive_new_contents path contents chunks NormalizeToLf <> Panic.
Proof.
  unfold derive_new_contents, compute_replacements.
  set (lines := split_file_lines contents).
  pose proof (chunk_loop_normalize lines path 0 chunks (Nat.le_0_l _)) as H.
  destruct (chunk_loop lines path NormalizeToLf 0 chunks) as [rs| |]; simpl; [|done|done].
  destruct (apply_line_replacements_total lines (sort_by_key repl_start rs)) as (l' & -> & _);
    [apply sort_by_key_sorted | by rewrite sort_by_key_perm | done].
Qed.

(** The preserving mode rebuilds by splicing source lines. *)
Lemma derive_preserve path contents chunks :
  Forall chunk_wf chunks ->
  match compute_replacements (line_texts (TextFile.parse contents)) path chunks
          PreserveLineEndings with
  | Done rs =>
      let f := TextFile.parse contents in
      derive_new_contents path contents chunks PreserveLineEndings
      = Done (splice (fun t => mkLine t (Some (preferred_ending f))) 0 (file_lines f) rs
              ≫= fun l => line_contents (terminate (preferred_ending f) l))
  | Fail e => derive_new_contents path contents chunks PreserveLineEndings = Fail e
  | Panic => False
  end.
Proof.
  intros Hwf. pose proof (compute_replacements_preserve
    (line_texts (TextFile.parse contents)) path chunks Hwf) as H.
  unfold derive_new_contents. destruct (compute_replacements _ _ _ _) as [rs|e|]; simpl; [|done|done].
  unfold line_texts in H. rewrite length_fmap in H.
  unfold TextFile.apply_replacements. rewrite replace_loop_splice by done.
  refine (f_equal Done _). apply list_fmap_bind.
Qed.

(** ** A chunk that matches exactly *)

Lemma drop_lookup_cons {A} (l : list A) i x : l !! i = Some x -> drop i l = x :: drop (S i) l.
Proof. intros H. by rewrite (drop_S _ x) by done. Qed.

Lemma drop_app_region {A} si o (lines olds post : list A) :
  drop si lines = olds ++ post -> o <= length olds ->
  drop (si + o) lines = drop o olds ++ post.
Proof. intros H Ho. by rewrite <- drop_drop, H, drop_app_le. Qed.

Lemma final_replacement_exact si olds news o n lines post :
  drop si lines = olds ++ post -> o <= length olds -> n <= length news ->
  exists rs, final_replacement si (length olds) news o n = Done rs /\
    splice id (si + o) (drop (si + o) lines) rs = drop n news ++ post.
Proof.
  intros Hd Ho Hn. unfold final_replacement, usize_sub, slice.
  rewrite (proj2 (Nat.leb_le _ _) Ho), (proj2 (Nat.leb_le _ _) Hn), Nat.leb_refl. simpl.
  rewrite (drop_app_region _ _ _ _ _ Hd Ho).
  destruct (Nat.eqb_spec o (length olds)) as [->|]; destruct (Nat.eqb_spec n (length news)) as [->|];
    simpl; eexists; (split; [done|]); simpl; unfold repl_start, repl_len, repl_lines; simpl;
    rewrite ?list_fmap_id, ?drop_all, ?Nat.sub_diag; try done.
  - by rewrite Nat.add_0_r, Nat.sub_diag, (take_ge (drop n news)) by (rewrite length_drop; lia).
  - replace (si + o + (length olds - o) - (si + o)) with (length (drop o olds))
      by (rewrite length_drop; lia). by rewrite drop_app_length.
  - replace (si + o + (length olds - o) - (si + o)) with (length (drop o olds))
      by (rewrite length_drop; lia).
    by rewrite drop_app_length, (take_ge (drop n news)) by (rewrite length_drop; lia).
Qed.

(** When the file region equals the old lines, the pieces put the new lines
    in its place. *)
Lemma context_replacements_exact si olds news idx lines post o n :
  drop si lines = olds ++ post -> context_from olds news o n idx ->
  o <= length olds -> n <= length news -> length lines >= si ->
  exists rs, context_replacements si (length olds) news o n idx = Done rs /\
    splice id (si + o) (drop (si + o) lines) rs = drop n news ++ post.
Proof.
  intros Hd. revert o n. induction idx as [|[a b] idx IH]; intros o n Hc Ho Hn Hsi.
  { by apply final_replacement_exact. }
  destruct Hc as (Hoa & Hnb & Ha & Hb & Heq & Hc). simpl.
  rewrite (proj2 (Nat.leb_gt _ _) Ha), (proj2 (Nat.leb_gt _ _) Hb). simpl.
  destruct (IH (S a) (S b) Hc) as (rs & Hrs & Hsp); [lia..|].
  destruct (context_replacements_ordered si (length olds) news olds news (S a) (S b) idx)
    as (rs' & Hrs' & Hord); [done|lia|lia|]. rewrite Hrs in Hrs' |- *. simplify_eq.
  destruct (lookup_lt_is_Some_2 news b Hb) as [x Hx].
  (* one context line, then the rest *)
  assert (Hctx : splice id (si + a) (drop (si + a) lines) rs' = drop b news ++ post).
  { rewrite (splice_skip id 1 _ (si + length olds)).
    - rewrite drop_drop. replace (si + a + 1) with (si + S a) by lia. rewrite Hsp.
      rewrite (drop_lookup_cons news b x Hx).
      rewrite (drop_app_region _ a _ _ _ Hd) by lia.
      by rewrite (drop_lookup_cons olds a x) by by rewrite Heq.
    - by replace (si + a + 1) with (si + S a) by lia.
    - rewrite (drop_app_region _ a _ _ _ Hd), length_app, length_drop by lia. lia. }
  unfold usize_sub, slice. rewrite (proj2 (Nat.leb_le _ _) Hoa), (proj2 (Nat.leb_le _ _) Hnb).
  rewrite (proj2 (Nat.leb_le b (length news))) by lia. simpl.
  destruct (negb (o =? a) || negb (n =? b)) eqn:E; simpl; eexists; (split; [done|]); simpl.
  - unfold repl_start, repl_len, repl_lines. simpl. rewrite Nat.sub_diag, list_fmap_id. simpl.
    rewrite drop_drop. replace (si + o + (si + o + (a - o) - (si + o))) with (si + a) by lia.
    replace (si + o + (a - o)) with (si + a) by lia. rewrite Hctx, app_assoc. f_equal.
    rewrite <- (take_drop (b - n) (drop n news)) at 2. f_equal. rewrite drop_drop. f_equal. lia.
  - destruct_bools. subst. done.
Qed.

(** One chunk without context marker whose old lines occur in the file:
    both modes compute replacements that splice in the new lines. *)
Definition replaced (lines : list rstr) (i : nat) (c : UpdateFileChunk) : list rstr :=
  take i lines ++ new_lines c ++ drop (i + length (old_lines c)) lines.

Definition exact_chunk (lines : list rstr) (i : nat) (c : UpdateFileChunk) : Prop :=
  change_context c = None /\ old_lines c <> [] /\ is_end_of_file c = false /\
  search_pass Exact lines (old_lines c) 0 = Some i.

Lemma matches_exact_region lines pattern i :
  matches_at Exact lines pattern i = true -> pattern <> [] ->
  drop i lines = pattern ++ drop (i + length pattern) lines.
Proof.
  unfold matches_at. rewrite <- drop_drop. generalize (drop i lines). clear.
  induction pattern as [|p pattern IH]; intros l; simpl; [done|].
  destruct l as [|x l]; [done|]. rewrite andb_true_iff, str_eqb_true. intros [-> H] _.
  simpl. f_equal. destruct pattern; [done|]. by apply IH.
Qed.

Lemma exact_chunk_replacements lines path i c m :
  exact_chunk lines i c -> chunk_wf c ->
  i + length (old_lines c) <= length lines /\
  exists rs, compute_replacements lines path [c] m = Done rs /\
    ordered 0 (length lines) rs /\ splice id 0 lines rs = replaced lines i c.
Proof.
  intros (Hctx & Hne & Heof & Hs) Hwf.
  destruct (search_pass_Some _ _ _ _ _ Hs) as (_ & Hm & _).
  pose proof (matches_at_bound _ _ _ _ Hne Hm) as Hb. split; [done|].
  pose proof (matches_exact_region _ _ _ Hm Hne) as Hd.
  unfold compute_replacements. simpl. unfold chunk_step, seek_context. rewrite Hctx. simpl.
  rewrite (proj2 (is_empty_false (old_lines c)) Hne).
  assert (Hseek : seek_sequence lines (old_lines c) 0 (is_end_of_file c) m = Some i).
  { unfold seek_sequence, seek_start. rewrite (proj2 (is_empty_false _) Hne), Heof. simpl.
    rewrite (proj2 (Nat.ltb_ge _ _)) by lia. by rewrite Hs. }
  unfold locate_chunk. rewrite Hseek. destruct m; simpl.
  - eexists. split; [done|]. simpl. unfold repl_start, repl_len, repl_lines. simpl.
    split; [lia|]. by rewrite list_fmap_id, !Nat.sub_0_r.
  - destruct (context_replacements_exact i (old_lines c) (new_lines c) (context_line_indices c)
      lines (drop (i + length (old_lines c)) lines) 0 0 Hd Hwf) as (rs & Hrs & Hsp); [lia..|].
    destruct (context_replacements_ordered i (length (old_lines c)) (new_lines c) (old_lines c)
      (new_lines c) 0 0 (context_line_indices c) Hwf) as (rs' & Hrs' & Hord); [lia..|].
    rewrite Hrs in Hrs' |- *. simplify_eq. rewrite Nat.add_0_r in *. simpl.
    rewrite app_nil_r. eexists. split; [done|].
    assert (Ho : ordered 0 (length lines) (sort_by_key repl_start rs')).
    { apply sorted_replacements_ordered. rewrite <- (app_nil_r rs').
      apply (in_order_or_end_app 0 (i + length (old_lines c))); [|simpl; lia].
      eapply ordered_weaken; [|exact Hord]. lia. }
    split; [done|]. rewrite (sort_by_key_ordered _ _ _ Hord) in Ho |- *.
    rewrite (splice_skip id i 0 (i + length (old_lines c))); [|done|lia].
    change (0 + i) with i. by rewrite Hsp.
Qed.

(** ** Files given by their lines *)

Definition unlines (ls : list rstr) : rstr := ls ≫= fun l => l ++ [c_lf].

Lemma split_on_unlines ls :
  Forall no_lf ls -> split_on c_lf (unlines ls) = ls ++ [[]].
Proof.
  induction 1 as [|l ls Hl Hls IH]; [done|].
  unfold unlines in *. rewrite bind_cons. revert IH. generalize (ls ≫= fun l => l ++ [c_lf]).
  intros rest IH. clear Hls. unfold no_lf in Hl.
  induction l as [|c l IHl]; simpl; [by rewrite IH|].
  apply not_elem_of_cons in Hl as [Hc Hl].
  destruct (N.eqb_spec c c_lf) as [->|_]; [done|]. by rewrite IHl.
Qed.

Lemma split_file_lines_unlines ls :
  Forall no_lf ls -> split_file_lines (unlines ls) = ls.
Proof.
  intros H. unfold split_file_lines, last_is_empty, drop_last.
  rewrite split_on_unlines, last_snoc by done. simpl.
  rewrite length_app. simpl. rewrite Nat.add_sub. by rewrite take_app_length.
Qed.

Lemma join_unlines ls : join [c_lf] (ls ++ [[]]) = unlines ls.
Proof.
  induction ls as [|l ls IH]; [done|]. unfold unlines in *. rewrite bind_cons, <- IH.
  simpl app at 1. destruct (ls ++ [[]]) as [|y t] eqn:E; [by apply app_nil in E as [_ ?]|].
  rewrite join_cons. by rewrite <- app_assoc.
Qed.

Lemma join_file_lines_unlines ls :
  last ls <> Some [] -> join_file_lines ls = unlines ls.
Proof.
  intros H. unfold join_file_lines, last_is_empty.
  destruct (last ls) as [[|c l]|] eqn:E; simpl; [done|apply join_unlines|apply join_unlines].
Qed.

Definition lf_line (t : rstr) : SourceLine := mkLine t (Some Lf).

Lemma parse_lines_line l rest pending :
  no_terminator l ->
  parse_lines (l ++ c_lf :: rest) pending
  = mkLine (reverse pending ++ l) (Some Lf) :: parse_lines rest [].
Proof.
  intros H. revert pending. induction H as [|c l [Hcr Hlf] Hl IH]; intros pending; simpl.
  - by rewrite app_nil_r.
  - destruct (N.eqb_spec c c_cr) as [->|_]; [done|].
    destruct (N.eqb_spec c c_lf) as [->|_]; [done|].
    rewrite IH, reverse_cons. by rewrite <- app_assoc.
Qed.

Lemma parse_unlines ls :
  Forall no_terminator ls -> TextFile.parse (unlines ls) = mkFile (lf_line <$> ls) Lf.
Proof.
  intros H. unfold TextFile.parse.
  assert (Hp : parse_lines (unlines ls) [] = lf_line <$> ls).
  { induction H as [|l ls Hl Hls IH]; [done|]. unfold unlines in *.
    rewrite bind_cons, <- app_assoc. simpl app at 2.
    by rewrite parse_lines_line, IH. }
  rewrite Hp. f_equal. by destruct ls.
Qed.

Lemma no_terminator_no_lf ls : Forall no_terminator ls -> Forall no_lf ls.
Proof.
  intros H. eapply Forall_impl; [exact H|]. intros l Hl Hin.
  unfold no_terminator in Hl. rewrite Forall_forall in Hl. by destruct (Hl _ Hin).
Qed.

(** [derive_new_contents] on one exact chunk, in the two modes. *)
Lemma derive_normalize_exact path ls i c :
  Forall no_lf ls -> exact_chunk ls i c -> chunk_wf c ->
  derive_new_contents path (unlines ls) [c] NormalizeToLf
  = Done (join_file_lines (replaced ls i c)).
Proof.
  intros Hls Hc Hwf. unfold derive_new_contents. rewrite split_file_lines_unlines by done.
  destruct (exact_chunk_replacements ls path i c NormalizeToLf Hc Hwf)
    as (_ & rs & -> & Hord & Hsp). simpl.
  rewrite (apply_line_replacements_splice 0 ls rs Hord). simpl. by rewrite drop_0, Hsp.
Qed.

Lemma derive_preserve_exact path ls i c :
  Forall no_terminator ls -> exact_chunk ls i c -> chunk_wf c ->
  derive_new_contents path (unlines ls) [c] PreserveLineEndings
  = Done (unlines (replaced ls i c)).
Proof.
  intros Hls Hc Hwf. unfold derive_new_contents. rewrite parse_unlines by done.
  replace (line_texts (mkFile (lf_line <$> ls) Lf)) with ls.
  2: { unfold line_texts. simpl. rewrite <- list_fmap_compose. symmetry. apply list_fmap_id. }
  destruct (exact_chunk_replacements ls path i c PreserveLineEndings Hc Hwf)
    as (_ & rs & -> & Hord & Hsp). simpl.
  unfold TextFile.apply_replacements. simpl file_lines. simpl preferred_ending.
  rewrite replace_loop_splice by (simpl; by rewrite length_fmap).
  refine (f_equal Done _). rewrite <- Hsp. unfold unlines, into_contents. simpl file_lines.
  change (fun t => mkLine t (Some Lf)) with (lf_line ∘ id).
  rewrite <- (splice_fmap lf_line id), <- list_fmap_compose, list_fmap_bind. done.
Qed.

(** ** Properties *)

(** In the preserving mode the replacements computed for the chunks of a
    parsed patch are in file order, disjoint and inside the file; the only
    other outcome is an error naming the text that was not found. *)
Theorem preserve_replacements_ordered lines path chunks :
  Forall chunk_wf chunks ->
  match compute_replacements lines path chunks PreserveLineEndings with
  | Done rs => ordered 0 (length lines) rs
  | Fail _ => True
  | Panic => False
  end.
Proof. apply compute_replacements_preserve. Qed.

Definition example_chunks : list UpdateFileChunk :=
  [mkChunk None [lit "a"; lit "b"; lit "c"] [lit "a"; lit "x"; lit "c"] [(0, 0); (2, 2)] false;
   mkChunk None [lit "d"] [lit "e"; lit "f"] [] true].

Lemma preserve_replacements_ordered_witness :
  ordered 0 4 [(1, 1, [lit "x"]); (3, 1, [lit "e"; lit "f"])].
Proof.
  refine (preserve_replacements_ordered [lit "a"; lit "b"; lit "c"; lit "d"] (lit "f")
            example_chunks _).
  by apply (bool_decide_unpack _); vm_compute.
Defined.

(** The two ways of applying ordered replacements agree: editing the
    vector of line texts from the last replacement to the first gives the line
    texts of the file rebuilt from its first line to its last. *)
Theorem line_and_file_replacements_agree rs f :
  ordered 0 (length (file_lines f)) rs ->
  apply_line_replacements (line_texts f) rs
  = line_texts <$> TextFile.apply_replacements rs f.
Proof.
  intros Ho. rewrite apply_replacements_splice by done.
  rewrite (apply_line_replacements_splice 0)
    by (unfold line_texts; by rewrite length_fmap).
  unfold line_texts. simpl. f_equal. rewrite ?take_0, ?drop_0, <- list_fmap_compose.
  symmetry. apply (splice_fmap (text ∘ terminate (preferred_ending f))).
Qed.

Lemma line_and_file_replacements_agree_witness :
  apply_line_replacements (line_texts example_file) [(0, 2, [lit "x"]); (3, 0, [lit "y"])]
  = line_texts <$> TextFile.apply_replacements [(0, 2, [lit "x"]); (3, 0, [lit "y"])] example_file.
Proof.
  apply line_and_file_replacements_agree. by apply (bool_decide_unpack _); vm_compute.
Defined.

(** Updating a file in the preserving mode rewrites only the replaced
    lines: the new text is the old source lines, each with its own ending,
    with the replaced ranges spliced in under the file's first ending. *)
Theorem preserve_update_splices path contents chunks rs :
  Forall chunk_wf chunks ->
  compute_replacements (line_texts (TextFile.parse contents)) path chunks PreserveLineEndings
    = Done rs ->
  let f := TextFile.parse contents in
  derive_new_contents path contents chunks PreserveLineEndings
  = Done (splice (fun t => mkLine t (Some (preferred_ending f))) 0 (file_lines f) rs
          ≫= fun l => line_contents (terminate (preferred_ending f) l)).
Proof.
  intros Hwf Hc. pose proof (derive_preserve path contents chunks Hwf) as H.
  rewrite Hc in H. exact H.
Qed.

Lemma preserve_update_splices_witness :
  derive_new_contents (lit "f") (lit "a" ++ [c_cr; c_lf] ++ lit "b" ++ [c_lf] ++ lit "d")
    [mkChunk None [lit "b"] [lit "x"] [] false] PreserveLineEndings
  = Done (lit "a" ++ [c_cr; c_lf] ++ lit "x" ++ [c_cr; c_lf] ++ lit "d" ++ [c_cr; c_lf]).
Proof.
  etransitivity; [apply (preserve_update_splices _ _ _ [(1, 1, [lit "x"])])|].
  - by apply (bool_decide_unpack _); vm_compute.
  - vm_compute. reflexivity.
  - vm_compute. reflexivity.
Defined.

(** A chunk whose old lines occur in an LF file is applied there in both
    modes: the first occurrence is replaced by the new lines and the rest of
    the file is unchanged, provided the result does not end in a blank line. *)
Theorem exact_chunk_applied path ls i c m :
  Forall no_terminator ls -> exact_chunk ls i c -> chunk_wf c ->
  last (replaced ls i c) <> Some [] ->
  derive_new_contents path (unlines ls) [c] m = Done (unlines (replaced ls i c)).
Proof.
  intros Hls Hc Hwf Hlast. destruct m; [|by apply derive_preserve_exact].
  rewrite (derive_normalize_exact _ _ i) by eauto using no_terminator_no_lf.
  by rewrite join_file_lines_unlines.
Qed.

Lemma exact_chunk_applied_witness :
  derive_new_contents (lit "f") (unlines [lit "a"; lit "b"; lit "c"])
    [mkChunk None [lit "b"] [lit "x"; lit "y"] [] false] NormalizeToLf
  = Done (unlines [lit "a"; lit "x"; lit "y"; lit "c"]).
Proof.
  apply (exact_chunk_applied (lit "f") [lit "a"; lit "b"; lit "c"] 1).
  - repeat constructor; vm_compute; discriminate.
  - split_and!; [done|discriminate|done|vm_compute; reflexivity].
  - by apply (bool_decide_unpack _); vm_compute.
  - vm_compute. discriminate.
Defined.

Lemma normalized_blank_dropped path ls i c r :
  Forall no_lf ls -> exact_chunk ls i c -> chunk_wf c -> replaced ls i c = r ++ [[]] ->
  derive_new_contents path (unlines ls) [c] NormalizeToLf = Done (unlines r).
Proof.
  intros Hls Hc Hwf Hr. rewrite (derive_normalize_exact _ _ i) by done. rewrite Hr.
  unfold join_file_lines, last_is_empty. rewrite last_snoc. simpl. by rewrite join_unlines.
Qed.

(** In the LF-normalising mode an update loses a blank line at the end of
    the file: when the updated lines end in a blank line, the text written
    lacks it, whether or not the chunk touched it. *)
Theorem normalize_drops_trailing_blank path ls i c r :
  Forall no_lf ls -> exact_chunk ls i c -> chunk_wf c -> replaced ls i c = r ++ [[]] ->
  derive_new_contents path (unlines ls) [c] NormalizeToLf = Done (unlines r).
Proof. apply normalized_blank_dropped. Qed.

Lemma normalize_drops_trailing_blank_witness :
  derive_new_contents (lit "f") (lit "a" ++ [c_lf; c_lf])
    [mkChunk None [lit "a"] [lit "b"] [] false] NormalizeToLf
  = Done (lit "b" ++ [c_lf]).
Proof.
  apply (normalize_drops_trailing_blank (lit "f") [lit "a"; []] 0
    (mkChunk None [lit "a"] [lit "b"] [] false) [lit "b"]).
  - repeat constructor; unfold no_lf; vm_compute; intros Hin; inversion Hin as [|? ? ? Hin'].
    inversion Hin'.
  - split_and!; [done|discriminate|done|vm_compute; reflexivity].
  - by apply (bool_decide_unpack _); vm_compute.
  - reflexivity.
Defined.
