(* ===== verification/ApplyPatch.v ===== *)
(** * ApplyPatch: [codex-rs/apply-patch/src/lib.rs]

    Applying parsed hunks to a filesystem, with the record of what was
    committed ([AppliedPatchDelta]) and its [exact] flag.

    The filesystem, the path URIs and the output writers are interfaces of
    the source ([ExecutorFileSystem], [PathUri], [io::Write]) whose
    implementations reach the operating system or third-party crates; they
    are classes here.  The sandbox context and the [follow_symlinks] option
    are passed through unchanged by every call, so they belong to the
    instance; each method returns the filesystem state it leaves behind, on
    failure too.  Contents are text: writing takes the UTF-8 bytes of a
    string and [read_file_text] decodes them. *)

From stdpp Require Import base list gmap strings.
From S2P Require Import Prelude PatchTypes StreamingParser FileUpdate.

(** ** Interfaces *)

Record FileMetadata := mkMetadata {
  is_directory : bool;
  is_file : bool;
  is_symlink : bool
}.

Class ExecutorFileSystem (FS Path : Type) := {
  read_file_text : Path -> FS -> result io_error rstr;
  get_metadata : Path -> FS -> result io_error FileMetadata;
  write_file : Path -> rstr -> FS -> result io_error unit * FS;
  create_directory : Path -> FS -> result io_error unit * FS;
  remove : Path -> FS -> result io_error unit * FS
}.

Class PathUriOps (Path : Type) := {
  path_join : Path -> rstr -> result rstr Path;
  path_parent : Path -> option Path;
  native_path_string : Path -> rstr
}.

Class Writer (W : Type) := {
  write_line : rstr -> W -> result io_error unit * W
}.

(** ** Errors and the committed delta *)

(** The [anyhow] errors of [apply_hunks_to_files]. *)
Inductive apply_error :=
| NoFilesModified
| PathError (message : rstr)
| IoFailure (context : option rstr) (source : io_error)
| ReadFailure (context : rstr) (source : io_error)
| ComputeReplacements (message : rstr).

(** [error.to_string()]: the outermost message. *)
Definition error_to_string (e : apply_error) : rstr :=
  match e with
  | NoFilesModified => lit "No files were modified."
  | PathError m => m
  | IoFailure (Some c) _ => c
  | IoFailure None s => io_message s
  | ReadFailure c s => c ++ lit ": " ++ io_message s
  | ComputeReplacements m => m
  end.

Inductive ApplyPatchError :=
| ParseFailure (e : ParseError)
| IoError (context : rstr) (source : io_error).

(** [error.downcast_ref::<std::io::Error>()] and its two outcomes. *)
Definition to_apply_patch_error (e : apply_error) : ApplyPatchError :=
  match e with
  | IoFailure _ s => IoError (lit "I/O error") s
  | _ => IoError (error_to_string e) (mkIoError OtherKind (error_to_string e))
  end.

Inductive AppliedPatchFileChange {Path : Type} :=
| ChangeAdd (content : rstr) (overwritten_content : option rstr)
| ChangeDelete (content : rstr)
| ChangeUpdate (move_path : option Path) (old_content : rstr)
    (overwritten_move_content : option rstr) (new_content : rstr).
Arguments AppliedPatchFileChange : clear implicits.

Record AppliedPatchChange (Path : Type) := mkChange {
  change_path : Path;
  change : AppliedPatchFileChange Path
}.
Arguments mkChange {Path}.
Arguments change_path {Path}.
Arguments change {Path}.

Record AppliedPatchDelta (Path : Type) := mkDelta {
  changes : list (AppliedPatchChange Path);
  exact : bool
}.
Arguments mkDelta {Path}.
Arguments changes {Path}.
Arguments exact {Path}.

Definition empty_delta {Path} : AppliedPatchDelta Path := mkDelta [] true.

(** [AppliedPatchDelta::append] *)
Definition append_delta {Path} (a b : AppliedPatchDelta Path) : AppliedPatchDelta Path :=
  mkDelta (changes a ++ changes b) (exact a && exact b).

Record AffectedPaths := mkAffected {
  added : list rstr;
  modified : list rstr;
  deleted : list rstr
}.

Record ApplyPatchOptions := mkOptions {
  update_file_mode : ApplyPatchFileUpdateMode
}.

Definition default_options : ApplyPatchOptions := mkOptions NormalizeToLf.

Section apply.
Context {FS Path W : Type}.
Context `{ExecutorFileSystem FS Path} `{PathUriOps Path} `{Writer W}.

(** ** Helpers *)

Definition note_existing_path_delta_support (path : Path) (fs : FS) (exact : bool) : bool :=
  match get_metadata path fs with
  | Ok metadata => if is_file metadata && negb (is_symlink metadata) then exact else false
  | Err source => if is_not_found source then exact else false
  end.

Definition read_optional_file_text_for_delta (path : Path) (fs : FS) (exact : bool)
  : option rstr * bool :=
  let exact := note_existing_path_delta_support path fs exact in
  match read_file_text path fs with
  | Ok content => (Some content, exact)
  | Err source => if is_not_found source then (None, exact) else (None, false)
  end.

Definition ensure_not_directory (path : Path) (fs : FS) : result io_error unit :=
  match get_metadata path fs with
  | Err e => Err e
  | Ok metadata =>
      if is_directory metadata
      then Err (mkIoError InvalidInput (lit "path is a directory"))
      else Ok tt
  end.

Definition remove_failure_was_side_effect_free (path : Path)
    (expected_content : option rstr) (fs : FS) : bool :=
  match expected_content with
  | Some expected =>
      match read_file_text path fs with
      | Ok content => str_eqb content expected
      | Err _ => false
      end
  | None => false
  end.

Definition msg_for (what : rstr) (path : Path) : rstr := what ++ native_path_string path.

Definition with_context {A} (what : rstr) (path : Path) (r : result io_error A * FS)
  : result apply_error A * FS :=
  (map_err (IoFailure (Some (msg_for what path))) r.1, r.2).

Definition write_file_with_missing_parent_retry (path : Path) (contents : rstr) (fs : FS)
  : result apply_error unit * FS :=
  match write_file path contents fs with
  | (Ok _, fs1) => (Ok tt, fs1)
  | (Err err, fs1) =>
      if is_not_found err then
        let created :=
          match path_parent path with
          | Some parent =>
              with_context (lit "Failed to create parent directories for ") path
                (create_directory parent fs1)
          | None => (Ok tt, fs1)
          end in
        match created with
        | (Ok _, fs2) =>
            with_context (lit "Failed to write file ") path (write_file path contents fs2)
        | (Err e, fs2) => (Err e, fs2)
        end
      else (Err (IoFailure (Some (msg_for (lit "Failed to write file ") path)) err), fs1)
  end.

(** [derive_new_contents_from_chunks]: read, then rebuild. *)
Definition derive_new_contents_from_chunks (path : Path) (chunks : list UpdateFileChunk)
    (mode : ApplyPatchFileUpdateMode) (fs : FS) : outcome apply_error (rstr * rstr) :=
  match read_file_text path fs with
  | Err err => Fail (ReadFailure (msg_for (lit "Failed to read file to update ") path) err)
  | Ok original_contents =>
      match derive_new_contents (native_path_string path) original_contents chunks mode with
      | Done new_contents => Done (original_contents, new_contents)
      | Fail m => Fail (ComputeReplacements m)
      | Panic => Panic
      end
  end.

(** ** One hunk

    The state threaded through the hunks: the filesystem and the delta. *)
Record apply_state := mkApply { st_fs : FS; st_delta : AppliedPatchDelta Path }.

Definition push_change (p : Path) (c : AppliedPatchFileChange Path)
    (d : AppliedPatchDelta Path) : AppliedPatchDelta Path :=
  mkDelta (changes d ++ [mkChange p c]) (exact d).

Definition set_exact (b : bool) (d : AppliedPatchDelta Path) : AppliedPatchDelta Path :=
  mkDelta (changes d) b.

Definition and_exact (b : bool) (d : AppliedPatchDelta Path) : AppliedPatchDelta Path :=
  mkDelta (changes d) (exact d && b).

Definition apply_add (path : Path) (contents : rstr) (s : apply_state)
  : outcome apply_error unit * apply_state :=
  let '(overwritten_content, exact) :=
    read_optional_file_text_for_delta path (st_fs s) (exact (st_delta s)) in
  let d := set_exact exact (st_delta s) in
  match write_file_with_missing_parent_retry path contents (st_fs s) with
  | (Err e, fs) => (Fail e, mkApply fs (set_exact false d))
  | (Ok _, fs) =>
      (Done tt, mkApply fs (push_change path (ChangeAdd contents overwritten_content) d))
  end.

Definition apply_delete (path : Path) (s : apply_state)
  : outcome apply_error unit * apply_state :=
  let exact := note_existing_path_delta_support path (st_fs s) (exact (st_delta s)) in
  let deleted_content :=
    match read_file_text path (st_fs s) with Ok c => Some c | Err _ => None end in
  let exact := if is_some deleted_content then exact else false in
  let d := set_exact exact (st_delta s) in
  let what := lit "Failed to delete file " in
  match ensure_not_directory path (st_fs s) with
  | Err e => (Fail (IoFailure (Some (msg_for what path)) e), mkApply (st_fs s) d)
  | Ok _ =>
      match remove path (st_fs s) with
      | (Err e, fs) =>
          (Fail (IoFailure (Some (msg_for what path)) e),
           mkApply fs (and_exact
             (remove_failure_was_side_effect_free path deleted_content fs) d))
      | (Ok _, fs) =>
          (Done tt, mkApply fs
             (match deleted_content with
              | Some content => push_change path (ChangeDelete content) d
              | None => d
              end))
      end
  end.

(** The move branch, once the new contents are known: write the
    destination, remove the source, then turn the recorded addition into
    the recorded move. *)
Definition apply_move (path dest : Path) (original new_contents : rstr) (s : apply_state)
  : outcome apply_error unit * apply_state :=
  let '(overwritten_move_content, exact) :=
    read_optional_file_text_for_delta dest (st_fs s) (exact (st_delta s)) in
  let d := set_exact exact (st_delta s) in
  match write_file_with_missing_parent_retry dest new_contents (st_fs s) with
  | (Err e, fs) => (Fail e, mkApply fs (set_exact false d))
  | (Ok _, fs) =>
      let d1 := push_change dest (ChangeAdd new_contents overwritten_move_content) d in
      let what := lit "Failed to remove original " in
      match ensure_not_directory path fs with
      | Err e => (Fail (IoFailure (Some (msg_for what path)) e), mkApply fs d1)
      | Ok _ =>
          match remove path fs with
          | (Err e, fs') =>
              (Fail (IoFailure (Some (msg_for what path)) e),
               mkApply fs' (and_exact
                 (remove_failure_was_side_effect_free path (Some original) fs') d1))
          | (Ok _, fs') =>
              (Done tt, mkApply fs'
                 (push_change path
                    (ChangeUpdate (Some dest) original overwritten_move_content new_contents)
                    d))
          end
      end
  end.

Definition apply_update (cwd path : Path) (move_path : option rstr)
    (chunks : list UpdateFileChunk) (mode : ApplyPatchFileUpdateMode) (s : apply_state)
  : outcome apply_error unit * apply_state :=
  let s := mkApply (st_fs s)
    (set_exact (note_existing_path_delta_support path (st_fs s) (exact (st_delta s)))
       (st_delta s)) in
  match derive_new_contents_from_chunks path chunks mode (st_fs s) with
  | Panic => (Panic, s)
  | Fail e => (Fail e, s)
  | Done (original, new_contents) =>
      match move_path with
      | Some dest =>
          match path_join cwd dest with
          | Err m => (Fail (PathError m), s)
          | Ok dest_uri => apply_move path dest_uri original new_contents s
          end
      | None =>
          match with_context (lit "Failed to write file ") path
                  (write_file path new_contents (st_fs s)) with
          | (Err e, fs) => (Fail e, mkApply fs (set_exact false (st_delta s)))
          | (Ok _, fs) =>
              (Done tt, mkApply fs
                 (push_change path (ChangeUpdate None original None new_contents) (st_delta s)))
          end
      end
  end.

Definition record_affected (h : Hunk) (a : AffectedPaths) : AffectedPaths :=
  match h with
  | AddFile _ _ => mkAffected (added a ++ [hunk_path h]) (modified a) (deleted a)
  | DeleteFile _ => mkAffected (added a) (modified a) (deleted a ++ [hunk_path h])
  | UpdateFile _ _ _ => mkAffected (added a) (modified a ++ [hunk_path h]) (deleted a)
  end.

Definition apply_hunk (cwd : Path) (mode : ApplyPatchFileUpdateMode) (h : Hunk)
    (s : apply_state) : outcome apply_error unit * apply_state :=
  match path_join cwd (resolved_hunk_path h) with
  | Err m => (Fail (PathError m), s)
  | Ok path_uri =>
      match h with
      | AddFile _ contents => apply_add path_uri contents s
      | DeleteFile _ => apply_delete path_uri s
      | UpdateFile _ move_path chunks => apply_update cwd path_uri move_path chunks mode s
      end
  end.

(** ** [apply_hunks_to_files] *)
Fixpoint apply_hunk_loop (cwd : Path) (mode : ApplyPatchFileUpdateMode) (hunks : list Hunk)
    (affected : AffectedPaths) (s : apply_state)
  : outcome apply_error AffectedPaths * apply_state :=
  match hunks with
  | [] => (Done affected, s)
  | h :: rest =>
      match apply_hunk cwd mode h s with
      | (Done _, s') => apply_hunk_loop cwd mode rest (record_affected h affected) s'
      | (Fail e, s') => (Fail e, s')
      | (Panic, s') => (Panic, s')
      end
  end.

Definition apply_hunks_to_files (hunks : list Hunk) (options : ApplyPatchOptions) (cwd : Path)
    (s : apply_state) : outcome apply_error AffectedPaths * apply_state :=
  if is_empty hunks then (Fail NoFilesModified, s)
  else apply_hunk_loop cwd (update_file_mode options) hunks (mkAffected [] [] []) s.

(** ** Output and the public entry points *)
Fixpoint write_lines (ls : list rstr) (out : W) : result io_error unit * W :=
  match ls with
  | [] => (Ok tt, out)
  | l :: rest =>
      match write_line l out with
      | (Ok _, out') => write_lines rest out'
      | (Err e, out') => (Err e, out')
      end
  end.

Definition summary_lines (a : AffectedPaths) : list rstr :=
  lit "Success. Updated the following files:"
  :: ((fun p => lit "A " ++ p) <$> added a)
  ++ ((fun p => lit "M " ++ p) <$> modified a)
  ++ ((fun p => lit "D " ++ p) <$> deleted a).

Definition print_summary (affected : AffectedPaths) (out : W) : result io_error unit * W :=
  write_lines (summary_lines affected) out.

(** The result of an application: the delta, or the error with the delta
    committed before it. *)
Definition apply_result : Type :=
  outcome (ApplyPatchError * AppliedPatchDelta Path) (AppliedPatchDelta Path).

Definition from_io (e : io_error) : ApplyPatchError := IoError (lit "I/O error") e.

Definition apply_hunks_with_options (hunks : list Hunk) (options : ApplyPatchOptions)
    (cwd : Path) (stdout stderr : W) (fs : FS) : apply_result * FS * W * W :=
  match apply_hunks_to_files hunks options cwd (mkApply fs empty_delta) with
  | (Done affected, s) =>
      match print_summary affected stdout with
      | (Ok _, stdout') => (Done (st_delta s), st_fs s, stdout', stderr)
      | (Err e, stdout') => (Fail (from_io e, st_delta s), st_fs s, stdout', stderr)
      end
  | (Fail error, s) =>
      match write_line (error_to_string error) stderr with
      | (Err e, stderr') => (Fail (from_io e, st_delta s), st_fs s, stdout, stderr')
      | (Ok _, stderr') =>
          (Fail (to_apply_patch_error error, st_delta s), st_fs s, stdout, stderr')
      end
  | (Panic, s) => (Panic, st_fs s, stdout, stderr)
  end.

Definition parse_error_line (e : ParseError) : rstr :=
  match e with
  | InvalidPatchError message => lit "Invalid patch: " ++ message
  | InvalidHunkError message line_number =>
      lit "Invalid patch hunk on line " ++ decimal (N.of_nat line_number) ++ lit ": " ++ message
  end.

Definition apply_patch_with_options (patch : rstr)
    (options : ApplyPatchOptions) (cwd : Path) (stdout stderr : W) (fs : FS)
  : apply_result * FS * W * W :=
  match parse_patch patch with
  | Ok source => apply_hunks_with_options (hunks source) options cwd stdout stderr fs
  | Err e =>
      match write_line (parse_error_line e) stderr with
      | (Err io, stderr') => (Fail (from_io io, empty_delta), fs, stdout, stderr')
      | (Ok _, stderr') => (Fail (ParseFailure e, empty_delta), fs, stdout, stderr')
      end
  end.

Definition apply_patch (patch : rstr) (cwd : Path)
    (stdout stderr : W) (fs : FS) : apply_result * FS * W * W :=
  apply_patch_with_options patch default_options cwd stdout stderr fs.
End apply.
Arguments mkApply {FS Path}.
Arguments st_fs {FS Path}.
Arguments st_delta {FS Path}.
Arguments apply_state : clear implicits.
