(* ===== verification/PatchDelta.v ===== *)
(** * PatchDelta: what the committed delta says about the filesystem

    Properties of [apply_hunks_to_files] (ApplyPatch.v) over any filesystem
    that satisfies [FileSystemLaws]: the delta replays the initial file
    contents to the final ones and undoes them, whatever the outcome, as long
    as its [exact] flag is still set; hunks that come from the parser never
    reach a panic; a successful application reports every hunk.  The last
    part is an in-memory filesystem that satisfies the laws, on which the
    whole pipeline is evaluated. *)

From stdpp Require Import base list gmap strings.
From S2P Require Import Prelude PatchTypes StreamingParser FileUpdate ApplyPatch.

(** ** File contents and the effect of a recorded change *)

Section contents.
Context {Path : Type} `{!EqDecision Path}.

(** The text of every readable file. *)
Definition contents_map : Type := Path -> option rstr.

Definition upd (p : Path) (v : option rstr) (m : contents_map) : contents_map :=
  fun q => if decide (q = p) then v else m q.

Definition same_contents : relation contents_map := pointwise_relation Path eq.
Local Infix "≐" := same_contents (at level 70).

#[local] Instance same_contents_equiv : Equivalence same_contents.
Proof. unfold same_contents. apply _. Qed.

#[local] Instance upd_proper p v : Proper (same_contents ==> same_contents) (upd p v).
Proof. intros m m' Hm q. unfold upd. by destruct (decide _). Qed.

Definition replay_change (m : contents_map) (c : AppliedPatchChange Path) : contents_map :=
  match change c with
  | ChangeAdd content _ => upd (change_path c) (Some content) m
  | ChangeDelete _ => upd (change_path c) None m
  | ChangeUpdate None _ _ new => upd (change_path c) (Some new) m
  | ChangeUpdate (Some dest) _ _ new => upd (change_path c) None (upd dest (Some new) m)
  end.

Definition undo_change (c : AppliedPatchChange Path) (m : contents_map) : contents_map :=
  match change c with
  | ChangeAdd _ overwritten => upd (change_path c) overwritten m
  | ChangeDelete content => upd (change_path c) (Some content) m
  | ChangeUpdate None old _ _ => upd (change_path c) (Some old) m
  | ChangeUpdate (Some dest) old overwritten _ =>
      upd (change_path c) (Some old) (upd dest overwritten m)
  end.

Definition replay (cs : list (AppliedPatchChange Path)) (m : contents_map) : contents_map :=
  foldl replay_change m cs.

Definition undo (cs : list (AppliedPatchChange Path)) (m : contents_map) : contents_map :=
  foldr undo_change m cs.

#[local] Instance replay_proper cs : Proper (same_contents ==> same_contents) (replay cs).
Proof.
  induction cs as [|c cs IH]; intros m m' Hm; simpl; [done|]. apply IH.
  unfold replay_change. destruct (change c) as [| |[]]; by rewrite Hm.
Qed.

#[local] Instance undo_proper cs : Proper (same_contents ==> same_contents) (undo cs).
Proof.
  induction cs as [|c cs IH]; intros m m' Hm; simpl; [done|].
  specialize (IH _ _ Hm). unfold undo_change.
  destruct (change c) as [| |[]]; by rewrite IH.
Qed.

(** [cs] leads from [m] to [m'], and back. *)
Definition commits (m : contents_map) (cs : list (AppliedPatchChange Path))
    (m' : contents_map) : Prop :=
  m' ≐ replay cs m /\ m ≐ undo cs m'.

Lemma commits_nil m m' : m' ≐ m -> commits m [] m'.
Proof. intros Hm. by split; simpl; rewrite Hm. Qed.

Lemma commits_app m cs1 m1 cs2 m2 :
  commits m cs1 m1 -> commits m1 cs2 m2 -> commits m (cs1 ++ cs2) m2.
Proof.
  intros [Hr1 Hu1] [Hr2 Hu2]. split.
  - unfold replay. rewrite foldl_app. fold (replay cs1 m). fold (replay cs2 (replay cs1 m)).
    by rewrite <- Hr1.
  - unfold undo. rewrite foldr_app. fold (undo cs2 m2). fold (undo cs1 (undo cs2 m2)).
    by rewrite <- Hu2.
Qed.

(** One file changed: an addition, a deletion or an update in place. *)
Lemma commits_upd m m' p old new c :
  change_path c = p ->
  (forall m0, replay_change m0 c = upd p new m0) ->
  (forall m0, undo_change c m0 = upd p old m0) ->
  m p = old -> m' ≐ upd p new m -> commits m [c] m'.
Proof.
  intros Hp Hr Hu Hold Hm. split; simpl; [by rewrite Hr|].
  rewrite Hu, Hm. intros q. unfold upd. destruct (decide (q = p)); by subst.
Qed.

Lemma commits_move m m' p dest old overwritten new :
  m p = Some old -> m dest = overwritten ->
  m' ≐ upd p None (upd dest (Some new) m) ->
  commits m [mkChange p (ChangeUpdate (Some dest) old overwritten new)] m'.
Proof.
  intros Hp Hd Hm. split; simpl; [done|].
  unfold undo_change; simpl. rewrite Hm. intros q. unfold upd.
  destruct (decide (q = p)), (decide (q = dest)); by subst.
Qed.
End contents.
Arguments contents_map : clear implicits.

Definition view {FS Path} `{ExecutorFileSystem FS Path} (fs : FS) (p : Path) : option rstr :=
  match read_file_text p fs with Ok c => Some c | Err _ => None end.

(** The path is a regular file that is not a symbolic link, or is missing:
    the targets for which the delta stays exact. *)
Definition recordable {FS Path} `{ExecutorFileSystem FS Path} (p : Path) (fs : FS) : bool :=
  note_existing_path_delta_support p fs true.

(** Existing regular files stay regular files. *)
Definition keeps_regular {FS Path} `{ExecutorFileSystem FS Path} (fs fs' : FS) : Prop :=
  forall q : Path, is_Some (view fs q) -> recordable q fs = true -> recordable q fs' = true.

(** ** What a filesystem promises

    Distinct paths name distinct files; a write to a regular or missing file
    that succeeds stores the contents there and nowhere else, and one that
    fails because a directory is missing stores nothing; creating a parent
    directory touches no file; removing a regular file removes that file, and
    a removal that fails has at most removed it. *)
Class FileSystemLaws (FS Path : Type) `{!EqDecision Path} `{!ExecutorFileSystem FS Path}
    `{!PathUriOps Path} := {
  write_file_ok p c fs u fs' :
    recordable p fs = true -> write_file p c fs = (Ok u, fs') ->
    same_contents (view fs') (upd p (Some c) (view fs)) /\
    recordable p fs' = true /\ keeps_regular fs fs';
  write_file_not_found p c fs e fs' :
    write_file p c fs = (Err e, fs') -> kind e = NotFound -> recordable p fs = true ->
    same_contents (view fs') (view fs) /\ recordable p fs' = true /\ keeps_regular fs fs';
  create_parent_ok p d fs u fs' :
    path_parent p = Some d -> create_directory d fs = (Ok u, fs') -> recordable p fs = true ->
    same_contents (view fs') (view fs) /\ recordable p fs' = true /\ keeps_regular fs fs';
  remove_ok p fs u fs' :
    recordable p fs = true -> remove p fs = (Ok u, fs') ->
    same_contents (view fs') (upd p None (view fs));
  remove_failed p fs e fs' :
    recordable p fs = true -> remove p fs = (Err e, fs') ->
    (forall q, q <> p -> view fs' q = view fs q) /\
    (view fs' p = view fs p \/ view fs' p = None)
}.

Section delta.
Context {FS Path : Type} `{!EqDecision Path} `{!ExecutorFileSystem FS Path}
  `{!PathUriOps Path} `{!FileSystemLaws FS Path}.
Implicit Types (p q : Path) (fs : FS) (s : apply_state FS Path).

Lemma same_view_regular fs1 fs2 fs3 :
  same_contents (Path := Path) (view fs2) (view fs1) ->
  keeps_regular (Path := Path) fs1 fs2 -> keeps_regular (Path := Path) fs2 fs3 ->
  keeps_regular (Path := Path) fs1 fs3.
Proof. intros Hv H1 H2 q Hq Hr. apply H2; [by rewrite (Hv q)|auto]. Qed.

Lemma note_existing_true p fs b :
  note_existing_path_delta_support p fs b = true -> b = true /\ recordable p fs = true.
Proof.
  unfold recordable, note_existing_path_delta_support.
  destruct (get_metadata p fs) as [md|e]; [destruct (_ && _)|destruct (is_not_found e)]; done.
Qed.

Lemma read_optional_true p fs b o :
  read_optional_file_text_for_delta p fs b = (o, true) ->
  b = true /\ recordable p fs = true /\ view fs p = o.
Proof.
  unfold read_optional_file_text_for_delta, view. intros Hr.
  destruct (read_file_text p fs) as [c|e]; [|destruct (is_not_found e)];
    injection Hr; try done; intros Hn <-; apply note_existing_true in Hn; tauto.
Qed.

(** A retried write behaves as a write. *)
Lemma write_retry_ok p c fs u fs' :
  recordable p fs = true -> write_file_with_missing_parent_retry p c fs = (Ok u, fs') ->
  same_contents (view fs') (upd p (Some c) (view fs)) /\
  recordable p fs' = true /\ keeps_regular (Path := Path) fs fs'.
Proof.
  intros Hrec. unfold write_file_with_missing_parent_retry, with_context, is_not_found.
  destruct (write_file p c fs) as [[?|e] fs1] eqn:Hw.
  { intros [= _ <-]. by eapply write_file_ok. }
  case_bool_decide as Hk; [|done].
  destruct (write_file_not_found _ _ _ _ _ Hw Hk Hrec) as (Hv1 & Hr1 & Hk1).
  assert (Hsecond : forall fs2 u' fs3,
    same_contents (Path := Path) (view fs2) (view fs1) -> recordable p fs2 = true ->
    keeps_regular (Path := Path) fs1 fs2 -> write_file p c fs2 = (Ok u', fs3) ->
    same_contents (view fs3) (upd p (Some c) (view fs)) /\
    recordable p fs3 = true /\ keeps_regular (Path := Path) fs fs3).
  { intros fs2 u' fs3 Hv2 Hr2 Hk2 Hw2.
    destruct (write_file_ok _ _ _ _ _ Hr2 Hw2) as (Hv3 & Hr3 & Hk3).
    assert (same_contents (Path := Path) (view fs2) (view fs)) as Hv.
    { intros q. by rewrite (Hv2 q). }
    split_and!; [|done|eauto using same_view_regular].
    intros q. rewrite (Hv3 q). unfold upd. by destruct (decide _). }
  destruct (path_parent p) as [d|] eqn:Hp.
  - destruct (create_directory d fs1) as [[?|?] fs2] eqn:Hc; simpl; [|done].
    destruct (create_parent_ok _ _ _ _ _ Hp Hc Hr1) as (Hv2 & Hr2 & Hk2).
    destruct (write_file p c fs2) as [[?|?] fs3] eqn:Hw2; simpl; [|done].
    intros [= _ <-]. eauto.
  - destruct (write_file p c fs1) as [[?|?] fs3] eqn:Hw2; simpl; [|done].
    intros [= _ <-]. eapply Hsecond; eauto; by intros q.
Qed.

(** ** One hunk extends the delta faithfully *)

Definition exact_step s s' : Prop :=
  exact (st_delta s') = true ->
  exact (st_delta s) = true /\
  exists cs, changes (st_delta s') = changes (st_delta s) ++ cs /\
    commits (view (st_fs s)) cs (view (st_fs s')).

Lemma exact_step_trans s1 s2 s3 : exact_step s1 s2 -> exact_step s2 s3 -> exact_step s1 s3.
Proof.
  intros H1 H2 He. destruct (H2 He) as (He2 & cs2 & Hc2 & Hm2).
  destruct (H1 He2) as (He1 & cs1 & Hc1 & Hm1). split; [done|].
  exists (cs1 ++ cs2). rewrite Hc2, Hc1, app_assoc. eauto using commits_app.
Qed.

(** Only the flag changes, and it can only be cleared. *)
Lemma exact_step_same s s' :
  changes (st_delta s') = changes (st_delta s) ->
  (exact (st_delta s') = true -> exact (st_delta s) = true) ->
  (exact (st_delta s') = true -> same_contents (Path := Path) (view (st_fs s')) (view (st_fs s))) ->
  exact_step s s'.
Proof.
  intros Hc He Hv Ht. split; [auto|]. exists []. rewrite app_nil_r. auto using commits_nil.
Qed.

Lemma apply_add_exact p c s r s' : apply_add p c s = (r, s') -> exact_step s s'.
Proof.
  unfold apply_add.
  destruct (read_optional_file_text_for_delta _ _ _) as [o b] eqn:Hro.
  destruct (write_file_with_missing_parent_retry _ _ _) as [[?|?] fs'] eqn:Hw;
    intros [= _ <-]; intros Ht; simpl in *; [|done]. subst b.
  apply read_optional_true in Hro as (He & Hrec & Hv). split; [done|]. eexists; split; [done|].
  destruct (write_retry_ok _ _ _ _ _ Hrec Hw) as (Hv' & _).
  by eapply commits_upd with (p := p).
Qed.

Lemma failed_remove_same p old fs e fs' :
  recordable p fs = true -> remove p fs = (Err e, fs') ->
  remove_failure_was_side_effect_free p old fs' = true ->
  same_contents (Path := Path) (view fs') (view fs).
Proof.
  intros Hrec Hr Hf. destruct (remove_failed _ _ _ _ Hrec Hr) as [Ho Hp].
  intros q. destruct (decide (q = p)) as [->|]; [|auto].
  unfold remove_failure_was_side_effect_free in Hf. destruct old; [|done].
  unfold view in *. destruct (read_file_text p fs'); [|done]. by destruct Hp.
Qed.

Lemma apply_delete_exact p s r s' : apply_delete p s = (r, s') -> exact_step s s'.
Proof.
  unfold apply_delete. fold (view (st_fs s) p).
  set (b := if is_some (view (st_fs s) p)
            then note_existing_path_delta_support p (st_fs s) (exact (st_delta s))
            else false).
  assert (Hb : b = true -> exact (st_delta s) = true /\ recordable p (st_fs s) = true /\
    exists c, view (st_fs s) p = Some c).
  { unfold b. destruct (view (st_fs s) p); simpl; [|done].
    intros [? ?]%note_existing_true. eauto. }
  destruct (ensure_not_directory _ _).
  2: { intros [= _ <-]. apply exact_step_same; simpl; [done|tauto|by intros _ q]. }
  destruct (remove p (st_fs s)) as [[?|?] fs'] eqn:Hr; intros [= _ <-].
  - intros Ht. destruct Hb as (He & Hrec & c & Hc).
    { by destruct (view (st_fs s) p). }
    rewrite Hc. split; [done|]. eexists; split; [done|]. simpl.
    eapply commits_upd with (p := p) (new := None); [done..|exact Hc|].
    exact (remove_ok _ _ _ _ Hrec Hr).
  - apply exact_step_same; simpl; [done|by intros [? _]%andb_true_iff; tauto|].
    intros [Ht Hf]%andb_true_iff. destruct (Hb Ht) as (_ & Hrec & _).
    eauto using failed_remove_same.
Qed.

(** The move: destination written and source removed is one change; when
    the removal does not happen, the written destination is an addition. *)
Lemma apply_move_exact p dest old new s r s' :
  view (st_fs s) p = Some old -> (exact (st_delta s) = true -> recordable p (st_fs s) = true) ->
  apply_move p dest old new s = (r, s') -> exact_step s s'.
Proof.
  intros Hold Hrec. unfold apply_move.
  destruct (read_optional_file_text_for_delta _ _ _) as [o b] eqn:Hro.
  destruct (write_file_with_missing_parent_retry _ _ _) as [[?|?] fs1] eqn:Hw.
  2: { by intros [= _ <-]. }
  assert (Hb : b = true -> exact (st_delta s) = true /\ view (st_fs s) dest = o /\
    same_contents (view fs1) (upd dest (Some new) (view (st_fs s))) /\
    recordable p fs1 = true).
  { intros ->. apply read_optional_true in Hro as (He & Hd & Hv).
    destruct (write_retry_ok _ _ _ _ _ Hd Hw) as (Hv1 & _ & Hk).
    split_and!; [done..|]. apply Hk; [by rewrite Hold|auto]. }
  assert (Hadd : forall d fs2,
    (exact d = true -> b = true /\ same_contents (Path := Path) (view fs2) (view fs1)) ->
    changes d = changes (st_delta s) ++ [mkChange dest (ChangeAdd new o)] ->
    exact_step s (mkApply fs2 d)).
  { intros d fs2 Hd Hc Ht. destruct (Hd Ht) as (Hbt & Hv2).
    destruct (Hb Hbt) as (He & Ho & Hv1 & _). split; [done|].
    eexists; split; [exact Hc|]. simpl.
    eapply commits_upd with (p := dest); [done..|exact Ho|].
    intros q. by rewrite (Hv2 q). }
  destruct (ensure_not_directory p fs1).
  2: { intros [= _ <-]. apply Hadd; [|done]. by intros ?. }
  destruct (remove p fs1) as [[?|?] fs2] eqn:Hr.
  - intros [= _ <-] Ht. destruct (Hb Ht) as (He & Ho & Hv1 & Hrec1). split; [done|].
    eexists; split; [done|]. simpl. apply commits_move; [done..|].
    intros q. rewrite (remove_ok _ _ _ _ Hrec1 Hr q). unfold upd at 1 2.
    destruct (decide _); [done|]. apply Hv1.
  - intros [= _ <-]. apply Hadd; [|done]. simpl. intros [Ht Hf]%andb_true_iff. split; [done|].
    destruct (Hb Ht) as (_ & _ & _ & Hrec1). by eapply (failed_remove_same p (Some old)).
Qed.

Lemma derive_from_chunks_view p chunks m fs old new :
  derive_new_contents_from_chunks p chunks m fs = Done (old, new) -> view fs p = Some old.
Proof.
  unfold derive_new_contents_from_chunks, view. destruct (read_file_text p fs); [|done].
  destruct (derive_new_contents _ _ _ _); by intros [= -> _].
Qed.

Lemma apply_update_exact cwd p mv chunks m s r s' :
  apply_update cwd p mv chunks m s = (r, s') -> exact_step s s'.
Proof.
  unfold apply_update. set (d1 := set_exact _ _).
  assert (Hd1 : exact_step s (mkApply (st_fs s) d1)).
  { apply exact_step_same; [done| |by intros _ q]. by intros [? _]%note_existing_true. }
  assert (Hrec : exact d1 = true -> recordable p (st_fs s) = true).
  { by intros [_ ?]%note_existing_true. }
  destruct (derive_new_contents_from_chunks _ _ _ _) as [[old new]| |] eqn:Hder;
    [|by intros [= _ <-]|by intros [= _ <-]]. simpl in Hder.
  apply derive_from_chunks_view in Hder.
  destruct mv as [dest|].
  - destruct (path_join cwd dest); [|by intros [= _ <-]].
    intros Hm. eapply exact_step_trans; [exact Hd1|]. by eapply apply_move_exact.
  - unfold with_context. simpl.
    destruct (write_file p new (st_fs s)) as [[?|?] fs'] eqn:Hw; intros [= _ <-]; [|done].
    eapply exact_step_trans; [exact Hd1|]. intros Ht. split; [done|].
    eexists; split; [done|]. simpl in *.
    destruct (write_file_ok _ _ _ _ _ (Hrec Ht) Hw) as (Hv & _).
    by eapply commits_upd with (p := p).
Qed.

Lemma apply_hunk_exact cwd m h s r s' : apply_hunk cwd m h s = (r, s') -> exact_step s s'.
Proof.
  unfold apply_hunk. destruct (path_join _ _) as [p|].
  - destruct h; eauto using apply_add_exact, apply_delete_exact, apply_update_exact.
  - intros [= _ <-]. by apply exact_step_same.
Qed.

Lemma apply_hunk_loop_exact cwd m hs a s r s' :
  apply_hunk_loop cwd m hs a s = (r, s') -> exact_step s s'.
Proof.
  revert a s. induction hs as [|h hs IH]; intros a s; simpl.
  { intros [= _ <-]. by apply exact_step_same. }
  destruct (apply_hunk cwd m h s) as [r1 s1] eqn:Hh. apply apply_hunk_exact in Hh.
  destruct r1; [|by intros [= _ <-]..].
  intros Hl. eauto using exact_step_trans.
Qed.
End delta.

(** ** The loop over hunks, on any filesystem *)

Section hunk_loop.
Context {FS Path : Type} `{!ExecutorFileSystem FS Path} `{!PathUriOps Path}.
Implicit Types (s : apply_state FS Path).

Lemma derive_no_panic path contents chunks m :
  Forall chunk_wf chunks -> derive_new_contents path contents chunks m <> Panic.
Proof.
  intros Hwf. destruct m; [apply derive_normalize_no_panic|].
  pose proof (derive_preserve path contents chunks Hwf) as H.
  destruct (compute_replacements _ _ _ _) as [rs| |]; cbv beta iota zeta in H;
    [by rewrite H..|done].
Qed.

Lemma apply_hunk_no_panic cwd m h s :
  hunk_wf h -> (apply_hunk cwd m h s).1 <> Panic.
Proof.
  intros Hwf. unfold apply_hunk. destruct (path_join _ _) as [p|]; [|done].
  destruct h as [? c|?|? mv chunks]; simpl in Hwf.
  - unfold apply_add. by repeat case_match.
  - unfold apply_delete. by repeat case_match.
  - unfold apply_update, derive_new_contents_from_chunks. simpl.
    destruct (read_file_text p (st_fs s)) as [old|]; [|done].
    pose proof (derive_no_panic (native_path_string p) old chunks m Hwf) as Hp.
    destruct (derive_new_contents _ _ _ _) as [new| |]; [|done..]. clear Hp.
    unfold apply_move, with_context. by repeat case_match.
Qed.

Lemma apply_hunk_loop_no_panic cwd m hs a s :
  Forall hunk_wf hs -> (apply_hunk_loop cwd m hs a s).1 <> Panic.
Proof.
  intros Hwf. revert a s. induction Hwf as [|h hs Hh Hhs IH]; intros a s; simpl; [done|].
  pose proof (apply_hunk_no_panic cwd m h s Hh) as Hp.
  destruct (apply_hunk cwd m h s) as [[] s']; simpl in *; [apply IH|done..].
Qed.

(** The paths a list of hunks reports, by kind. *)
Definition affected_by (hs : list Hunk) : AffectedPaths :=
  foldl (fun a h => record_affected h a) (mkAffected [] [] []) hs.

Lemma apply_hunk_loop_done cwd m hs a s a' s' :
  apply_hunk_loop cwd m hs a s = (Done a', s') ->
  a' = foldl (fun a h => record_affected h a) a hs.
Proof.
  revert a s. induction hs as [|h hs IH]; intros a s; simpl; [by intros [= <- _]|].
  destruct (apply_hunk cwd m h s) as [[] s1]; [apply IH|done..].
Qed.

Lemma apply_hunk_loop_app cwd m hs1 hs2 a s :
  apply_hunk_loop cwd m (hs1 ++ hs2) a s =
  match apply_hunk_loop cwd m hs1 a s with
  | (Done a', s') => apply_hunk_loop cwd m hs2 a' s'
  | r => r
  end.
Proof.
  revert a s. induction hs1 as [|h hs1 IH]; intros a s; simpl; [done|].
  destruct (apply_hunk cwd m h s) as [[] s1]; [apply IH|done..].
Qed.

Lemma apply_hunk_loop_fail cwd m hs a s e s' :
  apply_hunk_loop cwd m hs a s = (Fail e, s') ->
  exists hs1 h hs2 a1 s1, hs = hs1 ++ h :: hs2 /\
    apply_hunk_loop cwd m hs1 a s = (Done a1, s1) /\ apply_hunk cwd m h s1 = (Fail e, s').
Proof.
  revert a s. induction hs as [|h hs IH]; intros a s; simpl; [done|].
  destruct (apply_hunk cwd m h s) as [[] s1] eqn:Hh.
  - intros (hs1 & h' & hs2 & a1 & s2 & -> & Hl & Hf)%IH.
    exists (h :: hs1), h', hs2, a1, s2. simpl. by rewrite Hh.
  - intros [= -> ->]. by exists [], h, hs, a, s.
  - done.
Qed.
End hunk_loop.

Definition added_path (h : Hunk) : list rstr :=
  match h with AddFile p _ => [p] | _ => [] end.

Definition modified_path (h : Hunk) : list rstr :=
  match h with UpdateFile _ _ _ => [hunk_path h] | _ => [] end.

Definition deleted_path (h : Hunk) : list rstr :=
  match h with DeleteFile p => [p] | _ => [] end.

Lemma record_affected_all hs a :
  foldl (fun a h => record_affected h a) a hs =
  mkAffected (added a ++ (hs ≫= added_path)) (modified a ++ (hs ≫= modified_path))
    (deleted a ++ (hs ≫= deleted_path)).
Proof.
  revert a. induction hs as [|h hs IH]; intros a; simpl.
  { rewrite !app_nil_r. by destruct a. }
  rewrite IH. destruct h; simpl; by rewrite <- ?app_assoc.
Qed.

(** ** An in-memory filesystem *)

Definition slash : N := 47.

Record memory_fs := mkMemory {
  mem_files : gmap rstr rstr;
  mem_dirs : gset rstr
}.

Definition mem_parent (p : rstr) : option rstr :=
  match drop_while (fun c => negb (c =? slash)%N) (reverse p) with
  | [] => None
  | _ :: r => Some (reverse r)
  end.

(** The directory and the directories above it. *)
Definition mem_ancestors (d : rstr) : list rstr :=
  d :: ((fun k => take k d) <$>
        filter (fun k => d !! k = Some slash) (seq 0 (length d))).

Definition mem_error (k : ErrorKind) : io_error := mkIoError k (lit "memory").

#[export] Instance memory_fs_ops : ExecutorFileSystem memory_fs rstr := {
  read_file_text p fs :=
    match mem_files fs !! p with
    | Some c => Ok c
    | None => Err (mem_error (if decide (p ∈ mem_dirs fs) then OtherKind else NotFound))
    end;
  get_metadata p fs :=
    match mem_files fs !! p with
    | Some _ => Ok (mkMetadata false true false)
    | None => if decide (p ∈ mem_dirs fs) then Ok (mkMetadata true false false)
              else Err (mem_error NotFound)
    end;
  write_file p c fs :=
    let stored := (Ok tt, mkMemory (<[p := c]> (mem_files fs)) (mem_dirs fs)) in
    if decide (p ∈ mem_dirs fs) then (Err (mem_error OtherKind), fs)
    else match mem_parent p with
         | Some d => if decide (d ∈ mem_dirs fs) then stored
                     else (Err (mem_error NotFound), fs)
         | None => stored
         end;
  create_directory d fs :=
    if forallb (fun a => negb (is_some (mem_files fs !! a))) (mem_ancestors d)
    then (Ok tt, mkMemory (mem_files fs) (list_to_set (mem_ancestors d) ∪ mem_dirs fs))
    else (Err (mem_error OtherKind), fs);
  remove p fs :=
    match mem_files fs !! p with
    | Some _ => (Ok tt, mkMemory (delete p (mem_files fs)) (mem_dirs fs))
    | None => (Err (mem_error (if decide (p ∈ mem_dirs fs) then OtherKind else NotFound)), fs)
    end
}.

#[export] Instance memory_paths : PathUriOps rstr := {
  path_join cwd p := Ok (if starts_with [slash] p then p else cwd ++ slash :: p);
  path_parent := mem_parent;
  native_path_string p := p
}.

#[export] Instance line_writer : Writer (list rstr) := {
  write_line l out := (Ok tt, out ++ [l])
}.

Lemma write_lines_all ls (out : list rstr) : write_lines ls out = (Ok tt, out ++ ls).
Proof.
  revert out. induction ls as [|l ls IH]; intros out; simpl; [by rewrite app_nil_r|].
  rewrite IH. by rewrite <- app_assoc.
Qed.

Lemma mem_parent_shorter p d : mem_parent p = Some d -> length d < length p.
Proof.
  unfold mem_parent. rewrite <- (length_reverse p).
  induction (reverse p) as [|c r IH]; simpl; [done|].
  destruct (c =? slash)%N; simpl.
  - intros [= <-]. rewrite length_reverse. lia.
  - intros H. specialize (IH H). lia.
Qed.

Lemma mem_ancestors_shorter d a : a ∈ mem_ancestors d -> length a <= length d.
Proof.
  unfold mem_ancestors. rewrite elem_of_cons, list_elem_of_fmap.
  intros [->|(k & -> & _)]; [done|]. rewrite length_take. lia.
Qed.

Lemma mem_view fs p : view fs p = mem_files fs !! p.
Proof. unfold view. simpl. by destruct (mem_files fs !! p). Qed.

Lemma mem_recordable fs p :
  recordable p fs = bool_decide (is_Some (mem_files fs !! p) \/ p ∉ mem_dirs fs).
Proof.
  unfold recordable, note_existing_path_delta_support, get_metadata, memory_fs_ops.
  destruct (mem_files fs !! p) eqn:E; symmetry.
  - apply bool_decide_eq_true. eauto.
  - destruct (decide (p ∈ mem_dirs fs)).
    + apply bool_decide_eq_false. intros [[? ?]|?]; [congruence|done].
    + apply bool_decide_eq_true. by right.
Qed.

#[export] Instance memory_fs_laws : FileSystemLaws memory_fs rstr.
Proof.
  split.
  - intros p c fs u fs' Hr Hw.
    assert (fs' = mkMemory (<[p := c]> (mem_files fs)) (mem_dirs fs)) as ->.
    { simpl in Hw. repeat case_match; by simplify_eq. }
    split_and!.
    + intros q. unfold upd. rewrite !mem_view. simpl.
      destruct (decide (q = p)) as [->|]; [by rewrite lookup_insert_eq|].
      by rewrite lookup_insert_ne.
    + rewrite mem_recordable. apply bool_decide_eq_true. left. simpl.
      rewrite lookup_insert_eq. eauto.
    + intros q. rewrite mem_view, !mem_recordable. intros Hq _. apply bool_decide_eq_true.
      left. simpl. destruct (decide (q = p)) as [->|];
        [rewrite lookup_insert_eq; eauto|by rewrite lookup_insert_ne].
  - intros p c fs e fs' Hw Hk Hr. assert (fs' = fs) as ->.
    { simpl in Hw. repeat case_match; by simplify_eq. }
    split_and!; [by intros q|done|by intros q].
  - intros p d fs u fs' Hp Hc Hr.
    assert (fs' = mkMemory (mem_files fs) (list_to_set (mem_ancestors d) ∪ mem_dirs fs)) as ->.
    { unfold create_directory, memory_fs_ops in Hc. case_match; by simplify_eq. }
    split_and!.
    + intros q. by rewrite !mem_view.
    + rewrite mem_recordable in Hr |- *. apply bool_decide_eq_true in Hr. apply bool_decide_eq_true.
      destruct Hr as [?|Hn]; [by left|right]. cbn [mem_dirs].
      rewrite elem_of_union, elem_of_list_to_set. intros [Ha|?]; [|done].
      apply mem_ancestors_shorter in Ha. apply mem_parent_shorter in Hp. lia.
    + intros q. rewrite mem_view, !mem_recordable. intros Hq _. apply bool_decide_eq_true. by left.
  - intros p fs u fs' Hr Hd.
    assert (fs' = mkMemory (delete p (mem_files fs)) (mem_dirs fs)) as ->.
    { simpl in Hd. case_match; by simplify_eq. }
    intros q. unfold upd. rewrite !mem_view. simpl.
    destruct (decide (q = p)) as [->|]; [by rewrite lookup_delete_eq|by rewrite lookup_delete_ne].
  - intros p fs e fs' Hr Hd. assert (fs' = fs) as ->.
    { simpl in Hd. case_match; by simplify_eq. }
    auto.
Qed.

(** ** Example data: a working directory with one file *)
Definition example_fs : memory_fs :=
  mkMemory {[ lit "/w/a.txt" := join [c_lf] [lit "one"; lit "two"; []] ]} {[ lit "/w" ]}.

Definition example_patch : rstr :=
  join [c_lf] [lit "*** Begin Patch"; lit "*** Add File: new/b.txt"; lit "+hello";
               lit "*** Update File: a.txt"; lit "*** Move to: c.txt"; lit "@@"; lit " one";
               lit "-two"; lit "+three"; lit "*** Delete File: missing.txt";
               lit "*** End Patch"].

Definition example_hunks : list Hunk :=
  match parse_patch example_patch with Ok a => hunks a | Err _ => [] end.

Definition self_move_hunk : Hunk :=
  UpdateFile (lit "a.txt") (Some (lit "a.txt")) [mkChunk None [lit "one"] [lit "uno"] [] false].

(** ** Properties *)

(** C3: Whatever the outcome of applying a list of hunks, success or failure
    after some were committed, if the delta is still flagged exact then
    replaying its changes on the initial file contents gives the final ones,
    and undoing them on the final contents gives the initial ones. *)
Theorem applied_delta_replays {FS Path} `{!EqDecision Path} `{!ExecutorFileSystem FS Path}
    `{!PathUriOps Path} `{!FileSystemLaws FS Path} hunks options (cwd : Path) (fs : FS) r s :
  apply_hunks_to_files hunks options cwd (mkApply fs empty_delta) = (r, s) ->
  exact (st_delta s) = true ->
  same_contents (view (st_fs s)) (replay (changes (st_delta s)) (view fs)) /\
  same_contents (view fs) (undo (changes (st_delta s)) (view (st_fs s))).
Proof.
  unfold apply_hunks_to_files. intros Happ He.
  assert (exact_step (mkApply fs empty_delta) s) as Hs.
  { destruct (is_empty hunks); [|by eapply apply_hunk_loop_exact].
    injection Happ as _ <-. by apply exact_step_same. }
  destruct (Hs He) as (_ & cs & Hc & Hcm). simpl in Hc. rewrite Hc. exact Hcm.
Qed.

Lemma applied_delta_replays_witness :
  let s := (apply_hunks_to_files (take 2 example_hunks) default_options (lit "/w")
              (mkApply example_fs empty_delta)).2 in
  same_contents (view (st_fs s)) (replay (changes (st_delta s)) (view example_fs)) /\
  same_contents (view example_fs) (undo (changes (st_delta s)) (view (st_fs s))).
Proof.
  eapply (applied_delta_replays (take 2 example_hunks) default_options (lit "/w") example_fs);
    [apply surjective_pairing|vm_compute; reflexivity].
Defined.

(** C37: Applying any patch text, in either line-ending mode and on any
    filesystem, never panics: no index of the replacement code leaves its
    vector. *)
Theorem apply_patch_never_panics {FS Path W} `{!ExecutorFileSystem FS Path}
    `{!PathUriOps Path} `{!Writer W} patch options (cwd : Path) (out err : W) (fs : FS) :
  (apply_patch_with_options patch options cwd out err fs).1.1.1 <> Panic.
Proof.
  unfold apply_patch_with_options. destruct (parse_patch patch) as [a|e] eqn:Hp.
  2: { destruct (write_line _ err) as [[] ?]; done. }
  apply parse_patch_text_hunks in Hp as [_ Hwf].
  unfold apply_hunks_with_options, apply_hunks_to_files.
  destruct (is_empty (hunks a)); [by destruct (write_line _ err) as [[] ?]|].
  pose proof (apply_hunk_loop_no_panic cwd (update_file_mode options) (hunks a)
    (mkAffected [] [] []) (mkApply fs empty_delta) Hwf) as Hn.
  destruct (apply_hunk_loop _ _ _ _ _) as [[] s]; [| |done].
  - by destruct (print_summary _ out) as [[] ?].
  - by destruct (write_line _ err) as [[] ?].
Qed.

(** A failing application stops at the failing hunk: the hunks before it
    were all applied, in order, and the ones after it were not attempted. *)
Theorem application_stops_at_failure {FS Path} `{!ExecutorFileSystem FS Path}
    `{!PathUriOps Path} hunks options (cwd : Path) (s : apply_state FS Path) e s' :
  hunks <> [] -> apply_hunks_to_files hunks options cwd s = (Fail e, s') ->
  exists before h after s1,
    hunks = before ++ h :: after /\
    apply_hunk_loop cwd (update_file_mode options) before (mkAffected [] [] []) s
      = (Done (affected_by before), s1) /\
    apply_hunk cwd (update_file_mode options) h s1 = (Fail e, s').
Proof.
  intros Hne. unfold apply_hunks_to_files. apply is_empty_false in Hne as ->.
  intros (hs1 & h & hs2 & a1 & s1 & -> & Hl & Hf)%apply_hunk_loop_fail.
  exists hs1, h, hs2, s1. split_and!; [done| |done].
  unfold affected_by. by rewrite Hl, <- (apply_hunk_loop_done _ _ _ _ _ _ _ Hl).
Qed.

Lemma application_stops_at_failure_witness :
  let r := apply_hunks_to_files example_hunks default_options (lit "/w")
             (mkApply example_fs empty_delta) in
  let e := IoFailure (Some (lit "Failed to delete file /w/missing.txt")) (mem_error NotFound) in
  exists before h after s1,
    example_hunks = before ++ h :: after /\
    apply_hunk_loop (lit "/w") NormalizeToLf before (mkAffected [] [] [])
      (mkApply example_fs empty_delta) = (Done (affected_by before), s1) /\
    apply_hunk (lit "/w") NormalizeToLf h s1 = (Fail e, r.2).
Proof.
  cbv zeta. eapply (application_stops_at_failure example_hunks default_options (lit "/w"));
    [vm_compute; discriminate|].
  etransitivity; [apply surjective_pairing|]. f_equal.
Defined.

(** A successful application prints the header and then, in order, the
    path of every added, every modified and every deleted hunk. *)
Theorem success_reports_every_hunk {FS Path} `{!ExecutorFileSystem FS Path}
    `{!PathUriOps Path} hunks options (cwd : Path) (out err out' err' : list rstr) (fs fs' : FS) d :
  apply_hunks_with_options hunks options cwd out err fs = (Done d, fs', out', err') ->
  err' = err /\
  out' = out ++ lit "Success. Updated the following files:"
    :: ((fun p => lit "A " ++ p) <$> (hunks ≫= added_path))
    ++ ((fun p => lit "M " ++ p) <$> (hunks ≫= modified_path))
    ++ ((fun p => lit "D " ++ p) <$> (hunks ≫= deleted_path)).
Proof.
  unfold apply_hunks_with_options, apply_hunks_to_files, print_summary.
  destruct (is_empty hunks); [done|].
  destruct (apply_hunk_loop _ _ _ _ _) as [[a|e|] s] eqn:Hl; [|done|done].
  rewrite write_lines_all. intros [= _ _ <- <-]. split; [done|].
  apply apply_hunk_loop_done in Hl as ->. by rewrite record_affected_all.
Qed.

Lemma success_reports_every_hunk_witness :
  exists fs' d,
    apply_hunks_with_options (take 2 example_hunks) default_options (lit "/w") [] [] example_fs
      = (Done d, fs', [lit "Success. Updated the following files:"; lit "A new/b.txt";
                       lit "M c.txt"], []).
Proof.
  destruct (apply_hunks_with_options (take 2 example_hunks) default_options (lit "/w") [] []
    example_fs) as [[[r fs'] out'] err'] eqn:Happ.
  destruct r as [d| |]; [|exfalso; vm_compute in Happ; discriminate Happ..].
  exists fs', d. destruct (success_reports_every_hunk _ _ _ _ _ _ _ _ _ _ Happ) as [-> ->].
  f_equal.
Defined.

(** Moving a file onto its own path destroys it: when an update hunk whose
    destination resolves to the source path succeeds, the file that held the
    text to update no longer exists, and no other file changed.  The hunk is
    reported as a modification. *)
Theorem move_onto_itself_loses_file {FS Path} `{!EqDecision Path} `{!ExecutorFileSystem FS Path}
    `{!PathUriOps Path} `{!FileSystemLaws FS Path}
    (cwd : Path) mode path dest chunks (p : Path) (s s' : apply_state FS Path) u :
  path_join cwd path = Ok p -> path_join cwd dest = Ok p ->
  apply_hunk cwd mode (UpdateFile path (Some dest) chunks) s = (Done u, s') ->
  exact (st_delta s') = true ->
  is_Some (view (st_fs s) p) /\ same_contents (view (st_fs s')) (upd p None (view (st_fs s))).
Proof.
  intros Hp Hd. unfold apply_hunk. simpl. rewrite Hp. unfold apply_update.
  destruct (derive_new_contents_from_chunks _ _ _ _) as [[old new]| |] eqn:Hder; [|done..].
  apply derive_from_chunks_view in Hder. simpl in Hder. rewrite Hd. unfold apply_move.
  destruct (read_optional_file_text_for_delta _ _ _) as [o b] eqn:Hro.
  destruct (write_file_with_missing_parent_retry _ _ _) as [[?|?] fs1] eqn:Hw; [|done].
  destruct (ensure_not_directory p fs1); [|done].
  destruct (remove p fs1) as [[?|?] fs2] eqn:Hr; [|done].
  intros [= _ <-]. simpl. intros ->. split; [by rewrite Hder|].
  apply read_optional_true in Hro as (_ & Hrec & _).
  destruct (write_retry_ok _ _ _ _ _ Hrec Hw) as (Hv & Hrec1 & _).
  intros q. rewrite (remove_ok _ _ _ _ Hrec1 Hr q). specialize (Hv q). simpl in Hv.
  unfold upd in *. by destruct (decide (q = p)).
Qed.

Lemma move_onto_itself_loses_file_witness :
  let s := mkApply example_fs empty_delta in
  let s' := (apply_hunk (lit "/w") NormalizeToLf self_move_hunk s).2 in
  view (st_fs s) (lit "/w/a.txt") = Some (join [c_lf] [lit "one"; lit "two"; []]) /\
  view (st_fs s') (lit "/w/a.txt") = None.
Proof.
  cbv zeta. split; [vm_compute; reflexivity|].
  destruct (move_onto_itself_loses_file (lit "/w") NormalizeToLf (lit "a.txt") (lit "a.txt")
    [mkChunk None [lit "one"] [lit "uno"] [] false] (lit "/w/a.txt")
    (mkApply example_fs empty_delta)
    (apply_hunk (lit "/w") NormalizeToLf self_move_hunk (mkApply example_fs empty_delta)).2 tt)
    as [_ H]; [vm_compute; reflexivity..|].
  rewrite (H (lit "/w/a.txt")). unfold upd. by rewrite decide_True.
Defined.
