(* ===== verification/PatchEndToEnd.v ===== *)
(** * PatchEndToEnd: from the text of a patch to the files it changes

    The whole pipeline in one statement: the text printed from a grammar tree
    (PatchGrammar.v) is parsed, located, applied and committed
    ([apply_patch_with_options], ApplyPatch.v) on any filesystem that keeps
    the laws of PatchDelta.v. *)

From stdpp Require Import base list gmap strings.
From S2P Require Import Prelude PatchTypes StreamingParser PatchGrammar.
From S2P Require Import SeekSequence TextFile FileUpdate ApplyPatch PatchDelta.

Open Scope rust_scope.

(** The chunk a grammar change denotes is well formed. *)
Lemma denote_change_wf c : chunk_wf (denote_change c).
Proof.
  unfold denote_change.
  assert (H : forall ops ck, chunk_wf ck -> chunk_wf (foldl denote_op ck ops)).
  { induction ops as [|o ops IH]; intros ck Hck; simpl; [done|]. apply IH.
    destruct o; simpl; auto using push_context_line_wf, push_old_line_wf, push_new_line_wf. }
  destruct (ch_eof c); [apply mark_end_of_file_wf|]; by apply H.
Qed.

Section end_to_end.
Context {FS Path : Type} `{!EqDecision Path} `{!ExecutorFileSystem FS Path}
  `{!PathUriOps Path} `{!FileSystemLaws FS Path}.

(** An update in place, once the new text is known. *)
Lemma apply_update_in_place cwd (p : Path) chunks mode fs old new fs' :
  view fs p = Some old -> recordable p fs = true ->
  derive_new_contents (native_path_string p) old chunks mode = Done new ->
  write_file p new fs = (Ok tt, fs') ->
  apply_update cwd p None chunks mode (mkApply fs empty_delta)
  = (Done tt, mkApply fs' (mkDelta [ApplyPatch.mkChange p (ChangeUpdate None old None new)] true)).
Proof.
  intros Hv Hrec Hd Hw. unfold apply_update, derive_new_contents_from_chunks, with_context. simpl.
  unfold view in Hv. destruct (read_file_text p fs) as [c|]; simplify_eq.
  rewrite Hd, Hw. simpl. unfold push_change. simpl.
  unfold recordable in Hrec. by rewrite Hrec.
Qed.
End end_to_end.

(** The text of the updated lines: the mode that normalises line endings writes one
    blank line less at the end of the file. *)
Definition updated_text (mode : ApplyPatchFileUpdateMode) (lines : list rstr) : rstr :=
  unlines (match mode, last lines with
           | NormalizeToLf, Some [] => removelast lines
           | _, _ => lines
           end).

Lemma derive_updated_text mode path ls i c :
  Forall no_terminator ls -> exact_chunk ls i c -> chunk_wf c ->
  derive_new_contents path (unlines ls) [c] mode = Done (updated_text mode (replaced ls i c)).
Proof.
  intros Hls Hex Hwf. unfold updated_text. destruct mode; [|by apply derive_preserve_exact].
  destruct (replaced ls i c) as [|x r _] eqn:Er using rev_ind.
  { rewrite (derive_normalize_exact _ _ i), Er by eauto using no_terminator_no_lf. done. }
  rewrite last_snoc. destruct x as [|b x].
  - rewrite removelast_last. apply (normalized_blank_dropped _ _ i c); eauto using no_terminator_no_lf.
  - rewrite (derive_normalize_exact _ _ i), Er by eauto using no_terminator_no_lf.
    rewrite join_file_lines_unlines; [done|]. by rewrite last_snoc.
Qed.

(** C1: Applying the text of a patch that updates one file by one change that names
    no context and has no end-of-file marker, where the file ends its lines in LF, has no
    CR, and contains the old lines of the change (at least one) as they are spelled,
    succeeds when the write does.  The file then holds its lines with the first
    occurrence replaced by the new lines; in the mode that normalises line endings, a
    blank line at the end of the result is not written.  Every other file is unchanged,
    the summary names the file, and the delta is exact and records this one change. *)
Theorem update_patch_end_to_end {FS Path} `{!EqDecision Path} `{!ExecutorFileSystem FS Path}
    `{!PathUriOps Path} `{!FileSystemLaws FS Path}
    options (cwd p : Path) path ch ls i (out err : list rstr) (fs fs' : FS) :
  let c := denote_change ch in
  let new := updated_text (update_file_mode options) (replaced ls i c) in
  good_hunk (UpdateTree path None ch []) ->
  path_join cwd path = Ok p -> recordable p fs = true -> view fs p = Some (unlines ls) ->
  Forall no_terminator ls -> exact_chunk ls i c ->
  write_file p new fs = (Ok tt, fs') ->
  apply_patch_with_options (render_patch None [UpdateTree path None ch []]) options cwd
    out err fs
  = (Done (mkDelta [ApplyPatch.mkChange p (ChangeUpdate None (unlines ls) None new)] true), fs',
     out ++ [lit "Success. Updated the following files:"; lit "M " ++ path], err)
  /\ same_contents (view fs') (upd p (Some new) (view fs)).
Proof.
  intros c new Hgood Hjoin Hrec Hview Hls Hex Hw. split.
  - unfold apply_patch_with_options.
    rewrite parse_patch_render; [|done|by constructor]. simpl hunks.
    unfold apply_hunks_with_options, apply_hunks_to_files. cbn [is_empty apply_hunk_loop].
    unfold apply_hunk. simpl resolved_hunk_path. rewrite Hjoin.
    rewrite (apply_update_in_place _ _ _ _ _ _ new fs' Hview Hrec); [| |exact Hw].
    + unfold print_summary. by rewrite write_lines_all.
    + by apply derive_updated_text, denote_change_wf.
  - apply (write_file_ok _ _ _ _ _ Hrec Hw).
Qed.

Lemma update_patch_end_to_end_witness :
  exists fs' d,
    apply_patch_with_options
      (render_patch None [UpdateTree (lit "a.txt") None
         (PatchGrammar.mkChange Headless (Keep (lit "one")) [Remove (lit "two"); Insert (lit "2")]
            false) []])
      default_options (lit "/w") [] [] example_fs
    = (Done d, fs', [lit "Success. Updated the following files:"; lit "M a.txt"], [])
    /\ view fs' (lit "/w/a.txt") = Some (unlines [lit "one"; lit "2"]).
Proof.
  set (ch := PatchGrammar.mkChange Headless (Keep (lit "one"))
               [Remove (lit "two"); Insert (lit "2")] false).
  destruct (update_patch_end_to_end default_options (lit "/w") (lit "/w/a.txt")
    (lit "a.txt") ch [lit "one"; lit "two"] 0 [] [] example_fs
    (write_file (lit "/w/a.txt") (unlines [lit "one"; lit "2"]) example_fs).2) as [Ha Hv].
  - unfold good_hunk, good_name, good_change, clean_line, no_lf. split_and!;
      [|discriminate|vm_compute; reflexivity|done|done| |constructor].
    + by apply (bool_decide_unpack _); vm_compute.
    + repeat constructor; try (vm_compute; discriminate);
        by apply (bool_decide_unpack _); vm_compute.
  - vm_compute. reflexivity.
  - vm_compute. reflexivity.
  - vm_compute. reflexivity.
  - repeat constructor; vm_compute; discriminate.
  - split_and!; [done|vm_compute; discriminate|done|vm_compute; reflexivity].
  - vm_compute. reflexivity.
  - eexists _, _. split; [exact Ha|]. rewrite (Hv (lit "/w/a.txt")).
    unfold upd. rewrite decide_True by done. vm_compute. reflexivity.
Defined.
