(* ===== verification/AbsolutePath.v ===== *)
(** * AbsolutePath: [codex-rs/utils/absolute-path/src/{lib,absolutize}.rs]

    Lexical absolute paths of the Unix build.  A [Path] is its text; a
    [PathBuf] built component by component is the list of its components,
    which is what the comparison of paths looks at.  The process environment
    (current directory, home directory) is the argument [path_env]. *)

From stdpp Require Import base list gmap strings.
From S2P Require Import Prelude.

Open Scope rust_scope.

Definition c_slash : N := 47.
Definition c_tilde : N := 126.

(** ** [std::path] on Unix *)

Inductive Component := RootDir | CurDir | ParentDir | Normal (name : rstr).

#[export] Instance component_eq_dec : EqDecision Component.
Proof. solve_decision. Defined.

Definition is_absolute (path : rstr) : bool := starts_with [c_slash] path.

Definition segment_component (s : rstr) : option Component :=
  if is_empty s || (s == lit ".") then None
  else if s == lit ".." then Some ParentDir
  else Some (Normal s).

(** [Path::components]: repeated separators and inner [.] are dropped, a
    leading [.] of a relative path is kept. *)
Definition components (path : rstr) : list Component :=
  let segments := split_on c_slash path in
  (if is_absolute path then [RootDir]
   else if is_some_and (head segments) (fun s => s == lit ".") then [CurDir] else [])
  ++ omap segment_component segments.

(** [Path::join] *)
Definition path_join_text (base path : rstr) : rstr :=
  if is_absolute path then path
  else if is_empty base || ends_with [c_slash] base then base ++ path
  else base ++ [c_slash] ++ path.

(** [PathBuf::push] of one component, [PathBuf::pop], [Path::file_name] and
    [Path::parent]. *)
Definition push_component (p : list Component) (c : Component) : list Component :=
  match c with RootDir => [RootDir] | _ => p ++ [c] end.

Definition parent (p : list Component) : option (list Component) :=
  match last p with
  | None | Some RootDir => None
  | Some _ => Some (take (length p - 1) p)
  end.

Definition pop (p : list Component) : list Component := default p (parent p).

Definition file_name (p : list Component) : option rstr :=
  match last p with Some (Normal s) => Some s | _ => None end.

Definition component_text (c : Component) : rstr :=
  match c with
  | RootDir => [c_slash]
  | CurDir => lit "."
  | ParentDir => lit ".."
  | Normal s => s
  end.

Definition as_text (p : list Component) : rstr :=
  match p with
  | RootDir :: rest => c_slash :: join [c_slash] (component_text <$> rest)
  | _ => join [c_slash] (component_text <$> p)
  end.

(** ** Path conventions ([utils/path-uri/src/lib.rs]) *)

Inductive PathConvention := Posix | Windows.

#[export] Instance path_convention_eq_dec : EqDecision PathConvention.
Proof. solve_decision. Defined.

(** A Windows path splits at both separators. *)
Definition path_segments (convention : PathConvention) (path : rstr) : list rstr :=
  match convention with
  | Posix => split_on c_slash path
  | Windows => split_on c_slash ((fun c => if (c =? 92)%N then c_slash else c) <$> path)
  end.

(** ** [absolutize.rs] *)

Definition normalize_step (normalized : list Component) (c : Component) : list Component :=
  match c with
  | CurDir => normalized
  | ParentDir => pop normalized
  | RootDir | Normal _ => push_component normalized c
  end.

Definition normalize_path (path : list Component) : list Component :=
  let normalized := foldl normalize_step [] path in
  if is_empty normalized then [CurDir] else normalized.

Definition path_with_base (path base_path : rstr) : rstr :=
  if is_absolute path then path else path_join_text base_path path.

Definition absolutize_from (path base_path : rstr) : list Component :=
  normalize_path (components (path_with_base path base_path)).

Definition absolutize (current_dir : option rstr) (path : rstr) : option (list Component) :=
  if is_absolute path then Some (normalize_path (components path))
  else match current_dir with
       | Some cwd => Some (absolutize_from path cwd)
       | None => None
       end.

(** ** [AbsolutePathBuf] *)

(** [home_override] is the thread-local [ABSOLUTE_PATH_HOME]. *)
Record path_env := mkPathEnv {
  home_override : option rstr;
  home_dir : option rstr;
  current_dir : option rstr
}.

Definition home_of (env : path_env) : option rstr :=
  match home_override env with Some h => Some h | None => home_dir env end.

Definition maybe_expand_home_directory (env : path_env) (path : rstr) : rstr :=
  match strip_prefix [c_tilde] path, home_of env with
  | Some rest, Some home =>
      if is_empty rest then home
      else match strip_prefix [c_slash] rest with
           | Some rest' => path_join_text home (drop_while (N.eqb c_slash) rest')
           | None => path
           end
  | _, _ => path
  end.

Definition AbsolutePathBuf : Type := list Component.

Definition resolve_path_against_base (env : path_env) (path base_path : rstr) : AbsolutePathBuf :=
  absolutize_from (maybe_expand_home_directory env path) base_path.

Definition from_absolute_path (env : path_env) (path : rstr) : option AbsolutePathBuf :=
  absolutize (current_dir env) (maybe_expand_home_directory env path).

Definition from_absolute_path_checked (env : path_env) (path : rstr)
  : result rstr AbsolutePathBuf :=
  let expanded := maybe_expand_home_directory env path in
  if is_absolute expanded then Ok (absolutize_from expanded [c_slash])
  else Err (lit "path is not absolute: " ++ path).

Definition abs_join (env : path_env) (self : AbsolutePathBuf) (path : rstr) : AbsolutePathBuf :=
  resolve_path_against_base env path (as_text self).

(** ** Normal absolute paths *)

Definition good_segment (s : rstr) : Prop :=
  s <> [] /\ s <> lit "." /\ s <> lit ".." /\ c_slash ∉ s.

Definition normal_absolute (p : list Component) : Prop :=
  exists names, p = RootDir :: (Normal <$> names) /\ Forall good_segment names.

Lemma split_on_no_sep c s : Forall (fun seg => c ∉ seg) (split_on c s).
Proof.
  induction s as [|x s IH]; simpl; [by repeat constructor; apply not_elem_of_nil|].
  destruct (N.eqb_spec x c) as [->|Hne]; [constructor; [apply not_elem_of_nil|done]|].
  destruct (split_on c s) as [|l ls]; inversion IH; subst;
    repeat constructor; try done; apply not_elem_of_cons; split; try done; apply not_elem_of_nil.
Qed.

Lemma split_on_join c ls :
  ls <> [] -> Forall (fun seg => c ∉ seg) ls -> split_on c (join [c] ls) = ls.
Proof.
  intros Hne H. induction H as [|l ls Hl Hls IH]; [done|].
  destruct ls as [|l2 ls].
  - simpl. clear -Hl. induction l as [|x l IH]; simpl; [done|].
    apply not_elem_of_cons in Hl as [Hx Hl]. apply N.eqb_neq in Hx as Hx'.
    rewrite N.eqb_sym, Hx', IH by done. done.
  - rewrite join_cons. specialize (IH ltac:(done)). revert IH. generalize (join [c] (l2 :: ls)).
    intros t IH. clear -Hl IH. induction l as [|x l IHl]; simpl.
    { by rewrite N.eqb_refl, IH. }
    apply not_elem_of_cons in Hl as [Hx Hl]. apply N.eqb_neq in Hx as Hx'.
    rewrite N.eqb_sym, Hx'. simpl in IHl. by rewrite IHl.
Qed.

Definition clean_component (c : Component) : Prop :=
  match c with ParentDir => True | Normal s => good_segment s | _ => False end.

Lemma segment_component_clean seg c :
  c_slash ∉ seg -> segment_component seg = Some c -> clean_component c.
Proof.
  unfold segment_component. intros Hs.
  destruct (is_empty seg) eqn:E1; [done|]. apply is_empty_false in E1. simpl.
  destruct (seg == lit ".") eqn:E2; [done|].
  destruct (seg == lit "..") eqn:E3; intros [= <-]; simpl; [done|].
  split_and!; [done| | |done]; intros ->; by rewrite str_eqb_refl in *.
Qed.

Lemma good_segment_component s : good_segment s -> segment_component s = Some (Normal s).
Proof.
  intros (Hne & Hdot & Hdd & _). unfold segment_component, str_eqb.
  apply is_empty_false in Hne as ->. by rewrite !bool_decide_eq_false_2.
Qed.

Lemma components_absolute path :
  is_absolute path = true ->
  exists cs, components path = RootDir :: cs /\ Forall clean_component cs.
Proof.
  unfold components. intros ->. eexists; split; [done|].
  pose proof (split_on_no_sep c_slash path) as H. induction H as [|seg segs Hs _ IH]; simpl.
  { constructor. }
  destruct (segment_component seg) as [c|] eqn:E; [|done].
  constructor; [by eapply segment_component_clean|done].
Qed.

Lemma pop_snoc_normal p s : pop (p ++ [Normal s]) = p.
Proof.
  unfold pop, parent. rewrite last_snoc. simpl.
  by rewrite length_app, Nat.add_sub, take_app_length.
Qed.

(** Below the root, every step stays below the root. *)
Lemma normalize_step_absolute p c :
  normal_absolute p -> clean_component c -> normal_absolute (normalize_step p c).
Proof.
  intros (names & -> & Hn) Hc. destruct c as [| | |s]; simpl in Hc; [done|done| |].
  - simpl. destruct names as [|s names _] using rev_ind.
    { by exists []. }
    rewrite fmap_app. simpl. change (RootDir :: (Normal <$> names) ++ [Normal s])
      with ((RootDir :: (Normal <$> names)) ++ [Normal s]). rewrite pop_snoc_normal.
    exists names. rewrite Forall_app in Hn. by destruct Hn.
  - exists (names ++ [s]). simpl. rewrite fmap_app. split; [done|].
    apply Forall_app. split; [done|by constructor].
Qed.

Lemma normalize_steps_absolute cs p :
  normal_absolute p -> Forall clean_component cs -> normal_absolute (foldl normalize_step p cs).
Proof.
  intros Hp H. revert p Hp. induction H as [|c cs Hc Hcs IH]; intros p Hp; simpl; [done|].
  apply IH. by apply normalize_step_absolute.
Qed.

Lemma normalize_absolute path :
  is_absolute path = true -> normal_absolute (normalize_path (components path)).
Proof.
  intros (cs & -> & Hcs)%components_absolute. unfold normalize_path. simpl.
  destruct (normalize_steps_absolute cs [RootDir]) as (names & -> & Hn);
    [by exists [] | done | by exists names].
Qed.

Lemma normalize_normal names p :
  foldl normalize_step p (Normal <$> names) = p ++ (Normal <$> names).
Proof.
  revert p. induction names as [|s names IH]; intros p; simpl; [by rewrite app_nil_r|].
  rewrite IH. by rewrite <- app_assoc.
Qed.

Lemma normalize_path_normal p : normal_absolute p -> normalize_path p = p.
Proof.
  intros (names & -> & _). unfold normalize_path. simpl. by rewrite normalize_normal.
Qed.

Lemma components_as_text p : normal_absolute p -> components (as_text p) = p.
Proof.
  intros (names & -> & Hn). unfold components, as_text, is_absolute, starts_with. simpl.
  f_equal. rewrite <- list_fmap_compose. simpl.
  rewrite (list_fmap_ext _ id) by done. rewrite list_fmap_id.
  destruct (decide (names = [])) as [->|Hne]; [done|].
  rewrite split_on_join; [|done|eapply Forall_impl; [exact Hn|by intros s (_ & _ & _ & ?)]].
  clear Hne. induction Hn as [|s names Hs Hns IH]; simpl; [done|].
  rewrite good_segment_component by done. by rewrite IH.
Qed.

Lemma is_absolute_spec path : is_absolute path = true <-> exists r, path = c_slash :: r.
Proof.
  unfold is_absolute, starts_with. destruct (strip_prefix [c_slash] path) as [r|] eqn:E.
  - apply strip_prefix_Some in E as ->. split; [by eexists|done].
  - split; [done|]. intros [r ->]. change (c_slash :: r) with ([c_slash] ++ r) in E.
    by rewrite strip_prefix_app in E.
Qed.

Lemma path_with_base_absolute path base :
  is_absolute base = true -> is_absolute (path_with_base path base) = true.
Proof.
  intros Hb. unfold path_with_base. destruct (is_absolute path) eqn:E; [done|].
  apply is_absolute_spec in Hb as [r ->]. apply is_absolute_spec.
  unfold path_join_text. rewrite E. destruct (_ || _); by eexists.
Qed.

Lemma absolutize_from_normal path base :
  is_absolute base = true -> normal_absolute (absolutize_from path base).
Proof. intros Hb. by apply normalize_absolute, path_with_base_absolute. Qed.

Lemma from_absolute_path_normal env path p :
  (forall c, current_dir env = Some c -> is_absolute c = true) ->
  from_absolute_path env path = Some p -> normal_absolute p.
Proof.
  intros Hc. unfold from_absolute_path, absolutize.
  destruct (is_absolute _) eqn:E; [intros [= <-]; by apply normalize_absolute|].
  destruct (current_dir env) as [c|]; [|done]. intros [= <-]. by apply absolutize_from_normal, Hc.
Qed.

Lemma as_text_absolute p : normal_absolute p -> is_absolute (as_text p) = true.
Proof. intros (names & -> & _). apply is_absolute_spec. simpl. by eexists. Qed.

Lemma expand_home_absolute env path :
  is_absolute path = true -> maybe_expand_home_directory env path = path.
Proof. intros [r ->]%is_absolute_spec. unfold maybe_expand_home_directory. done. Qed.

Lemma from_absolute_path_as_text env p :
  normal_absolute p -> from_absolute_path env (as_text p) = Some p.
Proof.
  intros Hp. unfold from_absolute_path, absolutize.
  by rewrite expand_home_absolute, as_text_absolute, components_as_text, normalize_path_normal
    by (done || by apply as_text_absolute).
Qed.

(** ** Properties *)

(** Every way of building an absolute path gives the root followed by
    plain names: no [.], [..], empty or slash-containing component remains,
    and going up cannot leave the root.  The current directory, where it is
    used, is absolute, as the operating system promises. *)
Theorem absolute_path_normal env path base :
  (forall c, current_dir env = Some c -> is_absolute c = true) ->
  (forall p, from_absolute_path env path = Some p -> normal_absolute p) /\
  (forall p, from_absolute_path_checked env path = Ok p -> normal_absolute p) /\
  (is_absolute base = true -> normal_absolute (resolve_path_against_base env path base)) /\
  (forall p, normal_absolute p -> normal_absolute (abs_join env p path)).
Proof.
  intros Hc. split_and!.
  - intros p. by apply from_absolute_path_normal.
  - intros p. unfold from_absolute_path_checked. destruct (is_absolute _); [|done].
    intros [= <-]. by apply absolutize_from_normal.
  - apply absolutize_from_normal.
  - intros p Hp. by apply absolutize_from_normal, as_text_absolute.
Qed.

Definition example_env : path_env := mkPathEnv None (Some (lit "/home/u")) (Some (lit "/w")).

Lemma absolute_path_normal_witness :
  normal_absolute [RootDir; Normal (lit "home"); Normal (lit "u"); Normal (lit "b")].
Proof.
  apply (absolute_path_normal example_env (lit "~//a/../b/.") (lit "/")).
  - intros c [= <-]. reflexivity.
  - vm_compute. reflexivity.
Defined.

(** The text of an absolute path reads back as the same path, whatever the
    environment, and joining its text onto any other path gives it back. *)
Theorem absolute_path_round_trip env p q :
  normal_absolute p ->
  from_absolute_path env (as_text p) = Some p /\ abs_join env q (as_text p) = p.
Proof.
  intros Hp. pose proof (as_text_absolute p Hp) as Ha. split.
  - unfold from_absolute_path, absolutize. rewrite expand_home_absolute, Ha by done.
    by rewrite components_as_text, normalize_path_normal.
  - unfold abs_join, resolve_path_against_base, absolutize_from, path_with_base.
    rewrite expand_home_absolute, Ha by done.
    by rewrite components_as_text, normalize_path_normal.
Qed.

Lemma absolute_path_round_trip_witness :
  let p := [RootDir; Normal (lit "usr"); Normal (lit "git")] in
  from_absolute_path example_env (as_text p) = Some p /\ abs_join example_env [RootDir] (as_text p) = p.
Proof.
  intros p. apply absolute_path_round_trip. exists [lit "usr"; lit "git"]. split; [done|].
  repeat constructor; try discriminate; by apply (bool_decide_unpack _); vm_compute.
Defined.
