(* ===== verification/Invocation.v ===== *)
(** * Recognising and verifying a patch invocation

    [apply-patch/src/invocation.rs]: which command lines are patches (a direct
    call, or a shell script made of one here-document), and the verification
    of a patch, which computes the change of every file before anything is
    written; the user approves those changes.  The theorems compare them with
    what the application of the same hunks (ApplyPatch.v) does.

    The matches of the tree-sitter query over a script are an argument, each
    the list of its captures with their text; so is the rendering of unified
    diffs. *)

From stdpp Require Import base list gmap strings.
From S2P Require Import Prelude PatchTypes StreamingParser FileUpdate.
From S2P Require Import ApplyPatch PatchDelta AbsolutePath.

Open Scope rust_scope.

Definition APPLY_PATCH_COMMANDS : list rstr := [lit "apply_patch"; lit "applypatch"].

Inductive ApplyPatchShell := UnixShell | PowerShellShell | CmdShell.

Inductive ExtractHeredocError :=
| CommandDidNotStartWithApplyPatch
| FailedToLoadBashGrammar
| HeredocNotUtf8
| FailedToParsePatchIntoAst
| FailedToFindHeredocBody.

Inductive MaybeApplyPatch :=
| Body (args : ApplyPatchArgs)
| ShellParseError (e : ExtractHeredocError)
| PatchParseError (e : ParseError)
| NotApplyPatch.

(** [ApplyPatchError], with the constructors verification can return. *)
Inductive VerifyError :=
| VerifyParseError (e : ParseError)
| VerifyIoError (context : rstr) (source : io_error)
| VerifyComputeReplacements (message : rstr)
| VerifyPathUri (message : rstr)
| ImplicitInvocation.

Inductive ApplyPatchFileChange {Path : Type} :=
| AddChange (content : rstr)
| DeleteChange (content : rstr)
| UpdateChange (unified_diff : rstr) (move_path : option Path) (new_content : rstr).
Arguments ApplyPatchFileChange : clear implicits.

(** The [HashMap] of changes, in the order of insertion. *)
Record ApplyPatchAction (Path : Type) := mkAction {
  action_changes : list (Path * ApplyPatchFileChange Path);
  action_mode : ApplyPatchFileUpdateMode;
  action_patch : rstr;
  action_cwd : Path
}.
Arguments mkAction {Path}.
Arguments action_changes {Path}.
Arguments action_mode {Path}.
Arguments action_patch {Path}.
Arguments action_cwd {Path}.

Inductive MaybeApplyPatchVerified {Path : Type} :=
| VerifiedBody (action : ApplyPatchAction Path)
| VerifiedShellParseError (e : ExtractHeredocError)
| CorrectnessError (e : VerifyError)
| VerifiedNotApplyPatch.
Arguments MaybeApplyPatchVerified : clear implicits.

(** ** Recognising the shell *)

Definition classify_shell_name (shell : rstr) (convention : PathConvention) : option rstr :=
  match last (path_segments convention shell) with
  | None => None
  | Some basename =>
      let stem :=
        match rsplit_once 46 basename with
        | Some (stem, _) => if is_empty stem then basename else stem
        | None => basename
        end in
      Some (to_ascii_lowercase stem)
  end.

Definition classify_shell (shell flag : rstr) (convention : PathConvention)
  : option ApplyPatchShell :=
  match classify_shell_name shell convention with
  | None => None
  | Some name =>
      if ((name == lit "bash") || (name == lit "zsh") || (name == lit "sh"))
         && ((flag == lit "-lc") || (flag == lit "-c")) then Some UnixShell
      else if ((name == lit "pwsh") || (name == lit "powershell"))
              && eq_ignore_ascii_case flag (lit "-command") then Some PowerShellShell
      else if (name == lit "cmd") && eq_ignore_ascii_case flag (lit "/c") then Some CmdShell
      else None
  end.

Definition can_skip_flag (shell flag : rstr) (convention : PathConvention) : bool :=
  is_some_and (classify_shell_name shell convention) (fun name =>
    ((name == lit "pwsh") || (name == lit "powershell"))
    && eq_ignore_ascii_case flag (lit "-noprofile")).

Definition parse_shell_script (argv : list rstr) (convention : option PathConvention)
  : option (ApplyPatchShell * rstr) :=
  match convention with
  | None => None
  | Some convention =>
      match argv with
      | [shell; flag; script] =>
          (fun shell_type => (shell_type, script)) <$> classify_shell shell flag convention
      | [shell; skip_flag; flag; script] =>
          if negb (can_skip_flag shell skip_flag convention) then None
          else (fun shell_type => (shell_type, script)) <$> classify_shell shell flag convention
      | _ => None
      end
  end.

(** ** The here-document of a script *)

Definition capture : Type := rstr * option rstr.

(** The captures of one match: here-document text and directory. *)
Fixpoint read_captures (captures : list capture) (heredoc_text cd_path : option rstr)
  : result ExtractHeredocError (option rstr * option rstr) :=
  match captures with
  | [] => Ok (heredoc_text, cd_path)
  | (name, text) :: r =>
      if name == lit "heredoc" then
        match text with
        | None => Err HeredocNotUtf8
        | Some text => read_captures r (Some (trim_end_matches c_lf text)) cd_path
        end
      else if name == lit "cd_path" then
        match text with
        | None => Err HeredocNotUtf8
        | Some text => read_captures r heredoc_text (Some text)
        end
      else if name == lit "cd_raw_string" then
        match text with
        | None => Err HeredocNotUtf8
        | Some raw =>
            let trimmed :=
              match strip_prefix (lit "'") raw with
              | Some s => default raw (strip_suffix (lit "'") s)
              | None => raw
              end in
            read_captures r heredoc_text (Some trimmed)
        end
      else read_captures r heredoc_text cd_path
  end.

Fixpoint first_heredoc (matches : list (list capture))
  : result ExtractHeredocError (rstr * option rstr) :=
  match matches with
  | [] => Err CommandDidNotStartWithApplyPatch
  | captures :: r =>
      match read_captures captures None None with
      | Err e => Err e
      | Ok (Some heredoc, cd_path) => Ok (heredoc, cd_path)
      | Ok (None, _) => first_heredoc r
      end
  end.

Section invocation.
Context {FS Path : Type} `{!EqDecision Path} `{!ExecutorFileSystem FS Path} `{!PathUriOps Path}.
Context (path_convention : Path -> option PathConvention)
  (query_matches : rstr -> result ExtractHeredocError (list (list capture)))
  (render_diff : rstr -> rstr -> rstr).

Definition extract_apply_patch_from_bash (src : rstr)
  : result ExtractHeredocError (rstr * option rstr) :=
  match query_matches src with
  | Err e => Err e
  | Ok matches => first_heredoc matches
  end.

Definition extract_apply_patch_from_shell (shell : ApplyPatchShell) (script : rstr)
  : result ExtractHeredocError (rstr * option rstr) :=
  match shell with
  | UnixShell | PowerShellShell | CmdShell => extract_apply_patch_from_bash script
  end.

Definition maybe_parse_shell_form (argv : list rstr) (cwd : Path) : MaybeApplyPatch :=
  match parse_shell_script argv (path_convention cwd) with
  | None => NotApplyPatch
  | Some (shell, script) =>
      match extract_apply_patch_from_shell shell script with
      | Ok (body, workdir) =>
          match parse_patch body with
          | Ok source => Body (mkArgs (patch source) (hunks source) workdir (environment_id source))
          | Err e => PatchParseError e
          end
      | Err CommandDidNotStartWithApplyPatch => NotApplyPatch
      | Err e => ShellParseError e
      end
  end.

Definition maybe_parse_apply_patch (argv : list rstr) (cwd : Path) : MaybeApplyPatch :=
  match argv with
  | [cmd; body] =>
      if bool_decide (cmd ∈ APPLY_PATCH_COMMANDS) then
        match parse_patch body with
        | Ok source => Body source
        | Err e => PatchParseError e
        end
      else maybe_parse_shell_form argv cwd
  | _ => maybe_parse_shell_form argv cwd
  end.

(** ** Verification *)

Definition verify_error (e : apply_error) : VerifyError :=
  match e with
  | ReadFailure context source => VerifyIoError context source
  | ComputeReplacements message => VerifyComputeReplacements message
  | PathError message => VerifyPathUri message
  | IoFailure context source => VerifyIoError (default (lit "I/O error") context) source
  | NoFilesModified => VerifyIoError (error_to_string e) (mkIoError OtherKind (error_to_string e))
  end.

(** The change of one hunk. *)
Definition verify_hunk (effective_cwd path : Path) (mode : ApplyPatchFileUpdateMode) (h : Hunk)
    (fs : FS) : outcome VerifyError (ApplyPatchFileChange Path) :=
  match h with
  | AddFile _ contents => Done (AddChange contents)
  | DeleteFile _ =>
      match read_file_text path fs with
      | Err source => Fail (VerifyIoError (msg_for (lit "Failed to read ") path) source)
      | Ok content => Done (DeleteChange content)
      end
  | UpdateFile _ move_path chunks =>
      match derive_new_contents_from_chunks path chunks mode fs with
      | Panic => Panic
      | Fail e => Fail (verify_error e)
      | Done (original, new_contents) =>
          let unified_diff := render_diff original new_contents in
          match move_path with
          | None => Done (UpdateChange unified_diff None new_contents)
          | Some dest =>
              match path_join effective_cwd dest with
              | Err m => Fail (VerifyPathUri m)
              | Ok dest => Done (UpdateChange unified_diff (Some dest) new_contents)
              end
          end
      end
  end.

Fixpoint verify_hunks (effective_cwd : Path) (mode : ApplyPatchFileUpdateMode) (hs : list Hunk)
    (changes : list (Path * ApplyPatchFileChange Path)) (fs : FS)
  : outcome VerifyError (list (Path * ApplyPatchFileChange Path)) :=
  match hs with
  | [] => Done changes
  | h :: r =>
      match path_join effective_cwd (resolved_hunk_path h) with
      | Err m => Fail (VerifyPathUri m)
      | Ok path =>
          if bool_decide (path ∈ changes.*1) then
            Fail (VerifyParseError (InvalidPatchError
                    (lit "multiple operations target " ++ native_path_string path)))
          else
            change ← verify_hunk effective_cwd path mode h fs;
            verify_hunks effective_cwd mode r (changes ++ [(path, change)]) fs
      end
  end.

Definition try_verify_apply_patch_args (args : ApplyPatchArgs) (cwd : Path)
    (mode : ApplyPatchFileUpdateMode) (fs : FS) : outcome VerifyError (ApplyPatchAction Path) :=
  match match workdir args with Some dir => path_join cwd dir | None => Ok cwd end with
  | Err m => Fail (VerifyPathUri m)
  | Ok effective_cwd =>
      changes ← verify_hunks effective_cwd mode (hunks args) [] fs;
      Done (mkAction changes mode (patch args) effective_cwd)
  end.

Definition verify_apply_patch_args_with_mode (args : ApplyPatchArgs) (cwd : Path)
    (mode : ApplyPatchFileUpdateMode) (fs : FS) : outcome unit (MaybeApplyPatchVerified Path) :=
  match try_verify_apply_patch_args args cwd mode fs with
  | Done action => Done (VerifiedBody action)
  | Fail err => Done (CorrectnessError err)
  | Panic => Panic
  end.

Definition maybe_parse_apply_patch_verified_with_mode (argv : list rstr) (cwd : Path)
    (mode : ApplyPatchFileUpdateMode) (fs : FS) : outcome unit (MaybeApplyPatchVerified Path) :=
  let raw_body := match argv with [body] => is_ok (parse_patch body) | _ => false end in
  let raw_script :=
    is_some_and (parse_shell_script argv (path_convention cwd))
      (fun '(_, script) => is_ok (parse_patch script)) in
  if raw_body || raw_script then Done (CorrectnessError ImplicitInvocation)
  else match maybe_parse_apply_patch argv cwd with
       | Body args => verify_apply_patch_args_with_mode args cwd mode fs
       | ShellParseError e => Done (VerifiedShellParseError e)
       | PatchParseError e => Done (CorrectnessError (VerifyParseError e))
       | NotApplyPatch => Done VerifiedNotApplyPatch
       end.
End invocation.

(** ** The verified changes and the application *)

Section agreement.
Context {FS Path : Type} `{!EqDecision Path} `{!ExecutorFileSystem FS Path} `{!PathUriOps Path}.
Context (render_diff : rstr -> rstr -> rstr).
Implicit Types (cwd p : Path) (fs : FS) (s : apply_state FS Path).

(** What a verified change announces for the contents of the files. *)
Definition verified_effect (m : contents_map Path) (pc : Path * ApplyPatchFileChange Path)
  : contents_map Path :=
  match pc.2 with
  | AddChange content => upd pc.1 (Some content) m
  | DeleteChange _ => upd pc.1 None m
  | UpdateChange _ None new => upd pc.1 (Some new) m
  | UpdateChange _ (Some dest) new => upd pc.1 None (upd dest (Some new) m)
  end.

Definition change_dest (c : ApplyPatchFileChange Path) : option Path :=
  match c with UpdateChange _ dest _ => dest | _ => None end.

(** No file is moved onto the target of a later operation. *)
Fixpoint moves_clear (changes : list (Path * ApplyPatchFileChange Path)) : bool :=
  match changes with
  | [] => true
  | (_, c) :: r =>
      negb (is_some_and (change_dest c) (fun dest => bool_decide (dest ∈ r.*1))) && moves_clear r
  end.

Lemma verify_hunks_spec cwd mode hs acc fs changes :
  verify_hunks render_diff cwd mode hs acc fs = Done changes ->
  exists new, changes = acc ++ new /\ NoDup new.*1 /\ (forall p, p ∈ new.*1 -> p ∉ acc.*1)
    /\ Forall2 (fun h pc => path_join cwd (resolved_hunk_path h) = Ok pc.1
                            /\ verify_hunk render_diff cwd pc.1 mode h fs = Done pc.2) hs new.
Proof.
  revert acc. induction hs as [|h hs IH]; intros acc; simpl.
  { intros [= <-]. exists []. rewrite app_nil_r. split_and!; [done|constructor| |constructor].
    by intros p ?%elem_of_nil. }
  destruct (path_join cwd (resolved_hunk_path h)) as [path|e] eqn:Ep; [|done].
  case_bool_decide as Hin; [done|].
  destruct (verify_hunk render_diff cwd path mode h fs) as [c| |] eqn:Ev; simpl; [|done|done].
  intros (new & -> & Hnd & Hdis & Hf)%IH. exists ((path, c) :: new).
  rewrite <- app_assoc. split_and!; [done| | |by constructor].
  - apply NoDup_cons. split; [|done]. intros Hp. apply (Hdis path Hp).
    rewrite fmap_app. apply elem_of_app. right. by apply list_elem_of_singleton.
  - intros p [->|Hp]%elem_of_cons; [done|]. intros Ha. apply (Hdis p Hp).
    rewrite fmap_app. apply elem_of_app. by left.
Qed.

Lemma same_view_derive p chunks mode fs fs0 old new :
  view fs p = view fs0 p -> derive_new_contents_from_chunks p chunks mode fs0 = Done (old, new) ->
  derive_new_contents_from_chunks p chunks mode fs = Done (old, new).
Proof.
  unfold view, derive_new_contents_from_chunks.
  destruct (read_file_text p fs0); [|done]. by destruct (read_file_text p fs) as [c|]; intros [= <-].
Qed.

(** A hunk that was applied exactly did what its verification announced. *)
Lemma step_effect `{!FileSystemLaws FS Path} cwd mode h p c fs0 s u s' :
  path_join cwd (resolved_hunk_path h) = Ok p ->
  verify_hunk render_diff cwd p mode h fs0 = Done c -> view (st_fs s) p = view fs0 p ->
  apply_hunk cwd mode h s = (Done u, s') -> exact (st_delta s') = true ->
  same_contents (view (st_fs s')) (verified_effect (view (st_fs s)) (p, c)).
Proof.
  intros Hp Hv Hview Ha He.
  destruct (apply_hunk_exact _ _ _ _ _ _ Ha He) as (_ & cs & Hcs & [Hr _]).
  assert (forall ch, changes (st_delta s') = changes (st_delta s) ++ [ch] ->
    same_contents (view (st_fs s')) (replay_change (view (st_fs s)) ch)) as Hone.
  { intros ch Hch. rewrite Hch in Hcs. apply app_inv_head in Hcs as <-. exact Hr. }
  unfold apply_hunk in Ha. rewrite Hp in Ha. destruct h as [path contents|path|path mv chunks].
  - injection Hv as <-. unfold apply_add in Ha.
    destruct (read_optional_file_text_for_delta _ _ _) as [o b].
    destruct (write_file_with_missing_parent_retry _ _ _) as [[?|?] fs']; [|done].
    injection Ha as _ <-. exact (Hone _ eq_refl).
  - unfold verify_hunk in Hv. destruct (read_file_text p fs0) as [content|e] eqn:Er; [|done].
    injection Hv as <-. unfold apply_delete in Ha. fold (view (st_fs s) p) in Ha.
    assert (view (st_fs s) p = Some content) as Hs by (rewrite Hview; unfold view; by rewrite Er).
    rewrite Hs in Ha. destruct (ensure_not_directory _ _); [|done].
    destruct (remove p (st_fs s)) as [[?|?] fs']; [|done].
    injection Ha as _ <-. exact (Hone _ eq_refl).
  - unfold verify_hunk in Hv.
    destruct (derive_new_contents_from_chunks p chunks mode fs0) as [[old new]| |] eqn:Ed; [|done|done].
    unfold apply_update in Ha. cbn [st_fs] in Ha.
    rewrite (same_view_derive _ _ _ _ _ _ _ Hview Ed) in Ha. destruct mv as [dest|].
    + destruct (path_join cwd dest) as [dest_uri|] eqn:Ej; [|done]. injection Hv as <-.
      unfold apply_move in Ha. cbn [st_fs st_delta] in Ha.
      destruct (read_optional_file_text_for_delta _ _ _) as [o b].
      destruct (write_file_with_missing_parent_retry _ _ _) as [[?|?] fs1]; [|done].
      destruct (ensure_not_directory _ _); [|done].
      destruct (remove p fs1) as [[?|?] fs2]; [|done].
      injection Ha as _ <-. exact (Hone _ eq_refl).
    + injection Hv as <-. cbn [st_fs st_delta] in Ha.
      destruct (with_context _ _ _) as [[?|?] fs']; [|done].
      injection Ha as _ <-. exact (Hone _ eq_refl).
Qed.

Lemma verified_effect_other m p c q :
  q <> p -> change_dest c <> Some q -> verified_effect m (p, c) q = m q.
Proof.
  intros Hp Hd. unfold verified_effect, upd. cbn [fst snd].
  destruct c as [| |? [dest|] ?]; simpl in *; repeat case_decide; congruence.
Qed.

Lemma verified_effect_proper m m' pc q :
  same_contents m m' -> verified_effect m pc q = verified_effect m' pc q.
Proof.
  intros Hm. unfold verified_effect, upd.
  destruct (pc.2) as [| |? [dest|] ?]; repeat case_decide; auto.
Qed.

Lemma fold_effects_proper l m m' :
  same_contents m m' -> same_contents (foldl verified_effect m l) (foldl verified_effect m' l).
Proof.
  revert m m'. induction l as [|pc l IH]; intros m m' Hm; simpl; [done|].
  apply IH. intros q. by apply verified_effect_proper.
Qed.

Lemma loop_effects `{!FileSystemLaws FS Path} cwd mode fs0 hs new a s a' s' :
  Forall2 (fun h pc => path_join cwd (resolved_hunk_path h) = Ok pc.1
                       /\ verify_hunk render_diff cwd pc.1 mode h fs0 = Done pc.2) hs new ->
  NoDup new.*1 -> moves_clear new = true ->
  (forall p, p ∈ new.*1 -> view (st_fs s) p = view fs0 p) ->
  apply_hunk_loop cwd mode hs a s = (Done a', s') -> exact (st_delta s') = true ->
  same_contents (view (st_fs s')) (foldl verified_effect (view (st_fs s)) new).
Proof.
  intros Hf. revert a s. induction Hf as [|h [p c] hs new [Hp Hv] Hf IH]; intros a s Hnd Hm Hview Ha He.
  { simpl in Ha. injection Ha as _ <-. by intros q. }
  simpl in Hp, Hv, Ha. destruct (apply_hunk cwd mode h s) as [[u| |] s1] eqn:Eh; [|done|done].
  apply NoDup_cons in Hnd as [Hpn Hnd]. apply andb_true_iff in Hm as [Hd Hm].
  assert (exact (st_delta s1) = true) as He1.
  { by destruct (apply_hunk_loop_exact _ _ _ _ _ _ _ Ha He). }
  assert (same_contents (view (st_fs s1)) (verified_effect (view (st_fs s)) (p, c))) as Hs1.
  { eapply step_effect; try done. apply Hview. by left. }
  assert (Hrest : forall q, q ∈ new.*1 -> view (st_fs s1) q = view fs0 q).
  { intros q Hq. rewrite (Hs1 q), verified_effect_other.
    - apply Hview. by right.
    - by intros ->.
    - intros Hdq. rewrite Hdq in Hd. simpl in Hd. by rewrite bool_decide_true in Hd. }
  pose proof (IH _ s1 Hnd Hm Hrest Ha He) as Hfin. intros q. rewrite (Hfin q). simpl.
  by apply fold_effects_proper.
Qed.
End agreement.

(** ** Example data *)
Module Examples.
Definition no_diff (old new : rstr) : rstr := [].

Definition two_files : memory_fs :=
  mkMemory {[ lit "/w/a.txt" := lit "x" ++ [c_lf]; lit "/w/b.txt" := lit "y" ++ [c_lf] ]}
    {[ lit "/w" ]}.

Definition safe_hunks : list Hunk :=
  [UpdateFile (lit "a.txt") (Some (lit "c.txt")) [mkChunk None [lit "x"] [lit "x2"] [] false];
   UpdateFile (lit "b.txt") None [mkChunk None [] [lit "z"] [] false];
   AddFile (lit "d.txt") (lit "new")].

(** [a.txt] is moved onto [b.txt], which the next operation updates. *)
Definition clashing_hunks : list Hunk :=
  [UpdateFile (lit "a.txt") (Some (lit "b.txt")) [mkChunk None [lit "x"] [lit "x2"] [] false];
   UpdateFile (lit "b.txt") None [mkChunk None [] [lit "z"] [] false]].

Definition verified (hs : list Hunk) : list (rstr * ApplyPatchFileChange rstr) :=
  match verify_hunks no_diff (lit "/w") NormalizeToLf hs [] two_files with
  | Done changes => changes | _ => [] end.

Definition applied (hs : list Hunk) : outcome apply_error AffectedPaths * apply_state memory_fs rstr :=
  apply_hunks_to_files hs default_options (lit "/w") (mkApply two_files empty_delta).
End Examples.

(** ** Theorems *)

(** C2: The changes that verification computes before anything is written are
    what the application does: when the hunks of a verified patch are applied
    to the filesystem it was verified against and the delta stays exact, the
    final contents are the initial ones with the verified changes made,
    provided no file is moved onto the target of a later operation. *)
Theorem verified_changes_are_applied {FS Path} `{!EqDecision Path} `{!ExecutorFileSystem FS Path}
    `{!PathUriOps Path} `{!FileSystemLaws FS Path} render_diff args (cwd : Path) mode (fs : FS)
    action affected s :
  try_verify_apply_patch_args render_diff args cwd mode fs = Done action ->
  moves_clear (action_changes action) = true ->
  apply_hunks_to_files (hunks args) (mkOptions mode) (action_cwd action) (mkApply fs empty_delta)
    = (Done affected, s) ->
  exact (st_delta s) = true ->
  NoDup (action_changes action).*1
  /\ same_contents (view (st_fs s)) (foldl verified_effect (view fs) (action_changes action)).
Proof.
  unfold try_verify_apply_patch_args, apply_hunks_to_files. intros Hv Hm Ha He.
  destruct (match workdir args with Some dir => _ | None => _ end) as [ecwd|]; [|done].
  destruct (verify_hunks render_diff ecwd mode (hunks args) [] fs) as [chs| |] eqn:Ev; [|done|done].
  injection Hv as <-. cbn [action_changes action_cwd] in *.
  destruct (verify_hunks_spec _ _ _ _ _ _ _ Ev) as (new & -> & Hnd & _ & Hf).
  simpl in *. split; [done|]. destruct (is_empty (hunks args)); [done|].
  by eapply (loop_effects render_diff ecwd mode fs (hunks args) new _ (mkApply fs empty_delta)).
Qed.

Lemma verified_changes_are_applied_witness :
  view (st_fs (Examples.applied Examples.safe_hunks).2) (lit "/w/b.txt")
    = foldl verified_effect (view Examples.two_files) (Examples.verified Examples.safe_hunks)
        (lit "/w/b.txt")
  /\ length (Examples.verified Examples.safe_hunks) = 3.
Proof.
  split; [|vm_compute; reflexivity].
  destruct (verified_changes_are_applied Examples.no_diff (mkArgs [] Examples.safe_hunks None None)
    (lit "/w") NormalizeToLf Examples.two_files
    (mkAction (Examples.verified Examples.safe_hunks) NormalizeToLf [] (lit "/w"))
    (affected_by Examples.safe_hunks) (Examples.applied Examples.safe_hunks).2) as [_ H].
  - vm_compute. reflexivity.
  - vm_compute. reflexivity.
  - vm_compute. reflexivity.
  - vm_compute. reflexivity.
  - exact (H (lit "/w/b.txt")).
Defined.

(** Verification looks for operations on the same path but not for moves
    onto one: a patch that moves [a.txt] onto [b.txt] and then updates [b.txt]
    is verified with a change of [b.txt] computed from its old contents, and
    applied it yields something else, with an exact delta. *)
Theorem move_onto_target_defeats_verification :
  exists changes affected s,
    verify_hunks Examples.no_diff (lit "/w") NormalizeToLf Examples.clashing_hunks []
      Examples.two_files = Done changes
    /\ Examples.applied Examples.clashing_hunks = (Done affected, s)
    /\ exact (st_delta s) = true
    /\ foldl verified_effect (view Examples.two_files) changes (lit "/w/b.txt")
       = Some (join [c_lf] [lit "y"; lit "z"; []])
    /\ view (st_fs s) (lit "/w/b.txt") = Some (join [c_lf] [lit "x2"; lit "z"; []]).
Proof.
  exists (Examples.verified Examples.clashing_hunks),
    (affected_by Examples.clashing_hunks), (Examples.applied Examples.clashing_hunks).2.
  vm_compute. repeat split.
Qed.

(** Every command line has an answer: recognising and verifying a patch
    never panics, and a text that is a patch without a call of the tool is
    reported as such and never verified as a change. *)
Theorem verification_is_total {FS Path} `{!EqDecision Path} `{!ExecutorFileSystem FS Path}
    `{!PathUriOps Path} conv query render_diff argv (cwd : Path) mode (fs : FS) :
  exists answer,
    maybe_parse_apply_patch_verified_with_mode conv query render_diff argv cwd mode fs = Done answer
    /\ (forall body, argv = [body] -> is_ok (parse_patch body) = true ->
          answer = CorrectnessError ImplicitInvocation).
Proof.
  unfold maybe_parse_apply_patch_verified_with_mode.
  destruct (_ || is_some_and _ _) eqn:E.
  { eexists. split; [done|]. done. }
  apply orb_false_iff in E as [E1 _].
  assert (forall body, argv = [body] -> is_ok (parse_patch body) = true -> False) as Hraw.
  { intros body -> Hb. by rewrite Hb in E1. }
  assert (forall args, maybe_parse_apply_patch conv query argv cwd = Body args ->
    Forall hunk_wf (hunks args)) as Hwf.
  { intros args Hargs. unfold maybe_parse_apply_patch in Hargs.
    assert (forall a b, maybe_parse_shell_form conv query a b = Body args -> Forall hunk_wf (hunks args))
      as Hsh.
    { intros a b. unfold maybe_parse_shell_form.
      destruct (parse_shell_script _ _) as [[sh script]|]; [|done].
      destruct (extract_apply_patch_from_shell query sh script) as [[body wd]|e]; [|by destruct e].
      destruct (parse_patch body) as [src|] eqn:Ep; [|done]. intros [= <-].
      by apply parse_patch_text_hunks in Ep as [_ ?]. }
    destruct argv as [|cmd [|body [|]]]; try by eapply Hsh.
    case_bool_decide; [|by eapply Hsh]. destruct (parse_patch body) as [src|] eqn:Ep; [|done].
    injection Hargs as <-. by apply parse_patch_text_hunks in Ep as [_ ?]. }
  destruct (maybe_parse_apply_patch conv query argv cwd) as [args|e|e|];
    try (eexists; split; [done|]; intros; exfalso; by eapply Hraw).
  assert (verify_apply_patch_args_with_mode render_diff args cwd mode fs <> Panic) as Hnp.
  { unfold verify_apply_patch_args_with_mode, try_verify_apply_patch_args.
    destruct (match workdir args with Some dir => _ | None => _ end) as [ecwd|]; [|done].
    specialize (Hwf args eq_refl).
    assert (forall acc, verify_hunks render_diff ecwd mode (hunks args) acc fs <> Panic) as H.
    { induction Hwf as [|h hs Hh Hhs IH]; intros acc; simpl; [done|].
      destruct (path_join ecwd _); [|done]. case_bool_decide; [done|].
      assert (verify_hunk render_diff ecwd a mode h fs <> Panic) as Hv.
      { destruct h as [| |? mv chunks]; simpl; [done|by destruct (read_file_text a fs)|].
        unfold derive_new_contents_from_chunks. destruct (read_file_text a fs); [|done].
        pose proof (derive_no_panic (native_path_string a) a0 chunks mode Hh).
        destruct (derive_new_contents _ _ _ _); [|done|done].
        destruct mv; [|done]. by destruct (path_join ecwd _). }
      destruct (verify_hunk render_diff ecwd a mode h fs); simpl; [apply IH|done|done]. }
    specialize (H []). destruct (verify_hunks _ _ _ _ _ _); done. }
  destruct (verify_apply_patch_args_with_mode render_diff args cwd mode fs) as [ans|u|] eqn:Ea;
    [|by unfold verify_apply_patch_args_with_mode in Ea; case_match|done].
  exists ans. split; [done|]. intros; exfalso. by eapply Hraw.
Qed.
