(* ===== verification/ExecRule.v ===== *)
(** * ExecRule: [codex-rs/execpolicy/src/{decision,executable_name,error,rule}.rs]

    Decisions, prefix patterns, rule matches, network rules and the
    normalisation of their hosts.  [PrefixRule] is the only implementation of
    the [Rule] trait, so a [RuleRef] is a [PrefixRule].  Executable names are
    those of the Unix build. *)

From stdpp Require Import base list gmap strings.
From S2P Require Import Prelude AbsolutePath.

Open Scope rust_scope.

(** ** Errors *)

Record TextPosition := mkPosition { line : nat; column : nat }.
Record TextRange := mkRange { range_start : TextPosition; range_end : TextPosition }.
Record ErrorLocation := mkLocation { loc_path : rstr; loc_range : TextRange }.

Inductive Error :=
| InvalidDecision (raw : rstr)
| InvalidPattern (message : rstr)
| InvalidExample (message : rstr)
| InvalidRule (message : rstr)
| ExampleDidNotMatch (rules examples : list rstr) (location : option ErrorLocation)
| ExampleDidMatch (rule example : rstr) (location : option ErrorLocation)
| Starlark (message : rstr) (span : option ErrorLocation).

Definition with_location (e : Error) (l : ErrorLocation) : Error :=
  match e with
  | ExampleDidNotMatch rules examples None => ExampleDidNotMatch rules examples (Some l)
  | ExampleDidMatch rule example None => ExampleDidMatch rule example (Some l)
  | other => other
  end.

Definition location (e : Error) : option ErrorLocation :=
  match e with
  | ExampleDidNotMatch _ _ l | ExampleDidMatch _ _ l => l
  | Starlark _ span => span
  | _ => None
  end.

(** ** Decisions *)

Inductive Decision := Allow | Prompt | Forbidden.

#[export] Instance decision_eq_dec : EqDecision Decision.
Proof. solve_decision. Defined.

(** The derived [Ord]. *)
Definition severity (d : Decision) : nat :=
  match d with Allow => 0 | Prompt => 1 | Forbidden => 2 end.

Definition decision_max (a b : Decision) : Decision :=
  if severity a <=? severity b then b else a.

Definition decision_parse (raw : rstr) : result Error Decision :=
  if raw == lit "allow" then Ok Allow
  else if raw == lit "prompt" then Ok Prompt
  else if raw == lit "forbidden" then Ok Forbidden
  else Err (InvalidDecision raw).

(** ** Executable names *)

Definition executable_lookup_key (raw : rstr) : rstr := raw.

Definition executable_path_lookup_key (path : AbsolutePathBuf) : option rstr :=
  executable_lookup_key <$> file_name path.

(** ** Patterns *)

Inductive PatternToken := Single (expected : rstr) | Alts (alternatives : list rstr).

#[export] Instance pattern_token_eq_dec : EqDecision PatternToken.
Proof. solve_decision. Defined.

Definition token_matches (t : PatternToken) (token : rstr) : bool :=
  match t with
  | Single expected => expected == token
  | Alts alternatives => existsb (fun alt => alt == token) alternatives
  end.

Definition alternatives (t : PatternToken) : list rstr :=
  match t with Single expected => [expected] | Alts alternatives => alternatives end.

Record PrefixPattern := mkPattern { first : rstr; rest : list PatternToken }.

#[export] Instance prefix_pattern_eq_dec : EqDecision PrefixPattern.
Proof. solve_decision. Defined.

Fixpoint rest_matches (rest : list PatternToken) (cmd : list rstr) : bool :=
  match rest, cmd with
  | t :: rest', c :: cmd' => token_matches t c && rest_matches rest' cmd'
  | _, _ => true
  end.

Definition matches_prefix (p : PrefixPattern) (cmd : list rstr) : option (list rstr) :=
  let pattern_length := length (rest p) + 1 in
  if (length cmd <? pattern_length)
     || negb (is_some_and (head cmd) (fun c => c == first p)) then None
  else if rest_matches (rest p) (take (pattern_length - 1) (drop 1 cmd))
  then Some (take pattern_length cmd)
  else None.

(** ** Rules and their matches *)

Inductive RuleMatch :=
| PrefixRuleMatch (matched_prefix : list rstr) (decision : Decision)
    (resolved_program : option AbsolutePathBuf) (justification : option rstr)
| HeuristicsRuleMatch (command : list rstr) (decision : Decision).

Definition match_decision (m : RuleMatch) : Decision :=
  match m with
  | PrefixRuleMatch _ decision _ _ => decision
  | HeuristicsRuleMatch _ decision => decision
  end.

Definition with_resolved_program (m : RuleMatch) (program : AbsolutePathBuf) : RuleMatch :=
  match m with
  | PrefixRuleMatch matched_prefix decision _ justification =>
      PrefixRuleMatch matched_prefix decision (Some program) justification
  | other => other
  end.

Record PrefixRule := mkRule {
  pattern : PrefixPattern;
  decision : Decision;
  justification : option rstr
}.

Definition RuleRef : Type := PrefixRule.

Definition program (r : RuleRef) : rstr := first (pattern r).

Definition rule_matches (r : RuleRef) (cmd : list rstr) : option RuleMatch :=
  match matches_prefix (pattern r) cmd with
  | Some matched_prefix =>
      Some (PrefixRuleMatch matched_prefix (decision r) None (justification r))
  | None => None
  end.

(** ** Network rules *)

Inductive NetworkRuleProtocol := Http | Https | Socks5Tcp | Socks5Udp.

#[export] Instance protocol_eq_dec : EqDecision NetworkRuleProtocol.
Proof. solve_decision. Defined.

Definition protocol_parse (raw : rstr) : result Error NetworkRuleProtocol :=
  if raw == lit "http" then Ok Http
  else if (raw == lit "https") || (raw == lit "https_connect") || (raw == lit "http-connect")
  then Ok Https
  else if raw == lit "socks5_tcp" then Ok Socks5Tcp
  else if raw == lit "socks5_udp" then Ok Socks5Udp
  else Err (InvalidRule (lit "network_rule protocol must be one of http, https, socks5_tcp, socks5_udp (got " ++ raw ++ lit ")")).

Definition as_policy_string (p : NetworkRuleProtocol) : rstr :=
  match p with
  | Http => lit "http"
  | Https => lit "https"
  | Socks5Tcp => lit "socks5_tcp"
  | Socks5Udp => lit "socks5_udp"
  end.

Record NetworkRule := mkNetworkRule {
  host : rstr;
  protocol : NetworkRuleProtocol;
  net_decision : Decision;
  net_justification : option rstr
}.


Definition all_digits (s : rstr) : bool := forallb is_ascii_digit s.

(** The port suffix of a bracketed literal: absent or [:digits]. *)
Definition port_ok (rest : rstr) : bool :=
  is_some_and (strip_prefix [c_colon] rest) (fun port => negb (is_empty port) && all_digits port).

Definition host_without_port (raw host : rstr) : result Error rstr :=
  match strip_prefix (lit "[") host with
  | Some stripped =>
      match split_once 93 stripped with
      | None => Err (InvalidRule (lit "network_rule host has an invalid bracketed IPv6 literal"))
      | Some (inside, rest) =>
          if negb (is_empty rest) && negb (port_ok rest)
          then Err (InvalidRule (lit "network_rule host contains an unsupported suffix: " ++ raw))
          else Ok inside
      end
  | None =>
      if count_char c_colon host =? 1 then
        match rsplit_once c_colon host with
        | Some (candidate, port) =>
            if negb (is_empty candidate) && negb (is_empty port) && all_digits port
            then Ok candidate else Ok host
        | None => Ok host
        end
      else Ok host
  end.

Definition normalize_network_rule_host (raw : rstr) : result Error rstr :=
  let host := trim raw in
  if is_empty host then Err (InvalidRule (lit "network_rule host cannot be empty"))
  else if contains_str (lit "://") host || contains_char c_slash host || contains_char 63 host
          || contains_char 35 host
  then Err (InvalidRule (lit "network_rule host must be a hostname or IP literal (without scheme or path)"))
  else
    host ← host_without_port raw host;
    let normalized := to_ascii_lowercase (trim (trim_end_matches c_dot host)) in
    if is_empty normalized then Err (InvalidRule (lit "network_rule host cannot be empty"))
    else if contains_char c_star normalized
    then Err (InvalidRule (lit "network_rule host must be a specific host; wildcards are not allowed"))
    else if existsb is_whitespace normalized
    then Err (InvalidRule (lit "network_rule host cannot contain whitespace"))
    else Ok normalized.

(** ** Prefix matching *)

Lemma rest_matches_spec ts toks :
  length toks = length ts ->
  rest_matches ts toks = true <-> Forall2 (fun t tok => token_matches t tok = true) ts toks.
Proof.
  revert toks. induction ts as [|t ts IH]; intros [|tok toks] Hl; simpl in *; try done.
  rewrite andb_true_iff, IH by lia. rewrite Forall2_cons. done.
Qed.

Lemma matches_prefix_Some p cmd pre :
  matches_prefix p cmd = Some pre <->
  exists toks suffix, cmd = first p :: toks ++ suffix /\ pre = first p :: toks /\
    Forall2 (fun t tok => token_matches t tok = true) (rest p) toks.
Proof.
  unfold matches_prefix. rewrite Nat.add_sub. split.
  - destruct (length cmd <? length (rest p) + 1) eqn:Hl; [done|]. apply Nat.ltb_ge in Hl.
    destruct cmd as [|c cmd]; [simpl in Hl; lia|]. simpl.
    destruct (c == first p) eqn:Hc; [|done]. apply str_eqb_true in Hc as ->. simpl.
    rewrite drop_0. destruct (rest_matches _ _) eqn:Hr; [|done]. intros [= <-].
    simpl in Hl. rewrite Nat.add_1_r. simpl.
    exists (take (length (rest p)) cmd), (drop (length (rest p)) cmd).
    rewrite take_drop. split_and!; [done..|]. apply rest_matches_spec; [|done].
    rewrite length_take. lia.
  - intros (toks & suffix & -> & -> & H). pose proof (Forall2_length _ _ _ H) as Hlen.
    simpl. rewrite str_eqb_refl, length_app, <- Hlen.
    rewrite (proj2 (Nat.ltb_ge _ _)) by lia. simpl. rewrite drop_0, Hlen, take_app_length.
    rewrite (proj2 (rest_matches_spec _ _ (eq_sym Hlen)) H), Nat.add_1_r. simpl.
    by rewrite take_app_length.
Qed.

Lemma token_matches_alternatives t tok : token_matches t tok = true <-> tok ∈ alternatives t.
Proof.
  destruct t as [e|alts]; simpl.
  - rewrite str_eqb_true, list_elem_of_singleton. naive_solver.
  - rewrite existsb_exists. split.
    + intros (x & Hx & ->%str_eqb_true). by apply list_elem_of_In.
    + intros H%list_elem_of_In. exists tok. by rewrite str_eqb_refl.
Qed.

(** ** Normalised hosts *)

Lemma host_without_port_subset raw h h' : host_without_port raw h = Ok h' -> h' ⊆ h.
Proof.
  unfold host_without_port. destruct (strip_prefix (lit "[") h) as [st|] eqn:Hp.
  - apply strip_prefix_Some in Hp as ->. destruct (split_once 93 st) as [[i r]|] eqn:Hs; [|done].
    destruct (_ && _); [done|]. intros [= <-]. apply split_once_subset in Hs as [Hi _].
    intros x Hx. apply elem_of_app. right. auto.
  - destruct (_ =? 1); [|by intros [= <-]].
    unfold rsplit_once. destruct (split_once c_colon (reverse h)) as [[a b]|] eqn:Hs;
      [|by intros [= <-]].
    apply split_once_subset in Hs as [_ Hb].
    destruct (_ && _); intros [= <-]; [|done].
    intros x Hx. rewrite elem_of_reverse in Hx. apply Hb in Hx. by rewrite elem_of_reverse in Hx.
Qed.

(** ** Properties *)

(** A prefix pattern matches a command exactly when the command starts
    with the pattern's program followed by one token per pattern position,
    each among that position's alternatives; the reported prefix is that part
    of the command. *)
Theorem prefix_match_iff p cmd pre :
  matches_prefix p cmd = Some pre <->
  exists toks suffix, cmd = first p :: toks ++ suffix /\ pre = first p :: toks /\
    Forall2 (fun t tok => tok ∈ alternatives t) (rest p) toks.
Proof.
  rewrite matches_prefix_Some. split; intros (toks & suffix & Hc & Hp & H);
    exists toks, suffix; (split_and!; [done..|]);
    (eapply Forall2_impl; [exact H|]); intros t tok; by rewrite token_matches_alternatives.
Qed.

(** An accepted network host is not empty and holds no white space, no
    wildcard, no slash, question mark or hash, and no upper-case ASCII
    letter. *)
Theorem network_host_normalised raw h :
  normalize_network_rule_host raw = Ok h ->
  h <> [] /\
  Forall (fun c => is_whitespace c = false /\ c <> c_star /\ c <> c_slash /\ c <> 63%N /\ c <> 35%N
                   /\ ~ (65 <= c <= 90)%N) h.
Proof.
  unfold normalize_network_rule_host.
  destruct (is_empty (trim raw)); [done|].
  destruct (_ || _) eqn:Hbad; [done|]. rewrite !orb_false_iff, !contains_char_false in Hbad.
  destruct Hbad as (((_ & Hsl) & Hq) & Hh).
  destruct (host_without_port raw (trim raw)) as [h0|] eqn:Hp; simpl; [|done].
  apply host_without_port_subset in Hp. set (n := to_ascii_lowercase _).
  destruct (is_empty n) eqn:He; [done|]. apply is_empty_false in He.
  destruct (contains_char c_star n) eqn:Hs; [done|]. apply contains_char_false in Hs.
  destruct (existsb is_whitespace n) eqn:Hw; [done|]. intros [= <-]. split; [done|].
  rewrite Forall_forall. intros c Hc. split_and!.
  - apply not_true_iff_false. intros Ht. apply not_true_iff_false in Hw. apply Hw.
    apply existsb_exists. exists c. by rewrite <- list_elem_of_In.
  - by intros ->.
  - intros ->. apply to_ascii_lowercase_elem in Hc as [[Hc|?] _]; [|unfold c_slash in *; lia].
    by apply trim_subset, drop_while_end_subset, Hp in Hc.
  - intros ->. apply to_ascii_lowercase_elem in Hc as [[Hc|?] _]; [|lia].
    by apply trim_subset, drop_while_end_subset, Hp in Hc.
  - intros ->. apply to_ascii_lowercase_elem in Hc as [[Hc|?] _]; [|lia].
    by apply trim_subset, drop_while_end_subset, Hp in Hc.
  - by apply to_ascii_lowercase_elem in Hc as [_ ?].
Qed.

Lemma network_host_normalised_witness :
  lit "api.example.com" <> [] /\
  Forall (fun c => is_whitespace c = false /\ c <> c_star /\ c <> c_slash /\ c <> 63%N /\ c <> 35%N
                   /\ ~ (65 <= c <= 90)%N) (lit "api.example.com").
Proof.
  apply (network_host_normalised (lit " API.example.com.:443 ")). vm_compute. reflexivity.
Defined.
