(* ===== verification/ExecPolicy.v ===== *)
(** * ExecPolicy: [codex-rs/execpolicy/src/policy.rs], and the example
    validation of [rule.rs]

    The policy: prefix rules by program, network rules in order, and the
    allowed paths of host executables.  [MultiMap] is a finite map to the list
    of values of a key in insertion order; iterating over it visits the keys
    in an unspecified order, here that of [map_to_list]. *)

From stdpp Require Import base list sorting gmap strings.
From S2P Require Import Prelude AbsolutePath ExecRule.

Open Scope rust_scope.

(** ** Lexicographic order of strings and of token lists *)

Section lex.
Context {A : Type} (cmp : A -> A -> comparison).

Fixpoint lex_compare (a b : list A) : comparison :=
  match a, b with
  | [], [] => Eq
  | [], _ :: _ => Lt
  | _ :: _, [] => Gt
  | x :: a', y :: b' => match cmp x y with Eq => lex_compare a' b' | c => c end
  end.
End lex.

Definition str_compare : rstr -> rstr -> comparison := lex_compare N.compare.
Definition tokens_compare : list rstr -> list rstr -> comparison := lex_compare str_compare.

(** [Ord::cmp(a, b) != Greater], the order [sort] uses. *)
Definition cmp_le {A} (cmp : A -> A -> comparison) (a b : A) : Prop := cmp a b <> Gt.

#[export] Instance cmp_le_dec {A} (cmp : A -> A -> comparison) : RelDecision (cmp_le cmp).
Proof.
  intros a b. unfold cmp_le. destruct (cmp a b); [left|left|right]; congruence.
Defined.

(** [Vec::dedup] *)
Fixpoint dedup {A} `{EqDecision A} (l : list A) : list A :=
  match l with
  | x :: (y :: _) as r => if decide (x = y) then dedup r else x :: dedup r
  | l => l
  end.

(** ** The policy *)

Abbreviation MultiMap V := (gmap rstr (list V)).

Definition multi_insert {V} (k : rstr) (v : V) (m : MultiMap V) : MultiMap V :=
  <[k := default [] (m !! k) ++ [v]]> m.

(** The entries of [iter_all], values of a key together. *)
Definition multi_values {V} (m : MultiMap V) : list V := map_to_list m ≫= snd.

Record MatchOptions := mkMatchOptions { resolve_host_executables : bool }.

Definition default_match_options : MatchOptions := mkMatchOptions false.

Record Policy := mkPolicy {
  rules_by_program : MultiMap RuleRef;
  network_rules : list NetworkRule;
  host_executables_by_name : gmap rstr (list AbsolutePathBuf)
}.

Definition empty_policy : Policy := mkPolicy ∅ [] ∅.

Definition render_pattern_token (t : PatternToken) : rstr :=
  match t with
  | Single value => value
  | Alts alternatives => lit "[" ++ join (lit "|") alternatives ++ lit "]"
  end.

Definition rendered_prefix (r : RuleRef) : list rstr :=
  first (pattern r) :: (render_pattern_token <$> rest (pattern r)).

Definition get_allowed_prefixes (p : Policy) : list (list rstr) :=
  dedup (merge_sort (cmp_le tokens_compare)
    (rendered_prefix <$> filter (fun r => decision r = Allow) (multi_values (rules_by_program p)))).

Definition add_prefix_rule (prefix : list rstr) (d : Decision) (p : Policy)
  : result Error Policy :=
  match prefix with
  | [] => Err (InvalidPattern (lit "prefix cannot be empty"))
  | first_token :: rest =>
      let rule := mkRule (mkPattern first_token (Single <$> rest)) d None in
      Ok (mkPolicy (multi_insert first_token rule (rules_by_program p)) (network_rules p)
            (host_executables_by_name p))
  end.

Definition blank_justification (j : option rstr) : bool :=
  is_some_and j (fun raw => is_empty (trim raw)).

Definition add_network_rule (host : rstr) (protocol : NetworkRuleProtocol) (d : Decision)
    (justification : option rstr) (p : Policy) : result Error Policy :=
  host ← normalize_network_rule_host host;
  if blank_justification justification
  then Err (InvalidRule (lit "justification cannot be empty"))
  else Ok (mkPolicy (rules_by_program p)
             (network_rules p ++ [mkNetworkRule host protocol d justification])
             (host_executables_by_name p)).

Definition set_host_executable_paths (name : rstr) (paths : list AbsolutePathBuf) (p : Policy)
  : Policy :=
  mkPolicy (rules_by_program p) (network_rules p) (<[name := paths]> (host_executables_by_name p)).

Definition insert_all {V} (k : rstr) (vs : list V) (m : MultiMap V) : MultiMap V :=
  foldl (fun m v => multi_insert k v m) m vs.

Definition merge_rules (a b : MultiMap RuleRef) : MultiMap RuleRef :=
  foldl (fun m kv => insert_all kv.1 kv.2 m) a (map_to_list b).

Definition merge_overlay (self overlay : Policy) : Policy :=
  mkPolicy (merge_rules (rules_by_program self) (rules_by_program overlay))
    (network_rules self ++ network_rules overlay)
    (host_executables_by_name overlay ∪ host_executables_by_name self).

(** ** Network domains *)

Definition retain_not (host : rstr) (entries : list rstr) : list rstr :=
  filter (fun entry => entry <> host) entries.

Definition upsert_domain (entries : list rstr) (host : rstr) : list rstr :=
  retain_not host entries ++ [host].

Definition compile_step (ad : list rstr * list rstr) (rule : NetworkRule)
  : list rstr * list rstr :=
  let '(allowed, denied) := ad in
  match net_decision rule with
  | Allow => (upsert_domain allowed (host rule), retain_not (host rule) denied)
  | Forbidden => (retain_not (host rule) allowed, upsert_domain denied (host rule))
  | Prompt => (allowed, denied)
  end.

Definition compiled_network_domains (p : Policy) : list rstr * list rstr :=
  foldl compile_step ([], []) (network_rules p).

(** ** Matching a command *)

Definition match_exact_rules (p : Policy) (cmd : list rstr) : option (list RuleMatch) :=
  match head cmd with
  | None => None
  | Some first =>
      Some (match rules_by_program p !! first with
            | Some rules => omap (fun rule => rule_matches rule cmd) rules
            | None => []
            end)
  end.

Definition match_host_executable_rules (env : path_env) (p : Policy) (cmd : list rstr)
  : list RuleMatch :=
  match head cmd with
  | None => []
  | Some first =>
      match from_absolute_path env first with
      | None => []
      | Some program =>
          match executable_path_lookup_key program with
          | None => []
          | Some basename =>
              match rules_by_program p !! basename with
              | None => []
              | Some rules =>
                  if is_some_and (host_executables_by_name p !! basename)
                       (fun paths => negb (existsb (fun path => bool_decide (path = program)) paths))
                  then []
                  else
                    let basename_command := basename :: drop 1 cmd in
                    (fun m => with_resolved_program m program) <$>
                      omap (fun rule => rule_matches rule basename_command) rules
              end
          end
      end
  end.

(** [Option::filter(|m| !m.is_empty())] *)
Definition non_empty {A} (o : option (list A)) : option (list A) :=
  match o with Some (x :: l) => Some (x :: l) | _ => None end.

Definition or_else_fn {A} (o : option A) (f : unit -> option A) : option A :=
  match o with Some a => Some a | None => f tt end.

Definition matches_for_command_with_options (env : path_env) (p : Policy) (cmd : list rstr)
    (heuristics_fallback : option (list rstr -> Decision)) (options : MatchOptions)
  : list RuleMatch :=
  let matched_rules :=
    default []
      (or_else_fn (non_empty (match_exact_rules p cmd))
         (fun _ => non_empty (if resolve_host_executables options
                              then Some (match_host_executable_rules env p cmd) else None))) in
  match matched_rules, heuristics_fallback with
  | [], Some f => [HeuristicsRuleMatch cmd (f cmd)]
  | _, _ => matched_rules
  end.

Definition matches_for_command (env : path_env) (p : Policy) (cmd : list rstr)
    (heuristics_fallback : option (list rstr -> Decision)) : list RuleMatch :=
  matches_for_command_with_options env p cmd heuristics_fallback default_match_options.

(** ** Evaluation *)

Record Evaluation := mkEvaluation { eval_decision : Decision; matched_rules : list RuleMatch }.

Definition is_match (e : Evaluation) : bool :=
  existsb (fun m => match m with HeuristicsRuleMatch _ _ => false | _ => true end)
    (matched_rules e).

(** [Iterator::max] *)
Fixpoint max_decision (ds : list Decision) : option Decision :=
  match ds with
  | [] => None
  | d :: rest => Some (match max_decision rest with Some m => decision_max d m | None => d end)
  end.

Definition from_matches (ms : list RuleMatch) : outcome unit Evaluation :=
  match max_decision (match_decision <$> ms) with
  | Some d => Done (mkEvaluation d ms)
  | None => Panic
  end.

Definition check_with_options (env : path_env) (p : Policy) (cmd : list rstr)
    (heuristics_fallback : list rstr -> Decision) (options : MatchOptions)
  : outcome unit Evaluation :=
  from_matches (matches_for_command_with_options env p cmd (Some heuristics_fallback) options).

Definition check (env : path_env) (p : Policy) (cmd : list rstr)
    (heuristics_fallback : list rstr -> Decision) : outcome unit Evaluation :=
  check_with_options env p cmd heuristics_fallback default_match_options.

Definition check_multiple_with_options (env : path_env) (p : Policy) (commands : list (list rstr))
    (heuristics_fallback : list rstr -> Decision) (options : MatchOptions)
  : outcome unit Evaluation :=
  from_matches (command ← commands;
                matches_for_command_with_options env p command (Some heuristics_fallback) options).

Definition check_multiple (env : path_env) (p : Policy) (commands : list (list rstr))
    (heuristics_fallback : list rstr -> Decision) : outcome unit Evaluation :=
  check_multiple_with_options env p commands heuristics_fallback default_match_options.

(** ** [RequirementsExecPolicy] and example validation

    [debug_rule] and [debug_match] are the derived [Debug] texts, [try_join]
    is [shlex::try_join]. *)
Section rendering.
Context (debug_rule : RuleRef -> rstr) (debug_match : RuleMatch -> rstr)
  (try_join : list rstr -> option rstr).

Definition fingerprint (p : Policy) : list rstr :=
  merge_sort (cmp_le str_compare)
    (kv ← map_to_list (rules_by_program p);
     (fun rule => kv.1 ++ lit ":" ++ debug_rule rule) <$> kv.2).

Definition requirements_eqb (a b : Policy) : bool := bool_decide (fingerprint a = fingerprint b).

Definition validation_options : MatchOptions := mkMatchOptions true.

Definition render_example (example : list rstr) : rstr :=
  default (lit "unable to render example") (try_join example).

Definition validate_match_examples (env : path_env) (policy : Policy) (rules : list RuleRef)
    (matches : list (list rstr)) : result Error unit :=
  let unmatched :=
    filter (fun example =>
      is_empty (matches_for_command_with_options env policy example None validation_options)
      = true) matches in
  if is_empty unmatched then Ok tt
  else Err (ExampleDidNotMatch (debug_rule <$> rules) (render_example <$> unmatched) None).

Fixpoint validate_not_match_examples (env : path_env) (policy : Policy)
    (not_matches : list (list rstr)) : result Error unit :=
  match not_matches with
  | [] => Ok tt
  | example :: rest =>
      match matches_for_command_with_options env policy example None validation_options with
      | rule :: _ => Err (ExampleDidMatch (debug_match rule) (render_example example) None)
      | [] => validate_not_match_examples env policy rest
      end
  end.
End rendering.

(** ** The orders are total, so sorting is canonical *)

(** A lawful [Ord::cmp]. *)
Class LawfulCompare {A : Type} (cmp : A -> A -> comparison) := {
  compare_eq x y : cmp x y = Eq <-> x = y;
  compare_flip x y : cmp y x = CompOpp (cmp x y);
  compare_lt_trans x y z : cmp x y = Lt -> cmp y z = Lt -> cmp x z = Lt
}.

#[export] Instance N_lawful : LawfulCompare N.compare.
Proof.
  split; [apply N.compare_eq_iff|intros; apply N.compare_antisym|].
  intros x y z. rewrite !N.compare_lt_iff. lia.
Qed.

#[export] Instance lex_lawful {A} (cmp : A -> A -> comparison) `{!LawfulCompare cmp} :
  LawfulCompare (lex_compare cmp).
Proof.
  split.
  - induction x as [|a x IH]; intros [|b y]; simpl; try done.
    destruct (cmp a b) eqn:E.
    + apply compare_eq in E as ->. rewrite IH. split; [by intros ->|by intros [= ->]].
    + split; [done|]. intros [= -> ->]. by rewrite (proj2 (compare_eq b b)) in E.
    + split; [done|]. intros [= -> ->]. by rewrite (proj2 (compare_eq b b)) in E.
  - induction x as [|a x IH]; intros [|b y]; simpl; try done.
    rewrite (compare_flip (cmp := cmp) a b). destruct (cmp a b); simpl; auto.
  - induction x as [|a x IH]; intros [|b y] [|c z]; simpl; try done.
    destruct (cmp a b) eqn:E1; [|destruct (cmp b c) eqn:E2|done].
    + apply compare_eq in E1 as ->. destruct (cmp b c); [eauto|done|done].
    + apply compare_eq in E2 as ->. by rewrite E1.
    + by rewrite (compare_lt_trans _ _ _ E1 E2).
    + done.
Qed.

#[export] Instance cmp_le_total {A} (cmp : A -> A -> comparison) `{!LawfulCompare cmp} :
  Total (cmp_le cmp).
Proof.
  intros x y. unfold cmp_le. rewrite (compare_flip (cmp := cmp) x y).
  destruct (cmp x y); simpl; [left|left|right]; done.
Qed.

#[export] Instance cmp_le_trans {A} (cmp : A -> A -> comparison) `{!LawfulCompare cmp} :
  Transitive (cmp_le cmp).
Proof.
  intros x y z. unfold cmp_le. intros H1 H2 H3.
  destruct (cmp x y) eqn:E1; [|destruct (cmp y z) eqn:E2|done].
  - apply compare_eq in E1 as ->. done.
  - apply compare_eq in E2 as ->. congruence.
  - by rewrite (compare_lt_trans _ _ _ E1 E2) in H3.
  - done.
Qed.

#[export] Instance cmp_le_antisym {A} (cmp : A -> A -> comparison) `{!LawfulCompare cmp} :
  AntiSymm (=) (cmp_le cmp).
Proof.
  intros x y. unfold cmp_le. rewrite (compare_flip (cmp := cmp) x y). intros H1 H2.
  apply compare_eq. by destruct (cmp x y).
Qed.

Lemma dedup_elem {A} `{EqDecision A} (l : list A) x : x ∈ dedup l <-> x ∈ l.
Proof.
  induction l as [|a [|b l] IH]; [done..|]. cbn [dedup].
  destruct (decide (a = b)) as [->|].
  - rewrite IH, !elem_of_cons. tauto.
  - rewrite elem_of_cons, IH, (elem_of_cons _ _ a). done.
Qed.

(** In a sorted list equal elements are neighbours. *)
Lemma dedup_NoDup {A} `{EqDecision A} (cmp : A -> A -> comparison) `{!LawfulCompare cmp} l :
  Sorted (cmp_le cmp) l -> NoDup (dedup l).
Proof.
  intros Hs%Sorted_StronglySorted; [|apply _].
  induction Hs as [|a l Hs IH Ha]; [constructor|].
  destruct l as [|b l]; [by repeat constructor; apply not_elem_of_nil|]. cbn [dedup] in *.
  destruct (decide (a = b)) as [->|Hne]; [done|]. constructor; [|done].
  change (a ∉ dedup (b :: l)). rewrite dedup_elem. intros Hin. apply Hne.
  apply (anti_symm (cmp_le cmp)).
  - by inversion Ha.
  - apply elem_of_cons in Hin as [->|Hin]; [by destruct (total (cmp_le cmp) b b)|].
    inversion Hs as [|? ? _ Hb]; subst. rewrite Forall_forall in Hb. auto.
Qed.

(** ** The most severe decision *)

Lemma decision_max_severity a b :
  severity (decision_max a b) = Nat.max (severity a) (severity b).
Proof. by destruct a, b. Qed.

Lemma decision_max_cases a b : decision_max a b = a \/ decision_max a b = b.
Proof. unfold decision_max. destruct (_ <=? _); auto. Qed.

Lemma severity_inj a b : severity a = severity b -> a = b.
Proof. by destruct a, b. Qed.

Lemma max_decision_None ds : max_decision ds = None <-> ds = [].
Proof. by destruct ds. Qed.

Lemma max_decision_Some ds d :
  max_decision ds = Some d ->
  d ∈ ds /\ forall d', d' ∈ ds -> severity d' <= severity d.
Proof.
  revert d. induction ds as [|x ds IH]; intros d; simpl; [done|]. intros [= <-].
  destruct (max_decision ds) as [m|] eqn:E.
  - destruct (IH m eq_refl) as [Hin Hmax]. split.
    + destruct (decision_max_cases x m) as [->| ->]; [left|right; done].
    + rewrite decision_max_severity. intros d' [->|Hd']%elem_of_cons; [lia|].
      specialize (Hmax d' Hd'). lia.
  - apply max_decision_None in E as ->. split; [left|].
    by intros d' ->%list_elem_of_singleton.
Qed.

Lemma max_decision_app a b :
  max_decision (a ++ b) =
  match max_decision a, max_decision b with
  | Some x, Some y => Some (decision_max x y)
  | Some x, None => Some x
  | None, o => o
  end.
Proof.
  induction a as [|x a IH]; simpl; [done|]. rewrite IH.
  destruct (max_decision a) as [m|], (max_decision b) as [n|]; simpl; try done.
  f_equal. apply severity_inj. rewrite !decision_max_severity. lia.
Qed.

Lemma from_matches_spec ms :
  ms <> [] -> exists d, from_matches ms = Done (mkEvaluation d ms) /\
    (exists m, m ∈ ms /\ match_decision m = d) /\
    forall m, m ∈ ms -> severity (match_decision m) <= severity d.
Proof.
  intros Hne. unfold from_matches.
  destruct (max_decision (match_decision <$> ms)) as [d|] eqn:E.
  2: { apply max_decision_None, fmap_nil_inv in E. done. }
  exists d. split; [done|]. destruct (max_decision_Some _ _ E) as [Hin Hmax]. split.
  - apply list_elem_of_fmap in Hin as (m & -> & Hm). eauto.
  - intros m Hm. apply Hmax, list_elem_of_fmap. eauto.
Qed.

(** ** Matches of a command *)

Lemma matches_fallback_non_empty env p cmd f options :
  matches_for_command_with_options env p cmd (Some f) options <> [].
Proof.
  unfold matches_for_command_with_options. by destruct (default [] _).
Qed.

(** The rules matching exactly, when there are any, are the answer. *)
Lemma matches_exact env p cmd f options ms :
  match_exact_rules p cmd = Some ms -> ms <> [] ->
  matches_for_command_with_options env p cmd f options = ms.
Proof.
  intros Hm Hne. unfold matches_for_command_with_options. rewrite Hm.
  destruct ms; [done|]. done.
Qed.

Lemma matches_not_exact env p cmd f options :
  default [] (match_exact_rules p cmd) = [] ->
  matches_for_command_with_options env p cmd f options =
  match (if resolve_host_executables options then match_host_executable_rules env p cmd else []), f with
  | [], Some f => [HeuristicsRuleMatch cmd (f cmd)]
  | ms, _ => ms
  end.
Proof.
  intros Hm. unfold matches_for_command_with_options.
  destruct (match_exact_rules p cmd) as [ms|]; simpl in Hm; subst;
    destruct (resolve_host_executables options); simpl; try done;
    by destruct (match_host_executable_rules env p cmd).
Qed.

(** ** Multimaps *)

Lemma multi_insert_lookup {V} k (v : V) m k' :
  default [] (multi_insert k v m !! k') =
  default [] (m !! k') ++ (if decide (k = k') then [v] else []).
Proof.
  unfold multi_insert. destruct (decide (k = k')) as [->|Hne].
  - by rewrite lookup_insert_eq.
  - by rewrite lookup_insert_ne, app_nil_r.
Qed.

Lemma insert_all_lookup {V} k (vs : list V) m k' :
  default [] (insert_all k vs m !! k') =
  default [] (m !! k') ++ (if decide (k = k') then vs else []).
Proof.
  revert m. induction vs as [|v vs IH]; intros m.
  { by destruct (decide _); rewrite app_nil_r. }
  change (insert_all k (v :: vs) m) with (insert_all k vs (multi_insert k v m)).
  rewrite IH, multi_insert_lookup, <- app_assoc.
  by destruct (decide (k = k')).
Qed.

Lemma merge_rules_lookup a b k :
  default [] (merge_rules a b !! k) = default [] (a !! k) ++ default [] (b !! k).
Proof.
  unfold merge_rules.
  assert (H : forall l a, NoDup l.*1 -> default [] (foldl (fun m kv => insert_all kv.1 kv.2 m) a l !! k)
    = default [] (a !! k) ++ default [] ((list_to_map l : MultiMap RuleRef) !! k)).
  { clear. induction l as [|[k1 vs] l IH]; intros a Hnd; [by rewrite app_nil_r|].
    cbn [foldl fst snd]. rewrite list_to_map_cons. apply NoDup_cons in Hnd as [Hk1 Hnd]. rewrite IH by done. rewrite insert_all_lookup.
    destruct (decide (k1 = k)) as [->|Hne].
    - rewrite lookup_insert_eq. simpl. rewrite not_elem_of_list_to_map_1 by done.
      by rewrite app_nil_r.
    - by rewrite app_nil_r, lookup_insert_ne. }
  rewrite H by apply NoDup_fst_map_to_list. by rewrite list_to_map_to_list.
Qed.

Lemma match_exact_lookup p first cmd :
  match_exact_rules p (first :: cmd) =
  Some (omap (fun rule => rule_matches rule (first :: cmd))
          (default [] (rules_by_program p !! first))).
Proof. unfold match_exact_rules. simpl. by destruct (rules_by_program p !! first). Qed.

(** ** The verdict on a host *)

(** The last rule on the host that is not a prompt. *)
Definition domain_verdict (rules : list NetworkRule) (h : rstr) : option Decision :=
  last ((fun r => net_decision r) <$>
        filter (fun r => host r = h /\ net_decision r <> Prompt) rules).

Lemma domain_verdict_snoc rules r h :
  domain_verdict (rules ++ [r]) h =
  if decide (host r = h /\ net_decision r <> Prompt) then Some (net_decision r)
  else domain_verdict rules h.
Proof.
  unfold domain_verdict. rewrite filter_app, fmap_app. cbn [filter list_filter].
  destruct (decide _); simpl; [by rewrite last_snoc|by rewrite app_nil_r].
Qed.

Lemma elem_of_retain_not h entries x : x ∈ retain_not h entries <-> x ∈ entries /\ x <> h.
Proof. unfold retain_not. rewrite list_elem_of_filter. tauto. Qed.

Lemma NoDup_retain_not h entries : NoDup entries -> NoDup (retain_not h entries).
Proof. apply NoDup_filter. Qed.

Lemma NoDup_upsert h entries : NoDup entries -> NoDup (upsert_domain entries h).
Proof.
  intros H. unfold upsert_domain. apply NoDup_app. split_and!; [by apply NoDup_retain_not| |].
  - intros x [_ Hx]%elem_of_retain_not ->%list_elem_of_singleton. done.
  - repeat constructor. apply not_elem_of_nil.
Qed.

Lemma elem_of_upsert h entries x : x ∈ upsert_domain entries h <-> x = h \/ (x ∈ entries /\ x <> h).
Proof.
  unfold upsert_domain. rewrite elem_of_app, elem_of_retain_not, list_elem_of_singleton. tauto.
Qed.

Definition compiled_ok (rules : list NetworkRule) (ad : list rstr * list rstr) : Prop :=
  NoDup ad.1 /\ NoDup ad.2 /\
  forall h, (h ∈ ad.1 <-> domain_verdict rules h = Some Allow) /\
            (h ∈ ad.2 <-> domain_verdict rules h = Some Forbidden).

Lemma compile_step_ok rules ad r :
  compiled_ok rules ad -> compiled_ok (rules ++ [r]) (compile_step ad r).
Proof.
  destruct ad as [a d]. intros (Ha & Hd & Hv). simpl in Ha, Hd, Hv. unfold compile_step.
  destruct (net_decision r) eqn:Hr; unfold compiled_ok; cbn [fst snd];
    (split; [|split]; [by auto using NoDup_retain_not, NoDup_upsert..|]);
    intros h; rewrite domain_verdict_snoc, Hr; destruct (Hv h) as [H1 H2];
    cbn [fst snd]; rewrite ?elem_of_upsert, ?elem_of_retain_not, ?H1, ?H2.
  - destruct (decide (host r = h /\ Allow <> Prompt)) as [[<- _]|Hn].
    + split; (split; [intros Hx|intros [= ]]); [done|by left|by destruct Hx].
    + assert (h <> host r) by (intros ->; by apply Hn). tauto.
  - by rewrite decide_False by tauto.
  - destruct (decide (host r = h /\ Forbidden <> Prompt)) as [[<- _]|Hn].
    + split; (split; [intros Hx|intros [= ]]); [by destruct Hx|done|by left].
    + assert (h <> host r) by (intros ->; by apply Hn). tauto.
Qed.

Lemma compiled_domains_ok p : compiled_ok (network_rules p) (compiled_network_domains p).
Proof.
  unfold compiled_network_domains. induction (network_rules p) as [|r rules IH] using rev_ind.
  { split_and!; [constructor..|]. intros h. simpl. split; split; (done || by intros ?%elem_of_nil). }
  rewrite foldl_snoc. by apply compile_step_ok.
Qed.

Lemma rule_matches_unresolved r cmd m :
  rule_matches r cmd = Some m ->
  exists prefix, m = PrefixRuleMatch prefix (decision r) None (justification r).
Proof. unfold rule_matches. destruct (matches_prefix _ _); [|done]. intros [= <-]. eauto. Qed.

(** The matches through the basename of a program that resolves to [path]. *)
Definition basename_matches (p : Policy) (path : AbsolutePathBuf) (name : rstr) (args : list rstr)
  : list RuleMatch :=
  (fun m => with_resolved_program m path) <$>
    omap (fun rule => rule_matches rule (name :: args)) (default [] (rules_by_program p !! name)).

Lemma host_executable_rules_spec env p prog args path name :
  from_absolute_path env prog = Some path -> file_name path = Some name ->
  match_host_executable_rules env p (prog :: args) =
  match host_executables_by_name p !! name with
  | Some paths => if decide (path ∈ paths) then basename_matches p path name args else []
  | None => basename_matches p path name args
  end.
Proof.
  intros Hp Hn. unfold match_host_executable_rules, executable_path_lookup_key, basename_matches.
  simpl. rewrite Hp, Hn. simpl. unfold executable_lookup_key.
  destruct (rules_by_program p !! name) as [rules|]; simpl.
  2: { destruct (_ !! name) as [paths|]; [by destruct (decide _)|done]. }
  rewrite drop_0. destruct (host_executables_by_name p !! name) as [paths|]; simpl; [|done].
  destruct (existsb _ paths) eqn:E; simpl.
  - apply existsb_exists in E as (x & Hx & ->%bool_decide_eq_true).
    by rewrite decide_True by by apply list_elem_of_In.
  - rewrite decide_False; [done|]. intros Hin%list_elem_of_In.
    apply not_true_iff_false in E. apply E, existsb_exists. exists path.
    by rewrite bool_decide_eq_true.
Qed.

Lemma match_exact_merge a b cmd ma mb :
  match_exact_rules a cmd = Some ma -> match_exact_rules b cmd = Some mb ->
  match_exact_rules (merge_overlay a b) cmd = Some (ma ++ mb).
Proof.
  destruct cmd as [|c cmd]; [done|]. rewrite !match_exact_lookup. intros [= <-] [= <-].
  unfold merge_overlay. cbn [rules_by_program]. by rewrite merge_rules_lookup, omap_app.
Qed.

(** ** Properties *)

(** A rule that was added matches every command with its prefix. *)
Lemma added_prefix_rule_matches env p prefix d p' args f options :
  add_prefix_rule prefix d p = Ok p' ->
  PrefixRuleMatch prefix d None None
    ∈ matches_for_command_with_options env p' (prefix ++ args) f options.
Proof.
  destruct prefix as [|c rest]; [done|]. intros [= <-]. set (p' := mkPolicy _ _ _).
  set (r := mkRule (mkPattern c (Single <$> rest)) d None).
  assert (Hmr : rule_matches r (c :: rest ++ args) = Some (PrefixRuleMatch (c :: rest) d None None)).
  { unfold rule_matches. rewrite (proj2 (matches_prefix_Some _ _ (c :: rest))); [done|].
    exists rest, args. split_and!; [done..|]. simpl. clear.
    induction rest; simpl; constructor; [apply str_eqb_refl|done]. }
  pose proof (match_exact_lookup p' c (rest ++ args)) as Hm.
  unfold p' in Hm at 2. cbn [rules_by_program] in Hm.
  rewrite multi_insert_lookup, decide_True, omap_app in Hm by done.
  cbn [omap list_omap] in Hm. unfold r in Hmr. rewrite Hmr in Hm.
  change ((c :: rest) ++ args) with (c :: rest ++ args).
  rewrite (matches_exact _ _ _ _ _ _ Hm); [|by intros [_ ?]%app_nil].
  apply elem_of_app. right. left.
Qed.

(** Checking a command never panics, and the decision is the most severe
    one of the matches it reports, of which there is at least one. *)
Theorem check_decision_is_most_severe env p cmd f options :
  exists d ms, check_with_options env p cmd f options = Done (mkEvaluation d ms) /\
    ms = matches_for_command_with_options env p cmd (Some f) options /\
    (exists m, m ∈ ms /\ match_decision m = d) /\
    forall m, m ∈ ms -> severity (match_decision m) <= severity d.
Proof.
  destruct (from_matches_spec _ (matches_fallback_non_empty env p cmd f options))
    as (d & Hf & Hin & Hmax). by eexists d, _.
Qed.

(** Checking several commands panics exactly when there are none, and
    otherwise the decision is the most severe of the decisions of the
    commands taken one by one. *)
Theorem check_multiple_is_most_severe env p cmds f options :
  (cmds = [] /\ check_multiple_with_options env p cmds f options = Panic) \/
  (exists d ms, check_multiple_with_options env p cmds f options = Done (mkEvaluation d ms) /\
    (exists c ms', c ∈ cmds /\
       check_with_options env p c f options = Done (mkEvaluation d ms')) /\
    forall c, c ∈ cmds -> exists d' ms',
      check_with_options env p c f options = Done (mkEvaluation d' ms') /\
      severity d' <= severity d).
Proof.
  set (matched c := matches_for_command_with_options env p c (Some f) options).
  destruct cmds as [|c0 cmds]; [by left|right]. set (all := c0 :: cmds).
  assert (Hne : all ≫= matched <> []).
  { unfold all. rewrite bind_cons. intros [H _]%app_nil. by apply matches_fallback_non_empty in H. }
  destruct (from_matches_spec _ Hne) as (d & Hf & (m & Hm & Hd) & Hmax).
  exists d, (all ≫= matched). split; [done|].
  assert (Hone : forall c, c ∈ all -> exists d' ms',
    check_with_options env p c f options = Done (mkEvaluation d' ms') /\
    severity d' <= severity d /\ forall m, m ∈ matched c -> severity (match_decision m) <= severity d').
  { intros c Hc. destruct (from_matches_spec _ (matches_fallback_non_empty env p c f options))
      as (d' & Hf' & (m' & Hm' & <-) & Hmax'). exists (match_decision m'), (matched c).
    split; [done|]. split; [|done]. apply Hmax, list_elem_of_bind. eauto. }
  split.
  - apply list_elem_of_bind in Hm as (c & Hm & Hc).
    destruct (Hone c Hc) as (d' & ms' & Hck & Hle & Hge). exists c, ms'. split; [done|].
    assert (d' = d) as ->; [|done]. apply severity_inj. specialize (Hge m Hm). subst d. lia.
  - intros c Hc. destruct (Hone c Hc) as (d' & ms' & Hck & Hle & _). eauto.
Qed.

(** Rules that match the command as written decide it: host-executable
    resolution, the environment and the heuristics play no part, and the
    matches carry no resolved program. *)
Theorem exact_rules_take_precedence env p cmd f options ms :
  match_exact_rules p cmd = Some ms -> ms <> [] ->
  matches_for_command_with_options env p cmd f options = ms /\
  Forall (fun m => exists prefix d j, m = PrefixRuleMatch prefix d None j) ms.
Proof.
  intros Hm Hne. split; [by apply matches_exact|].
  unfold match_exact_rules in Hm. destruct (head cmd); [|done].
  injection Hm as <-. destruct (rules_by_program p !! _); [|by constructor].
  rewrite Forall_forall. intros m (r & Hr & Hm)%list_elem_of_omap.
  destruct (rule_matches_unresolved _ _ _ Hm) as [prefix ->]. eauto.
Qed.

Definition git_rule (d : Decision) : RuleRef :=
  mkRule (mkPattern (lit "git") [Alts [lit "status"; lit "log"]]) d None.

Definition git_policy : Policy :=
  mkPolicy {[ lit "git" := [git_rule Allow; git_rule Prompt] ]} []
    {[ lit "git" := [[RootDir; Normal (lit "bin"); Normal (lit "git")]] ]}.

Definition example_command (prog : rstr) : list rstr := [prog; lit "log"; lit "-1"].

Lemma exact_rules_take_precedence_witness :
  let pre := [lit "git"; lit "log"] in
  matches_for_command_with_options example_env git_policy (example_command (lit "git"))
    (Some (fun _ => Forbidden)) (mkMatchOptions true)
  = [PrefixRuleMatch pre Allow None None; PrefixRuleMatch pre Prompt None None].
Proof.
  intros pre. apply (exact_rules_take_precedence example_env git_policy).
  - vm_compute. reflexivity.
  - discriminate.
Defined.

(** When no rule matches the command as written and host executables are
    resolved, the rules of the program's basename apply exactly when the
    basename has no [host_executable] entry or the resolved path is one of
    its paths; otherwise, and when none of them matches, the heuristics
    decide. *)
Theorem host_executable_gate env p prog args path name f :
  default [] (match_exact_rules p (prog :: args)) = [] ->
  from_absolute_path env prog = Some path -> file_name path = Some name ->
  matches_for_command_with_options env p (prog :: args) (Some f) (mkMatchOptions true) =
  let permitted := match host_executables_by_name p !! name with
                   | Some paths => bool_decide (path ∈ paths)
                   | None => true
                   end in
  match (if permitted then basename_matches p path name args else []) with
  | [] => [HeuristicsRuleMatch (prog :: args) (f (prog :: args))]
  | ms => ms
  end.
Proof.
  intros He Hp Hn. rewrite matches_not_exact by done. cbn [resolve_host_executables].
  rewrite (host_executable_rules_spec _ _ _ _ _ _ Hp Hn). simpl.
  destruct (host_executables_by_name p !! name) as [paths|]; [|done].
  unfold bool_decide. by destruct (decide_rel _ _ _).
Qed.

Lemma host_executable_gate_witness :
  matches_for_command_with_options example_env git_policy (example_command (lit "/opt/git"))
    (Some (fun _ => Forbidden)) (mkMatchOptions true)
  = [HeuristicsRuleMatch (example_command (lit "/opt/git")) Forbidden].
Proof.
  etransitivity; [apply (host_executable_gate example_env git_policy (lit "/opt/git")
    [lit "log"; lit "-1"] [RootDir; Normal (lit "opt"); Normal (lit "git")] (lit "git"))|].
  - vm_compute. reflexivity.
  - vm_compute. reflexivity.
  - reflexivity.
  - vm_compute. reflexivity.
Defined.

(** Merging an overlay appends its matches to those of the base policy, so
    for a command the base policy matches as written the decision can only
    become more severe. *)
Theorem overlay_never_relaxes env a b cmd f options ma mb da :
  match_exact_rules a cmd = Some ma -> match_exact_rules b cmd = Some mb -> ma <> [] ->
  check_with_options env a cmd f options = Done (mkEvaluation da ma) ->
  match_exact_rules (merge_overlay a b) cmd = Some (ma ++ mb) /\
  exists d, check_with_options env (merge_overlay a b) cmd f options
              = Done (mkEvaluation d (ma ++ mb)) /\
            severity da <= severity d.
Proof.
  intros Ha Hb Hne Hc. pose proof (match_exact_merge _ _ _ _ _ Ha Hb) as Hab. split; [done|].
  assert (Hne' : ma ++ mb <> []) by by intros [? _]%app_nil.
  unfold check_with_options in *. rewrite (matches_exact _ _ _ _ _ _ Hab Hne').
  rewrite (matches_exact _ _ _ _ _ _ Ha Hne) in Hc.
  destruct (from_matches_spec _ Hne) as (d1 & H1 & (m & Hm & Hd) & _).
  rewrite H1 in Hc. injection Hc as <-. subst d1.
  destruct (from_matches_spec _ Hne') as (d & -> & _ & Hmax). exists d. split; [done|].
  apply Hmax, elem_of_app. by left.
Qed.

Lemma overlay_never_relaxes_witness :
  let overlay := mkPolicy {[ lit "git" := [git_rule Forbidden] ]} [] ∅ in
  exists d ms, check example_env (merge_overlay git_policy overlay) (example_command (lit "git"))
    (fun _ => Allow) = Done (mkEvaluation d ms) /\ severity Prompt <= severity d.
Proof.
  intros overlay. pose (pre := [lit "git"; lit "log"]).
  destruct (overlay_never_relaxes example_env git_policy overlay (example_command (lit "git"))
    (fun _ => Allow) default_match_options
    [PrefixRuleMatch pre Allow None None; PrefixRuleMatch pre Prompt None None]
    [PrefixRuleMatch pre Forbidden None None] Prompt) as (_ & d & Hd & Hs);
    [vm_compute; reflexivity|vm_compute; reflexivity|discriminate|vm_compute; reflexivity|].
  eexists d, _. split; [exact Hd|exact Hs].
Defined.

(** The compiled network domains hold each host at most once, a host is
    allowed when the last rule on it that is not a prompt allows it, and
    denied when that rule forbids it, so never both. *)
Theorem compiled_domains_last_rule_wins p :
  let '(allowed, denied) := compiled_network_domains p in
  NoDup allowed /\ NoDup denied /\
  forall h, (h ∈ allowed <-> domain_verdict (network_rules p) h = Some Allow) /\
            (h ∈ denied <-> domain_verdict (network_rules p) h = Some Forbidden).
Proof.
  pose proof (compiled_domains_ok p) as H. by destruct (compiled_network_domains p).
Qed.

(** After adding a prefix rule, every command that starts with the prefix
    is decided at least as severely as the rule says, and a command of any
    other program matches the same rules as before. *)
Theorem added_prefix_rule_applies env p prefix d p' :
  add_prefix_rule prefix d p = Ok p' ->
  (forall args f options, exists d' ms,
     check_with_options env p' (prefix ++ args) f options = Done (mkEvaluation d' ms) /\
     severity d <= severity d') /\
  (forall cmd, head cmd <> head prefix -> match_exact_rules p' cmd = match_exact_rules p cmd).
Proof.
  intros Hadd. split.
  - intros args f options.
    pose proof (added_prefix_rule_matches env _ _ _ _ args (Some f) options Hadd) as Hin.
    destruct (from_matches_spec _ (matches_fallback_non_empty env p' (prefix ++ args) f options))
      as (d' & Hf & _ & Hmax). eexists d', _. split; [exact Hf|]. exact (Hmax _ Hin).
  - destruct prefix as [|c rest]; [done|]. injection Hadd as <-.
    intros cmd Hh. unfold match_exact_rules. destruct (head cmd) as [c'|]; [|done].
    cbn [rules_by_program]. unfold multi_insert. rewrite lookup_insert_ne; [done|].
    intros ->. by apply Hh.
Qed.

Lemma added_prefix_rule_applies_witness :
  exists p', add_prefix_rule [lit "rm"; lit "-rf"] Forbidden git_policy = Ok p' /\
  exists d' ms, check example_env p' [lit "rm"; lit "-rf"; lit "/"] (fun _ => Allow)
    = Done (mkEvaluation d' ms) /\ severity Forbidden <= severity d'.
Proof.
  eexists. split; [reflexivity|].
  exact (proj1 (added_prefix_rule_applies example_env git_policy [lit "rm"; lit "-rf"] Forbidden _
    eq_refl) [lit "/"] (fun _ => Allow) default_match_options).
Defined.

(** The allowed prefixes are exactly the rendered patterns of the policy's
    allow rules, each listed once and in order, whatever the iteration order
    of the rule map. *)
Theorem allowed_prefixes_exact p :
  NoDup (get_allowed_prefixes p) /\
  forall x, x ∈ get_allowed_prefixes p <->
    exists k rules r, rules_by_program p !! k = Some rules /\ r ∈ rules /\
      decision r = Allow /\ x = rendered_prefix r.
Proof.
  unfold get_allowed_prefixes. split.
  { apply (dedup_NoDup tokens_compare), Sorted_merge_sort. apply _. }
  intros x. rewrite dedup_elem, (merge_sort_Permutation _ _), list_elem_of_fmap.
  unfold multi_values. split.
  - intros (r & -> & [Hd Hr]%list_elem_of_filter).
    apply list_elem_of_bind in Hr as ([k rules] & Hr & Hk). apply elem_of_map_to_list in Hk.
    by exists k, rules, r.
  - intros (k & rules & r & Hk & Hr & Hd & ->). exists r. split; [done|].
    apply list_elem_of_filter. split; [done|]. apply list_elem_of_bind.
    exists (k, rules). split; [done|]. by apply elem_of_map_to_list.
Qed.

(** A relative program path is resolved too: with host executables
    resolved and no entry for [git], the command [./git ...] in the current
    directory is matched by the rules for [git], and the match names the path
    it resolved to. *)
Theorem relative_program_matches_basename p args f :
  rules_by_program p !! lit "./git" = None -> host_executables_by_name p !! lit "git" = None ->
  matches_for_command_with_options example_env p (lit "./git" :: args) (Some f) (mkMatchOptions true) =
  match basename_matches p [RootDir; Normal (lit "w"); Normal (lit "git")] (lit "git") args with
  | [] => [HeuristicsRuleMatch (lit "./git" :: args) (f (lit "./git" :: args))]
  | ms => ms
  end.
Proof.
  intros Hr Hh. rewrite matches_not_exact; [|by rewrite match_exact_lookup, Hr].
  cbn [resolve_host_executables].
  rewrite (host_executable_rules_spec _ _ _ _ [RootDir; Normal (lit "w"); Normal (lit "git")]
    (lit "git")); [by rewrite Hh|vm_compute; reflexivity|reflexivity].
Qed.

Lemma relative_program_matches_basename_witness :
  matches_for_command_with_options example_env
    (mkPolicy {[ lit "git" := [git_rule Allow] ]} [] ∅)
    (example_command (lit "./git")) (Some (fun _ => Prompt)) (mkMatchOptions true)
  = [PrefixRuleMatch [lit "git"; lit "log"] Allow
       (Some [RootDir; Normal (lit "w"); Normal (lit "git")]) None].
Proof.
  etransitivity; [apply (relative_program_matches_basename
    (mkPolicy {[ lit "git" := [git_rule Allow] ]} [] ∅) [lit "log"; lit "-1"])|].
  - vm_compute. reflexivity.
  - vm_compute. reflexivity.
  - vm_compute. reflexivity.
Defined.
