(* ===== verification/ExecPolicyParser.v ===== *)
(** * ExecPolicyParser: [codex-rs/execpolicy/src/parser.rs], and
    [load_policies] of [execpolicycheck.rs]

    Policy files are Starlark scripts that call three builtins.  The Starlark
    interpreter is a third-party crate; the builtins all return [None] and
    Starlark cannot catch an error, so what a script does to the builder is a
    sequence of builtin calls, cut short by the first one that fails, followed
    by the script's own outcome.  That sequence is the argument
    [run_starlark].  [shlex] and the derived [Debug] texts are arguments
    too. *)

From stdpp Require Import base list gmap strings.
From S2P Require Import Prelude AbsolutePath ExecRule ExecPolicy.

Open Scope rust_scope.

(** ** Starlark values as the builtins see them *)

Inductive Value :=
| VStr (s : rstr)
| VList (items : list Value)
| VOther (type_name : rstr).

Definition unpack_str (v : Value) : option rstr :=
  match v with VStr s => Some s | _ => None end.

Definition get_type (v : Value) : rstr :=
  match v with VStr _ => lit "string" | VList _ => lit "list" | VOther t => t end.

(** ** The builder *)

Record PendingExampleValidation := mkValidation {
  v_rules : list RuleRef;
  v_matches : list (list rstr);
  v_not_matches : list (list rstr);
  v_location : option ErrorLocation
}.

Record PolicyBuilder := mkBuilder {
  b_rules : MultiMap RuleRef;
  b_network_rules : list NetworkRule;
  b_host_executables : gmap rstr (list AbsolutePathBuf);
  b_pending : list PendingExampleValidation
}.

Definition new_builder : PolicyBuilder := mkBuilder ∅ [] ∅ [].

Definition add_rule (rule : RuleRef) (b : PolicyBuilder) : PolicyBuilder :=
  mkBuilder (multi_insert (program rule) rule (b_rules b)) (b_network_rules b)
    (b_host_executables b) (b_pending b).

Definition builder_add_network_rule (rule : NetworkRule) (b : PolicyBuilder) : PolicyBuilder :=
  mkBuilder (b_rules b) (b_network_rules b ++ [rule]) (b_host_executables b) (b_pending b).

Definition add_host_executable (name : rstr) (paths : list AbsolutePathBuf) (b : PolicyBuilder)
  : PolicyBuilder :=
  mkBuilder (b_rules b) (b_network_rules b) (<[name := paths]> (b_host_executables b)) (b_pending b).

Definition add_pending_example_validation (v : PendingExampleValidation) (b : PolicyBuilder)
  : PolicyBuilder :=
  mkBuilder (b_rules b) (b_network_rules b) (b_host_executables b) (b_pending b ++ [v]).

Definition build (b : PolicyBuilder) : Policy :=
  mkPolicy (b_rules b) (b_network_rules b) (b_host_executables b).

Definition attach_validation_location (e : Error) (l : option ErrorLocation) : Error :=
  match l with Some l => with_location e l | None => e end.

(** ** Parsing of arguments *)

Definition parse_string_list (err : Value -> Error) (items : list Value)
  : result Error (list rstr) :=
  mapM (fun value => ok_or (unpack_str value) (err value)) items.

Definition parse_pattern_token (value : Value) : result Error PatternToken :=
  match value with
  | VStr s => Ok (Single s)
  | VList items =>
      tokens ← parse_string_list (fun v => InvalidPattern
        (lit "pattern alternative must be a string (got " ++ get_type v ++ lit ")")) items;
      match tokens with
      | [] => Err (InvalidPattern (lit "pattern alternatives cannot be empty"))
      | [single] => Ok (Single single)
      | _ => Ok (Alts tokens)
      end
  | VOther _ =>
      Err (InvalidPattern
        (lit "pattern element must be a string or list of strings (got " ++ get_type value ++ lit ")"))
  end.

Definition parse_pattern (pattern : list Value) : result Error (list PatternToken) :=
  tokens ← mapM parse_pattern_token pattern;
  match tokens with
  | [] => Err (InvalidPattern (lit "pattern cannot be empty"))
  | _ => Ok tokens
  end.

Definition parse_network_rule_decision (raw : rstr) : result Error Decision :=
  if raw == lit "deny" then Ok Forbidden else decision_parse raw.

Definition validate_host_executable_name (name : rstr) : result Error unit :=
  if is_empty name then Err (InvalidRule (lit "host_executable name cannot be empty"))
  else if negb (length (components name) =? 1)
          || negb (bool_decide (file_name (components name) = Some name))
  then Err (InvalidRule
         (lit "host_executable name must be a bare executable name (got " ++ name ++ lit ")"))
  else Ok tt.

(** The common treatment of [justification] arguments. *)
Definition parse_justification (j : option rstr) : result Error (option rstr) :=
  if blank_justification j then Err (InvalidRule (lit "justification cannot be empty")) else Ok j.

Section parser.
Context (split : rstr -> option (list rstr)) (try_join : list rstr -> option rstr).
Context (debug_rule : RuleRef -> rstr) (debug_match : RuleMatch -> rstr).
Context (current_dir_error : rstr) (env : path_env).

Definition parse_string_example (raw : rstr) : result Error (list rstr) :=
  tokens ← ok_or (split raw) (InvalidExample (lit "example string has invalid shell syntax"));
  match tokens with
  | [] => Err (InvalidExample (lit "example cannot be an empty string"))
  | _ => Ok tokens
  end.

Definition parse_list_example (items : list Value) : result Error (list rstr) :=
  tokens ← parse_string_list (fun v => InvalidExample
    (lit "example tokens must be strings (got " ++ get_type v ++ lit ")")) items;
  match tokens with
  | [] => Err (InvalidExample (lit "example cannot be an empty list"))
  | _ => Ok tokens
  end.

Definition parse_example (value : Value) : result Error (list rstr) :=
  match value with
  | VStr raw => parse_string_example raw
  | VList items => parse_list_example items
  | VOther _ =>
      Err (InvalidExample
        (lit "example must be a string or list of strings (got " ++ get_type value ++ lit ")"))
  end.

Definition parse_examples (examples : list Value) : result Error (list (list rstr)) :=
  mapM parse_example examples.

(** [opt.map(parse_examples).transpose()?.unwrap_or_default()] *)
Definition parse_optional_examples (o : option (list Value)) : result Error (list (list rstr)) :=
  match o with Some l => parse_examples l | None => Ok [] end.

Definition parse_literal_absolute_path (raw : rstr) : result Error AbsolutePathBuf :=
  if negb (is_absolute raw)
  then Err (InvalidRule (lit "host_executable paths must be absolute (got " ++ raw ++ lit ")"))
  else ok_or (from_absolute_path env raw)
         (InvalidRule (lit "invalid absolute path `" ++ raw ++ lit "`: " ++ current_dir_error)).

(** ** The builtins *)

Definition rules_for (first_token : PatternToken) (rest : list PatternToken) (d : Decision)
    (j : option rstr) : list RuleRef :=
  (fun head => mkRule (mkPattern head rest) d j) <$> alternatives first_token.

Definition prefix_rule (pattern : list Value) (decision : option rstr)
    (match_ not_match : option (list Value)) (justification : option rstr)
    (location : option ErrorLocation) (b : PolicyBuilder) : result Error PolicyBuilder :=
  decision ← (match decision with Some raw => decision_parse raw | None => Ok Allow end);
  justification ← parse_justification justification;
  pattern_tokens ← parse_pattern pattern;
  matches ← parse_optional_examples match_;
  not_matches ← parse_optional_examples not_match;
  match pattern_tokens with
  | [] => Err (InvalidPattern (lit "pattern cannot be empty"))
  | first_token :: rest =>
      let rules := rules_for first_token rest decision justification in
      let b := add_pending_example_validation
                 (mkValidation rules matches not_matches location) b in
      Ok (foldl (fun b rule => add_rule rule b) b rules)
  end.

Definition network_rule (host protocol decision : rstr) (justification : option rstr)
    (b : PolicyBuilder) : result Error PolicyBuilder :=
  protocol ← protocol_parse protocol;
  decision ← parse_network_rule_decision decision;
  justification ← parse_justification justification;
  host ← normalize_network_rule_host host;
  Ok (builder_add_network_rule (mkNetworkRule host protocol decision justification) b).

Definition basename_error (raw name : rstr) : Error :=
  InvalidRule (lit "host_executable path `" ++ raw ++ lit "` must have basename `" ++ name ++ lit "`").

Fixpoint parse_host_paths (name : rstr) (paths : list Value) (parsed : list AbsolutePathBuf)
  : result Error (list AbsolutePathBuf) :=
  match paths with
  | [] => Ok parsed
  | value :: rest =>
      raw ← ok_or (unpack_str value)
        (InvalidRule (lit "host_executable paths must be strings (got " ++ get_type value ++ lit ")"));
      path ← parse_literal_absolute_path raw;
      path_name ← ok_or (executable_path_lookup_key path) (basename_error raw name);
      if negb (path_name == executable_lookup_key name) then Err (basename_error raw name)
      else parse_host_paths name rest
             (if existsb (fun existing => bool_decide (existing = path)) parsed
              then parsed else parsed ++ [path])
  end.

Definition host_executable (name : rstr) (paths : list Value) (b : PolicyBuilder)
  : result Error PolicyBuilder :=
  _ ← validate_host_executable_name name;
  parsed_paths ← parse_host_paths name paths [];
  Ok (add_host_executable (executable_lookup_key name) parsed_paths b).

(** ** Validation of the examples *)

Definition validation_policy (b : PolicyBuilder) (v : PendingExampleValidation) : Policy :=
  mkPolicy (foldl (fun m rule => multi_insert (program rule) rule m) ∅ (v_rules v)) []
    (b_host_executables b).

Definition validate_pending (b : PolicyBuilder) (v : PendingExampleValidation)
  : result Error unit :=
  map_err (fun e => attach_validation_location e (v_location v))
    (_ ← validate_not_match_examples debug_match try_join env (validation_policy b v)
           (v_not_matches v);
     validate_match_examples debug_rule try_join env (validation_policy b v) (v_rules v)
       (v_matches v)).

(** [&self.pending_example_validations[start..]] *)
Fixpoint validate_all (b : PolicyBuilder) (vs : list PendingExampleValidation)
  : result Error unit :=
  match vs with
  | [] => Ok tt
  | v :: rest => _ ← validate_pending b v; validate_all b rest
  end.

Definition validate_pending_examples_from (start : nat) (b : PolicyBuilder)
  : result Error unit :=
  validate_all b (drop start (b_pending b)).

(** ** Running a script *)

Inductive builtin_call :=
| CallPrefixRule (pattern : list Value) (decision : option rstr)
    (match_ not_match : option (list Value)) (justification : option rstr)
    (location : option ErrorLocation)
| CallNetworkRule (host protocol decision : rstr) (justification : option rstr)
| CallHostExecutable (name : rstr) (paths : list Value).

Definition run_call (c : builtin_call) (b : PolicyBuilder) : result Error PolicyBuilder :=
  match c with
  | CallPrefixRule pattern decision match_ not_match justification location =>
      prefix_rule pattern decision match_ not_match justification location b
  | CallNetworkRule host protocol decision justification =>
      network_rule host protocol decision justification b
  | CallHostExecutable name paths => host_executable name paths b
  end.

(** The calls of a script, and the error it ends with on its own, if any;
    [Err] when it does not parse.  A failing builtin surfaces as a Starlark
    error. *)
Context (run_starlark : rstr -> rstr -> result Error (list builtin_call * option Error)).
Context (starlark_error : Error -> Error).

Fixpoint run_calls (calls : list builtin_call) (b : PolicyBuilder)
  : result Error unit * PolicyBuilder :=
  match calls with
  | [] => (Ok tt, b)
  | c :: rest =>
      match run_call c b with
      | Ok b' => run_calls rest b'
      | Err e => (Err (starlark_error e), b)
      end
  end.

Definition parse (policy_identifier policy_file_contents : rstr) (b : PolicyBuilder)
  : result Error unit * PolicyBuilder :=
  let pending_validation_count := length (b_pending b) in
  match run_starlark policy_identifier policy_file_contents with
  | Err e => (Err e, b)
  | Ok (calls, ending) =>
      match run_calls calls b with
      | (Err e, b') => (Err e, b')
      | (Ok _, b') =>
          match ending with
          | Some e => (Err e, b')
          | None => (validate_pending_examples_from pending_validation_count b', b')
          end
      end
  end.

(** [load_policies]: the files are read and parsed in order; a file that
    cannot be read or parsed ends the loading. *)
Fixpoint load_files (files : list (rstr * result Error rstr)) (b : PolicyBuilder)
  : result Error PolicyBuilder :=
  match files with
  | [] => Ok b
  | (policy_identifier, contents) :: rest =>
      policy_file_contents ← contents;
      match parse policy_identifier policy_file_contents b with
      | (Ok _, b') => load_files rest b'
      | (Err e, _) => Err e
      end
  end.

Definition load_policies (files : list (rstr * result Error rstr)) : result Error Policy :=
  build <$> load_files files new_builder.
End parser.

(** ** What a loaded policy satisfies *)

Definition paths_wf (name : rstr) (paths : list AbsolutePathBuf) : Prop :=
  NoDup paths /\ Forall (fun path => file_name path = Some name /\ normal_absolute path) paths.

Definition policy_wf (p : Policy) : Prop :=
  map_Forall (fun k rules => Forall (fun r => program r = k) rules) (rules_by_program p) /\
  Forall (fun r => exists raw, normalize_network_rule_host raw = Ok (host r)) (network_rules p) /\
  map_Forall paths_wf (host_executables_by_name p).

Lemma multi_insert_wf (r : RuleRef) (m : MultiMap RuleRef) :
  map_Forall (fun k rules => Forall (fun r => program r = k) rules) m ->
  map_Forall (fun k rules => Forall (fun r => program r = k) rules)
    (multi_insert (program r) r m).
Proof.
  intros Hm. apply map_Forall_insert_2; [|done]. apply Forall_app. split; [|by constructor].
  destruct (m !! program r) as [rules|] eqn:E; simpl; [|constructor]. by apply (Hm _ _ E).
Qed.

Lemma result_bind_Ok {E A B} (r : result E A) (f : A -> result E B) b :
  (r ≫= f) = Ok b -> exists a, r = Ok a /\ f a = Ok b.
Proof. destruct r as [a|e]; simpl; [eauto|done]. Qed.

Lemma ok_or_Ok {E A} (o : option A) (e : E) a : ok_or o e = Ok a -> o = Some a.
Proof. destruct o; simpl; congruence. Qed.

Lemma parse_literal_path_normal cde env raw path :
  parse_literal_absolute_path cde env raw = Ok path -> normal_absolute path.
Proof.
  unfold parse_literal_absolute_path. destruct (is_absolute raw) eqn:E; simpl; [|done].
  intros Hf%ok_or_Ok. revert Hf. unfold from_absolute_path, absolutize.
  rewrite expand_home_absolute, E by done. intros [= <-]. by apply normalize_absolute.
Qed.

Lemma parse_host_paths_wf cde env name paths parsed out :
  paths_wf name parsed -> parse_host_paths cde env name paths parsed = Ok out ->
  paths_wf name out.
Proof.
  revert parsed. induction paths as [|v paths IH]; intros parsed Hp; simpl; [by intros [= <-]|].
  intros (raw & _ & (path & Hpath & (n & Hn%ok_or_Ok & Hf)%result_bind_Ok)%result_bind_Ok)%result_bind_Ok.
  destruct (n == executable_lookup_key name) eqn:En; [|done]. apply str_eqb_true in En as ->.
  apply (IH _) in Hf; [done|]. destruct (existsb _ parsed) eqn:Ee; [done|].
  destruct Hp as [Hnd Hall]. split.
  - apply NoDup_app. split_and!; [done| |by repeat constructor; apply not_elem_of_nil].
    intros x Hx ->%list_elem_of_singleton. apply not_true_iff_false in Ee. apply Ee.
    apply existsb_exists. exists path. rewrite bool_decide_eq_true. by rewrite <- list_elem_of_In.
  - apply Forall_app. split; [done|]. constructor; [|constructor].
    split; [|by eapply parse_literal_path_normal].
    unfold executable_path_lookup_key in Hn. by destruct (file_name path); simplify_eq/=.
Qed.

Section wf.
Context (split : rstr -> option (list rstr)) (cde : rstr) (env : path_env).

Lemma add_rules_builder rules b :
  let b' := foldl (fun b rule => add_rule rule b) b rules in
  b_network_rules b' = b_network_rules b /\ b_host_executables b' = b_host_executables b /\
  b_pending b' = b_pending b /\
  (policy_wf (build b) -> policy_wf (build b')).
Proof.
  revert b. induction rules as [|r rules IH]; intros b; simpl; [done|].
  destruct (IH (add_rule r b)) as (-> & -> & -> & Hwf). split_and!; [done..|].
  intros (H1 & H2 & H3). apply Hwf. split_and!; [|done..]. by apply multi_insert_wf.
Qed.

(** Everything a successful [prefix_rule] call did. *)
Lemma prefix_rule_Ok pat d m nm j loc b b' :
  prefix_rule split pat d m nm j loc b = Ok b' ->
  exists dec tok toks ms nms,
    (match d with Some raw => decision_parse raw | None => Ok Allow end) = Ok dec /\
    parse_pattern pat = Ok (tok :: toks) /\
    parse_optional_examples split m = Ok ms /\ parse_optional_examples split nm = Ok nms /\
    b' = foldl (fun b rule => add_rule rule b)
           (add_pending_example_validation (mkValidation (rules_for tok toks dec j) ms nms loc) b)
           (rules_for tok toks dec j).
Proof.
  unfold prefix_rule. intros (dec & Hd & H)%result_bind_Ok.
  apply result_bind_Ok in H as (j' & Hj & H). unfold parse_justification in Hj.
  destruct (blank_justification j); [done|]. injection Hj as <-.
  apply result_bind_Ok in H as (pts & Hp & H). apply result_bind_Ok in H as (ms & Hm & H).
  apply result_bind_Ok in H as (nms & Hn & H). destruct pts as [|tok toks]; [done|].
  injection H as <-. by exists dec, tok, toks, ms, nms.
Qed.

Lemma run_call_wf c b b' :
  policy_wf (build b) -> run_call split cde env c b = Ok b' -> policy_wf (build b').
Proof.
  intros Hb. destruct c as [pat d m nm j loc|h pr d j|name paths]; simpl.
  - intros (dec & tok & toks & ms & nms & _ & _ & _ & _ & ->)%prefix_rule_Ok.
    by apply add_rules_builder.
  - unfold network_rule. intros (p & _ & H)%result_bind_Ok.
    apply result_bind_Ok in H as (dec & _ & H). apply result_bind_Ok in H as (j' & _ & H).
    apply result_bind_Ok in H as (h' & Hh & H). injection H as <-.
    destruct Hb as (H1 & H2 & H3). split_and!; [done| |done].
    apply Forall_app. split; [done|]. constructor; [|constructor]. by exists h.
  - unfold host_executable. intros ([] & _ & H)%result_bind_Ok.
    apply result_bind_Ok in H as (ps & Hp & H). injection H as <-.
    destruct Hb as (H1 & H2 & H3). split_and!; [done..|].
    apply map_Forall_insert_2; [|done].
    eapply parse_host_paths_wf; [|exact Hp]. split; constructor.
Qed.

(** Each call leaves the recorded validations and appends its own. *)
Lemma run_call_pending c b b' :
  run_call split cde env c b = Ok b' ->
  exists vs, b_pending b' = b_pending b ++ vs /\
    forall pat d m nm j loc, c = CallPrefixRule pat d m nm j loc ->
    exists v, vs = [v] /\ parse_optional_examples split m = Ok (v_matches v) /\
      parse_optional_examples split nm = Ok (v_not_matches v) /\
      exists dec tok toks, parse_pattern pat = Ok (tok :: toks) /\
        v_rules v = rules_for tok toks dec j.
Proof.
  destruct c as [pat d m nm j loc|h pr d j|name paths]; simpl.
  - intros (dec & tok & toks & ms & nms & _ & Hp & Hm & Hn & ->)%prefix_rule_Ok.
    destruct (add_rules_builder (rules_for tok toks dec j) (add_pending_example_validation
      (mkValidation (rules_for tok toks dec j) ms nms loc) b)) as (_ & _ & -> & _).
    eexists; split; [done|]. intros ? ? ? ? ? ? [= <- <- <- <- <- <-].
    eexists; split; [done|]. split_and!; [done..|]. by exists dec, tok, toks.
  - unfold network_rule. intros (p & _ & H)%result_bind_Ok.
    apply result_bind_Ok in H as (dec & _ & H). apply result_bind_Ok in H as (j' & _ & H).
    apply result_bind_Ok in H as (h' & Hh & H). injection H as <-.
    exists []. by rewrite app_nil_r.
  - unfold host_executable. intros ([] & _ & H)%result_bind_Ok.
    apply result_bind_Ok in H as (ps & Hp & H). injection H as <-.
    exists []. by rewrite app_nil_r.
Qed.

Lemma run_calls_wf se calls b :
  policy_wf (build b) -> policy_wf (build (run_calls split cde env se calls b).2).
Proof.
  revert b. induction calls as [|c calls IH]; intros b Hb; simpl; [done|].
  destruct (run_call split cde env c b) as [b'|e] eqn:E; [|done].
  apply IH. by eapply run_call_wf.
Qed.

Lemma run_calls_pending se calls b b' :
  run_calls split cde env se calls b = (Ok tt, b') ->
  exists vs, b_pending b' = b_pending b ++ vs /\
    forall pat d m nm j loc, CallPrefixRule pat d m nm j loc ∈ calls ->
    exists v, v ∈ vs /\ parse_optional_examples split m = Ok (v_matches v) /\
      parse_optional_examples split nm = Ok (v_not_matches v) /\
      exists dec tok toks, parse_pattern pat = Ok (tok :: toks) /\
        v_rules v = rules_for tok toks dec j.
Proof.
  revert b. induction calls as [|c calls IH]; intros b; simpl.
  { intros [= <-]. exists []. rewrite app_nil_r. split; [done|].
    intros pat d m nm j loc Hin. by apply elem_of_nil in Hin. }
  destruct (run_call split cde env c b) as [b1|e] eqn:E; [|done]. intros Hr.
  destruct (IH _ Hr) as (vs & Hvs & Hall).
  apply run_call_pending in E as (vs1 & Hvs1 & Hc).
  exists (vs1 ++ vs). split; [by rewrite Hvs, Hvs1, app_assoc|].
  intros pat d m nm j loc [<-|Hin]%elem_of_cons.
  - destruct (Hc _ _ _ _ _ _ eq_refl) as (v & -> & Hv). exists v. split; [left|done].
  - destruct (Hall _ _ _ _ _ _ Hin) as (v & Hv & Hrest). exists v. split; [|done].
    apply elem_of_app. by right.
Qed.
End wf.

(** ** Validated examples *)

Definition example_matches (env : path_env) (p : Policy) (example : list rstr) : bool :=
  negb (is_empty (matches_for_command_with_options env p example None validation_options)).

(** The examples of a call agree with its rules. *)
Definition validation_holds (env : path_env) (b : PolicyBuilder) (v : PendingExampleValidation)
  : Prop :=
  Forall (fun ex => example_matches env (validation_policy b v) ex = true) (v_matches v) /\
  Forall (fun ex => example_matches env (validation_policy b v) ex = false) (v_not_matches v).

Lemma validate_match_examples_Ok dr tj env p rules ms :
  validate_match_examples dr tj env p rules ms = Ok tt ->
  Forall (fun ex => example_matches env p ex = true) ms.
Proof.
  unfold validate_match_examples, example_matches.
  destruct (is_empty (filter _ ms)) eqn:E; [|done]. intros _. apply is_empty_true in E.
  rewrite Forall_forall. intros ex Hex. apply negb_true_iff, not_true_iff_false. intros He.
  apply (elem_of_nil ex). rewrite <- E. by apply list_elem_of_filter.
Qed.

Lemma validate_not_match_examples_Ok dm tj env p nms :
  validate_not_match_examples dm tj env p nms = Ok tt ->
  Forall (fun ex => example_matches env p ex = false) nms.
Proof.
  unfold example_matches. induction nms as [|ex nms IH]; simpl; [constructor|].
  destruct (matches_for_command_with_options _ _ _ _ _) eqn:E; [|done].
  intros H. constructor; [by rewrite E|auto].
Qed.

Lemma map_err_Ok {E F A} (f : E -> F) (r : result E A) a : map_err f r = Ok a -> r = Ok a.
Proof. destruct r; simpl; congruence. Qed.

Lemma validate_all_Ok tj dr dm env b vs :
  validate_all tj dr dm env b vs = Ok tt -> Forall (validation_holds env b) vs.
Proof.
  induction vs as [|v vs IH]; simpl; [constructor|].
  intros ([] & Hv%map_err_Ok & H)%result_bind_Ok. constructor; [|auto].
  apply result_bind_Ok in Hv as ([] & Hn & Hm).
  split; eauto using validate_match_examples_Ok, validate_not_match_examples_Ok.
Qed.

(** The rules of one program among those added. *)
Lemma add_rules_lookup rules b k :
  default [] (b_rules (foldl (fun b rule => add_rule rule b) b rules) !! k) =
  default [] (b_rules b !! k) ++ filter (fun r => program r = k) rules.
Proof.
  revert b. induction rules as [|r rules IH]; intros b; [by rewrite app_nil_r|].
  cbn [foldl]. rewrite IH. unfold add_rule at 1. cbn [b_rules].
  rewrite multi_insert_lookup, <- app_assoc. f_equal. cbn [filter list_filter].
  by destruct (decide (program r = k)).
Qed.

(** ** Properties *)

(** Loading any policy files yields a well-formed policy: each rule is
    filed under its own program, every network host is a normalised one, and
    the paths of a host executable are distinct, absolute and end in its
    name. *)
Theorem loaded_policy_wf split try_join debug_rule debug_match current_dir_error env run_starlark
    starlark_error files p :
  load_policies split try_join debug_rule debug_match current_dir_error env run_starlark
    starlark_error files = Ok p ->
  policy_wf p.
Proof.
  unfold load_policies. destruct (load_files _ _ _ _ _ _ _ _ _ _) as [b|] eqn:Hl; [|done].
  intros [= <-]. assert (H0 : policy_wf (build new_builder)) by by repeat split.
  revert Hl H0. generalize new_builder. clear. induction files as [|[id [c|e]] files IH];
    intros b0; simpl; [by intros [= <-]| |done].
  unfold parse at 1. destruct (run_starlark id c) as [[calls ending]|]; [|done].
  intros Hl H0. pose proof (run_calls_wf split current_dir_error env starlark_error calls b0 H0) as H1.
  destruct (run_calls _ _ _ _ _ _) as [[[]|e] b1]; [|done].
  destruct ending; [done|]. destruct (validate_pending_examples_from _ _ _ _ _ _) as [[]|]; [|done].
  by apply (IH b1).
Qed.

(** A script that calls each builtin once. *)
Definition example_calls : list builtin_call :=
  [CallPrefixRule [VList [VStr (lit "git"); VStr (lit "jj")]; VStr (lit "log")]
     (Some (lit "prompt"))
     (Some [VStr (lit "git log"); VList [VStr (lit "/bin/git"); VStr (lit "log")]])
     (Some [VStr (lit "git push")]) None None;
   CallNetworkRule (lit "Example.com:443") (lit "https") (lit "deny") None;
   CallHostExecutable (lit "git") [VStr (lit "/bin/git"); VStr (lit "/bin/./git")]].

Definition example_split (s : rstr) : option (list rstr) := Some (split_on 32 s).

Definition example_run (_ _ : rstr) : result Error (list builtin_call * option Error) :=
  Ok (example_calls, None).

Definition example_loaded : result Error Policy :=
  load_policies example_split (fun _ => None) (fun _ => []) (fun _ => []) [] example_env
    example_run (fun e => e) [(lit "default.rules", Ok [])].

Lemma loaded_policy_wf_witness :
  exists p, example_loaded = Ok p /\ policy_wf p.
Proof.
  destruct example_loaded as [p|e] eqn:E; [|vm_compute in E; discriminate E].
  exists p. split; [reflexivity|]. exact (loaded_policy_wf _ _ _ _ _ _ _ _ _ _ E).
Defined.

(** When a policy file is accepted, the examples of each of its prefix
    rules have been checked: every [match] example is matched by the rules of
    that call, with the host executables the file ends up defining, and no
    [not_match] example is. *)
Theorem accepted_examples_validated split try_join debug_rule debug_match current_dir_error env
    run_starlark starlark_error id contents b b' calls pat d m nm j loc :
  run_starlark id contents = Ok (calls, None) ->
  parse split try_join debug_rule debug_match current_dir_error env run_starlark starlark_error
    id contents b = (Ok tt, b') ->
  CallPrefixRule pat d m nm j loc ∈ calls ->
  exists v, validation_holds env b' v /\
    parse_optional_examples split m = Ok (v_matches v) /\
    parse_optional_examples split nm = Ok (v_not_matches v) /\
    exists dec tok toks, parse_pattern pat = Ok (tok :: toks) /\
      v_rules v = rules_for tok toks dec j.
Proof.
  intros Hrun. unfold parse. rewrite Hrun.
  destruct (run_calls _ _ _ _ _ _) as [[[]|e] b1] eqn:Hc; [|done].
  destruct (run_calls_pending _ _ _ _ _ _ _ Hc) as (vs & Hvs & Hall).
  unfold validate_pending_examples_from. rewrite Hvs, drop_app_length.
  intros [= Hv <-] Hin. apply validate_all_Ok in Hv. rewrite Forall_forall in Hv.
  destruct (Hall _ _ _ _ _ _ Hin) as (v & Hmem & Hrest). exists v. split; [auto|done].
Qed.

Lemma accepted_examples_validated_witness :
  exists v b', validation_holds example_env b' v /\
    v_matches v = [[lit "git"; lit "log"]; [lit "/bin/git"; lit "log"]] /\
    v_not_matches v = [[lit "git"; lit "push"]].
Proof.
  destruct (parse example_split (fun _ => None) (fun _ => []) (fun _ => []) [] example_env
    example_run (fun e => e) [] [] new_builder) as [[[]|e] b'] eqn:E;
    [|vm_compute in E; discriminate E].
  destruct (accepted_examples_validated example_split (fun _ => None) (fun _ => []) (fun _ => []) []
    example_env example_run (fun e => e) [] [] new_builder b' example_calls
    [VList [VStr (lit "git"); VStr (lit "jj")]; VStr (lit "log")] (Some (lit "prompt"))
    (Some [VStr (lit "git log"); VList [VStr (lit "/bin/git"); VStr (lit "log")]])
    (Some [VStr (lit "git push")]) None None) as (v & Hv & Hm & Hn & _).
  - reflexivity.
  - exact E.
  - left.
  - exists v, b'. split; [exact Hv|].
    change (Ok [[lit "git"; lit "log"]; [lit "/bin/git"; lit "log"]] = Ok (E := Error) (v_matches v)) in Hm.
    change (Ok [[lit "git"; lit "push"]] = Ok (E := Error) (v_not_matches v)) in Hn.
    split; congruence.
Defined.

(** A [prefix_rule] call adds to the matches of a command exactly when the
    command starts with one alternative of each pattern position, the first
    included; what it adds carries the call's decision, and the earlier rules
    keep matching as before. *)
Theorem prefix_rule_call_matches split pat d m nm j loc b b' tok toks c args :
  prefix_rule split pat d m nm j loc b = Ok b' -> parse_pattern pat = Ok (tok :: toks) ->
  exists old new,
    match_exact_rules (build b) (c :: args) = Some old /\
    match_exact_rules (build b') (c :: args) = Some (old ++ new) /\
    Forall (fun mt => match d with Some raw => decision_parse raw | None => Ok Allow end
                      = Ok (match_decision mt)) new /\
    (new <> [] <->
     c ∈ alternatives tok /\
     exists ts suffix, args = ts ++ suffix /\ Forall2 (fun t s => s ∈ alternatives t) toks ts).
Proof.
  intros (dec & tok' & toks' & ms & nms & Hd & Hp & _ & _ & ->)%prefix_rule_Ok Hp'.
  rewrite Hp in Hp'. injection Hp' as -> ->.
  rewrite !match_exact_lookup. unfold build. cbn [rules_by_program].
  rewrite add_rules_lookup, omap_app. cbn [b_rules add_pending_example_validation].
  eexists _, _. split_and!; [done..| |].
  - rewrite Forall_forall. intros mt (r & Hr & Hmt)%list_elem_of_omap.
    apply list_elem_of_filter in Hr as [_ Hr]. unfold rules_for in Hr.
    apply list_elem_of_fmap in Hr as (h & -> & _).
    destruct (rule_matches_unresolved _ _ _ Hmt) as [pre ->]. done.
  - split.
    + intros Hne. destruct (omap _ _) as [|mt new] eqn:Eo; [done|]. clear Hne.
      assert (Hmt : mt ∈ mt :: new) by left. rewrite <- Eo in Hmt.
      apply list_elem_of_omap in Hmt as (r & Hr & Hmt).
      apply list_elem_of_filter in Hr as [Hk Hr]. unfold rules_for in Hr.
      apply list_elem_of_fmap in Hr as (h & -> & Hh). unfold program in Hk. simpl in Hk. subst h.
      split; [done|]. unfold rule_matches in Hmt.
      destruct (matches_prefix _ _) as [pre|] eqn:Em; [|done].
      apply matches_prefix_Some in Em as (ts & suffix & [= ->] & _ & Hall). exists ts, suffix.
      split; [done|]. eapply Forall2_impl; [exact Hall|]. intros t s. by apply token_matches_alternatives.
    + intros (Hc & ts & suffix & -> & Hall) Hnil.
      set (r := mkRule (mkPattern c toks) dec j).
      apply (elem_of_nil (PrefixRuleMatch (c :: ts) dec None j)). rewrite <- Hnil.
      apply list_elem_of_omap. exists r. split.
      * apply list_elem_of_filter. split; [done|]. apply list_elem_of_fmap. by exists c.
      * unfold rule_matches. rewrite (proj2 (matches_prefix_Some _ _ (c :: ts))); [done|].
        exists ts, suffix. split_and!; [done..|]. eapply Forall2_impl; [exact Hall|].
        intros t s. by apply token_matches_alternatives.
Qed.

Lemma prefix_rule_call_matches_witness :
  exists b' old new,
    prefix_rule example_split [VList [VStr (lit "git"); VStr (lit "jj")]; VStr (lit "log")] None
      None None None None new_builder = Ok b' /\
    match_exact_rules (build b') [lit "jj"; lit "log"; lit "-p"] = Some (old ++ new) /\ new <> [].
Proof.
  destruct (prefix_rule example_split [VList [VStr (lit "git"); VStr (lit "jj")]; VStr (lit "log")]
    None None None None None new_builder) as [b'|e] eqn:E; [|vm_compute in E; discriminate E].
  destruct (prefix_rule_call_matches example_split
    [VList [VStr (lit "git"); VStr (lit "jj")]; VStr (lit "log")] None None None None None
    new_builder b' (Alts [lit "git"; lit "jj"]) [Single (lit "log")] (lit "jj")
    [lit "log"; lit "-p"] E) as (old & new & _ & Hm & _ & Hn); [vm_compute; reflexivity|].
  exists b', old, new. split; [reflexivity|]. split; [exact Hm|]. apply Hn. split.
  - right. left.
  - exists [lit "log"], [lit "-p"]. split; [reflexivity|]. repeat constructor.
Defined.
