(* ===== verification/ExecAmend.v ===== *)
(** * ExecAmend: [codex-rs/execpolicy/src/{amend,sandbox_migration}.rs]

    Appending a rule to a policy file, and the one-shot removal of legacy
    allow rules.  The operating system's file operations are the class
    [PolicyFileOps]: every call returns the state it leaves behind, on failure
    too.  [serde_json] is an argument. *)

From stdpp Require Import base list gmap strings.
From S2P Require Import Prelude AbsolutePath ExecRule ExecPolicy ExecPolicyParser.

Open Scope rust_scope.

(** ** Files *)

Class PolicyFileOps (FS Path : Type) := {
  pf_parent : Path -> option Path;
  pf_join : Path -> rstr -> Path;
  pf_create_dir : Path -> FS -> result io_error unit * FS;
  pf_create_dir_all : Path -> FS -> result io_error unit * FS;
  pf_open_append : Path -> FS -> result io_error unit * FS;
  pf_lock : Path -> FS -> result io_error unit;
  pf_seek_start : Path -> FS -> result io_error unit;
  pf_read : Path -> FS -> result io_error rstr;
  pf_append : Path -> rstr -> FS -> result io_error unit * FS;
  pf_try_exists : Path -> FS -> result io_error bool;
  pf_open_write : Path -> FS -> result io_error unit;
  pf_write_start : Path -> rstr -> FS -> result io_error unit * FS;
  pf_set_len : Path -> nat -> FS -> result io_error unit * FS;
  pf_persist_noclobber : Path -> rstr -> FS -> result io_error unit * FS
}.

(** ** [amend.rs] *)

Inductive AmendError {Path : Type} :=
| EmptyPrefix
| InvalidNetworkRule (message : rstr)
| MissingParent (path : Path)
| CreatePolicyDir (dir : Path) (source : io_error)
| SerializePrefix (source : rstr)
| SerializeNetworkRule (source : rstr)
| OpenPolicyFile (path : Path) (source : io_error)
| WritePolicyFile (path : Path) (source : io_error)
| LockPolicyFile (path : Path) (source : io_error)
| SeekPolicyFile (path : Path) (source : io_error)
| ReadPolicyFile (path : Path) (source : io_error).
Arguments AmendError : clear implicits.

Section amend.
Context {FS Path : Type} `{!PolicyFileOps FS Path}.
Context (to_json : rstr -> result rstr rstr).

Definition append_locked_line (policy_path : Path) (line : rstr) (fs : FS)
  : result (AmendError Path) unit * FS :=
  match pf_open_append policy_path fs with
  | (Err source, fs) => (Err (OpenPolicyFile policy_path source), fs)
  | (Ok _, fs) =>
      match pf_lock policy_path fs with
      | Err source => (Err (LockPolicyFile policy_path source), fs)
      | Ok _ =>
          match pf_seek_start policy_path fs with
          | Err source => (Err (SeekPolicyFile policy_path source), fs)
          | Ok _ =>
              match pf_read policy_path fs with
              | Err source => (Err (ReadPolicyFile policy_path source), fs)
              | Ok contents =>
                  if existsb (fun existing => existing == line) (lines contents) then (Ok tt, fs)
                  else
                    let terminated :=
                      if negb (is_empty contents) && negb (ends_with [c_lf] contents)
                      then pf_append policy_path [c_lf] fs
                      else (Ok tt, fs) in
                    match terminated with
                    | (Err source, fs) => (Err (WritePolicyFile policy_path source), fs)
                    | (Ok _, fs) =>
                        match pf_append policy_path (line ++ [c_lf]) fs with
                        | (Err source, fs) => (Err (WritePolicyFile policy_path source), fs)
                        | (Ok _, fs) => (Ok tt, fs)
                        end
                    end
              end
          end
      end
  end.

Definition append_rule_line (policy_path : Path) (rule : rstr) (fs : FS)
  : result (AmendError Path) unit * FS :=
  match pf_parent policy_path with
  | None => (Err (MissingParent policy_path), fs)
  | Some dir =>
      match pf_create_dir dir fs with
      | (Err source, fs) =>
          if bool_decide (kind source = AlreadyExists)
          then append_locked_line policy_path rule fs
          else (Err (CreatePolicyDir dir source), fs)
      | (Ok _, fs) => append_locked_line policy_path rule fs
      end
  end.

Definition prefix_rule_line (tokens : list rstr) : rstr :=
  lit "prefix_rule(pattern=[" ++ join (lit ", ") tokens ++ lit "], decision=" ++ [c_dquote]
  ++ lit "allow" ++ [c_dquote] ++ lit ")".

Definition blocking_append_allow_prefix_rule (policy_path : Path) (prefix : list rstr) (fs : FS)
  : result (AmendError Path) unit * FS :=
  if is_empty prefix then (Err EmptyPrefix, fs)
  else match mapM to_json prefix with
       | Err source => (Err (SerializePrefix source), fs)
       | Ok tokens => append_rule_line policy_path (prefix_rule_line tokens) fs
       end.

Definition decision_word (d : Decision) : rstr :=
  match d with
  | Allow => lit "allow"
  | Prompt => lit "prompt"
  | Forbidden => lit "deny"
  end.

(** The arguments of the [network_rule] call, rendered. *)
Definition network_rule_args (host : rstr) (protocol : NetworkRuleProtocol) (d : Decision)
    (justification : option rstr) : result rstr (list rstr) :=
  host ← to_json host;
  protocol ← to_json (as_policy_string protocol);
  decision ← to_json (decision_word d);
  let args := [lit "host=" ++ host; lit "protocol=" ++ protocol; lit "decision=" ++ decision] in
  match justification with
  | Some j => j ← to_json j; Ok (args ++ [lit "justification=" ++ j])
  | None => Ok args
  end.

(** The message of an [InvalidRule], the only error of the normalisation. *)
Definition invalid_rule_text (e : Error) : rstr :=
  match e with InvalidRule m => lit "invalid rule: " ++ m | _ => [] end.

Definition blocking_append_network_rule (policy_path : Path) (host : rstr)
    (protocol : NetworkRuleProtocol) (d : Decision) (justification : option rstr) (fs : FS)
  : result (AmendError Path) unit * FS :=
  match normalize_network_rule_host host with
  | Err e => (Err (InvalidNetworkRule (invalid_rule_text e)), fs)
  | Ok host =>
      if blank_justification justification
      then (Err (InvalidNetworkRule (lit "justification cannot be empty")), fs)
      else match network_rule_args host protocol d justification with
           | Err source => (Err (SerializeNetworkRule source), fs)
           | Ok args =>
               append_rule_line policy_path
                 (lit "network_rule(" ++ join (lit ", ") args ++ lit ")") fs
           end
  end.
End amend.

(** ** [sandbox_migration.rs] *)

Section migration.
Context {FS Path : Type} `{!PolicyFileOps FS Path}.
Context (parse_json_list : rstr -> option (list rstr)).

Definition strip_suffix_or (suffix s : rstr) : rstr := default s (strip_suffix suffix s).

Definition should_remove_rule (banned_prefixes : gset (list rstr)) (line : rstr) : bool :=
  let line := strip_suffix_or [c_lf] line in
  let line := strip_suffix_or [c_cr] line in
  match strip_prefix (lit "prefix_rule(pattern=") line with
  | None => false
  | Some rest =>
      match strip_suffix (lit ", decision=" ++ [c_dquote] ++ lit "allow" ++ [c_dquote] ++ lit ")")
              rest with
      | None => false
      | Some pattern =>
          match parse_json_list pattern with
          | None => false
          | Some prefix => bool_decide (to_ascii_lowercase <$> prefix ∈ banned_prefixes)
          end
      end
  end.

Definition strip_banned_allow_rules (contents : rstr) (banned_prefixes : list (list rstr))
  : rstr :=
  let banned : gset (list rstr) :=
    list_to_set ((fun prefix : list rstr => to_ascii_lowercase <$> prefix) <$> banned_prefixes) in
  concat (filter (fun line => should_remove_rule banned line = false)
            (split_inclusive c_lf contents)).

Definition clean_rules_file (policy_path : Path) (banned_prefixes : list (list rstr)) (fs : FS)
  : result io_error unit * FS :=
  match pf_read policy_path fs with
  | Err err => (if is_not_found err then Ok tt else Err err, fs)
  | Ok contents =>
      if strip_banned_allow_rules contents banned_prefixes == contents then (Ok tt, fs)
      else match pf_open_write policy_path fs with
           | Err err => (if is_not_found err then Ok tt else Err err, fs)
           | Ok _ =>
               match pf_read policy_path fs with
               | Err err => (Err err, fs)
               | Ok contents =>
                   let retained := strip_banned_allow_rules contents banned_prefixes in
                   if retained == contents then (Ok tt, fs)
                   else match pf_seek_start policy_path fs with
                        | Err err => (Err err, fs)
                        | Ok _ =>
                            match pf_write_start policy_path retained fs with
                            | (Err err, fs) => (Err err, fs)
                            | (Ok _, fs) => pf_set_len policy_path (str_len retained) fs
                            end
                        end
               end
           end
  end.

Definition write_migration_marker (codex_home marker_path : Path) (fs : FS)
  : result io_error unit * FS :=
  match pf_create_dir_all codex_home fs with
  | (Err err, fs) => (Err err, fs)
  | (Ok _, fs) =>
      match pf_persist_noclobber marker_path (lit "v1" ++ [c_lf]) fs with
      | (Ok _, fs) => (Ok tt, fs)
      | (Err err, fs) =>
          (if bool_decide (kind err = AlreadyExists) then Ok tt else Err err, fs)
      end
  end.

Definition prefix_rule_migration (codex_home policy_path : Path)
    (banned_prefixes : list (list rstr)) (fs : FS) : result io_error unit * FS :=
  let marker_path := pf_join codex_home (lit ".sandbox_migration") in
  match pf_try_exists marker_path fs with
  | Err err => (Err err, fs)
  | Ok true => (Ok tt, fs)
  | Ok false =>
      match clean_rules_file policy_path banned_prefixes fs with
      | (Err err, fs) => (Err err, fs)
      | (Ok _, fs) => write_migration_marker codex_home marker_path fs
      end
  end.
End migration.

(** ** Lines of a text that grows

    What appending [line] makes of the contents. *)
Definition amended (contents line : rstr) : rstr :=
  if existsb (fun existing => existing == line) (lines contents) then contents
  else contents
       ++ (if negb (is_empty contents) && negb (ends_with [c_lf] contents) then [c_lf] else [])
       ++ line ++ [c_lf].

Lemma amended_lines contents line :
  clean_line line -> line ∈ lines (amended contents line).
Proof.
  intros Hline. unfold amended. destruct (existsb _ _) eqn:E.
  { apply existsb_exists in E as (x & Hx & ->%str_eqb_true). by apply list_elem_of_In. }
  set (sep := if _ && _ then _ else _). rewrite app_assoc.
  unfold lines. rewrite split_inclusive_app.
  - rewrite fmap_app. apply elem_of_app. right.
    destruct Hline as [Hlf Hcr]. rewrite (split_inclusive_line line []) by done.
    simpl. rewrite strip_line_ending_clean by done. left.
  - unfold sep. destruct (is_empty contents) eqn:E1; simpl.
    { apply is_empty_true in E1 as ->. by left. }
    right. destruct (ends_with [c_lf] contents) eqn:E2; simpl; [|by rewrite last_snoc].
    rewrite app_nil_r. by apply ends_with_last.
Qed.

Lemma amended_again contents line :
  clean_line line -> amended (amended contents line) line = amended contents line.
Proof.
  intros Hline. unfold amended at 1.
  rewrite (proj2 (existsb_exists _ _)); [done|]. exists line. rewrite str_eqb_refl.
  by rewrite <- list_elem_of_In; split; [apply amended_lines|].
Qed.

(** What the file operations promise: opening and creating directories do not
    change a file's text, appending appends. *)
Class PolicyFileLaws (FS Path : Type) `{!PolicyFileOps FS Path} := {
  pf_open_append_read p q fs r fs' c :
    pf_open_append p fs = (r, fs') -> pf_read q fs = Ok c -> pf_read q fs' = Ok c;
  pf_create_dir_read d q fs r fs' c :
    pf_create_dir d fs = (r, fs') -> pf_read q fs = Ok c -> pf_read q fs' = Ok c;
  pf_append_read p t fs u fs' c :
    pf_append p t fs = (Ok u, fs') -> pf_read p fs = Ok c -> pf_read p fs' = Ok (c ++ t)
}.

Section amend_spec.
Context {FS Path : Type} `{!PolicyFileOps FS Path} `{!PolicyFileLaws FS Path}.

Lemma append_locked_line_spec (p : Path) line (fs fs' : FS) old :
  pf_read p fs = Ok old -> append_locked_line p line fs = (Ok tt, fs') ->
  pf_read p fs' = Ok (amended old line).
Proof.
  intros Hold. unfold append_locked_line, amended.
  destruct (pf_open_append p fs) as [[?|?] fs1] eqn:Ho; [|done].
  pose proof (pf_open_append_read _ _ _ _ _ _ Ho Hold) as H1. clear Ho.
  destruct (pf_lock p fs1); [|done]. destruct (pf_seek_start p fs1); [|done]. rewrite H1.
  destruct (existsb _ _); [by intros [= <-]|].
  destruct (_ && _); [destruct (pf_append p [c_lf] fs1) as [[?|?] fs2] eqn:Ha; [|done]|].
  - destruct (pf_append p (line ++ [c_lf]) fs2) as [[?|?] fs3] eqn:Hb; [|done].
    intros [= <-]. pose proof (pf_append_read _ _ _ _ _ _ Ha H1) as H2.
    rewrite (pf_append_read _ _ _ _ _ _ Hb H2). by rewrite <- !app_assoc.
  - destruct (pf_append p (line ++ [c_lf]) fs1) as [[?|?] fs3] eqn:Hb; [|done].
    intros [= <-]. by rewrite (pf_append_read _ _ _ _ _ _ Hb H1).
Qed.

Lemma append_rule_line_spec (p : Path) line (fs fs' : FS) old :
  pf_read p fs = Ok old -> append_rule_line p line fs = (Ok tt, fs') ->
  pf_read p fs' = Ok (amended old line).
Proof.
  intros Hold. unfold append_rule_line. destruct (pf_parent p) as [dir|]; [|done].
  destruct (pf_create_dir dir fs) as [[?|e] fs1] eqn:Hc.
  - eauto using append_locked_line_spec, pf_create_dir_read.
  - case_bool_decide; [|done]. eauto using append_locked_line_spec, pf_create_dir_read.
Qed.
End amend_spec.

(** ** Lines kept by the migration *)

(** Pieces as [split_inclusive] makes them: only the last may lack [c]. *)
Definition terminated_piece (c : N) (x : rstr) : Prop := exists y, x = y ++ [c] /\ c ∉ y.

Fixpoint pieces (c : N) (ls : list rstr) : Prop :=
  match ls with
  | [] => True
  | x :: r => (terminated_piece c x \/ (r = [] /\ x <> [] /\ c ∉ x)) /\ pieces c r
  end.

Lemma split_inclusive_pieces c s : pieces c (split_inclusive c s).
Proof.
  induction s as [|x s IH]; simpl; [done|]. destruct (N.eqb_spec x c) as [->|Hne].
  { split; [|done]. left. exists []. split; [done|apply not_elem_of_nil]. }
  destruct (split_inclusive c s) as [|l ls]; simpl in *.
  - split; [|done]. right. split_and!; [done..|]. by intros ->%list_elem_of_singleton.
  - destruct IH as [[(y & -> & Hy)|(-> & Hl & Hc)] IH]; (split; [|done]).
    + left. exists (x :: y). split; [done|]. by rewrite not_elem_of_cons.
    + right. split_and!; [done..|]. by rewrite not_elem_of_cons.
Qed.

Lemma pieces_filter c (P : rstr -> Prop) `{!forall x, base.Decision (P x)} ls :
  pieces c ls -> pieces c (filter P ls).
Proof.
  induction ls as [|x ls IH]; [done|]. intros [Hx Hls]. cbn [filter list_filter].
  destruct (decide (P x)); [|by apply IH]. split; [|by apply IH].
  destruct Hx as [?|(-> & ?)]; [by left|right]. done.
Qed.

Lemma split_inclusive_terminated c y s :
  c ∉ y -> split_inclusive c (y ++ c :: s) = (y ++ [c]) :: split_inclusive c s.
Proof.
  intros Hy. induction y as [|x y IH]; simpl; [by rewrite N.eqb_refl|].
  apply not_elem_of_cons in Hy as [Hx Hy]. rewrite IH by done.
  apply N.eqb_neq in Hx. by rewrite N.eqb_sym, Hx.
Qed.

Lemma split_inclusive_unterminated c x : x <> [] -> c ∉ x -> split_inclusive c x = [x].
Proof.
  intros Hne Hc. induction x as [|a x IH]; [done|]. apply not_elem_of_cons in Hc as [Ha Hc].
  simpl. apply N.eqb_neq in Ha. rewrite N.eqb_sym, Ha. destruct x; [done|]. by rewrite IH.
Qed.

Lemma split_inclusive_concat c ls : pieces c ls -> split_inclusive c (concat ls) = ls.
Proof.
  induction ls as [|x ls IH]; [done|]. intros [[(y & -> & Hy)|(-> & Hx & Hc)] Hls]; simpl.
  - rewrite <- app_assoc. simpl. by rewrite split_inclusive_terminated, IH.
  - rewrite app_nil_r. by apply split_inclusive_unterminated.
Qed.

(** ** An in-memory policy directory *)

#[export] Instance memory_policy_files : PolicyFileOps (gmap rstr rstr) rstr := {
  pf_parent p := fst <$> rsplit_once c_slash p;
  pf_join p n := p ++ [c_slash] ++ n;
  pf_create_dir _ fs := (Err (mkIoError AlreadyExists []), fs);
  pf_create_dir_all _ fs := (Ok tt, fs);
  pf_open_append p fs := (Ok tt, <[p := default [] (fs !! p)]> fs);
  pf_lock _ _ := Ok tt;
  pf_seek_start _ _ := Ok tt;
  pf_read p fs := ok_or (fs !! p) (mkIoError NotFound []);
  pf_append p t fs := (Ok tt, <[p := default [] (fs !! p) ++ t]> fs);
  pf_try_exists p fs := Ok (is_some (fs !! p));
  pf_open_write _ _ := Ok tt;
  pf_write_start p t fs := (Ok tt, <[p := t]> fs);
  pf_set_len _ _ fs := (Ok tt, fs);
  pf_persist_noclobber p t fs :=
    if is_some (fs !! p) then (Err (mkIoError AlreadyExists []), fs) else (Ok tt, <[p := t]> fs)
}.

#[export] Instance memory_policy_laws : PolicyFileLaws (gmap rstr rstr) rstr.
Proof.
  split; simpl.
  - intros p q fs r fs' c [= _ <-]. destruct (fs !! q) as [c'|] eqn:E; simpl; [|done]. intros [= ->].
    destruct (decide (p = q)) as [->|]; [by rewrite lookup_insert_eq, E|].
    by rewrite lookup_insert_ne, E.
  - by intros d q fs r fs' c [= _ <-].
  - intros p t fs u fs' c [= _ <-]. rewrite lookup_insert_eq.
    destruct (fs !! p); simpl; [|done]. by intros [= ->].
Qed.

(** ** Properties *)

(** Appending a rule to a policy file keeps its text as a prefix and makes
    the rule one of its lines, and appending the same rule once more leaves the
    text as it is. *)
Theorem append_rule_keeps_and_adds {FS Path} `{!PolicyFileOps FS Path} `{!PolicyFileLaws FS Path}
    (p : Path) line (fs fs' : FS) old :
  clean_line line -> pf_read p fs = Ok old -> append_rule_line p line fs = (Ok tt, fs') ->
  exists new, pf_read p fs' = Ok new /\ old `prefix_of` new /\ line ∈ lines new /\
    forall fs'', append_rule_line p line fs' = (Ok tt, fs'') -> pf_read p fs'' = Ok new.
Proof.
  intros Hline Hold Happ. exists (amended old line). split_and!.
  - by eapply append_rule_line_spec.
  - unfold amended. destruct (existsb _ _); [done|]. by apply prefix_app_r.
  - by apply amended_lines.
  - intros fs'' Happ2. rewrite <- (amended_again old line Hline).
    eapply append_rule_line_spec; [|exact Happ2]. by eapply append_rule_line_spec.
Qed.

Lemma append_rule_keeps_and_adds_witness :
  exists new, (append_rule_line (lit "/r/d.rules") (lit "b") {[ lit "/r/d.rules" := lit "a" ]}).2
                !! lit "/r/d.rules" = Some new /\
    lit "a" `prefix_of` new /\ lit "b" ∈ lines new.
Proof.
  destruct (append_rule_keeps_and_adds (lit "/r/d.rules") (lit "b")
    {[ lit "/r/d.rules" := lit "a" ]}
    (append_rule_line (lit "/r/d.rules") (lit "b") {[ lit "/r/d.rules" := lit "a" ]}).2 (lit "a"))
    as (new & Hn & Hp & Hl & _).
  - split; [by apply (bool_decide_unpack _); vm_compute|discriminate].
  - vm_compute. reflexivity.
  - vm_compute. reflexivity.
  - exists new. split; [|split; [exact Hp|exact Hl]].
    by apply ok_or_Ok in Hn.
Defined.

(** A network rule that is appended to a policy file is read back as the
    rule that was added in memory: the script call it makes adds the same host,
    protocol, decision and justification, provided the normalised host is
    itself normalised. *)
Theorem appended_network_rule_reloads raw h pr d j p p' b :
  add_network_rule raw pr d j p = Ok p' ->
  normalize_network_rule_host raw = Ok h -> normalize_network_rule_host h = Ok h ->
  exists rule, network_rules p' = network_rules p ++ [rule] /\ host rule = h /\
    network_rule h (as_policy_string pr) (decision_word d) j b
    = Ok (builder_add_network_rule rule b).
Proof.
  unfold add_network_rule. intros Hadd Hraw Hh. rewrite Hraw in Hadd. simpl in Hadd.
  destruct (blank_justification j) eqn:Hj; [done|]. injection Hadd as <-.
  eexists; split; [done|]. split; [done|].
  unfold network_rule.
  assert (protocol_parse (as_policy_string pr) = Ok pr) as -> by by destruct pr.
  assert (parse_network_rule_decision (decision_word d) = Ok d) as Hd by by destruct d.
  simpl. rewrite Hd. simpl. unfold parse_justification. rewrite Hj. simpl. by rewrite Hh.
Qed.

Lemma appended_network_rule_reloads_witness :
  exists rule, host rule = lit "example.com" /\
    network_rule (lit "example.com") (lit "https") (lit "deny") None new_builder
    = Ok (builder_add_network_rule rule new_builder).
Proof.
  destruct (appended_network_rule_reloads (lit "Example.COM.") (lit "example.com") Https Forbidden None
    empty_policy (mkPolicy ∅ [mkNetworkRule (lit "example.com") Https Forbidden None] ∅) new_builder)
    as (rule & _ & Hh & Hn); [vm_compute; reflexivity..|].
  exists rule. split; [exact Hh|exact Hn].
Defined.

(** The normalisation of hosts is not idempotent: a bracketed literal with
    one colon, and a host with a dot after a port, normalise to a text whose
    port-like end the next normalisation removes. *)
Theorem host_normalisation_not_idempotent :
  normalize_network_rule_host (lit "[a:80]") = Ok (lit "a:80") /\
  normalize_network_rule_host (lit "a:80.") = Ok (lit "a:80") /\
  normalize_network_rule_host (lit "a:80") = Ok (lit "a").
Proof. split_and!; vm_compute; reflexivity. Qed.

(** The migration keeps exactly the lines of the policy file that are not
    banned allow rules, byte for byte and in order, so running it again
    changes nothing. *)
Theorem migration_keeps_other_lines parse_json_list contents banned_prefixes :
  let banned : gset (list rstr) :=
    list_to_set ((fun prefix : list rstr => to_ascii_lowercase <$> prefix) <$> banned_prefixes) in
  let strip c := strip_banned_allow_rules parse_json_list c banned_prefixes in
  split_inclusive c_lf (strip contents) =
    filter (fun line => should_remove_rule parse_json_list banned line = false)
      (split_inclusive c_lf contents) /\
  strip (strip contents) = strip contents.
Proof.
  intros banned strip.
  assert (Hs : split_inclusive c_lf (strip contents) =
    filter (fun line => should_remove_rule parse_json_list banned line = false)
      (split_inclusive c_lf contents)).
  { apply split_inclusive_concat, pieces_filter, split_inclusive_pieces. }
  split; [exact Hs|]. unfold strip at 1, strip_banned_allow_rules. fold banned.
  rewrite Hs. unfold strip, strip_banned_allow_rules. fold banned. f_equal.
  by apply list_filter_filter_r.
Qed.
