(* ===== verification/HeadTail.v ===== *)
(** * HeadTail: [codex-rs/core/src/unified_exec/head_tail_buffer.rs]

    The capped output buffer: a stable head and the newest tail of a byte
    stream, with the number of bytes dropped between them.  [summary] says
    what a buffer is after a stream; every operation is proved to implement
    it, so merging buffers is the same as buffering the merged streams.
    [usize] counters saturate. *)

From stdpp Require Import base list gmap strings.
From S2P Require Import Prelude.

Open Scope rust_scope.

Record HeadTailBuffer := mkBuffer {
  buf_head : list N;
  buf_tail : list N;
  omitted_bytes : N
}.

Definition default_buffer : HeadTailBuffer := mkBuffer [] [] 0.

Definition len {A} (l : list A) : N := N.of_nat (length l).

Section buffer.
Context (MAX_BYTES : nat).

Definition HEAD_BUDGET : nat := MAX_BYTES / 2.
Definition TAIL_BUDGET : nat := MAX_BYTES - HEAD_BUDGET.

Definition retained_bytes (b : HeadTailBuffer) : N := sat_add (len (buf_head b)) (len (buf_tail b)).

Definition total_bytes (b : HeadTailBuffer) : N := sat_add (retained_bytes b) (omitted_bytes b).

(** The new buffer and the bytes that did not fit; [split_at_checked] fails
    when the chunk is shorter than the room. *)
Definition fill_head (chunk : list N) (b : HeadTailBuffer) : HeadTailBuffer * list N :=
  let remaining_head := HEAD_BUDGET - length (buf_head b) in
  let '(chunk_head, chunk_tail) :=
    if remaining_head <=? length chunk
    then (take remaining_head chunk, drop remaining_head chunk) else (chunk, []) in
  (mkBuffer (buf_head b ++ chunk_head) (buf_tail b) (omitted_bytes b), chunk_tail).

(** [checked_sub] decides which bytes are dropped: old tail bytes only, or
    all of them and a part of the chunk. *)
Definition push_tail (chunk : list N) (b : HeadTailBuffer) : HeadTailBuffer :=
  let remaining_tail := TAIL_BUDGET - length (buf_tail b) in
  let excess_tail := length chunk - remaining_tail in
  let omitted := sat_add (omitted_bytes b) (N.of_nat excess_tail) in
  let '(tail, chunk) :=
    if excess_tail <? length (buf_tail b)
    then (drop excess_tail (buf_tail b), chunk)
    else ([], drop (excess_tail - length (buf_tail b)) chunk) in
  mkBuffer (buf_head b) (tail ++ chunk) omitted.

Definition push_chunk (chunk : list N) (b : HeadTailBuffer) : HeadTailBuffer :=
  let '(b, chunk) := fill_head chunk b in
  push_tail chunk b.

Definition to_bytes (b : HeadTailBuffer) : list N := buf_head b ++ buf_tail b.

Definition format_output_omission_marker (omitted : N) : rstr :=
  lit "... " ++ decimal omitted ++ lit " bytes omitted ...".

Definition to_bytes_with_omission_marker (b : HeadTailBuffer) : list N :=
  if (omitted_bytes b =? 0)%N then to_bytes b
  else buf_head b ++ [c_lf] ++ format_output_omission_marker (omitted_bytes b) ++ [c_lf]
       ++ buf_tail b.

(** [cut] is where the ring buffer of the source tail wraps: [as_slices]
    returns the bytes before and after it. *)
Definition push_buffer (cut : nat) (buffer b : HeadTailBuffer) : HeadTailBuffer :=
  let '(mkBuffer head tail omitted) := buffer in
  let b := mkBuffer (buf_head b) (buf_tail b) (sat_add (omitted_bytes b) omitted) in
  let '(b, overflow) :=
    if is_empty (buf_head b)
    then (mkBuffer head (buf_tail b) (omitted_bytes b), [])
    else fill_head head b in
  if length tail =? TAIL_BUDGET then
    mkBuffer (buf_head b) tail
      (sat_add (sat_add (omitted_bytes b) (len (buf_tail b))) (len overflow))
  else
    let b := push_tail overflow b in
    if is_empty (buf_tail b) then mkBuffer (buf_head b) tail (omitted_bytes b)
    else push_tail (drop cut tail) (push_tail (take cut tail) b).

(** ** The summary of a stream *)

Definition lastn {A} (n : nat) (l : list A) : list A := drop (length l - n) l.

(** Head, tail and saturated count of what is between them. *)
Definition summary (stream : list N) : HeadTailBuffer :=
  let body := drop HEAD_BUDGET stream in
  mkBuffer (take HEAD_BUDGET stream) (lastn TAIL_BUDGET body)
    (N.min (N.of_nat (length body - TAIL_BUDGET)) usize_max).

Lemma length_lastn {A} n (l : list A) : length (lastn n l) = Nat.min n (length l).
Proof. unfold lastn. rewrite length_drop. lia. Qed.

Lemma lastn_all {A} n (l : list A) : length l <= n -> lastn n l = l.
Proof. intros H. unfold lastn. by replace (length l - n) with 0 by lia. Qed.

Lemma lastn_app_r {A} n (l k : list A) : n <= length k -> lastn n (l ++ k) = lastn n k.
Proof.
  intros H. unfold lastn. rewrite length_app, drop_app_ge by lia. f_equal. lia.
Qed.

Lemma lastn_lastn_app {A} n (l k : list A) : lastn n (lastn n l ++ k) = lastn n (l ++ k).
Proof.
  unfold lastn. rewrite !length_app, length_drop.
  destruct (decide (length l <= n)).
  - replace (length l - n) with 0 by lia. rewrite drop_0. f_equal. lia.
  - replace (length l - (length l - n) + length k - n) with (length k) by lia.
    replace (length l + length k - n) with (length k + (length l - n)) by lia.
    destruct (decide (length k <= n)).
    + rewrite !drop_app_le by (rewrite ?length_drop; lia). by rewrite drop_drop, Nat.add_comm.
    + rewrite !drop_app_ge by (rewrite ?length_drop; lia). rewrite length_drop. f_equal. lia.
Qed.

Lemma fill_head_spec chunk b :
  fill_head chunk b =
  (mkBuffer (buf_head b ++ take (HEAD_BUDGET - length (buf_head b)) chunk) (buf_tail b)
     (omitted_bytes b), drop (HEAD_BUDGET - length (buf_head b)) chunk).
Proof.
  unfold fill_head. destruct (Nat.leb_spec (HEAD_BUDGET - length (buf_head b)) (length chunk)); [done|].
  by rewrite take_ge, drop_ge by lia.
Qed.

Lemma push_tail_spec chunk b :
  length (buf_tail b) <= TAIL_BUDGET ->
  push_tail chunk b =
  mkBuffer (buf_head b) (lastn TAIL_BUDGET (buf_tail b ++ chunk))
    (sat_add (omitted_bytes b) (N.of_nat (length (buf_tail b) + length chunk - TAIL_BUDGET))).
Proof.
  intros Ht. unfold push_tail, lastn. rewrite length_app.
  set (excess := length chunk - (TAIL_BUDGET - length (buf_tail b))).
  replace (length (buf_tail b) + length chunk - TAIL_BUDGET) with excess by (unfold excess; lia).
  destruct (Nat.ltb_spec excess (length (buf_tail b))).
  - by rewrite drop_app_le by lia.
  - by rewrite drop_app_ge by lia.
Qed.

Lemma sat_add_min a b : sat_add (N.min a usize_max) b = N.min (a + b) usize_max.
Proof. unfold sat_add. lia. Qed.

(** Pushing a tail chunk on a tail that summarises [body]. *)
Lemma push_tail_lastn head body chunk n :
  push_tail chunk
    (mkBuffer head (lastn TAIL_BUDGET body) (N.min (N.of_nat (length body - TAIL_BUDGET) + n) usize_max))
  = mkBuffer head (lastn TAIL_BUDGET (body ++ chunk))
      (N.min (N.of_nat (length (body ++ chunk) - TAIL_BUDGET) + n) usize_max).
Proof.
  rewrite push_tail_spec by (simpl; rewrite length_lastn; lia).
  cbn [buf_head buf_tail omitted_bytes]. rewrite lastn_lastn_app, length_lastn, length_app, sat_add_min.
  do 2 f_equal. lia.
Qed.

Lemma push_chunk_summary chunk s :
  push_chunk chunk (summary s) = summary (s ++ chunk).
Proof.
  unfold push_chunk. rewrite fill_head_spec. unfold summary.
  cbn [buf_head buf_tail omitted_bytes].
  pose proof (push_tail_lastn (take HEAD_BUDGET s ++ take (HEAD_BUDGET - length (take HEAD_BUDGET s)) chunk)
    (drop HEAD_BUDGET s) (drop (HEAD_BUDGET - length (take HEAD_BUDGET s)) chunk) 0) as H.
  rewrite !N.add_0_r in H. rewrite H. rewrite length_take.
  replace (HEAD_BUDGET - HEAD_BUDGET `min` length s) with (HEAD_BUDGET - length s) by lia.
  by rewrite take_app, drop_app.
Qed.

(** The part of the source head that does not fit, and the stream body. *)
Lemma merged_body (s1 s2 : list N) :
  drop HEAD_BUDGET (s1 ++ s2) =
  drop HEAD_BUDGET s1 ++ drop (HEAD_BUDGET - length (take HEAD_BUDGET s1)) (take HEAD_BUDGET s2)
  ++ drop HEAD_BUDGET s2.
Proof.
  rewrite length_take, drop_app. f_equal.
  replace (HEAD_BUDGET - HEAD_BUDGET `min` length s1) with (HEAD_BUDGET - length s1) by lia.
  set (k := HEAD_BUDGET - length s1). rewrite <- (take_drop HEAD_BUDGET s2) at 1.
  rewrite drop_app, length_take. f_equal.
  destruct (decide (HEAD_BUDGET <= length s2)).
  - by replace (k - HEAD_BUDGET `min` length s2) with 0 by (unfold k; lia).
  - by rewrite (drop_ge s2 HEAD_BUDGET), drop_nil by lia.
Qed.

(** Reusing the source head is filling an empty head. *)
Lemma reuse_head_is_fill s2 b :
  buf_head b = [] ->
  (mkBuffer (take HEAD_BUDGET s2) (buf_tail b) (omitted_bytes b), [])
  = fill_head (take HEAD_BUDGET s2) b.
Proof.
  intros Hb. rewrite fill_head_spec, Hb. simpl. rewrite Nat.sub_0_r, take_take, Nat.min_id.
  by rewrite drop_ge by (rewrite length_take; lia).
Qed.

Lemma push_buffer_summary cut s1 s2 :
  push_buffer cut (summary s2) (summary s1) = summary (s1 ++ s2).
Proof.
  unfold push_buffer, summary at 1.
  set (b0 := mkBuffer (buf_head (summary s1)) _ _).
  replace (if is_empty (buf_head b0) then _ else _) with (fill_head (take HEAD_BUDGET s2) b0).
  2: { destruct (is_empty (buf_head b0)) eqn:E; [|done]. apply is_empty_true in E.
       by rewrite reuse_head_is_fill. }
  rewrite fill_head_spec. unfold b0, summary. cbn [buf_head buf_tail omitted_bytes].
  set (head := take HEAD_BUDGET s1 ++ _). pose proof (merged_body s1 s2) as Hbody.
  assert (Hhead : take HEAD_BUDGET (s1 ++ s2) = head).
  { unfold head. rewrite take_app, length_take, take_take. do 2 f_equal. lia. }
  rewrite Hhead, Hbody. clear Hhead Hbody b0. clearbody head.
  set (ov := drop (HEAD_BUDGET - _) _). set (B1 := drop HEAD_BUDGET s1).
  set (B2 := drop HEAD_BUDGET s2). clearbody ov B1 B2. rewrite sat_add_min, length_lastn.
  destruct (Nat.eqb_spec (TAIL_BUDGET `min` length B2) TAIL_BUDGET) as [Hfull|Hpart].
  - rewrite app_assoc, (lastn_app_r _ _ B2) by lia. f_equal.
    rewrite !sat_add_min. unfold len. rewrite length_lastn, !length_app. unfold sat_add. lia.
  - assert (Hom : (N.of_nat (length B2 - TAIL_BUDGET) `min` usize_max = 0)%N) by lia.
    rewrite Hom, (lastn_all _ B2), push_tail_lastn by lia. cbn [buf_head buf_tail].
    rewrite (app_assoc B1). destruct (is_empty _) eqn:E.
    + apply is_empty_true, (f_equal length) in E. rewrite length_lastn in E. simpl in E.
      assert (B1 ++ ov = []) as -> by (apply length_zero_iff_nil; lia). simpl.
      rewrite (lastn_all _ B2) by lia. f_equal. lia.
    + rewrite !push_tail_lastn, <- app_assoc, take_drop. f_equal. lia.
Qed.
End buffer.

(** A buffer fed by chunks and by other buffers, each itself fed the same
    way: the ways the collector builds one. *)
Inductive fed (max : nat) : HeadTailBuffer -> list N -> Prop :=
| fed_default : fed max default_buffer []
| fed_chunk b s chunk : fed max b s -> fed max (push_chunk max chunk b) (s ++ chunk)
| fed_buffer b s b' s' cut :
    fed max b s -> fed max b' s' -> fed max (push_buffer max cut b' b) (s ++ s').

Lemma default_is_summary max : default_buffer = summary max [].
Proof. unfold summary. by rewrite take_nil, drop_nil. Qed.

Lemma fed_summary max b s : fed max b s -> b = summary max s.
Proof.
  induction 1 as [|b s chunk _ ->|b s b' s' cut _ -> _ ->].
  - apply default_is_summary.
  - apply push_chunk_summary.
  - apply push_buffer_summary.
Qed.

(** ** Properties *)

(** C31: However a buffer is fed, in chunks or from other buffers, and wherever
    their ring buffers wrap, it holds exactly the summary of the bytes fed: the
    first half-budget bytes, the newest bytes of the rest, and the (saturated)
    number of bytes in between. *)
Theorem buffer_refines_summary max b s : fed max b s -> b = summary max s.
Proof. apply fed_summary. Qed.

Definition example_bytes : list N := lit "0123456789abcdef".

Lemma buffer_refines_summary_witness :
  push_buffer 10 3 (push_chunk 10 (drop 4 example_bytes) default_buffer)
    (push_chunk 10 (take 4 example_bytes) default_buffer)
  = mkBuffer (lit "01234") (lit "bcdef") 6.
Proof.
  etransitivity; [apply (buffer_refines_summary 10 _ ((take 4 example_bytes) ++ drop 4 example_bytes))|].
  - apply (fed_buffer 10 _ (take 4 example_bytes) _ (drop 4 example_bytes)).
    + apply (fed_chunk 10 _ []), fed_default.
    + apply (fed_chunk 10 _ []), fed_default.
  - vm_compute. reflexivity.
Defined.

(** A fed buffer never holds more than its budget, and while the stream is
    shorter than the counters' range no byte is lost track of: the total is
    the length of the stream, and a stream within the budget is kept whole,
    also in the rendering with the omission marker. *)
Theorem buffer_bounds max b s :
  fed max b s -> (len s <= usize_max)%N ->
  length (to_bytes b) <= max /\ total_bytes b = len s /\
  (length s <= max -> to_bytes_with_omission_marker b = s).
Proof.
  intros ->%fed_summary Hlen. unfold len in Hlen.
  assert (HT : HEAD_BUDGET max + TAIL_BUDGET max = max).
  { unfold TAIL_BUDGET, HEAD_BUDGET. pose proof (Nat.Div0.div_le_upper_bound max 2 max). lia. }
  unfold to_bytes_with_omission_marker, total_bytes, retained_bytes, to_bytes, summary, len.
  cbn [buf_head buf_tail omitted_bytes].
  rewrite length_app, length_take, length_lastn, length_drop. split_and!.
  - lia.
  - unfold sat_add. lia.
  - intros Hs. replace (length s - HEAD_BUDGET max - TAIL_BUDGET max) with 0 by lia.
    change (N.min (N.of_nat 0) usize_max) with 0%N. simpl.
    by rewrite lastn_all, take_drop by (rewrite length_drop; lia).
Qed.

Lemma buffer_bounds_witness :
  let b := push_chunk 10 (lit "def") (push_chunk 10 (lit "abc") default_buffer) in
  length (to_bytes b) <= 10 /\ total_bytes b = 6%N /\ to_bytes_with_omission_marker b = lit "abcdef".
Proof.
  intros b. destruct (buffer_bounds 10 b (lit "abcdef")) as (H1 & H2 & H3).
  - apply (fed_chunk 10 _ (lit "abc") (lit "def")), (fed_chunk 10 _ [] (lit "abc")), fed_default.
  - vm_compute. discriminate.
  - split; [exact H1|]. split; [exact H2|]. apply H3. vm_compute. lia.
Defined.
