(* ===== verification/Truncate.v ===== *)
(** * Truncate: [codex-rs/utils/string/src/truncate.rs] and
    [codex-rs/utils/output-truncation/src/lib.rs]

    Truncation of long texts in the middle, on character boundaries, and its
    use on the content items of a tool output.  Byte counts and budgets are
    [usize]: [N] with saturating operations; slicing a string off a character
    boundary panics. *)

From stdpp Require Import base list gmap strings.
From S2P Require Import Prelude.

Open Scope rust_scope.

(** ** Byte lengths and slices *)

Definition char_len (c : N) : N := N.of_nat (len_utf8 c).

(** [str::len] *)
Fixpoint byte_len (s : rstr) : N :=
  match s with [] => 0 | c :: r => char_len c + byte_len r end%N.

(** [(&s[..n], &s[n..])] *)
Fixpoint split_at (n : N) (s : rstr) : outcome unit (rstr * rstr) :=
  if (n =? 0)%N then Done ([], s)
  else match s with
       | [] => Panic
       | c :: r =>
           if (n <? char_len c)%N then Panic
           else match split_at (n - char_len c) r with
                | Done (a, b) => Done (c :: a, b)
                | Fail e => Fail e
                | Panic => Panic
                end
       end.

(** ** [truncate.rs] *)

Definition APPROX_BYTES_PER_TOKEN : N := 4.

Definition approx_token_count (text : rstr) : N :=
  sat_add (byte_len text) (APPROX_BYTES_PER_TOKEN - 1) / APPROX_BYTES_PER_TOKEN.

Definition approx_bytes_for_tokens (tokens : N) : N := sat_mul tokens APPROX_BYTES_PER_TOKEN.

Definition approx_tokens_from_byte_count (bytes : N) : N :=
  sat_add bytes (APPROX_BYTES_PER_TOKEN - 1) / APPROX_BYTES_PER_TOKEN.

Record split_state := mkSplit {
  prefix_end : N;
  suffix_start : N;
  removed_chars : N;
  suffix_started : bool
}.

(** The loop over [char_indices]. *)
Fixpoint split_loop (beginning_bytes tail_start_target : N) (s : rstr) (idx : N) (st : split_state)
  : split_state :=
  match s with
  | [] => st
  | ch :: rest =>
      let char_end := (idx + char_len ch)%N in
      let st :=
        if (char_end <=? beginning_bytes)%N
        then mkSplit char_end (suffix_start st) (removed_chars st) (suffix_started st)
        else if (tail_start_target <=? idx)%N
        then (if suffix_started st then st
              else mkSplit (prefix_end st) idx (removed_chars st) true)
        else mkSplit (prefix_end st) (suffix_start st) (sat_add (removed_chars st) 1)
               (suffix_started st) in
      split_loop beginning_bytes tail_start_target rest char_end st
  end.

Definition split_string (s : rstr) (beginning_bytes end_bytes : N)
  : outcome unit (N * rstr * rstr) :=
  if is_empty s then Done (0%N, [], [])
  else
    let len := byte_len s in
    let tail_start_target := (len - end_bytes)%N in
    let st := split_loop beginning_bytes tail_start_target s 0 (mkSplit 0 len 0 false) in
    let suffix_start :=
      if (suffix_start st <? prefix_end st)%N then prefix_end st else suffix_start st in
    before ← split_at (prefix_end st) s;
    after ← split_at suffix_start s;
    Done (removed_chars st, before.1, after.2).

Definition split_budget (budget : N) : N * N :=
  let left := (budget / 2)%N in (left, (budget - left)%N).

Definition format_truncation_marker (use_tokens : bool) (removed_count : N) : rstr :=
  [8230%N] ++ decimal removed_count
  ++ (if use_tokens then lit " tokens truncated" else lit " chars truncated") ++ [8230%N].

Definition removed_units (use_tokens : bool) (removed_bytes removed_chars : N) : N :=
  if use_tokens then approx_tokens_from_byte_count removed_bytes else removed_chars.

Definition assemble_truncated_output (prefix suffix marker : rstr) : rstr :=
  prefix ++ marker ++ suffix.

(** [s.chars().count()] *)
Definition char_count (s : rstr) : N := N.of_nat (length s).

Definition truncate_with_byte_estimate (s : rstr) (max_bytes : N) (use_tokens : bool)
  : outcome unit rstr :=
  if is_empty s then Done []
  else if (max_bytes =? 0)%N then
    Done (format_truncation_marker use_tokens (removed_units use_tokens (byte_len s) (char_count s)))
  else if (byte_len s <=? max_bytes)%N then Done s
  else
    let '(left_budget, right_budget) := split_budget max_bytes in
    parts ← split_string s left_budget right_budget;
    let '(removed_chars, before, after) := parts in
    let marker := format_truncation_marker use_tokens
      (removed_units use_tokens (byte_len s - max_bytes)%N removed_chars) in
    Done (assemble_truncated_output before after marker).

Definition truncate_middle_chars (s : rstr) (max_bytes : N) : outcome unit rstr :=
  truncate_with_byte_estimate s max_bytes false.

Definition truncate_middle_with_token_budget (s : rstr) (max_tokens : N)
  : outcome unit (rstr * option N) :=
  if is_empty s then Done ([], None)
  else if (0 <? max_tokens)%N && (byte_len s <=? approx_bytes_for_tokens max_tokens)%N
  then Done (s, None)
  else
    truncated ← truncate_with_byte_estimate s (approx_bytes_for_tokens max_tokens) true;
    if truncated == s then Done (truncated, None)
    else Done (truncated, Some (approx_token_count s)).

(** ** [output-truncation/src/lib.rs] *)

Inductive TruncationPolicy := Bytes (bytes : N) | Tokens (tokens : N).

Definition token_budget (p : TruncationPolicy) : N :=
  match p with Bytes bytes => approx_tokens_from_byte_count bytes | Tokens tokens => tokens end.

Definition byte_budget (p : TruncationPolicy) : N :=
  match p with Bytes bytes => bytes | Tokens tokens => approx_bytes_for_tokens tokens end.

Definition truncate_text (content : rstr) (policy : TruncationPolicy) : outcome unit rstr :=
  match policy with
  | Bytes bytes => truncate_middle_chars content bytes
  | Tokens tokens => fst <$> truncate_middle_with_token_budget content tokens
  end.

Definition formatted_truncate_text (content : rstr) (policy : TruncationPolicy)
  : outcome unit rstr :=
  if (byte_len content <=? byte_budget policy)%N then Done content
  else
    result ← truncate_text content policy;
    Done (lit "Warning: truncated output (original token count: "
          ++ decimal (approx_token_count content) ++ lit ")" ++ [c_lf]
          ++ lit "Total output lines: " ++ decimal (N.of_nat (length (lines content)))
          ++ [c_lf; c_lf] ++ result).

Inductive ImageDetail := Auto | Low | High | Original.

Inductive FunctionCallOutputContentItem :=
| InputText (text : rstr)
| InputImage (image_url : rstr) (detail : option ImageDetail)
| InputAudio (audio_url : rstr)
| EncryptedContent (encrypted_content : rstr).

Definition item_text (i : FunctionCallOutputContentItem) : option rstr :=
  match i with InputText text => Some text | _ => None end.

Definition is_text (i : FunctionCallOutputContentItem) : bool :=
  match i with InputText _ => true | _ => false end.

(** [combined.push('\n')] only once something was pushed. *)
Definition combine_texts (texts : list rstr) : rstr :=
  foldl (fun combined text =>
    (if is_empty combined then combined else combined ++ [c_lf]) ++ text) [] texts.

Definition formatted_truncate_text_content_items_with_policy
    (items : list FunctionCallOutputContentItem) (policy : TruncationPolicy)
  : outcome unit (list FunctionCallOutputContentItem * option N) :=
  let text_segments := omap item_text items in
  if is_empty text_segments then Done (items, None)
  else
    let combined := combine_texts text_segments in
    if (byte_len combined <=? byte_budget policy)%N then Done (items, None)
    else
      text ← formatted_truncate_text combined policy;
      Done (InputText text :: filter (fun i => is_text i = false) items,
            Some (approx_token_count combined)).

Record item_state := mkItems {
  out_items : list FunctionCallOutputContentItem;
  remaining_budget : N;
  omitted_text_items : N;
  omitted_audio_items : N
}.

Section items.
Context (policy : TruncationPolicy) (estimate_audio_token_count : rstr -> N).

Definition push_item (i : FunctionCallOutputContentItem) (st : item_state) : item_state :=
  mkItems (out_items st ++ [i]) (remaining_budget st) (omitted_text_items st)
    (omitted_audio_items st).

Definition spend (cost : N) (st : item_state) : item_state :=
  mkItems (out_items st) (remaining_budget st - cost) (omitted_text_items st)
    (omitted_audio_items st).

Definition omit_text (st : item_state) : item_state :=
  mkItems (out_items st) (remaining_budget st) (omitted_text_items st + 1) (omitted_audio_items st).

Definition omit_audio (st : item_state) : item_state :=
  mkItems (out_items st) (remaining_budget st) (omitted_text_items st) (omitted_audio_items st + 1).

Definition text_cost (text : rstr) : N :=
  match policy with Bytes _ => byte_len text | Tokens _ => approx_token_count text end.

Definition audio_cost (audio_url : rstr) : N :=
  let token_cost := estimate_audio_token_count audio_url in
  match policy with Bytes _ => approx_bytes_for_tokens token_cost | Tokens _ => token_cost end.

Definition with_budget (budget : N) : TruncationPolicy :=
  match policy with Bytes _ => Bytes budget | Tokens _ => Tokens budget end.

Definition item_step (st : item_state) (i : FunctionCallOutputContentItem)
  : outcome unit item_state :=
  match i with
  | InputText text =>
      if is_empty text then Done st
      else if (remaining_budget st =? 0)%N then Done (omit_text st)
      else if (text_cost text <=? remaining_budget st)%N
      then Done (spend (text_cost text) (push_item (InputText text) st))
      else
        snippet ← truncate_text text (with_budget (remaining_budget st));
        Done (spend (remaining_budget st)
                (if is_empty snippet then omit_text st else push_item (InputText snippet) st))
  | InputAudio audio_url =>
      if (audio_cost audio_url <=? remaining_budget st)%N
      then Done (spend (audio_cost audio_url) (push_item (InputAudio audio_url) st))
      else Done (omit_audio st)
  | InputImage _ _ | EncryptedContent _ => Done (push_item i st)
  end.

Fixpoint item_loop (items : list FunctionCallOutputContentItem) (st : item_state)
  : outcome unit item_state :=
  match items with
  | [] => Done st
  | i :: rest => st ← item_step st i; item_loop rest st
  end.

Definition omission_note (count : N) (what : rstr) : list FunctionCallOutputContentItem :=
  if (0 <? count)%N
  then [InputText (lit "[omitted " ++ decimal count ++ lit " " ++ what ++ lit " items ...]")]
  else [].

Definition truncate_function_output_items_with_policy
    (items : list FunctionCallOutputContentItem)
  : outcome unit (list FunctionCallOutputContentItem) :=
  let budget := match policy with
                | Bytes _ => byte_budget policy
                | Tokens _ => token_budget policy
                end in
  st ← item_loop items (mkItems [] budget 0 0);
  Done (out_items st ++ omission_note (omitted_text_items st) (lit "text")
        ++ omission_note (omitted_audio_items st) (lit "audio")).
End items.

(** ** Slices at character boundaries *)

Lemma char_len_pos c : (0 < char_len c)%N.
Proof. unfold char_len, len_utf8. repeat case_match; lia. Qed.

Lemma byte_len_app a b : byte_len (a ++ b) = (byte_len a + byte_len b)%N.
Proof. induction a as [|c a IH]; simpl; [done|]. rewrite IH. lia. Qed.

Lemma split_at_app a b : split_at (byte_len a) (a ++ b) = Done (a, b).
Proof.
  induction a as [|c a IH]; simpl.
  - by destruct b.
  - pose proof (char_len_pos c). destruct (N.eqb_spec (char_len c + byte_len a) 0); [lia|].
    destruct (N.ltb_spec (char_len c + byte_len a) (char_len c)); [lia|].
    replace (char_len c + byte_len a - char_len c)%N with (byte_len a) by lia. by rewrite IH.
Qed.

(** ** The three parts of a split *)

(** Past the suffix start nothing changes. *)
Lemma split_loop_suffix beg tgt s idx st :
  (beg <= idx)%N -> (tgt <= idx)%N -> suffix_started st = true ->
  split_loop beg tgt s idx st = st.
Proof.
  revert idx. induction s as [|c s IH]; intros idx Hb Ht Hst; simpl; [done|].
  pose proof (char_len_pos c).
  destruct (N.leb_spec (idx + char_len c) beg); [lia|].
  destruct (N.leb_spec tgt idx); [|lia]. rewrite Hst. apply IH; [lia|lia|done].
Qed.

(** Past the prefix: removed characters, then the suffix.  The suffix start
    is the initial one, the end of the text, when no suffix is found. *)
Lemma split_loop_middle beg tgt s idx st :
  (forall c s', s = c :: s' -> beg < idx + char_len c)%N ->
  suffix_started st = false -> (suffix_start st = idx + byte_len s)%N ->
  (removed_chars st + char_count s <= usize_max)%N ->
  exists mid suffix, s = mid ++ suffix /\
    let st' := split_loop beg tgt s idx st in
    prefix_end st' = prefix_end st /\ (suffix_start st' = idx + byte_len mid)%N /\
    (removed_chars st' = removed_chars st + char_count mid)%N /\
    (suffix <> [] -> tgt <= idx + byte_len mid)%N.
Proof.
  revert idx st. induction s as [|c s IH]; intros idx st Hb Hst Hs Hr.
  { exists [], []. simpl in *. split_and!; [done|done|done|unfold char_count; simpl; lia|done]. }
  specialize (Hb c s eq_refl). pose proof (char_len_pos c). unfold char_count in *. simpl in Hr. simpl.
  destruct (N.leb_spec (idx + char_len c) beg); [lia|].
  destruct (N.leb_spec tgt idx) as [Ht|Ht].
  - exists [], (c :: s). split; [done|]. rewrite Hst.
    rewrite split_loop_suffix by (simpl; done || lia). simpl. split_and!; [done|lia..].
  - destruct (IH (idx + char_len c)%N (mkSplit (prefix_end st) (suffix_start st)
      (sat_add (removed_chars st) 1) (suffix_started st))) as (mid & suffix & -> & Hp & Hss & Hrm & Hne).
    + intros c' s' _. pose proof (char_len_pos c'). lia.
    + done.
    + simpl in *. lia.
    + simpl. unfold sat_add. lia.
    + exists (c :: mid), suffix. split; [done|]. rewrite Hp, Hss, Hrm. simpl in *. unfold sat_add.
      rewrite length_app in Hr. split_and!; [done|lia|lia|]. intros Hs'. specialize (Hne Hs'). lia.
Qed.

(** The prefix first. *)
Lemma split_loop_spec beg tgt s idx st :
  suffix_started st = false -> (suffix_start st = idx + byte_len s)%N ->
  (removed_chars st + char_count s <= usize_max)%N -> prefix_end st = idx -> (idx <= beg)%N ->
  exists front mid suffix, s = front ++ mid ++ suffix /\
    let st' := split_loop beg tgt s idx st in
    (prefix_end st' = idx + byte_len front)%N /\ (idx + byte_len front <= beg)%N /\
    (suffix_start st' = idx + byte_len front + byte_len mid)%N /\
    (removed_chars st' = removed_chars st + char_count mid)%N /\
    (suffix <> [] -> tgt <= idx + byte_len front + byte_len mid)%N.
Proof.
  revert idx st. induction s as [|c s IH]; intros idx st Hst Hs Hr Hp Hi.
  { exists [], [], []. simpl in *. unfold char_count. simpl. split_and!; [done|lia..|done]. }
  destruct (N.leb_spec (idx + char_len c) beg) as [Hc|Hc].
  - destruct (IH (idx + char_len c)%N (mkSplit (idx + char_len c) (suffix_start st)
      (removed_chars st) (suffix_started st))) as (front & mid & suffix & -> & H1 & H2 & H3 & H4 & H5);
      [done|simpl in *; lia|unfold char_count in *; simpl in *; lia|done|done|].
    exists (c :: front), mid, suffix. split; [done|]. simpl.
    rewrite (proj2 (N.leb_le _ _) Hc). rewrite H1, H3, H4. simpl. split_and!; try lia.
    intros Hne. specialize (H5 Hne). lia.
  - destruct (split_loop_middle beg tgt (c :: s) idx st) as (mid & suffix & Hms & H1 & H2 & H3 & H4);
      [by intros ? ? [= <- _]|done|done|done|].
    exists [], mid, suffix. split; [done|]. cbv zeta. rewrite H1, H2, H3, Hp. simpl byte_len.
    split_and!; try lia. intros Hne. specialize (H4 Hne). lia.
Qed.

(** The parts fit their budgets, and no slice is off a boundary. *)
Lemma split_string_spec s beg end_bytes :
  (char_count s <= usize_max)%N ->
  exists front mid suffix, s = front ++ mid ++ suffix /\
    split_string s beg end_bytes = Done (char_count mid, front, suffix) /\
    (byte_len front <= beg)%N /\ (byte_len suffix <= end_bytes)%N.
Proof.
  intros Hlen. unfold split_string. destruct (is_empty s) eqn:Es.
  { apply is_empty_true in Es as ->. exists [], [], []. simpl. split_and!; [done|done|lia|lia]. }
  destruct (split_loop_spec beg (byte_len s - end_bytes) s 0 (mkSplit 0 (byte_len s) 0 false))
    as (front & mid & suffix & Hs & Hp & Hb & Hss & Hrm & Hne); [done|simpl; lia|simpl; lia|done|lia|].
  set (st := split_loop _ _ _ _ _) in *. exists front, mid, suffix. split; [done|].
  rewrite Hp, Hss, Hrm. simpl removed_chars.
  destruct (N.ltb_spec (0 + byte_len front + byte_len mid) (0 + byte_len front)); [lia|].
  rewrite !N.add_0_l. rewrite Hs. rewrite split_at_app. simpl.
  rewrite (app_assoc front), <- byte_len_app, split_at_app. simpl.
  split_and!; [done|lia|]. destruct suffix as [|c suffix]; [simpl; lia|].
  specialize (Hne ltac:(done)). rewrite Hs, !byte_len_app in Hne. lia.
Qed.

(** The truncated text, in either unit. *)
Lemma truncate_spec s max use_tokens :
  (char_count s <= usize_max)%N ->
  ((s = [] \/ (byte_len s <= max)%N) /\ truncate_with_byte_estimate s max use_tokens = Done s) \/
  exists front mid suffix, s = front ++ mid ++ suffix /\ mid <> [] /\ (max < byte_len s)%N /\
    (byte_len front <= max / 2)%N /\ (byte_len suffix <= max - max / 2)%N /\
    truncate_with_byte_estimate s max use_tokens =
    Done (front ++ format_truncation_marker use_tokens
                     (removed_units use_tokens (byte_len s - max) (char_count mid)) ++ suffix).
Proof.
  intros Hlen. unfold truncate_with_byte_estimate.
  destruct (is_empty s) eqn:Es; [apply is_empty_true in Es as ->; by left; auto|].
  apply is_empty_false in Es.
  assert (Hpos : (0 < byte_len s)%N).
  { destruct s as [|c s]; [done|]. simpl. pose proof (char_len_pos c). lia. }
  destruct (N.eqb_spec max 0) as [->|Hmax].
  { right. exists [], s, []. rewrite !app_nil_r. simpl.
    split_and!; try done. by rewrite N.sub_0_r. }
  destruct (N.leb_spec (byte_len s) max) as [Hfit|Hbig]; [left; auto|right].
  unfold split_budget.
  destruct (split_string_spec s (max / 2) (max - max / 2) Hlen)
    as (front & mid & suffix & Hs & -> & Hf & Hsx).
  exists front, mid, suffix. split_and!; [done| |done..]. intros ->.
  rewrite Hs, !byte_len_app in Hbig. simpl in Hbig.
  pose proof (N.Div0.div_le_upper_bound max 2 max ltac:(lia)). lia.
Qed.

(** ** Content items *)

(** Items that are never dropped. *)
Definition is_kept (i : FunctionCallOutputContentItem) : bool :=
  match i with InputImage _ _ | EncryptedContent _ => true | _ => false end.

Definition is_empty_text (i : FunctionCallOutputContentItem) : bool :=
  match i with InputText t => is_empty t | _ => false end.

(** Texts a 64-bit machine can hold. *)
Definition item_fits (i : FunctionCallOutputContentItem) : Prop :=
  match i with InputText t => (char_count t <= usize_max)%N | _ => True end.

Lemma truncate_text_done t p :
  (char_count t <= usize_max)%N -> exists out, truncate_text t p = Done out.
Proof.
  intros Hlen.
  assert (Htr : forall max b, exists out, truncate_with_byte_estimate t max b = Done out).
  { intros max b. destruct (truncate_spec t max b Hlen) as [[_ ?]|(? & ? & ? & _ & _ & _ & _ & _ & ?)];
      eauto. }
  destruct p as [n|n]; simpl.
  - apply Htr.
  - unfold truncate_middle_with_token_budget. destruct (is_empty t); [by eexists|].
    destruct (_ && _); [by eexists|]. destruct (Htr (approx_bytes_for_tokens n) true) as [out ->].
    simpl. destruct (out == t); by eexists.
Qed.

Section item_lemmas.
Context (policy : TruncationPolicy) (audio : rstr -> N).

Lemma item_step_kept st i :
  item_fits i -> exists st', item_step policy audio st i = Done st' /\
    filter (fun j => is_kept j = true) (out_items st') =
    filter (fun j => is_kept j = true) (out_items st) ++ (if is_kept i then [i] else []).
Proof.
  intros Hi. destruct i as [t|u d|u|e]; simpl.
  - destruct (is_empty t); [exists st; by rewrite app_nil_r|].
    destruct (_ =? 0)%N; [eexists; split; [done|]; simpl; by rewrite app_nil_r|].
    destruct (_ <=? _)%N; [eexists; split; [done|]; simpl; by rewrite filter_app|].
    destruct (truncate_text_done t (with_budget policy (remaining_budget st)) Hi) as [out ->]. simpl.
    eexists; split; [done|]. destruct (is_empty out); simpl; [by rewrite app_nil_r|by rewrite filter_app].
  - eexists; split; [done|]. simpl. by rewrite filter_app.
  - destruct (_ <=? _)%N; (eexists; split; [done|]); simpl; [by rewrite filter_app|by rewrite app_nil_r].
  - eexists; split; [done|]. simpl. by rewrite filter_app.
Qed.

Lemma item_loop_kept items st :
  Forall item_fits items -> exists st', item_loop policy audio items st = Done st' /\
    filter (fun j => is_kept j = true) (out_items st') =
    filter (fun j => is_kept j = true) (out_items st) ++ filter (fun j => is_kept j = true) items.
Proof.
  intros H. revert st. induction H as [|i items Hi His IH]; intros st.
  { exists st. by rewrite app_nil_r. }
  destruct (item_step_kept st i Hi) as (st1 & Hs & H1). destruct (IH st1) as (st2 & Hl & H2).
  exists st2. simpl. rewrite Hs. simpl. split; [exact Hl|].
  rewrite H2, H1, <- app_assoc. f_equal. cbn [filter list_filter]. by destruct (is_kept i).
Qed.

Definition item_cost (i : FunctionCallOutputContentItem) : N :=
  match i with
  | InputText t => text_cost policy t
  | InputAudio u => audio_cost policy audio u
  | _ => 0
  end.

Fixpoint total_cost (items : list FunctionCallOutputContentItem) : N :=
  match items with [] => 0 | i :: rest => item_cost i + total_cost rest end%N.

Lemma text_cost_pos t : t <> [] -> (0 < text_cost policy t)%N.
Proof.
  intros Hne. assert (Hb : (0 < byte_len t)%N).
  { destruct t as [|c t]; [done|]. simpl. pose proof (char_len_pos c). lia. }
  unfold text_cost, approx_token_count, sat_add, APPROX_BYTES_PER_TOKEN. destruct policy; [done|].
  apply N.div_str_pos. split; [lia|]. unfold usize_max. lia.
Qed.

(** Within the budget every item is copied. *)
Lemma item_loop_within items st :
  (total_cost items <= remaining_budget st)%N ->
  exists st', item_loop policy audio items st = Done st' /\
    out_items st' = out_items st ++ filter (fun i => is_empty_text i = false) items /\
    omitted_text_items st' = omitted_text_items st /\
    omitted_audio_items st' = omitted_audio_items st.
Proof.
  revert st. induction items as [|i items IH]; intros st Hc.
  { exists st. by rewrite app_nil_r. }
  simpl in Hc. assert (Hstep : forall st1,
    item_step policy audio st i = Done st1 ->
    out_items st1 = out_items st ++ (if is_empty_text i then [] else [i]) ->
    (total_cost items <= remaining_budget st1)%N ->
    omitted_text_items st1 = omitted_text_items st ->
    omitted_audio_items st1 = omitted_audio_items st ->
    exists st', item_loop policy audio (i :: items) st = Done st' /\
      out_items st' = out_items st ++ filter (fun i => is_empty_text i = false) (i :: items) /\
      omitted_text_items st' = omitted_text_items st /\
      omitted_audio_items st' = omitted_audio_items st).
  { intros st1 Hs Ho Hb Ht Ha. destruct (IH st1 Hb) as (st' & Hl & H1 & H2 & H3).
    exists st'. cbn [item_loop]. rewrite Hs. simpl. split; [exact Hl|].
    rewrite H1, H2, H3, Ho, <- app_assoc. split_and!; [|done..]. f_equal.
    cbn [filter list_filter]. by destruct (is_empty_text i). }
  destruct i as [t|u d|u|e]; cbn [item_cost] in Hc.
  - destruct (is_empty t) eqn:Et.
    + apply (Hstep st); simpl; rewrite ?Et, ?app_nil_r; done || lia.
    + apply is_empty_false in Et as Hne. pose proof (text_cost_pos t Hne).
      apply (Hstep (spend (text_cost policy t) (push_item (InputText t) st))); simpl; rewrite ?Et; try done.
      * destruct (N.eqb_spec (remaining_budget st) 0); [lia|].
        destruct (N.leb_spec (text_cost policy t) (remaining_budget st)); [done|lia].
      * lia.
  - apply (Hstep (push_item (InputImage u d) st)); simpl; done || lia.
  - apply (Hstep (spend (audio_cost policy audio u) (push_item (InputAudio u) st))); simpl; try done.
    + destruct (N.leb_spec (audio_cost policy audio u) (remaining_budget st)); [done|lia].
    + lia.
  - apply (Hstep (push_item (EncryptedContent e) st)); simpl; done || lia.
Qed.
End item_lemmas.

(** ** Properties *)

(** Truncating a text in the middle never fails; a text within the budget
    is returned as it is, and a longer one becomes a prefix and a suffix of
    it, on character boundaries and within half the budget each, around a
    marker that counts exactly the characters left out. *)
Theorem truncate_middle_chars_correct s max :
  (char_count s <= usize_max)%N ->
  ((byte_len s <= max)%N /\ truncate_middle_chars s max = Done s) \/
  (exists front mid suffix, s = front ++ mid ++ suffix /\ mid <> [] /\ (max < byte_len s)%N /\
     (byte_len front <= max / 2)%N /\ (byte_len suffix <= max - max / 2)%N /\
     truncate_middle_chars s max =
     Done (front ++ [8230%N] ++ decimal (char_count mid) ++ lit " chars truncated" ++ [8230%N]
           ++ suffix)).
Proof.
  intros Hlen. destruct (truncate_spec s max false Hlen)
    as [([->|Hfit] & Hout)|(front & mid & suffix & Hs & Hm & Hbig & Hf & Hx & Hout)].
  - left. split; [simpl; lia|done].
  - by left.
  - right. exists front, mid, suffix. split_and!; [done..|].
    unfold truncate_middle_chars. rewrite Hout. simpl. by rewrite <- !app_assoc.
Qed.

Lemma truncate_middle_chars_correct_witness :
  (exists front mid suffix, lit "0123456789" = front ++ mid ++ suffix /\
     truncate_middle_chars (lit "0123456789") 4 =
     Done (front ++ [8230%N] ++ decimal (char_count mid) ++ lit " chars truncated" ++ [8230%N]
           ++ suffix)) /\
  truncate_middle_chars (lit "0123456789") 4
  = Done (lit "01" ++ [8230%N] ++ lit "6 chars truncated" ++ [8230%N] ++ lit "89").
Proof.
  split; [|vm_compute; reflexivity].
  destruct (truncate_middle_chars_correct (lit "0123456789") 4)
    as [[H _]|(front & mid & suffix & Hs & _ & _ & _ & _ & Hout)].
  - vm_compute. discriminate.
  - vm_compute in H. by exfalso.
  - exists front, mid, suffix. split; [exact Hs|exact Hout].
Defined.

(** Truncating the items of a tool output never fails; it keeps every image
    and every encrypted item, in order, and when the texts and audio clips fit
    the budget it returns all items but the empty texts, unchanged. *)
Theorem truncate_items_correct policy audio items :
  Forall item_fits items ->
  exists out, truncate_function_output_items_with_policy policy audio items = Done out /\
    filter (fun i => is_kept i = true) out = filter (fun i => is_kept i = true) items /\
    ((total_cost policy audio items
        <= match policy with Bytes b => b | Tokens t => t end)%N ->
     out = filter (fun i => is_empty_text i = false) items).
Proof.
  intros Hfit. unfold truncate_function_output_items_with_policy.
  set (budget := match policy with Bytes _ => _ | Tokens _ => _ end).
  destruct (item_loop_kept policy audio items (mkItems [] budget 0 0) Hfit) as (st & Hl & Hk).
  rewrite Hl. simpl. eexists; split; [done|]. split.
  - rewrite !filter_app, Hk. simpl. unfold omission_note.
    destruct (0 <? omitted_text_items st)%N, (0 <? omitted_audio_items st)%N; simpl;
      by rewrite app_nil_r.
  - intros Hc. destruct (item_loop_within policy audio items (mkItems [] budget 0 0))
      as (st' & Hl' & Ho & Ht & Ha); [unfold budget; by destruct policy|].
    rewrite Hl in Hl'. injection Hl' as <-. rewrite Ho, Ht, Ha. simpl. by rewrite app_nil_r.
Qed.

Lemma truncate_items_correct_witness :
  let items := [InputText (lit "hello"); InputImage (lit "u") (Some Low); InputText [];
                InputAudio (lit "v")] in
  exists out, truncate_function_output_items_with_policy (Bytes 9) (fun _ => 1%N) items = Done out /\
    out = [InputText (lit "hello"); InputImage (lit "u") (Some Low); InputAudio (lit "v")].
Proof.
  intros items. destruct (truncate_items_correct (Bytes 9) (fun _ => 1%N) items) as (out & Ho & _ & Hw).
  - repeat constructor; vm_compute; discriminate.
  - exists out. split; [exact Ho|]. apply Hw. vm_compute. discriminate.
Defined.
