(* ===== verification/ResponseItems.v ===== *)
(** * ResponseItems: [codex-rs/protocol/src/models.rs],
    [context-fragments/src/annotated_content.rs], [history/src/lib.rs]

    The items of a conversation: messages, tool calls and their outputs,
    reasoning and compactions, with the constructors of the source.  Fields
    that the modelled code only carries along are bundled in [Extra]; JSON
    values that it does not look into are [Json].  An item in the history is
    wrapped in an envelope.  The content of a message travels with one
    classification per entry ([AnnotatedContent]). *)

From stdpp Require Import base list strings.
From S2P Require Import Prelude Truncate.

Open Scope rust_scope.

Inductive FunctionCallOutputBody :=
| Text (content : rstr)
| ContentItems (items : list FunctionCallOutputContentItem).

Record FunctionCallOutputPayload := mkPayload {
  body : FunctionCallOutputBody;
  success : option bool
}.

Definition from_text (content : rstr) : FunctionCallOutputPayload := mkPayload (Text content) None.

(** The constructors that the content of messages shares with that of tool
    outputs and of agent messages have a prefix. *)
Inductive ContentItem :=
| MsgInputText (text : rstr)
| MsgInputImage (image_url : rstr) (detail : option ImageDetail)
| MsgInputAudio (audio_url : rstr)
| OutputText (text : rstr).

Inductive AgentMessageInputContent :=
| AgentInputText (text : rstr)
| AgentEncryptedContent (encrypted_content : rstr).

Inductive MessagePhase := Commentary | FinalAnswer.

Record CodexHarnessMetadata := mkHarness { client_authored : bool }.

Record AnnotatedContent := mkAnnotated {
  content : ContentItem;
  kind : rstr
}.

Definition input_text (text kind : rstr) : AnnotatedContent := mkAnnotated (MsgInputText text) kind.

Definition into_parts (c : AnnotatedContent) : ContentItem * rstr := (content c, kind c).

Section items.
Context {Extra Json : Type}.

Record InternalChatMessageMetadataPassthrough := mkPassthrough {
  meta_turn_id : option rstr;
  create_time : option Json;
  content_item_kinds : option (list rstr);
  executed_tool_calls : option (list Extra)
}.

Definition default_passthrough : InternalChatMessageMetadataPassthrough :=
  mkPassthrough None None None None.

Definition set_content_item_kinds (kinds : option (list rstr))
    (m : InternalChatMessageMetadataPassthrough) : InternalChatMessageMetadataPassthrough :=
  mkPassthrough (meta_turn_id m) (create_time m) kinds (executed_tool_calls m).

Let Meta := option InternalChatMessageMetadataPassthrough.

Inductive ResponseItem :=
| AdditionalTools (id : option rstr) (role : rstr) (tools : list Json)
| Message (id : option rstr) (role : rstr) (content : list ContentItem)
    (phase : option MessagePhase) (meta : Meta)
| AgentMessage (id : option rstr) (author recipient : rstr)
    (content : list AgentMessageInputContent) (meta : Meta)
| Reasoning (id : option rstr) (extra : Extra) (encrypted_content : option rstr) (meta : Meta)
| LocalShellCall (id : option rstr) (call_id : option rstr) (extra : Extra) (meta : Meta)
| FunctionCall (id : option rstr) (call_id : rstr) (extra : Extra) (meta : Meta)
| ToolSearchCall (id : option rstr) (call_id : option rstr) (extra : Extra) (meta : Meta)
| FunctionCallOutput (id : option rstr) (call_id : option rstr) (name namespace : option rstr)
    (output : FunctionCallOutputPayload) (meta : Meta)
| CustomToolCall (id : option rstr) (call_id : rstr) (extra : Extra) (meta : Meta)
| CustomToolCallOutput (id : option rstr) (call_id : rstr) (name : option rstr)
    (output : FunctionCallOutputPayload) (meta : Meta)
| ToolSearchOutput (id : option rstr) (call_id : option rstr) (status execution : rstr)
    (tools : list Json) (meta : Meta)
| WebSearchCall (id : option rstr) (extra : Extra) (meta : Meta)
| ImageGenerationCall (id : option rstr) (status : rstr) (revised_prompt : option rstr)
    (result : rstr) (meta : Meta)
| Compaction (id : option rstr) (encrypted_content : rstr) (meta : Meta)
| CompactionTrigger
| ContextCompaction (id : option rstr) (encrypted_content : option rstr) (meta : Meta)
| Other.

Record ResponseItemEnvelope := mkEnvelope {
  item : ResponseItem;
  metadata : option CodexHarnessMetadata
}.

Definition new_envelope (i : ResponseItem) : ResponseItemEnvelope := mkEnvelope i None.

Definition internal_chat_message_metadata_passthrough (i : ResponseItem) : Meta :=
  match i with
  | Message _ _ _ _ meta | AgentMessage _ _ _ _ meta | Reasoning _ _ _ meta
  | LocalShellCall _ _ _ meta | FunctionCall _ _ _ meta | ToolSearchCall _ _ _ meta
  | FunctionCallOutput _ _ _ _ _ meta | CustomToolCall _ _ _ meta
  | CustomToolCallOutput _ _ _ _ meta | ToolSearchOutput _ _ _ _ _ meta
  | WebSearchCall _ _ meta | ImageGenerationCall _ _ _ _ meta
  | Compaction _ _ meta | ContextCompaction _ _ meta => meta
  | CompactionTrigger | AdditionalTools _ _ _ | Other => None
  end.

(** The non-empty turn id stamped onto an item. *)
Definition turn_id (i : ResponseItem) : option rstr :=
  match internal_chat_message_metadata_passthrough i with
  | Some m =>
      match meta_turn_id m with
      | Some t => if is_empty t then None else Some t
      | None => None
      end
  | None => None
  end.

(** [content.zip(kinds.chain(repeat("unknown")))] *)
Fixpoint zip_kinds (content : list ContentItem) (kinds : list rstr) : list AnnotatedContent :=
  match content with
  | [] => []
  | c :: content' =>
      match kinds with
      | k :: kinds' => mkAnnotated c k :: zip_kinds content' kinds'
      | [] => mkAnnotated c (lit "unknown") :: zip_kinds content' []
      end
  end.

(** Takes the content out of a message: the item that is left, and the
    content with its classifications. *)
Definition to_annotated_content (i : ResponseItem)
  : ResponseItem * option (list AnnotatedContent) :=
  match i with
  | Message id role content phase meta =>
      let kinds := match meta with
                   | Some m => default [] (content_item_kinds m)
                   | None => []
                   end in
      (Message id role [] phase (set_content_item_kinds None <$> meta),
       Some (zip_kinds content kinds))
  | _ => (i, None)
  end.

Definition set_annotated_content (i : ResponseItem) (annotated_content : list AnnotatedContent)
  : ResponseItem * option unit :=
  match i with
  | Message id role _ phase meta =>
      let parts := into_parts <$> annotated_content in
      (Message id role parts.*1 phase
         (Some (set_content_item_kinds (Some parts.*2) (default default_passthrough meta))),
       Some ())
  | _ => (i, None)
  end.
End items.
Arguments InternalChatMessageMetadataPassthrough : clear implicits.
Arguments ResponseItem : clear implicits.
Arguments ResponseItemEnvelope : clear implicits.

(** ** The classifications of a message *)

(** A message has one classification per content entry. *)
Definition kinds_aligned {Extra Json} (i : ResponseItem Extra Json) : Prop :=
  match i with
  | Message _ _ content _ (Some m) =>
      forall kinds, content_item_kinds m = Some kinds -> length kinds = length content
  | _ => True
  end.

Lemma zip_kinds_content content kinds : ResponseItems.content <$> zip_kinds content kinds = content.
Proof.
  revert kinds. induction content as [|c content IH]; intros [|k kinds]; simpl; f_equal; auto.
Qed.

Lemma zip_kinds_kinds content kinds :
  length kinds = length content -> kind <$> zip_kinds content kinds = kinds.
Proof.
  revert kinds. induction content as [|c content IH]; intros [|k kinds]; simpl; intros [=]; f_equal; auto.
Qed.

Lemma zip_kinds_parts (l : list AnnotatedContent) :
  zip_kinds (into_parts <$> l).*1 (into_parts <$> l).*2 = l.
Proof. induction l as [|[c k] l IH]; [done|]. cbn. f_equal. exact IH. Qed.
