(* ===== verification/CallPairs.v ===== *)
(** * CallPairs: [codex-rs/core/src/context_manager/normalize.rs]

    The pairing of tool calls with their outputs in the conversation history
    that is sent to the model: synthetic outputs are inserted for calls without
    one, outputs without a call are removed, and the partner of an item is
    found and removed with it.

    [debug] says whether the build has debug assertions, in which
    [error_or_panic] panics.  The version-5 UUID of a name is an argument. *)

From stdpp Require Import base list gmap strings.
From S2P Require Import Prelude Truncate ResponseItems.

Open Scope rust_scope.

Section history.
Context {Extra Json : Type}.

Abbreviation ResponseItem := (ResponseItem Extra Json).
Abbreviation ResponseItemEnvelope := (ResponseItemEnvelope Extra Json).

Context (debug : bool) (new_v5 : rstr -> rstr).

Definition synthetic_output_id (prefix : rstr) (item_id : option rstr) : option rstr :=
  match item_id with
  | Some source_id =>
      if is_empty source_id then None
      else Some (prefix ++ lit "_" ++ new_v5 (prefix ++ lit ":" ++ source_id))
  | None => None
  end.

(** ** [ensure_call_outputs_present] *)

Record id_sets := mkIds {
  function_ids : gset rstr;
  tool_search_ids : gset rstr;
  custom_tool_ids : gset rstr
}.

Definition no_ids : id_sets := mkIds ∅ ∅ ∅.

Definition note_output (ids : id_sets) (e : ResponseItemEnvelope) : id_sets :=
  match item e with
  | FunctionCallOutput _ (Some call_id) _ _ _ _ =>
      mkIds ({[ call_id ]} ∪ function_ids ids) (tool_search_ids ids) (custom_tool_ids ids)
  | ToolSearchOutput _ (Some call_id) _ _ _ _ =>
      mkIds (function_ids ids) ({[ call_id ]} ∪ tool_search_ids ids) (custom_tool_ids ids)
  | CustomToolCallOutput _ call_id _ _ _ =>
      mkIds (function_ids ids) (tool_search_ids ids) ({[ call_id ]} ∪ custom_tool_ids ids)
  | _ => ids
  end.

Definition aborted_output (id : option rstr) (call_id : rstr) : ResponseItemEnvelope :=
  new_envelope (FunctionCallOutput (synthetic_output_id (lit "fco") id) (Some call_id) None None
                  (from_text (lit "aborted")) None).

(** The output to insert after an item, and whether its absence is reported
    through [error_or_panic]. *)
Definition missing_output (ids : id_sets) (e : ResponseItemEnvelope)
  : option (ResponseItemEnvelope * bool) :=
  match item e with
  | FunctionCall id call_id _ _ =>
      if bool_decide (call_id ∈ function_ids ids) then None
      else Some (aborted_output id call_id, false)
  | ToolSearchCall id (Some call_id) _ _ =>
      if bool_decide (call_id ∈ tool_search_ids ids) then None
      else Some (new_envelope (ToolSearchOutput (synthetic_output_id (lit "tso") id) (Some call_id)
                   (lit "completed") (lit "client") [] None), false)
  | CustomToolCall id call_id _ _ =>
      if bool_decide (call_id ∈ custom_tool_ids ids) then None
      else Some (new_envelope (CustomToolCallOutput (synthetic_output_id (lit "ctco") id) call_id None
                   (from_text (lit "aborted")) None), true)
  | LocalShellCall id (Some call_id) _ _ =>
      if bool_decide (call_id ∈ function_ids ids) then None
      else Some (aborted_output id call_id, true)
  | _ => None
  end.

(** [missing_outputs_to_insert], with the index of each call. *)
Fixpoint collect_missing (ids : id_sets) (items : list ResponseItemEnvelope) (idx : nat)
  : outcome unit (list (nat * ResponseItemEnvelope)) :=
  match items with
  | [] => Done []
  | e :: items' =>
      match missing_output ids e with
      | Some (output, reported) =>
          if reported && debug then Panic
          else others ← collect_missing ids items' (S idx); Done ((idx, output) :: others)
      | None => collect_missing ids items' (S idx)
      end
  end.

(** [Vec::insert] *)
Definition insert_at {A} (i : nat) (x : A) (l : list A) : outcome unit (list A) :=
  if i <=? length l then Done (take i l ++ x :: drop i l) else Panic.

Fixpoint insert_missing (missing : list (nat * ResponseItemEnvelope))
    (items : list ResponseItemEnvelope) : outcome unit (list ResponseItemEnvelope) :=
  match missing with
  | [] => Done items
  | (idx, output) :: others =>
      items' ← insert_missing others items;
      insert_at (idx + 1) output items'
  end.

Definition ensure_call_outputs_present (items : list ResponseItemEnvelope)
  : outcome unit (list ResponseItemEnvelope) :=
  let ids := foldl note_output no_ids items in
  missing ← collect_missing ids items 0;
  insert_missing missing items.

(** ** [remove_orphan_outputs] *)

Definition note_call (ids : id_sets) (e : ResponseItemEnvelope) : id_sets :=
  match item e with
  | FunctionCall _ call_id _ _ | LocalShellCall _ (Some call_id) _ _ =>
      mkIds ({[ call_id ]} ∪ function_ids ids) (tool_search_ids ids) (custom_tool_ids ids)
  | ToolSearchCall _ (Some call_id) _ _ =>
      mkIds (function_ids ids) ({[ call_id ]} ∪ tool_search_ids ids) (custom_tool_ids ids)
  | CustomToolCall _ call_id _ _ =>
      mkIds (function_ids ids) (tool_search_ids ids) ({[ call_id ]} ∪ custom_tool_ids ids)
  | _ => ids
  end.

Definition is_orphan (ids : id_sets) (e : ResponseItemEnvelope) : bool :=
  match item e with
  | FunctionCallOutput _ (Some call_id) _ _ _ _ => negb (bool_decide (call_id ∈ function_ids ids))
  | CustomToolCallOutput _ call_id _ _ _ => negb (bool_decide (call_id ∈ custom_tool_ids ids))
  | ToolSearchOutput _ (Some call_id) _ execution _ _ =>
      (execution != lit "server") && negb (bool_decide (call_id ∈ tool_search_ids ids))
  | _ => false
  end.

Fixpoint orphan_positions (ids : id_sets) (items : list ResponseItemEnvelope) (position : nat)
  : list nat :=
  match items with
  | [] => []
  | e :: items' =>
      (if is_orphan ids e then [position] else []) ++ orphan_positions ids items' (S position)
  end.

(** [items.retain] with the peekable list of positions. *)
Fixpoint retain_positions (items : list ResponseItemEnvelope) (position : nat) (orphans : list nat)
  : list ResponseItemEnvelope :=
  match items with
  | [] => []
  | e :: items' =>
      match orphans with
      | o :: orphans' =>
          if o =? position then retain_positions items' (S position) orphans'
          else e :: retain_positions items' (S position) orphans
      | [] => e :: retain_positions items' (S position) []
      end
  end.

Definition remove_orphan_outputs (items : list ResponseItemEnvelope)
  : outcome unit (list ResponseItemEnvelope) :=
  let ids := foldl note_call no_ids items in
  let orphans := orphan_positions ids items 0 in
  if debug && negb (is_empty orphans) then Panic
  else if is_empty orphans then Done items
  else Done (retain_positions items 0 orphans).

(** The pairing part of [normalize_history]. *)
Definition pair_history (items : list ResponseItemEnvelope)
  : outcome unit (list ResponseItemEnvelope) :=
  items ← ensure_call_outputs_present items;
  remove_orphan_outputs items.

(** ** [remove_corresponding_for] *)

(** [Iterator::position] and [Vec::remove] *)
Fixpoint remove_first_matching (predicate : ResponseItem -> bool)
    (items : list ResponseItemEnvelope) : list ResponseItemEnvelope :=
  match items with
  | [] => []
  | e :: items' =>
      if predicate (item e) then items' else e :: remove_first_matching predicate items'
  end.

Definition is_function_output (call_id : rstr) (i : ResponseItem) : bool :=
  match i with FunctionCallOutput _ (Some existing) _ _ _ _ => existing == call_id | _ => false end.

Definition is_function_call (call_id : rstr) (i : ResponseItem) : bool :=
  match i with FunctionCall _ existing _ _ => existing == call_id | _ => false end.

Definition is_local_shell_call (call_id : rstr) (i : ResponseItem) : bool :=
  match i with LocalShellCall _ (Some existing) _ _ => existing == call_id | _ => false end.

Definition is_tool_search_output (call_id : rstr) (i : ResponseItem) : bool :=
  match i with ToolSearchOutput _ (Some existing) _ _ _ _ => existing == call_id | _ => false end.

Definition is_tool_search_call (call_id : rstr) (i : ResponseItem) : bool :=
  match i with ToolSearchCall _ (Some existing) _ _ => existing == call_id | _ => false end.

Definition is_custom_output (call_id : rstr) (i : ResponseItem) : bool :=
  match i with CustomToolCallOutput _ existing _ _ _ => existing == call_id | _ => false end.

Definition is_custom_call (call_id : rstr) (i : ResponseItem) : bool :=
  match i with CustomToolCall _ existing _ _ => existing == call_id | _ => false end.

Definition remove_corresponding_for (i : ResponseItem) (items : list ResponseItemEnvelope)
  : list ResponseItemEnvelope :=
  match i with
  | FunctionCall _ call_id _ _ => remove_first_matching (is_function_output call_id) items
  | FunctionCallOutput _ (Some call_id) _ _ _ _ =>
      if existsb (fun e => is_function_call call_id (item e)) items
      then remove_first_matching (is_function_call call_id) items
      else remove_first_matching (is_local_shell_call call_id) items
  | ToolSearchCall _ (Some call_id) _ _ => remove_first_matching (is_tool_search_output call_id) items
  | ToolSearchOutput _ (Some call_id) _ _ _ _ =>
      remove_first_matching (is_tool_search_call call_id) items
  | CustomToolCall _ call_id _ _ => remove_first_matching (is_custom_output call_id) items
  | CustomToolCallOutput _ call_id _ _ _ => remove_first_matching (is_custom_call call_id) items
  | LocalShellCall _ (Some call_id) _ _ => remove_first_matching (is_function_output call_id) items
  | _ => items
  end.

End history.

(** ** Pairs *)

Inductive pair_kind := FunctionPair | SearchPair | CustomPair.

#[export] Instance pair_kind_eq_dec : EqDecision pair_kind.
Proof. solve_decision. Defined.

Section pairs.
Context {Extra Json : Type}.
Implicit Types (e o : ResponseItemEnvelope Extra Json)
  (items : list (ResponseItemEnvelope Extra Json)) (ids : id_sets).

Definition call_key e : option (pair_kind * rstr) :=
  match item e with
  | FunctionCall _ call_id _ _ | LocalShellCall _ (Some call_id) _ _ => Some (FunctionPair, call_id)
  | ToolSearchCall _ (Some call_id) _ _ => Some (SearchPair, call_id)
  | CustomToolCall _ call_id _ _ => Some (CustomPair, call_id)
  | _ => None
  end.

Definition output_key e : option (pair_kind * rstr) :=
  match item e with
  | FunctionCallOutput _ (Some call_id) _ _ _ _ => Some (FunctionPair, call_id)
  | ToolSearchOutput _ (Some call_id) _ _ _ _ => Some (SearchPair, call_id)
  | CustomToolCallOutput _ call_id _ _ _ => Some (CustomPair, call_id)
  | _ => None
  end.

(** Tool searches run by the server may lack their call. *)
Definition needs_call e : bool :=
  match item e with
  | ToolSearchOutput _ _ _ execution _ _ => execution != lit "server"
  | _ => true
  end.

Definition has_key (key : ResponseItemEnvelope Extra Json -> option (pair_kind * rstr))
    (k : pair_kind * rstr) items : Prop :=
  exists e, e ∈ items /\ key e = Some k.

Definition calls_answered items : Prop :=
  forall e k, e ∈ items -> call_key e = Some k -> has_key output_key k items.

Definition outputs_called items : Prop :=
  forall e k, e ∈ items -> output_key e = Some k -> needs_call e = true ->
  has_key call_key k items.

Definition paired items : Prop := calls_answered items /\ outputs_called items.

Lemma has_key_mono key k items items' :
  (forall e, e ∈ items -> e ∈ items') -> has_key key k items -> has_key key k items'.
Proof. intros Hsub (e & He & Hk). exists e. auto. Qed.

Lemma has_key_cons key k e items :
  has_key key k (e :: items) <-> key e = Some k \/ has_key key k items.
Proof.
  unfold has_key. split.
  - intros (x & [->|Hx]%elem_of_cons & Hk); eauto.
  - intros [Hk|(x & Hx & Hk)]; [exists e; split; [left|done]|exists x; split; [by right|done]].
Qed.

(** ** The collected ids are the keys *)

Definition in_ids ids (k : pair_kind * rstr) : Prop :=
  match k.1 with
  | FunctionPair => k.2 ∈ function_ids ids
  | SearchPair => k.2 ∈ tool_search_ids ids
  | CustomPair => k.2 ∈ custom_tool_ids ids
  end.

#[export] Instance in_ids_dec ids k : Decision (in_ids ids k).
Proof. unfold in_ids. destruct k.1; apply _. Defined.

Lemma note_output_ids ids e k :
  in_ids (note_output ids e) k <-> output_key e = Some k \/ in_ids ids k.
Proof.
  destruct k as [kd i]. unfold note_output, output_key, in_ids.
  destruct (item e) as [| | | |? []| |? []|? []| | |? []| | | | | |], kd; simpl;
    rewrite ?elem_of_union, ?elem_of_singleton; split; intros; destruct_or?; simplify_eq; auto.
Qed.

Lemma note_call_ids ids e k :
  in_ids (note_call ids e) k <-> call_key e = Some k \/ in_ids ids k.
Proof.
  destruct k as [kd i]. unfold note_call, call_key, in_ids.
  destruct (item e) as [| | | |? []| |? []|? []| | |? []| | | | | |], kd; simpl;
    rewrite ?elem_of_union, ?elem_of_singleton; split; intros; destruct_or?; simplify_eq; auto.
Qed.

Lemma noted_ids note key ids items k :
  (forall ids e k, in_ids (note ids e) k <-> key e = Some k \/ in_ids ids k) ->
  in_ids (foldl note ids items) k <-> has_key key k items \/ in_ids ids k.
Proof.
  intros Hnote. revert ids. induction items as [|e items IH]; intros ids; simpl.
  - split; [auto|]. intros [(e & He & _)|?]; [by apply elem_of_nil in He|done].
  - rewrite IH, Hnote, has_key_cons. tauto.
Qed.

Lemma no_ids_empty k : ~ in_ids no_ids k.
Proof. destruct k as [[] i]; unfold in_ids; simpl; apply not_elem_of_empty. Qed.

Lemma output_ids_spec items k :
  in_ids (foldl note_output no_ids items) k <-> has_key output_key k items.
Proof.
  rewrite (noted_ids note_output output_key) by apply note_output_ids.
  pose proof (no_ids_empty k). tauto.
Qed.

Lemma call_ids_spec items k :
  in_ids (foldl note_call no_ids items) k <-> has_key call_key k items.
Proof.
  rewrite (noted_ids note_call call_key) by apply note_call_ids.
  pose proof (no_ids_empty k). tauto.
Qed.

(** ** Missing outputs *)

Section ensure.
Context (new_v5 : rstr -> rstr).

Lemma missing_output_Some ids e o r :
  missing_output new_v5 ids e = Some (o, r) ->
  exists k, call_key e = Some k /\ output_key o = Some k /\ call_key o = None.
Proof.
  unfold missing_output, call_key.
  destruct (item e) as [| | | |? []| |? []|? []| | |? []| | | | | |]; try done; case_bool_decide; intros [= <- <-]; eauto.
Qed.

Lemma missing_output_None ids e k :
  call_key e = Some k -> missing_output new_v5 ids e = None <-> in_ids ids k.
Proof.
  unfold missing_output, call_key, in_ids.
  destruct (item e) as [| | | |? []| |? []|? []| | |? []| | | | | |]; intros [= <-]; simpl; by case_bool_decide.
Qed.

Lemma missing_output_not_call ids e :
  call_key e = None -> missing_output new_v5 ids e = None.
Proof. unfold missing_output, call_key. by destruct (item e) as [| | | |? []| |? []|? []| | |? []| | | | | |]. Qed.

(** The item and the output inserted after it. *)
Definition expand ids e : list (ResponseItemEnvelope Extra Json) :=
  e :: match missing_output new_v5 ids e with Some (o, _) => [o] | None => [] end.

Fixpoint missing_list ids items (idx : nat) : list (nat * ResponseItemEnvelope Extra Json) :=
  match items with
  | [] => []
  | e :: items' =>
      match missing_output new_v5 ids e with
      | Some (o, _) => (idx, o) :: missing_list ids items' (S idx)
      | None => missing_list ids items' (S idx)
      end
  end.

Lemma collect_missing_release ids items idx :
  collect_missing false new_v5 ids items idx = Done (missing_list ids items idx).
Proof.
  revert idx. induction items as [|e items IH]; intros idx; simpl; [done|].
  destruct (missing_output new_v5 ids e) as [[o r]|]; [|done].
  rewrite andb_false_r, IH. done.
Qed.

(** Inserting from the last index to the first expands each call in place. *)
Lemma insert_missing_expand ids items pre :
  insert_missing (missing_list ids items (length pre)) (pre ++ items)
  = Done (pre ++ (items ≫= expand ids)).
Proof.
  revert pre. induction items as [|e items IH]; intros pre; [done|].
  specialize (IH (pre ++ [e])). rewrite length_app in IH. simpl in IH.
  rewrite Nat.add_1_r, <- !app_assoc in IH. simpl in IH.
  rewrite bind_cons. unfold expand at 1. simpl.
  destruct (missing_output new_v5 ids e) as [[o r]|]; simpl; rewrite IH; [|done].
  simpl. unfold insert_at.
  rewrite (proj2 (Nat.leb_le _ _)) by (rewrite length_app; simpl; lia). f_equal.
  rewrite take_app, drop_app, take_ge, drop_ge by lia.
  replace (length pre + 1 - length pre) with 1 by lia. simpl. by rewrite <- app_assoc, take_0, drop_0.
Qed.

Lemma ensure_release items :
  ensure_call_outputs_present false new_v5 items
  = Done (items ≫= expand (foldl note_output no_ids items)).
Proof.
  unfold ensure_call_outputs_present. rewrite collect_missing_release. simpl.
  exact (insert_missing_expand _ items []).
Qed.

Lemma expand_call_keys ids items k :
  has_key call_key k (items ≫= expand ids) <-> has_key call_key k items.
Proof.
  induction items as [|e items IH]; [done|]. rewrite bind_cons. unfold expand at 1.
  rewrite <- app_comm_cons, !has_key_cons, <- IH.
  destruct (missing_output new_v5 ids e) as [[o r]|] eqn:E; [|done].
  destruct (missing_output_Some _ _ _ _ E) as (k' & _ & _ & Ho).
  simpl. rewrite has_key_cons, Ho. split; [intros [?|[?|?]]|intros [?|?]]; auto; done.
Qed.

(** ** Orphans *)

Lemma is_orphan_spec ids e :
  is_orphan ids e = true <->
  exists k, output_key e = Some k /\ needs_call e = true /\ ~ in_ids ids k.
Proof.
  unfold is_orphan, output_key, needs_call, in_ids.
  destruct (item e) as [| | | |? []| |? []|? []| | |? []| | | | | |];
    try (split; [done|intros (? & [=] & _)]);
    case_bool_decide; simpl; rewrite ?andb_true_r, ?andb_false_r;
    (split; [intros ?; try done; eexists; by split_and!|intros (k & [= <-] & ? & ?); done]).
Qed.

Lemma orphan_positions_bound ids items pos n :
  n ∈ orphan_positions ids items pos -> pos <= n.
Proof.
  revert pos. induction items as [|e items IH]; intros pos; simpl; [by intros ?%elem_of_nil|].
  rewrite elem_of_app. intros [H|H%IH]; [|lia].
  destruct (is_orphan ids e); [by apply list_elem_of_singleton in H as ->|by apply elem_of_nil in H].
Qed.

Lemma retain_positions_filter ids items pos :
  retain_positions items pos (orphan_positions ids items pos)
  = filter (fun e => is_orphan ids e = false) items.
Proof.
  revert pos. induction items as [|e items IH]; intros pos; [done|].
  cbn [orphan_positions retain_positions]. destruct (is_orphan ids e) eqn:E.
  - rewrite filter_cons_False by by rewrite E. simpl. by rewrite Nat.eqb_refl, IH.
  - rewrite filter_cons_True by done. simpl. rewrite <- (IH (S pos)).
    destruct (orphan_positions ids items (S pos)) as [|n ns] eqn:Ep; [done|].
    assert (S pos <= n) by (apply (orphan_positions_bound ids items); rewrite Ep; left).
    destruct (Nat.eqb_spec n pos); [lia|done].
Qed.

Lemma orphan_positions_nil ids items pos :
  orphan_positions ids items pos = [] <-> Forall (fun e => is_orphan ids e = false) items.
Proof.
  revert pos. induction items as [|e items IH]; intros pos; simpl; [by split|].
  rewrite Forall_cons, <- (IH (S pos)). destruct (is_orphan ids e); simpl.
  - split; [done|]. by intros [? _].
  - tauto.
Qed.

Lemma remove_orphans_release items :
  remove_orphan_outputs false items
  = Done (filter (fun e => is_orphan (foldl note_call no_ids items) e = false) items).
Proof.
  unfold remove_orphan_outputs. simpl. destruct (is_empty _) eqn:E.
  - apply is_empty_true in E. f_equal.
    rewrite <- (retain_positions_filter _ _ 0), E. clear E. generalize 0.
    induction items as [|e items IH]; intros n; simpl; [done|]. by rewrite <- IH.
  - by rewrite retain_positions_filter.
Qed.

(** ** The normalised history *)

Definition answered items : list (ResponseItemEnvelope Extra Json) :=
  items ≫= expand (foldl note_output no_ids items).

Definition normalised items : list (ResponseItemEnvelope Extra Json) :=
  filter (fun e => is_orphan (foldl note_call no_ids (answered items)) e = false) (answered items).

Lemma pair_history_release items : pair_history false new_v5 items = Done (normalised items).
Proof.
  unfold pair_history. rewrite ensure_release. simpl. apply remove_orphans_release.
Qed.

Lemma call_not_output e k : call_key e = Some k -> output_key e = None.
Proof. unfold call_key, output_key. by destruct (item e) as [| | | |? []| |? []|? []| | |? []| | | | | |]. Qed.

Lemma call_not_orphan ids e k : call_key e = Some k -> is_orphan ids e = false.
Proof.
  intros Hk. apply not_true_iff_false. rewrite is_orphan_spec. intros (k' & Ho & _).
  by rewrite (call_not_output _ _ Hk) in Ho.
Qed.

(** Every call of the expanded history has an output there. *)
Lemma answered_calls items : calls_answered (answered items).
Proof.
  intros e k He Hk. unfold answered in *. set (ids := foldl note_output no_ids items) in *.
  apply list_elem_of_bind in He as (e0 & He & He0). unfold expand in He.
  assert (e = e0) as ->.
  { apply elem_of_cons in He as [->|He]; [done|].
    destruct (missing_output new_v5 ids e0) as [[o r]|] eqn:E; [|by apply elem_of_nil in He].
    apply list_elem_of_singleton in He as ->.
    destruct (missing_output_Some _ _ _ _ E) as (? & _ & _ & Hn). congruence. }
  destruct (missing_output new_v5 ids e0) as [[o r]|] eqn:E.
  - destruct (missing_output_Some _ _ _ _ E) as (k' & Hk' & Ho & _). rewrite Hk in Hk'. simplify_eq.
    exists o. split; [|done]. apply list_elem_of_bind. exists e0. split; [|done].
    unfold expand. rewrite E. right. left.
  - apply (missing_output_None ids e0 k Hk) in E. apply output_ids_spec in E.
    eapply has_key_mono; [|exact E]. intros x Hx. apply list_elem_of_bind. exists x.
    split; [left|done].
Qed.

Lemma normalised_paired items : paired (normalised items).
Proof.
  set (X := answered items). split.
  - intros e k [_ He]%list_elem_of_filter Hk.
    destruct (answered_calls items e k He Hk) as (o & Ho & Hok).
    exists o. split; [|done]. apply list_elem_of_filter. split; [|done].
    apply not_true_iff_false. rewrite is_orphan_spec. intros (k' & Hk' & _ & Hn).
    rewrite Hok in Hk'. simplify_eq. apply Hn, call_ids_spec. by exists e.
  - intros e k [Hne He]%list_elem_of_filter Hk Hneed.
    assert (Hin : has_key call_key k X).
    { apply call_ids_spec. destruct k as [kd i].
      apply not_true_iff_false in Hne. rewrite is_orphan_spec in Hne.
      destruct (decide (in_ids (foldl note_call no_ids X) (kd, i))) as [?|Hn]; [done|].
      exfalso. apply Hne. by exists (kd, i). }
    destruct Hin as (c & Hc & Hck). exists c. split; [|done].
    apply list_elem_of_filter. split; [by eapply call_not_orphan|done].
Qed.

(** What is kept and where the synthetic outputs go. *)
Lemma normalised_structure items :
  normalised items =
  filter (fun e => is_orphan (foldl note_call no_ids items) e = false) items
    ≫= expand (foldl note_output no_ids items).
Proof.
  unfold normalised, answered. set (ids := foldl note_output no_ids items).
  set (cids := foldl note_call no_ids items).
  assert (Hids : forall e, is_orphan (foldl note_call no_ids (items ≫= expand ids)) e = is_orphan cids e).
  { intros e. apply eq_iff_eq_true. rewrite !is_orphan_spec. unfold cids.
    split; intros (k & Hk & Hn & Hi); exists k; (split_and!; [done..|]); intros H; apply Hi;
      revert H; rewrite !call_ids_spec, expand_call_keys; done. }
  assert (Hcall : forall e k, e ∈ items -> call_key e = Some k -> in_ids cids k).
  { intros e k He Hk. apply call_ids_spec. by exists e. }
  clearbody cids. revert Hcall. generalize (foldl note_call no_ids (items ≫= expand ids)), Hids.
  clear Hids. intros xids Hids. clearbody ids. induction items as [|e items IH]; intros Hcall; [done|].
  rewrite bind_cons, filter_app, IH by (intros x k Hx; apply Hcall; by right).
  destruct (is_orphan cids e) eqn:E.
  - rewrite (filter_cons_False _ _ items) by by rewrite E.
    unfold expand at 1. rewrite missing_output_not_call.
    + rewrite filter_cons_False; [done|]. by rewrite Hids, E.
    + destruct (call_key e) as [k|] eqn:Ek; [|done]. by rewrite (call_not_orphan _ _ _ Ek) in E.
  - rewrite (filter_cons_True _ _ items) by done. rewrite bind_cons. f_equal.
    unfold expand. rewrite filter_cons_True by by rewrite Hids.
    destruct (missing_output new_v5 ids e) as [[o r]|] eqn:Em; [|done].
    destruct (missing_output_Some _ _ _ _ Em) as (k & Hk & Ho & _).
    rewrite filter_cons_True; [done|]. rewrite Hids. apply not_true_iff_false.
    rewrite is_orphan_spec. intros (k' & Hk' & _ & Hn). rewrite Ho in Hk'. simplify_eq.
    apply Hn, (Hcall e); [left|done].
Qed.

(** A paired history is left as it is, in every build. *)
Lemma paired_stable debug items :
  paired items -> pair_history debug new_v5 items = Done items.
Proof.
  intros [Hc Ho]. unfold pair_history, ensure_call_outputs_present.
  set (ids := foldl note_output no_ids items).
  assert (Hcol : forall l idx, (forall e, e ∈ l -> e ∈ items) ->
    collect_missing debug new_v5 ids l idx = Done []).
  { induction l as [|e l IH]; intros idx Hl; simpl; [done|].
    assert (missing_output new_v5 ids e = None) as ->.
    { destruct (call_key e) as [k|] eqn:Ek; [|by apply missing_output_not_call].
      apply (missing_output_None ids e k Ek), output_ids_spec, (Hc e); [apply Hl; left|done]. }
    apply IH. intros x Hx. apply Hl. by right. }
  rewrite Hcol by done. simpl. unfold remove_orphan_outputs.
  assert (orphan_positions (foldl note_call no_ids items) items 0 = []) as ->.
  { apply orphan_positions_nil. rewrite Forall_forall. intros e He.
    apply not_true_iff_false. rewrite is_orphan_spec. intros (k & Hk & Hn & Hi).
    apply Hi, call_ids_spec, (Ho e k He Hk Hn). }
  simpl. by rewrite andb_false_r.
Qed.
End ensure.

(** ** Removing the oldest item *)

(** No call id and no output id is used twice. *)
Definition unique_keys items : Prop :=
  NoDup (omap call_key items) /\ NoDup (omap output_key items).

Lemma remove_first_matching_sublist (P : ResponseItem Extra Json -> bool) items :
  sublist (remove_first_matching P items) items.
Proof.
  induction items as [|e items IH]; simpl; [done|].
  destruct (P (item e)); by constructor.
Qed.

Lemma remove_first_matching_keeps (P : ResponseItem Extra Json -> bool) items e :
  e ∈ items -> P (item e) = false -> e ∈ remove_first_matching P items.
Proof.
  induction items as [|x items IH]; simpl; [done|]. intros [->|He]%elem_of_cons Hp.
  - rewrite Hp. left.
  - destruct (P (item x)); [done|right; auto].
Qed.

(** Exactly the items with the key are gone. *)
Definition drops (key : ResponseItemEnvelope Extra Json -> option (pair_kind * rstr))
    (k : pair_kind * rstr) items (r : list (ResponseItemEnvelope Extra Json)) : Prop :=
  sublist r items /\ (forall e, e ∈ r -> key e <> Some k) /\
  (forall e, e ∈ items -> key e <> Some k -> e ∈ r).

Lemma NoDup_omap_cons {A B} (f : A -> option B) x l :
  NoDup (omap f (x :: l)) <-> (forall b, f x = Some b -> b ∉ omap f l) /\ NoDup (omap f l).
Proof.
  cbn. destruct (f x) as [b|]; rewrite ?NoDup_cons; [|by split; [|intros [_ ?]]].
  split; intros [H ?]; split; auto. by intros ? [= <-].
Qed.

Lemma omap_key_inj {A B} (f : A -> option B) (l : list A) x y b :
  NoDup (omap f l) -> x ∈ l -> y ∈ l -> f x = Some b -> f y = Some b -> x = y.
Proof.
  induction l as [|z l IH]; [by intros _ ?%elem_of_nil|].
  intros [Hn Hnd]%NoDup_omap_cons [->|Hx]%elem_of_cons [->|Hy]%elem_of_cons Hfx Hfy; auto.
  - destruct (Hn b); [done|]. apply list_elem_of_omap. eauto.
  - destruct (Hn b); [done|]. apply list_elem_of_omap. eauto.
Qed.

(** With unique keys, removing the first item that satisfies a test for the
    key removes the key, when the test holds of it at all. *)
Lemma remove_first_matching_drops (key : ResponseItemEnvelope Extra Json -> option (pair_kind * rstr))
    (P : ResponseItem Extra Json -> bool) k items :
  (forall x, P (item x) = true -> key x = Some k) -> NoDup (omap key items) ->
  (forall x, x ∈ items -> key x = Some k -> P (item x) = true) ->
  drops key k items (remove_first_matching P items).
Proof.
  intros HP Hnd Hall. split_and!; [apply remove_first_matching_sublist| |].
  - induction items as [|x items IH]; simpl; [by intros ? ?%elem_of_nil|].
    apply NoDup_omap_cons in Hnd as [Hn Hnd]. intros e He Hk. destruct (P (item x)) eqn:E.
    + apply (Hn k); [auto|]. apply list_elem_of_omap. eauto.
    + apply elem_of_cons in He as [->|He].
      * rewrite Hall in E; [done|left|done].
      * apply (IH Hnd) in He; [done|]. intros y Hy. apply Hall. by right.
  - intros e He Hk. apply remove_first_matching_keeps; [done|].
    destruct (P (item e)) eqn:E; [by apply HP in E|done].
Qed.

Ltac key_test e := unfold call_key, output_key;
  destruct (item e) as [| | | |? []| |? []|? []| | |? []| | | | | |]; simpl; rewrite ?str_eqb_true;
  (split; intros ?; by simplify_eq).

Lemma is_function_output_key i e :
  is_function_output i (item e) = true <-> output_key e = Some (FunctionPair, i).
Proof. key_test e. Qed.

Lemma is_tool_search_output_key i e :
  is_tool_search_output i (item e) = true <-> output_key e = Some (SearchPair, i).
Proof. key_test e. Qed.

Lemma is_custom_output_key i e :
  is_custom_output i (item e) = true <-> output_key e = Some (CustomPair, i).
Proof. key_test e. Qed.

Lemma is_tool_search_call_key i e :
  is_tool_search_call i (item e) = true <-> call_key e = Some (SearchPair, i).
Proof. key_test e. Qed.

Lemma is_custom_call_key i e :
  is_custom_call i (item e) = true <-> call_key e = Some (CustomPair, i).
Proof. key_test e. Qed.

Lemma function_or_shell_call_key i e :
  is_function_call i (item e) || is_local_shell_call i (item e) = true
  <-> call_key e = Some (FunctionPair, i).
Proof.
  unfold call_key. destruct (item e) as [| | | |? []| |? []|? []| | |? []| | | | | |]; simpl;
    rewrite ?orb_false_r, ?str_eqb_true; (split; intros ?; by simplify_eq).
Qed.

Lemma drop_by_test (key : ResponseItemEnvelope Extra Json -> option (pair_kind * rstr))
    (P : ResponseItem Extra Json -> bool) k items :
  (forall x, P (item x) = true <-> key x = Some k) -> NoDup (omap key items) ->
  drops key k items (remove_first_matching P items).
Proof. intros HP Hnd. apply remove_first_matching_drops; [apply HP|done|]. intros x _. apply HP. Qed.

(** A function output is answered to by a function call or, failing that, a
    local shell call. *)
Lemma drop_function_call i items :
  NoDup (omap call_key items) ->
  drops call_key (FunctionPair, i) items
    (if existsb (fun e => is_function_call i (item e)) items
     then remove_first_matching (is_function_call i) items
     else remove_first_matching (is_local_shell_call i) items).
Proof.
  intros Hnd. destruct (existsb _ items) eqn:E.
  - apply remove_first_matching_drops; [|done|].
    + intros x Hx. apply function_or_shell_call_key. by rewrite Hx.
    + apply existsb_exists in E as (c & Hc & Hci). intros x Hx Hk.
      replace x with c; [done|]. apply list_elem_of_In in Hc.
      assert (Hck : call_key c = Some (FunctionPair, i)) by (apply function_or_shell_call_key; by rewrite Hci).
      eapply omap_key_inj; eauto.
  - apply remove_first_matching_drops; [|done|].
    + intros x Hx. apply function_or_shell_call_key. by rewrite Hx, orb_true_r.
    + intros x Hx Hk. apply function_or_shell_call_key in Hk. apply orb_true_iff in Hk as [Hk|]; [|done].
      apply not_true_iff_false in E. destruct E. apply existsb_exists. exists x.
      by rewrite <- list_elem_of_In.
Qed.

(** What [remove_corresponding_for] drops: the outputs of a call, the call of
    an output. *)
Lemma remove_corresponding_drops e items :
  unique_keys items ->
  match call_key e, output_key e with
  | Some k, _ => drops output_key k items (remove_corresponding_for (item e) items)
  | None, Some k => drops call_key k items (remove_corresponding_for (item e) items)
  | None, None => remove_corresponding_for (item e) items = items
  end.
Proof.
  intros [Hc Ho]. unfold remove_corresponding_for.
  set (ck := call_key e). set (ok := output_key e).
  unfold call_key in ck. unfold output_key in ok. subst ck ok.
  destruct (item e) as [| | | |? []| |? []|? []| | |? []| | | | | |]; try done;
    try (by apply drop_function_call); apply drop_by_test; try done; intros x;
    auto using is_function_output_key, is_tool_search_output_key, is_custom_output_key,
      is_tool_search_call_key, is_custom_call_key.
Qed.
Lemma unique_keys_cons e items :
  unique_keys (e :: items) <->
  (forall k, call_key e = Some k -> ~ has_key call_key k items) /\
  (forall k, output_key e = Some k -> ~ has_key output_key k items) /\ unique_keys items.
Proof.
  assert (Hk : forall key k, k ∈ omap key items <-> has_key key k items).
  { intros key k. unfold has_key. by rewrite list_elem_of_omap. }
  unfold unique_keys. rewrite !NoDup_omap_cons. setoid_rewrite Hk. tauto.
Qed.

Lemma sublist_omap {A B} (f : A -> option B) l1 l2 :
  sublist l1 l2 -> sublist (omap f l1) (omap f l2).
Proof.
  induction 1 as [|x l1 l2 _ IH|x l1 l2 _ IH]; cbn; [done| |]; destruct (f x); by try constructor.
Qed.

Lemma unique_keys_sublist items r : sublist r items -> unique_keys items -> unique_keys r.
Proof.
  intros Hs [Hc Ho]. split; [apply (sublist_NoDup _ _ Hc)|apply (sublist_NoDup _ _ Ho)];
    by apply sublist_omap.
Qed.

(** Dropping a call's output, or an output's call, together with it. *)
Lemma paired_drop_call e items r k :
  unique_keys (e :: items) -> paired (e :: items) -> call_key e = Some k ->
  drops output_key k items r -> paired r.
Proof.
  intros (Hu & _ & _)%unique_keys_cons [Hc Ho] Hk (Hs & Hd & Hkeep).
  assert (Hok : output_key e = None) by by eapply call_not_output.
  assert (Hsub : forall x, x ∈ r -> x ∈ items) by (intros x ?; by eapply elem_of_sublist).
  split; intros x k' Hx Hxk; [|intros Hn].
  - assert (k' <> k) by (intros ->; apply (Hu k Hk); exists x; auto).
    destruct (Hc x k') as (o & [->|Hoi]%elem_of_cons & Hoo); [right; auto|done|congruence|].
    exists o. split; [|done]. apply Hkeep; congruence.
  - destruct (Ho x k') as (c & [->|Hci]%elem_of_cons & Hcc); [right; auto|done..| |].
    + rewrite Hk in Hcc. simplify_eq. by destruct (Hd x).
    + exists c. split; [|done]. apply Hkeep; [done|]. by rewrite (call_not_output _ _ Hcc).
Qed.

Lemma paired_drop_output e items r k :
  unique_keys (e :: items) -> paired (e :: items) -> call_key e = None -> output_key e = Some k ->
  drops call_key k items r -> paired r.
Proof.
  intros (_ & Hu & _)%unique_keys_cons [Hc Ho] Hck Hk (Hs & Hd & Hkeep).
  assert (Hsub : forall x, x ∈ r -> x ∈ items) by (intros x ?; by eapply elem_of_sublist).
  split; intros x k' Hx Hxk; [|intros Hn].
  - destruct (Hc x k') as (o & [->|Hoi]%elem_of_cons & Hoo); [right; auto|done| |].
    + rewrite Hk in Hoo. simplify_eq. by destruct (Hd x).
    + exists o. split; [|done]. apply Hkeep; [done|]. intros Hoc.
      by rewrite (call_not_output _ _ Hoc) in Hoo.
  - assert (k' <> k) by (intros ->; apply (Hu k Hk); exists x; auto).
    destruct (Ho x k') as (c & [->|Hci]%elem_of_cons & Hcc); [right; auto|done..|congruence|].
    exists c. split; [|done]. apply Hkeep; congruence.
Qed.

Lemma paired_drop_other e items :
  call_key e = None -> output_key e = None -> paired (e :: items) -> paired items.
Proof.
  intros Hck Hok [Hc Ho]. split; intros x k Hx Hk; [|intros Hn].
  - destruct (Hc x k) as (o & [->|?]%elem_of_cons & ?); [by right|done|congruence|by exists o].
  - destruct (Ho x k) as (c & [->|?]%elem_of_cons & ?); [by right|done..|congruence|by exists c].
Qed.

Lemma remove_corresponding_paired e items :
  unique_keys (e :: items) -> paired (e :: items) ->
  paired (remove_corresponding_for (item e) items) /\
  sublist (remove_corresponding_for (item e) items) items.
Proof.
  intros Hu Hp. assert (Hu' : unique_keys items) by by apply unique_keys_cons in Hu as (_ & _ & ?).
  pose proof (remove_corresponding_drops e items Hu') as Hd.
  destruct (call_key e) as [k|] eqn:Ec; [|destruct (output_key e) as [k|] eqn:Eo].
  - split; [by eapply paired_drop_call|apply Hd].
  - split; [by eapply paired_drop_output|apply Hd].
  - rewrite Hd. split; [by eapply paired_drop_other|done].
Qed.

(** An output whose call is not in the history. *)
Definition orphaned items e : Prop :=
  exists k, output_key e = Some k /\ needs_call e = true /\ ~ has_key call_key k items.

(** A call without an output in the history. *)
Definition unanswered items e : Prop :=
  exists k, call_key e = Some k /\ ~ has_key output_key k items.

Lemma is_orphan_orphaned items e :
  is_orphan (foldl note_call no_ids items) e = true <-> orphaned items e.
Proof. rewrite is_orphan_spec. unfold orphaned. by setoid_rewrite call_ids_spec. Qed.

Lemma missing_output_unanswered new_v5 items e :
  (exists o r, missing_output new_v5 (foldl note_output no_ids items) e = Some (o, r)) <->
  unanswered items e.
Proof.
  split.
  - intros (o & r & E). destruct (missing_output_Some _ _ _ _ _ E) as (k & Hk & _).
    exists k. split; [done|]. rewrite <- output_ids_spec.
    rewrite <- (missing_output_None new_v5 _ _ _ Hk). by rewrite E.
  - intros (k & Hk & Hn). rewrite <- output_ids_spec, <- (missing_output_None new_v5 _ _ _ Hk) in Hn.
    destruct (missing_output _ _ _) as [[o r]|]; [by eauto|done].
Qed.

(** Outside debug builds the pairing of calls and outputs never fails.  The
    result keeps the items in their order without exactly the outputs whose
    call is not there, has directly after each unanswered call one output for
    it and nothing else new, has an output for every call and a call for every
    output that needs one, and is left unchanged by pairing it again, in debug
    builds too. *)
Theorem pairing_normalises (new_v5 : rstr -> rstr) items :
  exists r (lost : ResponseItemEnvelope Extra Json -> bool)
    (added : ResponseItemEnvelope Extra Json -> option (ResponseItemEnvelope Extra Json)),
  pair_history false new_v5 items = Done r /\
  (forall e, lost e = true <-> orphaned items e) /\
  (forall e, is_Some (added e) <-> unanswered items e) /\
  (forall e o, added e = Some o -> output_key o = call_key e /\ metadata o = None) /\
  r = (filter (fun e => lost e = false) items ≫= fun e => e :: option_list (added e)) /\
  paired r /\
  forall debug, pair_history debug new_v5 r = Done r.
Proof.
  set (ids := foldl note_output no_ids items).
  exists (normalised new_v5 items), (is_orphan (foldl note_call no_ids items)),
    (fun e => fst <$> missing_output new_v5 ids e).
  pose proof (normalised_paired new_v5 items) as Hp.
  split_and!; [apply pair_history_release|apply is_orphan_orphaned| | | |done|].
  - intros e. rewrite fmap_is_Some, <- (missing_output_unanswered new_v5). fold ids. split.
    + intros [[o r] ?]. eauto.
    + intros (o & r & E). by exists (o, r).
  - intros e o ([o' r] & E & ->)%fmap_Some. simpl.
    destruct (missing_output_Some _ _ _ _ _ E) as (k & -> & ? & _). split; [done|].
    revert E. unfold missing_output.
    destruct (item e) as [| | | |? []| |? []|? []| | |? []| | | | | |]; try done; case_bool_decide; by intros [= <- <-].
  - rewrite normalised_structure. fold ids. apply list_bind_ext; [|done].
    intros e. unfold expand. by destruct (missing_output new_v5 ids e) as [[]|].
  - intros debug. by apply paired_stable.
Qed.

End pairs.

(** ** Examples *)

Module Examples.
Definition call (i : string) : ResponseItemEnvelope unit unit :=
  new_envelope (FunctionCall None (lit i) () None).
Definition shell (i : string) : ResponseItemEnvelope unit unit :=
  new_envelope (LocalShellCall None (Some (lit i)) () None).
Definition out (i : string) : ResponseItemEnvelope unit unit :=
  new_envelope (FunctionCallOutput None (Some (lit i)) None None (from_text (lit "ok")) None).
Definition other : ResponseItemEnvelope unit unit := new_envelope Other.

Example inserts_and_removes :
  pair_history false id [call "a"; other; out "b"; shell "c"; out "c"]
  = Done [call "a"; aborted_output id None (lit "a"); other; shell "c"; out "c"].
Proof. vm_compute. reflexivity. Qed.

Example debug_build_panics : pair_history true id [other; out "b"] = Panic.
Proof. vm_compute. reflexivity. Qed.
End Examples.
