(* ===== verification/ContextFragments.v ===== *)
(** * ContextFragments: [codex-rs/context-fragments/src],
    [core/src/context] (the fragments injected into the conversation),
    [core/src/event_mapping.rs] (how they are recognised),
    [core/src/context_manager/updates.rs], [core/src/state/additional_context.rs]

    The agent injects context into the conversation as messages of the roles
    [user] and [developer].  Later stages must tell injected context from what
    the user wrote: a rollback counts the user's messages only, a snapshot for
    extensions hides injected ones.  They do so by the markers around the text.

    The XML decoder of hook prompts ([from_xml]) is an argument. *)

From stdpp Require Import base list gmap strings.
From S2P Require Import Prelude Truncate ResponseItems.

Open Scope rust_scope.

(** ** [fragment.rs] *)

(** A value behind [dyn ContextualUserFragment]: what its methods return. *)
Record Fragment := mkFragment {
  role : rstr;
  content_kind : rstr;
  requires_separate_message : bool;
  markers : rstr * rstr;
  fragment_body : rstr
}.

Record RenderedFragment := mkRendered {
  rendered_role : rstr;
  annotated_content : AnnotatedContent
}.

Definition render (f : Fragment) : rstr :=
  let '(start_marker, end_marker) := markers f in
  if is_empty start_marker && is_empty end_marker then fragment_body f
  else start_marker ++ fragment_body f ++ end_marker.

Definition render_fragment (f : Fragment) : RenderedFragment :=
  mkRendered (role f) (input_text (render f) (content_kind f)).

Definition kinds_only {Extra Json} (kinds : list rstr)
  : InternalChatMessageMetadataPassthrough Extra Json := mkPassthrough None None (Some kinds) None.

(** [impl From<RenderedFragment> for ResponseItem] *)
Definition rendered_item {Extra Json} (f : RenderedFragment) : ResponseItem Extra Json :=
  let '(content, content_kind) := into_parts (annotated_content f) in
  Message None (rendered_role f) [content] None (Some (kinds_only [content_kind])).

(** [s.get(..n)] and [s.get(n..)] *)
Definition get_to (n : N) (s : rstr) : option rstr :=
  match split_at n s with Done (a, _) => Some a | _ => None end.

Definition get_from (n : N) (s : rstr) : option rstr :=
  match split_at n s with Done (_, b) => Some b | _ => None end.

Definition has_marker_prefix (marker text : rstr) : bool :=
  is_some_and (get_to (byte_len marker) text) (fun candidate => eq_ignore_ascii_case candidate marker).

Definition matches_marked_text (start_marker end_marker text : rstr) : bool :=
  if is_empty start_marker || is_empty end_marker then false
  else
    let trimmed := trim_start text in
    let starts_with_marker := has_marker_prefix start_marker trimmed in
    let trimmed := trim_end trimmed in
    let ends_with_marker :=
      is_some_and (get_from (byte_len trimmed - byte_len end_marker) trimmed)
        (fun candidate => eq_ignore_ascii_case candidate end_marker) in
    starts_with_marker && ends_with_marker.

(** ** The fragments *)

Definition ENVIRONMENT_CONTEXT_OPEN_TAG : rstr := lit "<environment_context>".
Definition ENVIRONMENT_CONTEXT_CLOSE_TAG : rstr := lit "</environment_context>".

Definition user_instructions_markers : rstr * rstr := (lit "# AGENTS.md instructions", lit "</INSTRUCTIONS>").
Definition UserInstructions (directory : option rstr) (text : rstr) : Fragment :=
  let directory := match directory with Some d => lit " for " ++ d | None => [] end in
  mkFragment (lit "user") (lit "agents_md.instructions") false user_instructions_markers
    (directory ++ [c_lf; c_lf] ++ lit "<INSTRUCTIONS>" ++ [c_lf] ++ text ++ [c_lf]).

Definition skill_instructions_markers : rstr * rstr := (lit "<skill>", lit "</skill>").
(** [resource_access] is the JSON text of the access, if there is one. *)
Definition SkillInstructions (name path contents : rstr) (resource_access : option rstr) : Fragment :=
  let resource_access :=
    match resource_access with
    | Some metadata =>
        [c_lf] ++ lit "<resource_access>" ++ metadata ++ lit "</resource_access>"
    | None => []
    end in
  mkFragment (lit "user") (lit "skills.selected_skill_instructions") false skill_instructions_markers
    ([c_lf] ++ lit "<name>" ++ name ++ lit "</name>" ++ [c_lf] ++ lit "<path>" ++ path
       ++ lit "</path>" ++ resource_access ++ [c_lf] ++ contents ++ [c_lf]).

Definition turn_aborted_markers : rstr * rstr := (lit "<turn_aborted>", lit "</turn_aborted>").
Definition TurnAborted (guidance : rstr) : Fragment :=
  mkFragment (lit "user") (lit "generic.turn_aborted") false turn_aborted_markers
    ([c_lf] ++ guidance ++ [c_lf]).

Definition model_switch_markers : rstr * rstr := (lit "<model_switch>", lit "</model_switch>").
Definition ModelSwitchInstructions (model_instructions : rstr) : Fragment :=
  mkFragment (lit "developer") (lit "model_switch.instructions") true model_switch_markers
    ([c_lf] ++ lit "The user was previously using a different model. Please continue the conversation according to the following instructions:"
       ++ [c_lf; c_lf] ++ model_instructions ++ [c_lf]).
Definition matches_model_switch (text : rstr) : bool :=
  matches_marked_text model_switch_markers.1 model_switch_markers.2 text.

Definition UnsupportedMedia (text content_kind : rstr) : Fragment :=
  mkFragment (lit "user") content_kind false ([], []) text.
Definition UnsupportedMedia_IMAGE : Fragment :=
  UnsupportedMedia (lit "image content omitted because you do not support image input")
    (lit "images.unsupported").
Definition UnsupportedMedia_AUDIO : Fragment :=
  UnsupportedMedia (lit "audio content omitted because you do not support audio input")
    (lit "audio.unsupported").

Definition CONTEXT_START_MARKER : rstr := lit "<codex_internal_context".
Definition CONTEXT_END_MARKER : rstr := lit "</codex_internal_context>".
Definition LEGACY_GOAL_CONTEXT_START_MARKER : rstr := lit "<goal_context>".
Definition LEGACY_GOAL_CONTEXT_END_MARKER : rstr := lit "</goal_context>".
Definition SOURCE_ATTR_START : rstr := lit " source=" ++ [c_dquote].
Definition SOURCE_ATTR_END : rstr := [c_dquote] ++ lit ">".

Definition is_ascii_lowercase (c : N) : bool := (97 <=? c)%N && (c <=? 122)%N.

Definition is_valid_source (source : rstr) : bool :=
  match source with
  | [] => false
  | first :: chars =>
      is_ascii_lowercase first
      && forallb (fun ch => is_ascii_lowercase ch || is_ascii_digit ch || (ch =? 95)%N) chars
  end.

Definition matches_legacy_goal_context (text : rstr) : bool :=
  starts_with LEGACY_GOAL_CONTEXT_START_MARKER text && ends_with LEGACY_GOAL_CONTEXT_END_MARKER text.

Definition matches_internal_context (text : rstr) : bool :=
  let trimmed := trim text in
  if matches_legacy_goal_context trimmed then true
  else
    match strip_prefix CONTEXT_START_MARKER trimmed with
    | None => false
    | Some rest =>
        match strip_prefix SOURCE_ATTR_START rest with
        | None => false
        | Some rest =>
            match split_once_str SOURCE_ATTR_END rest with
            | None => false
            | Some (source, body_and_close) =>
                is_valid_source source && ends_with CONTEXT_END_MARKER body_and_close
            end
        end
    end.

(** [InternalContextSource::new] and [InternalModelContextFragment::new]: an
    invalid source is refused. *)
Definition InternalModelContextFragment (source body : rstr) : option Fragment :=
  if is_valid_source source then
    Some (mkFragment (lit "user") (source ++ lit ".internal_context") false
            (CONTEXT_START_MARKER, CONTEXT_END_MARKER)
            (SOURCE_ATTR_START ++ source ++ SOURCE_ATTR_END ++ [c_lf] ++ body ++ [c_lf]))
  else None.

Definition MAX_ADDITIONAL_CONTEXT_VALUE_TOKENS : N := 1000.
Definition ADDITIONAL_CONTEXT_END_MARKER_SUFFIX : rstr := lit ">".
Definition ADDITIONAL_CONTEXT_START_MARKER_PREFIX : rstr := lit "<external_".

Definition matches_additional_context (text : rstr) : bool :=
  let trimmed := trim text in
  match strip_prefix ADDITIONAL_CONTEXT_START_MARKER_PREFIX trimmed with
  | None => false
  | Some rest =>
      match split_once_str ADDITIONAL_CONTEXT_END_MARKER_SUFFIX rest with
      | None => false
      | Some (key, value_and_close) =>
          ends_with (lit "</external_" ++ key ++ lit ">") value_and_close
      end
  end.

Definition additional_context_body (key value : rstr) : outcome unit rstr :=
  value ← fst <$> truncate_middle_with_token_budget value MAX_ADDITIONAL_CONTEXT_VALUE_TOKENS;
  Done (key ++ lit ">" ++ value ++ lit "</external_" ++ key).

Definition additional_context_developer_body (key value : rstr) : outcome unit rstr :=
  value ← fst <$> truncate_middle_with_token_budget value MAX_ADDITIONAL_CONTEXT_VALUE_TOKENS;
  Done (lit "<" ++ key ++ lit ">" ++ value ++ lit "</" ++ key ++ lit ">").

Definition AdditionalContextUserFragment (key value : rstr) : outcome unit Fragment :=
  body ← additional_context_body key value;
  Done (mkFragment (lit "user") (lit "additional_content." ++ key) false
          (ADDITIONAL_CONTEXT_START_MARKER_PREFIX, ADDITIONAL_CONTEXT_END_MARKER_SUFFIX) body).

Definition AdditionalContextDeveloperFragment (key value : rstr) : outcome unit Fragment :=
  body ← additional_context_developer_body key value;
  Done (mkFragment (lit "developer") (lit "additional_content." ++ key) false ([], []) body).

(** ** [contextual_user_message.rs] *)

Definition matches_markers (type_markers : rstr * rstr) (text : rstr) : bool :=
  matches_marked_text type_markers.1 type_markers.2 text.

Definition matches_process_limit_warning (text : rstr) : bool :=
  starts_with (lit "Warning: The maximum number of unified exec processes you can keep open is")
    (trim text).

Definition matches_apply_patch_warning (text : rstr) : bool :=
  let trimmed := trim text in
  starts_with (lit "Warning: apply_patch was requested via ") trimmed
  && ends_with (lit "Use the apply_patch tool instead of exec_command.") trimmed.

Definition matches_model_mismatch_warning (text : rstr) : bool :=
  starts_with (lit "Warning: Your account was flagged for potentially high-risk cyber activity")
    (trim text).

Definition CONTEXTUAL_USER_FRAGMENT_MATCHERS : list (rstr -> bool) :=
  [ matches_markers user_instructions_markers;
    matches_markers (ENVIRONMENT_CONTEXT_OPEN_TAG, ENVIRONMENT_CONTEXT_CLOSE_TAG);
    matches_additional_context;
    matches_markers skill_instructions_markers;
    matches_markers (lit "<user_shell_command>", lit "</user_shell_command>");
    matches_markers turn_aborted_markers;
    matches_markers (lit "<subagent_notification>", lit "</subagent_notification>");
    matches_internal_context;
    matches_markers (lit "<recommended_plugins>", lit "</recommended_plugins>");
    matches_process_limit_warning;
    matches_apply_patch_warning;
    matches_model_mismatch_warning ].

Definition is_standard_contextual_user_text (text : rstr) : bool :=
  existsb (fun matches_text => matches_text text) CONTEXTUAL_USER_FRAGMENT_MATCHERS.

Section recognise.
(** [from_xml_str::<HookPromptXml>]: the text and the run id. *)
Context (from_xml : rstr -> option (rstr * rstr)).

Definition parse_hook_prompt_fragment (text : rstr) : option (rstr * rstr) :=
  match from_xml (trim text) with
  | None => None
  | Some (text, hook_run_id) => if is_empty (trim hook_run_id) then None else Some (text, hook_run_id)
  end.

Definition is_contextual_user_fragment (content_item : ContentItem) : bool :=
  match content_item with
  | MsgInputText text =>
      is_some (parse_hook_prompt_fragment text) || is_standard_contextual_user_text text
  | _ => false
  end.

(** ** [event_mapping.rs] *)

Definition is_contextual_user_message_content (message : list ContentItem) : bool :=
  existsb is_contextual_user_fragment message.
End recognise.

Definition CONTEXTUAL_DEVELOPER_PREFIXES : list rstr :=
  lit <$> [ "<permissions instructions>"; "Approved command prefix saved:"; "<model_switch>";
            "<managed_developer_instructions>"; "<apps_instructions>"; "<collaboration_mode>";
            "<multi_agent_role>"; "<multi_agent_mode>"; "<environments_instructions>";
            "<git_attribution>"; "<plugins_instructions>"; "<realtime_conversation>";
            "<skills_instructions>"; "<tools>"; "<personality_spec>"; "<token_budget>";
            "<context_window>"; "<context_window_guidance>"; "<rollout_budget>" ]%string.

Definition is_contextual_dev_fragment (content_item : ContentItem) : bool :=
  match content_item with
  | MsgInputText text =>
      let trimmed := trim_start text in
      existsb (fun prefix => has_marker_prefix prefix trimmed) CONTEXTUAL_DEVELOPER_PREFIXES
  | _ => false
  end.

Definition is_contextual_dev_message_content (message : list ContentItem) : bool :=
  existsb is_contextual_dev_fragment message.

Definition has_non_contextual_dev_message_content (message : list ContentItem) : bool :=
  existsb (fun content_item => negb (is_contextual_dev_fragment content_item)) message.

(** ** [updates.rs] *)

Inductive MessageGroup := Standalone | Mergeable.

#[export] Instance MessageGroup_eq_dec : EqDecision MessageGroup.
Proof. solve_decision. Defined.

(** [debug_assert!] is checked when the build has debug assertions. *)
Definition build_rendered_message {Extra Json} (debug : bool) (fragments : list RenderedFragment)
  : outcome unit (option (ResponseItem Extra Json)) :=
  match fragments with
  | [] => Done None
  | first :: _ =>
      let role := rendered_role first in
      if debug && negb (forallb (fun f => rendered_role f == role) fragments) then Panic
      else
        let parts := (fun f => into_parts (annotated_content f)) <$> fragments in
        Done (Some (Message None role parts.*1 None (Some (kinds_only parts.*2))))
  end.

(** The messages are kept with the last one first. *)
Definition add_fragment (messages : list (rstr * MessageGroup * list RenderedFragment))
    (f : Fragment) : list (rstr * MessageGroup * list RenderedFragment) :=
  let group := if requires_separate_message f then Standalone else Mergeable in
  let rendered := render_fragment f in
  let role := rendered_role rendered in
  match messages with
  | (previous_role, previous_group, rendered_fragments) :: others =>
      if (previous_role == role) && bool_decide (previous_group = Mergeable)
         && bool_decide (group = Mergeable)
      then (previous_role, previous_group, rendered_fragments ++ [rendered]) :: others
      else (role, group, [rendered]) :: messages
  | [] => [(role, group, [rendered])]
  end.

Fixpoint build_messages {Extra Json} (debug : bool)
    (messages : list (rstr * MessageGroup * list RenderedFragment))
  : outcome unit (list (ResponseItem Extra Json)) :=
  match messages with
  | [] => Done []
  | (_, _, fragments) :: others =>
      message ← build_rendered_message debug fragments;
      messages ← build_messages debug others;
      Done (option_list message ++ messages)
  end.

Definition merge_contextual_fragments {Extra Json} (debug : bool) (fragments : list Fragment)
  : outcome unit (list (ResponseItem Extra Json)) :=
  build_messages debug (reverse (foldl add_fragment [] fragments)).

(** ** [additional_context.rs] of the session state *)

Inductive AdditionalContextKind := Untrusted | Application.

Record AdditionalContextEntry := mkEntry {
  value : rstr;
  entry_kind : AdditionalContextKind
}.

#[export] Instance AdditionalContextKind_eq_dec : EqDecision AdditionalContextKind.
Proof. solve_decision. Defined.

#[export] Instance AdditionalContextEntry_eq_dec : EqDecision AdditionalContextEntry.
Proof. solve_decision. Defined.

(** A [BTreeMap] by its entries in the order of the keys. *)
Definition AdditionalContextStore := list (rstr * AdditionalContextEntry).

Definition store_get (store : AdditionalContextStore) (key : rstr) : option AdditionalContextEntry :=
  snd <$> List.find (fun e => e.1 == key) store.

Definition context_fragment (key : rstr) (entry : AdditionalContextEntry) : outcome unit Fragment :=
  match entry_kind entry with
  | Untrusted => AdditionalContextUserFragment key (value entry)
  | Application => AdditionalContextDeveloperFragment key (value entry)
  end.

Fixpoint changed_fragments {Extra Json} (store values : AdditionalContextStore)
  : outcome unit (list (ResponseItem Extra Json)) :=
  match values with
  | [] => Done []
  | (key, entry) :: others =>
      if bool_decide (store_get store key = Some entry) then changed_fragments store others
      else
        f ← context_fragment key entry;
        items ← changed_fragments store others;
        Done (rendered_item (render_fragment f) :: items)
  end.

Definition merge {Extra Json} (store values : AdditionalContextStore)
  : outcome unit (list (ResponseItem Extra Json)) * AdditionalContextStore :=
  (changed_fragments store values, values).

(** ** Recognising what was rendered *)

(** The ends of a marker are not white space, so trimming leaves it alone. *)
Definition solid (start_marker end_marker : rstr) : bool :=
  negb (is_empty start_marker) && negb (is_empty end_marker)
  && (trim_start start_marker == start_marker) && (trim_end end_marker == end_marker).

Lemma solid_spec s e :
  solid s e = true -> s <> [] /\ e <> [] /\ trim_start s = s /\ trim_end e = e.
Proof.
  unfold solid. rewrite !andb_true_iff, !negb_true_iff, !is_empty_false, !str_eqb_true. tauto.
Qed.

Lemma trim_start_app s r : s <> [] -> trim_start s = s -> trim_start (s ++ r) = s ++ r.
Proof. intros Hne Hs. unfold trim_start in *. rewrite drop_while_app_ne; congruence. Qed.

Lemma trim_solid s e b : solid s e = true -> trim (s ++ b ++ e) = s ++ b ++ e.
Proof.
  intros (Hs & He & Hts & Hte)%solid_spec. unfold trim. rewrite trim_start_app by done.
  rewrite !app_assoc. by apply trim_end_prefix_id.
Qed.

Lemma has_marker_prefix_app m r : has_marker_prefix m (m ++ r) = true.
Proof.
  unfold has_marker_prefix, get_to. rewrite split_at_app. simpl. apply str_eqb_refl.
Qed.

Lemma matches_marked_render s e b :
  solid s e = true -> matches_marked_text s e (s ++ b ++ e) = true.
Proof.
  intros Hsolid. pose proof (trim_solid s e b Hsolid) as Ht. unfold trim in Ht.
  apply solid_spec in Hsolid as (Hs & He & Hts & Hte). unfold matches_marked_text.
  rewrite (proj2 (is_empty_false s)), (proj2 (is_empty_false e)) by done. cbn [orb].
  rewrite trim_start_app in Ht |- * by done. rewrite Ht, has_marker_prefix_app. cbn [andb].
  rewrite app_assoc, byte_len_app, N.add_sub. unfold get_from. rewrite split_at_app.
  simpl. apply str_eqb_refl.
Qed.

Lemma split_once_str_first c p a r :
  c ∉ a -> split_once_str (c :: p) (a ++ (c :: p) ++ r) = Some (a, r).
Proof.
  induction a as [|x a IH]; intros Hc.
  - pose proof (strip_prefix_app (c :: p) r) as H. simpl in *. by rewrite H.
  - apply not_elem_of_cons in Hc as [Hx Ha].
    change ((x :: a) ++ (c :: p) ++ r) with (x :: (a ++ (c :: p) ++ r)). cbn [split_once_str].
    rewrite strip_prefix_head_ne by done. by rewrite IH.
Qed.

Lemma valid_source_no_quote source : is_valid_source source = true -> c_dquote ∉ source.
Proof.
  destruct source as [|c cs]; [done|]. simpl. rewrite andb_true_iff, forallb_forall.
  intros [Hc Hcs] [<-|Hq]%elem_of_cons; [done|].
  apply list_elem_of_In in Hq. by specialize (Hcs _ Hq).
Qed.

(** Replaces [f] by the value it equals, without computing it. *)
Ltac subst_result :=
  match goal with
  | H : Some ?x = Some ?f |- _ => assert (f = x) by congruence; clear H; subst f
  | H : Done ?x = Done ?f |- _ => assert (f = x) by congruence; clear H; subst f
  end.

Section recognised.
Context (from_xml : rstr -> option (rstr * rstr)).

Definition recognised (f : Fragment) : Prop :=
  is_contextual_user_fragment from_xml (MsgInputText (render f)) = true.

Lemma matcher_recognises m f :
  m ∈ CONTEXTUAL_USER_FRAGMENT_MATCHERS -> m (render f) = true -> recognised f.
Proof.
  intros Hm Hr. unfold recognised, is_contextual_user_fragment, is_standard_contextual_user_text.
  apply orb_true_iff. right. apply existsb_exists. exists m. by rewrite <- list_elem_of_In.
Qed.

Lemma marked_recognised f :
  solid (markers f).1 (markers f).2 = true ->
  matches_markers (markers f) ∈ CONTEXTUAL_USER_FRAGMENT_MATCHERS -> recognised f.
Proof.
  intros Hs Hm. eapply matcher_recognises; [exact Hm|]. unfold matches_markers, render.
  destruct (markers f) as [s e]. pose proof (solid_spec _ _ Hs) as (Hne & _).
  simpl in *. rewrite (proj2 (is_empty_false s)) by done. by apply matches_marked_render.
Qed.

Lemma internal_context_recognised source text f :
  InternalModelContextFragment source text = Some f -> recognised f.
Proof.
  unfold InternalModelContextFragment. destruct (is_valid_source source) eqn:Hv; [|done]. intros Hf. subst_result.
  apply (matcher_recognises matches_internal_context); [unfold CONTEXTUAL_USER_FRAGMENT_MATCHERS; set_solver|].
  unfold render. cbn [markers fragment_body].
  replace (is_empty CONTEXT_START_MARKER && is_empty CONTEXT_END_MARKER) with false by reflexivity.
  unfold matches_internal_context. rewrite trim_solid by reflexivity.
  destruct (matches_legacy_goal_context _); [done|].
  rewrite strip_prefix_app, <- app_assoc, strip_prefix_app, <- !app_assoc.
  change SOURCE_ATTR_END with (c_dquote :: lit ">").
  rewrite (split_once_str_first c_dquote (lit ">") source) by by apply valid_source_no_quote.
  rewrite Hv. rewrite !app_assoc. by rewrite ends_with_app.
Qed.

Lemma additional_context_recognised key value f :
  62%N ∉ key -> AdditionalContextUserFragment key value = Done f -> recognised f.
Proof.
  intros Hk. unfold AdditionalContextUserFragment, additional_context_body.
  destruct (truncate_middle_with_token_budget _ _) as [[v o]| |]; try done. intros Hf. cbn [fst fmap outcome_fmap mbind outcome_bind] in Hf. subst_result.
  apply (matcher_recognises matches_additional_context); [unfold CONTEXTUAL_USER_FRAGMENT_MATCHERS; set_solver|].
  unfold render. cbn [markers fragment_body].
  replace (is_empty ADDITIONAL_CONTEXT_START_MARKER_PREFIX && is_empty ADDITIONAL_CONTEXT_END_MARKER_SUFFIX)
    with false by reflexivity.
  unfold matches_additional_context. rewrite trim_solid by reflexivity.
  rewrite strip_prefix_app, <- !app_assoc.
  rewrite (split_once_str_first 62 [] key) by done. cbn [fst].
  by rewrite ends_with_app.
Qed.
End recognised.

(** ** Grouping *)

Definition mergeable (f : Fragment) : bool := negb (requires_separate_message f).

(** A group that becomes one message: one standalone fragment, or mergeable
    fragments of one role. *)
Definition one_message (g : list Fragment) : Prop :=
  match g with
  | [] => False
  | f :: g' => g' = [] \/ (mergeable f = true /\ Forall (fun f' => role f' = role f /\ mergeable f' = true) g')
  end.

Definition joinable (g1 g2 : list Fragment) : Prop :=
  match g1, g2 with
  | f1 :: _, f2 :: _ => role f1 = role f2 /\ mergeable f1 = true /\ mergeable f2 = true
  | _, _ => False
  end.

(** No two neighbours could have been one message. *)
Fixpoint separated (gs : list (list Fragment)) : Prop :=
  match gs with
  | g1 :: gs' => match gs' with g2 :: _ => ~ joinable g1 g2 | [] => True end /\ separated gs'
  | [] => True
  end.

Definition group_message {Extra Json} (g : list Fragment) : ResponseItem Extra Json :=
  Message None (default [] (role <$> head g)) ((fun f => MsgInputText (render f)) <$> g) None
    (Some (kinds_only (content_kind <$> g))).

Definition group_entry (g : list Fragment) : rstr * MessageGroup * list RenderedFragment :=
  match g with
  | f :: _ => (role f, if requires_separate_message f then Standalone else Mergeable,
               render_fragment <$> g)
  | [] => ([], Standalone, [])
  end.

Lemma separated_snoc gs g g' :
  separated (gs ++ [g; g']) <-> separated (gs ++ [g]) /\ ~ joinable g g'.
Proof.
  induction gs as [|g0 gs IH]; simpl; [tauto|].
  destruct gs as [|g1 gs]; simpl in *; tauto.
Qed.

Lemma separated_last gs f g g' :
  separated (gs ++ [f :: g]) -> separated (gs ++ [f :: g']).
Proof.
  induction gs as [|g0 gs IH]; simpl; [done|]. intros [H Hs]. split; [|auto].
  destruct gs as [|g1 gs]; done.
Qed.

Lemma one_message_snoc f g f' :
  one_message (f :: g) -> role f' = role f -> mergeable f = true -> mergeable f' = true ->
  one_message ((f :: g) ++ [f']).
Proof.
  intros Hg Hr Hf Hf'. right. split; [done|]. apply Forall_app.
  split; [|by apply Forall_singleton]. destruct Hg as [->|[_ Hg]]; [constructor|done].
Qed.

Lemma add_fragment_nil f : add_fragment [] f = [group_entry [f]].
Proof. done. Qed.

Lemma add_fragment_join f1 g f es :
  joinable (f1 :: g) [f] ->
  add_fragment (group_entry (f1 :: g) :: es) f = group_entry ((f1 :: g) ++ [f]) :: es.
Proof.
  intros (Hr & Hf1 & Hf). unfold add_fragment. cbn [group_entry rendered_role render_fragment].
  unfold mergeable in *. rewrite negb_true_iff in *. rewrite Hf1, Hf, Hr, str_eqb_refl. simpl.
  by rewrite fmap_app, Hf1, Hr.
Qed.

Lemma add_fragment_new f1 g f es :
  ~ joinable (f1 :: g) [f] ->
  add_fragment (group_entry (f1 :: g) :: es) f = group_entry [f] :: group_entry (f1 :: g) :: es.
Proof.
  intros Hj. unfold add_fragment. cbn [group_entry rendered_role render_fragment].
  destruct (role f1 == role f) eqn:Er; [|done]. apply str_eqb_true in Er.
  unfold joinable, mergeable in Hj.
  destruct (requires_separate_message f1), (requires_separate_message f); try done.
  by destruct Hj.
Qed.

Lemma fragments_grouped fragments :
  exists gs, concat gs = fragments /\ Forall one_message gs /\ separated gs
    /\ foldl add_fragment [] fragments = reverse (group_entry <$> gs).
Proof.
  induction fragments as [|f fragments IH] using rev_ind; [by exists []|].
  destruct IH as (gs & <- & Hone & Hsep & Hfold). rewrite foldl_snoc, Hfold. clear Hfold.
  destruct gs as [|g gs _] using rev_ind.
  { exists [[f]]. split_and!; [done| |done|done]. repeat constructor. }
  rewrite fmap_app, reverse_app. cbn [fmap list_fmap].
  change (reverse [group_entry g] ++ ?r) with (group_entry g :: r).
  rewrite Forall_app, Forall_singleton in Hone. destruct Hone as [Hone Hg].
  destruct g as [|f1 g]; [destruct Hg|].
  destruct (decide (role f1 = role f /\ mergeable f1 = true /\ mergeable f = true)) as [Hj|Hj].
  - exists (gs ++ [(f1 :: g) ++ [f]]). rewrite add_fragment_join by done. split_and!.
    + rewrite !concat_app. simpl. by rewrite !app_nil_r, <- app_assoc.
    + rewrite Forall_app, Forall_singleton. split; [done|]. destruct Hj as (? & ? & ?).
      by apply one_message_snoc.
    + by eapply separated_last.
    + by rewrite fmap_app, reverse_app.
  - exists ((gs ++ [f1 :: g]) ++ [[f]]). rewrite add_fragment_new by done. split_and!.
    + rewrite !concat_app. done.
    + rewrite !Forall_app, !Forall_singleton. split; [by split|by left].
    + rewrite <- app_assoc. by apply separated_snoc.
    + by rewrite !fmap_app, !reverse_app.
Qed.

Lemma one_message_role f g f' : one_message (f :: g) -> f' ∈ f :: g -> role f' = role f.
Proof.
  intros [->|[_ Hg]] [->|Hf]%elem_of_cons; [done|by apply elem_of_nil in Hf|done|].
  rewrite Forall_forall in Hg. by apply Hg.
Qed.

Lemma build_group {Extra Json} debug g :
  one_message g ->
  build_rendered_message (Extra := Extra) (Json := Json) debug (render_fragment <$> g)
  = Done (Some (group_message g)).
Proof.
  destruct g as [|f g]; [done|]. intros Hg. unfold build_rendered_message. simpl.
  rewrite str_eqb_refl. simpl.
  replace (forallb _ _) with true.
  - rewrite andb_false_r. unfold group_message. simpl. rewrite <- !list_fmap_compose. done.
  - symmetry. apply forallb_forall. intros r Hr%list_elem_of_In.
    apply list_elem_of_fmap in Hr as (f' & -> & Hf'). apply str_eqb_true. simpl.
    apply (one_message_role f g); [done|by right].
Qed.

Lemma build_groups {Extra Json} debug gs :
  Forall one_message gs ->
  build_messages (Extra := Extra) (Json := Json) debug (group_entry <$> gs)
  = Done (group_message <$> gs).
Proof.
  induction 1 as [|g gs Hg _ IH]; [done|]. cbn [fmap list_fmap].
  destruct g as [|f g']; [destruct Hg|]. cbn [group_entry build_messages].
  rewrite build_group by done. cbn [mbind outcome_bind]. rewrite IH. done.
Qed.

(** ** Theorems *)

(** What the agent injects is recognised as injected: instructions from
    [AGENTS.md], selected skills, interruption notices, internal context of
    every accepted source, and external context of every key without a
    closing angle bracket, whatever their texts are. *)
Theorem injected_context_recognised from_xml :
  (forall directory text, recognised from_xml (UserInstructions directory text))
  /\ (forall name path contents access, recognised from_xml (SkillInstructions name path contents access))
  /\ (forall guidance, recognised from_xml (TurnAborted guidance))
  /\ (forall source text f, InternalModelContextFragment source text = Some f -> recognised from_xml f)
  /\ (forall key value f, 62%N ∉ key -> AdditionalContextUserFragment key value = Done f ->
       recognised from_xml f).
Proof.
  split_and!; intros.
  1-3: apply marked_recognised; [reflexivity|]; unfold CONTEXTUAL_USER_FRAGMENT_MATCHERS; set_solver.
  - by eapply internal_context_recognised.
  - by eapply additional_context_recognised.
Qed.

(** External context whose key holds a closing angle bracket is not
    recognised: its message counts as one that the user wrote. *)
Theorem bracket_in_key_not_recognised :
  exists f, AdditionalContextUserFragment (lit "a>b") (lit "v") = Done f
    /\ role f = lit "user"
    /\ is_contextual_user_message_content (fun _ => None) [MsgInputText (render f)] = false.
Proof. eexists. split; [reflexivity|]. vm_compute. split; reflexivity. Qed.

(** Merging the fragments into messages never fails, in debug builds
    neither.  The fragments are split in their order into groups; each group
    is a standalone fragment or mergeable fragments of one role and becomes
    one message, with one classification per entry; neighbours that could be
    one message are one. *)
Theorem fragments_merge_maximally {Extra Json} debug fragments :
  exists gs, concat gs = fragments /\ Forall one_message gs /\ separated gs
    /\ merge_contextual_fragments (Extra := Extra) (Json := Json) debug fragments
       = Done (group_message <$> gs).
Proof.
  destruct (fragments_grouped fragments) as (gs & Hc & Hone & Hsep & Hfold).
  exists gs. split_and!; [done..|]. unfold merge_contextual_fragments.
  rewrite Hfold, reverse_involutive. by apply build_groups.
Qed.

Lemma injected_context_recognised_witness :
  let internal := InternalModelContextFragment (lit "goal_1") (lit "keep going") in
  let external := AdditionalContextUserFragment (lit "ide") (lit "open: a.rs") in
  match internal, external with
  | Some f, Done g => recognised (fun _ => None) f /\ recognised (fun _ => None) g
                      /\ render g = lit "<external_ide>open: a.rs</external_ide>"
  | _, _ => False
  end.
Proof.
  cbv zeta. destruct (injected_context_recognised (fun _ => None)) as (_ & _ & _ & Hi & Ha).
  split_and!; [eapply (Hi (lit "goal_1") (lit "keep going")); reflexivity| |vm_compute; reflexivity].
  eapply (Ha (lit "ide") (lit "open: a.rs")); [|reflexivity].
  apply (bool_decide_unpack _). vm_compute. exact I.
Defined.

Lemma store_get_lookup store key entry :
  NoDup store.*1 -> (key, entry) ∈ store -> store_get store key = Some entry.
Proof.
  unfold store_get. induction store as [|[k e] store IH]; [by intros _ ?%elem_of_nil|].
  cbn [fmap list_fmap]. rewrite NoDup_cons. intros [Hk Hnd] [[= -> ->]|Hin]%elem_of_cons; simpl.
  - by rewrite str_eqb_refl.
  - destruct (k == key) eqn:E; [|auto]. apply str_eqb_true in E as ->. destruct Hk.
    apply list_elem_of_fmap. by exists (key, entry).
Qed.

(** Context that did not change is not injected again. *)
Theorem unchanged_context_not_repeated {Extra Json} (store values : AdditionalContextStore) :
  NoDup values.*1 ->
  (merge (Extra := Extra) (Json := Json) (merge (Extra := Extra) (Json := Json) store values).2 values).1
  = Done [].
Proof.
  intros Hnd. cbn [merge fst snd].
  assert (Hsub : forall l, (forall e, e ∈ l -> e ∈ values) -> changed_fragments (Extra := Extra) (Json := Json) values l = Done []).
  { induction l as [|[key entry] l IH]; intros Hl; simpl; [done|].
    rewrite bool_decide_eq_true_2; [apply IH; intros; apply Hl; by right|].
    apply store_get_lookup; [done|apply Hl; left]. }
  by apply Hsub.
Qed.
