(* ===== verification/JsonPatch.v ===== *)
(** * JsonPatch: JSON values, their maps and merge patches

    The functions [remove_null_object_fields], [create_merge_patch] and
    [apply_merge_patch_value] of [codex-rs/core/src/context/world_state/mod.rs],
    on the values of [serde_json].

    Numbers are an argument with their equality ([JsonNumber]).  An object is
    the list of its entries in insertion order: [serde_json]'s map, with the
    equality of [IndexMap], which does not look at the order, and its removal,
    which moves the last entry into the gap.  A [BTreeMap] is the list of its
    entries in key order.  The two are instances of one class of map
    operations, with the laws that the theorems use. *)

From stdpp Require Import base list strings.
From S2P Require Import Prelude.

Open Scope rust_scope.

(** ** Maps as lists of entries *)

Section maps.
Context {V : Type}.
Implicit Types (m : list (rstr * V)) (k : rstr) (v : V).

Fixpoint map_get m k : option V :=
  match m with
  | [] => None
  | (k', v) :: m' => if k' == k then Some v else map_get m' k
  end.

Definition contains_key m k : bool := is_some (map_get m k).

(** Through [get_mut]. *)
Fixpoint map_alter (f : V -> V) m k : list (rstr * V) :=
  match m with
  | [] => []
  | (k', v) :: m' => if k' == k then (k', f v) :: m' else (k', v) :: map_alter f m' k
  end.

(** [Map::insert] *)
Definition index_insert m k v : list (rstr * V) :=
  if contains_key m k then map_alter (fun _ => v) m k else m ++ [(k, v)].

(** [Map::remove], a [swap_remove]. *)
Fixpoint swap_remove m k : list (rstr * V) :=
  match m with
  | [] => []
  | (k', v) :: m' =>
      if k' == k then match last m' with Some e => e :: removelast m' | None => [] end
      else (k', v) :: swap_remove m' k
  end.

(** The order of strings. *)
Fixpoint str_ltb (a b : rstr) : bool :=
  match a, b with
  | [], [] => false
  | [], _ :: _ => true
  | _ :: _, [] => false
  | x :: a', y :: b' => (x <? y)%N || ((x =? y)%N && str_ltb a' b')
  end.

Fixpoint insert_ordered m k v : list (rstr * V) :=
  match m with
  | [] => [(k, v)]
  | (k', v') :: m' => if str_ltb k k' then (k, v) :: m else (k', v') :: insert_ordered m' k v
  end.

(** [BTreeMap::insert] and [BTreeMap::remove] *)
Definition btree_insert m k v : list (rstr * V) :=
  if contains_key m k then map_alter (fun _ => v) m k else insert_ordered m k v.

Definition btree_remove m k : list (rstr * V) := List.filter (fun e => e.1 != k) m.
End maps.

(** What the patches use of a map. *)
Class MapOps (V : Type) := {
  map_insert : list (rstr * V) -> rstr -> V -> list (rstr * V);
  map_remove : list (rstr * V) -> rstr -> list (rstr * V)
}.

Class MapLaws (V : Type) `{!MapOps V} := {
  map_insert_get m k v k' :
    NoDup m.*1 -> map_get (map_insert m k v) k' = if k == k' then Some v else map_get m k';
  map_insert_keys m k v : NoDup m.*1 -> NoDup (map_insert m k v).*1;
  map_remove_get m k k' :
    NoDup m.*1 -> map_get (map_remove m k) k' = if k == k' then None else map_get m k';
  map_remove_keys m k : NoDup m.*1 -> NoDup (map_remove m k).*1
}.

Definition index_map (V : Type) : MapOps V :=
  {| map_insert := index_insert; map_remove := swap_remove |}.
Definition btree_map (V : Type) : MapOps V :=
  {| map_insert := btree_insert; map_remove := btree_remove |}.

Section map_lemmas.
Context {V : Type}.
Implicit Types (m : list (rstr * V)) (k : rstr) (v : V).

Lemma str_eqb_ne a b : str_eqb a b = false <-> a <> b.
Proof. rewrite <- str_eqb_true. by destruct (str_eqb a b). Qed.

Lemma map_get_elem m k v : map_get m k = Some v -> (k, v) ∈ m.
Proof.
  induction m as [|[k' v'] m IH]; simpl; [done|]. destruct (k' == k) eqn:E.
  - apply str_eqb_true in E as ->. intros [= ->]. left.
  - intros H. right. auto.
Qed.

Lemma map_get_None m k : map_get m k = None <-> k ∉ m.*1.
Proof.
  induction m as [|[k' v'] m IH]; simpl; [by split; [intros _ ?%elem_of_nil|]|].
  rewrite not_elem_of_cons, <- IH. destruct (k' == k) eqn:E.
  - apply str_eqb_true in E as ->. by split; [|intros [? _]].
  - apply str_eqb_ne in E. split; [by split|by intros [_ ?]].
Qed.

Lemma elem_map_get m k v : NoDup m.*1 -> (k, v) ∈ m -> map_get m k = Some v.
Proof.
  induction m as [|[k' v'] m IH]; [by intros _ ?%elem_of_nil|]. cbn [fmap list_fmap map_get fst].
  rewrite NoDup_cons. intros [Hk Hnd] [[= -> ->]|Hin]%elem_of_cons; [by rewrite str_eqb_refl|].
  destruct (k' == k) eqn:E; [|auto]. apply str_eqb_true in E as ->. destruct Hk.
  apply list_elem_of_fmap. by exists (k, v).
Qed.

Lemma map_get_spec m k v : NoDup m.*1 -> map_get m k = Some v <-> (k, v) ∈ m.
Proof. intros Hnd. split; [apply map_get_elem|by apply elem_map_get]. Qed.

Lemma contains_key_spec m k : contains_key m k = true <-> k ∈ m.*1.
Proof.
  unfold contains_key. destruct (map_get m k) eqn:E; simpl.
  - split; [intros _|done]. apply map_get_elem in E. apply list_elem_of_fmap. by exists (k, v).
  - apply map_get_None in E. by split.
Qed.

Lemma contains_key_cons k v m k' : contains_key ((k, v) :: m) k' = (k == k') || contains_key m k'.
Proof. unfold contains_key. simpl. by destruct (k == k'). Qed.

Lemma map_alter_keys f m k : (map_alter f m k).*1 = m.*1.
Proof.
  induction m as [|[k' v'] m IH]; [done|]. cbn [map_alter].
  destruct (k' == k); [done|]. cbn. f_equal. exact IH.
Qed.

Lemma map_alter_get f m k k' :
  map_get (map_alter f m k) k' = if k == k' then f <$> map_get m k else map_get m k'.
Proof.
  induction m as [|[k0 v0] m IH]; simpl; [by destruct (k == k')|].
  destruct (k0 == k) eqn:E; simpl.
  - apply str_eqb_true in E as ->. by destruct (k == k').
  - rewrite IH. destruct (k == k') eqn:E'; [|done].
    apply str_eqb_true in E' as <-. by rewrite E.
Qed.

(** Two maps with the same entries have the same lookups. *)
Lemma map_get_perm m m' k : NoDup m.*1 -> m ≡ₚ m' -> map_get m k = map_get m' k.
Proof.
  intros Hnd Hp. assert (Hnd' : NoDup m'.*1) by (by rewrite <- Hp).
  apply option_eq. intros v. rewrite !map_get_spec by done. by rewrite Hp.
Qed.

Lemma map_get_app m m' k :
  map_get (m ++ m') k = match map_get m k with Some v => Some v | None => map_get m' k end.
Proof. induction m as [|[k' v] m IH]; simpl; [done|]. by destruct (k' == k). Qed.

(** Entering a new key, at whichever position. *)
Lemma map_add_get m m' k v k' :
  NoDup m.*1 -> k ∉ m.*1 -> m' ≡ₚ (k, v) :: m ->
  map_get m' k' = (if k == k' then Some v else map_get m k') /\ NoDup m'.*1.
Proof.
  intros Hnd Hk Hp. assert (Hnd' : NoDup m'.*1) by (rewrite Hp; cbn; by apply NoDup_cons).
  split; [|done]. by rewrite (map_get_perm m' ((k, v) :: m)).
Qed.

Lemma insert_ordered_perm m k v : insert_ordered m k v ≡ₚ (k, v) :: m.
Proof.
  induction m as [|[k' v'] m IH]; simpl; [done|]. destruct (str_ltb k k'); [done|].
  rewrite IH. apply Permutation_swap.
Qed.

Lemma btree_remove_get m k k' :
  map_get (btree_remove m k) k' = if k == k' then None else map_get m k'.
Proof.
  unfold btree_remove. induction m as [|[k0 v0] m IH]; simpl; [by destruct (k == k')|].
  destruct (k0 == k) eqn:E; simpl.
  - apply str_eqb_true in E as ->. rewrite IH. by destruct (k == k').
  - rewrite IH. destruct (k == k') eqn:E'; [|done]. apply str_eqb_true in E' as <-. by rewrite E.
Qed.

Lemma removelast_last {A} (l : list A) x : last l = Some x -> l = removelast l ++ [x].
Proof.
  induction l as [|y l IH]; [done|]. destruct l as [|z l]; [by intros [= ->]|].
  intros H. cbn [removelast app]. f_equal. apply IH, H.
Qed.

Lemma swap_remove_perm m k : NoDup m.*1 -> swap_remove m k ≡ₚ btree_remove m k.
Proof.
  unfold btree_remove. induction m as [|[k' v'] m IH]; [done|]. cbn [fmap list_fmap].
  rewrite NoDup_cons. intros [Hk Hnd]. simpl. destruct (k' == k) eqn:E; simpl.
  - apply str_eqb_true in E as ->.
    assert (List.filter (fun e => e.1 != k) m = m) as ->.
    { clear IH Hnd. induction m as [|[k0 v0] m IH]; simpl in *; [done|].
      apply not_elem_of_cons in Hk as [Hne Hk].
      rewrite (proj2 (str_eqb_ne k0 k)) by done. simpl. by rewrite IH. }
    destruct (last m) as [e|] eqn:El.
    + rewrite (removelast_last m e El) at 2. apply Permutation_cons_append.
    + apply last_None in El as ->. done.
  - by rewrite IH.
Qed.

Lemma btree_remove_keys m k : NoDup m.*1 -> NoDup (btree_remove m k).*1.
Proof.
  unfold btree_remove. induction m as [|[k' v'] m IH]; [done|]. cbn [fmap list_fmap].
  rewrite NoDup_cons. intros [Hk Hnd]. simpl. destruct (k' != k); [|auto].
  cbn [fmap list_fmap]. apply NoDup_cons. split; [|auto]. intros Hin. apply Hk.
  apply list_elem_of_fmap in Hin as ((k0 & v0) & Heq & Hin%list_elem_of_In).
  apply filter_In in Hin as [Hin _]. apply list_elem_of_fmap. exists (k0, v0).
  by rewrite list_elem_of_In.
Qed.

Lemma insert_by_add m k v k' m' :
  NoDup m.*1 -> m' ≡ₚ (k, v) :: m ->
  let r := if contains_key m k then map_alter (fun _ => v) m k else m' in
  map_get r k' = (if k == k' then Some v else map_get m k') /\ NoDup r.*1.
Proof.
  intros Hnd Hp. cbv zeta. destruct (contains_key m k) eqn:Ec.
  - rewrite map_alter_get, map_alter_keys. split; [|done]. destruct (k == k'); [|done].
    unfold contains_key in Ec. by destruct (map_get m k).
  - apply map_add_get; [done| |done]. rewrite <- contains_key_spec. by rewrite Ec.
Qed.
End map_lemmas.

#[export] Instance index_map_laws V : @MapLaws V (index_map V).
Proof.
  split; cbn.
  - intros. by apply (insert_by_add m k v k'); [|rewrite Permutation_app_comm].
  - intros. by apply (insert_by_add m k v k); [|rewrite Permutation_app_comm].
  - intros m k k' Hnd. rewrite <- btree_remove_get. apply map_get_perm.
    + rewrite swap_remove_perm by done. by apply btree_remove_keys.
    + by apply swap_remove_perm.
  - intros m k Hnd. rewrite swap_remove_perm by done. by apply btree_remove_keys.
Qed.

#[export] Instance btree_map_laws V : @MapLaws V (btree_map V).
Proof.
  split; cbn.
  - intros. by apply (insert_by_add m k v k'); [|apply insert_ordered_perm].
  - intros. by apply (insert_by_add m k v k); [|apply insert_ordered_perm].
  - intros. apply btree_remove_get.
  - intros. by apply btree_remove_keys.
Qed.

(** ** Values *)

(** [serde_json::Number] with its equality, which is an equivalence. *)
Class JsonNumber (Num : Type) := {
  number_eqb : Num -> Num -> bool;
  number_eqb_equiv : Equivalence (fun a b => number_eqb a b = true)
}.
#[export] Existing Instance number_eqb_equiv.

Inductive Value {Num : Type} :=
| Null
| Bool (b : bool)
| Number (n : Num)
| Str (s : rstr)
| Array (values : list Value)
| Object (map : list (rstr * Value)).
Arguments Value : clear implicits.

Section json.
Context {Num : Type} `{!JsonNumber Num}.
Local Existing Instance index_map.
Abbreviation Value := (Value Num).
Abbreviation Map := (list (rstr * Value)).
Implicit Types (v w p : Value) (m : Map) (k : rstr).

Lemma value_ind (P : Value -> Prop) :
  P Null -> (forall b, P (Bool b)) -> (forall n, P (Number n)) -> (forall s, P (Str s)) ->
  (forall l, Forall P l -> P (Array l)) -> (forall m, Forall (fun e => P e.2) m -> P (Object m)) ->
  forall v, P v.
Proof.
  intros Hnull Hbool Hnum Hstr Harr Hobj. fix IH 1. intros [|b|n|s|l|m].
  - exact Hnull.
  - apply Hbool.
  - apply Hnum.
  - apply Hstr.
  - apply Harr. induction l; constructor; auto.
  - apply Hobj. induction m as [|[k v] m IHm]; constructor; [apply IH|exact IHm].
Qed.

Definition is_null v : bool := match v with Null => true | _ => false end.

Definition as_object v : option Map := match v with Object m => Some m | _ => None end.

(** [PartialEq] of values; two maps are equal if they have the same size and
    each entry of one is found in the other. *)
Fixpoint value_eqb (v w : Value) : bool :=
  match v, w with
  | Null, Null => true
  | Bool a, Bool b => Bool.eqb a b
  | Number a, Number b => number_eqb a b
  | Str a, Str b => a == b
  | Array a, Array b =>
      (fix eq_all (a b : list Value) : bool :=
         match a, b with
         | [], [] => true
         | x :: a', y :: b' => value_eqb x y && eq_all a' b'
         | _, _ => false
         end) a b
  | Object a, Object b =>
      (length a =? length b)
      && (fix found_all (a : Map) : bool :=
            match a with
            | [] => true
            | (k, x) :: a' =>
                match map_get b k with Some y => value_eqb x y | None => false end && found_all a'
            end) a
  | _, _ => false
  end.

Fixpoint remove_null_object_fields (v : Value) : Value :=
  match v with
  | Object m =>
      Object ((fix retain (m : Map) : Map :=
                 match m with
                 | [] => []
                 | (k, x) :: m' =>
                     if is_null x then retain m'
                     else (k, remove_null_object_fields x) :: retain m'
                 end) m)
  | _ => v
  end.

(** The removals of a patch: the keys of [previous] that [current] lacks. *)
Definition patch_removals (previous current : Map) (patch : Map) : Map :=
  foldl (fun patch e => if contains_key current e.1 then patch else map_insert patch e.1 Null)
    patch previous.

Fixpoint create_merge_patch (previous current : Value) : option Value :=
  if value_eqb previous current then None
  else
    match current with
    | Object current =>
        let previous := default [] (as_object previous) in
        let patch := patch_removals previous current [] in
        Some (Object ((fix changes (current : Map) (patch : Map) : Map :=
           match current with
           | [] => patch
           | (key, current_value) :: others =>
               changes others
                 match map_get previous key with
                 | None => map_insert patch key current_value
                 | Some previous_value =>
                     match create_merge_patch previous_value current_value with
                     | Some value_patch => map_insert patch key value_patch
                     | None => patch
                     end
                 end
           end) current patch))
    | _ => Some current
    end.

Fixpoint apply_merge_patch_value (target patch : Value) : Value :=
  match patch with
  | Object patch =>
      let target := default [] (as_object target) in
      Object ((fix apply (patch : Map) (target : Map) : Map :=
         match patch with
         | [] => target
         | (key, value) :: others =>
             apply others
               (if is_null value then map_remove target key
                else match map_get target key with
                     | Some _ => map_alter (fun current => apply_merge_patch_value current value) target key
                     | None => map_insert target key (apply_merge_patch_value Null value)
                     end)
         end) patch target)
  | _ => patch
  end.

(** The loops over the entries of a map, as they run on a snapshot too. *)
Section patch_changes.
Context (previous : Map).

Fixpoint patch_changes (current patch : Map) : Map :=
  match current with
  | [] => patch
  | (key, current_value) :: others =>
      patch_changes others
        match map_get previous key with
        | None => map_insert patch key current_value
        | Some previous_value =>
            match create_merge_patch previous_value current_value with
            | Some value_patch => map_insert patch key value_patch
            | None => patch
            end
        end
  end.
End patch_changes.

Section apply_fields.
Context (ops : MapOps Value).

Fixpoint apply_fields (patch target : Map) : Map :=
  match patch with
  | [] => target
  | (key, value) :: others =>
      apply_fields others
        (if is_null value then ops.(map_remove) target key
         else match map_get target key with
              | Some _ => map_alter (fun current => apply_merge_patch_value current value) target key
              | None => ops.(map_insert) target key (apply_merge_patch_value Null value)
              end)
  end.
End apply_fields.

Lemma apply_object target patch :
  apply_merge_patch_value target (Object patch)
  = Object (apply_fields (index_map Value) patch (default [] (as_object target))).
Proof. reflexivity. Qed.

Lemma create_object previous current :
  create_merge_patch previous (Object current)
  = if value_eqb previous (Object current) then None
    else let m := default [] (as_object previous) in
         Some (Object (patch_changes m current (patch_removals m current []))).
Proof. destruct previous; reflexivity. Qed.

(** ** Equality up to the order of entries *)

Inductive same_value : Value -> Value -> Prop :=
| same_null : same_value Null Null
| same_bool b : same_value (Bool b) (Bool b)
| same_number a b : number_eqb a b = true -> same_value (Number a) (Number b)
| same_str s : same_value (Str s) (Str s)
| same_array a b : Forall2 same_value a b -> same_value (Array a) (Array b)
| same_object a b :
    (forall k, option_Forall2 same_value (map_get a k) (map_get b k)) ->
    same_value (Object a) (Object b).

(** Equal lookups, up to the order of entries inside the values. *)
Definition same_map (a b : Map) : Prop :=
  forall k, option_Forall2 same_value (map_get a k) (map_get b k).

#[local] Instance value_equiv : Equiv Value := same_value.
#[local] Instance map_equiv : Equiv Map := same_map.

Lemma map_get_Forall (P : rstr * Value -> Prop) m k v :
  Forall P m -> map_get m k = Some v -> P (k, v).
Proof. rewrite Forall_forall. intros H Hk%map_get_elem. exact (H _ Hk). Qed.

Lemma same_value_refl v : same_value v v.
Proof.
  induction v as [| | | |l IH|m IH] using value_ind; constructor; auto.
  - apply (Equivalence_Reflexive (R := fun a b => number_eqb a b = true)).
  - induction IH; constructor; auto.
  - intros k. destruct (map_get m k) as [v|] eqn:E; constructor.
    by apply (map_get_Forall _ _ _ _ IH) in E.
Qed.

Lemma same_value_sym v w : same_value v w -> same_value w v.
Proof.
  revert w. induction v as [|b0|n0|s0|l IH|m IH] using value_ind; intros w Hw;
    inversion Hw as [|b1|a b Hab|s1|a b Hab|a b Hab]; subst; constructor.
  - by apply (Equivalence_Symmetric (R := fun a b => number_eqb a b = true)).
  - clear Hw. revert b Hab. induction IH; intros b Hb; inversion Hb; subst; constructor; auto.
  - intros k. specialize (Hab k). destruct (map_get m k) as [v|] eqn:E;
      inversion Hab; subst; constructor.
    pose proof (map_get_Forall _ _ _ _ IH E) as Hv. simpl in Hv. auto.
Qed.

Lemma same_value_trans v w u : same_value v w -> same_value w u -> same_value v u.
Proof.
  revert w u. induction v as [|b0|n0|s0|l IH|m IH] using value_ind; intros w u Hw Hu;
    inversion Hw as [|b1|a b Hab|s1|a b Hab|a b Hab]; subst;
    inversion Hu as [|b2|a' c Hbc|s2|a' c Hbc|a' c Hbc]; subst; constructor.
  - by eapply (Equivalence_Transitive (R := fun a b => number_eqb a b = true)).
  - clear Hw Hu. revert b c Hab Hbc. induction IH as [|x l Hx _ IHl]; intros b c Hb Hc;
      inversion Hb; subst; inversion Hc; subst; constructor; eauto.
  - intros k. specialize (Hab k). specialize (Hbc k).
    destruct (map_get m k) as [v|] eqn:E; inversion Hab as [x y Hxy Hx Hy|Hx Hy]; subst;
      rewrite <- Hy in Hbc; inversion Hbc; subst; constructor.
    pose proof (map_get_Forall _ _ _ _ IH E) as Hv. simpl in Hv. eauto.
Qed.

#[export] Instance same_value_equivalence : Equivalence same_value.
Proof. split; [exact same_value_refl|exact same_value_sym|exact same_value_trans]. Qed.

#[export] Instance same_map_equivalence : Equivalence same_map.
Proof.
  split.
  - intros m k. reflexivity.
  - intros m m' H k. symmetry. apply H.
  - intros m m' m'' H H' k. etransitivity; [apply H|apply H'].
Qed.

(** Every object has distinct keys. *)
Fixpoint wf_value (v : Value) : Prop :=
  match v with
  | Array l => (fix wf_all (l : list Value) : Prop :=
                  match l with [] => True | x :: l' => wf_value x /\ wf_all l' end) l
  | Object m => NoDup m.*1
                /\ (fix wf_all (m : Map) : Prop :=
                      match m with [] => True | (_, x) :: m' => wf_value x /\ wf_all m' end) m
  | _ => True
  end.

Definition wf_map m : Prop := NoDup m.*1 /\ Forall (fun e => wf_value e.2) m.

Lemma wf_array l : wf_value (Array l) <-> Forall wf_value l.
Proof. induction l as [|x l IH]; [done|]. rewrite Forall_cons, <- IH. done. Qed.

Lemma wf_object m : wf_value (Object m) <-> wf_map m.
Proof.
  unfold wf_map. simpl. apply and_iff_compat_l.
  induction m as [|[k x] m IH]; [done|]. rewrite Forall_cons, <- IH. done.
Qed.

Lemma eqb_array a b : value_eqb (Array a) (Array b) = true <-> Forall2 (fun x y => value_eqb x y = true) a b.
Proof.
  revert b. induction a as [|x a IH]; intros [|y b].
  - by split.
  - split; [done|]. by intros ?%Forall2_nil_cons_inv.
  - split; [done|]. by intros ?%Forall2_cons_nil_inv.
  - rewrite Forall2_cons, <- IH. apply andb_true_iff.
Qed.

Lemma eqb_object a b :
  value_eqb (Object a) (Object b) = true <->
  length a = length b
  /\ Forall (fun e => exists y, map_get b e.1 = Some y /\ value_eqb e.2 y = true) a.
Proof.
  cbn [value_eqb]. rewrite andb_true_iff, Nat.eqb_eq. apply and_iff_compat_l.
  induction a as [|[k x] a IH]; [done|]. rewrite Forall_cons, andb_true_iff, IH. apply and_iff_compat_r.
  simpl. destruct (map_get b k) as [y|]; [|by split; [|intros (? & [=] & _)]].
  split; [by eauto|]. by intros (? & [= ->] & ?).
Qed.

(** Two maps without repeated keys and of one size have the same keys when
    the keys of one are in the other. *)
Lemma keys_incl_length (a b : Map) :
  NoDup a.*1 -> NoDup b.*1 -> length a = length b -> (forall k, k ∈ a.*1 -> k ∈ b.*1) ->
  forall k, k ∈ b.*1 -> k ∈ a.*1.
Proof.
  intros Ha Hb Hl Hin k. rewrite !list_elem_of_In.
  apply (NoDup_length_incl (l := a.*1) (l' := b.*1)).
  - by apply NoDup_ListNoDup.
  - rewrite !length_fmap. lia.
  - intros x. rewrite <- !list_elem_of_In. apply Hin.
Qed.

Lemma same_keys_length (a b : Map) :
  NoDup a.*1 -> NoDup b.*1 -> (forall k, k ∈ a.*1 <-> k ∈ b.*1) -> length a = length b.
Proof.
  intros Ha Hb Hin. rewrite <- (length_fmap fst a), <- (length_fmap fst b).
  by apply Permutation_length, NoDup_Permutation.
Qed.

Lemma elem_keys m k : k ∈ m.*1 <-> exists v, map_get m k = Some v.
Proof.
  destruct (map_get m k) as [v|] eqn:E.
  - split; [by eauto|]. intros _. apply map_get_elem in E. apply list_elem_of_fmap. by exists (k, v).
  - apply map_get_None in E. split; [done|by intros (? & ?)].
Qed.

(** The equality of the code is equality up to the order of entries. *)
Lemma value_eqb_spec v w : wf_value v -> wf_value w -> value_eqb v w = true <-> same_value v w.
Proof.
  revert w. induction v as [|b0|n0|s0|l IH|m IH] using value_ind;
    intros [|b1|n1|s1|l1|m1] Hv Hw; try (by split; [|inversion 1]).
  - cbn [value_eqb]. rewrite Bool.eqb_true_iff. split; [intros ->; constructor|by inversion 1].
  - cbn [value_eqb]. split; [by constructor|by inversion 1].
  - cbn [value_eqb]. rewrite str_eqb_true. split; [intros ->; constructor|by inversion 1].
  - rewrite eqb_array. apply wf_array in Hv, Hw. transitivity (Forall2 same_value l l1).
    + clear -IH Hv Hw. revert l1 Hw. induction IH as [|x l Hx _ IHl]; intros [|y l1] Hw.
      * by split.
      * by split; intros ?%Forall2_nil_cons_inv.
      * by split; intros ?%Forall2_cons_nil_inv.
      * rewrite Forall_cons in Hv, Hw. rewrite !Forall2_cons, IHl, Hx; tauto.
    + split; [by constructor|by inversion 1].
  - rewrite eqb_object. apply wf_object in Hv, Hw. destruct Hv as [Hnd Hv], Hw as [Hnd1 Hw].
    rewrite Forall_forall in IH, Hv, Hw.
    split.
    + intros [Hlen Hall]. rewrite Forall_forall in Hall. constructor. intros k.
      destruct (map_get m k) as [x|] eqn:E.
      * apply map_get_elem in E. destruct (Hall _ E) as (y & Hy & He). simpl in *. rewrite Hy. constructor.
        apply (IH _ E); [by apply (Hv (k, x))| |done]. by apply (Hw (k, y)), map_get_elem.
      * destruct (map_get m1 k) as [y|] eqn:E1; [|constructor].
        apply map_get_None in E. destruct E. eapply (keys_incl_length m m1); [done..| |apply elem_keys; eauto].
        intros k' ((k0 & x) & -> & Hin)%list_elem_of_fmap. destruct (Hall _ Hin) as (y' & ? & _).
        apply elem_keys. eauto.
    + intros Hs. inversion Hs as [| | | | |? ? Hk]; subst. split.
      * apply same_keys_length; [done..|]. intros k. rewrite !elem_keys. specialize (Hk k).
        destruct (map_get m k), (map_get m1 k); inversion Hk; subst; split; intros [? ?]; eauto; done.
      * apply Forall_forall. intros [k x] Hin. pose proof (elem_map_get _ _ _ Hnd Hin) as E.
        specialize (Hk k). rewrite E in Hk. inversion Hk as [x' y Hxy Hx Hy|]; subst. exists y. split; [done|].
        apply (IH _ Hin); [by apply (Hv (k, x))| |done]. symmetry in Hy. by apply (Hw (k, y)), map_get_elem.
Qed.

(** ** Applying a patch to a map *)

Section apply_get.
Context (ops : MapOps Value) {laws : @MapLaws Value ops}.

Definition apply_field (patch target : Map) k : option Value :=
  match map_get patch k with
  | None => map_get target k
  | Some value =>
      if is_null value then None
      else Some (apply_merge_patch_value (default Null (map_get target k)) value)
  end.

Definition step_field (target : Map) k (value : Value) : Map :=
  if is_null value then ops.(map_remove) target k
  else match map_get target k with
       | Some _ => map_alter (fun current => apply_merge_patch_value current value) target k
       | None => ops.(map_insert) target k (apply_merge_patch_value Null value)
       end.

Lemma step_field_get target k value k' :
  NoDup target.*1 ->
  NoDup (step_field target k value).*1
  /\ map_get (step_field target k value) k' = apply_field [(k, value)] target k'.
Proof.
  intros Hnd. unfold step_field, apply_field. cbn [map_get]. destruct (is_null value) eqn:En.
  - split; [by apply map_remove_keys|]. rewrite map_remove_get by done.
    destruct (k == k'); [by rewrite En|done].
  - destruct (map_get target k) as [current|] eqn:E.
    + rewrite map_alter_keys, map_alter_get. split; [done|]. destruct (k == k') eqn:Ek; [|done].
      apply str_eqb_true in Ek as <-. by rewrite E, En.
    + split; [by apply map_insert_keys|]. rewrite map_insert_get by done.
      destruct (k == k') eqn:Ek; [|done]. apply str_eqb_true in Ek as <-. by rewrite E, En.
Qed.

Lemma apply_fields_get patch target k :
  NoDup patch.*1 -> NoDup target.*1 ->
  NoDup (apply_fields ops patch target).*1
  /\ map_get (apply_fields ops patch target) k = apply_field patch target k.
Proof.
  revert target. induction patch as [|[key value] patch IH]; intros target; [done|].
  cbn [fmap list_fmap fst]. rewrite NoDup_cons. intros [Hk Hnd] Ht.
  change (apply_fields ops ((key, value) :: patch) target)
    with (apply_fields ops patch (step_field target key value)).
  destruct (step_field_get target key value k Ht) as [Hnd' Hget].
  destruct (IH _ Hnd Hnd') as [? ->]. split; [done|]. unfold apply_field in *. rewrite Hget. cbn [map_get].
  destruct (key == k) eqn:E; [|done]. apply str_eqb_true in E as ->.
  apply map_get_None in Hk. by rewrite Hk.
Qed.
End apply_get.

(** ** The entries of a patch *)

Definition new_patch (previous current : Map) : Map :=
  patch_changes previous current (patch_removals previous current []).

Definition patch_field (previous current : Map) k : option Value :=
  match map_get current k with
  | None => if contains_key previous k then Some Null else None
  | Some current_value =>
      match map_get previous k with
      | None => Some current_value
      | Some previous_value => create_merge_patch previous_value current_value
      end
  end.

Lemma patch_removals_get previous current patch k :
  NoDup patch.*1 ->
  NoDup (patch_removals previous current patch).*1
  /\ map_get (patch_removals previous current patch) k
     = if contains_key previous k && negb (contains_key current k) then Some Null else map_get patch k.
Proof.
  unfold patch_removals. revert patch. induction previous as [|[key value] previous IH]; intros patch Hnd; [done|].
  cbn [foldl fst]. rewrite contains_key_cons.
  assert (Hstep : NoDup (if contains_key current key then patch else map_insert patch key Null).*1
    /\ map_get (if contains_key current key then patch else map_insert patch key Null) k
       = if (key == k) && negb (contains_key current k) then Some Null else map_get patch k).
  { destruct (contains_key current key) eqn:Ec.
    - split; [done|]. destruct (key == k) eqn:E; [|done]. apply str_eqb_true in E as <-. by rewrite Ec.
    - split; [by apply map_insert_keys|]. rewrite map_insert_get by done. destruct (key == k) eqn:E; [|done].
      apply str_eqb_true in E as <-. by rewrite Ec. }
  destruct Hstep as [Hnd' Hget]. destruct (IH _ Hnd') as [? ->]. split; [done|]. rewrite Hget.
  destruct (key == k), (contains_key previous k), (contains_key current k); done.
Qed.

Lemma patch_changes_get previous current patch k :
  NoDup current.*1 -> NoDup patch.*1 ->
  NoDup (patch_changes previous current patch).*1
  /\ map_get (patch_changes previous current patch) k
     = match map_get current k with
       | None => map_get patch k
       | Some current_value =>
           match map_get previous k with
           | None => Some current_value
           | Some previous_value =>
               match create_merge_patch previous_value current_value with
               | Some value_patch => Some value_patch
               | None => map_get patch k
               end
           end
       end.
Proof.
  revert patch. induction current as [|[key value] current IH]; intros patch; [done|].
  cbn [fmap list_fmap fst]. rewrite NoDup_cons. intros [Hk Hnd] Hp. cbn [patch_changes map_get].
  set (patch' := match map_get previous key with Some _ => _ | None => _ end).
  assert (Hstep : NoDup patch'.*1 /\ map_get patch' k
    = if key == k then
        match map_get previous k with
        | None => Some value
        | Some previous_value =>
            match create_merge_patch previous_value value with
            | Some value_patch => Some value_patch
            | None => map_get patch k
            end
        end
      else map_get patch k).
  { subst patch'. destruct (key == k) eqn:E.
    - apply str_eqb_true in E as <-. destruct (map_get previous key) as [pv|].
      + destruct (create_merge_patch pv value); [|done].
        split; [by apply map_insert_keys|]. rewrite map_insert_get by done. by rewrite str_eqb_refl.
      + split; [by apply map_insert_keys|]. rewrite map_insert_get by done. by rewrite str_eqb_refl.
    - destruct (map_get previous key) as [pv|]; [destruct (create_merge_patch pv value); [|done]|];
        (split; [by apply map_insert_keys|]; rewrite map_insert_get by done; by rewrite E). }
  destruct Hstep as [Hnd' Hget]. destruct (IH _ Hnd Hnd') as [? ->]. split; [done|]. rewrite Hget.
  destruct (key == k) eqn:E; [|done]. apply str_eqb_true in E as ->.
  apply map_get_None in Hk. by rewrite Hk.
Qed.

Lemma new_patch_get previous current k :
  NoDup current.*1 ->
  NoDup (new_patch previous current).*1
  /\ map_get (new_patch previous current) k = patch_field previous current k.
Proof.
  intros Hnd. unfold new_patch, patch_field.
  destruct (patch_removals_get previous current [] k) as [Hr Hget]; [constructor|].
  destruct (patch_changes_get previous current _ k Hnd Hr) as [? ->]. split; [done|]. rewrite Hget.
  assert (Hc : contains_key current k = is_some (map_get current k)) by done.
  rewrite Hc. destruct (map_get current k) as [cv|]; cbn [is_some negb].
  - rewrite andb_false_r. destruct (map_get previous k) as [pv|]; [|done].
    by destruct (create_merge_patch pv cv).
  - by rewrite andb_true_r.
Qed.

(** ** Well-formed and clean values *)

Lemma wf_map_get m : wf_map m <-> NoDup m.*1 /\ forall k v, map_get m k = Some v -> wf_value v.
Proof.
  unfold wf_map. rewrite Forall_forall. split; intros [Hnd Hv]; (split; [done|]).
  - intros k v Hk%map_get_elem. by apply (Hv (k, v)).
  - intros [k v] Hin. apply (Hv k). by apply elem_map_get.
Qed.

Lemma apply_fields_wf (ops : MapOps Value) (laws : @MapLaws Value ops) patch target :
  (forall key value v, map_get patch key = Some value -> wf_value v ->
     wf_value (apply_merge_patch_value v value)) ->
  NoDup patch.*1 -> wf_map target -> wf_map (apply_fields ops patch target).
Proof.
  intros IH Hp [Ht Hwf]%wf_map_get. apply wf_map_get. split.
  - by apply (apply_fields_get ops patch target []).
  - intros k v. rewrite (proj2 (apply_fields_get ops patch target k Hp Ht)). unfold apply_field.
    destruct (map_get patch k) as [value|] eqn:E; [|by apply Hwf]. destruct (is_null value); [done|].
    intros [= <-]. eapply IH; [done|]. destruct (map_get target k) eqn:Et; [by eapply Hwf|exact I].
Qed.

Lemma as_object_wf v : wf_value v -> wf_map (default [] (as_object v)).
Proof. destruct v; simpl; try (by intros _; split; constructor). by rewrite <- wf_object. Qed.

Lemma apply_wf p v : wf_value p -> wf_value v -> wf_value (apply_merge_patch_value v p).
Proof.
  revert v. induction p as [|b0|n0|s0|l IH|m IH] using value_ind; intros v Hp Hv; try done.
  rewrite apply_object. apply wf_object. apply wf_object in Hp. destruct (proj1 (wf_map_get m) Hp) as [Hnd Hm].
  apply apply_fields_wf; [apply _| |done|by apply as_object_wf].
  intros key value w Hk Hw. pose proof (map_get_Forall _ _ _ _ IH Hk) as Hi. simpl in Hi.
  apply Hi; [by eapply Hm|done].
Qed.

Lemma new_patch_wf previous current :
  (forall key cv pv p, map_get current key = Some cv -> wf_value pv ->
     create_merge_patch pv cv = Some p -> wf_value p) ->
  wf_map previous -> wf_map current -> wf_map (new_patch previous current).
Proof.
  intros IH [_ Hp]%wf_map_get [Hnd Hc]%wf_map_get. apply wf_map_get. split.
  - by apply (new_patch_get previous current []).
  - intros k v. rewrite (proj2 (new_patch_get previous current k Hnd)). unfold patch_field.
    destruct (map_get current k) as [cv|] eqn:Ec.
    + destruct (map_get previous k) as [pv|] eqn:Ep; [by eapply IH, Hp|].
      intros [= <-]. by eapply Hc.
    + destruct (contains_key previous k); [|done]. by intros [= <-].
Qed.

Lemma create_wf cur prev p :
  wf_value prev -> wf_value cur -> create_merge_patch prev cur = Some p -> wf_value p.
Proof.
  revert prev p. induction cur as [|b0|n0|s0|l IH|m IH] using value_ind; intros prev p Hprev Hcur.
  6:{ rewrite create_object. destruct (value_eqb prev (Object m)); [done|]. intros [= <-].
      apply wf_object in Hcur. apply wf_object. apply (new_patch_wf _ m); [|by apply as_object_wf|done].
      intros key cv pv q Hk Hpv Hq. pose proof (map_get_Forall _ _ _ _ IH Hk) as Hi. simpl in Hi.
      eapply Hi; [exact Hpv| |done]. apply wf_map_get in Hcur as [_ Hc]. by eapply Hc. }
  all: simpl; destruct (value_eqb _ _); [done|]; by intros [= <-].
Qed.

(** No object has a null field; arrays may hold anything. *)
Fixpoint clean (v : Value) : Prop :=
  match v with
  | Object m => (fix clean_all (m : Map) : Prop :=
                   match m with
                   | [] => True
                   | (_, x) :: m' => (is_null x = false /\ clean x) /\ clean_all m'
                   end) m
  | _ => True
  end.

Definition clean_map m : Prop := Forall (fun e => is_null e.2 = false /\ clean e.2) m.

Lemma clean_object m : clean (Object m) <-> clean_map m.
Proof. unfold clean_map. induction m as [|[k x] m IH]; [done|]. rewrite Forall_cons, <- IH. done. Qed.

Lemma clean_get m k v : clean_map m -> map_get m k = Some v -> is_null v = false /\ clean v.
Proof. intros Hm Hk. apply (map_get_Forall _ _ _ _ Hm Hk). Qed.

Lemma remove_null_entries (m : Map) :
  exists m', remove_null_object_fields (Object m) = Object m'
    /\ m' = (fun e => (e.1, remove_null_object_fields e.2)) <$> List.filter (fun e => negb (is_null e.2)) m.
Proof.
  eexists. split; [reflexivity|]. induction m as [|[k x] m IH]; [done|]. simpl.
  destruct (is_null x); simpl; [exact IH|]. f_equal. exact IH.
Qed.

Lemma remove_null_is_null v : is_null (remove_null_object_fields v) = is_null v.
Proof. by destruct v. Qed.

(** Removing the null fields gives a clean value. *)
Lemma remove_null_clean v : clean (remove_null_object_fields v).
Proof.
  induction v as [|b0|n0|s0|l IH|m IH] using value_ind; try exact I.
  destruct (remove_null_entries m) as (m' & -> & ->). apply clean_object. unfold clean_map.
  apply Forall_fmap, Forall_forall. intros [k x] Hin%list_elem_of_In.
  apply filter_In in Hin as [Hin Hn]. apply list_elem_of_In in Hin. simpl in *.
  rewrite remove_null_is_null. rewrite negb_true_iff in Hn. split; [done|].
  rewrite Forall_forall in IH. exact (IH _ Hin).
Qed.

Lemma remove_null_wf v : wf_value v -> wf_value (remove_null_object_fields v).
Proof.
  induction v as [|b0|n0|s0|l IH|m IH] using value_ind; try done.
  destruct (remove_null_entries m) as (m' & -> & ->). rewrite !wf_object. intros [Hnd Hwf]. split.
  - rewrite <- list_fmap_compose.
    replace (fst ∘ (fun e : rstr * Value => (e.1, remove_null_object_fields e.2))) with (@fst rstr Value)
      by reflexivity.
    clear IH Hwf. induction m as [|[k x] m IH]; [done|]. cbn [fmap list_fmap] in Hnd.
    apply NoDup_cons in Hnd as [Hk Hnd]. simpl. destruct (negb (is_null x)); [|by apply IH].
    cbn [fmap list_fmap]. apply NoDup_cons. split; [|by apply IH]. intros Hin. apply Hk.
    apply list_elem_of_fmap in Hin as ([k0 x0] & Heq & Hin%list_elem_of_In).
    apply filter_In in Hin as [Hin%list_elem_of_In _]. apply list_elem_of_fmap. by exists (k0, x0).
  - apply Forall_fmap, Forall_forall. intros [k x] Hin%list_elem_of_In.
    apply filter_In in Hin as [Hin%list_elem_of_In _]. rewrite Forall_forall in IH, Hwf. simpl.
    apply (IH _ Hin), (Hwf _ Hin).
Qed.

(** ** What a patch does *)

(** A clean value applied where there is nothing gives the value. *)
Lemma apply_to_null v : wf_value v -> clean v -> apply_merge_patch_value Null v ≡ v.
Proof.
  induction v as [|b0|n0|s0|l IH|m IH] using value_ind; intros Hwf Hc; try reflexivity.
  rewrite apply_object. apply wf_object in Hwf. apply wf_map_get in Hwf as [Hnd Hwf]. apply clean_object in Hc.
  constructor. intros k.
  rewrite (proj2 (apply_fields_get _ m [] k Hnd (NoDup_nil_2))). unfold apply_field. simpl.
  destruct (map_get m k) as [x|] eqn:E; [|constructor].
  destruct (clean_get _ _ _ Hc E) as [-> Hcx]. constructor.
  pose proof (map_get_Forall _ _ _ _ IH E) as Hi. simpl in Hi. apply Hi; [by eapply Hwf|done].
Qed.

(** The patch from one map to another, applied to the first, gives the second. *)
Lemma apply_new_patch (ops : MapOps Value) (laws : @MapLaws Value ops) previous current :
  (forall key pv cv, map_get previous key = Some pv -> map_get current key = Some cv ->
     match create_merge_patch pv cv with
     | None => pv ≡ cv
     | Some p => is_null p = false /\ apply_merge_patch_value pv p ≡ cv
     end) ->
  wf_map previous -> wf_map current -> clean_map current ->
  apply_fields ops (new_patch previous current) previous ≡ current.
Proof.
  intros IH [Hp _] [Hc Hwf]%wf_map_get Hclean k.
  destruct (new_patch_get previous current k Hc) as [Hnd Hget].
  rewrite (proj2 (apply_fields_get ops _ previous k Hnd Hp)). unfold apply_field.
  rewrite Hget. unfold patch_field.
  assert (Hin : contains_key previous k = is_some (map_get previous k)) by done.
  destruct (map_get current k) as [cv|] eqn:Ec.
  - destruct (clean_get _ _ _ Hclean Ec) as [Hn Hcl].
    destruct (map_get previous k) as [pv|] eqn:Ep.
    + specialize (IH k pv cv Ep Ec). destruct (create_merge_patch pv cv) as [p|].
      * destruct IH as [-> IH]. by constructor.
      * rewrite ?Ep. by constructor.
    + rewrite Hn. constructor. apply apply_to_null; [by eapply Hwf|done].
  - rewrite Hin. destruct (map_get previous k); simpl; constructor.
Qed.

Lemma apply_created cur prev :
  wf_value prev -> wf_value cur -> clean cur -> is_null cur = false ->
  match create_merge_patch prev cur with
  | None => prev ≡ cur
  | Some p => is_null p = false /\ apply_merge_patch_value prev p ≡ cur
  end.
Proof.
  revert prev. induction cur as [|b0|n0|s0|l IH|m IH] using value_ind; intros prev Hp Hc Hcl Hn.
  6:{ rewrite create_object. destruct (value_eqb prev (Object m)) eqn:E; [by apply value_eqb_spec|].
      split; [done|]. rewrite apply_object. apply wf_object in Hc. apply clean_object in Hcl.
      constructor. apply apply_new_patch; [apply _| |by apply as_object_wf|done|done].
      intros key pv cv Hpv Hcv. pose proof (map_get_Forall _ _ _ _ IH Hcv) as Hi. simpl in Hi.
      destruct (clean_get _ _ _ Hcl Hcv). apply Hi; [|by eapply (proj1 (wf_map_get m))|done..].
      eapply (proj1 (wf_map_get _)); [|exact Hpv]. by apply as_object_wf. }
  all: simpl; destruct (value_eqb _ _) eqn:E; [by apply value_eqb_spec|]; by split.
Qed.

(** A patch is made exactly when something changed. *)
Lemma create_None prev cur :
  wf_value prev -> wf_value cur -> create_merge_patch prev cur = None <-> prev ≡ cur.
Proof.
  intros Hp Hc. rewrite <- value_eqb_spec by done.
  destruct cur; simpl; destruct (value_eqb _ _); split; done.
Qed.

(** ** Patches respect the equality *)

Definition wf_same v w : Prop := wf_value v /\ wf_value w /\ v ≡ w.

Lemma same_is_null v w : v ≡ w -> is_null v = is_null w.
Proof. by inversion 1. Qed.

Lemma same_as_object v w : v ≡ w -> default [] (as_object v) ≡ default [] (as_object w).
Proof. inversion 1; simpl; try done; reflexivity. Qed.

Lemma apply_fields_same (ops ops' : MapOps Value) (laws : @MapLaws Value ops) (laws' : @MapLaws Value ops')
    patch target target' :
  (forall key value v w, map_get patch key = Some value -> v ≡ w ->
     wf_value v -> wf_value w -> apply_merge_patch_value v value ≡ apply_merge_patch_value w value) ->
  NoDup patch.*1 -> wf_map target -> wf_map target' -> target ≡ target' ->
  apply_fields ops patch target ≡ apply_fields ops' patch target'.
Proof.
  intros IH Hp [Ht Hwf]%wf_map_get [Ht' Hwf']%wf_map_get Hs k.
  rewrite (proj2 (apply_fields_get ops patch target k Hp Ht)).
  rewrite (proj2 (apply_fields_get ops' patch target' k Hp Ht')). unfold apply_field. specialize (Hs k).
  destruct (map_get patch k) as [value|] eqn:E; [|done]. destruct (is_null value); constructor.
  eapply IH; [done|..].
  - by inversion Hs.
  - destruct (map_get target k) eqn:Et; [by eapply Hwf|exact I].
  - destruct (map_get target' k) eqn:Et; [by eapply Hwf'|exact I].
Qed.

#[export] Instance apply_merge_patch_value_proper p :
  wf_value p -> Proper (wf_same ==> wf_same) (fun v => apply_merge_patch_value v p).
Proof.
  intros Hp v w (Hv & Hw & Hs). split_and!; [by apply apply_wf..|].
  revert v w Hv Hw Hs. induction p as [|b0|n0|s0|l IH|m IH] using value_ind; intros v w Hv Hw Hs;
    try reflexivity.
  rewrite !apply_object. constructor. apply wf_object in Hp. destruct (proj1 (wf_map_get m) Hp) as [Hnd Hm].
  apply apply_fields_same; [apply _|apply _| |done|by apply as_object_wf..|by apply same_as_object].
  intros key value v' w' Hk Hs' Hv' Hw'. pose proof (map_get_Forall _ _ _ _ IH Hk) as Hi. simpl in Hi.
  apply Hi; [by eapply Hm|done..].
Qed.
End json.
