(* ===== verification/WorldState.v ===== *)
(** * WorldState: [codex-rs/core/src/context/world_state/mod.rs], the replay of
    world-state records in [core/src/session/rollout_reconstruction.rs], and what a
    session does with its world state ([core/src/session/mod.rs])

    The world state is what the agent has told the model about its
    environment, in sections.  Each section renders what changed since an
    earlier snapshot, and the snapshots are persisted as full records followed
    by merge patches.

    A section behind [dyn ErasedWorldStateSection] is the record of what its
    methods return; a typed section carries its type of snapshots with the
    decoder that [serde] derives for it, which is an argument.  Snapshots are
    [BTreeMap]s, by their entries in key order.

    [world_session] is the part of a session that the world state depends on, and
    [session_step] everything that changes it: the start of a turn, the requests of
    the model in it, compactions in and between turns, new context windows, items
    that a client injects, and the reconstruction from a rollout. *)

From stdpp Require Import base list strings relations.
From S2P Require Import Prelude Truncate ResponseItems ContextFragments JsonPatch.

Open Scope rust_scope.

(** What is known about a section's previously model-visible state. *)
Inductive PreviousSectionState (T : Type) :=
| Absent
| Unknown
| Known (previous : T).
Arguments Absent {T}.
Arguments Unknown {T}.
Arguments Known {T}.

Section world_state.
Context {Num : Type} `{!JsonNumber Num}.
Abbreviation Value := (Value Num).
Abbreviation Map := (list (rstr * Value)).

(** ** Sections *)

Record ErasedWorldStateSection := mkErased {
  erased_snapshot : option Value;
  matches_legacy_fragment : rstr -> rstr -> bool;
  has_retained_fragment_matcher : bool;
  matches_retained_fragment : rstr -> rstr -> bool;
  erased_render_diff : PreviousSectionState Value -> option Fragment
}.

(** [trait WorldStateSection]; [to_value] is [None] when the serialisation
    fails. *)
Record WorldStateSection := mkSection {
  Snapshot : Type;
  to_value : option Value;
  deserialize : Value -> option Snapshot;
  should_persist : bool;
  matches_current_legacy_fragment : rstr -> rstr -> bool;
  section_has_retained_matcher : bool;
  section_matches_retained : rstr -> rstr -> bool;
  render_diff : PreviousSectionState Snapshot -> option Fragment
}.

Definition non_null (v : Value) : option Value := if is_null v then None else Some v.

(** [impl ErasedWorldStateSection for S] *)
Definition erase (s : WorldStateSection) : ErasedWorldStateSection :=
  mkErased
    (if should_persist s then
       match to_value s with
       | Some snapshot => non_null (remove_null_object_fields snapshot)
       | None => None
       end
     else None)
    (matches_current_legacy_fragment s)
    (section_has_retained_matcher s)
    (section_matches_retained s)
    (fun previous =>
       render_diff s
         match previous with
         | Known previous =>
             match deserialize s previous with
             | Some previous => Known previous
             | None => Unknown
             end
         | Absent => Absent
         | Unknown => Unknown
         end).

(** [WorldStateSectionContribution] and its fragments. *)
Record RenderedWorldStateFragment := mkWorldFragment {
  world_role : rstr;
  world_markers : rstr * rstr;
  world_body : rstr
}.

Record WorldStateSectionContribution := mkContribution {
  contribution_id : rstr;
  contribution_snapshot : Value;
  contribution_render_diff : PreviousSectionState Value -> option RenderedWorldStateFragment;
  contribution_matches_legacy : rstr -> rstr -> bool;
  contribution_matches_retained : option (rstr -> rstr -> bool)
}.

(** [impl ErasedWorldStateSection for ExtensionWorldStateSection] *)
Definition erase_extension (c : WorldStateSectionContribution) : ErasedWorldStateSection :=
  mkErased
    (non_null (remove_null_object_fields (contribution_snapshot c)))
    (contribution_matches_legacy c)
    (is_some (contribution_matches_retained c))
    (fun role text => is_some_and (contribution_matches_retained c) (fun matcher => matcher role text))
    (fun previous =>
       (fun f => mkFragment (world_role f) (contribution_id c ++ lit ".instructions") false
                   (world_markers f) (world_body f))
       <$> contribution_render_diff c previous).

(** ** The state and its snapshots *)

(** An [IndexMap] by its entries in insertion order. *)
Definition WorldState := list (rstr * ErasedWorldStateSection).
Definition WorldStateSnapshot := Map.

Definition PermissionsState_ID : rstr := lit "permissions".

Definition add_section (id : rstr) (s : ErasedWorldStateSection) (self : WorldState)
  : outcome unit WorldState :=
  if contains_key self id then Panic else Done (self ++ [(id, s)]).

(** [shift_insert] before the entry of a key that is present. *)
Fixpoint insert_before (before id : rstr) (s : ErasedWorldStateSection) (self : WorldState)
  : WorldState :=
  match self with
  | [] => [(id, s)]
  | (k, x) :: others =>
      if k == before then (id, s) :: self else (k, x) :: insert_before before id s others
  end.

Definition add_extension_section (c : WorldStateSectionContribution) (self : WorldState)
  : outcome unit WorldState :=
  let id := contribution_id c in
  if contains_key self id then Panic
  else if (id == lit "host_skills") && contains_key self PermissionsState_ID
       then Done (insert_before PermissionsState_ID id (erase_extension c) self)
       else Done (self ++ [(id, erase_extension c)]).

(** [filter_map] and [collect] into a [BTreeMap]. *)
Definition snapshot (self : WorldState) : WorldStateSnapshot :=
  foldl (fun sections e =>
           match erased_snapshot e.2 with
           | Some value => btree_insert sections e.1 value
           | None => sections
           end) [] self.

Definition into_object (s : WorldStateSnapshot) : Map :=
  foldl (fun m e => index_insert m e.1 e.2) [] s.

Definition snapshot_from (state : Map) : WorldStateSnapshot :=
  foldl (fun m e => btree_insert m e.1 e.2) [] state.

Definition merge_patch_from (self previous : WorldStateSnapshot) : option Map :=
  let patch := patch_changes previous self (patch_removals previous self []) in
  if is_empty patch then None else Some patch.

Definition apply_merge_patch (self : WorldStateSnapshot) (patch : Map) : WorldStateSnapshot :=
  apply_fields (btree_map Value) patch self.

(** ** Rendering *)

Definition render_with (previous : rstr -> ErasedWorldStateSection -> PreviousSectionState Value)
    (self : WorldState) : list Fragment :=
  omap (fun e => erased_render_diff e.2 (previous e.1 e.2)) self.

Definition render_full (self : WorldState) : list Fragment := render_with (fun _ _ => Absent) self.

Definition render_state_diff (self : WorldState) (previous : WorldStateSnapshot) : list Fragment :=
  render_with (fun id _ => match map_get previous id with
                           | Some previous => Known previous
                           | None => Absent
                           end) self.

Definition has_text_fragment {Extra Json} (matches : rstr -> rstr -> bool)
    (items : list (ResponseItem Extra Json)) : bool :=
  existsb (fun i => match i with
                    | Message _ role content _ _ =>
                        existsb (fun c => match c with
                                          | MsgInputText text => matches role text
                                          | _ => false
                                          end) content
                    | _ => false
                    end) items.

Definition has_retained_fragment {Extra Json} (items : list (ResponseItem Extra Json))
    (section : ErasedWorldStateSection) : bool :=
  has_text_fragment (matches_retained_fragment section) items.

Definition has_legacy_fragment {Extra Json} (items : list (ResponseItem Extra Json))
    (section : ErasedWorldStateSection) : bool :=
  has_text_fragment (matches_legacy_fragment section) items.

Definition render_history_diff {Extra Json} (self : WorldState)
    (previous : option WorldStateSnapshot) (items : list (ResponseItem Extra Json))
  : list Fragment :=
  render_with
    (fun id section =>
       match previous ≫= fun previous => map_get previous id with
       | Some previous =>
           if has_retained_fragment_matcher section && negb (has_retained_fragment items section)
           then Absent
           else Known previous
       | None => if has_legacy_fragment items section then Unknown else Absent
       end) self.

(** ** Records *)

Record WorldStateItem := mkWorldStateItem {
  full : bool;
  state : Map
}.

(** The record for a new snapshot, as [update_world_state] makes it. *)
Definition world_state_record (baseline : option WorldStateSnapshot) (current : WorldStateSnapshot)
  : option WorldStateItem :=
  match baseline with
  | None => Some (mkWorldStateItem true (into_object current))
  | Some previous => mkWorldStateItem false <$> merge_patch_from current previous
  end.

(** What the replay reads: a compaction or a world-state record. *)
Inductive ReplayItem :=
| ReplayCompacted
| ReplayWorldState (i : WorldStateItem).

Definition replay_step (baseline : option WorldStateSnapshot) (i : ReplayItem)
  : option WorldStateSnapshot :=
  match i with
  | ReplayCompacted => None
  | ReplayWorldState w =>
      if full w then Some (snapshot_from (state w))
      else match baseline with
           | None => None
           | Some b => Some (apply_merge_patch b (state w))
           end
  end.

Definition replay_world_state (items : list ReplayItem) : option WorldStateSnapshot :=
  foldl replay_step None items.
End world_state.
Arguments WorldState : clear implicits.
Arguments WorldStateItem : clear implicits.
Arguments ErasedWorldStateSection : clear implicits.
Arguments ReplayItem : clear implicits.

(** ** Snapshots *)

Section world_lemmas.
Context {Num : Type} `{!JsonNumber Num}.
Abbreviation Value := (Value Num).
Abbreviation Map := (list (rstr * Value)).
Implicit Types (m previous current : Map) (v w : Value).

(** [collect] into a map, by inserting the entries one by one. *)
Lemma collect_get (ops : MapOps Value) (laws : @MapLaws Value ops) m acc k :
  NoDup m.*1 -> NoDup acc.*1 ->
  let r := foldl (fun r e => ops.(map_insert) r e.1 e.2) acc m in
  NoDup r.*1 /\ map_get r k = match map_get m k with Some v => Some v | None => map_get acc k end.
Proof.
  cbv zeta. revert acc. induction m as [|[key v] m IH]; intros acc; [done|].
  cbn [fmap list_fmap fst foldl snd]. rewrite NoDup_cons. intros [Hk Hnd] Ha.
  destruct (IH (map_insert acc key v)) as [? ->]; [done|by apply map_insert_keys|]. split; [done|].
  rewrite map_insert_get by done. cbn [map_get]. destruct (key == k) eqn:E; [|done].
  apply str_eqb_true in E as ->. apply map_get_None in Hk. by rewrite Hk.
Qed.

Lemma collect_same (ops : MapOps Value) (laws : @MapLaws Value ops) m :
  wf_map m -> let r := foldl (fun r e => ops.(map_insert) r e.1 e.2) [] m in
  wf_map r /\ same_map r m.
Proof.
  cbv zeta. intros Hwf. pose proof Hwf as [Hnd Hv]%wf_map_get.
  assert (Hget : forall k, map_get (foldl (fun r e => ops.(map_insert) r e.1 e.2) [] m) k = map_get m k).
  { intros k. rewrite (proj2 (collect_get ops laws m [] k Hnd (NoDup_nil_2))). by destruct (map_get m k). }
  split.
  - apply wf_map_get. split; [by apply (collect_get ops laws m [] [] Hnd (NoDup_nil_2))|].
    intros k v. rewrite Hget. apply Hv.
  - intros k. rewrite Hget. reflexivity.
Qed.

(** What every snapshot satisfies: distinct keys, no null anywhere but in
    arrays. *)
Definition snapshot_ok m : Prop := wf_map m /\ clean_map m.

Definition section_ok (s : ErasedWorldStateSection Num) : Prop :=
  forall v, erased_snapshot s = Some v -> wf_value v /\ clean v /\ is_null v = false.

Lemma non_null_ok v w :
  wf_value v -> non_null (remove_null_object_fields v) = Some w ->
  wf_value w /\ clean w /\ is_null w = false.
Proof.
  unfold non_null. destruct (is_null (remove_null_object_fields v)) eqn:E; intros Hv [= <-].
  split_and!; [by apply remove_null_wf|apply remove_null_clean|done].
Qed.

Lemma erase_ok (s : WorldStateSection) :
  (forall v, to_value s = Some v -> wf_value v) -> section_ok (erase s).
Proof.
  intros Hv v. unfold erase. cbn [erased_snapshot]. destruct (should_persist s); [|done].
  destruct (to_value s) as [w|]; [|done]. apply non_null_ok. by apply Hv.
Qed.

Lemma erase_extension_ok (c : WorldStateSectionContribution) :
  wf_value (contribution_snapshot c) -> section_ok (erase_extension c).
Proof. intros Hv v. by apply non_null_ok. Qed.

Lemma snapshot_is_ok (ws : WorldState Num) : Forall (fun e => section_ok e.2) ws -> snapshot_ok (snapshot ws).
Proof.
  intros Hws. unfold snapshot. assert (Hinit : snapshot_ok []) by (repeat constructor).
  revert Hinit. generalize (@nil (rstr * Value)). induction Hws as [|[id s] ws Hs _ IH]; intros m Hm; [done|].
  cbn [foldl]. apply IH. destruct (erased_snapshot s) as [v|] eqn:E; cbn [snd fst]; rewrite E; [|done].
  destruct (Hs v E) as (Hwf & Hc & Hn). destruct Hm as [[Hnd Hv]%wf_map_get Hcl].
  assert (Hget : forall k, map_get (btree_insert m id v) k = if id == k then Some v else map_get m k).
  { intros k. by apply (@map_insert_get _ _ (btree_map_laws Value)). }
  assert (Hkeys : NoDup (btree_insert m id v).*1) by by apply (@map_insert_keys _ _ (btree_map_laws Value)).
  assert (Hall : forall k w, map_get (btree_insert m id v) k = Some w ->
    wf_value w /\ is_null w = false /\ clean w).
  { intros k w. rewrite Hget. destruct (id == k); [by intros [= <-]|]. intros Hk.
    split; [by eapply Hv|]. by eapply clean_get. }
  split.
  - apply wf_map_get. split; [done|]. intros k w Hk. by apply (Hall k).
  - unfold clean_map. apply Forall_forall. intros [k w] Hin. apply (Hall k). by apply elem_map_get.
Qed.

(** ** Patches between snapshots *)

Lemma is_empty_get m : is_empty m = true <-> forall k, map_get m k = None.
Proof.
  rewrite is_empty_true. split; [by intros ->|]. intros H. destruct m as [|[k v] m]; [done|].
  specialize (H k). simpl in H. by rewrite str_eqb_refl in H.
Qed.

Lemma patch_between previous current :
  wf_map previous -> snapshot_ok current ->
  same_map (apply_merge_patch previous (new_patch previous current)) current.
Proof.
  intros Hp [Hc Hcl]. apply apply_new_patch; [apply _| |done..].
  intros key pv cv Hpv Hcv. destruct (clean_get _ _ _ Hcl Hcv). apply apply_created; [..|done|done].
  - by eapply (proj1 (wf_map_get previous)).
  - by eapply (proj1 (wf_map_get current)).
Qed.

Lemma no_patch_iff previous current :
  wf_map previous -> wf_map current -> merge_patch_from current previous = None <-> same_map previous current.
Proof.
  intros Hp Hc. unfold merge_patch_from. fold (new_patch previous current).
  transitivity (is_empty (new_patch previous current) = true); [by destruct (is_empty _)|].
  rewrite is_empty_get. apply wf_map_get in Hp as [_ Hp]. apply wf_map_get in Hc as [Hnd Hc].
  unfold same_map. apply forall_proper. intros k. rewrite (proj2 (new_patch_get previous current k Hnd)).
  unfold patch_field, contains_key. destruct (map_get current k) as [cv|] eqn:Ec, (map_get previous k) as [pv|] eqn:Ep; simpl.
  - rewrite create_None; [|by eapply Hp|by eapply Hc]. split; [by constructor|by inversion 1].
  - split; [done|by inversion 1].
  - split; [done|by inversion 1].
  - split; [constructor|done].
Qed.

(** ** The world state of a session *)

(** What a session keeps of it: whether there is a reference context item, the
    baseline of the history, the value that the running turn owns, and the records of
    the rollout that a replay reads. *)
Record world_session := mkWorldSession {
  has_reference : bool;
  world_state_baseline : option (@WorldStateSnapshot Num);
  turn_world_state : option (WorldState Num);
  records : list (ReplayItem Num)
}.

Definition full_record (current : WorldStateSnapshot) : ReplayItem Num :=
  ReplayWorldState (mkWorldStateItem true (into_object current)).

(** [record_context_updates_and_set_reference_context_item]: a full record when the
    session has no reference, [update_world_state] otherwise. *)
Definition record_context_updates (ws : WorldState Num) (s : world_session) : world_session :=
  let current := snapshot ws in
  let item :=
    if has_reference s then ReplayWorldState <$> world_state_record (world_state_baseline s) current
    else Some (full_record current) in
  mkWorldSession true (Some current) (turn_world_state s) (records s ++ option_list item).

(** [record_step_world_state_if_changed]: the patch is made from the value that the
    turn owns, not from the baseline. *)
Definition record_step_world_state (previous ws : WorldState Num) (s : world_session) : world_session :=
  let current := snapshot ws in
  let item := mkWorldStateItem false <$> merge_patch_from current (snapshot previous) in
  mkWorldSession (has_reference s) (Some current) (turn_world_state s)
    (records s ++ option_list (ReplayWorldState <$> item)).

(** [replace_compacted_history] *)
Definition replace_compacted_history (reference : bool) (ws : option (WorldState Num)) (s : world_session)
  : world_session :=
  let current := snapshot <$> ws in
  mkWorldSession reference current (turn_world_state s)
    (records s ++ ReplayCompacted :: option_list (full_record <$> current)).

(** [start_new_context_window] *)
Definition start_new_context_window (ws : WorldState Num) (s : world_session) : world_session :=
  replace_compacted_history true (Some ws) s.

(** [inject_response_items_for_turn]: the context comes first when there is none. *)
Definition inject_response_items (ws : WorldState Num) (s : world_session) : world_session :=
  if has_reference s then s else record_context_updates ws s.

(** [apply_rollout_reconstruction], with the records that survive and whether a
    reference does *)
Definition apply_rollout_reconstruction (reference : bool) (kept : list (ReplayItem Num)) (s : world_session)
  : world_session :=
  mkWorldSession reference (replay_world_state kept) (turn_world_state s) kept.

Definition with_turn (ws : option (WorldState Num)) (s : world_session) : world_session :=
  mkWorldSession (has_reference s) (world_state_baseline s) ws (records s).

Definition world_ok (ws : WorldState Num) : Prop := Forall (fun e => section_ok e.2) ws.

(** What a session does.  A turn owns the value it started with and replaces it at
    every request of the model; its compactions inject that value.  What runs between
    turns owns none: compactions without an initial context, new context windows, and
    the reconstruction from a rollout when a thread is resumed, forked or rolled back,
    which keeps some of the records. *)
Inductive session_step : world_session -> world_session -> Prop :=
| session_turn s ws :
    world_ok ws -> session_step s (with_turn (Some ws) (record_context_updates ws s))
| session_request s (owned : WorldState Num) ws :
    turn_world_state s = Some owned -> world_ok ws ->
    session_step s (with_turn (Some ws) (record_step_world_state owned ws s))
| session_compact_in_turn s ws :
    turn_world_state s = Some ws -> session_step s (replace_compacted_history true (Some ws) s)
| session_end s : session_step s (with_turn None s)
| session_compact s :
    turn_world_state s = None -> session_step s (replace_compacted_history false None s)
| session_window s ws :
    turn_world_state s = None -> world_ok ws -> session_step s (start_new_context_window ws s)
| session_inject s ws : world_ok ws -> session_step s (inject_response_items ws s)
| session_reconstruct s reference kept :
    turn_world_state s = None -> kept `sublist_of` records s ->
    session_step s (apply_rollout_reconstruction reference kept s).

Definition new_world_session : world_session := mkWorldSession false None None [].

(** ** Live and replayed baselines *)

Definition record_ok (i : ReplayItem Num) : Prop :=
  match i with ReplayCompacted => True | ReplayWorldState w => wf_map (state w) end.

Lemma merge_patch_from_wf previous current patch :
  wf_map previous -> wf_map current -> merge_patch_from current previous = Some patch -> wf_map patch.
Proof.
  intros Hp Hc. unfold merge_patch_from. fold (new_patch previous current).
  destruct (is_empty _); intros [= <-]. apply new_patch_wf; [|done..].
  intros key cv pv p Hcv Hpv. apply create_wf; [done|]. by eapply (proj1 (wf_map_get current)).
Qed.

Lemma apply_merge_patch_same s s' patch :
  wf_map patch -> wf_map s -> wf_map s' -> same_map s s' ->
  wf_map (apply_merge_patch s patch)
  /\ same_map (apply_merge_patch s patch) (apply_merge_patch s' patch).
Proof.
  intros Hp Hs Hs' Hss. pose proof Hp as [Hnd Hv]%wf_map_get. split.
  - apply apply_fields_wf; [apply _| |done|done]. intros key value v Hk. apply apply_wf. by eapply Hv.
  - apply apply_fields_same; [apply _|apply _| |done..]. intros key value v w Hk Hvw Hwv Hww.
    assert (Hval : wf_value value) by by eapply Hv.
    apply (apply_merge_patch_value_proper value Hval v w). by split_and!.
Qed.

Lemma snapshot_from_same m : wf_map m -> wf_map (snapshot_from m) /\ same_map (snapshot_from m) m.
Proof. intros Hwf. exact (collect_same (btree_map Value) (btree_map_laws Value) m Hwf). Qed.

Lemma into_object_same m : wf_map m -> wf_map (into_object m) /\ same_map (into_object m) m.
Proof. intros Hwf. exact (collect_same (index_map Value) (index_map_laws Value) m Hwf). Qed.

Lemma replay_app (items : list (ReplayItem Num)) i : replay_world_state (items ++ [i]) = replay_step (replay_world_state items) i.
Proof. unfold replay_world_state. by rewrite foldl_app. Qed.

Lemma replay_wf (items : list (ReplayItem Num)) s : Forall record_ok items -> replay_world_state items = Some s -> wf_map s.
Proof.
  revert s. induction items as [|i items IH] using rev_ind; intros s Hok; [done|].
  apply Forall_app in Hok as [Hok [Hi _]%Forall_cons]. rewrite replay_app.
  destruct i as [|[f m]]; [done|]. cbn in Hi. cbn. destruct f.
  - intros [= <-]. by apply snapshot_from_same.
  - destruct (replay_world_state items) as [b|]; [|done]. intros [= <-].
    by apply (apply_merge_patch_same b b); [done|apply IH..|reflexivity].
Qed.

(** The records replay to a snapshot. *)
Definition replays_to (items : list (ReplayItem Num)) (s : WorldStateSnapshot) : Prop :=
  exists s', replay_world_state items = Some s' /\ wf_map s' /\ same_map s' s.

Lemma full_record_replays (items : list (ReplayItem Num)) s :
  wf_map s -> Forall record_ok items ->
  replays_to (items ++ [full_record s]) s /\ Forall record_ok (items ++ [full_record s]).
Proof.
  intros Hs Hok. destruct (into_object_same s Hs) as [Hio Hso]. destruct (snapshot_from_same _ Hio) as [Hfr Hsf]. split.
  - exists (snapshot_from (into_object s)). rewrite replay_app. split_and!; [done..|]. by etransitivity.
  - apply Forall_app. split; [done|]. by constructor.
Qed.

(** The patch from the snapshot that the records replay to. *)
Lemma patch_record_replays (items : list (ReplayItem Num)) previous current :
  replays_to items previous -> wf_map previous -> snapshot_ok current -> Forall record_ok items ->
  let items' := items ++ option_list (ReplayWorldState <$> (mkWorldStateItem false <$> merge_patch_from current previous)) in
  replays_to items' current /\ Forall record_ok items'.
Proof.
  intros (s' & Hr & Hs' & Hsame) Hp Hcur Hok. destruct (merge_patch_from current previous) as [patch|] eqn:Ep; cbn.
  - assert (Hwf : wf_map patch) by (by eapply merge_patch_from_wf; [..|exact Ep]; [|apply Hcur]). split.
    + destruct (apply_merge_patch_same s' previous patch) as [Hw Hap]; [done..|].
      eexists. rewrite replay_app, Hr. cbn. split_and!; [done|done|]. etransitivity; [exact Hap|].
      pose proof (patch_between previous current Hp Hcur) as Hb.
      unfold merge_patch_from in Ep. fold (new_patch previous current) in Ep.
      destruct (is_empty _); by simplify_eq.
    + apply Forall_app. split; [done|]. by constructor.
  - rewrite app_nil_r. split; [|done]. apply no_patch_iff in Ep; [|done|apply Hcur].
    exists s'. split_and!; [done..|]. by etransitivity.
Qed.

(** The baseline and the records agree; a turn owns the value of the baseline. *)
Record session_ok (s : world_session) : Prop := mkSessionOk {
  session_records : Forall record_ok (records s);
  session_baseline :
    match world_state_baseline s with
    | Some b => wf_map b /\ replays_to (records s) b
    | None => replay_world_state (records s) = None
    end;
  session_turn_value ws :
    turn_world_state s = Some ws ->
    world_ok ws /\ has_reference s = true /\ world_state_baseline s = Some (snapshot ws)
}.

(** A session whose records end with those of a snapshot. *)
Lemma recorded_ok s b :
  wf_map b -> replays_to (records s) b /\ Forall record_ok (records s) -> world_state_baseline s = Some b ->
  (forall ws, turn_world_state s = Some ws -> world_ok ws /\ has_reference s = true /\ snapshot ws = b) -> session_ok s.
Proof.
  intros Hb [Hr Hok] Es Ht. constructor; [done|by rewrite Es|]. intros ws Ews.
  destruct (Ht ws Ews) as (? & ? & <-). by rewrite Es.
Qed.

Lemma record_context_updates_ok ws s :
  world_ok ws -> session_ok s ->
  replays_to (records (record_context_updates ws s)) (snapshot ws)
  /\ Forall record_ok (records (record_context_updates ws s)).
Proof.
  intros Hws [Hok Hb _]. pose proof (snapshot_is_ok ws Hws) as Hcur.
  unfold record_context_updates. cbn [records].
  destruct (has_reference s); [|by apply full_record_replays; [apply Hcur|]].
  destruct (world_state_baseline s) as [b|]; cbn [world_state_record]; [|by apply full_record_replays; [apply Hcur|]].
  destruct Hb as [Hwf Hr]. by apply patch_record_replays.
Qed.

Lemma replace_compacted_ok reference ws s :
  world_ok ws -> session_ok s ->
  replays_to (records (replace_compacted_history reference (Some ws) s)) (snapshot ws)
  /\ Forall record_ok (records (replace_compacted_history reference (Some ws) s)).
Proof.
  intros Hws [Hok _ _].
  assert (E : records (replace_compacted_history reference (Some ws) s)
              = (records s ++ [ReplayCompacted]) ++ [full_record (snapshot ws)]) by (by rewrite <- app_assoc).
  rewrite E. apply full_record_replays; [apply (snapshot_is_ok ws Hws)|]. apply Forall_app. split; [done|]. by constructor.
Qed.

Lemma session_step_ok s s' : session_step s s' -> session_ok s -> session_ok s'.
Proof.
  intros Hs Hok. pose proof Hok as [Hrec Hb Ht].
  assert (Hsnap : forall ws, world_ok ws -> wf_map (snapshot ws)) by (intros ws Hws; apply (snapshot_is_ok ws Hws)).
  destruct Hs as [s ws Hws|s previous ws Hp Hws|s ws Hp|s|s Hn|s ws Hn Hws|s ws Hws|s reference kept Hn Hsub].
  - apply (recorded_ok _ (snapshot ws)); [auto|by apply record_context_updates_ok|done|]. by intros ? [= <-].
  - destruct (Ht previous Hp) as (Hpok & Href & Hbase). rewrite Hbase in Hb. destruct Hb as [Hwf Hr].
    apply (recorded_ok _ (snapshot ws)); [auto| |done|by intros ? [= <-]].
    apply patch_record_replays; [done|done|by apply snapshot_is_ok|done].
  - destruct (Ht ws Hp) as (Hws & _). apply (recorded_ok _ (snapshot ws)); [auto|by apply replace_compacted_ok|done|].
    cbn. rewrite Hp. by intros ? [= <-].
  - by constructor.
  - constructor; cbn.
    + apply Forall_app. split; [done|]. by constructor.
    + exact (replay_app (records s) ReplayCompacted).
    + by rewrite Hn.
  - apply (recorded_ok _ (snapshot ws)); [auto|by apply replace_compacted_ok|done|]. cbn. by rewrite Hn.
  - unfold inject_response_items. destruct (has_reference s) eqn:Eref; [done|].
    apply (recorded_ok _ (snapshot ws)); [auto|by apply record_context_updates_ok|done|].
    cbn. intros w Hw. destruct (Ht w Hw) as (_ & ? & _). congruence.
  - assert (Hkept : Forall record_ok kept).
    { apply Forall_forall. intros i Hi. apply (proj1 (Forall_forall _ _) Hrec). by eapply elem_of_sublist. }
    constructor; cbn; [done| |by rewrite Hn].
    destruct (replay_world_state kept) as [b|] eqn:E; [|done]. pose proof (replay_wf kept b Hkept E) as Hwf.
    split; [done|]. exists b. split_and!; [done..|reflexivity].
Qed.

(** ** Theorems *)

(** Applying the patch between two snapshots to the first gives the second,
    up to the order of entries; no patch is made exactly when the snapshots
    are equal in this sense.  The second snapshot is the snapshot of any world
    state whose sections serialise to values with distinct keys. *)
Theorem world_state_patch_roundtrip (previous : WorldStateSnapshot) (ws : WorldState Num) :
  wf_map previous -> Forall (fun e => section_ok e.2) ws ->
  let current := snapshot ws in
  match merge_patch_from current previous with
  | None => same_map previous current
  | Some patch => same_map (apply_merge_patch previous patch) current
  end
  /\ (merge_patch_from current previous = None <-> same_map previous current).
Proof.
  intros Hp Hws current. pose proof (snapshot_is_ok ws Hws) as Hok.
  pose proof (no_patch_iff previous current Hp (proj1 Hok)) as Hno. split; [|done].
  destruct (merge_patch_from current previous) as [patch|] eqn:Ep; [|by apply Hno].
  pose proof (patch_between previous current Hp Hok) as Hb.
  unfold merge_patch_from in Ep. fold (new_patch previous current) in Ep.
  destruct (is_empty _); by simplify_eq.
Qed.

(** C6: Whatever a session does with its world state, at turns, at the requests of
    the model, by injecting the initial context, by compacting or by being reconstructed
    from the records that survive in a rollout: replaying its records gives the baseline
    it has in memory, up to the order of entries, and gives none when it has none; and
    the value that a running turn owns is that baseline.  Each operation runs to its
    end, and what it persists is written. *)
Theorem replay_recovers_baseline (s : world_session) :
  rtc session_step new_world_session s ->
  match replay_world_state (records s), world_state_baseline s with
  | Some replayed, Some baseline => same_map replayed baseline
  | None, None => True
  | _, _ => False
  end
  /\ (forall ws, turn_world_state s = Some ws -> world_state_baseline s = Some (snapshot ws)).
Proof.
  intros Hs. assert (H0 : session_ok new_world_session) by (by constructor).
  assert (Hok : session_ok s).
  { induction Hs as [|x y z Hxy _ IH]; [done|]. by eapply IH, session_step_ok. }
  destruct Hok as [_ Hb Ht]. split; [|intros ws Hws; by apply Ht].
  destruct (world_state_baseline s) as [b|]; [|by rewrite Hb].
  destruct Hb as (_ & r & -> & _ & Hsame). done.
Qed.
End world_lemmas.

(** ** Examples *)

Module Examples.
#[export] Instance number_N : JsonNumber N.
Proof.
  refine {| number_eqb := N.eqb |}. split.
  - intros a. apply N.eqb_refl.
  - intros a b. by rewrite N.eqb_sym.
  - intros a b c ->%N.eqb_eq ->%N.eqb_eq. apply N.eqb_refl.
Defined.

(** A section with the given snapshot that renders nothing. *)
Definition plain (v : Value N) : ErasedWorldStateSection N :=
  erase (mkSection unit (Some v) (fun _ => Some ()) true (fun _ _ => false) false
           (fun _ _ => false) (fun _ => None)).

Definition env (cwd : string) (extra : list (rstr * Value N)) : Value N :=
  Object ((lit "cwd", Str (lit cwd)) :: extra).

Definition before : WorldState N :=
  [(lit "environment", plain (env "/a" [(lit "shell", Str (lit "zsh")); (lit "date", Null)]));
   (lit "tools", plain (Array [Number 1%N; Null]))].
Definition after : WorldState N :=
  [(lit "apps", plain (Bool true)); (lit "environment", plain (env "/b" []))].

Lemma before_ok : Forall (fun e => section_ok e.2) before.
Proof.
  repeat (apply Forall_cons_2; [apply erase_ok; intros v [= <-]; try exact I|]); [..|constructor].
  all: try (by simpl).
  apply wf_object. split; [|repeat constructor]. apply (bool_decide_unpack _). vm_compute. exact I.
Defined.

Lemma after_ok : Forall (fun e => section_ok e.2) after.
Proof.
  repeat (apply Forall_cons_2; [apply erase_ok; intros v [= <-]; try exact I|]); [..|constructor].
  all: try (by simpl).
  apply wf_object. split; [|repeat constructor]. apply (bool_decide_unpack _). vm_compute. exact I.
Defined.

Example patch_between_states :
  merge_patch_from (snapshot after) (snapshot before)
  = Some [(lit "tools", Null); (lit "apps", Bool true);
          (lit "environment", Object [(lit "shell", Null); (lit "cwd", Str (lit "/b"))])].
Proof. vm_compute. reflexivity. Qed.

Lemma world_state_patch_roundtrip_witness :
  exists patch, merge_patch_from (snapshot after) (snapshot before) = Some patch
    /\ same_map (apply_merge_patch (snapshot before) patch) (snapshot after).
Proof.
  destruct (world_state_patch_roundtrip (snapshot before) after (proj1 (snapshot_is_ok _ before_ok)) after_ok)
    as [H _].
  revert H. cbv zeta. rewrite patch_between_states. intros H. eexists. split; [reflexivity|exact H].
Defined.

(** A turn, a request of the model that changes the state, a compaction inside the
    turn, and a resume that keeps all records. *)
Definition turn_1 := with_turn (Some before) (record_context_updates before new_world_session).
Definition request_1 := with_turn (Some after) (record_step_world_state before after turn_1).
Definition compacted_1 := replace_compacted_history true (Some after) request_1.
Definition ended_1 := with_turn None compacted_1.
Definition resumed_1 := apply_rollout_reconstruction false (records ended_1) ended_1.
Definition turn_2 := with_turn (Some before) (record_context_updates before resumed_1).

Lemma turn_2_reached : rtc session_step new_world_session turn_2.
Proof.
  eapply rtc_l; [apply (session_turn _ before before_ok)|].
  eapply rtc_l; [apply (session_request turn_1 before after eq_refl after_ok)|].
  eapply rtc_l; [apply (session_compact_in_turn request_1 after eq_refl)|].
  eapply rtc_l; [apply (session_end compacted_1)|].
  eapply rtc_l; [apply (session_reconstruct ended_1 false (records ended_1) eq_refl); reflexivity|].
  apply rtc_once. apply (session_turn _ before before_ok).
Qed.

Lemma replay_recovers_baseline_witness :
  length (records turn_2) = 5
  /\ exists replayed, replay_world_state (records turn_2) = Some replayed /\ same_map replayed (snapshot before).
Proof.
  split; [reflexivity|]. destruct (replay_recovers_baseline turn_2 turn_2_reached) as [H _].
  change (world_state_baseline turn_2) with (Some (snapshot before)) in H.
  destruct (replay_world_state (records turn_2)) as [r|]; [|by destruct H]. exists r. exact (conj eq_refl H).
Defined.
End Examples.
