(* ===== verification/MediaStrip.v ===== *)
(** * MediaStrip: [strip_images_when_unsupported] and
    [strip_audio_when_unsupported] of [codex-rs/core/src/context_manager/normalize.rs]

    Media that the model cannot read is replaced by a text before the history
    is sent, in messages (with its classification) and in tool outputs. *)

From stdpp Require Import base list strings.
From S2P Require Import Prelude Truncate ResponseItems CallPairs ContextFragments.

Open Scope rust_scope.

(** [InputModality] of [protocol/src/openai_models.rs]. *)
Inductive InputModality := TextModality | ImageModality | AudioModality.

#[export] Instance InputModality_eq_dec : EqDecision InputModality.
Proof. solve_decision. Defined.

Section strip.
Context {Extra Json : Type}.
Abbreviation ResponseItem := (ResponseItem Extra Json).
Abbreviation ResponseItemEnvelope := (ResponseItemEnvelope Extra Json).

Definition is_input_image (c : ContentItem) : bool :=
  match c with MsgInputImage _ _ => true | _ => false end.

Definition is_input_audio (c : ContentItem) : bool :=
  match c with MsgInputAudio _ => true | _ => false end.

Definition is_output_image (c : FunctionCallOutputContentItem) : bool :=
  match c with InputImage _ _ => true | _ => false end.

Definition is_output_audio (c : FunctionCallOutputContentItem) : bool :=
  match c with InputAudio _ => true | _ => false end.

(** The loop over the content of a message. *)
Definition strip_message (is_media : ContentItem -> bool) (placeholder : Fragment) (i : ResponseItem)
  : ResponseItem :=
  match to_annotated_content i with
  | (i, Some content) =>
      (set_annotated_content i
         ((fun c => if is_media (ResponseItems.content c)
                    then annotated_content (render_fragment placeholder) else c) <$> content)).1
  | (i, None) => i
  end.

Definition strip_payload (is_media : FunctionCallOutputContentItem -> bool) (placeholder : Fragment)
    (output : FunctionCallOutputPayload) : FunctionCallOutputPayload :=
  match body output with
  | ContentItems items =>
      mkPayload (ContentItems ((fun c => if is_media c then InputText (render placeholder) else c)
                               <$> items)) (success output)
  | Text _ => output
  end.

Definition strip_image_item (i : ResponseItem) : ResponseItem :=
  match i with
  | Message _ _ _ _ _ => strip_message is_input_image UnsupportedMedia_IMAGE i
  | FunctionCallOutput id call_id name namespace output meta =>
      FunctionCallOutput id call_id name namespace
        (strip_payload is_output_image UnsupportedMedia_IMAGE output) meta
  | CustomToolCallOutput id call_id name output meta =>
      CustomToolCallOutput id call_id name
        (strip_payload is_output_image UnsupportedMedia_IMAGE output) meta
  | ImageGenerationCall id status revised_prompt _ meta =>
      ImageGenerationCall id status revised_prompt [] meta
  | _ => i
  end.

Definition strip_audio_item (i : ResponseItem) : ResponseItem :=
  match i with
  | Message _ _ _ _ _ => strip_message is_input_audio UnsupportedMedia_AUDIO i
  | FunctionCallOutput id call_id name namespace output meta =>
      FunctionCallOutput id call_id name namespace
        (strip_payload is_output_audio UnsupportedMedia_AUDIO output) meta
  | CustomToolCallOutput id call_id name output meta =>
      CustomToolCallOutput id call_id name
        (strip_payload is_output_audio UnsupportedMedia_AUDIO output) meta
  | _ => i
  end.

Definition map_item (f : ResponseItem -> ResponseItem) (e : ResponseItemEnvelope)
  : ResponseItemEnvelope := mkEnvelope (f (item e)) (metadata e).

Definition strip_images_when_unsupported (input_modalities : list InputModality)
    (items : list ResponseItemEnvelope) : list ResponseItemEnvelope :=
  if bool_decide (ImageModality ∈ input_modalities) then items else map_item strip_image_item <$> items.

Definition strip_audio_when_unsupported (input_modalities : list InputModality)
    (items : list ResponseItemEnvelope) : list ResponseItemEnvelope :=
  if bool_decide (AudioModality ∈ input_modalities) then items else map_item strip_audio_item <$> items.

(** ** What is left *)

Definition payload_content (p : FunctionCallOutputPayload) : list FunctionCallOutputContentItem :=
  match body p with ContentItems items => items | Text _ => [] end.

Definition has_image (i : ResponseItem) : bool :=
  match i with
  | Message _ _ content _ _ => existsb is_input_image content
  | FunctionCallOutput _ _ _ _ output _ | CustomToolCallOutput _ _ _ output _ =>
      existsb is_output_image (payload_content output)
  | ImageGenerationCall _ _ _ result _ => negb (is_empty result)
  | _ => false
  end.

Definition has_audio (i : ResponseItem) : bool :=
  match i with
  | Message _ _ content _ _ => existsb is_input_audio content
  | FunctionCallOutput _ _ _ _ output _ | CustomToolCallOutput _ _ _ output _ =>
      existsb is_output_audio (payload_content output)
  | _ => false
  end.

(** The classifications of a message are there, one per entry. *)
Definition classified (i : ResponseItem) : Prop :=
  match i with
  | Message _ _ content _ meta =>
      exists m kinds, meta = Some m /\ content_item_kinds m = Some kinds /\ length kinds = length content
  | _ => True
  end.

Lemma existsb_map_none {A B} (P : B -> bool) (f : A -> B) l :
  (forall x, P (f x) = false) -> existsb P (f <$> l) = false.
Proof. intros H. induction l as [|x l IH]; [done|]. cbn [fmap list_fmap existsb]. rewrite H. exact IH. Qed.

Lemma map_unless_id {A} (P : A -> bool) y (l : list A) :
  existsb P l = false -> (fun x => if P x then y else x) <$> l = l.
Proof.
  induction l as [|x l IH]; [done|]. cbn [existsb]. intros [Hx Hl]%orb_false_iff.
  cbn [fmap list_fmap]. rewrite Hx. f_equal. by apply IH.
Qed.

(** ** Messages *)

Section message.
Context (is_media : ContentItem -> bool) (placeholder : Fragment).
Hypothesis Htext : forall t, is_media (MsgInputText t) = false.

Lemma strip_message_eq id role content phase meta :
  strip_message is_media placeholder (Message id role content phase meta) =
  let kinds := match meta with Some m => default [] (content_item_kinds m) | None => [] end in
  let stripped := (fun c => if is_media (ResponseItems.content c)
                            then annotated_content (render_fragment placeholder) else c)
                  <$> zip_kinds content kinds in
  Message id role (ResponseItems.content <$> stripped) phase
    (Some (set_content_item_kinds (Some (kind <$> stripped))
             (default default_passthrough (set_content_item_kinds None <$> meta)))).
Proof. unfold strip_message. cbn. by rewrite <- !list_fmap_compose. Qed.

(** The media is replaced, and every entry is classified. *)
Lemma strip_message_spec id role content phase meta :
  exists meta' content', strip_message is_media placeholder (Message id role content phase meta)
    = Message id role content' phase meta'
  /\ content' = (fun c => if is_media c then MsgInputText (render placeholder) else c) <$> content
  /\ existsb is_media content' = false /\ classified (Message id role content' phase meta').
Proof.
  rewrite strip_message_eq. cbv zeta.
  set (kinds := match meta with Some m => default [] (content_item_kinds m) | None => [] end).
  eexists _, _. split; [reflexivity|]. split_and!.
  - rewrite <- list_fmap_compose. rewrite <- (zip_kinds_content content kinds) at 2.
    rewrite <- list_fmap_compose. apply list_fmap_ext. intros _ [c k] _. simpl. by destruct (is_media c).
  - rewrite <- list_fmap_compose. apply existsb_map_none. intros [c k]. simpl.
    destruct (is_media c) eqn:E; simpl; [apply Htext|done].
  - eexists _, _. split_and!; [done..|]. by rewrite !length_fmap.
Qed.

(** A classified message without media is left as it is. *)
Lemma strip_message_id id role content phase meta :
  classified (Message id role content phase meta) -> existsb is_media content = false ->
  strip_message is_media placeholder (Message id role content phase meta)
  = Message id role content phase meta.
Proof.
  intros (m & kinds & -> & Hk & Hlen) Hm. rewrite strip_message_eq. cbv zeta. rewrite Hk. change (default [] (Some kinds)) with kinds.
  rewrite map_unless_id.
  - rewrite zip_kinds_content, zip_kinds_kinds by done. unfold set_content_item_kinds. simpl.
    destruct m. simpl in *. by subst.
  - rewrite <- (zip_kinds_content content kinds) in Hm. clear -Hm. revert Hm.
    induction (zip_kinds content kinds) as [|x l IH]; [done|]. cbn [fmap list_fmap existsb].
    intros [Hx Hl]%orb_false_iff. apply orb_false_iff. split; [exact Hx|exact (IH Hl)].
Qed.
End message.

(** ** Tool outputs *)

Section payload.
Context (is_media : FunctionCallOutputContentItem -> bool) (placeholder : Fragment).
Hypothesis Htext : forall t, is_media (InputText t) = false.

Lemma strip_payload_media p : existsb is_media (payload_content (strip_payload is_media placeholder p)) = false.
Proof.
  unfold strip_payload, payload_content. destruct (body p) as [t|items] eqn:E; simpl; [by rewrite E|].
  apply existsb_map_none. intros c. destruct (is_media c) eqn:Ec; [apply Htext|done].
Qed.

Lemma strip_payload_id p :
  existsb is_media (payload_content p) = false -> strip_payload is_media placeholder p = p.
Proof.
  unfold strip_payload, payload_content. destruct p as [[t|items] ok]; simpl; [done|].
  intros H. by rewrite map_unless_id.
Qed.

(** Replacing media adds no other media. *)
Lemma strip_payload_other (other : FunctionCallOutputContentItem -> bool) p :
  (forall t, other (InputText t) = false) -> existsb other (payload_content p) = false ->
  existsb other (payload_content (strip_payload is_media placeholder p)) = false.
Proof.
  intros Ho. unfold strip_payload, payload_content. destruct (body p) as [t|items] eqn:E; simpl; [by rewrite E|].
  clear E. induction items as [|c items IH]; [done|]. cbn [fmap list_fmap existsb].
  intros [Hc Hi]%orb_false_iff. apply orb_false_iff. split; [by destruct (is_media c)|exact (IH Hi)].
Qed.
End payload.

Lemma strip_content_other (is_media other : ContentItem -> bool) t content :
  (forall t, other (MsgInputText t) = false) -> existsb other content = false ->
  existsb other ((fun c => if is_media c then MsgInputText t else c) <$> content) = false.
Proof.
  intros Ho. induction content as [|c content IH]; [done|]. cbn [fmap list_fmap existsb].
  intros [Hc Hi]%orb_false_iff. apply orb_false_iff. split; [by destruct (is_media c)|exact (IH Hi)].
Qed.

(** ** Items *)

(** What is sent to a model with the given modalities is settled. *)
Definition settled (input_modalities : list InputModality) (i : ResponseItem) : Prop :=
  (ImageModality ∉ input_modalities -> has_image i = false /\ classified i)
  /\ (AudioModality ∉ input_modalities -> has_audio i = false /\ classified i).

Lemma strip_image_item_settled i : has_image (strip_image_item i) = false /\ classified (strip_image_item i).
Proof.
  destruct i; try done; cbn [strip_image_item strip_audio_item].
  - destruct (strip_message_spec is_input_image UnsupportedMedia_IMAGE (fun _ => eq_refl) id role content phase meta)
      as (m & c & -> & _ & Hc & Hcl). done.
  - split; [by apply strip_payload_media|done].
  - split; [by apply strip_payload_media|done].
Qed.

Lemma strip_audio_item_settled i : has_audio (strip_audio_item i) = false /\ classified (strip_audio_item i).
Proof.
  destruct i; try done; cbn [strip_image_item strip_audio_item].
  - destruct (strip_message_spec is_input_audio UnsupportedMedia_AUDIO (fun _ => eq_refl) id role content phase meta)
      as (m & c & -> & _ & Hc & Hcl). done.
  - split; [by apply strip_payload_media|done].
  - split; [by apply strip_payload_media|done].
Qed.

Lemma strip_audio_item_keeps i : has_image i = false -> has_image (strip_audio_item i) = false.
Proof.
  destruct i; try done; cbn [strip_image_item strip_audio_item]; intros Hi.
  - destruct (strip_message_spec is_input_audio UnsupportedMedia_AUDIO (fun _ => eq_refl) id role content phase meta)
      as (m & c & -> & -> & _). by apply strip_content_other.
  - by apply strip_payload_other.
  - by apply strip_payload_other.
Qed.

Lemma strip_image_item_id i : has_image i = false -> classified i -> strip_image_item i = i.
Proof.
  destruct i; try done; cbn [strip_image_item strip_audio_item]; intros Hi Hc.
  - by apply strip_message_id.
  - by rewrite strip_payload_id.
  - by rewrite strip_payload_id.
  - apply negb_false_iff, is_empty_true in Hi. by subst.
Qed.

Lemma strip_audio_item_id i : has_audio i = false -> classified i -> strip_audio_item i = i.
Proof.
  destruct i; try done; cbn [strip_image_item strip_audio_item]; intros Hi Hc.
  - by apply strip_message_id.
  - by rewrite strip_payload_id.
  - by rewrite strip_payload_id.
Qed.

(** Stripping does not touch the pairing. *)
Lemma strip_image_item_keys (e : ResponseItemEnvelope) :
  call_key (map_item strip_image_item e) = call_key e
  /\ output_key (map_item strip_image_item e) = output_key e
  /\ needs_call (map_item strip_image_item e) = needs_call e.
Proof.
  destruct e as [i md]. unfold call_key, output_key, needs_call. cbn [item map_item]. by destruct i.
Qed.

Lemma strip_audio_item_keys (e : ResponseItemEnvelope) :
  call_key (map_item strip_audio_item e) = call_key e
  /\ output_key (map_item strip_audio_item e) = output_key e
  /\ needs_call (map_item strip_audio_item e) = needs_call e.
Proof.
  destruct e as [i md]. unfold call_key, output_key, needs_call. cbn [item map_item]. by destruct i.
Qed.

Lemma paired_map (f : ResponseItemEnvelope -> ResponseItemEnvelope) items :
  (forall e, call_key (f e) = call_key e /\ output_key (f e) = output_key e
             /\ needs_call (f e) = needs_call e) ->
  paired items -> paired (f <$> items).
Proof.
  intros Hf [Hc Ho].
  assert (Hkey : forall key : ResponseItemEnvelope -> option (pair_kind * rstr),
    (forall e, key (f e) = key e) -> forall k, has_key key k items -> has_key key k (f <$> items)).
  { intros key Hk k (e & He & Hek). exists (f e). rewrite Hk. split; [|done]. by apply list_elem_of_fmap_2. }
  split.
  - intros ? k (e & -> & He)%list_elem_of_fmap Hk. destruct (Hf e) as (Hce & _).
    rewrite Hce in Hk. apply Hkey; [intros; apply Hf|by eapply Hc].
  - intros ? k (e & -> & He)%list_elem_of_fmap Hk Hn. destruct (Hf e) as (_ & Hoe & Hne).
    rewrite Hoe in Hk. rewrite Hne in Hn. apply Hkey; [intros; apply Hf|by eapply Ho].
Qed.

(** ** Both passes *)

Definition strip_unsupported (input_modalities : list InputModality) (items : list ResponseItemEnvelope)
  : list ResponseItemEnvelope :=
  strip_audio_when_unsupported input_modalities (strip_images_when_unsupported input_modalities items).

Lemma strip_unsupported_paired mods items : paired items -> paired (strip_unsupported mods items).
Proof.
  intros Hp. unfold strip_unsupported, strip_audio_when_unsupported, strip_images_when_unsupported.
  case_bool_decide; case_bool_decide; auto using paired_map, strip_image_item_keys, strip_audio_item_keys.
Qed.

Lemma strip_unsupported_settled mods items :
  Forall (fun e => settled mods (item e)) (strip_unsupported mods items).
Proof.
  unfold strip_unsupported, strip_audio_when_unsupported, strip_images_when_unsupported, settled.
  case_bool_decide as Ha; case_bool_decide as Hi; rewrite ?Forall_fmap; apply Forall_forall; intros e _; simpl.
  - by split.
  - split; [intros _; apply strip_image_item_settled|done].
  - split; [done|intros _; apply strip_audio_item_settled].
  - split; intros _; [|apply strip_audio_item_settled].
    split; [apply strip_audio_item_keeps, strip_image_item_settled|apply strip_audio_item_settled].
Qed.

Lemma map_item_id (f : ResponseItem -> ResponseItem) items :
  Forall (fun e => f (item e) = item e) items -> map_item f <$> items = items.
Proof.
  induction 1 as [|e items He _ IH]; [done|]. cbn [fmap list_fmap]. f_equal; [|exact IH].
  unfold map_item. rewrite He. by destruct e.
Qed.

Lemma settled_stable mods items :
  Forall (fun e => settled mods (item e)) items -> strip_unsupported mods items = items.
Proof.
  intros Hs. unfold strip_unsupported, strip_audio_when_unsupported, strip_images_when_unsupported.
  assert (Hi : ImageModality ∉ mods -> map_item strip_image_item <$> items = items).
  { intros Hm. apply map_item_id. eapply Forall_impl; [exact Hs|]. intros e [H _].
    destruct (H Hm). by apply strip_image_item_id. }
  assert (Ha : AudioModality ∉ mods -> map_item strip_audio_item <$> items = items).
  { intros Hm. apply map_item_id. eapply Forall_impl; [exact Hs|]. intros e [_ H].
    destruct (H Hm). by apply strip_audio_item_id. }
  case_bool_decide; case_bool_decide; rewrite ?Hi, ?Ha by done; done.
Qed.
End strip.
