(* ===== verification/TokenUsage.v ===== *)
(** * TokenUsage: token counts of a session and the estimates behind them

    [TokenUsage] and [TokenUsageInfo] of [codex-rs/protocol/src/protocol.rs]
    and the estimates of [core/src/context_manager/history.rs].

    Counts are [i64]: integers with the saturating operations of the source
    where it uses them; a plain [+] or [-] that overflows panics in a build
    with overflow checks ([checks]) and wraps in one without.  The JSON length
    of an item, the dimensions of an encoded image and the token count of an
    audio clip come from third-party codecs and are arguments; the cache in
    front of the last two only avoids repeating them. *)

From Stdlib Require Import ZArith NArith Lia.
From stdpp Require Import base list strings.
From S2P Require Import Prelude Truncate ResponseItems ContextFragments.

Open Scope rust_scope.
#[local] Open Scope Z_scope.

(** ** [i64] *)

Definition i64_max : Z := 9223372036854775807.
Definition i64_min : Z := -9223372036854775808.

Definition i64_clamp (x : Z) : Z := Z.max i64_min (Z.min i64_max x).
Definition i64_sat_add (a b : Z) : Z := i64_clamp (a + b).
Definition i64_sat_sub (a b : Z) : Z := i64_clamp (a - b).
Definition i64_sat_mul (a b : Z) : Z := i64_clamp (a * b).

Definition in_i64 (x : Z) : bool := (i64_min <=? x) && (x <=? i64_max).

Definition i64_wrap (x : Z) : Z := (x - i64_min) mod 18446744073709551616 + i64_min.

(** The result of a plain operation. *)
Definition i64_plain (checks : bool) (x : Z) : outcome unit Z :=
  if in_i64 x then Done x else if checks then Panic else Done (i64_wrap x).

(** [i64::try_from(n).unwrap_or(i64::MAX)] of a [usize]. *)
Definition i64_from_usize (n : N) : Z := Z.min (Z.of_N n) i64_max.

(** ** [TokenUsage], [TokenUsageInfo] *)

(** Without the provider's budget units, which no operation here reads. *)
Record TokenUsage := mkUsage {
  input_tokens : Z;
  cached_input_tokens : Z;
  cache_write_input_tokens : Z;
  output_tokens : Z;
  reasoning_output_tokens : Z;
  total_tokens : Z
}.

Definition zero_usage : TokenUsage := mkUsage 0 0 0 0 0 0.

Definition only_total (total : Z) : TokenUsage := mkUsage 0 0 0 0 0 total.

Record TokenUsageInfo := mkUsageInfo {
  total_token_usage : TokenUsage;
  last_token_usage : TokenUsage;
  model_context_window : option Z
}.

Section usage.
Context (checks : bool).

Definition add_assign (self other : TokenUsage) : outcome unit TokenUsage :=
  a ← i64_plain checks (input_tokens self + input_tokens other);
  b ← i64_plain checks (cached_input_tokens self + cached_input_tokens other);
  c ← i64_plain checks (cache_write_input_tokens self + cache_write_input_tokens other);
  d ← i64_plain checks (output_tokens self + output_tokens other);
  e ← i64_plain checks (reasoning_output_tokens self + reasoning_output_tokens other);
  f ← i64_plain checks (total_tokens self + total_tokens other);
  Done (mkUsage a b c d e f).

Definition append_last_usage (self : TokenUsageInfo) (last : TokenUsage)
  : outcome unit TokenUsageInfo :=
  total ← add_assign (total_token_usage self) last;
  Done (mkUsageInfo total last (model_context_window self)).

Definition new_or_append (info : option TokenUsageInfo) (last : option TokenUsage)
    (window : option Z) : outcome unit (option TokenUsageInfo) :=
  match info, last with
  | None, None => Done None
  | _, _ =>
      let info := default (mkUsageInfo zero_usage zero_usage window) info in
      info ← match last with
             | Some last => append_last_usage info last
             | None => Done info
             end;
      Done (Some match window with
                 | Some w => mkUsageInfo (total_token_usage info) (last_token_usage info) (Some w)
                 | None => info
                 end)
  end.

Definition fill_to_context_window (self : TokenUsageInfo) (context_window : Z)
  : outcome unit TokenUsageInfo :=
  difference ← i64_plain checks (context_window - total_tokens (total_token_usage self));
  Done (mkUsageInfo (only_total context_window) (only_total (Z.max difference 0)) (Some context_window)).

Definition full_context_window (context_window : Z) : outcome unit TokenUsageInfo :=
  fill_to_context_window (mkUsageInfo zero_usage zero_usage (Some context_window)) context_window.
End usage.

(** ** Estimates *)

Definition approx_tokens_from_byte_count_i64 (bytes : Z) : Z :=
  if bytes <=? 0 then 0 else i64_from_usize (approx_tokens_from_byte_count (Z.to_N bytes)).

Definition estimate_reasoning_length (encoded_len : N) : N := (sat_mul encoded_len 3 / 4 - 650)%N.

(** [div_ceil] *)
Definition estimate_encrypted_function_output_length (encoded_len : N) : N :=
  let scaled := sat_mul encoded_len 9 in
  (scaled / 16 + (if (scaled mod 16 =? 0)%N then 0 else 1))%N.

Definition RESIZED_IMAGE_BYTES_ESTIMATE : Z := 7373.
Definition ORIGINAL_IMAGE_PATCH_SIZE : Z := 32.
Definition ORIGINAL_IMAGE_MAX_PATCHES : N := 10000.

(** The first five characters are ASCII when the metadata is cut. *)
Definition parse_base64_data_url (url media_type_prefix : rstr) : option rstr :=
  if negb (has_marker_prefix (lit "data:") url) then None
  else
    match split_once 44 url with
    | None => None
    | Some (metadata, payload) =>
        match split_on 59 (drop 5 metadata) with
        | [] => None
        | mime_type :: metadata_parts =>
            let has_base64_marker :=
              existsb (fun part => eq_ignore_ascii_case part (lit "base64")) metadata_parts in
            if negb (has_marker_prefix media_type_prefix mime_type) then None
            else if negb has_base64_marker then None
            else Some payload
        end
    end.

Definition parse_base64_image_data_url (url : rstr) : option rstr :=
  parse_base64_data_url url (lit "image/").

Definition parse_base64_audio_data_url (url : rstr) : option rstr :=
  parse_base64_data_url url (lit "audio/").

Section estimates.
Context {Extra Json : Type}.
Context (serialized_json_bytes : ResponseItem Extra Json -> option N).
(** The width and height of the image in a base64 payload. *)
Context (decode_image : rstr -> option (N * N)).
Context (estimate_audio_token_count : rstr -> N).
Abbreviation ResponseItem := (ResponseItem Extra Json).

Definition estimate_original_image_bytes (image_url : rstr) : option Z :=
  match parse_base64_image_data_url image_url with
  | None => None
  | Some payload =>
      match decode_image payload with
      | None => None
      | Some (width, height) =>
          let patch_size := ORIGINAL_IMAGE_PATCH_SIZE in
          let patches_wide := i64_sat_add (Z.of_N width) (patch_size - 1) / patch_size in
          let patches_high := i64_sat_add (Z.of_N height) (patch_size - 1) / patch_size in
          let patch_count := i64_sat_mul patches_wide patches_high in
          let patch_count := if patch_count <? 0 then usize_max else Z.to_N patch_count in
          let patch_count := N.min patch_count ORIGINAL_IMAGE_MAX_PATCHES in
          Some (i64_from_usize (approx_bytes_for_tokens patch_count))
      end
  end.

Definition estimate_image_bytes (image_url : rstr) (detail : option ImageDetail) : Z :=
  match detail with
  | Some Original => default RESIZED_IMAGE_BYTES_ESTIMATE (estimate_original_image_bytes image_url)
  | _ => RESIZED_IMAGE_BYTES_ESTIMATE
  end.

(** The payload bytes to subtract and the bytes to put in their place. *)
Definition accumulate_image (acc : Z * Z) (image_url : rstr) (detail : option ImageDetail) : Z * Z :=
  match parse_base64_image_data_url image_url with
  | Some payload =>
      (i64_sat_add acc.1 (i64_from_usize (byte_len payload)),
       i64_sat_add acc.2 (estimate_image_bytes image_url detail))
  | None => acc
  end.

Definition accumulate_audio (acc : Z * Z) (audio_url : rstr) : Z * Z :=
  match parse_base64_audio_data_url audio_url with
  | Some payload =>
      (i64_sat_add acc.1 (i64_from_usize (byte_len payload)),
       i64_sat_add acc.2 (i64_from_usize (approx_bytes_for_tokens (estimate_audio_token_count audio_url))))
  | None => acc
  end.

Definition accumulate_encrypted (acc : Z * Z) (encrypted_content : rstr) : Z * Z :=
  (i64_sat_add acc.1 (i64_from_usize (byte_len encrypted_content)),
   i64_sat_add acc.2 (i64_from_usize (estimate_encrypted_function_output_length
                                        (byte_len encrypted_content)))).

Definition output_items (output : FunctionCallOutputPayload) : list FunctionCallOutputContentItem :=
  match body output with ContentItems items => items | Text _ => [] end.

Definition image_data_url_estimate_adjustment (i : ResponseItem) : Z * Z :=
  match i with
  | Message _ _ content _ _ =>
      foldl (fun acc c => match c with
                          | MsgInputImage image_url detail => accumulate_image acc image_url detail
                          | _ => acc
                          end) (0, 0) content
  | FunctionCallOutput _ _ _ _ output _ | CustomToolCallOutput _ _ _ output _ =>
      foldl (fun acc c => match c with
                          | InputImage image_url detail => accumulate_image acc image_url detail
                          | _ => acc
                          end) (0, 0) (output_items output)
  | _ => (0, 0)
  end.

Definition audio_data_url_estimate_adjustment (i : ResponseItem) : Z * Z :=
  match i with
  | Message _ _ content _ _ =>
      foldl (fun acc c => match c with
                          | MsgInputAudio audio_url => accumulate_audio acc audio_url
                          | _ => acc
                          end) (0, 0) content
  | FunctionCallOutput _ _ _ _ output _ | CustomToolCallOutput _ _ _ output _ =>
      foldl (fun acc c => match c with
                          | InputAudio audio_url => accumulate_audio acc audio_url
                          | _ => acc
                          end) (0, 0) (output_items output)
  | _ => (0, 0)
  end.

Definition encrypted_function_output_estimate_adjustment (i : ResponseItem) : Z * Z :=
  match i with
  | FunctionCallOutput _ _ _ _ output _ =>
      foldl (fun acc c => match c with
                          | EncryptedContent encrypted_content => accumulate_encrypted acc encrypted_content
                          | _ => acc
                          end) (0, 0) (output_items output)
  | AgentMessage _ _ _ content _ =>
      foldl (fun acc c => match c with
                          | AgentEncryptedContent encrypted_content => accumulate_encrypted acc encrypted_content
                          | _ => acc
                          end) (0, 0) content
  | _ => (0, 0)
  end.

Definition estimate_response_item_model_visible_bytes (i : ResponseItem) : Z :=
  match i with
  | Reasoning _ _ (Some content) _ | Compaction _ content _ | ContextCompaction _ (Some content) _ =>
      i64_from_usize (estimate_reasoning_length (byte_len content))
  | _ =>
      let raw := match serialized_json_bytes i with Some len => i64_from_usize len | None => 0 end in
      let '(image_payload_bytes, image_replacement_bytes) := image_data_url_estimate_adjustment i in
      let '(audio_payload_bytes, audio_replacement_bytes) := audio_data_url_estimate_adjustment i in
      let '(encrypted_payload_bytes, encrypted_replacement_bytes) :=
        encrypted_function_output_estimate_adjustment i in
      let raw := i64_sat_add (i64_sat_sub (i64_sat_add (i64_sat_sub raw image_payload_bytes)
                   image_replacement_bytes) audio_payload_bytes) audio_replacement_bytes in
      i64_sat_add (i64_sat_sub raw encrypted_payload_bytes) encrypted_replacement_bytes
  end.

Definition estimate_item_token_count (i : ResponseItem) : Z :=
  approx_tokens_from_byte_count_i64 (estimate_response_item_model_visible_bytes i).

(** [.map(estimate_item_token_count).fold(0i64, i64::saturating_add)] *)
Definition estimate_tokens (items : list ResponseItem) : Z :=
  foldl i64_sat_add 0 (estimate_item_token_count <$> items).
End estimates.

(** ** Bounds *)

Lemma i64_clamp_id x : i64_min <= x <= i64_max -> i64_clamp x = x.
Proof. unfold i64_clamp. lia. Qed.

Lemma i64_from_usize_bounds n : 0 <= i64_from_usize n <= i64_max.
Proof. unfold i64_from_usize, i64_max. lia. Qed.

(** The saturating sum of counts is their sum, cut off at the maximum. *)
Lemma sat_sum a l :
  0 <= a <= i64_max -> Forall (fun x => 0 <= x) l ->
  foldl i64_sat_add a l = Z.min i64_max (a + foldr Z.add 0 l).
Proof.
  intros Ha Hl. revert a Ha. induction Hl as [|x l Hx Hl IH]; intros a Ha; simpl; [lia|].
  assert (Hpos : 0 <= foldr Z.add 0 l) by (clear IH; induction Hl; simpl; lia).
  assert (Hs : i64_sat_add a x = Z.min i64_max (a + x))
    by (unfold i64_sat_add, i64_clamp, i64_min, i64_max in *; lia).
  rewrite Hs, IH by (unfold i64_max in *; lia). lia.
Qed.

Section estimate_lemmas.
Context {Extra Json : Type} (json : ResponseItem Extra Json -> option N)
  (decode : rstr -> option (N * N)) (audio : rstr -> N).
Abbreviation estimate := (estimate_item_token_count json decode audio).
Abbreviation estimates := (estimate_tokens json decode audio).

Lemma estimate_bounds i : 0 <= estimate i <= i64_max.
Proof.
  unfold estimate_item_token_count, approx_tokens_from_byte_count_i64.
  destruct (_ <=? 0); [unfold i64_max; lia|apply i64_from_usize_bounds].
Qed.

Lemma estimates_nonneg items : Forall (fun x => 0 <= x) (estimate <$> items).
Proof. apply Forall_fmap, Forall_forall. intros i _. apply estimate_bounds. Qed.

Definition estimate_sum (items : list (ResponseItem Extra Json)) : Z :=
  foldr Z.add 0 (estimate <$> items).

Lemma estimate_sum_app l k : estimate_sum (l ++ k) = estimate_sum l + estimate_sum k.
Proof.
  unfold estimate_sum. rewrite fmap_app. induction (estimate <$> l) as [|x l' IH]; simpl; [done|]. lia.
Qed.

Lemma estimate_sum_nonneg l : 0 <= estimate_sum l.
Proof. unfold estimate_sum. induction (estimates_nonneg l); simpl; lia. Qed.

Lemma estimates_sum items : estimates items = Z.min i64_max (estimate_sum items).
Proof.
  unfold estimate_tokens. rewrite sat_sum; [done|unfold i64_max; lia|apply estimates_nonneg].
Qed.

(** An image in original detail costs at most its patch budget. *)
Lemma original_image_bounds url bytes :
  estimate_original_image_bytes decode url = Some bytes -> 0 <= bytes <= 40000.
Proof.
  unfold estimate_original_image_bytes.
  destruct (parse_base64_image_data_url url) as [payload|]; [|done].
  destruct (decode payload) as [[w h]|]; [|done]. intros [= <-].
  set (c := if _ <? 0 then _ else _). unfold i64_from_usize, approx_bytes_for_tokens, sat_mul.
  pose proof (N.le_min_r c ORIGINAL_IMAGE_MAX_PATCHES) as Hc.
  unfold ORIGINAL_IMAGE_MAX_PATCHES, APPROX_BYTES_PER_TOKEN, i64_max, usize_max in *. lia.
Qed.
End estimate_lemmas.
