(* ===== verification/History.v ===== *)
(** * History: [codex-rs/core/src/context_manager/history.rs]

    The conversation history of a session: recording items (tool outputs are
    cut to size), preparing the prompt, rolling back turns, estimating the
    tokens in use, and keeping the world state's baseline.

    [debug] says whether the build has debug assertions and overflow checks.
    The version-5 UUIDs, the XML decoder of hook prompts, the JSON decoder of
    inter-agent messages (only whether it succeeds matters) and the codecs of
    the estimates are arguments.  The vector that the source shares between
    snapshots and copies when it is changed is a list. *)

From Stdlib Require Import ZArith NArith Lia SpecFloat.
From stdpp Require Import base list strings.
From S2P Require Import Prelude Truncate ResponseItems CallPairs ContextFragments JsonPatch.
From S2P Require Import WorldState MediaStrip TokenUsage.

Open Scope rust_scope.

(** ** [impl Mul<f64> for TruncationPolicy] *)

Definition f64_of_usize (n : N) : spec_float := binary_normalize 53 1024 (Z.of_N n) 0 false.

Definition f64_mul : spec_float -> spec_float -> spec_float := SFmul 53 1024.

(** [x.ceil() as usize] *)
Definition f64_ceil_usize (x : spec_float) : N :=
  match x with
  | S754_zero _ | S754_nan => 0
  | S754_infinity s => if s then 0 else usize_max
  | S754_finite s m e =>
      if s then 0
      else N.min usize_max
             (if (e <? 0)%Z then Z.to_N ((Zpos m + (2 ^ (- e) - 1)) / 2 ^ (- e))
              else Z.to_N (Zpos m * 2 ^ e))
  end.

Definition scale_policy (p : TruncationPolicy) (multiplier : spec_float) : TruncationPolicy :=
  match p with
  | Bytes bytes => Bytes (f64_ceil_usize (f64_mul (f64_of_usize bytes) multiplier))
  | Tokens tokens => Tokens (f64_ceil_usize (f64_mul (f64_of_usize tokens) multiplier))
  end.

(** The literal [1.2]: the nearest double. *)
Definition f64_1_2 : spec_float := S754_finite false 5404319552844595 (-52).

Section history.
Context {Extra Json TurnContextItem Num : Type} `{!JsonNumber Num}.
Context (debug : bool) (new_v5 : rstr -> rstr) (from_xml : rstr -> option (rstr * rstr))
  (is_inter_agent_json : rstr -> bool)
  (serialized_json_bytes : ResponseItem Extra Json -> option N)
  (decode_image : rstr -> option (N * N)) (estimate_audio_token_count : rstr -> N).
Abbreviation ResponseItem := (ResponseItem Extra Json).
Abbreviation ResponseItemEnvelope := (ResponseItemEnvelope Extra Json).

Record ContextManager := mkContextManager {
  items : list ResponseItemEnvelope;
  history_version : N;
  token_info : option TokenUsageInfo;
  reference_context_item : option TurnContextItem;
  world_state_baseline : option (list (rstr * Value Num))
}.

Definition new_context_manager : ContextManager := mkContextManager [] 0 None None None.

Definition set_items (self : ContextManager) (l : list ResponseItemEnvelope) : ContextManager :=
  mkContextManager l (history_version self) (token_info self) (reference_context_item self)
    (world_state_baseline self).

Definition set_token_info (self : ContextManager) (info : option TokenUsageInfo) : ContextManager :=
  mkContextManager (items self) (history_version self) info (reference_context_item self)
    (world_state_baseline self).

Definition set_reference_context_item (self : ContextManager) (i : option TurnContextItem)
  : ContextManager :=
  mkContextManager (items self) (history_version self) (token_info self) i
    (world_state_baseline self).

Definition set_world_state_baseline (self : ContextManager) (s : list (rstr * Value Num))
  : ContextManager :=
  mkContextManager (items self) (history_version self) (token_info self)
    (reference_context_item self) (Some s).

(** [u64::saturating_add] coincides with that of [usize]. *)
Definition replace_annotated (self : ContextManager) (l : list ResponseItemEnvelope)
  : ContextManager :=
  mkContextManager l (sat_add (history_version self) 1) (token_info self)
    (reference_context_item self) None.

Definition remove_first_item (self : ContextManager) : ContextManager :=
  match items self with
  | [] => self
  | removed :: others =>
      mkContextManager (remove_corresponding_for (item removed) others) (history_version self)
        (token_info self) (reference_context_item self) None
  end.

(** ** Recording *)

Definition is_api_message (message : ResponseItem) : bool :=
  match message with
  | Message _ role _ _ _ => role != lit "system"
  | CompactionTrigger | Other => false
  | _ => true
  end.

Definition truncate_function_output_payload (output : FunctionCallOutputPayload)
    (policy : TruncationPolicy) : outcome unit FunctionCallOutputPayload :=
  body ← match body output with
         | Text content => Text <$> truncate_text content policy
         | ContentItems items =>
             ContentItems <$> truncate_function_output_items_with_policy policy
                                estimate_audio_token_count items
         end;
  Done (mkPayload body (success output)).

Definition process_item (i : ResponseItem) (policy : TruncationPolicy) : outcome unit ResponseItem :=
  let policy_with_serialization_budget := scale_policy policy f64_1_2 in
  match i with
  | FunctionCallOutput id call_id name namespace output meta =>
      output ← truncate_function_output_payload output policy_with_serialization_budget;
      Done (FunctionCallOutput id call_id name namespace output meta)
  | CustomToolCallOutput id call_id name output meta =>
      output ← truncate_function_output_payload output policy_with_serialization_budget;
      Done (CustomToolCallOutput id call_id name output meta)
  | _ => Done i
  end.

Fixpoint record_items_with_metadata (self : ContextManager)
    (new : list (ResponseItem * option CodexHarnessMetadata)) (policy : TruncationPolicy)
  : outcome unit ContextManager :=
  match new with
  | [] => Done self
  | (i, metadata) :: others =>
      if is_api_message i then
        processed ← process_item i policy;
        record_items_with_metadata (set_items self (items self ++ [mkEnvelope processed metadata]))
          others policy
      else record_items_with_metadata self others policy
  end.

Definition record_items (self : ContextManager) (new : list ResponseItem) (policy : TruncationPolicy)
  : outcome unit ContextManager :=
  record_items_with_metadata self ((fun i => (i, None)) <$> new) policy.

Definition record_annotated_items (self : ContextManager) (new : list ResponseItemEnvelope)
    (policy : TruncationPolicy) : outcome unit ContextManager :=
  record_items_with_metadata self ((fun e => (item e, metadata e)) <$> new) policy.

(** ** The prompt *)

Definition normalize_history (self : ContextManager) (input_modalities : list InputModality)
  : outcome unit ContextManager :=
  l ← ensure_call_outputs_present debug new_v5 (items self);
  l ← remove_orphan_outputs debug l;
  let l := strip_images_when_unsupported input_modalities l in
  let l := strip_audio_when_unsupported input_modalities l in
  Done (set_items self l).

Definition for_prompt_annotated (self : ContextManager) (input_modalities : list InputModality)
  : outcome unit (list ResponseItemEnvelope) :=
  items <$> normalize_history self input_modalities.

Definition for_prompt (self : ContextManager) (input_modalities : list InputModality)
  : outcome unit (list ResponseItem) :=
  (fun l : list ResponseItemEnvelope => item <$> l) <$> for_prompt_annotated self input_modalities.

(** [SharedConversationHistory::items] *)
Definition conversation_history_items (self : ContextManager) : list ResponseItem :=
  List.filter
    (fun i => match i with
              | Message _ role content _ _ =>
                  negb ((role == lit "user") && is_contextual_user_message_content from_xml content)
              | _ => true
              end) (item <$> items self).

(** ** The world state *)

Definition update_world_state (self : ContextManager) (world_state : WorldState Num)
  : list Fragment * option (WorldStateItem Num) * ContextManager :=
  let current := snapshot world_state in
  let fragments :=
    render_history_diff world_state (world_state_baseline self) (item <$> items self) in
  let rollout_item := world_state_record (world_state_baseline self) current in
  (fragments, rollout_item, set_world_state_baseline self current).

(** ** Turns *)

Definition is_inter_agent_instruction_content (content : list ContentItem) : bool :=
  match content with
  | [MsgInputText text] | [OutputText text] => is_inter_agent_json text
  | _ => false
  end.

Definition is_user_turn_boundary (i : ResponseItem) : bool :=
  match i with
  | AgentMessage _ _ _ _ _ => true
  | Message _ role content _ _ =>
      ((role == lit "user") && negb (is_contextual_user_message_content from_xml content))
      || ((role == lit "assistant") && is_inter_agent_instruction_content content)
  | _ => false
  end.

Fixpoint user_message_positions (l : list ResponseItemEnvelope) (idx : nat) : list nat :=
  match l with
  | [] => []
  | e :: others =>
      (if is_user_turn_boundary (item e) then [idx] else [])
      ++ user_message_positions others (S idx)
  end.

(** [v[i]] *)
Definition index {A} (l : list A) (i : nat) : outcome unit A :=
  match l !! i with Some x => Done x | None => Panic end.

(** The new cut, and the reference context with it. *)
Fixpoint trim_pre_turn_context_updates (snapshot : list ResponseItemEnvelope)
    (first_instruction_turn_idx cut_idx : nat) (reference : option TurnContextItem)
  : outcome unit (nat * option TurnContextItem) :=
  match cut_idx with
  | O => Done (cut_idx, reference)
  | S before =>
      if first_instruction_turn_idx <? cut_idx then
        e ← index snapshot before;
        match item e with
        | Message _ role content _ _ =>
            if (role == lit "developer") && is_contextual_dev_message_content content then
              trim_pre_turn_context_updates snapshot first_instruction_turn_idx before
                (if has_non_contextual_dev_message_content content then None else reference)
            else if (role == lit "user") && is_contextual_user_message_content from_xml content then
              trim_pre_turn_context_updates snapshot first_instruction_turn_idx before reference
            else Done (cut_idx, reference)
        | _ => Done (cut_idx, reference)
        end
      else Done (cut_idx, reference)
  end.

Definition is_developer_message (i : ResponseItem) : bool :=
  match i with Message _ role _ _ _ => role == lit "developer" | _ => false end.

Definition is_model_switch_content (c : AnnotatedContent) : bool :=
  match content c with MsgInputText text => matches_model_switch text | _ => false end.

(** The closure of [retain_mut]: [None] drops the item. *)
Definition retain_before_first_turn (first_turn_id : rstr) (e : ResponseItemEnvelope)
  : option ResponseItemEnvelope :=
  if is_some_and (turn_id (item e)) (fun t => t == first_turn_id) && is_developer_message (item e) then
    match to_annotated_content (item e) with
    | (_, None) => None
    | (i, Some content) =>
        let content := List.filter (fun c => negb (is_model_switch_content c)) content in
        if is_empty content then None
        else match set_annotated_content i content with
             | (i, Some _) => Some (mkEnvelope i (metadata e))
             | (_, None) => None
             end
    end
  else Some e.

(** The branch that is taken when no turn is left. *)
Definition retain_items (snapshot : list ResponseItemEnvelope) (first_instruction_turn_idx : nat)
    (retained_items : list ResponseItemEnvelope) : outcome unit (list ResponseItemEnvelope) :=
  first ← index snapshot first_instruction_turn_idx;
  match turn_id (item first) with
  | Some first_turn_id => Done (omap (retain_before_first_turn first_turn_id) retained_items)
  | None => Done retained_items
  end.

Definition drop_last_n_user_turns (self : ContextManager) (num_turns : N)
  : outcome unit ContextManager :=
  if (num_turns =? 0)%N then Done self
  else
    let snapshot := items self in
    let user_positions := user_message_positions snapshot 0 in
    match user_positions with
    | [] => Done (replace_annotated self snapshot)
    | first_instruction_turn_idx :: _ =>
        let n_from_end := N.to_nat num_turns in
        cut_idx ← (if length user_positions <=? n_from_end then Done first_instruction_turn_idx
                   else index user_positions (length user_positions - n_from_end));
        trimmed ← trim_pre_turn_context_updates snapshot first_instruction_turn_idx cut_idx
                    (reference_context_item self);
        let '(cut_idx, reference) := trimmed in
        let self := set_reference_context_item self reference in
        retained_items ← slice snapshot 0 cut_idx;
        retained_items ←
          (if cut_idx =? first_instruction_turn_idx
           then retain_items snapshot first_instruction_turn_idx retained_items
           else Done retained_items);
        Done (replace_annotated self retained_items)
    end.

(** ** Tokens *)

Definition update_token_info (self : ContextManager) (usage : TokenUsage) (window : option Z)
  : outcome unit ContextManager :=
  info ← new_or_append debug (token_info self) (Some usage) window;
  Done (set_token_info self info).

Definition set_token_usage_full (self : ContextManager) (context_window : Z)
  : outcome unit ContextManager :=
  info ← match token_info self with
         | Some info => fill_to_context_window debug info context_window
         | None => full_context_window debug context_window
         end;
  Done (set_token_info self (Some info)).

Abbreviation estimate_tokens :=
  (estimate_tokens serialized_json_bytes decode_image estimate_audio_token_count).

Definition estimate_token_count_with_base_instructions (self : ContextManager)
    (base_instructions : rstr) : option Z :=
  let base_tokens := i64_from_usize (approx_token_count base_instructions) in
  let items_tokens := estimate_tokens (item <$> items self) in
  Some (i64_sat_add base_tokens items_tokens).

Definition is_model_generated_item (i : ResponseItem) : bool :=
  match i with
  | Message _ role _ _ _ => role == lit "assistant"
  | Reasoning _ _ _ _ | FunctionCall _ _ _ _ | ToolSearchCall _ _ _ _ | WebSearchCall _ _ _
  | ImageGenerationCall _ _ _ _ _ | CustomToolCall _ _ _ _ | LocalShellCall _ _ _ _
  | Compaction _ _ _ | ContextCompaction _ _ _ => true
  | CompactionTrigger => false
  | AdditionalTools _ _ _ | FunctionCallOutput _ _ _ _ _ _ | ToolSearchOutput _ _ _ _ _ _
  | CustomToolCallOutput _ _ _ _ _ | AgentMessage _ _ _ _ _ | Other => false
  end.

(** [Iterator::rposition] *)
Fixpoint rposition {A} (p : A -> bool) (l : list A) : option nat :=
  match l with
  | [] => None
  | x :: others =>
      match rposition p others with
      | Some i => Some (S i)
      | None => if p x then Some 0 else None
      end
  end.

Definition has_encrypted_reasoning (i : ResponseItem) : bool :=
  match i with Reasoning _ _ (Some _) _ => true | _ => false end.

Definition get_non_last_reasoning_items_tokens (self : ContextManager) : Z :=
  match rposition (fun e => is_user_turn_boundary (item e)) (items self) with
  | None => 0%Z
  | Some last_user_index =>
      estimate_tokens (List.filter has_encrypted_reasoning (item <$> take last_user_index (items self)))
  end.

Definition items_after_last_model_generated_item (self : ContextManager) : list ResponseItem :=
  let start :=
    match rposition (fun e => is_model_generated_item (item e)) (items self) with
    | Some i => S i
    | None => length (items self)
    end in
  item <$> drop start (items self).

Definition estimated_tokens_after_last_model_generated_item (self : ContextManager) : Z :=
  estimate_tokens (items_after_last_model_generated_item self).

Definition get_total_token_usage (self : ContextManager) (server_reasoning_included : bool) : Z :=
  let last_tokens :=
    match token_info self with Some info => total_tokens (last_token_usage info) | None => 0 end%Z in
  let items_after_last_model_generated_tokens :=
    estimate_tokens (items_after_last_model_generated_item self) in
  if server_reasoning_included then i64_sat_add last_tokens items_after_last_model_generated_tokens
  else
    i64_sat_add (i64_sat_add last_tokens (get_non_last_reasoning_items_tokens self))
      items_after_last_model_generated_tokens.
End history.
Arguments ContextManager : clear implicits.

(** ** Recording *)

Section recording.
Context {Extra Json TurnContextItem Num : Type} `{!JsonNumber Num}.
Context (audio : rstr -> N).
Abbreviation ResponseItem := (ResponseItem Extra Json).
Abbreviation ResponseItemEnvelope := (ResponseItemEnvelope Extra Json).
Abbreviation ContextManager := (ContextManager Extra Json TurnContextItem Num).
Implicit Types (self : ContextManager) (policy : TruncationPolicy).

(** Texts and clips of sizes that a machine can hold. *)
Definition payload_fits (p : FunctionCallOutputPayload) : Prop :=
  match body p with
  | Text t => (char_count t <= usize_max)%N
  | ContentItems l => Forall item_fits l
  end.

Definition fits (i : ResponseItem) : Prop :=
  match i with
  | FunctionCallOutput _ _ _ _ output _ | CustomToolCallOutput _ _ _ output _ => payload_fits output
  | _ => True
  end.

(** What recording may do to a tool output: a text within the budget, and the
    images and encrypted items of a list, are kept. *)
Definition cut_payload policy (old new : FunctionCallOutputPayload) : Prop :=
  success new = success old
  /\ match body old, body new with
     | Text t, Text t' => (byte_len t <= byte_budget policy)%N -> t' = t
     | ContentItems l, ContentItems l' =>
         filter (fun i => is_kept i = true) l' = filter (fun i => is_kept i = true) l
     | _, _ => False
     end.

Definition recorded policy (new : ResponseItem * option CodexHarnessMetadata)
    (e : ResponseItemEnvelope) : Prop :=
  metadata e = new.2
  /\ match new.1 with
     | FunctionCallOutput id call_id name namespace output meta =>
         exists output', item e = FunctionCallOutput id call_id name namespace output' meta
           /\ cut_payload (scale_policy policy f64_1_2) output output'
     | CustomToolCallOutput id call_id name output meta =>
         exists output', item e = CustomToolCallOutput id call_id name output' meta
           /\ cut_payload (scale_policy policy f64_1_2) output output'
     | i => item e = i
     end.

Lemma truncate_text_fits t policy : (byte_len t <= byte_budget policy)%N -> truncate_text t policy = Done t.
Proof.
  destruct policy as [n|n]; simpl; intros H.
  - unfold truncate_middle_chars, truncate_with_byte_estimate.
    destruct (is_empty t) eqn:E; [by apply is_empty_true in E as ->|]. apply is_empty_false in E.
    destruct t as [|c t]; [done|]. pose proof (char_len_pos c). simpl in H |- *.
    destruct (N.eqb_spec n 0); [lia|]. by destruct (N.leb_spec (char_len c + byte_len t) n); [|lia].
  - unfold truncate_middle_with_token_budget.
    destruct (is_empty t) eqn:E; [by apply is_empty_true in E as ->|]. apply is_empty_false in E.
    destruct t as [|c t]; [done|]. pose proof (char_len_pos c).
    replace (0 <? n)%N with true; [|symmetry; apply N.ltb_lt; unfold approx_bytes_for_tokens, sat_mul in H; simpl in H; lia].
    by rewrite (proj2 (N.leb_le _ _) H).
Qed.

Lemma truncate_payload_spec policy p :
  payload_fits p ->
  exists p', truncate_function_output_payload audio p policy = Done p' /\ cut_payload policy p p'.
Proof.
  unfold payload_fits, truncate_function_output_payload, cut_payload. destruct (body p) as [t|l]; intros H.
  - destruct (truncate_text_done t policy H) as [out Hout]. rewrite Hout. eexists. split; [reflexivity|].
    split; [done|]. simpl. intros Hfit. rewrite truncate_text_fits in Hout by done. by simplify_eq.
  - destruct (truncate_items_correct policy audio l H) as (out & Hout & Hkept & _). rewrite Hout.
    eexists. split; [reflexivity|]. by split.
Qed.

Lemma process_item_spec policy i md :
  fits i -> exists i', process_item audio i policy = Done i' /\ recorded policy (i, md) (mkEnvelope i' md).
Proof.
  intros Hi. destruct i; try (eexists; split; [reflexivity|by split]); simpl in Hi;
    destruct (truncate_payload_spec (scale_policy policy f64_1_2) _ Hi) as (p' & Hp & Hcut);
    unfold process_item; rewrite Hp; (eexists; split; [reflexivity|split; [done|by eexists]]).
Qed.

Lemma record_spec self new policy :
  Forall (fun n => fits n.1) new ->
  exists added, record_items_with_metadata audio self new policy = Done (set_items self (items self ++ added))
    /\ Forall2 (recorded policy) (List.filter (fun n => is_api_message n.1) new) added.
Proof.
  intros Hnew. revert self. induction Hnew as [|[i md] new Hi _ IH]; intros self; simpl.
  - exists []. rewrite app_nil_r. split; [by destruct self|constructor].
  - destruct (is_api_message i); [|apply IH]. simpl in Hi.
    destruct (process_item_spec policy i md Hi) as (i' & -> & Hr). simpl.
    destruct (IH (set_items self (items self ++ [mkEnvelope i' md]))) as (added & -> & Hadded).
    exists (mkEnvelope i' md :: added). split; [|by constructor]. unfold set_items. simpl.
    by rewrite <- app_assoc.
Qed.
End recording.

(** ** The prompt *)

Section prompt.
Context {Extra Json TurnContextItem Num : Type} `{!JsonNumber Num} (new_v5 : rstr -> rstr).
Abbreviation ContextManager := (ContextManager Extra Json TurnContextItem Num).
Implicit Types (self : ContextManager).

Lemma normalize_history_eq debug self mods :
  normalize_history debug new_v5 self mods
  = (l ← pair_history debug new_v5 (items self); Done (set_items self (strip_unsupported mods l))).
Proof.
  unfold normalize_history, pair_history.
  destruct (ensure_call_outputs_present debug new_v5 (items self)); done.
Qed.
End prompt.

(** ** Rolling back *)

Section rollback.
Context {Extra Json TurnContextItem Num : Type} `{!JsonNumber Num}.
Context (from_xml : rstr -> option (rstr * rstr)) (is_inter_agent_json : rstr -> bool).
Abbreviation ResponseItem := (ResponseItem Extra Json).
Abbreviation ResponseItemEnvelope := (ResponseItemEnvelope Extra Json).
Abbreviation ContextManager := (ContextManager Extra Json TurnContextItem Num).
Abbreviation positions := (user_message_positions from_xml is_inter_agent_json).
Implicit Types (self : ContextManager) (e : ResponseItemEnvelope) (l k : list ResponseItemEnvelope).

Definition boundary e : bool := is_user_turn_boundary from_xml is_inter_agent_json (item e).

(** The messages that a rollback trims before a turn. *)
Definition context_update e : bool :=
  match item e with
  | Message _ role content _ _ =>
      ((role == lit "developer") && is_contextual_dev_message_content content)
      || ((role == lit "user") && is_contextual_user_message_content from_xml content)
  | _ => false
  end.

Definition turns l : nat := length (positions l 0).

(** The items before the turn with a number, from zero. *)
Fixpoint before_turn l (j : nat) : list ResponseItemEnvelope :=
  match l with
  | [] => []
  | e :: l' =>
      if boundary e then match j with O => [] | S j' => e :: before_turn l' j' end
      else e :: before_turn l' j
  end.

Definition first_turn l : option ResponseItemEnvelope := List.find boundary l.

(** What is kept of the items before the first turn. *)
Definition keep_prefix l : list ResponseItemEnvelope :=
  match first_turn l ≫= fun e => turn_id (item e) with
  | Some first_turn_id => omap (retain_before_first_turn first_turn_id) (before_turn l 0)
  | None => before_turn l 0
  end.

(** The items that a rollback of [n] turns leaves. *)
Definition rollback_items l (n : nat) : list ResponseItemEnvelope :=
  if turns l =? 0 then l
  else if n <? turns l then drop_while_end context_update (before_turn l (turns l - n))
  else keep_prefix l.

Lemma boundary_not_update e : boundary e = true -> context_update e = false.
Proof.
  unfold boundary, is_user_turn_boundary, context_update. destruct (item e); try done.
  destruct (is_contextual_user_message_content from_xml content); simpl;
    rewrite ?andb_true_r, ?andb_false_r, ?orb_false_r; simpl; intros H.
  - apply andb_true_iff in H as [->%str_eqb_true _]. reflexivity.
  - apply orb_true_iff in H as [->%str_eqb_true|H]; [reflexivity|].
    apply andb_true_iff in H as [->%str_eqb_true _]. reflexivity.
Qed.

Lemma positions_length l i j : length (positions l i) = length (positions l j).
Proof.
  revert i j. induction l as [|e l IH]; intros i j; simpl; [done|].
  rewrite !length_app, (IH (S i) (S j)). by destruct (is_user_turn_boundary _ _ _).
Qed.

Lemma turns_cons e l : turns (e :: l) = (if boundary e then S (turns l) else turns l).
Proof.
  unfold turns, boundary. simpl. rewrite length_app, (positions_length l 1 0).
  by destruct (is_user_turn_boundary _ _ _).
Qed.

Lemma turns_app l k : turns (l ++ k) = turns l + turns k.
Proof.
  induction l as [|e l IH]; [done|]. cbn [app]. rewrite !turns_cons, IH. by destruct (boundary e).
Qed.

(** The position of a turn is the length of what comes before it. *)
Lemma positions_lookup l i j :
  positions l i !! j = if j <? turns l then Some (i + length (before_turn l j)) else None.
Proof.
  revert i j. induction l as [|e l IH]; intros i j; [done|].
  rewrite turns_cons. cbn [user_message_positions before_turn]. fold (boundary e).
  destruct (boundary e); simpl.
  - destruct j as [|j]; simpl; [f_equal; lia|]. rewrite IH.
    change (S j <? S (turns l)) with (j <? turns l). destruct (j <? turns l); [f_equal; lia|done].
  - rewrite IH. destruct (j <? turns l); [f_equal; lia|done].
Qed.

Lemma before_turn_split l j :
  j < turns l -> exists e r, l = before_turn l j ++ e :: r /\ boundary e = true /\ turns (before_turn l j) = j
    /\ turns (e :: r) = turns l - j.
Proof.
  revert j. induction l as [|e l IH]; intros j; [simpl; unfold turns; simpl; lia|].
  rewrite turns_cons. cbn [before_turn]. destruct (boundary e) eqn:Eb.
  - destruct j as [|j]; intros Hj.
    + exists e, l. rewrite turns_cons, Eb. by split_and!.
    + destruct (IH j) as (e' & r & Hl & Hb & Ht & Hr); [lia|]. exists e', r.
      rewrite turns_cons, Eb, Ht. simpl. rewrite <- Hl. split_and!; [done|done|done|]. lia.
  - intros Hj. destruct (IH j Hj) as (e' & r & Hl & Hb & Ht & Hr). exists e', r.
    rewrite turns_cons, Eb, Ht. simpl. rewrite <- Hl. done.
Qed.

Lemma before_turn_app l k j : j < turns l -> before_turn (l ++ k) j = before_turn l j.
Proof.
  revert j. induction l as [|e l IH]; intros j; [unfold turns; simpl; lia|].
  rewrite turns_cons. cbn [app before_turn]. destruct (boundary e).
  - destruct j as [|j]; [done|]. intros Hj. rewrite IH by lia. done.
  - intros Hj. by rewrite IH.
Qed.

Lemma first_turn_app l k : 0 < turns l -> first_turn (l ++ k) = first_turn l.
Proof.
  unfold first_turn. induction l as [|e l IH]; [unfold turns; simpl; lia|].
  rewrite turns_cons. cbn [app List.find]. destruct (boundary e); [done|]. auto.
Qed.

Lemma first_turn_lookup l : 0 < turns l -> l !! length (before_turn l 0) = first_turn l.
Proof.
  unfold first_turn. induction l as [|e l IH]; [unfold turns; simpl; lia|].
  rewrite turns_cons. cbn [before_turn List.find]. destruct (boundary e); [done|]. simpl. auto.
Qed.

Lemma trim_spec l first cut (reference : option TurnContextItem) e0 :
  l !! first = Some e0 -> boundary e0 = true -> first < cut -> cut <= length l ->
  exists reference',
    trim_pre_turn_context_updates from_xml l first cut reference
    = Done (length (drop_while_end context_update (take cut l)), reference').
Proof.
  intros He0 Hb. revert reference. induction cut as [|c IH]; intros reference Hlt Hle; [lia|].
  cbn [trim_pre_turn_context_updates]. rewrite (proj2 (Nat.ltb_lt _ _) Hlt).
  destruct (lookup_lt_is_Some_2 l c) as [e He]; [lia|]. unfold index. rewrite He. cbn [mbind outcome_bind].
  rewrite (take_S_r l c e He), drop_while_end_snoc.
  destruct (context_update e) eqn:Hu.
  - assert (Hgo : first < c).
    { destruct (decide (first = c)) as [->|]; [|lia]. rewrite He0 in He. simplify_eq.
      by rewrite (boundary_not_update e Hb) in Hu. }
    unfold context_update in Hu.
    destruct (item e) as [|id role content phase meta| | | | | | | | | | | | | | |]; try done.
    destruct ((role == lit "developer") && is_contextual_dev_message_content content); cbn [orb] in Hu.
    + apply IH; [done|lia].
    + rewrite Hu. apply IH; [done|lia].
  - exists reference. rewrite length_app, length_take. cbn [length].
    replace (c `min` length l + 1) with (S c) by lia. unfold context_update in Hu.
    destruct (item e) as [|id role content phase meta| | | | | | | | | | | | | | |]; try done.
    apply orb_false_iff in Hu as [Hu1 Hu2]. by rewrite Hu1, Hu2.
Qed.

Lemma take_before_turn l j : j < turns l -> take (length (before_turn l j)) l = before_turn l j.
Proof.
  intros Hj. destruct (before_turn_split l j Hj) as (e & r & Hl & _).
  rewrite Hl at 2. by rewrite take_app_length.
Qed.

Lemma slice_prefix (l k r : list ResponseItemEnvelope) :
  l = k ++ r -> slice (E := unit) l 0 (length k) = Done k.
Proof.
  intros ->. unfold slice. rewrite (proj2 (Nat.leb_le (length k) _)) by (rewrite length_app; lia).
  by rewrite Nat.sub_0_r, drop_0, take_app_length.
Qed.

(** A prefix that holds a turn goes beyond the first one. *)
Lemma first_turn_before l k r : l = k ++ r -> 0 < turns k -> length (before_turn l 0) < length k.
Proof.
  intros -> Hk. rewrite before_turn_app by done.
  destruct (before_turn_split k 0 Hk) as (e & r' & Heq & _). rewrite Heq at 2. rewrite length_app. simpl. lia.
Qed.

Lemma updates_no_turns l : Forall (fun e => context_update e = true) l -> turns l = 0.
Proof.
  induction 1 as [|e l He _ IH]; [done|]. rewrite turns_cons, IH. destruct (boundary e) eqn:E; [|done].
  by rewrite boundary_not_update in He.
Qed.

(** Trimming what precedes a later turn leaves a prefix with all earlier
    turns. *)
Lemma trimmed_prefix l j :
  j < turns l ->
  exists r, l = drop_while_end context_update (before_turn l j) ++ r
    /\ turns (drop_while_end context_update (before_turn l j)) = j.
Proof.
  intros Hj. destruct (before_turn_split l j Hj) as (e & r & Hl & _ & Ht & _).
  destruct (drop_while_end_prefix context_update (before_turn l j)) as (u & Hu & Hall).
  apply updates_no_turns in Hall. exists (u ++ e :: r). split.
  - rewrite app_assoc, <- Hu. exact Hl.
  - rewrite Hu, turns_app in Ht. lia.
Qed.

Lemma rollback_spec self n :
  n <> 0%N ->
  exists reference,
    drop_last_n_user_turns from_xml is_inter_agent_json self n
    = Done (replace_annotated (set_reference_context_item self reference)
              (rollback_items (items self) (N.to_nat n))).
Proof.
  intros Hn. unfold drop_last_n_user_turns, rollback_items. rewrite (proj2 (N.eqb_neq _ _) Hn).
  set (l := items self). assert (Hpos : length (positions l 0) = turns l) by done.
  destruct (positions l 0) as [|first ps] eqn:Eps.
  { rewrite <- Hpos. simpl. exists (reference_context_item self). by destruct self. }
  assert (Hfirst : first = length (before_turn l 0)).
  { pose proof (positions_lookup l 0 0) as H. rewrite Eps in H. simpl in H.
    rewrite <- Hpos in H. simpl in H. by simplify_eq. }
  assert (Hk : 0 < turns l) by (rewrite <- Hpos; simpl; lia).
  destruct (before_turn_split l 0 Hk) as (e0 & r0 & Hl0 & Hb0 & _).
  assert (He0 : l !! first = Some e0).
  { rewrite Hl0, Hfirst. by rewrite list_lookup_middle. }
  rewrite Hpos, (proj2 (Nat.eqb_neq _ _)) by lia.
  destruct (Nat.leb_spec (turns l) (N.to_nat n)) as [Hle|Hlt].
  - rewrite (proj2 (Nat.ltb_ge _ _) Hle). cbn [mbind outcome_bind].
    assert (Htrim : trim_pre_turn_context_updates from_xml l first first (reference_context_item self)
      = Done (first, reference_context_item self)).
    { destruct first; [done|]. cbn [trim_pre_turn_context_updates]. by rewrite Nat.ltb_irrefl. }
    rewrite Htrim. cbn [mbind outcome_bind]. exists (reference_context_item self).
    rewrite Nat.eqb_refl. rewrite Hfirst at 1. rewrite (slice_prefix l _ _ Hl0). cbn [mbind outcome_bind].
    unfold retain_items, index, keep_prefix. rewrite He0. cbn [mbind outcome_bind].
    assert (first_turn l = Some e0) as -> by (rewrite <- first_turn_lookup by done; by rewrite <- Hfirst).
    cbn [mbind option_bind]. destruct (turn_id (item e0)); by destruct self.
  - rewrite (proj2 (Nat.ltb_lt _ _) Hlt). set (j := turns l - N.to_nat n). assert (Hj : j < turns l) by lia.
    assert (Hcut : index (first :: ps) j = Done (length (before_turn l j))).
    { unfold index. rewrite <- Eps, positions_lookup, (proj2 (Nat.ltb_lt _ _) Hj). done. }
    rewrite Hcut. cbn [mbind outcome_bind].
    destruct (before_turn_split l j Hj) as (e & r & Hl & _ & Htj & _).
    destruct (trimmed_prefix l j Hj) as (u & Hu & Htu).
    assert (Hlen : first < length (before_turn l j)).
    { rewrite Hfirst. eapply first_turn_before; [exact Hl|lia]. }
    destruct (trim_spec l first (length (before_turn l j)) (reference_context_item self) e0 He0 Hb0 Hlen)
      as (reference & Htrim); [rewrite Hl at 2; rewrite length_app; lia|].
    rewrite Htrim, take_before_turn by done. cbn [mbind outcome_bind]. exists reference.
    rewrite (slice_prefix l _ _ Hu). cbn [mbind outcome_bind].
    rewrite (proj2 (Nat.eqb_neq _ _)); [done|]. rewrite Hfirst.
    pose proof (first_turn_before l _ _ Hu). lia.
Qed.

Lemma keep_prefix_turns l : turns (keep_prefix l) = 0.
Proof.
  assert (Hb : turns (before_turn l 0) = 0).
  { induction l as [|e l IH]; [done|]. cbn [before_turn]. destruct (boundary e) eqn:E; [done|].
    by rewrite turns_cons, E. }
  unfold keep_prefix. destruct (first_turn l ≫= _) as [t|]; [|done].
  revert Hb. induction (before_turn l 0) as [|e k IH]; [done|]. rewrite turns_cons.
  destruct (boundary e) eqn:E; [done|]. intros Hk. cbn [omap list_omap].
  destruct (retain_before_first_turn t e) as [e'|] eqn:Er; [|by apply IH].
  rewrite turns_cons. replace (boundary e') with false; [by apply IH|].
  revert Er. unfold retain_before_first_turn. destruct (_ && _) eqn:Ec; [|by intros [= <-]].
  apply andb_true_iff in Ec as [_ Hd]. unfold is_developer_message in Hd.
  destruct (item e) as [|id role content phase meta| | | | | | | | | | | | | | |]; try done.
  apply str_eqb_true in Hd as ->. simpl. destruct (is_empty _); [done|]. by intros [= <-].
Qed.

Lemma rollback_items_turns l n : n <> 0 -> turns (rollback_items l n) = turns l - n.
Proof.
  intros Hpos. unfold rollback_items. destruct (Nat.eqb_spec (turns l) 0) as [->|Hk]; [lia|].
  destruct (Nat.ltb_spec n (turns l)) as [Hn|Hn]; [|rewrite keep_prefix_turns; lia].
  destruct (trimmed_prefix l (turns l - n)) as (_ & _ & Ht); [lia|done].
Qed.

(** Two rollbacks in a row leave what one of both sizes leaves. *)
Lemma rollback_items_twice l n m :
  n <> 0 -> m <> 0 -> rollback_items (rollback_items l n) m = rollback_items l (n + m).
Proof.
  intros Hn Hm. pose proof (rollback_items_turns l n Hn) as Ht.
  unfold rollback_items at 1. rewrite Ht. unfold rollback_items at 4.
  destruct (Nat.eqb_spec (turns l) 0) as [Hk|Hk].
  { rewrite Hk. unfold rollback_items. by rewrite Hk. }
  unfold rollback_items. rewrite (proj2 (Nat.eqb_neq _ _) Hk).
  destruct (Nat.ltb_spec n (turns l)) as [Hlt|Hge].
  - destruct (trimmed_prefix l (turns l - n)) as (r & Hr & Htr); [lia|].
    set (l' := drop_while_end context_update (before_turn l (turns l - n))) in *.
    rewrite (proj2 (Nat.eqb_neq (turns l - n) 0)) by lia.
    assert (Hb : forall j, j < turns l - n -> before_turn l' j = before_turn l j).
    { intros j Hj. rewrite Hr. symmetry. apply before_turn_app. lia. }
    destruct (Nat.ltb_spec m (turns l - n)) as [Hlt'|Hge'].
    + rewrite (proj2 (Nat.ltb_lt _ _)) by lia. rewrite Hb by lia.
      by replace (turns l - n - m) with (turns l - (n + m)) by lia.
    + rewrite (proj2 (Nat.ltb_ge _ _)) by lia. unfold keep_prefix. rewrite Hb by lia.
      assert (first_turn l = first_turn l') as -> by (rewrite Hr; apply first_turn_app; lia). done.
  - rewrite (proj2 (Nat.eqb_eq (turns l - n) 0)) by lia.
    by rewrite (proj2 (Nat.ltb_ge _ _)) by lia.
Qed.
End rollback.

(** ** Tokens after the last model item *)

Lemma rposition_app {A} (p : A -> bool) l k :
  existsb p k = false -> rposition p (l ++ k) = rposition p l.
Proof.
  intros Hk. induction l as [|x l IH]; simpl.
  - induction k as [|x k IH]; [done|]. simpl in *. apply orb_false_iff in Hk as [Hx Hk].
    by rewrite (IH Hk), Hx.
  - by rewrite IH.
Qed.

Lemma rposition_lt {A} (p : A -> bool) l i : rposition p l = Some i -> i < length l.
Proof.
  revert i. induction l as [|x l IH]; intros i; simpl; [done|].
  destruct (rposition p l) as [j|]; [intros [= <-]; specialize (IH j eq_refl); lia|].
  destruct (p x); [|done]. intros [= <-]. lia.
Qed.

(** ** Theorems *)

Section theorems.
Context {Extra Json TurnContextItem Num : Type} `{!JsonNumber Num}.
Context (new_v5 : rstr -> rstr) (from_xml : rstr -> option (rstr * rstr))
  (is_inter_agent_json : rstr -> bool)
  (serialized_json_bytes : ResponseItem Extra Json -> option N)
  (decode_image : rstr -> option (N * N)) (estimate_audio_token_count : rstr -> N).
Abbreviation ContextManager := (ContextManager Extra Json TurnContextItem Num).
Implicit Types (self : ContextManager).
Abbreviation turns := (turns from_xml is_inter_agent_json).
Abbreviation rollback := (drop_last_n_user_turns from_xml is_inter_agent_json).

(** Recording never fails on items of representable size.  It appends, in
    order, exactly the items that are sent to the model, with their metadata;
    tool outputs keep their identity, their outcome, every image and every
    encrypted item, and a text within the scaled budget; everything else is
    recorded unchanged. *)
Theorem recording_appends self new policy :
  Forall (fun n => fits n.1) new ->
  exists added,
    record_items_with_metadata estimate_audio_token_count self new policy
    = Done (set_items self (items self ++ added))
    /\ Forall2 (recorded policy) (List.filter (fun n => is_api_message n.1) new) added.
Proof. apply record_spec. Qed.

(** C13: Preparing the prompt never fails outside debug builds.  In what is sent
    every call has an output and every output that needs one its call, there
    is no image or audio that the model does not support, every message that
    was stripped has one classification per entry, and preparing it again, in
    debug builds too, changes nothing. *)
Theorem prompt_is_ready self input_modalities :
  exists r, for_prompt_annotated false new_v5 self input_modalities = Done r
    /\ paired r
    /\ Forall (fun e => settled input_modalities (item e)) r
    /\ forall debug, for_prompt_annotated debug new_v5 (set_items self r) input_modalities = Done r.
Proof.
  exists (strip_unsupported input_modalities (normalised new_v5 (items self))).
  pose proof (strip_unsupported_paired input_modalities _ (normalised_paired new_v5 (items self))) as Hp.
  pose proof (strip_unsupported_settled input_modalities (normalised new_v5 (items self))) as Hs.
  split_and!; [|done|done|].
  - unfold for_prompt_annotated. by rewrite normalize_history_eq, pair_history_release.
  - intros debug. unfold for_prompt_annotated. rewrite normalize_history_eq. cbn [items set_items].
    rewrite paired_stable by done. cbn. by rewrite settled_stable.
Qed.


(** Rolling back in two steps leaves the same items as rolling back in one. *)
Theorem rollback_composes self n m :
  n <> 0%N -> m <> 0%N ->
  exists self1 self2 self', rollback self n = Done self1 /\ rollback self1 m = Done self2
    /\ rollback self (n + m) = Done self' /\ items self2 = items self'.
Proof.
  intros Hn Hm. destruct (rollback_spec from_xml is_inter_agent_json self n Hn) as (r1 & H1).
  destruct (rollback_spec from_xml is_inter_agent_json
              (replace_annotated (set_reference_context_item self r1)
                 (rollback_items from_xml is_inter_agent_json (items self) (N.to_nat n))) m Hm) as (r2 & H2).
  destruct (rollback_spec from_xml is_inter_agent_json self (n + m)) as (r3 & H3); [lia|].
  eexists _, _, _. split_and!; [exact H1|exact H2|exact H3|]. cbn [items replace_annotated].
  rewrite rollback_items_twice by lia. by rewrite N2Nat.inj_add.
Qed.

(** A rollback of a history without turns is not without effect: it leaves
    the items but counts as a rewrite and forgets the world-state baseline. *)
Theorem rollback_without_turns_rewrites self n :
  n <> 0%N -> turns (items self) = 0 ->
  exists self', rollback self n = Done self' /\ items self' = items self
    /\ history_version self' = sat_add (history_version self) 1
    /\ world_state_baseline self' = None.
Proof.
  intros Hn Hk. unfold drop_last_n_user_turns. rewrite (proj2 (N.eqb_neq _ _) Hn).
  apply length_zero_iff_nil in Hk. rewrite Hk. by eexists.
Qed.

(** What is recorded after the last item of the model counts in full: the
    total is the server's last count plus the estimates of all items after
    it, cut off at the maximum. *)
Theorem local_items_counted self added last :
  (match token_info self with Some info => total_tokens (last_token_usage info) | None => 0%Z end) = last ->
  (0 <= last <= i64_max)%Z ->
  existsb (fun e => is_model_generated_item (item e)) (items self) = true ->
  existsb (fun e => is_model_generated_item (item e)) added = false ->
  get_total_token_usage from_xml is_inter_agent_json serialized_json_bytes decode_image
    estimate_audio_token_count (set_items self (items self ++ added)) true
  = Z.min i64_max (last + estimate_sum serialized_json_bytes decode_image estimate_audio_token_count
                            (items_after_last_model_generated_item self ++ (item <$> added)))%Z.
Proof.
  intros Hlast Hb Hm Ha. unfold get_total_token_usage. cbn [token_info set_items]. rewrite Hlast.
  unfold items_after_last_model_generated_item at 1. cbn [items set_items]. rewrite rposition_app by done.
  unfold items_after_last_model_generated_item.
  destruct (rposition _ (items self)) as [i|] eqn:Ei.
  - pose proof (rposition_lt _ _ _ Ei). rewrite drop_app_le, fmap_app by lia.
    rewrite estimates_sum. set (s := estimate_sum _ _ _ _).
    assert (0 <= s)%Z by apply estimate_sum_nonneg.
    unfold i64_sat_add, i64_clamp, i64_min, i64_max in *. lia.
  - exfalso. revert Hm. apply not_true_iff_false. clear -Ei. induction (items self) as [|e l IH]; [done|].
    simpl in *. destruct (rposition _ l); [done|].
    destruct (is_model_generated_item (item e)); [done|]. by apply IH.
Qed.

(** Removing the oldest item of a history in which every call has an output,
    every output that needs one has its call, and no call id or output id is
    used twice gives such a history again, without running a normalisation. *)
Theorem remove_first_item_stays_paired self :
  paired (items self) -> unique_keys (items self) ->
  paired (items (remove_first_item self)) /\ unique_keys (items (remove_first_item self))
  /\ sublist (items (remove_first_item self)) (tail (items self)).
Proof.
  unfold remove_first_item. destruct (items self) as [|e l] eqn:E.
  - intros Hp Hu. rewrite E. by split_and!.
  - simpl. intros Hp Hu. destruct (remove_corresponding_paired e l Hu Hp) as [Hr Hs].
    split_and!; [done| |done]. apply (unique_keys_sublist l); [done|].
    by apply unique_keys_cons in Hu as (_ & _ & ?).
Qed.
End theorems.

(** ** Examples *)

Module Examples.
Abbreviation Item := (ResponseItem unit unit).
Abbreviation Envelope := (ResponseItemEnvelope unit unit).
Abbreviation History := (ContextManager unit unit nat N).

Definition turn (t : string) : option (InternalChatMessageMetadataPassthrough unit unit) :=
  Some (mkPassthrough (Some (lit t)) None None None).
Definition says (r t : string) (text : rstr) : Envelope :=
  new_envelope (Message None (lit r) [MsgInputText text] None (turn t)).
Definition call (i : string) : Envelope := new_envelope (FunctionCall None (lit i) () None).
Definition output (i : string) (text : rstr) : Envelope :=
  new_envelope (FunctionCallOutput None (Some (lit i)) None None (from_text text) None).

Definition switch : rstr := render (ModelSwitchInstructions (lit "be brief")).
Definition env : rstr := lit "<environment_context>x</environment_context>".

(** Two turns; the first is preceded by a note on a model switch, the second by
    an update of the environment. *)
Definition talk : list Envelope :=
  [says "developer" "t0" (lit "rules"); says "developer" "t1" switch; says "user" "t1" (lit "hello");
   says "assistant" "t1" (lit "hi"); says "user" "t2" env; says "user" "t2" (lit "bye");
   call "c"; output "c" (lit "done")].

Definition hist (l : list Envelope) : History := mkContextManager l 3 None (Some 7) (Some []).
Definition no_xml (_ : rstr) : option (rstr * rstr) := None.
Definition not_json (_ : rstr) : bool := false.
Definition no_image (_ : rstr) : option (N * N) := None.
Definition back (n : N) : outcome unit (list Envelope) :=
  items <$> drop_last_n_user_turns no_xml not_json (hist talk) n.

Example back_one : back 1 = Done (take 4 talk).
Proof. vm_compute. reflexivity. Qed.

Example back_two : back 2 = Done (take 1 talk).
Proof. vm_compute. reflexivity. Qed.


Lemma rollback_composes_witness :
  exists self1 self2 self',
    drop_last_n_user_turns no_xml not_json (hist talk) 1 = Done self1
    /\ drop_last_n_user_turns no_xml not_json self1 1 = Done self2
    /\ drop_last_n_user_turns no_xml not_json (hist talk) (1 + 1) = Done self'
    /\ items self2 = items self' /\ items self' = take 1 talk.
Proof.
  destruct (rollback_composes no_xml not_json (hist talk) 1 1) as (s1 & s2 & s' & H1 & H2 & H' & Heq); [done..|].
  exists s1, s2, s'. split_and!; [exact H1|exact H2|exact H'|exact Heq|].
  assert (Hb : items <$> drop_last_n_user_turns no_xml not_json (hist talk) (1 + 1) = Done (take 1 talk))
    by (vm_compute; reflexivity).
  rewrite H' in Hb. by injection Hb.
Defined.

Lemma rollback_without_turns_rewrites_witness :
  exists self', drop_last_n_user_turns no_xml not_json (hist (take 2 talk)) 1 = Done self'
    /\ items self' = take 2 talk /\ history_version self' = 4%N /\ world_state_baseline self' = None.
Proof.
  destruct (rollback_without_turns_rewrites no_xml not_json (hist (take 2 talk)) 1)
    as (self' & Hr & Hi & Hv & Hw); [done|vm_compute; reflexivity|].
  exists self'. split_and!; [exact Hr|exact Hi|exact Hv|exact Hw].
Defined.

Definition long : rstr := replicate 20 97%N.

Lemma recording_appends_witness :
  exists added, record_items_with_metadata (fun _ => 0%N) (hist [])
      [(item (call "c"), None); (Other, None); (item (output "c" long), Some (mkHarness true))] (Bytes 10)
    = Done (hist added)
    /\ added = [call "c"; mkEnvelope (FunctionCallOutput None (Some (lit "c")) None None
         (from_text (replicate 6 97%N ++ [8230%N] ++ lit "8 chars truncated" ++ [8230%N] ++ replicate 6 97%N))
         None) (Some (mkHarness true))].
Proof.
  destruct (recording_appends (fun _ => 0%N) (hist [])
      [(item (call "c"), None); (Other, None); (item (output "c" long), Some (mkHarness true))] (Bytes 10))
    as (added & Hr & Hf).
  - repeat constructor. vm_compute. discriminate.
  - exists added. split; [exact Hr|]. revert Hr. vm_compute. intros [= <-]. reflexivity.
Defined.

Lemma local_items_counted_witness :
  get_total_token_usage no_xml not_json (fun _ => Some 10%N) no_image (fun _ => 0%N)
    (set_items (hist talk) (items (hist talk) ++ [says "user" "t3" (lit "more")])) true
  = Z.min i64_max (0 + estimate_sum (fun _ => Some 10%N) no_image (fun _ => 0%N)
      (items_after_last_model_generated_item (hist talk) ++ (item <$> [says "user" "t3" (lit "more")]))).
Proof.
  apply local_items_counted; [reflexivity|vm_compute; split; discriminate|vm_compute; reflexivity..].
Defined.

Definition sample : list Envelope := [output "c" []; call "a"; says "user" "t" []; call "c"; output "a" []].

Lemma sample_keys_unique : unique_keys sample.
Proof. split; apply (bool_decide_unpack _); vm_compute; exact I. Defined.

Lemma sample_paired : paired sample.
Proof. apply (normalised_paired id sample). Defined.

Lemma remove_first_item_stays_paired_witness :
  items (remove_first_item (hist sample)) = [call "a"; says "user" "t" []; output "a" []] /\
  paired [call "a"; says "user" "t" []; output "a" []].
Proof.
  split; [vm_compute; reflexivity|].
  exact (proj1 (remove_first_item_stays_paired (hist sample) sample_paired sample_keys_unique)).
Defined.
End Examples.
