(* ===== verification/Compact.v ===== *)
(** * Compact: the history after a compaction

    [codex-rs/core/src/compact.rs]: which user messages a compaction keeps,
    the history it builds around its summary, and where the initial context is
    put back; and the part of [core/src/event_mapping.rs] that tells the user's
    messages from other items. *)

From Stdlib Require Import NArith Lia.
From stdpp Require Import base list strings.
From S2P Require Import Prelude Truncate ResponseItems ContextFragments.

Open Scope rust_scope.

(** ** User messages *)

(** The spans that a user interface marks in a text are empty in what is parsed
    from the model's input, and left out. *)
Inductive UserInput :=
| UserText (text : rstr)
| UserImage (image_url : rstr) (detail : option ImageDetail)
| UserLocalImage (path : rstr) (detail : option ImageDetail)
| UserAudio (audio_url : rstr)
| UserLocalAudio (path : rstr)
| UserSkill (name path : rstr)
| UserMention (name path : rstr).

Definition IMAGE_OPEN_TAG : rstr := lit "<image>".
Definition IMAGE_CLOSE_TAG : rstr := lit "</image>".
Definition LOCAL_IMAGE_OPEN_TAG_PREFIX : rstr := lit "<image name=".
Definition AUDIO_OPEN_TAG : rstr := lit "<audio>".
Definition AUDIO_CLOSE_TAG : rstr := lit "</audio>".
Definition LOCAL_AUDIO_OPEN_TAG_PREFIX : rstr := lit "<audio name=".

Definition is_local_open_tag_text (prefix text : rstr) : bool :=
  is_some_and (strip_prefix prefix text) (fun rest => ends_with (lit ">") rest).

Definition is_open_label (local_prefix open_tag text : rstr) : bool :=
  is_local_open_tag_text local_prefix text || (text == open_tag).

(** A text is a label when it opens before, or closes after, an entry of its
    medium. *)
Definition is_media_label (is_media : ContentItem -> bool) (local_prefix open_tag close_tag : rstr)
    (previous next : option ContentItem) (text : rstr) : bool :=
  (is_open_label local_prefix open_tag text && is_some_and next is_media)
  || ((text == close_tag) && is_some_and previous is_media).

Definition is_image_content (c : ContentItem) : bool :=
  match c with MsgInputImage _ _ => true | _ => false end.
Definition is_audio_content (c : ContentItem) : bool :=
  match c with MsgInputAudio _ => true | _ => false end.

Fixpoint user_inputs (previous : option ContentItem) (message : list ContentItem) : list UserInput :=
  match message with
  | [] => []
  | c :: rest =>
      match c with
      | MsgInputText text =>
          let is_image_label :=
            is_media_label is_image_content LOCAL_IMAGE_OPEN_TAG_PREFIX IMAGE_OPEN_TAG IMAGE_CLOSE_TAG
              previous (head rest) text in
          let is_audio_label :=
            is_media_label is_audio_content LOCAL_AUDIO_OPEN_TAG_PREFIX AUDIO_OPEN_TAG AUDIO_CLOSE_TAG
              previous (head rest) text in
          if is_image_label || is_audio_label then [] else [UserText text]
      | MsgInputImage image_url detail => [UserImage image_url detail]
      | MsgInputAudio audio_url => [UserAudio audio_url]
      | OutputText _ => []
      end ++ user_inputs (Some c) rest
  end.

(** [UserMessageItem::message] *)
Definition message_text (inputs : list UserInput) : rstr :=
  concat ((fun i => match i with UserText text => text | _ => [] end) <$> inputs).

Section compact.
Context {Extra Json : Type} (from_xml : rstr -> option (rstr * rstr)).
Abbreviation ResponseItem := (ResponseItem Extra Json).
Abbreviation ResponseItemEnvelope := (ResponseItemEnvelope Extra Json).

(** Whether [parse_visible_hook_prompt_message] finds a hook prompt: all
    entries are injected texts and one of them is a hook's. *)
Fixpoint visible_hook_prompt (found : bool) (content : list ContentItem) : bool :=
  match content with
  | [] => found
  | MsgInputText text :: rest =>
      if is_some (parse_hook_prompt_fragment from_xml text) then visible_hook_prompt true rest
      else if is_standard_contextual_user_text text then visible_hook_prompt found rest
      else false
  | _ :: _ => false
  end.

Definition parse_user_message (message : list ContentItem) : option (list UserInput) :=
  if is_contextual_user_message_content from_xml message then None
  else Some (user_inputs None message).

(** The user message that [parse_turn_item] finds in an item, if it is one. *)
Definition turn_user_message (i : ResponseItem) : option (list UserInput) :=
  match i with
  | Message _ role content _ _ =>
      if role == lit "user" then
        if visible_hook_prompt false content then None else parse_user_message content
      else None
  | _ => None
  end.

(** ** What a compaction keeps *)

Definition SUMMARY_PREFIX : rstr :=
  lit "Another language model started to solve this problem and produced a summary of its thinking process. You also have access to the state of the tools that were used by that language model. Use this to build on the work that has already been done and avoid duplicating work. Here is the summary produced by the other language model, use the information in this summary to assist with your own analysis:".

Definition COMPACT_USER_MESSAGE_MAX_TOKENS : N := 20000.

Definition is_summary_message (message : rstr) : bool :=
  starts_with (SUMMARY_PREFIX ++ [c_lf]) message.

Record CompactedUserMessage := mkCompacted {
  message : rstr;
  passthrough : option (InternalChatMessageMetadataPassthrough Extra Json);
  harness_metadata : option CodexHarnessMetadata
}.

Definition compacted_user_message (i : ResponseItem) (harness : option CodexHarnessMetadata)
  : option CompactedUserMessage :=
  match turn_user_message i with
  | None => None
  | Some user =>
      if is_summary_message (message_text user) then None
      else Some (mkCompacted (message_text user)
                   match i with Message _ _ _ _ meta => meta | _ => None end harness)
  end.

Definition collect_annotated_user_messages (items : list ResponseItemEnvelope)
  : list CompactedUserMessage :=
  omap (fun e => compacted_user_message (item e) (metadata e)) items.

(** The loop over the messages, newest first; the result is newest first. *)
Fixpoint select_messages (messages : list CompactedUserMessage) (remaining : N)
  : outcome unit (list CompactedUserMessage) :=
  match messages with
  | [] => Done []
  | m :: others =>
      if (remaining =? 0)%N then Done []
      else
        let tokens := approx_token_count (message m) in
        if (tokens <=? remaining)%N then
          selected ← select_messages others (remaining - tokens)%N;
          Done (m :: selected)
        else
          truncated ← truncate_text (message m) (Tokens remaining);
          Done [mkCompacted truncated (passthrough m) (harness_metadata m)]
  end.

Definition compacted_item (m : CompactedUserMessage) : ResponseItemEnvelope :=
  let i := Message None (lit "user") [MsgInputText (message m)] None (passthrough m) in
  let i := match passthrough m ≫= content_item_kinds with
           | Some _ => (set_annotated_content i [input_text (message m) (lit "user.text")]).1
           | None => i
           end in
  mkEnvelope i (harness_metadata m).

Definition CompactionSummary (summary : rstr) : Fragment :=
  mkFragment (lit "user") (lit "compaction.summary") false ([], []) summary.

Definition build_compacted_history_with_limit (history : list ResponseItemEnvelope)
    (user_messages : list CompactedUserMessage) (summary_text : rstr) (max_tokens : N)
  : outcome unit (list ResponseItemEnvelope) :=
  selected ← (if (0 <? max_tokens)%N then select_messages (reverse user_messages) max_tokens
              else Done []);
  let summary_text := if is_empty summary_text then lit "(no summary available)" else summary_text in
  Done (history ++ (compacted_item <$> reverse selected)
        ++ [new_envelope (rendered_item (render_fragment (CompactionSummary summary_text)))]).

Definition build_compacted_history (initial_context : list ResponseItemEnvelope)
    (user_messages : list CompactedUserMessage) (summary_text : rstr)
  : outcome unit (list ResponseItemEnvelope) :=
  build_compacted_history_with_limit initial_context user_messages summary_text
    COMPACT_USER_MESSAGE_MAX_TOKENS.

(** ** Putting the initial context back *)

Definition is_agent_instruction (i : ResponseItem) : bool :=
  match i with
  | AgentMessage _ _ _ content _ =>
      match head content with
      | Some (AgentInputText text) =>
          negb (starts_with (lit "Message Type: FINAL_ANSWER" ++ [c_lf]) text)
      | _ => true
      end
  | _ => false
  end.

(** The loop from the last item: the index of the last real user message and
    that of the last user message or summary.  [index] is that of the first
    element of the list, which is in reverse. *)
Fixpoint find_insertion (reversed : list ResponseItemEnvelope) (last_user_or_summary : option nat)
  : option nat * option nat :=
  match reversed with
  | [] => (None, last_user_or_summary)
  | e :: others =>
      let i := length others in
      if is_agent_instruction (item e) then (Some i, last_user_or_summary)
      else
        match turn_user_message (item e) with
        | None => find_insertion others last_user_or_summary
        | Some user =>
            let last_user_or_summary := Some (default i last_user_or_summary) in
            if is_summary_message (message_text user) then find_insertion others last_user_or_summary
            else (Some i, last_user_or_summary)
        end
  end.

Definition is_compaction_item (i : ResponseItem) : bool :=
  match i with Compaction _ _ _ | ContextCompaction _ _ _ => true | _ => false end.

Fixpoint last_compaction_index (reversed : list ResponseItemEnvelope) : option nat :=
  match reversed with
  | [] => None
  | e :: others =>
      if is_compaction_item (item e) then Some (length others) else last_compaction_index others
  end.

Definition insert_initial_context_before_last_real_user_or_summary
    (compacted_history initial_context : list ResponseItemEnvelope) : list ResponseItemEnvelope :=
  let '(last_real_user_index, last_user_or_summary_index) :=
    find_insertion (reverse compacted_history) None in
  let insertion_index :=
    match last_real_user_index, last_user_or_summary_index with
    | Some i, _ => Some i
    | None, Some i => Some i
    | None, None => last_compaction_index (reverse compacted_history)
    end in
  match insertion_index with
  | Some i => take i compacted_history ++ initial_context ++ drop i compacted_history
  | None => compacted_history ++ initial_context
  end.
End compact.

(** ** What is kept *)

Section compact_lemmas.
Context {Extra Json : Type} (from_xml : rstr -> option (rstr * rstr)).
Notation Message' := (CompactedUserMessage (Extra := Extra) (Json := Json)).
Abbreviation Envelope := (ResponseItemEnvelope Extra Json).
Implicit Types (m : Message') (ms : list Message') (e : Envelope) (items : list Envelope).

Definition tokens_of ms : N := foldr (fun m n => (approx_token_count (message m) + n)%N) 0%N ms.

Definition message_fits m : Prop := (char_count (message m) <= usize_max)%N.

(** The selected messages, newest first: all messages up to some point, and
    possibly one more that was cut. *)
Lemma select_spec ms remaining :
  Forall message_fits ms ->
  exists whole rest, ms = whole ++ rest /\ (tokens_of whole <= remaining)%N
    /\ (select_messages ms remaining = Done whole
          /\ (rest = [] \/ tokens_of whole = remaining)
        \/ exists m rest' truncated, rest = m :: rest'
             /\ (remaining < tokens_of whole + approx_token_count (message m))%N
             /\ truncate_text (message m) (Tokens (remaining - tokens_of whole)) = Done truncated
             /\ select_messages ms remaining
                = Done (whole ++ [mkCompacted truncated (passthrough m) (harness_metadata m)])).
Proof.
  intros Hms. revert remaining. induction Hms as [|m ms Hm _ IH]; intros remaining.
  - exists [], []. split; [done|]. split; [simpl; lia|]. left. split; [done|by left].
  - cbn [select_messages]. destruct (N.eqb_spec remaining 0) as [->|Hr].
    { exists [], (m :: ms). split; [done|]. split; [simpl; lia|]. left. split; [done|by right]. }
    destruct (N.leb_spec (approx_token_count (message m)) remaining) as [Hle|Hlt].
    + destruct (IH (remaining - approx_token_count (message m))%N) as (whole & rest & -> & Ht & Hsel).
      exists (m :: whole), rest. split; [done|]. split; [simpl; lia|].
      destruct Hsel as [[-> Hend]|(m' & rest' & t & -> & Hbig & Htr & ->)].
      * left. split; [done|]. destruct Hend as [->|He]; [by left|right; simpl; lia].
      * right. exists m', rest', t. split_and!; [done|simpl; lia| |done].
        change (tokens_of (m :: whole)) with (approx_token_count (message m) + tokens_of whole)%N.
        by replace (remaining - (approx_token_count (message m) + tokens_of whole))%N
          with (remaining - approx_token_count (message m) - tokens_of whole)%N by lia.
    + destruct (truncate_text_done (message m) (Tokens remaining) Hm) as [t Ht]. rewrite Ht.
      exists [], (m :: ms). split; [done|]. split; [simpl; lia|]. right. exists m, ms, t.
      split_and!; [done|simpl; lia| |done].
      change (tokens_of []) with 0%N. by rewrite N.sub_0_r.
Qed.

Lemma select_all ms remaining :
  Forall message_fits ms -> (tokens_of ms <= remaining)%N -> Forall (fun m => message m <> []) ms ->
  select_messages ms remaining = Done ms.
Proof.
  intros Hf. revert remaining. induction Hf as [|m ms Hm _ IH]; intros remaining Ht Hne; [done|].
  simpl in Ht |- *. apply Forall_cons in Hne as [Hm' Hne].
  assert (Hpos : (0 < approx_token_count (message m))%N).
  { unfold approx_token_count, sat_add, APPROX_BYTES_PER_TOKEN, usize_max. destruct (message m) as [|c t]; [done|].
    pose proof (char_len_pos c). simpl. apply N.div_str_pos. lia. }
  destruct (N.eqb_spec remaining 0); [lia|]. destruct (N.leb_spec (approx_token_count (message m)) remaining); [|lia].
  rewrite IH by (done || lia). done.
Qed.

Lemma tokens_of_app ms ms' : tokens_of (ms ++ ms') = (tokens_of ms + tokens_of ms')%N.
Proof. induction ms as [|m ms IH]; simpl; lia. Qed.

Lemma tokens_of_reverse ms : tokens_of (reverse ms) = tokens_of ms.
Proof.
  induction ms as [|m ms IH]; [done|]. rewrite reverse_cons, tokens_of_app, IH. simpl. lia.
Qed.

(** A text that the user could have written: neither injected context nor a
    summary. *)
Definition plain_text (t : rstr) : Prop :=
  is_contextual_user_fragment from_xml (MsgInputText t) = false /\ is_summary_message t = false.

Lemma plain_message t meta :
  plain_text t ->
  turn_user_message (Extra := Extra) (Json := Json) from_xml (Message None (lit "user") [MsgInputText t] None meta)
  = Some [UserText t].
Proof.
  intros [Hc _]. unfold turn_user_message, parse_user_message.
  replace (lit "user" == lit "user") with true by reflexivity.
  unfold is_contextual_user_message_content. cbn [existsb]. rewrite Hc. cbn [orb].
  unfold is_contextual_user_fragment in Hc. apply orb_false_iff in Hc as [Hh Hs].
  cbn [visible_hook_prompt]. rewrite Hh, Hs. cbn [user_inputs head].
  unfold is_media_label. cbn [is_some_and]. by rewrite !andb_false_r.
Qed.

Lemma collect_compacted m :
  plain_text (message m) ->
  exists m', compacted_user_message from_xml (item (compacted_item m)) (metadata (compacted_item m)) = Some m'
    /\ message m' = message m /\ harness_metadata m' = harness_metadata m.
Proof.
  intros Hp. unfold compacted_item, compacted_user_message.
  assert (Hshape : exists meta, item (compacted_item m) = Message None (lit "user") [MsgInputText (message m)] None meta).
  { unfold compacted_item. destruct (passthrough m ≫= content_item_kinds); by eexists. }
  destruct Hshape as [meta Hshape]. unfold compacted_item in Hshape. cbn [item metadata] in *. rewrite Hshape.
  rewrite plain_message by done. cbn [message_text fmap list_fmap concat]. rewrite app_nil_r, (proj2 Hp).
  by eexists.
Qed.

(** A summary is not collected as a user message. *)
Lemma summary_not_collected s md :
  compacted_user_message (Extra := Extra) (Json := Json) from_xml
    (rendered_item (render_fragment (CompactionSummary (SUMMARY_PREFIX ++ [c_lf] ++ s)))) md = None.
Proof.
  assert (Ht : is_summary_message (SUMMARY_PREFIX ++ [c_lf] ++ s) = true).
  { unfold is_summary_message, starts_with. by rewrite app_assoc, strip_prefix_app. }
  revert Ht. generalize (SUMMARY_PREFIX ++ [c_lf] ++ s). intros t Ht.
  unfold compacted_user_message, turn_user_message, rendered_item, render_fragment, render, input_text.
  cbn [CompactionSummary markers fragment_body role content_kind rendered_role annotated_content into_parts
       ResponseItems.content kind is_empty andb].
  replace (lit "user" == lit "user") with true by reflexivity.
  destruct (visible_hook_prompt _ _ _); [done|]. unfold parse_user_message.
  destruct (is_contextual_user_message_content _ _); [done|].
  cbn [user_inputs head]. unfold is_media_label. cbn [is_some_and]. rewrite !andb_false_r. cbn [orb app].
  cbn [message_text fmap list_fmap concat]. by rewrite app_nil_r, Ht.
Qed.

Lemma existsb_reverse {A} (f : A -> bool) l : existsb f (reverse l) = existsb f l.
Proof.
  induction l as [|x l IH]; [done|].
  rewrite reverse_cons, existsb_app, IH. simpl. by rewrite orb_false_r, orb_comm.
Qed.

(** ** Where the context goes *)

Definition real_message e : bool :=
  is_agent_instruction (item e)
  || match turn_user_message from_xml (item e) with
     | Some user => negb (is_summary_message (message_text user))
     | None => false
     end.

Lemma find_insertion_spec reversed last :
  match (find_insertion from_xml reversed last).1 with
  | Some i => exists newer e older, reversed = newer ++ e :: older /\ i = length older
      /\ real_message e = true /\ existsb real_message newer = false
  | None => existsb real_message reversed = false
  end.
Proof.
  revert last. induction reversed as [|e reversed IH]; intros last; [done|].
  cbn [find_insertion]. destruct (is_agent_instruction (item e)) eqn:Ea.
  { exists [], e, reversed. split_and!; [done|done| |done]. unfold real_message. by rewrite Ea. }
  assert (Hskip : forall last', real_message e = false ->
    match (find_insertion from_xml reversed last').1 with
    | Some i => exists newer e0 older, e :: reversed = newer ++ e0 :: older /\ i = length older
        /\ real_message e0 = true /\ existsb real_message newer = false
    | None => existsb real_message (e :: reversed) = false
    end).
  { intros last' He. specialize (IH last'). destruct (find_insertion from_xml reversed last').1 as [i|].
    - destruct IH as (newer & e0 & older & -> & -> & Hr & Hn). exists (e :: newer), e0, older.
      split_and!; [done|done|done|]. simpl. by rewrite He.
    - simpl. by rewrite He. }
  destruct (turn_user_message from_xml (item e)) as [user|] eqn:Eu.
  - destruct (is_summary_message (message_text user)) eqn:Es.
    + apply Hskip. unfold real_message. by rewrite Ea, Eu, Es.
    + exists [], e, reversed. split_and!; [done|done| |done]. unfold real_message. by rewrite Ea, Eu, Es.
  - apply Hskip. unfold real_message. by rewrite Ea, Eu.
Qed.

(** ** Theorems *)

(** A compaction never fails and builds a history that ends with the
    summary.  Before it come the newest user messages in their order: all of
    them if their estimated tokens fit the budget, otherwise as many as fit
    and, when the budget is not used up exactly, the next older one cut to
    what is left. *)
Theorem compaction_keeps_newest ms summary :
  Forall message_fits ms ->
  exists older newest cut,
    ms = older ++ newest /\ (tokens_of newest <= COMPACT_USER_MESSAGE_MAX_TOKENS)%N
    /\ build_compacted_history [] ms summary
       = Done ((compacted_item <$> cut ++ newest)
               ++ [new_envelope (rendered_item (render_fragment (CompactionSummary
                     (if is_empty summary then lit "(no summary available)" else summary))))])
    /\ (cut = [] /\ (older = [] \/ tokens_of newest = COMPACT_USER_MESSAGE_MAX_TOKENS)
        \/ exists older' m truncated, older = older' ++ [m]
             /\ truncate_text (message m) (Tokens (COMPACT_USER_MESSAGE_MAX_TOKENS - tokens_of newest))
                = Done truncated
             /\ cut = [mkCompacted truncated (passthrough m) (harness_metadata m)]).
Proof.
  intros Hf.
  destruct (select_spec (reverse ms) COMPACT_USER_MESSAGE_MAX_TOKENS) as (whole & rest & Hms & Ht & Hsel);
    [by apply Forall_reverse|].
  apply (f_equal reverse) in Hms. rewrite reverse_involutive, reverse_app in Hms.
  unfold build_compacted_history, build_compacted_history_with_limit. cbn [N.ltb N.compare].
  replace (0 <? COMPACT_USER_MESSAGE_MAX_TOKENS)%N with true by reflexivity.
  destruct Hsel as [[-> Hend]|(m & rest' & t & -> & _ & Htr & ->)].
  - exists (reverse rest), (reverse whole), []. rewrite tokens_of_reverse.
    split_and!; [done..|]. left. split; [done|]. destruct Hend as [->|He]; [by left|by right].
  - exists (reverse (m :: rest')), (reverse whole), [mkCompacted t (passthrough m) (harness_metadata m)].
    rewrite tokens_of_reverse. split_and!; [done|done| |].
    + cbn [mbind outcome_bind]. by rewrite reverse_app.
    + right. exists (reverse rest'), m, t. rewrite reverse_cons. by split_and!.
Qed.

(** Compacting what a compaction built finds the same user messages again:
    the summary is not taken for one, so summaries do not pile up. *)
Theorem compaction_is_stable ms summary :
  Forall message_fits ms -> Forall (fun m => plain_text (message m) /\ message m <> []) ms ->
  (tokens_of ms <= COMPACT_USER_MESSAGE_MAX_TOKENS)%N ->
  exists r, build_compacted_history [] ms (SUMMARY_PREFIX ++ [c_lf] ++ summary) = Done r
    /\ message <$> collect_annotated_user_messages from_xml r = message <$> ms
    /\ harness_metadata <$> collect_annotated_user_messages from_xml r = harness_metadata <$> ms.
Proof.
  intros Hf Hp Ht. unfold build_compacted_history, build_compacted_history_with_limit.
  replace (0 <? COMPACT_USER_MESSAGE_MAX_TOKENS)%N with true by reflexivity.
  rewrite select_all; [|by apply Forall_reverse|by rewrite tokens_of_reverse|].
  2:{ apply Forall_reverse. eapply Forall_impl; [exact Hp|]. by intros m [_ ?]. }
  cbn [mbind outcome_bind]. rewrite reverse_involutive.
  eexists. split; [reflexivity|]. unfold collect_annotated_user_messages. cbn [app].
  rewrite omap_app. cbn [omap list_omap item metadata new_envelope].
  replace (is_empty (SUMMARY_PREFIX ++ c_lf :: summary)) with false by reflexivity.
  change (SUMMARY_PREFIX ++ c_lf :: summary) with (SUMMARY_PREFIX ++ [c_lf] ++ summary).
  rewrite summary_not_collected, app_nil_r. clear Hf Ht.
  induction Hp as [|m ms [Hm _] _ IH]; [done|]. cbn [fmap list_fmap omap list_omap].
  destruct (collect_compacted m Hm) as (m' & -> & Hmsg & Hh). cbn [fmap list_fmap].
  destruct IH as [IH1 IH2]. split; f_equal; done.
Qed.

(** The initial context goes in as one block, and nothing else changes; if
    the history has a message of the user or of an agent, the block stands
    directly before the last of them. *)
Theorem context_inserted_before_last_message items ctx :
  exists before after, items = before ++ after
    /\ insert_initial_context_before_last_real_user_or_summary from_xml items ctx = before ++ ctx ++ after
    /\ (existsb real_message items = true ->
         exists e newer, after = e :: newer /\ real_message e = true
           /\ existsb real_message newer = false).
Proof.
  unfold insert_initial_context_before_last_real_user_or_summary.
  pose proof (find_insertion_spec (reverse items) None) as Hspec.
  destruct (find_insertion from_xml (reverse items) None) as [[i|] last_user]; cbn [fst] in Hspec.
  - destruct Hspec as (newer & e & older & Hrev & -> & Hr & Hn).
    apply (f_equal reverse) in Hrev. rewrite reverse_involutive, reverse_app, reverse_cons, <- app_assoc in Hrev.
    rewrite Hrev. exists (reverse older), (e :: reverse newer). split; [done|].
    rewrite <- (length_reverse older). rewrite take_app_length, drop_app_length. split; [done|].
    intros _. exists e, (reverse newer). split_and!; [done|done|].
    by rewrite existsb_reverse.
  - assert (Hnone : existsb real_message items = false) by by rewrite <- existsb_reverse.
    rewrite Hnone. destruct last_user as [i|]; [|destruct (last_compaction_index (reverse items)) as [i|]].
    1-2: exists (take i items), (drop i items); by rewrite take_drop.
    exists items, []. by rewrite !app_nil_r.
Qed.
End compact_lemmas.

(** ** Examples *)

Module Examples.
Definition told (t : string) : CompactedUserMessage (Extra := unit) (Json := unit) :=
  mkCompacted (lit t) None None.
Definition no_xml (_ : rstr) : option (rstr * rstr) := None.

Lemma told_fit : Forall message_fits [told "first"; told "second"].
Proof. repeat constructor; vm_compute; discriminate. Defined.

Lemma compaction_keeps_newest_witness :
  exists older newest cut r, [told "first"; told "second"] = older ++ newest
    /\ build_compacted_history [] [told "first"; told "second"] (lit "s") = Done r
    /\ r = (compacted_item <$> cut ++ newest)
           ++ [new_envelope (rendered_item (render_fragment (CompactionSummary (lit "s"))))].
Proof.
  destruct (compaction_keeps_newest [told "first"; told "second"] (lit "s") told_fit)
    as (older & newest & cut & Hms & _ & Hb & _).
  exists older, newest, cut, ((compacted_item <$> cut ++ newest)
    ++ [new_envelope (rendered_item (render_fragment (CompactionSummary (lit "s"))))]).
  split_and!; [exact Hms|exact Hb|reflexivity].
Defined.

Lemma compaction_is_stable_witness :
  exists r, build_compacted_history [] [told "first"; told "second"] (SUMMARY_PREFIX ++ [c_lf] ++ lit "s") = Done r
    /\ message <$> collect_annotated_user_messages no_xml r = [lit "first"; lit "second"].
Proof.
  destruct (compaction_is_stable no_xml [told "first"; told "second"] (lit "s") told_fit) as (r & Hb & Hm & _).
  - repeat constructor; vm_compute; try reflexivity; discriminate.
  - vm_compute. discriminate.
  - exists r. split; [exact Hb|exact Hm].
Defined.
End Examples.
