(* ===== verification/Rollout.v ===== *)
(** * Rollout: [codex-rs/core/src/session/rollout_reconstruction.rs]

    A session's rollout is the list of what it persisted.  On resume, fork and
    rollback the history and its metadata are rebuilt from it: a scan from the
    newest item collects the segments of the turns that survive rollbacks, and
    a forward replay of the items after the newest checkpoint rebuilds the
    history.

    [parse_uuid_v7] and the arguments of the history are arguments.  Events and
    items the reconstruction passes over keep no contents, and of a turn's
    context only the fields it reads are named; [Rest] is the others. *)

From Stdlib Require Import NArith Lia.
From stdpp Require Import base list strings.
From S2P Require Import Prelude Truncate ResponseItems CallPairs ContextFragments JsonPatch.
From S2P Require Import WorldState TokenUsage History Compact.

Open Scope rust_scope.

(** ** Rollout items *)

Section rollout.
Context {Extra Json Num Rest Uuid : Type} `{!JsonNumber Num}.
Abbreviation ResponseItem := (ResponseItem Extra Json).
Abbreviation ResponseItemEnvelope := (ResponseItemEnvelope Extra Json).

Record TurnContextItem := mkTurnContext {
  context_turn_id : option rstr;
  context_model : rstr;
  context_comp_hash : option rstr;
  context_realtime_active : option bool;
  context_rest : Rest
}.

Record CompactedItem := mkCompactedItem {
  compacted_message : rstr;
  replacement_history : option (list ResponseItemEnvelope);
  window_number : option N;
  first_window_id : option rstr;
  previous_window_id : option rstr;
  window_id : option rstr
}.

(** Agent paths by their text. *)
Record InterAgentCommunication := mkCommunication {
  communication_id : option rstr;
  author : rstr;
  recipient : rstr;
  communication_content : rstr;
  encrypted_content : option rstr;
  communication_metadata : option (InternalChatMessageMetadataPassthrough Extra Json);
  trigger_turn : bool
}.

Inductive EventMsg :=
| TurnStarted (turn_id : rstr)
| TurnComplete (turn_id : rstr)
| TurnAborted (turn_id : option rstr)
| UserMessage
| ThreadRolledBack (num_turns : N)
| OtherEvent.

(** A [SessionMeta] by the id of its context window. *)
Inductive RolloutItem :=
| SessionMeta (context_window : option rstr)
| Response (e : ResponseItemEnvelope)
| InterAgent (communication : InterAgentCommunication)
| InterAgentMetadata (trigger_turn : bool)
| Compacted (compacted : CompactedItem)
| TurnContext (ctx : TurnContextItem)
| WorldStateRecord (world_state : WorldStateItem Num)
| SecurityRiskScore
| Event (e : EventMsg)
| RealtimeItem.

Definition to_model_input_item (c : InterAgentCommunication) : ResponseItem :=
  let content :=
    match encrypted_content c with
    | Some encrypted =>
        let message_type := if trigger_turn c then lit "NEW_TASK" else lit "MESSAGE" in
        [AgentInputText (lit "Message Type: " ++ message_type ++ [c_lf]
                         ++ lit "Task name: " ++ recipient c ++ [c_lf]
                         ++ lit "Sender: " ++ author c ++ [c_lf]
                         ++ lit "Payload:" ++ [c_lf]);
         AgentEncryptedContent encrypted]
    | None => [AgentInputText (communication_content c)]
    end in
  AgentMessage (communication_id c) (author c) (recipient c) content (communication_metadata c).

(** ** Segments *)

Record PreviousTurnSettings := mkSettings {
  settings_model : rstr;
  settings_comp_hash : option rstr;
  settings_realtime_active : option bool
}.

Record ReconstructedWindow := mkWindow {
  number : N;
  first_id : option Uuid;
  previous_id : option Uuid;
  current_id : option Uuid
}.

Inductive TurnReferenceContextItem :=
| NeverSet
| Cleared
| Latest (ctx : TurnContextItem).

Definition is_never_set (r : TurnReferenceContextItem) : bool :=
  match r with NeverSet => true | _ => false end.
Definition is_cleared (r : TurnReferenceContextItem) : bool :=
  match r with Cleared => true | _ => false end.

Record ActiveReplaySegment := mkSegment {
  segment_turn_id : option rstr;
  counts_as_user_turn : bool;
  segment_settings : option PreviousTurnSettings;
  segment_reference : TurnReferenceContextItem;
  segment_replay : list RolloutItem;
  segment_base : option (list ResponseItemEnvelope);
  segment_window : option ReconstructedWindow
}.

Definition default_segment : ActiveReplaySegment := mkSegment None false None NeverSet [] None None.

Definition turn_ids_are_compatible (active_turn_id item_turn_id : option rstr) : bool :=
  match active_turn_id, item_turn_id with
  | Some turn_id, Some item_turn_id => item_turn_id == turn_id
  | _, _ => true
  end.

(** What the scan knows of the surviving segments. *)
Record ReplayMetadata := mkMetadata {
  base_replacement_history : option (list ResponseItemEnvelope);
  previous_turn_settings : option PreviousTurnSettings;
  reference : TurnReferenceContextItem;
  world_state_replay : list RolloutItem;
  window : option ReconstructedWindow;
  pending_rollback_turns : N
}.

Definition no_metadata : ReplayMetadata := mkMetadata None None NeverSet [] None 0.

(** What [finalize_active_segment] does with a segment that survives. *)
Definition absorb_segment (s : ActiveReplaySegment) (md : ReplayMetadata) : ReplayMetadata :=
  mkMetadata
    (match base_replacement_history md with
     | None => segment_base s
     | Some _ => base_replacement_history md
     end)
    (match previous_turn_settings md with
     | None => if counts_as_user_turn s then segment_settings s else None
     | Some _ => previous_turn_settings md
     end)
    (if is_never_set (reference md) && (counts_as_user_turn s || is_cleared (segment_reference s))
     then segment_reference s else reference md)
    (world_state_replay md ++ segment_replay s)
    (match window md with None => segment_window s | Some _ => window md end)
    (pending_rollback_turns md).

Definition set_pending (md : ReplayMetadata) (n : N) : ReplayMetadata :=
  mkMetadata (base_replacement_history md) (previous_turn_settings md) (reference md)
    (world_state_replay md) (window md) n.

Definition finalize_active_segment (s : ActiveReplaySegment) (md : ReplayMetadata) : ReplayMetadata :=
  let pending := pending_rollback_turns md in
  if (0 <? pending)%N then
    set_pending md (if counts_as_user_turn s then pending - 1 else pending)%N
  else absorb_segment s md.

(** ** The scan *)

Context (parse_uuid_v7 : rstr -> option Uuid) (from_xml : rstr -> option (rstr * rstr))
  (is_inter_agent_json : rstr -> bool) (estimate_audio_token_count : rstr -> N).

Definition set_turn_id (s : ActiveReplaySegment) (id : option rstr) : ActiveReplaySegment :=
  mkSegment (match segment_turn_id s with None => id | Some _ => segment_turn_id s end)
    (counts_as_user_turn s) (segment_settings s) (segment_reference s) (segment_replay s)
    (segment_base s) (segment_window s).

Definition set_user_turn (s : ActiveReplaySegment) (counts : bool) : ActiveReplaySegment :=
  mkSegment (segment_turn_id s) (counts_as_user_turn s || counts) (segment_settings s)
    (segment_reference s) (segment_replay s) (segment_base s) (segment_window s).

Definition push_replay (s : ActiveReplaySegment) (i : RolloutItem) : ActiveReplaySegment :=
  mkSegment (segment_turn_id s) (counts_as_user_turn s) (segment_settings s)
    (segment_reference s) (segment_replay s ++ [i]) (segment_base s) (segment_window s).

(** The window that a compaction with a number starts. *)
Definition compacted_window (c : CompactedItem) : option ReconstructedWindow :=
  match window_number c with
  | Some number =>
      Some (mkWindow number (first_window_id c ≫= parse_uuid_v7)
              (previous_window_id c ≫= parse_uuid_v7) (window_id c ≫= parse_uuid_v7))
  | None => None
  end.

Definition set_compacted (s : ActiveReplaySegment) (c : CompactedItem) : ActiveReplaySegment :=
  mkSegment (segment_turn_id s) (counts_as_user_turn s) (segment_settings s)
    (if is_never_set (segment_reference s) then Cleared else segment_reference s)
    (segment_replay s)
    (match segment_base s with None => replacement_history c | Some _ => segment_base s end)
    (match segment_window s with None => compacted_window c | Some _ => segment_window s end).

Definition set_context (s : ActiveReplaySegment) (ctx : TurnContextItem) : ActiveReplaySegment :=
  mkSegment (segment_turn_id s) (counts_as_user_turn s)
    (Some (mkSettings (context_model ctx) (context_comp_hash ctx) (context_realtime_active ctx)))
    (if is_never_set (segment_reference s) then Latest ctx else segment_reference s)
    (segment_replay s) (segment_base s) (segment_window s).

(** The arms of the loop that change the active segment. *)
Definition segment_step (active : option ActiveReplaySegment) (i : RolloutItem)
  : option ActiveReplaySegment :=
  let segment := default default_segment active in
  match i with
  | Compacted compacted => Some (set_compacted (push_replay segment i) compacted)
  | Event (TurnComplete turn_id) => Some (set_turn_id segment (Some turn_id))
  | Event (TurnAborted turn_id) =>
      match active, turn_id with
      | Some segment, _ => Some (set_turn_id segment turn_id)
      | None, Some _ => Some (set_turn_id default_segment turn_id)
      | None, None => None
      end
  | Event UserMessage => Some (set_user_turn segment true)
  | TurnContext ctx =>
      let segment := set_turn_id segment (context_turn_id ctx) in
      if turn_ids_are_compatible (segment_turn_id segment) (context_turn_id ctx)
      then Some (set_context segment ctx) else Some segment
  | WorldStateRecord _ => Some (push_replay segment i)
  | Response e =>
      Some (set_user_turn segment (is_user_turn_boundary from_xml is_inter_agent_json (item e)))
  | InterAgent _ => Some (set_user_turn segment true)
  | Event (TurnStarted _ | ThreadRolledBack _ | OtherEvent) | SessionMeta _ | RealtimeItem
  | SecurityRiskScore | InterAgentMetadata _ => active
  end.

(** Whether a compaction is the newest checkpoint of its segment, which moves
    the start of the replay after it. *)
Definition moves_suffix (active : option ActiveReplaySegment) (i : RolloutItem) : bool :=
  match i with
  | Compacted compacted =>
      is_some (replacement_history compacted)
      && negb (is_some (segment_base (default default_segment active)))
  | _ => false
  end.

Record Scan := mkScan {
  replay_metadata : ReplayMetadata;
  rollout_suffix : list RolloutItem;
  active_segment : option ActiveReplaySegment
}.

(** One round of the loop at the item with this index. *)
Definition scan_item (rollout_items : list RolloutItem) (index : nat) (i : RolloutItem) (st : Scan)
  : Scan :=
  match i with
  | Event (ThreadRolledBack num_turns) =>
      let md := replay_metadata st in
      mkScan (set_pending md (sat_add (pending_rollback_turns md) num_turns)) (rollout_suffix st)
        (active_segment st)
  | Event (TurnStarted turn_id) =>
      match active_segment st with
      | Some segment =>
          if turn_ids_are_compatible (segment_turn_id segment) (Some turn_id)
          then mkScan (finalize_active_segment segment (replay_metadata st)) (rollout_suffix st) None
          else st
      | None => st
      end
  | _ =>
      mkScan (replay_metadata st)
        (if moves_suffix (active_segment st) i then drop (S index) rollout_items
         else rollout_suffix st)
        (segment_step (active_segment st) i)
  end.

Definition all_known (md : ReplayMetadata) : bool :=
  is_some (base_replacement_history md) && is_some (previous_turn_settings md)
  && negb (is_never_set (reference md)).

(** The loop, over the items that are left in reverse. *)
Fixpoint scan (rollout_items reversed : list RolloutItem) (st : Scan) : Scan :=
  match reversed with
  | [] => st
  | i :: older =>
      let st := scan_item rollout_items (length older) i st in
      if all_known (replay_metadata st) then st else scan rollout_items older st
  end.

(** After the loop the segment that is still active is finalized. *)
Definition finish_scan (st : Scan) : ReplayMetadata :=
  match active_segment st with
  | Some segment => finalize_active_segment segment (replay_metadata st)
  | None => replay_metadata st
  end.

Definition scan_rollout (rollout_items : list RolloutItem) : Scan :=
  scan rollout_items (reverse rollout_items) (mkScan no_metadata rollout_items None).

(** ** The forward replay *)

Abbreviation ContextManager := (ContextManager Extra Json TurnContextItem Num).

(** The history, and whether a compaction without replacement was seen. *)
Definition forward_step (policy : TruncationPolicy) (st : ContextManager * bool) (i : RolloutItem)
  : outcome unit (ContextManager * bool) :=
  let '(history, saw_legacy) := st in
  match i with
  | Response e =>
      history ← record_annotated_items estimate_audio_token_count history [e] policy;
      Done (history, saw_legacy)
  | InterAgent communication =>
      history ← record_items estimate_audio_token_count history
                  [to_model_input_item communication] policy;
      Done (history, saw_legacy)
  | Compacted compacted =>
      match replacement_history compacted with
      | Some replacement => Done (replace_annotated history replacement, saw_legacy)
      | None =>
          let user_messages := collect_annotated_user_messages from_xml (items history) in
          rebuilt ← build_compacted_history [] user_messages (compacted_message compacted);
          Done (replace_annotated history rebuilt, true)
      end
  | Event (ThreadRolledBack num_turns) =>
      history ← drop_last_n_user_turns from_xml is_inter_agent_json history num_turns;
      Done (history, saw_legacy)
  | _ => Done st
  end.

Fixpoint forward_replay (policy : TruncationPolicy) (rollout : list RolloutItem)
    (st : ContextManager * bool) : outcome unit (ContextManager * bool) :=
  match rollout with
  | [] => Done st
  | i :: newer =>
      st ← forward_step policy st i;
      forward_replay policy newer st
  end.

(** [unreachable!] for an item that the scan does not collect. *)
Fixpoint replay_baseline (replay : list RolloutItem) (baseline : option WorldStateSnapshot)
  : outcome unit (option (list (rstr * Value Num))) :=
  match replay with
  | [] => Done baseline
  | Compacted _ :: newer => replay_baseline newer (replay_step baseline ReplayCompacted)
  | WorldStateRecord w :: newer => replay_baseline newer (replay_step baseline (ReplayWorldState w))
  | _ => Panic
  end.

(** ** The reconstruction *)

Record RolloutReconstruction := mkReconstruction {
  reconstructed_history : list ResponseItemEnvelope;
  reconstructed_settings : option PreviousTurnSettings;
  reconstructed_reference : option TurnContextItem;
  reconstructed_baseline : option (list (rstr * Value Num));
  reconstructed_window : ReconstructedWindow
}.

Definition is_compacted (i : RolloutItem) : bool :=
  match i with Compacted _ => true | _ => false end.

Definition is_legacy_compaction (i : RolloutItem) : bool :=
  match i with Compacted c => negb (is_some (window_number c)) | _ => false end.

Definition reconstructed_window_from_session_context_window (context_window : rstr)
  : option ReconstructedWindow :=
  (fun id => mkWindow 0 (Some id) None (Some id)) <$> parse_uuid_v7 context_window.

(** [Iterator::find_map] over the session records. *)
Definition initial_window (rollout_items : list RolloutItem) : option ReconstructedWindow :=
  if existsb is_legacy_compaction rollout_items then None
  else head (omap (fun i => match i with
                            | SessionMeta context_window =>
                                context_window ≫= reconstructed_window_from_session_context_window
                            | _ => None
                            end) rollout_items).

Definition reconstruct_history_from_rollout (policy : TruncationPolicy)
    (rollout_items : list RolloutItem) : outcome unit RolloutReconstruction :=
  let st := scan_rollout rollout_items in
  let md := finish_scan st in
  let fallback_window_number := N.of_nat (length (List.filter is_compacted rollout_items)) in
  let history := match base_replacement_history md with
                 | Some base => replace_annotated new_context_manager base
                 | None => new_context_manager
                 end in
  replayed ← forward_replay policy (rollout_suffix st) (history, false);
  let (history, saw_legacy) := replayed : ContextManager * bool in
  let reference_item := match reference md with Latest ctx => Some ctx | _ => None end in
  let reference_item := if saw_legacy then None else reference_item in
  baseline ← replay_baseline (reverse (world_state_replay md)) None;
  let window := match window md with
                | Some window => window
                | None => default (mkWindow fallback_window_number None None None)
                            (initial_window rollout_items)
                end in
  Done (mkReconstruction (items history) (previous_turn_settings md) reference_item baseline window).
End rollout.

(** ** Rollouts of turns *)

Section rollout_lemmas.
Context {Extra Json Num Rest Uuid : Type} `{!JsonNumber Num}.
Context (parse_uuid_v7 : rstr -> option Uuid) (from_xml : rstr -> option (rstr * rstr))
  (is_inter_agent_json : rstr -> bool) (audio : rstr -> N).
Abbreviation RolloutItem := (RolloutItem (Extra := Extra) (Json := Json) (Num := Num) (Rest := Rest)).
Abbreviation Segment := (ActiveReplaySegment (Extra := Extra) (Json := Json) (Num := Num) (Rest := Rest) (Uuid := Uuid)).
Abbreviation Metadata := (ReplayMetadata (Extra := Extra) (Json := Json) (Num := Num) (Rest := Rest) (Uuid := Uuid)).
Abbreviation Scan := (Scan (Extra := Extra) (Json := Json) (Num := Num) (Rest := Rest) (Uuid := Uuid)).
Abbreviation step := (segment_step parse_uuid_v7 from_xml is_inter_agent_json).
Abbreviation scan_one := (scan_item parse_uuid_v7 from_xml is_inter_agent_json).
Abbreviation scan_from := (scan parse_uuid_v7 from_xml is_inter_agent_json).
Implicit Types (i : RolloutItem) (l older newer all inner : list RolloutItem) (s : Segment)
  (stack : list Segment) (md : Metadata) (st : Scan).

(** A rollout as the session writes it: what precedes the first turn, then
    turns and rollbacks. *)
Inductive Block :=
| Turn (id : rstr) (inner : list RolloutItem)
| Rollback (num_turns : N).

Definition block_items (b : Block) : list RolloutItem :=
  match b with
  | Turn id inner => Event (TurnStarted id) :: inner
  | Rollback n => [Event (ThreadRolledBack n)]
  end.

Definition rollout loose (blocks : list Block) : list RolloutItem :=
  loose ++ concat (block_items <$> blocks).

Definition in_turn i : bool :=
  match i with Event (TurnStarted _ | ThreadRolledBack _) => false | _ => true end.

(** The segment that the scan makes of a turn's items. *)
Definition segment_of inner : option Segment := foldl step None (reverse inner).

Definition block_ok (b : Block) : Prop :=
  match b with
  | Turn id inner =>
      Forall (fun i => in_turn i = true) inner
      /\ forall s, segment_of inner = Some s -> turn_ids_are_compatible (segment_turn_id s) (Some id) = true
  | Rollback _ => True
  end.

Definition rollbacks (blocks : list Block) : N :=
  foldr (fun b n => match b with Rollback k => k + n | Turn _ _ => n end)%N 0%N blocks.

Definition rollout_ok loose (blocks : list Block) : Prop :=
  Forall (fun i => in_turn i = true) loose /\ Forall block_ok blocks /\ (rollbacks blocks <= usize_max)%N.

(** The specification: a stack of turns, newest first, from which a rollback
    pops the newest [n] that count as user turns with what is above them. *)
Fixpoint pop_turns (n : N) stack : list Segment :=
  match stack with
  | [] => []
  | s :: older =>
      if (n =? 0)%N then stack else pop_turns (if counts_as_user_turn s then n - 1 else n)%N older
  end.

Fixpoint popped_turns (n : N) stack : list Segment :=
  match stack with
  | [] => []
  | s :: older =>
      if (n =? 0)%N then [] else s :: popped_turns (if counts_as_user_turn s then n - 1 else n)%N older
  end.

Definition run_block stack (b : Block) : list Segment :=
  match b with
  | Turn _ inner => option_list (segment_of inner) ++ stack
  | Rollback n => pop_turns n stack
  end.

Definition survivors loose (blocks : list Block) : list Segment :=
  foldl run_block (option_list (segment_of loose)) blocks.

(** No rollback takes a turn with a checkpoint away. *)
Definition no_checkpoint s : bool := negb (is_some (segment_base s)).

Fixpoint keeps_checkpoints stack (blocks : list Block) : bool :=
  match blocks with
  | [] => true
  | b :: newer =>
      match b with Rollback n => forallb no_checkpoint (popped_turns n stack) | Turn _ _ => true end
      && keeps_checkpoints (run_block stack b) newer
  end.

Lemma pop_zero stack : pop_turns 0 stack = stack.
Proof. by destruct stack. Qed.

Lemma popped_zero stack : popped_turns 0 stack = [].
Proof. by destruct stack. Qed.

Lemma pop_pop n m stack : pop_turns m (pop_turns n stack) = pop_turns (m + n) stack.
Proof.
  revert n m. induction stack as [|s stack IH]; intros n m; [done|]. cbn [pop_turns].
  destruct (N.eqb_spec n 0) as [->|Hn].
  - rewrite N.add_0_r. cbn [pop_turns]. done.
  - rewrite IH. destruct (N.eqb_spec (m + n) 0) as [|_]; [lia|].
    f_equal. destruct (counts_as_user_turn s); lia.
Qed.

Lemma popped_pop n m stack :
  popped_turns (m + n) stack = popped_turns n stack ++ popped_turns m (pop_turns n stack).
Proof.
  revert n m. induction stack as [|s stack IH]; intros n m; [done|]. cbn [pop_turns popped_turns].
  destruct (N.eqb_spec n 0) as [->|Hn]; [by rewrite N.add_0_r|].
  destruct (N.eqb_spec (m + n) 0) as [|_]; [lia|]. cbn [app]. f_equal. rewrite <- IH.
  f_equal. destruct (counts_as_user_turn s); lia.
Qed.

Lemma keeps_snoc stack blocks b :
  keeps_checkpoints stack (blocks ++ [b])
  = keeps_checkpoints stack blocks
    && match b with
       | Rollback n => forallb no_checkpoint (popped_turns n (foldl run_block stack blocks))
       | Turn _ _ => true
       end.
Proof.
  revert stack. induction blocks as [|b' blocks IH]; intros stack; cbn [app keeps_checkpoints foldl].
  - by rewrite andb_true_r.
  - by rewrite IH, andb_assoc.
Qed.

(** ** Checkpoints *)

Definition checkpoint i : option (list (ResponseItemEnvelope Extra Json)) :=
  match i with Compacted c => replacement_history c | _ => None end.

Fixpoint newest_checkpoint l : option (list (ResponseItemEnvelope Extra Json)) :=
  match l with
  | [] => None
  | i :: newer => match newest_checkpoint newer with Some r => Some r | None => checkpoint i end
  end.

Definition base_of md (active : option Segment) : option (list (ResponseItemEnvelope Extra Json)) :=
  match base_replacement_history md with Some b => Some b | None => active ≫= segment_base end.

(** Where the replay starts when [newer] has been scanned, and from what. *)
Definition suffix_ok all newer (base : option (list (ResponseItemEnvelope Extra Json))) suffix : Prop :=
  base = newest_checkpoint newer
  /\ match newest_checkpoint newer with
     | None => suffix = all
     | Some _ => exists pre c, newer = pre ++ Compacted c :: suffix /\ replacement_history c <> None
     end.

Definition scan_ok all newer st : Prop :=
  suffix_ok all newer (base_of (replay_metadata st) (active_segment st)) (rollout_suffix st).

Lemma step_base active i :
  step active i ≫= segment_base
  = match active ≫= segment_base with Some b => Some b | None => checkpoint i end.
Proof.
  destruct i as [| | | |c|ctx|w| |[t|t|[t|]| |n|]|]; cbn [segment_step checkpoint];
    try (destruct active as [[? ? ? ? ? [?|] ?]|]; reflexivity).
  destruct (turn_ids_are_compatible _ _); by destruct active as [[? ? ? ? ? [?|] ?]|].
Qed.

Lemma suffix_ok_cons all newer base suffix i :
  checkpoint i = None -> suffix_ok all newer base suffix -> suffix_ok all (i :: newer) base suffix.
Proof.
  intros Hi [-> H]. unfold suffix_ok. cbn [newest_checkpoint]. rewrite Hi.
  destruct (newest_checkpoint newer) as [r|]; [|done]. split; [done|].
  destruct H as (pre & c & -> & Hc). exists (i :: pre), c. done.
Qed.

Lemma scan_item_inner all older newer i st :
  in_turn i = true -> all = older ++ i :: newer -> scan_ok all newer st ->
  scan_ok all (i :: newer) (scan_one all (length older) i st).
Proof.
  intros Hin -> Hok.
  assert (Hitem : scan_one (older ++ i :: newer) (length older) i st
    = mkScan (replay_metadata st)
        (if moves_suffix (active_segment st) i then newer else rollout_suffix st)
        (step (active_segment st) i)).
  { replace newer with (drop (S (length older)) (older ++ i :: newer)) at 2.
    - destruct i as [| | | | | | | |[]|]; done.
    - rewrite cons_middle, app_assoc. apply drop_app_length'. rewrite length_app. simpl. lia. }
  rewrite Hitem. unfold scan_ok in *. cbn [replay_metadata active_segment rollout_suffix].
  assert (Hb : base_of (replay_metadata st) (step (active_segment st) i)
    = match base_of (replay_metadata st) (active_segment st) with Some b => Some b | None => checkpoint i end).
  { unfold base_of. destruct (base_replacement_history (replay_metadata st)); [done|]. apply step_base. }
  rewrite Hb. destruct (checkpoint i) as [r|] eqn:Ec.
  - destruct Hok as [Hbase Hsuf]. rewrite Hbase. destruct i as [| | | |c| | | | |]; try done.
    cbn [checkpoint] in Ec. unfold suffix_ok. cbn [newest_checkpoint checkpoint moves_suffix]. rewrite Ec.
    cbn [is_some andb].
    assert (Hsome : is_some (segment_base (default default_segment (active_segment st))) = true
                    -> newest_checkpoint newer <> None).
    { rewrite <- Hbase. unfold base_of. destruct (base_replacement_history (replay_metadata st)); [done|].
      destruct (active_segment st) as [s|]; [|done]. simpl. by destruct (segment_base s). }
    destruct (is_some (segment_base (default default_segment (active_segment st)))).
    + specialize (Hsome eq_refl). cbn [negb]. destruct (newest_checkpoint newer); [|done]. split; [done|].
      destruct Hsuf as (pre & c' & -> & Hc'). by exists (Compacted c :: pre), c'.
    + cbn [negb]. destruct (newest_checkpoint newer); (split; [done|]); exists [], c; by rewrite Ec.
  - assert (moves_suffix (active_segment st) i = false) as ->.
    { destruct i; try done. cbn [checkpoint] in Ec. simpl. by rewrite Ec. }
    destruct Hok as [Hbase Hsuf].
    destruct (base_of (replay_metadata st) (active_segment st)) eqn:Eb; apply suffix_ok_cons; try done.
    all: split; [by rewrite <- Hbase|done].
Qed.

(** ** What survives *)

Definition replayable i : bool :=
  match i with Compacted _ | WorldStateRecord _ => true | _ => false end.

(** A segment collects what is replayed, and a checkpoint is among it. *)
Definition replay_ok (replay : list RolloutItem) (base : option (list (ResponseItemEnvelope Extra Json))) : Prop :=
  Forall (fun i => replayable i = true) replay /\ (base <> None -> existsb is_compacted replay = true).

Definition segment_good s : Prop := replay_ok (segment_replay s) (segment_base s).
Definition md_good md : Prop := replay_ok (world_state_replay md) (base_replacement_history md).

Lemma replay_ok_app r1 b1 r2 b2 :
  replay_ok r1 b1 -> replay_ok r2 b2 ->
  replay_ok (r1 ++ r2) match b1 with None => b2 | Some _ => b1 end.
Proof.
  intros [H1 C1] [H2 C2]. split; [by apply Forall_app|]. rewrite existsb_app, orb_true_iff.
  destruct b1; [left; by apply C1|right; by apply C2].
Qed.

Lemma step_good active i :
  (forall s, active = Some s -> segment_good s) -> forall s, step active i = Some s -> segment_good s.
Proof.
  intros Ha. assert (Hd : segment_good (default default_segment active)).
  { destruct active; [by apply Ha|]. split; [constructor|done]. }
  assert (Hpush : replayable i = true -> segment_good (push_replay (default default_segment active) i)).
  { intros Hi. destruct Hd as [Hd Hc]. split; cbn [push_replay segment_replay segment_base].
    - apply Forall_app. split; [done|by constructor].
    - intros Hb. rewrite existsb_app. by rewrite Hc. }
  intros s. destruct i as [| | | |c|ctx|w| |[t|t|[t|]| |n|]|]; cbn [segment_step]; try (by apply Ha).
  all: try (intros [= <-]; exact Hd).
  - intros [= <-]. split; [apply (Hpush eq_refl)|]. intros _.
    cbn [set_compacted push_replay segment_replay]. rewrite existsb_app. simpl. by rewrite orb_true_r.
  - destruct (turn_ids_are_compatible _ _); intros [= <-]; exact Hd.
  - intros [= <-]. by apply Hpush.
  - destruct active; intros [= <-]; exact Hd.
  - destruct active; intros [=]; subst; exact Hd.
Qed.

Lemma segment_of_good inner s : segment_of inner = Some s -> segment_good s.
Proof.
  unfold segment_of. assert (Hnone : forall s, None = Some s -> segment_good s) by done.
  revert Hnone s. generalize (@None Segment). induction (reverse inner) as [|i l IH]; intros active Ha s; cbn [foldl].
  - apply Ha.
  - apply IH. by apply step_good.
Qed.

Definition baseline_of md : outcome unit (option (list (rstr * Value Num))) :=
  replay_baseline (reverse (world_state_replay md)) None.

(** Equal in what a reconstruction takes from the turns that survive. *)
Definition same_metadata md md' : Prop :=
  base_replacement_history md = base_replacement_history md'
  /\ previous_turn_settings md = previous_turn_settings md'
  /\ reference md = reference md' /\ baseline_of md = baseline_of md'.

#[local] Instance same_metadata_equiv : Equivalence same_metadata.
Proof.
  split; [done|intros ?? (?&?&?&?); by split_and!|].
  intros ??? (?&?&?&?) (?&?&?&?). split_and!; by etransitivity.
Qed.

Lemma replay_baseline_app (l k : list RolloutItem) b :
  Forall (fun i => replayable i = true) l ->
  exists b', replay_baseline l b = Done b' /\ replay_baseline (l ++ k) b = replay_baseline k b'.
Proof.
  intros Hl. revert b. induction Hl as [|i l Hi _ IH]; intros b; [by exists b|].
  destruct i; try done; cbn [app replay_baseline]; apply IH.
Qed.

Lemma replay_baseline_reset (l : list RolloutItem) b b' :
  existsb is_compacted l = true -> replay_baseline l b = replay_baseline l b'.
Proof.
  revert b b'. induction l as [|i l IH]; intros b b'; [done|].
  destruct i; cbn [existsb is_compacted orb replay_baseline]; try done. intros Hl. by apply IH.
Qed.

Lemma absorb_good s md : segment_good s -> md_good md -> md_good (absorb_segment s md).
Proof. intros Hs Hm. by apply replay_ok_app. Qed.

Lemma absorb_known s md :
  all_known md = true -> segment_good s -> md_good md -> same_metadata (absorb_segment s md) md.
Proof.
  unfold all_known. intros [[Hb Hs]%andb_true_iff Hr]%andb_true_iff [Hrep _] [_ Hc].
  unfold same_metadata, baseline_of. cbn [absorb_segment base_replacement_history previous_turn_settings
    reference world_state_replay].
  destruct (base_replacement_history md) as [b|]; [|done]. destruct (previous_turn_settings md); [|done].
  destruct (is_never_set (reference md)); [done|]. split_and!; [done..|].
  rewrite reverse_app.
  destruct (replay_baseline_app (reverse (segment_replay s)) (reverse (world_state_replay md)) None)
    as (b' & _ & ->); [by apply Forall_reverse|].
  apply replay_baseline_reset. rewrite existsb_reverse. by apply Hc.
Qed.

Lemma all_known_absorb s md : all_known md = true -> all_known (absorb_segment s md) = true.
Proof.
  unfold all_known. cbn [absorb_segment base_replacement_history previous_turn_settings reference].
  intros [[Hb Hs]%andb_true_iff Hr]%andb_true_iff.
  destruct (base_replacement_history md); [|done]. destruct (previous_turn_settings md); [|done].
  by destruct (reference md).
Qed.

Lemma absorb_all_known stack md :
  all_known md = true -> Forall segment_good stack -> md_good md ->
  same_metadata (foldl (fun md s => absorb_segment s md) md stack) md.
Proof.
  intros Hk Hs. revert md Hk. induction Hs as [|s stack Hs _ IH]; intros md Hk Hm; [done|]. cbn [foldl].
  rewrite IH; [by apply absorb_known|by apply all_known_absorb|by apply absorb_good].
Qed.

Lemma absorb_set_pending stack md n :
  same_metadata (foldl (fun md s => absorb_segment s md) (set_pending md n) stack)
    (foldl (fun md s => absorb_segment s md) md stack).
Proof.
  assert (foldl (fun md s => absorb_segment s md) (set_pending md n) stack
          = set_pending (foldl (fun md s => absorb_segment s md) md stack) n) as ->; [|done].
  revert md. induction stack as [|s stack IH]; intros md; [done|]. cbn [foldl]. by rewrite <- IH.
Qed.

Abbreviation absorb_all := (foldl (fun md s => absorb_segment s md)).

(** ** The scan of a rollout *)

Lemma scan_inner all r rest st :
  Forall (fun i => in_turn i = true) r -> all_known (replay_metadata st) = false ->
  exists st', scan_from all (r ++ rest) st = scan_from all rest st'
    /\ replay_metadata st' = replay_metadata st /\ active_segment st' = foldl step (active_segment st) r
    /\ forall newer, all = reverse (r ++ rest) ++ newer -> scan_ok all newer st ->
         scan_ok all (reverse r ++ newer) st'.
Proof.
  intros Hr. revert st. induction Hr as [|i r Hi _ IH]; intros st Hk; [by exists st|].
  set (st1 := scan_one all (length (r ++ rest)) i st).
  assert (Hmd : replay_metadata st1 = replay_metadata st) by by destruct i as [| | | | | | | |[]|].
  assert (Hact : active_segment st1 = step (active_segment st) i) by by destruct i as [| | | | | | | |[]|].
  destruct (IH st1) as (st' & Hscan & Hmd' & Hact' & Hok); [by rewrite Hmd|].
  exists st'. cbn [app scan foldl]. fold st1. rewrite Hmd, Hk. split_and!; [done|by rewrite Hmd'|by rewrite Hact', Hact|].
  intros newer Hall Hst. rewrite reverse_cons, <- app_assoc. apply Hok.
  - rewrite Hall. cbn [app]. by rewrite reverse_cons, <- app_assoc.
  - unfold st1. rewrite <- (length_reverse (r ++ rest)). apply scan_item_inner; [done| |done].
    rewrite Hall. cbn [app]. by rewrite reverse_cons, <- app_assoc.
Qed.

(** From what, and where, the forward replay starts. *)
Definition replay_from all (base : option (list (ResponseItemEnvelope Extra Json))) suffix : Prop :=
  match base with
  | None => suffix = all
  | Some b => exists pre c, all = pre ++ Compacted c :: suffix
      /\ replacement_history c <> None /\ newest_checkpoint (Compacted c :: suffix) = Some b
  end.

Lemma newest_app l k :
  newest_checkpoint (l ++ k)
  = match newest_checkpoint k with Some r => Some r | None => newest_checkpoint l end.
Proof.
  induction l as [|i l IH]; cbn [app newest_checkpoint]; [by destruct (newest_checkpoint k)|].
  rewrite IH. by destruct (newest_checkpoint k).
Qed.

Lemma suffix_ok_replay older newer base suffix :
  suffix_ok (older ++ newer) newer base suffix -> replay_from (older ++ newer) base suffix.
Proof.
  intros [-> H]. unfold replay_from. destruct (newest_checkpoint newer) as [b|] eqn:E; [|done].
  destruct H as (pre & c & -> & Hc). exists (older ++ pre), c. rewrite <- app_assoc. split_and!; [done..|].
  rewrite newest_app in E. cbn [newest_checkpoint checkpoint] in *.
  destruct (newest_checkpoint suffix); [done|]. by destruct (replacement_history c).
Qed.

Lemma finalize_base s md :
  pending_rollback_turns md = 0%N \/ no_checkpoint s = true ->
  base_replacement_history (finalize_active_segment s md) = base_of md (Some s).
Proof.
  unfold finalize_active_segment, base_of, no_checkpoint. cbn [mbind option_bind].
  destruct (N.ltb_spec 0 (pending_rollback_turns md)); cbn [set_pending absorb_segment base_replacement_history].
  - intros [|Hs]; [lia|]. destruct (segment_base s); [done|]. by destruct (base_replacement_history md).
  - by destruct (base_replacement_history md).
Qed.

(** Finalizing a segment is the step of the specification. *)
Lemma finalize_spec s md stack :
  same_metadata (absorb_all (finalize_active_segment s md)
                   (pop_turns (pending_rollback_turns (finalize_active_segment s md)) stack))
    (absorb_all md (pop_turns (pending_rollback_turns md) (s :: stack))).
Proof.
  unfold finalize_active_segment. cbn [pop_turns]. destruct (N.ltb_spec 0 (pending_rollback_turns md)) as [Hp|Hp].
  - rewrite (proj2 (N.eqb_neq _ _)) by lia. cbn [set_pending pending_rollback_turns]. apply absorb_set_pending.
  - rewrite (proj2 (N.eqb_eq _ _)) by lia. cbn [absorb_segment pending_rollback_turns foldl].
    replace (pending_rollback_turns md) with 0%N by lia. by rewrite pop_zero.
Qed.

Lemma finalize_good s md : segment_good s -> md_good md -> md_good (finalize_active_segment s md).
Proof. intros Hs Hm. unfold finalize_active_segment. destruct (0 <? _)%N; [done|by apply absorb_good]. Qed.

Lemma popped_cons_kept n s stack :
  forallb no_checkpoint (popped_turns n (s :: stack)) = true ->
  (n = 0%N \/ no_checkpoint s = true)
  /\ forall md, pending_rollback_turns md = n ->
       forallb no_checkpoint (popped_turns (pending_rollback_turns (finalize_active_segment s md)) stack) = true.
Proof.
  cbn [popped_turns]. unfold finalize_active_segment. destruct (N.eqb_spec n 0) as [->|Hn].
  - intros _. split; [by left|]. intros md Hp. rewrite Hp. cbn [N.ltb N.compare absorb_segment pending_rollback_turns].
    by rewrite Hp, popped_zero.
  - cbn [forallb]. intros [Hs Hstack]%andb_true_iff. split; [by right|]. intros md Hp. rewrite Hp.
    replace (0 <? n)%N with true by (symmetry; apply N.ltb_lt; lia). done.
Qed.

Lemma pop_suffix n stack : exists k, stack = k ++ pop_turns n stack.
Proof.
  revert n. induction stack as [|s stack IH]; intros n; [by exists []|]. cbn [pop_turns].
  destruct (n =? 0)%N; [by exists []|]. destruct (IH (if counts_as_user_turn s then n - 1 else n)%N) as [k Hk].
  exists (s :: k). cbn [app]. by rewrite <- Hk.
Qed.

Lemma survivors_good loose blocks : Forall segment_good (survivors loose blocks).
Proof.
  assert (Hopt : forall inner, Forall segment_good (option_list (segment_of inner))).
  { intros inner. destruct (segment_of inner) as [s|] eqn:E; [|constructor].
    constructor; [by eapply segment_of_good|constructor]. }
  induction blocks as [|b blocks IH] using rev_ind; [apply Hopt|].
  unfold survivors in *. rewrite foldl_app. destruct b as [id inner|n]; cbn [foldl run_block].
  - by apply Forall_app.
  - destruct (pop_suffix n (foldl run_block (option_list (segment_of loose)) blocks)) as [k Hk].
    rewrite Hk in IH. by apply Forall_app in IH as [_ ?].
Qed.

Lemma survivors_snoc loose blocks b : survivors loose (blocks ++ [b]) = run_block (survivors loose blocks) b.
Proof. unfold survivors. by rewrite foldl_app. Qed.

Lemma rollout_snoc loose blocks b : rollout loose (blocks ++ [b]) = rollout loose blocks ++ block_items b.
Proof. unfold rollout. rewrite fmap_app, concat_app, <- app_assoc. cbn. by rewrite app_nil_r. Qed.

Lemma rollbacks_snoc blocks b :
  rollbacks (blocks ++ [b]) = (rollbacks blocks + match b with Rollback k => k | Turn _ _ => 0 end)%N.
Proof. induction blocks as [|[id inner|k] blocks IH]; cbn [app rollbacks foldr] in *; [destruct b; lia|done|]. fold (rollbacks (blocks ++ [b])). fold (rollbacks blocks). lia. Qed.

(** What the scan from [st] on has to find: the metadata of the survivors, and
    the newest checkpoint unless a rollback has taken one away. *)
Definition scan_correct all newer loose blocks st st' : Prop :=
  let stack := survivors loose blocks in
  let pending := pending_rollback_turns (replay_metadata st) in
  same_metadata (finish_scan st') (absorb_all (replay_metadata st) (pop_turns pending stack))
  /\ (scan_ok all newer st -> keeps_checkpoints (option_list (segment_of loose)) blocks = true ->
      forallb no_checkpoint (popped_turns pending stack) = true ->
      replay_from all (base_replacement_history (finish_scan st')) (rollout_suffix st')).

Lemma scan_loose all newer loose st :
  Forall (fun i => in_turn i = true) loose -> active_segment st = None ->
  all_known (replay_metadata st) = false -> all = loose ++ newer ->
  scan_correct all newer loose [] st (scan_from all (reverse loose) st).
Proof.
  intros Hl Ha Hk Hall.
  destruct (scan_inner all (reverse loose) [] st) as (st' & Hscan & Hmd & Hact & Hok);
    [by apply Forall_reverse|done|].
  rewrite app_nil_r in Hscan, Hok. rewrite reverse_involutive in Hok. rewrite Hscan. cbn [scan].
  unfold scan_correct, survivors, finish_scan. cbn [foldl]. rewrite Hact, Ha. fold (segment_of loose).
  destruct (segment_of loose) as [s|] eqn:Es; cbn [option_list].
  - split.
    + rewrite Hmd. etransitivity; [|apply (finalize_spec s (replay_metadata st) [])]. done.
    + intros Hst _ Hpop. apply popped_cons_kept in Hpop as [Hpop _].
      rewrite finalize_base by by rewrite Hmd. specialize (Hok newer Hall Hst).
      unfold scan_ok in Hok. rewrite Hact, Ha in Hok. fold (segment_of loose) in Hok. rewrite Es in Hok.
      subst all. apply (suffix_ok_replay [] (loose ++ newer)). exact Hok.
  - split; [by rewrite Hmd|]. intros Hst _ _. specialize (Hok newer Hall Hst).
    unfold scan_ok in Hok. rewrite Hact, Ha in Hok. fold (segment_of loose) in Hok. rewrite Es in Hok.
    subst all. apply (suffix_ok_replay [] (loose ++ newer)).
    unfold base_of in Hok. cbn in Hok. by destruct (base_replacement_history (replay_metadata st')).
Qed.

(** A [TurnStarted] that closes the active segment. *)
Lemma scan_turn_started all rest id s st :
  turn_ids_are_compatible (segment_turn_id s) (Some id) = true -> active_segment st = Some s ->
  let st1 := mkScan (finalize_active_segment s (replay_metadata st)) (rollout_suffix st) None in
  scan_from all (Event (TurnStarted id) :: rest) st
  = if all_known (finalize_active_segment s (replay_metadata st)) then st1 else scan_from all rest st1.
Proof. intros Hc Ha st1. cbn [scan scan_item]. rewrite Ha, Hc. done. Qed.

Lemma finalize_known s md :
  all_known md = false -> all_known (finalize_active_segment s md) = true ->
  pending_rollback_turns md = 0%N.
Proof.
  unfold finalize_active_segment. destruct (N.ltb_spec 0 (pending_rollback_turns md)); [|intros; lia].
  unfold all_known. cbn [set_pending base_replacement_history previous_turn_settings reference]. congruence.
Qed.

Definition scans all loose blocks : Prop :=
  forall newer st,
    (pending_rollback_turns (replay_metadata st) + rollbacks blocks <= usize_max)%N ->
    active_segment st = None -> all_known (replay_metadata st) = false -> md_good (replay_metadata st) ->
    all = rollout loose blocks ++ newer ->
    scan_correct all newer loose blocks st (scan_from all (reverse (rollout loose blocks)) st).

Lemma finalize_scan_ok all newer s st st1 stack :
  scan_ok all newer st1 -> active_segment st1 = Some s -> replay_metadata st1 = replay_metadata st ->
  forallb no_checkpoint (popped_turns (pending_rollback_turns (replay_metadata st)) (s :: stack)) = true ->
  suffix_ok all newer (base_replacement_history (finalize_active_segment s (replay_metadata st)))
    (rollout_suffix st1).
Proof.
  intros Hok Hact Hmd [Hpop _]%popped_cons_kept. rewrite finalize_base by done.
  unfold scan_ok in Hok. by rewrite Hact, Hmd in Hok.
Qed.

Lemma base_of_None md : base_of md None = base_replacement_history md.
Proof. unfold base_of. by destruct (base_replacement_history md). Qed.

Lemma popped_good n stack : Forall segment_good stack -> Forall segment_good (pop_turns n stack).
Proof.
  intros Hg. destruct (pop_suffix n stack) as [k Hk]. rewrite Hk in Hg.
  by apply Forall_app in Hg as [_ Hg].
Qed.

(** The segment of a turn is closed: the scan stops, or goes on with the older
    blocks. *)
Lemma scan_closed_turn all loose blocks id s newer st st1 :
  scans all loose blocks -> segment_good s ->
  turn_ids_are_compatible (segment_turn_id s) (Some id) = true ->
  (pending_rollback_turns (replay_metadata st) + rollbacks blocks <= usize_max)%N ->
  all_known (replay_metadata st) = false -> md_good (replay_metadata st) ->
  active_segment st1 = Some s -> replay_metadata st1 = replay_metadata st ->
  all = rollout loose blocks ++ Event (TurnStarted id) :: newer ->
  let stack := s :: survivors loose blocks in
  let pending := pending_rollback_turns (replay_metadata st) in
  let st' := scan_from all (Event (TurnStarted id) :: reverse (rollout loose blocks)) st1 in
  same_metadata (finish_scan st') (absorb_all (replay_metadata st) (pop_turns pending stack))
  /\ (scan_ok all newer st1 -> keeps_checkpoints (option_list (segment_of loose)) blocks = true ->
      forallb no_checkpoint (popped_turns pending stack) = true ->
      replay_from all (base_replacement_history (finish_scan st')) (rollout_suffix st')).
Proof.
  intros IH Hs Hid Hp Hk Hm Hact Hmd Hall. cbv zeta.
  rewrite (scan_turn_started all _ id s st1 Hid Hact), Hmd.
  destruct (all_known (finalize_active_segment s (replay_metadata st))) eqn:Ek.
  - split.
    + unfold finish_scan. cbn [active_segment replay_metadata]. symmetry. rewrite <- finalize_spec.
      apply absorb_all_known; [done|apply popped_good, survivors_good|by apply finalize_good].
    + intros Hst _ Hpop. unfold finish_scan. cbn [active_segment replay_metadata rollout_suffix].
      rewrite Hall. apply suffix_ok_replay. rewrite <- Hall. apply suffix_ok_cons; [done|].
      by eapply finalize_scan_ok.
  - edestruct (IH (Event (TurnStarted id) :: newer)
                 (mkScan (finalize_active_segment s (replay_metadata st)) (rollout_suffix st1) None))
      as [IH1 IH2]; [|done|done|by apply finalize_good|done|].
    { cbn [replay_metadata]. unfold finalize_active_segment.
      destruct (N.ltb_spec 0 (pending_rollback_turns (replay_metadata st)));
        cbn [set_pending absorb_segment pending_rollback_turns]; [destruct (counts_as_user_turn s)|]; lia. }
    split; [rewrite IH1; apply finalize_spec|]. intros Hst Hkeep Hpop. apply IH2; [|done|].
    + unfold scan_ok. cbn [replay_metadata active_segment rollout_suffix]. rewrite base_of_None.
      apply suffix_ok_cons; [done|]. by eapply finalize_scan_ok.
    + by eapply popped_cons_kept.
Qed.

Lemma scan_turn all loose blocks id inner :
  scans all loose blocks -> block_ok (Turn id inner) -> scans all loose (blocks ++ [Turn id inner]).
Proof.
  intros IH [Hinner Hid] newer st Hp Ha Hk Hm Hall. rewrite rollbacks_snoc, N.add_0_r in Hp.
  rewrite rollout_snoc in *. cbn [block_items] in *.
  assert (Hall' : all = rollout loose blocks ++ Event (TurnStarted id) :: inner ++ newer) by by rewrite Hall, <- app_assoc.
  assert (Hrev : reverse (rollout loose blocks ++ Event (TurnStarted id) :: inner)
    = reverse inner ++ Event (TurnStarted id) :: reverse (rollout loose blocks)).
  { by rewrite reverse_app, reverse_cons, <- app_assoc. }
  rewrite Hrev. unfold scan_correct. rewrite survivors_snoc, keeps_snoc, andb_true_r. cbn [run_block].
  destruct (scan_inner all (reverse inner) (Event (TurnStarted id) :: reverse (rollout loose blocks)) st)
    as (st1 & -> & Hmd & Hact & Hok); [by apply Forall_reverse|done|].
  rewrite <- Hrev, reverse_involutive, reverse_involutive in Hok. specialize (Hok newer Hall).
  rewrite Ha in Hact. fold (segment_of inner) in Hact.
  destruct (segment_of inner) as [s|] eqn:Es; cbn [option_list app].
  - edestruct (scan_closed_turn all loose blocks id s (inner ++ newer) st st1) as [H1 H2];
      [done|by eapply segment_of_good|by apply Hid|done..|].
    split; [exact H1|]. intros Hst. apply H2. by apply Hok.
  - cbn [scan scan_item]. rewrite Hact, Hmd, Hk.
    edestruct (IH (Event (TurnStarted id) :: inner ++ newer) st1) as [IH1 IH2];
      [by rewrite Hmd|done|by rewrite Hmd|by rewrite Hmd|done|].
    rewrite Hmd in IH1, IH2. split; [done|]. intros Hst Hkeep Hpop. apply IH2; [|done..].
    apply suffix_ok_cons; [done|]. by apply Hok.
Qed.

Lemma scan_rollback all loose blocks n :
  scans all loose blocks -> scans all loose (blocks ++ [Rollback n]).
Proof.
  intros IH newer st Hp Ha Hk Hm Hall. rewrite rollbacks_snoc in Hp. rewrite rollout_snoc in *.
  rewrite reverse_app. unfold scan_correct. rewrite survivors_snoc, keeps_snoc.
  cbn [block_items run_block reverse rev_append app scan scan_item].
  replace (sat_add (pending_rollback_turns (replay_metadata st)) n)
    with (pending_rollback_turns (replay_metadata st) + n)%N by (unfold sat_add; lia).
  set (st1 := mkScan _ _ _).
  assert (Hk1 : all_known (replay_metadata st1) = false) by done. rewrite Hk1.
  edestruct (IH (Event (ThreadRolledBack n) :: newer) st1) as [IH1 IH2];
    [cbn [st1 replay_metadata set_pending pending_rollback_turns]; lia|done|done|done|by rewrite Hall, <- app_assoc|].
  rewrite pop_pop. split; [rewrite IH1; apply absorb_set_pending|].
  intros Hst [Hkeep Hrb]%andb_true_iff Hpop. apply IH2; [by apply suffix_ok_cons|done|].
  fold (survivors loose blocks) in Hrb. cbn [st1 replay_metadata set_pending pending_rollback_turns]. by rewrite popped_pop, forallb_app, Hrb, Hpop.
Qed.

Lemma scan_blocks all loose blocks :
  Forall (fun i => in_turn i = true) loose -> Forall block_ok blocks -> scans all loose blocks.
Proof.
  intros Hl Hblocks. induction blocks as [|b blocks IH] using rev_ind.
  - intros newer st _ Ha Hk _ Hall. unfold rollout in *. cbn [fmap list_fmap concat] in *.
    rewrite app_nil_r in *. by apply scan_loose.
  - rewrite Forall_app, Forall_singleton in Hblocks. destruct Hblocks as [Hblocks Hb].
    destruct b; [by apply scan_turn; [apply IH|]|by apply scan_rollback, IH].
Qed.

(** ** The forward replay *)

Abbreviation History := (ContextManager Extra Json (TurnContextItem (Rest := Rest)) Num).
Abbreviation forward_one := (forward_step from_xml is_inter_agent_json audio).
Abbreviation forward_all := (forward_replay from_xml is_inter_agent_json audio).
Implicit Types (h : History) (policy : TruncationPolicy).

Definition replaces i : bool := match i with Compacted c => is_some (replacement_history c) | _ => true end.

Definition rollout_fits i : Prop := match i with Response e => fits (item e) | _ => True end.

(** The compactions without replacement come before the first with one. *)
Fixpoint legacy_first l : bool :=
  match l with
  | [] => true
  | i :: newer => if is_some (checkpoint i) then forallb replaces newer else legacy_first newer
  end.

Lemma rollback_done h n :
  exists h', drop_last_n_user_turns from_xml is_inter_agent_json h n = Done h'
    /\ items h' = if (n =? 0)%N then items h
                 else rollback_items from_xml is_inter_agent_json (items h) (N.to_nat n).
Proof.
  destruct (N.eqb_spec n 0) as [->|Hn]; [by exists h|].
  destruct (rollback_spec from_xml is_inter_agent_json h n Hn) as [r Hr]. by eexists.
Qed.

Lemma record_one h (i : ResponseItem Extra Json) (hm : option CodexHarnessMetadata) policy h' :
  record_items_with_metadata audio h [(i, hm)] policy = Done h' ->
  exists added, forall k : History,
    record_items_with_metadata audio k [(i, hm)] policy = Done (set_items k (items k ++ added))
    /\ items h' = items h ++ added.
Proof.
  cbn [record_items_with_metadata]. destruct (is_api_message i).
  - destruct (process_item audio i policy) as [i'| |]; [|done..]. cbn [mbind outcome_bind]. intros [= <-].
    by exists [mkEnvelope i' hm].
  - intros [= <-]. exists []. intros k. rewrite !app_nil_r. by destruct k.
Qed.

(** Without compactions that rebuild, a replay does not depend on what it
    starts from, but for the items there. *)
Lemma forward_one_from policy i h seen h' seen' :
  replaces i = true -> forward_one policy (h, seen) i = Done (h', seen') ->
  seen' = seen /\ forall k seen1, exists k', forward_one policy (k, seen1) i = Done (k', seen1)
    /\ (items h = items k \/ checkpoint i <> None -> items h' = items k').
Proof.
  intros Hm. destruct i as [|e|c| |c| | | |[| | | |n|]|]; cbn [forward_step checkpoint replaces] in *.
  all: try (intros [= <- <-]; split; [done|]; intros k seen1; eexists; split; [reflexivity|]; by intros [|]).
  1-2: unfold record_annotated_items, record_items; cbn [fmap list_fmap];
    destruct (record_items_with_metadata _ _ _ _) as [r| |] eqn:E; [|done..];
    intros [= <- <-]; (split; [done|]); intros k seen1; apply record_one in E as [added E];
    destruct (E k) as [-> ->]; eexists; (split; [reflexivity|]); intros [-> |]; done.
  - destruct (replacement_history c) as [r|]; [|done]. intros [= <- <-]. split; [done|].
    intros k seen1. by eexists.
  - destruct (rollback_done h n) as (r & -> & Hr). intros [= <- <-]. split; [done|]. intros k seen1.
    destruct (rollback_done k n) as (r' & -> & Hr'). eexists. split; [reflexivity|].
    intros [Heq|]; [|done]. by rewrite Hr, Hr', Heq.
Qed.

Lemma forward_all_from policy l h seen h' seen' :
  forallb replaces l = true -> forward_all policy l (h, seen) = Done (h', seen') ->
  seen' = seen /\ forall k seen1, exists k', forward_all policy l (k, seen1) = Done (k', seen1)
    /\ (items h = items k \/ newest_checkpoint l <> None -> items h' = items k').
Proof.
  revert h seen. induction l as [|i l IH]; intros h seen; cbn [forallb forward_replay].
  { intros _ [= <- <-]. split; [done|]. intros k seen1. exists k. split; [done|]. by intros [|]. }
  intros [Hi Hl]%andb_true_iff. destruct (forward_one policy (h, seen) i) as [[h1 seen2]| |] eqn:E1; [|done..].
  cbn [mbind outcome_bind]. intros E2. apply forward_one_from in E1 as [-> H1]; [|done].
  apply IH in E2 as [-> H2]; [|done]. split; [done|]. intros k seen1.
  destruct (H1 k seen1) as (k1 & -> & Hk1). destruct (H2 k1 seen1) as (k' & Hk' & Hitems).
  exists k'. split; [exact Hk'|]. cbn [newest_checkpoint]. intros Hor. apply Hitems.
  destruct (newest_checkpoint l); [by right|]. left. apply Hk1. done.
Qed.

Lemma forward_all_app policy l k (st : History * bool) :
  forward_all policy (l ++ k) st = (st' ← forward_all policy l st; forward_all policy k st').
Proof.
  revert st. induction l as [|i l IH]; intros st; [done|]. cbn [app forward_replay].
  destruct (forward_one policy st i); [|done..]. apply IH.
Qed.

Lemma forward_all_done policy l h seen :
  forallb replaces l = true -> Forall rollout_fits l ->
  exists h', forward_all policy l (h, seen) = Done (h', seen).
Proof.
  intros Hl Hf. revert h. induction Hf as [|i l Hi _ IH]; intros h; [by exists h|].
  cbn [forallb] in Hl. apply andb_true_iff in Hl as [Hm Hl]. cbn [forward_replay].
  assert (exists h', forward_one policy (h, seen) i = Done (h', seen)) as (h' & ->); [|by apply IH].
  destruct i as [|e|c| |c| | | |[| | | |n|]|]; cbn [forward_step]; try by eexists.
  - destruct (record_spec audio h [(item e, metadata e)] policy) as (added & Hr & _); [by repeat constructor|].
    unfold record_annotated_items. cbn [fmap list_fmap]. rewrite Hr. by eexists.
  - cbn [replaces] in Hm. destruct (replacement_history c); [by eexists|done].
  - destruct (rollback_done h n) as (r & -> & _). by eexists.
Qed.

Lemma legacy_first_after pre c suffix :
  legacy_first (pre ++ Compacted c :: suffix) = true -> replacement_history c <> None ->
  forallb replaces suffix = true.
Proof.
  intros H Hc. induction pre as [|i pre IH]; cbn [app legacy_first checkpoint] in H.
  - by destruct (replacement_history c).
  - destruct (is_some (checkpoint i)); [|by apply IH]. rewrite forallb_app in H.
    apply andb_true_iff in H as [_ H]. cbn [forallb] in H. by apply andb_true_iff in H as [_ H].
Qed.

(** Starting from the newest checkpoint gives the items of the full replay. *)
Lemma replay_from_correct policy all base suffix h seen :
  legacy_first all = true -> replay_from all base suffix ->
  forward_all policy all (new_context_manager, false) = Done (h, seen) ->
  exists h' seen', forward_all policy suffix
      (match base with Some b => replace_annotated new_context_manager b | None => new_context_manager end, false)
      = Done (h', seen') /\ items h' = items h.
Proof.
  intros Hleg Hfrom Hfull. destruct base as [b|]; [|rewrite Hfrom; eauto].
  destruct Hfrom as (pre & c & -> & Hc & Hnew). pose proof (legacy_first_after _ _ _ Hleg Hc) as Hrep.
  rewrite forward_all_app in Hfull. destruct (forward_all policy pre _) as [[h1 seen1]| |]; [|done..].
  cbn [mbind outcome_bind forward_replay forward_step] in Hfull.
  cbn [newest_checkpoint checkpoint] in Hnew. destruct (replacement_history c) as [r|]; [|done].
  cbn [mbind outcome_bind] in Hfull. apply forward_all_from in Hfull as [_ Hall]; [|done].
  destruct (Hall (replace_annotated new_context_manager b) false) as (h' & Hdone & Hitems).
  exists h', false. split; [exact Hdone|]. symmetry. apply Hitems.
  destruct (newest_checkpoint suffix); [by right|]. left. by simplify_eq.
Qed.

(** ** The metadata of the survivors *)

Definition surviving_settings stack : option PreviousTurnSettings :=
  head (omap (fun s => if counts_as_user_turn s then segment_settings s else None) stack).

Definition sets_reference s : option TurnReferenceContextItem :=
  if (counts_as_user_turn s || is_cleared (segment_reference s)) && negb (is_never_set (segment_reference s))
  then Some (segment_reference s) else None.

Definition surviving_reference stack : option TurnContextItem :=
  match head (omap sets_reference stack) with Some (Latest ctx) => Some ctx | _ => None end.

Definition world_record i : option (ReplayItem Num) :=
  match i with
  | Compacted _ => Some ReplayCompacted
  | WorldStateRecord w => Some (ReplayWorldState w)
  | _ => None
  end.

(** The records of the turns, oldest first. *)
Definition surviving_records stack : list (ReplayItem Num) :=
  omap world_record (reverse (concat (segment_replay <$> stack))).

Lemma absorb_all_fields stack md :
  previous_turn_settings (absorb_all md stack)
  = match previous_turn_settings md with Some x => Some x | None => surviving_settings stack end
  /\ reference (absorb_all md stack)
     = (if is_never_set (reference md) then default NeverSet (head (omap sets_reference stack)) else reference md)
  /\ world_state_replay (absorb_all md stack) = world_state_replay md ++ concat (segment_replay <$> stack).
Proof.
  unfold surviving_settings. revert md. induction stack as [|s stack IH]; intros md; cbn [foldl].
  - rewrite app_nil_r. split_and!; [by destruct (previous_turn_settings md)|by destruct (reference md)|done].
  - destruct (IH (absorb_segment s md)) as (-> & -> & ->).
    cbn [absorb_segment previous_turn_settings reference world_state_replay omap list_omap fmap list_fmap concat].
    split_and!; [| |by rewrite <- app_assoc].
    + destruct (previous_turn_settings md); [done|]. destruct (counts_as_user_turn s); [|done].
      by destruct (segment_settings s).
    + unfold sets_reference. destruct (reference md); cbn [is_never_set andb]; [|done..].
      destruct (counts_as_user_turn s), (segment_reference s); reflexivity.
Qed.

Lemma replay_baseline_records l b :
  Forall (fun i => replayable i = true) l ->
  replay_baseline l b = Done (foldl replay_step b (omap world_record l)).
Proof.
  intros Hl. revert b. induction Hl as [|i l Hi _ IH]; intros b; [done|].
  destruct i; try done; cbn [replay_baseline omap list_omap world_record foldl]; apply IH.
Qed.

Lemma baseline_of_survivors stack :
  Forall segment_good stack ->
  baseline_of (absorb_all no_metadata stack) = Done (replay_world_state (surviving_records stack)).
Proof.
  intros Hg. unfold baseline_of, surviving_records, replay_world_state.
  destruct (absorb_all_fields stack no_metadata) as (_ & _ & ->). cbn [no_metadata world_state_replay app].
  apply replay_baseline_records, Forall_reverse. induction Hg as [|s stack [Hs _] _ IH]; [constructor|].
  cbn [fmap list_fmap concat]. by apply Forall_app.
Qed.

(** A turn's segment collects the turn's records. *)
Lemma segment_records inner s :
  segment_of inner = Some s -> omap world_record (reverse (segment_replay s)) = omap world_record inner.
Proof.
  unfold segment_of. rewrite <- (reverse_involutive inner) at 2. generalize (reverse inner). intros l.
  assert (Hgen : forall active,
    omap world_record (reverse (segment_replay (default default_segment (foldl step active l))))
    = omap world_record (reverse l)
      ++ omap world_record (reverse (segment_replay (default default_segment active)))).
  { induction l as [|i l IH]; intros active; cbn [foldl]; [done|]. rewrite IH, reverse_cons, omap_app, <- app_assoc.
    f_equal. destruct i as [| | | |c|ctx|w| |[t|t|[t|]| |n|]|]; try (by destruct active).
    - change (segment_replay (default default_segment (step active (Compacted c))))
        with (segment_replay (default default_segment active) ++ [Compacted c]). by rewrite reverse_app.
    - cbn [segment_step]. by destruct (turn_ids_are_compatible _ _).
    - change (segment_replay (default default_segment (step active (WorldStateRecord w))))
        with (segment_replay (default default_segment active) ++ [WorldStateRecord w]). by rewrite reverse_app. }
  intros Hs. specialize (Hgen None). rewrite Hs in Hgen. cbn in Hgen. by rewrite app_nil_r in Hgen.
Qed.

(** ** Theorems *)

Abbreviation reconstruct := (reconstruct_history_from_rollout parse_uuid_v7 from_xml is_inter_agent_json audio).
Abbreviation scanned := (scan_rollout parse_uuid_v7 from_xml is_inter_agent_json).

Lemma scanned_correct loose blocks :
  rollout_ok loose blocks ->
  same_metadata (finish_scan (scanned (rollout loose blocks)))
    (absorb_all no_metadata (survivors loose blocks))
  /\ (keeps_checkpoints (option_list (segment_of loose)) blocks = true ->
      replay_from (rollout loose blocks)
        (base_replacement_history (finish_scan (scanned (rollout loose blocks))))
        (rollout_suffix (scanned (rollout loose blocks)))).
Proof.
  intros (Hl & Hb & Hn).
  destruct (scan_blocks (rollout loose blocks) loose blocks Hl Hb []
              (mkScan no_metadata (rollout loose blocks) None)) as [H1 H2].
  - exact Hn.
  - done.
  - done.
  - split; [constructor|done].
  - by rewrite app_nil_r.
  - cbn [replay_metadata no_metadata pending_rollback_turns] in *. rewrite pop_zero in H1. rewrite popped_zero in H2.
    split; [exact H1|]. intros Hk. by apply H2.
Qed.

Lemma scanned_suffix_incl l : exists pre, l = pre ++ rollout_suffix (scanned l).
Proof.
  unfold scan_rollout. assert (Hst : exists pre, l = pre ++ rollout_suffix (mkScan no_metadata l None : Scan)) by by exists [].
  revert Hst. generalize (mkScan no_metadata l None : Scan). induction (reverse l) as [|i older IH]; intros st Hst; [done|].
  cbn [scan]. assert (Hone : exists pre, l = pre ++ rollout_suffix (scan_one l (length older) i st)).
  { assert (Hdrop : exists pre, l = pre ++ drop (S (length older)) l).
    { exists (take (S (length older)) l). by rewrite take_drop. }
    destruct i as [| | | | | | | |[]|]; cbn [scan_item]; try done.
    - cbn [rollout_suffix]. by destruct (moves_suffix _ _).
    - destruct (active_segment st); [|done]. by destruct (turn_ids_are_compatible _ _). }
  destruct (all_known _); [done|by apply IH].
Qed.

(** C4: However turns were rolled back: the settings, the reference context and
    the world state's baseline that a reconstruction finds are those of the
    turns that survive, where a rollback pops the newest turns of the user.
    The settings are those of the newest surviving turn of the user that has
    any, the reference context is the newest one not cleared by a compaction
    since, and the baseline is the replay of all surviving records.  The scan
    may stop early without changing any of them.  The rollout is made of well-formed
    turns and its compactions carry a replacement history. *)
Theorem reconstruction_of_survivors policy loose blocks :
  rollout_ok loose blocks -> forallb replaces (rollout loose blocks) = true ->
  Forall rollout_fits (rollout loose blocks) ->
  exists r, reconstruct policy (rollout loose blocks) = Done r
    /\ reconstructed_settings r = surviving_settings (survivors loose blocks)
    /\ reconstructed_reference r = surviving_reference (survivors loose blocks)
    /\ reconstructed_baseline r = replay_world_state (surviving_records (survivors loose blocks)).
Proof.
  intros Hok Hrep Hfit. destruct (scanned_correct loose blocks Hok) as [(_ & Hset & Href & Hbase) _].
  rewrite baseline_of_survivors in Hbase by apply survivors_good.
  destruct (absorb_all_fields (survivors loose blocks) no_metadata) as (Hset' & Href' & _).
  rewrite Hset' in Hset. rewrite Href' in Href. unfold reconstruct_history_from_rollout.
  destruct (scanned_suffix_incl (rollout loose blocks)) as [pre Hpre].
  rewrite Hpre, forallb_app in Hrep. apply andb_true_iff in Hrep as [_ Hrep].
  rewrite Hpre in Hfit. apply Forall_app in Hfit as [_ Hfit].
  match goal with |- context [forward_replay _ _ _ _ _ (?h, false)] =>
    destruct (forward_all_done policy _ h false Hrep Hfit) as [h' ->] end.
  cbn [mbind outcome_bind].
  unfold baseline_of in Hbase. rewrite Hbase. cbn [mbind outcome_bind]. eexists. split; [reflexivity|].
  cbn [reconstructed_settings reconstructed_reference reconstructed_baseline]. split_and!; [done| |done].
  rewrite Href. unfold surviving_reference. cbn. by destruct (head _) as [[]|].
Qed.

(** C25: As long as no rollback takes away a turn with a checkpoint, the
    reconstructed history, which is replayed from a checkpoint on, has the
    items of a replay of the whole rollout. *)
Theorem reconstruction_replays_rollout policy loose blocks h seen :
  rollout_ok loose blocks -> legacy_first (rollout loose blocks) = true ->
  keeps_checkpoints (option_list (segment_of loose)) blocks = true ->
  forward_all policy (rollout loose blocks) (new_context_manager, false) = Done (h, seen) ->
  exists r, reconstruct policy (rollout loose blocks) = Done r /\ reconstructed_history r = items h.
Proof.
  intros Hok Hleg Hkeep Hfull. destruct (scanned_correct loose blocks Hok) as [(_ & _ & _ & Hbase) Hfrom].
  rewrite baseline_of_survivors in Hbase by apply survivors_good.
  destruct (replay_from_correct policy _ _ _ h seen Hleg (Hfrom Hkeep) Hfull) as (h' & seen' & Hrun & Hitems).
  unfold reconstruct_history_from_rollout. rewrite Hrun. cbn [mbind outcome_bind].
  unfold baseline_of in Hbase. rewrite Hbase. cbn [mbind outcome_bind]. by eexists.
Qed.
End rollout_lemmas.

(** ** Examples *)

Module Examples.
Abbreviation Item := (RolloutItem (Extra := unit) (Json := unit) (Num := N) (Rest := unit)).
Definition no_uuid (_ : rstr) : option unit := None.
Definition no_xml (_ : rstr) : option (rstr * rstr) := None.
Definition not_json (_ : rstr) : bool := false.

Definition user (t : string) : ResponseItemEnvelope unit unit :=
  new_envelope (Message None (lit "user") [MsgInputText (lit t)] None None).

Definition says (turn t : string) : list Item :=
  [TurnContext (mkTurnContext (Some (lit turn)) (lit "model") None None ()); Event UserMessage;
   Response (user t)].

Definition checkpoint_of (l : list (ResponseItemEnvelope unit unit)) : Item :=
  Compacted (mkCompactedItem (lit "s") (Some l) (Some 1%N) None None None).

Definition first_turn : Block := Turn (lit "t1") (says "t1" "hello" ++ [Event (TurnComplete (lit "t1"))]).
Definition second_turn (inner : list Item) : Block :=
  Turn (lit "t2") (says "t2" "bye" ++ inner ++ [Event (TurnComplete (lit "t2"))]).

Abbreviation rebuilt blocks :=
  (reconstruct_history_from_rollout no_uuid no_xml not_json (fun _ => 0%N) (Bytes 100)
     (rollout [SessionMeta None] blocks)).

(** Two turns, then a rollback of the second. *)
Definition plain : list (Block (Extra := unit) (Json := unit) (Num := N) (Rest := unit)) :=
  [first_turn; second_turn []; Rollback 1].
Definition compacted_first : list (Block (Extra := unit) (Json := unit) (Num := N) (Rest := unit)) :=
  [first_turn; Turn (lit "c") [checkpoint_of [user "hello"]]; second_turn []; Rollback 1].

Lemma plain_ok : rollout_ok no_uuid no_xml not_json [SessionMeta None] plain.
Proof.
  split_and!; [by repeat constructor| |vm_compute; discriminate].
  repeat constructor; vm_compute; intros s [= <-]; reflexivity.
Defined.

Lemma compacted_first_ok : rollout_ok no_uuid no_xml not_json [SessionMeta None] compacted_first.
Proof.
  split_and!; [by repeat constructor| |vm_compute; discriminate].
  repeat constructor; vm_compute; intros s [= <-]; reflexivity.
Defined.

Lemma reconstruction_of_survivors_witness :
  exists r, rebuilt plain = Done r
    /\ reconstructed_settings r = Some (mkSettings (lit "model") None None)
    /\ reconstructed_reference r = Some (mkTurnContext (Some (lit "t1")) (lit "model") None None ()).
Proof.
  destruct (reconstruction_of_survivors no_uuid no_xml not_json (fun _ => 0%N) (Bytes 100) [SessionMeta None] plain)
    as (r & Hr & Hs & Href & _).
  - exact plain_ok.
  - vm_compute. reflexivity.
  - repeat constructor.
  - exists r. split; [exact Hr|]. rewrite Hs, Href. vm_compute. split; reflexivity.
Defined.

Lemma reconstruction_replays_rollout_witness :
  exists r, rebuilt compacted_first = Done r /\ reconstructed_history r = [user "hello"].
Proof.
  destruct (forward_replay no_xml not_json (fun _ => 0%N) (Bytes 100)
              (rollout [SessionMeta None] compacted_first) (new_context_manager, false)) as [[h seen]| |] eqn:E.
  - destruct (reconstruction_replays_rollout no_uuid no_xml not_json (fun _ => 0%N) (Bytes 100)
                [SessionMeta None] compacted_first h seen) as (r & Hr & Hi).
    + exact compacted_first_ok.
    + vm_compute. reflexivity.
    + vm_compute. reflexivity.
    + exact E.
    + exists r. split; [exact Hr|]. rewrite Hi. vm_compute in E. injection E as <- _. reflexivity.
  - vm_compute in E. discriminate.
  - vm_compute in E. discriminate.
Defined.

(** A compaction in the turn that is rolled back takes the first turn's
    messages with it, although its settings are found. *)
Theorem rolled_back_checkpoint_loses_history :
  exists r r', rebuilt plain = Done r /\ reconstructed_history r = [user "hello"]
    /\ rebuilt [first_turn; second_turn [checkpoint_of [user "hello"; user "bye"]]; Rollback 1] = Done r'
    /\ reconstructed_settings r' = Some (mkSettings (lit "model") None None)
    /\ reconstructed_reference r' = reconstructed_reference r
    /\ reconstructed_history r' = [].
Proof. do 2 eexists. split_and!; vm_compute; reflexivity. Qed.
End Examples.
