(* ===== verification/StreamText.v ===== *)
(** * StreamText: [codex-rs/utils/stream-parser/src/stream_text.rs]

    The interface of the incremental parsers of assistant text: text comes in
    pieces, each piece yields text that may be shown and payloads that were
    extracted.  [StreamLaws] is what the interface promises to its clients: how
    the text was cut does not matter, up to an equivalence on the payloads
    (some parsers emit runs of text as payloads, which a cut may split).  The
    parsers of InlineTag.v and TaggedLines.v implement it; Utf8Stream.v and
    AssistantText.v are clients. *)

From stdpp Require Import base list gmap strings.
From S2P Require Import Prelude.

Record StreamTextChunk (T : Type) := mkTextChunk {
  visible_text : rstr;
  extracted : list T
}.
Arguments mkTextChunk {T}.
Arguments visible_text {T}.
Arguments extracted {T}.

Definition empty_chunk {T} : StreamTextChunk T := mkTextChunk [] [].

Definition text_chunk_is_empty {T} (c : StreamTextChunk T) : bool :=
  is_empty (visible_text c) && is_empty (extracted c).

(** How every caller accumulates chunks: append both parts. *)
Definition chunk_app {T} (a b : StreamTextChunk T) : StreamTextChunk T :=
  mkTextChunk (visible_text a ++ visible_text b) (extracted a ++ extracted b).

Lemma chunk_app_assoc {T} (a b c : StreamTextChunk T) :
  chunk_app a (chunk_app b c) = chunk_app (chunk_app a b) c.
Proof. unfold chunk_app. simpl. by rewrite !app_assoc. Qed.

Lemma chunk_app_nil_l {T} (a : StreamTextChunk T) : chunk_app empty_chunk a = a.
Proof. by destruct a. Qed.

Lemma chunk_app_nil_r {T} (a : StreamTextChunk T) : chunk_app a empty_chunk = a.
Proof. destruct a. unfold chunk_app. simpl. by rewrite !app_nil_r. Qed.

#[export] Hint Rewrite @chunk_app_nil_l @chunk_app_nil_r : codex_rw.

(** The trait [StreamTextParser]; each method returns the state it leaves. *)
Class StreamTextParser (P E : Type) := {
  push_str : rstr -> P -> StreamTextChunk E * P;
  finish_stream : P -> StreamTextChunk E * P
}.

Fixpoint push_all {P E} `{!StreamTextParser P E} (chunks : list rstr) (p : P)
  : StreamTextChunk E * P :=
  match chunks with
  | [] => (empty_chunk, p)
  | c :: rest =>
      let '(out, p1) := push_str c p in
      let '(outs, p2) := push_all rest p1 in
      (chunk_app out outs, p2)
  end.

(** Everything a stream yields: the pieces, then the end. *)
Definition collect {P E} `{!StreamTextParser P E} (chunks : list rstr) (p : P)
  : StreamTextChunk E * P :=
  let '(out, p1) := push_all chunks p in
  let '(tail, p2) := finish_stream p1 in
  (chunk_app out tail, p2).

Class StreamLaws (P E : Type) `{!StreamTextParser P E} := {
  stream_inv : P -> Prop;
  ext_equiv : relation (list E);
  #[global] ext_equivalence :: Equivalence ext_equiv;
  #[global] ext_app_proper :: Proper (ext_equiv ==> ext_equiv ==> ext_equiv) (++);
  push_inv s p : stream_inv p -> stream_inv (push_str s p).2;
  finish_inv p : stream_inv p -> stream_inv (finish_stream p).2;
  push_nil p : stream_inv p -> push_str [] p = (empty_chunk, p);
  push_app_state a b p :
    stream_inv p -> (push_str (a ++ b) p).2 = (push_str b (push_str a p).2).2;
  push_app_visible a b p :
    stream_inv p ->
    visible_text (push_str (a ++ b) p).1
    = visible_text (push_str a p).1 ++ visible_text (push_str b (push_str a p).2).1;
  push_app_extracted a b p :
    stream_inv p ->
    ext_equiv (extracted (push_str (a ++ b) p).1)
      (extracted (push_str a p).1 ++ extracted (push_str b (push_str a p).2).1)
}.

Section laws.
Context {P E : Type} `{!StreamTextParser P E} `{!StreamLaws P E}.
Implicit Types (p : P) (c : StreamTextChunk E).

(** Chunks that show the same text and equivalent payloads. *)
Definition chunk_equiv (a b : StreamTextChunk E) : Prop :=
  visible_text a = visible_text b /\ ext_equiv (extracted a) (extracted b).

#[export] Instance chunk_equivalence : Equivalence chunk_equiv.
Proof.
  split.
  - by split.
  - intros a b [H1 H2]. by split.
  - intros a b c [H1 H2] [H3 H4]. split; [congruence|by transitivity (extracted b)].
Qed.

#[export] Instance chunk_app_proper :
  Proper (chunk_equiv ==> chunk_equiv ==> chunk_equiv) (@chunk_app E).
Proof.
  intros a a' [H1 H2] b b' [H3 H4]. split; simpl; [congruence|]. by rewrite H2, H4.
Qed.

Lemma push_app a b p :
  stream_inv p ->
  chunk_equiv (push_str (a ++ b) p).1
    (chunk_app (push_str a p).1 (push_str b (push_str a p).2).1).
Proof. intros Hp. split; simpl; [by apply push_app_visible|by apply push_app_extracted]. Qed.

Lemma push_all_inv chunks p : stream_inv p -> stream_inv (push_all chunks p).2.
Proof.
  revert p. induction chunks as [|c rest IH]; intros p Hp; simpl; [done|].
  pose proof (push_inv c p Hp) as H1. destruct (push_str c p) as [out p1]. simpl in H1.
  specialize (IH p1 H1). by destruct (push_all rest p1).
Qed.

(** Pushing the pieces is pushing their concatenation. *)
Lemma push_all_concat chunks p :
  stream_inv p ->
  chunk_equiv (push_all chunks p).1 (push_str (concat chunks) p).1 /\
  (push_all chunks p).2 = (push_str (concat chunks) p).2.
Proof.
  revert p. induction chunks as [|c rest IH]; intros p Hp; simpl.
  - by rewrite push_nil.
  - rewrite (push_app c (concat rest) p Hp), (push_app_state c (concat rest) p Hp).
    pose proof (push_inv c p Hp) as H1. destruct (push_str c p) as [out p1]. simpl in *.
    destruct (IH p1 H1) as [He Hs]. destruct (push_all rest p1) as [outs p2]. simpl in *.
    split; [by rewrite He|done].
Qed.

Lemma collect_concat chunks p :
  stream_inv p ->
  chunk_equiv (collect chunks p).1 (collect [concat chunks] p).1 /\
  (collect chunks p).2 = (collect [concat chunks] p).2.
Proof.
  intros Hp. destruct (push_all_concat chunks p Hp) as [He Hs]. unfold collect. simpl.
  destruct (push_all chunks p) as [out p1], (push_str (concat chunks) p) as [out' p1'].
  simpl in *. subst p1'. destruct (finish_stream p1) as [tail p2]. simpl.
  rewrite chunk_app_nil_r. split; [by rewrite He|done].
Qed.

(** A fact about everything a stream yields may be checked on the whole text. *)
Lemma collect_one s p :
  collect [s] p
  = (chunk_app (push_str s p).1 (finish_stream (push_str s p).2).1,
     (finish_stream (push_str s p).2).2).
Proof.
  unfold collect. simpl. destruct (push_str s p) as [out p1]. simpl.
  destruct (finish_stream p1) as [tail p2]. simpl. by rewrite chunk_app_nil_r.
Qed.
End laws.
