(* ===== verification/InlineTag.v ===== *)
(** * InlineTag: [codex-rs/utils/stream-parser/src/{inline_hidden_tag,citation}.rs]

    The parser that hides inline tags of streamed text and extracts their
    contents, and the citation parser on top of it.

    Positions are counted in characters instead of bytes: the searches return
    the same places, and every cut is between characters because delimiters
    are whole strings ([is_char_boundary] in [longest_suffix_prefix_len]).
    The [loop] of [push_str] runs on fuel; [inline_loop_terminates] shows that
    one iteration per pending character and one more are enough when no
    delimiter is empty, which [new] asserts. *)

From stdpp Require Import base list gmap strings.
From S2P Require Import Prelude StreamText.

Open Scope rust_scope.

(** ** Searching *)

(** [str::find] of a string *)
Fixpoint find_str (needle s : rstr) : option nat :=
  if starts_with needle s then Some 0
  else match s with [] => None | _ :: r => S <$> find_str needle r end.

(** [for k in (1..=max).rev() { if s.ends_with(&needle[..k]) { return k } } 0] *)
Fixpoint longest_from (k : nat) (s needle : rstr) : nat :=
  match k with
  | 0 => 0
  | S k' => if ends_with (take k needle) s then k else longest_from k' s needle
  end.

Definition longest_suffix_prefix_len (s needle : rstr) : nat :=
  longest_from (length s `min` (length needle - 1)) s needle.

#[global] Arguments longest_suffix_prefix_len : simpl never.

(** ** The parser *)

Section parser.
Context {T : Type}.

Record ExtractedInlineTag := mkTag { ex_tag : T; ex_content : rstr }.

Record InlineTagSpec := mkSpec { spec_tag : T; spec_open : rstr; spec_close : rstr }.

Record ActiveTag := mkActive { act_tag : T; act_close : rstr; act_content : rstr }.

Record InlineHiddenTagParser := mkInline {
  inline_specs : list InlineTagSpec;
  inline_pending : rstr;
  inline_active : option ActiveTag
}.

(** [InlineHiddenTagParser::new]: the assertions are panics. *)
Definition new_inline (specs : list InlineTagSpec) : outcome unit InlineHiddenTagParser :=
  if is_empty specs then Panic
  else if existsb (fun s => is_empty (spec_open s) || is_empty (spec_close s)) specs then Panic
  else Done (mkInline specs [] None).

(** The order of [min_by] in [find_next_open]: earlier, then longer, then
    first in the list. *)
Definition open_before (a b : nat * nat * nat) : bool :=
  let '(pos_a, len_a, idx_a) := a in
  let '(pos_b, len_b, idx_b) := b in
  (pos_a <? pos_b)
  || ((pos_a =? pos_b) && ((len_b <? len_a) || ((len_b =? len_a) && (idx_a <=? idx_b)))).

Fixpoint open_candidates (specs : list InlineTagSpec) (idx : nat) (pending : rstr)
  : list (nat * nat * nat) :=
  match specs with
  | [] => []
  | spec :: rest =>
      match find_str (spec_open spec) pending with
      | Some pos => [(pos, str_len (spec_open spec), idx)]
      | None => []
      end ++ open_candidates rest (S idx) pending
  end.

(** [Iterator::min_by] *)
Fixpoint min_open (l : list (nat * nat * nat)) : option (nat * nat * nat) :=
  match l with
  | [] => None
  | x :: rest =>
      match min_open rest with
      | None => Some x
      | Some y => Some (if open_before x y then x else y)
      end
  end.

Definition find_next_open (specs : list InlineTagSpec) (pending : rstr) : option (nat * nat) :=
  (fun '(pos, _, idx) => (pos, idx)) <$> min_open (open_candidates specs 0 pending).

Definition max_open_prefix_suffix_len (specs : list InlineTagSpec) (pending : rstr) : nat :=
  foldr Nat.max 0 ((fun spec => longest_suffix_prefix_len pending (spec_open spec)) <$> specs).

(** The rest of an iteration that leaves the loop: all but the last [keep]
    pending characters are passed on. *)
Definition split_keep (keep : nat) (pending : rstr) : rstr * rstr :=
  (take (length pending - keep) pending, drop (length pending - keep) pending).

(** One iteration: the output, the state, and whether the loop goes on. *)
Definition inline_step (p : InlineHiddenTagParser)
  : StreamTextChunk ExtractedInlineTag * InlineHiddenTagParser * bool :=
  let '(mkInline specs pending active) := p in
  match active with
  | Some act =>
      match find_str (act_close act) pending with
      | Some close_idx =>
          (mkTextChunk [] [mkTag (act_tag act) (act_content act ++ take close_idx pending)],
           mkInline specs (drop (close_idx + length (act_close act)) pending) None, true)
      | None =>
          let '(taken, kept) :=
            split_keep (longest_suffix_prefix_len pending (act_close act)) pending in
          (empty_chunk,
           mkInline specs kept
             (Some (mkActive (act_tag act) (act_close act) (act_content act ++ taken))), false)
      end
  | None =>
      match find_next_open specs pending with
      | Some (open_idx, spec_idx) =>
          match specs !! spec_idx with
          | Some spec =>
              (mkTextChunk (take open_idx pending) [],
               mkInline specs (drop (open_idx + length (spec_open spec)) pending)
                 (Some (mkActive (spec_tag spec) (spec_close spec) [])), true)
          | None => (empty_chunk, p, false)
          end
      | None =>
          let '(taken, kept) := split_keep (max_open_prefix_suffix_len specs pending) pending in
          (mkTextChunk taken [], mkInline specs kept None, false)
      end
  end.

(** The [loop], with whether it was left by [break]. *)
Fixpoint inline_loop (fuel : nat) (p : InlineHiddenTagParser)
  : StreamTextChunk ExtractedInlineTag * InlineHiddenTagParser * bool :=
  match fuel with
  | 0 => (empty_chunk, p, false)
  | S fuel' =>
      match inline_step p with
      | (out, p', false) => (out, p', true)
      | (out, p', true) =>
          let '(outs, p'', broke) := inline_loop fuel' p' in (chunk_app out outs, p'', broke)
      end
  end.

Definition push_pending (chunk : rstr) (p : InlineHiddenTagParser) : InlineHiddenTagParser :=
  mkInline (inline_specs p) (inline_pending p ++ chunk) (inline_active p).

Definition inline_fuel (p : InlineHiddenTagParser) : nat := S (length (inline_pending p)).

Definition inline_push_str (chunk : rstr) (p : InlineHiddenTagParser)
  : StreamTextChunk ExtractedInlineTag * InlineHiddenTagParser :=
  let p := push_pending chunk p in (inline_loop (inline_fuel p) p).1.

Definition inline_finish (p : InlineHiddenTagParser)
  : StreamTextChunk ExtractedInlineTag * InlineHiddenTagParser :=
  let '(mkInline specs pending active) := p in
  match active with
  | Some act =>
      (mkTextChunk [] [mkTag (act_tag act) (act_content act ++ pending)],
       mkInline specs [] None)
  | None => (mkTextChunk pending [], mkInline specs [] None)
  end.

#[export] Instance inline_stream_parser : StreamTextParser InlineHiddenTagParser ExtractedInlineTag := {
  push_str := inline_push_str;
  finish_stream := inline_finish
}.
End parser.
Arguments ExtractedInlineTag : clear implicits.
Arguments InlineTagSpec : clear implicits.
Arguments ActiveTag : clear implicits.
Arguments InlineHiddenTagParser : clear implicits.
#[global] Arguments split_keep : simpl never.
#[global] Arguments max_open_prefix_suffix_len : simpl never.

(** ** [citation.rs] *)

Inductive CitationTag := Citation.

Definition CITATION_OPEN : rstr := lit "<oai-mem-citation>".
Definition CITATION_CLOSE : rstr := lit "</oai-mem-citation>".

Record CitationStreamParser := mkCitation { citation_inner : InlineHiddenTagParser CitationTag }.

Definition citation_specs : list (InlineTagSpec CitationTag) :=
  [mkSpec Citation CITATION_OPEN CITATION_CLOSE].

Definition new_citation : CitationStreamParser := mkCitation (mkInline citation_specs [] None).

(** [CitationStreamParser::new] goes through the assertions of [new]. *)
Lemma new_citation_ok : mkCitation <$> new_inline citation_specs = Done new_citation.
Proof. reflexivity. Qed.

Definition contents_only (c : StreamTextChunk (ExtractedInlineTag CitationTag))
  : StreamTextChunk rstr :=
  mkTextChunk (visible_text c) (ex_content <$> extracted c).

#[export] Instance citation_stream_parser : StreamTextParser CitationStreamParser rstr := {
  push_str chunk p :=
    let '(inner, p') := push_str chunk (citation_inner p) in (contents_only inner, mkCitation p');
  finish_stream p :=
    let '(inner, p') := finish_stream (citation_inner p) in (contents_only inner, mkCitation p')
}.

Definition strip_citations (text : rstr) : rstr * list rstr :=
  let '(out, p) := push_str text new_citation in
  let '(tail, _) := finish_stream p in
  (visible_text out ++ visible_text tail, extracted out ++ extracted tail).

Example strip_citations_example :
  strip_citations (lit "a <oai-mem-citation>doc</oai-mem-citation> b <oai-mem-citation>open")
  = (lit "a  b ", [lit "doc"; lit "open"]).
Proof. vm_compute. reflexivity. Qed.

(** ** Occurrences *)

Definition occurs (n s : rstr) (i : nat) : Prop := exists r, drop i s = n ++ r.

(** The rest of the text from [j] on is a proper prefix of the needle. *)
Definition partial (n s : rstr) (j : nat) : Prop :=
  j < length s /\ exists r, r <> [] /\ n = drop j s ++ r.

Lemma starts_with_occurs n s : starts_with n s = true <-> occurs n s 0.
Proof.
  unfold starts_with, occurs. rewrite drop_0. destruct (strip_prefix n s) as [r|] eqn:E.
  - apply strip_prefix_Some in E. split; [by exists r|done].
  - split; [done|]. intros [r ->]. by rewrite strip_prefix_app in E.
Qed.

Lemma find_str_None n s : find_str n s = None <-> forall i, ~ occurs n s i.
Proof.
  induction s as [|c s IH]; cbn [find_str].
  - destruct (starts_with n []) eqn:E.
    + apply starts_with_occurs in E. split; [done|]. intros H. by destruct (H 0).
    + split; [intros _ i [r Hr]|done]. apply not_true_iff_false in E. apply E, starts_with_occurs.
      exists r. rewrite drop_nil in Hr. by rewrite drop_nil.
  - destruct (starts_with n (c :: s)) eqn:E.
    + apply starts_with_occurs in E. split; [done|]. intros H. by destruct (H 0).
    + rewrite fmap_None, IH. apply not_true_iff_false in E. rewrite starts_with_occurs in E.
      split; [intros H [|i]; [done|apply (H i)]|intros H i; apply (H (S i))].
Qed.

Lemma find_str_Some n s i :
  find_str n s = Some i <-> occurs n s i /\ forall j, j < i -> ~ occurs n s j.
Proof.
  revert i. induction s as [|c s IH]; intros i; cbn [find_str].
  all: destruct (starts_with n _) eqn:E.
  1,3: apply starts_with_occurs in E; split;
    [intros [= <-]; split; [done|lia]|intros [_ H]; destruct i; [done|by destruct (H 0); [lia|]]].
  all: apply not_true_iff_false in E; rewrite starts_with_occurs in E.
  - split; [done|]. intros [[r Hr] _]. exfalso. apply E. exists r. rewrite drop_nil in *. done.
  - rewrite fmap_Some. split.
    + intros (k & Hk & ->). apply IH in Hk as [Ho Hf]. split; [exact Ho|].
      intros [|j] Hj; [done|]. apply (Hf j). lia.
    + intros [Ho Hf]. destruct i as [|i]; [done|]. exists i. split; [|done]. apply IH.
      split; [exact Ho|]. intros j Hj. apply (Hf (S j)). lia.
Qed.

Lemma occurs_le n s i : n <> [] -> occurs n s i -> i + length n <= length s.
Proof.
  intros Hn [r Hr]. apply (f_equal length) in Hr. rewrite length_drop, length_app in Hr.
  destruct n; [done|]. simpl in *. lia.
Qed.

Lemma occurs_app n s b i : n <> [] -> occurs n s i -> occurs n (s ++ b) i.
Proof.
  intros Hn Ho. pose proof (occurs_le _ _ _ Hn Ho) as Hl. destruct Ho as [r Hr].
  exists (r ++ b). rewrite drop_app_le by lia. by rewrite Hr, <- app_assoc.
Qed.

(** An occurrence in [x ++ b] is in [x], starts in [b], or straddles. *)
Lemma occurs_app_inv n x b i :
  occurs n (x ++ b) i -> i < length x ->
  occurs n x i \/ partial n x i.
Proof.
  intros [r Hr] Hi. rewrite drop_app_le in Hr by lia.
  destruct (decide (length n <= length (drop i x))) as [Hl|Hl].
  - left. exists (drop (length n) (drop i x)).
    apply (f_equal (take (length n))) in Hr. rewrite take_app_le, take_app_length in Hr by done.
    rewrite <- Hr at 1. by rewrite take_drop.
  - right. split; [done|]. exists (drop (length (drop i x)) n). split.
    + intros H. apply (f_equal length) in H. rewrite length_drop in H. simpl in H. lia.
    + apply (f_equal (take (length (drop i x)))) in Hr.
      rewrite take_app_length, take_app_le in Hr by lia. rewrite Hr at 1. by rewrite take_drop.
Qed.

Lemma occurs_shift n v y i : occurs n (v ++ y) (length v + i) <-> occurs n y i.
Proof.
  unfold occurs. rewrite (drop_app_ge v) by lia. by replace (length v + i - length v) with i by lia.
Qed.

Lemma partial_shift n v y j : partial n (v ++ y) (length v + j) <-> partial n y j.
Proof.
  unfold partial. rewrite (drop_app_ge v), length_app by lia.
  replace (length v + j - length v) with j by lia. split; intros [? ?]; (split; [lia|done]).
Qed.

Lemma partial_app n x b j : partial n (x ++ b) j -> j < length x -> partial n x j.
Proof.
  intros [_ (r & Hr & ->)] Hj. split; [done|]. exists (b ++ r).
  rewrite drop_app_le, app_assoc by lia. split; [|done]. by intros [_ ?]%app_eq_nil.
Qed.

(** ** How much is kept *)

Lemma ends_with_partial n s k :
  1 <= k -> k <= length s -> k < length n ->
  ends_with (take k n) s = true <-> partial n s (length s - k).
Proof.
  intros H1 H2 H3. unfold ends_with, partial. destruct (strip_suffix (take k n) s) as [r|] eqn:E.
  - apply strip_suffix_Some in E. split; [|done]. intros _.
    assert (length (take k n) = k) as Hk by (rewrite length_take; lia).
    assert (length s - k = length r) as -> by (rewrite E, length_app; lia).
    split; [rewrite E, length_app; lia|]. exists (drop k n). split.
    + intros Hd. apply (f_equal length) in Hd. rewrite length_drop in Hd. simpl in Hd. lia.
    + rewrite E, drop_app_length. by rewrite take_drop.
  - split; [done|]. intros [_ (r & Hr & Hn)].
    assert (take k n = drop (length s - k) s) as Ht.
    { rewrite Hn, take_app_le by (rewrite length_drop; lia).
      apply take_ge. rewrite length_drop. lia. }
    assert (strip_suffix (take k n) s = Some (take (length s - k) s)) as He; [|congruence].
    apply strip_suffix_Some. rewrite Ht. by rewrite take_drop.
Qed.

Lemma longest_from_le k s n : longest_from k s n <= k.
Proof. induction k as [|k IH]; cbn; [done|]. destruct (ends_with _ _); lia. Qed.

Lemma longest_from_max k s n j :
  1 <= j <= k -> ends_with (take j n) s = true -> j <= longest_from k s n.
Proof.
  induction k as [|k IH]; intros Hj He; [lia|]. cbn [longest_from].
  destruct (ends_with (take (S k) n) s) eqn:E; [lia|].
  destruct (decide (j = S k)) as [->|]; [congruence|]. apply IH; [lia|done].
Qed.

Lemma longest_from_ends k s n :
  0 < longest_from k s n -> ends_with (take (longest_from k s n) n) s = true.
Proof.
  induction k as [|k IH]; cbn [longest_from]; [lia|].
  destruct (ends_with (take (S k) n) s) eqn:E; auto.
Qed.

Lemma keep_len_max s n j : partial n s j -> length s - j <= longest_suffix_prefix_len s n.
Proof.
  intros Hp. pose proof Hp as [Hj (r & Hr & Hn)].
  assert (length s - j < length n).
  { rewrite Hn, length_app, length_drop. destruct r; [done|simpl; lia]. }
  apply longest_from_max; [lia|]. apply ends_with_partial; [lia..|].
  by replace (length s - (length s - j)) with j by lia.
Qed.

Lemma keep_len_le s n : longest_suffix_prefix_len s n <= length s.
Proof. unfold longest_suffix_prefix_len. etrans; [apply longest_from_le|lia]. Qed.

Lemma keep_len_partial s n :
  0 < longest_suffix_prefix_len s n ->
  partial n s (length s - longest_suffix_prefix_len s n).
Proof.
  intros H. unfold longest_suffix_prefix_len in *.
  pose proof (longest_from_le (length s `min` (length n - 1)) s n).
  apply ends_with_partial; [lia..|]. by apply longest_from_ends.
Qed.

(** Text in which nothing that is kept starts does not change what is kept. *)
Lemma keep_len_drop v y n :
  (forall j, j < length v -> ~ partial n (v ++ y) j) ->
  longest_suffix_prefix_len (v ++ y) n = longest_suffix_prefix_len y n.
Proof.
  intros Hv. apply Nat.le_antisymm.
  - destruct (decide (longest_suffix_prefix_len (v ++ y) n = 0)) as [->|]; [lia|].
    pose proof (keep_len_partial (v ++ y) n ltac:(lia)) as Hp.
    pose proof (keep_len_le (v ++ y) n) as Hl. rewrite length_app in Hl, Hp.
    set (k := longest_suffix_prefix_len (v ++ y) n) in *.
    destruct (decide (length v + length y - k < length v)) as [Hlt|Hge].
    + by destruct (Hv _ Hlt).
    + replace (length v + length y - k) with (length v + (length y - k)) in Hp by lia.
      apply partial_shift, keep_len_max in Hp. lia.
  - destruct (decide (longest_suffix_prefix_len y n = 0)) as [->|]; [lia|].
    pose proof (keep_len_partial y n ltac:(lia)) as Hp. apply (partial_shift n v) in Hp.
    apply keep_len_max in Hp. pose proof (keep_len_le y n). rewrite length_app in Hp. lia.
Qed.

Lemma find_str_drop v y n :
  (forall j, j < length v -> ~ occurs n (v ++ y) j) ->
  find_str n (v ++ y) = Nat.add (length v) <$> find_str n y.
Proof.
  intros Hv. destruct (find_str n y) as [i|] eqn:E; simpl.
  - apply find_str_Some in E as [Ho Hf]. apply find_str_Some. split; [by apply occurs_shift|].
    intros j Hj Hoj. destruct (decide (j < length v)); [by apply (Hv j)|].
    replace j with (length v + (j - length v)) in Hoj by lia.
    apply occurs_shift in Hoj. apply (Hf (j - length v)); [lia|done].
  - apply find_str_None. intros j Hoj. rewrite find_str_None in E.
    destruct (decide (j < length v)); [by apply (Hv j)|].
    replace j with (length v + (j - length v)) in Hoj by lia.
    apply occurs_shift in Hoj. by apply (E (j - length v)).
Qed.

(** ** The opener that is found *)

Section openers.
Context {T : Type}.
Implicit Types (specs : list (InlineTagSpec T)) (spec : InlineTagSpec T).

(** Occurrence [pos] of opener [idx] comes first. *)
Definition best specs (s : rstr) (pos idx : nat) : Prop :=
  exists spec, specs !! idx = Some spec /\ occurs (spec_open spec) s pos /\
  forall idx' spec' pos', specs !! idx' = Some spec' -> occurs (spec_open spec') s pos' ->
  open_before (pos, str_len (spec_open spec), idx)
    (pos', str_len (spec_open spec'), idx') = true.

Definition no_opener specs (s : rstr) : Prop :=
  forall spec i, spec ∈ specs -> ~ occurs (spec_open spec) s i.

Lemma open_before_antisym a b : open_before a b = true -> open_before b a = true -> a = b.
Proof.
  destruct a as [[p1 l1] i1], b as [[p2 l2] i2]. unfold open_before.
  rewrite !orb_true_iff, !andb_true_iff, !orb_true_iff, !andb_true_iff,
    !Nat.ltb_lt, !Nat.eqb_eq, !Nat.leb_le.
  intros H1 H2. assert (p1 = p2 /\ l1 = l2 /\ i1 = i2) as (-> & -> & ->) by lia. done.
Qed.

Lemma open_before_trans a b c :
  open_before a b = true -> open_before b c = true -> open_before a c = true.
Proof.
  destruct a as [[p1 l1] i1], b as [[p2 l2] i2], c as [[p3 l3] i3]. unfold open_before.
  rewrite !orb_true_iff, !andb_true_iff, !orb_true_iff, !andb_true_iff,
    !Nat.ltb_lt, !Nat.eqb_eq, !Nat.leb_le. lia.
Qed.

Lemma open_before_total a b : open_before a b = true \/ open_before b a = true.
Proof.
  destruct a as [[p1 l1] i1], b as [[p2 l2] i2]. unfold open_before.
  rewrite !orb_true_iff, !andb_true_iff, !orb_true_iff, !andb_true_iff,
    !Nat.ltb_lt, !Nat.eqb_eq, !Nat.leb_le. lia.
Qed.

Lemma open_before_refl a : open_before a a = true.
Proof. by destruct (open_before_total a a). Qed.

Lemma open_before_later p p' l i : p <= p' -> open_before (p, l, i) (p', l, i) = true.
Proof.
  unfold open_before. rewrite !orb_true_iff, !andb_true_iff, !orb_true_iff, !andb_true_iff,
    !Nat.ltb_lt, !Nat.eqb_eq, !Nat.leb_le. lia.
Qed.

Lemma min_open_None l : min_open l = None <-> l = [].
Proof. destruct l as [|x l]; simpl; [done|]. destruct (min_open l); done. Qed.

Lemma min_open_Some l m :
  min_open l = Some m -> m ∈ l /\ forall x, x ∈ l -> open_before m x = true.
Proof.
  revert m. induction l as [|x l IH]; intros m; simpl; [done|].
  destruct (min_open l) as [y|] eqn:E.
  - intros [= <-]. destruct (IH y eq_refl) as [Hy Hmin]. destruct (open_before x y) eqn:Exy.
    + split; [left|]. intros z [->|Hz]%elem_of_cons; [apply open_before_refl|].
      eapply open_before_trans; eauto.
    + split; [by right|]. intros z [->|Hz]%elem_of_cons; [|auto].
      destruct (open_before_total x y); congruence.
  - intros [= <-]. apply min_open_None in E as ->. split; [left|].
    intros z ->%list_elem_of_singleton. apply open_before_refl.
Qed.

Lemma open_candidates_elem specs k s pos len idx :
  (pos, len, idx) ∈ open_candidates specs k s <->
  exists spec, k <= idx /\ specs !! (idx - k) = Some spec /\
    find_str (spec_open spec) s = Some pos /\ len = str_len (spec_open spec).
Proof.
  revert k. induction specs as [|spec specs IH]; intros k; simpl.
  - rewrite elem_of_nil. split; [done|]. intros (? & _ & H & _). by rewrite lookup_nil in H.
  - rewrite elem_of_app, IH. split.
    + intros [H|(spec' & Hk & Hl & Hf)].
      * destruct (find_str (spec_open spec) s) as [q|] eqn:E; [|by apply elem_of_nil in H].
        apply list_elem_of_singleton in H as [= -> -> ->].
        exists spec. rewrite Nat.sub_diag. by split_and!.
      * exists spec'. split; [lia|]. by replace (idx - k) with (S (idx - S k)) by lia.
    + intros (spec' & Hk & Hl & Hf & ->). destruct (decide (idx = k)) as [->|].
      * left. rewrite Nat.sub_diag in Hl. simplify_eq/=. rewrite Hf.
        by apply list_elem_of_singleton.
      * right. exists spec'. replace (idx - k) with (S (idx - S k)) in Hl by lia. split; [lia|done].
Qed.

Lemma find_next_open_None specs s : find_next_open specs s = None <-> no_opener specs s.
Proof.
  unfold find_next_open. rewrite fmap_None, min_open_None. split.
  - intros H spec i Hs Ho. apply list_elem_of_lookup in Hs as [idx Hs].
    destruct (find_str (spec_open spec) s) as [pos|] eqn:E; [|rewrite find_str_None in E; by destruct (E i)].
    assert ((pos, str_len (spec_open spec), idx) ∈ open_candidates specs 0 s) as Hin.
    { apply open_candidates_elem. exists spec. rewrite Nat.sub_0_r. by split_and!; [lia| | |]. }
    rewrite H in Hin. by apply elem_of_nil in Hin.
  - intros H. destruct (open_candidates specs 0 s) as [|[[pos len] idx] l] eqn:E; [done|].
    assert ((pos, len, idx) ∈ open_candidates specs 0 s) as Hin by (rewrite E; left).
    apply open_candidates_elem in Hin as (spec & _ & Hl & Hf & _).
    apply find_str_Some in Hf as [Ho _].
    destruct (H spec pos); [|done]. by eapply list_elem_of_lookup_2.
Qed.

Lemma best_unique specs s p i p' i' : best specs s p i -> best specs s p' i' -> p = p' /\ i = i'.
Proof.
  intros (spec & Hs & Ho & Hb) (spec' & Hs' & Ho' & Hb').
  pose proof (open_before_antisym _ _ (Hb _ _ _ Hs' Ho') (Hb' _ _ _ Hs Ho)). by simplify_eq.
Qed.

Lemma find_next_open_best specs s pos idx :
  find_next_open specs s = Some (pos, idx) -> best specs s pos idx.
Proof.
  unfold find_next_open. intros ([[p l] i] & Hm & [= -> ->])%fmap_Some.
  apply min_open_Some in Hm as [Hin Hmin].
  apply open_candidates_elem in Hin as (spec & _ & Hs & Hf & ->). rewrite Nat.sub_0_r in Hs.
  exists spec. split; [done|]. split; [by apply find_str_Some in Hf as [? _]|].
  intros idx' spec' pos' Hs' Ho'.
  destruct (find_str (spec_open spec') s) as [q|] eqn:E.
  - eapply open_before_trans.
    + apply (Hmin (q, str_len (spec_open spec'), idx')). apply open_candidates_elem.
      exists spec'. rewrite Nat.sub_0_r. by split_and!; [lia| | |].
    + apply open_before_later. apply find_str_Some in E as [_ Hq].
      destruct (decide (q <= pos')); [done|]. destruct (Hq pos'); [lia|done].
  - rewrite find_str_None in E. by destruct (E pos').
Qed.

Lemma find_next_open_Some specs s pos idx :
  find_next_open specs s = Some (pos, idx) <-> best specs s pos idx.
Proof.
  split; [apply find_next_open_best|]. intros Hb.
  destruct (find_next_open specs s) as [[p i]|] eqn:E.
  - apply find_next_open_best in E. by destruct (best_unique _ _ _ _ _ _ Hb E) as [-> ->].
  - apply find_next_open_None in E. destruct Hb as (spec & Hs & Ho & _).
    destruct (E spec pos); [|done]. by eapply list_elem_of_lookup_2.
Qed.

(** No opener is part of another one: then more text cannot reveal an earlier
    or longer opener around one that is complete. *)
Definition infix_free specs : Prop :=
  forall s1 s2 a b, s1 ∈ specs -> s2 ∈ specs ->
  spec_open s2 = a ++ spec_open s1 ++ b -> spec_open s1 = spec_open s2.

Definition delims_ok specs : Prop :=
  Forall (fun s => spec_open s <> [] /\ spec_close s <> []) specs.

Lemma delims_ok_open specs spec : delims_ok specs -> spec ∈ specs -> spec_open spec <> [].
Proof. unfold delims_ok. rewrite Forall_forall. intros H Hs. by apply H. Qed.

Lemma best_app specs x b pos idx :
  delims_ok specs -> infix_free specs -> best specs x pos idx -> best specs (x ++ b) pos idx.
Proof.
  intros Hd Hfree (spec & Hs & Ho & Hb). pose proof (list_elem_of_lookup_2 _ _ _ Hs) as Hin.
  pose proof (delims_ok_open _ _ Hd Hin) as Hne.
  exists spec. split; [done|]. split; [by apply occurs_app|].
  intros idx' spec' pos' Hs' Ho'. pose proof (list_elem_of_lookup_2 _ _ _ Hs') as Hin'.
  destruct (decide (pos < pos')) as [Hlt|Hge].
  { unfold open_before. by rewrite (proj2 (Nat.ltb_lt _ _) Hlt). }
  pose proof (occurs_le _ _ _ Hne Ho) as Hle.
  assert (0 < length (spec_open spec)) by (destruct (spec_open spec); [done|simpl; lia]).
  destruct (occurs_app_inv (spec_open spec') x b pos' Ho' ltac:(lia)) as [Hx|[Hp (r & Hr & Hn)]];
    [by eapply Hb|].
  (* the found opener lies inside the straddling one *)
  destruct Ho as [r1 Hr1]. exfalso.
  assert (spec_open spec' = take (pos - pos') (drop pos' x) ++ spec_open spec ++ (r1 ++ r)) as Hfull.
  { rewrite Hn. rewrite <- (take_drop (pos - pos') (drop pos' x)) at 1.
    rewrite drop_drop. replace (pos' + (pos - pos')) with pos by lia.
    rewrite Hr1, <- !app_assoc. done. }
  pose proof (Hfree spec spec' _ _ Hin Hin' Hfull) as Heq.
  rewrite <- Heq in Hfull. apply (f_equal length) in Hfull. rewrite !length_app in Hfull.
  destruct r; [done|]. simpl in Hfull. lia.
Qed.

Lemma best_shift specs v y pos idx :
  (forall spec j, spec ∈ specs -> j < length v -> ~ occurs (spec_open spec) (v ++ y) j) ->
  best specs y pos idx -> best specs (v ++ y) (length v + pos) idx.
Proof.
  intros Hv (spec & Hs & Ho & Hb). exists spec. split; [done|]. split; [by apply occurs_shift|].
  intros idx' spec' pos' Hs' Ho'. pose proof (list_elem_of_lookup_2 _ _ _ Hs') as Hin'.
  destruct (decide (pos' < length v)) as [Hlt|Hge]; [by destruct (Hv _ _ Hin' Hlt)|].
  replace pos' with (length v + (pos' - length v)) in Ho' by lia. apply occurs_shift in Ho'.
  specialize (Hb _ _ _ Hs' Ho'). revert Hb. unfold open_before.
  rewrite !orb_true_iff, !andb_true_iff, !orb_true_iff, !andb_true_iff,
    !Nat.ltb_lt, !Nat.eqb_eq, !Nat.leb_le. lia.
Qed.

(** What is kept of text without an opener starts before every opener that
    more text may complete. *)
Lemma kept_before n x b j :
  (forall i, ~ occurs n x i) -> n <> [] ->
  occurs n (x ++ b) j \/ partial n (x ++ b) j ->
  length x - longest_suffix_prefix_len x n <= j.
Proof.
  intros Hno Hn Hj. destruct (decide (j < length x)) as [Hlt|]; [|lia].
  assert (partial n x j) as Hp%keep_len_max; [|lia].
  destruct Hj as [Ho|Hp]; [|by eapply partial_app].
  apply occurs_app_inv in Ho as [Ho|?]; [by destruct (Hno j)|done..].
Qed.

Lemma max_open_ge specs s spec :
  spec ∈ specs -> longest_suffix_prefix_len s (spec_open spec) <= max_open_prefix_suffix_len specs s.
Proof.
  unfold max_open_prefix_suffix_len. induction specs as [|x specs IH]; [by intros ?%elem_of_nil|].
  intros [->|H]%elem_of_cons; cbn [fmap list_fmap foldr]; [lia|].
  specialize (IH H). cbn [fmap] in IH. lia.
Qed.

Lemma max_open_le specs s : max_open_prefix_suffix_len specs s <= length s.
Proof.
  unfold max_open_prefix_suffix_len.
  induction specs as [|x specs IH]; cbn [fmap list_fmap foldr] in *; [lia|].
  pose proof (keep_len_le s (spec_open x)). lia.
Qed.

Lemma max_open_ext specs s s' :
  (forall spec, spec ∈ specs -> longest_suffix_prefix_len s (spec_open spec)
    = longest_suffix_prefix_len s' (spec_open spec)) ->
  max_open_prefix_suffix_len specs s = max_open_prefix_suffix_len specs s'.
Proof.
  intros H. unfold max_open_prefix_suffix_len. f_equal. apply list_fmap_ext.
  intros i spec Hs. apply H. by eapply list_elem_of_lookup_2.
Qed.
End openers.

(** ** The loop *)

Section loop.
Context {T : Type}.
Implicit Types (p : InlineHiddenTagParser T) (specs : list (InlineTagSpec T)).

(** No delimiter is empty: what [new] asserts and the parser keeps. *)
Definition parser_ok p : Prop :=
  delims_ok (inline_specs p) /\
  forall act, inline_active p = Some act -> act_close act <> [].

Lemma inline_step_ok p out p' b :
  parser_ok p -> inline_step p = (out, p', b) -> parser_ok p' /\ inline_specs p' = inline_specs p.
Proof.
  destruct p as [specs pending active]. intros [Hd Ha]. unfold inline_step, split_keep.
  destruct active as [act|].
  - specialize (Ha act eq_refl). destruct (find_str _ _); intros [= <- <- <-]; split; try done;
      (split; [done|]); simpl; intros ? [= <-]; done.
  - destruct (find_next_open specs pending) as [[i idx]|] eqn:E.
    + destruct (specs !! idx) as [spec|] eqn:Es; intros [= <- <- <-]; [|done].
      split; [|done]. split; [done|]. intros ? [= <-]. simpl.
      pose proof Hd as Hall. unfold delims_ok in Hall. simpl in Hall.
      rewrite Forall_forall in Hall. apply Hall. by eapply list_elem_of_lookup_2.
    + intros [= <- <- <-]. split; [|done]. by split.
Qed.

(** Going on consumes a delimiter. *)
Lemma inline_step_decreases p out p' :
  parser_ok p -> inline_step p = (out, p', true) ->
  length (inline_pending p') < length (inline_pending p).
Proof.
  destruct p as [specs pending active]. intros [Hd Ha]. unfold inline_step, split_keep.
  destruct active as [act|].
  - specialize (Ha act eq_refl). destruct (find_str _ _) as [i|] eqn:E; intros [= <- <-]; simpl.
    apply find_str_Some in E as [Ho%occurs_le _]; [|done]. rewrite length_drop.
    destruct (act_close act); [done|]. simpl in *. lia.
  - destruct (find_next_open specs pending) as [[i idx]|] eqn:E; [|by intros [=]].
    apply find_next_open_Some in E as (spec & Hs & Ho & _). rewrite Hs. intros [= <- <-]. simpl.
    pose proof (delims_ok_open _ _ Hd (list_elem_of_lookup_2 _ _ _ Hs)) as Hne.
    apply occurs_le in Ho; [|done]. rewrite length_drop.
    destruct (spec_open spec); [done|]. simpl in *. lia.
Qed.

Lemma inline_loop_fuel fuel p :
  parser_ok p -> length (inline_pending p) < fuel ->
  inline_loop fuel p = inline_loop (inline_fuel p) p /\ (inline_loop fuel p).2 = true.
Proof.
  revert p. induction fuel as [fuel IH] using lt_wf_ind. intros p Hok Hf.
  destruct fuel as [|fuel]; [lia|]. unfold inline_fuel. cbn [inline_loop].
  destruct (inline_step p) as [[out p'] []] eqn:E; [|done].
  pose proof (inline_step_decreases _ _ _ Hok E) as Hdec.
  destruct (inline_step_ok _ _ _ _ Hok E) as [Hok' _].
  destruct (IH fuel ltac:(lia) p' Hok' ltac:(lia)) as [H1 H2].
  rewrite H1. rewrite H1 in H2.
  destruct (decide (length (inline_pending p) = fuel)) as [<-|].
  - rewrite H1. by destruct (inline_loop (inline_fuel p') p') as [[? ?] ?].
  - destruct (IH (length (inline_pending p)) ltac:(lia) p' Hok' Hdec) as [H3 _]. rewrite H3.
    by destruct (inline_loop (inline_fuel p') p') as [[? ?] ?].
Qed.

(** What the loop does, without fuel. *)
Definition run p : StreamTextChunk (ExtractedInlineTag T) * InlineHiddenTagParser T :=
  (inline_loop (inline_fuel p) p).1.

Lemma run_step p :
  parser_ok p ->
  run p = match inline_step p with
          | (out, p', false) => (out, p')
          | (out, p', true) => (chunk_app out (run p').1, (run p').2)
          end.
Proof.
  intros Hok. unfold run at 1, inline_fuel. cbn [inline_loop].
  destruct (inline_step p) as [[out p'] []] eqn:E; [|done].
  pose proof (inline_step_decreases _ _ _ Hok E) as Hdec.
  destruct (inline_step_ok _ _ _ _ Hok E) as [Hok' _].
  destruct (inline_loop_fuel _ p' Hok' Hdec) as [-> _]. unfold run.
  by destruct (inline_loop (inline_fuel p') p') as [[? ?] ?].
Qed.

Lemma run_ok p : parser_ok p -> parser_ok (run p).2 /\ inline_specs (run p).2 = inline_specs p.
Proof.
  remember (length (inline_pending p)) as n eqn:Hn. revert p Hn.
  induction n as [n IH] using lt_wf_ind. intros p -> Hok. rewrite run_step by done.
  destruct (inline_step p) as [[out p'] []] eqn:E.
  - pose proof (inline_step_decreases _ _ _ Hok E) as Hdec.
    destruct (inline_step_ok _ _ _ _ Hok E) as [Hok' Hs]. simpl.
    destruct (IH _ Hdec p' eq_refl Hok') as [? ->]. done.
  - by apply (inline_step_ok p out p' false).
Qed.

Lemma split_keep_app v y k :
  k <= length y ->
  split_keep k (v ++ y) = (v ++ (split_keep k y).1, (split_keep k y).2).
Proof.
  intros Hk. unfold split_keep. simpl. rewrite length_app.
  replace (length v + length y - k) with (length v + (length y - k)) by lia.
  by rewrite take_app_add, drop_app_add.
Qed.

(** *** Inside a tag *)

(** The pending text of an open tag may be taken over into its content. *)
Lemma run_active_take specs act x b :
  parser_ok (mkInline specs x (Some act)) ->
  find_str (act_close act) x = None ->
  let k := longest_suffix_prefix_len x (act_close act) in
  run (mkInline specs (x ++ b) (Some act))
  = run (mkInline specs ((split_keep k x).2 ++ b)
           (Some (mkActive (act_tag act) (act_close act) (act_content act ++ (split_keep k x).1)))).
Proof.
  intros Hok Hf k. pose proof (proj2 Hok act eq_refl) as Hne. rewrite find_str_None in Hf.
  pose proof (keep_len_le x (act_close act)) as Hk. fold k in Hk.
  rewrite (run_step (mkInline specs (x ++ b) _)) by by destruct Hok.
  rewrite (run_step (mkInline specs (_ ++ b) _))
    by (destruct Hok as [Hd _]; split; [done|]; by intros ? [= <-]).
  unfold inline_step. cbn [act_close act_tag act_content].
  set (v := (split_keep k x).1). set (x' := (split_keep k x).2).
  assert (Hx : x = v ++ x') by (unfold v, x', split_keep; simpl; by rewrite take_drop).
  assert (Hv : length v = length x - k) by (unfold v, split_keep; simpl; rewrite length_take; lia).
  assert (Hb : forall j, occurs (act_close act) (x ++ b) j \/ partial (act_close act) (x ++ b) j ->
    length v <= j) by (intros j Hj; rewrite Hv; by eapply kept_before).
  assert (Hxb : x ++ b = v ++ (x' ++ b)) by (rewrite Hx at 1; by rewrite <- app_assoc).
  rewrite Hxb in *.
  rewrite find_str_drop by (intros j Hj Ho; specialize (Hb j (or_introl Ho)); lia).
  rewrite keep_len_drop by (intros j Hj Ho; specialize (Hb j (or_intror Ho)); lia).
  destruct (find_str (act_close act) (x' ++ b)) as [i|]; cbn [fmap option_fmap option_map].
  - by rewrite <- Nat.add_assoc, take_app_add, drop_app_add, <- app_assoc.
  - rewrite split_keep_app by apply keep_len_le.
    destruct (split_keep _ (x' ++ b)) as [t kd]. simpl. by rewrite app_assoc.
Qed.

(** *** Outside *)

Lemma run_outside_take specs x b :
  parser_ok (mkInline specs x None) ->
  find_next_open specs x = None ->
  let k := max_open_prefix_suffix_len specs x in
  run (mkInline specs (x ++ b) None)
  = (chunk_app (mkTextChunk (split_keep k x).1 [])
       (run (mkInline specs ((split_keep k x).2 ++ b) None)).1,
     (run (mkInline specs ((split_keep k x).2 ++ b) None)).2).
Proof.
  intros Hok Hf k. rewrite find_next_open_None in Hf.
  pose proof (max_open_le specs x) as Hk. fold k in Hk.
  rewrite (run_step (mkInline specs (x ++ b) _)) by by destruct Hok.
  rewrite (run_step (mkInline specs (_ ++ b) _)) by by destruct Hok.
  unfold inline_step.
  set (v := (split_keep k x).1). set (x' := (split_keep k x).2).
  assert (Hx : x = v ++ x') by (unfold v, x', split_keep; simpl; by rewrite take_drop).
  assert (Hv : length v = length x - k) by (unfold v, split_keep; simpl; rewrite length_take; lia).
  assert (Hb : forall spec j, spec ∈ specs ->
    occurs (spec_open spec) (x ++ b) j \/ partial (spec_open spec) (x ++ b) j -> length v <= j).
  { intros spec j Hs Hj. rewrite Hv. pose proof (max_open_ge specs x spec Hs) as Hge. fold k in Hge.
    apply kept_before in Hj; [lia|intros i; by apply Hf|]. by eapply delims_ok_open; [apply Hok|]. }
  assert (Hxb : x ++ b = v ++ (x' ++ b)) by (rewrite Hx at 1; by rewrite <- app_assoc).
  rewrite Hxb in *.
  rewrite (max_open_ext specs (v ++ x' ++ b) (x' ++ b)).
  2:{ intros spec Hs. apply keep_len_drop. intros j Hj Ho.
      specialize (Hb spec j Hs (or_intror Ho)). lia. }
  destruct (find_next_open specs (x' ++ b)) as [[i idx]|] eqn:E.
  - apply find_next_open_Some in E. pose proof E as (spec & Hs & _). rewrite Hs.
    apply (best_shift specs v) in E.
    2:{ intros spec' j Hs' Hj Ho. specialize (Hb spec' j Hs' (or_introl Ho)). lia. }
    apply find_next_open_Some in E. rewrite E, Hs. simpl.
    rewrite <- Nat.add_assoc, take_app_add, drop_app_add, chunk_app_assoc. done.
  - assert (find_next_open specs (v ++ x' ++ b) = None) as ->.
    { apply find_next_open_None. rewrite find_next_open_None in E. intros spec j Hs Ho.
      specialize (Hb spec j Hs (or_introl Ho)).
      replace j with (length v + (j - length v)) in Ho by lia. apply occurs_shift in Ho.
      by apply (E spec (j - length v)). }
    rewrite split_keep_app by apply max_open_le.
    by destruct (split_keep _ (x' ++ b)) as [t kd].
Qed.

(** Running on a prefix first does not change anything. *)
Lemma run_app specs x b active :
  parser_ok (mkInline specs x active) -> infix_free specs ->
  run (mkInline specs (x ++ b) active)
  = (chunk_app (run (mkInline specs x active)).1
       (run (push_pending b (run (mkInline specs x active)).2)).1,
     (run (push_pending b (run (mkInline specs x active)).2)).2).
Proof.
  remember (length x) as n eqn:Hn. revert x active Hn.
  induction n as [n IH] using lt_wf_ind. intros x active -> Hok Hfree.
  pose proof (run_step _ Hok) as Hrun.
  destruct (inline_step (mkInline specs x active)) as [[out p'] []] eqn:E.
  - (* a delimiter was found: the same one with the longer text *)
    assert (inline_step (mkInline specs (x ++ b) active) = (out, push_pending b p', true)) as Eb.
    { pose proof Hok as [Hd Ha]. unfold inline_step in *. destruct active as [act|].
      - pose proof (Ha act eq_refl) as Hne.
        destruct (find_str (act_close act) x) as [i|] eqn:Ef; [|by destruct (split_keep _ _)].
        apply find_str_Some in Ef as [Ho Hfirst]. pose proof (occurs_le _ _ _ Hne Ho) as Hle.
        assert (find_str (act_close act) (x ++ b) = Some i) as ->.
        { apply find_str_Some. split; [by apply occurs_app|]. intros j Hj Hoj.
          destruct (occurs_app_inv _ _ _ _ Hoj ltac:(lia)) as [?|[_ (r & Hr & Heq)]];
            [by apply (Hfirst j)|].
          apply (f_equal length) in Heq. rewrite length_app, length_drop in Heq. lia. }
        injection E as <- <-. unfold push_pending. simpl.
        by rewrite take_app_le, drop_app_le by lia.
      - destruct (find_next_open specs x) as [[i idx]|] eqn:Ef; [|by destruct (split_keep _ _)].
        apply find_next_open_Some in Ef. pose proof Ef as (spec & Hs & Ho & _).
        apply (best_app _ _ b) in Ef; [|done..]. apply find_next_open_Some in Ef. rewrite Ef, Hs in *.
        pose proof (delims_ok_open _ _ Hd (list_elem_of_lookup_2 _ _ _ Hs)) as Hne.
        pose proof (occurs_le _ _ _ Hne Ho) as Hle.
        injection E as <- <-. unfold push_pending. simpl. by rewrite take_app_le, drop_app_le by lia. }
    rewrite (run_step (mkInline specs (x ++ b) active)), Eb by done.
    pose proof (inline_step_decreases _ _ _ Hok E) as Hdec. simpl in Hdec.
    destruct (inline_step_ok _ _ _ _ Hok E) as [Hok' Hs]. simpl in Hs.
    destruct p' as [specs' x' active']. simpl in Hs. subst specs'.
    change (push_pending b (mkInline specs x' active')) with (mkInline specs (x' ++ b) active').
    rewrite (IH (length x') Hdec x' active' eq_refl Hok' Hfree), Hrun. simpl.
    by rewrite chunk_app_assoc.
  - (* nothing found: what is not kept may be passed on at once *)
    rewrite Hrun. simpl. unfold inline_step in E. destruct active as [act|].
    + destruct (find_str (act_close act) x) as [i|] eqn:Ef; [done|].
      rewrite (run_active_take specs act x b Hok Ef).
      destruct (split_keep _ x) as [t kd] eqn:Es. injection E as <- <-. unfold push_pending. simpl.
      rewrite chunk_app_nil_l. apply surjective_pairing.
    + destruct (find_next_open specs x) as [[i idx]|] eqn:Ef.
      * apply find_next_open_Some in Ef as (spec & Hs & _). by rewrite Hs in E.
      * rewrite (run_outside_take specs x b Hok Ef).
        destruct (split_keep _ x) as [t kd]. injection E as <- <-. done.
Qed.
End loop.

(** ** The laws of the interface *)

Section instance.
Context {T : Type}.
Implicit Types (p : InlineHiddenTagParser T).

Lemma inline_push_str_run chunk p : inline_push_str chunk p = run (push_pending chunk p).
Proof. done. Qed.

(** Between calls nothing more can be done with the pending text. *)
Definition inline_inv p : Prop :=
  parser_ok p /\ infix_free (inline_specs p) /\ run p = (empty_chunk, p).

Lemma push_pending_nil p : push_pending [] p = p.
Proof. destruct p. unfold push_pending. simpl. by rewrite app_nil_r. Qed.

Lemma push_pending_app a b p : push_pending (a ++ b) p = push_pending b (push_pending a p).
Proof. unfold push_pending. simpl. by rewrite app_assoc. Qed.

Lemma run_push a b p :
  parser_ok p -> infix_free (inline_specs p) ->
  run (push_pending (a ++ b) p)
  = (chunk_app (run (push_pending a p)).1 (run (push_pending b (run (push_pending a p)).2)).1,
     (run (push_pending b (run (push_pending a p)).2)).2).
Proof.
  intros Hok Hfree. rewrite push_pending_app. destruct p as [specs x active].
  by apply (run_app specs (x ++ a) b active).
Qed.

Lemma chunk_app_cancel {E} (a b : StreamTextChunk E) : a = chunk_app a b -> b = empty_chunk.
Proof.
  destruct a, b. unfold chunk_app. simpl. intros [= H1 H2].
  rewrite <- (app_nil_r visible_text) in H1 at 1. rewrite <- (app_nil_r extracted) in H2 at 1.
  apply app_inv_head in H1, H2. by subst.
Qed.

Lemma inline_push_inv chunk p : inline_inv p -> inline_inv (inline_push_str chunk p).2.
Proof.
  intros (Hok & Hfree & _). rewrite inline_push_str_run.
  assert (Hok' : parser_ok (push_pending chunk p)) by by destruct Hok.
  destruct (run_ok _ Hok') as [Hr Hs]. split; [done|]. rewrite Hs. split; [done|].
  pose proof (run_push chunk [] p Hok Hfree) as H. rewrite app_nil_r, push_pending_nil in H.
  destruct (run (push_pending chunk p)) as [o1 p1]. simpl in *.
  destruct (run p1) as [o2 p2]. simpl in *. injection H as H1 <-.
  by apply chunk_app_cancel in H1 as ->.
Qed.

Lemma inline_reset_inv specs : delims_ok specs -> infix_free specs -> inline_inv (mkInline specs [] None).
Proof.
  intros Hd Hfree. assert (Hok : parser_ok (mkInline specs [] None)) by (split; [done|]; by intros ?).
  split; [done|]. split; [done|]. rewrite run_step by done. unfold inline_step.
  destruct (find_next_open specs []) as [[i idx]|] eqn:E.
  - apply find_next_open_Some in E as (spec & Hs & Ho & _).
    pose proof (delims_ok_open _ _ Hd (list_elem_of_lookup_2 _ _ _ Hs)) as Hne.
    apply occurs_le in Ho; [|done]. destruct (spec_open spec); [done|]. simpl in Ho. lia.
  - unfold split_keep. simpl. by rewrite ?take_nil, ?drop_nil.
Qed.

Lemma inline_finish_inv p : inline_inv p -> inline_inv (inline_finish p).2.
Proof.
  intros ([Hd _] & Hfree & _). destruct p as [specs pending [act|]]; by apply inline_reset_inv.
Qed.

#[export] Instance inline_laws : StreamLaws (InlineHiddenTagParser T) (ExtractedInlineTag T).
Proof.
  refine {| stream_inv := inline_inv; ext_equiv := eq |}.
  - apply inline_push_inv.
  - apply inline_finish_inv.
  - intros p (_ & _ & Hr). change (inline_push_str [] p = (empty_chunk, p)).
    by rewrite inline_push_str_run, push_pending_nil.
  - intros a b p (Hok & Hfree & _).
    change ((inline_push_str (a ++ b) p).2 = (inline_push_str b (inline_push_str a p).2).2).
    by rewrite !inline_push_str_run, run_push.
  - intros a b p (Hok & Hfree & _). change (visible_text (inline_push_str (a ++ b) p).1
      = visible_text (inline_push_str a p).1
        ++ visible_text (inline_push_str b (inline_push_str a p).2).1).
    by rewrite !inline_push_str_run, run_push.
  - intros a b p (Hok & Hfree & _). change (extracted (inline_push_str (a ++ b) p).1
      = extracted (inline_push_str a p).1
        ++ extracted (inline_push_str b (inline_push_str a p).2).1).
    by rewrite !inline_push_str_run, run_push.
Defined.

(** ** What a whole text hides

    The decomposition of a text, independent of how it arrives: outside a tag
    the text up to the first opener is shown, inside the text up to the first
    closer is extracted, and an open tag at the end is closed. *)
Inductive hides (specs : list (InlineTagSpec T))
  : option (InlineTagSpec T) -> rstr -> StreamTextChunk (ExtractedInlineTag T) -> Prop :=
| hides_plain s : no_opener specs s -> hides specs None s (mkTextChunk s [])
| hides_open s i idx spec out :
    best specs s i idx -> specs !! idx = Some spec ->
    hides specs (Some spec) (drop (i + length (spec_open spec)) s) out ->
    hides specs None s (chunk_app (mkTextChunk (take i s) []) out)
| hides_unclosed spec s :
    (forall i, ~ occurs (spec_close spec) s i) ->
    hides specs (Some spec) s (mkTextChunk [] [mkTag (spec_tag spec) s])
| hides_close spec s i out :
    occurs (spec_close spec) s i -> (forall j, j < i -> ~ occurs (spec_close spec) s j) ->
    hides specs None (drop (i + length (spec_close spec)) s) out ->
    hides specs (Some spec) s
      (chunk_app (mkTextChunk [] [mkTag (spec_tag spec) (take i s)]) out).

Lemma best_no_opener (specs : list (InlineTagSpec T)) s i idx : best specs s i idx -> no_opener specs s -> False.
Proof.
  intros (spec & Hs & Ho & _) Hn. apply (Hn spec i); [|done]. by eapply list_elem_of_lookup_2.
Qed.

Lemma hides_unique specs o s out out' :
  hides specs o s out -> hides specs o s out' -> out = out'.
Proof.
  intros H. revert out'.
  induction H as [s Hn|s i idx spec out Hb Hs H IH|spec s Hn|spec s i out Ho Hf H IH];
    intros out' H'; inversion H' as [s' Hn'|s' i' idx' spec' o' Hb' Hs' Ho'|spec' s' Hn'
      |spec' s' i' o' Ho' Hf' Hr']; subst; try done; try (exfalso; by eauto using best_no_opener).
  - destruct (best_unique _ _ _ _ _ _ Hb Hb') as [-> ->]. rewrite Hs in Hs'. simplify_eq.
    f_equal. by apply IH.
  - by destruct (Hn i').
  - by destruct (Hn' i).
  - assert (i = i') as ->.
    { destruct (lt_eq_lt_dec i i') as [[?|?]|?]; [by destruct (Hf' i)|done|by destruct (Hf i')]. }
    f_equal. by apply IH.
Qed.

(** Everything yielded by running on the pending text and finishing. *)
Definition whole p : StreamTextChunk (ExtractedInlineTag T) :=
  chunk_app (run p).1 (inline_finish (run p).2).1.

Lemma whole_hides specs o x :
  delims_ok specs -> (forall spec, o = Some spec -> spec_close spec <> []) ->
  hides specs o x
    (whole (mkInline specs x ((fun s => mkActive (spec_tag s) (spec_close s) []) <$> o))).
Proof.
  intros Hd. remember (length x) as n eqn:Hn. revert x o Hn.
  induction n as [n IH] using lt_wf_ind. intros x o -> Ho.
  set (p := mkInline specs x _).
  assert (Hok : parser_ok p).
  { split; [done|]. destruct o as [spec|]; simpl; intros ? [= <-]. by apply Ho. }
  unfold whole. rewrite (run_step p Hok). unfold p, inline_step.
  destruct o as [spec|]; cbn [fmap option_fmap option_map act_close act_tag act_content].
  - destruct (find_str (spec_close spec) x) as [i|] eqn:E.
    + apply find_str_Some in E as [Hoc Hf]. pose proof (occurs_le _ _ _ (Ho _ eq_refl) Hoc).
      assert (0 < length (spec_close spec))
        by (specialize (Ho _ eq_refl); destruct (spec_close spec); simpl; [done|lia]).
      simpl. rewrite <- chunk_app_assoc.
      apply (hides_close specs spec x i); [done..|].
      apply (IH (length (drop (i + length (spec_close spec)) x))
        ltac:(rewrite length_drop; lia) _ None); done.
    + rewrite find_str_None in E. unfold split_keep. simpl. rewrite take_drop.
      by apply hides_unclosed.
  - destruct (find_next_open specs x) as [[i idx]|] eqn:E.
    + apply find_next_open_Some in E. pose proof E as (spec & Hs & Hoc & _). rewrite Hs. simpl.
      pose proof (list_elem_of_lookup_2 _ _ _ Hs) as Hin.
      pose proof Hd as Hall. unfold delims_ok in Hall. rewrite Forall_forall in Hall.
      destruct (Hall spec Hin) as [Hopen Hclose].
      pose proof (occurs_le _ _ _ Hopen Hoc).
      assert (0 < length (spec_open spec)) by (destruct (spec_open spec); simpl; [done|lia]).
      rewrite <- chunk_app_assoc. apply (hides_open specs x i idx spec); [done..|].
      apply (IH (length (drop (i + length (spec_open spec)) x))
        ltac:(rewrite length_drop; lia) _ (Some spec)); [done|]. by intros ? [= <-].
    + rewrite find_next_open_None in E. unfold split_keep. simpl. unfold chunk_app. simpl.
      rewrite take_drop. by apply hides_plain.
Qed.

(** A parser that [new] accepts. *)
Lemma new_inline_Done specs p :
  new_inline specs = Done p -> p = mkInline specs [] None /\ delims_ok specs.
Proof.
  unfold new_inline. destruct (is_empty specs); [done|].
  destruct (existsb _ specs) eqn:E; [done|]. intros [= <-]. split; [done|].
  apply Forall_forall. intros spec Hs. apply not_true_iff_false in E. split; intros H; apply E.
  all: apply existsb_exists; exists spec; rewrite <- list_elem_of_In; (split; [done|]);
    rewrite H; by rewrite ?orb_true_r.
Qed.

Lemma collect_hides specs p chunks :
  new_inline specs = Done p -> infix_free specs -> hides specs None (concat chunks) (collect chunks p).1.
Proof.
  intros [-> Hd]%new_inline_Done Hfree.
  destruct (collect_concat chunks (mkInline specs [] None)) as [[Hv He] _].
  { by apply inline_reset_inv. }
  rewrite collect_one in Hv, He. simpl in Hv, He.
  replace (collect chunks (mkInline specs [] None)).1
    with (whole (mkInline specs (concat chunks) None)).
  - apply (whole_hides specs None); [done|]. by intros ?.
  - destruct (collect chunks (mkInline specs [] None)).1 as [v e]. simpl in *. by subst.
Qed.

(** C36: Whatever pieces a text arrives in, the parser for inline tags shows and
    extracts exactly what the decomposition of the whole text says, provided
    no opening delimiter is part of another; the decomposition is unique. *)
Theorem inline_tags_hidden specs p chunks out :
  new_inline specs = Done p -> infix_free specs ->
  (collect chunks p).1 = out <-> hides specs None (concat chunks) out.
Proof.
  intros Hp Hfree. pose proof (collect_hides specs p chunks Hp Hfree) as H.
  split; [by intros <-|]. intros H'. by eapply hides_unique.
Qed.

(** Every call of [push_str] on a parser that [new] accepted returns: its loop
    is left by a [break] after at most one iteration per pending character and
    one more, since each further iteration consumes a delimiter. *)
Theorem inline_loop_terminates specs p chunks chunk fuel :
  new_inline specs = Done p ->
  let q := push_pending chunk (push_all chunks p).2 in
  length (inline_pending q) < fuel -> (inline_loop fuel q).2 = true.
Proof.
  intros [-> Hd]%new_inline_Done q. apply inline_loop_fuel.
  assert (forall p, parser_ok p -> parser_ok (push_all chunks p).2) as Hall.
  { induction chunks as [|c rest IH]; intros p Hp; [done|]. cbn [push_all].
    assert (Hc : parser_ok (push_str c p).2) by (apply run_ok; by destruct Hp).
    destruct (push_str c p) as [o p1]. specialize (IH p1 Hc). by destruct (push_all rest p1). }
  unfold q. destruct (Hall (mkInline specs [] None)) as [H1 H2]; [split; [done|by intros ?]|].
  by split.
Qed.
End instance.

(** ** Citations *)

#[export] Instance citation_laws : StreamLaws CitationStreamParser rstr.
Proof.
  assert (Hpush : forall c p, push_str c p
    = (contents_only (push_str c (citation_inner p)).1, mkCitation (push_str c (citation_inner p)).2)).
  { intros c p. cbn. by destruct (inline_push_str c (citation_inner p)). }
  refine {| stream_inv p := stream_inv (citation_inner p); ext_equiv := eq |}.
  - intros s p Hp. rewrite Hpush. by apply push_inv.
  - intros p Hp. apply finish_inv in Hp. revert Hp. cbn. by destruct (inline_finish (citation_inner p)).
  - intros p Hp. rewrite Hpush, push_nil by done. by destruct p.
  - intros a b p Hp. rewrite !Hpush. cbn [fst snd citation_inner contents_only visible_text extracted]. f_equal. by apply push_app_state.
  - intros a b p Hp. rewrite !Hpush. cbn [fst snd citation_inner contents_only visible_text extracted]. by apply (push_app_visible a b).
  - intros a b p Hp. rewrite !Hpush. cbn [fst snd citation_inner contents_only visible_text extracted]. rewrite <- fmap_app. f_equal.
    exact (push_app_extracted (StreamLaws := inline_laws) a b _ Hp).
Defined.

Lemma citation_specs_free : infix_free citation_specs.
Proof. intros s1 s2 a b ->%list_elem_of_singleton ->%list_elem_of_singleton _. done. Qed.

Lemma new_citation_inv : stream_inv new_citation.
Proof.
  apply inline_reset_inv; [|apply citation_specs_free]. repeat constructor; done.
Qed.

(** Two openers of which one contains the other: the cut matters, so the
    condition of [inline_tags_hidden] is needed. *)
Example overlapping_openers_depend_on_cut :
  let specs := [mkSpec 1 (lit "<a") (lit "</a"); mkSpec 2 (lit "<ab>") (lit "</ab>")] in
  let p := mkInline specs [] None in
  extracted (collect [lit "<ab>x</ab>"] p).1 = [mkTag 2 (lit "x")] /\
  extracted (collect [lit "<a"; lit "b>x</ab>"] p).1 = [mkTag 1 (lit "b>x")].
Proof. vm_compute. done. Qed.

Lemma inline_tags_hidden_witness :
  hides citation_specs None (lit "a<oai-mem-citation>b</oai-mem-citation>c")
    (mkTextChunk (lit "ac") [mkTag Citation (lit "b")]).
Proof.
  apply (proj1 (inline_tags_hidden citation_specs (mkInline citation_specs [] None)
    [lit "a<oai-mem"; lit "-citation>b</oai-mem-cita"; lit "tion>c"] _ eq_refl citation_specs_free)).
  vm_compute. reflexivity.
Defined.

Lemma inline_loop_terminates_witness :
  (inline_loop 200 (push_pending (lit "x</oai-mem-citation>y") (push_all [lit "<oai-mem-"; lit "citation>"]
     (mkInline citation_specs [] None)).2)).2 = true.
Proof. apply (inline_loop_terminates citation_specs); [reflexivity|vm_compute; lia]. Defined.
