(* ===== verification/TaggedLines.v ===== *)
(** * TaggedLines: [codex-rs/utils/stream-parser/src/{tagged_line_parser,proposed_plan}.rs]

    Blocks delimited by tags that stand alone on a line, in streamed text: the
    parser holds back the start of a line only as long as the line may still
    turn out to be a tag.  The parser of proposed plans is its instance.  The
    reference is a function on the lines of the whole text. *)

From stdpp Require Import base list gmap strings.
From S2P Require Import Prelude StreamText.

Open Scope rust_scope.

Section parser.
Context {T : Type} `{!EqDecision T}.

Record TagSpec := mkTagSpec { tag_open : rstr; tag_close : rstr; tag_of : T }.

Inductive TaggedLineSegment :=
| Normal (text : rstr)
| TagStart (tag : T)
| TagDelta (tag : T) (text : rstr)
| TagEnd (tag : T).

Record TaggedLineParser := mkTagged {
  tl_specs : list TagSpec;
  active_tag : option T;
  detect_tag : bool;
  tl_line_buffer : rstr
}.

Definition new_tagged (specs : list TagSpec) : TaggedLineParser := mkTagged specs None true [].

(** [push_segment]: text joins text of the same kind at the end. *)
Definition push_segment (segments : list TaggedLineSegment) (segment : TaggedLineSegment)
  : list TaggedLineSegment :=
  match segment with
  | Normal delta =>
      if is_empty delta then segments
      else match last segments with
           | Some (Normal existing) => alter_last (fun _ => Normal (existing ++ delta)) segments
           | _ => segments ++ [Normal delta]
           end
  | TagDelta tag delta =>
      if is_empty delta then segments
      else match last segments with
           | Some (TagDelta existing_tag existing) =>
               if decide (existing_tag = tag)
               then alter_last (fun _ => TagDelta existing_tag (existing ++ delta)) segments
               else segments ++ [TagDelta tag delta]
           | _ => segments ++ [TagDelta tag delta]
           end
  | TagStart tag => segments ++ [TagStart tag]
  | TagEnd tag => segments ++ [TagEnd tag]
  end.

Definition push_text (p : TaggedLineParser) (text : rstr) (segments : list TaggedLineSegment)
  : list TaggedLineSegment :=
  match active_tag p with
  | Some tag => push_segment segments (TagDelta tag text)
  | None => push_segment segments (Normal text)
  end.

Definition is_tag_prefix (specs : list TagSpec) (slug : rstr) : bool :=
  let slug := trim_end slug in
  existsb (fun spec => starts_with slug (tag_open spec) || starts_with slug (tag_close spec)) specs.

(** [specs.iter().find(|spec| spec.open == slug).map(|spec| spec.tag)] *)
Fixpoint match_open (specs : list TagSpec) (slug : rstr) : option T :=
  match specs with
  | [] => None
  | spec :: rest => if tag_open spec == slug then Some (tag_of spec) else match_open rest slug
  end.

Fixpoint match_close (specs : list TagSpec) (slug : rstr) : option T :=
  match specs with
  | [] => None
  | spec :: rest => if tag_close spec == slug then Some (tag_of spec) else match_close rest slug
  end.

(** The three ways a complete line can go, shared by [finish_line] and
    [finish]: the tag it opens or closes, if any. *)
Inductive line_kind := Opens (tag : T) | Closes (tag : T) | PlainLine.

Definition line_slug (line : rstr) : rstr :=
  trim_end (trim_start (default line (strip_suffix [c_lf] line))).

Definition classify (specs : list TagSpec) (active : option T) (line : rstr) : line_kind :=
  match match_open specs (line_slug line), active with
  | Some tag, None => Opens tag
  | _, _ =>
      match match_close specs (line_slug line) with
      | Some tag => if decide (active = Some tag) then Closes tag else PlainLine
      | None => PlainLine
      end
  end.

Definition finish_tag_line (p : TaggedLineParser) (segments : list TaggedLineSegment)
  : list TaggedLineSegment * TaggedLineParser :=
  let line := tl_line_buffer p in
  match classify (tl_specs p) (active_tag p) line with
  | Opens tag =>
      (push_segment segments (TagStart tag), mkTagged (tl_specs p) (Some tag) true [])
  | Closes tag => (push_segment segments (TagEnd tag), mkTagged (tl_specs p) None true [])
  | PlainLine => (push_text p line segments, mkTagged (tl_specs p) (active_tag p) true [])
  end.

(** One character of [parse], with the local [run] and [segments]. *)
Definition parse_char (ch : N) (st : list TaggedLineSegment * rstr * TaggedLineParser)
  : list TaggedLineSegment * rstr * TaggedLineParser :=
  let '(segments, run, p) := st in
  if detect_tag p then
    let segments := if is_empty run then segments else push_text p run segments in
    let p := mkTagged (tl_specs p) (active_tag p) true (tl_line_buffer p ++ [ch]) in
    if (ch =? c_lf)%N then
      let '(segments, p) := finish_tag_line p segments in (segments, [], p)
    else
      let slug := trim_start (tl_line_buffer p) in
      if is_empty slug || is_tag_prefix (tl_specs p) slug then (segments, [], p)
      else (push_text p (tl_line_buffer p) segments, [],
            mkTagged (tl_specs p) (active_tag p) false [])
  else if (ch =? c_lf)%N
  then (push_text p (run ++ [ch]) segments, [],
        mkTagged (tl_specs p) (active_tag p) true (tl_line_buffer p))
  else (segments, run ++ [ch], p).

Definition tagged_parse (delta : rstr) (p : TaggedLineParser)
  : list TaggedLineSegment * TaggedLineParser :=
  let '(segments, run, p) := foldl (fun st ch => parse_char ch st) ([], [], p) delta in
  ((if is_empty run then segments else push_text p run segments), p).

Definition tagged_finish (p : TaggedLineParser) : list TaggedLineSegment * TaggedLineParser :=
  let '(segments, active) :=
    if is_empty (tl_line_buffer p) then ([], active_tag p)
    else
      match classify (tl_specs p) (active_tag p) (tl_line_buffer p) with
      | Opens tag => (push_segment [] (TagStart tag), Some tag)
      | Closes tag => (push_segment [] (TagEnd tag), None)
      | PlainLine => (push_text p (tl_line_buffer p) [], active_tag p)
      end in
  (match active with Some tag => push_segment segments (TagEnd tag) | None => segments end,
   mkTagged (tl_specs p) None true []).
End parser.
Arguments TagSpec : clear implicits.
Arguments TaggedLineSegment : clear implicits.
Arguments TaggedLineParser : clear implicits.

(** ** [proposed_plan.rs] *)

Inductive PlanTag := ProposedPlan.

#[export] Instance plan_tag_eq_dec : EqDecision PlanTag.
Proof. solve_decision. Defined.

Definition OPEN_TAG : rstr := lit "<proposed_plan>".
Definition CLOSE_TAG : rstr := lit "</proposed_plan>".

Inductive ProposedPlanSegment :=
| PlanNormal (text : rstr)
| ProposedPlanStart
| ProposedPlanDelta (text : rstr)
| ProposedPlanEnd.

Record ProposedPlanParser := mkPlan { plan_inner : TaggedLineParser PlanTag }.

Definition plan_specs : list (TagSpec PlanTag) := [mkTagSpec OPEN_TAG CLOSE_TAG ProposedPlan].

Definition new_plan : ProposedPlanParser := mkPlan (new_tagged plan_specs).

Definition map_segment (segment : TaggedLineSegment PlanTag) : ProposedPlanSegment :=
  match segment with
  | Normal text => PlanNormal text
  | TagStart ProposedPlan => ProposedPlanStart
  | TagDelta ProposedPlan text => ProposedPlanDelta text
  | TagEnd ProposedPlan => ProposedPlanEnd
  end.

Definition map_segments (segments : list (TaggedLineSegment PlanTag))
  : StreamTextChunk ProposedPlanSegment :=
  foldl (fun out segment =>
    let mapped := map_segment segment in
    mkTextChunk
      (match mapped with
       | PlanNormal text => visible_text out ++ text
       | _ => visible_text out
       end)
      (extracted out ++ [mapped])) empty_chunk segments.

#[export] Instance plan_stream_parser : StreamTextParser ProposedPlanParser ProposedPlanSegment := {
  push_str chunk p :=
    let '(segments, p') := tagged_parse chunk (plan_inner p) in (map_segments segments, mkPlan p');
  finish_stream p :=
    let '(segments, p') := tagged_finish (plan_inner p) in (map_segments segments, mkPlan p')
}.

Definition strip_proposed_plan_blocks (text : rstr) : rstr :=
  let '(out, p) := push_str text new_plan in
  visible_text out ++ visible_text (finish_stream p).1.

(** The fold over the segments: whether a block was seen, and the text of the
    last one. *)
Definition plan_text_step (st : bool * rstr) (segment : ProposedPlanSegment) : bool * rstr :=
  match segment with
  | ProposedPlanStart => (true, [])
  | ProposedPlanDelta delta => (st.1, st.2 ++ delta)
  | ProposedPlanEnd | PlanNormal _ => st
  end.

Definition extract_proposed_plan_text (text : rstr) : option rstr :=
  let '(out, p) := push_str text new_plan in
  let '(saw_plan_block, plan_text) :=
    foldl plan_text_step (false, []) (extracted out ++ extracted (finish_stream p).1) in
  if saw_plan_block then Some plan_text else None.

Example plan_example :
  let text := lit "before" ++ [c_lf] ++ lit " <proposed_plan>" ++ [c_lf] ++ lit "- step"
                ++ [c_lf] ++ lit "</proposed_plan> " ++ [c_lf] ++ lit "after" in
  strip_proposed_plan_blocks text = lit "before" ++ [c_lf] ++ lit "after" /\
  extract_proposed_plan_text text = Some (lit "- step" ++ [c_lf]).
Proof. vm_compute. done. Qed.

(** ** Segments up to how runs of text are split *)

Section atoms.
Context {T : Type} `{!EqDecision T}.
Implicit Types (segs : list (TaggedLineSegment T)) (p : TaggedLineParser T)
  (active : option T) (specs : list (TagSpec T)).

Inductive atom := ANormal (c : N) | AStart (tag : T) | ADelta (tag : T) (c : N) | AEnd (tag : T).

Definition seg_atoms (s : TaggedLineSegment T) : list atom :=
  match s with
  | Normal text => ANormal <$> text
  | TagStart tag => [AStart tag]
  | TagDelta tag text => ADelta tag <$> text
  | TagEnd tag => [AEnd tag]
  end.

Definition atoms segs : list atom := segs ≫= seg_atoms.

Lemma atoms_app a b : atoms (a ++ b) = atoms a ++ atoms b.
Proof. apply bind_app. Qed.

Lemma atoms_one s : atoms [s] = seg_atoms s.
Proof. unfold atoms. simpl. by rewrite app_nil_r. Qed.

Lemma atoms_push_segment segs s : atoms (push_segment segs s) = atoms segs ++ seg_atoms s.
Proof.
  destruct s as [d|t|t d|t]; unfold push_segment; try by rewrite atoms_app, atoms_one.
  all: destruct (is_empty d) eqn:Ed; [apply is_empty_true in Ed as ->; by rewrite app_nil_r|].
  all: destruct (last segs) as [l|] eqn:El; [|by rewrite atoms_app, atoms_one].
  all: apply last_Some in El as [segs' ->].
  all: destruct l; try by rewrite atoms_app, atoms_one.
  - rewrite alter_last_snoc, !atoms_app, !atoms_one, <- app_assoc. simpl. by rewrite fmap_app.
  - case_decide as Ht; [subst tag|by rewrite atoms_app, atoms_one].
    rewrite alter_last_snoc, !atoms_app, !atoms_one, <- app_assoc. simpl. by rewrite fmap_app.
Qed.

(** Text as it appears with the given active tag. *)
Definition text_atoms active (text : rstr) : list atom :=
  match active with Some tag => ADelta tag <$> text | None => ANormal <$> text end.

Lemma text_atoms_app active a b : text_atoms active (a ++ b) = text_atoms active a ++ text_atoms active b.
Proof. destruct active; simpl; apply fmap_app. Qed.

Lemma text_atoms_nil active : text_atoms active [] = [].
Proof. by destruct active. Qed.

Lemma atoms_push_text p text segs :
  atoms (push_text p text segs) = atoms segs ++ text_atoms (active_tag p) text.
Proof. unfold push_text, text_atoms. destruct (active_tag p); by rewrite atoms_push_segment. Qed.

Lemma atoms_push_run p run segs :
  atoms (if is_empty run then segs else push_text p run segs)
  = atoms segs ++ text_atoms (active_tag p) run.
Proof.
  destruct (is_empty run) eqn:E; [|apply atoms_push_text].
  apply is_empty_true in E as ->. by rewrite text_atoms_nil, app_nil_r.
Qed.

(** ** One character at a time *)

Definition line_atoms specs active (line : rstr) : list atom * option T :=
  match classify specs active line with
  | Opens tag => ([AStart tag], Some tag)
  | Closes tag => ([AEnd tag], None)
  | PlainLine => (text_atoms active line, active)
  end.

(** The parser that emits every decided character at once. *)
Definition char_step (ch : N) p : list atom * TaggedLineParser T :=
  if detect_tag p then
    let line := tl_line_buffer p ++ [ch] in
    if (ch =? c_lf)%N then
      let '(out, active) := line_atoms (tl_specs p) (active_tag p) line in
      (out, mkTagged (tl_specs p) active true [])
    else if is_empty (trim_start line) || is_tag_prefix (tl_specs p) (trim_start line)
    then ([], mkTagged (tl_specs p) (active_tag p) true line)
    else (text_atoms (active_tag p) line, mkTagged (tl_specs p) (active_tag p) false [])
  else (text_atoms (active_tag p) [ch],
        mkTagged (tl_specs p) (active_tag p) (ch =? c_lf)%N (tl_line_buffer p)).

Fixpoint char_run (text : rstr) p : list atom * TaggedLineParser T :=
  match text with
  | [] => ([], p)
  | ch :: rest =>
      let '(out, p1) := char_step ch p in
      let '(outs, p2) := char_run rest p1 in (out ++ outs, p2)
  end.

Lemma char_run_app a b p :
  char_run (a ++ b) p
  = ((char_run a p).1 ++ (char_run b (char_run a p).2).1, (char_run b (char_run a p).2).2).
Proof.
  revert p. induction a as [|ch a IH]; intros p; simpl; [by destruct (char_run b p)|].
  destruct (char_step ch p) as [out p1]. rewrite IH.
  destruct (char_run a p1) as [o2 p2]. simpl. destruct (char_run b p2) as [o3 p3]. simpl.
  by rewrite app_assoc.
Qed.

Lemma finish_tag_line_atoms p segs :
  atoms (finish_tag_line p segs).1
  = atoms segs ++ (line_atoms (tl_specs p) (active_tag p) (tl_line_buffer p)).1 /\
  (finish_tag_line p segs).2
  = mkTagged (tl_specs p) (line_atoms (tl_specs p) (active_tag p) (tl_line_buffer p)).2 true [].
Proof.
  unfold finish_tag_line, line_atoms. destruct (classify _ _ _); simpl; (split; [|done]).
  - by rewrite atoms_app, atoms_one.
  - by rewrite atoms_app, atoms_one.
  - apply atoms_push_text.
Qed.

(** The local state of [parse] lags behind by the current run. *)
Lemma parse_char_atoms ch segs run p :
  (detect_tag p = true -> run = []) ->
  let '(segs', run', p') := parse_char ch (segs, run, p) in
  atoms segs' ++ text_atoms (active_tag p') run'
  = atoms segs ++ text_atoms (active_tag p) run ++ (char_step ch p).1 /\
  p' = (char_step ch p).2 /\ (detect_tag p' = true -> run' = []).
Proof.
  intros Hrun. unfold parse_char, char_step. destruct (detect_tag p) eqn:Ed.
  - rewrite (Hrun eq_refl). cbn [is_empty tl_line_buffer tl_specs active_tag].
    rewrite text_atoms_nil. destruct (N.eqb ch c_lf).
    + destruct (finish_tag_line_atoms
        (mkTagged (tl_specs p) (active_tag p) true (tl_line_buffer p ++ [ch])) segs) as [Ha Hp].
      destruct (finish_tag_line _ _) as [segs' p']. simpl in *. rewrite text_atoms_nil, Ha, Hp, app_nil_r.
      by destruct (line_atoms _ _ _).
    + destruct (_ || _); simpl; rewrite ?text_atoms_nil, ?app_nil_r; [done|].
      by rewrite atoms_push_text.
  - destruct (N.eqb ch c_lf) eqn:Ec; simpl.
    + by rewrite atoms_push_text, text_atoms_nil, app_nil_r, text_atoms_app.
    + split; [by rewrite text_atoms_app|]. split; [destruct p; simpl in *; congruence|].
      congruence.
Qed.

Lemma parse_fold_atoms text segs run p :
  (detect_tag p = true -> run = []) ->
  let '(segs', run', p') := foldl (fun st ch => parse_char ch st) (segs, run, p) text in
  atoms segs' ++ text_atoms (active_tag p') run'
  = atoms segs ++ text_atoms (active_tag p) run ++ (char_run text p).1 /\
  p' = (char_run text p).2.
Proof.
  revert segs run p. induction text as [|ch text IH]; intros segs run p Hrun; cbn [foldl char_run].
  - by rewrite app_nil_r.
  - pose proof (parse_char_atoms ch segs run p Hrun) as Hc.
    destruct (parse_char ch (segs, run, p)) as [[segs1 run1] p1].
    destruct (char_step ch p) as [out p1']. simpl in Hc. destruct Hc as (Ha & -> & Hr).
    specialize (IH segs1 run1 p1' Hr). destruct (foldl _ _ text) as [[segs2 run2] p2].
    destruct (char_run text p1') as [outs p2']. simpl in *. destruct IH as [Ha2 ->].
    split; [|done]. by rewrite Ha2, app_assoc, Ha, <- !app_assoc.
Qed.

Lemma tagged_parse_atoms text p :
  atoms (tagged_parse text p).1 = (char_run text p).1 /\
  (tagged_parse text p).2 = (char_run text p).2.
Proof.
  unfold tagged_parse. pose proof (parse_fold_atoms text [] [] p ltac:(done)) as H.
  destruct (foldl _ _ text) as [[segs run] p']. destruct H as [Ha Hp].
  cbn [fst snd]. rewrite atoms_push_run, Ha. split; [|done].
  by rewrite text_atoms_nil.
Qed.
End atoms.
Arguments atom : clear implicits.

(** ** Lines that are not tags are recognised early *)

Lemma trim_end_app_blank s r : trim_end r = [] -> trim_end (s ++ r) = trim_end s.
Proof.
  intros Hr. induction s as [|c s IH]; [done|]. simpl. by rewrite !trim_end_cons, IH.
Qed.

(** The trimmed start of a line is a prefix of the trimmed line. *)
Lemma trim_prefix b rest :
  trim_start b <> [] ->
  exists r, trim_end (trim_start (b ++ rest)) = trim_end (trim_start b) ++ r.
Proof.
  intros Hb. unfold trim_start at 1. rewrite drop_while_app_ne by done. fold (trim_start b).
  destruct (trim_end rest) as [|c r] eqn:E.
  - exists []. by rewrite trim_end_app_blank, app_nil_r.
  - rewrite trim_end_app by by rewrite E. rewrite E.
    assert (exists t, trim_start b = trim_end (trim_start b) ++ t) as [t Ht].
    { unfold trim_end, drop_while_end.
      destruct (drop_while_suffix is_whitespace (reverse (trim_start b))) as [t Ht].
      exists (reverse t). apply (f_equal reverse) in Ht.
      by rewrite reverse_involutive, reverse_app in Ht. }
    exists (t ++ c :: r). rewrite Ht at 1. by rewrite <- app_assoc.
Qed.

Section lines.
Context {T : Type} `{!EqDecision T}.
Implicit Types (specs : list (TagSpec T)) (active : option T) (p : TaggedLineParser T).

Lemma line_slug_body body : no_lf body -> line_slug body = trim_end (trim_start body).
Proof.
  intros H. unfold line_slug. rewrite strip_suffix_last_ne; [done|].
  intros Hl. apply last_Some in Hl as [l ->]. apply H, elem_of_app. right. left.
Qed.

Lemma line_slug_line body : line_slug (body ++ [c_lf]) = trim_end (trim_start body).
Proof. unfold line_slug. by rewrite (proj2 (strip_suffix_Some [c_lf] _ body)). Qed.

Lemma match_open_Some specs slug t :
  match_open specs slug = Some t -> exists spec, spec ∈ specs /\ tag_open spec = slug.
Proof.
  induction specs as [|spec specs IH]; simpl; [done|].
  destruct (str_eqb (tag_open spec) slug) eqn:E.
  - apply str_eqb_true in E. intros _. exists spec. split; [left|done].
  - intros H. destruct (IH H) as (s & Hs & He). exists s. split; [by right|done].
Qed.

Lemma match_close_Some specs slug t :
  match_close specs slug = Some t -> exists spec, spec ∈ specs /\ tag_close spec = slug.
Proof.
  induction specs as [|spec specs IH]; simpl; [done|].
  destruct (str_eqb (tag_close spec) slug) eqn:E.
  - apply str_eqb_true in E. intros _. exists spec. split; [left|done].
  - intros H. destruct (IH H) as (s & Hs & He). exists s. split; [by right|done].
Qed.

(** What has been given up stays given up. *)
Lemma not_prefix_plain specs active b line :
  trim_start b <> [] -> is_tag_prefix specs (trim_start b) = false ->
  (exists rest, line_slug line = trim_end (trim_start (b ++ rest))) ->
  classify specs active line = PlainLine.
Proof.
  intros Hb Hp [rest Hs]. destruct (trim_prefix b rest Hb) as [r Hr]. rewrite Hr in Hs.
  assert (Hno : forall spec, spec ∈ specs ->
    tag_open spec <> line_slug line /\ tag_close spec <> line_slug line).
  { intros spec Hin. apply not_true_iff_false in Hp. unfold is_tag_prefix in Hp.
    split; intros He; apply Hp, existsb_exists; exists spec; rewrite <- list_elem_of_In;
      (split; [done|]); rewrite He, Hs; unfold starts_with; rewrite strip_prefix_app;
      by rewrite ?orb_true_r. }
  unfold classify.
  destruct (match_open specs (line_slug line)) as [t|] eqn:Eo.
  { apply match_open_Some in Eo as (spec & Hin & He). by destruct (Hno spec Hin). }
  destruct (match_close specs (line_slug line)) as [t|] eqn:Ec; [|done].
  apply match_close_Some in Ec as (spec & Hin & He). by destruct (Hno spec Hin).
Qed.

Lemma char_run_given_up specs active l :
  no_lf l ->
  char_run l (mkTagged specs active false []) = (text_atoms active l, mkTagged specs active false []).
Proof.
  intros Hl. induction l as [|c l IH]; [by rewrite text_atoms_nil|].
  apply not_elem_of_cons in Hl as [Hc Hl]. cbn [char_run]. unfold char_step.
  cbn [detect_tag active_tag tl_specs tl_line_buffer].
  destruct (N.eqb_spec c c_lf) as [->|_]; [done|]. rewrite IH by done.
  by rewrite <- text_atoms_app.
Qed.

(** The start of a line is either held back or known not to be a tag. *)
Lemma char_run_line_start specs active buf l :
  no_lf l ->
  char_run l (mkTagged specs active true buf) = ([], mkTagged specs active true (buf ++ l)) \/
  char_run l (mkTagged specs active true buf)
    = (text_atoms active (buf ++ l), mkTagged specs active false []) /\
  exists b rest, buf ++ l = b ++ rest /\ trim_start b <> [] /\
    is_tag_prefix specs (trim_start b) = false.
Proof.
  revert buf. induction l as [|c l IH]; intros buf Hl.
  { left. simpl. by rewrite app_nil_r. }
  apply not_elem_of_cons in Hl as [Hc Hl]. cbn [char_run]. unfold char_step.
  cbn [detect_tag active_tag tl_specs tl_line_buffer].
  destruct (N.eqb_spec c c_lf) as [->|_]; [done|].
  destruct (is_empty (trim_start (buf ++ [c])) || is_tag_prefix specs (trim_start (buf ++ [c]))) eqn:E.
  - replace (buf ++ c :: l) with ((buf ++ [c]) ++ l) by by rewrite <- app_assoc.
    destruct (IH (buf ++ [c]) Hl) as [->|[-> Hb]]; [by left|by right].
  - right. rewrite char_run_given_up by done. rewrite <- text_atoms_app, <- app_assoc.
    split; [done|]. apply orb_false_iff in E as [E1 E2]. apply is_empty_false in E1.
    exists (buf ++ [c]), l. by rewrite <- app_assoc.
Qed.

(** A complete line. *)
Lemma char_run_line specs active body :
  no_lf body ->
  char_run (body ++ [c_lf]) (mkTagged specs active true [])
  = ((line_atoms specs active (body ++ [c_lf])).1,
     mkTagged specs (line_atoms specs active (body ++ [c_lf])).2 true []).
Proof.
  intros Hl. rewrite char_run_app.
  destruct (char_run_line_start specs active [] body Hl) as [->|[-> (b & rest & Hb & Hne & Hp)]].
  - simpl. unfold char_step. simpl. destruct (line_atoms _ _ _) as [o a]. simpl.
    by rewrite app_nil_r.
  - simpl in *. unfold char_step. simpl. unfold line_atoms.
    rewrite (not_prefix_plain specs active b).
    + simpl. by rewrite text_atoms_app, app_nil_r.
    + done.
    + done.
    + exists rest. by rewrite line_slug_line, Hb.
Qed.

(** ** The reference: the lines of the whole text *)

Fixpoint lines_atoms specs active (ls : list rstr) : list (atom T) * option T :=
  match ls with
  | [] => ([], active)
  | l :: rest =>
      let '(out, active1) := line_atoms specs active l in
      let '(outs, active2) := lines_atoms specs active1 rest in (out ++ outs, active2)
  end.

Definition close_atoms active : list (atom T) :=
  match active with Some tag => [AEnd tag] | None => [] end.

Definition text_spec specs active (text : rstr) : list (atom T) :=
  let '(out, active') := lines_atoms specs active (split_inclusive c_lf text) in
  out ++ close_atoms active'.

Definition finish_atoms p : list (atom T) :=
  let '(out, active) :=
    if is_empty (tl_line_buffer p) then ([], active_tag p)
    else line_atoms (tl_specs p) (active_tag p) (tl_line_buffer p) in
  out ++ close_atoms active.

Lemma tagged_finish_atoms p : atoms (tagged_finish p).1 = finish_atoms p.
Proof.
  unfold tagged_finish, finish_atoms, line_atoms. destruct (is_empty (tl_line_buffer p)).
  { by destruct (active_tag p). }
  destruct (classify _ _ _); simpl; try done.
  destruct (active_tag p) eqn:Ea; simpl; rewrite ?atoms_app, atoms_push_text, Ea; simpl;
    by rewrite ?app_nil_r.
Qed.

Lemma first_line text : no_lf text \/ exists body rest, text = body ++ c_lf :: rest /\ no_lf body.
Proof.
  induction text as [|c text IH]; [left; by apply not_elem_of_nil|].
  destruct (decide (c = c_lf)) as [->|Hc].
  - right. exists [], text. split; [done|by apply not_elem_of_nil].
  - destruct IH as [IH|(body & rest & -> & Hb)].
    + left. apply not_elem_of_cons. by split.
    + right. exists (c :: body), rest. split; [done|]. apply not_elem_of_cons. by split.
Qed.

Lemma char_run_spec specs active text :
  let p := mkTagged specs active true [] in
  (char_run text p).1 ++ finish_atoms (char_run text p).2 = text_spec specs active text.
Proof.
  remember (length text) as n eqn:Hn. revert active text Hn.
  induction n as [n IH] using lt_wf_ind. intros active text -> p. unfold p.
  destruct (first_line text) as [Hl|(body & rest & -> & Hb)].
  - unfold text_spec. destruct (decide (text = [])) as [->|Hne]; [done|].
    rewrite split_inclusive_no_lf by done. simpl.
    destruct (char_run_line_start specs active [] text Hl) as [->|[-> (b & rest & Hb & Hbne & Hp)]].
    + simpl. unfold finish_atoms. simpl. rewrite (proj2 (is_empty_false _) Hne).
      destruct (line_atoms specs active text) as [o a]. by rewrite app_nil_r.
    + simpl in *. unfold finish_atoms, line_atoms. simpl.
      rewrite (not_prefix_plain specs active b); [by rewrite app_nil_r|done..|].
      exists rest. by rewrite line_slug_body, Hb.
  - unfold text_spec. rewrite split_inclusive_line by done.
    replace (body ++ c_lf :: rest) with ((body ++ [c_lf]) ++ rest) by by rewrite <- app_assoc.
    rewrite char_run_app, char_run_line by done. cbn [fst snd lines_atoms].
    destruct (line_atoms specs active (body ++ [c_lf])) as [o a]. simpl.
    rewrite <- app_assoc, (IH (length rest)); [|rewrite length_app; simpl; lia|done].
    unfold text_spec. destruct (lines_atoms specs a (split_inclusive c_lf rest)) as [o2 a2].
    by rewrite app_assoc.
Qed.
End lines.

(** ** Plans: the laws of the interface *)

Definition unmap_segment (s : ProposedPlanSegment) : TaggedLineSegment PlanTag :=
  match s with
  | PlanNormal text => Normal text
  | ProposedPlanStart => TagStart ProposedPlan
  | ProposedPlanDelta text => TagDelta ProposedPlan text
  | ProposedPlanEnd => TagEnd ProposedPlan
  end.

Definition plan_atoms (l : list ProposedPlanSegment) : list (atom PlanTag) :=
  atoms (unmap_segment <$> l).

Definition normal_char (a : atom PlanTag) : option N :=
  match a with ANormal c => Some c | _ => None end.

Lemma unmap_map s : unmap_segment (map_segment s) = s.
Proof. by destruct s as [|[]|[]|[]]. Qed.

Lemma plan_atoms_app a b : plan_atoms (a ++ b) = plan_atoms a ++ plan_atoms b.
Proof. unfold plan_atoms. by rewrite fmap_app, atoms_app. Qed.

Lemma omap_normal_text (text : rstr) : omap normal_char (ANormal <$> text) = text.
Proof. induction text as [|c text IH]; [done|]. cbn. by f_equal. Qed.

Lemma omap_normal_delta tag (text : rstr) : omap normal_char (ADelta tag <$> text) = [].
Proof. by induction text. Qed.

Lemma map_segments_spec segs :
  visible_text (map_segments segs) = omap normal_char (atoms segs) /\
  extracted (map_segments segs) = map_segment <$> segs.
Proof.
  unfold map_segments. induction segs as [|s segs IH] using rev_ind; [done|].
  rewrite foldl_snoc. set (out := foldl _ _ segs) in *. clearbody out.
  destruct IH as [Hv He]. cbn [visible_text extracted].
  rewrite He, atoms_app, atoms_one, omap_app, <- Hv, fmap_app. split; [|done].
  destruct s as [text|[]|[] text|[]]; simpl; rewrite ?app_nil_r; try done.
  - by rewrite omap_normal_text.
  - by rewrite omap_normal_delta, app_nil_r.
Qed.

Lemma map_segments_atoms segs : plan_atoms (extracted (map_segments segs)) = atoms segs.
Proof.
  rewrite (proj2 (map_segments_spec segs)). unfold plan_atoms. f_equal.
  rewrite <- list_fmap_compose. rewrite <- (list_fmap_id segs) at 2. apply list_fmap_ext.
  intros i s _. apply unmap_map.
Qed.

Lemma plan_push_spec s p :
  (push_str s p).2 = mkPlan (char_run s (plan_inner p)).2 /\
  visible_text (push_str s p).1 = omap normal_char (char_run s (plan_inner p)).1 /\
  plan_atoms (extracted (push_str s p).1) = (char_run s (plan_inner p)).1.
Proof.
  destruct (tagged_parse_atoms s (plan_inner p)) as [Ha Hs].
  cbn [push_str plan_stream_parser]. destruct (tagged_parse s (plan_inner p)) as [segs p']. simpl in *.
  subst p'. by rewrite (proj1 (map_segments_spec segs)), map_segments_atoms, Ha.
Qed.

#[export] Instance plan_laws : StreamLaws ProposedPlanParser ProposedPlanSegment.
Proof.
  refine {| stream_inv _ := True; ext_equiv a b := plan_atoms a = plan_atoms b |}; try done.
  - split; [by intros ?|by intros ? ? ->|by intros ? ? ? -> ->].
  - intros a a' Ha b b' Hb. by rewrite !plan_atoms_app, Ha, Hb.
  - by intros [p] _.
  - intros a b p _. rewrite !(proj1 (plan_push_spec _ _)). simpl. by rewrite char_run_app.
  - intros a b p _. rewrite !(proj1 (proj2 (plan_push_spec _ _))), (proj1 (plan_push_spec a p)).
    rewrite char_run_app. cbn [fst snd plan_inner]. apply omap_app.
  - intros a b p _. rewrite plan_atoms_app, !(proj2 (proj2 (plan_push_spec _ _))),
      (proj1 (plan_push_spec a p)). by rewrite char_run_app.
Defined.

(** ** Plans: blocks of the whole text *)

Definition opens_plan (line : rstr) : bool := line_slug line == OPEN_TAG.
Definition closes_plan (line : rstr) : bool := line_slug line == CLOSE_TAG.

(** The lines outside blocks, tag lines excepted. *)
Fixpoint outside_lines (inside : bool) (ls : list rstr) : rstr :=
  match ls with
  | [] => []
  | l :: rest =>
      if inside then outside_lines (negb (closes_plan l)) rest
      else if opens_plan l then outside_lines true rest
      else l ++ outside_lines false rest
  end.

(** The texts of the blocks; an unclosed last block counts. *)
Fixpoint plan_bodies (current : option rstr) (ls : list rstr) : list rstr :=
  match ls with
  | [] => option_list current
  | l :: rest =>
      match current with
      | Some body =>
          if closes_plan l then body :: plan_bodies None rest
          else plan_bodies (Some (body ++ l)) rest
      | None => plan_bodies (if opens_plan l then Some [] else None) rest
      end
  end.

Lemma classify_plan_out line :
  classify plan_specs None line = if opens_plan line then Opens ProposedPlan else PlainLine.
Proof.
  unfold classify, opens_plan, plan_specs, match_open, match_close. simpl.
  replace (str_eqb OPEN_TAG (line_slug line)) with (str_eqb (line_slug line) OPEN_TAG)
    by (apply eq_iff_eq_true; rewrite !str_eqb_true; by split).
  destruct (str_eqb _ OPEN_TAG); [done|]. by destruct (str_eqb CLOSE_TAG _).
Qed.

Lemma classify_plan_in line :
  classify plan_specs (Some ProposedPlan) line
  = if closes_plan line then Closes ProposedPlan else PlainLine.
Proof.
  unfold classify, closes_plan, plan_specs, match_open, match_close. simpl.
  replace (str_eqb CLOSE_TAG (line_slug line)) with (str_eqb (line_slug line) CLOSE_TAG)
    by (apply eq_iff_eq_true; rewrite !str_eqb_true; by split).
  by destruct (str_eqb OPEN_TAG _), (str_eqb _ CLOSE_TAG).
Qed.

Definition active_of (inside : bool) : option PlanTag := if inside then Some ProposedPlan else None.

Lemma close_atoms_normal active : omap normal_char (close_atoms active) = [].
Proof. by destruct active. Qed.

Lemma outside_lines_spec inside ls :
  omap normal_char
    (let '(out, active) := lines_atoms plan_specs (active_of inside) ls in
     out ++ close_atoms active)
  = outside_lines inside ls.
Proof.
  revert inside. induction ls as [|l ls IH]; intros inside; cbn [lines_atoms outside_lines].
  { apply close_atoms_normal. }
  unfold line_atoms. destruct inside; cbn [active_of].
  - rewrite classify_plan_in. destruct (closes_plan l).
    + specialize (IH false). cbn [active_of negb] in *. by destruct (lines_atoms _ None ls).
    + specialize (IH true). cbn [active_of negb] in *.
      destruct (lines_atoms _ (Some ProposedPlan) ls) as [o a]. rewrite <- app_assoc, omap_app.
      cbn [text_atoms]. by rewrite omap_normal_delta.
  - rewrite classify_plan_out. destruct (opens_plan l).
    + specialize (IH true). cbn [active_of] in *. by destruct (lines_atoms _ (Some ProposedPlan) ls).
    + specialize (IH false). cbn [active_of] in *. destruct (lines_atoms _ None ls) as [o a].
      rewrite <- app_assoc, omap_app. cbn [text_atoms]. by rewrite omap_normal_text, IH.
Qed.

(** The fold of [extract_proposed_plan_text], on atoms. *)
Definition atom_step (st : bool * rstr) (a : atom PlanTag) : bool * rstr :=
  match a with
  | AStart _ => (true, [])
  | ADelta _ c => (st.1, st.2 ++ [c])
  | _ => st
  end.

Lemma atom_steps_delta st (text : rstr) :
  foldl atom_step st (ADelta ProposedPlan <$> text) = (st.1, st.2 ++ text).
Proof.
  revert st. induction text as [|c text IH]; intros [b t]; simpl; [by rewrite app_nil_r|].
  rewrite IH. simpl. by rewrite <- app_assoc.
Qed.

Lemma atom_steps_normal st (text : rstr) : foldl atom_step st (ANormal <$> text) = st.
Proof. revert st. by induction text. Qed.

Lemma plan_steps_atoms st l : foldl plan_text_step st l = foldl atom_step st (plan_atoms l).
Proof.
  revert st. induction l as [|s l IH]; intros st; [done|]. simpl. rewrite IH.
  change (plan_atoms (s :: l)) with (seg_atoms (unmap_segment s) ++ plan_atoms l).
  rewrite foldl_app. f_equal. destruct s; simpl; try done.
  - by rewrite atom_steps_normal.
  - by rewrite atom_steps_delta.
Qed.

Definition plan_result (st : bool * rstr) : option rstr := if st.1 then Some st.2 else None.

Lemma close_atoms_steps st active : foldl atom_step st (close_atoms active) = st.
Proof. by destruct active. Qed.

Lemma plan_bodies_spec ls :
  (forall st, plan_result (foldl atom_step st
     (let '(out, active) := lines_atoms plan_specs None ls in out ++ close_atoms active))
   = match last (plan_bodies None ls) with Some b => Some b | None => plan_result st end) /\
  (forall body, plan_result (foldl atom_step (true, body)
     (let '(out, active) := lines_atoms plan_specs (Some ProposedPlan) ls in
      out ++ close_atoms active)) = last (plan_bodies (Some body) ls)).
Proof.
  induction ls as [|l ls [IHo IHi]]; [done|]. cbn [lines_atoms plan_bodies].
  unfold line_atoms. rewrite classify_plan_out, classify_plan_in. split.
  - intros st. destruct (opens_plan l).
    + specialize (IHi []). destruct (lines_atoms _ (Some ProposedPlan) ls) as [o a].
      cbn [app foldl atom_step]. rewrite IHi.
      destruct (last (plan_bodies (Some []) ls)) eqn:E; [done|].
      exfalso. revert IHi. unfold plan_result.
      assert (forall l st, st.1 = true -> (foldl atom_step st l).1 = true) as Hk.
      { clear. induction l as [|a l IH]; intros st Hst; [done|]. apply IH. by destruct a. }
      rewrite Hk by done. intros [=].
    + specialize (IHo st). destruct (lines_atoms _ None ls) as [o a].
      rewrite <- app_assoc, foldl_app. cbn [text_atoms]. by rewrite atom_steps_normal.
  - intros body. destruct (closes_plan l).
    + specialize (IHo (true, body)). destruct (lines_atoms _ None ls) as [o a].
      cbn [app foldl atom_step]. rewrite IHo. rewrite last_cons.
      by destruct (last (plan_bodies None ls)).
    + specialize (IHi (body ++ l)). destruct (lines_atoms _ (Some ProposedPlan) ls) as [o a].
      rewrite <- app_assoc, foldl_app. cbn [text_atoms]. by rewrite atom_steps_delta.
Qed.

(** ** What the plan parser yields *)

Lemma new_plan_inv : stream_inv new_plan.
Proof. exact I. Qed.

Lemma plan_collect_atoms chunks :
  let out := (collect chunks new_plan).1 in
  visible_text out = omap normal_char (text_spec plan_specs None (concat chunks)) /\
  plan_atoms (extracted out) = text_spec plan_specs None (concat chunks).
Proof.
  destruct (collect_concat chunks new_plan new_plan_inv) as [[Hv He] _]. cbn zeta. rewrite Hv. clear Hv.
  change (plan_atoms (extracted (collect chunks new_plan).1)
    = plan_atoms (extracted (collect [concat chunks] new_plan).1)) in He. rewrite He. clear He.
  rewrite collect_one. set (s := concat chunks). cbn [fst visible_text chunk_app extracted].
  destruct (plan_push_spec s new_plan) as (Hs & Hv & Ha). rewrite Hs, Hv. clear Hv Hs.
  rewrite plan_atoms_app, Ha. cbn [finish_stream plan_stream_parser plan_inner new_plan] in *.
  pose proof (char_run_spec plan_specs None s) as H. cbn zeta in H.
  pose proof (tagged_finish_atoms (char_run s (new_tagged plan_specs)).2) as Hf.
  destruct (tagged_finish _) as [segs p']. cbn [fst] in *.
  rewrite (proj1 (map_segments_spec segs)), map_segments_atoms, Hf, <- H. split; [|done].
  symmetry. apply omap_app.
Qed.

Lemma extract_plan_collect text :
  strip_proposed_plan_blocks text = visible_text (collect [text] new_plan).1 /\
  extract_proposed_plan_text text
  = plan_result (foldl plan_text_step (false, []) (extracted (collect [text] new_plan).1)).
Proof.
  rewrite collect_one. unfold strip_proposed_plan_blocks, extract_proposed_plan_text.
  destruct (push_str text new_plan) as [out p]. cbn [fst snd visible_text extracted chunk_app].
  split; [done|]. by destruct (foldl _ _ _).
Qed.

(** Whatever pieces a text arrives in, the plan parser shows exactly the
    lines outside plan blocks and the segments it emits describe the same
    blocks; on a whole text the stripped text is those lines and the extracted
    plan is the text of the last block, closed or not. *)
Theorem plan_blocks_found chunks text :
  let ls := split_inclusive c_lf text in
  concat chunks = text ->
  visible_text (collect chunks new_plan).1 = outside_lines false ls /\
  plan_result (foldl plan_text_step (false, []) (extracted (collect chunks new_plan).1))
  = last (plan_bodies None ls) /\
  strip_proposed_plan_blocks text = outside_lines false ls /\
  extract_proposed_plan_text text = last (plan_bodies None ls).
Proof.
  intros ls <-. subst ls. set (s := concat chunks).
  assert (Hall : forall chunks, concat chunks = s ->
    visible_text (collect chunks new_plan).1 = outside_lines false (split_inclusive c_lf s) /\
    plan_result (foldl plan_text_step (false, []) (extracted (collect chunks new_plan).1))
    = last (plan_bodies None (split_inclusive c_lf s))).
  { intros cs Hcs. destruct (plan_collect_atoms cs) as [Hv Ha]. rewrite Hcs in Hv, Ha. split.
    - rewrite Hv. apply (outside_lines_spec false).
    - rewrite plan_steps_atoms, Ha. unfold text_spec.
      rewrite (proj1 (plan_bodies_spec _)). by destruct (last _). }
  destruct (Hall chunks eq_refl) as [H1 H2]. split; [done|]. split; [done|].
  destruct (extract_plan_collect s) as [-> ->]. apply Hall. simpl. by rewrite app_nil_r.
Qed.

Lemma plan_blocks_found_witness :
  visible_text (collect [lit "in<" ; [c_lf] ++ lit "<propo"; lit "sed_plan>" ++ [c_lf] ++ lit "x"]
    new_plan).1 = lit "in<" ++ [c_lf] /\
  extract_proposed_plan_text (lit "in<" ++ [c_lf] ++ lit "<proposed_plan>" ++ [c_lf] ++ lit "x")
  = Some (lit "x").
Proof.
  destruct (plan_blocks_found
    [lit "in<" ; [c_lf] ++ lit "<propo"; lit "sed_plan>" ++ [c_lf] ++ lit "x"]
    (lit "in<" ++ [c_lf] ++ lit "<proposed_plan>" ++ [c_lf] ++ lit "x") eq_refl)
    as (H1 & _ & _ & H2).
  split; [rewrite H1; vm_compute; reflexivity|rewrite H2; vm_compute; reflexivity].
Defined.
