(* ===== verification/Utf8Stream.v ===== *)
(** * Utf8Stream: [codex-rs/utils/stream-parser/src/utf8_stream.rs]

    The adapter that feeds raw bytes to a text parser and holds back an
    incomplete code point.  [utf8_decode] is the validation of
    [std::str::from_utf8] with its two error values; [utf8_encode] the bytes of
    a [str].  The adapter is verified against the interface of StreamText.v, so
    the theorems hold for every parser that keeps its laws. *)

From Stdlib Require Import Lia ZArith ZifyBool.
From stdpp Require Import base list gmap strings.
From S2P Require Import Prelude StreamText InlineTag.

Open Scope N_scope.

(** ** UTF-8 *)

(** Unicode scalar values. *)
Definition scalar (c : N) : Prop := c < 55296 \/ 57344 <= c < 1114112.

Definition encode_char (c : N) : list N :=
  if c <? 128 then [c]
  else if c <? 2048 then [192 + c / 64; 128 + c mod 64]
  else if c <? 65536 then [224 + c / 4096; 128 + (c / 64) mod 64; 128 + c mod 64]
  else [240 + c / 262144; 128 + (c / 4096) mod 64; 128 + (c / 64) mod 64; 128 + c mod 64].

Definition utf8_encode (s : rstr) : list N := s ≫= encode_char.

Definition within (lo hi b : N) : bool := (lo <=? b) && (b <=? hi).

Definition is_continuation (b : N) : bool := within 128 191 b.

(** The second bytes allowed after the first byte of a code point of three or
    four bytes (no overlong forms, no surrogates, at most U+10FFFF). *)
Definition second_of_three (b0 b1 : N) : bool :=
  ((b0 =? 224) && within 160 191 b1) || (within 225 236 b0 && within 128 191 b1)
  || ((b0 =? 237) && within 128 159 b1) || (within 238 239 b0 && within 128 191 b1).

Definition second_of_four (b0 b1 : N) : bool :=
  ((b0 =? 240) && within 144 191 b1) || (within 241 243 b0 && within 128 191 b1)
  || ((b0 =? 244) && within 128 143 b1).

(** How decoding ended: everything was valid, an invalid sequence of the given
    length follows, or the bytes end inside a code point. *)
Inductive utf8_status := Complete | Invalid (error_len : nat) | Incomplete.

(** Text, its length in bytes, and how decoding ended. *)
Definition decoded : Type := rstr * nat * utf8_status.

Definition with_char (c : N) (len : nat) (d : decoded) : decoded :=
  let '(text, n, st) := d in (c :: text, (len + n)%nat, st).

Fixpoint utf8_decode (bytes : list N) : decoded :=
  match bytes with
  | [] => ([], 0%nat, Complete)
  | b0 :: r0 =>
      if b0 <? 128 then with_char b0 1 (utf8_decode r0)
      else if within 194 223 b0 then
        match r0 with
        | [] => ([], 0%nat, Incomplete)
        | b1 :: r1 =>
            if is_continuation b1
            then with_char ((b0 - 192) * 64 + (b1 - 128)) 2 (utf8_decode r1)
            else ([], 0%nat, Invalid 1)
        end
      else if within 224 239 b0 then
        match r0 with
        | [] => ([], 0%nat, Incomplete)
        | b1 :: r1 =>
            if second_of_three b0 b1 then
              match r1 with
              | [] => ([], 0%nat, Incomplete)
              | b2 :: r2 =>
                  if is_continuation b2
                  then with_char ((b0 - 224) * 4096 + (b1 - 128) * 64 + (b2 - 128)) 3
                         (utf8_decode r2)
                  else ([], 0%nat, Invalid 2)
              end
            else ([], 0%nat, Invalid 1)
        end
      else if within 240 244 b0 then
        match r0 with
        | [] => ([], 0%nat, Incomplete)
        | b1 :: r1 =>
            if second_of_four b0 b1 then
              match r1 with
              | [] => ([], 0%nat, Incomplete)
              | b2 :: r2 =>
                  if is_continuation b2 then
                    match r2 with
                    | [] => ([], 0%nat, Incomplete)
                    | b3 :: r3 =>
                        if is_continuation b3
                        then with_char ((b0 - 240) * 262144 + (b1 - 128) * 4096
                                        + (b2 - 128) * 64 + (b3 - 128)) 4 (utf8_decode r3)
                        else ([], 0%nat, Invalid 3)
                    end
                  else ([], 0%nat, Invalid 2)
              end
            else ([], 0%nat, Invalid 1)
        end
      else ([], 0%nat, Invalid 1)
  end.

(** [std::str::Utf8Error] *)
Record Utf8Error := mkUtf8Error { valid_up_to : nat; error_len : option nat }.

Definition from_utf8 (bytes : list N) : result Utf8Error rstr :=
  match utf8_decode bytes with
  | (text, _, Complete) => Ok text
  | (_, n, Invalid len) => Err (mkUtf8Error n (Some len))
  | (_, n, Incomplete) => Err (mkUtf8Error n None)
  end.

(** ** The adapter *)

Inductive Utf8StreamParserError :=
| InvalidUtf8 (valid_up_to error_len : nat)
| IncompleteUtf8AtEof.

Section adapter.
Context {P E : Type} `{!StreamTextParser P E}.

Record Utf8StreamParser := mkUtf8 { utf8_inner : P; pending_utf8 : list N }.

Definition new_utf8 (inner : P) : Utf8StreamParser := mkUtf8 inner [].

Definition push_bytes (chunk : list N) (p : Utf8StreamParser)
  : result Utf8StreamParserError (StreamTextChunk E) * Utf8StreamParser :=
  let old_len := length (pending_utf8 p) in
  let pending := pending_utf8 p ++ chunk in
  match from_utf8 pending with
  | Ok text =>
      let '(out, inner) := push_str text (utf8_inner p) in (Ok out, mkUtf8 inner [])
  | Err err =>
      match error_len err with
      | Some len =>
          (Err (InvalidUtf8 (valid_up_to err) len), mkUtf8 (utf8_inner p) (take old_len pending))
      | None =>
          if (valid_up_to err =? 0)%nat then (Ok empty_chunk, mkUtf8 (utf8_inner p) pending)
          else
            match from_utf8 (take (valid_up_to err) pending) with
            | Ok text =>
                let '(out, inner) := push_str text (utf8_inner p) in
                (Ok out, mkUtf8 inner (drop (valid_up_to err) pending))
            | Err prefix_err =>
                (Err (InvalidUtf8 (valid_up_to prefix_err) (default 0%nat (error_len prefix_err))),
                 mkUtf8 (utf8_inner p) (take old_len pending))
            end
      end
  end.

(** The error [finish] and [into_inner] report for undecoded bytes. *)
Definition undecoded_error (err : Utf8Error) : Utf8StreamParserError :=
  match error_len err with
  | Some len => InvalidUtf8 (valid_up_to err) len
  | None => IncompleteUtf8AtEof
  end.

Definition finish_bytes (p : Utf8StreamParser)
  : result Utf8StreamParserError (StreamTextChunk E) * Utf8StreamParser :=
  let checked :=
    if is_empty (pending_utf8 p) then Ok (empty_chunk, p)
    else match from_utf8 (pending_utf8 p) with
         | Ok text =>
             let '(out, inner) := push_str text (utf8_inner p) in Ok (out, mkUtf8 inner [])
         | Err err => Err (undecoded_error err)
         end in
  match checked with
  | Err e => (Err e, p)
  | Ok (out, p1) =>
      let '(tail, inner) := finish_stream (utf8_inner p1) in
      (Ok (chunk_app out tail), mkUtf8 inner (pending_utf8 p1))
  end.

Definition into_inner (p : Utf8StreamParser) : result Utf8StreamParserError P :=
  if is_empty (pending_utf8 p) then Ok (utf8_inner p)
  else match from_utf8 (pending_utf8 p) with
       | Ok _ => Ok (utf8_inner p)
       | Err err => Err (undecoded_error err)
       end.

Definition into_inner_lossy (p : Utf8StreamParser) : P := utf8_inner p.

(** A caller that pushes pieces until one fails. *)
Fixpoint push_bytes_all (chunks : list (list N)) (p : Utf8StreamParser)
  : result Utf8StreamParserError (StreamTextChunk E) * Utf8StreamParser :=
  match chunks with
  | [] => (Ok empty_chunk, p)
  | c :: rest =>
      match push_bytes c p with
      | (Err e, p1) => (Err e, p1)
      | (Ok out, p1) =>
          match push_bytes_all rest p1 with
          | (Err e, p2) => (Err e, p2)
          | (Ok outs, p2) => (Ok (chunk_app out outs), p2)
          end
      end
  end.
End adapter.
Arguments Utf8StreamParser : clear implicits.

(** ** The decoder *)

Ltac Zify.zify_post_hook ::= Z.to_euclidean_division_equations.

Ltac byte_lia :=
  unfold second_of_three, second_of_four, is_continuation, within, scalar in *; lia.

(** Settle the next byte test of a goal by arithmetic. *)
Ltac byte_test :=
  match goal with
  | |- context [if ?b then _ else _] =>
      first [replace b with true by byte_lia | replace b with false by byte_lia]; cbn iota
  end.

(** Decoding the bytes of a character. *)
Lemma decode_char c rest :
  scalar c ->
  utf8_decode (encode_char c ++ rest) = with_char c (length (encode_char c)) (utf8_decode rest).
Proof.
  intros Hc. unfold encode_char.
  destruct (c <? 128) eqn:E1; [simpl; by rewrite E1|].
  destruct (c <? 2048) eqn:E2; [|destruct (c <? 65536) eqn:E3];
    cbn [app utf8_decode length]; repeat byte_test; f_equal; byte_lia.
Qed.

Definition dec_app (s : rstr) (n : nat) (d : decoded) : decoded :=
  let '(text, m, st) := d in (s ++ text, (n + m)%nat, st).

Lemma decode_encode_app s rest :
  Forall scalar s ->
  utf8_decode (utf8_encode s ++ rest) = dec_app s (length (utf8_encode s)) (utf8_decode rest).
Proof.
  induction 1 as [|c s Hc Hs IH]; [simpl; by destruct (utf8_decode rest) as [[? ?] ?]|].
  change (utf8_encode (c :: s)) with (encode_char c ++ utf8_encode s).
  rewrite <- app_assoc, decode_char, IH, length_app by done.
  destruct (utf8_decode rest) as [[t n] st]. simpl. by rewrite Nat.add_assoc.
Qed.

(** The bytes of a decoded code point are its encoding. *)
Lemma encode_two b0 b1 :
  within 194 223 b0 = true -> is_continuation b1 = true ->
  let c := (b0 - 192) * 64 + (b1 - 128) in encode_char c = [b0; b1] /\ scalar c.
Proof.
  intros H0 H1 c. split; [|unfold c; byte_lia]. unfold encode_char. repeat byte_test.
  unfold c. repeat f_equal; byte_lia.
Qed.

Lemma encode_three b0 b1 b2 :
  within 224 239 b0 = true -> second_of_three b0 b1 = true -> is_continuation b2 = true ->
  let c := (b0 - 224) * 4096 + (b1 - 128) * 64 + (b2 - 128) in
  encode_char c = [b0; b1; b2] /\ scalar c.
Proof.
  intros H0 H1 H2 c. split; [|unfold c; byte_lia]. unfold encode_char. repeat byte_test.
  unfold c. repeat f_equal; byte_lia.
Qed.

Lemma encode_four b0 b1 b2 b3 :
  within 240 244 b0 = true -> second_of_four b0 b1 = true ->
  is_continuation b2 = true -> is_continuation b3 = true ->
  let c := (b0 - 240) * 262144 + (b1 - 128) * 4096 + (b2 - 128) * 64 + (b3 - 128) in
  encode_char c = [b0; b1; b2; b3] /\ scalar c.
Proof.
  intros H0 H1 H2 H3 c. split; [|unfold c; byte_lia]. unfold encode_char. repeat byte_test.
  unfold c. repeat f_equal; byte_lia.
Qed.

(** The next code point, if there is one: the cases of the decoder. *)
Lemma decode_next bytes :
  (exists c rest, scalar c /\ bytes = encode_char c ++ rest) \/
  (utf8_decode bytes).1 = ([], 0%nat).
Proof.
  destruct bytes as [|b0 r0]; [by right|]. cbn [utf8_decode].
  destruct (b0 <? 128) eqn:E0.
  { left. exists b0, r0. unfold encode_char. rewrite E0. split; [byte_lia|done]. }
  destruct (within 194 223 b0) eqn:E2; [|destruct (within 224 239 b0) eqn:E3;
    [|destruct (within 240 244 b0) eqn:E4; [|by right]]].
  all: destruct r0 as [|b1 r1]; [by right|].
  - destruct (is_continuation b1) eqn:H1; [|by right]. left.
    destruct (encode_two b0 b1 E2 H1) as [He Hs]. eexists _, r1. by rewrite He.
  - destruct (second_of_three b0 b1) eqn:H1; [|by right]. destruct r1 as [|b2 r2]; [by right|].
    destruct (is_continuation b2) eqn:H2; [|by right]. left.
    destruct (encode_three b0 b1 b2 E3 H1 H2) as [He Hs]. eexists _, r2. by rewrite He.
  - destruct (second_of_four b0 b1) eqn:H1; [|by right]. destruct r1 as [|b2 r2]; [by right|].
    destruct (is_continuation b2) eqn:H2; [|by right]. destruct r2 as [|b3 r3]; [by right|].
    destruct (is_continuation b3) eqn:H3; [|by right]. left.
    destruct (encode_four b0 b1 b2 b3 E4 H1 H2 H3) as [He Hs]. eexists _, r3. by rewrite He.
Qed.

Lemma encode_char_ne c : encode_char c <> [].
Proof. unfold encode_char. by repeat case_match. Qed.

(** Every byte string is the encoding of the text it decodes to, followed by
    bytes that start no code point. *)
Lemma decode_split bytes :
  exists text rest st, Forall scalar text /\ bytes = utf8_encode text ++ rest /\
    utf8_decode rest = ([], 0%nat, st) /\ utf8_decode bytes = (text, length (utf8_encode text), st).
Proof.
  remember (length bytes) as k eqn:Hk. revert bytes Hk.
  induction k as [k IH] using lt_wf_ind. intros bytes ->.
  destruct (decode_next bytes) as [(c & r & Hc & ->)|H].
  - destruct (IH (length r)) with (bytes := r) as (text & rest & st & Ht & -> & Hr & Hd); [|done|].
    { rewrite length_app. pose proof (encode_char_ne c). destruct (encode_char c); [done|simpl; lia]. }
    exists (c :: text), rest, st. split; [by constructor|].
    change (utf8_encode (c :: text)) with (encode_char c ++ utf8_encode text).
    split; [by rewrite app_assoc|]. split; [done|]. rewrite decode_char, Hd, length_app by done. done.
  - exists [], bytes, (utf8_decode bytes).2. split; [done|]. split; [done|].
    destruct (utf8_decode bytes) as [d st]. simpl in *. by subst.
Qed.

Lemma decode_complete_nil rest st : utf8_decode rest = ([], 0%nat, st) -> st = Complete -> rest = [].
Proof.
  intros H ->. destruct rest as [|b r]; [done|]. exfalso. revert H. cbn [utf8_decode].
  repeat case_match; try done; unfold with_char; destruct (utf8_decode _) as [[? ?] ?]; done.
Qed.

(** More bytes change nothing before the point where decoding stopped. *)
Lemma decode_app a b text n st :
  utf8_decode a = (text, n, st) -> (forall len, st <> Invalid len) ->
  utf8_decode (a ++ b) = dec_app text n (utf8_decode (drop n a ++ b)).
Proof.
  intros Ha Hst. destruct (decode_split a) as (t & rest & st' & Ht & -> & Hr & Hd).
  rewrite Ha in Hd. simplify_eq. rewrite drop_app_length, <- app_assoc.
  by apply decode_encode_app.
Qed.

Lemma decode_app_invalid a b text n len :
  utf8_decode a = (text, n, Invalid len) -> utf8_decode (a ++ b) = (text, n, Invalid len).
Proof.
  intros Ha. destruct (decode_split a) as (t & rest & st' & Ht & -> & Hr & Hd).
  rewrite Ha in Hd. simplify_eq. rewrite <- app_assoc, decode_encode_app by done.
  assert (utf8_decode (rest ++ b) = ([], 0%nat, Invalid len)) as ->; [|simpl; by rewrite app_nil_r, Nat.add_0_r].
  assert (Hw : forall c k d, with_char c k d <> ([], 0%nat, Invalid len)).
  { intros c k [[? ?] ?]. done. }
  destruct rest as [|b0 r0]; [done|]. cbn [utf8_decode app] in *.
  destruct (b0 <? 128); [by destruct (Hw _ _ _ Hr)|].
  destruct (within 194 223 b0); [|destruct (within 224 239 b0); [|destruct (within 240 244 b0); [|done]]].
  all: destruct r0 as [|b1 r1]; [done|]; cbn [app].
  - destruct (is_continuation b1); [by destruct (Hw _ _ _ Hr)|done].
  - destruct (second_of_three b0 b1); [|done]. destruct r1 as [|b2 r2]; [done|]. cbn [app].
    destruct (is_continuation b2); [by destruct (Hw _ _ _ Hr)|done].
  - destruct (second_of_four b0 b1); [|done]. destruct r1 as [|b2 r2]; [done|]. cbn [app].
    destruct (is_continuation b2); [|done]. destruct r2 as [|b3 r3]; [done|]. cbn [app].
    destruct (is_continuation b3); [by destruct (Hw _ _ _ Hr)|done].
Qed.

(** ** The adapter over any lawful parser *)

Section laws.
Context {P E : Type} `{!StreamTextParser P E} `{!StreamLaws P E}.
Implicit Types (p : Utf8StreamParser P) (inner : P).

Lemma from_utf8_encode text : Forall scalar text -> from_utf8 (utf8_encode text) = Ok text.
Proof.
  intros Ht. unfold from_utf8. pose proof (decode_encode_app text [] Ht) as H.
  rewrite app_nil_r in H. rewrite H. simpl. by rewrite app_nil_r.
Qed.

(** Pushing bytes feeds the decoded text and holds back the rest. *)
Lemma push_bytes_valid chunk p text rest st :
  Forall scalar text -> pending_utf8 p ++ chunk = utf8_encode text ++ rest ->
  utf8_decode rest = ([], 0%nat, st) -> (forall len, st <> Invalid len) ->
  stream_inv (utf8_inner p) ->
  push_bytes chunk p
  = (Ok (push_str text (utf8_inner p)).1, mkUtf8 (push_str text (utf8_inner p)).2 rest).
Proof.
  intros Ht Hb Hr Hst Hi. unfold push_bytes. rewrite Hb. unfold from_utf8 at 1.
  rewrite decode_encode_app, Hr by done. cbn [dec_app]. rewrite app_nil_r, Nat.add_0_r.
  destruct st as [|len|]; [|by destruct (Hst len)|].
  - apply decode_complete_nil in Hr as ->; [|done]. by destruct (push_str text (utf8_inner p)).
  - cbn [error_len valid_up_to]. destruct (Nat.eqb_spec (length (utf8_encode text)) 0) as [H0|H0].
    + destruct text as [|c text].
      * rewrite push_nil by done. done.
      * exfalso. change (utf8_encode (c :: text)) with (encode_char c ++ utf8_encode text) in H0.
        rewrite length_app in H0. pose proof (encode_char_ne c). destruct (encode_char c); done.
    + rewrite take_app_length, drop_app_length, from_utf8_encode by done.
      by destruct (push_str text (utf8_inner p)).
Qed.

Lemma push_bytes_all_valid chunks p text rest st :
  Forall scalar text -> pending_utf8 p ++ concat chunks = utf8_encode text ++ rest ->
  utf8_decode rest = ([], 0%nat, st) -> (forall len, st <> Invalid len) ->
  stream_inv (utf8_inner p) -> utf8_decode (pending_utf8 p) = ([], 0%nat, Incomplete) \/ pending_utf8 p = [] ->
  exists out, push_bytes_all chunks p
    = (Ok out, mkUtf8 (push_str text (utf8_inner p)).2 rest) /\
    chunk_equiv out (push_str text (utf8_inner p)).1.
Proof.
  revert p text. induction chunks as [|c chunks IH]; intros p text Ht Hb Hr Hst Hi Hp; simpl in Hb.
  - rewrite app_nil_r in Hb. exists empty_chunk. simpl.
    assert (text = [] /\ rest = pending_utf8 p) as [-> ->].
    { pose proof (decode_encode_app text rest Ht) as Hd. rewrite <- Hb, Hr in Hd. simpl in Hd.
      destruct Hp as [Hp|Hp]; rewrite Hp in Hd; simpl in Hd; rewrite app_nil_r in Hd;
        injection Hd as <- _ _; by simpl in Hb. }
    rewrite push_nil by done. by destruct p.
  - destruct (decode_split (pending_utf8 p ++ c)) as (t1 & r1 & st1 & Ht1 & Hb1 & Hr1 & Hd1).
    assert (Hst1 : forall len, st1 <> Invalid len).
    { intros len ->. apply (decode_app_invalid _ (concat chunks)) in Hd1.
      rewrite <- app_assoc, Hb, decode_encode_app, Hr in Hd1 by done. simpl in Hd1.
      injection Hd1 as _ _ Hd1. by apply (Hst len). }
    assert (exists t2, text = t1 ++ t2 /\ r1 ++ concat chunks = utf8_encode t2 ++ rest /\ Forall scalar t2)
      as (t2 & -> & Hb2 & Ht2).
    { destruct (decode_split (r1 ++ concat chunks)) as (t2 & r2 & st2 & Ht2 & Hb2 & Hr2 & Hd2).
      assert (Hall : utf8_decode (utf8_encode text ++ rest) = utf8_decode (utf8_encode (t1 ++ t2) ++ r2)).
      { f_equal. rewrite <- Hb, app_assoc, Hb1, <- app_assoc, Hb2. unfold utf8_encode.
        by rewrite bind_app, <- app_assoc. }
      rewrite !decode_encode_app, Hr, Hr2 in Hall by (try done; by apply Forall_app). simpl in Hall.
      rewrite !app_nil_r in Hall. injection Hall as -> _ _.
      exists t2. split; [done|]. split; [|done]. apply (app_inv_head (utf8_encode t1)).
      rewrite app_assoc, <- Hb1, <- app_assoc, Hb. unfold utf8_encode. by rewrite bind_app, <- app_assoc. }
    cbn [push_bytes_all]. rewrite (push_bytes_valid c p t1 r1 st1) by done.
    destruct (IH (mkUtf8 (push_str t1 (utf8_inner p)).2 r1) t2) as (out & -> & He);
      [done..|by apply push_inv| |].
    { simpl. destruct st1 as [|len|]; [right; by eapply decode_complete_nil|by destruct (Hst1 len)|by left]. }
    exists (chunk_app (push_str t1 (utf8_inner p)).1 out). cbn [utf8_inner] in *.
    rewrite push_app_state by done. split; [done|]. rewrite (push_app t1 t2) by done. by rewrite He.
Qed.

(** However the UTF-8 bytes of a text are cut, inside code points too, the
    adapter accepts them and yields what its parser yields for the text. *)
Theorem utf8_stream_any_cut inner text chunks :
  Forall scalar text -> concat chunks = utf8_encode text -> stream_inv inner ->
  exists out p tail p',
    push_bytes_all chunks (new_utf8 inner) = (Ok out, p) /\
    finish_bytes p = (Ok tail, p') /\ pending_utf8 p = [] /\
    chunk_equiv (chunk_app out tail) (collect [text] inner).1 /\
    utf8_inner p' = (collect [text] inner).2.
Proof.
  intros Ht Hb Hi.
  destruct (push_bytes_all_valid chunks (new_utf8 inner) text [] Complete) as (out & Hp & He);
    [done|by rewrite app_nil_r|done|done|done|by right|].
  rewrite collect_one. cbn [new_utf8 utf8_inner] in *.
  exists out, (mkUtf8 (push_str text inner).2 []),
    (finish_stream (push_str text inner).2).1, (mkUtf8 (finish_stream (push_str text inner).2).2 []).
  split; [done|]. split.
  { unfold finish_bytes. simpl. destruct (finish_stream _). simpl. by rewrite chunk_app_nil_l. }
  split; [done|]. split; [|done]. simpl. by rewrite He.
Qed.

(** A pushed chunk fails exactly when the buffered bytes with it hold an
    invalid sequence; the error gives its place and length and nothing is
    changed.  Otherwise the chunk is accepted and what is held back is what
    follows the valid prefix.  The end fails exactly on held-back bytes, with
    an incomplete code point reported as such. *)
Theorem utf8_errors_roll_back chunk p :
  let '(_, n, st) := utf8_decode (pending_utf8 p ++ chunk) in
  (match st with
   | Invalid len => push_bytes chunk p = (Err (InvalidUtf8 n len), p)
   | _ => exists out inner, push_bytes chunk p = (Ok out, mkUtf8 inner (drop n (pending_utf8 p ++ chunk)))
   end) /\
  (match (utf8_decode (pending_utf8 p)).2 with
   | Complete => exists out p', finish_bytes p = (Ok out, p') /\ pending_utf8 p' = []
   | Invalid len => finish_bytes p = (Err (InvalidUtf8 (utf8_decode (pending_utf8 p)).1.2 len), p)
   | Incomplete => finish_bytes p = (Err IncompleteUtf8AtEof, p)
   end).
Proof.
  destruct (utf8_decode (pending_utf8 p ++ chunk)) as [[text n] st] eqn:Hd. split.
  - destruct (decode_split (pending_utf8 p ++ chunk)) as (t & rest & st' & Ht & Hb & Hr & Hd').
    rewrite Hd in Hd'. injection Hd' as -> -> ->. unfold push_bytes.
    assert (Hf : from_utf8 (pending_utf8 p ++ chunk) = match st' with
      | Complete => Ok t
      | Invalid len => Err (mkUtf8Error (length (utf8_encode t)) (Some len))
      | Incomplete => Err (mkUtf8Error (length (utf8_encode t)) None) end)
      by (unfold from_utf8; by rewrite Hd).
    rewrite Hf. destruct st'.
    + apply decode_complete_nil in Hr as ->; [|done]. rewrite Hb, app_nil_r, drop_all.
      destruct (push_str t (utf8_inner p)). by eexists _, _.
    + simpl. rewrite take_app_length. by destruct p.
    + cbn [error_len valid_up_to]. destruct (Nat.eqb_spec (length (utf8_encode t)) 0) as [H0|H0].
      * rewrite H0, drop_0. by eexists _, _.
      * rewrite Hb, take_app_length, from_utf8_encode by done.
        destruct (push_str t (utf8_inner p)). by eexists _, _.
  - unfold finish_bytes, from_utf8, undecoded_error. destruct p as [inner [|b r]].
    + simpl. destruct (finish_stream inner). eexists _, _. by split.
    + cbn [pending_utf8 is_empty utf8_inner].
      destruct (utf8_decode (b :: r)) as [[t m] [|len|]]; simpl; [|done..].
      destruct (push_str t inner) as [o i]. simpl. destruct (finish_stream i). eexists _, _. by split.
Qed.
End laws.

Lemma utf8_stream_any_cut_witness :
  exists out p tail p',
    push_bytes_all [[65; 195]; [169] ++ utf8_encode CITATION_OPEN ++ [228];
      [184; 173] ++ utf8_encode CITATION_CLOSE ++ [90]] (new_utf8 new_citation) = (Ok out, p) /\
    finish_bytes p = (Ok tail, p') /\
    visible_text (chunk_app out tail) = [65; 233; 90] /\
    extracted (chunk_app out tail) = [[20013]].
Proof.
  assert (Forall scalar ([65; 233] ++ CITATION_OPEN ++ [20013] ++ CITATION_CLOSE ++ [90])) as Ht.
  { repeat constructor; unfold scalar; vm_compute; (left; reflexivity). }
  edestruct (utf8_stream_any_cut new_citation) as (out & p & tail & p' & H1 & H2 & _ & [Hv He] & _);
    [exact Ht| |exact new_citation_inv|].
  2: exists out, p, tail, p'; split; [exact H1|]; split; [exact H2|]; split; [rewrite Hv|rewrite He];
    vm_compute; reflexivity.
  vm_compute. reflexivity.
Defined.
