(* ===== verification/AssistantText.v ===== *)
(** * AssistantText: [codex-rs/utils/stream-parser/src/assistant_text.rs]

    The parser of streamed assistant messages: citations are stripped, and in
    plan mode what is left goes through the plan parser.  Both inner parsers are
    used through the laws of StreamText.v. *)

From stdpp Require Import base list gmap strings.
From S2P Require Import Prelude StreamText InlineTag TaggedLines.

Record AssistantTextChunk := mkAssistantChunk {
  at_visible_text : rstr;
  at_citations : list rstr;
  at_plan_segments : list ProposedPlanSegment
}.

Definition assistant_chunk_is_empty (c : AssistantTextChunk) : bool :=
  is_empty (at_visible_text c) && is_empty (at_citations c) && is_empty (at_plan_segments c).

Record AssistantTextStreamParser := mkAssistant {
  plan_mode : bool;
  at_citation_parser : CitationStreamParser;
  at_plan_parser : ProposedPlanParser
}.

Definition new_assistant (plan_mode : bool) : AssistantTextStreamParser :=
  mkAssistant plan_mode new_citation new_plan.

(** [parse_visible_text], on the plan parser it may advance. *)
Definition parse_visible_text (plan_mode : bool) (visible : rstr) (plan : ProposedPlanParser)
  : AssistantTextChunk * ProposedPlanParser :=
  if plan_mode then
    let '(plan_chunk, plan') := push_str visible plan in
    (mkAssistantChunk (visible_text plan_chunk) [] (extracted plan_chunk), plan')
  else (mkAssistantChunk visible [] [], plan).

Definition assistant_push_str (chunk : rstr) (p : AssistantTextStreamParser)
  : AssistantTextChunk * AssistantTextStreamParser :=
  let '(citation_chunk, citations) := push_str chunk (at_citation_parser p) in
  let '(out, plan) :=
    parse_visible_text (plan_mode p) (visible_text citation_chunk) (at_plan_parser p) in
  (mkAssistantChunk (at_visible_text out) (extracted citation_chunk) (at_plan_segments out),
   mkAssistant (plan_mode p) citations plan).

Definition assistant_finish (p : AssistantTextStreamParser)
  : AssistantTextChunk * AssistantTextStreamParser :=
  let '(citation_chunk, citations) := finish_stream (at_citation_parser p) in
  let '(out, plan) :=
    parse_visible_text (plan_mode p) (visible_text citation_chunk) (at_plan_parser p) in
  let '(out, plan) :=
    if plan_mode p then
      let '(tail, plan') := finish_stream plan in
      (if text_chunk_is_empty tail then out
       else mkAssistantChunk (at_visible_text out ++ visible_text tail) (at_citations out)
              (at_plan_segments out ++ extracted tail), plan')
    else (out, plan) in
  (mkAssistantChunk (at_visible_text out) (extracted citation_chunk) (at_plan_segments out),
   mkAssistant (plan_mode p) citations plan).

(** How a caller accumulates the chunks of a message. *)
Definition assistant_app (a b : AssistantTextChunk) : AssistantTextChunk :=
  mkAssistantChunk (at_visible_text a ++ at_visible_text b) (at_citations a ++ at_citations b)
    (at_plan_segments a ++ at_plan_segments b).

Fixpoint assistant_collect (chunks : list rstr) (p : AssistantTextStreamParser)
  : AssistantTextChunk :=
  match chunks with
  | [] => (assistant_finish p).1
  | c :: rest =>
      let '(out, p') := assistant_push_str c p in assistant_app out (assistant_collect rest p')
  end.

(** ** The two stages *)

Lemma text_chunk_empty {T} (c : StreamTextChunk T) : text_chunk_is_empty c = true -> c = empty_chunk.
Proof.
  destruct c as [v e]. unfold text_chunk_is_empty. simpl.
  intros [H1 H2]%andb_true_iff. apply is_empty_true in H1, H2. by subst.
Qed.

(** The texts the citation parser lets through, one per piece and one at the
    end. *)
Fixpoint citation_visible (chunks : list rstr) (c : CitationStreamParser) : list rstr :=
  match chunks with
  | [] => [visible_text (finish_stream c).1]
  | x :: rest => visible_text (push_str x c).1 :: citation_visible rest (push_str x c).2
  end.

Lemma push_all_cons {P E} `{!StreamTextParser P E} c rest (p : P) :
  push_all (c :: rest) p
  = (chunk_app (push_str c p).1 (push_all rest (push_str c p).2).1,
     (push_all rest (push_str c p).2).2).
Proof. simpl. destruct (push_str c p) as [o p1]. simpl. by destruct (push_all rest p1). Qed.

Lemma collect_unfold {P E} `{!StreamTextParser P E} chunks (p : P) :
  (collect chunks p).1
  = chunk_app (push_all chunks p).1 (finish_stream (push_all chunks p).2).1.
Proof.
  unfold collect. destruct (push_all chunks p) as [o p1]. simpl. by destruct (finish_stream p1).
Qed.

Lemma collect_nil {P E} `{!StreamTextParser P E} (p : P) : (collect [] p).1 = (finish_stream p).1.
Proof. rewrite collect_unfold. simpl. apply chunk_app_nil_l. Qed.

Lemma collect_cons {P E} `{!StreamTextParser P E} c rest (p : P) :
  (collect (c :: rest) p).1
  = chunk_app (push_str c p).1 (collect rest (push_str c p).2).1.
Proof. rewrite !collect_unfold, push_all_cons. simpl. by rewrite chunk_app_assoc. Qed.

Lemma citation_visible_concat chunks c :
  concat (citation_visible chunks c) = visible_text (collect chunks c).1.
Proof.
  revert c. induction chunks as [|x rest IH]; intros c; cbn [citation_visible concat].
  - by rewrite collect_nil, app_nil_r.
  - by rewrite collect_cons, IH.
Qed.

(** The message is the citations of the first stage and, in plan mode, what
    the second stage makes of the texts it is given. *)
Lemma assistant_stages chunks mode c plan :
  assistant_collect chunks (mkAssistant mode c plan)
  = (let plan_out := (collect (citation_visible chunks c) plan).1 in
     mkAssistantChunk
       (if mode then visible_text plan_out else concat (citation_visible chunks c))
       (extracted (collect chunks c).1)
       (if mode then extracted plan_out else [])).
Proof.
  revert c plan. induction chunks as [|x rest IH]; intros c plan; cbn [assistant_collect citation_visible].
  - rewrite collect_nil. unfold assistant_finish, parse_visible_text. cbn [plan_mode at_citation_parser at_plan_parser].
    destruct (finish_stream c) as [cc c']. cbn [fst]. destruct mode.
    + rewrite collect_cons, collect_nil. destruct (push_str (visible_text cc) plan) as [o plan1].
      cbn [fst snd]. destruct (finish_stream plan1) as [tail plan2]. cbn [fst].
      destruct (text_chunk_is_empty tail) eqn:E; [|done].
      apply text_chunk_empty in E as ->. by rewrite chunk_app_nil_r.
    + simpl. by rewrite app_nil_r.
  - rewrite !collect_cons. unfold assistant_push_str, parse_visible_text.
    cbn [plan_mode at_citation_parser at_plan_parser].
    destruct (push_str x c) as [cc c'] eqn:Ec. cbn [fst snd]. destruct mode.
    + destruct (push_str (visible_text cc) plan) as [o plan1].
      cbn [fst snd]. by rewrite IH.
    + by rewrite IH.
Qed.

Lemma strip_citations_collect text :
  strip_citations text
  = (visible_text (collect [text] new_citation).1, extracted (collect [text] new_citation).1).
Proof.
  rewrite collect_one. unfold strip_citations. destruct (push_str text new_citation) as [o p].
  cbn [fst snd]. by destruct (finish_stream p).
Qed.

(** However a message is cut into pieces, the assistant parser yields the
    citations of the whole message; outside plan mode it shows the message
    without them, and in plan mode it shows the lines of that text outside
    plan blocks and emits segments whose last block is the plan extracted from
    that text. *)
Theorem assistant_text_two_stages mode chunks :
  let '(visible, citations) := strip_citations (concat chunks) in
  let out := assistant_collect chunks (new_assistant mode) in
  at_citations out = citations /\
  at_visible_text out = (if mode then strip_proposed_plan_blocks visible else visible) /\
  (if mode
   then plan_result (foldl plan_text_step (false, []) (at_plan_segments out))
        = extract_proposed_plan_text visible
   else at_plan_segments out = []).
Proof.
  rewrite strip_citations_collect. unfold new_assistant. rewrite assistant_stages. cbn zeta.
  destruct (collect_concat chunks new_citation new_citation_inv) as [[Hv He] _].
  cbn [at_citations at_visible_text at_plan_segments]. split; [done|].
  assert (Hc : concat (citation_visible chunks new_citation)
    = visible_text (collect [concat chunks] new_citation).1) by by rewrite citation_visible_concat.
  destruct mode; [|done]. set (vs := citation_visible chunks new_citation) in *.
  rewrite <- Hc.
  destruct (collect_concat vs new_plan new_plan_inv) as [[Hpv Hpe] _].
  change (plan_atoms (extracted (collect vs new_plan).1)
    = plan_atoms (extracted (collect [concat vs] new_plan).1)) in Hpe.
  destruct (extract_plan_collect (concat vs)) as [-> ->].
  by rewrite Hpv, !plan_steps_atoms, Hpe.
Qed.
