(* ===== verification/ShellCommand.v ===== *)
(** * Shell scripts and the classification of dangerous commands

    [shell-command/src/bash.rs], [shell_detect.rs] and
    [command_safety/is_dangerous_command.rs] (the branches of the Unix build).

    The tree that tree-sitter builds of a script is data of the model
    ([Node], [Tree]); the parser itself, [try_parse_shell], is an argument.
    A node carries the text [utf8_text] returns for it, [None] when the byte
    range of the node is not valid UTF-8. *)

From Stdlib Require Import Lia Ascii Sorting.Sorted.
From stdpp Require Import base list strings relations.
From S2P Require Import Prelude AbsolutePath.

Open Scope rust_scope.

(** ** Detecting the shell from its path *)

Inductive ShellType := Zsh | Bash | PowerShell | Sh | Cmd.

#[export] Instance shell_type_eq_dec : EqDecision ShellType.
Proof. solve_decision. Defined.

Definition shell_name (t : ShellType) : rstr :=
  match t with
  | Zsh => lit "zsh" | Bash => lit "bash" | PowerShell => lit "powershell"
  | Sh => lit "sh" | Cmd => lit "cmd"
  end.

(** [Path::file_stem]: the file name up to its last dot, unless that dot is
    the first character. *)
Definition c_stem_dot : N := 46.

Definition file_stem (path : rstr) : option rstr :=
  match file_name (components path) with
  | None => None
  | Some name =>
      match rsplit_once c_stem_dot name with
      | None => Some name
      | Some ([], _) => Some name
      | Some (before, _) => Some before
      end
  end.

Definition known_shell (path : rstr) : option ShellType :=
  if path == lit "zsh" then Some Zsh
  else if path == lit "sh" then Some Sh
  else if path == lit "cmd" then Some Cmd
  else if path == lit "bash" then Some Bash
  else if path == lit "pwsh" then Some PowerShell
  else if path == lit "powershell" then Some PowerShell
  else None.

(** The recursion of [detect_shell_type] on the stem; two paths are compared
    by their components.  The fuel bounds the number of stems taken. *)
Fixpoint detect_shell_loop (fuel : nat) (shell_path : rstr) : option ShellType :=
  match fuel with
  | O => None
  | S fuel' =>
      match known_shell shell_path with
      | Some t => Some t
      | None =>
          match file_stem shell_path with
          | None => None
          | Some shell_name_path =>
              if bool_decide (components shell_name_path <> components shell_path)
              then detect_shell_loop fuel' shell_name_path
              else None
          end
      end
  end.

Definition detect_shell_type (shell_path : rstr) : option ShellType :=
  detect_shell_loop (S (length shell_path)) shell_path.

(** ** Parse trees *)

Inductive Node := mkNode {
  node_kind : rstr;
  is_named : bool;
  start_byte : nat;
  utf8_text : option rstr;
  children : list Node
}.

Record Tree := mkTree { root_node : Node; has_error : bool }.

Definition named_children (n : Node) : list Node := List.filter is_named (children n).

Definition named_child_0 (n : Node) : option Node := head (named_children n).

Definition kind_is (n : Node) (k : string) : bool := node_kind n == lit k.

Definition ALLOWED_KINDS : list rstr :=
  lit <$> ["program"; "list"; "pipeline"; "command"; "command_name"; "word"; "string";
           "string_content"; "raw_string"; "number"; "concatenation"]%string.

Definition ALLOWED_PUNCT_TOKENS : list rstr :=
  [lit "&&"; lit "||"; lit ";"; lit "|"; [c_dquote]; lit "'"].

(** The characters of a word that a shell may still expand. *)
Definition expansion_chars : rstr := lit "{}*?[]\~^#$`".

Definition is_literal_text (word : rstr) : bool :=
  negb (starts_with (lit "=") word)
  && negb (existsb (fun c => contains_char c expansion_chars) word).

Definition is_word_or_number (n : Node) : bool := kind_is n "word" || kind_is n "number".

Definition is_literal_word_or_number (n : Node) : bool :=
  if negb (is_word_or_number n) then false
  else is_empty (named_children n) && is_some_and (utf8_text n) is_literal_text.

(** An escape that double quotes do not suppress. *)

Definition escapable (c : N) : bool :=
  contains_char c (lit "$`\") || (c =? c_dquote)%N || (c =? c_lf)%N.

Fixpoint has_escape (s : rstr) : bool :=
  match s with
  | a :: (b :: _) as r => (a =? c_backslash)%N && escapable b || has_escape r
  | _ => false
  end.

Definition strip_quotes (q s : rstr) : option rstr :=
  match strip_prefix q s with None => None | Some t => strip_suffix q t end.

Definition parse_double_quoted_string (n : Node) : option rstr :=
  if negb (kind_is n "string") then None
  else if negb (forallb (fun part => kind_is part "string_content") (named_children n)) then None
  else match utf8_text n with
       | None => None
       | Some raw =>
           match strip_quotes [c_dquote] raw with
           | None => None
           | Some stripped => if has_escape stripped then None else Some stripped
           end
       end.

Definition parse_raw_string (n : Node) : option rstr :=
  if negb (kind_is n "raw_string") then None
  else match utf8_text n with
       | None => None
       | Some raw_string => strip_quotes (lit "'") raw_string
       end.

(** ** Commands made of plain words *)

(** One part of a concatenation in [parse_plain_command_from_node]. *)
Definition plain_part (part : Node) : option rstr :=
  if is_word_or_number part then utf8_text part
  else if kind_is part "string" then parse_double_quoted_string part
  else if kind_is part "raw_string" then parse_raw_string part
  else None.

Definition non_empty_text (s : rstr) : option rstr := if is_empty s then None else Some s.

Definition plain_concatenation (n : Node) : option rstr :=
  match mapM plain_part (named_children n) with
  | None => None
  | Some parts => non_empty_text (concat parts)
  end.

(** The word one named child of a command contributes. *)
Definition plain_word (child : Node) : option rstr :=
  if kind_is child "command_name" then
    match named_child_0 child with
    | None => None
    | Some word_node => if kind_is word_node "word" then utf8_text word_node else None
    end
  else if is_word_or_number child then utf8_text child
  else if kind_is child "string" then parse_double_quoted_string child
  else if kind_is child "raw_string" then parse_raw_string child
  else if kind_is child "concatenation" then plain_concatenation child
  else None.

Definition parse_plain_command_from_node (cmd : Node) : option (list rstr) :=
  if negb (kind_is cmd "command") then None
  else mapM plain_word (named_children cmd).

(** The test the walk makes of each node it visits. *)
Definition node_allowed (n : Node) : bool :=
  let kind := node_kind n in
  if is_named n then
    bool_decide (kind ∈ ALLOWED_KINDS)
    && negb (is_word_or_number n && negb (is_literal_word_or_number n))
  else
    negb (existsb (fun c => contains_char c (lit "&;|")) kind
          && negb (bool_decide (kind ∈ ALLOWED_PUNCT_TOKENS)))
    && (bool_decide (kind ∈ ALLOWED_PUNCT_TOKENS) || is_empty (trim kind)).

(** The walk with its stack of nodes, the top first: a child is pushed after
    its elder siblings.  [None] is the early return; out of fuel the walk
    stops with what it has. *)
Fixpoint word_only_walk (fuel : nat) (stack command_nodes : list Node) : option (list Node) :=
  match fuel, stack with
  | O, _ | _, [] => Some command_nodes
  | S fuel', node :: stack' =>
      if node_allowed node then
        word_only_walk fuel' (reverse (children node) ++ stack')
          (if is_named node && kind_is node "command" then command_nodes ++ [node]
           else command_nodes)
      else None
  end.

Fixpoint node_count (n : Node) : nat :=
  match n with mkNode _ _ _ _ cs => S (sum_list_with node_count cs) end.

Definition try_parse_word_only_commands_sequence (tree : Tree) : option (list (list rstr)) :=
  if has_error tree then None
  else
    let root := root_node tree in
    match word_only_walk (node_count root) [root] [] with
    | None => None
    | Some command_nodes =>
        mapM parse_plain_command_from_node (sort_by_key start_byte command_nodes)
    end.

(** ** The literal words of arbitrary scripts *)

Fixpoint parse_literal_shell_word (node : Node) : option rstr :=
  match node with
  | mkNode kind named start text cs =>
      let n := mkNode kind named start text cs in
      if is_word_or_number n && is_literal_word_or_number n then text
      else if kind_is n "string" then parse_double_quoted_string n
      else if kind_is n "raw_string" then parse_raw_string n
      else if kind_is n "concatenation" then
        match (fix parts (l : list Node) : option rstr :=
                 match l with
                 | [] => Some []
                 | part :: r =>
                     if is_named part then
                       match parse_literal_shell_word part with
                       | None => None
                       | Some w => match parts r with None => None | Some ws => Some (w ++ ws) end
                       end
                     else parts r
                 end) cs with
        | None => None
        | Some concatenated => non_empty_text concatenated
        end
      else None
  end.

(** The state of [parse_literal_command_from_node]'s loop: the words, and
    whether the command's name was found. *)
Fixpoint literal_command_loop (cs : list Node) (words : list rstr) (found_command_name : bool)
  : option (list rstr) :=
  match cs with
  | [] => if found_command_name then Some words else None
  | child :: r =>
      if kind_is child "command_name" then
        match named_child_0 child with
        | None => None
        | Some name_node =>
            match parse_literal_shell_word name_node with
            | None => None
            | Some command_name => literal_command_loop r (words ++ [command_name]) true
            end
        end
      else if found_command_name then
        match parse_literal_shell_word child with
        | Some word => literal_command_loop r (words ++ [word]) true
        | None => literal_command_loop r words true
        end
      else literal_command_loop r words false
  end.

Definition parse_literal_command_from_node (cmd : Node) : option (list rstr) :=
  if negb (kind_is cmd "command") then None
  else literal_command_loop (named_children cmd) [] false.

Fixpoint literal_walk (fuel : nat) (stack : list Node) (commands : list (list rstr))
  : list (list rstr) :=
  match fuel, stack with
  | O, _ | _, [] => commands
  | S fuel', node :: stack' =>
      literal_walk fuel' (reverse (named_children node) ++ stack')
        (if kind_is node "command" then
           match parse_literal_command_from_node node with
           | Some command => commands ++ [command]
           | None => commands
           end
         else commands)
  end.

(** ** Invocations of a shell *)

Definition extract_bash_command (command : list rstr) : option (rstr * rstr) :=
  match command with
  | [shell; flag; script] =>
      if negb ((flag == lit "-lc") || (flag == lit "-c"))
         || negb (match detect_shell_type shell with
                  | Some Zsh | Some Bash | Some Sh => true
                  | _ => false
                  end)
      then None else Some (shell, script)
  | _ => None
  end.

Section scripts.
Context (try_parse_shell : rstr -> option Tree).

Definition parse_shell_script_into_commands (script : rstr) : option (list (list rstr)) :=
  match try_parse_shell script with
  | None => None
  | Some tree => try_parse_word_only_commands_sequence tree
  end.

Definition parse_shell_lc_plain_commands (command : list rstr) : option (list (list rstr)) :=
  match extract_bash_command command with
  | None => None
  | Some (_, script) => parse_shell_script_into_commands script
  end.

Definition parse_shell_lc_literal_commands (command : list rstr) : option (list (list rstr)) :=
  match extract_bash_command command with
  | None => None
  | Some (_, script) =>
      match try_parse_shell script with
      | None => None
      | Some tree =>
          if has_error tree then None
          else Some (literal_walk (node_count (root_node tree)) [root_node tree] [])
      end
  end.
End scripts.

(** ** Dangerous commands *)

Inductive DangerousCommandMatch := ForcedRm | Other.

#[export] Instance dangerous_match_eq_dec : EqDecision DangerousCommandMatch.
Proof. solve_decision. Defined.

Definition MAX_DANGEROUS_COMMAND_WRAPPER_DEPTH : nat := 8.

Definition executable_name_lookup_key (raw : rstr) : option rstr := file_name (components raw).

Definition is_force_option (arg : rstr) : bool :=
  (arg == lit "--force")
  || is_some_and (strip_prefix (lit "-") arg)
       (fun flags => negb (starts_with (lit "-") flags) && contains_char (chr "f"%char) flags).

Definition rm_args_include_force_option (args : list rstr) : bool :=
  existsb is_force_option (take_while (fun arg => arg != lit "--") args).

(** The arguments of [env] that precede its command. *)
Definition is_env_argument (argument : rstr) : bool :=
  (argument == lit "-i") || (argument == lit "--ignore-environment")
  || is_some_and (split_once (chr "="%char) argument)
       (fun '(name, _) => negb (is_empty name) && negb (starts_with (lit "-") name)).

Fixpoint skip_env_arguments (args : list rstr) : list rstr :=
  match args with
  | [] => []
  | argument :: r =>
      if argument == lit "--" then r
      else if is_env_argument argument then skip_env_arguments r
      else args
  end.

Section dangerous.
Context (try_parse_shell : rstr -> option Tree).

(** [deeper] is [dangerous_command_match_with_depth] at [wrapper_depth + 1]. *)
Section at_depth.
Context (deeper : list rstr -> option DangerousCommandMatch).

Definition dangerous_command_match_for_env (command : list rstr) : option DangerousCommandMatch :=
  deeper (skip_env_arguments (drop 1 command)).

Definition trap_action (command : list rstr) : option rstr :=
  let action_index := if is_some_and (command !! 1) (fun a => a == lit "--") then 2 else 1 in
  match command !! action_index with
  | None => None
  | Some action => if starts_with (lit "-") action then None else Some action
  end.

Definition dangerous_command_match_for_trap (command : list rstr) : option DangerousCommandMatch :=
  match trap_action command with
  | None => None
  | Some action => deeper [lit "sh"; lit "-c"; action]
  end.

Definition dangerous_command_match_for_exec (command : list rstr) : option DangerousCommandMatch :=
  match head command ≫= executable_name_lookup_key with
  | None => None
  | Some cmd0 =>
      if (cmd0 == lit "rm") && rm_args_include_force_option (drop 1 command) then Some ForcedRm
      else if cmd0 == lit "sudo" then deeper (drop 1 command)
      else if cmd0 == lit "env" then dangerous_command_match_for_env command
      else if cmd0 == lit "trap" then dangerous_command_match_for_trap command
      else None
  end.
End at_depth.

(** [levels] is [MAX_DANGEROUS_COMMAND_WRAPPER_DEPTH + 1 - wrapper_depth], 0
    when the depth is above the maximum. *)
Fixpoint dangerous_command_match_with_depth (levels : nat) (command : list rstr)
  : option DangerousCommandMatch :=
  match levels with
  | O => Some Other
  | S deeper =>
      match dangerous_command_match_for_exec (dangerous_command_match_with_depth deeper) command with
      | Some dangerous_match => Some dangerous_match
      | None =>
          match parse_shell_lc_literal_commands try_parse_shell command with
          | None => None
          | Some commands => find_map (dangerous_command_match_with_depth deeper) commands
          end
      end
  end.

Definition dangerous_command_match (command : list rstr) : option DangerousCommandMatch :=
  dangerous_command_match_with_depth (S MAX_DANGEROUS_COMMAND_WRAPPER_DEPTH) command.

Definition dangerous_powershell_words_match (command : list rstr) : option DangerousCommandMatch :=
  None.
End dangerous.

(** ** Detection of the shell *)

Lemma split_on_pieces c s :
  Forall (fun p => p = s \/ length p < length s) (split_on c s).
Proof.
  induction s as [|x s IH]; simpl; [constructor; [by left|done]|].
  assert (Forall (fun p : rstr => length p < S (length s)) (split_on c s)) as Hlt.
  { eapply Forall_impl; [exact IH|]. simpl. intros p [->|]; lia. }
  destruct (N.eqb_spec x c) as [->|Hne].
  - constructor; [right; simpl; lia|]. eapply Forall_impl; [exact Hlt|]. simpl. lia.
  - destruct (split_on c s) as [|p ps] eqn:E; [|].
    { constructor; [|done]. destruct s as [|y s]; [done|right; simpl; lia]. }
    inversion IH; inversion Hlt; subst. constructor.
    + destruct H1 as [->|]; [by left|right; simpl; lia].
    + eapply Forall_impl; [eassumption|]. simpl. lia.
Qed.

(** A file name is the path itself or shorter than it. *)
Lemma file_name_shorter path name :
  file_name (components path) = Some name -> name = path \/ length name < length path.
Proof.
  unfold file_name. destruct (last (components path)) as [[]|] eqn:E; try done.
  intros [= ->]. apply last_Some_elem_of in E. unfold components in E.
  apply elem_of_app in E as [E|E].
  - destruct (is_absolute path); [|destruct (is_some_and _ _)]; set_solver.
  - apply list_elem_of_omap in E as (s & Hs & Hc). unfold segment_component in Hc.
    destruct (is_empty s || _); [done|]. destruct (s == _); [done|]. injection Hc as ->.
    pose proof (split_on_pieces c_slash path) as H. rewrite Forall_forall in H. by apply H.
Qed.

Lemma file_stem_shorter path stem :
  file_stem path = Some stem -> components stem <> components path -> length stem < length path.
Proof.
  unfold file_stem. destruct (file_name _) as [name|] eqn:En; [|done].
  apply file_name_shorter in En. intros Hs Hne.
  assert (stem = name \/ length stem < length name) as Hle.
  { destruct (rsplit_once _ _) as [[[|x before] after]|] eqn:E; injection Hs as <-; try by left.
    right. apply rsplit_once_Some in E as ->. rewrite length_app. simpl. lia. }
  destruct Hle as [->|], En as [->|]; try lia. done.
Qed.

Lemma detect_shell_loop_enough f1 f2 path :
  length path < f1 -> length path < f2 -> detect_shell_loop f1 path = detect_shell_loop f2 path.
Proof.
  revert f2 path. induction f1 as [|f1 IH]; intros [|f2] path H1 H2; try lia. simpl.
  destruct (known_shell path); [done|]. destruct (file_stem path) as [stem|] eqn:E; [|done].
  case_bool_decide as Hne; [|done]. pose proof (file_stem_shorter _ _ E Hne). apply IH; lia.
Qed.

(** The equation of the recursive function of the source. *)
Lemma detect_shell_type_eq path :
  detect_shell_type path =
  match known_shell path with
  | Some t => Some t
  | None =>
      match file_stem path with
      | Some stem =>
          if bool_decide (components stem <> components path) then detect_shell_type stem else None
      | None => None
      end
  end.
Proof.
  unfold detect_shell_type at 1. cbn [detect_shell_loop].
  destruct (known_shell path); [done|]. destruct (file_stem path) as [stem|] eqn:E; [|done].
  case_bool_decide as Hne; [|done]. apply detect_shell_loop_enough; [|lia].
  by apply file_stem_shorter.
Qed.

(** ** The walks visit every node

    [subnodes] is the specification: every node below [n], each one before
    its descendants and after its younger siblings'. *)

Section node_ind.
Context (P : Node -> Prop).
Context (step : forall k nm s t cs, Forall P cs -> P (mkNode k nm s t cs)).

Fixpoint node_forall_ind (n : Node) : P n :=
  match n with
  | mkNode k nm s t cs =>
      step k nm s t cs
        ((fix all (l : list Node) : Forall P l :=
            match l with
            | [] => List.Forall_nil _
            | c :: r => List.Forall_cons _ c r (node_forall_ind c) (all r)
            end) cs)
  end.
End node_ind.

Fixpoint subnodes (n : Node) : list Node :=
  match n with
  | mkNode k nm s t cs =>
      mkNode k nm s t cs
      :: (fix later_first (l : list Node) : list Node :=
            match l with [] => [] | c :: r => later_first r ++ subnodes c end) cs
  end.

Lemma subnodes_eq n : subnodes n = n :: (reverse (children n) ≫= subnodes).
Proof.
  destruct n as [k nm s t cs]. simpl. f_equal.
  induction cs as [|c cs IH]; [done|].
  rewrite reverse_cons, bind_app, IH. simpl. by rewrite app_nil_r.
Qed.

Lemma subnodes_child n c m : c ∈ children n -> m ∈ subnodes c -> m ∈ subnodes n.
Proof.
  intros Hc Hm. rewrite subnodes_eq. apply elem_of_cons. right.
  apply list_elem_of_bind. exists c. split; [done|]. by apply elem_of_reverse.
Qed.

Lemma subnodes_self n : n ∈ subnodes n.
Proof. rewrite subnodes_eq. apply elem_of_cons. by left. Qed.

Lemma named_children_children n c : c ∈ named_children n -> c ∈ children n.
Proof. intros H. apply list_elem_of_In, List.filter_In in H as [H _]. by apply list_elem_of_In. Qed.

Lemma node_count_eq n : node_count n = S (sum_list_with node_count (children n)).
Proof. by destruct n. Qed.

Definition is_command (n : Node) : bool := is_named n && kind_is n "command".

Lemma word_only_walk_spec fuel stack acc :
  sum_list_with node_count stack <= fuel ->
  word_only_walk fuel stack acc =
  if forallb node_allowed (stack ≫= subnodes)
  then Some (acc ++ List.filter is_command (stack ≫= subnodes))
  else None.
Proof.
  revert stack acc. induction fuel as [|fuel IH]; intros [|n stack] acc Hf;
    try (by rewrite app_nil_r).
  { simpl in Hf. rewrite node_count_eq in Hf. lia. }
  cbn [word_only_walk]. rewrite bind_cons, subnodes_eq. cbn [app forallb List.filter].
  destruct (node_allowed n); [|done]. cbn [andb].
  rewrite IH.
  2:{ rewrite sum_list_with_app, sum_list_with_reverse. simpl in Hf.
      rewrite node_count_eq in Hf. lia. }
  rewrite bind_app. destruct (forallb _ _); [|done]. f_equal.
  destruct (is_command n) eqn:Ec; unfold is_command in Ec; rewrite Ec; [|done].
  by rewrite <- app_assoc.
Qed.

(** [try_parse_word_only_commands_sequence] without its stack. *)
Lemma try_parse_word_only_spec tree :
  try_parse_word_only_commands_sequence tree =
  if has_error tree then None
  else if forallb node_allowed (subnodes (root_node tree)) then
    mapM parse_plain_command_from_node
      (sort_by_key start_byte (List.filter is_command (subnodes (root_node tree))))
  else None.
Proof.
  unfold try_parse_word_only_commands_sequence. destruct (has_error tree); [done|].
  rewrite word_only_walk_spec by (simpl; lia). rewrite bind_cons. cbn [mbind list_bind].
  rewrite app_nil_r. by destruct (forallb _ _).
Qed.

(** ** Words whose spelling is their value *)

Inductive literal_part : Node -> rstr -> Prop :=
| lit_word n w :
    is_word_or_number n = true -> utf8_text n = Some w -> named_children n = [] ->
    is_literal_text w = true -> literal_part n w
| lit_dquoted n w :
    kind_is n "string" = true -> utf8_text n = Some ([c_dquote] ++ w ++ [c_dquote]) ->
    Forall (fun part => kind_is part "string_content" = true) (named_children n) ->
    has_escape w = false -> literal_part n w
| lit_quoted n w :
    kind_is n "raw_string" = true -> utf8_text n = Some (lit "'" ++ w ++ lit "'") ->
    literal_part n w.

Inductive literal_arg : Node -> rstr -> Prop :=
| arg_name n m w :
    kind_is n "command_name" = true -> named_child_0 n = Some m -> kind_is m "word" = true ->
    literal_part m w -> literal_arg n w
| arg_part n w : literal_part n w -> literal_arg n w
| arg_concat n parts :
    kind_is n "concatenation" = true -> Forall2 literal_part (named_children n) parts ->
    concat parts <> [] -> literal_arg n (concat parts).

Lemma strip_quotes_Some q s t : strip_quotes q s = Some t -> s = q ++ t ++ q.
Proof.
  unfold strip_quotes. destruct (strip_prefix q s) as [r|] eqn:E; [|done].
  apply strip_prefix_Some in E as ->. by intros ->%strip_suffix_Some.
Qed.

Lemma parse_double_quoted_string_sound n w :
  parse_double_quoted_string n = Some w -> literal_part n w.
Proof.
  unfold parse_double_quoted_string. destruct (kind_is n "string") eqn:Ek; [|done]. simpl.
  destruct (forallb _ _) eqn:Ef; [|done]. simpl.
  destruct (utf8_text n) as [raw|] eqn:Et; [|done].
  destruct (strip_quotes _ _) as [s|] eqn:Es; [|done].
  destruct (has_escape s) eqn:Eh; [done|]. intros [= ->].
  apply strip_quotes_Some in Es as ->. apply lit_dquoted; try done.
  apply List.Forall_forall. by apply forallb_forall.
Qed.

Lemma parse_raw_string_sound n w : parse_raw_string n = Some w -> literal_part n w.
Proof.
  unfold parse_raw_string. destruct (kind_is n "raw_string") eqn:Ek; [|done]. simpl.
  destruct (utf8_text n) as [raw|] eqn:Et; [|done].
  intros ->%strip_quotes_Some. by apply lit_quoted.
Qed.

Lemma literal_word_part n w :
  is_literal_word_or_number n = true -> utf8_text n = Some w -> literal_part n w.
Proof.
  unfold is_literal_word_or_number. intros H Ht. rewrite Ht in H.
  destruct (is_word_or_number n) eqn:Ek; [|done]. simpl in H.
  apply andb_true_iff in H as [H1%is_empty_true H2]. by apply lit_word.
Qed.

(** A word the walk has visited is literal. *)
Lemma allowed_word_literal n :
  node_allowed n = true -> is_named n = true -> is_word_or_number n = true ->
  is_literal_word_or_number n = true.
Proof.
  unfold node_allowed. intros H Hn Hw. rewrite Hn, Hw in H.
  apply andb_true_iff in H as [_ H]. by destruct (is_literal_word_or_number n).
Qed.

Lemma named_children_named n c : c ∈ named_children n -> is_named c = true.
Proof. intros H. by apply list_elem_of_In, List.filter_In in H as [_ H]. Qed.

Section visited.
Context (root : Node) (Hall : forallb node_allowed (subnodes root) = true).

Lemma visited_allowed n : n ∈ subnodes root -> node_allowed n = true.
Proof. intros H. eapply forallb_forall in Hall; [exact Hall|]. by apply list_elem_of_In. Qed.

Lemma visited_children n c :
  n ∈ subnodes root -> c ∈ named_children n -> c ∈ subnodes root.
Proof.
  intros Hn Hc%named_children_children. clear Hall. revert Hn.
  induction root as [k nm s t cs IH] using node_forall_ind.
  rewrite subnodes_eq at 1. cbn [children]. rewrite elem_of_cons, list_elem_of_bind.
  intros [->|(d & Hn & Hd)].
  - eapply subnodes_child; [exact Hc|]. apply subnodes_self.
  - rewrite elem_of_reverse in Hd. eapply subnodes_child; [exact Hd|].
    rewrite Forall_forall in IH. by apply (IH d).
Qed.

Lemma visited_word n w :
  n ∈ subnodes root -> is_named n = true -> is_word_or_number n = true ->
  utf8_text n = Some w -> literal_part n w.
Proof.
  intros Hn Hnm Hw Ht. apply literal_word_part; [|done].
  apply allowed_word_literal; [by apply visited_allowed|done|done].
Qed.

Lemma plain_part_sound n w :
  n ∈ subnodes root -> is_named n = true -> plain_part n = Some w -> literal_part n w.
Proof.
  intros Hn Hnm. unfold plain_part.
  destruct (is_word_or_number n) eqn:Ew; [by apply visited_word|].
  destruct (kind_is n "string"); [apply parse_double_quoted_string_sound|].
  destruct (kind_is n "raw_string"); [apply parse_raw_string_sound|done].
Qed.

Lemma plain_word_sound n w :
  n ∈ subnodes root -> is_named n = true -> plain_word n = Some w -> literal_arg n w.
Proof.
  intros Hn Hnm. unfold plain_word.
  destruct (kind_is n "command_name") eqn:Ec.
  { destruct (named_child_0 n) as [m|] eqn:Em; [|done].
    destruct (kind_is m "word") eqn:Ew; [|done]. intros Ht.
    assert (m ∈ named_children n) as Hm by (by apply head_Some_elem_of).
    eapply arg_name; try done. apply visited_word; [by eapply visited_children| |
      by unfold is_word_or_number; rewrite Ew|done].
    by eapply named_children_named. }
  destruct (is_word_or_number n) eqn:Ew; [intros; by apply arg_part, visited_word|].
  destruct (kind_is n "string"); [intros; by apply arg_part, parse_double_quoted_string_sound|].
  destruct (kind_is n "raw_string"); [intros; by apply arg_part, parse_raw_string_sound|].
  destruct (kind_is n "concatenation") eqn:Ek; [|done].
  unfold plain_concatenation, non_empty_text.
  destruct (mapM plain_part (named_children n)) as [parts|] eqn:Ep; [|done].
  destruct (is_empty (concat parts)) eqn:Ee; [done|]. intros [= <-].
  apply arg_concat; [done| |by apply is_empty_false].
  eapply mapM_sound; [|exact Ep]. intros a b Ha Hb.
  apply plain_part_sound; [by eapply visited_children|by eapply named_children_named|done].
Qed.
End visited.

(** ** Literal commands *)

Fixpoint named_subnodes (n : Node) : list Node :=
  match n with
  | mkNode k nm s t cs =>
      mkNode k nm s t cs
      :: (fix later_first (l : list Node) : list Node :=
            match l with
            | [] => []
            | c :: r => later_first r ++ (if is_named c then named_subnodes c else [])
            end) cs
  end.

Lemma named_subnodes_eq n :
  named_subnodes n = n :: (reverse (named_children n) ≫= named_subnodes).
Proof.
  destruct n as [k nm s t cs]. unfold named_children. simpl. f_equal.
  induction cs as [|c cs IH]; [done|]. simpl. rewrite IH.
  destruct (is_named c); [|by rewrite app_nil_r].
  rewrite reverse_cons, bind_app. simpl. by rewrite app_nil_r.
Qed.

Lemma literal_walk_spec fuel stack acc :
  sum_list_with node_count stack <= fuel ->
  literal_walk fuel stack acc =
  acc ++ omap parse_literal_command_from_node (stack ≫= named_subnodes).
Proof.
  revert stack acc. induction fuel as [|fuel IH]; intros [|n stack] acc Hf;
    try (by rewrite app_nil_r).
  { simpl in Hf. rewrite node_count_eq in Hf. lia. }
  cbn [literal_walk]. rewrite IH.
  2:{ rewrite sum_list_with_app, sum_list_with_reverse. simpl in Hf.
      rewrite node_count_eq in Hf. pose proof (sum_list_with_filter node_count is_named (children n)).
      unfold named_children. lia. }
  rewrite bind_cons, named_subnodes_eq, bind_app. cbn [app omap list_omap].
  destruct (kind_is n "command") eqn:Ek.
  - destruct (parse_literal_command_from_node n); [by rewrite <- app_assoc|done].
  - unfold parse_literal_command_from_node at 2. by rewrite Ek.
Qed.

(** The literal commands of a script are those of the command nodes reached
    through named nodes. *)
Lemma literal_commands_spec parse command shell script tree :
  extract_bash_command command = Some (shell, script) -> parse script = Some tree ->
  has_error tree = false ->
  parse_shell_lc_literal_commands parse command =
  Some (omap parse_literal_command_from_node (named_subnodes (root_node tree))).
Proof.
  intros He Hp Herr. unfold parse_shell_lc_literal_commands. rewrite He, Hp, Herr.
  rewrite literal_walk_spec by (simpl; lia). rewrite bind_cons. cbn [mbind list_bind app].
  by rewrite app_nil_r.
Qed.

Lemma parse_literal_concatenation n :
  kind_is n "concatenation" = true ->
  parse_literal_shell_word n =
  match mapM parse_literal_shell_word (named_children n) with
  | None => None
  | Some parts => non_empty_text (concat parts)
  end.
Proof.
  intros Hk%str_eqb_true. destruct n as [k nm s t cs]. simpl in Hk. subst k.
  unfold named_children. cbn [children]. simpl.
  match goal with |- match ?f cs with _ => _ end = _ => set (parts := f) end.
  assert (parts cs = @concat N <$> mapM parse_literal_shell_word (List.filter is_named cs)) as ->.
  { induction cs as [|c cs IH]; [done|]. simpl. rewrite IH.
    destruct (is_named c); [|done]. simpl.
    destruct (parse_literal_shell_word c); [|done]. simpl. by destruct (mapM _ _). }
  by destruct (mapM _ _).
Qed.

Lemma parse_literal_word n w :
  is_literal_word_or_number n = true -> utf8_text n = Some w ->
  parse_literal_shell_word n = Some w.
Proof.
  intros Hl Ht. assert (is_word_or_number n = true) as Hw.
  { unfold is_literal_word_or_number in Hl. by destruct (is_word_or_number n). }
  destruct n as [k nm s t cs]. cbn [parse_literal_shell_word]. by rewrite Hw, Hl.
Qed.

Lemma parse_literal_quoted n w :
  (if kind_is n "string" then parse_double_quoted_string n
   else if kind_is n "raw_string" then parse_raw_string n else None) = Some w ->
  parse_literal_shell_word n = Some w.
Proof.
  destruct (kind_is n "string") eqn:Es; [|destruct (kind_is n "raw_string") eqn:Er; [|done]];
    intros <-; destruct n as [k nm s t cs]; cbn [parse_literal_shell_word].
  - assert (k = lit "string") as -> by by apply str_eqb_true. done.
  - assert (k = lit "raw_string") as -> by by apply str_eqb_true. done.
Qed.

Section plain_is_literal.
Context (root : Node) (Hall : forallb node_allowed (subnodes root) = true).

Lemma plain_part_literal n w :
  n ∈ subnodes root -> is_named n = true -> plain_part n = Some w ->
  parse_literal_shell_word n = Some w.
Proof.
  intros Hn Hnm. unfold plain_part. destruct (is_word_or_number n) eqn:Ew.
  - intros Ht. apply parse_literal_word; [|done].
    apply allowed_word_literal; [by eapply visited_allowed|done|done].
  - apply parse_literal_quoted.
Qed.

Lemma plain_word_literal n w :
  n ∈ subnodes root -> is_named n = true -> kind_is n "command_name" = false ->
  plain_word n = Some w -> parse_literal_shell_word n = Some w.
Proof.
  intros Hn Hnm Hc. pose proof (plain_part_literal n w Hn Hnm) as Hp. revert Hp.
  unfold plain_word, plain_part. rewrite Hc.
  destruct (is_word_or_number n); [auto|]. destruct (kind_is n "string"); [auto|].
  destruct (kind_is n "raw_string"); [auto|].
  destruct (kind_is n "concatenation") eqn:Ek; [|done]. intros _.
  rewrite parse_literal_concatenation by done. unfold plain_concatenation.
  destruct (mapM plain_part (named_children n)) as [parts|] eqn:Ep; [|done].
  assert (mapM parse_literal_shell_word (named_children n) = Some parts) as ->; [|done].
  apply mapM_Some. eapply mapM_sound; [|exact Ep]. intros a b Ha Hb.
  apply plain_part_literal; [by eapply visited_children|by eapply named_children_named|done].
Qed.

Lemma literal_args_loop args words acc :
  Forall2 (fun a w => kind_is a "command_name" = false /\ parse_literal_shell_word a = Some w)
    args words ->
  literal_command_loop args acc true = Some (acc ++ words).
Proof.
  intros H. revert acc. induction H as [|a w args words [Hk Hw] _ IH]; intros acc; simpl.
  - by rewrite app_nil_r.
  - by rewrite Hk, Hw, IH, <- app_assoc.
Qed.

(** A command as the grammar builds it: assignments and redirections, its
    name, arguments. *)
Definition command_shape (n : Node) : Prop :=
  exists before name args, named_children n = before ++ name :: args
    /\ Forall (fun a => node_kind a ∉ ALLOWED_KINDS) before
    /\ kind_is name "command_name" = true
    /\ Forall (fun a => kind_is a "command_name" = false) args.

Lemma plain_command_literal n words :
  n ∈ subnodes root -> command_shape n ->
  parse_plain_command_from_node n = Some words ->
  parse_literal_command_from_node n = Some words.
Proof.
  unfold parse_plain_command_from_node, parse_literal_command_from_node.
  intros Hn (before & name & args & Hc & Hbefore & Hname & Hargs).
  destruct (kind_is n "command"); [|done].
  assert (before = []) as ->.
  { destruct before as [|b before]; [done|]. inversion Hbefore as [|? ? Hb _]; subst.
    assert (b ∈ named_children n) as Hin by (rewrite Hc; apply elem_of_cons; by left).
    pose proof (visited_allowed root Hall b (visited_children root n b Hn Hin)) as Ha.
    unfold node_allowed in Ha. rewrite (named_children_named n b Hin) in Ha.
    apply andb_true_iff in Ha as [Ha%bool_decide_eq_true _]. done. }
  cbn [app] in Hc.
  assert (forall c, c ∈ name :: args -> c ∈ subnodes root /\ is_named c = true) as Hsub.
  { intros c Hin. rewrite <- Hc in Hin. split; [by eapply visited_children|].
    by eapply named_children_named. }
  rewrite Hc. cbn [negb]. intros H. apply mapM_Some in H.
  inversion H as [|? w ? ws Hw Hws]; subst. cbn [literal_command_loop]. rewrite Hname.
  unfold plain_word in Hw. rewrite Hname in Hw.
  destruct (named_child_0 name) as [m|] eqn:Em; [|done].
  destruct (kind_is m "word") eqn:Ek; [|done].
  assert (m ∈ named_children name) as Hm by (by apply head_Some_elem_of).
  destruct (Hsub name) as [Hin _]; [apply elem_of_cons; by left|].
  rewrite (parse_literal_word m w); [|apply allowed_word_literal|done].
  2:{ eapply visited_allowed; [exact Hall|]. by eapply visited_children. }
  2:{ by eapply named_children_named. }
  2:{ unfold is_word_or_number. by rewrite Ek. }
  rewrite (literal_args_loop args ws); [done|].
  assert (forall c, c ∈ args -> c ∈ subnodes root /\ is_named c = true) as Hsub'.
  { intros c Hin'. apply Hsub, elem_of_cons. by right. }
  clear - Hws Hargs Hsub' Hall.
  induction Hws as [|a w args ws Ha Hws IH]; [constructor|]. inversion Hargs; subst.
  destruct (Hsub' a) as [? ?]; [apply elem_of_cons; by left|].
  constructor; [split; [done|by apply plain_word_literal]|].
  apply IH; [done|]. intros c Hc. apply Hsub', elem_of_cons. by right.
Qed.
End plain_is_literal.

(** ** Danger as a chain of wrappers *)

Definition forced_rm (command : list rstr) : Prop :=
  (head command ≫= executable_name_lookup_key) = Some (lit "rm")
  /\ rm_args_include_force_option (drop 1 command) = true.

Definition runs_as (name : string) (command : list rstr) : Prop :=
  (head command ≫= executable_name_lookup_key) = Some (lit name).

Section chains.
Context (try_parse_shell : rstr -> option Tree).

(** [unwraps c c']: running [c] runs [c']. *)
Inductive unwraps : list rstr -> list rstr -> Prop :=
| unwrap_sudo command : runs_as "sudo" command -> unwraps command (drop 1 command)
| unwrap_env command :
    runs_as "env" command -> unwraps command (skip_env_arguments (drop 1 command))
| unwrap_trap command action :
    runs_as "trap" command -> trap_action command = Some action ->
    unwraps command [lit "sh"; lit "-c"; action]
| unwrap_script command commands inner :
    parse_shell_lc_literal_commands try_parse_shell command = Some commands ->
    inner ∈ commands -> unwraps command inner.

(** Where a match of one level comes from. *)
Lemma match_step_Some levels command m :
  dangerous_command_match_with_depth try_parse_shell (S levels) command = Some m ->
  (m = ForcedRm /\ forced_rm command)
  \/ exists inner, unwraps command inner
       /\ dangerous_command_match_with_depth try_parse_shell levels inner = Some m.
Proof.
  cbn [dangerous_command_match_with_depth].
  destruct (dangerous_command_match_for_exec _ command) as [m'|] eqn:Ee.
  - intros [= ->]. revert Ee. unfold dangerous_command_match_for_exec.
    destruct (head command ≫= executable_name_lookup_key) as [cmd0|] eqn:Ek; [|done].
    destruct (_ && _) eqn:Erm.
    { intros [= <-]. left. apply andb_true_iff in Erm as [->%str_eqb_true Hf]. done. }
    clear Erm. destruct (cmd0 == lit "sudo") eqn:Es.
    { apply str_eqb_true in Es as ->. right. eexists; split; [by apply unwrap_sudo|done]. }
    destruct (cmd0 == lit "env") eqn:En.
    { apply str_eqb_true in En as ->. right. eexists; split; [by apply unwrap_env|done]. }
    destruct (cmd0 == lit "trap") eqn:Et; [|done]. apply str_eqb_true in Et as ->.
    unfold dangerous_command_match_for_trap.
    destruct (trap_action command) as [action|] eqn:Ea; [|done].
    right. eexists; split; [by apply unwrap_trap|done].
  - destruct (parse_shell_lc_literal_commands _ command) as [cs|] eqn:Ec; [|done].
    intros (c & Hc & Hm)%find_map_Some. right. exists c. split; [by eapply unwrap_script|done].
Qed.

(** A level without a match has neither a forced [rm] nor a dangerous inner command. *)
Lemma match_step_None levels command :
  dangerous_command_match_with_depth try_parse_shell (S levels) command = None ->
  ~ forced_rm command
  /\ forall inner, unwraps command inner ->
       dangerous_command_match_with_depth try_parse_shell levels inner = None.
Proof.
  cbn [dangerous_command_match_with_depth].
  destruct (dangerous_command_match_for_exec _ command) as [m'|] eqn:Ee; [done|].
  intros Hs. unfold dangerous_command_match_for_exec in Ee. split.
  - intros [Hk Hf]. rewrite Hk, Hf in Ee. by rewrite str_eqb_refl in Ee.
  - intros inner Hu. destruct Hu as [command Hr|command Hr|command action Hr Ha|command cs inner Hc Hin].
    + by rewrite Hr in Ee.
    + by rewrite Hr in Ee.
    + rewrite Hr in Ee. change (dangerous_command_match_for_trap
        (dangerous_command_match_with_depth try_parse_shell levels) command = None) in Ee.
      unfold dangerous_command_match_for_trap in Ee. by rewrite Ha in Ee.
    + rewrite Hc in Hs. by eapply find_map_None.
Qed.

Lemma match_depth_iff levels command :
  dangerous_command_match_with_depth try_parse_shell levels command <> None <->
  (exists k inner, k < levels /\ nsteps unwraps k command inner /\ forced_rm inner)
  \/ exists inner, nsteps unwraps levels command inner.
Proof.
  revert command. induction levels as [|levels IH]; intros command.
  { split; [intros _; right; exists command; constructor|done]. }
  split.
  - destruct (dangerous_command_match_with_depth _ _ command) as [m|] eqn:E; [|done]. intros _.
    apply match_step_Some in E as [[_ Hf]|(inner & Hu & Hi)].
    { left. exists 0, command. split; [lia|]. split; [constructor|done]. }
    destruct (proj1 (IH inner)) as [(k & c & Hk & Hn & Hf)|(c & Hn)]; [by rewrite Hi| |].
    + left. exists (S k), c. split; [lia|]. split; [by econstructor|done].
    + right. exists c. by econstructor.
  - intros H Hnone. apply match_step_None in Hnone as [Hrm Hin].
    destruct H as [(k & c & Hk & Hn & Hf)|(c & Hn)]; inversion Hn as [|? ? inner ? Hu Hrest]; subst.
    + done.
    + apply (proj2 (IH inner)); [|by apply Hin]. left. exists n, c. split; [lia|done].
    + apply (proj2 (IH inner)); [|by apply Hin]. right. by exists c.
Qed.

Lemma forced_rm_chain levels command :
  dangerous_command_match_with_depth try_parse_shell levels command = Some ForcedRm ->
  exists k inner, k < levels /\ nsteps unwraps k command inner /\ forced_rm inner.
Proof.
  revert command. induction levels as [|levels IH]; intros command; [done|].
  intros [[_ Hf]|(inner & Hu & Hi)]%match_step_Some.
  - exists 0, command. split; [lia|]. split; [constructor|done].
  - destruct (IH _ Hi) as (k & c & Hk & Hn & Hf). exists (S k), c.
    split; [lia|]. split; [by econstructor|done].
Qed.
End chains.

(** C27: A command is classified as dangerous exactly when at most eight
    unwrappings ([sudo], [env], the action of [trap], a literal command of a
    shell script) lead to an [rm] with a force option, or when nine
    unwrappings are possible at all; the class [ForcedRm] is reported only for
    the first reason. *)
Theorem dangerous_iff_wrapped_forced_rm try_parse_shell command :
  (dangerous_command_match try_parse_shell command <> None <->
   (exists k inner, k <= 8 /\ nsteps (unwraps try_parse_shell) k command inner /\ forced_rm inner)
   \/ exists inner, nsteps (unwraps try_parse_shell) 9 command inner)
  /\ (dangerous_command_match try_parse_shell command = Some ForcedRm ->
      exists k inner,
        k <= 8 /\ nsteps (unwraps try_parse_shell) k command inner /\ forced_rm inner).
Proof.
  unfold dangerous_command_match. change (S MAX_DANGEROUS_COMMAND_WRAPPER_DEPTH) with 9. split.
  - rewrite match_depth_iff. split; (intros [(k & c & Hk & H)|H]; [left; exists k, c|by right]);
      (split; [lia|done]).
  - intros (k & c & Hk & H)%forced_rm_chain. exists k, c. split; [lia|done].
Qed.

(** When a script is read as plain commands, every node of its tree passed
    the test of the walk, the commands are those of exactly the command nodes
    of the tree in source order, and each word is the value of its node: an
    unexpandable word, a quoted string without escapes, or a concatenation of
    these. *)
Theorem plain_commands_literal tree commands :
  try_parse_word_only_commands_sequence tree = Some commands ->
  has_error tree = false
  /\ Forall (fun n => node_allowed n = true) (subnodes (root_node tree))
  /\ exists nodes,
       nodes ≡ₚ List.filter is_command (subnodes (root_node tree))
       /\ StronglySorted (fun a b => start_byte a <= start_byte b) nodes
       /\ Forall2 (fun n words => Forall2 literal_arg (named_children n) words) nodes commands.
Proof.
  rewrite try_parse_word_only_spec. destruct (has_error tree); [done|].
  destruct (forallb node_allowed (subnodes (root_node tree))) eqn:Hall; [|done].
  intros Hm. split; [done|]. split; [by apply List.Forall_forall, forallb_forall|].
  eexists. split; [apply sort_by_key_perm|]. split; [apply sort_by_key_sorted|].
  eapply mapM_sound; [|exact Hm]. intros n words Hn Hw.
  rewrite sort_by_key_perm in Hn. apply list_elem_of_In, List.filter_In in Hn as [Hn _].
  apply list_elem_of_In in Hn. unfold parse_plain_command_from_node in Hw.
  destruct (kind_is n "command"); [|done]. cbn [negb] in Hw.
  eapply mapM_sound; [|exact Hw]. intros c w Hc Hcw.
  eapply plain_word_sound; [exact Hall|by eapply visited_children|by eapply named_children_named|done].
Qed.

(** The trees the bash grammar builds: anonymous nodes are leaves and a
    command has one name, after assignments and redirections and before its
    arguments. *)
Definition grammar_shape (root : Node) : Prop :=
  Forall (fun n => (is_named n = false -> children n = [])
                   /\ (is_command n = true -> command_shape n)) (subnodes root).

Lemma named_reachable root n :
  grammar_shape root -> is_named root = true -> is_named n = true ->
  n ∈ subnodes root -> n ∈ named_subnodes root.
Proof.
  induction root as [k nm s t cs IH] using node_forall_ind. intros Hg Hr Hn.
  rewrite subnodes_eq, named_subnodes_eq. cbn [children].
  rewrite !elem_of_cons, !list_elem_of_bind. intros [->|(c & Hc & Hin)]; [by left|].
  right. rewrite elem_of_reverse in Hin.
  assert (forall m, m ∈ subnodes c -> m ∈ subnodes (mkNode k nm s t cs)) as Hsub.
  { intros m. by apply subnodes_child. }
  unfold grammar_shape in Hg. rewrite Forall_forall in Hg.
  assert (is_named c = true) as Hcn.
  { destruct (is_named c) eqn:E; [done|]. destruct (Hg c) as [Hleaf _].
    { apply Hsub, subnodes_self. }
    rewrite subnodes_eq, (Hleaf E) in Hc. apply list_elem_of_singleton in Hc. congruence. }
  exists c. split.
  - rewrite Forall_forall in IH. apply IH; [done| |done|done|done].
    apply Forall_forall. intros m Hm. by apply Hg, Hsub.
  - apply elem_of_reverse, list_elem_of_In, List.filter_In.
    split; [by apply list_elem_of_In|done].
Qed.

Lemma plain_command_is_literal parse command commands c :
  (forall script tree, parse script = Some tree -> has_error tree = false ->
     grammar_shape (root_node tree) /\ is_named (root_node tree) = true) ->
  parse_shell_lc_plain_commands parse command = Some commands -> c ∈ commands ->
  unwraps parse command c.
Proof.
  unfold parse_shell_lc_plain_commands, parse_shell_script_into_commands. intros Hg.
  destruct (extract_bash_command command) as [[shell script]|] eqn:Ee; [|done].
  destruct (parse script) as [tree|] eqn:Ep; [|done].
  rewrite try_parse_word_only_spec. destruct (has_error tree) eqn:Eh; [done|].
  destruct (Hg _ _ Ep Eh) as [Hshape Hroot].
  destruct (forallb node_allowed (subnodes (root_node tree))) eqn:Hall; [|done].
  intros Hm Hc. eapply unwrap_script; [by eapply literal_commands_spec|].
  apply mapM_Some in Hm. apply list_elem_of_lookup in Hc as [i Hi].
  destruct (Forall2_lookup_r _ _ _ _ _ Hm Hi) as (n & Hn & Hw).
  apply list_elem_of_lookup_2 in Hn. rewrite sort_by_key_perm in Hn.
  apply list_elem_of_In, List.filter_In in Hn as [Hn Hcmd]. apply list_elem_of_In in Hn.
  pose proof Hshape as Hs. unfold grammar_shape in Hs. rewrite Forall_forall in Hs.
  apply list_elem_of_omap. exists n. split.
  - apply named_reachable; try done. by apply andb_true_iff in Hcmd as [? _].
  - eapply plain_command_literal; [exact Hall|done|by apply Hs|done].
Qed.

(** The two readings of a script agree on danger: if a script is read as
    plain commands and one of them is dangerous one level further down, the
    invocation of the shell itself is dangerous. *)
Theorem dangerous_plain_command_found parse command commands c :
  (forall script tree, parse script = Some tree -> has_error tree = false ->
     grammar_shape (root_node tree) /\ is_named (root_node tree) = true) ->
  parse_shell_lc_plain_commands parse command = Some commands -> c ∈ commands ->
  dangerous_command_match_with_depth parse MAX_DANGEROUS_COMMAND_WRAPPER_DEPTH c <> None ->
  dangerous_command_match parse command <> None.
Proof.
  intros Hg Hp Hc Hd Hnone. apply match_step_None in Hnone as [_ Hin].
  apply Hd, Hin. by eapply plain_command_is_literal.
Qed.

(** ** A concrete script *)
Module Examples.

Definition leaf (k text : string) (start : nat) : Node :=
  mkNode (lit k) true start (Some (lit text)) [].

Definition command_node (start : nat) (text name : string) (args : list Node) : Node :=
  mkNode (lit "command") true start (Some (lit text))
    (mkNode (lit "command_name") true start (Some (lit name)) [leaf "word" name start] :: args).

(** [ls -a && rm -rf 'x y'] *)
Definition script_tree : Tree :=
  mkTree
    (mkNode (lit "program") true 0 None
       [mkNode (lit "list") true 0 None
          [command_node 0 "ls -a" "ls" [leaf "word" "-a" 3];
           mkNode (lit "&&") false 6 (Some (lit "&&")) [];
           command_node 9 "rm -rf 'x y'" "rm" [leaf "word" "-rf" 12; leaf "raw_string" "'x y'" 16]]])
    false.

Definition parser (script : rstr) : option Tree :=
  if script == lit "ls -a && rm -rf 'x y'" then Some script_tree else None.

Definition invocation : list rstr := [lit "/bin/bash"; lit "-lc"; lit "ls -a && rm -rf 'x y'"].

Definition plain : list (list rstr) :=
  [[lit "ls"; lit "-a"]; [lit "rm"; lit "-rf"; lit "x y"]].

Lemma script_tree_shape : grammar_shape (root_node script_tree).
Proof.
  apply Forall_forall. intros n Hn. vm_compute in Hn.
  repeat (apply elem_of_cons in Hn as [->|Hn]; [split; [try done|try done]|]);
    try (by apply elem_of_nil in Hn).
  all: intros _; eexists [], _, _; split; [reflexivity|]; split; [constructor|];
    split; [reflexivity|]; repeat constructor.
Qed.

Lemma parser_shape script tree :
  parser script = Some tree -> has_error tree = false ->
  grammar_shape (root_node tree) /\ is_named (root_node tree) = true.
Proof.
  unfold parser. destruct (script == _); [|done]. intros [= <-] _.
  split; [apply script_tree_shape|done].
Qed.
End Examples.

Lemma plain_commands_literal_witness :
  exists nodes,
    nodes ≡ₚ List.filter is_command (subnodes (root_node Examples.script_tree))
    /\ Forall2 (fun n words => Forall2 literal_arg (named_children n) words) nodes Examples.plain.
Proof.
  destruct (plain_commands_literal Examples.script_tree Examples.plain) as (_ & _ & nodes & Hp & _ & Hf).
  - vm_compute. reflexivity.
  - by exists nodes.
Defined.

Lemma dangerous_plain_command_found_witness :
  dangerous_command_match Examples.parser Examples.invocation <> None
  /\ dangerous_command_match Examples.parser Examples.invocation = Some ForcedRm.
Proof.
  split; [|vm_compute; reflexivity].
  apply (dangerous_plain_command_found Examples.parser Examples.invocation Examples.plain
           [lit "rm"; lit "-rf"; lit "x y"]).
  - exact Examples.parser_shape.
  - vm_compute. reflexivity.
  - apply elem_of_cons. right. apply elem_of_cons. by left.
  - vm_compute. discriminate.
Defined.
