(* ===== verification/Permissions.v ===== *)
(** * Filesystem sandbox policies

    [protocol/src/permissions.rs]: entries that grant or deny access to paths,
    the resolution of the access to one path, the protection of workspace
    metadata, and the operations that derive one policy from another (the
    branches of the Unix build).

    Paths of a policy are URIs of [utils/path-uri], which wraps a third-party
    URL type.  What the policy asks of them is the class [PathUriLexical]; two
    URIs are equal when the source's [==] says so.  [PathUriLaws] is what the
    theorems on intersections use of containment; PathUri.v models the type of
    the sources and proves the laws of it, and [posix_uri] is an instance whose
    URIs have one spelling each. *)

From Stdlib Require Import Lia.
From stdpp Require Import base list strings.
From S2P Require Import Prelude AbsolutePath.

Open Scope rust_scope.

(** ** Path URIs *)

Class PathUriLexical (U : Type) := {
  uri_eq_dec :: EqDecision U;
  infer_path_convention : U -> option PathConvention;
  lexical_depth : U -> option nat;
  is_opaque : U -> bool;
  uri_starts_with : U -> U -> bool;
  uri_join : U -> rstr -> option U;
  join_descendant : U -> rstr -> option U;
  ancestors_last : U -> option U;
  to_abs_path : U -> option AbsolutePathBuf;
  from_abs_path : AbsolutePathBuf -> U
}.

(** ** Data *)

Inductive NetworkSandboxPolicy := NetworkRestricted | NetworkEnabled.

Definition is_enabled (n : NetworkSandboxPolicy) : bool :=
  match n with NetworkEnabled => true | NetworkRestricted => false end.

(** In the order of precedence. *)
Inductive FileSystemAccessMode := Read | Write | Deny.

#[export] Instance access_mode_eq_dec : EqDecision FileSystemAccessMode.
Proof. solve_decision. Defined.

Definition access_rank (a : FileSystemAccessMode) : nat :=
  match a with Read => 0 | Write => 1 | Deny => 2 end.

Definition can_read (a : FileSystemAccessMode) : bool :=
  match a with Deny => false | _ => true end.

Definition can_write (a : FileSystemAccessMode) : bool :=
  match a with Write => true | _ => false end.

Definition is_deny (a : FileSystemAccessMode) : bool :=
  match a with Deny => true | _ => false end.

Inductive FileSystemSpecialPath :=
| Root
| Minimal
| ProjectRoots (subpath : option rstr)
| Tmpdir
| SlashTmp
| Unknown (path : rstr) (subpath : option rstr).

#[export] Instance special_path_eq_dec : EqDecision FileSystemSpecialPath.
Proof. solve_decision. Defined.

Inductive MissingPathBehavior := SkipMissing.

#[export] Instance missing_path_behavior_eq_dec : EqDecision MissingPathBehavior.
Proof. solve_decision. Defined.

Inductive FileSystemSandboxKind := Restricted | Unrestricted | ExternalSandbox.

#[export] Instance sandbox_kind_eq_dec : EqDecision FileSystemSandboxKind.
Proof. solve_decision. Defined.

Definition is_restricted (k : FileSystemSandboxKind) : bool :=
  match k with Restricted => true | _ => false end.

Section policy.
Context {U : Type} `{!PathUriLexical U}.

Inductive FileSystemPath :=
| PathEntry (path : U)
| GlobPattern (pattern : rstr)
| Special (value : FileSystemSpecialPath).

#[export] Instance file_system_path_eq_dec : EqDecision FileSystemPath.
Proof. solve_decision. Defined.

Record FileSystemSandboxEntry := mkEntry {
  entry_path : FileSystemPath;
  access : FileSystemAccessMode;
  missing_path_behavior : option MissingPathBehavior
}.

#[export] Instance sandbox_entry_eq_dec : EqDecision FileSystemSandboxEntry.
Proof. solve_decision. Defined.

Definition new_entry (path : FileSystemPath) (a : FileSystemAccessMode) : FileSystemSandboxEntry :=
  mkEntry path a None.

Definition skip_missing_path (path : FileSystemPath) (a : FileSystemAccessMode)
  : FileSystemSandboxEntry := mkEntry path a (Some SkipMissing).

Definition skips_missing_path (e : FileSystemSandboxEntry) : bool :=
  bool_decide (missing_path_behavior e = Some SkipMissing).

Record FileSystemSandboxPolicy := mkFsPolicy {
  fs_kind : FileSystemSandboxKind;
  glob_scan_max_depth : option nat;
  entries : list FileSystemSandboxEntry
}.

Definition set_entries (p : FileSystemSandboxPolicy) (es : list FileSystemSandboxEntry)
  : FileSystemSandboxPolicy := mkFsPolicy (fs_kind p) (glob_scan_max_depth p) es.

Record FileSystemSandboxPolicyContext := mkContext {
  ctx_cwd : U;
  workspace_roots : list U;
  temporary_directories : option (list U)
}.

(** ** Constructors *)

Definition restricted (es : list FileSystemSandboxEntry) : FileSystemSandboxPolicy :=
  mkFsPolicy Restricted None es.

Definition unrestricted : FileSystemSandboxPolicy := mkFsPolicy Unrestricted None [].

Definition external_sandbox : FileSystemSandboxPolicy := mkFsPolicy ExternalSandbox None [].

Definition read_only_file_system_entries : list FileSystemSandboxEntry :=
  [new_entry (Special Root) Read].

Definition read_only : FileSystemSandboxPolicy := restricted read_only_file_system_entries.

Definition remove_skip_missing_path_entries (p : FileSystemSandboxPolicy)
  : FileSystemSandboxPolicy :=
  set_entries p (List.filter (fun e => negb (skips_missing_path e)) (entries p)).

(** ** Targets *)

Definition special_paths_share_target (left right : FileSystemSpecialPath) : bool :=
  match left, right with
  | Root, Root | Minimal, Minimal | Tmpdir, Tmpdir | SlashTmp, SlashTmp => true
  | ProjectRoots l, ProjectRoots r => bool_decide (l = r)
  | Unknown l ls, Unknown r rs => (l == r) && bool_decide (ls = rs)
  | _, _ => false
  end.

Definition special_path_matches_absolute_path (value : FileSystemSpecialPath)
    (path : AbsolutePathBuf) : bool :=
  match value with
  | Root => negb (is_some (parent path))
  | SlashTmp => bool_decide (path = components (lit "/tmp"))
  | _ => false
  end.

Definition file_system_paths_share_target (left right : FileSystemPath) : bool :=
  match left, right with
  | PathEntry l, PathEntry r => bool_decide (l = r)
  | Special l, Special r => special_paths_share_target l r
  | PathEntry path, Special value | Special value, PathEntry path =>
      is_some_and (to_abs_path path) (special_path_matches_absolute_path value)
  | GlobPattern l, GlobPattern r => l == r
  | GlobPattern _, _ | _, GlobPattern _ => false
  end.

(** ** Whole-policy questions *)

Definition has_root_access (p : FileSystemSandboxPolicy)
    (predicate : FileSystemAccessMode -> bool) : bool :=
  is_restricted (fs_kind p)
  && existsb (fun e => match entry_path e with Special Root => predicate (access e) | _ => false end)
       (entries p).

Definition has_denied_read_restrictions (p : FileSystemSandboxPolicy) : bool :=
  is_restricted (fs_kind p) && existsb (fun e => is_deny (access e)) (entries p).

Definition has_same_target_write_override (p : FileSystemSandboxPolicy)
    (e : FileSystemSandboxEntry) : bool :=
  existsb (fun candidate =>
    can_write (access candidate)
    && (access_rank (access e) <? access_rank (access candidate))
    && file_system_paths_share_target (entry_path candidate) (entry_path e)) (entries p).

Definition narrows_write (p : FileSystemSandboxPolicy) (e : FileSystemSandboxEntry) : bool :=
  if can_write (access e) then false
  else match entry_path e with
       | PathEntry _ => negb (has_same_target_write_override p e)
       | GlobPattern _ => true
       | Special value =>
           match value with
           | Root => is_deny (access e)
           | Minimal | Unknown _ _ => false
           | _ => negb (has_same_target_write_override p e)
           end
       end.

Definition has_write_narrowing_entries (p : FileSystemSandboxPolicy) : bool :=
  is_restricted (fs_kind p) && existsb (narrows_write p) (entries p).

Definition has_full_disk_read_access (p : FileSystemSandboxPolicy) : bool :=
  match fs_kind p with
  | Unrestricted | ExternalSandbox => true
  | Restricted => has_root_access p can_read && negb (has_denied_read_restrictions p)
  end.

Definition has_full_disk_write_access (p : FileSystemSandboxPolicy) : bool :=
  match fs_kind p with
  | Unrestricted | ExternalSandbox => true
  | Restricted => has_root_access p can_write && negb (has_write_narrowing_entries p)
  end.

Definition include_platform_defaults (p : FileSystemSandboxPolicy) : bool :=
  negb (has_full_disk_read_access p) && is_restricted (fs_kind p)
  && existsb (fun e => match entry_path e with
                       | Special Minimal => can_read (access e) | _ => false end) (entries p).

(** ** The access to one path *)

Definition file_system_root (ctx : FileSystemSandboxPolicyContext) : option U :=
  match lexical_depth (ctx_cwd ctx) with
  | None => None
  | Some _ => ancestors_last (ctx_cwd ctx)
  end.

Definition entry_paths (ctx : FileSystemSandboxPolicyContext) (path : FileSystemPath) : list U :=
  match path with
  | PathEntry path => [path]
  | GlobPattern _ => []
  | Special value =>
      match value with
      | Root => option_list (file_system_root ctx)
      | ProjectRoots subpath =>
          omap (fun root => match subpath with
                            | Some subpath => uri_join root subpath
                            | None => Some root
                            end) (workspace_roots ctx)
      | Tmpdir => default [] (temporary_directories ctx)
      | SlashTmp =>
          if bool_decide (infer_path_convention (ctx_cwd ctx) = Some Posix)
          then option_list (uri_join (ctx_cwd ctx) (lit "/tmp")) else []
      | Minimal | Unknown _ _ => []
      end
  end.

Definition same_convention (ctx : FileSystemSandboxPolicyContext) (path : U) : bool :=
  bool_decide (infer_path_convention path = infer_path_convention (ctx_cwd ctx)).

Definition resolved_entries (p : FileSystemSandboxPolicy) (ctx : FileSystemSandboxPolicyContext)
  : list (U * FileSystemAccessMode) :=
  e ← entries p;
  (fun path => (path, access e)) <$> List.filter (same_convention ctx) (entry_paths ctx (entry_path e)).

(** The [try_fold] that adds the depth of each root: opaque roots are
    skipped, a root without a depth that is not opaque fails. *)
Fixpoint with_depths (l : list (U * FileSystemAccessMode))
  : option (list (U * FileSystemAccessMode * nat)) :=
  match l with
  | [] => Some []
  | (root, a) :: r =>
      match lexical_depth root with
      | Some depth => cons (root, a, depth) <$> with_depths r
      | None => if is_opaque root then with_depths r else None
      end
  end.

(** The order of [(depth, access)]. *)
Definition specificity_le (a b : U * FileSystemAccessMode * nat) : bool :=
  let '(_, aa, ad) := a in
  let '(_, ba, bd) := b in
  (ad <? bd) || (ad =? bd) && (access_rank aa <=? access_rank ba).

Definition resolve_access (p : FileSystemSandboxPolicy) (path : U)
    (ctx : FileSystemSandboxPolicyContext) : FileSystemAccessMode :=
  match fs_kind p with
  | Unrestricted | ExternalSandbox => Write
  | Restricted =>
      match infer_path_convention (ctx_cwd ctx) with
      | None => Deny
      | Some convention =>
          if negb (bool_decide (infer_path_convention path = Some convention))
             || negb (is_some (lexical_depth path))
             || negb (is_some (lexical_depth (ctx_cwd ctx)))
          then Deny
          else match with_depths (resolved_entries p ctx) with
               | None => Deny
               | Some es =>
                   match max_by specificity_le
                           (List.filter (fun '(root, _, _) => uri_starts_with path root) es) with
                   | Some (_, a, _) => a
                   | None => Deny
                   end
               end
      end
  end.

Definition PROTECTED_METADATA_PATH_NAMES : list rstr := [lit ".git"; lit ".agents"; lit ".codex"].

Definition is_protected_metadata_name (name : rstr) : bool :=
  existsb (fun metadata_name => name == metadata_name) PROTECTED_METADATA_PATH_NAMES.

(** The first protected directory of a writable root that holds the path. *)
Definition protected_under (path root : U) : option (U * rstr) :=
  find_map (fun metadata_name =>
    match join_descendant root metadata_name with
    | None => None
    | Some protected =>
        if uri_starts_with path protected then Some (protected, metadata_name) else None
    end) PROTECTED_METADATA_PATH_NAMES.

Definition metadata_write_denial (p : FileSystemSandboxPolicy) (path : U)
    (ctx : FileSystemSandboxPolicyContext) : option rstr :=
  if negb (is_restricted (fs_kind p)) then None
  else
    let es := resolved_entries p ctx in
    match find_map (fun '(root, _) => protected_under path root)
            (List.filter (fun '(_, a) => can_write a) es) with
    | None => None
    | Some (protected, metadata_name) =>
        if existsb (fun '(root, a) => can_write a && uri_starts_with path root
                                      && uri_starts_with root protected) es
        then None else Some metadata_name
    end.

Definition can_write_path (p : FileSystemSandboxPolicy) (path : U)
    (ctx : FileSystemSandboxPolicyContext) : bool :=
  if negb (can_write (resolve_access p path ctx)) then false
  else has_full_disk_write_access p || negb (is_some (metadata_write_denial p path ctx)).

(** ** Against the local host

    [TMPDIR] and the directories of the process are in [env]. *)
Section local.
Context (env : path_env) (tmpdir : option rstr).

Definition resolve_candidate_path (path cwd : rstr) : option AbsolutePathBuf :=
  if is_absolute path then from_absolute_path env path
  else match from_absolute_path env cwd with
       | None => None
       | Some cwd => Some (abs_join env cwd path)
       end.

Definition local_temporary_directories : list U :=
  match tmpdir with
  | None | Some [] => []
  | Some dir => option_list (from_abs_path <$> from_absolute_path env dir)
  end.

Definition with_local_policy_context {T} (path cwd : rstr)
    (evaluate : U -> FileSystemSandboxPolicyContext -> T) : option T :=
  match from_absolute_path env cwd with
  | None => None
  | Some cwd =>
      match resolve_candidate_path path (as_text cwd) with
      | None => None
      | Some path =>
          let cwd := from_abs_path cwd in
          Some (evaluate (from_abs_path path)
                  (mkContext cwd [cwd] (Some local_temporary_directories)))
      end
  end.

Definition resolve_access_with_cwd (p : FileSystemSandboxPolicy) (path cwd : rstr)
  : FileSystemAccessMode :=
  default Deny (with_local_policy_context path cwd (resolve_access p)).

Definition can_read_path_with_cwd (p : FileSystemSandboxPolicy) (path cwd : rstr) : bool :=
  can_read (resolve_access_with_cwd p path cwd).

Definition can_write_path_with_cwd (p : FileSystemSandboxPolicy) (path cwd : rstr) : bool :=
  default false (with_local_policy_context path cwd (can_write_path p)).

Definition forbidden_agent_metadata_write (path cwd : rstr) (p : FileSystemSandboxPolicy)
  : option rstr :=
  if negb (is_restricted (fs_kind p)) then None
  else mjoin (with_local_policy_context path cwd (fun path ctx =>
         match metadata_write_denial p path ctx with
         | Some name => if can_write_path p path ctx then None else Some name
         | None => None
         end)).

Definition push_entry (p : FileSystemSandboxPolicy) (e : FileSystemSandboxEntry)
  : FileSystemSandboxPolicy := set_entries p (entries p ++ [e]).

Definition with_additional_readable_roots (p : FileSystemSandboxPolicy) (cwd : rstr)
    (additional_readable_roots : list AbsolutePathBuf) : FileSystemSandboxPolicy :=
  if has_full_disk_read_access p then p
  else foldl (fun p path =>
         if can_read_path_with_cwd p (as_text path) cwd then p
         else push_entry p (new_entry (PathEntry (from_abs_path path)) Read))
       p additional_readable_roots.

Definition with_additional_writable_roots (p : FileSystemSandboxPolicy) (cwd : rstr)
    (additional_writable_roots : list AbsolutePathBuf) : FileSystemSandboxPolicy :=
  foldl (fun p path =>
    if can_write_path_with_cwd p (as_text path) cwd then p
    else push_entry p (new_entry (PathEntry (from_abs_path path)) Write))
  p additional_writable_roots.

(** Replacing the symbolic workspace roots. *)
Definition PROJECT_ROOTS_GLOB_PATTERN_PREFIX : rstr := lit "codex-project-roots://".

Definition parse_project_roots_glob_pattern (pattern : rstr) : option rstr :=
  strip_prefix PROJECT_ROOTS_GLOB_PATTERN_PREFIX pattern.

Definition resolve_project_roots_glob_pattern (subpath : rstr) (root : AbsolutePathBuf) : rstr :=
  as_text (resolve_path_against_base env subpath (as_text root)).

Definition materialize_entry (roots : list AbsolutePathBuf) (e : FileSystemSandboxEntry)
  : list FileSystemSandboxEntry :=
  let with_path path := mkEntry path (access e) (missing_path_behavior e) in
  match entry_path e with
  | Special (ProjectRoots subpath) =>
      (fun root => with_path (PathEntry (from_abs_path
         (match subpath with
          | Some subpath => resolve_path_against_base env subpath (as_text root)
          | None => root
          end)))) <$> roots
  | GlobPattern pattern =>
      match parse_project_roots_glob_pattern pattern with
      | Some subpath =>
          (fun root => with_path (GlobPattern (resolve_project_roots_glob_pattern subpath root)))
            <$> roots
      | None => [with_path (GlobPattern pattern)]
      end
  | PathEntry path => [with_path (PathEntry path)]
  | Special value => [with_path (Special value)]
  end.

Definition materialize_project_roots_with_workspace_roots (p : FileSystemSandboxPolicy)
    (roots : list AbsolutePathBuf) : FileSystemSandboxPolicy :=
  set_entries p (entries p ≫= materialize_entry roots).

Definition push_missing (es : list FileSystemSandboxEntry) (e : FileSystemSandboxEntry)
  : list FileSystemSandboxEntry := if bool_decide (e ∈ es) then es else es ++ [e].

Definition with_materialized_project_roots_for_workspace_roots (p : FileSystemSandboxPolicy)
    (roots : list AbsolutePathBuf) : FileSystemSandboxPolicy :=
  set_entries p (foldl push_missing (entries p)
                   (entries (materialize_project_roots_with_workspace_roots p roots))).

(** ** Deny entries survive a replacement of the allow side *)

Definition deny_entries (p : FileSystemSandboxPolicy) : list FileSystemSandboxEntry :=
  List.filter (fun e => is_deny (access e)) (entries p).

Definition preserve_deny_read_restrictions_from (p existing : FileSystemSandboxPolicy)
  : FileSystemSandboxPolicy :=
  let p :=
    if bool_decide (fs_kind p = Unrestricted) && existsb (fun e => is_deny (access e)) (entries existing)
    then restricted [new_entry (Special Root) Write] else p in
  if negb (is_restricted (fs_kind p)) then p
  else
    let depth := match glob_scan_max_depth p with
                 | None => glob_scan_max_depth existing | Some d => Some d end in
    mkFsPolicy (fs_kind p) depth (foldl push_missing (entries p) (deny_entries existing)).

(** ** Workspace policies

    [default_read_only_subpaths] are the existing metadata paths of a
    writable root, which only the filesystem knows. *)
Definition append_default_read_only_entry_if_no_explicit_rule (es : list FileSystemSandboxEntry)
    (path : FileSystemPath) : list FileSystemSandboxEntry :=
  if existsb (fun e => file_system_paths_share_target (entry_path e) path) es then es
  else es ++ [skip_missing_path path Read].

Definition append_default_read_only_project_root_subpath_if_no_explicit_rule
    (es : list FileSystemSandboxEntry) (subpath : rstr) : list FileSystemSandboxEntry :=
  append_default_read_only_entry_if_no_explicit_rule es (Special (ProjectRoots (Some subpath))).

Definition append_default_read_only_path_if_no_explicit_rule
    (es : list FileSystemSandboxEntry) (path : AbsolutePathBuf) : list FileSystemSandboxEntry :=
  append_default_read_only_entry_if_no_explicit_rule es (PathEntry (from_abs_path path)).

Context (default_read_only_subpaths : AbsolutePathBuf -> bool -> list AbsolutePathBuf).

Definition protect_root (protect_missing_dot_codex : bool) (es : list FileSystemSandboxEntry)
    (root : AbsolutePathBuf) : list FileSystemSandboxEntry :=
  foldl append_default_read_only_path_if_no_explicit_rule es
    (default_read_only_subpaths root protect_missing_dot_codex).

Definition workspace_write (writable_roots : list AbsolutePathBuf)
    (exclude_tmpdir_env_var exclude_slash_tmp : bool) : FileSystemSandboxPolicy :=
  let es :=
    [new_entry (Special Root) Read; new_entry (Special (ProjectRoots None)) Write]
    ++ (if exclude_slash_tmp then [] else [new_entry (Special SlashTmp) Write])
    ++ (if exclude_tmpdir_env_var then [] else [new_entry (Special Tmpdir) Write])
    ++ ((fun path => new_entry (PathEntry (from_abs_path path)) Write) <$> writable_roots) in
  let es := foldl append_default_read_only_project_root_subpath_if_no_explicit_rule es
              PROTECTED_METADATA_PATH_NAMES in
  restricted (foldl (protect_root false) es writable_roots).

Definition with_additional_legacy_workspace_writable_roots (p : FileSystemSandboxPolicy)
    (additional_writable_roots : list AbsolutePathBuf) : FileSystemSandboxPolicy :=
  if negb (is_restricted (fs_kind p)) then p
  else set_entries p
         (foldl (fun es path =>
            let es :=
              if existsb (fun e => can_write (access e)
                   && bool_decide (entry_path e = PathEntry (from_abs_path path))) es
              then es else es ++ [new_entry (PathEntry (from_abs_path path)) Write] in
            protect_root false es path) (entries p) additional_writable_roots).

Inductive SandboxPolicy :=
| DangerFullAccess
| ReadOnlyPolicy (network_access : bool)
| ExternalSandboxPolicy (network_access : bool)
| WorkspaceWrite (writable_roots : list AbsolutePathBuf) (network_access : bool)
    (exclude_tmpdir_env_var exclude_slash_tmp : bool).

Definition from_sandbox_policy (value : SandboxPolicy) : FileSystemSandboxPolicy :=
  match value with
  | DangerFullAccess => unrestricted
  | ExternalSandboxPolicy _ => external_sandbox
  | ReadOnlyPolicy _ => restricted [new_entry (Special Root) Read]
  | WorkspaceWrite writable_roots _ exclude_tmpdir_env_var exclude_slash_tmp =>
      workspace_write writable_roots exclude_tmpdir_env_var exclude_slash_tmp
  end.

Definition from_legacy_sandbox_policy_for_cwd (value : SandboxPolicy) (cwd : rstr)
  : FileSystemSandboxPolicy :=
  let p := from_sandbox_policy value in
  match value with
  | WorkspaceWrite writable_roots _ _ _ =>
      let es := match from_absolute_path env cwd with
                | Some cwd_root => protect_root true (entries p) cwd_root
                | None => entries p
                end in
      set_entries p (foldl (protect_root false) es writable_roots)
  | _ => p
  end.

Definition from_legacy_sandbox_policy_preserving_deny_entries (value : SandboxPolicy) (cwd : rstr)
    (existing : FileSystemSandboxPolicy) : FileSystemSandboxPolicy :=
  let rebuilt := from_legacy_sandbox_policy_for_cwd value cwd in
  if negb (is_restricted (fs_kind rebuilt)) then rebuilt
  else mkFsPolicy (fs_kind rebuilt) (glob_scan_max_depth existing)
         (foldl push_missing (entries rebuilt) (deny_entries existing)).
End local.
End policy.

Arguments FileSystemPath U : clear implicits.
Arguments FileSystemSandboxEntry U : clear implicits.
Arguments FileSystemSandboxPolicy U : clear implicits.
Arguments FileSystemSandboxPolicyContext U : clear implicits.

(** ** The laws of lexical containment

    What the theorems on intersections use of containment.  The laws are those of POSIX
    URIs that are spelled in any way: containment compares decoded segments, so that
    two roots of a path with the same depth contain each other and need not be equal. *)

Class PathUriLaws (U : Type) `{!PathUriLexical U} := {
  starts_with_trans (p q r : U) :
    infer_path_convention p = Some Posix ->
    uri_starts_with p q = true -> uri_starts_with q r = true -> uri_starts_with p r = true;
  ancestors_nested (p a b : U) da db :
    infer_path_convention p = Some Posix ->
    uri_starts_with p a = true -> uri_starts_with p b = true ->
    lexical_depth a = Some da -> lexical_depth b = Some db -> da <= db -> uri_starts_with b a = true;
  (** The URI of a path of this host. *)
  native_convention (path : AbsolutePathBuf) :
    normal_absolute path -> infer_path_convention (from_abs_path path : U) = Some Posix
}.

Section facts.
Context {U : Type} `{!PathUriLexical U}.
Implicit Types (p : FileSystemSandboxPolicy U) (ctx : FileSystemSandboxPolicyContext U).

Lemma elem_of_resolved p ctx u a :
  (u, a) ∈ resolved_entries p ctx <->
  exists e, e ∈ entries p /\ access e = a /\ u ∈ entry_paths ctx (entry_path e)
    /\ same_convention ctx u = true.
Proof.
  unfold resolved_entries. rewrite list_elem_of_bind. split.
  - intros (e & Hu & He). apply list_elem_of_fmap in Hu as (v & [= -> ->] & Hv).
    apply list_elem_of_In, List.filter_In in Hv as [Hv Hc].
    exists e. apply list_elem_of_In in Hv. done.
  - intros (e & He & <- & Hu & Hc). exists e. split; [|done].
    apply list_elem_of_fmap. exists u. split; [done|].
    apply list_elem_of_In, List.filter_In. by rewrite <- list_elem_of_In.
Qed.

(** The entries that apply to a path, with the depth of their roots. *)
Definition covering p ctx (path root : U) (a : FileSystemAccessMode) (d : nat) : Prop :=
  (root, a) ∈ resolved_entries p ctx /\ lexical_depth root = Some d
  /\ uri_starts_with path root = true.

(** What a resolution needs of the paths: one convention, and depths. *)
Definition lexically_resolvable p (path : U) ctx : bool :=
  is_some (infer_path_convention (ctx_cwd ctx)) && same_convention ctx path
  && is_some (lexical_depth path) && is_some (lexical_depth (ctx_cwd ctx))
  && forallb (fun '(root, _) => is_some (lexical_depth root) || is_opaque root)
       (resolved_entries p ctx).

Lemma with_depths_spec (l : list (U * FileSystemAccessMode)) :
  match with_depths l with
  | None => forallb (fun '(root, _) => is_some (lexical_depth root) || is_opaque root) l = false
  | Some es =>
      forallb (fun '(root, _) => is_some (lexical_depth root) || is_opaque root) l = true
      /\ forall root a d, (root, a, d) ∈ es <-> (root, a) ∈ l /\ lexical_depth root = Some d
  end.
Proof.
  induction l as [|[root a] l IH]; simpl.
  { split; [done|]. intros. rewrite !elem_of_nil. tauto. }
  destruct (lexical_depth root) as [depth|] eqn:Ed; simpl.
  - destruct (with_depths l) as [es|]; simpl; [|done]. destruct IH as [Hall IH].
    split; [done|]. intros r b d. rewrite !elem_of_cons, IH. split.
    + intros [[= -> -> ->]|[]]; auto.
    + intros [[[= -> ->]|] ?]; auto. left. congruence.
  - destruct (is_opaque root); [|done]. simpl.
    destruct (with_depths l) as [es|]; [|done]. destruct IH as [Hall IH].
    split; [done|]. intros r b d. rewrite elem_of_cons, IH. split; [tauto|].
    intros [[[= -> ->]|] ?]; [congruence|tauto].
Qed.

Lemma specificity_le_spec (x y : U * FileSystemAccessMode * nat) :
  specificity_le x y = true <->
  x.2 < y.2 \/ x.2 = y.2 /\ access_rank x.1.2 <= access_rank y.1.2.
Proof.
  destruct x as [[? ?] ?], y as [[? ?] ?]. simpl.
  rewrite orb_true_iff, andb_true_iff, Nat.ltb_lt, Nat.eqb_eq, Nat.leb_le. done.
Qed.

Lemma resolve_access_fails_closed p path ctx :
  fs_kind p = Restricted -> lexically_resolvable p path ctx = false -> resolve_access p path ctx = Deny.
Proof.
  intros Hk. unfold resolve_access, lexically_resolvable, same_convention. rewrite Hk.
  destruct (infer_path_convention (ctx_cwd ctx)) as [c|]; [|done]. simpl.
  destruct (bool_decide _); [|done]. destruct (lexical_depth path); [|done].
  destruct (lexical_depth (ctx_cwd ctx)); [|done]. simpl.
  pose proof (with_depths_spec (resolved_entries p ctx)) as H.
  destruct (with_depths _); [|done]. destruct H as [-> _]. done.
Qed.

(** The winner among the covering entries. *)
Lemma resolve_access_spec p path ctx :
  fs_kind p = Restricted -> lexically_resolvable p path ctx = true ->
  (resolve_access p path ctx = Deny /\ forall root a d, ~ covering p ctx path root a d)
  \/ exists root d, covering p ctx path root (resolve_access p path ctx) d
       /\ forall root' a' d', covering p ctx path root' a' d' ->
            d' < d \/ d' = d /\ access_rank a' <= access_rank (resolve_access p path ctx).
Proof.
  intros Hk. unfold resolve_access, lexically_resolvable, same_convention. rewrite Hk.
  destruct (infer_path_convention (ctx_cwd ctx)) as [c|]; [|done]. simpl.
  destruct (bool_decide _); [|done]. destruct (lexical_depth path); [|done].
  destruct (lexical_depth (ctx_cwd ctx)); [|done]. simpl.
  pose proof (with_depths_spec (resolved_entries p ctx)) as H.
  destruct (with_depths _) as [es|]; [|congruence]. destruct H as [_ Hes]. intros _.
  set (cov := List.filter _ es).
  assert (Hcov : forall root a d, (root, a, d) ∈ cov <-> covering p ctx path root a d).
  { intros. unfold cov, covering. rewrite list_elem_of_In, List.filter_In, <- list_elem_of_In, Hes.
    tauto. }
  assert (Hmax : match max_by specificity_le cov with
                 | None => cov = []
                 | Some m => m ∈ cov /\ forall x, x ∈ cov -> specificity_le x m = true end).
  { apply max_by_spec.
    - intros a. rewrite specificity_le_spec. lia.
    - intros a b H. rewrite specificity_le_spec.
      destruct (decide (specificity_le a b = true)) as [E|E]; [congruence|].
      rewrite specificity_le_spec in E. lia.
    - intros a b d. rewrite !specificity_le_spec. lia. }
  destruct (max_by specificity_le cov) as [[[root a] d]|].
  - right. destruct Hmax as [Hin Hle]. exists root, d. split; [by apply Hcov|].
    intros root' a' d' Hc%Hcov%Hle. by rewrite specificity_le_spec in Hc.
  - left. split; [done|]. intros root a d Hc%Hcov. rewrite Hmax in Hc. by apply elem_of_nil in Hc.
Qed.

(** A deny entry is overridden only by a strictly deeper entry. *)
Lemma deny_entry_holds p e ctx u d path :
  fs_kind p = Restricted -> e ∈ entries p -> access e = Deny ->
  u ∈ entry_paths ctx (entry_path e) -> same_convention ctx u = true ->
  lexical_depth u = Some d -> uri_starts_with path u = true ->
  resolve_access p path ctx = Deny
  \/ exists root d', d < d' /\ covering p ctx path root (resolve_access p path ctx) d'.
Proof.
  intros Hk He Ha Hu Hc Hd Hs. destruct (lexically_resolvable p path ctx) eqn:Hr.
  2:{ left. by apply resolve_access_fails_closed. }
  destruct (resolve_access_spec p path ctx Hk Hr) as [[Hdeny _]|(root & d' & Hcov & Hmax)]; [by left|].
  destruct (Hmax u Deny d) as [Hlt|[<- Hle]].
  - split; [|done]. apply elem_of_resolved. eauto.
  - right. eauto.
  - left. destruct (resolve_access p path ctx); simpl in Hle; try lia. done.
Qed.

(** Access is [Write] when a writable root covers the path and every other
    covering entry is matched by a writable one at its root. *)
Lemma resolve_access_write p path ctx :
  fs_kind p = Restricted -> lexically_resolvable p path ctx = true ->
  (exists root d, covering p ctx path root Write d) ->
  (forall root a d, covering p ctx path root a d -> a <> Deny /\ covering p ctx path root Write d) ->
  resolve_access p path ctx = Write.
Proof.
  intros Hk Hr (root & d & Hw) Hall.
  destruct (resolve_access_spec p path ctx Hk Hr) as [[_ Hnone]|(r & e & Hcov & Hmax)].
  { by destruct (Hnone _ _ _ Hw). }
  destruct (Hall _ _ _ Hcov) as [Hnd Hwr]. apply Hmax in Hwr.
  destruct (resolve_access p path ctx); simpl in *; [lia|done|done].
Qed.

Lemma existsb_elem {A} (f : A -> bool) l : existsb f l = true <-> exists x, x ∈ l /\ f x = true.
Proof.
  rewrite existsb_exists. split; intros (x & Hx & Hf); exists x; split; try done;
    by apply list_elem_of_In.
Qed.

Lemma existsb_elem_false {A} (f : A -> bool) l x : existsb f l = false -> x ∈ l -> f x = false.
Proof.
  intros H Hx. destruct (f x) eqn:E; [|done].
  assert (existsb f l = true) by (apply existsb_elem; eauto). congruence.
Qed.

End facts.

(** *** Lists of entries *)
Lemma elem_of_push_missing `{!PathUriLexical U} (es l : list (FileSystemSandboxEntry U)) e :
  e ∈ foldl push_missing es l <-> e ∈ es \/ e ∈ l.
Proof.
  revert es. induction l as [|x l IH]; intros es; simpl; [rewrite elem_of_nil; tauto|].
  rewrite IH, elem_of_cons. unfold push_missing. case_bool_decide as Hx.
  - split; [tauto|]. intros [|[->|]]; tauto.
  - rewrite elem_of_app, list_elem_of_singleton. tauto.
Qed.

(** ** Theorems *)

Section theorems.
Context {U : Type} `{!PathUriLexical U}.
Implicit Types (p existing : FileSystemSandboxPolicy U) (ctx : FileSystemSandboxPolicyContext U).

(** C24: In a restricted policy the access to a path is that of the entry with
    the deepest root containing it, and among entries equally deep the one of
    the highest precedence (deny, write, read); a path that no entry covers,
    or paths that cannot be compared lexically, are denied. *)
Theorem most_specific_entry_wins p path ctx :
  fs_kind p = Restricted ->
  if lexically_resolvable p path ctx then
    (resolve_access p path ctx = Deny /\ forall root a d, ~ covering p ctx path root a d)
    \/ exists root d, covering p ctx path root (resolve_access p path ctx) d
         /\ forall root' a' d', covering p ctx path root' a' d' ->
              d' < d \/ d' = d /\ access_rank a' <= access_rank (resolve_access p path ctx)
  else resolve_access p path ctx = Deny.
Proof.
  intros Hk. destruct (lexically_resolvable p path ctx) eqn:Hr.
  - by apply resolve_access_spec.
  - by apply resolve_access_fails_closed.
Qed.

(** [protected] is a metadata directory of a writable root. *)
Definition metadata_of p ctx (protected : U) (root : U) (name : rstr) : Prop :=
  (root, Write) ∈ resolved_entries p ctx /\ name ∈ PROTECTED_METADATA_PATH_NAMES
  /\ join_descendant root name = Some protected.

(** C38: Below a writable root, the metadata directories cannot be written
    unless an explicit writable root inside a metadata directory covers the
    path; this holds for every policy without full disk write access. *)
Theorem metadata_stays_protected p path ctx protected root name :
  has_full_disk_write_access p = false -> metadata_of p ctx protected root name ->
  uri_starts_with path protected = true ->
  (forall r, (r, Write) ∈ resolved_entries p ctx -> uri_starts_with path r = true ->
     forall protected' root' name', metadata_of p ctx protected' root' name' ->
       uri_starts_with r protected' = false) ->
  can_write_path p path ctx = false
  /\ exists name', name' ∈ PROTECTED_METADATA_PATH_NAMES
       /\ metadata_write_denial p path ctx = Some name'.
Proof.
  intros Hf (Hroot & Hname & Hj) Hs Hno. set (es := resolved_entries p ctx) in *.
  assert (fs_kind p = Restricted) as Hk.
  { unfold has_full_disk_write_access in Hf. by destruct (fs_kind p). }
  assert (exists name', name' ∈ PROTECTED_METADATA_PATH_NAMES
            /\ metadata_write_denial p path ctx = Some name') as (name' & Hin & Hd).
  { unfold metadata_write_denial. rewrite Hk. cbn [is_restricted negb]. fold es.
    destruct (find_map _ _) as [[prot' name']|] eqn:Efm.
    - apply find_map_Some in Efm as ([root' a'] & Hr' & Hp').
      apply list_elem_of_In, List.filter_In in Hr' as [Hr' Hw']. apply list_elem_of_In in Hr'.
      destruct a'; try done. unfold protected_under in Hp'.
      apply find_map_Some in Hp' as (n & Hn & Hp').
      destruct (join_descendant root' n) as [pr|] eqn:Ej; [|done].
      destruct (uri_starts_with path pr) eqn:Esp; [|done]. injection Hp' as -> ->.
      exists name'. split; [done|]. destruct (existsb _ es) eqn:Eex; [|done].
      apply existsb_elem in Eex as ([r a] & Hra & Hx). destruct_bools. destruct a; try done.
      rewrite (Hno r Hra) with (root' := root') (name' := name') in H0; [done|done|done].
    - exfalso. assert (protected_under path root = None) as Hnone.
      { apply (find_map_None _ _ (root, Write) Efm), list_elem_of_In, List.filter_In.
        split; [by apply list_elem_of_In|done]. }
      unfold protected_under in Hnone. apply (find_map_None _ _ name) in Hnone; [|done].
      cbv beta in Hnone. by rewrite Hj, Hs in Hnone. }
  split; [|eauto]. unfold can_write_path. rewrite Hf, Hd. by destruct (can_write _).
Qed.

(** When the allow side of a policy is replaced, every deny entry of the
    old policy survives (an unrestricted replacement becomes restricted to
    make room for it; an external sandbox is left alone), no entry of the new
    policy is lost, and a path below a surviving deny root stays unreadable
    unless a strictly deeper entry applies to it. *)
Theorem deny_entries_survive p existing e ctx u path d :
  fs_kind p <> ExternalSandbox -> e ∈ entries existing -> access e = Deny ->
  u ∈ entry_paths ctx (entry_path e) -> same_convention ctx u = true ->
  lexical_depth u = Some d -> uri_starts_with path u = true ->
  let q := preserve_deny_read_restrictions_from p existing in
  fs_kind q = Restricted /\ e ∈ entries q
  /\ (fs_kind p = Restricted -> forall e', e' ∈ entries p -> e' ∈ entries q)
  /\ (resolve_access q path ctx = Deny
      \/ exists root d', d < d' /\ covering q ctx path root (resolve_access q path ctx) d').
Proof.
  intros Hx He Ha Hu Hc Hd Hs q.
  assert (existsb (fun e => is_deny (access e)) (entries existing) = true) as Hden.
  { apply existsb_elem. exists e. by rewrite Ha. }
  assert (e ∈ deny_entries existing) as Hin.
  { apply list_elem_of_In, List.filter_In. rewrite Ha. split; [by apply list_elem_of_In|done]. }
  assert (fs_kind q = Restricted /\ e ∈ entries q
          /\ (fs_kind p = Restricted -> forall e', e' ∈ entries p -> e' ∈ entries q))
    as (Hk & Heq & Hkeep).
  { unfold q, preserve_deny_read_restrictions_from. rewrite Hden.
    destruct (fs_kind p) eqn:Ek; [| |done].
    - rewrite bool_decide_false by done. cbn [andb negb]. rewrite Ek. cbn [is_restricted negb fs_kind entries].
      split; [done|]. split; [apply elem_of_push_missing; by right|].
      intros _ e' He'. apply elem_of_push_missing. by left.
    - rewrite bool_decide_true by done. cbn [andb negb restricted fs_kind is_restricted entries].
      split; [done|]. split; [apply elem_of_push_missing; by right|done]. }
  split_and!; [done..|]. by apply (deny_entry_holds q e ctx u d path).
Qed.
End theorems.

(** ** POSIX URIs

    A POSIX file URI is the list of its segments. *)
Definition segment_names (path : list Component) : list rstr :=
  omap (fun c => match c with Normal s => Some s | _ => None end) path.

Definition native_path (u : list rstr) : AbsolutePathBuf := RootDir :: (Normal <$> u).

Definition is_prefix_of (base path : list rstr) : bool :=
  bool_decide (take (length base) path = base).

Definition posix_join (u : list rstr) (path : rstr) : option (list rstr) :=
  Some (segment_names (absolutize_from path (as_text (native_path u)))).

#[export] Instance posix_uri : PathUriLexical (list rstr) := {
  infer_path_convention _ := Some Posix;
  lexical_depth u := Some (length u);
  is_opaque _ := false;
  uri_starts_with path base := is_prefix_of base path;
  uri_join := posix_join;
  join_descendant u path :=
    match posix_join u path with
    | Some d => if starts_with [c_slash] path || negb (is_prefix_of u d) then None else Some d
    | None => None
    end;
  ancestors_last _ := Some [];
  to_abs_path u := Some (native_path u);
  from_abs_path := segment_names
}.

#[export] Instance posix_uri_laws : PathUriLaws (list rstr).
Proof.
  split; cbn [uri_starts_with lexical_depth infer_path_convention posix_uri]; unfold is_prefix_of.
  - intros p q r _ H1%bool_decide_eq_true H2%bool_decide_eq_true. apply bool_decide_eq_true.
    rewrite <- H1, take_take in H2. rewrite <- H2 at 2. f_equal.
    apply (f_equal length) in H2. rewrite length_take in H2. lia.
  - intros p a b da db _ Ha%bool_decide_eq_true Hb%bool_decide_eq_true [= <-] [= <-] Hle.
    apply bool_decide_eq_true. rewrite <- Ha at 2. rewrite <- Hb at 1. rewrite take_take. f_equal. lia.
  - done.
Qed.

Module Examples.
Definition w : list rstr := [lit "w"].
Definition w_git_sub : list rstr := [lit "w"; lit ".git"; lit "sub"].
Definition hook : list rstr := [lit "w"; lit ".git"; lit "hooks"; lit "x"].

Definition ctx : FileSystemSandboxPolicyContext (list rstr) := mkContext w [w] None.

Definition workspace : FileSystemSandboxPolicy (list rstr) :=
  restricted [new_entry (Special Root) Read; new_entry (Special (ProjectRoots None)) Write].

Definition full : FileSystemSandboxPolicy (list rstr) :=
  restricted [new_entry (Special Root) Write; new_entry (PathEntry w) Read;
              new_entry (PathEntry w) Write].

Definition secret : FileSystemSandboxEntry (list rstr) := new_entry (PathEntry [lit "secret"]) Deny.

Lemma workspace_write_roots r :
  (r, Write) ∈ resolved_entries workspace ctx -> r = w.
Proof.
  assert (resolved_entries workspace ctx = [([], Read); (w, Write)]) as ->
    by (vm_compute; reflexivity).
  rewrite !elem_of_cons, elem_of_nil. intros [[=]|[[=]|[]]]. done.
Qed.

Lemma workspace_metadata protected root name :
  metadata_of workspace ctx protected root name -> is_prefix_of protected w = false.
Proof.
  intros (->%workspace_write_roots & Hn & Hj).
  repeat (apply elem_of_cons in Hn as [->|Hn]; [vm_compute in Hj; by injection Hj as <-|]).
  by apply elem_of_nil in Hn.
Qed.
End Examples.

Lemma most_specific_entry_wins_witness :
  if lexically_resolvable Examples.workspace Examples.hook Examples.ctx then
    exists root d,
      covering Examples.workspace Examples.ctx Examples.hook root
        (resolve_access Examples.workspace Examples.hook Examples.ctx) d
  else False.
Proof.
  pose proof (most_specific_entry_wins Examples.workspace Examples.hook Examples.ctx eq_refl) as H.
  replace (lexically_resolvable Examples.workspace Examples.hook Examples.ctx) with true in *
    by (vm_compute; reflexivity).
  destruct H as [[Hd _]|(root & d & Hc & _)]; [vm_compute in Hd; discriminate|eauto].
Defined.

Lemma metadata_stays_protected_witness :
  can_write_path Examples.workspace Examples.hook Examples.ctx = false
  /\ can_write_path Examples.workspace [lit "w"; lit "src"] Examples.ctx = true.
Proof.
  split; [|vm_compute; reflexivity].
  apply (metadata_stays_protected Examples.workspace Examples.hook Examples.ctx
           [lit "w"; lit ".git"] Examples.w (lit ".git")).
  - vm_compute. reflexivity.
  - split; [|split; [|vm_compute; reflexivity]].
    + apply list_elem_of_In. vm_compute. tauto.
    + constructor.
  - vm_compute. reflexivity.
  - intros r ->%Examples.workspace_write_roots _. exact Examples.workspace_metadata.
Defined.

Lemma deny_entries_survive_witness :
  let q := preserve_deny_read_restrictions_from unrestricted (restricted [Examples.secret]) in
  resolve_access q [lit "secret"; lit "key"] Examples.ctx = Deny
  /\ resolve_access q [lit "w"] Examples.ctx = Write
  /\ Examples.secret ∈ entries q.
Proof.
  split; [vm_compute; reflexivity|]. split; [vm_compute; reflexivity|].
  destruct (deny_entries_survive unrestricted (restricted [Examples.secret]) Examples.secret
              Examples.ctx [lit "secret"] [lit "secret"; lit "key"] 1) as (_ & H & _);
    [discriminate|constructor|reflexivity|constructor| | | |exact H];
    vm_compute; reflexivity.
Defined.

(** Whether the metadata of a writable root is protected depends on the
    order of the entries.  With the workspace [/w] and the explicit root
    [/w/.git/sub] writable, the metadata of the second root
    ([/w/.git/sub/.git]) can be written when the workspace is listed first,
    and cannot when it is listed second. *)
Theorem metadata_protection_depends_on_order :
  let workspace := new_entry (PathEntry Examples.w) Write in
  let inner := new_entry (PathEntry Examples.w_git_sub) Write in
  let path := Examples.w_git_sub ++ [lit ".git"; lit "config"] in
  can_write_path (restricted [workspace; inner]) path Examples.ctx = true
  /\ can_write_path (restricted [inner; workspace]) path Examples.ctx = false.
Proof. vm_compute. done. Qed.
