(* ===== verification/PathUri.v ===== *)
(** * PathUri: lexical operations on the URIs of paths

    [codex-rs/utils/path-uri/src/lib.rs]: the identity of [file:] URIs, the convention
    that a URI is spelled in, containment, depth and ancestors, and the laws of
    containment that the policies rely on, which hold of POSIX URIs however they are
    spelled.

    A [Url] of the [url] crate is its host and the segments of its path as they are
    spelled, empty ones included.  Percent-decoding ([urlencoding]), base64 and the case
    of UTF-8 validity are parameters.  How URIs are parsed, joined and turned into
    native paths is not modelled: [path_uri] takes these operations as arguments. *)

From Stdlib Require Import Lia.
From stdpp Require Import base list strings.
From S2P Require Import Prelude AbsolutePath Permissions.

Open Scope rust_scope.

Record Url := mkUrl {
  host_str : option rstr;
  url_segments : list rstr
}.

#[export] Instance url_eq_dec : EqDecision Url.
Proof. solve_decision. Defined.

(** [u8::is_ascii_alphabetic] *)
Definition is_ascii_alphabetic (c : N) : bool :=
  ((65 <=? c) && (c <=? 90) || (97 <=? c) && (c <=? 122))%N.

Section uris.
(** [urlencoding::decode_binary], [urlencoding::decode] (failing on bytes that are not
    UTF-8), and the URL-safe base64 engine without padding *)
Context (decode_binary : rstr -> rstr) (decode : rstr -> option rstr)
  (base64_decode : rstr -> option rstr) (base64_encode : rstr -> rstr).

(** [Url::path] *)
Definition encoded_path (u : Url) : rstr := concat (cons c_slash <$> url_segments u).

(** The segments of [BAD_PATH_URI_PREFIX], before the payload *)
Definition bad_path_segments : list rstr := [lit "%00"; lit "bad"; lit "path"].

Definition decode_bad_path_uri (u : Url) : option rstr :=
  match host_str u, url_segments u with
  | None, [a; b; c; encoded_path] =>
      if bool_decide ([a; b; c] = bad_path_segments) && negb (is_empty encoded_path) then
        match base64_decode encoded_path with
        | Some path_bytes => if base64_encode path_bytes == encoded_path then Some path_bytes else None
        | None => None
        end
      else None
  | _, _ => None
  end.

Definition is_opaque_uri (u : Url) : bool := is_some (decode_bad_path_uri u).

(** ** Conventions *)

Definition is_windows_drive_uri_segment (segment : rstr) : bool :=
  match segment with
  | [drive; c] => is_ascii_alphabetic drive && (c =? 58)%N
  | [drive; c1; c2; c3] =>
      is_ascii_alphabetic drive && (c1 =? 37)%N && (c2 =? 51)%N && ((c3 =? 65)%N || (c3 =? 97)%N)
  | _ => false
  end.

(** Pairs of bytes, little-endian *)
Definition infer_opaque_path_convention (path_bytes : rstr) : option PathConvention :=
  if starts_with [c_slash] path_bytes then Some Posix
  else if negb (Nat.even (length path_bytes)) then None
  else match path_bytes with
       | lo1 :: hi1 :: lo2 :: hi2 :: _ =>
           let first := (lo1 + 256 * hi1)%N in
           let second := (lo2 + 256 * hi2)%N in
           let has_drive := (first <? 256)%N && is_ascii_alphabetic first && (second =? 58)%N in
           let has_unc_prefix := (first =? 92)%N && (second =? 92)%N in
           if has_drive || has_unc_prefix then Some Windows else None
       | _ => None
       end.

Definition nonempty (s : rstr) : bool := negb (is_empty s).

Definition infer_convention (u : Url) : option PathConvention :=
  match decode_bad_path_uri u with
  | Some path_bytes => infer_opaque_path_convention path_bytes
  | None =>
      if is_some (host_str u) then Some Windows
      else
        let has_windows_drive :=
          match List.filter nonempty (url_segments u) with
          | segment :: _ => is_windows_drive_uri_segment segment
          | [] => false
          end in
        if has_windows_drive then Some Windows else Some Posix
  end.

(** ** Identity *)

Definition has_encoded_separator (segment : rstr) : bool :=
  existsb (fun byte => (byte =? c_slash)%N || (byte =? c_backslash)%N) (decode_binary segment).

Definition windows_identity_path_bytes (u : Url) : option rstr :=
  if negb (bool_decide (infer_convention u = Some Windows)) || is_opaque_uri u
     || existsb has_encoded_separator (url_segments u)
  then None else Some (decode_binary (encoded_path u)).

(** [PartialEq] *)
Definition uri_eqb (u v : Url) : bool :=
  bool_decide (u = v)
  || match windows_identity_path_bytes u, windows_identity_path_bytes v with
     | Some path, Some other_path =>
         bool_decide (host_str u = host_str v) && eq_ignore_ascii_case path other_path
     | _, _ => false
     end.

(** ** Containment *)

Definition containment_path_segments (u : Url) (convention : PathConvention) : option (list rstr) :=
  let segments := List.filter nonempty (url_segments u) in
  let ambiguous segment :=
    existsb (fun byte => (byte =? c_slash)%N
                         || bool_decide (convention = Windows) && (byte =? c_backslash)%N) (decode_binary segment) in
  if existsb ambiguous segments then None else Some segments.

Definition decode_uri_path (path : rstr) : rstr := default path (decode path).

Definition same_segment (convention : PathConvention) (path base : rstr) : bool :=
  match convention with
  | Posix => decode_binary path == decode_binary base
  | Windows =>
      eq_ignore_ascii_case path base
      || eq_ignore_ascii_case (decode_uri_path path) (decode_uri_path base)
  end.

Definition native_path_segments_start_with (path_segments base_segments : list rstr)
    (convention : PathConvention) : bool :=
  (length base_segments <=? length path_segments)
  && forallb (fun '(path, base) => same_segment convention path base) (zip path_segments base_segments).

Definition path_uri_starts_with (u base : Url) : bool :=
  if uri_eqb u base then true
  else if is_opaque_uri u || is_opaque_uri base then false
  else if negb (bool_decide (host_str u = host_str base)) then false
  else
    let convention := infer_convention u in
    if negb (bool_decide (convention = infer_convention base)) then false
    else
      let convention := default Posix convention in
      match containment_path_segments u convention, containment_path_segments base convention with
      | Some path_segments, Some base_segments =>
          native_path_segments_start_with path_segments base_segments convention
      | _, _ => false
      end.

Definition path_uri_lexical_depth (u : Url) : option nat :=
  if is_opaque_uri u then None
  else
    match infer_convention u with
    | Some convention => length <$> containment_path_segments u convention
    | None => None
    end.

(** ** Ancestors *)

(** [path_segments_mut().pop_if_empty().pop()]: the last segment goes, and an empty one
    before it; a path keeps its first slash. *)
Definition pop_segment (segments : list rstr) : list rstr :=
  let segments := match last segments with
                  | Some [] => removelast segments
                  | _ => segments
                  end in
  match segments with
  | [] | [_] => [[]]
  | _ => removelast segments
  end.

Definition uri_parent (u : Url) : option Url :=
  if is_opaque_uri u then None
  else
    match infer_convention u with
    | None => None
    | Some convention =>
        let anchor_depth := match convention with Windows => 1 | Posix => 0 end in
        if length (List.filter nonempty (url_segments u)) <=? anchor_depth then None
        else Some (mkUrl (host_str u) (pop_segment (url_segments u)))
    end.

(** The last of [ancestors]; a parent has fewer segments, but for a path that is one
    segment, which has one ancestor more. *)
Fixpoint last_of (fuel : nat) (u : Url) : Url :=
  match fuel with
  | O => u
  | S fuel => match uri_parent u with Some v => last_of fuel v | None => u end
  end.
Definition uri_ancestors_last (u : Url) : option Url := Some (last_of (S (length (url_segments u))) u).

(** A parent has fewer segments, or none that names something. *)
Lemma pop_segment_shorter segments :
  length (pop_segment segments) < length segments \/ pop_segment segments = [[]].
Proof.
  unfold pop_segment.
  assert (Hr : forall l : list rstr, l <> [] -> length (removelast l) < length l).
  { intros l Hl. rewrite removelast_firstn_len, length_firstn. destruct l; cbn in *; [done|lia]. }
  assert (H : forall l : list rstr, length l <= length segments ->
    length (match l with [] | [_] => ([[]] : list rstr) | _ => removelast l end) < length segments
    \/ (match l with [] | [_] => [[]] | _ => removelast l end) = ([[]] : list rstr)).
  { intros [|x [|y l]] Hl; [by right..|]. left. specialize (Hr (x :: y :: l) ltac:(done)). lia. }
  apply H. destruct (last segments) as [[|]|]; [|done..].
  destruct segments; [done|]. specialize (Hr (l :: segments) ltac:(done)). lia.
Qed.

(** The fuel of [uri_ancestors_last] is enough. *)
Lemma ancestors_last_root fuel u :
  length (url_segments u) < fuel -> uri_parent (last_of fuel u) = None.
Proof.
  revert u. induction fuel as [|fuel IH]; intros u Hf; [lia|]. cbn [last_of].
  destruct (uri_parent u) as [v|] eqn:Ev; [|done].
  assert (Hv : url_segments v = pop_segment (url_segments u)).
  { unfold uri_parent in Ev. destruct (is_opaque_uri u); [done|]. destruct (infer_convention u); [|done].
    destruct (_ <=? _); by simplify_eq. }
  destruct (pop_segment_shorter (url_segments u)) as [Hlt|Hroot]; [apply IH; rewrite Hv; lia|].
  assert (Hn : uri_parent v = None).
  { unfold uri_parent. destruct (is_opaque_uri v); [done|]. destruct (infer_convention v) as [c|]; [|done].
    rewrite Hv, Hroot. by destruct c. }
  destruct fuel; cbn [last_of]; [done|]. by rewrite Hn.
Qed.

(** ** The laws of POSIX URIs *)

Lemma posix_identity u : infer_convention u = Some Posix -> windows_identity_path_bytes u = None.
Proof. intros H. unfold windows_identity_path_bytes. by rewrite H. Qed.

Lemma posix_eqb u v : infer_convention u = Some Posix -> uri_eqb u v = true -> u = v.
Proof.
  intros H. unfold uri_eqb. rewrite (posix_identity u H), orb_false_r. apply bool_decide_eq_true.
Qed.

(** The base of segments, decoded. *)
Lemma posix_segments_start_with l k :
  native_path_segments_start_with l k Posix = true <-> (decode_binary <$> k) `prefix_of` (decode_binary <$> l).
Proof.
  unfold native_path_segments_start_with. revert l. induction k as [|x k IH]; intros l.
  { split; [intros _; apply prefix_nil|]. by destruct l. }
  destruct l as [|y l].
  { split; [done|]. intros H%prefix_nil_inv. done. }
  specialize (IH l). cbn in IH |- *. rewrite !andb_true_iff, str_eqb_true. rewrite andb_true_iff in IH. split.
  - intros (Hle & Hxy & Hall). rewrite Hxy. apply prefix_cons, IH. done.
  - intros H. pose proof (prefix_cons_inv_1 _ _ _ _ H) as Hx. apply prefix_cons_inv_2, IH in H as [Hle Hall]. done.
Qed.

(** A POSIX URI is contained in another when they are one, or when the decoded segments
    of the other begin its own. *)
Definition posix_segments (u : Url) : option (list rstr) :=
  if is_opaque_uri u then None
  else match containment_path_segments u Posix with
       | Some segments => Some (decode_binary <$> segments)
       | None => None
       end.

Lemma posix_starts_with u base :
  infer_convention u = Some Posix ->
  path_uri_starts_with u base = true <->
  u = base
  \/ host_str u = host_str base /\ infer_convention base = Some Posix
     /\ exists l k, posix_segments u = Some l /\ posix_segments base = Some k /\ k `prefix_of` l.
Proof.
  intros Hu. unfold path_uri_starts_with, posix_segments. destruct (uri_eqb u base) eqn:Eeq.
  { split; [|done]. intros _. left. by apply posix_eqb. }
  assert (Hne : u <> base).
  { intros ->. unfold uri_eqb in Eeq. by rewrite bool_decide_eq_true_2 in Eeq. }
  destruct (is_opaque_uri u); cbn [orb].
  { split; [done|]. intros [?|(_ & _ & l & k & ? & _)]; done. }
  destruct (is_opaque_uri base).
  { split; [done|]. intros [?|(_ & _ & l & k & _ & ? & _)]; done. }
  case_bool_decide as Hh; cbn [negb]; [|split; [done|]; intros [?|(? & _)]; done].
  rewrite Hu. cbn [default from_option id]. case_bool_decide as Hc; cbn [negb].
  2:{ split; [done|]. intros [?|(_ & ? & _)]; congruence. }
  destruct (containment_path_segments u Posix) as [l|], (containment_path_segments base Posix) as [k|];
    try (split; [done|]; intros [?|(_ & _ & ? & ? & ? & ? & _)]; done).
  rewrite posix_segments_start_with. split.
  - intros H. right. split; [done|]. split; [done|]. by eexists _, _.
  - intros [?|(_ & _ & l' & k' & [= <-] & [= <-] & H)]; done.
Qed.

Lemma posix_depth u d :
  infer_convention u = Some Posix ->
  path_uri_lexical_depth u = Some d <-> exists l, posix_segments u = Some l /\ length l = d.
Proof.
  intros Hu. unfold path_uri_lexical_depth, posix_segments. rewrite Hu. destruct (is_opaque_uri u).
  { split; [done|]. by intros (l & ? & _). }
  destruct (containment_path_segments u Posix) as [l|]; cbn.
  - split.
    + intros [= <-]. eexists. split; [reflexivity|]. apply length_fmap.
    + intros (k & [= <-] & <-). by rewrite length_fmap.
  - split; [done|]. by intros (l & ? & _).
Qed.

Lemma posix_starts_with_trans p q r :
  infer_convention p = Some Posix ->
  path_uri_starts_with p q = true -> path_uri_starts_with q r = true -> path_uri_starts_with p r = true.
Proof.
  intros Hp Hpq Hqr. pose proof Hpq as [->|(Hh & Hq & l & k & El & Ek & Hlk)]%posix_starts_with; [done| |done].
  apply posix_starts_with in Hqr as [<-|(Hh' & Hr & k' & m & Ek' & Em & Hkm)]; [done| |done].
  apply posix_starts_with; [done|]. right. split; [congruence|]. split; [done|]. exists l, m.
  split; [done|]. split; [done|]. assert (k' = k) as -> by congruence. by etransitivity.
Qed.

Lemma posix_ancestors_nested p a b da db :
  infer_convention p = Some Posix ->
  path_uri_starts_with p a = true -> path_uri_starts_with p b = true ->
  path_uri_lexical_depth a = Some da -> path_uri_lexical_depth b = Some db -> da <= db ->
  path_uri_starts_with b a = true.
Proof.
  intros Hp Ha Hb Hda Hdb Hle.
  assert (Hbase : forall x dx, path_uri_starts_with p x = true -> path_uri_lexical_depth x = Some dx ->
    infer_convention x = Some Posix /\ host_str x = host_str p
    /\ exists l k, posix_segments p = Some l /\ posix_segments x = Some k /\ k `prefix_of` l /\ length k = dx \/ x = p).
  { intros x dx Hx Hdx. apply posix_starts_with in Hx as [<-|(Hh & Hc & l & k & El & Ek & Hlk)]; [| |done].
    - split; [done|]. split; [done|]. exists [], []. by right.
    - split; [done|]. split; [done|]. exists l, k. left. apply posix_depth in Hdx as (k' & Ek' & <-); [|done].
      assert (k' = k) as -> by congruence. done. }
  destruct (Hbase a da Ha Hda) as (Hca & Hha & la & ka & Hka), (Hbase b db Hb Hdb) as (Hcb & Hhb & lb & kb & Hkb).
  apply posix_depth in Hda as (sa & Esa & <-); [|done]. apply posix_depth in Hdb as (sb & Esb & <-); [|done].
  apply posix_starts_with; [done|]. right. split; [congruence|]. split; [done|]. exists sb, sa.
  split; [done|]. split; [done|].
  assert (Hpre : forall x k, posix_segments x = Some k ->
     (exists l k', posix_segments p = Some l /\ posix_segments x = Some k' /\ k' `prefix_of` l) \/ x = p ->
     forall l, posix_segments p = Some l -> k `prefix_of` l).
  { intros x k Ek [(l' & k' & El & Ek' & H)| -> ] l Hl; [congruence|]. assert (k = l) as -> by congruence. done. }
  assert (Hp' : exists l, posix_segments p = Some l).
  { destruct Hkb as [(? & _)| <-]; eauto. }
  destruct Hp' as [l El].
  assert (Hal : sa `prefix_of` l).
  { eapply (Hpre a); [done| |done]. destruct Hka as [(? & ? & ? & _)|?]; [left; by exists la, ka|by right]. }
  assert (Hbl : sb `prefix_of` l).
  { eapply (Hpre b); [done| |done]. destruct Hkb as [(? & ? & ? & _)|?]; [left; by exists lb, kb|by right]. }
  destruct (prefix_weak_total sa sb l Hal Hbl) as [H|H]; [done|].
  assert (sb = sa) as ->; [|done]. apply prefix_length_eq; [done|]. lia.
Qed.

(** ** The URIs of policies *)

(** Equality of URIs in a policy is that of their spelling, which is the source's
    equality of POSIX URIs.  Joins and [to_abs_path] are arguments.  So are
    [Url::from_file_path] with the validation of its result, and the bytes of a path
    ([OsStr::as_bytes]), which begin with a slash when the path is absolute; what is
    encoded in base64 is decoded again and is not empty. *)
Section instance.
Context (join join_below : Url -> rstr -> option Url) (to_native : Url -> option AbsolutePathBuf)
  (from_file_path : AbsolutePathBuf -> option Url) (path_bytes : AbsolutePathBuf -> rstr).
Hypothesis path_bytes_absolute :
  forall path, normal_absolute path -> starts_with [c_slash] (path_bytes path) = true.
Hypothesis base64_round_trip : forall b, base64_decode (base64_encode b) = Some b.
Hypothesis base64_nonempty : forall b, b <> [] -> base64_encode b <> [].

Definition from_opaque_path_bytes (b : rstr) : Url := mkUrl None (bad_path_segments ++ [base64_encode b]).

(** [PathUri::from_abs_path] of the Unix build *)
Definition uri_from_abs_path (path : AbsolutePathBuf) : Url :=
  match from_file_path path with
  | Some uri =>
      if negb (bool_decide (host_str uri = Some [])) && bool_decide (infer_convention uri = Some Posix)
      then uri else from_opaque_path_bytes (path_bytes path)
  | None => from_opaque_path_bytes (path_bytes path)
  end.

Lemma opaque_convention b :
  starts_with [c_slash] b = true -> infer_convention (from_opaque_path_bytes b) = Some Posix.
Proof.
  intros Hb. assert (Hne : base64_encode b <> []) by (apply base64_nonempty; by intros ->).
  assert (Hd : decode_bad_path_uri (from_opaque_path_bytes b) = Some b).
  { unfold decode_bad_path_uri, from_opaque_path_bytes. cbn [host_str url_segments bad_path_segments app].
    rewrite bool_decide_true, (base64_round_trip b), (proj2 (str_eqb_true _ _) eq_refl) by done.
    by destruct (base64_encode b). }
  unfold infer_convention. rewrite Hd. unfold infer_opaque_path_convention. by rewrite Hb.
Qed.

(** A path that has a URI of its own spelling gets it only if the spelling says POSIX. *)
Lemma from_abs_path_convention path :
  normal_absolute path -> infer_convention (uri_from_abs_path path) = Some Posix.
Proof.
  intros Hp. pose proof (opaque_convention _ (path_bytes_absolute path Hp)) as Ho. unfold uri_from_abs_path.
  destruct (from_file_path path) as [uri|]; [|done].
  destruct (negb _ && _) eqn:E; [|done]. by apply andb_true_iff in E as [_ E%bool_decide_eq_true].
Qed.

#[local] Instance path_uri : PathUriLexical Url := {
  infer_path_convention := infer_convention;
  lexical_depth := path_uri_lexical_depth;
  is_opaque := is_opaque_uri;
  uri_starts_with := path_uri_starts_with;
  uri_join := join;
  join_descendant := join_below;
  ancestors_last := uri_ancestors_last;
  to_abs_path := to_native;
  from_abs_path := uri_from_abs_path
}.

#[local] Instance path_uri_laws : PathUriLaws Url.
Proof.
  split.
  - exact posix_starts_with_trans.
  - exact posix_ancestors_nested.
  - exact from_abs_path_convention.
Qed.
End instance.
End uris.

Module Examples.
(** A decoder of the escapes of one letter. *)
Fixpoint plain_decode (s : rstr) : rstr :=
  match s with
  | (37 :: 55 :: 48 :: s)%N => 112%N :: plain_decode s
  | c :: s => c :: plain_decode s
  | [] => []
  end.
Definition starts := path_uri_starts_with plain_decode (fun _ => None) (fun _ => None) (fun _ => []).

(** Two spellings of one root: each contains the other, and they are not equal. *)
Example spellings_contain_each_other :
  let a := mkUrl None [lit "%70rivate"] in
  let b := mkUrl None [lit "private"] in
  let c := mkUrl None [lit "private"; lit "key"] in
  starts a b = true /\ starts b a = true /\ starts c a = true /\ starts c b = true
  /\ uri_eqb plain_decode (fun _ => None) (fun _ => []) a b = false.
Proof. by vm_compute. Qed.
End Examples.
