(* ===== verification/PermissionProfiles.v ===== *)
(** * PermissionProfiles: the profiles of [codex-rs/protocol/src/models.rs]

    A [PermissionProfile] is what a conversation, turn or command may do; an
    [AdditionalPermissionProfile] is a partial overlay that a command asks for
    or that the user granted.  A [NonZeroUsize] is a [nat] that
    [nonzero_new] made. *)

From Stdlib Require Import Lia.
From stdpp Require Import base list strings.
From S2P Require Import Prelude AbsolutePath Permissions.

Open Scope rust_scope.

Definition nonzero_new (n : nat) : option nat := if n =? 0 then None else Some n.

Inductive SandboxEnforcement := EnforceManaged | EnforceDisabled | EnforceExternal.

#[export] Instance sandbox_enforcement_eq_dec : EqDecision SandboxEnforcement.
Proof. solve_decision. Defined.

Definition enforcement_from_legacy_sandbox_policy (p : SandboxPolicy) : SandboxEnforcement :=
  match p with
  | DangerFullAccess => EnforceDisabled
  | ExternalSandboxPolicy _ => EnforceExternal
  | ReadOnlyPolicy _ | WorkspaceWrite _ _ _ _ => EnforceManaged
  end.

Definition has_full_network_access (p : SandboxPolicy) : bool :=
  match p with
  | DangerFullAccess => true
  | ExternalSandboxPolicy network_access | ReadOnlyPolicy network_access
  | WorkspaceWrite _ network_access _ _ => network_access
  end.

Definition network_from_sandbox_policy (p : SandboxPolicy) : NetworkSandboxPolicy :=
  if has_full_network_access p then NetworkEnabled else NetworkRestricted.

Section profile.
Context {U : Type} `{!PathUriLexical U}.

Inductive ManagedFileSystemPermissions :=
| ManagedRestricted (managed_entries : list (FileSystemSandboxEntry U)) (max_depth : option nat)
| ManagedUnrestricted.

Inductive PermissionProfile :=
| Managed (file_system : ManagedFileSystemPermissions) (network : NetworkSandboxPolicy)
| Disabled
| External (network : NetworkSandboxPolicy).

Definition to_sandbox_policy (m : ManagedFileSystemPermissions) : FileSystemSandboxPolicy U :=
  match m with
  | ManagedRestricted es depth => mkFsPolicy Restricted depth es
  | ManagedUnrestricted => unrestricted
  end.

Definition file_system_sandbox_policy (p : PermissionProfile) : FileSystemSandboxPolicy U :=
  match p with
  | Managed file_system _ => to_sandbox_policy file_system
  | Disabled => unrestricted
  | External _ => external_sandbox
  end.

Definition network_sandbox_policy (p : PermissionProfile) : NetworkSandboxPolicy :=
  match p with
  | Managed _ network | External network => network
  | Disabled => NetworkEnabled
  end.

(** ** Overlays *)

Record FileSystemPermissions := mkFileSystemPermissions {
  permission_entries : list (FileSystemSandboxEntry U);
  permission_glob_depth : option nat
}.

Definition no_file_system_permissions : FileSystemPermissions := mkFileSystemPermissions [] None.

Definition file_system_permissions_is_empty (p : FileSystemPermissions) : bool :=
  is_empty (permission_entries p).

Definition from_paths (read write : option (list (FileSystemPath U))) : FileSystemPermissions :=
  mkFileSystemPermissions
    (((fun path => new_entry path Read) <$> default [] read)
     ++ ((fun path => new_entry path Write) <$> default [] write)) None.

Record LegacyReadWriteRoots := mkLegacyRoots {
  legacy_read : option (list AbsolutePathBuf);
  legacy_write : option (list AbsolutePathBuf)
}.

(** The loop: the roots read and written so far. *)
Fixpoint legacy_roots (es : list (FileSystemSandboxEntry U)) (read write : list AbsolutePathBuf)
  : option (list AbsolutePathBuf * list AbsolutePathBuf) :=
  match es with
  | [] => Some (read, write)
  | e :: others =>
      match entry_path e with
      | PathEntry path =>
          match to_abs_path path, access e with
          | None, _ | _, Deny => None
          | Some path, Read => legacy_roots others (read ++ [path]) write
          | Some path, Write => legacy_roots others read (write ++ [path])
          end
      | _ => None
      end
  end.

Definition non_empty {A} (l : list A) : option (list A) := if is_empty l then None else Some l.

Definition as_legacy_permissions (p : FileSystemPermissions) : option LegacyReadWriteRoots :=
  match permission_glob_depth p with
  | Some _ => None
  | None =>
      (fun roots => mkLegacyRoots (non_empty roots.1) (non_empty roots.2))
      <$> legacy_roots (permission_entries p) [] []
  end.

Record NetworkPermissions := mkNetworkPermissions { network_enabled : option bool }.

Definition network_permissions_is_empty (n : NetworkPermissions) : bool :=
  negb (is_some (network_enabled n)).

Record AdditionalPermissionProfile := mkAdditional {
  additional_network : option NetworkPermissions;
  additional_file_system : option FileSystemPermissions
}.

Definition additional_is_empty (p : AdditionalPermissionProfile) : bool :=
  negb (is_some (additional_network p)) && negb (is_some (additional_file_system p)).

(** ** Profiles and runtime permissions *)

(** [ManagedFileSystemPermissions::from_sandbox_policy]; an external policy is
    [unreachable!]. *)
Definition managed_from_sandbox_policy (p : FileSystemSandboxPolicy U)
  : outcome unit ManagedFileSystemPermissions :=
  match fs_kind p with
  | Restricted => Done (ManagedRestricted (entries p) (glob_scan_max_depth p ≫= nonzero_new))
  | Unrestricted => Done ManagedUnrestricted
  | ExternalSandbox => Panic
  end.

Definition enforcement (p : PermissionProfile) : SandboxEnforcement :=
  match p with
  | Managed _ _ => EnforceManaged
  | Disabled => EnforceDisabled
  | External _ => EnforceExternal
  end.

Definition to_runtime_permissions (p : PermissionProfile)
  : FileSystemSandboxPolicy U * NetworkSandboxPolicy :=
  (file_system_sandbox_policy p, network_sandbox_policy p).

Definition from_runtime_permissions_with_enforcement (e : SandboxEnforcement)
    (file_system : FileSystemSandboxPolicy U) (network : NetworkSandboxPolicy)
  : outcome unit PermissionProfile :=
  match fs_kind file_system with
  | ExternalSandbox => Done (External network)
  | Unrestricted =>
      if bool_decide (e = EnforceDisabled) then Done Disabled
      else managed ← managed_from_sandbox_policy file_system; Done (Managed managed network)
  | Restricted => managed ← managed_from_sandbox_policy file_system; Done (Managed managed network)
  end.

Definition from_runtime_permissions (file_system : FileSystemSandboxPolicy U)
    (network : NetworkSandboxPolicy) : outcome unit PermissionProfile :=
  let e := match fs_kind file_system with
           | Restricted | Unrestricted => EnforceManaged
           | ExternalSandbox => EnforceExternal
           end in
  from_runtime_permissions_with_enforcement e file_system network.

Definition default_profile : PermissionProfile :=
  Managed (ManagedRestricted [] None) NetworkRestricted.

Definition read_only_profile : outcome unit PermissionProfile :=
  managed ← managed_from_sandbox_policy read_only;
  Done (Managed managed NetworkRestricted).

Definition without_write (e : FileSystemSandboxEntry U) : FileSystemSandboxEntry U :=
  mkEntry (entry_path e) (if is_deny (access e) then Deny else Read) (missing_path_behavior e).

Definition intersect_with_read_only (p : PermissionProfile)
  : outcome unit (option PermissionProfile) :=
  let file_system := file_system_sandbox_policy p in
  match fs_kind file_system with
  | Restricted =>
      Some <$> from_runtime_permissions
                 (set_entries file_system (without_write <$> entries file_system)) NetworkRestricted
  | Unrestricted => Some <$> from_runtime_permissions read_only NetworkRestricted
  | ExternalSandbox => Done None
  end.

Definition materialize_project_roots_with (p : PermissionProfile)
    (materialize : FileSystemSandboxPolicy U -> FileSystemSandboxPolicy U)
  : outcome unit PermissionProfile :=
  match p with
  | Managed file_system network =>
      managed ← managed_from_sandbox_policy (materialize (to_sandbox_policy file_system));
      Done (Managed managed network)
  | Disabled => Done Disabled
  | External network => Done (External network)
  end.

Section local.
Context (env : path_env)
  (default_read_only_subpaths : AbsolutePathBuf -> bool -> list AbsolutePathBuf).

Definition workspace_write_with (writable_roots : list AbsolutePathBuf)
    (network : NetworkSandboxPolicy) (exclude_tmpdir_env_var exclude_slash_tmp : bool)
  : outcome unit PermissionProfile :=
  let file_system :=
    workspace_write default_read_only_subpaths writable_roots exclude_tmpdir_env_var exclude_slash_tmp in
  managed ← managed_from_sandbox_policy file_system;
  Done (Managed managed network).

Definition workspace_write_profile : outcome unit PermissionProfile :=
  workspace_write_with [] NetworkRestricted false false.

Definition profile_materialize_project_roots (p : PermissionProfile)
    (workspace_roots : list AbsolutePathBuf) : outcome unit PermissionProfile :=
  materialize_project_roots_with p
    (fun policy => materialize_project_roots_with_workspace_roots env policy workspace_roots).

Definition from_legacy_sandbox_policy (p : SandboxPolicy) : outcome unit PermissionProfile :=
  from_runtime_permissions_with_enforcement (enforcement_from_legacy_sandbox_policy p)
    (from_sandbox_policy default_read_only_subpaths p) (network_from_sandbox_policy p).

Definition profile_from_legacy_sandbox_policy_for_cwd (p : SandboxPolicy) (cwd : rstr)
  : outcome unit PermissionProfile :=
  from_runtime_permissions_with_enforcement (enforcement_from_legacy_sandbox_policy p)
    (from_legacy_sandbox_policy_for_cwd env default_read_only_subpaths p cwd)
    (network_from_sandbox_policy p).
End local.
End profile.

Arguments FileSystemPermissions U : clear implicits.
Arguments AdditionalPermissionProfile U : clear implicits.

Arguments PermissionProfile U : clear implicits.
Arguments ManagedFileSystemPermissions U : clear implicits.


(** ** Lemmas *)

Section profile_lemmas.
Context {U : Type} `{!PathUriLexical U}.
Implicit Types (p q : FileSystemSandboxPolicy U) (ctx : FileSystemSandboxPolicyContext U).

Definition profile_ok (p : PermissionProfile U) : Prop :=
  match p with Managed (ManagedRestricted _ (Some 0)) _ => False | _ => True end.

Lemma from_runtime_done e p network :
  exists profile, from_runtime_permissions_with_enforcement e p network = Done profile
    /\ network_sandbox_policy profile
       = (if bool_decide (fs_kind p = Unrestricted /\ e = EnforceDisabled) then NetworkEnabled else network)
    /\ fs_kind (file_system_sandbox_policy profile) = fs_kind p
    /\ (fs_kind p = Restricted -> entries (file_system_sandbox_policy profile) = entries p).
Proof.
  unfold from_runtime_permissions_with_enforcement, managed_from_sandbox_policy.
  destruct (fs_kind p) eqn:Ek.
  - rewrite bool_decide_false by (intros [? ?]; congruence). by eexists.
  - case_bool_decide; subst.
    + eexists. split; [reflexivity|]. by rewrite bool_decide_true.
    + rewrite bool_decide_false by (intros [? ?]; congruence). by eexists.
  - rewrite bool_decide_false by (intros [? ?]; congruence). by eexists.
Qed.

Definition read_only_mode (a : FileSystemAccessMode) : FileSystemAccessMode :=
  if is_deny a then Deny else Read.

Definition read_only_policy p : FileSystemSandboxPolicy U := set_entries p (without_write <$> entries p).

Lemma read_only_resolved p ctx :
  resolved_entries (read_only_policy p) ctx = prod_map id read_only_mode <$> resolved_entries p ctx.
Proof.
  unfold resolved_entries, read_only_policy. cbn [set_entries entries]. induction (entries p) as [|e es IH]; [done|].
  cbn [fmap list_fmap]. rewrite !bind_cons, fmap_app. f_equal; [|done].
  rewrite <- list_fmap_compose. done.
Qed.

Lemma read_only_covering p ctx path root a d :
  covering (read_only_policy p) ctx path root a d
  <-> exists a', a = read_only_mode a' /\ covering p ctx path root a' d.
Proof.
  unfold covering. rewrite read_only_resolved, list_elem_of_fmap. split.
  - intros (([r a'] & [= -> ->] & Hin) & Hd & Hs). by exists a'.
  - intros (a' & -> & Hin & Hd & Hs). split_and!; [|done..]. by exists (root, a').
Qed.

Lemma read_only_resolvable p path ctx :
  lexically_resolvable (read_only_policy p) path ctx = lexically_resolvable p path ctx.
Proof.
  unfold lexically_resolvable. f_equal. rewrite read_only_resolved.
  induction (resolved_entries p ctx) as [|[r a] l IH]; [done|]. simpl. by f_equal.
Qed.

(** Reading is unchanged and writing is gone. *)
Lemma read_only_access p path ctx :
  fs_kind p = Restricted ->
  resolve_access (read_only_policy p) path ctx = read_only_mode (resolve_access p path ctx).
Proof.
  intros Hk. destruct (lexically_resolvable p path ctx) eqn:Hr.
  2:{ rewrite !resolve_access_fails_closed; [done|done|done|done|]. by rewrite read_only_resolvable. }
  assert (Hk' : fs_kind (read_only_policy p) = Restricted) by done.
  assert (Hr' : lexically_resolvable (read_only_policy p) path ctx = true) by by rewrite read_only_resolvable.
  destruct (resolve_access_spec p path ctx Hk Hr) as [[-> Hnone]|(root & d & Hcov & Hmax)].
  - destruct (resolve_access_spec _ path ctx Hk' Hr') as [[-> _]|(root & d & Hcov & _)]; [done|].
    apply read_only_covering in Hcov as (a' & _ & Hcov). by destruct (Hnone _ _ _ Hcov).
  - destruct (resolve_access_spec _ path ctx Hk' Hr') as [[_ Hnone]|(root' & d' & Hcov' & Hmax')].
    + destruct (Hnone root (read_only_mode (resolve_access p path ctx)) d).
      apply read_only_covering. by eexists.
    + pose proof (Hmax' root (read_only_mode (resolve_access p path ctx)) d) as H1.
      apply read_only_covering in Hcov' as (a' & Ha' & Hcov'). rewrite Ha' in *.
      specialize (Hmax _ _ _ Hcov'). destruct H1 as [H1|[H1 H2]].
      * apply read_only_covering. by eexists.
      * lia.
      * destruct Hmax as [Hlt|[_ Hle]]; [lia|].
        destruct (resolve_access p path ctx), a'; simpl in *; done || lia.
Qed.

Lemma read_only_not_writable d path ctx :
  can_write_path (mkFsPolicy Restricted d read_only_file_system_entries) path ctx = false.
Proof.
  unfold can_write_path.
  assert (Hr : resolve_access (mkFsPolicy Restricted d read_only_file_system_entries) path ctx
    = read_only_mode (resolve_access (mkFsPolicy Restricted d read_only_file_system_entries) path ctx)).
  { rewrite <- read_only_access by done. reflexivity. }
  rewrite Hr. by destruct (resolve_access _ _ _).
Qed.

(** ** Theorems *)

(** Splitting a profile into its runtime permissions and putting them
    together again gives the profile back. *)
Theorem profile_runtime_roundtrip (p : PermissionProfile U) :
  profile_ok p ->
  from_runtime_permissions_with_enforcement (enforcement p) (to_runtime_permissions p).1
    (to_runtime_permissions p).2 = Done p.
Proof. by destruct p as [[es [[|d]|]|] n| |n]. Qed.

(** C40: The intersection of a profile with read-only access never panics, has
    no network and can write nothing; a restricted profile can still read
    exactly what it could read before.  There is none exactly for profiles
    that an external sandbox enforces. *)
Theorem read_only_intersection (p : PermissionProfile U) :
  (exists network, p = External network /\ intersect_with_read_only p = Done None)
  \/ exists q : PermissionProfile U, intersect_with_read_only p = Done (Some q)
       /\ network_sandbox_policy q = NetworkRestricted
       /\ forall path ctx,
            can_write_path (file_system_sandbox_policy q) path ctx = false
            /\ (fs_kind (file_system_sandbox_policy p) = Restricted ->
                 can_read (resolve_access (file_system_sandbox_policy q) path ctx)
                 = can_read (resolve_access (file_system_sandbox_policy p) path ctx)).
Proof.
  destruct p as [[es depth|] n| |n]; [right..|left; by eexists].
  - eexists. split; [reflexivity|]. split; [done|]. intros path ctx.
    set (fs := mkFsPolicy Restricted depth es).
    assert (Hq : forall d, resolve_access (mkFsPolicy Restricted d (without_write <$> es)) path ctx
                 = read_only_mode (resolve_access fs path ctx)).
    { intros d. rewrite <- read_only_access by done. reflexivity. }
    cbn [file_system_sandbox_policy to_sandbox_policy]. unfold can_write_path. rewrite Hq. fold fs.
    by destruct (resolve_access fs path ctx).
  - eexists. split; [reflexivity|]. split; [done|]. intros path ctx. split; [|done].
    by apply read_only_not_writable.
  - eexists. split; [reflexivity|]. split; [done|]. intros path ctx. split; [|done].
    by apply read_only_not_writable.
Qed.
End profile_lemmas.

(** ** Examples *)

Module Examples.
Definition reader : PermissionProfile (list rstr) :=
  Managed (ManagedRestricted [new_entry (Special Root) Read; new_entry (PathEntry [lit "w"]) Write] (Some 3))
    NetworkEnabled.

Lemma profile_runtime_roundtrip_witness :
  from_runtime_permissions_with_enforcement EnforceManaged (file_system_sandbox_policy reader) NetworkEnabled
  = Done reader.
Proof. apply (profile_runtime_roundtrip reader). exact I. Defined.
End Examples.
