(* ===== verification/PolicyTransforms.v ===== *)
(** * PolicyTransforms: [codex-rs/sandboxing/src/policy_transforms.rs]

    What a command asks for beyond its profile, what the user grants of it, and
    the permissions that result (the branches of the Unix build).

    Canonicalisation of paths, the test for a directory, [TMPDIR] and the
    matcher of denied reads (which compiles globs) are arguments.  A working
    directory is its text. *)

From Stdlib Require Import Lia.
From stdpp Require Import base list strings.
From S2P Require Import Prelude AbsolutePath Permissions PermissionProfiles.

Open Scope rust_scope.

Inductive GlobScanDepth := Bounded (depth : nat) | Unbounded.

Section transforms.
Context {U : Type} `{!PathUriLexical U}.
Context (env : path_env) (tmpdir : option rstr) (is_dir : AbsolutePathBuf -> bool)
  (canonicalize_preserving_symlinks : rstr -> option rstr)
  (read_deny_matcher : FileSystemSandboxPolicy U -> rstr -> option (AbsolutePathBuf -> bool)).
Abbreviation Entry := (FileSystemSandboxEntry U).
Abbreviation AdditionalPermissionProfile := (AdditionalPermissionProfile U).
Abbreviation FileSystemPermissions := (FileSystemPermissions U).

Definition is_glob (path : FileSystemPath U) : bool :=
  match path with GlobPattern _ => true | _ => false end.

Definition with_path (e : Entry) (path : FileSystemPath U) : Entry :=
  mkEntry path (access e) (missing_path_behavior e).

(** ** Paths *)

(** [cwd.ancestors().last()] *)
Definition last_ancestor (cwd : rstr) : rstr := if is_absolute cwd then [c_slash] else [].

Definition resolve_permission_path (path : FileSystemPath U) (cwd : rstr) : option AbsolutePathBuf :=
  match path with
  | PathEntry path => to_abs_path path
  | GlobPattern _ => None
  | Special value =>
      match value with
      | Root => from_absolute_path env (last_ancestor cwd)
      | ProjectRoots subpath =>
          match from_absolute_path env cwd with
          | None => None
          | Some cwd =>
              Some match subpath with
                   | Some subpath => resolve_path_against_base env subpath (as_text cwd)
                   | None => cwd
                   end
          end
      | Tmpdir =>
          match tmpdir with
          | None | Some [] => None
          | Some dir => from_absolute_path env dir
          end
      | SlashTmp =>
          match from_absolute_path env (lit "/tmp") with
          | Some path => if is_dir path then Some path else None
          | None => None
          end
      | Minimal | Unknown _ _ => None
      end
  end.

Definition materialize_cwd_dependent_entry (e : Entry) (cwd : rstr) : Entry :=
  match entry_path e with
  | Special (ProjectRoots _) =>
      match resolve_permission_path (entry_path e) cwd with
      | Some path => with_path e (PathEntry (from_abs_path path))
      | None => e
      end
  | GlobPattern pattern =>
      with_path e (GlobPattern (as_text (resolve_path_against_base env pattern cwd)))
  | PathEntry _ | Special _ => e
  end.

Definition overlaps (left right : U) : option bool :=
  if bool_decide (left = right) then Some true
  else match lexical_depth left, lexical_depth right with
       | Some _, Some _ => Some (uri_starts_with left right || uri_starts_with right left)
       | _, _ => None
       end.

Definition paths_may_overlap (left right : AbsolutePathBuf) : bool :=
  default true (overlaps (from_abs_path left) (from_abs_path right)).

Definition is_glob_char (c : N) : bool :=
  existsb (N.eqb c) [42; 63; 91; 93]%N.

(** [str::find] of a character: what is before it. *)
Fixpoint before_glob_char (s : rstr) : option rstr :=
  match s with
  | [] => None
  | c :: r => if is_glob_char c then Some [] else cons c <$> before_glob_char r
  end.

Definition glob_static_prefix_path (pattern cwd : rstr) : option AbsolutePathBuf :=
  let resolved_pattern := as_text (resolve_path_against_base env pattern cwd) in
  match before_glob_char resolved_pattern with
  | Some [] => None
  | Some prefix =>
      if ends_with [c_slash] prefix || ends_with [92%N] prefix then from_absolute_path env prefix
      else match parent (components prefix) with
           | Some prefix => from_absolute_path env (as_text prefix)
           | None => None
           end
  | None => from_absolute_path env resolved_pattern
  end.

(** ** Normalising and merging *)

Definition normalize_entry_path (path : FileSystemPath U) : FileSystemPath U :=
  match path with
  | PathEntry path =>
      PathEntry (default path
        (path ← to_abs_path path;
         path ← canonicalize_preserving_symlinks (as_text path);
         from_abs_path <$> from_absolute_path env path))
  | GlobPattern pattern => GlobPattern pattern
  | Special value => Special value
  end.

Fixpoint normalize_entries (es normalized : list Entry) : result rstr (list Entry) :=
  match es with
  | [] => Ok normalized
  | e :: others =>
      if is_glob (entry_path e) && negb (bool_decide (access e = Deny)) then
        Err (lit "glob file system permissions only support deny-read entries")
      else
        normalize_entries others
          (push_missing normalized (with_path e (normalize_entry_path (entry_path e))))
  end.

Definition normalize_additional_permissions (p : AdditionalPermissionProfile)
  : result rstr AdditionalPermissionProfile :=
  let network :=
    match additional_network p with
    | Some network => if network_permissions_is_empty network then None else Some network
    | None => None
    end in
  match additional_file_system p with
  | Some file_system =>
      match normalize_entries (permission_entries file_system) [] with
      | Err e => Err e
      | Ok es =>
          let file_system := mkFileSystemPermissions es (permission_glob_depth file_system) in
          Ok (mkAdditional network
                (if file_system_permissions_is_empty file_system then None else Some file_system))
      end
  | None => Ok (mkAdditional network None)
  end.

Definition materialize_additional_permissions (p : AdditionalPermissionProfile) (cwd : rstr)
  : result rstr AdditionalPermissionProfile :=
  normalize_additional_permissions
    (mkAdditional (additional_network p)
       ((fun file_system =>
           mkFileSystemPermissions
             ((fun e => materialize_cwd_dependent_entry e cwd) <$> permission_entries file_system)
             (permission_glob_depth file_system)) <$> additional_file_system p)).

Definition is_deny_glob (e : Entry) : bool := is_deny (access e) && is_glob (entry_path e).

Definition effective_glob_scan_depth (es : list Entry) (depth : option nat) : option GlobScanDepth :=
  if existsb is_deny_glob es then
    Some match depth with Some depth => Bounded depth | None => Unbounded end
  else None.

Definition merge_glob_scan_max_depth (left_entries : list Entry) (left_depth : option nat)
    (right_entries : list Entry) (right_depth : option nat) : option nat :=
  match effective_glob_scan_depth left_entries left_depth,
        effective_glob_scan_depth right_entries right_depth with
  | Some Unbounded, _ | _, Some Unbounded => None
  | Some (Bounded l), Some (Bounded r) => Some (Nat.max l r)
  | Some (Bounded depth), None | None, Some (Bounded depth) => Some depth
  | None, None => None
  end.

Definition merge_permission_entries (base permissions : list Entry) : list Entry :=
  foldl push_missing [] (base ++ permissions).

Definition network_on (n : option NetworkPermissions) : bool :=
  match n with Some network => bool_decide (network_enabled network = Some true) | None => false end.

Definition enabled_network : option NetworkPermissions := Some (mkNetworkPermissions (Some true)).

Definition unless_empty (p : AdditionalPermissionProfile) : option AdditionalPermissionProfile :=
  if additional_is_empty p then None else Some p.

Definition merge_permission_profiles (base permissions : option AdditionalPermissionProfile)
  : option AdditionalPermissionProfile :=
  match permissions with
  | None => base
  | Some permissions =>
      match base with
      | Some base =>
          let network :=
            if network_on (additional_network base) || network_on (additional_network permissions)
            then enabled_network else None in
          let file_system :=
            match additional_file_system base, additional_file_system permissions with
            | Some base, Some permissions =>
                let merged :=
                  mkFileSystemPermissions
                    (merge_permission_entries (permission_entries base) (permission_entries permissions))
                    (merge_glob_scan_max_depth
                       (permission_entries base) (permission_glob_depth base)
                       (permission_entries permissions) (permission_glob_depth permissions)
                     ≫= nonzero_new) in
                if file_system_permissions_is_empty merged then None else Some merged
            | Some base, None => Some base
            | None, Some permissions => Some permissions
            | None, None => None
            end in
          unless_empty (mkAdditional network file_system)
      | None => unless_empty permissions
      end
  end.

(** ** What is granted of a request *)

Definition access_covers (requested granted : FileSystemAccessMode) : bool :=
  match granted with
  | Read => can_read requested
  | Write => can_write requested
  | Deny => false
  end.

Definition granted_file_system_entry_within_request (requested : FileSystemPermissions)
    (requested_policy : FileSystemSandboxPolicy U) (matcher : option (AbsolutePathBuf -> bool))
    (granted_entry : Entry) (cwd : rstr) : bool :=
  if negb (can_read (access granted_entry)) then false
  else
    match resolve_permission_path (entry_path granted_entry) cwd with
    | Some path =>
        if is_some_and matcher (fun is_read_denied => is_read_denied path) then false
        else access_covers (resolve_access_with_cwd env tmpdir requested_policy (as_text path) cwd)
               (access granted_entry)
    | None =>
        existsb (fun requested_entry =>
          access_covers (access requested_entry) (access granted_entry)
          && bool_decide (entry_path requested_entry = entry_path granted_entry))
          (permission_entries requested)
    end.

Definition deny_entry_constrains_accepted_grant (deny_entry : Entry) (accepted : list Entry)
    (cwd : rstr) : bool :=
  existsb (fun e =>
    can_read (access e)
    && match resolve_permission_path (entry_path e) cwd with
       | None => false
       | Some grant_path =>
           match entry_path deny_entry with
           | GlobPattern pattern =>
               is_some_and (glob_static_prefix_path pattern cwd)
                 (fun prefix => paths_may_overlap prefix grant_path)
           | PathEntry _ | Special _ =>
               is_some_and (resolve_permission_path (entry_path deny_entry) cwd)
                 (fun deny_path => paths_may_overlap deny_path grant_path)
           end
       end) accepted.

(** The deny entries that constrain a grant, as they are kept. *)
Definition constraining_deny_entries (source accepted : list Entry) (cwd : rstr) : list Entry :=
  (fun e => materialize_cwd_dependent_entry e cwd)
  <$> List.filter (fun e => is_deny (access e) && deny_entry_constrains_accepted_grant e accepted cwd)
        source.

(** The output entries with them, and the retained entries. *)
Definition retain_constraining_deny_entries (source accepted : list Entry) (cwd : rstr)
    (output : list Entry) : list Entry * list Entry :=
  let retained := constraining_deny_entries source accepted cwd in
  (foldl push_missing output retained, retained).

Definition accepted_grants (requested granted : FileSystemPermissions) (cwd : rstr) : list Entry :=
  let requested_policy := restricted (permission_entries requested) in
  let matcher := read_deny_matcher requested_policy cwd in
  foldl push_missing []
    ((fun e => materialize_cwd_dependent_entry e cwd)
     <$> List.filter (fun e =>
           granted_file_system_entry_within_request requested requested_policy matcher e cwd)
           (permission_entries granted)).

Definition intersect_file_system_permissions (requested granted : FileSystemPermissions) (cwd : rstr)
  : FileSystemPermissions :=
  let accepted := accepted_grants requested granted cwd in
  let '(es, requested_retained) :=
    retain_constraining_deny_entries (permission_entries requested) accepted cwd accepted in
  let '(es, granted_retained) :=
    retain_constraining_deny_entries (permission_entries granted) accepted cwd es in
  mkFileSystemPermissions es
    (merge_glob_scan_max_depth requested_retained (permission_glob_depth requested)
       granted_retained (permission_glob_depth granted) ≫= nonzero_new).

Definition intersect_permission_profiles (requested granted : AdditionalPermissionProfile) (cwd : rstr)
  : AdditionalPermissionProfile :=
  let file_system :=
    match additional_file_system requested with
    | None => None
    | Some requested =>
        let granted := default no_file_system_permissions (additional_file_system granted) in
        let intersection := intersect_file_system_permissions requested granted cwd in
        if file_system_permissions_is_empty intersection then None else Some intersection
    end in
  let network :=
    if network_on (additional_network requested) && network_on (additional_network granted)
    then enabled_network else None in
  mkAdditional network file_system.

(** ** Effective permissions *)

Definition merge_file_system_policy_with_additional_permissions (p : FileSystemSandboxPolicy U)
    (additional : FileSystemPermissions) : FileSystemSandboxPolicy U :=
  match fs_kind p with
  | Restricted =>
      mkFsPolicy Restricted
        (merge_glob_scan_max_depth (entries p) (glob_scan_max_depth p)
           (permission_entries additional) (permission_glob_depth additional))
        (foldl push_missing (entries p) (permission_entries additional))
  | Unrestricted | ExternalSandbox => p
  end.

Definition effective_file_system_sandbox_policy (p : FileSystemSandboxPolicy U)
    (additional : option AdditionalPermissionProfile) : FileSystemSandboxPolicy U :=
  match additional ≫= additional_file_system with
  | None => p
  | Some file_system =>
      if file_system_permissions_is_empty file_system then p
      else merge_file_system_policy_with_additional_permissions p file_system
  end.

Definition merge_network_access (base : bool) (additional : AdditionalPermissionProfile) : bool :=
  base || default false (additional_network additional ≫= network_enabled).

Definition effective_network_sandbox_policy (network : NetworkSandboxPolicy)
    (additional : option AdditionalPermissionProfile) : NetworkSandboxPolicy :=
  match additional with
  | Some additional =>
      if merge_network_access (is_enabled network) additional then NetworkEnabled else NetworkRestricted
  | None => network
  end.

Definition effective_permission_profile (p : PermissionProfile U)
    (additional : option AdditionalPermissionProfile) : outcome unit (PermissionProfile U) :=
  let '(file_system, network) := to_runtime_permissions p in
  from_runtime_permissions_with_enforcement (enforcement p)
    (effective_file_system_sandbox_policy file_system additional)
    (effective_network_sandbox_policy network additional).

Definition should_require_platform_sandbox (p : FileSystemSandboxPolicy U)
    (network : NetworkSandboxPolicy) (has_managed_network_requirements : bool) : bool :=
  if has_managed_network_requirements then true
  else if negb (is_enabled network) then negb (bool_decide (fs_kind p = ExternalSandbox))
  else match fs_kind p with
       | Restricted => negb (has_full_disk_write_access p)
       | Unrestricted | ExternalSandbox => false
       end.
End transforms.

(** ** Merged policies *)

Section merged.
Context {U : Type} `{!PathUriLexical U}.
Implicit Types (p : FileSystemSandboxPolicy U) (ctx : FileSystemSandboxPolicyContext U)
  (es : list (FileSystemSandboxEntry U)).

(** A path resolves in the union of two lists of entries as in one of them,
    or is denied. *)
Lemma resolved_mono p q ctx root a :
  (forall e, e ∈ entries p -> e ∈ entries q) ->
  (root, a) ∈ resolved_entries p ctx -> (root, a) ∈ resolved_entries q ctx.
Proof.
  rewrite !elem_of_resolved. intros Hsub (e & He & Ha & Hu & Hc). exists e. split; [by apply Hsub|done].
Qed.

Lemma resolvable_mono p q path ctx :
  (forall e, e ∈ entries p -> e ∈ entries q) ->
  lexically_resolvable q path ctx = true -> lexically_resolvable p path ctx = true.
Proof.
  unfold lexically_resolvable. intros Hsub. rewrite !andb_true_iff, !forallb_forall.
  intros [H Hall]. split; [done|]. intros [root a] Hin. apply (Hall (root, a)).
  apply list_elem_of_In. apply list_elem_of_In in Hin. by eapply resolved_mono.
Qed.

(** A part of a policy that holds its winning entry resolves the same. *)
Lemma resolve_part p q path ctx root d :
  fs_kind p = Restricted -> fs_kind q = Restricted ->
  (forall e, e ∈ entries p -> e ∈ entries q) -> lexically_resolvable q path ctx = true ->
  (forall root' a' d', covering q ctx path root' a' d' ->
     d' < d \/ d' = d /\ access_rank a' <= access_rank (resolve_access q path ctx)) ->
  covering p ctx path root (resolve_access q path ctx) d ->
  resolve_access p path ctx = resolve_access q path ctx.
Proof.
  intros Hp Hq Hsub Hr Hmax Hcov.
  destruct (resolve_access_spec p path ctx Hp (resolvable_mono p q path ctx Hsub Hr))
    as [[_ Hnone]|(root' & d' & Hcov' & Hmax')].
  - by destruct (Hnone _ _ _ Hcov).
  - specialize (Hmax' _ _ _ Hcov). destruct (Hmax root' (resolve_access p path ctx) d') as [Hlt|[-> Hle]].
    + destruct Hcov' as (Hin & Hd & Hs). split_and!; [by eapply resolved_mono|done|done].
    + lia.
    + destruct (resolve_access p path ctx), (resolve_access q path ctx); simpl in *; done || lia.
Qed.

Lemma merged_access p es depth path ctx :
  fs_kind p = Restricted ->
  let q := mkFsPolicy Restricted depth (foldl push_missing (entries p) es) in
  resolve_access q path ctx = Deny
  \/ resolve_access q path ctx = resolve_access p path ctx
  \/ resolve_access q path ctx = resolve_access (restricted es) path ctx.
Proof.
  intros Hk q. assert (Hq : fs_kind q = Restricted) by done.
  assert (Hentries : forall e, e ∈ entries q <-> e ∈ entries p \/ e ∈ es) by (intros e; apply elem_of_push_missing).
  destruct (lexically_resolvable q path ctx) eqn:Hr; [|left; by apply resolve_access_fails_closed].
  destruct (resolve_access_spec q path ctx Hq Hr) as [[? _]|(root & d & Hcov & Hmax)]; [by left|right].
  pose proof Hcov as (Hin & Hd & Hs). apply elem_of_resolved in Hin as (e & He & Ha & Hu & Hc).
  apply Hentries in He as [He|He]; [left|right]; symmetry; eapply (resolve_part _ q); try done.
  all: try (intros e' He'; apply Hentries; auto).
  all: split_and!; [|done|done]; apply elem_of_resolved; by exists e.
Qed.

(** An access other than denial comes from an entry. *)
Lemma resolve_access_read p path ctx :
  fs_kind p = Restricted -> resolve_access p path ctx = Read ->
  exists root d, covering p ctx path root Read d.
Proof.
  intros Hk Hread. destruct (lexically_resolvable p path ctx) eqn:Hr.
  2:{ by rewrite resolve_access_fails_closed in Hread. }
  destruct (resolve_access_spec p path ctx Hk Hr) as [[E _]|(root & d & Hcov & _)]; [congruence|].
  rewrite Hread in Hcov. by exists root, d.
Qed.

(** ** The local context *)

Context (env : path_env) (tmpdir : option rstr).

Definition local_context (cwd : AbsolutePathBuf) : FileSystemSandboxPolicyContext U :=
  mkContext (from_abs_path cwd) [from_abs_path cwd] (Some (local_temporary_directories env tmpdir)).

Lemma resolve_local p (path cwd_path : AbsolutePathBuf) cwd :
  from_absolute_path env cwd = Some cwd_path -> normal_absolute path ->
  resolve_access_with_cwd env tmpdir p (as_text path) cwd
  = resolve_access p (from_abs_path path) (local_context cwd_path).
Proof.
  intros Hcwd Hpath. unfold resolve_access_with_cwd, with_local_policy_context, resolve_candidate_path.
  by rewrite Hcwd, as_text_absolute, from_absolute_path_as_text.
Qed.
End merged.

(** ** Intersections *)

Section intersection.
Context {U : Type} `{!PathUriLexical U} `{!PathUriLaws U}.
Context (env : path_env) (tmpdir : option rstr) (is_dir : AbsolutePathBuf -> bool)
  (matcher : FileSystemSandboxPolicy U -> rstr -> option (AbsolutePathBuf -> bool)).
Context (cwd : rstr) (cwd_path : AbsolutePathBuf) (Hcwd : from_absolute_path env cwd = Some cwd_path).
Abbreviation ctx := (local_context env tmpdir cwd_path).
Abbreviation resolve := (resolve_permission_path env tmpdir is_dir).
Abbreviation materialize e := (materialize_cwd_dependent_entry env tmpdir is_dir e cwd).
Abbreviation Entry := (FileSystemSandboxEntry U).
Abbreviation Permissions := (FileSystemPermissions U).
Implicit Types (e : Entry) (req granted : Permissions) (path u : U).

(** An entry's path resolves here as the policy resolves it: to one URI of a
    native path, or to none. *)
Definition faithful e : Prop :=
  entry_paths ctx (entry_path e) = option_list (from_abs_path <$> resolve (entry_path e) cwd)
  /\ forall g, resolve (entry_path e) cwd = Some g ->
       normal_absolute g /\ to_abs_path (from_abs_path (U := U) g) = Some g.

Lemma materialize_same e :
  faithful e ->
  entry_paths ctx (entry_path (materialize e)) = entry_paths ctx (entry_path e)
  /\ resolve (entry_path (materialize e)) cwd = resolve (entry_path e) cwd
  /\ access (materialize e) = access e.
Proof.
  intros [Hp Hg]. unfold materialize_cwd_dependent_entry.
  destruct (entry_path e) as [path|pattern|value] eqn:Ee; cbn [with_path entry_path access]; try (rewrite ?Ee; done).
  destruct value; try (by rewrite ?Ee).
  destruct (resolve (Special (ProjectRoots subpath)) cwd) as [g|] eqn:Er; [|by rewrite ?Ee, ?Er].
  cbn [with_path entry_path access]. rewrite Hp. destruct (Hg g eq_refl) as [_ Hto]. split_and!; [done|done|done].
Qed.

Lemma faithful_path e u :
  faithful e -> u ∈ entry_paths ctx (entry_path e) ->
  exists g, resolve (entry_path e) cwd = Some g /\ u = from_abs_path g /\ normal_absolute g.
Proof.
  intros [-> Hg]. destruct (resolve (entry_path e) cwd) as [g|]; cbn.
  - intros ->%list_elem_of_singleton. exists g. split_and!; [done|done|by apply Hg].
  - by intros ?%elem_of_nil.
Qed.

Lemma elem_of_accepted req granted e' :
  e' ∈ accepted_grants env tmpdir is_dir matcher req granted cwd <->
  exists e, e ∈ permission_entries granted /\ e' = materialize e
    /\ granted_file_system_entry_within_request env tmpdir is_dir req (restricted (permission_entries req))
         (matcher (restricted (permission_entries req)) cwd) e cwd = true.
Proof.
  unfold accepted_grants. rewrite elem_of_push_missing, list_elem_of_fmap. split.
  - intros [[]%elem_of_nil|(e & -> & Hin)]. apply list_elem_of_In, List.filter_In in Hin as [Hin Hw].
    exists e. rewrite list_elem_of_In. done.
  - intros (e & He & -> & Hw). right. exists e. split; [done|].
    apply list_elem_of_In, List.filter_In. by rewrite <- list_elem_of_In.
Qed.

Lemma elem_of_constraining (source accepted : list Entry) e' :
  e' ∈ constraining_deny_entries env tmpdir is_dir source accepted cwd <->
  exists e, e ∈ source /\ e' = materialize e /\ access e = Deny
    /\ deny_entry_constrains_accepted_grant env tmpdir is_dir e accepted cwd = true.
Proof.
  unfold constraining_deny_entries. rewrite list_elem_of_fmap. split.
  - intros (e & -> & Hin). apply list_elem_of_In, List.filter_In in Hin as [Hin Hw].
    apply andb_true_iff in Hw as [Hd Hw]. exists e. rewrite list_elem_of_In. by destruct (access e).
  - intros (e & He & -> & Hd & Hw). exists e. split; [done|].
    apply list_elem_of_In, List.filter_In. rewrite <- list_elem_of_In. by rewrite Hd, Hw.
Qed.

Lemma elem_of_intersection req granted e' :
  let accepted := accepted_grants env tmpdir is_dir matcher req granted cwd in
  e' ∈ permission_entries (intersect_file_system_permissions env tmpdir is_dir matcher req granted cwd) <->
  e' ∈ accepted
  \/ e' ∈ constraining_deny_entries env tmpdir is_dir (permission_entries req) accepted cwd
  \/ e' ∈ constraining_deny_entries env tmpdir is_dir (permission_entries granted) accepted cwd.
Proof.
  cbv zeta. unfold intersect_file_system_permissions, retain_constraining_deny_entries.
  cbn [permission_entries]. rewrite !elem_of_push_missing. tauto.
Qed.

Abbreviation within req e :=
  (granted_file_system_entry_within_request env tmpdir is_dir req (restricted (permission_entries req))
     (matcher (restricted (permission_entries req)) cwd) e cwd).

(** A grant is accepted only if the request covers it at its root. *)
Lemma within_covers req e u :
  faithful e -> within req e = true -> u ∈ entry_paths ctx (entry_path e) ->
  access_covers (resolve_access (restricted (permission_entries req)) u ctx) (access e) = true
  /\ access e <> Deny.
Proof using Hcwd.
  intros Hf Hw Hu. destruct (faithful_path e u Hf Hu) as (g & Hg & -> & Hn).
  unfold granted_file_system_entry_within_request in Hw. rewrite Hg in Hw.
  destruct (can_read (access e)) eqn:Er; [|done]. cbn [negb] in Hw.
  destruct (is_some_and _ _); [done|]. rewrite (resolve_local env tmpdir _ g cwd_path cwd Hcwd Hn) in Hw.
  split; [done|]. intros E. by rewrite E in Er.
Qed.

(** A deny entry at or below the root of an accepted grant is kept. *)
Lemma deny_below_kept req granted d e path u w du dw :
  faithful d -> faithful e -> access d = Deny -> can_read (access e) = true ->
  e ∈ permission_entries granted -> within req e = true ->
  u ∈ entry_paths ctx (entry_path e) -> w ∈ entry_paths ctx (entry_path d) ->
  infer_path_convention path = Some Posix ->
  uri_starts_with path u = true -> uri_starts_with path w = true ->
  lexical_depth u = Some du -> lexical_depth w = Some dw -> du <= dw ->
  deny_entry_constrains_accepted_grant env tmpdir is_dir d
    (accepted_grants env tmpdir is_dir matcher req granted cwd) cwd = true.
Proof using PathUriLaws0.
  intros Hfd Hfe Hd He Hin Hw Hu Hdw Hconv Hpu Hpw Hdu Hdepth Hle.
  destruct (faithful_path e u Hfe Hu) as (g & Hg & -> & _).
  destruct (faithful_path d w Hfd Hdw) as (h & Hh & -> & _).
  destruct (materialize_same e Hfe) as (_ & Hres & Hacc).
  unfold deny_entry_constrains_accepted_grant. apply existsb_elem. exists (materialize e).
  split; [apply elem_of_accepted; by exists e|]. rewrite Hacc, He, Hres, Hg. cbn [andb].
  assert (Hov : paths_may_overlap (U := U) h g = true).
  { unfold paths_may_overlap, overlaps. case_bool_decide; [done|]. rewrite Hdu, Hdepth. simpl.
    by rewrite (ancestors_nested path (from_abs_path g) (from_abs_path h) du dw). }
  destruct (entry_path d) as [v|v|v] eqn:Ed; [|by apply elem_of_nil in Hdw|]; by rewrite Hh.
Qed.

Abbreviation requested req := (restricted (permission_entries req)).
Abbreviation intersection req granted :=
  (restricted (permission_entries (intersect_file_system_permissions env tmpdir is_dir matcher req granted cwd))).

(** What an intersection lets through comes from an accepted grant. *)
Lemma intersection_winner req granted path root a d :
  Forall faithful (permission_entries req) -> Forall faithful (permission_entries granted) ->
  a <> Deny -> covering (intersection req granted) ctx path root a d ->
  exists e, e ∈ permission_entries granted /\ within req e = true /\ access e = a
    /\ root ∈ entry_paths ctx (entry_path e) /\ faithful e.
Proof using.
  rewrite !Forall_forall. intros Hreq Hgr Ha (Hin & _ & _).
  apply elem_of_resolved in Hin as (e' & He' & <- & Hu & _). cbn [restricted entries] in He'.
  apply elem_of_intersection in He' as [He'|[He'|He']].
  - apply elem_of_accepted in He' as (e & He & -> & Hw). exists e.
    destruct (materialize_same e (Hgr e He)) as (Hp & _ & Hacc). rewrite <- Hp. split_and!; try done. by apply Hgr.
  - apply elem_of_constraining in He' as (e & He & -> & Hd & _).
    destruct (materialize_same e (Hreq e He)) as (_ & _ & Hacc). rewrite Hacc in Ha. congruence.
  - apply elem_of_constraining in He' as (e & He & -> & Hd & _).
    destruct (materialize_same e (Hgr e He)) as (_ & _ & Hacc). rewrite Hacc in Ha. congruence.
Qed.

Lemma requested_deny_retained req granted e w :
  faithful e -> e ∈ permission_entries req -> access e = Deny ->
  w ∈ entry_paths ctx (entry_path e) -> same_convention ctx w = true ->
  deny_entry_constrains_accepted_grant env tmpdir is_dir e
    (accepted_grants env tmpdir is_dir matcher req granted cwd) cwd = true ->
  (w, Deny) ∈ resolved_entries (intersection req granted) ctx.
Proof using.
  intros Hf He Hd Hw Hc Hcon. apply elem_of_resolved. exists (materialize e).
  destruct (materialize_same e Hf) as (Hp & _ & Hacc). rewrite Hp, Hacc. split_and!; try done.
  cbn [restricted entries]. apply elem_of_intersection. right. left. apply elem_of_constraining. by exists e.
Qed.

Lemma resolvable_change p path u :
  lexically_resolvable p u ctx = true -> same_convention ctx path = true ->
  is_some (lexical_depth path) = true -> lexically_resolvable p path ctx = true.
Proof using. unfold lexically_resolvable. rewrite !andb_true_iff. intros [[[[? ?] ?] ?] ?] -> ->. done. Qed.

Lemma resolvable_posix p path :
  normal_absolute cwd_path -> lexically_resolvable p path ctx = true -> infer_path_convention path = Some Posix.
Proof using PathUriLaws0.
  intros Hn. unfold lexically_resolvable, same_convention. rewrite !andb_true_iff, bool_decide_eq_true.
  intros [[[[_ ->] _] _] _]. by apply native_convention.
Qed.

Lemma intersection_access req granted path :
  normal_absolute cwd_path -> Forall faithful (permission_entries req) -> Forall faithful (permission_entries granted) ->
  can_read (resolve_access (intersection req granted) path ctx) = true ->
  can_read (resolve_access (requested req) path ctx) = true
  /\ (can_write (resolve_access (intersection req granted) path ctx) = true ->
      (forall root d, ~ covering (requested req) ctx path root Read d) ->
      can_write (resolve_access (requested req) path ctx) = true).
Proof using Hcwd PathUriLaws0.
  intros Hcn Hreq Hgr Hread. set (I := intersection req granted) in *. set (R := requested req).
  destruct (lexically_resolvable I path ctx) eqn:HrI.
  2:{ by rewrite resolve_access_fails_closed in Hread. }
  pose proof (resolvable_posix I path Hcn HrI) as Hconv.
  destruct (resolve_access_spec I path ctx eq_refl HrI) as [[E _]|(u & d & HcovI & HmaxI)]; [by rewrite E in Hread|].
  assert (Hnd : resolve_access I path ctx <> Deny) by (intros E; by rewrite E in Hread).
  destruct (intersection_winner req granted path u _ d Hreq Hgr Hnd HcovI) as (e & He & Hw & Hacc & Hu & Hfe).
  destruct (within_covers req e u Hfe Hw Hu) as [Hcov _]. fold R in Hcov. rewrite Hacc in Hcov.
  destruct HcovI as (_ & Hdu & Hpu).
  assert (Hra : resolve_access R u ctx <> Deny).
  { intros E. rewrite E in Hcov. by destruct (resolve_access I path ctx). }
  destruct (lexically_resolvable R u ctx) eqn:HrRu; [|by rewrite resolve_access_fails_closed in Hra].
  assert (HrR : lexically_resolvable R path ctx = true).
  { eapply resolvable_change; [exact HrRu|..]; unfold lexically_resolvable in HrI; by destruct_bools. }
  destruct (resolve_access_spec R u ctx eq_refl HrRu) as [[E _]|(r & dr & (Hrin & Hrd & Hrs) & HmaxU)]; [done|].
  assert (Hrpath : covering R ctx path r (resolve_access R u ctx) dr).
  { split_and!; [done|done|]. by eapply starts_with_trans. }
  destruct (resolve_access_spec R path ctx eq_refl HrR) as [[_ Hnone]|(w & dw & HcovR & HmaxR)].
  { by destruct (Hnone _ _ _ Hrpath). }
  assert (HnotDeny : resolve_access R path ctx <> Deny).
  { intros E. rewrite E in *. destruct HcovR as (Hin & Hdw & Hpw).
    pose proof Hin as (d' & Hd' & Hdeny & Hw' & Hc)%elem_of_resolved. cbn [R restricted entries] in Hd'.
    destruct (decide (d <= dw)) as [Hle|Hgt].
    - assert (Hret : (w, Deny) ∈ resolved_entries I ctx).
      { apply (requested_deny_retained req granted d'); try done.
        - by apply (proj1 (Forall_forall _ _) Hreq).
        - eapply (deny_below_kept req granted d' e path u w d dw); try done.
          + by apply (proj1 (Forall_forall _ _) Hreq).
          + rewrite Hacc. by destruct (resolve_access I path ctx). }
      destruct (HmaxI w Deny dw) as [?|[_ Hrank]]; [by split_and!|lia|].
      destruct (resolve_access I path ctx); simpl in *; done || lia.
    - assert (Huw : uri_starts_with u w = true).
      { eapply (ancestors_nested path w u); [done..|]. lia. }
      destruct (HmaxU w Deny dw) as [?|[-> Hrank]]; [by split_and!| |].
      + destruct (HmaxR _ _ _ Hrpath) as [?|[? _]]; lia.
      + destruct (resolve_access R u ctx); simpl in *; done || lia. }
  split; [by destruct (resolve_access R path ctx)|]. intros _ Hnoread.
  destruct (resolve_access R path ctx) eqn:E; [|done|done]. by destruct (Hnoread w dw).
Qed.
End intersection.

(** ** POSIX paths *)

Section posix.
Context (env : path_env) (tmpdir : option rstr) (is_dir : AbsolutePathBuf -> bool)
  (cwd : rstr) (cwd_path : AbsolutePathBuf).

Definition good_segmentb (s : rstr) : bool :=
  negb (is_empty s) && (s != lit ".") && (s != lit "..") && bool_decide (c_slash ∉ s).

Lemma good_segmentb_spec s : good_segmentb s = true -> good_segment s.
Proof.
  unfold good_segmentb. rewrite !andb_true_iff, !negb_true_iff, is_empty_false, bool_decide_eq_true.
  intros [[[H1 H2] H3] H4]. split_and!; [done|..|done]; intros ->; by rewrite str_eqb_refl in *.
Qed.

(** Entries whose meaning does not depend on the home directory or on a
    missing [/tmp]. *)
Definition plain_entry (e : FileSystemSandboxEntry (list rstr)) : bool :=
  match entry_path e with
  | PathEntry u => forallb good_segmentb u
  | Special (ProjectRoots (Some subpath)) => negb (starts_with [c_tilde] subpath)
  | Special SlashTmp => is_dir (components (lit "/tmp"))
  | _ => true
  end.

Lemma native_normal u : Forall good_segment u -> normal_absolute (native_path u).
Proof. intros Hu. by exists u. Qed.

Lemma names_native u : segment_names (native_path u) = u.
Proof.
  unfold segment_names, native_path. cbn [omap list_omap].
  induction u as [|s u IH]; cbn [fmap list_fmap omap list_omap]; [done|by f_equal].
Qed.

Lemma native_names p : normal_absolute p -> native_path (segment_names p) = p.
Proof. intros (names & -> & _). fold (native_path names). by rewrite names_native. Qed.

Lemma no_tilde_plain (s : rstr) : starts_with [c_tilde] s = false -> maybe_expand_home_directory env s = s.
Proof. unfold starts_with, maybe_expand_home_directory. by destruct (strip_prefix [c_tilde] s). Qed.

Lemma posix_faithful e :
  is_absolute cwd = true -> (forall c, current_dir env = Some c -> is_absolute c = true) ->
  from_absolute_path env cwd = Some cwd_path -> plain_entry e = true ->
  faithful env tmpdir is_dir cwd cwd_path e.
Proof.
  intros Habs Hcur Hcwd Hplain.
  assert (Hcn : normal_absolute cwd_path) by by eapply from_absolute_path_normal.
  assert (Hn : forall g, normal_absolute g -> normal_absolute g /\ to_abs_path (U := list rstr) (from_abs_path g) = Some g).
  { intros g Hg. split; [done|]. cbn [to_abs_path from_abs_path posix_uri]. by rewrite native_names. }
  unfold faithful, plain_entry in *. destruct (entry_path e) as [u|pat|[| |[sub|]| | |]]; try done.
  - cbn [entry_paths resolve_permission_path to_abs_path from_abs_path posix_uri fmap option_fmap option_map].
    rewrite names_native. split; [done|]. intros g [= <-]. apply Hn, native_normal.
    apply Forall_forall. intros s Hs. apply good_segmentb_spec.
    apply (proj1 (forallb_forall _ _) Hplain). by apply list_elem_of_In.
  - cbn [entry_paths resolve_permission_path]. unfold last_ancestor. rewrite Habs.
    change (from_absolute_path env [c_slash]) with (Some [RootDir]). split; [done|].
    intros g [= <-]. apply Hn. by exists [].
  - cbn [entry_paths resolve_permission_path]. rewrite Hcwd. apply negb_true_iff in Hplain.
    unfold resolve_path_against_base. rewrite no_tilde_plain by done. split.
    + cbn [local_context workspace_roots omap list_omap uri_join posix_uri fmap option_fmap option_map from_abs_path].
      unfold posix_join. by rewrite native_names.
    + intros g [= <-]. apply Hn, absolutize_from_normal. by apply as_text_absolute.
  - cbn [entry_paths resolve_permission_path]. rewrite Hcwd. split; [done|]. intros g [= <-]. by apply Hn.
  - cbn [entry_paths resolve_permission_path local_context temporary_directories default from_option].
    unfold local_temporary_directories. destruct tmpdir as [[|c dir]|]; [done| |done]. split; [done|].
    intros g Hg. apply Hn. by eapply from_absolute_path_normal.
  - cbn [resolve_permission_path]. change (from_absolute_path env (lit "/tmp")) with (Some (components (lit "/tmp"))).
    cbn beta iota. rewrite Hplain. split; [done|]. intros g [= <-]. apply Hn. exists [lit "tmp"]. split; [done|].
    constructor; [by apply good_segmentb_spec|constructor].
Qed.
End posix.

(** ** Theorems *)

Section theorems.
Context {U : Type} `{!PathUriLexical U} `{!PathUriLaws U}.
Context (env : path_env) (tmpdir : option rstr) (is_dir : AbsolutePathBuf -> bool)
  (matcher : FileSystemSandboxPolicy U -> rstr -> option (AbsolutePathBuf -> bool)).

(** C12: What a command with a restricted policy may do after the user granted part
    of what it asked for: it can read a path only if its own policy or the request lets
    the path be read, and write one only if its own policy or the request lets it be
    written, or a read-only entry of the request covers it; the network is open only if
    it was, or if it was both requested and granted.  The entries of the request and of
    the grant are [faithful]: each is spelled as the URI of the POSIX path that it
    resolves to, or resolves to none. *)
Theorem granted_access_was_requested (p : FileSystemSandboxPolicy U) network
    (requested granted : AdditionalPermissionProfile U) cwd cwd_path path :
  from_absolute_path env cwd = Some cwd_path -> normal_absolute cwd_path -> fs_kind p = Restricted ->
  (forall fs, additional_file_system requested = Some fs \/ additional_file_system granted = Some fs ->
     Forall (faithful env tmpdir is_dir cwd cwd_path) (permission_entries fs)) ->
  let ctx := local_context env tmpdir cwd_path in
  let overlay := Some (intersect_permission_profiles env tmpdir is_dir matcher requested granted cwd) in
  let q := effective_file_system_sandbox_policy p overlay in
  let asked := restricted (default [] (permission_entries <$> additional_file_system requested)) in
  (can_read (resolve_access q path ctx) = true ->
     can_read (resolve_access p path ctx) = true \/ can_read (resolve_access asked path ctx) = true)
  /\ (can_write (resolve_access q path ctx) = true ->
      can_write (resolve_access p path ctx) = true \/ can_write (resolve_access asked path ctx) = true
      \/ exists root d, covering asked ctx path root Read d)
  /\ (effective_network_sandbox_policy network overlay = NetworkEnabled ->
      network = NetworkEnabled
      \/ network_on (additional_network requested) && network_on (additional_network granted) = true).
Proof.
  intros Hcwd Hcn Hk Hf ctx overlay q asked.
  assert (Hnet : effective_network_sandbox_policy network overlay = NetworkEnabled ->
    network = NetworkEnabled \/ network_on (additional_network requested) && network_on (additional_network granted) = true).
  { subst overlay. cbn [effective_network_sandbox_policy]. unfold merge_network_access, intersect_permission_profiles.
    cbn [additional_network]. destruct network; [|by left]. destruct (_ && _); [by right|done]. }
  assert (Hcases : resolve_access q path ctx = Deny \/ resolve_access q path ctx = resolve_access p path ctx
    \/ (can_read (resolve_access q path ctx) = true -> can_read (resolve_access asked path ctx) = true
        /\ (can_write (resolve_access q path ctx) = true ->
            (forall root d, ~ covering asked ctx path root Read d) ->
            can_write (resolve_access asked path ctx) = true))).
  { subst q overlay asked. unfold effective_file_system_sandbox_policy, intersect_permission_profiles.
    cbn [mbind option_bind additional_file_system].
    destruct (additional_file_system requested) as [req|] eqn:Ereq; [|by right; left].
    set (fs := intersect_file_system_permissions env tmpdir is_dir matcher req _ cwd).
    destruct (file_system_permissions_is_empty fs) eqn:Ee; [by right; left|]. rewrite Ee.
    unfold merge_file_system_policy_with_additional_permissions. rewrite Hk.
    match goal with |- context [mkFsPolicy Restricted ?d _] =>
      destruct (merged_access p (permission_entries fs) d path ctx Hk) as [?|[?|Heq]] end; [by left|by right; left|].
    right. right. rewrite Heq. cbn [fmap option_fmap option_map default from_option].
    apply intersection_access; [done|done|by apply Hf; left|].
    destruct (additional_file_system granted) as [g|] eqn:Eg; [apply Hf; by right|constructor]. }
  destruct Hcases as [->|[->|Hc]]; [done|by split_and!; auto|]. split_and!; [|intros Hw|done].
  - intros Hr. right. by apply Hc.
  - destruct (resolve_access q path ctx) eqn:E; try done. destruct (Hc eq_refl) as [Hread Hwrite].
    destruct (resolve_access asked path ctx) eqn:Ea; [|by right; left|done]. right. right.
    destruct (resolve_access_read asked path ctx eq_refl Ea) as (root & d & Hcov). by exists root, d.
Qed.

Lemma effective_not_restricted (p : FileSystemSandboxPolicy U) additional :
  fs_kind p <> Restricted -> effective_file_system_sandbox_policy p additional = p.
Proof using.
  intros Hk. unfold effective_file_system_sandbox_policy, merge_file_system_policy_with_additional_permissions.
  destruct (additional ≫= additional_file_system) as [f|]; [|done].
  destruct (file_system_permissions_is_empty f); [done|]. by destruct (fs_kind p).
Qed.

(** Adding permissions to a profile never panics and never changes who
    enforces it.  The network is open exactly if it was or the addition opens
    it; no entry is lost, and a path denied by an entry of the profile stays
    denied unless a strictly deeper entry applies to it. *)
Theorem effective_profile_extends (p : PermissionProfile U) (additional : AdditionalPermissionProfile U) :
  exists q, effective_permission_profile p (Some additional) = Done q
    /\ enforcement q = enforcement p
    /\ (network_sandbox_policy q = NetworkEnabled <->
         network_sandbox_policy p = NetworkEnabled \/ network_on (additional_network additional) = true)
    /\ (forall e, e ∈ entries (file_system_sandbox_policy p) -> e ∈ entries (file_system_sandbox_policy q))
    /\ forall e ctx u d path, e ∈ entries (file_system_sandbox_policy p) -> access e = Deny ->
         u ∈ entry_paths ctx (entry_path e) -> same_convention ctx u = true ->
         lexical_depth u = Some d -> uri_starts_with path u = true ->
         resolve_access (file_system_sandbox_policy q) path ctx = Deny
         \/ exists root d', d < d' /\ covering (file_system_sandbox_policy q) ctx path root
                (resolve_access (file_system_sandbox_policy q) path ctx) d'.
Proof using.
  assert (Hnet : forall n, effective_network_sandbox_policy n (Some additional) = NetworkEnabled <->
    n = NetworkEnabled \/ network_on (additional_network additional) = true).
  { intros n. cbn [effective_network_sandbox_policy]. unfold merge_network_access, network_on.
    destruct n, (additional_network additional) as [[[[]|]]|]; simpl; split; try done; try (by left); try (by right); by intros [?|?]. }
  destruct p as [[es depth|] n| |n].
  2-4: unfold effective_permission_profile; cbn [to_runtime_permissions file_system_sandbox_policy to_sandbox_policy network_sandbox_policy];
    rewrite effective_not_restricted by done; eexists; (split; [reflexivity|]); (split; [done|]);
    cbn [file_system_sandbox_policy network_sandbox_policy to_sandbox_policy unrestricted external_sandbox entries];
    (split; [|split; [done|by intros e ctx u d path Hin%elem_of_nil]]).
  2,4: apply Hnet.
  2: by split; [left|].
  set (fs := mkFsPolicy Restricted depth es).
  assert (Hmerged : exists depth' es', effective_file_system_sandbox_policy fs (Some additional)
            = mkFsPolicy Restricted depth' es' /\ forall e, e ∈ es -> e ∈ es').
  { unfold effective_file_system_sandbox_policy. cbn [mbind option_bind].
    destruct (additional_file_system additional) as [f|]; [|by eexists _, _].
    destruct (file_system_permissions_is_empty f); [by eexists _, _|].
    eexists _, _. split; [reflexivity|]. intros e He. apply elem_of_push_missing. by left. }
  destruct Hmerged as (depth' & es' & Hm & Hsub).
  unfold effective_permission_profile. cbn [to_runtime_permissions file_system_sandbox_policy to_sandbox_policy network_sandbox_policy].
  fold fs. rewrite Hm. eexists. split; [reflexivity|].
  cbn [file_system_sandbox_policy network_sandbox_policy to_sandbox_policy entries enforcement].
  split_and!; [done|apply Hnet|done|]. intros e ctx u d path He Hd Hu Hc Hdu Hs.
  apply (deny_entry_holds _ e ctx u d path); [done|by apply Hsub|done..].
Qed.
End theorems.

(** ** Examples *)

Module Examples.
Definition env : path_env := mkPathEnv None None (Some (lit "/w")).
Definition no_matcher (_ : FileSystemSandboxPolicy (list rstr)) (_ : rstr)
  : option (AbsolutePathBuf -> bool) := None.
Definition dir (_ : AbsolutePathBuf) : bool := true.
Definition w : list rstr := [lit "w"].
Definition w_sub : list rstr := [lit "w"; lit "sub"].

Definition fs (es : list (FileSystemSandboxEntry (list rstr))) : AdditionalPermissionProfile (list rstr) :=
  mkAdditional None (Some (mkFileSystemPermissions es None)).

Definition base : FileSystemSandboxPolicy (list rstr) := restricted [new_entry (Special Root) Read].
Definition asked : list (FileSystemSandboxEntry (list rstr)) :=
  [new_entry (Special (ProjectRoots None)) Write; new_entry (PathEntry w_sub) Deny].

Abbreviation intersected r g :=
  (intersect_permission_profiles env None dir no_matcher (fs r) (fs g) (lit "/w")).

(** A grant of the working directory keeps the denial that was asked for. *)
Example denial_kept :
  intersected asked [new_entry (PathEntry w) Write]
  = fs [new_entry (PathEntry w) Write; new_entry (PathEntry w_sub) Deny].
Proof. vm_compute. reflexivity. Qed.

Lemma granted_access_was_requested_witness :
  let q := effective_file_system_sandbox_policy base
             (Some (intersected asked [new_entry (PathEntry w) Write])) in
  let ctx := local_context env None [RootDir; Normal (lit "w")] in
  can_write (resolve_access q (w ++ [lit "x"]) ctx) = true
  /\ (can_write (resolve_access base (w ++ [lit "x"]) ctx) = true
      \/ can_write (resolve_access (restricted asked) (w ++ [lit "x"]) ctx) = true
      \/ exists root d, covering (restricted asked) ctx (w ++ [lit "x"]) root Read d).
Proof.
  split; [vm_compute; reflexivity|].
  apply (granted_access_was_requested env None dir no_matcher base NetworkRestricted (fs asked)
           (fs [new_entry (PathEntry w) Write]) (lit "/w") [RootDir; Normal (lit "w")] (w ++ [lit "x"])).
  - vm_compute. reflexivity.
  - exists w. split; [reflexivity|]. constructor; [by apply good_segmentb_spec|constructor].
  - reflexivity.
  - assert (Hpf : forall e, plain_entry dir e = true ->
      faithful env None dir (lit "/w") [RootDir; Normal (lit "w")] e).
    { intros e. apply posix_faithful; [reflexivity| |vm_compute; reflexivity]. by intros c [= <-]. }
    intros f [[= <-]|[= <-]]; cbn [permission_entries];
      repeat (apply Forall_cons_2; [apply Hpf; vm_compute; reflexivity|]); apply Forall_nil_2.
  - vm_compute. reflexivity.
Defined.

(** A request to write a directory but only read a part of it: a grant of
    the directory alone lets the part be written, which was not asked for. *)
Theorem intersection_drops_nested_read :
  let asked := [new_entry (PathEntry w) Write; new_entry (PathEntry w_sub) Read] in
  let overlay := intersected asked [new_entry (PathEntry w) Write] in
  let ctx := local_context env None [RootDir; Normal (lit "w")] in
  resolve_access base (w_sub ++ [lit "x"]) ctx = Read
  /\ resolve_access (restricted asked) (w_sub ++ [lit "x"]) ctx = Read
  /\ resolve_access (effective_file_system_sandbox_policy base (Some overlay)) (w_sub ++ [lit "x"]) ctx
     = Write.
Proof. vm_compute. split_and!; reflexivity. Qed.
End Examples.
