(* ===== verification/TextPos.v ===== *)
(** * TextPos: byte positions in strings, and programs that may panic

    The operations of [str] that take or return byte offsets: slicing panics off
    a character boundary, searching returns the offset of a character.  A
    position is a [boundary] when some prefix of the string has that length.

    [run A] is the type of code whose only failure is a panic; [returns P m]
    says that [m] does not panic and ends in a value with [P]. *)

From Stdlib Require Import Lia.
From stdpp Require Import base list.
From S2P Require Import Prelude.

Abbreviation run A := (outcome Empty_set A) (only parsing).

(** ** Operations *)

(** [str::split_at_checked] *)
Fixpoint split_bytes (s : rstr) (n : nat) : option (rstr * rstr) :=
  match n, s with
  | 0, _ => Some ([], s)
  | _, [] => None
  | _, c :: r =>
      if n <? len_utf8 c then None
      else match split_bytes r (n - len_utf8 c) with
           | Some (a, b) => Some (c :: a, b)
           | None => None
           end
  end.

(** [str::is_char_boundary] *)
Definition is_char_boundary (s : rstr) (n : nat) : bool := is_some (split_bytes s n).

(** [str::get] of a range *)
Definition str_get (s : rstr) (a b : nat) : option rstr :=
  if a <=? b then
    match split_bytes s b with
    | Some (p, _) => match split_bytes p a with Some (_, m) => Some m | None => None end
    | None => None
    end
  else None.

(** [&s[a..b]], [&s[..b]] and [&s[a..]] *)
Definition str_range (s : rstr) (a b : nat) : run rstr :=
  match str_get s a b with Some m => Done m | None => Panic end.
Definition str_to (s : rstr) (b : nat) : run rstr :=
  match split_bytes s b with Some (p, _) => Done p | None => Panic end.
Definition str_from (s : rstr) (a : nat) : run rstr :=
  match split_bytes s a with Some (_, m) => Done m | None => Panic end.

(** [String::replace_range] and [String::insert_str] *)
Definition str_replace_range (s : rstr) (a b : nat) (t : rstr) : run rstr :=
  if a <=? b then
    match split_bytes s b with
    | Some (p, q) =>
        match split_bytes p a with Some (p, _) => Done (p ++ t ++ q) | None => Panic end
    | None => Panic
    end
  else Panic.

Definition str_insert (s : rstr) (n : nat) (t : rstr) : run rstr :=
  match split_bytes s n with Some (a, b) => Done (a ++ t ++ b) | None => Panic end.

(** [str::char_indices], starting at the given offset *)
Fixpoint char_indices_from (n : nat) (s : rstr) : list (nat * N) :=
  match s with
  | [] => []
  | c :: r => (n, c) :: char_indices_from (n + len_utf8 c) r
  end.

Definition char_indices (s : rstr) : list (nat * N) := char_indices_from 0 s.

(** [str::find] and [str::rfind] of a predicate on characters *)
Fixpoint find_char (p : N -> bool) (s : rstr) : option nat :=
  match s with
  | [] => None
  | c :: r => if p c then Some 0 else (fun i => len_utf8 c + i) <$> find_char p r
  end.

Fixpoint rfind_char (p : N -> bool) (s : rstr) : option nat :=
  match s with
  | [] => None
  | c :: r =>
      match rfind_char p r with
      | Some i => Some (len_utf8 c + i)
      | None => if p c then Some 0 else None
      end
  end.

(** ** Boundaries *)

Definition boundary (s : rstr) (p : nat) : Prop := exists a b, s = a ++ b /\ p = str_len a.

Lemma len_utf8_pos c : 1 <= len_utf8 c.
Proof. unfold len_utf8. repeat destruct (_ <? _)%N; lia. Qed.

Lemma str_len_nil_iff s : str_len s = 0 <-> s = [].
Proof. destruct s as [|c s]; simpl; [done|]. pose proof (len_utf8_pos c). split; [lia|done]. Qed.

Lemma str_len_cons c s : str_len (c :: s) = len_utf8 c + str_len s.
Proof. done. Qed.

Lemma split_bytes_app a b : split_bytes (a ++ b) (str_len a) = Some (a, b).
Proof.
  induction a as [|c a IH]; simpl; [by destruct b|].
  pose proof (len_utf8_pos c). destruct (len_utf8 c + str_len a) eqn:E; [lia|].
  rewrite (proj2 (Nat.ltb_ge _ _)) by lia.
  replace (S n - len_utf8 c) with (str_len a) by lia. by rewrite IH.
Qed.

Lemma split_bytes_Some s n a b : split_bytes s n = Some (a, b) <-> s = a ++ b /\ n = str_len a.
Proof.
  split; [|intros [-> ->]; apply split_bytes_app].
  revert n a b. induction s as [|c s IH]; intros [|n] a b; simpl; intros H; simplify_eq; try done.
  destruct (Nat.ltb_spec (S n) (len_utf8 c)); [done|].
  destruct (split_bytes s _) as [[a' b']|] eqn:E; simplify_eq.
  apply IH in E as [-> E]. simpl. split; [done|lia].
Qed.

Lemma is_char_boundary_true s n : is_char_boundary s n = true <-> boundary s n.
Proof.
  unfold is_char_boundary, boundary. split.
  - destruct (split_bytes s n) as [[a b]|] eqn:E; [|done]. intros _. exists a, b.
    by apply split_bytes_Some.
  - intros (a & b & -> & ->). by rewrite split_bytes_app.
Qed.

Lemma boundary_0 s : boundary s 0.
Proof. by exists [], s. Qed.

Lemma boundary_len s : boundary s (str_len s).
Proof. exists s, []. by rewrite app_nil_r. Qed.

Lemma boundary_le s p : boundary s p -> p <= str_len s.
Proof. intros (a & b & -> & ->). rewrite str_len_app. lia. Qed.

Lemma boundary_app a b : boundary (a ++ b) (str_len a).
Proof. by exists a, b. Qed.

#[export] Hint Resolve boundary_0 boundary_len boundary_app : codex.

(** Of two prefixes of a string the shorter one is a prefix of the longer one. *)
Lemma prefixes_ordered (a b c d : rstr) :
  a ++ b = c ++ d -> str_len a <= str_len c -> exists m, c = a ++ m /\ b = m ++ d.
Proof.
  revert c. induction a as [|x a IH]; intros c Heq Hle; simpl in *; [by exists c|].
  destruct c as [|y c]; simpl in *; [pose proof (len_utf8_pos x); lia|].
  injection Heq as -> Heq. destruct (IH c Heq) as (m & -> & ->); [lia|]. by exists m.
Qed.

Lemma boundaries_cut s p q :
  boundary s p -> boundary s q -> p <= q ->
  exists a m b, s = a ++ m ++ b /\ p = str_len a /\ q = str_len a + str_len m.
Proof.
  intros (a & b & -> & ->) (c & d & Heq & ->) Hle.
  destruct (prefixes_ordered _ _ _ _ Heq Hle) as (m & -> & ->).
  exists a, m, d. by rewrite str_len_app.
Qed.

Lemma boundary_app_l a b p : boundary a p -> boundary (a ++ b) p.
Proof. intros (x & y & -> & ->). rewrite <- app_assoc. by apply boundary_app. Qed.

Lemma boundary_app_r a b p : boundary b p -> boundary (a ++ b) (str_len a + p).
Proof. intros (x & y & -> & ->). rewrite app_assoc, <- str_len_app. by apply boundary_app. Qed.

Lemma boundary_app_l_inv a b p : boundary (a ++ b) p -> p <= str_len a -> boundary a p.
Proof.
  intros (x & y & Heq & ->) Hle. symmetry in Heq.
  destruct (prefixes_ordered _ _ _ _ Heq Hle) as (m & -> & _). apply boundary_app.
Qed.

Lemma boundary_app_r_inv a b p : boundary (a ++ b) p -> str_len a <= p -> boundary b (p - str_len a).
Proof.
  intros (x & y & Heq & ->) Hle. destruct (prefixes_ordered _ _ _ _ Heq Hle) as (m & -> & ->).
  rewrite str_len_app. replace (_ + _ - _) with (str_len m) by lia. apply boundary_app.
Qed.

(** Replacing [m] by [t] keeps the boundaries around it. *)
Lemma boundary_replace_before a m t b p :
  boundary (a ++ m ++ b) p -> p <= str_len a -> boundary (a ++ t ++ b) p.
Proof. intros H Hle. apply boundary_app_l. by eapply boundary_app_l_inv. Qed.

Lemma boundary_replace_after a m t b p :
  boundary (a ++ m ++ b) p -> str_len a + str_len m <= p ->
  boundary (a ++ t ++ b) (p + str_len t - str_len m).
Proof.
  rewrite app_assoc, <- str_len_app. intros H Hle.
  apply boundary_app_r_inv in H; [|done]. rewrite str_len_app in *.
  rewrite app_assoc.
  replace (p + str_len t - str_len m)
    with (str_len (a ++ t) + (p - (str_len a + str_len m))) by (rewrite str_len_app; lia).
  by apply boundary_app_r.
Qed.

(** ** Slices *)

Lemma str_get_cut a m b : str_get (a ++ m ++ b) (str_len a) (str_len a + str_len m) = Some m.
Proof.
  unfold str_get. rewrite (proj2 (Nat.leb_le _ _)) by lia.
  rewrite <- str_len_app, app_assoc, split_bytes_app. by rewrite split_bytes_app.
Qed.

Lemma str_get_Some s p q m :
  str_get s p q = Some m <->
  exists a b, s = a ++ m ++ b /\ p = str_len a /\ q = str_len a + str_len m.
Proof.
  split; [|intros (a & b & -> & -> & ->); apply str_get_cut].
  unfold str_get. destruct (Nat.leb_spec p q); [|done].
  destruct (split_bytes s q) as [[x y]|] eqn:E; [|done].
  destruct (split_bytes x p) as [[u v]|] eqn:E'; [|done]. intros [= ->].
  apply split_bytes_Some in E as [-> ->]. apply split_bytes_Some in E' as [-> ->].
  exists u, y. by rewrite <- app_assoc, str_len_app.
Qed.

Lemma str_range_cut a m b : str_range (a ++ m ++ b) (str_len a) (str_len a + str_len m) = Done m.
Proof. unfold str_range. by rewrite str_get_cut. Qed.

Lemma str_to_app a b : str_to (a ++ b) (str_len a) = Done a.
Proof. unfold str_to. by rewrite split_bytes_app. Qed.

Lemma str_from_app a b : str_from (a ++ b) (str_len a) = Done b.
Proof. unfold str_from. by rewrite split_bytes_app. Qed.

Lemma str_insert_app a b t : str_insert (a ++ b) (str_len a) t = Done (a ++ t ++ b).
Proof. unfold str_insert. by rewrite split_bytes_app. Qed.

Lemma str_replace_cut a m b t :
  str_replace_range (a ++ m ++ b) (str_len a) (str_len a + str_len m) t = Done (a ++ t ++ b).
Proof.
  unfold str_replace_range. rewrite (proj2 (Nat.leb_le _ _)) by lia.
  rewrite <- str_len_app, app_assoc, split_bytes_app. by rewrite split_bytes_app.
Qed.

#[export] Hint Rewrite str_range_cut str_to_app str_from_app str_insert_app str_replace_cut
  : codex_rw.

(** ** Searching *)

Lemma find_char_Some p s i :
  find_char p s = Some i ->
  exists a c b, s = a ++ c :: b /\ i = str_len a /\ p c = true /\ Forall (fun c => p c = false) a.
Proof.
  revert i. induction s as [|c s IH]; intros i; simpl; [done|]. destruct (p c) eqn:E.
  - intros [= <-]. by exists [], c, s.
  - intros (j & Hj & ->)%fmap_Some. destruct (IH j Hj) as (a & d & b & -> & -> & Hd & Ha).
    exists (c :: a), d, b. repeat split; try done. by constructor.
Qed.

Lemma find_char_None p s : find_char p s = None -> Forall (fun c => p c = false) s.
Proof.
  induction s as [|c s IH]; simpl; [constructor|]. destruct (p c) eqn:E; [done|].
  intros H%fmap_None. constructor; auto.
Qed.

Lemma rfind_char_Some p s i :
  rfind_char p s = Some i ->
  exists a c b, s = a ++ c :: b /\ i = str_len a /\ p c = true /\ Forall (fun c => p c = false) b.
Proof.
  revert i. induction s as [|c s IH]; intros i; simpl; [done|].
  destruct (rfind_char p s) as [j|] eqn:Ej.
  - intros [= <-]. destruct (IH j eq_refl) as (a & d & b & -> & -> & ? & ?).
    by exists (c :: a), d, b.
  - destruct (p c) eqn:E; [|done]. intros [= <-]. exists [], c, s. repeat split; try done.
    clear -Ej. induction s as [|d s IH]; [constructor|]. simpl in Ej.
    destruct (rfind_char p s); [done|]. destruct (p d) eqn:?; [done|]. constructor; auto.
Qed.

Lemma rfind_char_None p s : rfind_char p s = None -> Forall (fun c => p c = false) s.
Proof.
  induction s as [|c s IH]; simpl; [constructor|].
  destruct (rfind_char p s); [done|]. destruct (p c) eqn:E; [done|]. constructor; auto.
Qed.

Lemma char_indices_from_elem n s i c :
  (i, c) ∈ char_indices_from n s -> exists a b, s = a ++ c :: b /\ i = n + str_len a.
Proof.
  revert n. induction s as [|d s IH]; intros n; simpl; [by intros ?%elem_of_nil|].
  intros [[= -> ->]|H]%elem_of_cons; [exists [], s; simpl; split; [done|lia]|].
  destruct (IH _ H) as (a & b & -> & ->). exists (d :: a), b. simpl. split; [done|lia].
Qed.

(** ** Programs that do not panic *)

Definition returns {A} (P : A -> Prop) (m : run A) : Prop :=
  match m with Done a => P a | _ => False end.

Lemma returns_done {A} (P : A -> Prop) a : P a -> returns P (Done a).
Proof. done. Qed.

Lemma returns_bind {A B} (P : A -> Prop) (Q : B -> Prop) (m : run A) (f : A -> run B) :
  returns P m -> (forall a, P a -> returns Q (f a)) -> returns Q (m ≫= f).
Proof. destruct m; simpl; auto; done. Qed.

Lemma returns_mono {A} (P Q : A -> Prop) (m : run A) :
  returns P m -> (forall a, P a -> Q a) -> returns Q m.
Proof. destruct m; simpl; auto. Qed.

Lemma returns_inv {A} (P : A -> Prop) (m : run A) : returns P m -> exists a, m = Done a /\ P a.
Proof. destruct m; simpl; [eauto|done|done]. Qed.

Lemma returns_and {A} (P Q : A -> Prop) (m : run A) :
  returns P m -> returns Q m -> returns (fun a => P a /\ Q a) m.
Proof. destruct m; simpl; auto. Qed.

(** Bring the first step of a sequence out by its lemma. *)
Ltac step H := eapply returns_bind; [exact H|].

Lemma returns_str_to s b :
  boundary s b -> returns (fun a => exists r, s = a ++ r /\ b = str_len a) (str_to s b).
Proof. intros (a & r & -> & ->). rewrite str_to_app. simpl. by exists r. Qed.

Lemma returns_str_from s n :
  boundary s n -> returns (fun r => exists a, s = a ++ r /\ n = str_len a) (str_from s n).
Proof. intros (a & r & -> & ->). rewrite str_from_app. simpl. by exists a. Qed.

Lemma returns_str_range s p q :
  boundary s p -> boundary s q -> p <= q ->
  returns (fun m => exists a b, s = a ++ m ++ b /\ p = str_len a /\ q = str_len a + str_len m)
    (str_range s p q).
Proof.
  intros Hp Hq Hle. destruct (boundaries_cut s p q Hp Hq Hle) as (a & m & b & -> & -> & ->).
  rewrite str_range_cut. simpl. by exists a, b.
Qed.
