(* ===== verification/Keys.v ===== *)
(** * Keys: key events and bindings ([codex-rs/tui/src/key_hint.rs],
    [codex-rs/tui/src/keymap.rs])

    Key events as the terminal library reports them, bindings and their
    matching, and the keymaps of the text area. *)

From Stdlib Require Import Lia.
From stdpp Require Import base list.
From S2P Require Import Prelude.

#[local] Open Scope N_scope.

(** Key codes; those that no modelled code looks at are [OtherKey]. *)
Inductive KeyCode :=
| Backspace | Enter | Left | Right | Up | Down | Home | End_ | PageUp | PageDown
| Tab | BackTab | DeleteKey | InsertKey | Esc
| Char (c : N)
| OtherKey (n : N).

#[export] Instance key_code_eq_dec : EqDecision KeyCode.
Proof. solve_decision. Defined.

Inductive KeyEventKind := Press | Repeat | Release.

#[export] Instance key_event_kind_eq_dec : EqDecision KeyEventKind.
Proof. solve_decision. Defined.

(** Sets of modifiers are bit sets. *)
Abbreviation KeyModifiers := N (only parsing).
Definition NONE : KeyModifiers := 0.
Definition SHIFT : KeyModifiers := 1.
Definition CONTROL : KeyModifiers := 2.
Definition ALT : KeyModifiers := 4.
Definition SUPER : KeyModifiers := 8.
Definition HYPER : KeyModifiers := 16.
Definition META : KeyModifiers := 32.

Definition mods_contain (m f : KeyModifiers) : bool := N.land m f =? f.
Definition mods_intersect (m f : KeyModifiers) : bool := negb (N.land m f =? 0).

Record KeyEvent := mkKeyEvent { code : KeyCode; modifiers : KeyModifiers; event_kind : KeyEventKind }.

Record KeyBinding := mkBinding { key : KeyCode; key_modifiers : KeyModifiers }.

(** [is_altgr] outside Windows *)
Definition is_altgr (mods : KeyModifiers) : bool := false.

Definition has_ctrl_or_alt (mods : KeyModifiers) : bool :=
  (mods_contain mods CONTROL || mods_contain mods ALT) && negb (is_altgr mods).

Definition is_ascii_uppercase (c : N) : bool := (65 <=? c) && (c <=? 90).
Definition is_ascii_lowercase (c : N) : bool := (97 <=? c) && (c <=? 122).
Definition is_ascii_control (c : N) : bool := (c <? 32) || (c =? 127).
Definition is_ascii (c : N) : bool := c <? 128.

Definition c0_control_char_to_ctrl_char (ch : N) : option N :=
  if ch =? 0 then Some 32
  else if (1 <=? ch) && (ch <=? 26) then Some (ch - 1 + 97)
  else if (28 <=? ch) && (ch <=? 31) then Some (ch - 28 + 52)
  else None.

Definition normalize_key_parts (key : KeyCode) (modifiers : KeyModifiers) : KeyCode * KeyModifiers :=
  match key with
  | Char ch =>
      match (if modifiers =? 0 then c0_control_char_to_ctrl_char ch else None) with
      | Some ctrl_char => (Char ctrl_char, N.lor CONTROL modifiers)
      | None =>
          if is_ascii_uppercase ch then (Char (ch + 32), N.lor modifiers SHIFT)
          else (key, modifiers)
      end
  | _ => (key, modifiers)
  end.

Definition is_press_or_repeat (k : KeyEventKind) : bool :=
  match k with Press | Repeat => true | Release => false end.

Definition is_press (b : KeyBinding) (e : KeyEvent) : bool :=
  bool_decide (normalize_key_parts (key b) (key_modifiers b)
               = normalize_key_parts (code e) (modifiers e))
  && is_press_or_repeat (event_kind e).

Definition is_pressed (bs : list KeyBinding) (e : KeyEvent) : bool := existsb (fun b => is_press b e) bs.

(** ** Keymaps of the text area *)

Record EditorKeymap := mkEditorKeymap {
  ed_insert_newline : list KeyBinding;
  ed_move_left : list KeyBinding;
  ed_move_right : list KeyBinding;
  ed_move_up : list KeyBinding;
  ed_move_down : list KeyBinding;
  ed_move_word_left : list KeyBinding;
  ed_move_word_right : list KeyBinding;
  ed_move_line_start : list KeyBinding;
  ed_move_line_end : list KeyBinding;
  ed_delete_backward : list KeyBinding;
  ed_delete_forward : list KeyBinding;
  ed_delete_backward_word : list KeyBinding;
  ed_delete_forward_word : list KeyBinding;
  ed_kill_line_start : list KeyBinding;
  ed_kill_whole_line : list KeyBinding;
  ed_kill_line_end : list KeyBinding;
  ed_yank : list KeyBinding
}.

Record VimNormalKeymap := mkVimNormalKeymap {
  vn_enter_insert : list KeyBinding;
  vn_append_after_cursor : list KeyBinding;
  vn_append_line_end : list KeyBinding;
  vn_insert_line_start : list KeyBinding;
  vn_open_line_below : list KeyBinding;
  vn_open_line_above : list KeyBinding;
  vn_move_left : list KeyBinding;
  vn_move_right : list KeyBinding;
  vn_move_up : list KeyBinding;
  vn_move_down : list KeyBinding;
  vn_move_word_forward : list KeyBinding;
  vn_move_word_backward : list KeyBinding;
  vn_move_word_end : list KeyBinding;
  vn_move_line_start : list KeyBinding;
  vn_move_line_end : list KeyBinding;
  vn_find_forward : list KeyBinding;
  vn_find_backward : list KeyBinding;
  vn_till_forward : list KeyBinding;
  vn_till_backward : list KeyBinding;
  vn_jump_top : list KeyBinding;
  vn_jump_bottom : list KeyBinding;
  vn_delete_char : list KeyBinding;
  vn_replace_char : list KeyBinding;
  vn_repeat_last_change : list KeyBinding;
  vn_substitute_char : list KeyBinding;
  vn_delete_to_line_end : list KeyBinding;
  vn_change_to_line_end : list KeyBinding;
  vn_yank_line : list KeyBinding;
  vn_paste_after : list KeyBinding;
  vn_start_delete_operator : list KeyBinding;
  vn_start_yank_operator : list KeyBinding;
  vn_start_change_operator : list KeyBinding;
  vn_cancel_operator : list KeyBinding
}.

Record VimOperatorKeymap := mkVimOperatorKeymap {
  vo_delete_line : list KeyBinding;
  vo_yank_line : list KeyBinding;
  vo_motion_left : list KeyBinding;
  vo_motion_right : list KeyBinding;
  vo_motion_up : list KeyBinding;
  vo_motion_down : list KeyBinding;
  vo_motion_word_forward : list KeyBinding;
  vo_motion_word_backward : list KeyBinding;
  vo_motion_word_end : list KeyBinding;
  vo_motion_line_start : list KeyBinding;
  vo_motion_line_end : list KeyBinding;
  vo_motion_find_forward : list KeyBinding;
  vo_motion_find_backward : list KeyBinding;
  vo_motion_till_forward : list KeyBinding;
  vo_motion_till_backward : list KeyBinding;
  vo_motion_jump_top : list KeyBinding;
  vo_motion_jump_bottom : list KeyBinding;
  vo_select_inner_text_object : list KeyBinding;
  vo_select_around_text_object : list KeyBinding;
  vo_cancel : list KeyBinding
}.

Record VimTextObjectKeymap := mkVimTextObjectKeymap {
  vt_word : list KeyBinding;
  vt_big_word : list KeyBinding;
  vt_parentheses : list KeyBinding;
  vt_brackets : list KeyBinding;
  vt_braces : list KeyBinding;
  vt_double_quote : list KeyBinding;
  vt_single_quote : list KeyBinding;
  vt_backtick : list KeyBinding;
  vt_cancel : list KeyBinding
}.

(** The four keymaps a text area holds. *)
Record Keymaps := mkKeymaps {
  editor_keymap : EditorKeymap;
  vim_normal_keymap : VimNormalKeymap;
  vim_operator_keymap : VimOperatorKeymap;
  vim_text_object_keymap : VimTextObjectKeymap
}.
