(* ===== verification/TextArea.v ===== *)
(** * TextArea: [codex-rs/tui/src/bottom_pane/textarea.rs]

    The editable buffer of the composer: text, cursor, atomic elements
    (placeholders that are edited as a whole), wrapping cache and kill buffer.
    Positions are byte offsets; whatever slices the text may panic, so those
    operations are in [run].  The segmentation of text into graphemes and words,
    display widths and the wrapping into rows are the class [Segmentation].

    This file has the editing operations; TextAreaVim.v the dispatch of keys and
    the Vim mode, TextAreaSafety.v the invariant and the theorems. *)

From Stdlib Require Import Lia.
From stdpp Require Import base list strings.
From S2P Require Import Prelude TextPos Keys.

Open Scope rust_scope.

(** ** What the text area uses of other crates

    [prev_boundary] and [next_boundary] are those of a [GraphemeCursor] for
    legacy clusters over the whole text, [is_boundary] its test for extended
    clusters, [graphemes] the extended clusters, [word_bounds] the segments of
    [split_word_bounds], [unicode_width] the width of a string in cells.
    [wrapped_lines] stands for [wrapping::wrapped_lines], which arranges the
    ranges computed by the [textwrap] crate. *)
Class Segmentation := {
  prev_boundary : rstr -> nat -> result unit (option nat);
  next_boundary : rstr -> nat -> result unit (option nat);
  is_boundary : rstr -> nat -> result unit bool;
  graphemes : rstr -> list rstr;
  word_bounds : rstr -> list rstr;
  unicode_width : rstr -> nat;
  wrapped_lines : rstr -> nat -> list (nat * nat)
}.

(** ** State *)

Record Element := mkElement { elem_id : N; elem_start : nat; elem_end : nat }.

Record WrapCache := mkWrapCache { cache_width : nat; cache_lines : list (nat * nat) }.

Inductive KillBufferKind := Characterwise | Linewise.

Inductive VimMode := Normal | Insert.

Inductive VimOperator := Delete | Yank | Change.

Inductive VimFindMotion := Forward | Backward | TillForward | TillBackward.

Inductive VimMotion :=
| MotionLeft | MotionRight | MotionUp | MotionDown
| WordForward | WordBackward | WordEnd | LineStart | LineEnd.

Inductive VimTextObjectScope := Inner | Around.

Inductive VimTextObject :=
| Word | BigWord | Parentheses | Brackets | Braces | DoubleQuote | SingleQuote | Backtick.

Inductive VimPending :=
| PendingNone
| PendingOperator (op : VimOperator)
| PendingTextObject (operator : VimOperator) (scope : VimTextObjectScope)
| PendingReplace
| PendingFind (motion : VimFindMotion) (operator : option VimOperator).

Inductive VimInsertPosition :=
| AtCursor | AfterCursor | AtLineStart | AtLineEnd | OpenAbove | OpenBelow.

Inductive VimEditTarget :=
| TargetCharacter
| TargetLine
| TargetLineEnd
| TargetMotion (motion : VimMotion)
| TargetTextObject (scope : VimTextObjectScope) (object : VimTextObject)
| TargetFind (motion : VimFindMotion) (target : N)
| TargetBufferJump (last : bool).

Inductive VimAction :=
| ActInsert (position : VimInsertPosition)
| ActDelete (target : VimEditTarget)
| ActChange (target : VimEditTarget)
| ActReplace (ch : N)
| PasteAfter
| DeleteBackward
| DeleteForward
| DeleteBackwardWord
| DeleteForwardWord
| KillLineStart
| KillLine
| KillLineEnd
| MoveLeft
| MoveRight
| MoveUp
| MoveDown
| MoveWordLeft
| MoveWordRight
| MoveLineStart (move_up_at_bol : bool)
| MoveLineEnd (move_down_at_eol : bool).

Inductive VimEdit :=
| EditEditor (action : VimAction)
| EditText (text : rstr).

Record VimCommandState := mkVimCommands {
  pending_change : list VimEdit;
  last_change : list VimEdit;
  changed : bool;
  replaying : bool
}.

Definition default_vim_commands : VimCommandState := mkVimCommands [] [] false false.

Record TextArea := mkTextArea {
  text : rstr;
  cursor_pos : nat;
  wrap_cache : option WrapCache;
  preferred_col : option nat;
  elements : list Element;
  next_id : N;
  kill_buffer : rstr;
  kill_buffer_kind : KillBufferKind;
  vim_enabled : bool;
  vim_mode : VimMode;
  vim_pending : VimPending;
  vim_commands : VimCommandState;
  keymaps : Keymaps
}.

#[export] Instance vim_mode_eq_dec : EqDecision VimMode.
Proof. solve_decision. Defined.
#[export] Instance vim_operator_eq_dec : EqDecision VimOperator.
Proof. solve_decision. Defined.
#[export] Instance vim_motion_eq_dec : EqDecision VimMotion.
Proof. solve_decision. Defined.

(** The buffer part of the state is replaced as a whole; the other fields have
    setters. *)
Definition with_buffer (t : TextArea) (s : rstr) (cursor : nat) (cache : option WrapCache)
    (col : option nat) (es : list Element) : TextArea :=
  mkTextArea s cursor cache col es (next_id t) (kill_buffer t) (kill_buffer_kind t)
    (vim_enabled t) (vim_mode t) (vim_pending t) (vim_commands t) (keymaps t).

Definition set_cursor_pos (t : TextArea) (p : nat) : TextArea :=
  with_buffer t (text t) p (wrap_cache t) (preferred_col t) (elements t).
Definition set_preferred_col (t : TextArea) (c : option nat) : TextArea :=
  with_buffer t (text t) (cursor_pos t) (wrap_cache t) c (elements t).
Definition set_elements (t : TextArea) (es : list Element) : TextArea :=
  with_buffer t (text t) (cursor_pos t) (wrap_cache t) (preferred_col t) es.
Definition set_wrap_cache (t : TextArea) (c : option WrapCache) : TextArea :=
  with_buffer t (text t) (cursor_pos t) c (preferred_col t) (elements t).
Definition set_next_id (t : TextArea) (n : N) : TextArea :=
  mkTextArea (text t) (cursor_pos t) (wrap_cache t) (preferred_col t) (elements t) n
    (kill_buffer t) (kill_buffer_kind t) (vim_enabled t) (vim_mode t) (vim_pending t)
    (vim_commands t) (keymaps t).
Definition store_kill_buffer (t : TextArea) (s : rstr) (k : KillBufferKind) : TextArea :=
  mkTextArea (text t) (cursor_pos t) (wrap_cache t) (preferred_col t) (elements t) (next_id t)
    s k (vim_enabled t) (vim_mode t) (vim_pending t) (vim_commands t) (keymaps t).
Definition set_vim (t : TextArea) (enabled : bool) (mode : VimMode) (pending : VimPending)
    (commands : VimCommandState) : TextArea :=
  mkTextArea (text t) (cursor_pos t) (wrap_cache t) (preferred_col t) (elements t) (next_id t)
    (kill_buffer t) (kill_buffer_kind t) enabled mode pending commands (keymaps t).
Definition set_vim_mode (t : TextArea) (m : VimMode) : TextArea :=
  set_vim t (vim_enabled t) m (vim_pending t) (vim_commands t).
Definition set_vim_pending (t : TextArea) (p : VimPending) : TextArea :=
  set_vim t (vim_enabled t) (vim_mode t) p (vim_commands t).
Definition set_vim_commands (t : TextArea) (c : VimCommandState) : TextArea :=
  set_vim t (vim_enabled t) (vim_mode t) (vim_pending t) c.
Definition set_keymap_bindings (t : TextArea) (k : Keymaps) : TextArea :=
  mkTextArea (text t) (cursor_pos t) (wrap_cache t) (preferred_col t) (elements t) (next_id t)
    (kill_buffer t) (kill_buffer_kind t) (vim_enabled t) (vim_mode t) (vim_pending t)
    (vim_commands t) k.

Definition new_textarea (defaults : Keymaps) : TextArea :=
  mkTextArea [] 0 None None [] 1 [] Characterwise false Insert PendingNone default_vim_commands
    defaults.

(** ** Positions *)

(** The loops of [clamp_pos_to_char_boundary]; the second one has as many steps
    as bytes are left. *)
Fixpoint prev_char_boundary (s : rstr) (prev : nat) : nat :=
  match prev with
  | 0 => 0
  | S p => if is_char_boundary s prev then prev else prev_char_boundary s p
  end.

Fixpoint next_char_boundary (s : rstr) (left next : nat) : nat :=
  match left with
  | 0 => next
  | S l => if is_char_boundary s next then next else next_char_boundary s l (S next)
  end.

Definition clamp_to_char_boundary_in (s : rstr) (pos : nat) : nat :=
  let pos := Nat.min pos (str_len s) in
  if is_char_boundary s pos then pos
  else
    let prev := prev_char_boundary s pos in
    let next := next_char_boundary s (str_len s - pos) pos in
    if pos - prev <=? next - pos then prev else next.

Definition clamp_pos_to_char_boundary (t : TextArea) (pos : nat) : nat :=
  clamp_to_char_boundary_in (text t) pos.

Definition find_element_containing (t : TextArea) (pos : nat) : option Element :=
  List.find (fun e => (elem_start e <? pos) && (pos <? elem_end e)) (elements t).

Definition clamp_pos_to_nearest_boundary (t : TextArea) (pos : nat) : nat :=
  let pos := clamp_pos_to_char_boundary t pos in
  match find_element_containing t pos with
  | Some e =>
      let dist_start := pos - elem_start e in
      let dist_end := elem_end e - pos in
      if dist_start <=? dist_end then clamp_pos_to_char_boundary t (elem_start e)
      else clamp_pos_to_char_boundary t (elem_end e)
  | None => pos
  end.

Definition clamp_pos_for_insertion (t : TextArea) (pos : nat) : nat :=
  let pos := clamp_pos_to_char_boundary t pos in
  match find_element_containing t pos with
  | Some e =>
      let dist_start := pos - elem_start e in
      let dist_end := elem_end e - pos in
      if dist_start <=? dist_end then clamp_pos_to_char_boundary t (elem_start e)
      else clamp_pos_to_char_boundary t (elem_end e)
  | None => pos
  end.

Definition adjust_pos_out_of_elements (t : TextArea) (pos : nat) (prefer_start : bool) : nat :=
  match find_element_containing t pos with
  | Some e => if prefer_start then elem_start e else elem_end e
  | None => pos
  end.

(** One pass of [expand_range_to_element_boundaries] over the elements. *)
Definition expand_step (st : nat * nat * bool) (e : Element) : nat * nat * bool :=
  let '(start, end_, changed) := st in
  if (elem_start e <? end_) && (start <? elem_end e) then
    let new_start := Nat.min start (elem_start e) in
    let new_end := Nat.max end_ (elem_end e) in
    if negb (new_start =? start) || negb (new_end =? end_)
    then (new_start, new_end, true) else st
  else st.

Definition expand_pass (es : list Element) (start end_ : nat) : nat * nat * bool :=
  foldl expand_step (start, end_, false) es.

(** The loop: every pass but the last one takes in another element. *)
Fixpoint expand_loop (passes : nat) (es : list Element) (start end_ : nat) : nat * nat :=
  match passes with
  | 0 => (start, end_)
  | S n =>
      let '(start, end_, changed) := expand_pass es start end_ in
      if changed then expand_loop n es start end_ else (start, end_)
  end.

Definition expand_range_to_element_boundaries (t : TextArea) (start end_ : nat) : nat * nat :=
  expand_loop (S (length (elements t))) (elements t) start end_.

(** ** Elements under edits *)

Definition move_element (e : Element) (start end_ : nat) : Element := mkElement (elem_id e) start end_.

(** A range after the edit moves by the difference of the lengths. *)
Definition shifted (p removed inserted : nat) : nat := p + inserted - removed.

Definition shift_elements (es : list Element) (at_ removed inserted : nat) : list Element :=
  let end_ := at_ + removed in
  (fun e =>
     if elem_end e <=? at_ then e
     else if end_ <=? elem_start e
     then move_element e (shifted (elem_start e) removed inserted)
            (shifted (elem_end e) removed inserted)
     else move_element e (Nat.min at_ (elem_start e)) (at_ + Nat.max inserted (elem_end e - end_)))
  <$> List.filter (fun e => negb ((at_ <=? elem_start e) && (elem_end e <=? end_))) es.

Definition update_elements_after_replace (es : list Element) (start end_ inserted_len : nat)
  : list Element :=
  shift_elements es start (end_ - start) inserted_len.

Definition next_element_id (t : TextArea) : N * TextArea :=
  (next_id t, set_next_id t (sat_add (next_id t) 1)).

Definition add_element (t : TextArea) (start end_ : nat) : N * TextArea :=
  let '(id, t) := next_element_id t in
  (id, set_elements t (sort_by_key elem_start (elements t ++ [mkElement id start end_]))).

(** ** Whole-buffer replacement *)

(** The loop over the given element ranges in [set_text_inner]. *)
Fixpoint rebuild_elements (t : TextArea) (ranges : list (nat * nat)) : TextArea :=
  match ranges with
  | [] => t
  | (start, end_) :: rest =>
      let start := clamp_pos_to_char_boundary t (Nat.min start (str_len (text t))) in
      let end_ := clamp_pos_to_char_boundary t (Nat.min end_ (str_len (text t))) in
      if end_ <=? start then rebuild_elements t rest
      else
        let '(id, t) := next_element_id t in
        rebuild_elements (set_elements t (elements t ++ [mkElement id start end_])) rest
  end.

Definition set_text_inner (t : TextArea) (s : rstr) (ranges : option (list (nat * nat))) : TextArea :=
  let t := with_buffer t s (Nat.min (cursor_pos t) (str_len s)) (wrap_cache t) (preferred_col t) [] in
  let t := match ranges with
           | Some rs =>
               let t := rebuild_elements t rs in
               set_elements t (sort_by_key elem_start (elements t))
           | None => t
           end in
  let t := set_cursor_pos t (clamp_pos_to_nearest_boundary t (cursor_pos t)) in
  let t := set_preferred_col (set_wrap_cache t None) None in
  set_vim t (vim_enabled t) (vim_mode t) PendingNone default_vim_commands.

Definition set_text_clearing_elements (t : TextArea) (s : rstr) : TextArea := set_text_inner t s None.

Definition set_text_with_elements (t : TextArea) (s : rstr) (ranges : list (nat * nat)) : TextArea :=
  set_text_inner t s (Some ranges).

(** ** Edits *)

Definition set_cursor (t : TextArea) (pos : nat) : TextArea :=
  let t := set_cursor_pos t (Nat.min pos (str_len (text t))) in
  let t := set_cursor_pos t (clamp_pos_to_nearest_boundary t (cursor_pos t)) in
  set_preferred_col t None.

(** [record_vim_inserted_text] of [textarea/vim_commands.rs] *)
Definition append_inserted_text (edits : list VimEdit) (s : rstr) : list VimEdit :=
  match last edits with
  | Some (EditText _) =>
      alter_last (fun e => match e with EditText p => EditText (p ++ s) | _ => e end) edits
  | _ => edits ++ [EditText s]
  end.

Definition record_vim_inserted_text (t : TextArea) (s : rstr) : TextArea :=
  let c := vim_commands t in
  if negb (vim_enabled t) || negb (bool_decide (vim_mode t = Insert)) || replaying c
     || is_empty (pending_change c) || is_empty s
  then t
  else set_vim_commands t
         (mkVimCommands (append_inserted_text (pending_change c) s) (last_change c) true
            (replaying c)).

Definition insert_str_at (t : TextArea) (pos : nat) (s : rstr) : run TextArea :=
  let pos := clamp_pos_for_insertion t pos in
  text' ← str_insert (text t) pos s;
  let cursor := if pos <=? cursor_pos t then cursor_pos t + str_len s else cursor_pos t in
  Done (with_buffer t text' cursor None None (shift_elements (elements t) pos 0 (str_len s))).

Definition insert_str (t : TextArea) (s : rstr) : run TextArea :=
  let t := record_vim_inserted_text t s in insert_str_at t (cursor_pos t) s.

Definition replace_range_raw (t : TextArea) (range_start range_end : nat) (s : rstr) : run TextArea :=
  if negb (range_start <=? range_end) then Panic
  else
    let start := Nat.min range_start (str_len (text t)) in
    let end_ := Nat.min range_end (str_len (text t)) in
    let removed_len := end_ - start in
    let inserted_len := str_len s in
    if (removed_len =? 0) && (inserted_len =? 0) then Done t
    else
      text' ← str_replace_range (text t) range_start range_end s;
      let es := update_elements_after_replace (elements t) start end_ inserted_len in
      let cursor :=
        if cursor_pos t <? start then cursor_pos t
        else if cursor_pos t <=? end_ then start + inserted_len
        else shifted (cursor_pos t) removed_len inserted_len in
      let t := with_buffer t text' (Nat.min cursor (str_len text')) None None es in
      Done (set_cursor_pos t (clamp_pos_to_nearest_boundary t (cursor_pos t))).

Definition replace_range (t : TextArea) (start end_ : nat) (s : rstr) : run TextArea :=
  let '(start, end_) := expand_range_to_element_boundaries t start end_ in
  replace_range_raw t start end_ s.

Definition insert_element (t : TextArea) (s : rstr) : run (N * TextArea) :=
  let start := clamp_pos_for_insertion t (cursor_pos t) in
  t ← insert_str_at t start s;
  let end_ := start + str_len s in
  let '(id, t) := add_element t start end_ in
  Done (id, set_cursor t end_).

Definition overlaps_some_element (t : TextArea) (start end_ : nat) : bool :=
  existsb (fun e => (start <? elem_end e) && (elem_start e <? end_)) (elements t).

Definition add_element_range (t : TextArea) (range_start range_end : nat) : option N * TextArea :=
  let start := clamp_pos_to_char_boundary t (Nat.min range_start (str_len (text t))) in
  let end_ := clamp_pos_to_char_boundary t (Nat.min range_end (str_len (text t))) in
  if end_ <=? start then (None, t)
  else if existsb (fun e => (elem_start e =? start) && (elem_end e =? end_)) (elements t) then (None, t)
  else if overlaps_some_element t start end_ then (None, t)
  else let '(id, t) := add_element t start end_ in (Some id, t).

Definition remove_element_range (t : TextArea) (range_start range_end : nat) : bool * TextArea :=
  let start := clamp_pos_to_char_boundary t (Nat.min range_start (str_len (text t))) in
  let end_ := clamp_pos_to_char_boundary t (Nat.min range_end (str_len (text t))) in
  if end_ <=? start then (false, t)
  else
    let es := List.filter (fun e => negb (elem_start e =? start) || negb (elem_end e =? end_))
                (elements t) in
    (negb (length (elements t) =? length es), set_elements t es).

(** ** What the composer reads of the elements *)

Definition element_payloads (t : TextArea) : list rstr :=
  omap (fun e => str_get (text t) (elem_start e) (elem_end e)) (elements t).

Definition text_elements (t : TextArea) : list (nat * nat * option rstr) :=
  (fun e => (elem_start e, elem_end e, str_get (text t) (elem_start e) (elem_end e))) <$> elements t.

Definition text_element_snapshots (t : TextArea) : list (N * (nat * nat) * rstr) :=
  omap (fun e => (fun s => (elem_id e, (elem_start e, elem_end e), s))
                 <$> str_get (text t) (elem_start e) (elem_end e)) (elements t).

Definition element_id_for_exact_range (t : TextArea) (start end_ : nat) : option N :=
  elem_id <$> List.find (fun e => (elem_start e =? start) && (elem_end e =? end_)) (elements t).

(** The elements are in the order of their starts, so the partition point is the
    number of leading elements that end at or before the range. *)
Definition text_element_ranges_overlapping (t : TextArea) (start end_ : nat) : list (nat * nat) :=
  (fun e => (elem_start e, elem_end e))
  <$> take_while (fun e => elem_start e <? end_)
        (drop_while (fun e => elem_end e <=? start) (elements t)).

(** [replace_element_payload]: the index of the first element with the payload,
    and the ranges of the others. *)
Fixpoint payload_position (s : rstr) (old : rstr) (es : list Element) : option nat :=
  match es with
  | [] => None
  | e :: r =>
      if bool_decide (str_get s (elem_start e) (elem_end e) = Some old) then Some 0
      else S <$> payload_position s old r
  end.

Definition moved_by_payload (start end_ removed inserted : nat) (e : Element) : Element :=
  if elem_end e <=? start then e
  else if end_ <=? elem_start e then
    move_element e (shifted (elem_start e) removed inserted) (shifted (elem_end e) removed inserted)
  else move_element e (Nat.min start (elem_start e))
         (Nat.max (start + inserted) (shifted (elem_end e) removed inserted)).

Definition replace_element_payload (t : TextArea) (old new : rstr) : run (bool * TextArea) :=
  match payload_position (text t) old (elements t) with
  | None => Done (false, t)
  | Some idx =>
      match elements t !! idx with
      | None => Panic
      | Some e =>
          let start := elem_start e in
          let end_ := elem_end e in
          if (end_ <? start) || (str_len (text t) <? end_) then Done (false, t)
          else
            let removed_len := end_ - start in
            let inserted_len := str_len new in
            text' ← str_replace_range (text t) start end_ new;
            let es := <[idx := move_element e start (start + inserted_len)]> (elements t) in
            let es := if inserted_len =? removed_len then es
                      else imap (fun j e => if j =? idx then e
                                            else moved_by_payload start end_ removed_len inserted_len e)
                             es in
            let cursor :=
              if cursor_pos t <? start then cursor_pos t
              else if cursor_pos t <=? end_ then start + inserted_len
              else shifted (cursor_pos t) removed_len inserted_len in
            let t := with_buffer t text' cursor None None es in
            let t := set_cursor_pos t (clamp_pos_to_nearest_boundary t (cursor_pos t)) in
            Done (true, set_elements t (sort_by_key elem_start (elements t)))
      end
  end.

(** ** Lines *)

Definition is_lf (c : N) : bool := (c =? c_lf)%N.

Definition beginning_of_line (t : TextArea) (pos : nat) : run nat :=
  before ← str_to (text t) pos;
  Done (match rfind_char is_lf before with Some i => i + 1 | None => 0 end).

Definition beginning_of_current_line (t : TextArea) : run nat := beginning_of_line t (cursor_pos t).

Definition end_of_line (t : TextArea) (pos : nat) : run nat :=
  after ← str_from (text t) pos;
  Done (match find_char is_lf after with Some i => i + pos | None => str_len (text t) end).

Definition end_of_current_line (t : TextArea) : run nat := end_of_line t (cursor_pos t).

Definition first_non_blank_of_current_line (t : TextArea) : run nat :=
  bol ← beginning_of_current_line t;
  eol ← end_of_current_line t;
  line ← str_range (text t) bol eol;
  Done (match find_char (fun ch => negb (is_whitespace ch)) line with
        | Some offset => bol + offset
        | None => eol
        end).

Definition current_line_range_with_newline (t : TextArea) : run (nat * nat) :=
  bol ← beginning_of_current_line t;
  eol ← end_of_current_line t;
  Done (bol, if eol <? str_len (text t) then eol + 1 else eol).

(** ** The kill buffer *)

Definition kill_range_with_kind (t : TextArea) (range_start range_end : nat) (k : KillBufferKind)
  : run TextArea :=
  let '(start, end_) := expand_range_to_element_boundaries t range_start range_end in
  if end_ <=? start then Done t
  else
    removed ← str_range (text t) start end_;
    if is_empty removed then Done t
    else replace_range_raw (store_kill_buffer t removed k) start end_ [].

Definition kill_range (t : TextArea) (start end_ : nat) : run TextArea :=
  kill_range_with_kind t start end_ Characterwise.
Definition kill_line_range (t : TextArea) (start end_ : nat) : run TextArea :=
  kill_range_with_kind t start end_ Linewise.

Definition yank_range_with_kind (t : TextArea) (range_start range_end : nat) (k : KillBufferKind)
  : run TextArea :=
  let '(start, end_) := expand_range_to_element_boundaries t range_start range_end in
  if end_ <=? start then Done t
  else
    removed ← str_range (text t) start end_;
    if is_empty removed then Done t else Done (store_kill_buffer t removed k).

Definition yank_range (t : TextArea) (start end_ : nat) : run TextArea :=
  yank_range_with_kind t start end_ Characterwise.
Definition yank_line_range (t : TextArea) (start end_ : nat) : run TextArea :=
  yank_range_with_kind t start end_ Linewise.

Definition kill_to_end_of_line (t : TextArea) : run TextArea :=
  eol ← end_of_current_line t;
  if cursor_pos t =? eol then
    if eol <? str_len (text t) then kill_range t (cursor_pos t) (eol + 1) else Done t
  else kill_range t (cursor_pos t) eol.

Definition vim_kill_to_end_of_line (t : TextArea) : run TextArea :=
  eol ← end_of_current_line t;
  if cursor_pos t <? eol then kill_range t (cursor_pos t) eol else Done t.

Definition kill_to_beginning_of_line (t : TextArea) : run TextArea :=
  bol ← beginning_of_current_line t;
  if cursor_pos t =? bol then
    if 0 <? bol then kill_range t (bol - 1) bol else Done t
  else kill_range t bol (cursor_pos t).

Definition yank (t : TextArea) : run TextArea :=
  if is_empty (kill_buffer t) then Done t else insert_str t (kill_buffer t).

Definition yank_current_line (t : TextArea) : run TextArea :=
  range ← current_line_range_with_newline t;
  yank_line_range t range.1 range.2.

Definition kill_current_line (t : TextArea) : run TextArea :=
  range ← current_line_range_with_newline t;
  kill_line_range t range.1 range.2.

Definition paste_line_after_current_line (t : TextArea) : run TextArea :=
  eol ← end_of_current_line t;
  let len := str_len (text t) in
  let insert_at := if eol <? len then eol + 1 else eol in
  let cursor := if eol <? len then insert_at else insert_at + 1 in
  let s :=
    if eol <? len then
      if ends_with [c_lf] (kill_buffer t) then kill_buffer t else kill_buffer t ++ [c_lf]
    else [c_lf] ++ trim_end_matches c_lf (kill_buffer t) in
  t ← insert_str_at t insert_at s;
  Done (set_cursor t (Nat.min cursor (str_len (text t)))).

Definition move_cursor_to_beginning_of_line (t : TextArea) (move_up_at_bol : bool) : run TextArea :=
  bol ← beginning_of_current_line t;
  t ← (if move_up_at_bol && (cursor_pos t =? bol) then
         p ← beginning_of_line t (cursor_pos t - 1); Done (set_cursor t p)
       else Done (set_cursor t bol));
  Done (set_preferred_col t None).

Definition move_cursor_to_end_of_line (t : TextArea) (move_down_at_eol : bool) : run TextArea :=
  eol ← end_of_current_line t;
  if move_down_at_eol && (cursor_pos t =? eol) then
    p ← end_of_line t (Nat.min (cursor_pos t + 1) (str_len (text t)));
    Done (set_cursor t p)
  else Done (set_cursor t eol).

(** ** Words and graphemes *)

Definition WORD_SEPARATORS : rstr := lit "`~!@#$%^&*()-=+[{]}\|;:'" ++ [c_dquote] ++ lit ",.<>/?".

Definition is_word_separator (ch : N) : bool := contains_char ch WORD_SEPARATORS.

(** The inner loop of [split_word_pieces]: cut where the class of the character
    changes. *)
Fixpoint separator_pieces (start idx : nat) (in_separator : bool) (piece : rstr) (chars : rstr)
  : list (nat * rstr) :=
  match chars with
  | [] => [(start, piece)]
  | ch :: rest =>
      if Bool.eqb (is_word_separator ch) in_separator
      then separator_pieces start (idx + len_utf8 ch) in_separator (piece ++ [ch]) rest
      else (start, piece)
           :: separator_pieces idx (idx + len_utf8 ch) (is_word_separator ch) [ch] rest
  end.

Definition segment_pieces (segment_start : nat) (segment : rstr) : list (nat * rstr) :=
  match segment with
  | [] => []
  | first_char :: rest =>
      separator_pieces segment_start (segment_start + len_utf8 first_char)
        (is_word_separator first_char) [first_char] rest
  end.

(** Consecutive segments with their offsets ([split_word_bound_indices],
    [grapheme_indices]). *)
Fixpoint indexed_from (n : nat) (segments : list rstr) : list (nat * rstr) :=
  match segments with
  | [] => []
  | s :: r => (n, s) :: indexed_from (n + str_len s) r
  end.

Definition is_separator_piece (piece : rstr) : bool := forallb is_word_separator piece.

Section segmented.
Context `{Segmentation}.

Definition split_word_pieces (text_run : rstr) : list (nat * rstr) :=
  indexed_from 0 (word_bounds text_run) ≫= fun '(start, segment) => segment_pieces start segment.

Definition grapheme_indices (s : rstr) : list (nat * rstr) := indexed_from 0 (graphemes s).

(** [width::display_width] *)
Definition display_width (s : rstr) : nat :=
  unicode_width s + length (List.filter (fun ch => (ch =? 65438)%N || (ch =? 65439)%N) s).

Definition prev_atomic_boundary (t : TextArea) (pos : nat) : nat :=
  if pos =? 0 then 0
  else match List.find (fun e => (elem_start e <? pos) && (pos <=? elem_end e)) (elements t) with
       | Some e => elem_start e
       | None =>
           match prev_boundary (text t) pos with
           | Ok (Some b) =>
               match find_element_containing t b with Some e => elem_start e | None => b end
           | Ok None => 0
           | Err _ => pos - 1
           end
       end.

Definition next_atomic_boundary (t : TextArea) (pos : nat) : nat :=
  if str_len (text t) <=? pos then str_len (text t)
  else match List.find (fun e => (elem_start e <=? pos) && (pos <? elem_end e)) (elements t) with
       | Some e => elem_end e
       | None =>
           match next_boundary (text t) pos with
           | Ok (Some b) =>
               match find_element_containing t b with Some e => elem_end e | None => b end
           | Ok None => str_len (text t)
           | Err _ => pos + 1
           end
       end.

Definition vim_normal_end_cursor (t : TextArea) : nat :=
  if is_empty (text t) then 0 else prev_atomic_boundary t (str_len (text t)).

(** The pieces of separators next to the first one, from which the word ends. *)
Fixpoint last_separator_start (run_start start : nat) (pieces : list (nat * rstr)) : nat :=
  match pieces with
  | (idx, piece) :: rest =>
      if is_separator_piece piece then last_separator_start run_start (run_start + idx) rest else start
  | [] => start
  end.

Fixpoint last_separator_end (base end_ : nat) (pieces : list (nat * rstr)) : nat :=
  match pieces with
  | (idx, piece) :: rest =>
      if is_separator_piece piece then last_separator_end base (base + idx + str_len piece) rest
      else end_
  | [] => end_
  end.

Definition beginning_of_previous_word (t : TextArea) : run nat :=
  prefix ← str_to (text t) (cursor_pos t);
  match rfind_char (fun ch => negb (is_whitespace ch)) prefix with
  | None => Done 0
  | Some first_non_ws_idx =>
      before ← str_to prefix first_non_ws_idx;
      after ← str_from prefix first_non_ws_idx;
      let ch_len := match after with ch :: _ => len_utf8 ch | [] => 0 end in
      let run_start :=
        match rfind_char is_whitespace before with
        | Some idx =>
            match str_from before idx with
            | Done (ws :: _) => idx + len_utf8 ws
            | _ => idx
            end
        | None => 0
        end in
      let run_end := first_non_ws_idx + ch_len in
      text_run ← str_range prefix run_start run_end;
      match reverse (split_word_pieces text_run) with
      | [] => Done run_start
      | (piece_start, piece) :: pieces =>
          let start := run_start + piece_start in
          let start := if is_separator_piece piece then last_separator_start run_start start pieces
                       else start in
          Done (adjust_pos_out_of_elements t start true)
      end
  end.

Definition end_of_next_word_from (t : TextArea) (pos : nat) : run nat :=
  suffix ← str_from (text t) pos;
  match find_char (fun ch => negb (is_whitespace ch)) suffix with
  | None => Done (str_len (text t))
  | Some first_non_ws =>
      rest ← str_from suffix first_non_ws;
      text_run ← str_to rest (default (str_len rest) (find_char is_whitespace rest));
      match split_word_pieces text_run with
      | [] => Done (pos + first_non_ws)
      | (start, piece) :: pieces =>
          let word_start := pos + first_non_ws + start in
          let end_ := word_start + str_len piece in
          let end_ := if is_separator_piece piece
                      then last_separator_end (pos + first_non_ws) end_ pieces else end_ in
          Done (adjust_pos_out_of_elements t end_ false)
      end
  end.

Definition end_of_next_word (t : TextArea) : run nat := end_of_next_word_from t (cursor_pos t).

Definition beginning_of_next_word (t : TextArea) : run nat :=
  suffix ← str_from (text t) (cursor_pos t);
  match find_char (fun c => negb (is_whitespace c)) suffix with
  | None => Done (str_len (text t))
  | Some first_non_ws =>
      let word_start := cursor_pos t + first_non_ws in
      if negb (word_start =? cursor_pos t) then Done (adjust_pos_out_of_elements t word_start true)
      else
        end_ ← end_of_next_word t;
        if str_len (text t) <=? end_ then Done (str_len (text t))
        else
          rest ← str_from (text t) end_;
          match find_char (fun c => negb (is_whitespace c)) rest with
          | None => Done (str_len (text t))
          | Some next_non_ws => Done (adjust_pos_out_of_elements t (end_ + next_non_ws) true)
          end
  end.

Definition vim_word_end_exclusive (t : TextArea) : run nat :=
  end_ ← end_of_next_word t;
  let target := if cursor_pos t <? end_ then prev_atomic_boundary t end_ else end_ in
  if (target =? cursor_pos t) && (end_ <? str_len (text t)) then end_of_next_word_from t end_
  else Done end_.

Definition vim_word_end_cursor (t : TextArea) : run nat :=
  end_ ← vim_word_end_exclusive t;
  Done (if cursor_pos t <? end_ then prev_atomic_boundary t end_ else end_).

Definition vim_line_end_cursor (t : TextArea) : run nat :=
  bol ← beginning_of_current_line t;
  eol ← end_of_current_line t;
  Done (if bol <? eol then Nat.max (prev_atomic_boundary t eol) bol else eol).

(** ** Deleting *)

(** Thai nonspacing marks, which are deleted one by one. *)
Definition is_thai_mark (ch : N) : bool :=
  (ch =? 3633)%N || ((3636 <=? ch) && (ch <=? 3642))%N || ((3655 <=? ch) && (ch <=? 3662))%N.

(** One step of the loop of [delete_backward]. *)
Definition backward_target (t : TextArea) (target : nat) : run nat :=
  before ← str_to (text t) target;
  Done (match last (char_indices before) with
        | Some (char_start, ch) =>
            if is_thai_mark ch
               && negb (existsb (fun e => (elem_start e <? target) && (target <=? elem_end e)) (elements t))
            then char_start else prev_atomic_boundary t target
        | None => prev_atomic_boundary t target
        end).

Fixpoint backward_targets (t : TextArea) (n target : nat) : run nat :=
  match n with
  | 0 => Done target
  | S n =>
      target ← backward_target t target;
      if target =? 0 then Done target else backward_targets t n target
  end.

Definition delete_backward (t : TextArea) (n : nat) : run TextArea :=
  if (n =? 0) || (cursor_pos t =? 0) then Done t
  else
    target ← backward_targets t n (cursor_pos t);
    replace_range t target (cursor_pos t) [].

Fixpoint forward_targets (t : TextArea) (n target : nat) : nat :=
  match n with
  | 0 => target
  | S n =>
      let target := next_atomic_boundary t target in
      if str_len (text t) <=? target then target else forward_targets t n target
  end.

Definition delete_forward (t : TextArea) (n : nat) : run TextArea :=
  if (n =? 0) || (str_len (text t) <=? cursor_pos t) then Done t
  else replace_range t (cursor_pos t) (forward_targets t n (cursor_pos t)) [].

Definition delete_forward_kill (t : TextArea) (n : nat) : run TextArea :=
  if (n =? 0) || (str_len (text t) <=? cursor_pos t) then Done t
  else kill_range t (cursor_pos t) (forward_targets t n (cursor_pos t)).

Definition delete_backward_word (t : TextArea) : run TextArea :=
  start ← beginning_of_previous_word t;
  kill_range t start (cursor_pos t).

Definition delete_forward_word (t : TextArea) : run TextArea :=
  end_ ← end_of_next_word t;
  if cursor_pos t <? end_ then kill_range t (cursor_pos t) end_ else Done t.

Definition paste_after_cursor (t : TextArea) : run TextArea :=
  if is_empty (kill_buffer t) then Done t
  else match kill_buffer_kind t with
       | Linewise => paste_line_after_current_line t
       | Characterwise =>
           let t := set_cursor t (next_atomic_boundary t (cursor_pos t)) in
           insert_str t (kill_buffer t)
       end.

(** ** Moving *)

Definition move_cursor_left (t : TextArea) : TextArea :=
  set_preferred_col (set_cursor_pos t (prev_atomic_boundary t (cursor_pos t))) None.

Definition move_cursor_right (t : TextArea) : TextArea :=
  set_preferred_col (set_cursor_pos t (next_atomic_boundary t (cursor_pos t))) None.

Definition current_display_col (t : TextArea) : run nat :=
  bol ← beginning_of_current_line t;
  line ← str_range (text t) bol (cursor_pos t);
  Done (display_width line).

(** The loop of [move_to_display_col_on_line]: the offset of the first grapheme
    that ends after the column. *)
Fixpoint grapheme_beyond (target_col width_so_far : nat) (gs : list (nat * rstr)) : option nat :=
  match gs with
  | [] => None
  | (i, g) :: rest =>
      let width_so_far := width_so_far + display_width g in
      if target_col <? width_so_far then Some i else grapheme_beyond target_col width_so_far rest
  end.

Definition move_to_display_col_on_line (t : TextArea) (line_start line_end target_col : nat)
  : run TextArea :=
  line ← str_range (text t) line_start line_end;
  let target := match grapheme_beyond target_col 0 (grapheme_indices line) with
                | Some i => line_start + i
                | None => line_end
                end in
  let t := set_cursor_pos t target in
  Done (set_cursor_pos t (clamp_pos_to_nearest_boundary t (cursor_pos t))).

(** [textarea/wrapping.rs]: the row and column of a position.  The rows are
    sorted by their starts, so the partition point is the number of rows that
    start at or before the position. *)
Definition text_for_display (s : rstr) : rstr := (fun c => if (c =? 9)%N then 32%N else c) <$> s.

Definition is_breakable_space (ch : N) : bool :=
  is_whitespace ch && negb ((ch =? 160)%N || (ch =? 8199)%N || (ch =? 8239)%N).

Definition is_hangable_space (ch : N) : bool :=
  is_breakable_space ch
  && negb (is_lf ch || (ch =? 13)%N || (ch =? 11)%N || (ch =? 12)%N || (ch =? 133)%N
           || (ch =? 8232)%N || (ch =? 8233)%N).

Definition visible_prefix (s : rstr) (width : nat) : run rstr :=
  if width =? 0 then Done []
  else if str_len s <=? width then Done s
  else match List.filter (fun '(_, g) => existsb is_hangable_space g) (grapheme_indices s)
               !! (width - 1) with
       | Some (start, grapheme) => str_to s (start + str_len grapheme)
       | None => Done s
       end.

Definition partition_point {A} (p : A -> bool) (l : list A) : nat := length (take_while p l).

Definition cursor_position (s : rstr) (lines : list (nat * nat)) (width pos : nat)
  : run (option (nat * nat)) :=
  match partition_point (fun line => line.1 <=? pos) lines with
  | 0 => Done None
  | S row =>
      match lines !! row with
      | None => Panic
      | Some line =>
          segment ← str_range s line.1 pos;
          before_cursor ← visible_prefix segment width;
          let col := display_width (text_for_display before_cursor) in
          if (width <=? col)
             && is_some_and (lines !! (row + 1)) (fun next => next.1 =? line.2 - 1)
          then Done (Some (row + 1, 0))
          else Done (Some (row, Nat.min col (width - 1)))
      end
  end.

(** The target of a vertical move over wrapped rows: the column, and the row to
    move to unless there is none. *)
Definition wrapped_target (t : TextArea) (up : bool) : run (option (nat * option (nat * nat))) :=
  match wrap_cache t with
  | None => Done None
  | Some cache =>
      let lines := cache_lines cache in
      position ← cursor_position (text t) lines (cache_width cache) (cursor_pos t);
      match position with
      | None => Done None
      | Some (idx, col) =>
          let target_col := Nat.min (default col (preferred_col t)) (cache_width cache - 1) in
          if up then
            match lines !! idx with
            | None => Panic
            | Some cur_range =>
                match idx with
                | 0 => Done (Some (target_col, None))
                | S prev_idx =>
                    match lines !! prev_idx with
                    | None => Panic
                    | Some prev =>
                        let line_start := prev.1 in
                        let line_end := prev.2 - 1 in
                        let line_end := if line_end =? cur_range.1
                                        then Nat.max (prev_atomic_boundary t line_end) line_start
                                        else line_end in
                        Done (Some (target_col, Some (line_start, line_end)))
                    end
                end
            end
          else
            match lines !! (idx + 1) with
            | None => Done (Some (target_col, None))
            | Some next =>
                let line_start := next.1 in
                let line_end := next.2 - 1 in
                let line_end := if is_some_and (lines !! (idx + 2)) (fun f => f.1 =? line_end)
                                then Nat.max (prev_atomic_boundary t line_end) line_start
                                else line_end in
                Done (Some (target_col, Some (line_start, line_end)))
            end
      end
  end.

Definition keep_preferred_col (t : TextArea) (col : nat) : TextArea :=
  match preferred_col t with None => set_preferred_col t (Some col) | Some _ => t end.

(** The column of a vertical move over logical lines. *)
Definition logical_target_col (t : TextArea) : run (nat * TextArea) :=
  match preferred_col t with
  | Some c => Done (c, t)
  | None => c ← current_display_col t; Done (c, set_preferred_col t (Some c))
  end.

Definition move_cursor_up (t : TextArea) : run TextArea :=
  wrapped ← wrapped_target t true;
  match wrapped with
  | Some (target_col, Some (line_start, line_end)) =>
      move_to_display_col_on_line (keep_preferred_col t target_col) line_start line_end target_col
  | Some (_, None) => Done (set_preferred_col (set_cursor_pos t 0) None)
  | None =>
      before ← str_to (text t) (cursor_pos t);
      match rfind_char is_lf before with
      | Some prev_nl =>
          target ← logical_target_col t;
          let '(target_col, t) := target in
          prev_line ← str_to (text t) prev_nl;
          let prev_line_start := match rfind_char is_lf prev_line with Some i => i + 1 | None => 0 end in
          move_to_display_col_on_line t prev_line_start prev_nl target_col
      | None => Done (set_preferred_col (set_cursor_pos t 0) None)
      end
  end.

Definition move_cursor_down (t : TextArea) : run TextArea :=
  wrapped ← wrapped_target t false;
  match wrapped with
  | Some (target_col, Some (line_start, line_end)) =>
      move_to_display_col_on_line (keep_preferred_col t target_col) line_start line_end target_col
  | Some (_, None) => Done (set_preferred_col (set_cursor_pos t (str_len (text t))) None)
  | None =>
      target ← logical_target_col t;
      let '(target_col, t) := target in
      after ← str_from (text t) (cursor_pos t);
      match find_char is_lf after with
      | Some i =>
          let next_line_start := i + cursor_pos t + 1 in
          rest ← str_from (text t) next_line_start;
          let next_line_end := match find_char is_lf rest with
                               | Some i => i + next_line_start
                               | None => str_len (text t)
                               end in
          move_to_display_col_on_line t next_line_start next_line_end target_col
      | None => Done (set_preferred_col (set_cursor_pos t (str_len (text t))) None)
      end
  end.

(** [TextArea::wrapped_lines] fills the cache when the text area is drawn. *)
Definition refresh_wrap_cache (t : TextArea) (width : nat) : TextArea :=
  let needs_recalc :=
    match wrap_cache t with Some c => negb (cache_width c =? width) | None => true end in
  if needs_recalc
  then set_wrap_cache t (Some (mkWrapCache width (wrapped_lines (text_for_display (text t)) width)))
  else t.

(** [effective_scroll]: counts of rows are narrowed to [u16]. *)
Definition U16_SIZE : nat := 2 ^ 16.
Definition as_u16 (n : nat) : nat := n mod U16_SIZE.

Definition effective_scroll (t : TextArea) (width height : nat) (lines : list (nat * nat))
    (current_scroll : nat) : run nat :=
  let total_lines := as_u16 (length lines) in
  if total_lines <=? height then Done 0
  else
    position ← cursor_position (text t) lines width (cursor_pos t);
    let cursor_line_idx := as_u16 (match position with Some (row, _) => row | None => 0 end) in
    let max_scroll := total_lines - height in
    let scroll := Nat.min current_scroll max_scroll in
    Done (if cursor_line_idx <? scroll then cursor_line_idx
          else if scroll + height <=? cursor_line_idx then cursor_line_idx + 1 - height
          else scroll).

End segmented.
