(* ===== verification/TextAreaVim.v ===== *)
(** * TextAreaVim: keys of the text area

    The dispatch of key events of [codex-rs/tui/src/bottom_pane/textarea.rs],
    with its Vim mode: text objects ([textarea/vim.rs]), edits, character finds
    and the repetition of the last change ([textarea/vim_commands.rs]). *)

From Stdlib Require Import Lia.
From stdpp Require Import base list strings.
From S2P Require Import Prelude TextPos Keys TextArea.

Open Scope rust_scope.

Section vim.
Context `{Segmentation}.

(** ** Modes *)

Definition set_vim_enabled (t : TextArea) (enabled : bool) : TextArea :=
  set_vim t enabled (if enabled then Normal else Insert) PendingNone default_vim_commands.

Definition is_vim_normal_mode (t : TextArea) : bool :=
  vim_enabled t && bool_decide (vim_mode t = Normal).

Definition is_vim_operator_pending (t : TextArea) : bool :=
  match vim_pending t with PendingNone => false | _ => true end.

Definition allows_paste_burst (t : TextArea) : bool :=
  negb (vim_enabled t) || bool_decide (vim_mode t = Insert).

Definition enter_vim_insert_mode (t : TextArea) : TextArea :=
  if vim_enabled t then set_vim t true Insert PendingNone (vim_commands t) else t.

Definition enter_vim_normal_mode (t : TextArea) : TextArea :=
  if vim_enabled t
  then set_preferred_col (set_vim t true Normal PendingNone (vim_commands t)) None
  else t.

Definition should_handle_vim_insert_escape (t : TextArea) (e : KeyEvent) : bool :=
  vim_enabled t && (bool_decide (vim_mode t = Insert) || is_vim_operator_pending t)
  && bool_decide (code e = Esc) && (modifiers e =? NONE)%N && is_press_or_repeat (event_kind e).

Definition leave_vim_insert_mode (t : TextArea) : run TextArea :=
  bol ← beginning_of_current_line t;
  let t := if bol <? cursor_pos t
           then set_cursor_pos t (Nat.max (prev_atomic_boundary t (cursor_pos t)) bol) else t in
  Done (enter_vim_normal_mode t).

(** ** Text objects ([vim.rs]) *)

Definition vim_text_object_scope_for_event (t : TextArea) (e : KeyEvent) : option VimTextObjectScope :=
  let k := vim_operator_keymap (keymaps t) in
  if is_pressed (vo_select_inner_text_object k) e then Some Inner
  else if is_pressed (vo_select_around_text_object k) e then Some Around
  else None.

Definition vim_text_object_for_event (t : TextArea) (e : KeyEvent) : option VimTextObject :=
  let k := vim_text_object_keymap (keymaps t) in
  if is_pressed (vt_word k) e then Some Word
  else if is_pressed (vt_big_word k) e then Some BigWord
  else if is_pressed (vt_parentheses k) e then Some Parentheses
  else if is_pressed (vt_brackets k) e then Some Brackets
  else if is_pressed (vt_braces k) e then Some Braces
  else if is_pressed (vt_double_quote k) e then Some DoubleQuote
  else if is_pressed (vt_single_quote k) e then Some SingleQuote
  else if is_pressed (vt_backtick k) e then Some Backtick
  else None.

(** The loop of [non_ws_runs], with the start of the run it is in. *)
Fixpoint non_ws_runs_loop (start : option nat) (len : nat) (chars : list (nat * N)) : list (nat * nat) :=
  match chars with
  | [] => match start with Some run_start => [(run_start, len)] | None => [] end
  | (idx, ch) :: rest =>
      if is_whitespace ch then
        match start with
        | Some run_start => (run_start, idx) :: non_ws_runs_loop None len rest
        | None => non_ws_runs_loop None len rest
        end
      else non_ws_runs_loop (match start with Some s => Some s | None => Some idx end) len rest
  end.

Definition non_ws_runs (t : TextArea) : list (nat * nat) :=
  non_ws_runs_loop None (str_len (text t)) (char_indices (text t)).

Definition cursor_overlaps_range (t : TextArea) (r : nat * nat) : bool :=
  (r.1 <=? cursor_pos t) && (cursor_pos t <? r.2).

Definition cursor_is_at_range_end (t : TextArea) (r : nat * nat) : bool :=
  (r.1 <? r.2) && (cursor_pos t =? r.2).

Definition big_word_range_at_cursor (t : TextArea) : option (nat * nat) :=
  List.find (fun r => cursor_overlaps_range t r || cursor_is_at_range_end t r) (non_ws_runs t).

(** The pieces of the run under the cursor: the piece the cursor is on, else
    the last piece. *)
Definition small_word_in_run (t : TextArea) (r : nat * nat) : run (option (nat * nat)) :=
  run_text ← str_range (text t) r.1 r.2;
  let pieces := (fun '(piece_start, piece) =>
                   (r.1 + piece_start, r.1 + piece_start + str_len piece))
                <$> split_word_pieces run_text in
  Done (match List.find (cursor_overlaps_range t) pieces with
        | Some piece => Some piece
        | None =>
            if cursor_is_at_range_end t r
            then match last pieces with Some p => Some p | None => Some r end
            else Some r
        end).

Definition small_word_range_at_cursor (t : TextArea) : run (option (nat * nat)) :=
  match big_word_range_at_cursor t with
  | None => Done None
  | Some r => small_word_in_run t r
  end.

Definition following_whitespace_end (t : TextArea) (start : nat) : run nat :=
  after ← str_from (text t) start;
  Done (start + str_len (take_while is_whitespace after)).

Definition preceding_whitespace_start (t : TextArea) (end_ : nat) : run nat :=
  before ← str_to (text t) end_;
  Done (str_len (drop_while_end is_whitespace before)).

Definition expand_word_around (t : TextArea) (inner : nat * nat) : run (nat * nat) :=
  following ← following_whitespace_end t inner.2;
  if inner.2 <? following then Done (inner.1, following)
  else
    start ← preceding_whitespace_start t inner.1;
    Done (start, inner.2).

Definition word_text_object_range (t : TextArea) (scope : VimTextObjectScope) (big_word : bool)
  : run (option (nat * nat)) :=
  inner ← (if big_word then Done (big_word_range_at_cursor t) else small_word_range_at_cursor t);
  match inner with
  | None => Done None
  | Some inner =>
      match scope with
      | Inner => Done (Some inner)
      | Around => around ← expand_word_around t inner; Done (Some around)
      end
  end.

Definition is_inside_element (t : TextArea) (pos : nat) : bool :=
  existsb (fun e => (elem_start e <=? pos) && (pos <? elem_end e)) (elements t).

(** A candidate replaces the best range when it is shorter. *)
Definition better_range (best : option (nat * nat)) (candidate : nat * nat) : option (nat * nat) :=
  if (candidate.1 <=? candidate.2)
     && match best with
        | None => true
        | Some current => candidate.2 - candidate.1 <? current.2 - current.1
        end
  then Some candidate else best.

Definition object_candidate (scope : VimTextObjectScope) (open_idx open_len close_idx close_len : nat)
  : nat * nat :=
  match scope with
  | Inner => (open_idx + open_len, close_idx)
  | Around => (open_idx, close_idx + close_len)
  end.

Definition around_cursor (t : TextArea) (open_idx close_idx : nat) : bool :=
  (open_idx <=? cursor_pos t) && (cursor_pos t <=? close_idx).

Fixpoint paired_loop (t : TextArea) (scope : VimTextObjectScope) (open close : N)
    (stack : list nat) (best : option (nat * nat)) (chars : list (nat * N)) : option (nat * nat) :=
  match chars with
  | [] => best
  | (idx, ch) :: rest =>
      if is_inside_element t idx then paired_loop t scope open close stack best rest
      else if (ch =? open)%N then paired_loop t scope open close (idx :: stack) best rest
      else if (ch =? close)%N then
        match stack with
        | [] => paired_loop t scope open close stack best rest
        | open_idx :: stack =>
            let best :=
              if around_cursor t open_idx idx
              then better_range best (object_candidate scope open_idx (len_utf8 open) idx (len_utf8 ch))
              else best in
            paired_loop t scope open close stack best rest
        end
      else paired_loop t scope open close stack best rest
  end.

Definition paired_text_object_range (t : TextArea) (scope : VimTextObjectScope) (open close : N)
  : option (nat * nat) :=
  paired_loop t scope open close [] None (char_indices (text t)).


Definition is_escaped (t : TextArea) (pos : nat) : run bool :=
  before ← str_to (text t) pos;
  Done (Nat.odd (length (take_while (N.eqb c_backslash) (reverse before)))).

Fixpoint quoted_loop (t : TextArea) (scope : VimTextObjectScope) (quote : N)
    (open : option nat) (best : option (nat * nat)) (chars : list (nat * N))
  : run (option (nat * nat)) :=
  match chars with
  | [] => Done best
  | (idx, ch) :: rest =>
      if is_inside_element t idx || negb (ch =? quote)%N
      then quoted_loop t scope quote open best rest
      else
        escaped ← is_escaped t idx;
        if (escaped : bool) then quoted_loop t scope quote open best rest
        else match open with
             | Some open_idx =>
                 let best :=
                   if around_cursor t open_idx idx
                   then better_range best
                          (object_candidate scope open_idx (len_utf8 quote) idx (len_utf8 quote))
                   else best in
                 quoted_loop t scope quote None best rest
             | None => quoted_loop t scope quote (Some idx) best rest
             end
  end.

Definition quoted_text_object_range (t : TextArea) (scope : VimTextObjectScope) (quote : N)
  : run (option (nat * nat)) :=
  bol ← beginning_of_current_line t;
  eol ← end_of_current_line t;
  line ← str_range (text t) bol eol;
  quoted_loop t scope quote None None (char_indices_from bol line).

Definition text_object_range (t : TextArea) (object : VimTextObject) (scope : VimTextObjectScope)
  : run (option (nat * nat)) :=
  match object with
  | Word => word_text_object_range t scope false
  | BigWord => word_text_object_range t scope true
  | Parentheses => Done (paired_text_object_range t scope 40 41)
  | Brackets => Done (paired_text_object_range t scope 91 93)
  | Braces => Done (paired_text_object_range t scope 123 125)
  | DoubleQuote => quoted_text_object_range t scope c_dquote
  | SingleQuote => quoted_text_object_range t scope 39
  | Backtick => quoted_text_object_range t scope 96
  end.

(** ** Operators *)

Definition apply_vim_operator_to_range (t : TextArea) (op : VimOperator) (start end_ : nat)
  : run TextArea :=
  match op with
  | Delete => kill_range t start end_
  | Yank => yank_range t start end_
  | Change => t ← kill_range t start end_; Done (set_vim_mode t Insert)
  end.

Definition linewise_range_for_vertical_motion (t : TextArea) (up : bool) : run (option (nat * nat)) :=
  current ← current_line_range_with_newline t;
  range ←
    (if up then
       start ← (if current.1 =? 0 then Done current.1 else beginning_of_line t (current.1 - 1));
       Done (start, current.2)
     else
       end_ ← (if str_len (text t) <=? current.2 then Done current.2
               else next_eol ← end_of_line t current.2;
                    Done (if next_eol <? str_len (text t) then next_eol + 1 else next_eol));
       Done (current.1, end_));
  Done (if range.1 <? range.2 then Some range else None).

(** The cursor is moved and put back. *)
Definition target_for_motion (t : TextArea) (motion : VimMotion) : run nat :=
  moved ← match motion with
          | MotionLeft => Done (move_cursor_left t)
          | MotionRight => Done (move_cursor_right t)
          | MotionUp => move_cursor_up t
          | MotionDown => move_cursor_down t
          | WordForward => p ← beginning_of_next_word t; Done (set_cursor t p)
          | WordBackward => p ← beginning_of_previous_word t; Done (set_cursor t p)
          | WordEnd => p ← vim_word_end_exclusive t; Done (set_cursor t p)
          | LineStart => p ← beginning_of_current_line t; Done (set_cursor t p)
          | LineEnd => p ← end_of_current_line t; Done (set_cursor t p)
          end;
  Done (cursor_pos moved).

Definition range_for_motion (t : TextArea) (motion : VimMotion) : run (option (nat * nat)) :=
  match motion with
  | MotionUp => linewise_range_for_vertical_motion t true
  | MotionDown => linewise_range_for_vertical_motion t false
  | _ =>
      let start := cursor_pos t in
      target ← target_for_motion t motion;
      Done (if start =? target then None
            else if target <? start then Some (target, start) else Some (start, target))
  end.

(** [cw]: to the end of the word, or over the blanks before the next one. *)
Definition change_word_forward (t : TextArea) : run TextArea :=
  after ← str_from (text t) (cursor_pos t);
  target ← (if match after with ch :: _ => negb (is_whitespace ch) | [] => false end
            then end_of_next_word t
            else
              next ← beginning_of_next_word t;
              eol ← end_of_current_line t;
              Done (Nat.min next eol));
  if cursor_pos t <? target then apply_vim_operator_to_range t Change (cursor_pos t) target
  else Done (set_vim_mode t Insert).

(** [cj] and [ck]: the lines are killed, and the newline after them is kept. *)
Definition change_lines (t : TextArea) (up : bool) (start end_ : nat) : run TextArea :=
  bol ← beginning_of_current_line t;
  eol ← end_of_current_line t;
  if (if up then bol =? 0 else eol =? str_len (text t)) then Done t
  else
    killed ← str_range (text t) start end_;
    let retain_newline := (end_ <? str_len (text t)) && ends_with [c_lf] killed in
    t ← kill_line_range t start end_;
    t ← (if retain_newline then
           t ← insert_str_at t start [c_lf]; Done (set_cursor t start)
         else Done t);
    Done (set_vim_mode t Insert).

Definition apply_vim_operator (t : TextArea) (op : VimOperator) (motion : VimMotion) : run TextArea :=
  match op, motion with
  | Change, WordForward => change_word_forward t
  | _, _ =>
      range ← range_for_motion t motion;
      match range with
      | None =>
          match op, motion with
          | Change, LineEnd => Done (set_vim_mode t Insert)
          | _, _ => Done t
          end
      | Some (start, end_) =>
          match op, motion with
          | Change, MotionUp => change_lines t true start end_
          | Change, MotionDown => change_lines t false start end_
          | _, _ => apply_vim_operator_to_range t op start end_
          end
      end
  end.

(** ** Character finds ([vim_commands.rs]) *)

Definition is_vim_command_target (t : TextArea) (position : nat) : bool :=
  negb (is_inside_element t position)
  && match is_boundary (text t) position with Ok b => b | Err _ => false end.

Definition starts_with_char (c : N) (s : rstr) : bool :=
  match s with x :: _ => (x =? c)%N | [] => false end.

Definition find_grapheme (t : TextArea) (base : nat) (target : N) (gs : list (nat * rstr))
  : option (nat * nat) :=
  (fun '(offset, grapheme) => (base + offset, base + offset + str_len grapheme))
  <$> List.find (fun '(offset, grapheme) => starts_with_char target grapheme
                                            && is_vim_command_target t (base + offset)) gs.

(** The range of the grapheme a find lands on. *)
Definition find_position (t : TextArea) (motion : VimFindMotion) (target : N)
  : run (option (nat * nat)) :=
  let origin := cursor_pos t in
  match motion with
  | Forward | TillForward =>
      line_end ← end_of_current_line t;
      if line_end <=? origin then Done None
      else
        let start := next_atomic_boundary t origin in
        line ← str_range (text t) start line_end;
        Done (find_grapheme t start target (grapheme_indices line))
  | Backward | TillBackward =>
      line_start ← beginning_of_current_line t;
      line ← str_range (text t) line_start origin;
      Done (find_grapheme t line_start target (reverse (grapheme_indices line)))
  end.

Definition find_vim_character (t : TextArea) (motion : VimFindMotion) (operator : option VimOperator)
    (target : N) : run (bool * TextArea) :=
  let origin := cursor_pos t in
  found ← find_position t motion target;
  match found with
  | None => Done (false, t)
  | Some (position_start, position_end) =>
      match operator with
      | Some operator =>
          let '(start, end_) :=
            match motion with
            | Forward => (origin, position_end)
            | Backward => (position_start, origin)
            | TillForward => (origin, position_start)
            | TillBackward => (position_end, origin)
            end in
          let t := match operator with Yank => set_cursor t start | _ => t end in
          t ← apply_vim_operator_to_range t operator start end_;
          Done (true, t)
      | None =>
          destination ←
            match motion with
            | Forward | Backward => Done position_start
            | TillForward =>
                before ← str_to (text t) position_start;
                let previous := match last (grapheme_indices before) with
                                | Some (offset, _) => offset
                                | None => origin
                                end in
                Done (match find_element_containing t previous with
                      | Some e => elem_start e
                      | None => previous
                      end)
            | TillBackward => Done position_end
            end;
          Done (true, set_cursor t destination)
      end
  end.

Definition jump_to_vim_buffer_line (t : TextArea) (to_last : bool) (operator : option VimOperator)
  : run TextArea :=
  match operator with
  | Some operator =>
      current ← current_line_range_with_newline t;
      let '(start, end_) := if to_last then (current.1, str_len (text t)) else (0, current.2) in
      match operator with
      | Delete => kill_line_range t start end_
      | Yank => yank_line_range t start end_
      | Change => t ← kill_line_range t start end_; Done (set_vim_mode t Insert)
      end
  | None =>
      start ← (if to_last then beginning_of_line t (str_len (text t)) else Done 0);
      let t := set_cursor t start in
      p ← first_non_blank_of_current_line t;
      Done (set_cursor t p)
  end.

(** ** Actions *)

Definition apply_insert_position (t : TextArea) (position : VimInsertPosition) : run TextArea :=
  let prior_len := str_len (text t) in
  t ← match position with
      | AtCursor => Done t
      | AfterCursor => Done (set_cursor t (next_atomic_boundary t (cursor_pos t)))
      | AtLineStart => p ← first_non_blank_of_current_line t; Done (set_cursor t p)
      | AtLineEnd => p ← end_of_current_line t; Done (set_cursor t p)
      | OpenAbove =>
          bol ← beginning_of_current_line t;
          t ← insert_str_at t bol [c_lf];
          Done (set_cursor t bol)
      | OpenBelow =>
          eol ← end_of_current_line t;
          let insert_at := if eol <? prior_len then eol + 1 else eol in
          t ← insert_str_at t insert_at [c_lf];
          Done (set_cursor t (if eol <? prior_len then insert_at else insert_at + 1))
      end;
  Done (set_vim_mode t Insert).

Definition enter_insert_if (b : bool) (t : TextArea) : TextArea := if b then set_vim_mode t Insert else t.

Definition is_change (op : VimOperator) : bool := match op with Change => true | _ => false end.

(** The edit of a delete or change; [None] is the early return without an edit. *)
Definition apply_edit_target (t : TextArea) (operator : VimOperator) (target : VimEditTarget)
  : run (option TextArea) :=
  match target with
  | TargetCharacter =>
      eol ← end_of_current_line t;
      t ← (if cursor_pos t <? eol then delete_forward_kill t 1 else Done t);
      Done (Some (enter_insert_if (is_change operator) t))
  | TargetLine =>
      match operator with
      | Delete => t ← kill_current_line t; Done (Some t)
      | _ =>
          bol ← beginning_of_current_line t;
          eol ← end_of_current_line t;
          t ← kill_line_range t bol eol;
          Done (Some (set_vim_mode t Insert))
      end
  | TargetLineEnd =>
      t ← vim_kill_to_end_of_line t;
      Done (Some (enter_insert_if (is_change operator) t))
  | TargetMotion motion => t ← apply_vim_operator t operator motion; Done (Some t)
  | TargetTextObject scope object =>
      range ← text_object_range t object scope;
      match range with
      | None => Done None
      | Some (start, end_) => t ← apply_vim_operator_to_range t operator start end_; Done (Some t)
      end
  | TargetFind motion target =>
      found ← find_vim_character t motion (Some operator) target;
      Done (if (found.1 : bool) then Some found.2 else None)
  | TargetBufferJump last => t ← jump_to_vim_buffer_line t last (Some operator); Done (Some t)
  end.

Definition apply_edit (t : TextArea) (operator : VimOperator) (target : VimEditTarget)
  : run (bool * TextArea) :=
  let prior_len := str_len (text t) in
  edited ← apply_edit_target t operator target;
  Done (match edited with
        | None => (false, t)
        | Some t =>
            if is_change operator then (bool_decide (vim_mode t = Insert), t)
            else (negb (str_len (text t) =? prior_len), t)
        end).

Definition apply_replace (t : TextArea) (ch : N) : run (bool * TextArea) :=
  eol ← end_of_current_line t;
  if eol <=? cursor_pos t then Done (false, t)
  else
    let start := cursor_pos t in
    t ← replace_range t start (next_atomic_boundary t start) [ch];
    Done (true, set_cursor t (start + (if is_lf ch then 1 else 0))).

Definition apply_vim_editor_action (t : TextArea) (action : VimAction) : run (bool * TextArea) :=
  let ok (m : run TextArea) : run (bool * TextArea) := t ← m; Done (true, t) in
  match action with
  | ActInsert position => ok (apply_insert_position t position)
  | ActDelete target => apply_edit t Delete target
  | ActChange target => apply_edit t Change target
  | ActReplace ch => apply_replace t ch
  | PasteAfter =>
      let prior_len := str_len (text t) in
      t ← paste_after_cursor t;
      Done (negb (str_len (text t) =? prior_len), t)
  | DeleteBackward => ok (delete_backward t 1)
  | DeleteForward => ok (delete_forward t 1)
  | DeleteBackwardWord => ok (delete_backward_word t)
  | DeleteForwardWord => ok (delete_forward_word t)
  | KillLineStart => ok (kill_to_beginning_of_line t)
  | KillLine => ok (kill_current_line t)
  | KillLineEnd => ok (kill_to_end_of_line t)
  | MoveLeft => ok (Done (move_cursor_left t))
  | MoveRight => ok (Done (move_cursor_right t))
  | MoveUp => ok (move_cursor_up t)
  | MoveDown => ok (move_cursor_down t)
  | MoveWordLeft => ok (p ← beginning_of_previous_word t; Done (set_cursor t p))
  | MoveWordRight => ok (p ← end_of_next_word t; Done (set_cursor t p))
  | MoveLineStart move_up_at_bol => ok (move_cursor_to_beginning_of_line t move_up_at_bol)
  | MoveLineEnd move_down_at_eol => ok (move_cursor_to_end_of_line t move_down_at_eol)
  end.

Definition is_deletion (action : VimAction) : bool :=
  match action with
  | DeleteBackward | DeleteForward | DeleteBackwardWord | DeleteForwardWord
  | KillLineStart | KillLine | KillLineEnd => true
  | _ => false
  end.

Definition apply_vim_insert_action (t : TextArea) (action : VimAction) : run TextArea :=
  let c := vim_commands t in
  let recording := vim_enabled t && bool_decide (vim_mode t = Insert) && negb (replaying c)
                   && negb (is_empty (pending_change c)) in
  let prior_len := str_len (text t) in
  applied ← apply_vim_editor_action t action;
  let t := applied.2 in
  let c := vim_commands t in
  let text_changed := negb (str_len (text t) =? prior_len) in
  let pending := if recording && (text_changed || negb (is_deletion action))
                 then pending_change c ++ [EditEditor action] else pending_change c in
  Done (set_vim_commands t
          (mkVimCommands pending (last_change c) (changed c || (recording && text_changed))
             (replaying c))).

Definition finish_pending_vim_change (t : TextArea) : TextArea :=
  let c := vim_commands t in
  set_vim_commands t
    (mkVimCommands [] (if changed c then pending_change c else last_change c) false (replaying c)).

Definition start_vim_edit (t : TextArea) (action : VimAction) : run (bool * TextArea) :=
  let prior_len := str_len (text t) in
  let c := vim_commands t in
  let t := set_vim_commands t
             (mkVimCommands [EditEditor action] (last_change c) false (replaying c)) in
  applied ← apply_vim_editor_action t action;
  let t := applied.2 in
  let c := vim_commands t in
  if negb applied.1 then
    Done (false, set_vim_commands t (mkVimCommands [] (last_change c) (changed c) (replaying c)))
  else
    let now_changed := negb (str_len (text t) =? prior_len)
                       || match action with ActReplace _ => true | _ => false end in
    let t := set_vim_commands t
               (mkVimCommands (pending_change c) (last_change c) now_changed (replaying c)) in
    Done (true, match vim_mode t with Normal => finish_pending_vim_change t | Insert => t end).

(** A started edit whose result is not used. *)
Definition vim_edit (t : TextArea) (action : VimAction) : run TextArea :=
  started ← start_vim_edit t action; Done started.2.

(** ** Repetition of the last change *)

Definition vim_repeat_actions (t : TextArea) : option (list VimEdit) :=
  let l := last_change (vim_commands t) in if is_empty l then None else Some l.

Definition set_replaying (t : TextArea) (b : bool) : TextArea :=
  let c := vim_commands t in
  set_vim_commands t (mkVimCommands (pending_change c) (last_change c) (changed c) b).

Definition apply_vim_edit (t : TextArea) (edit : VimEdit) : run (bool * TextArea) :=
  match edit with
  | EditEditor action => apply_vim_editor_action t action
  | EditText s =>
      match vim_mode t with
      | Insert => t ← insert_str t s; Done (true, t)
      | Normal => Done (false, t)
      end
  end.

Fixpoint apply_vim_edits (t : TextArea) (edits : list VimEdit) : run TextArea :=
  match edits with
  | [] => Done t
  | edit :: rest =>
      applied ← apply_vim_edit t edit;
      if (applied.1 : bool) then apply_vim_edits applied.2 rest else Done applied.2
  end.

Definition finish_vim_repeat (t : TextArea) : run TextArea :=
  t ← match vim_mode t with Insert => leave_vim_insert_mode t | Normal => Done t end;
  Done (set_replaying (set_vim_pending t PendingNone) false).

Definition repeat_last_change (t : TextArea) : run TextArea :=
  match vim_repeat_actions t with
  | None => Done t
  | Some edits =>
      t ← apply_vim_edits (set_replaying t true) edits;
      finish_vim_repeat t
  end.

(** ** Keys of the normal mode *)

Definition vim_command_char (e : KeyEvent) : option N :=
  match code e with
  | Enter => Some c_lf
  | Char ch =>
      if (modifiers e =? NONE)%N then Some ch
      else if (modifiers e =? SHIFT)%N
      then Some (if is_ascii_lowercase ch then (ch - 32)%N else ch)
      else if is_altgr (modifiers e) then Some ch
      else None
  | _ => None
  end.

Definition start_vim_find (t : TextArea) (motion : VimFindMotion) (operator : option VimOperator)
  : TextArea :=
  set_vim_pending t (PendingFind motion operator).

Definition handle_vim_extra_command (t : TextArea) (e : KeyEvent) : run TextArea :=
  let k := vim_normal_keymap (keymaps t) in
  eol ← (if is_pressed (vn_replace_char k) e then end_of_current_line t else Done 0);
  if is_pressed (vn_replace_char k) e && (cursor_pos t <? eol)
  then Done (set_vim_pending t PendingReplace)
  else if is_pressed (vn_repeat_last_change k) e then repeat_last_change t
  else if is_pressed (vn_find_forward k) e then Done (start_vim_find t Forward None)
  else if is_pressed (vn_find_backward k) e then Done (start_vim_find t Backward None)
  else if is_pressed (vn_till_forward k) e then Done (start_vim_find t TillForward None)
  else if is_pressed (vn_till_backward k) e then Done (start_vim_find t TillBackward None)
  else if is_pressed (vn_jump_top k) e then jump_to_vim_buffer_line t false None
  else if is_pressed (vn_jump_bottom k) e then jump_to_vim_buffer_line t true None
  else Done t.

Definition operator_edit (t : TextArea) (op : VimOperator) (target : VimEditTarget)
    (yank_it : run TextArea) : run TextArea :=
  match op with
  | Delete => vim_edit t (ActDelete target)
  | Change => vim_edit t (ActChange target)
  | Yank => yank_it
  end.

Definition handle_vim_operator_command (t : TextArea) (op : VimOperator) (e : KeyEvent)
  : run TextArea :=
  let k := vim_operator_keymap (keymaps t) in
  if is_pressed (vo_motion_find_forward k) e then Done (start_vim_find t Forward (Some op))
  else if is_pressed (vo_motion_find_backward k) e then Done (start_vim_find t Backward (Some op))
  else if is_pressed (vo_motion_till_forward k) e then Done (start_vim_find t TillForward (Some op))
  else if is_pressed (vo_motion_till_backward k) e then Done (start_vim_find t TillBackward (Some op))
  else if is_pressed (vo_motion_jump_top k) e || is_pressed (vo_motion_jump_bottom k) e then
    let to_last := is_pressed (vo_motion_jump_bottom k) e in
    operator_edit t op (TargetBufferJump to_last) (jump_to_vim_buffer_line t to_last (Some op))
  else Done t.

Definition handle_vim_pending_command (t : TextArea) (pending : VimPending) (e : KeyEvent)
  : run TextArea :=
  match pending, vim_command_char e with
  | PendingReplace, Some ch => vim_edit t (ActReplace ch)
  | PendingFind motion (Some Delete), Some ch => vim_edit t (ActDelete (TargetFind motion ch))
  | PendingFind motion (Some Change), Some ch => vim_edit t (ActChange (TargetFind motion ch))
  | PendingFind motion operator, Some ch =>
      found ← find_vim_character t motion operator ch; Done found.2
  | _, _ => Done t
  end.

Definition vim_motion_for_event (t : TextArea) (e : KeyEvent) : option VimMotion :=
  let k := vim_operator_keymap (keymaps t) in
  if is_pressed (vo_motion_left k) e then Some MotionLeft
  else if is_pressed (vo_motion_right k) e then Some MotionRight
  else if is_pressed (vo_motion_down k) e then Some MotionDown
  else if is_pressed (vo_motion_up k) e then Some MotionUp
  else if is_pressed (vo_motion_word_forward k) e then Some WordForward
  else if is_pressed (vo_motion_word_backward k) e then Some WordBackward
  else if is_pressed (vo_motion_word_end k) e then Some WordEnd
  else if is_pressed (vo_motion_line_start k) e then Some LineStart
  else if is_pressed (vo_motion_line_end k) e then Some LineEnd
  else None.

Definition handle_vim_operator (t : TextArea) (op : VimOperator) (e : KeyEvent) : run TextArea :=
  let k := vim_operator_keymap (keymaps t) in
  if bool_decide (op = Delete) && is_pressed (vo_delete_line k) e
  then vim_edit t (ActDelete TargetLine)
  else if bool_decide (op = Yank) && is_pressed (vo_yank_line k) e then yank_current_line t
  else if is_pressed (vo_cancel k) e then Done t
  else match vim_text_object_scope_for_event t e with
       | Some scope => Done (set_vim_pending t (PendingTextObject op scope))
       | None =>
           match vim_motion_for_event t e with
           | Some motion => operator_edit t op (TargetMotion motion) (apply_vim_operator t op motion)
           | None =>
               if is_change op && is_pressed (vn_start_change_operator (vim_normal_keymap (keymaps t))) e
               then vim_edit t (ActChange TargetLine)
               else handle_vim_operator_command t op e
           end
       end.

Definition handle_vim_text_object (t : TextArea) (op : VimOperator) (scope : VimTextObjectScope)
    (e : KeyEvent) : run TextArea :=
  if is_pressed (vt_cancel (vim_text_object_keymap (keymaps t))) e then Done t
  else match vim_text_object_for_event t e with
       | None => Done t
       | Some object =>
           operator_edit t op (TargetTextObject scope object)
             (range ← text_object_range t object scope;
              match range with
              | Some (start, end_) => apply_vim_operator_to_range t op start end_
              | None => Done t
              end)
       end.

Definition handle_vim_command (t : TextArea) (e : KeyEvent) : run TextArea :=
  let k := vim_normal_keymap (keymaps t) in
  let jump (target : run nat) : run TextArea := p ← target; Done (set_cursor t p) in
  if is_pressed (vn_enter_insert k) e then vim_edit t (ActInsert AtCursor)
  else if is_pressed (vn_append_after_cursor k) e then vim_edit t (ActInsert AfterCursor)
  else if is_pressed (vn_append_line_end k) e then vim_edit t (ActInsert AtLineEnd)
  else if is_pressed (vn_insert_line_start k) e then vim_edit t (ActInsert AtLineStart)
  else if is_pressed (vn_open_line_below k) e then vim_edit t (ActInsert OpenBelow)
  else if is_pressed (vn_open_line_above k) e then vim_edit t (ActInsert OpenAbove)
  else if is_pressed (vn_move_left k) e then Done (move_cursor_left t)
  else if is_pressed (vn_move_right k) e then Done (move_cursor_right t)
  else if is_pressed (vn_move_down k) e then move_cursor_down t
  else if is_pressed (vn_move_up k) e then move_cursor_up t
  else if is_pressed (vn_move_word_forward k) e then jump (beginning_of_next_word t)
  else if is_pressed (vn_move_word_backward k) e then jump (beginning_of_previous_word t)
  else if is_pressed (vn_move_word_end k) e then jump (vim_word_end_cursor t)
  else if is_pressed (vn_move_line_start k) e then jump (beginning_of_current_line t)
  else if is_pressed (vn_move_line_end k) e then jump (vim_line_end_cursor t)
  else if is_pressed (vn_delete_char k) e then vim_edit t (ActDelete TargetCharacter)
  else if is_pressed (vn_substitute_char k) e then vim_edit t (ActChange TargetCharacter)
  else if is_pressed (vn_delete_to_line_end k) e then vim_edit t (ActDelete TargetLineEnd)
  else if is_pressed (vn_change_to_line_end k) e then vim_edit t (ActChange TargetLineEnd)
  else if is_pressed (vn_yank_line k) e then yank_current_line t
  else if is_pressed (vn_paste_after k) e then vim_edit t PasteAfter
  else if is_pressed (vn_start_delete_operator k) e then Done (set_vim_pending t (PendingOperator Delete))
  else if is_pressed (vn_start_yank_operator k) e then Done (set_vim_pending t (PendingOperator Yank))
  else if is_pressed (vn_start_change_operator k) e then Done (set_vim_pending t (PendingOperator Change))
  else if is_pressed (vn_cancel_operator k) e then Done (set_vim_pending t PendingNone)
  else handle_vim_extra_command t e.

Definition handle_vim_normal (t : TextArea) (e : KeyEvent) : run TextArea :=
  let pending := vim_pending t in
  let t := set_vim_pending t PendingNone in
  match pending with
  | PendingNone => handle_vim_command t e
  | PendingOperator op => handle_vim_operator t op e
  | PendingTextObject operator scope => handle_vim_text_object t operator scope e
  | PendingReplace | PendingFind _ _ => handle_vim_pending_command t pending e
  end.

(** ** Keys of the editor *)

Definition is_ctrl_char (c : N) (e : KeyEvent) : bool :=
  bool_decide (code e = Char c) && (modifiers e =? CONTROL)%N.

(** The actions of the editor keymap, in the order in which it is consulted
    after the newline, the backward word and text typed with AltGr. *)
Definition editor_action (k : EditorKeymap) (e : KeyEvent) : option (option VimAction) :=
  if is_pressed (ed_delete_backward k) e then Some (Some DeleteBackward)
  else if is_pressed (ed_delete_forward_word k) e then Some (Some DeleteForwardWord)
  else if is_pressed (ed_delete_forward k) e then Some (Some DeleteForward)
  else if is_pressed (ed_kill_line_start k) e then Some (Some KillLineStart)
  else if is_pressed (ed_kill_whole_line k) e then Some (Some KillLine)
  else if is_pressed (ed_kill_line_end k) e then Some (Some KillLineEnd)
  else if is_pressed (ed_yank k) e then Some None
  else if is_pressed (ed_move_word_left k) e then Some (Some MoveWordLeft)
  else if is_pressed (ed_move_word_right k) e then Some (Some MoveWordRight)
  else if is_pressed (ed_move_left k) e then Some (Some MoveLeft)
  else if is_pressed (ed_move_right k) e then Some (Some MoveRight)
  else if is_pressed (ed_move_up k) e then Some (Some MoveUp)
  else if is_pressed (ed_move_down k) e then Some (Some MoveDown)
  else if is_pressed (ed_move_line_start k) e then Some (Some (MoveLineStart (is_ctrl_char 97 e)))
  else if is_pressed (ed_move_line_end k) e then Some (Some (MoveLineEnd (is_ctrl_char 101 e)))
  else None.

Definition input_with_keymap (t : TextArea) (e : KeyEvent) (k : EditorKeymap) : run TextArea :=
  if is_pressed (ed_insert_newline k) e then insert_str t [c_lf]
  else if is_pressed (ed_delete_backward_word k) e then apply_vim_insert_action t DeleteBackwardWord
  else match code e, is_altgr (modifiers e) with
       | Char c, true => insert_str t [c]
       | _, _ =>
           match editor_action k e with
           | Some (Some action) => apply_vim_insert_action t action
           | Some None => yank t
           | None =>
               match code e with
               | Char c =>
                   if ((modifiers e =? NONE)%N || (modifiers e =? SHIFT)%N) && negb (is_ascii_control c)
                   then insert_str t [c] else Done t
               | _ => Done t
               end
           end
       end.

Definition handle_vim_insert (t : TextArea) (e : KeyEvent) : run TextArea :=
  match code e with
  | Esc => leave_vim_insert_mode t
  | _ => input_with_keymap t e (editor_keymap (keymaps t))
  end.

Definition handle_vim_input (t : TextArea) (e : KeyEvent) : run TextArea :=
  let prior_mode := vim_mode t in
  t ← match vim_mode t with
      | Insert => handle_vim_insert t e
      | Normal => handle_vim_normal t e
      end;
  Done (match prior_mode, vim_mode t with
        | Insert, Normal => finish_pending_vim_change t
        | _, _ => t
        end).

Definition input (t : TextArea) (e : KeyEvent) : run TextArea :=
  if negb (is_press_or_repeat (event_kind e)) then Done t
  else if vim_enabled t then handle_vim_input t e
  else input_with_keymap t e (editor_keymap (keymaps t)).

End vim.
