(* ===== verification/TextAreaInv.v ===== *)
(** * TextAreaInv: the invariant of the text area and its editing operations

    The laws of the segmentation, the invariant [inv], and that every operation
    of TextArea.v keeps it without a panic. *)

From Stdlib Require Import Lia Sorting.Sorted.
From stdpp Require Import base list sets strings.
From S2P Require Import Prelude TextPos Keys TextArea.

Open Scope rust_scope.

(** ** Laws of the segmentation

    A grapheme cursor over the whole text needs no further context and moves to
    a character boundary on the side asked for; a line feed is a cluster of its
    own unless a carriage return precedes it (rules GB3 to GB5 of the Unicode
    text segmentation); segments make up the text; a visual row covers its
    sentinel byte and starts and ends on character boundaries. *)
Definition row_ok (s : rstr) (row : nat * nat) : Prop :=
  row.1 < row.2 /\ boundary s row.1 /\ boundary s (row.2 - 1).

Class SegmentationLaws `{Segmentation} : Prop := {
  prev_boundary_law s p :
    boundary s p -> exists r, prev_boundary s p = Ok r /\
    forall q, r = Some q -> boundary s q /\ q <= p;
  next_boundary_law s p :
    boundary s p -> exists r, next_boundary s p = Ok r
    /\ (forall q, r = Some q -> boundary s q /\ p <= q) /\ (r = None -> p = str_len s);
  next_boundary_line a x b q :
    x <> [] -> c_cr ∉ x -> next_boundary (a ++ x ++ c_lf :: b) (str_len a) = Ok (Some q) ->
    q <= str_len a + str_len x;
  graphemes_law s : concat (graphemes s) = s;
  word_bounds_law s : concat (word_bounds s) = s;
  wrapped_lines_law s w : Forall (row_ok s) (wrapped_lines s w)
}.

(** ** Pairwise properties of lists *)
Section pairwise.
Context {A : Type} (R : A -> A -> Prop).

Lemma pairwise_filter (p : A -> bool) l : ForallOrdPairs R l -> ForallOrdPairs R (List.filter p l).
Proof.
  induction 1 as [|x l Hx Hl IH]; simpl; [constructor|]. destruct (p x); [|done].
  constructor; [|done]. apply List.Forall_forall. intros y [Hy _]%List.filter_In.
  by apply (proj1 (List.Forall_forall _ _) Hx).
Qed.

Lemma pairwise_perm l k : (forall x y, R x y -> R y x) -> l ≡ₚ k -> ForallOrdPairs R l -> ForallOrdPairs R k.
Proof.
  intros Hsym. induction 1 as [|x l k Hlk IH|x y l|]; intros HR; [done| | |auto].
  - inversion_clear HR as [|? ? Hx Hl]. constructor; [by rewrite <- Hlk|auto].
  - inversion_clear HR as [|? ? Hx Hl]. inversion_clear Hl as [|? ? Hy Hl'].
    inversion_clear Hx as [|? ? Hxy Hx']. constructor; [constructor; auto|by constructor].
Qed.

Lemma pairwise_elem l x y :
  ForallOrdPairs R l -> x ∈ l -> y ∈ l -> x = y \/ R x y \/ R y x.
Proof.
  induction 1 as [|z l Hz Hl IH]; [by intros ?%elem_of_nil|].
  rewrite Forall_forall in Hz. intros [->|Hx]%elem_of_cons [->|Hy]%elem_of_cons; auto.
Qed.
End pairwise.

Lemma pairwise_map {A B} (R : A -> A -> Prop) (S : B -> B -> Prop) (P : A -> Prop) (f : A -> B) l :
  (forall x y, P x -> P y -> R x y -> S (f x) (f y)) ->
  Forall P l -> ForallOrdPairs R l -> ForallOrdPairs S (f <$> l).
Proof.
  intros HRS HP. induction 1 as [|x l Hx Hl IH]; [constructor|].
  inversion_clear HP as [|? ? Px Pl]. constructor; [|auto].
  apply Forall_fmap. rewrite Forall_forall in *. unfold compose. intros y Hy. apply HRS; auto.
Qed.

(** ** Elements *)

Definition elem_ok (s : rstr) (e : Element) : Prop :=
  elem_start e <= elem_end e /\ boundary s (elem_start e) /\ boundary s (elem_end e).

Definition disjoint_elems (e f : Element) : Prop :=
  elem_end e <= elem_start f \/ elem_end f <= elem_start e.

Definition elements_ok (s : rstr) (es : list Element) : Prop :=
  Forall (elem_ok s) es /\ ForallOrdPairs disjoint_elems es.

(** A position that is not strictly inside an element. *)
Definition outside (es : list Element) (p : nat) : Prop :=
  forall e, e ∈ es -> p <= elem_start e \/ elem_end e <= p.

Lemma disjoint_elems_sym e f : disjoint_elems e f -> disjoint_elems f e.
Proof. unfold disjoint_elems. tauto. Qed.

Lemma elements_ok_perm s es fs : es ≡ₚ fs -> elements_ok s es -> elements_ok s fs.
Proof.
  intros Hp [He Hd]. split; [by rewrite <- Hp|].
  eapply pairwise_perm; eauto using disjoint_elems_sym.
Qed.

Lemma elements_ok_filter s p es : elements_ok s es -> elements_ok s (List.filter p es).
Proof.
  intros [He Hd]. split; [|by apply pairwise_filter].
  apply List.Forall_forall. intros e [Hin _]%List.filter_In. by apply (proj1 (List.Forall_forall _ _) He).
Qed.

Lemma elements_ok_snoc s es e :
  elements_ok s es -> elem_ok s e -> Forall (disjoint_elems e) es -> elements_ok s (es ++ [e]).
Proof.
  intros [He Hd] Hok Hdis. eapply elements_ok_perm; [apply Permutation_cons_append|].
  split; by constructor.
Qed.

Lemma elem_in_ok s es e : elements_ok s es -> e ∈ es -> elem_ok s e.
Proof. intros [He _] Hin. by apply (proj1 (Forall_forall _ _) He). Qed.

(** The edges of an element are outside all elements. *)
Lemma outside_edges s es e :
  elements_ok s es -> e ∈ es -> outside es (elem_start e) /\ outside es (elem_end e).
Proof.
  intros Hok Hin. pose proof (elem_in_ok _ _ _ Hok Hin) as (Hle & _ & _). destruct Hok as [_ Hd].
  split; intros f Hf; destruct (pairwise_elem _ _ e f Hd Hin Hf) as [->|Hor]; try lia;
    unfold disjoint_elems in Hor; lia.
Qed.

Lemma find_elem (p : Element -> bool) es e : List.find p es = Some e -> e ∈ es /\ p e = true.
Proof. intros [Hin Hp]%List.find_some. by split; [apply list_elem_of_In|]. Qed.

Lemma find_element_containing_Some t p e :
  find_element_containing t p = Some e -> e ∈ elements t /\ elem_start e < p < elem_end e.
Proof. intros [Hin Hp]%find_elem. destruct_bools. split; [done|lia]. Qed.

Lemma find_element_containing_None t p :
  find_element_containing t p = None -> outside (elements t) p.
Proof.
  intros H e Hin%list_elem_of_In. apply (List.find_none _ _ H) in Hin.
  apply andb_false_iff in Hin as [Hin|Hin]; destruct_bools; lia.
Qed.

(** ** Clamping *)

Lemma prev_char_boundary_ok s p : boundary s (prev_char_boundary s p).
Proof.
  induction p as [|p IH]; simpl; [apply boundary_0|].
  destruct (is_char_boundary s (S p)) eqn:E; [by apply is_char_boundary_true|done].
Qed.

Lemma next_char_boundary_ok s l p :
  p + l = str_len s -> boundary s (next_char_boundary s l p).
Proof.
  revert p. induction l as [|l IH]; intros p Hp; simpl.
  - replace p with (str_len s) by lia. apply boundary_len.
  - destruct (is_char_boundary s p) eqn:E; [by apply is_char_boundary_true|]. apply IH. lia.
Qed.

Lemma clamp_to_char_boundary_ok s p : boundary s (clamp_to_char_boundary_in s p).
Proof.
  unfold clamp_to_char_boundary_in.
  destruct (is_char_boundary s _) eqn:E; [by apply is_char_boundary_true|].
  destruct (_ <=? _); [apply prev_char_boundary_ok|apply next_char_boundary_ok; lia].
Qed.

Lemma clamp_to_char_boundary_id s p : boundary s p -> clamp_to_char_boundary_in s p = p.
Proof.
  intros H. unfold clamp_to_char_boundary_in. rewrite Nat.min_l by by apply boundary_le.
  by rewrite (proj2 (is_char_boundary_true _ _) H).
Qed.

Lemma clamp_nearest_ok t p :
  elements_ok (text t) (elements t) ->
  boundary (text t) (clamp_pos_to_nearest_boundary t p)
  /\ outside (elements t) (clamp_pos_to_nearest_boundary t p).
Proof.
  intros Hok. unfold clamp_pos_to_nearest_boundary, clamp_pos_to_char_boundary.
  destruct (find_element_containing t _) as [e|] eqn:E.
  - apply find_element_containing_Some in E as [Hin _].
    destruct (elem_in_ok _ _ _ Hok Hin) as (_ & Hs & He).
    destruct (outside_edges _ _ _ Hok Hin).
    by destruct (_ <=? _); rewrite clamp_to_char_boundary_id.
  - split; [apply clamp_to_char_boundary_ok|by apply find_element_containing_None].
Qed.

Lemma clamp_for_insertion_nearest t p :
  clamp_pos_for_insertion t p = clamp_pos_to_nearest_boundary t p.
Proof. done. Qed.

(** A boundary outside the elements is left alone. *)
Lemma clamp_nearest_id t p :
  boundary (text t) p -> outside (elements t) p -> clamp_pos_to_nearest_boundary t p = p.
Proof.
  intros Hb Ho. unfold clamp_pos_to_nearest_boundary, clamp_pos_to_char_boundary.
  rewrite clamp_to_char_boundary_id by done.
  destruct (find_element_containing t p) as [e|] eqn:E; [|done].
  apply find_element_containing_Some in E as [Hin H]. destruct (Ho e Hin); lia.
Qed.

(** ** Expanding a range to whole elements *)

Definition contained (a b : nat) (e : Element) : Prop := a <= elem_start e /\ elem_end e <= b.

(** No element crosses an edge of the range. *)
Definition clean (a b : nat) (e : Element) : Prop :=
  elem_end e <= a \/ b <= elem_start e \/ contained a b e.

Definition containedb (a b : nat) (e : Element) : bool := (a <=? elem_start e) && (elem_end e <=? b).

Definition crossing_count (es : list Element) (a b : nat) : nat :=
  length (List.filter (fun e => negb (containedb a b e)) es).

Lemma containedb_mono a b a' b' e :
  a' <= a -> b <= b' -> containedb a b e = true -> containedb a' b' e = true.
Proof. unfold containedb. intros. destruct_bools. apply andb_true_iff. rewrite !Nat.leb_le. lia. Qed.

Lemma crossing_count_mono es a b a' b' :
  a' <= a -> b <= b' -> crossing_count es a' b' <= crossing_count es a b.
Proof.
  intros Ha Hb. unfold crossing_count. induction es as [|e es IH]; simpl; [done|].
  destruct (containedb a b e) eqn:E; simpl.
  - by rewrite (containedb_mono _ _ _ _ _ Ha Hb E).
  - destruct (containedb a' b' e); simpl; lia.
Qed.

Lemma crossing_count_lt es a b a' b' e :
  a' <= a -> b <= b' -> e ∈ es -> containedb a b e = false -> containedb a' b' e = true ->
  crossing_count es a' b' < crossing_count es a b.
Proof.
  intros Ha Hb Hin Hno Hyes. apply list_elem_of_split in Hin as (l & k & ->).
  unfold crossing_count. rewrite !List.filter_app. simpl. rewrite Hno, Hyes. simpl.
  rewrite !length_app. simpl.
  pose proof (crossing_count_mono l a b a' b' Ha Hb).
  pose proof (crossing_count_mono k a b a' b' Ha Hb). unfold crossing_count in *. lia.
Qed.

(** A pass from a state: the range only grows; if it reports a change, an
    element that crossed is now contained; if not, nothing moved. *)
Lemma expand_pass_ok es a b c a' b' c' :
  foldl expand_step (a, b, c) es = (a', b', c') ->
  a' <= a /\ b <= b'
  /\ (c' = true -> c = true \/ exists e, e ∈ es /\ containedb a b e = false /\ containedb a' b' e = true)
  /\ (c' = false -> c = false /\ a' = a /\ b' = b /\ Forall (clean a b) es).
Proof.
  revert a b c. induction es as [|e es IH]; intros a b c; cbn [foldl].
  { intros [= -> -> ->]. auto 7. }
  unfold expand_step at 2. destruct ((elem_start e <? b) && (a <? elem_end e)) eqn:Ei.
  - destruct (negb (Nat.min a (elem_start e) =? a) || negb (Nat.max b (elem_end e) =? b)) eqn:Em;
      intros Hf; destruct (IH _ _ _ Hf) as (Ha & Hb & Hc & Hn).
    + split; [lia|]. split; [lia|]. split; [|intros ->; by destruct (Hn eq_refl) as [? _]].
      intros _. right. exists e. split; [by apply elem_of_cons; left|]. split.
      * unfold containedb. apply andb_false_iff. rewrite !Nat.leb_gt.
        apply orb_true_iff in Em as [Em|Em]; destruct_bools; lia.
      * apply (containedb_mono (Nat.min a (elem_start e)) (Nat.max b (elem_end e))); [done..|].
        unfold containedb. apply andb_true_iff. rewrite !Nat.leb_le. lia.
    + destruct_bools. do 2 (split; [done|]). split.
      * intros Hc'. destruct (Hc Hc') as [?|(f & ? & ?)]; [by left|]. right.
        exists f. split; [by apply elem_of_cons; right|done].
      * intros Hc'. destruct (Hn Hc') as (? & ? & ? & ?). repeat (split; [done|]).
        constructor; [|done]. right. right. unfold contained. lia.
  - intros Hf. destruct (IH _ _ _ Hf) as (Ha & Hb & Hc & Hn). do 2 (split; [done|]). split.
    + intros Hc'. destruct (Hc Hc') as [?|(f & ? & ?)]; [by left|]. right.
        exists f. split; [by apply elem_of_cons; right|done].
    + intros Hc'. destruct (Hn Hc') as (? & ? & ? & ?). repeat (split; [done|]).
      constructor; [|done]. apply andb_false_iff in Ei as [Ei|Ei]; destruct_bools; unfold clean; lia.
Qed.

(** Every pass that changes the range takes in an element, so the passes are
    enough and no element crosses the result. *)
Lemma expand_loop_ok n es a b a' b' :
  crossing_count es a b < n -> expand_loop n es a b = (a', b') ->
  a' <= a /\ b <= b' /\ Forall (clean a' b') es.
Proof.
  revert a b. induction n as [|n IH]; intros a b Hn; [lia|]. simpl. unfold expand_pass.
  destruct (foldl expand_step (a, b, false) es) as [[a1 b1] c1] eqn:Hf.
  apply expand_pass_ok in Hf as (Ha & Hb & Hc & Hcl). destruct c1.
  - intros Hl. destruct (Hc eq_refl) as [?|(e & Hin & H1 & H2)]; [done|].
    apply IH in Hl as (? & ? & ?); [repeat split; try done; lia|].
    pose proof (crossing_count_lt es a b a1 b1 e Ha Hb Hin H1 H2). lia.
  - intros [= -> ->]. by destruct (Hcl eq_refl) as (_ & -> & -> & ?).
Qed.

Lemma expand_step_boundary s st e :
  elem_ok s e -> boundary s st.1.1 -> boundary s st.1.2 ->
  boundary s (expand_step st e).1.1 /\ boundary s (expand_step st e).1.2.
Proof.
  destruct st as [[a b] c]. intros (_ & Hs & He) Ha Hb. unfold expand_step. simpl in *.
  destruct (_ && _); [|done]. destruct (_ || _); [|done]. simpl.
  split; [destruct (Nat.min_dec a (elem_start e)) as [->| ->]|
          destruct (Nat.max_dec b (elem_end e)) as [->| ->]]; done.
Qed.

Lemma expand_loop_boundary s n es a b a' b' :
  Forall (elem_ok s) es -> boundary s a -> boundary s b -> expand_loop n es a b = (a', b') ->
  boundary s a' /\ boundary s b'.
Proof.
  intros Hes. revert a b. induction n as [|n IH]; intros a b Ha Hb; simpl; [by intros [= <- <-]|].
  unfold expand_pass.
  assert (Hpass : forall st, boundary s st.1.1 -> boundary s st.1.2 ->
            boundary s (foldl expand_step st es).1.1 /\ boundary s (foldl expand_step st es).1.2).
  { clear -Hes. induction Hes as [|e es He Hes IH]; intros st H1 H2; simpl; [done|].
    destruct (expand_step_boundary s st e He H1 H2). by apply IH. }
  destruct (Hpass (a, b, false) Ha Hb) as [H1 H2].
  destruct (foldl expand_step _ es) as [[a1 b1] []]; simpl in *; [eauto|by intros [= <- <-]].
Qed.

Lemma expand_range_ok t a b a' b' :
  elements_ok (text t) (elements t) -> boundary (text t) a -> boundary (text t) b ->
  expand_range_to_element_boundaries t a b = (a', b') ->
  a' <= a /\ b <= b' /\ boundary (text t) a' /\ boundary (text t) b' /\ Forall (clean a' b') (elements t).
Proof.
  intros [Hes _] Ha Hb Hex. unfold expand_range_to_element_boundaries in Hex.
  assert (Hn : crossing_count (elements t) a b < S (length (elements t))).
  { unfold crossing_count.
    pose proof (List.filter_length_le (fun e => negb (containedb a b e)) (elements t)). lia. }
  destruct (expand_loop_ok _ _ _ _ _ _ Hn Hex) as (? & ? & ?).
  destruct (expand_loop_boundary _ _ _ _ _ _ _ Hes Ha Hb Hex). done.
Qed.

(** ** Elements under an edit *)

(** An element that lay before the edit and stayed, or after it and moved. *)
Definition moved (at_ removed inserted : nat) (e e' : Element) : Prop :=
  elem_id e' = elem_id e
  /\ ((elem_end e <= at_ /\ elem_start e' = elem_start e /\ elem_end e' = elem_end e)
      \/ (at_ + removed <= elem_start e
          /\ elem_start e' = shifted (elem_start e) removed inserted
          /\ elem_end e' = shifted (elem_end e) removed inserted)).

Lemma moved_disjoint at_ removed inserted e f e' f' :
  elem_start e <= elem_end e -> elem_start f <= elem_end f ->
  moved at_ removed inserted e e' -> moved at_ removed inserted f f' ->
  disjoint_elems e f -> disjoint_elems e' f'.
Proof.
  unfold disjoint_elems, shifted. intros ? ? [_ [(? & -> & ->)|(? & -> & ->)]]
    [_ [(? & -> & ->)|(? & -> & ->)]]; unfold shifted; lia.
Qed.

(** After an edit that no element crosses, every element is such an element. *)
Lemma shift_elem_inv es at_ removed inserted e' :
  Forall (clean at_ (at_ + removed)) es -> e' ∈ shift_elements es at_ removed inserted ->
  exists e, e ∈ es /\ moved at_ removed inserted e e'.
Proof.
  intros Hcl. unfold shift_elements. intros (e & -> & Hin)%list_elem_of_fmap.
  apply list_elem_of_In, List.filter_In in Hin as [Hin Hkeep]. apply list_elem_of_In in Hin.
  exists e. split; [done|]. apply negb_true_iff, andb_false_iff in Hkeep. unfold moved.
  pose proof (proj1 (Forall_forall _ _) Hcl e Hin) as Hce.
  destruct (Nat.leb_spec (elem_end e) at_); [by auto|].
  destruct (Nat.leb_spec (at_ + removed) (elem_start e)); [by auto|].
  exfalso. unfold clean, contained in Hce. destruct Hkeep; destruct_bools; lia.
Qed.

Section edit.
Context (a m b s : rstr).
Let old := a ++ m ++ b.
Let new := a ++ s ++ b.

Lemma moved_ok e e' :
  elem_ok old e -> moved (str_len a) (str_len m) (str_len s) e e' -> elem_ok new e'.
Proof.
  intros (? & ? & ?) [_ [(? & Hs & He)|(? & Hs & He)]]; unfold elem_ok; rewrite Hs, He.
  - split; [done|]. split; eapply boundary_replace_before; try done; lia.
  - unfold shifted. split; [lia|]. split; apply boundary_replace_after; try done; lia.
Qed.

(** Such an element keeps its text. *)
Lemma moved_payload e e' :
  elem_ok old e -> moved (str_len a) (str_len m) (str_len s) e e' ->
  str_get new (elem_start e') (elem_end e') = str_get old (elem_start e) (elem_end e).
Proof.
  intros (Hle & Hs & Hend) [_ Hor].
  destruct (boundaries_cut _ _ _ Hs Hend Hle) as (u & w & v & Heq & Hu & Hw).
  transitivity (Some w).
  2: { unfold old. symmetry. apply str_get_Some. exists u, v. done. }
  apply str_get_Some. unfold old in Heq. destruct Hor as [(Hlt & -> & ->)|(Hgt & -> & ->)].
  - assert (Heq' : (u ++ w) ++ v = a ++ m ++ b) by by rewrite <- app_assoc.
    destruct (prefixes_ordered _ _ _ _ Heq') as (x & Hx & _); [rewrite str_len_app; lia|].
    exists u, (x ++ s ++ b). split; [|lia].
    unfold new. rewrite Hx. by rewrite <- !app_assoc.
  - assert (Heq' : (a ++ m) ++ b = u ++ w ++ v) by by rewrite <- app_assoc.
    destruct (prefixes_ordered _ _ _ _ Heq') as (x & Hx & Hb); [rewrite str_len_app; lia|].
    exists (a ++ s ++ x), v. unfold new, shifted. rewrite Hb.
    apply (f_equal str_len) in Hx. rewrite !str_len_app in *.
    split; [by rewrite <- !app_assoc|]. lia.
Qed.

Lemma shift_elements_ok es :
  elements_ok old es -> Forall (clean (str_len a) (str_len a + str_len m)) es ->
  elements_ok new (shift_elements es (str_len a) (str_len m) (str_len s)).
Proof.
  intros Hok Hcl. split.
  - apply Forall_forall. intros e' Hin. destruct (shift_elem_inv _ _ _ _ _ Hcl Hin) as (e & He & Hmv).
    eapply moved_ok; [by eapply elem_in_ok|done].
  - unfold shift_elements.
    apply (pairwise_map disjoint_elems _ (fun e => elem_start e <= elem_end e
      /\ (elem_end e <= str_len a \/ str_len a + str_len m <= elem_start e))).
    + intros e f (? & ?) (? & ?) Hd. unfold disjoint_elems, shifted in *.
      destruct (Nat.leb_spec (elem_end e) (str_len a)), (Nat.leb_spec (elem_end f) (str_len a)),
        (Nat.leb_spec (str_len a + str_len m) (elem_start e)),
        (Nat.leb_spec (str_len a + str_len m) (elem_start f)); simpl; lia.
    + apply List.Forall_forall. intros e [Hin%list_elem_of_In Hkeep]%List.filter_In.
      destruct (elem_in_ok _ _ _ Hok Hin) as (? & _). split; [done|].
      pose proof (proj1 (Forall_forall _ _) Hcl e Hin) as Hce. unfold clean, contained in Hce.
      apply negb_true_iff, andb_false_iff in Hkeep as [?|?]; destruct_bools; lia.
    + apply pairwise_filter, Hok.
Qed.

Lemma shift_payload es e' :
  elements_ok old es -> Forall (clean (str_len a) (str_len a + str_len m)) es ->
  e' ∈ shift_elements es (str_len a) (str_len m) (str_len s) ->
  exists e, e ∈ es /\ elem_id e' = elem_id e
    /\ str_get new (elem_start e') (elem_end e') = str_get old (elem_start e) (elem_end e).
Proof.
  intros Hok Hcl Hin. destruct (shift_elem_inv _ _ _ _ _ Hcl Hin) as (e & He & Hmv).
  exists e. split; [done|]. split; [apply Hmv|].
  apply moved_payload; [by eapply elem_in_ok|done].
Qed.

Lemma shift_outside es c :
  Forall (clean (str_len a) (str_len a + str_len m)) es -> outside es c ->
  c <= str_len a \/ str_len a + str_len m <= c ->
  outside (shift_elements es (str_len a) (str_len m) (str_len s))
    (if c <? str_len a then c else if str_len a + str_len m <=? c then shifted c (str_len m) (str_len s) else c).
Proof.
  intros Hcl Ho Hc e' Hin. destruct (shift_elem_inv _ _ _ _ _ Hcl Hin) as (e & He & _ & Hor).
  destruct (Ho e He); unfold shifted in *; destruct Hor as [(? & -> & ->)|(? & -> & ->)];
    destruct (Nat.ltb_spec c (str_len a)), (Nat.leb_spec (str_len a + str_len m) c); lia.
Qed.
End edit.

(** ** The invariant

    The invariant depends on a [mode]: whether the Vim mode may be on, and which
    payloads the elements may have.  The finds of the Vim mode rely on lines
    that clusters and elements do not cross: with it no text holds a carriage
    return and no element a line feed. *)

Record mode := mkMode {
  vim_on : bool;
  payloads : N -> rstr -> Prop;
  payload_lines id m : vim_on = true -> payloads id m -> c_lf ∉ m
}.

Definition payload_ok (vim : mode) (s : rstr) (e : Element) : Prop :=
  forall m, str_get s (elem_start e) (elem_end e) = Some m -> payloads vim (elem_id e) m.

Definition plain_action (a : VimAction) : Prop :=
  match a with ActReplace ch => ch <> c_cr | _ => True end.

Definition plain_edit (e : VimEdit) : Prop :=
  match e with EditText s => c_cr ∉ s | EditEditor a => plain_action a end.

Definition commands_ok (c : VimCommandState) : Prop :=
  Forall plain_edit (pending_change c) /\ Forall plain_edit (last_change c).

Definition cache_ok (s : rstr) (cache : option WrapCache) : Prop :=
  forall c, cache = Some c -> Forall (row_ok s) (cache_lines c).

Record inv (vim : mode) (t : TextArea) : Prop := mkInv {
  inv_cursor : boundary (text t) (cursor_pos t);
  inv_outside : outside (elements t) (cursor_pos t);
  inv_elements : elements_ok (text t) (elements t);
  inv_cache : cache_ok (text t) (wrap_cache t);
  inv_vim : vim_on vim = false -> vim_enabled t = false;
  inv_text : vim_on vim = true -> c_cr ∉ text t;
  inv_payloads : Forall (payload_ok vim (text t)) (elements t);
  inv_kill : vim_on vim = true -> c_cr ∉ kill_buffer t;
  inv_commands : vim_on vim = true -> commands_ok (vim_commands t)
}.

(** Text that an operation may bring in. *)
Definition admissible (vim : mode) (s : rstr) : Prop := vim_on vim = true -> c_cr ∉ s.

Lemma admissible_nil vim : admissible vim [].
Proof. intros _ H. by apply elem_of_nil in H. Qed.

Lemma admissible_one vim c : c <> c_cr -> admissible vim [c].
Proof. intros Hc _ H. apply list_elem_of_singleton in H. congruence. Qed.

Lemma admissible_app vim s u : admissible vim s -> admissible vim u -> admissible vim (s ++ u).
Proof. intros Hs Hu Hv [H|H]%elem_of_app; [by apply Hs|by apply Hu]. Qed.

#[export] Hint Resolve admissible_nil : codex.

Lemma inv_set_vim_commands vim t c :
  inv vim t -> (vim_on vim = true -> commands_ok c) -> inv vim (set_vim_commands t c).
Proof. intros [] Hc. by constructor. Qed.

Lemma inv_set_vim_pending vim t p : inv vim t -> inv vim (set_vim_pending t p).
Proof. intros []. by constructor. Qed.

Lemma inv_set_vim_mode vim t m : inv vim t -> inv vim (set_vim_mode t m).
Proof. intros []. by constructor. Qed.

Lemma inv_store_kill_buffer vim t s k : inv vim t -> admissible vim s -> inv vim (store_kill_buffer t s k).
Proof. intros [] Hs. by constructor. Qed.

Lemma inv_set_preferred_col vim t c : inv vim t -> inv vim (set_preferred_col t c).
Proof. intros []. by constructor. Qed.

Lemma inv_set_cursor_pos vim t p :
  inv vim t -> boundary (text t) p -> outside (elements t) p -> inv vim (set_cursor_pos t p).
Proof. intros []. by constructor. Qed.

Lemma inv_clamp vim t p : inv vim t -> inv vim (set_cursor_pos t (clamp_pos_to_nearest_boundary t p)).
Proof. intros Hi. destruct (clamp_nearest_ok t p (inv_elements _ _ Hi)). by apply inv_set_cursor_pos. Qed.

Lemma inv_set_cursor vim t p : inv vim t -> inv vim (set_cursor t p).
Proof.
  intros Hi. unfold set_cursor. apply inv_set_preferred_col.
  change (clamp_pos_to_nearest_boundary (set_cursor_pos t ?q) ?r)
    with (clamp_pos_to_nearest_boundary t r).
  apply (inv_clamp vim t (Nat.min p (str_len (text t))) Hi).
Qed.

Lemma inv_enter_normal vim t : inv vim t -> inv vim (set_vim t (vim_enabled t) Normal PendingNone (vim_commands t)).
Proof. intros []. by constructor. Qed.

#[export] Hint Resolve inv_set_vim_pending inv_set_vim_mode inv_set_preferred_col inv_set_cursor
  inv_clamp : codex.

(** The text [a ++ m ++ b] becomes [a ++ s ++ b]. *)
Lemma inv_edit vim t a m b s cursor :
  inv vim t -> text t = a ++ m ++ b ->
  Forall (clean (str_len a) (str_len a + str_len m)) (elements t) -> admissible vim s ->
  let es := shift_elements (elements t) (str_len a) (str_len m) (str_len s) in
  boundary (a ++ s ++ b) cursor -> outside es cursor ->
  inv vim (with_buffer t (a ++ s ++ b) cursor None None es).
Proof.
  intros [? ? Hok _ ? Hcr Hpay ? ?] Ht Hcl Hs es Hb Ho. rewrite Ht in *. constructor; try done.
  - by apply shift_elements_ok.
  - intros Hv. specialize (Hs Hv). specialize (Hcr Hv). simpl. rewrite !elem_of_app in *. tauto.
  - apply Forall_forall. intros e' Hin g Hg.
    destruct (shift_payload a m b s _ _ Hok Hcl Hin) as (e & He & Hid & Heq). rewrite Hid.
    apply (proj1 (Forall_forall _ _) Hpay e He). by rewrite <- Heq.
Qed.

(** ** Inserting and replacing *)

Lemma append_inserted_ok edits s :
  (c_cr ∉ s) -> Forall plain_edit edits -> Forall plain_edit (append_inserted_text edits s).
Proof.
  intros Hs Hed. unfold append_inserted_text.
  assert (Hnew : Forall plain_edit (edits ++ [EditText s])) by (apply Forall_app; by repeat constructor).
  destruct (last edits) as [[|p]|] eqn:E; [done| |done].
  apply last_Some in E as [init ->]. rewrite alter_last_snoc.
  apply Forall_app in Hed as [? Hp]. apply Forall_app. split; [done|].
  inversion_clear Hp as [|? ? Hp' _]. constructor; [|constructor]. simpl in *.
  rewrite elem_of_app. tauto.
Qed.

Lemma record_vim_inserted_text_ok vim t s :
  inv vim t -> admissible vim s -> inv vim (record_vim_inserted_text t s).
Proof.
  intros Hi Hs. unfold record_vim_inserted_text. destruct (_ || _); [done|].
  apply inv_set_vim_commands; [done|]. intros Hv. destruct (inv_commands _ _ Hi Hv).
  split; [|done]. apply append_inserted_ok; auto.
Qed.

Lemma insert_str_at_ok vim t p s :
  inv vim t -> admissible vim s -> returns (inv vim) (insert_str_at t p s).
Proof.
  intros Hi Hs. unfold insert_str_at. rewrite clamp_for_insertion_nearest.
  destruct (clamp_nearest_ok t p (inv_elements _ _ Hi)) as [Hb Ho].
  destruct Hb as (a & b & Ht & Hp). rewrite Hp in *. rewrite Ht, str_insert_app. simpl.
  assert (Hcl : Forall (clean (str_len a) (str_len a + str_len [])) (elements t)).
  { apply Forall_forall. intros e He. destruct (Ho e He); unfold clean; simpl; lia. }
  replace (shift_elements _ _ 0 _) with (shift_elements (elements t) (str_len a) (str_len []) (str_len s))
    by done.
  pose proof (inv_cursor _ _ Hi) as Hc. rewrite Ht in Hc.
  eapply (inv_edit vim t a [] b s); try done.
  - destruct (Nat.leb_spec (str_len a) (cursor_pos t)).
    + replace (cursor_pos t + str_len s) with (cursor_pos t + str_len s - str_len []) by (simpl; lia).
      apply (boundary_replace_after a [] s b); simpl; [done|lia].
    + apply (boundary_replace_before a [] s b); [done|lia].
  - pose proof (shift_outside a [] s _ _ Hcl (inv_outside _ _ Hi) ltac:(simpl; lia)) as Hout.
    unfold shifted in Hout. simpl in Hout. rewrite Nat.add_0_r, Nat.sub_0_r in Hout.
    destruct (Nat.ltb_spec (cursor_pos t) (str_len a)), (Nat.leb_spec (str_len a) (cursor_pos t)); try lia; done.
Qed.

Lemma insert_str_ok vim t s : inv vim t -> admissible vim s -> returns (inv vim) (insert_str t s).
Proof.
  intros Hi Hs. unfold insert_str. apply insert_str_at_ok; [|done].
  by apply record_vim_inserted_text_ok.
Qed.

Lemma replace_range_raw_ok vim t p q s :
  inv vim t -> boundary (text t) p -> boundary (text t) q -> p <= q ->
  Forall (clean p q) (elements t) -> admissible vim s ->
  returns (inv vim) (replace_range_raw t p q s).
Proof.
  intros Hi Hp Hq Hle Hcl Hs. unfold replace_range_raw.
  rewrite (proj2 (Nat.leb_le _ _) Hle). simpl.
  rewrite !Nat.min_l by by apply boundary_le. destruct (_ && _); [done|].
  destruct (boundaries_cut _ _ _ Hp Hq Hle) as (a & m & b & Ht & -> & ->).
  rewrite Ht, str_replace_cut. cbn [mbind outcome_bind].
  replace (str_len a + str_len m - str_len a) with (str_len m) by lia.
  unfold update_elements_after_replace.
  replace (str_len a + str_len m - str_len a) with (str_len m) by lia.
  assert (Hi' : inv vim (with_buffer t (a ++ s ++ b) 0 None None
                          (shift_elements (elements t) (str_len a) (str_len m) (str_len s)))).
  { apply (inv_edit vim t a m b s 0); auto with codex. intros e' _. lia. }
  exact (inv_clamp vim _ _ Hi').
Qed.

Lemma replace_range_ok vim t p q s :
  inv vim t -> boundary (text t) p -> boundary (text t) q -> p <= q -> admissible vim s ->
  returns (inv vim) (replace_range t p q s).
Proof.
  intros Hi Hp Hq Hle Hs. unfold replace_range.
  destruct (expand_range_to_element_boundaries t p q) as [p' q'] eqn:E.
  destruct (expand_range_ok _ _ _ _ _ (inv_elements _ _ Hi) Hp Hq E) as (? & ? & ? & ? & ?).
  apply replace_range_raw_ok; try done. lia.
Qed.

(** ** Killing *)

Lemma slice_admissible vim t a m b :
  inv vim t -> text t = a ++ m ++ b -> admissible vim m.
Proof.
  intros Hi Ht Hv. pose proof (inv_text _ _ Hi Hv) as Hcr. rewrite Ht in Hcr.
  rewrite !elem_of_app in Hcr. tauto.
Qed.

Lemma kill_range_ok vim t p q k :
  inv vim t -> boundary (text t) p -> boundary (text t) q ->
  returns (inv vim) (kill_range_with_kind t p q k).
Proof.
  intros Hi Hp Hq. unfold kill_range_with_kind.
  destruct (expand_range_to_element_boundaries t p q) as [p' q'] eqn:E.
  destruct (expand_range_ok _ _ _ _ _ (inv_elements _ _ Hi) Hp Hq E) as (? & ? & Hp' & Hq' & ?).
  destruct (Nat.leb_spec q' p'); [done|].
  step (returns_str_range (text t) p' q' Hp' Hq' ltac:(lia)). intros m (a & b & Ht & _).
  destruct (is_empty m); [done|]. apply replace_range_raw_ok; auto with codex; try lia.
  apply inv_store_kill_buffer; [done|]. by eapply slice_admissible.
Qed.

Lemma yank_range_ok vim t p q k :
  inv vim t -> boundary (text t) p -> boundary (text t) q ->
  returns (inv vim) (yank_range_with_kind t p q k).
Proof.
  intros Hi Hp Hq. unfold yank_range_with_kind.
  destruct (expand_range_to_element_boundaries t p q) as [p' q'] eqn:E.
  destruct (expand_range_ok _ _ _ _ _ (inv_elements _ _ Hi) Hp Hq E) as (? & ? & Hp' & Hq' & ?).
  destruct (Nat.leb_spec q' p'); [done|].
  step (returns_str_range (text t) p' q' Hp' Hq' ltac:(lia)). intros m (a & b & Ht & _).
  destruct (is_empty m); [done|]. apply inv_store_kill_buffer; [done|]. by eapply slice_admissible.
Qed.

(** ** Lines *)

Lemma is_lf_len c : is_lf c = true -> len_utf8 c = 1.
Proof. unfold is_lf, c_lf. intros ->%N.eqb_eq. done. Qed.

(** The start of a line, and the line feed before it. *)
Definition line_start (s : rstr) (p q : nat) : Prop :=
  boundary s q /\ q <= p /\ (0 < q -> exists a b, s = a ++ c_lf :: b /\ q = str_len a + 1).

Lemma beginning_of_line_ok t p :
  boundary (text t) p -> returns (line_start (text t) p) (beginning_of_line t p).
Proof.
  intros Hp. unfold beginning_of_line. step (returns_str_to _ _ Hp). intros a (r & Ht & ->).
  apply returns_done. rewrite Ht. destruct (rfind_char is_lf a) as [i|] eqn:E.
  - apply rfind_char_Some in E as (u & c & v & -> & -> & Hc & _). pose proof (is_lf_len c Hc) as Hl.
    apply N.eqb_eq in Hc as ->. unfold line_start. rewrite str_len_app. simpl str_len.
    split; [|split; [lia|]].
    + exists (u ++ [c_lf]), (v ++ r). rewrite str_len_app. simpl. split; [by rewrite <- !app_assoc|lia].
    + intros _. exists u, (v ++ r). by rewrite <- app_assoc.
  - unfold line_start. split; [apply boundary_0|]. lia.
Qed.

(** The end of a line, and the line feed or end of the text there. *)
Definition line_end (s : rstr) (p q : nat) : Prop :=
  boundary s q /\ p <= q
  /\ exists a x r, s = a ++ x ++ r /\ p = str_len a /\ q = str_len a + str_len x
    /\ (c_lf ∉ x) /\ (r = [] \/ exists b, r = c_lf :: b).

Lemma not_lf_forall x : Forall (fun c => is_lf c = false) x -> c_lf ∉ x.
Proof. rewrite Forall_forall. intros H Hin. by specialize (H _ Hin). Qed.

Lemma end_of_line_ok t p :
  boundary (text t) p -> returns (line_end (text t) p) (end_of_line t p).
Proof.
  intros Hp. unfold end_of_line. step (returns_str_from _ _ Hp). intros r (a & Ht & ->).
  apply returns_done. unfold line_end. rewrite Ht. destruct (find_char is_lf r) as [i|] eqn:E.
  - apply find_char_Some in E as (x & c & b & -> & -> & Hc & Hx).
    apply N.eqb_eq in Hc as ->. rewrite Nat.add_comm. split; [|split; [lia|]].
    + apply boundary_app_r, boundary_app.
    + exists a, x, (c_lf :: b). repeat split; eauto using not_lf_forall.
  - apply find_char_None in E. split; [apply boundary_len|]. rewrite str_len_app. split; [lia|].
    exists a, r, []. rewrite app_nil_r. repeat split; auto using not_lf_forall.
Qed.

Lemma line_end_next s p q : line_end s p q -> q < str_len s -> boundary s (q + 1).
Proof.
  intros (_ & _ & a & x & r & -> & _ & -> & _ & [->|(b & ->)]) Hlt.
  - rewrite app_nil_r, !str_len_app in Hlt. lia.
  - exists (a ++ x ++ [c_lf]), b. rewrite !str_len_app. simpl.
    split; [by rewrite <- !app_assoc|]. change (len_utf8 c_lf) with 1. lia.
Qed.

Lemma line_start_prev s p q : line_start s p q -> 0 < q -> boundary s (q - 1).
Proof.
  intros (_ & _ & H) Hq. destruct (H Hq) as (a & b & -> & ->).
  replace (str_len a + 1 - 1) with (str_len a) by lia. apply boundary_app.
Qed.
