(* ===== verification/TextAreaMoves.v ===== *)
(** * TextAreaMoves: words, graphemes and vertical moves keep the invariant

    The operations of TextArea.v that depend on the segmentation, under its
    laws: none of them panics, and each keeps the invariant of TextAreaInv.v. *)

From Stdlib Require Import Lia.
From stdpp Require Import base list strings.
From S2P Require Import Prelude TextPos Keys TextArea TextAreaInv.

Open Scope rust_scope.

(** ** Segments and pieces *)

Definition piece_of (s : rstr) (ip : nat * rstr) : Prop :=
  exists a b, s = a ++ ip.2 ++ b /\ ip.1 = str_len a.

Lemma piece_of_boundary s i p : piece_of s (i, p) -> boundary s i /\ boundary s (i + str_len p).
Proof.
  intros (a & b & -> & Hi). simpl in *. subst i. split; [apply boundary_app|].
  rewrite app_assoc, <- str_len_app. apply boundary_app.
Qed.

Lemma indexed_from_pieces n gs i g :
  (i, g) ∈ indexed_from n gs -> exists a b, concat gs = a ++ g ++ b /\ i = n + str_len a.
Proof.
  revert n. induction gs as [|h gs IH]; intros n; simpl; [by intros ?%elem_of_nil|].
  intros [[= -> ->]|Hin]%elem_of_cons; [exists [], (concat gs); simpl; split; [done|lia]|].
  destruct (IH _ Hin) as (a & b & -> & ->). exists (h ++ a), b.
  rewrite str_len_app, <- app_assoc. split; [done|lia].
Qed.

Lemma separator_pieces_ok start idx sep piece chars i p :
  idx = start + str_len piece -> (i, p) ∈ separator_pieces start idx sep piece chars ->
  exists a b, piece ++ chars = a ++ p ++ b /\ i = start + str_len a.
Proof.
  revert start idx sep piece. induction chars as [|ch chars IH]; intros start idx sep piece Hidx; simpl.
  - intros [= -> ->]%list_elem_of_singleton. exists [], []. rewrite app_nil_r. simpl. split; [done|lia].
  - destruct (Bool.eqb _ _).
    + intros Hin. apply IH in Hin; [|rewrite str_len_app; simpl; lia]. by rewrite <- app_assoc in Hin.
    + intros [[= -> ->]|Hin]%elem_of_cons; [exists [], (ch :: chars); simpl; split; [done|lia]|].
      apply IH in Hin as (a & b & Heq & ->); [|simpl; lia].
      exists (piece ++ a), b. rewrite str_len_app, <- app_assoc, <- Heq. split; [done|lia].
Qed.

Lemma segment_pieces_ok n seg i p :
  (i, p) ∈ segment_pieces n seg -> exists a b, seg = a ++ p ++ b /\ i = n + str_len a.
Proof.
  destruct seg as [|c seg]; simpl; [by intros ?%elem_of_nil|]. intros Hin.
  by apply separator_pieces_ok in Hin; [|simpl; lia].
Qed.

Section moves.
Context `{SegmentationLaws}.
Implicit Types (t : TextArea) (vim : mode).

Lemma split_word_pieces_ok s : Forall (piece_of s) (split_word_pieces s).
Proof.
  apply Forall_forall. intros [i p]. unfold split_word_pieces.
  intros ([n seg] & Hp & Hseg)%list_elem_of_bind.
  apply segment_pieces_ok in Hp as (a & b & -> & ->).
  apply indexed_from_pieces in Hseg as (u & v & Hs & ->). rewrite word_bounds_law in Hs.
  exists (u ++ a), (b ++ v). simpl. rewrite str_len_app, Hs. by rewrite <- !app_assoc.
Qed.

Lemma grapheme_indices_ok s : Forall (piece_of s) (grapheme_indices s).
Proof.
  apply Forall_forall. intros [i g] Hin. apply indexed_from_pieces in Hin as (a & b & Hs & ->).
  rewrite graphemes_law in Hs. by exists a, b.
Qed.

(** ** Steps over graphemes and elements *)

Lemma outside_ends s es : elements_ok s es -> outside es 0 /\ outside es (str_len s).
Proof.
  intros Hok. split; intros e He; [lia|].
  destruct (elem_in_ok _ _ _ Hok He) as (_ & _ & Hb%boundary_le). lia.
Qed.

Lemma prev_atomic_ok vim t p :
  inv vim t -> boundary (text t) p ->
  boundary (text t) (prev_atomic_boundary t p) /\ outside (elements t) (prev_atomic_boundary t p)
  /\ prev_atomic_boundary t p <= p.
Proof.
  intros Hi Hp. pose proof (inv_elements _ _ Hi) as Hok. destruct (outside_ends _ _ Hok) as [Hzero _].
  unfold prev_atomic_boundary. destruct (Nat.eqb_spec p 0) as [->|Hne]; [by auto with codex|].
  destruct (List.find _ _) as [e|] eqn:Ef.
  { apply find_elem in Ef as [Hin He]. destruct_bools.
    destruct (elem_in_ok _ _ _ Hok Hin) as (_ & ? & _). destruct (outside_edges _ _ _ Hok Hin).
    split; [done|]. split; [done|lia]. }
  destruct (prev_boundary_law _ _ Hp) as (r & -> & Hr).
  destruct r as [b|]; [|by repeat split; auto with codex; lia].
  destruct (Hr b eq_refl) as [Hb Hle]. destruct (find_element_containing t b) as [e|] eqn:E.
  - apply find_element_containing_Some in E as [Hin He].
    destruct (elem_in_ok _ _ _ Hok Hin) as (_ & ? & _). destruct (outside_edges _ _ _ Hok Hin).
    split; [done|]. split; [done|lia].
  - by apply find_element_containing_None in E.
Qed.

Lemma next_atomic_ok vim t p :
  inv vim t -> boundary (text t) p ->
  boundary (text t) (next_atomic_boundary t p) /\ outside (elements t) (next_atomic_boundary t p)
  /\ p <= next_atomic_boundary t p.
Proof.
  intros Hi Hp. pose proof (inv_elements _ _ Hi) as Hok. destruct (outside_ends _ _ Hok) as [_ Hlen].
  pose proof (boundary_le _ _ Hp). unfold next_atomic_boundary.
  destruct (str_len (text t) <=? p); [by auto with codex|].
  destruct (List.find _ _) as [e|] eqn:Ef.
  { apply find_elem in Ef as [Hin He]. destruct_bools.
    destruct (elem_in_ok _ _ _ Hok Hin) as (_ & _ & ?). destruct (outside_edges _ _ _ Hok Hin).
    split; [done|]. split; [done|lia]. }
  destruct (next_boundary_law _ _ Hp) as (r & -> & Hr & _).
  destruct r as [b|]; [|by auto with codex].
  destruct (Hr b eq_refl) as [Hb Hle]. destruct (find_element_containing t b) as [e|] eqn:E.
  - apply find_element_containing_Some in E as [Hin He].
    destruct (elem_in_ok _ _ _ Hok Hin) as (_ & _ & ?). destruct (outside_edges _ _ _ Hok Hin).
    split; [done|]. split; [done|lia].
  - by apply find_element_containing_None in E.
Qed.

Lemma move_cursor_left_ok vim t : inv vim t -> inv vim (move_cursor_left t).
Proof.
  intros Hi. destruct (prev_atomic_ok _ _ _ Hi (inv_cursor _ _ Hi)) as (? & ? & _).
  by apply inv_set_preferred_col, inv_set_cursor_pos.
Qed.

Lemma move_cursor_right_ok vim t : inv vim t -> inv vim (move_cursor_right t).
Proof.
  intros Hi. destruct (next_atomic_ok _ _ _ Hi (inv_cursor _ _ Hi)) as (? & ? & _).
  by apply inv_set_preferred_col, inv_set_cursor_pos.
Qed.

(** ** Words *)

Lemma adjust_pos_ok vim t p b :
  inv vim t -> boundary (text t) p -> boundary (text t) (adjust_pos_out_of_elements t p b).
Proof.
  intros Hi Hp. unfold adjust_pos_out_of_elements.
  destruct (find_element_containing t p) as [e|] eqn:E; [|done].
  apply find_element_containing_Some in E as [Hin _].
  destruct (elem_in_ok _ _ _ (inv_elements _ _ Hi) Hin) as (_ & ? & ?). by destruct b.
Qed.

Lemma last_separator_start_ok a s b start pieces :
  Forall (piece_of s) pieces -> boundary (a ++ s ++ b) start ->
  boundary (a ++ s ++ b) (last_separator_start (str_len a) start pieces).
Proof.
  intros Hp. revert start. induction Hp as [|[i p] pieces Hip _ IH]; intros start Hs; simpl; [done|].
  destruct (is_separator_piece p); [|done]. apply IH.
  destruct (piece_of_boundary _ _ _ Hip). by apply boundary_app_r, boundary_app_l.
Qed.

Lemma last_separator_end_ok a s b end_ pieces :
  Forall (piece_of s) pieces -> boundary (a ++ s ++ b) end_ ->
  boundary (a ++ s ++ b) (last_separator_end (str_len a) end_ pieces).
Proof.
  intros Hp. revert end_. induction Hp as [|[i p] pieces Hip _ IH]; intros end_ Hs; simpl; [done|].
  destruct (is_separator_piece p); [|done]. apply IH.
  destruct (piece_of_boundary _ _ _ Hip). rewrite <- Nat.add_assoc.
  by apply boundary_app_r, boundary_app_l.
Qed.

(** The run before the cursor ends in a character that is not blank and starts
    after the last blank before it. *)
Lemma run_start_ok before c :
  let run_start :=
    match rfind_char is_whitespace before with
    | Some idx =>
        match str_from before idx with Done (ws :: _) => idx + len_utf8 ws | _ => idx end
    | None => 0
    end in
  exists u v, before = u ++ v /\ run_start = str_len u /\ before ++ [c] = u ++ (v ++ [c]).
Proof.
  simpl. destruct (rfind_char is_whitespace before) as [idx|] eqn:E.
  - apply rfind_char_Some in E as (u & ws & v & -> & -> & _). rewrite str_from_app.
    exists (u ++ [ws]), v. rewrite str_len_app. simpl. rewrite Nat.add_0_r, <- !app_assoc. done.
  - by exists [], before.
Qed.

Lemma adjust_pos_start_le t p : adjust_pos_out_of_elements t p true <= p.
Proof.
  unfold adjust_pos_out_of_elements. destruct (find_element_containing t p) eqn:E; [|done].
  apply find_element_containing_Some in E. lia.
Qed.

Lemma beginning_of_previous_word_ok vim t :
  inv vim t ->
  returns (fun p => boundary (text t) p /\ p <= cursor_pos t) (beginning_of_previous_word t).
Proof.
  intros Hi. unfold beginning_of_previous_word.
  step (returns_str_to _ _ (inv_cursor _ _ Hi)). intros prefix (r & Ht & ->).
  destruct (rfind_char _ prefix) as [idx|] eqn:E; [|split; [apply boundary_0|lia]].
  apply rfind_char_Some in E as (before & c & after & Hpre & -> & _).
  rewrite Hpre, str_to_app, str_from_app. cbn [mbind outcome_bind].
  destruct (run_start_ok before c) as (u & v & Hb & Hrs & Hbc). rewrite Hrs.
  assert (Hrange : before ++ c :: after = u ++ (v ++ [c]) ++ after).
  { rewrite app_assoc, <- Hbc, <- app_assoc. done. }
  rewrite Hrange.
  replace (str_len before + len_utf8 c) with (str_len u + str_len (v ++ [c]))
    by (rewrite Hb, !str_len_app; simpl; lia).
  rewrite str_range_cut. cbn [mbind outcome_bind].
  assert (Hlift : forall p, boundary (u ++ (v ++ [c]) ++ after) p ->
            boundary (text t) p /\ p <= str_len (u ++ (v ++ [c]) ++ after)).
  { intros p Hp. split; [|by apply boundary_le]. rewrite Ht, Hpre, Hrange. by apply boundary_app_l. }
  pose proof (split_word_pieces_ok (v ++ [c])) as Hp. apply Forall_reverse in Hp.
  destruct (reverse (split_word_pieces (v ++ [c]))) as [|[i p] pieces].
  { apply returns_done, Hlift, boundary_app. }
  inversion_clear Hp as [|? ? Hip Hpieces]. apply returns_done.
  assert (Hword : boundary (u ++ (v ++ [c]) ++ after)
            (if is_separator_piece p
             then last_separator_start (str_len u) (str_len u + i) pieces else str_len u + i)).
  { destruct (piece_of_boundary _ _ _ Hip).
    assert (boundary (u ++ (v ++ [c]) ++ after) (str_len u + i))
      by by apply boundary_app_r, boundary_app_l.
    destruct (is_separator_piece p); [by apply last_separator_start_ok|done]. }
  destruct (Hlift _ Hword). split; [by apply (adjust_pos_ok vim)|].
  etransitivity; [apply adjust_pos_start_le|done].
Qed.

Lemma end_of_next_word_from_ok vim t p :
  inv vim t -> boundary (text t) p -> returns (boundary (text t)) (end_of_next_word_from t p).
Proof.
  intros Hi Hp. unfold end_of_next_word_from. step (returns_str_from _ _ Hp).
  intros suffix (a & Ht & ->). destruct (find_char _ suffix) as [i|] eqn:E; [|apply boundary_len].
  apply find_char_Some in E as (u & c & rest & Hsuf & -> & _).
  rewrite Hsuf, str_from_app. cbn [mbind outcome_bind].
  assert (Hrun : exists text_run after, c :: rest = text_run ++ after
            /\ str_to (c :: rest) (default (str_len (c :: rest)) (find_char is_whitespace (c :: rest)))
               = Done text_run).
  { destruct (find_char is_whitespace (c :: rest)) as [j|] eqn:Ej.
    - apply find_char_Some in Ej as (x & d & y & -> & -> & _). exists x, (d :: y).
      simpl default. by rewrite str_to_app.
    - exists (c :: rest), []. rewrite app_nil_r. split; [done|]. simpl default.
      pose proof (str_to_app (c :: rest) []) as Hs. by rewrite app_nil_r in Hs. }
  destruct Hrun as (text_run & after & Hrest & ->). cbn [mbind outcome_bind].
  assert (Htext : text t = (a ++ u) ++ text_run ++ after).
  { rewrite Ht, Hsuf, Hrest. by rewrite <- !app_assoc. }
  rewrite <- str_len_app.
  pose proof (split_word_pieces_ok text_run) as Hps.
  destruct (split_word_pieces text_run) as [|[i p'] pieces].
  { simpl. rewrite Htext. apply boundary_app. }
  inversion_clear Hps as [|? ? Hip Hpieces]. apply returns_done. apply (adjust_pos_ok vim); [done|].
  rewrite Htext. destruct (piece_of_boundary _ _ _ Hip).
  assert (boundary ((a ++ u) ++ text_run ++ after) (str_len (a ++ u) + i + str_len p')).
  { rewrite <- Nat.add_assoc. by apply boundary_app_r, boundary_app_l. }
  destruct (is_separator_piece p'); [by apply last_separator_end_ok|done].
Qed.

Lemma end_of_next_word_ok vim t : inv vim t -> returns (boundary (text t)) (end_of_next_word t).
Proof. intros Hi. apply (end_of_next_word_from_ok vim); [done|apply Hi]. Qed.

Lemma found_boundary f s p rest a i :
  s = a ++ rest -> p = str_len a -> find_char f rest = Some i -> boundary s (p + i).
Proof.
  intros -> -> (u & c & b & -> & -> & _)%find_char_Some. by apply boundary_app_r, boundary_app.
Qed.

Lemma beginning_of_next_word_ok vim t :
  inv vim t -> returns (boundary (text t)) (beginning_of_next_word t).
Proof.
  intros Hi. unfold beginning_of_next_word. step (returns_str_from _ _ (inv_cursor _ _ Hi)).
  intros suffix (a & Ht & Hc). destruct (find_char _ suffix) as [i|] eqn:E; [|apply boundary_len].
  destruct (negb _).
  { apply (adjust_pos_ok vim); [done|]. by eapply found_boundary. }
  step (end_of_next_word_ok vim t Hi). intros end_ Hend.
  destruct (_ <=? _); [apply boundary_len|].
  step (returns_str_from _ _ Hend). intros rest (u & Hu & Hlen).
  destruct (find_char _ rest) as [j|] eqn:Ej; [|apply boundary_len].
  apply (adjust_pos_ok vim); [done|]. by eapply found_boundary.
Qed.

Lemma vim_word_end_exclusive_ok vim t :
  inv vim t -> returns (boundary (text t)) (vim_word_end_exclusive t).
Proof.
  intros Hi. unfold vim_word_end_exclusive. step (end_of_next_word_ok vim t Hi). intros e He.
  destruct (_ && _); [|done]. by apply (end_of_next_word_from_ok vim).
Qed.

(** ** Deleting *)

Lemma backward_target_ok vim t p :
  inv vim t -> boundary (text t) p ->
  returns (fun q => boundary (text t) q /\ q <= p) (backward_target t p).
Proof.
  intros Hi Hp. unfold backward_target. step (returns_str_to _ _ Hp). intros before (r & Ht & ->).
  destruct (prev_atomic_ok _ _ _ Hi Hp) as (? & _ & ?).
  apply returns_done. destruct (last (char_indices before)) as [[i ch]|] eqn:El; [|done].
  apply last_Some in El as [init El].
  assert (Hin : (i, ch) ∈ char_indices before) by (rewrite El; apply elem_of_app; right; by left).
  apply char_indices_from_elem in Hin as (a & b & -> & ->). destruct (_ && _); [|done].
  rewrite Ht. split; [by apply boundary_app_l, boundary_app|]. rewrite str_len_app. simpl. lia.
Qed.

Lemma backward_targets_ok vim t n p :
  inv vim t -> boundary (text t) p ->
  returns (fun q => boundary (text t) q /\ q <= p) (backward_targets t n p).
Proof.
  intros Hi. revert p. induction n as [|n IH]; intros p Hp; [done|]. cbn [backward_targets].
  step (backward_target_ok _ _ _ Hi Hp). intros q [Hq Hle]. destruct (q =? 0); [done|].
  eapply returns_mono; [by apply IH|]. simpl. intros r [? ?]. split; [done|lia].
Qed.

Lemma forward_targets_ok vim t n p :
  inv vim t -> boundary (text t) p ->
  boundary (text t) (forward_targets t n p) /\ p <= forward_targets t n p.
Proof.
  intros Hi. revert p. induction n as [|n IH]; intros p Hp; [done|]. simpl.
  destruct (next_atomic_ok _ _ _ Hi Hp) as (? & _ & ?). destruct (_ <=? _); [done|].
  destruct (IH (next_atomic_boundary t p)); [done|]. split; [done|lia].
Qed.

Lemma delete_backward_ok vim t n : inv vim t -> returns (inv vim) (delete_backward t n).
Proof.
  intros Hi. unfold delete_backward. destruct (_ || _); [done|].
  step (backward_targets_ok _ _ n _ Hi (inv_cursor _ _ Hi)). intros q [Hq Hle].
  apply replace_range_ok; auto with codex. apply Hi.
Qed.

Lemma delete_forward_ok vim t n : inv vim t -> returns (inv vim) (delete_forward t n).
Proof.
  intros Hi. unfold delete_forward. destruct (_ || _); [done|].
  destruct (forward_targets_ok _ _ n _ Hi (inv_cursor _ _ Hi)).
  apply replace_range_ok; auto with codex. apply Hi.
Qed.

Lemma delete_forward_kill_ok vim t n : inv vim t -> returns (inv vim) (delete_forward_kill t n).
Proof.
  intros Hi. unfold delete_forward_kill. destruct (_ || _); [done|].
  destruct (forward_targets_ok _ _ n _ Hi (inv_cursor _ _ Hi)). apply kill_range_ok; auto. apply Hi.
Qed.

Lemma delete_backward_word_ok vim t : inv vim t -> returns (inv vim) (delete_backward_word t).
Proof.
  intros Hi. step (beginning_of_previous_word_ok vim t Hi). intros p [Hp _].
  apply kill_range_ok; auto. apply Hi.
Qed.

Lemma delete_forward_word_ok vim t : inv vim t -> returns (inv vim) (delete_forward_word t).
Proof.
  intros Hi. step (end_of_next_word_ok vim t Hi). intros p Hp. destruct (_ <? _); [|done].
  apply kill_range_ok; auto. apply Hi.
Qed.

(** ** Kills and moves along lines *)

Lemma current_line_start_ok vim t :
  inv vim t -> returns (line_start (text t) (cursor_pos t)) (beginning_of_current_line t).
Proof. intros Hi. apply beginning_of_line_ok, Hi. Qed.

Lemma current_line_end_ok vim t :
  inv vim t -> returns (line_end (text t) (cursor_pos t)) (end_of_current_line t).
Proof. intros Hi. apply end_of_line_ok, Hi. Qed.

Lemma first_non_blank_ok vim t :
  inv vim t -> returns (boundary (text t)) (first_non_blank_of_current_line t).
Proof.
  intros Hi. unfold first_non_blank_of_current_line.
  step (current_line_start_ok vim t Hi). intros bol (Hb & ? & _).
  step (current_line_end_ok vim t Hi). intros eol (He & ? & _).
  step (returns_str_range _ _ _ Hb He ltac:(lia)). intros line (a & b & Ht & -> & ->).
  destruct (find_char _ line) as [i|] eqn:E; [|done]. apply returns_done.
  apply find_char_Some in E as (u & c & v & -> & -> & _). rewrite Ht.
  by apply boundary_app_r, boundary_app_l, boundary_app.
Qed.

Lemma current_line_range_ok vim t :
  inv vim t ->
  returns (fun r => line_start (text t) (cursor_pos t) r.1 /\ boundary (text t) r.2)
    (current_line_range_with_newline t).
Proof.
  intros Hi. unfold current_line_range_with_newline.
  step (current_line_start_ok vim t Hi). intros bol Hb.
  step (current_line_end_ok vim t Hi). intros eol He. split; [done|]. simpl.
  destruct (Nat.ltb_spec eol (str_len (text t))); [by eapply line_end_next|apply He].
Qed.

Lemma kill_to_end_of_line_ok vim t : inv vim t -> returns (inv vim) (kill_to_end_of_line t).
Proof.
  intros Hi. step (current_line_end_ok vim t Hi). intros eol He.
  destruct (_ =? _); [|apply kill_range_ok; [done|apply Hi|apply He]].
  destruct (Nat.ltb_spec eol (str_len (text t))); [|done].
  apply kill_range_ok; [done|apply Hi|by eapply line_end_next].
Qed.

Lemma vim_kill_to_end_of_line_ok vim t : inv vim t -> returns (inv vim) (vim_kill_to_end_of_line t).
Proof.
  intros Hi. step (current_line_end_ok vim t Hi). intros eol He.
  destruct (_ <? _); [|done]. apply kill_range_ok; [done|apply Hi|apply He].
Qed.

Lemma kill_to_beginning_of_line_ok vim t : inv vim t -> returns (inv vim) (kill_to_beginning_of_line t).
Proof.
  intros Hi. step (current_line_start_ok vim t Hi). intros bol Hb.
  destruct (_ =? _); [|apply kill_range_ok; [done|apply Hb|apply Hi]].
  destruct (Nat.ltb_spec 0 bol); [|done].
  apply kill_range_ok; [done|by eapply line_start_prev|apply Hb].
Qed.

Lemma kill_current_line_ok vim t : inv vim t -> returns (inv vim) (kill_current_line t).
Proof.
  intros Hi. step (current_line_range_ok vim t Hi). intros [a b] [Ha Hb].
  apply kill_range_ok; [done|apply Ha|done].
Qed.

Lemma yank_current_line_ok vim t : inv vim t -> returns (inv vim) (yank_current_line t).
Proof.
  intros Hi. step (current_line_range_ok vim t Hi). intros [a b] [Ha Hb].
  apply yank_range_ok; [done|apply Ha|done].
Qed.

Lemma yank_ok vim t : inv vim t -> returns (inv vim) (yank t).
Proof.
  intros Hi. unfold yank. destruct (is_empty _); [done|]. apply insert_str_ok; [done|exact (inv_kill _ _ Hi)].
Qed.

Lemma trim_end_matches_admissible vim c s : admissible vim s -> admissible vim (trim_end_matches c s).
Proof.
  intros Hs Hv Hin. apply (Hs Hv). unfold trim_end_matches in Hin.
  destruct (drop_while_end_prefix (N.eqb c) s) as (r & Heq & _). rewrite Heq.
  apply elem_of_app. by left.
Qed.

Lemma admissible_lf vim : admissible vim [c_lf].
Proof. by apply admissible_one. Qed.

Lemma paste_line_ok vim t : inv vim t -> returns (inv vim) (paste_line_after_current_line t).
Proof.
  intros Hi. unfold paste_line_after_current_line. step (current_line_end_ok vim t Hi). intros eol _.
  pose proof (inv_kill _ _ Hi) as Hk. pose proof (admissible_lf vim).
  eapply returns_bind; [apply insert_str_at_ok; [done|]|].
  - destruct (eol <? _); [destruct (ends_with _ _); [done|by apply admissible_app]|].
    apply admissible_app; [done|by apply trim_end_matches_admissible].
  - intros t' Hi'. by apply inv_set_cursor.
Qed.

Lemma paste_after_cursor_ok vim t : inv vim t -> returns (inv vim) (paste_after_cursor t).
Proof.
  intros Hi. unfold paste_after_cursor. destruct (is_empty _); [done|].
  destruct (kill_buffer_kind t); [|by apply paste_line_ok].
  apply insert_str_ok; [by apply inv_set_cursor|exact (inv_kill _ _ Hi)].
Qed.

Lemma move_to_bol_ok vim t b : inv vim t -> returns (inv vim) (move_cursor_to_beginning_of_line t b).
Proof.
  intros Hi. step (current_line_start_ok vim t Hi). intros bol Hb.
  eapply (returns_bind (inv vim)); [|intros t' Hi'; by apply inv_set_preferred_col].
  destruct (b && (cursor_pos t =? bol)) eqn:E; [|by apply inv_set_cursor].
  destruct_bools. subst bol.
  assert (boundary (text t) (cursor_pos t - 1)).
  { destruct (cursor_pos t) eqn:Ec; [apply boundary_0|]. rewrite <- Ec in *.
    eapply line_start_prev; [done|lia]. }
  eapply (returns_bind (fun _ => True)); [|intros; by apply inv_set_cursor].
  by eapply returns_mono; [apply beginning_of_line_ok|].
Qed.

Lemma move_to_eol_ok vim t b : inv vim t -> returns (inv vim) (move_cursor_to_end_of_line t b).
Proof.
  intros Hi. step (current_line_end_ok vim t Hi). intros eol He.
  destruct (b && (cursor_pos t =? eol)) eqn:E; [|by apply inv_set_cursor].
  destruct_bools. subst eol. pose proof (boundary_le _ _ (inv_cursor _ _ Hi)).
  assert (boundary (text t) (Nat.min (cursor_pos t + 1) (str_len (text t)))).
  { destruct (decide (cursor_pos t < str_len (text t))) as [Hlt|Hge].
    - rewrite Nat.min_l by lia. by eapply line_end_next.
    - rewrite Nat.min_r by lia. apply boundary_len. }
  eapply (returns_bind (fun _ => True)); [|intros; by apply inv_set_cursor].
  by eapply returns_mono; [apply end_of_line_ok|].
Qed.

(** ** Vertical moves *)

Lemma move_to_display_col_ok vim t a b col :
  inv vim t -> boundary (text t) a -> boundary (text t) b -> a <= b ->
  returns (inv vim) (move_to_display_col_on_line t a b col).
Proof.
  intros Hi Ha Hb Hle. unfold move_to_display_col_on_line.
  step (returns_str_range _ _ _ Ha Hb Hle). intros line _. apply returns_done.
  exact (inv_clamp vim t _ Hi).
Qed.

Lemma visible_prefix_ok s w : returns (fun _ => True) (visible_prefix s w).
Proof.
  unfold visible_prefix. destruct (w =? 0); [done|]. destruct (_ <=? _); [done|].
  destruct (_ !! _) as [[i g]|] eqn:E; [|done].
  apply list_elem_of_lookup_2, list_elem_of_In, List.filter_In in E as [Hin%list_elem_of_In _].
  pose proof (proj1 (Forall_forall _ _) (grapheme_indices_ok s) _ Hin) as Hp.
  destruct (piece_of_boundary _ _ _ Hp) as [_ Hb]. by eapply returns_mono; [apply returns_str_to|].
Qed.

Lemma take_while_lookup {A} (p : A -> bool) l i :
  i < length (take_while p l) -> exists x, l !! i = Some x /\ p x = true.
Proof.
  revert i. induction l as [|x l IH]; intros i; simpl; [lia|].
  destruct (p x) eqn:E; simpl; [|lia]. destruct i as [|i]; simpl; [by exists x|].
  intros Hi. apply IH. lia.
Qed.

(** The row found is a row of the text. *)
Lemma cursor_position_ok s lines w p :
  Forall (row_ok s) lines -> boundary s p ->
  returns (fun o => forall idx col, o = Some (idx, col) -> idx < length lines)
    (cursor_position s lines w p).
Proof.
  intros Hrows Hp. unfold cursor_position.
  destruct (partition_point _ lines) as [|row] eqn:E; [done|].
  destruct (take_while_lookup (fun line => line.1 <=? p) lines row) as (line & Hl & Hle).
  { unfold partition_point in E. lia. }
  rewrite Hl. apply Nat.leb_le in Hle.
  destruct (proj1 (Forall_lookup _ _) Hrows _ _ Hl) as (? & Hs & ?).
  step (returns_str_range _ _ _ Hs Hp Hle). intros seg _.
  step (visible_prefix_ok seg w). intros before _.
  destruct (_ && _) eqn:Eb; apply returns_done; intros ? ? [= <- _].
  - destruct_bools. destruct (lines !! (row + 1)) eqn:E2; [|done]. by eapply lookup_lt_Some.
  - by eapply lookup_lt_Some.
Qed.

(** A row to move to, with its last position moved off the next row. *)
Lemma row_target_ok vim t row (off : bool) :
  inv vim t -> row_ok (text t) row ->
  let line_end := if off then Nat.max (prev_atomic_boundary t (row.2 - 1)) row.1 else row.2 - 1 in
  boundary (text t) row.1 /\ boundary (text t) line_end /\ row.1 <= line_end.
Proof.
  intros Hi (Hlt & Ha & Hb). destruct (prev_atomic_ok _ _ _ Hi Hb) as (Hp & _ & _). destruct off.
  - split; [done|]. split; [|lia]. by destruct (Nat.max_dec (prev_atomic_boundary t (row.2 - 1)) row.1) as [-> | ->].
  - split; [done|]. split; [done|lia].
Qed.

Lemma wrapped_target_ok vim t up :
  inv vim t ->
  returns (fun o => forall col a b, o = Some (col, Some (a, b)) ->
                    boundary (text t) a /\ boundary (text t) b /\ a <= b)
    (wrapped_target t up).
Proof.
  intros Hi. unfold wrapped_target. pose proof (inv_cache _ _ Hi) as Hc.
  destruct (wrap_cache t) as [cache|]; [|done]. specialize (Hc cache eq_refl).
  step (cursor_position_ok _ _ (cache_width cache) _ Hc (inv_cursor _ _ Hi)).
  intros [[idx col]|] Hidx; [|done]. specialize (Hidx idx col eq_refl).
  destruct up.
  - destruct (lookup_lt_is_Some_2 _ _ Hidx) as [cur ->]. destruct idx as [|prev]; [done|].
    destruct (lookup_lt_is_Some_2 (cache_lines cache) prev ltac:(lia)) as [row Hr]. rewrite Hr.
    apply returns_done. intros ? ? ? [= _ <- <-]. apply (row_target_ok vim t row); [done|].
    by apply (proj1 (Forall_lookup _ _) Hc _ _ Hr).
  - destruct (cache_lines cache !! (idx + 1)) as [row|] eqn:Hr; [|done].
    apply returns_done. intros ? ? ? [= _ <- <-]. apply (row_target_ok vim t row); [done|].
    by apply (proj1 (Forall_lookup _ _) Hc _ _ Hr).
Qed.

Lemma inv_keep_preferred_col vim t c : inv vim t -> inv vim (keep_preferred_col t c).
Proof. intros Hi. unfold keep_preferred_col. destruct (preferred_col t); auto with codex. Qed.

Lemma logical_target_col_ok vim t :
  inv vim t ->
  returns (fun r => inv vim r.2 /\ text r.2 = text t /\ cursor_pos r.2 = cursor_pos t)
    (logical_target_col t).
Proof.
  intros Hi. unfold logical_target_col. destruct (preferred_col t); [done|].
  eapply (returns_bind (fun _ => True)); [|intros c _; split; [by apply inv_set_preferred_col|done]].
  unfold current_display_col. step (current_line_start_ok vim t Hi). intros bol (Hb & ? & _).
  by step (returns_str_range _ _ _ Hb (inv_cursor _ _ Hi) ltac:(lia)).
Qed.

Lemma inv_to_start vim t : inv vim t -> inv vim (set_preferred_col (set_cursor_pos t 0) None).
Proof.
  intros Hi. destruct (outside_ends _ _ (inv_elements _ _ Hi)).
  by apply inv_set_preferred_col, inv_set_cursor_pos; auto with codex.
Qed.

Lemma inv_to_end vim t :
  inv vim t -> inv vim (set_preferred_col (set_cursor_pos t (str_len (text t))) None).
Proof.
  intros Hi. destruct (outside_ends _ _ (inv_elements _ _ Hi)).
  by apply inv_set_preferred_col, inv_set_cursor_pos; auto with codex.
Qed.

Lemma move_cursor_up_ok vim t : inv vim t -> returns (inv vim) (move_cursor_up t).
Proof.
  intros Hi. unfold move_cursor_up. step (wrapped_target_ok vim t true Hi).
  intros [[col [[a b]|]]|] Hw.
  - destruct (Hw col a b eq_refl) as (Ha & Hb & Hle).
    assert (Ht : text (keep_preferred_col t col) = text t)
      by (unfold keep_preferred_col; by destruct (preferred_col t)).
    apply move_to_display_col_ok; rewrite ?Ht; try done. by apply inv_keep_preferred_col.
  - by apply inv_to_start.
  - step (returns_str_to _ _ (inv_cursor _ _ Hi)). intros before (r & Ht & _).
    destruct (rfind_char is_lf before) as [nl|] eqn:E; [|by apply inv_to_start].
    apply rfind_char_Some in E as (a & c & b & -> & -> & _).
    step (logical_target_col_ok vim t Hi). intros [col t'] (Hi' & Ht' & _). simpl in Ht', Hi'.
    cbn beta iota. assert (Hnl : boundary (text t') (str_len a)).
    { rewrite Ht', Ht. by apply boundary_app_l, boundary_app. }
    pose proof (beginning_of_line_ok t' _ Hnl) as Hbol. unfold beginning_of_line in Hbol.
    destruct (str_to (text t') (str_len a)) as [prev| |]; [|done..].
    cbn [mbind outcome_bind] in *. destruct Hbol as (? & ? & _). by apply move_to_display_col_ok.
Qed.

Lemma move_cursor_down_ok vim t : inv vim t -> returns (inv vim) (move_cursor_down t).
Proof.
  intros Hi. unfold move_cursor_down. step (wrapped_target_ok vim t false Hi).
  intros [[col [[a b]|]]|] Hw.
  - destruct (Hw col a b eq_refl) as (Ha & Hb & Hle).
    assert (Ht : text (keep_preferred_col t col) = text t)
      by (unfold keep_preferred_col; by destruct (preferred_col t)).
    apply move_to_display_col_ok; rewrite ?Ht; try done. by apply inv_keep_preferred_col.
  - by apply inv_to_end.
  - step (logical_target_col_ok vim t Hi). intros [col t'] (Hi' & _). simpl in Hi'. cbn beta iota.
    pose proof (end_of_line_ok t' _ (inv_cursor _ _ Hi')) as Heol. unfold end_of_line in Heol.
    destruct (str_from (text t') (cursor_pos t')) as [after| |] eqn:Ea; [|done..].
    cbn [mbind outcome_bind] in *.
    destruct (find_char is_lf after) as [i|] eqn:E; [|by apply inv_to_end].
    assert (Hlt : i + cursor_pos t' < str_len (text t')).
    { apply find_char_Some in E as (u & c & v & -> & -> & _). pose proof (len_utf8_pos c).
      unfold str_from in Ea. destruct (split_bytes _ _) as [[x y]|] eqn:Es; [|done].
      injection Ea as ->. apply split_bytes_Some in Es as [-> ->].
      rewrite !str_len_app. simpl. lia. }
    pose proof (line_end_next _ _ _ Heol Hlt) as Hnext.
    pose proof (end_of_line_ok t' _ Hnext) as Heol2. unfold end_of_line in Heol2.
    destruct (str_from (text t') (i + cursor_pos t' + 1)) as [rest| |]; [|done..].
    cbn [mbind outcome_bind] in *. destruct Heol2 as (? & ? & _). by apply move_to_display_col_ok.
Qed.

(** ** Drawing *)

Lemma boundary_same_lengths s s' p :
  len_utf8 <$> s = len_utf8 <$> s' -> boundary s p -> boundary s' p.
Proof.
  intros Heq (a & b & -> & ->). revert s' Heq. induction a as [|c a IH]; intros s' Heq; [apply boundary_0|].
  destruct s' as [|c' s']; [done|]. injection Heq as Hc Heq.
  destruct (IH s' Heq) as (u & v & -> & Hu). exists (c' :: u), v. simpl in *. split; [done|lia].
Qed.

Lemma display_lengths s : len_utf8 <$> text_for_display s = len_utf8 <$> s.
Proof.
  unfold text_for_display. induction s as [|c s IH]; [done|]. rewrite !fmap_cons, IH. f_equal.
  by destruct (N.eqb_spec c 9) as [-> |].
Qed.

Lemma refresh_wrap_cache_ok vim t w : inv vim t -> inv vim (refresh_wrap_cache t w).
Proof.
  intros Hi. unfold refresh_wrap_cache. 
  destruct (match wrap_cache t with Some c => negb (cache_width c =? w) | None => true end); [|done].
  destruct Hi. constructor; try done. intros c Hc. simpl in *. injection Hc as <-. simpl.
  eapply Forall_impl; [apply wrapped_lines_law|]. intros [a b] (Hlt & Ha & Hb).
  split; [done|]. pose proof (display_lengths (text t)).
  split; eapply boundary_same_lengths; eauto.
Qed.
End moves.
