(* ===== verification/TextAreaElements.v ===== *)
(** * TextAreaElements: operations on the elements of a text area

    Inserting, marking, renaming and removing atomic elements, and replacing the
    whole buffer, keep the invariant of TextAreaInv.v. *)

From Stdlib Require Import Lia.
From stdpp Require Import base list strings.
From S2P Require Import Prelude TextPos Keys TextArea TextAreaInv.

Open Scope rust_scope.

Implicit Types (t : TextArea) (vim : mode).

(** The invariant up to the cursor, which the operations set last. *)
Definition inv0 vim t : Prop := inv vim (set_cursor_pos t 0).

Lemma inv_inv0 vim t : inv vim t -> inv0 vim t.
Proof. intros Hi. apply inv_set_cursor_pos; [done|apply boundary_0|]. intros e _. lia. Qed.

Lemma inv0_set_cursor vim t p : inv0 vim t -> inv vim (set_cursor t p).
Proof. intros Hi. exact (inv_set_cursor vim (set_cursor_pos t 0) p Hi). Qed.

Lemma inv0_clamp vim t p : inv0 vim t -> inv vim (set_cursor_pos t (clamp_pos_to_nearest_boundary t p)).
Proof. intros Hi. exact (inv_clamp vim (set_cursor_pos t 0) p Hi). Qed.

Lemma inv0_intro vim t :
  elements_ok (text t) (elements t) -> cache_ok (text t) (wrap_cache t) ->
  (vim_on vim = false -> vim_enabled t = false) -> (vim_on vim = true -> c_cr ∉ text t) ->
  Forall (payload_ok vim (text t)) (elements t) ->
  (vim_on vim = true -> c_cr ∉ kill_buffer t) -> (vim_on vim = true -> commands_ok (vim_commands t)) -> inv0 vim t.
Proof. intros. constructor; try done; [apply boundary_0|]. intros e _. simpl. lia. Qed.

Lemma inv0_perm vim t es : inv0 vim t -> elements t ≡ₚ es -> inv0 vim (set_elements t es).
Proof.
  intros [_ _ Hok ? ? ? Hpay ? ?] Hp. apply inv0_intro; try done; simpl in *.
  - by eapply elements_ok_perm.
  - by rewrite <- Hp.
Qed.

(** A new element over a range of the text. *)
Definition range_ok vim (s : rstr) (a b : nat) : Prop :=
  a <= b /\ boundary s a /\ boundary s b
  /\ (forall id m, str_get s a b = Some m -> payloads vim id m).

Lemma add_element_ok vim t a b :
  inv0 vim t -> range_ok vim (text t) a b ->
  Forall (fun e => b <= elem_start e \/ elem_end e <= a) (elements t) ->
  inv0 vim (add_element t a b).2.
Proof.
  intros [_ _ Hok ? ? ? Hpay ? ?] (Hle & Ha & Hb & Hlf) Hdis. simpl in *.
  set (e := mkElement (next_id t) a b).
  assert (Hi : inv0 vim (set_elements (set_next_id t (sat_add (next_id t) 1)) (elements t ++ [e]))).
  { apply inv0_intro; try done; simpl.
    - apply elements_ok_snoc; [done|done|]. exact Hdis.
    - apply Forall_app. split; [done|]. constructor; [|constructor]. intros m. by apply Hlf. }
  apply (inv0_perm _ _ _ Hi). symmetry. apply sort_by_key_perm.
Qed.

(** What an insertion leaves: the text around it, and elements on either side. *)
Lemma insert_str_at_shape vim t p s :
  inv vim t -> admissible vim s ->
  returns (fun t' => inv vim t'
      /\ exists a b, text t' = a ++ s ++ b /\ str_len a = clamp_pos_for_insertion t p
         /\ Forall (fun e => str_len a + str_len s <= elem_start e \/ elem_end e <= str_len a) (elements t'))
    (insert_str_at t p s).
Proof.
  intros Hi Hs. apply returns_and; [by apply insert_str_at_ok|].
  unfold insert_str_at. rewrite clamp_for_insertion_nearest.
  destruct (clamp_nearest_ok t p (inv_elements _ _ Hi)) as [Hb Ho].
  destruct Hb as (a & b & Ht & Hp). rewrite Hp in *. rewrite Ht, str_insert_app. simpl.
  exists a, b. split; [done|]. split; [done|].
  apply Forall_forall. intros e' He'.
  assert (Hcl : Forall (clean (str_len a) (str_len a + 0)) (elements t)).
  { apply Forall_forall. intros e He. destruct (Ho e He); unfold clean; lia. }
  destruct (shift_elem_inv _ _ _ _ _ Hcl He') as (e & He & _ & Hor).
  destruct (elem_in_ok _ _ _ (inv_elements _ _ Hi) He) as (? & _).
  unfold shifted in Hor. destruct Hor as [(? & -> & ->)|(? & -> & ->)]; lia.
Qed.

Lemma insert_element_ok vim t s :
  inv vim t -> admissible vim s -> (forall id, payloads vim id s) ->
  returns (fun r => inv vim r.2) (insert_element t s).
Proof.
  intros Hi Hs Hlf. unfold insert_element.
  set (start := clamp_pos_for_insertion t (cursor_pos t)).
  step (insert_str_at_shape vim t start s Hi Hs). intros t' (Hi' & a & b & Ht' & Ha & Hes).
  assert (Hstart : str_len a = start).
  { rewrite Ha, clamp_for_insertion_nearest.
    destruct (clamp_nearest_ok t (cursor_pos t) (inv_elements _ _ Hi)). by apply clamp_nearest_id. }
  rewrite Hstart in *.
  destruct (add_element t' start (start + str_len s)) as [id t''] eqn:E.
  apply returns_done. simpl. apply inv0_set_cursor.
  replace t'' with (add_element t' start (start + str_len s)).2 by by rewrite E.
  apply add_element_ok; [by apply inv_inv0| |done].
  unfold range_ok. rewrite Ht', <- Hstart. split; [lia|]. split; [apply boundary_app|].
  split; [apply boundary_app_r, boundary_app|].
  intros id' m. rewrite str_get_cut. intros [= <-]. auto.
Qed.

Lemma add_element_range_ok vim t a b :
  inv vim t ->
  let start := clamp_pos_to_char_boundary t (Nat.min a (str_len (text t))) in
  let end_ := clamp_pos_to_char_boundary t (Nat.min b (str_len (text t))) in
  cursor_pos t <= start \/ end_ <= cursor_pos t ->
  (forall id m, str_get (text t) start end_ = Some m -> payloads vim id m) ->
  inv vim (add_element_range t a b).2.
Proof.
  intros Hi start end_ Hc Hlf. unfold add_element_range. fold start end_.
  destruct (Nat.leb_spec end_ start); [done|]. destruct (existsb _ _); [done|].
  destruct (overlaps_some_element t start end_) eqn:Eo; [done|].
  assert (Hdis : Forall (fun e => end_ <= elem_start e \/ elem_end e <= start) (elements t)).
  { apply Forall_forall. intros e He. unfold overlaps_some_element in Eo.
    apply not_true_iff_false in Eo. rewrite List.existsb_exists in Eo.
    destruct (decide (end_ <= elem_start e)); [by left|right].
    destruct (decide (elem_end e <= start)); [done|]. exfalso. apply Eo. exists e.
    split; [by apply list_elem_of_In|]. apply andb_true_iff. rewrite !Nat.ltb_lt. lia. }
  assert (Hr : range_ok vim (text t) start end_).
  { split; [lia|]. repeat split; try apply clamp_to_char_boundary_ok. done. }
  pose proof (add_element_ok vim t start end_ (inv_inv0 _ _ Hi) Hr Hdis) as Hi'.
  destruct (add_element t start end_) as [id t'] eqn:E. simpl in *.
  assert (Ht : t' = set_cursor_pos (set_cursor_pos t' 0) (cursor_pos t)).
  { unfold add_element, next_element_id in E. by injection E as _ <-. }
  rewrite Ht. unfold add_element, next_element_id in E. injection E as _ Et'.
  apply inv_set_cursor_pos; [exact Hi'|rewrite <- Et'; exact (inv_cursor _ _ Hi)|].
  rewrite <- Et'. simpl. intros e. rewrite sort_by_key_perm. intros [He|He]%elem_of_app.
  - by apply (inv_outside _ _ Hi).
  - apply list_elem_of_singleton in He as ->. simpl. lia.
Qed.

Lemma remove_element_range_ok vim t a b : inv vim t -> inv vim (remove_element_range t a b).2.
Proof.
  intros Hi. unfold remove_element_range. destruct (_ <=? _); [done|]. simpl.
  destruct Hi as [? Ho ? ? ? ? Hpay ? ?]. constructor; try done; simpl.
  - intros e [He _]%list_elem_of_In%List.filter_In. by apply Ho, list_elem_of_In.
  - by apply elements_ok_filter.
  - apply List.Forall_forall.
    intros e [He _]%List.filter_In. by apply (proj1 (List.Forall_forall _ _) Hpay).
Qed.

(** ** Replacing the buffer *)

Definition ranges_ok vim (s : rstr) (rs : list (nat * nat)) : Prop :=
  Forall (fun r => range_ok vim s r.1 r.2) rs
  /\ ForallOrdPairs (fun r q => r.2 <= q.1 \/ q.2 <= r.1) rs.

Lemma rebuild_elements_ok vim rs t :
  inv0 vim t -> ranges_ok vim (text t) rs ->
  Forall (fun r => Forall (fun e => r.2 <= elem_start e \/ elem_end e <= r.1) (elements t)) rs ->
  inv0 vim (rebuild_elements t rs) /\ text (rebuild_elements t rs) = text t.
Proof.
  revert t. induction rs as [|[a b] rs IH]; intros t Hi [Hr Hp] Hdis; simpl; [done|].
  inversion_clear Hr as [|? ? Hab Hrs]. inversion_clear Hp as [|? ? Hfst Hpairs].
  inversion_clear Hdis as [|? ? Hd Hds]. simpl in *.
  destruct Hab as (Hle & Ha & Hb & Hlf). unfold clamp_pos_to_char_boundary.
  rewrite !Nat.min_l by by apply boundary_le. rewrite !clamp_to_char_boundary_id by done.
  destruct (Nat.leb_spec b a); [by apply IH|].
  set (e := mkElement (next_id t) a b).
  set (t' := set_elements _ _). destruct Hi as [_ _ Hok ? ? ? Hpay ? ?]. simpl in *.
  destruct (IH t') as [? ?]; [| | |done].
  - apply inv0_intro; try done; simpl.
    + by apply elements_ok_snoc.
    + apply Forall_app. split; [done|]. constructor; [|constructor]. intros m. by apply Hlf.
  - done.
  - rewrite Forall_forall in *. intros r Hr. apply Forall_app. split; [by apply Hds|].
    constructor; [|constructor]. simpl. destruct (Hfst r Hr); lia.
Qed.

Lemma set_text_inner_ok vim t s rs :
  inv vim t -> admissible vim s -> (forall l, rs = Some l -> ranges_ok vim s l) ->
  inv vim (set_text_inner t s rs).
Proof.
  intros Hi Hs Hrs. unfold set_text_inner.
  set (t0 := with_buffer t s (Nat.min (cursor_pos t) (str_len s)) (wrap_cache t) (preferred_col t) []).
  assert (Hi0 : inv0 vim (set_wrap_cache t0 None)).
  { destruct Hi. apply inv0_intro; try done; simpl.
    split; constructor. }
  set (t1 := match rs with Some _ => _ | None => _ end).
  assert (Hi1 : inv0 vim (set_wrap_cache t1 None)).
  { subst t1. destruct rs as [l|]; [|done].
    destruct (rebuild_elements_ok vim l (set_wrap_cache t0 None) Hi0) as [Hb _];
      [by apply Hrs|by apply Forall_forall|].
    assert (Hcache : forall l t, rebuild_elements (set_wrap_cache t None) l
                                 = set_wrap_cache (rebuild_elements t l) None).
    { clear. induction l as [|[a b] l IH]; intros t; simpl; [done|].
      unfold clamp_pos_to_char_boundary. simpl. destruct (_ <=? _); [apply IH|].
      by rewrite <- IH. }
    rewrite Hcache in Hb. apply (inv0_perm _ _ _ Hb). symmetry. apply sort_by_key_perm. }
  clearbody t1. clear -Hi1.
  pose proof (inv0_clamp vim _ (cursor_pos t1) Hi1) as [? ? ? ? ? ? ? ?].
  by constructor.
Qed.

(** ** Renaming an element *)

Lemma payload_position_ok s old es idx :
  payload_position s old es = Some idx ->
  exists l e k, es = l ++ e :: k /\ length l = idx /\ str_get s (elem_start e) (elem_end e) = Some old.
Proof.
  revert idx. induction es as [|e es IH]; intros idx; simpl; [done|].
  destruct (bool_decide _) eqn:E.
  - intros [= <-]. apply bool_decide_eq_true in E. by exists [], e, es.
  - intros (j & Hj & ->)%fmap_Some. destruct (IH j Hj) as (l & f & k & -> & <- & ?).
    by exists (e :: l), f, k.
Qed.

Lemma moved_by_payload_moved start removed inserted e :
  elem_end e <= start \/ start + removed <= elem_start e -> elem_start e <= elem_end e ->
  moved start removed inserted e (moved_by_payload start (start + removed) removed inserted e).
Proof.
  intros Hor Hle. unfold moved, moved_by_payload, shifted.
  destruct (Nat.leb_spec (elem_end e) start); [by auto|].
  destruct (Nat.leb_spec (start + removed) (elem_start e)); [by auto|]. lia.
Qed.

(** The list that the source computes in place, without the index. *)
Lemma renamed_elements start removed inserted e' (l k : list Element) e idx :
  length l = idx ->
  Forall (fun f => elem_end f <= start \/ start + removed <= elem_start f) (l ++ k) ->
  Forall (fun f => elem_start f <= elem_end f) (l ++ k) ->
  let es := <[idx := e']> (l ++ e :: k) in
  (if inserted =? removed then es
   else imap (fun j f => if j =? idx then f
                         else moved_by_payload start (start + removed) removed inserted f) es)
  = (moved_by_payload start (start + removed) removed inserted <$> l)
    ++ e' :: (moved_by_payload start (start + removed) removed inserted <$> k).
Proof.
  intros Hl Hor Hle es. subst es.
  assert (Hins : <[idx := e']> (l ++ e :: k) = l ++ e' :: k).
  { rewrite insert_app_r_alt by lia. by rewrite Hl, Nat.sub_diag. }
  rewrite Hins. destruct (Nat.eqb_spec inserted removed) as [->|Hne].
  - assert (Hid : forall f, f ∈ l ++ k ->
              moved_by_payload start (start + removed) removed removed f = f).
    { rewrite Forall_forall in Hor, Hle. intros f Hf.
      destruct (moved_by_payload_moved start removed removed f (Hor f Hf) (Hle f Hf))
        as [Hid [(? & Hs & He)|(? & Hs & He)]];
      destruct f as [i a b], (moved_by_payload _ _ _ _ _) as [i' a' b']; simpl in *;
      unfold shifted in *; f_equal; (done || lia). }
    assert (Hfmap : forall m : list Element, (forall f, f ∈ m -> f ∈ l ++ k) ->
              moved_by_payload start (start + removed) removed removed <$> m = m).
    { clear -Hid. induction m as [|f m IH]; intros Hm; [done|]. rewrite fmap_cons, IH, Hid; [done| |].
      - apply Hm. by left.
      - intros g Hg. apply Hm. by right. }
    rewrite !Hfmap; [done| |]; intros f Hf; apply elem_of_app; auto.
  - rewrite imap_app. cbn [imap]. rewrite Nat.add_0_r, Hl, Nat.eqb_refl. f_equal; [|f_equal].
    + rewrite <- (imap_const _ l). apply imap_ext. intros i f Hi%lookup_lt_Some.
      destruct (Nat.eqb_spec i idx); [lia|done].
    + rewrite <- (imap_const _ k). apply imap_ext. intros i f _. simpl.
      destruct (Nat.eqb_spec (idx + S i) idx); [lia|done].
Qed.

Lemma replace_element_payload_ok vim t old new :
  inv vim t -> admissible vim new -> (forall id, payloads vim id new) ->
  returns (fun r => inv vim r.2) (replace_element_payload t old new).
Proof.
  intros Hi Hs Hlf. unfold replace_element_payload.
  destruct (payload_position (text t) old (elements t)) as [idx|] eqn:E; [|done].
  apply payload_position_ok in E as (l & e & k & Hes & Hl & Hget).
  assert (Hidx : elements t !! idx = Some e) by (rewrite Hes; by apply list_lookup_middle).
  rewrite Hidx. destruct (_ || _); [done|].
  apply str_get_Some in Hget as (a & b & Ht & Hstart & Hend).
  rewrite Hstart, Hend, Ht, str_replace_cut. cbn [mbind outcome_bind].
  replace (str_len a + str_len old - str_len a) with (str_len old) by lia.
  pose proof (inv_elements _ _ Hi) as Hok.
  assert (Hothers : elements_ok (text t) (e :: l ++ k)).
  { eapply elements_ok_perm; [|exact Hok]. rewrite Hes. symmetry. apply Permutation_middle. }
  destruct Hothers as [Hall Hpairs]. inversion_clear Hall as [|? ? He Hrest].
  inversion_clear Hpairs as [|? ? Hdis Hpairs'].
  assert (Hor : Forall (fun f => elem_end f <= str_len a \/ str_len a + str_len old <= elem_start f) (l ++ k)).
  { eapply Forall_impl; [exact Hdis|]. unfold disjoint_elems. rewrite Hstart, Hend. intros f. lia. }
  assert (Hle : Forall (fun f => elem_start f <= elem_end f) (l ++ k))
    by (eapply Forall_impl; [exact Hrest|]; by intros f (? & _)).
  rewrite Hes, (renamed_elements (str_len a) _ _ _ l k e idx Hl Hor Hle).
  set (es := (_ <$> l) ++ _ :: _). apply returns_done. simpl.
  set (t1 := with_buffer t (a ++ new ++ b) _ None None es).
  assert (Hi1 : inv0 vim t1).
  { assert (Hperm : mkElement (elem_id e) (str_len a) (str_len a + str_len new)
        :: (moved_by_payload (str_len a) (str_len a + str_len old) (str_len old) (str_len new)
              <$> l ++ k) ≡ₚ es).
    { unfold es. rewrite fmap_app. apply Permutation_middle. }
    assert (Hmoved : forall f, f ∈ l ++ k -> elem_ok (a ++ old ++ b) f
        /\ moved (str_len a) (str_len old) (str_len new) f
             (moved_by_payload (str_len a) (str_len a + str_len old) (str_len old) (str_len new) f)).
    { rewrite Ht in Hrest. rewrite Forall_forall in Hrest, Hor, Hle. intros f Hf.
      split; [by apply Hrest|]. apply moved_by_payload_moved; auto. }
    destruct Hi as [_ _ _ ? ? Hcr Hpay ? ?]. apply inv0_intro; try done; simpl.
    - eapply elements_ok_perm; [exact Hperm|]. split.
      + constructor; [split; simpl; [lia|]; split; [apply boundary_app|apply boundary_app_r, boundary_app]|].
        apply Forall_fmap, Forall_forall. intros f Hf. unfold compose.
        destruct (Hmoved f Hf). by eapply moved_ok.
      + constructor.
        * apply Forall_fmap, Forall_forall. intros f Hf. unfold compose, disjoint_elems. simpl.
          destruct (Hmoved f Hf) as [(? & _) [_ [(? & -> & ->)|(? & -> & ->)]]]; unfold shifted; lia.
        * apply (pairwise_map disjoint_elems _ (fun f => f ∈ l ++ k)); [|by apply Forall_forall|done].
          intros f g Hf Hg. destruct (Hmoved f Hf) as [(? & _) ?], (Hmoved g Hg) as [(? & _) ?].
          by eapply moved_disjoint.
    - intros Hv. rewrite Ht in Hcr. specialize (Hs Hv). specialize (Hcr Hv).
      rewrite !elem_of_app in *. tauto.
    - rewrite <- Hperm. constructor.
      + intros m. simpl. rewrite str_get_cut. intros [= <-]. auto.
      + apply Forall_fmap, Forall_forall. intros f Hf m. unfold compose.
        destruct (Hmoved f Hf) as [Hfok Hmv]. rewrite (moved_payload a old b new f) by done.
        rewrite (proj1 Hmv), <- Ht. apply (proj1 (Forall_forall _ _) Hpay). rewrite Hes.
        apply elem_of_app. apply elem_of_app in Hf as [Hf|Hf]; [by left|right; by right]. }
  pose proof (inv0_clamp vim t1 (cursor_pos t1) Hi1) as Hi2.
  pose proof (inv0_perm vim _ (sort_by_key elem_start es) (inv_inv0 _ _ Hi2)
                (symmetry (sort_by_key_perm elem_start es))) as Hi3.
  apply (inv_set_cursor_pos vim _ (clamp_pos_to_nearest_boundary t1 (cursor_pos t1))) in Hi3.
  - exact Hi3.
  - exact (inv_cursor _ _ Hi2).
  - simpl. intros f. rewrite sort_by_key_perm. apply (inv_outside _ _ Hi2).
Qed.
