(* ===== verification/TextAreaSafety.v ===== *)
(** * TextAreaSafety: keys never break the text area

    The operations of TextAreaVim.v keep the invariant of TextAreaInv.v.  The
    theorems: no sequence of keys and edits panics; elements stay whole; a kill
    is undone by a yank; the Vim finds do panic on an element of several lines. *)

From Stdlib Require Import Lia.
From stdpp Require Import base list strings.
From S2P Require Import Prelude TextPos Keys TextArea TextAreaVim TextAreaInv TextAreaMoves TextAreaElements.

Open Scope rust_scope.

(** A character of the text at a position. *)
Definition char_at (s : rstr) (ic : nat * N) : Prop :=
  exists a b, s = a ++ ic.2 :: b /\ ic.1 = str_len a.

Lemma char_at_boundary s i c : char_at s (i, c) -> boundary s i /\ boundary s (i + len_utf8 c).
Proof.
  intros (a & b & -> & Hi). simpl in *. subst i. split; [apply boundary_app|].
  exists (a ++ [c]), b. rewrite str_len_app, <- app_assoc. simpl. split; [done|lia].
Qed.

Lemma char_indices_at s a line b :
  s = a ++ line ++ b -> Forall (char_at s) (char_indices_from (str_len a) line).
Proof.
  intros ->. apply Forall_forall. intros [i c] (u & v & -> & ->)%char_indices_from_elem.
  exists (a ++ u), (v ++ b). simpl. rewrite str_len_app. split; [by rewrite <- !app_assoc|done].
Qed.

Lemma char_indices_all s : Forall (char_at s) (char_indices s).
Proof. apply (char_indices_at s [] s []). by rewrite app_nil_r. Qed.

Definition range_in (s : rstr) (r : nat * nat) : Prop := boundary s r.1 /\ boundary s r.2.

Section safety.
Context `{SegmentationLaws}.
Implicit Types (t : TextArea) (vim : mode).

(** ** Text objects *)

Lemma non_ws_runs_loop_ok s start chars :
  Forall (char_at s) chars -> (forall i, start = Some i -> boundary s i) ->
  Forall (range_in s) (non_ws_runs_loop start (str_len s) chars).
Proof.
  intros Hc. revert start. induction Hc as [|[i c] chars Hi _ IH]; intros start Hs; simpl.
  - destruct start; [|constructor]. constructor; [|constructor]. split; [by apply Hs|apply boundary_len].
  - destruct (char_at_boundary _ _ _ Hi) as [Hb _].
    destruct (is_whitespace c); [destruct start|]; [constructor| |].
    + split; [by apply Hs|done].
    + by apply IH.
    + by apply IH.
    + apply IH. destruct start; intros ? [= <-]; auto.
Qed.

Lemma big_word_range_ok t r : big_word_range_at_cursor t = Some r -> range_in (text t) r.
Proof.
  intros [Hin _]%List.find_some. unfold non_ws_runs in Hin.
  pose proof (non_ws_runs_loop_ok (text t) None _ (char_indices_all (text t)) ltac:(done)) as Hall.
  by apply (proj1 (List.Forall_forall _ _) Hall).
Qed.

Definition optional_range_in (s : rstr) (o : option (nat * nat)) : Prop :=
  forall r, o = Some r -> range_in s r.

Lemma small_word_range_ok vim t :
  inv vim t -> returns (optional_range_in (text t)) (small_word_range_at_cursor t).
Proof.
  intros Hi. unfold small_word_range_at_cursor.
  destruct (big_word_range_at_cursor t) as [r|] eqn:E; [|done]. pose proof (big_word_range_ok t r E) as Hr.
  unfold small_word_in_run.
  assert (Hle : r.1 <= r.2).
  { apply List.find_some in E as [_ E]. apply orb_true_iff in E as [E|E];
      unfold cursor_overlaps_range, cursor_is_at_range_end in E; destruct_bools; lia. }
  step (returns_str_range (text t) _ _ (proj1 Hr) (proj2 Hr) Hle).
  intros run_text (a & b & Ht & Ha & _). apply returns_done.
  set (pieces := _ <$> split_word_pieces run_text).
  assert (Hp : Forall (range_in (text t)) pieces).
  { apply Forall_fmap. eapply Forall_impl; [apply split_word_pieces_ok|]. intros [i p] Hp.
    destruct (piece_of_boundary _ _ _ Hp). unfold compose. rewrite Ht, Ha.
    split; simpl; [|rewrite <- Nat.add_assoc]; by apply boundary_app_r, boundary_app_l. }
  destruct (List.find _ pieces) as [p|] eqn:Ef; intros q.
  - intros [= <-]. apply find_some in Ef as [Hin _]. by apply (proj1 (List.Forall_forall _ _) Hp).
  - destruct (cursor_is_at_range_end t r); [|by intros [= <-]].
    destruct (last pieces) as [p|] eqn:El; intros [= <-]; [|done].
    apply last_Some in El as [init El]. rewrite El in Hp. apply Forall_app in Hp as [_ Hp].
    by inversion_clear Hp.
Qed.

Lemma expand_word_around_ok t r : range_in (text t) r -> returns (range_in (text t)) (expand_word_around t r).
Proof.
  intros [Ha Hb]. unfold expand_word_around.
  assert (Hf : returns (boundary (text t)) (following_whitespace_end t r.2)).
  { unfold following_whitespace_end. step (returns_str_from _ _ Hb). intros after (a & -> & ->).
    apply returns_done. destruct (take_while_prefix is_whitespace after) as [x Hx]. rewrite Hx at 1.
    apply boundary_app_r, boundary_app. }
  step Hf. intros e He. destruct (_ <? _); [by split|].
  eapply (returns_bind (boundary (text t))); [|intros q Hq; by split].
  unfold preceding_whitespace_start. step (returns_str_to _ _ Ha). intros before (x & -> & _).
  apply returns_done. destruct (drop_while_end_prefix is_whitespace before) as (y & Hy & _).
  rewrite Hy at 1. by apply boundary_app_l, boundary_app.
Qed.

Lemma word_text_object_ok vim t scope big :
  inv vim t -> returns (optional_range_in (text t)) (word_text_object_range t scope big).
Proof.
  intros Hi. unfold word_text_object_range.
  eapply (returns_bind (optional_range_in (text t))).
  - destruct big; [|by apply (small_word_range_ok vim)]. intros r. by apply big_word_range_ok.
  - intros [r|] Hr; [|done]. specialize (Hr r eq_refl). destruct scope; [by intros q [= <-]|].
    step (expand_word_around_ok t r Hr). intros q Hq. by intros ? [= <-].
Qed.

Lemma better_range_ok s best c :
  optional_range_in s best -> range_in s c -> optional_range_in s (better_range best c).
Proof. intros Hb Hc. unfold better_range. destruct (_ && _); [by intros ? [= <-]|done]. Qed.

Lemma object_candidate_ok s scope o open i close :
  boundary s o /\ boundary s (o + len_utf8 open) -> char_at s (i, close) ->
  range_in s (object_candidate scope o (len_utf8 open) i (len_utf8 close)).
Proof. intros [? ?] [? ?]%char_at_boundary. by destruct scope. Qed.

Lemma paired_loop_ok t scope open close stack best chars :
  Forall (char_at (text t)) chars ->
  Forall (fun o => boundary (text t) o /\ boundary (text t) (o + len_utf8 open)) stack ->
  optional_range_in (text t) best ->
  optional_range_in (text t) (paired_loop t scope open close stack best chars).
Proof.
  intros Hc. revert stack best. induction Hc as [|[i c] chars Hi _ IH]; intros stack best Hs Hb; simpl; [done|].
  destruct (is_inside_element t i); [by apply IH|].
  destruct (N.eqb_spec c open) as [->|_].
  { apply IH; [|done]. constructor; [by apply char_at_boundary|done]. }
  destruct (N.eqb_spec c close) as [->|_]; [|by apply IH].
  inversion_clear Hs as [|o stack' Ho Hs']; [by apply IH|]. apply IH; [done|].
  destruct (around_cursor t o i); [|done]. by apply better_range_ok, object_candidate_ok.
Qed.

Lemma quoted_loop_ok t scope quote open best chars :
  Forall (char_at (text t)) chars ->
  (forall o, open = Some o -> boundary (text t) o /\ boundary (text t) (o + len_utf8 quote)) ->
  optional_range_in (text t) best ->
  returns (optional_range_in (text t)) (quoted_loop t scope quote open best chars).
Proof.
  intros Hc. revert open best. induction Hc as [|[i c] chars Hi _ IH]; intros open best Ho Hb; cbn [quoted_loop]; [done|].
  destruct (is_inside_element t i); [by apply IH|].
  destruct (N.eqb_spec c quote) as [->|_]; [|by apply IH]. cbn [orb negb].
  destruct (char_at_boundary _ _ _ Hi) as [Hbi Hbe].
  eapply (returns_bind (fun _ => True)).
  { unfold is_escaped. by step (returns_str_to _ _ Hbi). }
  intros escaped _. destruct escaped; [by apply IH|]. destruct open as [o|].
  - apply IH; [done|]. destruct (around_cursor t o i); [|done].
    apply better_range_ok; [done|]. apply object_candidate_ok; [by apply Ho|done].
  - apply IH; [|done]. by intros ? [= <-].
Qed.

Lemma text_object_range_ok vim t object scope :
  inv vim t -> returns (optional_range_in (text t)) (text_object_range t object scope).
Proof.
  intros Hi.
  assert (Hpair : forall o c, returns (optional_range_in (text t))
                    (Done (paired_text_object_range t scope o c))).
  { intros o c. apply paired_loop_ok; [apply char_indices_all|constructor|done]. }
  assert (Hquote : forall q, returns (optional_range_in (text t)) (quoted_text_object_range t scope q)).
  { intros q. unfold quoted_text_object_range.
    step (current_line_start_ok vim t Hi). intros bol (Hb & ? & _).
    step (current_line_end_ok vim t Hi). intros eol (He & ? & _).
    step (returns_str_range _ _ _ Hb He ltac:(lia)). intros line (a & b & Ht & -> & _).
    apply quoted_loop_ok; [by eapply char_indices_at|done|done]. }
  destruct object; cbn [text_object_range]; try apply Hpair; try apply Hquote;
    by apply (word_text_object_ok vim).
Qed.

(** ** Operators *)

Lemma apply_operator_to_range_ok vim t op a b :
  inv vim t -> boundary (text t) a -> boundary (text t) b ->
  returns (inv vim) (apply_vim_operator_to_range t op a b).
Proof.
  intros Hi Ha Hb. destruct op; simpl; [by apply kill_range_ok|by apply yank_range_ok|].
  eapply returns_bind; [by apply kill_range_ok|]. intros t'. apply inv_set_vim_mode.
Qed.

Lemma linewise_range_ok vim t up :
  inv vim t ->
  returns (fun o => forall r, o = Some r -> range_in (text t) r /\ r.1 < r.2)
    (linewise_range_for_vertical_motion t up).
Proof.
  intros Hi. unfold linewise_range_for_vertical_motion.
  step (current_line_range_ok vim t Hi). intros [a b] [Ha Hb]. cbn [fst snd].
  eapply (returns_bind (range_in (text t))).
  - destruct up.
    + eapply (returns_bind (boundary (text t))); [|intros q Hq; by split].
      destruct (Nat.eqb_spec a 0); [apply Ha|].
      eapply returns_mono; [apply beginning_of_line_ok; eapply line_start_prev; [done|lia]|].
      by intros q (? & _).
    + eapply (returns_bind (boundary (text t))); [|intros q Hq; split; [apply Ha|done]].
      destruct (_ <=? b); [done|]. step (end_of_line_ok t b Hb). intros eol He.
      apply returns_done. destruct (Nat.ltb_spec eol (str_len (text t)));
        [by eapply line_end_next|apply He].
  - intros r Hr. apply returns_done. destruct (Nat.ltb_spec r.1 r.2); [|done]. by intros ? [= <-].
Qed.

(** The motions along the text; the vertical ones are linewise. *)
Lemma target_for_motion_ok vim t motion :
  inv vim t -> motion <> MotionUp -> motion <> MotionDown ->
  returns (boundary (text t)) (target_for_motion t motion).
Proof.
  intros Hi Hup Hdown. unfold target_for_motion.
  assert (Hjump : forall (m : run nat) (P : nat -> Prop), returns P m ->
    returns (fun t' => boundary (text t) (cursor_pos t')) (p ← m; Done (set_cursor t p))).
  { intros m P Hm. step Hm. intros p _. exact (inv_cursor _ _ (inv_set_cursor vim t p Hi)). }
  eapply (returns_bind (fun t' => boundary (text t) (cursor_pos t'))); [|by intros t' Ht'].
  destruct motion; try done.
  - exact (inv_cursor _ _ (move_cursor_left_ok vim t Hi)).
  - exact (inv_cursor _ _ (move_cursor_right_ok vim t Hi)).
  - eapply Hjump, (beginning_of_next_word_ok vim t Hi).
  - eapply Hjump, (beginning_of_previous_word_ok vim t Hi).
  - eapply Hjump, (vim_word_end_exclusive_ok vim t Hi).
  - eapply Hjump, (current_line_start_ok vim t Hi).
  - eapply Hjump, (current_line_end_ok vim t Hi).
Qed.

Lemma range_for_motion_ok vim t motion :
  inv vim t ->
  returns (fun o => forall r, o = Some r -> range_in (text t) r /\ r.1 < r.2) (range_for_motion t motion).
Proof.
  intros Hi.
  assert (Hmove : motion <> MotionUp -> motion <> MotionDown ->
    returns (fun o => forall r, o = Some r -> range_in (text t) r /\ r.1 < r.2)
      (target ← target_for_motion t motion;
       Done (if cursor_pos t =? target then None
             else if target <? cursor_pos t then Some (target, cursor_pos t)
                  else Some (cursor_pos t, target)))).
  { intros Hup Hdown. step (target_for_motion_ok vim t motion Hi Hup Hdown). intros p Hp.
    pose proof (inv_cursor _ _ Hi). apply returns_done.
    destruct (Nat.eqb_spec (cursor_pos t) p); [done|].
    destruct (Nat.ltb_spec p (cursor_pos t)); intros ? [= <-]; (split; [by split|simpl; lia]). }
  destruct motion; try (by apply Hmove); by apply (linewise_range_ok vim).
Qed.

Lemma change_word_forward_ok vim t : inv vim t -> returns (inv vim) (change_word_forward t).
Proof.
  intros Hi. unfold change_word_forward. step (returns_str_from _ _ (inv_cursor _ _ Hi)).
  intros after _. eapply (returns_bind (boundary (text t))).
  - destruct (match after with _ :: _ => _ | [] => _ end); [by apply (end_of_next_word_ok vim)|].
    step (beginning_of_next_word_ok vim t Hi). intros p Hp.
    step (current_line_end_ok vim t Hi). intros q (Hq & _). apply returns_done.
    by destruct (Nat.min_dec p q) as [->| ->].
  - intros p Hp. destruct (_ <? _); [|by apply inv_set_vim_mode].
    apply apply_operator_to_range_ok; [done|apply Hi|done].
Qed.

Lemma change_lines_ok vim t up a b :
  inv vim t -> range_in (text t) (a, b) -> a <= b -> returns (inv vim) (change_lines t up a b).
Proof.
  intros Hi [Ha Hb] Hle. unfold change_lines.
  step (current_line_start_ok vim t Hi). intros bol _.
  step (current_line_end_ok vim t Hi). intros eol _.
  destruct (if up then _ else _); [done|]. step (returns_str_range _ _ _ Ha Hb Hle). intros killed _.
  eapply returns_bind; [by apply kill_range_ok|]. intros t1 Hi1.
  eapply (returns_bind (inv vim)); [|intros t2; apply inv_set_vim_mode].
  destruct (_ && _); [|done].
  eapply returns_bind; [apply insert_str_at_ok; [done|apply admissible_lf]|].
  intros t2. apply inv_set_cursor.
Qed.

Lemma apply_vim_operator_ok vim t op motion :
  inv vim t -> returns (inv vim) (apply_vim_operator t op motion).
Proof.
  intros Hi. unfold apply_vim_operator.
  assert (Hrest : returns (inv vim)
    (range ← range_for_motion t motion;
     match range with
     | None => match op, motion with Change, LineEnd => Done (set_vim_mode t Insert) | _, _ => Done t end
     | Some (start, end_) =>
         match op, motion with
         | Change, MotionUp => change_lines t true start end_
         | Change, MotionDown => change_lines t false start end_
         | _, _ => apply_vim_operator_to_range t op start end_
         end
     end)).
  { step (range_for_motion_ok vim t motion Hi). intros [[a b]|] Hr.
    - destruct (Hr (a, b) eq_refl) as [[Ha Hb] Hlt]. simpl in Hlt.
      destruct op, motion; try (by apply apply_operator_to_range_ok);
        (apply change_lines_ok; [done|by split|lia]).
    - destruct op, motion; try done; by apply inv_set_vim_mode. }
  destruct op, motion; try exact Hrest. by apply change_word_forward_ok.
Qed.

(** ** Finds along a line *)
Section finds.
Context (vm : mode) (Hvm : vim_on vm = true).

(** No element reaches over the end of the line it starts on. *)
Lemma element_within_line t p q e :
  inv vm t -> line_end (text t) p q -> e ∈ elements t -> elem_start e <= q -> elem_end e <= q.
Proof.
  intros Hi (_ & _ & a & x & r & Ht & -> & -> & _ & Hr) He Hle.
  pose proof (elem_in_ok _ _ _ (inv_elements _ _ Hi) He) as (Hse & Hs & Hend).
  destruct (decide (elem_end e <= str_len a + str_len x)) as [|Hgt]; [done|exfalso].
  destruct Hr as [->|(b & ->)].
  { apply boundary_le in Hend. rewrite Ht, app_nil_r, !str_len_app in Hend. lia. }
  destruct (boundaries_cut _ _ _ Hs Hend Hse) as (u & m & v & Heq & Hu & Hm).
  apply (payload_lines vm (elem_id e) m Hvm).
  { apply (proj1 (Forall_forall _ _) (inv_payloads _ _ Hi) e He m). rewrite Heq, Hu, Hm. apply str_get_cut. }
  assert (H1 : (a ++ x) ++ c_lf :: b = u ++ m ++ v) by by rewrite <- app_assoc, <- Ht.
  symmetry in H1.
  destruct (prefixes_ordered _ _ _ _ H1) as (w & Hw & Hmv); [rewrite str_len_app; lia|].
  assert (Hlen : str_len w < str_len m).
  { apply (f_equal str_len) in Hw. rewrite !str_len_app in Hw. lia. }
  symmetry in Hmv. destruct (prefixes_ordered _ _ _ _ Hmv) as (z & Hz & Hrest); [lia|].
  destruct z as [|c z]; [rewrite app_nil_r in Hz; subst; lia|].
  injection Hrest as <- _. rewrite Hz. apply elem_of_app. right. by left.
Qed.

(** The next position after the cursor is on the same line. *)
Lemma next_atomic_within_line t q :
  inv vm t -> line_end (text t) (cursor_pos t) q -> cursor_pos t < q ->
  next_atomic_boundary t (cursor_pos t) <= q.
Proof.
  intros Hi Hq Hlt. pose proof Hq as (Hbq & _ & a & x & r & Ht & Hc & Hqe & _ & Hr).
  pose proof (boundary_le _ _ Hbq). unfold next_atomic_boundary.
  destruct (Nat.leb_spec (str_len (text t)) (cursor_pos t)); [lia|].
  destruct (List.find _ _) as [e|] eqn:Ef.
  { apply find_elem in Ef as [Hin He]. destruct_bools. eapply element_within_line; eauto. lia. }
  destruct (next_boundary_law _ _ (inv_cursor _ _ Hi)) as (o & Ho & Hb & Hnone).
  rewrite Ho. destruct o as [b|]; [|specialize (Hnone eq_refl); lia].
  assert (Hbq' : b <= q).
  { destruct Hr as [->|(rest & ->)].
    - destruct (Hb b eq_refl) as [Hbb _]. apply boundary_le in Hbb.
      rewrite Ht, app_nil_r, str_len_app in Hbb. lia.
    - rewrite Hqe. eapply (next_boundary_line a x rest); [intros ->; simpl in *; lia| |].
      + pose proof (inv_text _ _ Hi Hvm) as Hcr. rewrite Ht, !elem_of_app in Hcr. tauto.
      + by rewrite <- Ht, <- Hc. }
  destruct (find_element_containing t b) as [e|] eqn:E; [|done].
  apply find_element_containing_Some in E as [Hin He]. eapply element_within_line; eauto. lia.
Qed.

Lemma find_grapheme_ok t a line b target gs :
  text t = a ++ line ++ b -> Forall (piece_of line) gs ->
  optional_range_in (text t) (find_grapheme t (str_len a) target gs).
Proof.
  intros Ht Hgs r. unfold find_grapheme. intros ([i g] & Hf & ->)%fmap_Some.
  apply find_some in Hf as [Hin _].
  pose proof (proj1 (List.Forall_forall _ _) Hgs _ Hin) as Hp.
  destruct (piece_of_boundary _ _ _ Hp). rewrite Ht.
  split; simpl; [|rewrite <- Nat.add_assoc]; by apply boundary_app_r, boundary_app_l.
Qed.

Lemma find_position_ok t motion target :
  inv vm t -> returns (optional_range_in (text t)) (find_position t motion target).
Proof.
  intros Hi. pose proof (inv_cursor _ _ Hi) as Hc.
  assert (Hforward : returns (optional_range_in (text t))
    (line_end ← end_of_current_line t;
     if line_end <=? cursor_pos t then Done None
     else line ← str_range (text t) (next_atomic_boundary t (cursor_pos t)) line_end;
          Done (find_grapheme t (next_atomic_boundary t (cursor_pos t)) target (grapheme_indices line)))).
  { step (current_line_end_ok vm t Hi). intros eol He.
    destruct (Nat.leb_spec eol (cursor_pos t)); [done|].
    destruct (next_atomic_ok _ _ _ Hi Hc) as (Hn & _ & _).
    step (returns_str_range _ _ _ Hn (proj1 He) (next_atomic_within_line t eol Hi He ltac:(lia))).
    intros line (a & b & Ht & -> & _). apply returns_done.
    eapply find_grapheme_ok; [done|apply grapheme_indices_ok]. }
  assert (Hbackward : returns (optional_range_in (text t))
    (line_start ← beginning_of_current_line t;
     line ← str_range (text t) line_start (cursor_pos t);
     Done (find_grapheme t line_start target (reverse (grapheme_indices line))))).
  { step (current_line_start_ok vm t Hi). intros bol (Hb & ? & _).
    step (returns_str_range _ _ _ Hb Hc ltac:(lia)).
    intros line (a & b & Ht & -> & _). apply returns_done.
    eapply find_grapheme_ok; [done|]. apply Forall_reverse, grapheme_indices_ok. }
  by destruct motion.
Qed.

Lemma find_vim_character_ok t motion operator target :
  inv vm t -> returns (fun r => inv vm r.2) (find_vim_character t motion operator target).
Proof.
  intros Hi. unfold find_vim_character. step (find_position_ok t motion target Hi).
  intros [[a b]|] Hr; [|done]. destruct (Hr (a, b) eq_refl) as [Ha Hb]. simpl in Ha, Hb.
  pose proof (inv_cursor _ _ Hi) as Hc.
  destruct operator as [op|].
  - destruct (match motion with
              | Forward => (cursor_pos t, b) | Backward => (a, cursor_pos t)
              | TillForward => (cursor_pos t, a) | TillBackward => (b, cursor_pos t)
              end) as [p q] eqn:E.
    assert (boundary (text t) p /\ boundary (text t) q) as [Hp Hq].
    { destruct motion; by injection E as <- <-. }
    cbn beta iota. eapply (returns_bind (inv vm)); [|by intros t'].
    destruct op; (apply apply_operator_to_range_ok; [|done|done]); try done.
    by apply inv_set_cursor.
  - eapply (returns_bind (fun _ => True)).
    + destruct motion; try done. by step (returns_str_to _ _ Ha).
    + intros p _. by apply inv_set_cursor.
Qed.
End finds.

Lemma jump_ok vim t to_last operator :
  inv vim t -> returns (inv vim) (jump_to_vim_buffer_line t to_last operator).
Proof.
  intros Hi. unfold jump_to_vim_buffer_line. destruct operator as [op|].
  - step (current_line_range_ok vim t Hi). intros [a b] [Ha Hb]. cbn [fst snd].
    destruct (if to_last then (a, str_len (text t)) else (0, b)) as [p q] eqn:E.
    assert (boundary (text t) p /\ boundary (text t) q) as [Hp Hq].
    { destruct to_last; injection E as <- <-; split; auto with codex. apply Ha. }
    destruct op; [by apply kill_range_ok|by apply yank_range_ok|].
    eapply returns_bind; [by apply kill_range_ok|]. intros t'. apply inv_set_vim_mode.
  - eapply (returns_bind (fun _ => True)).
    + destruct to_last; [|done].
      by eapply returns_mono; [apply beginning_of_line_ok, boundary_len|].
    + intros p _. step (first_non_blank_ok vim _ (inv_set_cursor vim t p Hi)).
      intros q _. by apply inv_set_cursor, inv_set_cursor.
Qed.

(** ** Actions *)

Lemma apply_insert_position_ok vim t position :
  inv vim t -> returns (inv vim) (apply_insert_position t position).
Proof.
  intros Hi. unfold apply_insert_position.
  eapply (returns_bind (inv vim)); [|intros t'; apply inv_set_vim_mode].
  assert (Hopen : forall p q, returns (inv vim) (t ← insert_str_at t p [c_lf]; Done (set_cursor t q))).
  { intros p q. eapply returns_bind; [apply insert_str_at_ok; [done|apply admissible_lf]|].
    intros t'. apply inv_set_cursor. }
  destruct position; [done|by apply inv_set_cursor| | | |].
  - step (first_non_blank_ok vim t Hi). intros p _. by apply inv_set_cursor.
  - step (current_line_end_ok vim t Hi). intros p _. by apply inv_set_cursor.
  - step (current_line_start_ok vim t Hi). intros p _. apply Hopen.
  - step (current_line_end_ok vim t Hi). intros p _. apply Hopen.
Qed.

(** Finds need the lines of [inv vm]; what replaces a character must be
    admissible. *)
Definition action_ok vim (a : VimAction) : Prop :=
  match a with
  | ActDelete (TargetFind _ _) | ActChange (TargetFind _ _) => vim_on vim = true
  | ActReplace ch => admissible vim [ch]
  | _ => True
  end.

Lemma inv_enter_insert_if vim b t : inv vim t -> inv vim (enter_insert_if b t).
Proof. intros Hi. destruct b; [by apply inv_set_vim_mode|done]. Qed.

Lemma apply_edit_target_ok vim t op target :
  inv vim t -> (forall m c, target = TargetFind m c -> vim_on vim = true) ->
  returns (fun o => forall t', o = Some t' -> inv vim t') (apply_edit_target t op target).
Proof.
  intros Hi Hfind.
  assert (Hsome : forall m : run TextArea, returns (inv vim) m ->
    returns (fun o => forall t', o = Some t' -> inv vim t') (t' ← m; Done (Some t'))).
  { intros m Hm. step Hm. intros t' Ht'. by intros ? [= <-]. }
  destruct target as [| | |motion|scope object|motion ch|last]; cbn [apply_edit_target].
  - step (current_line_end_ok vim t Hi). intros eol _.
    eapply (returns_bind (inv vim)); [destruct (_ <? _); [by apply delete_forward_kill_ok|done]|].
    intros t' Ht' ? [= <-]. by apply inv_enter_insert_if.
  - assert (Hchange : returns (fun o => forall t', o = Some t' -> inv vim t')
      (bol ← beginning_of_current_line t; eol ← end_of_current_line t;
       t ← kill_line_range t bol eol; Done (Some (set_vim_mode t Insert)))).
    { step (current_line_start_ok vim t Hi). intros bol (Hb & _).
      step (current_line_end_ok vim t Hi). intros eol (He & _).
      eapply returns_bind; [by apply kill_range_ok|]. intros t' Ht' ? [= <-]. by apply inv_set_vim_mode. }
    destruct op; [|done|done]. by apply Hsome, kill_current_line_ok.
  - eapply returns_bind; [by apply (vim_kill_to_end_of_line_ok vim)|].
    intros t' Ht' ? [= <-]. by apply inv_enter_insert_if.
  - by apply Hsome, apply_vim_operator_ok.
  - step (text_object_range_ok vim t object scope Hi). intros [[a b]|] Hr; [|done].
    destruct (Hr _ eq_refl). by apply Hsome, apply_operator_to_range_ok.
  - specialize (Hfind _ _ eq_refl).
    step (find_vim_character_ok vim Hfind t motion (Some op) ch Hi).
    intros [[] t'] Ht'; apply returns_done; [by intros ? [= <-]|done].
  - by apply Hsome, jump_ok.
Qed.

Lemma apply_edit_ok vim t op target :
  inv vim t -> (forall m c, target = TargetFind m c -> vim_on vim = true) ->
  returns (fun r => inv vim r.2) (apply_edit t op target).
Proof.
  intros Hi Hfind. unfold apply_edit. step (apply_edit_target_ok vim t op target Hi Hfind).
  intros [t'|] Ht'; apply returns_done; [|done]. destruct (is_change op); by apply Ht'.
Qed.

Lemma apply_replace_ok vim t ch :
  inv vim t -> admissible vim [ch] -> returns (fun r => inv vim r.2) (apply_replace t ch).
Proof.
  intros Hi Hch. unfold apply_replace. step (current_line_end_ok vim t Hi). intros eol _.
  destruct (_ <=? _); [done|]. destruct (next_atomic_ok _ _ _ Hi (inv_cursor _ _ Hi)) as (? & _ & ?).
  eapply returns_bind; [apply replace_range_ok; [done|apply Hi|done|done|done]|].
  intros t' Ht'. by apply inv_set_cursor.
Qed.

Lemma apply_action_ok vim t a :
  inv vim t -> action_ok vim a -> returns (fun r => inv vim r.2) (apply_vim_editor_action t a).
Proof.
  intros Hi Ha.
  assert (Hok : forall m : run TextArea, returns (inv vim) m ->
    returns (fun r => inv vim r.2) (t ← m; Done (true, t))).
  { intros m Hm. by step Hm. }
  assert (Hjump : forall (m : run nat) (P : nat -> Prop), returns P m ->
    returns (inv vim) (p ← m; Done (set_cursor t p))).
  { intros m P Hm. step Hm. intros p _. by apply inv_set_cursor. }
  destruct a as [position|target|target|ch| | | | | | | | | | | | | | |b|b];
    cbn [apply_vim_editor_action action_ok] in *.
  - by apply Hok, apply_insert_position_ok.
  - apply apply_edit_ok; [done|]. by intros m c ->.
  - apply apply_edit_ok; [done|]. by intros m c ->.
  - by apply apply_replace_ok.
  - by step (paste_after_cursor_ok vim t Hi).
  - by apply Hok, delete_backward_ok.
  - by apply Hok, delete_forward_ok.
  - by apply Hok, delete_backward_word_ok.
  - by apply Hok, delete_forward_word_ok.
  - by apply Hok, kill_to_beginning_of_line_ok.
  - by apply Hok, kill_current_line_ok.
  - by apply Hok, kill_to_end_of_line_ok.
  - by apply Hok, move_cursor_left_ok.
  - by apply Hok, move_cursor_right_ok.
  - by apply Hok, move_cursor_up_ok.
  - by apply Hok, move_cursor_down_ok.
  - eapply Hok, Hjump, (beginning_of_previous_word_ok vim t Hi).
  - eapply Hok, Hjump, (end_of_next_word_ok vim t Hi).
  - by apply Hok, move_to_bol_ok.
  - by apply Hok, move_to_eol_ok.
Qed.

Lemma action_ok_plain vim a : vim_on vim = true -> plain_action a -> action_ok vim a.
Proof. destruct a as [|[]|[]|ch| | | | | | | | | | | | | | | |]; try done. intros _ Hch. by apply admissible_one. Qed.

Lemma plain_of_action_ok vim a : vim_on vim = true -> action_ok vim a -> plain_action a.
Proof. destruct a; try done. simpl. intros Hv Hch ->. apply (Hch Hv). by left. Qed.

Lemma apply_insert_action_ok vim t a :
  inv vim t -> action_ok vim a -> returns (inv vim) (apply_vim_insert_action t a).
Proof.
  intros Hi Ha. unfold apply_vim_insert_action. step (apply_action_ok vim t a Hi Ha).
  intros [b t'] Hi'. apply returns_done. simpl in *. apply inv_set_vim_commands; [done|].
  intros Hv. destruct (inv_commands _ _ Hi' Hv) as [Hp Hl]. split; [|done]. simpl.
  destruct (_ && _); [|done]. apply Forall_app. split; [done|].
  constructor; [by apply (plain_of_action_ok vim)|constructor].
Qed.

Lemma finish_pending_ok vim t : inv vim t -> inv vim (finish_pending_vim_change t).
Proof.
  intros Hi. apply inv_set_vim_commands; [done|]. intros Hv.
  destruct (inv_commands _ _ Hi Hv). split; [constructor|]. simpl. by destruct (changed _).
Qed.

Section vim_on.
Context (vm : mode) (Hvm : vim_on vm = true).

Lemma vim_edit_ok t a : inv vm t -> plain_action a -> returns (inv vm) (vim_edit t a).
Proof.
  intros Hi Ha. unfold vim_edit. eapply (returns_bind (fun r => inv vm r.2)); [|by intros [b t']].
  unfold start_vim_edit. destruct (inv_commands _ _ Hi Hvm) as [_ Hlast].
  eapply returns_bind; [apply (apply_action_ok vm)|].
  - apply inv_set_vim_commands; [done|]. intros _. split; [by repeat constructor|done].
  - by apply action_ok_plain.
  - intros [b t'] Hi'. destruct (inv_commands _ _ Hi' Hvm) as [Hp' Hl'].
    destruct b; cbn [fst snd negb] in *; apply returns_done.
    + simpl. set (t2 := set_vim_commands t' _).
      assert (Hi2 : inv vm t2) by (apply inv_set_vim_commands; [done|]; intros _; by split).
      change (vim_mode t2) with (vim_mode t'). destruct (vim_mode t'); [by apply finish_pending_ok|done].
    + apply inv_set_vim_commands; [done|]. intros _. split; [constructor|done].
Qed.

(** ** Repetition *)

Lemma set_replaying_ok vim t b : inv vim t -> inv vim (set_replaying t b).
Proof. intros Hi. apply inv_set_vim_commands; [done|]. intros Hv. exact (inv_commands _ _ Hi Hv). Qed.

Lemma apply_vim_edits_ok t edits :
  inv vm t -> Forall plain_edit edits -> returns (inv vm) (apply_vim_edits t edits).
Proof.
  intros Hi He. revert t Hi. induction He as [|e edits He _ IH]; intros t Hi; cbn [apply_vim_edits]; [done|].
  eapply (returns_bind (fun r => inv vm r.2)).
  - destruct e as [a|s]; cbn [apply_vim_edit].
    + by apply (apply_action_ok vm); [|apply action_ok_plain].
    + destruct (vim_mode t); [done|].
      eapply returns_bind; [apply (insert_str_ok vm); [done|by intros _]|]. by intros t'.
  - intros [[] t'] Ht'; [by apply IH|done].
Qed.

(** Leaving the insert mode stops at the start of the line, which is outside
    the elements since none holds a line feed. *)
Lemma line_start_outside t q :
  inv vm t -> line_start (text t) (cursor_pos t) q -> outside (elements t) q.
Proof.
  intros Hi (Hb & _ & Hlf) e He.
  destruct (decide (q <= elem_start e)); [by left|right].
  destruct (decide (elem_end e <= q)); [done|exfalso].
  destruct (Hlf ltac:(lia)) as (a & b & Ht & ->).
  assert (Hend : line_end (text t) (str_len a) (str_len a)).
  { split; [rewrite Ht; apply boundary_app|]. split; [done|]. exists a, [], (c_lf :: b). simpl.
    repeat split; [done|lia|by intros ?%elem_of_nil|]. right. by exists b. }
  pose proof (element_within_line vm Hvm t _ _ e Hi Hend He ltac:(lia)). lia.
Qed.

Lemma leave_insert_ok t : inv vm t -> returns (inv vm) (leave_vim_insert_mode t).
Proof.
  intros Hi. unfold leave_vim_insert_mode. step (current_line_start_ok vm t Hi). intros bol Hb.
  apply returns_done. unfold enter_vim_normal_mode.
  assert (Hi' : inv vm (if bol <? cursor_pos t
            then set_cursor_pos t (Nat.max (prev_atomic_boundary t (cursor_pos t)) bol) else t)).
  { destruct (_ <? _); [|done]. destruct (prev_atomic_ok _ _ _ Hi (inv_cursor _ _ Hi)) as (? & ? & _).
    destruct (Nat.max_dec (prev_atomic_boundary t (cursor_pos t)) bol) as [-> | ->];
      [by apply inv_set_cursor_pos|].
    apply inv_set_cursor_pos; [done|apply Hb|by apply line_start_outside]. }
  destruct (vim_enabled _); [|done]. apply inv_set_preferred_col. destruct Hi'. constructor; try done. congruence.
Qed.

Lemma repeat_ok t : inv vm t -> returns (inv vm) (repeat_last_change t).
Proof.
  intros Hi. unfold repeat_last_change, vim_repeat_actions. destruct (is_empty _); [done|].
  eapply returns_bind; [apply apply_vim_edits_ok; [by apply set_replaying_ok|]|].
  - by destruct (inv_commands _ _ Hi Hvm).
  - intros t' Hi'. unfold finish_vim_repeat. eapply (returns_bind (inv vm)).
    + destruct (vim_mode t'); [done|by apply leave_insert_ok].
    + intros t2 Hi2. by apply set_replaying_ok, inv_set_vim_pending.
Qed.

(** ** Keys *)

(** The terminal reports a carriage return as the key [Enter]. *)
Definition key_ok vim (e : KeyEvent) : Prop := vim_on vim = true -> code e <> Char c_cr.

Lemma vim_command_char_ok e ch : key_ok vm e -> vim_command_char e = Some ch -> ch <> c_cr.
Proof.
  unfold key_ok, vim_command_char, is_altgr, c_cr. intros Hk. specialize (Hk Hvm).
  destruct (code e) as [| | | | | | | | | | | | | | |c|]; try done; [by intros [= <-]|].
  assert (Hc : c <> 13%N) by congruence. destruct (_ =? NONE)%N; [by intros [= <-]|].
  destruct (_ =? SHIFT)%N; [|done]. unfold is_ascii_lowercase.
  destruct (N.leb_spec 97 c), (N.leb_spec c 122); simpl; intros [= <-]; lia.
Qed.

Lemma extra_command_ok t e : inv vm t -> returns (inv vm) (handle_vim_extra_command t e).
Proof.
  intros Hi. unfold handle_vim_extra_command. eapply (returns_bind (fun _ => True)).
  - destruct (is_pressed _ e); [|done]. by eapply returns_mono; [apply (current_line_end_ok vm)|].
  - intros eol _. unfold start_vim_find.
    repeat (destruct (is_pressed _ e); [|]); try destruct (_ <? _); cbn [andb];
      first [by apply inv_set_vim_pending | by apply repeat_ok | by apply jump_ok | done].
Qed.

Lemma operator_edit_ok t op target m :
  inv vm t -> returns (inv vm) m -> returns (inv vm) (operator_edit t op target m).
Proof. intros Hi Hm. destruct op; [by apply vim_edit_ok|done|by apply vim_edit_ok]. Qed.

Lemma operator_command_ok t op e : inv vm t -> returns (inv vm) (handle_vim_operator_command t op e).
Proof.
  intros Hi. unfold handle_vim_operator_command, start_vim_find.
  do 4 (destruct (is_pressed _ e); [by apply inv_set_vim_pending|]).
  destruct (_ || _); [|done]. apply operator_edit_ok; [done|by apply jump_ok].
Qed.

Lemma pending_command_ok t pending e :
  inv vm t -> key_ok vm e -> returns (inv vm) (handle_vim_pending_command t pending e).
Proof.
  intros Hi Hk. unfold handle_vim_pending_command.
  destruct pending as [|?|? ?| |motion operator]; try done;
    (destruct (vim_command_char e) as [ch|] eqn:E; [|by repeat destruct operator as [[]|]]).
  - apply vim_edit_ok; [done|]. by apply (vim_command_char_ok e).
  - assert (Hfind : returns (inv vm) (found ← find_vim_character t motion operator ch; Done found.2)).
    { by step (find_vim_character_ok vm Hvm t motion operator ch Hi). }
    destruct operator as [[]|]; [by apply vim_edit_ok|done|by apply vim_edit_ok|done].
Qed.

Lemma handle_operator_ok t op e : inv vm t -> returns (inv vm) (handle_vim_operator t op e).
Proof.
  intros Hi. unfold handle_vim_operator. destruct (_ && _); [by apply vim_edit_ok|].
  destruct (_ && _); [by apply yank_current_line_ok|]. destruct (is_pressed _ e); [done|].
  destruct (vim_text_object_scope_for_event t e); [by apply inv_set_vim_pending|].
  destruct (vim_motion_for_event t e).
  - apply operator_edit_ok; [done|by apply apply_vim_operator_ok].
  - destruct (_ && _); [by apply vim_edit_ok|by apply operator_command_ok].
Qed.

Lemma handle_text_object_ok t op scope e :
  inv vm t -> returns (inv vm) (handle_vim_text_object t op scope e).
Proof.
  intros Hi. unfold handle_vim_text_object. destruct (is_pressed _ e); [done|].
  destruct (vim_text_object_for_event t e) as [object|]; [|done].
  apply operator_edit_ok; [done|]. step (text_object_range_ok vm t object scope Hi).
  intros [[a b]|] Hr; [|done]. destruct (Hr _ eq_refl). by apply apply_operator_to_range_ok.
Qed.

Lemma handle_command_ok t e : inv vm t -> returns (inv vm) (handle_vim_command t e).
Proof.
  intros Hi. unfold handle_vim_command.
  assert (Hjump : forall (m : run nat), returns (fun _ => True) m ->
    returns (inv vm) (p ← m; Done (set_cursor t p))).
  { intros m Hm. step Hm. intros p _. by apply inv_set_cursor. }
  assert (Hany : forall (m : run nat) (P : nat -> Prop), returns P m -> returns (fun _ => True) m).
  { intros m P Hm. by eapply returns_mono. }
  do 6 (destruct (is_pressed _ e); [by apply vim_edit_ok|]).
  destruct (is_pressed _ e); [by apply move_cursor_left_ok|].
  destruct (is_pressed _ e); [by apply move_cursor_right_ok|].
  destruct (is_pressed _ e); [by apply move_cursor_down_ok|].
  destruct (is_pressed _ e); [by apply move_cursor_up_ok|].
  destruct (is_pressed _ e); [eapply Hjump, Hany, (beginning_of_next_word_ok vm t Hi)|].
  destruct (is_pressed _ e); [eapply Hjump, Hany, (beginning_of_previous_word_ok vm t Hi)|].
  destruct (is_pressed _ e).
  { apply Hjump. unfold vim_word_end_cursor. by step (vim_word_end_exclusive_ok vm t Hi). }
  destruct (is_pressed _ e); [eapply Hjump, Hany, (current_line_start_ok vm t Hi)|].
  destruct (is_pressed _ e).
  { apply Hjump. unfold vim_line_end_cursor. step (current_line_start_ok vm t Hi). intros bol _.
    by step (current_line_end_ok vm t Hi). }
  do 4 (destruct (is_pressed _ e); [by apply vim_edit_ok|]).
  destruct (is_pressed _ e); [by apply yank_current_line_ok|].
  destruct (is_pressed _ e); [by apply vim_edit_ok|].
  do 4 (destruct (is_pressed _ e); [by apply inv_set_vim_pending|]).
  by apply extra_command_ok.
Qed.

Lemma handle_normal_ok t e : inv vm t -> key_ok vm e -> returns (inv vm) (handle_vim_normal t e).
Proof.
  intros Hi Hk. unfold handle_vim_normal. pose proof (inv_set_vim_pending vm t PendingNone Hi) as Hi'.
  destruct (vim_pending t); [by apply handle_command_ok|by apply handle_operator_ok
    |by apply handle_text_object_ok|by apply pending_command_ok|by apply pending_command_ok].
Qed.

End vim_on.

Lemma editor_action_ok vim k e a : editor_action k e = Some (Some a) -> action_ok vim a.
Proof.
  unfold editor_action. repeat (destruct (is_pressed _ e); [by intros [= <-]|]). done.
Qed.

Lemma input_with_keymap_ok vim t e k : inv vim t -> returns (inv vim) (input_with_keymap t e k).
Proof.
  intros Hi. unfold input_with_keymap.
  destruct (is_pressed _ e); [apply insert_str_ok; [done|apply admissible_lf]|].
  destruct (is_pressed _ e); [by apply apply_insert_action_ok|].
  assert (Hrest : returns (inv vim)
    match editor_action k e with
    | Some (Some action) => apply_vim_insert_action t action
    | Some None => yank t
    | None =>
        match code e with
        | Char c => if ((modifiers e =? NONE)%N || (modifiers e =? SHIFT)%N) && negb (is_ascii_control c)
                    then insert_str t [c] else Done t
        | _ => Done t
        end
    end).
  { destruct (editor_action k e) as [[a|]|] eqn:E.
    - apply apply_insert_action_ok; [done|]. by eapply editor_action_ok.
    - by apply yank_ok.
    - destruct (code e) as [| | | | | | | | | | | | | | |c|]; try done.
      destruct (_ && negb (is_ascii_control c)) eqn:Ec; [|done]. apply andb_true_iff in Ec as [_ Ec].
      apply insert_str_ok; [done|]. apply admissible_one. intros ->. done. }
  unfold is_altgr. by destruct (code e).
Qed.

Lemma handle_input_ok vm t e :
  vim_on vm = true -> inv vm t -> key_ok vm e -> returns (inv vm) (handle_vim_input t e).
Proof.
  intros Hvm Hi Hk. unfold handle_vim_input. eapply (returns_bind (inv vm)).
  - destruct (vim_mode t); [by apply handle_normal_ok|]. unfold handle_vim_insert.
    destruct (code e); by first [apply leave_insert_ok | apply input_with_keymap_ok].
  - intros t' Hi'. apply returns_done.
    destruct (vim_mode t), (vim_mode t'); try done; by apply finish_pending_ok.
Qed.

Lemma input_ok vim t e : inv vim t -> key_ok vim e -> returns (inv vim) (input t e).
Proof.
  intros Hi Hk. unfold input. destruct (negb _); [done|]. destruct (vim_on vim) eqn:Ev.
  - destruct (vim_enabled t); [by apply handle_input_ok|by apply input_with_keymap_ok].
  - rewrite (inv_vim _ _ Hi Ev). by apply input_with_keymap_ok.
Qed.
End safety.
