(* ===== verification/TextAreaRuns.v ===== *)
(** * TextAreaRuns: what the text area promises

    The operations that the composer calls as one alphabet, the states reached
    by them, and the theorems on those states. *)

From Stdlib Require Import Lia.
From stdpp Require Import base list relations strings.
From S2P Require Import Prelude TextPos Keys TextArea TextAreaVim TextAreaInv TextAreaMoves TextAreaElements TextAreaSafety.

Open Scope rust_scope.

(** ** Sessions *)

Inductive op :=
| OpInput (e : KeyEvent)
| OpInsertStr (s : rstr)
| OpInsertElement (s : rstr)
| OpReplaceRange (a b : nat) (s : rstr)
| OpSetText (s : rstr)
| OpSetTextWithElements (s : rstr) (ranges : list (nat * nat))
| OpSetCursor (p : nat)
| OpAddElementRange (a b : nat)
| OpRemoveElementRange (a b : nat)
| OpReplaceElementPayload (old new : rstr)
| OpDraw (width : nat)
| OpSetKeymaps (k : Keymaps)
| OpSetVimEnabled (enabled : bool)
| OpEnterVimInsertMode
| OpEnterVimNormalMode.

Section sessions.
Context `{Segmentation}.

Definition apply_op (t : TextArea) (o : op) : run TextArea :=
  match o with
  | OpInput e => input t e
  | OpInsertStr s => insert_str t s
  | OpInsertElement s => r ← insert_element t s; Done r.2
  | OpReplaceRange a b s => replace_range t a b s
  | OpSetText s => Done (set_text_clearing_elements t s)
  | OpSetTextWithElements s ranges => Done (set_text_with_elements t s ranges)
  | OpSetCursor p => Done (set_cursor t p)
  | OpAddElementRange a b => Done (add_element_range t a b).2
  | OpRemoveElementRange a b => Done (remove_element_range t a b).2
  | OpReplaceElementPayload old new => r ← replace_element_payload t old new; Done r.2
  | OpDraw width => Done (refresh_wrap_cache t width)
  | OpSetKeymaps k => Done (set_keymap_bindings t k)
  | OpSetVimEnabled enabled => Done (set_vim_enabled t enabled)
  | OpEnterVimInsertMode => Done (enter_vim_insert_mode t)
  | OpEnterVimNormalMode => Done (enter_vim_normal_mode t)
  end.

Fixpoint apply_ops (t : TextArea) (os : list op) : run TextArea :=
  match os with
  | [] => Done t
  | o :: rest => t ← apply_op t o; apply_ops t rest
  end.

(** What the callers ensure.  Ranges are on character boundaries and do not
    overlap; a range that becomes an element has the cursor at its edges or
    outside.  With [vim] the Vim mode may be on: then no text holds a carriage
    return and no element a line feed. *)
Definition base_mode (vim : bool) : mode :=
  mkMode vim (fun _ m => vim = true -> c_lf ∉ m) (fun _ m Hv Hm => Hm Hv).

Definition clean_text (vim : bool) (s : rstr) : Prop := vim = true -> c_cr ∉ s.
Definition clean_payload (vim : bool) (s : rstr) : Prop := vim = true -> (c_cr ∉ s) /\ (c_lf ∉ s).

Definition op_ok (vim : bool) (t : TextArea) (o : op) : Prop :=
  match o with
  | OpInput e => vim = true -> code e <> Char c_cr
  | OpInsertStr s | OpSetText s => clean_text vim s
  | OpInsertElement s | OpReplaceElementPayload _ s => clean_payload vim s
  | OpReplaceRange a b s => boundary (text t) a /\ boundary (text t) b /\ a <= b /\ clean_text vim s
  | OpSetTextWithElements s ranges => clean_text vim s /\ ranges_ok (base_mode vim) s ranges
  | OpAddElementRange a b =>
      boundary (text t) a /\ boundary (text t) b /\ (cursor_pos t <= a \/ b <= cursor_pos t)
      /\ (forall m, str_get (text t) a b = Some m -> clean_payload vim m)
  | OpSetVimEnabled enabled => vim = false -> enabled = false
  | _ => True
  end.

Inductive edit_step (vim : bool) (t t' : TextArea) : Prop :=
| edit_step_op o : op_ok vim t o -> apply_op t o = Done t' -> edit_step vim t t'.

Context `{!SegmentationLaws}.

Lemma inv_new vim k : inv (base_mode vim) (new_textarea k).
Proof.
  constructor; simpl; try done; try (intros ? He; by apply elem_of_nil in He);
    first [apply boundary_0 | split; constructor].
Qed.

Lemma payload_everywhere vim s : clean_payload vim s -> forall id, payloads (base_mode vim) id s.
Proof. intros Hs id Hv. by apply Hs. Qed.

Lemma apply_op_ok vim t o :
  inv (base_mode vim) t -> op_ok vim t o -> returns (inv (base_mode vim)) (apply_op t o).
Proof.
  intros Hi Ho. destruct o as [e|s|s|a b s|s|s rs|p|a b|a b|old new|w|k|en| |]; simpl in *.
  - by apply input_ok.
  - by apply insert_str_ok.
  - eapply returns_bind; [apply (insert_element_ok (base_mode vim)); [done|..]|by intros [i t']].
    + intros Hv. by apply Ho.
    + by apply payload_everywhere.
  - destruct Ho as (? & ? & ? & ?). by apply replace_range_ok.
  - by apply set_text_inner_ok.
  - destruct Ho. apply set_text_inner_ok; [done|done|]. by intros ? [= <-].
  - by apply inv_set_cursor.
  - destruct Ho as (Ha & Hb & Hc & Hm).
    pose proof (add_element_range_ok (base_mode vim) t a b Hi) as Hadd. simpl in Hadd.
    unfold clamp_pos_to_char_boundary in Hadd. rewrite !Nat.min_l in Hadd by by apply boundary_le.
    rewrite (clamp_to_char_boundary_id _ a), (clamp_to_char_boundary_id _ b) in Hadd by done.
    apply Hadd; [done|]. intros _ m Hget. by apply Hm.
  - by apply remove_element_range_ok.
  - eapply returns_bind; [apply (replace_element_payload_ok (base_mode vim)); [done|..]|by intros [i t']].
    + intros Hv. by apply Ho.
    + by apply payload_everywhere.
  - by apply refresh_wrap_cache_ok.
  - by destruct Hi; constructor.
  - destruct Hi. constructor; try done.
  - unfold enter_vim_insert_mode. destruct (vim_enabled t) eqn:E; [|done].
    destruct Hi as [? ? ? ? Hv ? ? ? ?]. constructor; try done.
    intros Hf. specialize (Hv Hf). congruence.
  - unfold enter_vim_normal_mode. destruct (vim_enabled t) eqn:E; [|done].
    apply inv_set_preferred_col. destruct Hi as [? ? ? ? Hv ? ? ? ?]. constructor; try done.
    intros Hf. specialize (Hv Hf). congruence.
Qed.

Lemma reachable_inv vim k t : rtc (edit_step vim) (new_textarea k) t -> inv (base_mode vim) t.
Proof.
  intros Hr. refine (rtc_ind_r (inv (base_mode vim)) _ (inv_new vim k) _ t Hr).
  intros x y _ [o Ho Heq] IH. pose proof (apply_op_ok vim x o IH Ho) as Hret. by rewrite Heq in Hret.
Qed.

(** C9: No sequence of keys, edits and redraws panics the text area, whatever the
    bindings: in every state reached from the empty one, every operation that
    its caller may make ends in a state whose cursor and elements lie on
    character boundaries, whose elements do not overlap, whose cursor is not
    inside an element and whose wrapping cache fits the text.  With the Vim mode
    the texts must be free of carriage returns and the elements of line feeds. *)
Theorem textarea_never_panics vim k t o :
  rtc (edit_step vim) (new_textarea k) t -> op_ok vim t o ->
  exists t', apply_op t o = Done t' /\ inv (base_mode vim) t'.
Proof.
  intros Hr Ho. apply returns_inv, apply_op_ok; [|done]. by apply (reachable_inv vim k).
Qed.

(** ** Elements are atomic *)

Definition payload_of (t : TextArea) (e : Element) : option rstr :=
  str_get (text t) (elem_start e) (elem_end e).

(** The payloads that the elements of [t] have. *)
Definition kept_mode (vim : bool) (t : TextArea) : mode :=
  mkMode vim
    (fun id m => (exists e, e ∈ elements t /\ elem_id e = id /\ payload_of t e = Some m)
                 /\ (vim = true -> c_lf ∉ m))
    (fun _ m Hv Hm => proj2 Hm Hv).

Lemma inv_kept vim t : inv (base_mode vim) t -> inv (kept_mode vim t) t.
Proof.
  intros [? ? ? ? ? ? Hp ? ?]. constructor; try done.
  rewrite Forall_forall in *. intros e He m Hm. split; [by exists e|]. by apply (Hp e He).
Qed.

(** C29: A key never splits, changes or relabels an element: every element left
    after a key was there before, with the same identifier and the same text. *)
Theorem keys_keep_elements_whole vim k t e t' :
  rtc (edit_step vim) (new_textarea k) t -> (vim = true -> code e <> Char c_cr) -> input t e = Done t' ->
  forall e', e' ∈ elements t' ->
  exists e0, e0 ∈ elements t /\ elem_id e0 = elem_id e' /\ payload_of t e0 = payload_of t' e'.
Proof.
  intros Hr%reachable_inv Hk Hin e' He'.
  pose proof (input_ok (kept_mode vim t) t e (inv_kept vim t Hr) Hk) as Hret.
  rewrite Hin in Hret. destruct (elem_in_ok _ _ _ (inv_elements _ _ Hret) He') as (Hle & Hs & Hend).
  destruct (boundaries_cut _ _ _ Hs Hend Hle) as (a & m & b & Ht & Ha & Hm).
  assert (Hget : payload_of t' e' = Some m).
  { unfold payload_of. rewrite Ht, Ha, Hm. apply str_get_cut. }
  destruct (proj1 (Forall_forall _ _) (inv_payloads _ _ Hret) e' He' m Hget) as [(e0 & ? & ? & ?) _].
  exists e0. by rewrite Hget.
Qed.

(** ** Kill and yank *)

(** A kill around the cursor leaves the cursor where the text was. *)
Lemma kill_range_shape vim t p q kd t1 :
  inv vim t -> boundary (text t) p -> boundary (text t) q -> p <= cursor_pos t <= q ->
  kill_range_with_kind t p q kd = Done t1 ->
  t1 = t \/ exists a m b, text t = a ++ m ++ b /\ m <> [] /\ text t1 = a ++ b
              /\ cursor_pos t1 = str_len a /\ outside (elements t1) (str_len a) /\ kill_buffer t1 = m.
Proof.
  intros Hi Hp Hq Hc. unfold kill_range_with_kind.
  destruct (expand_range_to_element_boundaries t p q) as [p' q'] eqn:E.
  destruct (expand_range_ok _ _ _ _ _ (inv_elements _ _ Hi) Hp Hq E) as (? & ? & Hp' & Hq' & Hcl).
  destruct (Nat.leb_spec q' p'); [intros [= <-]; by left|].
  destruct (boundaries_cut _ _ _ Hp' Hq' ltac:(lia)) as (a & m & b & Ht & -> & ->).
  rewrite Ht, str_range_cut. cbn [mbind outcome_bind].
  destruct (is_empty m) eqn:Em; [intros [= <-]; by left|]. apply is_empty_false in Em.
  unfold replace_range_raw. rewrite (proj2 (Nat.leb_le _ _)) by lia. cbn [negb].
  change (text (store_kill_buffer t m kd)) with (text t).
  rewrite !Nat.min_l by by apply boundary_le.
  replace (str_len a + str_len m - str_len a) with (str_len m) by lia.
  destruct (Nat.eqb_spec (str_len m) 0) as [Hz|_]; [by apply str_len_nil_iff in Hz|]. cbn [andb].
  rewrite Ht, str_replace_cut. cbn [mbind outcome_bind]. intros [= <-]. right.
  exists a, m, b. split; [done|]. split; [done|].
  unfold update_elements_after_replace.
  replace (str_len a + str_len m - str_len a) with (str_len m) by lia.
  simpl. rewrite (proj2 (Nat.ltb_ge _ _)), (proj2 (Nat.leb_le _ _)), Nat.add_0_r by lia.
  rewrite Nat.min_l by (rewrite str_len_app; lia).
  assert (Ho : outside (shift_elements (elements t) (str_len a) (str_len m) 0) (str_len a)).
  { intros e' He'. destruct (shift_elem_inv _ _ _ _ _ Hcl He') as (e & He & _ & Hor).
    destruct (elem_in_ok _ _ _ (inv_elements _ _ Hi) He) as (? & _).
    unfold shifted in Hor. destruct Hor as [(? & -> & ->)|(? & -> & ->)]; lia. }
  split; [done|]. split; [|split; [exact Ho|done]].
  apply clamp_nearest_id; [apply boundary_app|exact Ho].
Qed.

Lemma kill_range_undone vim t p q kd t1 :
  inv vim t -> boundary (text t) p -> boundary (text t) q -> p <= cursor_pos t <= q ->
  kill_range_with_kind t p q kd = Done t1 ->
  text t1 = text t \/ exists t2, yank t1 = Done t2 /\ text t2 = text t.
Proof.
  intros Hi Hp Hq Hc Hk. pose proof (kill_range_ok vim t p q kd Hi Hp Hq) as Hret.
  rewrite Hk in Hret. simpl in Hret.
  destruct (kill_range_shape vim t p q kd t1 Hi Hp Hq Hc Hk)
    as [->|(a & m & b & Ht & Hm & Ht1 & Hc1 & Ho & Hkill)]; [by left|right].
  unfold yank. rewrite Hkill, (proj2 (is_empty_false m) Hm). unfold insert_str, insert_str_at.
  set (t1' := record_vim_inserted_text t1 m).
  assert (Hrec : text t1' = text t1 /\ cursor_pos t1' = cursor_pos t1 /\ elements t1' = elements t1).
  { unfold t1', record_vim_inserted_text. by destruct (_ || _). }
  destruct Hrec as (Ht' & Hc' & He'). rewrite clamp_for_insertion_nearest, clamp_nearest_id;
    rewrite ?Ht', ?Hc', ?He', ?Hc1; [|rewrite Ht1; apply boundary_app|exact Ho].
  rewrite Ht1, str_insert_app. cbn [mbind outcome_bind]. eexists. split; [done|]. by rewrite Ht.
Qed.

Definition is_kill (a : VimAction) : bool :=
  match a with
  | DeleteBackwardWord | DeleteForwardWord | KillLineStart | KillLine | KillLineEnd => true
  | _ => false
  end.

Definition undone_by_yank (t t1 : TextArea) : Prop :=
  text t1 = text t \/ exists t2, yank t1 = Done t2 /\ text t2 = text t.

(** Every kill takes a range around the cursor. *)
Lemma kills_undone vim t a r :
  inv vim t -> is_kill a = true -> apply_vim_editor_action t a = Done r -> undone_by_yank t r.2.
Proof.
  intros Hi Ha Hact. pose proof (inv_cursor _ _ Hi) as Hc.
  assert (Hok : forall m : run TextArea, (t ← m; Done (true, t)) = Done r -> m = Done r.2).
  { intros m. destruct m as [t'| |]; simpl; [by intros [= <-]|done|done]. }
  assert (Hkill : forall p q kd, boundary (text t) p -> boundary (text t) q -> p <= cursor_pos t <= q ->
            kill_range_with_kind t p q kd = Done r.2 -> undone_by_yank t r.2)
    by (intros p q kd Hp Hq Hpq Hk; exact (kill_range_undone vim t p q kd _ Hi Hp Hq Hpq Hk)).
  assert (Hsame : Done (E := Empty_set) t = Done r.2 -> undone_by_yank t r.2) by (intros [= <-]; by left).
  destruct a; try done; cbn [apply_vim_editor_action] in Hact; apply Hok in Hact; clear Hok.
  - unfold delete_backward_word in Hact.
    destruct (returns_inv _ _ (beginning_of_previous_word_ok vim t Hi)) as (p & Hp & ? & ?).
    rewrite Hp in Hact. eapply Hkill; [..|exact Hact]; [done|done|lia].
  - unfold delete_forward_word in Hact.
    destruct (returns_inv _ _ (end_of_next_word_ok vim t Hi)) as (p & Hp & ?).
    rewrite Hp in Hact. cbn [mbind outcome_bind] in Hact. destruct (Nat.ltb_spec (cursor_pos t) p); [|by apply Hsame].
    eapply Hkill; [..|exact Hact]; [done|done|lia].
  - unfold kill_to_beginning_of_line in Hact.
    destruct (returns_inv _ _ (current_line_start_ok vim t Hi)) as (p & Hp & Hls).
    rewrite Hp in Hact. cbn [mbind outcome_bind] in Hact.
    destruct (Nat.eqb_spec (cursor_pos t) p); [destruct (Nat.ltb_spec 0 p)|].
    + eapply Hkill; [..|exact Hact]; [by eapply line_start_prev|apply Hls|lia].
    + by apply Hsame.
    + destruct Hls as (? & ? & _). eapply Hkill; [..|exact Hact]; [done|done|lia].
  - unfold kill_current_line in Hact.
    destruct (returns_inv _ _ (current_line_range_ok vim t Hi)) as ([p q] & Hpq & Hls & Hq).
    assert (Hcq : cursor_pos t <= q).
    { unfold current_line_range_with_newline in Hpq.
      destruct (returns_inv _ _ (current_line_start_ok vim t Hi)) as (? & Hb & _). rewrite Hb in Hpq.
      destruct (returns_inv _ _ (current_line_end_ok vim t Hi)) as (eol & He & _ & Hle & _).
      rewrite He in Hpq. cbn [mbind outcome_bind] in Hpq. injection Hpq as _ <-.
      destruct (eol <? _); lia. }
    rewrite Hpq in Hact. destruct Hls as (? & ? & _).
    eapply Hkill; [..|exact Hact]; [done|done|simpl in *; lia].
  - unfold kill_to_end_of_line in Hact.
    destruct (returns_inv _ _ (current_line_end_ok vim t Hi)) as (p & Hp & Hle).
    rewrite Hp in Hact. cbn [mbind outcome_bind] in Hact.
    destruct (Nat.eqb_spec (cursor_pos t) p); [destruct (Nat.ltb_spec p (str_len (text t)))|].
    + eapply Hkill; [..|exact Hact]; [done|by eapply line_end_next|lia].
    + by apply Hsame.
    + destruct Hle as (? & ? & _). eapply Hkill; [..|exact Hact]; [done|done|lia].
Qed.

(** A kill is undone by a yank: whatever a word or line kill took away, a yank
    right after it puts the text back as it was. *)
Theorem yank_undoes_kill vim k t a ok t1 :
  rtc (edit_step vim) (new_textarea k) t -> is_kill a = true ->
  apply_vim_editor_action t a = Done (ok, t1) -> text t1 <> text t ->
  exists t2, yank t1 = Done t2 /\ text t2 = text t.
Proof.
  intros Hr%reachable_inv Ha Hact Hne.
  by destruct (kills_undone (base_mode vim) t a (ok, t1) Hr Ha Hact).
Qed.

(** ** Scrolling *)

Lemma row_lt lines s w p row col :
  Forall (row_ok s) lines -> boundary s p -> cursor_position s lines w p = Done (Some (row, col)) ->
  row < length lines.
Proof.
  intros Hl Hp Heq. pose proof (cursor_position_ok s lines w p Hl Hp) as Hret.
  rewrite Heq in Hret. by apply (Hret row col).
Qed.

(** The scroll offset keeps the cursor on the screen: whatever the old offset,
    the row of the cursor is within the rows shown, nothing is scrolled when all
    rows fit, and no blank rows are shown below the last one. *)
Theorem scroll_shows_cursor vim k t width height current row col :
  let lines := wrapped_lines (text_for_display (text t)) width in
  rtc (edit_step vim) (new_textarea k) t -> 0 < height -> length lines < U16_SIZE ->
  cursor_position (text t) lines width (cursor_pos t) = Done (Some (row, col)) ->
  exists scroll, effective_scroll t width height lines current = Done scroll
    /\ scroll <= row < scroll + height
    /\ (length lines <= height -> scroll = 0)
    /\ (height < length lines -> scroll + height <= length lines).
Proof.
  intros lines Hr%reachable_inv Hh Hlen Hpos.
  assert (Hrows : Forall (row_ok (text t)) lines).
  { pose proof (refresh_wrap_cache_ok (base_mode vim) (set_wrap_cache t None) width) as Hw.
    apply (inv_cache (base_mode vim) (refresh_wrap_cache (set_wrap_cache t None) width)
             ltac:(apply Hw; destruct Hr; by constructor) _ eq_refl). }
  pose proof (row_lt _ _ _ _ _ _ Hrows (inv_cursor _ _ Hr) Hpos) as Hrow.
  unfold effective_scroll, as_u16. rewrite (Nat.mod_small (length lines)) by done.
  destruct (Nat.leb_spec (length lines) height); [exists 0; split; [done|]; split; [lia|]; split; lia|].
  rewrite Hpos. cbn [mbind outcome_bind]. rewrite Nat.mod_small by lia.
  eexists. split; [reflexivity|].
  destruct (Nat.ltb_spec row (Nat.min current (length lines - height)));
    [|destruct (Nat.leb_spec (Nat.min current (length lines - height) + height) row)]; lia.
Qed.
End sessions.

(** ** Ranges and elements *)

Lemma expand_foldl_within es x y a b c :
  Forall (clean x y) es -> x <= a -> b <= y ->
  let r := foldl expand_step (a, b, c) es in x <= r.1.1 /\ r.1.2 <= y.
Proof.
  intros Hes. revert a b c. induction Hes as [|e es He _ IH]; intros a b c Ha Hb; cbn [foldl]; [done|].
  destruct (expand_step (a, b, c) e) as [[a1 b1] c1] eqn:Es.
  assert (x <= a1 /\ b1 <= y) as [? ?]; [|by apply IH].
  unfold expand_step in Es. destruct (_ && _) eqn:Ei; [|by simplify_eq].
  destruct (_ || _); simplify_eq; [|done]. destruct_bools. unfold clean, contained in He. lia.
Qed.

Lemma expand_loop_within n es x y a b :
  Forall (clean x y) es -> x <= a -> b <= y ->
  x <= (expand_loop n es a b).1 /\ (expand_loop n es a b).2 <= y.
Proof.
  intros Hes. revert a b. induction n as [|n IH]; intros a b Ha Hb; simpl; [done|].
  pose proof (expand_foldl_within es x y a b false Hes Ha Hb) as Hf. unfold expand_pass. simpl in Hf.
  destruct (foldl expand_step (a, b, false) es) as [[a1 b1] []]; simpl in *; [|done].
  by apply IH; destruct Hf.
Qed.

(** Widening an edited range to whole elements ends, and gives the least range
    that contains the given one and that no element crosses; this holds for any
    elements, overlapping ones included. *)
Theorem expand_range_least t a b :
  let r := expand_range_to_element_boundaries t a b in
  (r.1 <= a /\ b <= r.2 /\ Forall (clean r.1 r.2) (elements t))
  /\ forall x y, x <= a -> b <= y -> Forall (clean x y) (elements t) -> x <= r.1 /\ r.2 <= y.
Proof.
  simpl. unfold expand_range_to_element_boundaries. split.
  - assert (Hn : crossing_count (elements t) a b < S (length (elements t))).
    { unfold crossing_count.
      pose proof (List.filter_length_le (fun e => negb (containedb a b e)) (elements t)). lia. }
    destruct (expand_loop _ _ a b) as [a' b'] eqn:E. by apply (expand_loop_ok _ _ _ _ _ _ Hn).
  - intros x y Hx Hy Hcl. by apply expand_loop_within.
Qed.

(** ** Concrete instances *)

Module Examples.

(** Code points as clusters, and one row for the whole text. *)
#[export] Instance char_segmentation : Segmentation := {
  prev_boundary s p :=
    match split_bytes s p with
    | Some (a, _) => match last a with Some c => Ok (Some (p - len_utf8 c)) | None => Ok None end
    | None => Err ()
    end;
  next_boundary s p :=
    match split_bytes s p with
    | Some (_, c :: _) => Ok (Some (p + len_utf8 c))
    | Some (_, []) => Ok None
    | None => Err ()
    end;
  is_boundary s p := Ok (is_char_boundary s p);
  graphemes s := (fun c => [c]) <$> s;
  word_bounds s := [s];
  unicode_width s := length s;
  wrapped_lines s _ := [(0, str_len s + 1)]
}.

#[export] Instance char_segmentation_laws : SegmentationLaws.
Proof.
  constructor; simpl.
  - intros s p (a & b & -> & ->). rewrite split_bytes_app. destruct (last a) as [c|] eqn:E.
    + apply last_Some in E as [init ->]. eexists. split; [done|]. intros q [= <-].
      rewrite str_len_app. simpl. rewrite <- app_assoc.
      replace (str_len init + (len_utf8 c + 0) - len_utf8 c) with (str_len init) by lia.
      split; [apply boundary_app|lia].
    + by exists None.
  - intros s p (a & b & -> & ->). rewrite split_bytes_app. destruct b as [|c b].
    + exists None. rewrite app_nil_r. done.
    + eexists. split; [done|]. split; [|done]. intros q [= <-]. split; [|lia].
      exists (a ++ [c]), b. rewrite str_len_app, <- app_assoc. simpl. split; [done|lia].
  - intros a x b q Hx _. rewrite split_bytes_app. destruct x as [|c x]; [done|].
    intros [= <-]. simpl. lia.
  - intros s. induction s as [|c s IH]; [done|]. rewrite fmap_cons. simpl. by rewrite IH.
  - intros s. apply app_nil_r.
  - intros s _. constructor; [|constructor]. split; simpl; [lia|]. split; [apply boundary_0|].
    replace (str_len s + 1 - 1) with (str_len s) by lia. apply boundary_len.
Qed.

Definition ctrl (c : N) : KeyBinding := mkBinding (Char c) CONTROL.
Definition plain (c : N) : KeyBinding := mkBinding (Char c) NONE.

(** Ctrl-K and Ctrl-Y in the editor, [f] in the normal mode. *)
Definition some_keymaps : Keymaps :=
  mkKeymaps
    (mkEditorKeymap [] [] [] [] [] [] [] [] [] [] [] [] [] [] [] [ctrl 107] [ctrl 121])
    (mkVimNormalKeymap [] [] [] [] [] [] [] [] [] [] [] [] [] [] [] [plain 102] [] [] [] [] [] [] [] []
       [] [] [] [] [] [] [] [] [])
    (mkVimOperatorKeymap [] [] [] [] [] [] [] [] [] [] [] [] [] [] [] [] [] [] [] [])
    (mkVimTextObjectKeymap [] [] [] [] [] [] [] [] []).

Definition press (c : N) (m : N) : KeyEvent := mkKeyEvent (Char c) m Press.

(** A draft with a placeholder. *)
Definition draft : TextArea :=
  match apply_ops (new_textarea some_keymaps)
          [OpInsertStr (lit "see "); OpInsertElement (lit "[Image 1]"); OpSetCursor 1] with
  | Done t => t
  | _ => new_textarea some_keymaps
  end.

Lemma draft_reachable : rtc (edit_step true) (new_textarea some_keymaps) draft.
Proof.
  eapply rtc_l; [apply (edit_step_op _ _ _ (OpInsertStr (lit "see "))); [|vm_compute; reflexivity]|].
  { intros _. by apply (bool_decide_unpack _). }
  eapply rtc_l; [apply (edit_step_op _ _ _ (OpInsertElement (lit "[Image 1]"))); [|vm_compute; reflexivity]|].
  { intros _. split; by apply (bool_decide_unpack _). }
  eapply rtc_l; [apply (edit_step_op _ _ _ (OpSetCursor 1)); [done|vm_compute; reflexivity]|].
  apply rtc_refl.
Qed.

Lemma textarea_never_panics_witness :
  exists t', apply_op draft (OpInput (press 107 CONTROL)) = Done t' /\ inv (base_mode true) t'.
Proof.
  apply (textarea_never_panics true some_keymaps draft (OpInput (press 107 CONTROL)) draft_reachable).
  intros _. discriminate.
Defined.

Lemma keys_keep_elements_whole_witness :
  exists t', input draft (press 120 NONE) = Done t' /\ length (elements t') = 1 /\
  forall e', e' ∈ elements t' ->
  exists e0, e0 ∈ elements draft /\ elem_id e0 = elem_id e' /\ payload_of draft e0 = payload_of t' e'.
Proof.
  eexists. split; [vm_compute; reflexivity|]. split; [reflexivity|].
  apply (keys_keep_elements_whole true some_keymaps draft (press 120 NONE) _ draft_reachable);
    [intros _; discriminate|vm_compute; reflexivity].
Defined.

Lemma yank_undoes_kill_witness :
  exists t1, apply_vim_editor_action draft KillLineEnd = Done (true, t1) /\ text t1 = lit "s"
    /\ exists t2, yank t1 = Done t2 /\ text t2 = lit "see [Image 1]".
Proof.
  eexists. split; [vm_compute; reflexivity|]. split; [reflexivity|].
  apply (yank_undoes_kill true some_keymaps draft KillLineEnd true _ draft_reachable);
    [reflexivity|vm_compute; reflexivity|vm_compute; discriminate].
Defined.

Lemma scroll_shows_cursor_witness :
  exists scroll, effective_scroll draft 20 1 (wrapped_lines (text_for_display (text draft)) 20) 5 = Done scroll
    /\ scroll <= 0 < scroll + 1
    /\ (length (wrapped_lines (text_for_display (text draft)) 20) <= 1 -> scroll = 0)
    /\ (1 < length (wrapped_lines (text_for_display (text draft)) 20) ->
        scroll + 1 <= length (wrapped_lines (text_for_display (text draft)) 20)).
Proof.
  apply (scroll_shows_cursor true some_keymaps draft 20 1 5 0 1 draft_reachable);
    [lia|apply Nat.ltb_lt; vm_compute; reflexivity|vm_compute; reflexivity].
Defined.

(** With the Vim mode on, a find along the line panics when the cursor is on an
    element that holds a line feed: the search starts after the element, which
    is beyond the end of the line, and slices the text backwards. *)
Theorem vim_find_panics_on_multiline_element (S : Segmentation) :
  @apply_ops S (new_textarea some_keymaps)
    [OpSetTextWithElements (lit "a" ++ [c_lf] ++ lit "b") [(0, 3)]; OpSetCursor 0;
     OpSetVimEnabled true; OpInput (press 102 NONE); OpInput (press 120 NONE)] = Panic.
Proof. reflexivity. Qed.
End Examples.
