(* ===== verification/PasteBurst.v ===== *)
(** * PasteBurst: [codex-rs/tui/src/bottom_pane/paste_burst.rs]

    The state machine that turns a fast stream of plain characters into a paste,
    for terminals without bracketed paste.  Instants are nanoseconds; the time
    between two instants saturates at zero.  The timeouts are those outside
    Windows.

    [Caller] is a state machine that uses the detector as the module documents it, with
    the calls of [chat_composer.rs] ([handle_paste_burst_flush],
    [handle_input_basic_with_time], [handle_non_ascii_char] and the newline part of its
    submission).  It is a specification of that use, not a translation of the composer:
    it keeps the text before the cursor, a paste adds its text, and slash commands, the
    bash mode, placeholders and images are left out. *)

From Stdlib Require Import Lia ZArith ZifyBool.
From stdpp Require Import base list strings.
From S2P Require Import Prelude TextPos.

#[local] Open Scope N_scope.

Abbreviation Instant := N (only parsing).

Definition from_millis (n : N) : N := n * 1000000.
Definition duration_since (now earlier : Instant) : N := now - earlier.

Definition PASTE_BURST_MIN_CHARS : N := 3.
Definition PASTE_ENTER_SUPPRESS_WINDOW : N := from_millis 120.
Definition PASTE_BURST_CHAR_INTERVAL : N := from_millis 8.
Definition PASTE_BURST_ACTIVE_IDLE_TIMEOUT : N := from_millis 8.

Definition u16_max : N := 65535.
Definition u16_saturating_add (a b : N) : N := N.min (a + b) u16_max.

Record PasteBurst := mkPasteBurst {
  last_plain_char_time : option Instant;
  consecutive_plain_char_burst : N;
  burst_window_until : option Instant;
  buffer : rstr;
  active : bool;
  pending_first_char : option (N * Instant)
}.

Definition default_burst : PasteBurst := mkPasteBurst None 0 None [] false None.

Inductive CharDecision :=
| BeginBuffer (retro_chars : N)
| BufferAppend
| RetainFirstChar
| BeginBufferFromPending.

Inductive FlushResult := FlushPaste (s : rstr) | FlushTyped (c : N) | FlushNone.

Definition recommended_flush_delay : N := PASTE_BURST_CHAR_INTERVAL + from_millis 1.

Definition is_active_internal (b : PasteBurst) : bool := active b || negb (is_empty (buffer b)).

Definition burst_is_active (b : PasteBurst) : bool :=
  is_active_internal b || is_some (pending_first_char b).

Definition extend_window (b : PasteBurst) (now : Instant) : PasteBurst :=
  mkPasteBurst (last_plain_char_time b) (consecutive_plain_char_burst b)
    (Some (now + PASTE_ENTER_SUPPRESS_WINDOW)) (buffer b) (active b) (pending_first_char b).

Definition set_held (b : PasteBurst) (buf : rstr) (act : bool) (pending : option (N * Instant))
  : PasteBurst :=
  mkPasteBurst (last_plain_char_time b) (consecutive_plain_char_burst b) (burst_window_until b)
    buf act pending.

Definition note_plain_char (b : PasteBurst) (now : Instant) : PasteBurst :=
  let n := match last_plain_char_time b with
           | Some prev =>
               if duration_since now prev <=? PASTE_BURST_CHAR_INTERVAL
               then u16_saturating_add (consecutive_plain_char_burst b) 1 else 1
           | None => 1
           end in
  mkPasteBurst (Some now) n (burst_window_until b) (buffer b) (active b) (pending_first_char b).

Definition on_plain_char (b : PasteBurst) (ch : N) (now : Instant) : CharDecision * PasteBurst :=
  let b := note_plain_char b now in
  if active b then (BufferAppend, extend_window b now)
  else
    let from_pending :=
      match pending_first_char b with
      | Some (held, held_at) =>
          if duration_since now held_at <=? PASTE_BURST_CHAR_INTERVAL then Some held else None
      | None => None
      end in
    match from_pending with
    | Some held => (BeginBufferFromPending, extend_window (set_held b (buffer b ++ [held]) true None) now)
    | None =>
        if PASTE_BURST_MIN_CHARS <=? consecutive_plain_char_burst b
        then (BeginBuffer (consecutive_plain_char_burst b - 1), b)
        else (RetainFirstChar, set_held b (buffer b) (active b) (Some (ch, now)))
    end.

Definition on_plain_char_no_hold (b : PasteBurst) (now : Instant) : option CharDecision * PasteBurst :=
  let b := note_plain_char b now in
  if active b then (Some BufferAppend, extend_window b now)
  else if PASTE_BURST_MIN_CHARS <=? consecutive_plain_char_burst b
  then (Some (BeginBuffer (consecutive_plain_char_burst b - 1)), b)
  else (None, b).

Definition flush_if_due (b : PasteBurst) (now : Instant) : FlushResult * PasteBurst :=
  let timeout := if is_active_internal b then PASTE_BURST_ACTIVE_IDLE_TIMEOUT
                 else PASTE_BURST_CHAR_INTERVAL in
  let timed_out := is_some_and (last_plain_char_time b) (fun t => timeout <? duration_since now t) in
  if timed_out && is_active_internal b
  then (FlushPaste (buffer b), set_held b [] false (pending_first_char b))
  else if timed_out then
    match pending_first_char b with
    | Some (ch, _) => (FlushTyped ch, set_held b (buffer b) (active b) None)
    | None => (FlushNone, b)
    end
  else (FlushNone, b).

Definition append_newline_if_active (b : PasteBurst) (now : Instant) : bool * PasteBurst :=
  if burst_is_active b
  then (true, extend_window (set_held b (buffer b ++ [c_lf]) (active b) (pending_first_char b)) now)
  else (false, b).

Definition newline_should_insert_instead_of_submit (b : PasteBurst) (now : Instant) : bool :=
  let in_burst_window := is_some_and (burst_window_until b) (fun until => now <=? until) in
  burst_is_active b || in_burst_window.

Definition direct_insert_newline_should_insert (b : PasteBurst) (now : Instant) : bool :=
  newline_should_insert_instead_of_submit b now
  || is_some_and (last_plain_char_time b) (fun t => duration_since now t <=? PASTE_BURST_CHAR_INTERVAL).

Definition begin_with_retro_grabbed (b : PasteBurst) (grabbed : rstr) (now : Instant) : PasteBurst :=
  extend_window (set_held b (buffer b ++ grabbed) true (pending_first_char b)) now.

Definition append_char_to_buffer (b : PasteBurst) (ch : N) (now : Instant) : PasteBurst :=
  extend_window (set_held b (buffer b ++ [ch]) (active b) (pending_first_char b)) now.

Definition try_append_char_if_active (b : PasteBurst) (ch : N) (now : Instant) : bool * PasteBurst :=
  if active b || negb (is_empty (buffer b)) then (true, append_char_to_buffer b ch now) else (false, b).

Definition retro_start_index (before : rstr) (retro_chars : nat) : nat :=
  if (retro_chars =? 0)%nat then str_len before
  else match reverse (char_indices before) !! (retro_chars - 1)%nat with
       | Some (idx, _) => idx
       | None => 0%nat
       end.

Record RetroGrab := mkRetroGrab { start_byte : nat; grabbed : rstr }.

Definition decide_begin_buffer (b : PasteBurst) (now : Instant) (before : rstr) (retro_chars : nat)
  : run (option RetroGrab * PasteBurst) :=
  let start_byte := retro_start_index before retro_chars in
  grabbed ← str_from before start_byte;
  let looks_pastey := existsb is_whitespace grabbed || (16 <=? length grabbed)%nat in
  Done (if looks_pastey
        then (Some (mkRetroGrab start_byte grabbed), begin_with_retro_grabbed b grabbed now)
        else (None, b)).

Definition flush_before_modified_input (b : PasteBurst) : option rstr * PasteBurst :=
  if negb (burst_is_active b) then (None, b)
  else
    let out := buffer b ++ match pending_first_char b with Some (ch, _) => [ch] | None => [] end in
    (Some out, set_held b [] false None).

Definition clear_window_after_non_char (b : PasteBurst) : PasteBurst :=
  mkPasteBurst None 0 None (buffer b) false None.

Definition clear_after_explicit_paste (b : PasteBurst) : PasteBurst :=
  mkPasteBurst None 0 None [] false None.

(** ** The contract of the callers *)
Module Caller.

Inductive event :=
| Ascii (c : N)
| NonAscii (c : N)
| Enter
| Tick
| OtherKey.

(** The text before the cursor and the burst state. *)
Record state := mkState { shown : rstr; burst : PasteBurst }.

Definition initial : state := mkState [] default_burst.

(** [handle_paste] *)
Definition paste (st : state) (s : rstr) : state :=
  mkState (shown st ++ s) (clear_after_explicit_paste (burst st)).

(** [handle_paste_burst_flush] *)
Definition flush_due (st : state) (now : Instant) : state :=
  match flush_if_due (burst st) now with
  | (FlushPaste s, b) => paste (mkState (shown st) b) s
  | (FlushTyped c, b) => mkState (shown st ++ [c]) b
  | (FlushNone, b) => mkState (shown st) b
  end.

Definition flush_held (st : state) : state :=
  match flush_before_modified_input (burst st) with
  | (Some s, b) => paste (mkState (shown st) b) s
  | (None, b) => mkState (shown st) b
  end.

(** A burst begins: grab the characters just shown, or show the new one. *)
Definition begin_buffer (st : state) (c : N) (now : Instant) (retro_chars : N) : run state :=
  decided ← decide_begin_buffer (burst st) now (shown st) (N.to_nat retro_chars);
  match decided with
  | (Some grab, b) =>
      kept ← str_to (shown st) (start_byte grab);
      Done (mkState kept (append_char_to_buffer b c now))
  | (None, b) =>
      let st := flush_held (mkState (shown st) b) in Done (mkState (shown st ++ [c]) (burst st))
  end.

Definition ascii_char (st : state) (c : N) (now : Instant) : run state :=
  match on_plain_char (burst st) c now with
  | (BufferAppend, b) | (BeginBufferFromPending, b) =>
      Done (mkState (shown st) (append_char_to_buffer b c now))
  | (BeginBuffer retro_chars, b) => begin_buffer (mkState (shown st) b) c now retro_chars
  | (RetainFirstChar, b) => Done (mkState (shown st) b)
  end.

Definition non_ascii_char (st : state) (c : N) (now : Instant) : run state :=
  match try_append_char_if_active (burst st) c now with
  | (true, b) => Done (mkState (shown st) b)
  | (false, b) =>
      let st := flush_held (mkState (shown st) b) in
      match on_plain_char_no_hold (burst st) now with
      | (Some (BeginBuffer retro_chars), b) => begin_buffer (mkState (shown st) b) c now retro_chars
      | (Some BufferAppend, b) => Done (mkState (shown st) (append_char_to_buffer b c now))
      | (Some _, _) => Panic
      | (None, b) =>
          let st := flush_held (mkState (shown st) b) in Done (mkState (shown st ++ [c]) (burst st))
      end
  end.

(** Whether [Enter] is part of the text rather than a submission. *)
Definition enter_is_text (st : state) (now : Instant) : bool :=
  newline_should_insert_instead_of_submit (burst st) now.

Definition enter_key (st : state) (now : Instant) : state :=
  match append_newline_if_active (burst st) now with
  | (true, b) => mkState (shown st) b
  | (false, b) =>
      if newline_should_insert_instead_of_submit b now
      then mkState (shown st ++ [c_lf]) (extend_window b now) else mkState (shown st) b
  end.

Definition other_key (st : state) : state :=
  let st := flush_held st in mkState (shown st) (clear_window_after_non_char (burst st)).

Definition step (st : state) (now : Instant) (e : event) : run state :=
  match e with
  | Ascii c => ascii_char (flush_due st now) c now
  | NonAscii c => non_ascii_char (flush_due st now) c now
  | Enter => Done (enter_key st now)
  | Tick => Done (flush_due st now)
  | OtherKey => Done (other_key (flush_due st now))
  end.

(** The text that an event adds. *)
Definition added (st : state) (now : Instant) (e : event) : rstr :=
  match e with
  | Ascii c | NonAscii c => [c]
  | Enter => if enter_is_text st now then [c_lf] else []
  | Tick | OtherKey => []
  end.

Definition pending_text (b : PasteBurst) : rstr :=
  match pending_first_char b with Some (c, _) => [c] | None => [] end.

(** All text, shown or held, in the order in which it was typed. *)
Definition contents (st : state) : rstr :=
  shown st ++ buffer (burst st) ++ pending_text (burst st).

(** No [Enter] arrives while a first character is held back. *)
Definition calm (st : state) (e : event) : Prop :=
  e = Enter -> pending_first_char (burst st) = None.

(** A session: its events with their times, the state it ends in and the text
    that was typed. *)
Inductive session : list (Instant * event) -> state -> rstr -> Prop :=
| session_start : session [] initial []
| session_step es st typed now e st' :
    session es st typed -> calm st e -> step st now e = Done st' ->
    session (es ++ [(now, e)]) st' (typed ++ added st now e).

End Caller.

Import Caller.

(** ** The invariant of a session *)

Record good (b : PasteBurst) : Prop := mkGood {
  idle_buffer : active b = false -> buffer b = [];
  active_pending : active b = true -> pending_first_char b = None;
  active_time : active b = true -> last_plain_char_time b <> None;
  pending_time : forall c at_, pending_first_char b = Some (c, at_) -> last_plain_char_time b = Some at_
}.

Lemma good_default : good default_burst.
Proof. by constructor. Qed.

Lemma good_cleared b : good (clear_after_explicit_paste b).
Proof. by constructor. Qed.

Lemma good_extend b now : good b -> good (extend_window b now).
Proof. intros []. by constructor. Qed.

#[local] Hint Resolve good_default good_cleared good_extend : codex.

Lemma active_internal_good b : good b -> is_active_internal b = active b.
Proof.
  intros [Hb _ _ _]. unfold is_active_internal. destruct (active b); [done|]. by rewrite (Hb eq_refl).
Qed.

(** The shapes of a good state: nothing held, a first character held since the
    last time, or a burst. *)
Lemma good_shape b :
  good b ->
  (active b = false /\ buffer b = [] /\ pending_first_char b = None)
  \/ (exists c t, active b = false /\ buffer b = [] /\ pending_first_char b = Some (c, t)
                  /\ last_plain_char_time b = Some t)
  \/ (exists t, active b = true /\ pending_first_char b = None /\ last_plain_char_time b = Some t).
Proof.
  intros [Hbuf Hpend Htime Hat]. destruct (active b).
  - right. right. destruct (last_plain_char_time b) as [t|]; [|by destruct (Htime eq_refl)].
    exists t. by rewrite (Hpend eq_refl).
  - rewrite (Hbuf eq_refl). destruct (pending_first_char b) as [[c t]|]; [right; left|by left].
    exists c, t. by rewrite (Hat c t eq_refl).
Qed.

(** What a flush leaves: everything that was held stays in order, and a held
    character whose flush is not due is within the interval. *)
Record flushed (st st' : state) (now : Instant) : Prop := mkFlushed {
  flushed_good : good (burst st');
  flushed_contents : contents st' = contents st;
  flushed_time : last_plain_char_time (burst st') = None
                 \/ last_plain_char_time (burst st') = last_plain_char_time (burst st);
  flushed_pending c at_ : pending_first_char (burst st') = Some (c, at_) ->
                          duration_since now at_ <= PASTE_BURST_CHAR_INTERVAL
}.

Lemma flush_due_spec st now : good (burst st) -> flushed st (flush_due st now) now.
Proof.
  destruct st as [sh [last n win buf act pend]]. intros Hg.
  destruct (good_shape _ Hg) as [(E1 & E2 & E3)|[(c & t & E1 & E2 & E3 & E4)|(t & E1 & E2 & E3)]];
    simpl in *; subst; unfold flush_due, flush_if_due; simpl.
  - destruct (is_some_and last _); simpl; split; auto; done.
  - destruct (N.ltb_spec PASTE_BURST_CHAR_INTERVAL (duration_since now t)); simpl; split; simpl; auto; try done.
    + unfold contents, pending_text. simpl. by rewrite !app_nil_r.
    + intros ? ? [= _ <-]. done.
  - destruct (N.ltb_spec PASTE_BURST_ACTIVE_IDLE_TIMEOUT (duration_since now t)); simpl; split; simpl; auto; try done.
    unfold contents, pending_text. simpl. by rewrite !app_nil_r.
Qed.

Lemma flush_held_spec st :
  good (burst st) ->
  good (burst (flush_held st)) /\ contents (flush_held st) = contents st
  /\ (last_plain_char_time (burst (flush_held st)) = None
      \/ last_plain_char_time (burst (flush_held st)) = last_plain_char_time (burst st))
  /\ active (burst (flush_held st)) = false /\ pending_first_char (burst (flush_held st)) = None.
Proof.
  destruct st as [sh [last n win buf act pend]]. intros Hg.
  destruct (good_shape _ Hg) as [(E1 & E2 & E3)|[(c & t & E1 & E2 & E3 & E4)|(t & E1 & E2 & E3)]];
    simpl in *; subst; unfold flush_held, flush_before_modified_input, contents, pending_text; simpl;
    rewrite ?app_nil_r; auto with codex.
Qed.

(** ** Characters *)

Lemma retro_start_boundary before n : boundary before (retro_start_index before n).
Proof.
  unfold retro_start_index. destruct (n =? 0)%nat; [apply boundary_len|].
  destruct (_ !! _) as [[i c]|] eqn:E; [|apply boundary_0].
  apply list_elem_of_lookup_2 in E. rewrite elem_of_reverse in E.
  apply char_indices_from_elem in E as (a & b & -> & ->). apply boundary_app.
Qed.

(** A step adds the character and keeps the order; its burst state has seen the
    time of the event. *)
Definition adds (st : state) (s : rstr) (now : Instant) (st' : state) : Prop :=
  good (burst st') /\ contents st' = contents st ++ s
  /\ (last_plain_char_time (burst st') = None \/ last_plain_char_time (burst st') = Some now
      \/ last_plain_char_time (burst st') = last_plain_char_time (burst st)).

Lemma begin_buffer_spec st c now n :
  active (burst st) = false -> buffer (burst st) = [] -> pending_first_char (burst st) = None ->
  last_plain_char_time (burst st) = Some now ->
  returns (adds st [c] now) (begin_buffer st c now n).
Proof.
  destruct st as [sh [last k win buf act pend]]. simpl. intros -> -> -> ->.
  unfold begin_buffer, decide_begin_buffer. simpl shown.
  destruct (retro_start_boundary sh (N.to_nat n)) as (a & g & Hsh & Hidx). rewrite Hidx. cbn [burst].
  rewrite Hsh, str_from_app. cbn [mbind outcome_bind]. destruct (existsb _ g || _).
  - cbn [start_byte]. rewrite str_to_app. cbn [mbind outcome_bind]. apply returns_done.
    split; [by constructor|]. unfold contents, pending_text. simpl.
    rewrite !app_nil_r. split; [by rewrite <- app_assoc|auto].
  - apply returns_done. unfold flush_held, flush_before_modified_input. simpl.
    split; [by constructor|]. unfold contents, pending_text. simpl. rewrite !app_nil_r. auto.
Qed.

(** Noting a character keeps everything that is held, with the time of the
    character. *)
Lemma note_plain_char_held b now :
  buffer (note_plain_char b now) = buffer b /\ active (note_plain_char b now) = active b
  /\ pending_first_char (note_plain_char b now) = pending_first_char b
  /\ last_plain_char_time (note_plain_char b now) = Some now.
Proof. done. Qed.

Lemma ascii_char_spec st c now :
  good (burst st) ->
  (forall h at_, pending_first_char (burst st) = Some (h, at_) ->
                 duration_since now at_ <= PASTE_BURST_CHAR_INTERVAL) ->
  returns (adds st [c] now) (ascii_char st c now).
Proof.
  destruct st as [sh b]. cbn [burst]. intros Hg Hdue. unfold ascii_char, on_plain_char. cbn [burst shown].
  destruct (note_plain_char_held b now) as (Ebuf & Eact & Epend & Elast).
  destruct (good_shape b Hg) as [(E1 & E2 & E3)|[(h & t & E1 & E2 & E3 & _)|(t & E1 & E2 & _)]].
  - rewrite Eact, E1, Epend, E3. destruct (_ <=? _) eqn:Emin.
    + eapply returns_mono; [apply begin_buffer_spec; cbn [burst]; congruence|].
      intros st' (G & C & T). split; [done|]. split; [|destruct T as [?|[?|T]]; auto].
      rewrite C. unfold contents, pending_text. cbn [burst shown]. by rewrite Ebuf, Epend.
    + apply returns_done. split; [|split; [|by right; left]].
      * constructor; cbn; try congruence; intros ? ?; congruence.
      * unfold contents, pending_text. cbn. by rewrite E2, E3, app_nil_r.
  - rewrite Eact, E1, Epend, E3. rewrite (proj2 (N.leb_le _ _)) by (by eapply Hdue).
    apply returns_done. split; [by constructor|]. split; [|by right; left].
    unfold contents, pending_text. cbn. by rewrite E2, E3, <- !app_assoc.
  - rewrite Eact, E1. apply returns_done. split; [|split; [|by right; left]].
    + constructor; cbn; congruence.
    + unfold contents, pending_text. cbn. by rewrite E2, !app_nil_r, <- !app_assoc.
Qed.

Lemma adds_after st st1 st2 s now :
  contents st1 = contents st ->
  (last_plain_char_time (burst st1) = None \/ last_plain_char_time (burst st1) = Some now
   \/ last_plain_char_time (burst st1) = last_plain_char_time (burst st)) ->
  adds st1 s now st2 -> adds st s now st2.
Proof.
  intros Hc Ht (G & C & T). split; [done|]. split; [by rewrite C, Hc|].
  destruct T as [T|[T|T]]; auto. rewrite T. destruct Ht as [?|[?|?]]; auto.
Qed.

Lemma flush_held_adds st now : good (burst st) -> adds st [] now (flush_held st).
Proof.
  intros Hg. destruct (flush_held_spec st Hg) as (G & C & T & _ & _).
  split; [done|]. split; [by rewrite app_nil_r|]. destruct T; auto.
Qed.

(** A character typed into the text once nothing is held. *)
Lemma typed_adds st c now :
  good (burst st) -> active (burst st) = false -> pending_first_char (burst st) = None ->
  adds st [c] now (mkState (shown st ++ [c]) (burst st)).
Proof.
  intros Hg Ha Hp. split; [done|]. split; [|by right; right].
  unfold contents, pending_text. cbn [shown burst]. by rewrite Hp, (idle_buffer _ Hg Ha), !app_nil_r.
Qed.

Lemma non_ascii_char_spec st c now :
  good (burst st) -> returns (adds st [c] now) (non_ascii_char st c now).
Proof.
  destruct st as [sh b]. cbn [burst]. intros Hg. unfold non_ascii_char, try_append_char_if_active.
  cbn [burst shown]. change (active b || negb (is_empty (buffer b))) with (is_active_internal b).
  rewrite (active_internal_good b Hg). destruct (active b) eqn:Eact.
  - apply returns_done. split; [|split; [|by right; right]].
    + destruct Hg as [H1 H2 H3 H4]. constructor; cbn; try done; congruence.
    + unfold contents, pending_text. cbn. by rewrite (active_pending _ Hg Eact), !app_nil_r, <- !app_assoc.
  - destruct (flush_held_spec (mkState sh b) Hg) as (G & C & T & A & P). revert G C T A P.
    generalize (flush_held (mkState sh b)) as st1. intros [sh1 b1] G C T A P. cbn [burst shown] in *.
    apply returns_mono with (P := adds (mkState sh1 b1) [c] now);
      [|intros st' H; eapply adds_after; [exact C| |exact H]; cbn [burst]; destruct T; auto].
    destruct (note_plain_char_held b1 now) as (Nbuf & Nact & Npend & Nlast).
    unfold on_plain_char_no_hold. rewrite Nact, A. destruct (_ <=? _).
    + eapply returns_mono; [apply begin_buffer_spec; cbn [burst]; try congruence|].
      { by rewrite Nbuf, (idle_buffer _ G A). }
      intros st' H. eapply adds_after; [| |exact H]; [done|by right; left].
    + apply returns_done.
      assert (Gn : good (note_plain_char b1 now)).
      { constructor; rewrite ?Nact, ?Nbuf, ?Npend, ?Nlast; try congruence. by intros _; apply G. }
      destruct (flush_held_spec (mkState sh1 (note_plain_char b1 now)) Gn) as (G2 & C2 & T2 & A2 & P2).
      eapply adds_after; [exact C2| |by apply typed_adds].
      cbn [burst] in T2. rewrite Nlast in T2. destruct T2; auto.
Qed.

(** An [Enter] in a burst, or within its window, is a line feed of the text. *)
Lemma enter_key_spec st now :
  good (burst st) -> pending_first_char (burst st) = None ->
  adds st (if enter_is_text st now then [c_lf] else []) now (enter_key st now).
Proof.
  intros Hg Hp. destruct st as [sh b]. cbn [burst] in *.
  assert (Hactive : burst_is_active b = active b).
  { unfold burst_is_active. by rewrite (active_internal_good b Hg), Hp, orb_false_r. }
  unfold enter_key, append_newline_if_active, enter_is_text, newline_should_insert_instead_of_submit.
  cbn [burst shown]. rewrite Hactive. destruct (active b) eqn:Eact; cbn [orb].
  - split; [|split; [|by right; right]].
    + constructor; cbn; try congruence. intros _. by apply Hg.
    + unfold contents, pending_text. cbn. by rewrite Hp, !app_nil_r, <- !app_assoc.
  - rewrite Hactive. cbn [orb]. destruct (is_some_and _ _).
    + split; [by apply good_extend|]. split; [|by right; right].
      unfold contents, pending_text. cbn. by rewrite Hp, (idle_buffer _ Hg Eact), !app_nil_r.
    + split; [done|]. split; [by rewrite app_nil_r|by right; right].
Qed.

Lemma other_key_spec st now : good (burst st) -> adds st [] now (other_key st).
Proof.
  intros Hg. unfold other_key. destruct (flush_held_spec st Hg) as (G & C & _ & A & P).
  split; [|split; [|by left]].
  - constructor; cbn; try done. intros _. by apply G.
  - rewrite app_nil_r, <- C. unfold contents, pending_text. cbn. by rewrite P.
Qed.

Lemma flush_due_adds st now : good (burst st) -> adds st [] now (flush_due st now).
Proof.
  intros Hg. destruct (flush_due_spec st now Hg) as [G C T _].
  split; [done|]. split; [by rewrite C, app_nil_r|]. destruct T; auto.
Qed.

Lemma step_spec st now e :
  good (burst st) -> calm st e -> returns (adds st (added st now e) now) (step st now e).
Proof.
  intros Hg Hcalm. destruct (flush_due_spec st now Hg) as [G C T P].
  assert (Hafter : forall s st', adds (flush_due st now) s now st' -> adds st s now st').
  { intros s st'. apply adds_after; [done|]. destruct T; auto. }
  destruct e; cbn [step added].
  - eapply returns_mono; [by apply ascii_char_spec|]. apply Hafter.
  - eapply returns_mono; [by apply non_ascii_char_spec|]. apply Hafter.
  - apply returns_done, enter_key_spec; [done|by apply Hcalm].
  - by apply returns_done, flush_due_adds.
  - by apply returns_done, Hafter, other_key_spec.
Qed.

(** The times of a burst state are times of events. *)
Definition timed (es : list (Instant * event)) (st : state) : Prop :=
  forall t, last_plain_char_time (burst st) = Some t -> t ∈ es.*1.

Lemma session_inv es st typed :
  session es st typed -> good (burst st) /\ contents st = typed /\ timed es st.
Proof.
  induction 1 as [|es st typed now e st' _ (G & <- & T) Hcalm E]; [by split; [apply good_default|]|].
  pose proof (step_spec st now e G Hcalm) as H. rewrite E in H. destruct H as (G' & C' & T').
  split; [done|]. split; [done|]. intros t Ht. rewrite fmap_app, elem_of_app.
  destruct T' as [T'|[T'|T']]; rewrite T' in Ht; [done| |by left; apply T].
  injection Ht as ->. right. by apply list_elem_of_singleton.
Qed.

(** Once the timeout has passed since the last character a flush leaves nothing
    held. *)
Lemma flush_due_shows st now :
  good (burst st) ->
  (forall t, last_plain_char_time (burst st) = Some t -> t + recommended_flush_delay <= now) ->
  shown (flush_due st now) = contents st /\ burst_is_active (burst (flush_due st now)) = false.
Proof.
  destruct st as [sh [last n win buf act pend]]. intros Hg Hidle.
  assert (Hlate : forall t, last = Some t -> (PASTE_BURST_CHAR_INTERVAL <? duration_since now t) = true).
  { intros t Ht. specialize (Hidle t Ht). apply N.ltb_lt.
    unfold recommended_flush_delay, PASTE_BURST_CHAR_INTERVAL, duration_since, from_millis in *. lia. }
  destruct (good_shape _ Hg) as [(E1 & E2 & E3)|[(c & t & E1 & E2 & E3 & E4)|(t & E1 & E2 & E3)]];
    simpl in *; subst; unfold flush_due, flush_if_due, contents, pending_text; simpl.
  - destruct (is_some_and last _); simpl; by rewrite !app_nil_r.
  - by rewrite (Hlate t eq_refl).
  - change PASTE_BURST_ACTIVE_IDLE_TIMEOUT with PASTE_BURST_CHAR_INTERVAL.
    rewrite (Hlate t eq_refl). simpl. by rewrite app_nil_r.
Qed.

(** ** Theorems *)

(** Used as documented the burst detector neither loses, duplicates nor
    reorders text: at every point of a session in which no Enter comes while a first
    character is held back, the text shown, followed by the
    text held back, is exactly what was typed, and every next event is handled
    without a panic (the [unreachable!] of the path for non-ASCII characters and
    the slices of the retroactive grab included) and adds its own text. *)
Theorem typed_text_kept es st typed :
  session es st typed ->
  contents st = typed
  /\ forall now e, calm st e ->
       exists st', step st now e = Done st' /\ contents st' = typed ++ added st now e.
Proof.
  intros H. destruct (session_inv _ _ _ H) as (G & <- & _). split; [done|]. intros now e Hcalm.
  destruct (returns_inv _ _ (step_spec st now e G Hcalm)) as (st' & E & _ & C & _). eauto.
Qed.

(** Nothing stays held back: a tick that comes the recommended delay after
    every event of such a session shows all the text that was typed and ends the
    burst. *)
Theorem idle_tick_shows_everything es st typed now :
  session es st typed ->
  (forall t, t ∈ es.*1 -> t + recommended_flush_delay <= now) ->
  exists st', step st now Tick = Done st' /\ shown st' = typed /\ burst_is_active (burst st') = false.
Proof.
  intros H Hidle. destruct (session_inv _ _ _ H) as (G & C & T).
  exists (flush_due st now). rewrite <- C. split; [done|]. apply flush_due_shows; [done|].
  intros t Ht. by apply Hidle, T.
Qed.

Module Examples.

Definition ms (n : N) : N := from_millis n.
Definition x (n : N) : event := Ascii (97 + n).

(** The state after a list of events, without the restriction to calm ones. *)
Fixpoint play (st : state) (es : list (Instant * event)) : run state :=
  match es with
  | [] => Done st
  | (now, e) :: es => st ← step st now e; play st es
  end.

(** A burst of characters with a line feed in it. *)
Definition pasted : list (Instant * event) :=
  [(ms 0, x 0); (ms 2, x 1); (ms 4, Enter); (ms 6, x 2)].

(** The session that a list of events makes, when it is calm. *)
Fixpoint recorded (st : state) (typed : rstr) (es : list (Instant * event)) : option (state * rstr) :=
  match es with
  | [] => Some (st, typed)
  | (now, e) :: es =>
      match e, pending_first_char (burst st) with
      | Enter, Some _ => None
      | _, _ => match step st now e with
                | Done st' => recorded st' (typed ++ added st now e) es
                | _ => None
                end
      end
  end.

Lemma recorded_session es0 st typed es st' typed' :
  session es0 st typed -> recorded st typed es = Some (st', typed') -> session (es0 ++ es) st' typed'.
Proof.
  revert es0 st typed. induction es as [|[now e] es IH]; intros es0 st typed H E.
  - cbn in E. rewrite app_nil_r. by simplify_eq.
  - assert (Hcalm : calm st e).
    { intros ->. cbn in E. by destruct (pending_first_char (burst st)). }
    assert (Hstep : exists st1, step st now e = Done st1
                                /\ recorded st1 (typed ++ added st now e) es = Some (st', typed')).
    { cbn [recorded] in E. destruct (step st now e) as [st1| |];
        destruct e; try (by exists st1); destruct (pending_first_char (burst st)); try done; by exists st1. }
    destruct Hstep as (st1 & Est & Erec).
    replace (es0 ++ (now, e) :: es) with ((es0 ++ [(now, e)]) ++ es) by (by rewrite <- app_assoc).
    eapply IH; [by econstructor|done].
Qed.

Definition pasted_end : state := match play initial pasted with Done st => st | _ => initial end.

Lemma pasted_session : session pasted pasted_end [97; 98; 10; 99].
Proof. apply (recorded_session [] initial []); [constructor|by vm_compute]. Qed.

Lemma typed_text_kept_witness :
  contents pasted_end = [97; 98; 10; 99]
  /\ exists st', step pasted_end (ms 7) (x 3) = Done st' /\ contents st' = [97; 98; 10; 99; 100].
Proof.
  destruct (typed_text_kept _ _ _ pasted_session) as [H Hstep]. split; [exact H|].
  apply (Hstep (ms 7) (x 3)). discriminate.
Defined.

Lemma idle_tick_shows_everything_witness :
  exists st', step pasted_end (ms 15) Tick = Done st' /\ shown st' = [97; 98; 10; 99]
              /\ burst_is_active (burst st') = false.
Proof.
  apply (idle_tick_shows_everything _ _ _ (ms 15) pasted_session).
  intros t Ht. cbn in Ht. rewrite !elem_of_cons, elem_of_nil in Ht.
  destruct Ht as [->|[->|[->|[->|[]]]]]; vm_compute; discriminate.
Defined.

(** the restriction to calm sessions is needed: an [Enter] that comes while a
    first character is held back puts its line feed into the buffer before that
    character.  When the burst then times out the line feed is pasted and the
    held character is dropped by the cleanup after the paste; when another
    character follows instead, the line feed ends up in front of the first one. *)
Theorem enter_after_held_character :
  play initial [(ms 0, x 24); (ms 1, Enter); (ms 20, Tick)]
    = Done (mkState [c_lf] default_burst)
  /\ exists st, play initial [(ms 0, x 0); (ms 1, Enter); (ms 2, x 1); (ms 20, Tick)] = Done st
                /\ shown st = [c_lf; 97; 98].
Proof. split; [by vm_compute|]. eexists. split; [by vm_compute|reflexivity]. Qed.

End Examples.
