(* ===== verification/TableDetect.v ===== *)
(** * TableDetect: pipe tables and code fences in Markdown source

    [codex-rs/tui/src/table_detect.rs] (the structure of single lines and the tracker of
    code fences) and [unwrap_markdown_fences] of [codex-rs/tui/src/markdown.rs] (fences
    around tables are removed before a message is rendered).

    The sources work on bytes; all characters they look for are ASCII, so that the
    model works on code points: a prefix of spaces, backticks or tildes has as many
    bytes as characters, and no byte of a longer character is a backslash or a pipe. *)

From Stdlib Require Import Lia NArith.
From stdpp Require Import base list strings.
From S2P Require Import Prelude.

Open Scope rust_scope.

Definition c_space : N := 32.
Definition c_tab : N := 9.
Definition c_pipe : N := 124.
Definition c_gt : N := 62.
Definition c_dash : N := 45.
Definition c_backtick : N := 96.
Definition c_tilde : N := 126.

(** ** Tables *)

(** [split_unescaped_pipe]; [start] is the segment under way. *)
Fixpoint split_pipe_from (start : rstr) (content : rstr) : list rstr :=
  match content with
  | [] => [start]
  | c :: r =>
      if (c =? c_backslash)%N then
        match r with
        | [] => [start ++ [c]]
        | d :: r' => split_pipe_from (start ++ [c; d]) r'
        end
      else if (c =? c_pipe)%N then start :: split_pipe_from [] r
      else split_pipe_from (start ++ [c]) r
  end.

Definition split_unescaped_pipe (content : rstr) : list rstr := split_pipe_from [] content.

Definition parse_table_segments (line : rstr) : option (list rstr) :=
  let trimmed := trim line in
  if is_empty trimmed then None
  else
    let has_outer_pipe := starts_with [c_pipe] trimmed || ends_with [c_pipe] trimmed in
    let content := default trimmed (strip_prefix [c_pipe] trimmed) in
    let content := default content (strip_suffix [c_pipe] content) in
    let raw_segments := split_unescaped_pipe content in
    if negb has_outer_pipe && (length raw_segments <=? 1) then None
    else
      let segments := trim <$> raw_segments in
      if is_empty segments then None else Some segments.

Definition is_table_header_line (line : rstr) : bool :=
  is_some_and (parse_table_segments line) (existsb (fun s => negb (is_empty s))).

Definition is_table_delimiter_segment (segment : rstr) : bool :=
  let trimmed := trim segment in
  if is_empty trimmed then false
  else
    let without_leading := default trimmed (strip_prefix [c_colon] trimmed) in
    let without_ends := default without_leading (strip_suffix [c_colon] without_leading) in
    (3 <=? str_len without_ends) && forallb (fun c => (c =? c_dash)%N) without_ends.

Definition is_table_delimiter_line (line : rstr) : bool :=
  is_some_and (parse_table_segments line) (forallb is_table_delimiter_segment).

(** ** Fences *)

Inductive FenceKind := Outside | Markdown | Other.

#[export] Instance fence_kind_eq_dec : EqDecision FenceKind.
Proof. solve_decision. Defined.

(** The loop of [strip_blockquote_prefix]; every round drops a marker. *)
Fixpoint strip_blockquote_loop (fuel : nat) (rest : rstr) : rstr :=
  match fuel with
  | 0 => rest
  | S fuel =>
      match strip_prefix [c_gt] rest with
      | None => rest
      | Some stripped =>
          strip_blockquote_loop fuel (trim_start (default stripped (strip_prefix [c_space] stripped)))
      end
  end.

Definition strip_blockquote_prefix (line : rstr) : rstr :=
  strip_blockquote_loop (length line) (trim_start line).

Definition parse_fence_marker (line : rstr) : option (N * nat) :=
  match line with
  | [] => None
  | first :: _ =>
      if negb (first =? c_backtick)%N && negb (first =? c_tilde)%N then None
      else
        let len := length (take_while (N.eqb first) line) in
        if len <? 3 then None else Some (first, len)
  end.

Definition is_markdown_fence_info (trimmed_line : rstr) (marker_len : nat) : bool :=
  let info := take_while (fun c => negb (is_whitespace c)) (trim_start (drop marker_len trimmed_line)) in
  eq_ignore_ascii_case info (lit "md") || eq_ignore_ascii_case info (lit "markdown").

Record FenceTracker := mkFenceTracker { tracker_state : option (N * nat * FenceKind) }.

Definition FenceTracker_new : FenceTracker := mkFenceTracker None.

Definition tracker_kind (t : FenceTracker) : FenceKind :=
  match tracker_state t with None => Outside | Some (_, _, k) => k end.

(** [FenceTracker::advance] *)
Definition tracker_advance (t : FenceTracker) (raw_line : rstr) : FenceTracker :=
  let leading_spaces := length (take_while (N.eqb c_space) raw_line) in
  if 3 <? leading_spaces then t
  else
    let trimmed := drop leading_spaces raw_line in
    let fence_scan_text := strip_blockquote_prefix trimmed in
    match parse_fence_marker fence_scan_text with
    | None => t
    | Some (marker, len) =>
        match tracker_state t with
        | Some (open_char, open_len, _) =>
            if (marker =? open_char)%N && (open_len <=? len) && is_empty (trim (drop len fence_scan_text))
            then mkFenceTracker None else t
        | None =>
            let kind := if is_markdown_fence_info fence_scan_text len then Markdown else Other in
            mkFenceTracker (Some (marker, len, kind))
        end
    end.

(** ** Fences around tables *)

Record Fence := mkFence { fence_marker : N; fence_len : nat; is_blockquoted : bool }.

(** The loop of [strip_line_indent]. *)
Fixpoint strip_columns (column : nat) (s : rstr) : option rstr :=
  match s with
  | [] => Some []
  | b :: r =>
      if (b =? c_space)%N then if 4 <=? column + 1 then None else strip_columns (column + 1) r
      else if (b =? c_tab)%N then if 4 <=? column + 4 then None else strip_columns (column + 4) r
      else Some s
  end.

Definition strip_line_indent (line : rstr) : option rstr :=
  strip_columns 0 (default line (strip_suffix [c_lf] line)).

Definition parse_open_fence (line : rstr) : option (Fence * bool) :=
  match strip_line_indent line with
  | None => None
  | Some trimmed =>
      let is_blockquoted := starts_with [c_gt] (trim_start trimmed) in
      let fence_scan_text := strip_blockquote_prefix trimmed in
      match parse_fence_marker fence_scan_text with
      | None => None
      | Some (marker, len) =>
          Some (mkFence marker len is_blockquoted, is_markdown_fence_info fence_scan_text len)
      end
  end.

Definition closes (fence : Fence) (fence_scan_text : rstr) : bool :=
  match parse_fence_marker fence_scan_text with
  | Some (marker, len) =>
      (marker =? fence_marker fence)%N && (fence_len fence <=? len) && is_empty (trim (drop len fence_scan_text))
  | None => false
  end.

Definition is_close_fence (line : rstr) (fence : Fence) : bool :=
  match strip_line_indent line with
  | None => false
  | Some trimmed =>
      if is_blockquoted fence then
        if negb (starts_with [c_gt] (trim_start trimmed)) then false
        else closes fence (strip_blockquote_prefix trimmed)
      else closes fence trimmed
  end.

(** The loop of [markdown_fence_contains_table]. *)
Fixpoint contains_table_from (previous : option rstr) (is_blockquoted_fence : bool) (content : list rstr) : bool :=
  match content with
  | [] => false
  | line :: r =>
      let text := if is_blockquoted_fence then strip_blockquote_prefix line else line in
      let trimmed := trim text in
      if is_empty trimmed then contains_table_from None is_blockquoted_fence r
      else if is_some_and previous (fun previous =>
                is_table_header_line previous && negb (is_table_delimiter_line previous)
                && is_table_delimiter_line trimmed)
      then true
      else contains_table_from (Some trimmed) is_blockquoted_fence r
  end.

Definition markdown_fence_contains_table (content : rstr) (is_blockquoted_fence : bool) : bool :=
  contains_table_from None is_blockquoted_fence (lines content).

(** A range of the source is the text of its line. *)
Record MarkdownCandidateData := mkCandidate {
  candidate_fence : Fence;
  opening_range : rstr;
  content_ranges : list rstr
}.

Inductive ActiveFence :=
| Passthrough (fence : Fence)
| MarkdownCandidate (data : MarkdownCandidateData).

(** One line of the loop of [unwrap_markdown_fences]. *)
Definition unwrap_line (st : rstr * option ActiveFence) (line : rstr) : rstr * option ActiveFence :=
  let '(out, active_fence) := st in
  match active_fence with
  | Some (Passthrough fence) =>
      (out ++ line, if is_close_fence line fence then None else Some (Passthrough fence))
  | Some (MarkdownCandidate data) =>
      if is_close_fence line (candidate_fence data) then
        if markdown_fence_contains_table (concat (content_ranges data)) (is_blockquoted (candidate_fence data))
        then (out ++ concat (content_ranges data), None)
        else (out ++ opening_range data ++ concat (content_ranges data) ++ line, None)
      else
        (out, Some (MarkdownCandidate
                      (mkCandidate (candidate_fence data) (opening_range data) (content_ranges data ++ [line]))))
  | None =>
      match parse_open_fence line with
      | Some (fence, is_markdown) =>
          if is_markdown then (out, Some (MarkdownCandidate (mkCandidate fence line [])))
          else (out ++ line, Some (Passthrough fence))
      | None => (out ++ line, None)
      end
  end.

Definition unwrap_finish (st : rstr * option ActiveFence) : rstr :=
  match st with
  | (out, Some (MarkdownCandidate data)) => out ++ opening_range data ++ concat (content_ranges data)
  | (out, _) => out
  end.

Definition unwrap_markdown_fences (markdown_source : rstr) : rstr :=
  if negb (contains_str (lit "```") markdown_source) && negb (contains_str (lit "~~~") markdown_source)
  then markdown_source
  else unwrap_finish (foldl unwrap_line ([], None) (split_inclusive c_lf markdown_source)).

(** ** What the loops compute *)

(** All leading white space and quote markers go. *)
Definition quote_prefix (c : N) : bool := is_whitespace c || (c =? c_gt)%N.

Lemma drop_while_quote_trim s : drop_while quote_prefix (trim_start s) = drop_while quote_prefix s.
Proof.
  induction s as [|c s IH]; [done|]. unfold trim_start in *. cbn. unfold quote_prefix at 2.
  destruct (is_whitespace c) eqn:Hw; cbn; [done|].
  change (is_whitespace c || (c =? c_gt)%N) with (quote_prefix c). unfold quote_prefix at 1. by rewrite Hw.
Qed.

Lemma drop_while_length {A} (p : A -> bool) l : length (drop_while p l) <= length l.
Proof. induction l as [|x l IH]; [done|]. cbn. destruct (p x); cbn; lia. Qed.

Lemma strip_blockquote_loop_spec fuel s :
  length s <= fuel -> trim_start s = s -> strip_blockquote_loop fuel s = drop_while quote_prefix s.
Proof.
  revert s. induction fuel as [|fuel IH]; intros s Hlen Htrim.
  { destruct s; [done|cbn in Hlen; lia]. }
  cbn [strip_blockquote_loop]. destruct s as [|c s]; [done|]. cbn in Hlen.
  assert (Hw : is_whitespace c = false).
  { destruct (is_whitespace c) eqn:Hw; [|done]. unfold trim_start in Htrim. cbn in Htrim. rewrite Hw in Htrim.
    apply (f_equal length) in Htrim. cbn in Htrim. pose proof (drop_while_length is_whitespace s). lia. }
  destruct (decide (c = c_gt)) as [->|Hc].
  - change (strip_prefix [c_gt] (c_gt :: s)) with (Some s). cbn [drop_while].
    change (quote_prefix c_gt) with true. cbv iota.
    assert (Hs : drop_while quote_prefix (default s (strip_prefix [c_space] s)) = drop_while quote_prefix s).
    { destruct (strip_prefix [c_space] s) as [r|] eqn:Hr; [|done]. apply strip_prefix_Some in Hr as ->. done. }
    assert (Hl : length (default s (strip_prefix [c_space] s)) <= length s).
    { destruct (strip_prefix [c_space] s) as [r|] eqn:Hr; [|done]. apply strip_prefix_Some in Hr as ->. cbn. lia. }
    rewrite IH; [by rewrite drop_while_quote_trim, Hs| |by apply drop_while_idemp].
    pose proof (drop_while_length is_whitespace (default s (strip_prefix [c_space] s))). unfold trim_start. lia.
  - rewrite strip_prefix_head_ne by congruence. cbn. unfold quote_prefix. rewrite Hw.
    by rewrite (proj2 (N.eqb_neq _ _) Hc).
Qed.

Lemma strip_blockquote_prefix_spec s : strip_blockquote_prefix s = drop_while quote_prefix s.
Proof.
  unfold strip_blockquote_prefix. rewrite strip_blockquote_loop_spec; [apply drop_while_quote_trim| |by apply drop_while_idemp].
  apply drop_while_length.
Qed.

(** ** Unwrapping

    The fences of a source: a fence runs from the line that opens it to the first line
    that closes it, or to the end.  Of a closed Markdown fence around a table only the
    contents are left; everything else stays. *)

Definition unwrapped_block (fence : Fence) (is_markdown : bool) (opening : rstr) (body : list rstr) (closing : rstr) : list rstr :=
  if is_markdown && markdown_fence_contains_table (concat body) (is_blockquoted fence)
  then body else opening :: body ++ [closing].

Inductive Unwrapped : list rstr -> list rstr -> Prop :=
| Unwrapped_nil : Unwrapped [] []
| Unwrapped_line l ls out :
    parse_open_fence l = None -> Unwrapped ls out -> Unwrapped (l :: ls) (l :: out)
| Unwrapped_closed l fence is_markdown body c ls out :
    parse_open_fence l = Some (fence, is_markdown) ->
    Forall (fun x => is_close_fence x fence = false) body -> is_close_fence c fence = true ->
    Unwrapped ls out ->
    Unwrapped (l :: body ++ c :: ls) (unwrapped_block fence is_markdown l body c ++ out)
| Unwrapped_open l fence is_markdown body :
    parse_open_fence l = Some (fence, is_markdown) ->
    Forall (fun x => is_close_fence x fence = false) body ->
    Unwrapped (l :: body) (l :: body).

Lemma first_match {A} (p : A -> bool) l :
  Forall (fun x => p x = false) l
  \/ exists a x b, l = a ++ x :: b /\ Forall (fun x => p x = false) a /\ p x = true.
Proof.
  induction l as [|x l [IH|(a & y & b & -> & Ha & Hy)]]; [by left| |].
  - destruct (p x) eqn:Hx; [right; by exists [], x, l|left; by constructor].
  - right. destruct (p x) eqn:Hx; [by exists [], x, (a ++ y :: b)|].
    exists (x :: a), y, b. repeat split; [by constructor|done].
Qed.

Lemma unwrap_passthrough fence body out :
  Forall (fun x => is_close_fence x fence = false) body ->
  foldl unwrap_line (out, Some (Passthrough fence)) body = (out ++ concat body, Some (Passthrough fence)).
Proof.
  revert out. induction body as [|x body IH]; intros out Hb; [by rewrite app_nil_r|].
  inversion_clear Hb as [|? ? Hx Hb']. cbn. rewrite Hx. rewrite IH by done. by rewrite <- (assoc_L (++)).
Qed.

Lemma unwrap_candidate fence o content body out :
  Forall (fun x => is_close_fence x fence = false) body ->
  foldl unwrap_line (out, Some (MarkdownCandidate (mkCandidate fence o content))) body
  = (out, Some (MarkdownCandidate (mkCandidate fence o (content ++ body)))).
Proof.
  revert content. induction body as [|x body IH]; intros content Hb; [by rewrite app_nil_r|].
  inversion_clear Hb as [|? ? Hx Hb']. cbn. rewrite Hx. rewrite IH by done. by rewrite <- (assoc_L (++)).
Qed.

Lemma unwrap_closed_block fence is_markdown l body c out :
  parse_open_fence l = Some (fence, is_markdown) ->
  Forall (fun x => is_close_fence x fence = false) body -> is_close_fence c fence = true ->
  foldl unwrap_line (out, None) (l :: body ++ [c])
  = (out ++ concat (unwrapped_block fence is_markdown l body c), None).
Proof.
  intros Hl Hb Hc. cbn [foldl]. unfold unwrapped_block. cbn [unwrap_line]. rewrite Hl. rewrite foldl_app.
  destruct is_markdown; cbn [andb].
  - rewrite unwrap_candidate by done. cbn [foldl unwrap_line candidate_fence content_ranges opening_range app]. rewrite Hc.
    destruct (markdown_fence_contains_table _ _); [done|]. cbn. rewrite concat_app. cbn. by rewrite app_nil_r.
  - rewrite unwrap_passthrough by done. cbn. rewrite Hc, concat_app. cbn. by rewrite app_nil_r, !(assoc_L (++)).
Qed.

Lemma unwrap_open_block fence is_markdown l body out :
  parse_open_fence l = Some (fence, is_markdown) ->
  Forall (fun x => is_close_fence x fence = false) body ->
  unwrap_finish (foldl unwrap_line (out, None) (l :: body)) = out ++ concat (l :: body).
Proof.
  intros Hl Hb. cbn [foldl unwrap_line]. rewrite Hl. destruct is_markdown.
  - by rewrite unwrap_candidate.
  - rewrite unwrap_passthrough by done. cbn. by rewrite <- (assoc_L (++)).
Qed.

Lemma unwrap_lines_spec ls out :
  exists res, Unwrapped ls res /\ unwrap_finish (foldl unwrap_line (out, None) ls) = out ++ concat res.
Proof.
  revert out. induction ls as [[|l ls] IH] using (well_founded_induction (well_founded_ltof _ length)); intros out.
  { exists []. split; [constructor|]. cbn. by rewrite app_nil_r. }
  destruct (parse_open_fence l) as [[fence is_markdown]|] eqn:Hl.
  - destruct (first_match (fun x => is_close_fence x fence) ls) as [Hb|(body & c & ls' & -> & Hb & Hc)].
    + exists (l :: ls). split; [by econstructor|by eapply unwrap_open_block].
    + destruct (IH ls') with (out := out ++ concat (unwrapped_block fence is_markdown l body c)) as (res & Hres & He).
      { unfold ltof. cbn. rewrite length_app. cbn. lia. }
      exists (unwrapped_block fence is_markdown l body c ++ res). split; [by econstructor|].
      change (l :: body ++ c :: ls') with ([l] ++ body ++ c :: ls').
      rewrite (cons_middle c body ls'), !(assoc_L (++)), foldl_app, <- (assoc_L (++)).
      change ([l] ++ body ++ [c]) with (l :: body ++ [c]).
      by rewrite (unwrap_closed_block fence is_markdown), He, concat_app, (assoc_L (++)).
  - destruct (IH ls) with (out := out ++ l) as (res & Hres & He); [unfold ltof; cbn; lia|].
    exists (l :: res). split; [by constructor|]. cbn [foldl unwrap_line]. rewrite Hl, He. cbn. by rewrite (assoc_L (++)).
Qed.

(** A source without three markers in a row opens no fence. *)
Lemma contains_str_app p a s b : starts_with p s = true -> contains_str p (a ++ s ++ b) = true.
Proof.
  intros Hs. induction a as [|x a IH]; cbn.
  - unfold starts_with in *. destruct (strip_prefix p s) as [r|] eqn:Hr; [|done]. apply strip_prefix_Some in Hr as ->.
    assert (Hp : starts_with p ((p ++ r) ++ b) = true).
    { unfold starts_with. by rewrite <- (assoc_L (++)), strip_prefix_app. }
    destruct ((p ++ r) ++ b); cbn [contains_str]; by rewrite Hp.
  - rewrite IH. apply orb_true_r.
Qed.

Lemma take_while_replicate c s :
  take_while (N.eqb c) s = replicate (length (take_while (N.eqb c) s)) c.
Proof.
  induction s as [|x s IH]; [done|]. cbn. destruct (N.eqb_spec c x) as [->|]; [|done]. cbn. by rewrite IH at 1.
Qed.

Lemma parse_fence_marker_contains s m n :
  parse_fence_marker s = Some (m, n) -> starts_with (lit "```") s = true \/ starts_with (lit "~~~") s = true.
Proof.
  unfold parse_fence_marker. destruct s as [|first s]; [done|].
  set (w := take_while (N.eqb first) (first :: s)).
  destruct (negb (first =? c_backtick)%N && negb (first =? c_tilde)%N) eqn:Hm; [done|].
  destruct (length w <? 3) eqn:Hn; [done|]. intros _. apply Nat.ltb_ge in Hn.
  destruct (take_while_prefix (N.eqb first) (first :: s)) as [r Hr]. fold w in Hr. rewrite Hr.
  unfold w in *. rewrite take_while_replicate. revert Hn. generalize (length (take_while (N.eqb first) (first :: s))).
  intros [|[|[|k]]] Hk; try lia.
  destruct (N.eqb_spec first c_backtick) as [->|]; [by left|].
  destruct (N.eqb_spec first c_tilde) as [->|]; [by right|done].
Qed.

Lemma concat_split_inclusive c s : concat (split_inclusive c s) = s.
Proof.
  induction s as [|x s IH]; [done|]. cbn. destruct (x =? c)%N; cbn; [by f_equal|].
  destruct (split_inclusive c s) as [|l ls]; cbn in *; by f_equal.
Qed.

Lemma strip_columns_suffix n s r : strip_columns n s = Some r -> exists a, s = a ++ r.
Proof.
  revert n. induction s as [|x s IH]; intros n; cbn; [intros [= <-]; by exists []|].
  repeat case_match; try done; intros H'; [..|injection H' as <-; by exists []];
    apply IH in H' as [a ->]; by exists (x :: a).
Qed.

Lemma open_fence_contains l f : parse_open_fence l = Some f ->
  contains_str (lit "```") l = true \/ contains_str (lit "~~~") l = true.
Proof.
  unfold parse_open_fence, strip_line_indent. destruct (strip_columns _ _) as [t|] eqn:Ht; [|done].
  destruct (parse_fence_marker _) as [[m n]|] eqn:Hm; [|done]. intros _.
  apply strip_columns_suffix in Ht as [a Ht]. rewrite strip_blockquote_prefix_spec in Hm.
  destruct (drop_while_suffix quote_prefix t) as [b Hb].
  assert (exists e, l = (a ++ b) ++ drop_while quote_prefix t ++ e) as [e ->].
  { rewrite Hb, (assoc_L (++)) in Ht. destruct (strip_suffix [c_lf] l) as [l'|] eqn:Hl; cbn in Ht.
    - apply strip_suffix_Some in Hl as ->. exists [c_lf]. rewrite Ht at 1. by rewrite <- (assoc_L (++)).
    - exists []. by rewrite app_nil_r. }
  apply parse_fence_marker_contains in Hm as [Hm|Hm]; [left|right]; by apply contains_str_app.
Qed.

Lemma no_fences_unwrapped ls : Forall (fun l => parse_open_fence l = None) ls -> Unwrapped ls ls.
Proof. induction 1; by constructor. Qed.

Lemma contains_str_concat p l ls : l ∈ ls -> contains_str p l = true -> contains_str p (concat ls) = true.
Proof.
  intros (a & b & ->)%list_elem_of_split Hl. rewrite concat_app. cbn.
  assert (exists x s y, l = x ++ s ++ y /\ starts_with p s = true) as (x & s & y & -> & Hs).
  { clear -Hl. induction l as [|c l IH]; cbn in Hl.
    - rewrite orb_false_r in Hl. by exists [], [], [].
    - apply orb_true_iff in Hl as [Hl|Hl]; [exists [], (c :: l), []; split; [cbn; by rewrite app_nil_r|done]|].
      destruct (IH Hl) as (x & s & y & -> & Hs). by exists (c :: x), s, y. }
  replace (concat a ++ (x ++ s ++ y) ++ concat b) with ((concat a ++ x) ++ s ++ y ++ concat b)
    by by rewrite <- !(assoc_L (++)).
  by apply contains_str_app.
Qed.

(** Unwrapping the Markdown fences of a message removes nothing but the opening and
    the closing lines of fences around tables: the lines of the source fall into plain
    lines and fences, each fence running to the first line that closes it; a closed
    Markdown fence with a table is replaced by its contents, and every other line is
    kept, in order, fences that are not closed included. *)
Theorem unwrapping_removes_only_fence_lines src :
  exists out, Unwrapped (split_inclusive c_lf src) out /\ unwrap_markdown_fences src = concat out.
Proof.
  unfold unwrap_markdown_fences. destruct (_ && _) eqn:Hfast.
  - exists (split_inclusive c_lf src). split; [|by rewrite concat_split_inclusive].
    apply no_fences_unwrapped, (proj2 (Forall_forall _ _)). intros l Hl.
    destruct (parse_open_fence l) as [f|] eqn:Hf; [|done]. apply andb_true_iff in Hfast as [H1 H2].
    destruct (open_fence_contains l f Hf) as [Hc|Hc];
      apply (contains_str_concat _ l (split_inclusive c_lf src) Hl) in Hc; rewrite concat_split_inclusive in Hc;
      by rewrite Hc in *.
  - destruct (unwrap_lines_spec (split_inclusive c_lf src) []) as (res & Hres & He). by exists res.
Qed.

(** The lines that are left are lines of the source, in order. *)
Lemma unwrapped_sublist ls out : Unwrapped ls out -> out `sublist_of` ls.
Proof.
  induction 1 as [|l ls out _ _ IH|l fence md body c ls out _ _ _ _ IH|]; [done|by constructor| |done].
  change (l :: body ++ c :: ls) with ((l :: body) ++ c :: ls). rewrite cons_middle, (assoc_L (++)).
  apply sublist_app; [|done]. unfold unwrapped_block. destruct (_ && _); [|done].
  apply sublist_cons. by apply sublist_inserts_r.
Qed.
