(* ===== verification/TableHoldback.v ===== *)
(** * TableHoldback: where the mutable tail of a streamed message starts

    [codex-rs/tui/src/streaming/table_holdback.rs]: the scanner that is fed with the
    committed lines of a message and says from where on a table may still change; and
    the scan of a whole source that the tests of the program compare it with. *)

From Stdlib Require Import Lia NArith.
From stdpp Require Import base list strings.
From S2P Require Import Prelude TextPos TableDetect.

Open Scope rust_scope.

(** ** The scanner *)

Inductive TableHoldbackState :=
| HoldbackNone
| PendingHeader (header_start : N)
| Confirmed (table_start : N).

Record PreviousLineState := mkPreviousLine {
  previous_source_start : N;
  previous_fence_kind : FenceKind;
  previous_is_header : bool
}.

Record TableHoldbackScanner := mkScanner {
  source_offset : N;
  fence_tracker : FenceTracker;
  previous_line : option PreviousLineState;
  pending_header_start : option N;
  confirmed_table_start : option N
}.

Definition TableHoldbackScanner_new : TableHoldbackScanner :=
  mkScanner 0 FenceTracker_new None None None.

(** [TableHoldbackScanner::state] *)
Definition holdback_state (sc : TableHoldbackScanner) : TableHoldbackState :=
  match confirmed_table_start sc with
  | Some table_start => Confirmed table_start
  | None =>
      match pending_header_start sc with
      | Some header_start => PendingHeader header_start
      | None => HoldbackNone
      end
  end.

Definition table_candidate_text (line : rstr) : option rstr :=
  let stripped := trim (strip_blockquote_prefix line) in
  match parse_table_segments stripped with Some _ => Some stripped | None => None end.

(** [usize] of a string's length. *)
Definition len_usize (s : rstr) : N := N.of_nat (str_len s).

(** [TableHoldbackScanner::push_line] *)
Definition push_line (sc : TableHoldbackScanner) (source_line : rstr) : TableHoldbackScanner :=
  let line := default source_line (strip_suffix [c_lf] source_line) in
  let source_start := source_offset sc in
  let fence_kind := tracker_kind (fence_tracker sc) in
  let candidate_text := if bool_decide (fence_kind = Other) then None else table_candidate_text line in
  let is_header := is_some_and candidate_text is_table_header_line in
  let is_delimiter := is_some_and candidate_text is_table_delimiter_line in
  let confirm :=
    match confirmed_table_start sc, previous_line sc with
    | None, Some previous =>
        if negb (bool_decide (previous_fence_kind previous = Other)) && negb (bool_decide (fence_kind = Other))
           && previous_is_header previous && is_delimiter
        then Some (previous_source_start previous) else None
    | _, _ => None
    end in
  let confirmed_table_start' := match confirm with Some s => Some s | None => confirmed_table_start sc end in
  let pending := if is_some confirm then None else pending_header_start sc in
  let pending' :=
    if negb (is_some confirmed_table_start') && negb (is_empty (trim line)) then
      if negb (bool_decide (fence_kind = Other)) && is_header then Some source_start else None
    else pending in
  mkScanner (sat_add (source_offset sc) (len_usize source_line))
    (tracker_advance (fence_tracker sc) line)
    (Some (mkPreviousLine source_start fence_kind is_header))
    pending' confirmed_table_start'.

Definition push_source_chunk (sc : TableHoldbackScanner) (source_chunk : rstr) : TableHoldbackScanner :=
  if is_empty source_chunk then sc else foldl push_line sc (split_inclusive c_lf source_chunk).

(** ** The scan of a whole source *)

Record ParsedLine := mkParsedLine { line_text : rstr; fence_context : FenceKind; source_start : N }.

(** The loop of [parse_lines_with_fence_state]. *)
Fixpoint parse_lines_from (tracker : FenceTracker) (start : N) (raw_lines : list rstr) : list ParsedLine :=
  match raw_lines with
  | [] => []
  | raw_line :: r =>
      mkParsedLine raw_line (tracker_kind tracker) start
        :: parse_lines_from (tracker_advance tracker raw_line) (sat_add (sat_add start (len_usize raw_line)) 1) r
  end.

Definition parse_lines_with_fence_state (source : rstr) : list ParsedLine :=
  parse_lines_from FenceTracker_new 0 (split_on c_lf source).

Definition is_table_pair (header_line delimiter_line : ParsedLine) : bool :=
  negb (bool_decide (fence_context header_line = Other) || bool_decide (fence_context delimiter_line = Other))
  && match table_candidate_text (line_text header_line), table_candidate_text (line_text delimiter_line) with
     | Some header_text, Some delimiter_text =>
         is_table_header_line header_text && is_table_delimiter_line delimiter_text
     | _, _ => false
     end.

(** The loop over [windows(2)]. *)
Fixpoint first_table (lines : list ParsedLine) : option N :=
  match lines with
  | header_line :: r =>
      match r with
      | delimiter_line :: _ =>
          if is_table_pair header_line delimiter_line then Some (source_start header_line) else first_table r
      | [] => None
      end
  | [] => None
  end.

Definition pending_table_header (lines : list ParsedLine) : option N :=
  match List.find (fun line => negb (is_empty (trim (line_text line)))) (reverse lines) with
  | Some line =>
      if negb (bool_decide (fence_context line = Other))
         && is_some_and (table_candidate_text (line_text line)) is_table_header_line
      then Some (source_start line) else None
  | None => None
  end.

Definition table_holdback_state (source : rstr) : TableHoldbackState :=
  let lines := parse_lines_with_fence_state source in
  match first_table lines with
  | Some table_start => Confirmed table_start
  | None =>
      match pending_table_header lines with
      | Some header_start => PendingHeader header_start
      | None => HoldbackNone
      end
  end.

(** ** The scanner computes the scan *)

(** The state after the lines [P], where [tracker] and [start] are those of the next. *)
Record scanned (sc : TableHoldbackScanner) (P : list ParsedLine) (tracker : FenceTracker) : Prop := {
  sc_tracker : fence_tracker sc = tracker;
  sc_previous : previous_line sc =
    (fun l => mkPreviousLine (source_start l) (fence_context l)
       (negb (bool_decide (fence_context l = Other))
        && is_some_and (table_candidate_text (line_text l)) is_table_header_line)) <$> last P;
  sc_confirmed : confirmed_table_start sc = first_table P;
  sc_pending : first_table P = None -> pending_header_start sc = pending_table_header P
}.

Lemma first_table_snoc P x :
  first_table (P ++ [x]) =
    match first_table P with
    | Some s => Some s
    | None => match last P with
              | Some a => if is_table_pair a x then Some (source_start a) else None
              | None => None
              end
    end.
Proof.
  induction P as [|a P IH]; [done|]. destruct P as [|b P]; [done|].
  change (first_table ((a :: b :: P) ++ [x]))
    with (if is_table_pair a b then Some (source_start a) else first_table ((b :: P) ++ [x])).
  change (first_table (a :: b :: P)) with (if is_table_pair a b then Some (source_start a) else first_table (b :: P)).
  destruct (is_table_pair a b); [done|]. by rewrite IH.
Qed.

Lemma pending_snoc P x :
  pending_table_header (P ++ [x]) =
    if is_empty (trim (line_text x)) then pending_table_header P
    else if negb (bool_decide (fence_context x = Other))
            && is_some_and (table_candidate_text (line_text x)) is_table_header_line
    then Some (source_start x) else None.
Proof. unfold pending_table_header. rewrite reverse_snoc. cbn. by destruct (is_empty (trim (line_text x))). Qed.

Lemma push_line_scanned sc P tr p :
  scanned sc P tr ->
  let line := default p (strip_suffix [c_lf] p) in
  scanned (push_line sc p) (P ++ [mkParsedLine line (tracker_kind tr) (source_offset sc)]) (tracker_advance tr line).
Proof.
  intros [Ht Hp Hc Hh] line. set (x := mkParsedLine line (tracker_kind tr) (source_offset sc)).
  set (header := fun l => negb (bool_decide (fence_context l = Other))
                          && is_some_and (table_candidate_text (line_text l)) is_table_header_line).
  assert (Hcand : (if bool_decide (tracker_kind tr = Other) then None else table_candidate_text line)
                  = if bool_decide (fence_context x = Other) then None else table_candidate_text (line_text x)) by done.
  assert (Hhead : is_some_and (if bool_decide (fence_context x = Other) then None else table_candidate_text (line_text x))
                    is_table_header_line = header x).
  { unfold header. by destruct (bool_decide (fence_context x = Other)). }
  assert (Hpair : forall a, is_table_pair a x =
     negb (bool_decide (fence_context a = Other)) && negb (bool_decide (fence_context x = Other)) && header a
     && is_some_and (if bool_decide (fence_context x = Other) then None else table_candidate_text (line_text x))
          is_table_delimiter_line).
  { intros a. unfold is_table_pair, header.
    destruct (bool_decide (fence_context a = Other)), (bool_decide (fence_context x = Other)); try done. cbn [negb orb andb].
    destruct (table_candidate_text (line_text a)), (table_candidate_text (line_text x)); cbn; try done.
    by rewrite andb_false_r. }
  assert (Hcs : confirmed_table_start (push_line sc p) = first_table (P ++ [x])).
  { unfold push_line. fold line. cbn [confirmed_table_start]. rewrite Ht, Hcand, Hc, Hp, first_table_snoc.
    destruct (first_table P); [done|]. destruct (last P) as [a|]; [|done]. cbn [fmap option_fmap option_map previous_fence_kind
      previous_is_header previous_source_start]. rewrite Hpair. by destruct (_ && _ && _ && _). }
  split; [by unfold push_line; cbn [fence_tracker]; rewrite Ht| |done|].
  - rewrite last_snoc. unfold push_line. fold line. cbn [previous_line fmap option_fmap option_map].
    rewrite Ht, Hcand, Hhead. done.
  - intros Hn. rewrite pending_snoc. rewrite first_table_snoc in Hn, Hcs. unfold push_line in Hcs |- *. fold line in Hcs |- *.
    cbn [confirmed_table_start pending_header_start] in Hcs |- *. destruct (first_table P) eqn:HP; [done|].
    rewrite Hcs, Hn. cbn [is_some negb andb]. rewrite Ht, Hcand, Hhead. change (line_text x) with line.
    destruct (is_empty (trim line)); cbn [negb].
    + rewrite <- Hh by done. rewrite Ht, Hcand, Hn in Hcs. change (line_text x) with line in Hcs. revert Hcs.
      match goal with |- _ -> (if is_some ?c then _ else _) = _ => destruct c end; cbn [is_some]; [discriminate 1|reflexivity].
    + unfold header. rewrite andb_assoc, andb_diag. done.
Qed.

Lemma strip_suffix_lf l : strip_suffix [c_lf] (l ++ [c_lf]) = Some l.
Proof. by apply strip_suffix_Some. Qed.

Definition terminated (raws : list rstr) : list rstr := (fun l => l ++ [c_lf]) <$> raws.

Lemma sat_add_line start l : sat_add (sat_add start (len_usize l)) 1 = sat_add start (len_usize (l ++ [c_lf])).
Proof. unfold sat_add, len_usize. rewrite str_len_app. cbn. lia. Qed.

Lemma parse_lines_from_app tr start raws l :
  parse_lines_from tr start (raws ++ [l]) =
    parse_lines_from tr start raws
      ++ [mkParsedLine l (tracker_kind (foldl tracker_advance tr raws))
            (foldl sat_add start (len_usize <$> terminated raws))].
Proof.
  revert tr start. induction raws as [|r raws IH]; intros tr start; [done|]. cbn. by rewrite IH, sat_add_line.
Qed.

Lemma push_lines_scanned raws sc :
  scanned sc [] FenceTracker_new -> source_offset sc = 0%N ->
  let sc' := foldl push_line sc (terminated raws) in
  scanned sc' (parse_lines_from FenceTracker_new 0 raws) (foldl tracker_advance FenceTracker_new raws)
  /\ source_offset sc' = foldl sat_add 0%N (len_usize <$> terminated raws).
Proof.
  intros Hs Ho. induction raws as [|l raws IH] using rev_ind; [done|].
  unfold terminated in *. rewrite !fmap_app, !foldl_app. cbn [fmap list_fmap foldl]. destruct IH as [IH IHo]. split.
  - rewrite parse_lines_from_app. pose proof (push_line_scanned _ _ _ (l ++ [c_lf]) IH) as Hp.
    rewrite strip_suffix_lf, IHo in Hp. exact Hp.
  - unfold push_line at 1. cbn [source_offset]. by rewrite IHo.
Qed.

(** Every source is a sequence of terminated lines and a rest. *)
Lemma split_lines s :
  exists raws tail, s = concat (terminated raws) ++ tail /\ no_lf tail /\ split_on c_lf s = raws ++ [tail]
    /\ split_inclusive c_lf s = terminated raws ++ (if is_empty tail then [] else [tail]).
Proof.
  induction s as [|c s (raws & tail & Hs & Ht & Hon & Hin)].
  - exists [], []. repeat split; try done. apply not_elem_of_nil.
  - cbn. rewrite Hon, Hin. destruct (N.eqb_spec c c_lf) as [->|Hc].
    + exists ([] :: raws), tail. repeat split; try done. cbn. by f_equal.
    + destruct raws as [|r raws]; cbn in *.
      * exists [], (c :: tail). subst s. destruct tail; (repeat split; try done);
          intros [He|Ht']%elem_of_cons; try done; try congruence; by apply Ht.
      * exists ((c :: r) :: raws), tail. repeat split; try done. cbn. by f_equal.
Qed.

(** A chunk as the collector commits it: complete lines. *)
Definition complete (s : rstr) : Prop := s = [] \/ last s = Some c_lf.

Lemma push_chunks_lines sc chunks rest :
  Forall complete chunks ->
  foldl push_source_chunk sc (chunks ++ [rest]) = foldl push_line sc (split_inclusive c_lf (concat chunks ++ rest)).
Proof.
  assert (Hone : forall sc s, push_source_chunk sc s = foldl push_line sc (split_inclusive c_lf s)) by (intros ? [|]; done).
  intros Hc. revert sc. induction Hc as [|s chunks Hs Hc IH]; intros sc; [apply Hone|].
  cbn [app foldl concat]. rewrite IH, Hone, <- foldl_app, <- (assoc_L (++)). by rewrite (split_inclusive_app _ s).
Qed.

(** The empty line that [split] finds after the last line feed changes nothing. *)
Lemma first_table_blank P k n : first_table (P ++ [mkParsedLine [] k n]) = first_table P.
Proof.
  rewrite first_table_snoc. destruct (first_table P); [done|]. destruct (last P) as [a|]; [|done].
  unfold is_table_pair. change (table_candidate_text (line_text (mkParsedLine [] k n))) with (@None rstr).
  destruct (table_candidate_text (line_text a)); by rewrite andb_false_r.
Qed.

Lemma scan_is_incremental chunks rest :
  Forall complete chunks ->
  holdback_state (foldl push_source_chunk TableHoldbackScanner_new (chunks ++ [rest]))
  = table_holdback_state (concat chunks ++ rest).
Proof.
  intros Hc. rewrite push_chunks_lines by done. unfold table_holdback_state, parse_lines_with_fence_state.
  destruct (split_lines (concat chunks ++ rest)) as (raws & tail & _ & Ht & -> & ->).
  destruct (push_lines_scanned raws TableHoldbackScanner_new) as [Hs Ho]; [done|done|].
  rewrite parse_lines_from_app, foldl_app. unfold holdback_state. destruct tail as [|c tail].
  - rewrite first_table_blank, pending_snoc. cbn. destruct Hs as [_ _ Hs Hp]. rewrite Hs.
    destruct (first_table _); [done|]. by rewrite Hp.
  - cbn [is_empty foldl]. apply (push_line_scanned _ _ _ (c :: tail)) in Hs as [_ _ Hs Hp].
    assert (Hd : default (c :: tail) (strip_suffix [c_lf] (c :: tail)) = c :: tail).
    { rewrite strip_suffix_last_ne; [done|]. intros Hl%last_Some_elem_of. done. }
    rewrite Hd, Ho in Hs, Hp. rewrite Hs. destruct (first_table _); [done|]. by rewrite Hp.
Qed.

(** The scanner that is fed with the committed lines of a message as they arrive
    holds back from the same place as the scan of the whole source: however the source
    is cut into chunks of complete lines (a last line that is not terminated may
    follow), a table is confirmed at the first header that a delimiter row follows,
    outside other code, and a header is pending if it is the last line that is not
    blank. *)
Theorem holdback_scan_is_incremental chunks rest :
  Forall complete chunks ->
  holdback_state (foldl push_source_chunk TableHoldbackScanner_new (chunks ++ [rest]))
  = table_holdback_state (concat chunks ++ rest).
Proof. apply scan_is_incremental. Qed.

(** ** Where the tail starts *)

Lemma parsed_line_start tr start raws l :
  l ∈ parse_lines_from tr start raws ->
  exists raws1 r raws2, raws = raws1 ++ r :: raws2 /\ source_start l = foldl sat_add start (len_usize <$> terminated raws1).
Proof.
  revert tr start. induction raws as [|r raws IH]; intros tr start; cbn; [by intros ?%not_elem_of_nil|].
  intros [->|Hl]%elem_of_cons; [by exists [], r, raws|].
  destruct (IH _ _ Hl) as (r1 & x & r2 & -> & ->). exists (r :: r1), x, r2. split; [done|]. cbn. by rewrite sat_add_line.
Qed.

Lemma foldl_sat_add n ls : (n <= usize_max)%N ->
  foldl sat_add n (len_usize <$> ls) = N.min (n + len_usize (concat ls)) usize_max.
Proof.
  revert n. induction ls as [|l ls IH]; intros n Hn; cbn [fmap list_fmap foldl concat]; [unfold len_usize; cbn; lia|].
  rewrite IH by (unfold sat_add; lia). unfold sat_add, len_usize. rewrite str_len_app. lia.
Qed.

Lemma first_table_start P s : first_table P = Some s -> exists l, l ∈ P /\ source_start l = s.
Proof.
  induction P as [|a P IH]; [done|]. destruct P as [|b P]; [done|].
  change (first_table (a :: b :: P)) with (if is_table_pair a b then Some (source_start a) else first_table (b :: P)).
  destruct (is_table_pair a b); [intros [= <-]; exists a; split; [by left|done]|].
  intros (l & Hl & ?)%IH. exists l. split; [by right|done].
Qed.

Lemma pending_header_line P s : pending_table_header P = Some s -> exists l, l ∈ P /\ source_start l = s.
Proof.
  unfold pending_table_header. destruct (List.find _ _) as [l|] eqn:Hf; [|done].
  apply find_some in Hf as [Hin _]. destruct (_ && _); [|done]. intros [= <-]. exists l. split; [|done].
  by apply elem_of_reverse, list_elem_of_In.
Qed.

Definition held_back_from (st : TableHoldbackState) : option N :=
  match st with Confirmed s | PendingHeader s => Some s | HoldbackNone => None end.

(** The tail starts at a line of the source. *)
Lemma held_back_boundary source s :
  (len_usize source <= usize_max)%N -> held_back_from (table_holdback_state source) = Some s ->
  boundary source (N.to_nat s).
Proof.
  intros Hlen Hs. set (P := parse_lines_with_fence_state source).
  assert (exists l, l ∈ P /\ source_start l = s) as (l & Hl & <-).
  { unfold table_holdback_state in Hs. fold P in Hs. destruct (first_table P) as [n|] eqn:Hf.
    - injection Hs as <-. by apply first_table_start.
    - destruct (pending_table_header P) as [n|] eqn:Hp; [|done]. injection Hs as <-. by apply pending_header_line. }
  unfold P, parse_lines_with_fence_state in Hl.
  destruct (split_lines source) as (raws & tail & Hsrc & _ & Hon & _). rewrite Hon in Hl.
  apply parsed_line_start in Hl as (r1 & x & r2 & Hr & ->). rewrite foldl_sat_add by done.
  assert (exists q, source = concat (terminated r1) ++ q) as [q Hq].
  { destruct r2 as [|y r2 _] using rev_ind.
    - apply app_inj_2 in Hr as [-> _]; [|done]. by exists tail.
    - change (x :: r2 ++ [y]) with ((x :: r2) ++ [y]) in Hr. rewrite (assoc_L (++)) in Hr. apply app_inj_2 in Hr as [-> _]; [|done].
      exists (concat (terminated (x :: r2)) ++ tail). rewrite Hsrc. unfold terminated. by rewrite fmap_app, concat_app, <- (assoc_L (++)). }
  rewrite Hq in Hlen |- *. unfold len_usize in *. rewrite str_len_app in Hlen.
  replace (N.to_nat _) with (str_len (concat (terminated r1))) by lia. apply boundary_app.
Qed.

Lemma scanner_state chunks :
  Forall complete chunks ->
  holdback_state (foldl push_source_chunk TableHoldbackScanner_new chunks) = table_holdback_state (concat chunks).
Proof.
  intros Hc. pose proof (scan_is_incremental chunks [] Hc) as H. rewrite app_nil_r, foldl_app in H. exact H.
Qed.

Module Examples.
Definition table_chunks : list rstr := [lit "Sizes:" ++ [c_lf]; lit "> | a | b |" ++ [c_lf] ++ lit "> |---|:---:|" ++ [c_lf]].

Lemma holdback_scan_is_incremental_witness :
  Forall complete table_chunks
  /\ holdback_state (foldl push_source_chunk TableHoldbackScanner_new (table_chunks ++ [lit "> | 1 |"]))
     = table_holdback_state (concat table_chunks ++ lit "> | 1 |")
  /\ table_holdback_state (concat table_chunks ++ lit "> | 1 |") = Confirmed 7.
Proof.
  assert (H : Forall complete table_chunks) by (repeat constructor; by right).
  split; [exact H|]. split; [exact (holdback_scan_is_incremental table_chunks (lit "> | 1 |") H)|reflexivity].
Defined.
End Examples.
