(* ===== verification/StreamRender.v ===== *)
(** * StreamRender: rendering a message while it arrives

    [codex-rs/tui/src/markdown_stream.rs] (the collector: only complete lines are
    committed), [streaming/render.rs] (finished blocks are kept, the last one is rendered
    again) and [streaming/code_fence.rs] (an open code fence is appended to).

    The Markdown renderer, with its working directory and visualisation context, and the
    highlighter of code are arguments: what is proved holds for every renderer.  The
    revision of the syntax theme is a counter that other threads change; the values that
    are read are arguments of the operation that reads them. *)

From Stdlib Require Import Lia NArith.
From stdpp Require Import base list strings.
From S2P Require Import Prelude TextPos TableDetect TableHoldback.

Open Scope rust_scope.

Definition c_nul : N := 0.
Definition c_comma : N := 44.
Definition c_amp : N := 38.

(** ** The collector *)

Record MarkdownStreamCollector := mkCollector {
  collector_buffer : rstr;
  committed_source_len : nat;
  collector_width : option N
}.

Definition MarkdownStreamCollector_new (width : option N) : MarkdownStreamCollector := mkCollector [] 0 width.

Definition collector_set_width (c : MarkdownStreamCollector) (width : option N) : MarkdownStreamCollector :=
  mkCollector (collector_buffer c) (committed_source_len c) width.

Definition collector_clear (c : MarkdownStreamCollector) : MarkdownStreamCollector :=
  mkCollector [] 0 (collector_width c).

Definition collector_push_delta (c : MarkdownStreamCollector) (delta : rstr) : MarkdownStreamCollector :=
  mkCollector (collector_buffer c ++ delta) (committed_source_len c) (collector_width c).

Definition commit_complete_source (c : MarkdownStreamCollector) : MarkdownStreamCollector * option (nat * nat) :=
  match rfind_char (N.eqb c_lf) (collector_buffer c) with
  | None => (c, None)
  | Some idx =>
      let commit_end := idx + 1 in
      let commit_start := committed_source_len c in
      if commit_end <=? commit_start then (c, None)
      else (mkCollector (collector_buffer c) commit_end (collector_width c), Some (commit_start, commit_end))
  end.

Definition committed_source (c : MarkdownStreamCollector) : run rstr :=
  str_to (collector_buffer c) (committed_source_len c).

Definition finalize_and_take_source (c : MarkdownStreamCollector) : MarkdownStreamCollector * rstr :=
  let out := collector_buffer c in
  let out := if negb (is_empty out) && negb (ends_with [c_lf] out) then out ++ [c_lf] else out in
  (collector_clear c, out).

(** ** Sources without formatting *)

Inductive HistoryRenderMode := Rich | Raw.

#[export] Instance render_mode_eq_dec : EqDecision HistoryRenderMode.
Proof. solve_decision. Defined.

(** [raw_lines_from_source]; [raw_line] makes a line of a string. *)
Definition raw_lines_from_source {Line} (raw_line : rstr -> Line) (source : rstr) : list Line :=
  if is_empty source then []
  else
    let parts := split_on c_lf source in
    let parts := if ends_with [c_lf] source then take (length parts - 1) parts else parts in
    raw_line <$> parts.

Definition DIRECTIVE_PREFIX : rstr := lit "::codex-inline-vis{".
Definition CONTENT_REFERENCE_PREFIX : rstr := [57856%N] ++ lit "visualize" ++ [57858%N].

Definition contains_inline_visualization (markdown : rstr) : bool :=
  contains_str DIRECTIVE_PREFIX markdown || contains_str CONTENT_REFERENCE_PREFIX markdown.

(** ** Open code fences *)

Definition MAX_HIGHLIGHT_LINE_BYTES : nat := 4 * 1024.

Definition has_possible_closing_line (source : rstr) (marker : N) (marker_len : nat) : bool :=
  existsb (fun line =>
      marker_len <=? length (take_while (N.eqb marker)
                               (drop_while (fun c => (c =? c_space)%N || (c =? c_tab)%N) line)))
    (lines source).

Record StreamingMarkdownRender {Line : Type} := mkStreamingMarkdownRender {
  pending_lines : list Line;
  last_top_level_block_start : option nat;
  pending_has_reference_link_definition : bool;
  first_top_level_block_is_html : bool
}.
Arguments StreamingMarkdownRender : clear implicits.

(** What the stream uses of the renderer and of the highlighter. *)
Class Renderer (Line : Type) := {
  blank_line : Line;
  raw_line : rstr -> Line;
  (** [render_markdown_agent_with_links_cwd_and_visualizations] *)
  render_markdown : rstr -> option N -> list Line;
  (** [render_streaming_markdown_agent_with_links_and_cwd] *)
  render_streaming_markdown : rstr -> option N -> StreamingMarkdownRender Line;
  (** whether there is an [InlineVisualizationContext] *)
  has_visualization_context : bool;
  (** [StreamingCodeHighlighter] *)
  Highlighter : Type;
  highlighter_new : rstr -> rstr -> N -> option Highlighter;
  highlighter_append : Highlighter -> rstr -> option (Highlighter * list Line)
}.

Section render.
Context {Line : Type} {renderer : Renderer Line}.

Record OpenCodeFence := mkOpenCodeFence {
  fence_marker_char : N;
  fence_marker_len : nat;
  language : rstr;
  content_start : nat;
  fence_source_len : nat;
  theme_revision : N;
  highlighter : option Highlighter
}.

Definition is_info_space (c : N) : bool := (c =? c_space)%N || (c =? c_tab)%N || (c =? 11)%N || (c =? 12)%N.

(** [OpenCodeFence::detect]; [current_revision] is what [syntax_theme_revision] returns. *)
Definition detect (source : rstr) (source_len : nat) (revision current_revision : N) : option OpenCodeFence :=
  match source with
  | [] => None
  | marker :: _ =>
      if negb (marker =? c_backtick)%N && negb (marker =? c_tilde)%N then None
      else
        match split_once c_lf source with
        | None => None
        | Some (opening, code) =>
            let marker_len := length (take_while (N.eqb marker) opening) in
            if (marker_len <? 3) || negb (ends_with [c_lf] source) || negb (revision =? current_revision)%N
               || contains_char c_cr source || contains_char c_nul source
            then None
            else
              let info := drop_while_end is_info_space (drop_while is_info_space (drop marker_len opening)) in
              if contains_char c_amp info || contains_char c_backslash info
                 || (marker =? c_backtick)%N && contains_char c_backtick info
              then None
              else
                let language := take_while (fun c => negb ((c =? c_comma)%N || (c =? c_space)%N || (c =? c_tab)%N)) info in
                if is_empty language then None
                else if (MAX_HIGHLIGHT_LINE_BYTES <? str_len language) || has_possible_closing_line code marker marker_len
                then None
                else if source_len <? str_len code then None
                else Some (mkOpenCodeFence marker marker_len language (source_len - str_len code) source_len revision None)
        end
  end.

(** [OpenCodeFence::append] *)
Definition fence_append (fence : OpenCodeFence) (raw_source committed : rstr) (current_revision : N)
    : run (option (OpenCodeFence * list Line)) :=
  if negb (fence_source_len fence + str_len committed =? str_len raw_source)
     || negb (ends_with committed raw_source)
     || (contains_char c_cr committed || contains_char c_nul committed)
     || has_possible_closing_line committed (fence_marker_char fence) (fence_marker_len fence)
     || negb (theme_revision fence =? current_revision)%N
  then mret None
  else
    h ← match highlighter fence with
        | Some h => mret (Some h)
        | None =>
            code ← str_range raw_source (content_start fence) (fence_source_len fence);
            mret (highlighter_new code (language fence) (theme_revision fence))
        end;
    mret (h ← h;
          '(h, lines) ← highlighter_append h committed;
          Some (mkOpenCodeFence (fence_marker_char fence) (fence_marker_len fence) (language fence)
                  (content_start fence) (str_len raw_source) (theme_revision fence) (Some h), lines)).

(** ** The incremental render *)

Record StreamingRender := mkStreamingRender {
  render_lines : list Line;
  stable_source_len : nat;
  stable_rendered_len : nat;
  has_reference_link_definition : bool;
  has_inline_visualization_directive : bool;
  open_code_fence : option OpenCodeFence
}.

Definition StreamingRender_new : StreamingRender := mkStreamingRender [] 0 0 false false None.

(** [StreamingRender::clear] *)
Definition render_clear (r : StreamingRender) : StreamingRender := StreamingRender_new.

Definition render_source (source : rstr) (width : option N) (mode : HistoryRenderMode) : list Line :=
  match mode with
  | Rich => render_markdown source width
  | Raw => raw_lines_from_source raw_line source
  end.

(** [StreamingRender::recompute] *)
Definition recompute (r : StreamingRender) (source : rstr) (width : option N) (mode : HistoryRenderMode) : StreamingRender :=
  let directive := contains_inline_visualization source in
  let '(lines, reference) :=
    match mode with
    | Rich =>
        if negb has_visualization_context && negb directive then
          let rendered := render_streaming_markdown source width in
          (pending_lines rendered, pending_has_reference_link_definition rendered)
        else (render_source source width mode, false)
    | Raw => (render_source source width mode, false)
    end in
  mkStreamingRender lines 0 0 reference directive None.

(** The revisions of the theme that one [append] reads: in [OpenCodeFence::append],
    before rendering, and in [OpenCodeFence::detect]. *)
Record Revisions := mkRevisions { rev_append : N; rev_before : N; rev_detect : N }.

(** The last part of [append]: the pending source is rendered, and what precedes its last
    block becomes stable. *)
Definition append_pending (r : StreamingRender) (raw_source : rstr) (width : option N) (mode : HistoryRenderMode)
    (revs : Revisions) : run StreamingRender :=
  pending_source ← str_from raw_source (stable_source_len r);
  let pending := render_streaming_markdown pending_source width in
  if pending_has_reference_link_definition pending then
    mret (recompute r raw_source width mode)
  else
    let final_block_start := default 0 (last_top_level_block_start pending) in
    final_block ← str_from pending_source final_block_start;
    let fence := detect final_block (str_len raw_source) (rev_before revs) (rev_detect revs) in
    newly ← match last_top_level_block_start pending with
            | Some boundary =>
                newly_stable_source ← str_to pending_source boundary;
                let newly_stable := render_source newly_stable_source width mode in
                mret (Some (stable_source_len r + boundary, length newly_stable))
            | None => mret None
            end;
    let lines := take (stable_rendered_len r) (render_lines r) in
    let lines :=
      if negb (is_empty lines)
         && (negb (is_empty (pending_lines pending)) || negb (is_empty (trim pending_source)))
         && negb (first_top_level_block_is_html pending)
      then lines ++ [blank_line] else lines in
    let pending_render_start := length lines in
    mret (mkStreamingRender (lines ++ pending_lines pending)
            (match newly with Some (len, _) => len | None => stable_source_len r end)
            (match newly with Some (_, n) => pending_render_start + n | None => stable_rendered_len r end)
            (has_reference_link_definition r) (has_inline_visualization_directive r) fence).

(** [StreamingRender::append] *)
Definition render_append (r : StreamingRender) (raw_source committed : rstr) (width : option N)
    (mode : HistoryRenderMode) (revs : Revisions) : run StreamingRender :=
  match mode with
  | Raw =>
      mret (mkStreamingRender (render_lines r ++ raw_lines_from_source raw_line committed)
              (stable_source_len r) (stable_rendered_len r) (has_reference_link_definition r)
              (has_inline_visualization_directive r) (open_code_fence r))
  | Rich =>
      let directive := has_inline_visualization_directive r || contains_inline_visualization committed in
      let r := mkStreamingRender (render_lines r) (stable_source_len r) (stable_rendered_len r)
                 (has_reference_link_definition r) directive (open_code_fence r) in
      if directive then mret (recompute r raw_source width mode)
      else if has_reference_link_definition r then mret (recompute r raw_source width mode)
      else
        appended ← match open_code_fence r with
                   | Some fence => fence_append fence raw_source committed (rev_append revs)
                   | None => mret None
                   end;
        let r := mkStreamingRender (render_lines r) (stable_source_len r) (stable_rendered_len r)
                   (has_reference_link_definition r) directive None in
        match appended with
        | Some (fence, lines) =>
            mret (mkStreamingRender (render_lines r ++ lines) (stable_source_len r) (stable_rendered_len r)
                    (has_reference_link_definition r) directive (Some fence))
        | None => append_pending r raw_source width mode revs
        end
  end.
End render.
