(* ===== verification/StreamController.v ===== *)
(** * StreamController: messages that are shown while they arrive

    [codex-rs/tui/src/streaming/mod.rs] (the queue of lines), [streaming/controller.rs]
    (stable lines are queued and emitted, the rest is a tail that may change),
    [streaming/chunking.rs] (how many lines a tick emits) and [streaming/commit_tick.rs].

    Instants are numbers of nanoseconds; those that the code reads from the clock are
    arguments. *)

From Stdlib Require Import Lia NArith.
From stdpp Require Import base list strings.
From S2P Require Import Prelude TextPos PasteBurst TableDetect TableHoldback StreamRender.

Open Scope rust_scope.

(** ** How many lines a tick emits *)

Definition ENTER_QUEUE_DEPTH_LINES : nat := 8.
Definition ENTER_OLDEST_AGE : N := from_millis 120.
Definition EXIT_QUEUE_DEPTH_LINES : nat := 2.
Definition EXIT_OLDEST_AGE : N := from_millis 40.
Definition EXIT_HOLD : N := from_millis 250.
Definition REENTER_CATCH_UP_HOLD : N := from_millis 250.
Definition SEVERE_QUEUE_DEPTH_LINES : nat := 64.
Definition SEVERE_OLDEST_AGE : N := from_millis 300.

Inductive ChunkingMode := Smooth | CatchUp.

#[export] Instance chunking_mode_eq_dec : EqDecision ChunkingMode.
Proof. solve_decision. Defined.

Record QueueSnapshot := mkSnapshot { queued_lines : nat; oldest_age : option N }.

Inductive DrainPlan := Single | Batch (max_lines : nat).

Record ChunkingDecision := mkDecision {
  decision_mode : ChunkingMode;
  entered_catch_up : bool;
  drain_plan : DrainPlan
}.

Record AdaptiveChunkingPolicy := mkPolicy {
  policy_mode : ChunkingMode;
  below_exit_threshold_since : option N;
  last_catch_up_exit_at : option N
}.

(** [AdaptiveChunkingPolicy::default] and [reset] *)
Definition policy_default : AdaptiveChunkingPolicy := mkPolicy Smooth None None.
Definition policy_reset (p : AdaptiveChunkingPolicy) : AdaptiveChunkingPolicy := mkPolicy Smooth None None.

Definition should_enter_catch_up (s : QueueSnapshot) : bool :=
  (ENTER_QUEUE_DEPTH_LINES <=? queued_lines s)
  || is_some_and (oldest_age s) (fun oldest => (ENTER_OLDEST_AGE <=? oldest)%N).

Definition should_exit_catch_up (s : QueueSnapshot) : bool :=
  (queued_lines s <=? EXIT_QUEUE_DEPTH_LINES)
  && is_some_and (oldest_age s) (fun oldest => (oldest <=? EXIT_OLDEST_AGE)%N).

Definition is_severe_backlog (s : QueueSnapshot) : bool :=
  (SEVERE_QUEUE_DEPTH_LINES <=? queued_lines s)
  || is_some_and (oldest_age s) (fun oldest => (SEVERE_OLDEST_AGE <=? oldest)%N).

Definition reentry_hold_active (p : AdaptiveChunkingPolicy) (now : N) : bool :=
  is_some_and (last_catch_up_exit_at p) (fun exit => (duration_since now exit <? REENTER_CATCH_UP_HOLD)%N).

Definition note_catch_up_exit (p : AdaptiveChunkingPolicy) (now : N) : AdaptiveChunkingPolicy :=
  if bool_decide (policy_mode p = CatchUp)
  then mkPolicy (policy_mode p) (below_exit_threshold_since p) (Some now) else p.

Definition maybe_enter_catch_up (p : AdaptiveChunkingPolicy) (s : QueueSnapshot) (now : N) : AdaptiveChunkingPolicy * bool :=
  if negb (should_enter_catch_up s) then (p, false)
  else if reentry_hold_active p now && negb (is_severe_backlog s) then (p, false)
  else (mkPolicy CatchUp None None, true).

Definition maybe_exit_catch_up (p : AdaptiveChunkingPolicy) (s : QueueSnapshot) (now : N) : AdaptiveChunkingPolicy :=
  if negb (should_exit_catch_up s) then mkPolicy (policy_mode p) None (last_catch_up_exit_at p)
  else
    match below_exit_threshold_since p with
    | Some since =>
        if (EXIT_HOLD <=? duration_since now since)%N then mkPolicy Smooth None (Some now) else p
    | None => mkPolicy (policy_mode p) (Some now) (last_catch_up_exit_at p)
    end.

(** [AdaptiveChunkingPolicy::decide] *)
Definition decide_chunking (p : AdaptiveChunkingPolicy) (s : QueueSnapshot) (now : N)
    : AdaptiveChunkingPolicy * ChunkingDecision :=
  if queued_lines s =? 0 then
    let p := note_catch_up_exit p now in
    (mkPolicy Smooth None (last_catch_up_exit_at p), mkDecision Smooth false Single)
  else
    let '(p, entered) :=
      match policy_mode p with
      | Smooth => maybe_enter_catch_up p s now
      | CatchUp => (maybe_exit_catch_up p s now, false)
      end in
    let plan :=
      match policy_mode p with
      | Smooth => Single
      | CatchUp => Batch (Nat.max (queued_lines s) 1)
      end in
    (p, mkDecision (policy_mode p) entered plan).

Section controller.
Context {Line : Type} {renderer : Renderer Line}.

(** ** The queue *)

Record QueuedLine := mkQueuedLine { line : Line; enqueued_at : N }.

Record StreamState := mkStreamState {
  collector : MarkdownStreamCollector;
  state_queued_lines : list QueuedLine;
  has_seen_delta : bool
}.

Definition StreamState_new (width : option N) : StreamState :=
  mkStreamState (MarkdownStreamCollector_new width) [] false.

Definition state_clear (s : StreamState) : StreamState := mkStreamState (collector_clear (collector s)) [] false.

(** [StreamState::step] and [drain_n] *)
Definition state_step (s : StreamState) : StreamState * list Line :=
  match state_queued_lines s with
  | [] => (s, [])
  | q :: r => (mkStreamState (collector s) r (has_seen_delta s), [line q])
  end.

Definition drain_n (s : StreamState) (max_lines : nat) : StreamState * list Line :=
  let last := Nat.min max_lines (length (state_queued_lines s)) in
  (mkStreamState (collector s) (drop last (state_queued_lines s)) (has_seen_delta s),
   line <$> take last (state_queued_lines s)).

Definition state_clear_queue (s : StreamState) : StreamState := mkStreamState (collector s) [] (has_seen_delta s).

Definition state_is_idle (s : StreamState) : bool := is_empty (state_queued_lines s).
Definition queued_len (s : StreamState) : nat := length (state_queued_lines s).

Definition oldest_queued_age (s : StreamState) (now : N) : option N :=
  (fun q => duration_since now (enqueued_at q)) <$> head (state_queued_lines s).

Definition enqueue (s : StreamState) (now : N) (ls : list Line) : StreamState :=
  mkStreamState (collector s) (state_queued_lines s ++ ((fun l => mkQueuedLine l now) <$> ls)) (has_seen_delta s).

(** ** The core of a stream *)

Record StablePrefixLenCache := mkCache {
  cache_source_start : nat;
  cache_width : option N;
  stable_prefix_len : nat
}.

Record StreamCore := mkCore {
  state : StreamState;
  width : option N;
  render : StreamingRender;
  enqueued_stable_len : nat;
  emitted_stable_len : nat;
  render_mode : HistoryRenderMode;
  stable_prefix_len_cache : option StablePrefixLenCache;
  holdback_scanner : TableHoldbackScanner
}.

Definition StreamCore_new (width : option N) (mode : HistoryRenderMode) : StreamCore :=
  mkCore (StreamState_new width) width StreamingRender_new 0 0 mode None TableHoldbackScanner_new.

Definition with_state (c : StreamCore) (s : StreamState) : StreamCore :=
  mkCore s (width c) (render c) (enqueued_stable_len c) (emitted_stable_len c) (render_mode c)
    (stable_prefix_len_cache c) (holdback_scanner c).

Definition with_enqueued (c : StreamCore) (n : nat) : StreamCore :=
  mkCore (state c) (width c) (render c) n (emitted_stable_len c) (render_mode c)
    (stable_prefix_len_cache c) (holdback_scanner c).

Definition with_emitted (c : StreamCore) (n : nat) : StreamCore :=
  mkCore (state c) (width c) (render c) (enqueued_stable_len c) n (render_mode c)
    (stable_prefix_len_cache c) (holdback_scanner c).

Definition with_cache (c : StreamCore) (cache : StablePrefixLenCache) : StreamCore :=
  mkCore (state c) (width c) (render c) (enqueued_stable_len c) (emitted_stable_len c) (render_mode c)
    (Some cache) (holdback_scanner c).

Definition with_render (c : StreamCore) (r : StreamingRender) : StreamCore :=
  mkCore (state c) (width c) r (enqueued_stable_len c) (emitted_stable_len c) (render_mode c)
    (stable_prefix_len_cache c) (holdback_scanner c).

Definition with_scanner (c : StreamCore) (sc : TableHoldbackScanner) : StreamCore :=
  mkCore (state c) (width c) (render c) (enqueued_stable_len c) (emitted_stable_len c) (render_mode c)
    (stable_prefix_len_cache c) sc.

Definition stable_prefix_len_for_source_start (c : StreamCore) (source_start : nat) : run (StreamCore * nat) :=
  let fresh :=
    source ← committed_source (collector (state c));
    prefix ← str_to source (Nat.min source_start (str_len source));
    let n := length (render_markdown prefix (width c)) in
    mret (with_cache c (mkCache source_start (width c) n), n) in
  match stable_prefix_len_cache c with
  | Some cache =>
      if (cache_source_start cache =? source_start) && bool_decide (cache_width cache = width c)
      then mret (c, stable_prefix_len cache) else fresh
  | None => fresh
  end.

Definition tail_budget_from_source_start (c : StreamCore) (source_start : nat) : run (StreamCore * nat) :=
  if source_start =? 0 then mret (c, length (render_lines (render c)))
  else
    source ← committed_source (collector (state c));
    '(c, n) ← stable_prefix_len_for_source_start c (Nat.min source_start (str_len source));
    mret (c, length (render_lines (render c)) - n).

Definition active_tail_budget_lines (c : StreamCore) : run (StreamCore * nat) :=
  if bool_decide (render_mode c = Raw) then mret (c, 0)
  else
    match holdback_state (holdback_scanner c) with
    | Confirmed start | PendingHeader start => tail_budget_from_source_start c (N.to_nat start)
    | HoldbackNone => mret (c, 0)
    end.

Definition compute_target_stable_len (c : StreamCore) : run (StreamCore * nat) :=
  '(c, tail_budget) ← active_tail_budget_lines c;
  mret (c, Nat.max (length (render_lines (render c)) - tail_budget) (emitted_stable_len c)).

(** [rebuild_stable_queue_from_render] once the target is known; [sync_stable_queue] does
    the same when the boundary moves back. *)
Definition rebuild_to (c : StreamCore) (now : N) (target : nat) : run StreamCore :=
  let c := with_state c (state_clear_queue (state c)) in
  c ← (if emitted_stable_len c <? target then
         ls ← slice (render_lines (render c)) (emitted_stable_len c) target;
         mret (with_state c (enqueue (state c) now ls))
       else mret c);
  mret (with_enqueued c target).

Definition rebuild_stable_queue_from_render (c : StreamCore) (now : N) : run StreamCore :=
  '(c, target) ← compute_target_stable_len c; rebuild_to c now target.

Definition sync_stable_queue (c : StreamCore) (now : N) : run (StreamCore * bool) :=
  '(c, target) ← compute_target_stable_len c;
  if target <? enqueued_stable_len c then
    c ← rebuild_to c now target;
    mret (c, 0 <? queued_len (state c))
  else if target =? enqueued_stable_len c then mret (c, false)
  else
    ls ← slice (render_lines (render c)) (enqueued_stable_len c) target;
    mret (with_enqueued (with_state c (enqueue (state c) now ls)) target, true).

(** [StreamCore::push_delta] *)
Definition core_push_delta (c : StreamCore) (delta : rstr) (revs : Revisions) (now : N) : run (StreamCore * bool) :=
  let s := state c in
  let c := with_state c (mkStreamState (collector_push_delta (collector s) delta) (state_queued_lines s)
                           (has_seen_delta s || negb (is_empty delta))) in
  if contains_char c_lf delta then
    let '(col, range) := commit_complete_source (collector (state c)) in
    let c := with_state c (mkStreamState col (state_queued_lines (state c)) (has_seen_delta (state c))) in
    match range with
    | None => mret (c, false)
    | Some (commit_start, commit_end) =>
        source ← committed_source (collector (state c));
        committed ← str_range source commit_start commit_end;
        let c := with_scanner c (push_source_chunk (holdback_scanner c) committed) in
        r ← render_append (render c) source committed (width c) (render_mode c) revs;
        sync_stable_queue (with_render c r) now
    end
  else mret (c, false).

(** [StreamCore::finalize_remaining] *)
Definition finalize_remaining (c : StreamCore) : StreamCore * list Line * rstr :=
  let '(col, source) := finalize_and_take_source (collector (state c)) in
  let rendered := render_source source (width c) (render_mode c) in
  let remaining := drop (Nat.min (emitted_stable_len c) (length rendered)) rendered in
  (with_state c (mkStreamState col (state_queued_lines (state c)) (has_seen_delta (state c))), remaining, source).

Definition core_tick (c : StreamCore) : StreamCore * list Line :=
  let '(s, step) := state_step (state c) in
  (with_emitted (with_state c s) (emitted_stable_len c + length step), step).

Definition tick_batch (c : StreamCore) (max_lines : nat) : StreamCore * list Line :=
  if max_lines =? 0 then (c, [])
  else
    let '(s, step) := drain_n (state c) max_lines in
    if is_empty step then (with_state c s, step)
    else (with_emitted (with_state c s) (emitted_stable_len c + length step), step).

Definition current_tail_lines (c : StreamCore) : list Line :=
  drop (Nat.min (enqueued_stable_len c) (length (render_lines (render c)))) (render_lines (render c)).

Definition has_tail (c : StreamCore) : bool := enqueued_stable_len c <? length (render_lines (render c)).

(** What [set_width] and [set_render_mode] do with the committed source after the change
    of [width] or [render_mode]. *)
Definition relayout (c : StreamCore) (had_pending_queue had_live_tail : bool) (now : N) : run StreamCore :=
  source ← committed_source (collector (state c));
  if is_empty source then mret c
  else
    let c := with_render c (recompute (render c) source (width c) (render_mode c)) in
    let len := length (render_lines (render c)) in
    let c := with_emitted c (Nat.min (emitted_stable_len c) len) in
    let c := if had_pending_queue && (emitted_stable_len c =? len) && (0 <? emitted_stable_len c)
             then with_emitted c (emitted_stable_len c - 1) else c in
    let c := with_state c (state_clear_queue (state c)) in
    if (0 <? emitted_stable_len c) && negb had_pending_queue && negb had_live_tail
    then mret (with_enqueued c len)
    else rebuild_stable_queue_from_render c now.

Definition set_width (c : StreamCore) (w : option N) (now : N) : run StreamCore :=
  if bool_decide (width c = w) then mret c
  else
    let had_pending_queue := 0 <? queued_len (state c) in
    let had_live_tail := has_tail c in
    let s := state c in
    let c := mkCore (mkStreamState (collector_set_width (collector s) w) (state_queued_lines s) (has_seen_delta s))
               w (render c) (enqueued_stable_len c) (emitted_stable_len c) (render_mode c)
               (stable_prefix_len_cache c) (holdback_scanner c) in
    relayout c had_pending_queue had_live_tail now.

Definition set_render_mode (c : StreamCore) (mode : HistoryRenderMode) (now : N) : run StreamCore :=
  if bool_decide (render_mode c = mode) then mret c
  else
    let had_pending_queue := 0 <? queued_len (state c) in
    let had_live_tail := has_tail c in
    let c := mkCore (state c) (width c) (render c) (enqueued_stable_len c) (emitted_stable_len c) mode
               (stable_prefix_len_cache c) (holdback_scanner c) in
    relayout c had_pending_queue had_live_tail now.

(** [StreamCore::reset] *)
Definition core_reset (c : StreamCore) : StreamCore :=
  mkCore (state_clear (state c)) (width c) (render_clear (render c)) 0 0 (render_mode c) None TableHoldbackScanner_new.

(** [clear_queue] of the controllers *)
Definition core_clear_queue (c : StreamCore) : StreamCore :=
  with_enqueued (with_state c (state_clear_queue (state c))) (emitted_stable_len c).
End controller.
