(* ===== verification/StreamLaws.v ===== *)
(** * StreamLaws: the invariant of a stream

    What holds of the core of a stream (StreamController.v) after every sequence of
    operations and for every renderer: no operation panics, the counters and the queue
    agree, the cached length of the stable prefix is what a fresh rendering would give,
    and exactly the lines before a possible table are queued. *)

From Stdlib Require Import Lia NArith.
From stdpp Require Import base list strings.
From S2P Require Import Prelude TextPos PasteBurst TableDetect TableHoldback StreamRender StreamController.

Open Scope rust_scope.

(** The offsets that the renderer reports index the source it was given. *)
Class RendererLaws {Line} (renderer : Renderer Line) := {
  block_start_boundary s w b :
    last_top_level_block_start (render_streaming_markdown s w) = Some b -> boundary s b
}.

Section laws.
Context {Line : Type} {renderer : Renderer Line} {laws : RendererLaws renderer}.

(** ** The parts of the invariant *)

(** The collector holds the committed lines [src] and an incomplete line. *)
Definition collected (col : MarkdownStreamCollector) (src rest : rstr) : Prop :=
  collector_buffer col = src ++ rest /\ committed_source_len col = str_len src /\ complete src /\ no_lf rest.

Definition fence_ok (src : rstr) (f : OpenCodeFence) : Prop :=
  exists a code t, src = a ++ code ++ t /\ content_start f = str_len a /\ fence_source_len f = str_len a + str_len code.

Definition render_ok (r : StreamingRender) (src : rstr) : Prop :=
  (exists s p, src = s ++ p /\ stable_source_len r = str_len s)
  /\ (forall f, open_code_fence r = Some f -> fence_ok src f).

Definition cache_ok (src : rstr) (cache : StablePrefixLenCache) : Prop :=
  exists p q, src = p ++ q /\ cache_source_start cache = str_len p
    /\ stable_prefix_len cache = length (render_markdown p (cache_width cache)).

Definition scanner_ok (sc : TableHoldbackScanner) (src : rstr) : Prop :=
  exists chunks, Forall complete chunks /\ concat chunks = src
    /\ sc = foldl push_source_chunk TableHoldbackScanner_new chunks.

Record core_ok (c : StreamCore) (src rest : rstr) : Prop := {
  ok_collected : collected (collector (state c)) src rest;
  ok_fits : (len_usize src <= usize_max)%N;
  ok_scanner : scanner_ok (holdback_scanner c) src;
  ok_render : render_ok (render c) src;
  ok_cache cache : stable_prefix_len_cache c = Some cache -> cache_ok src cache;
  ok_raw : render_mode c = Raw \/ src = [] -> render_lines (render c) = raw_lines_from_source raw_line src;
  ok_counts : emitted_stable_len c + length (state_queued_lines (state c)) <= enqueued_stable_len c
}.

Lemma core_new_ok w mode : core_ok (StreamCore_new w mode) [] [].
Proof.
  split; cbn; try done; [|by exists []|split; [by exists [], []|done]].
  split; [done|]. split; [done|]. split; [by left|apply not_elem_of_nil].
Qed.

(** ** Collecting *)

Lemma committed_source_collected col src rest : collected col src rest -> committed_source col = Done src.
Proof. intros (Hb & Hl & _). unfold committed_source. rewrite Hb, Hl. apply str_to_app. Qed.

Lemma elem_of_no_lf b : Forall (fun c => N.eqb c_lf c = false) b -> no_lf b.
Proof. intros Hb Hin. apply (proj1 (Forall_forall _ _) Hb) in Hin. by rewrite N.eqb_refl in Hin. Qed.

(** A piece with a line feed completes the lines up to its last one. *)
Lemma commit_collected col src rest delta :
  collected col src rest -> contains_char c_lf delta = true ->
  exists x y, rest ++ delta = x ++ y /\ last x = Some c_lf /\ no_lf y
    /\ let '(col', range) := commit_complete_source (collector_push_delta col delta) in
       collected col' (src ++ x) y /\ range = Some (str_len src, str_len src + str_len x).
Proof.
  intros (Hb & Hl & Hc & Hr) Hd.
  assert (c_lf ∈ delta) as (d1 & d2 & ->)%list_elem_of_split.
  { destruct (decide (c_lf ∈ delta)) as [|Hn]; [done|]. by apply contains_char_false in Hn; rewrite Hn in Hd. }
  unfold commit_complete_source, collector_push_delta. cbn [collector_buffer committed_source_len collector_width].
  rewrite Hb, Hl. destruct (rfind_char _ _) as [i|] eqn:Hf.
  2:{ apply rfind_char_None in Hf. exfalso. apply (elem_of_no_lf _ Hf). apply elem_of_app. right. apply elem_of_app. right. by left. }
  apply rfind_char_Some in Hf as (a & c & b & He & -> & Hlf & Hnb). apply N.eqb_eq in Hlf as <-. apply elem_of_no_lf in Hnb.
  assert (He' : (src ++ rest ++ d1) ++ c_lf :: d2 = (a ++ [c_lf]) ++ b).
  { rewrite <- !(assoc_L (++)) in *. exact He. }
  apply app_eq_inv in He' as [(k & _ & Hk)|(k & Hk & Hk')].
  { exfalso. apply Hnb. rewrite Hk. apply elem_of_app. right. by left. }
  assert (Hkl : last k = Some c_lf).
  { destruct k as [|z k _] using rev_ind; [exfalso; cbn in Hk'; apply Hnb; rewrite <- Hk'; by left|].
    rewrite !(assoc_L (++)) in Hk. apply app_inj_2 in Hk as [_ [= ->]]; [by rewrite last_snoc|done]. }
  exists (rest ++ d1 ++ k), b.
  assert (Hx : src ++ rest ++ d1 ++ k = a ++ [c_lf]) by by rewrite Hk, <- !(assoc_L (++)).
  assert (Hlen : str_len a + 1 = str_len src + str_len (rest ++ d1 ++ k)).
  { rewrite <- str_len_app, Hx, str_len_app. done. }
  assert (Hlast : last (rest ++ d1 ++ k) = Some c_lf).
  { apply last_Some in Hkl as [k' ->]. by rewrite !(assoc_L (++)), last_snoc. }
  split; [by rewrite Hk', <- !(assoc_L (++))|]. split; [done|]. split; [done|].
  assert (Hpos : 1 <= str_len (rest ++ d1 ++ k)).
  { destruct (rest ++ d1 ++ k) as [|z l]; [done|]. rewrite str_len_cons. pose proof (len_utf8_pos z). lia. }
  rewrite (proj2 (Nat.leb_gt _ _)) by lia. split; [|by rewrite Hlen].
  split; [cbn; rewrite Hx; by rewrite He, <- (assoc_L (++))|]. split; [cbn; by rewrite str_len_app|].
  split; [right; rewrite Hx; by rewrite last_snoc|done].
Qed.

(** ** Rendering *)

Lemma fence_ok_app src x f : fence_ok src f -> fence_ok (src ++ x) f.
Proof. intros (a & code & t & -> & ? & ?). exists a, code, (t ++ x). by rewrite <- !(assoc_L (++)). Qed.

Lemma render_ok_app r src x : render_ok r src -> render_ok r (src ++ x).
Proof.
  intros [(s & p & -> & Hs) Hf]. split; [exists s, (p ++ x); by rewrite <- (assoc_L (++))|].
  intros f Hopen. by apply fence_ok_app, Hf.
Qed.

Lemma recompute_ok r src w mode : render_ok (recompute r src w mode) src.
Proof.
  unfold recompute. destruct (match mode with Rich => _ | Raw => _ end) as [l b]. split; [by exists [], src|done].
Qed.

Lemma detect_ok src a final n r1 r2 f :
  src = a ++ final -> n = str_len src -> detect final n r1 r2 = Some f -> fence_ok src f.
Proof.
  intros Hsrc Hn. unfold detect. destruct final as [|m final]; [done|]. destruct (_ && _); [done|].
  destruct (split_once c_lf (m :: final)) as [[opening code]|] eqn:Hs; [|done]. apply split_once_Some in Hs.
  repeat (match goal with |- (if ?b then _ else _) = _ -> _ => destruct b; [done|] end).
  intros [= <-]. exists (a ++ opening ++ [c_lf]), code, []. cbn [content_start fence_source_len].
  assert (Hl : src = (a ++ opening ++ [c_lf]) ++ code) by (rewrite Hsrc, Hs, <- !(assoc_L (++)); done).
  rewrite app_nil_r. split; [done|]. rewrite Hn, Hl, (str_len_app _ code). lia.
Qed.

Lemma fence_append_ok src x f rev :
  fence_ok src f ->
  returns (fun o => forall f' ls, o = Some (f', ls) -> fence_ok (src ++ x) f') (fence_append f (src ++ x) x rev).
Proof.
  intros Hf. pose proof (fence_ok_app _ x _ Hf) as (a & code & t & He & Ha & Hs). unfold fence_append.
  destruct (_ || _ || _ || _ || _) eqn:Hg; [by apply returns_done|].
  repeat apply orb_false_iff in Hg as [Hg _]. apply negb_false_iff, Nat.eqb_eq in Hg.
  assert (Hh : returns (fun _ => True) (match highlighter f with
     | Some h => mret (Some h)
     | None => code ← str_range (src ++ x) (content_start f) (fence_source_len f); mret (highlighter_new code (language f) (theme_revision f))
     end : run (option Highlighter))).
  { destruct (highlighter f); [done|]. rewrite He, Ha, Hs, str_range_cut. done. }
  step Hh. intros h _. apply returns_done. intros f' ls. destruct h as [h|]; [|done].
  cbn. destruct (highlighter_append h x) as [[h' l]|]; [|done]. intros [= <- <-]. cbn.
  exists a, (code ++ t), []. cbn. rewrite He, app_nil_r, !str_len_app in *. repeat split; try done; lia.
Qed.

Lemma append_pending_ok r src w mode revs :
  render_ok r src -> returns (fun r' => render_ok r' src) (append_pending r src w mode revs).
Proof.
  intros [(s & p & -> & Hs) _]. unfold append_pending. rewrite Hs, str_from_app. cbn.
  destruct (pending_has_reference_link_definition _); [apply returns_done, recompute_ok|].
  set (pending := render_streaming_markdown p w).
  assert (Hb : exists p1 p2, p = p1 ++ p2 /\ default 0 (last_top_level_block_start pending) = str_len p1).
  { destruct (last_top_level_block_start pending) as [b|] eqn:He; [|by exists [], p].
    apply block_start_boundary in He as (p1 & p2 & -> & ->). by exists p1, p2. }
  destruct Hb as (p1 & p2 & -> & Hd). rewrite Hd, str_from_app. cbn.
  set (newly := match last_top_level_block_start pending with Some _ => _ | None => _ end).
  assert (Hn : returns (fun o => match o with Some (len, _) => len = str_len (s ++ p1) | None => True end) newly).
  { unfold newly. destruct (last_top_level_block_start pending) as [b|]; [|done]. cbn in Hd. subst b.
    rewrite str_to_app. cbn. by rewrite str_len_app. }
  step Hn. intros o Ho. apply returns_done. split; cbn.
  - destruct o as [[len n]|]; [exists (s ++ p1), p2; by rewrite <- (assoc_L (++))|by exists s, (p1 ++ p2)].
  - intros f Hf. eapply (detect_ok _ (s ++ p1) p2); [by rewrite <- (assoc_L (++))|done|done].
Qed.

Lemma render_append_ok r src x w mode revs :
  render_ok r src -> returns (fun r' => render_ok r' (src ++ x)) (render_append r (src ++ x) x w mode revs).
Proof.
  intros Hr. pose proof (render_ok_app _ _ x Hr) as [Hst Hfe]. unfold render_append. destruct mode.
  2:{ by apply returns_done. }
  cbv zeta. cbn [has_reference_link_definition open_code_fence render_lines stable_source_len stable_rendered_len].
  destruct (_ || _); [apply returns_done, recompute_ok|].
  destruct (has_reference_link_definition r); [apply returns_done, recompute_ok|].
  assert (Hf : returns (fun o => forall f' ls, o = Some (f', ls) -> fence_ok (src ++ x) f')
     (match open_code_fence r with
      | Some fence => fence_append fence (src ++ x) x (rev_append revs)
      | None => mret None
      end)).
  { destruct (open_code_fence r) as [f|] eqn:Ho; [|done]. by apply fence_append_ok, (proj2 Hr). }
  step Hf. intros [[f ls]|] Hok.
  - apply returns_done. split; [exact Hst|]. cbn. intros f' [= <-]. by eapply Hok.
  - apply append_pending_ok. split; [exact Hst|done].
Qed.

(** ** The stable region *)

(** The first [n] bytes of a source. *)
Definition source_before (src : rstr) (n : nat) : rstr :=
  match split_bytes src n with Some (p, _) => p | None => [] end.

(** How many of the lines of a rendering are stable: those that the source before a
    possible table renders to. *)
Definition stable_lines (mode : HistoryRenderMode) (w : option N) (src : rstr) (lines : nat) : nat :=
  match mode, held_back_from (table_holdback_state src) with
  | Rich, Some start =>
      if (start =? 0)%N then 0
      else Nat.min lines (length (render_markdown (source_before src (N.to_nat start)) w))
  | _, _ => lines
  end.

Definition with_cache_opt (c : StreamCore) (o : option StablePrefixLenCache) : StreamCore :=
  mkCore (state c) (width c) (render c) (enqueued_stable_len c) (emitted_stable_len c) (render_mode c)
    o (holdback_scanner c).

Lemma with_cache_same c : with_cache_opt c (stable_prefix_len_cache c) = c.
Proof. by destruct c. Qed.

Lemma core_ok_cache c src rest o :
  core_ok c src rest -> (forall cache, o = Some cache -> cache_ok src cache) -> core_ok (with_cache_opt c o) src rest.
Proof. intros [] Ho. by split. Qed.

Lemma source_before_app p q : source_before (p ++ q) (str_len p) = p.
Proof. unfold source_before. by rewrite split_bytes_app. Qed.

Lemma cut_unique (p q p' q' : rstr) : p ++ q = p' ++ q' -> str_len p = str_len p' -> p = p'.
Proof.
  intros He Hl. pose proof (split_bytes_app p q) as H1. rewrite He, Hl, split_bytes_app in H1. by injection H1.
Qed.

(** The cached length is that of a fresh rendering. *)
Lemma stable_prefix_len_ok c p q rest :
  core_ok c (p ++ q) rest ->
  returns (fun '(c', n) => n = length (render_markdown p (width c))
             /\ exists o, c' = with_cache_opt c o /\ core_ok c' (p ++ q) rest)
    (stable_prefix_len_for_source_start c (str_len p)).
Proof.
  intros Hc. unfold stable_prefix_len_for_source_start. rewrite (committed_source_collected _ _ _ (ok_collected _ _ _ Hc)).
  assert (Hfresh : returns (fun '(c', n) => n = length (render_markdown p (width c))
             /\ exists o, c' = with_cache_opt c o /\ core_ok c' (p ++ q) rest)
     (source ← Done (p ++ q); prefix ← str_to source (Nat.min (str_len p) (str_len source));
      let n := length (render_markdown prefix (width c)) in mret (with_cache c (mkCache (str_len p) (width c) n), n))).
  { cbn. rewrite str_len_app, Nat.min_l by lia. rewrite str_to_app. cbn. split; [done|].
    exists (Some (mkCache (str_len p) (width c) (length (render_markdown p (width c))))). split; [done|].
    apply core_ok_cache; [done|]. intros cache [= <-]. by exists p, q. }
  destruct (stable_prefix_len_cache c) as [cache|] eqn:Hk; [|exact Hfresh].
  destruct (_ && _) eqn:Hhit; [|exact Hfresh]. apply andb_true_iff in Hhit as [Hp Hw].
  apply Nat.eqb_eq in Hp. apply bool_decide_eq_true in Hw. apply returns_done.
  destruct (ok_cache _ _ _ Hc _ Hk) as (p' & q' & He & Hp' & ->). rewrite Hw. split.
  - by rewrite (cut_unique p q p' q') by congruence.
  - exists (stable_prefix_len_cache c). by rewrite with_cache_same.
Qed.

Lemma compute_target_ok c src rest :
  core_ok c src rest ->
  returns (fun '(c', n) =>
      n = Nat.max (stable_lines (render_mode c) (width c) src (length (render_lines (render c)))) (emitted_stable_len c)
      /\ exists o, c' = with_cache_opt c o /\ core_ok c' src rest)
    (compute_target_stable_len c).
Proof.
  intros Hc. set (len := length (render_lines (render c))).
  assert (Hb : returns (fun '(c', n) => len - n = stable_lines (render_mode c) (width c) src len
                          /\ exists o, c' = with_cache_opt c o /\ core_ok c' src rest)
                 (active_tail_budget_lines c)).
  2:{ unfold compute_target_stable_len. step Hb. intros [c' n] (Hn & o & -> & Ho). apply returns_done.
      cbn. split; [by rewrite <- Hn|]. by exists o. }
  assert (Hsame : exists o, c = with_cache_opt c o /\ core_ok c src rest)
    by (exists (stable_prefix_len_cache c); by rewrite with_cache_same).
  unfold active_tail_budget_lines, stable_lines.
  destruct (ok_scanner _ _ _ Hc) as (chunks & Hch & Hsrc & ->). rewrite scanner_state, Hsrc by done.
  destruct (render_mode c); [rewrite bool_decide_eq_false_2 by done|by apply returns_done; split; [lia|]].
  assert (Hstart : forall start, held_back_from (table_holdback_state src) = Some start ->
     returns (fun '(c', n) => len - n = (if (start =? 0)%N then 0
                                  else Nat.min len (length (render_markdown (source_before src (N.to_nat start)) (width c))))
                          /\ exists o, c' = with_cache_opt c o /\ core_ok c' src rest)
       (tail_budget_from_source_start c (N.to_nat start))).
  { intros start Hs. apply held_back_boundary in Hs as (p & q & -> & Hp); [|by apply (ok_fits _ _ _ Hc)].
    unfold tail_budget_from_source_start. fold len. destruct (N.eqb_spec start 0) as [->|Hz].
    - rewrite (proj2 (Nat.eqb_eq _ _)) by lia. apply returns_done. split; [lia|done].
    - rewrite (proj2 (Nat.eqb_neq _ _)) by lia. rewrite (committed_source_collected _ _ _ (ok_collected _ _ _ Hc)).
      change (Done (p ++ q) ≫= ?f) with (f (p ++ q)). cbv beta. rewrite Hp, str_len_app, (Nat.min_l (str_len p)), source_before_app by lia.
      step (stable_prefix_len_ok c p q rest Hc). intros [c' n] (-> & o & -> & Ho). apply returns_done.
      cbn. fold len. split; [lia|]. by exists o. }
  destruct (table_holdback_state src) as [|start|start]; cbn [held_back_from] in *;
    [by apply returns_done; split; [lia|]|by apply Hstart|by apply Hstart].
Qed.

(** ** The queue *)

(** [log] was emitted; it and the queue are the first lines of the rendering. *)
Definition shown (c : StreamCore) (log : list Line) : Prop :=
  log ++ (line <$> state_queued_lines (state c)) = take (enqueued_stable_len c) (render_lines (render c))
  /\ emitted_stable_len c = length log /\ enqueued_stable_len c <= length (render_lines (render c)).

Lemma shown_emitted c log : shown c log -> log = take (length log) (render_lines (render c)) /\ length log <= length (render_lines (render c)).
Proof.
  intros (He & _ & Hle). pose proof (f_equal length He) as Hl. rewrite length_app, length_take in Hl. split; [|lia].
  apply (f_equal (take (length log))) in He. rewrite take_app_length, take_take in He. rewrite Nat.min_l in He by lia. done.
Qed.

Lemma queue_fmap (ls : list Line) now : line <$> ((fun l => mkQueuedLine l now) <$> ls) = ls.
Proof. induction ls; cbn; by f_equal. Qed.

Lemma slice_done {A} (l : list A) a b : a <= b -> b <= length l -> slice (E := Empty_set) l a b = Done (take (b - a) (drop a l)).
Proof. intros Ha Hb. unfold slice. by rewrite (proj2 (Nat.leb_le _ _) Ha), (proj2 (Nat.leb_le _ _) Hb). Qed.

Lemma take_slice {A} (l : list A) a b : a <= b -> take a l ++ take (b - a) (drop a l) = take b l.
Proof.
  intros Hab. replace b with (a + (b - a)) at 2 by lia. by rewrite take_take_drop.
Qed.

(** What the operations that fill the queue leave alone. *)
Definition same_stream (c c' : StreamCore) : Prop :=
  collector (state c') = collector (state c) /\ width c' = width c /\ render c' = render c
  /\ emitted_stable_len c' = emitted_stable_len c /\ render_mode c' = render_mode c
  /\ stable_prefix_len_cache c' = stable_prefix_len_cache c /\ holdback_scanner c' = holdback_scanner c.

Lemma core_ok_same c c' src rest :
  core_ok c src rest -> same_stream c c' ->
  emitted_stable_len c' + length (state_queued_lines (state c')) <= enqueued_stable_len c' -> core_ok c' src rest.
Proof. intros [] (H1 & H2 & H3 & H4 & H5 & H6 & H7) Hq. split; rewrite ?H1, ?H3, ?H5, ?H6, ?H7; done. Qed.

Lemma rebuild_to_ok c src rest now target :
  core_ok c src rest -> emitted_stable_len c <= target ->
  (target <= length (render_lines (render c)) \/ target = emitted_stable_len c) ->
  returns (fun c' => same_stream c c' /\ core_ok c' src rest /\ enqueued_stable_len c' = target
             /\ forall log, log = take (emitted_stable_len c) (render_lines (render c)) -> emitted_stable_len c = length log -> shown c' log)
    (rebuild_to c now target).
Proof.
  intros Hc Hle Ht. unfold rebuild_to. cbn [with_state emitted_stable_len].
  destruct (Nat.ltb_spec (emitted_stable_len c) target) as [Hlt|Hge].
  - destruct Ht as [Ht|Ht]; [|lia]. cbn [render with_state]. rewrite slice_done by lia.
    apply returns_done. cbn. split; [done|]. split.
    { eapply core_ok_same; [done|done|]. cbn. rewrite length_fmap, length_take, length_drop. lia. }
    split; [done|]. intros log -> Hl. split; [|split; [done|done]].
    cbn. rewrite queue_fmap. apply take_slice. lia.
  - assert (target = emitted_stable_len c) as -> by lia. apply returns_done. cbn. split; [done|]. split.
    { eapply core_ok_same; [done|done|]. cbn. lia. }
    split; [done|]. intros log -> Hl. rewrite length_take in Hl. split; [|split; [by rewrite length_take|cbn; lia]].
    cbn. by rewrite app_nil_r.
Qed.

Lemma stable_lines_le mode w src n : stable_lines mode w src n <= n.
Proof. unfold stable_lines. destruct mode; [|lia]. destruct (held_back_from _); [|lia]. destruct (_ =? _)%N; lia. Qed.

Lemma sync_ok c src rest now :
  core_ok c src rest ->
  returns (fun '(c', _) => (exists o, same_stream (with_cache_opt c o) c') /\ core_ok c' src rest
      /\ enqueued_stable_len c' =
           Nat.max (stable_lines (render_mode c) (width c) src (length (render_lines (render c)))) (emitted_stable_len c)
      /\ forall log, shown c log -> shown c' log)
    (sync_stable_queue c now).
Proof.
  intros Hc. unfold sync_stable_queue. step (compute_target_ok c src rest Hc).
  intros [c1 target] (Ht & o & Hc1 & Hok).
  pose proof (stable_lines_le (render_mode c) (width c) src (length (render_lines (render c)))) as Hle.
  assert (Hsh : forall log, shown c log -> shown c1 log) by by subst c1.
  assert (He : emitted_stable_len c1 = emitted_stable_len c /\ render c1 = render c) by by subst c1.
  destruct He as [He Hr]. rewrite <- Ht. rewrite <- Hr in *. rewrite <- He in *.
  assert (Hq := ok_counts _ _ _ Hok).
  destruct (Nat.ltb_spec target (enqueued_stable_len c1)) as [Hlt|Hge].
  - eapply returns_bind; [apply (rebuild_to_ok c1 src rest now target Hok); lia|].
    intros c2 (Hs & Hok2 & Hn & Hsh2). apply returns_done. split; [exists o; by rewrite <- Hc1|]. split; [done|]. split; [done|].
    intros log Hlog. pose proof (Hsh log Hlog) as (_ & Hl & _). apply Hsh2; [|done].
    rewrite Hl. apply (shown_emitted c1 log), Hsh, Hlog.
  - destruct (Nat.eqb_spec target (enqueued_stable_len c1)) as [Heq|Hne].
    + apply returns_done. split; [exists o; by rewrite <- Hc1|]. done.
    + rewrite slice_done by lia. apply returns_done. split; [exists o; by rewrite <- Hc1|]. split; [|split; [done|]].
      * eapply core_ok_same; [exact Hok|done|]. cbn. rewrite length_app, length_fmap, length_take, length_drop. lia.
      * intros log Hlog. destruct (Hsh log Hlog) as (Hl & Hn & Hb). split; [|split; [done|cbn; lia]].
        cbn. rewrite fmap_app, queue_fmap, (assoc_L (++)), Hl. apply take_slice. lia.
Qed.

(** ** Operations *)

Lemma raw_lines_spec src :
  raw_lines_from_source raw_line src = (fun l => raw_line (default l (strip_suffix [c_lf] l))) <$> split_inclusive c_lf src.
Proof.
  destruct (split_lines src) as (raws & tail & Hs & Ht & Hon & Hin). unfold raw_lines_from_source. rewrite Hon, Hin.
  assert (Hraws : (fun l => raw_line (default l (strip_suffix [c_lf] l))) <$> terminated raws = raw_line <$> raws).
  { unfold terminated. rewrite <- list_fmap_compose. apply list_fmap_ext. intros i l _. cbn. by rewrite strip_suffix_lf. }
  rewrite fmap_app, Hraws. clear Hraws Hon Hin. destruct tail as [|y tail].
  - rewrite app_nil_r in *. destruct raws as [|r raws _] using rev_ind; [by rewrite Hs|].
    unfold terminated in Hs. rewrite fmap_app, concat_app in Hs. cbn in Hs. rewrite app_nil_r, (assoc_L (++)) in Hs.
    rewrite (proj2 (is_empty_false src)) by (rewrite Hs; intros [? ?]%app_nil; done).
    rewrite (proj2 (ends_with_last c_lf src)) by (by rewrite Hs, last_snoc).
    rewrite length_app. cbn. rewrite Nat.add_sub, take_app_length. done.
  - rewrite (proj2 (is_empty_false src)) by (rewrite Hs; intros [? ?]%app_nil; done).
    assert (Hn : strip_suffix [c_lf] (y :: tail) = None).
    { apply strip_suffix_last_ne. intros ?%last_Some_elem_of. done. }
    destruct (ends_with [c_lf] src) eqn:He.
    + exfalso. apply ends_with_last in He. rewrite Hs, last_app_cons in He. by apply last_Some_elem_of in He.
    + rewrite fmap_app. cbn. by rewrite Hn.
Qed.

Lemma raw_lines_app src x : complete src ->
  raw_lines_from_source raw_line (src ++ x) = raw_lines_from_source raw_line src ++ raw_lines_from_source raw_line x.
Proof. intros Hc. rewrite !raw_lines_spec, (split_inclusive_app _ src) by done. apply fmap_app. Qed.

Lemma scanner_ok_push sc src x : scanner_ok sc src -> complete x -> scanner_ok (push_source_chunk sc x) (src ++ x).
Proof.
  intros (chunks & Hc & <- & ->) Hx. exists (chunks ++ [x]). split; [by apply Forall_app; split; [|constructor]|].
  split; [rewrite concat_app; cbn; by rewrite app_nil_r|]. by rewrite foldl_app.
Qed.

Lemma complete_app a b : complete a -> last b = Some c_lf -> complete (a ++ b).
Proof. intros _ [b' ->]%last_Some. right. by rewrite (assoc_L (++)), last_snoc. Qed.

(** Everything that [push_delta] does before it fills the queue. *)
Lemma push_delta_ok c src rest delta revs now :
  core_ok c src rest -> (len_usize (src ++ rest ++ delta) <= usize_max)%N ->
  returns (fun '(c', _) => exists src' rest', src' ++ rest' = src ++ rest ++ delta /\ core_ok c' src' rest'
      /\ width c' = width c /\ render_mode c' = render_mode c /\ emitted_stable_len c' = emitted_stable_len c
      /\ (contains_char c_lf delta = true ->
          enqueued_stable_len c' =
            Nat.max (stable_lines (render_mode c) (width c) src' (length (render_lines (render c')))) (emitted_stable_len c))
      /\ (render_mode c = Raw -> forall log, shown c log -> shown c' log))
    (core_push_delta c delta revs now).
Proof.
  intros Hc Hlen. unfold core_push_delta. destruct (contains_char c_lf delta) eqn:Hlf.
  2:{ apply returns_done. exists src, (rest ++ delta). split; [done|]. split; [|done].
      destruct Hc as [(Hb & Hl & Hcm & Hr)]. split; try done. cbn. split; [cbn; by rewrite Hb, <- (assoc_L (++))|].
      split; [done|]. split; [done|]. intros [H|H]%elem_of_app; [done|]. by apply contains_char_false in Hlf. }
  destruct (commit_collected _ _ _ delta (ok_collected _ _ _ Hc) Hlf) as (x & y & He & Hx & Hy & Hcol).
  cbn [with_state state collector]. destruct (commit_complete_source _) as [col range]. destruct Hcol as [Hcol ->].
  cbn [with_state state collector]. rewrite (committed_source_collected _ _ _ Hcol).
  change (Done (src ++ x) ≫= ?f) with (f (src ++ x)). cbv beta.
  replace (str_range (src ++ x) (str_len src) (str_len src + str_len x)) with (Done (E := Empty_set) x)
    by (rewrite <- (app_nil_r x) at 2; by rewrite str_range_cut).
  change (Done x ≫= ?f) with (f x). cbv beta. cbn [with_scanner with_state render holdback_scanner width render_mode].
  assert (Hrd : returns (fun r' => render_ok r' (src ++ x)
             /\ (render_mode c = Raw -> render_lines r' = render_lines (render c) ++ raw_lines_from_source raw_line x))
           (render_append (render c) (src ++ x) x (width c) (render_mode c) revs)).
  { apply returns_and; [apply render_append_ok, (ok_render _ _ _ Hc)|]. destruct (render_mode c); [|by apply returns_done].
    eapply returns_mono; [apply render_append_ok, (ok_render _ _ _ Hc)|]. done. }
  step Hrd. intros r (Hr & Hraw).
  set (c1 := with_render _ r).
  assert (Hcs : complete (src ++ x)) by (apply complete_app; [apply Hc|done]).
  assert (Hsrc : (src ++ x) ++ y = src ++ rest ++ delta) by by rewrite <- (assoc_L (++)), <- He.
  assert (Hok : core_ok c1 (src ++ x) y).
  { split; cbn; [exact Hcol| | |exact Hr| | |apply (ok_counts _ _ _ Hc)].
    - rewrite <- Hsrc in Hlen. unfold len_usize in *. rewrite str_len_app in Hlen. lia.
    - apply scanner_ok_push; [apply (ok_scanner _ _ _ Hc)|by right].
    - intros cache Hk. destruct (ok_cache _ _ _ Hc _ Hk) as (p & q & -> & Hp & Hn).
      exists p, (q ++ x). by rewrite <- (assoc_L (++)).
    - intros [Hm|Hn]; [|apply app_nil in Hn as [_ ->]; done].
      rewrite Hraw by done. rewrite (ok_raw _ _ _ Hc) by by left. rewrite raw_lines_app; [done|apply Hc]. }
  eapply returns_mono; [apply (sync_ok c1 (src ++ x) y now Hok)|].
  intros [c' b] ((o & Hs) & Hok' & Hn & Hsh). destruct Hs as (_ & Hw & Hr' & Hem & Hm & _).
  exists (src ++ x), y. repeat (split; [done|]). split; [intros _; by rewrite Hn, Hr'|].
  intros Hm' log (Hl & Hll & Hb). apply Hsh. split; [|split; [done|]]; cbn.
  - rewrite Hraw by done. rewrite take_app_le by done. exact Hl.
  - rewrite Hraw, length_app by done. lia.
Qed.
End laws.
