(* ===== verification/StreamRuns.v ===== *)
(** * StreamRuns: what a stream shows

    Sequences of operations on the core of a stream: pieces of the message arrive, ticks
    emit lines, the terminal is resized, the mode is switched.  The theorems say that no
    sequence panics, that lines are emitted once and in order, and which lines may still
    change. *)

From Stdlib Require Import Lia NArith.
From stdpp Require Import base list strings.
From S2P Require Import Prelude TextPos PasteBurst TableDetect TableHoldback StreamRender StreamController StreamLaws.

Open Scope rust_scope.

Section runs.
Context {Line : Type} {renderer : Renderer Line} {laws : RendererLaws renderer}.

(** ** The other operations *)

Lemma tick_batch_ok c src rest n :
  core_ok c src rest ->
  core_ok (tick_batch c n).1 src rest /\ (forall log, shown c log -> shown (tick_batch c n).1 (log ++ (tick_batch c n).2))
  /\ render_mode (tick_batch c n).1 = render_mode c.
Proof.
  intros Hc. unfold tick_batch. destruct (n =? 0); [split; [done|]; split; [intros log; by rewrite app_nil_r|done]|].
  unfold drain_n. set (k := Nat.min n (length (state_queued_lines (state c)))).
  set (s' := mkStreamState _ (drop k _) _). set (out := line <$> take k _).
  assert (Hk : length out = k) by (unfold out; rewrite length_fmap, length_take; lia).
  assert (Hgen : core_ok (with_emitted (with_state c s') (emitted_stable_len c + length out)) src rest
            /\ (forall log, shown c log -> shown (with_emitted (with_state c s') (emitted_stable_len c + length out)) (log ++ out))).
  { split.
    - destruct Hc. split; try done. cbn. rewrite length_drop. lia.
    - intros log (Hl & Hn & Hb). split; [|split; [cbn; by rewrite length_app, Hn|done]].
      cbn. rewrite <- (assoc_L (++)). unfold out. rewrite <- fmap_app, take_drop. exact Hl. }
  destruct out as [|l out]; cbn [is_empty fst snd]; [|split; [|split]; [apply Hgen..|done]].
  replace (with_state c s') with (with_emitted (with_state c s') (emitted_stable_len c + 0)) by (destruct c; cbn; by rewrite Nat.add_0_r).
  split; [|split]; [apply Hgen..|done].
Qed.

Lemma core_tick_batch c : core_tick c = (let '(c', step) := tick_batch c 1 in (c', step)).
Proof.
  unfold core_tick, tick_batch, state_step, drain_n. cbn [Nat.eqb]. destruct c as [[col q seen] w r enq em m k sc]. cbn [state state_queued_lines].
  destruct q as [|x q]; cbn; [by rewrite Nat.add_0_r|done].
Qed.

Lemma clear_queue_ok c src rest :
  core_ok c src rest ->
  core_ok (core_clear_queue c) src rest /\ (forall log, shown c log -> shown (core_clear_queue c) log)
  /\ render_mode (core_clear_queue c) = render_mode c.
Proof.
  intros Hc. split; [|split; [|done]].
  - destruct Hc. split; try done. cbn. lia.
  - intros log Hs. destruct (shown_emitted _ _ Hs) as [Hl Hle]. destruct Hs as (_ & Hn & _).
    split; cbn; rewrite Hn; [|done]. by rewrite app_nil_r.
Qed.

(** A change of the width or of the mode, before the source is rendered again. *)
Definition reconfigured (c c1 : StreamCore) : Prop :=
  collector_buffer (collector (state c1)) = collector_buffer (collector (state c))
  /\ committed_source_len (collector (state c1)) = committed_source_len (collector (state c))
  /\ state_queued_lines (state c1) = state_queued_lines (state c)
  /\ render c1 = render c /\ enqueued_stable_len c1 = enqueued_stable_len c
  /\ emitted_stable_len c1 = emitted_stable_len c
  /\ stable_prefix_len_cache c1 = stable_prefix_len_cache c /\ holdback_scanner c1 = holdback_scanner c.

Lemma recompute_raw r src w : render_lines (recompute r src w Raw) = raw_lines_from_source raw_line src.
Proof. done. Qed.

Lemma rebuild_ok c src rest now :
  core_ok c src rest ->
  returns (fun c' => core_ok c' src rest /\ width c' = width c /\ render_mode c' = render_mode c
      /\ forall log, log = take (emitted_stable_len c) (render_lines (render c)) -> emitted_stable_len c = length log -> shown c' log)
    (rebuild_stable_queue_from_render c now).
Proof.
  intros Hc. unfold rebuild_stable_queue_from_render. step (compute_target_ok c src rest Hc).
  intros [c1 target] (Ht & o & -> & Hok).
  pose proof (stable_lines_le (render_mode c) (width c) src (length (render_lines (render c)))) as Hle.
  eapply returns_mono; [apply (rebuild_to_ok _ src rest now target Hok); cbn; lia|].
  intros c' (Hs & Hok' & _ & Hsh). destruct Hs as (_ & Hw & _ & _ & Hm & _). done.
Qed.

Lemma relayout_ok c0 c src rest now :
  core_ok c0 src rest -> reconfigured c0 c ->
  returns (fun c' => core_ok c' src rest /\ width c' = width c /\ render_mode c' = render_mode c
      /\ (render_mode c0 = Raw -> render_mode c = Raw -> forall log, shown c0 log -> shown c' log))
    (relayout c (0 <? queued_len (state c0)) (has_tail c0) now).
Proof.
  intros Hc (H1 & H2 & H3 & H4 & H5 & H6 & H7 & H8). unfold relayout.
  assert (Hcol : collected (collector (state c)) src rest).
  { destruct (ok_collected _ _ _ Hc) as (Hb & Hl & ?). split; [by rewrite H1|]. split; [by rewrite H2|done]. }
  rewrite (committed_source_collected _ _ _ Hcol). change (Done src ≫= ?f) with (f src). cbv beta.
  destruct (is_empty src) eqn:Hempty.
  { apply is_empty_true in Hempty as ->. apply returns_done. split; [|split; [done|split; [done|]]].
    - split; rewrite ?H3, ?H4, ?H5, ?H6, ?H7, ?H8; try done; try apply Hc. intros _. apply (ok_raw _ _ _ Hc). by right.
    - intros _ _ log. unfold shown. by rewrite H3, H4, H5, H6. }
  cbv zeta. set (r := recompute (render c) src (width c) (render_mode c)).
  set (len := length (render_lines r)). cbn [with_render render with_emitted emitted_stable_len].
  fold len. set (em := Nat.min (emitted_stable_len c) len).
  set (em' := if (0 <? queued_len (state c0)) && (em =? len) && (0 <? em) then em - 1 else em).
  replace (if (0 <? queued_len (state c0)) && (em =? len) && (0 <? em)
           then with_emitted (with_emitted (with_render c r) em) (em - 1) else with_emitted (with_render c r) em)
    with (with_emitted (with_render c r) em') by (unfold em'; by destruct (_ && _ && _)).
  set (c1 := with_state (with_emitted (with_render c r) em') (state_clear_queue (state (with_emitted (with_render c r) em')))).
  assert (Hem : em' <= len) by (unfold em', em; destruct (_ && _ && _); lia).
  assert (Hok : forall n, em' <= n -> core_ok (with_enqueued c1 n) src rest).
  { intros n Hn. split; cbn; [exact Hcol|apply Hc|rewrite H8; apply Hc|apply recompute_ok|rewrite H7; apply Hc| |lia].
    intros [Hm| ->]; [|done]. unfold r. rewrite Hm. apply recompute_raw. }
  assert (Hraw : render_mode c0 = Raw -> render_mode c = Raw -> forall log, shown c0 log ->
     render_lines r = render_lines (render c0) /\ em' = length log).
  { intros Hm0 Hm log Hs. assert (Hr : render_lines r = render_lines (render c0)).
    { unfold r. rewrite Hm, recompute_raw. symmetry. apply Hc. by left. }
    split; [done|]. destruct (shown_emitted _ _ Hs) as [_ Hle]. destruct Hs as (Hl & Hn & Hb).
    pose proof (f_equal length Hl) as Hl'. rewrite length_app, length_fmap, length_take in Hl'.
    unfold em', em, len. rewrite Hr, H6, Hn. rewrite Nat.min_l by done. unfold queued_len.
    destruct (Nat.eqb_spec (length log) (length (render_lines (render c0)))) as [He|]; [|by rewrite andb_false_r].
    assert (length (state_queued_lines (state c0)) = 0) as -> by lia. done. }
  destruct ((0 <? emitted_stable_len c1) && _ && _) eqn:Hskip.
  - apply returns_done. split; [by apply Hok|]. split; [done|]. split; [done|].
    intros Hm0 Hm log Hs. destruct (Hraw Hm0 Hm log Hs) as [Hr He]. apply andb_true_iff in Hskip as [Hskip Ht%negb_true_iff].
    apply andb_true_iff in Hskip as [_ Hp%negb_true_iff]. unfold has_tail, queued_len in Ht, Hp.
    apply Nat.ltb_ge in Ht, Hp. destruct Hs as (Hl & Hn & Hb).
    assert (Hq : state_queued_lines (state c0) = []) by (apply nil_length_inv; lia).
    assert (Hq' : enqueued_stable_len c0 = len) by (unfold len; rewrite Hr; lia).
    rewrite Hq, Hq', <- Hr in Hl. split; [exact Hl|]. split; [done|cbn; lia].
  - assert (Hc1 : core_ok c1 src rest).
    { replace c1 with (with_enqueued c1 (enqueued_stable_len c)) by done. apply Hok. pose proof (ok_counts _ _ _ Hc).
      assert (em' <= emitted_stable_len c) by (unfold em', em; destruct (_ && _ && _); lia). lia. }
    eapply returns_mono; [apply (rebuild_ok c1 src rest now Hc1)|]. intros c' (Hok' & Hw & Hm' & Hsh).
    split; [done|]. split; [done|]. split; [done|]. intros Hm0 Hm log Hs. destruct (Hraw Hm0 Hm log Hs) as [Hr He].
    apply Hsh; cbn; rewrite He; [|done]. rewrite Hr. apply (shown_emitted _ _ Hs).
Qed.

Lemma set_width_ok c src rest w now :
  core_ok c src rest ->
  returns (fun c' => core_ok c' src rest /\ width c' = w /\ render_mode c' = render_mode c
      /\ (render_mode c = Raw -> forall log, shown c log -> shown c' log)) (set_width c w now).
Proof.
  intros Hc. unfold set_width. case_bool_decide as Hw; [by apply returns_done|].
  eapply returns_mono; [by apply (relayout_ok c)|]. cbn. intros c' (Hok & Hw' & Hm & Hsh).
  split; [done|]. split; [done|]. split; [done|]. intros Hr. by apply Hsh.
Qed.

Lemma set_render_mode_ok c src rest mode now :
  core_ok c src rest -> returns (fun c' => core_ok c' src rest /\ render_mode c' = mode) (set_render_mode c mode now).
Proof.
  intros Hc. unfold set_render_mode. case_bool_decide as Hw; [by apply returns_done|].
  eapply returns_mono; [by apply (relayout_ok c)|]. cbn. intros c' (Hok & Hw' & Hm & Hsh). done.
Qed.

(** ** Runs *)

Inductive StreamOp :=
| OpPush (delta : rstr) (revs : Revisions) (now : N)
| OpTick
| OpTickBatch (max_lines : nat)
| OpSetWidth (w : option N) (now : N)
| OpSetRenderMode (mode : HistoryRenderMode) (now : N)
| OpClearQueue.

(** The new state and the lines that are emitted. *)
Definition stream_op (c : StreamCore) (op : StreamOp) : run (StreamCore * list Line) :=
  match op with
  | OpPush delta revs now => '(c, _) ← core_push_delta c delta revs now; mret (c, [])
  | OpTick => mret (core_tick c)
  | OpTickBatch n => mret (tick_batch c n)
  | OpSetWidth w now => c ← set_width c w now; mret (c, [])
  | OpSetRenderMode mode now => c ← set_render_mode c mode now; mret (c, [])
  | OpClearQueue => mret (core_clear_queue c, [])
  end.

Fixpoint stream_run (c : StreamCore) (ops : list StreamOp) : run (StreamCore * list Line) :=
  match ops with
  | [] => mret (c, [])
  | op :: ops =>
      '(c, out) ← stream_op c op;
      '(c, out') ← stream_run c ops;
      mret (c, out ++ out')
  end.

Definition op_delta (op : StreamOp) : rstr := match op with OpPush delta _ _ => delta | _ => [] end.
Definition pushed (ops : list StreamOp) : rstr := concat (op_delta <$> ops).

Definition keeps_mode (op : StreamOp) : bool := match op with OpSetRenderMode _ _ => false | _ => true end.

Lemma stream_op_ok c src rest op :
  core_ok c src rest -> (len_usize (src ++ rest ++ op_delta op) <= usize_max)%N ->
  returns (fun '(c', out) => exists src' rest', src' ++ rest' = src ++ rest ++ op_delta op /\ core_ok c' src' rest'
      /\ (keeps_mode op = true -> render_mode c = Raw ->
          render_mode c' = Raw /\ forall log, shown c log -> shown c' (log ++ out)))
    (stream_op c op).
Proof.
  intros Hc Hlen. destruct op as [delta revs now| |n|w now|mode now|]; cbn [stream_op op_delta keeps_mode] in *.
  - step (push_delta_ok c src rest delta revs now Hc Hlen). intros [c' b] (src' & rest' & He & Hok & Hw & Hm & _ & _ & Hsh).
    apply returns_done. exists src', rest'. split; [done|]. split; [done|]. intros _ Hraw. split; [congruence|].
    intros log Hs. rewrite app_nil_r. by apply Hsh.
  - rewrite core_tick_batch. pose proof (tick_batch_ok c src rest 1 Hc) as (Hok & Hsh & Hm).
    destruct (tick_batch c 1) as [c' out]. apply returns_done. exists src, rest. rewrite app_nil_r. split; [done|]. split; [done|].
    intros _ Hraw. split; [by rewrite <- Hraw|done].
  - pose proof (tick_batch_ok c src rest n Hc) as (Hok & Hsh & Hm). destruct (tick_batch c n) as [c' out].
    apply returns_done. exists src, rest. rewrite app_nil_r. split; [done|]. split; [done|].
    intros _ Hraw. split; [by rewrite <- Hraw|done].
  - step (set_width_ok c src rest w now Hc). intros c' (Hok & Hw & Hm & Hsh). apply returns_done. exists src, rest.
    rewrite app_nil_r. split; [done|]. split; [done|]. intros _ Hraw. split; [congruence|].
    intros log Hs. rewrite app_nil_r. by apply Hsh.
  - step (set_render_mode_ok c src rest mode now Hc). intros c' (Hok & Hm). apply returns_done. exists src, rest.
    rewrite app_nil_r. split; [done|]. split; [done|]. done.
  - apply returns_done. pose proof (clear_queue_ok c src rest Hc) as (Hok & Hsh & Hm). exists src, rest. rewrite app_nil_r.
    split; [done|]. split; [done|]. intros _ Hraw. split; [congruence|]. intros log Hs. rewrite app_nil_r. by apply Hsh.
Qed.

Lemma stream_run_ok c src rest ops :
  core_ok c src rest -> (len_usize (src ++ rest ++ pushed ops) <= usize_max)%N ->
  returns (fun '(c', out) => exists src' rest', src' ++ rest' = src ++ rest ++ pushed ops /\ core_ok c' src' rest'
      /\ (forallb keeps_mode ops = true -> render_mode c = Raw ->
          render_mode c' = Raw /\ forall log, shown c log -> shown c' (log ++ out)))
    (stream_run c ops).
Proof.
  revert c src rest. induction ops as [|op ops IH]; intros c src rest Hc Hlen; cbn [stream_run].
  { apply returns_done. exists src, rest. cbn. rewrite app_nil_r. split; [done|]. split; [done|].
    intros _ Hm. split; [done|]. intros log Hs. by rewrite app_nil_r. }
  unfold pushed in *. cbn [fmap list_fmap concat forallb] in *.
  assert (Hl1 : (len_usize (src ++ rest ++ op_delta op) <= usize_max)%N).
  { unfold len_usize in *. rewrite !str_len_app in *. lia. }
  step (stream_op_ok c src rest op Hc Hl1). intros [c1 out] (src1 & rest1 & He & Hok & Hsh).
  assert (Hl2 : src1 ++ rest1 ++ concat (op_delta <$> ops) = src ++ rest ++ op_delta op ++ concat (op_delta <$> ops)).
  { rewrite (assoc_L (++)), He, <- !(assoc_L (++)). done. }
  eapply returns_bind; [apply (IH c1 src1 rest1 Hok); by rewrite Hl2|].
  intros [c2 out2] (src2 & rest2 & He2 & Hok2 & Hsh2). apply returns_done. exists src2, rest2.
  split; [by rewrite He2|]. split; [done|]. intros [Hk Hks]%andb_true_iff Hm.
  destruct (Hsh Hk Hm) as [Hm1 Hsh1]. destruct (Hsh2 Hks Hm1) as [Hm2 Hsh2']. split; [done|].
  intros log Hs. rewrite (assoc_L (++)). by apply Hsh2', Hsh1.
Qed.

(** ** Theorems *)


Lemma finalize_raw c src rest log :
  core_ok c src rest -> render_mode c = Raw -> shown c log ->
  let '(_, remaining, source) := finalize_remaining c in
  source = src ++ rest ++ (if is_empty rest then [] else [c_lf])
  /\ log ++ remaining = raw_lines_from_source raw_line source.
Proof.
  intros Hc Hm Hs. destruct (ok_collected _ _ _ Hc) as (Hb & Hl & Hcm & Hr).
  unfold finalize_remaining, finalize_and_take_source. rewrite Hb, Hm.
  set (source := if negb (is_empty (src ++ rest)) && _ then _ else _).
  assert (Hsrc : source = src ++ rest ++ (if is_empty rest then [] else [c_lf])).
  { unfold source. destruct rest as [|x rest _] using rev_ind.
    - rewrite !app_nil_r. destruct Hcm as [->|Hcm]; [done|]. rewrite (proj2 (ends_with_last c_lf src) Hcm).
      by rewrite andb_false_r.
    - assert (He : ends_with [c_lf] (src ++ rest ++ [x]) = false).
      { destruct (ends_with [c_lf] (src ++ rest ++ [x])) eqn:He; [|done]. apply ends_with_last in He.
        rewrite (assoc_L (++)), last_snoc in He. injection He as ->. exfalso. apply Hr, elem_of_app. right. by left. }
      rewrite He, (proj2 (is_empty_false (src ++ rest ++ [x]))), (proj2 (is_empty_false (rest ++ [x])))
        by (intros Hn; repeat apply app_nil in Hn as [_ Hn]; done). by rewrite <- !(assoc_L (++)). }
  split; [done|]. destruct (shown_emitted _ _ Hs) as [Hlog Hle]. destruct Hs as (_ & Hn & _).
  rewrite (ok_raw _ _ _ Hc) in Hlog, Hle by by left. cbn [render_source].
  rewrite Hsrc, (raw_lines_app src), Hn by done. rewrite Nat.min_l by (rewrite length_app; lia).
  rewrite Hlog at 1. rewrite drop_app_le, (assoc_L (++)), take_drop by done. done.
Qed.

(** C20: Without formatting every line of the message is shown once and in order, however
    its pieces, the ticks and changes of the width interleave: what was emitted, what is
    queued and the tail are the lines that are complete; and what was emitted with what
    remains at the end is the whole message, a missing line feed at its end supplied. *)
Theorem raw_stream_shown_once w ops :
  (len_usize (pushed ops) <= usize_max)%N -> forallb keeps_mode ops = true ->
  exists c out src rest, stream_run (StreamCore_new w Raw) ops = Done (c, out)
    /\ src ++ rest = pushed ops /\ complete src /\ no_lf rest
    /\ out ++ (line <$> state_queued_lines (state c)) ++ current_tail_lines c = raw_lines_from_source raw_line src
    /\ let '(_, remaining, source) := finalize_remaining c in
       source = pushed ops ++ (if is_empty rest then [] else [c_lf])
       /\ out ++ remaining = raw_lines_from_source raw_line source.
Proof.
  intros Hlen Hk. destruct (returns_inv _ _ (stream_run_ok _ [] [] ops (core_new_ok w Raw) Hlen))
    as ([c out] & Hrun & src & rest & He & Hok & Hsh).
  destruct (Hsh Hk eq_refl) as [Hm Hshown]. specialize (Hshown [] ltac:(done)). cbn in He.
  exists c, out, src, rest. split; [done|]. split; [done|]. destruct (ok_collected _ _ _ Hok) as (Hb & Hl & Hcm & Hr).
  split; [done|]. split; [done|]. split.
  - destruct Hshown as (Hq & _ & Hle). rewrite (assoc_L (++)). unfold current_tail_lines.
    change (out ++ (line <$> state_queued_lines (state c)) = take (enqueued_stable_len c) (render_lines (render c))) in Hq.
    rewrite Hq, Nat.min_l, take_drop by done. apply (ok_raw _ _ _ Hok). by left.
  - pose proof (finalize_raw c src rest out Hok Hm Hshown) as Hf. destruct (finalize_remaining c) as [[c' remaining] source].
    rewrite <- He, <- (assoc_L (++)). exact Hf.
Qed.

(** C21: When a line of the message is complete, exactly the lines are queued or emitted
    that cannot belong to a table: in the rendering at the current width, those that the
    source before the table renders to (the first header that a delimiter row follows, or
    a header in the last line that is not blank); all lines, if there is no table or the
    source is shown as it is.  A line that was already emitted is not taken back.  This
    holds for the incremental scanner and the cached length of the prefix. *)
Theorem tables_stay_mutable w mode ops c out delta revs now :
  stream_run (StreamCore_new w mode) ops = Done (c, out) ->
  (len_usize (pushed ops ++ delta) <= usize_max)%N -> contains_char c_lf delta = true ->
  exists c' b src, core_push_delta c delta revs now = Done (c', b) /\ committed_source (collector (state c')) = Done src
    /\ enqueued_stable_len c' =
         Nat.max (stable_lines (render_mode c') (width c') src (length (render_lines (render c')))) (emitted_stable_len c').
Proof.
  intros Hrun Hlen Hlf.
  assert (Hl0 : (len_usize (pushed ops) <= usize_max)%N) by (unfold len_usize in *; rewrite str_len_app in Hlen; lia).
  destruct (returns_inv _ _ (stream_run_ok _ [] [] ops (core_new_ok w mode) Hl0)) as ([c0 out0] & Hrun' & src & rest & He & Hok & _).
  rewrite Hrun in Hrun'. injection Hrun' as <- <-. cbn in He.
  destruct (returns_inv _ _ (push_delta_ok c src rest delta revs now Hok ltac:(by rewrite (assoc_L (++)), He)))
    as ([c' b] & Hp & src' & rest' & _ & Hok' & Hw & Hm & Hem & Hn & _).
  exists c', b, src'. split; [done|]. split; [eapply committed_source_collected, Hok'|].
  rewrite Hw, Hm, Hem. by apply Hn.
Qed.
End runs.
