(* ===== verification/StreamTicks.v ===== *)
(** * StreamTicks: emitting the lines of streams

    The controllers of [codex-rs/tui/src/streaming/controller.rs] and the ticks of
    [streaming/commit_tick.rs] on them, with the policy of [streaming/chunking.rs]
    (StreamController.v): how long a line waits, and when the policy changes its mode.

    The header and the padding of a plan and the style of its lines are arguments. *)

From Stdlib Require Import Lia NArith Sorting.Sorted.
From stdpp Require Import base list strings.
From S2P Require Import Prelude TextPos PasteBurst TableDetect TableHoldback StreamRender StreamController.

Open Scope rust_scope.

Class PlanStyle (Line : Type) := {
  plan_header : Line;
  space_line : Line;
  (** [prefix_hyperlink_lines] and the style of plans *)
  style_plan_lines : list Line -> list Line
}.

Section ticks.
Context {Line : Type} {renderer : Renderer Line} {style : PlanStyle Line}.

(** ** Controllers *)

Inductive HistoryCell :=
| AgentMessageCell (cell_lines : list Line) (is_first_line : bool)
| ProposedPlanStream (cell_lines : list Line) (is_stream_continuation : bool).

Record StreamController := mkStreamController { core : StreamCore; header_emitted : bool }.

Definition StreamController_new (w : option N) (mode : HistoryRenderMode) : StreamController :=
  mkStreamController (StreamCore_new w mode) false.

(** [StreamController::emit] *)
Definition emit (c : StreamController) (ls : list Line) : StreamController * option HistoryCell :=
  if is_empty ls then (c, None)
  else (mkStreamController (core c) true, Some (AgentMessageCell ls (negb (header_emitted c)))).

Definition controller_push (c : StreamController) (delta : rstr) (revs : Revisions) (now : N) : run (StreamController * bool) :=
  '(k, b) ← core_push_delta (core c) delta revs now; mret (mkStreamController k (header_emitted c), b).

(** [StreamController::finalize] *)
Definition finalize (c : StreamController) : StreamController * option HistoryCell * option rstr :=
  let '(k, remaining, source) := finalize_remaining (core c) in
  let c := mkStreamController k (header_emitted c) in
  if is_empty source then (mkStreamController (core_reset (core c)) (header_emitted c), None, None)
  else
    let '(c, out) := emit c remaining in
    (mkStreamController (core_reset (core c)) (header_emitted c), out, Some source).

Definition on_commit_tick (c : StreamController) : StreamController * option HistoryCell * bool :=
  let '(k, step) := core_tick (core c) in
  let '(c, cell) := emit (mkStreamController k (header_emitted c)) step in
  (c, cell, state_is_idle (state (core c))).

Definition on_commit_tick_batch (c : StreamController) (max_lines : nat) : StreamController * option HistoryCell * bool :=
  let '(k, step) := tick_batch (core c) max_lines in
  let '(c, cell) := emit (mkStreamController k (header_emitted c)) step in
  (c, cell, state_is_idle (state (core c))).

Definition tail_starts_stream (c : StreamController) : bool :=
  negb (header_emitted c) && (enqueued_stable_len (core c) =? 0).

Record PlanStreamController := mkPlanController {
  plan_core : StreamCore;
  plan_header_emitted : bool;
  top_padding_emitted : bool
}.

Definition PlanStreamController_new (w : option N) (mode : HistoryRenderMode) : PlanStreamController :=
  mkPlanController (StreamCore_new w mode) false false.

Definition render_display_lines (c : PlanStreamController) (ls : list Line) (include_bottom_padding : bool) : list Line :=
  (if negb (plan_header_emitted c) then [plan_header; space_line] else [])
  ++ style_plan_lines ((if negb (top_padding_emitted c) then [space_line] else []) ++ ls
                       ++ (if include_bottom_padding then [space_line] else [])).

(** [PlanStreamController::emit] *)
Definition plan_emit (c : PlanStreamController) (ls : list Line) (include_bottom_padding : bool)
    : PlanStreamController * option HistoryCell :=
  if is_empty ls && negb include_bottom_padding then (c, None)
  else
    let out_lines := render_display_lines c ls include_bottom_padding in
    (mkPlanController (plan_core c) true true, Some (ProposedPlanStream out_lines (plan_header_emitted c))).

Definition plan_push (c : PlanStreamController) (delta : rstr) (revs : Revisions) (now : N) : run (PlanStreamController * bool) :=
  '(k, b) ← core_push_delta (plan_core c) delta revs now; mret (mkPlanController k (plan_header_emitted c) (top_padding_emitted c), b).

Definition plan_finalize (c : PlanStreamController) : PlanStreamController * option HistoryCell * option rstr :=
  let '(k, remaining, source) := finalize_remaining (plan_core c) in
  let c := mkPlanController k (plan_header_emitted c) (top_padding_emitted c) in
  if is_empty source then (mkPlanController (core_reset (plan_core c)) (plan_header_emitted c) (top_padding_emitted c), None, None)
  else
    let '(c, out) := plan_emit c remaining true in
    (mkPlanController (core_reset (plan_core c)) (plan_header_emitted c) (top_padding_emitted c), out, Some source).

Definition plan_on_commit_tick (c : PlanStreamController) : PlanStreamController * option HistoryCell * bool :=
  let '(k, step) := core_tick (plan_core c) in
  let '(c, cell) := plan_emit (mkPlanController k (plan_header_emitted c) (top_padding_emitted c)) step false in
  (c, cell, state_is_idle (state (plan_core c))).

Definition plan_on_commit_tick_batch (c : PlanStreamController) (max_lines : nat)
    : PlanStreamController * option HistoryCell * bool :=
  let '(k, step) := tick_batch (plan_core c) max_lines in
  let '(c, cell) := plan_emit (mkPlanController k (plan_header_emitted c) (top_padding_emitted c)) step false in
  (c, cell, state_is_idle (state (plan_core c))).

Definition current_tail_display_lines (c : PlanStreamController) : list Line :=
  let ls := current_tail_lines (plan_core c) in
  if is_empty ls then [] else render_display_lines c ls false.

(** ** Ticks *)

Inductive CommitTickScope := AnyMode | CatchUpOnly.

Record CommitTickOutput := mkTickOutput { cells : list HistoryCell; has_controller : bool; all_idle : bool }.

Definition tick_output_default : CommitTickOutput := mkTickOutput [] false true.

Definition max_duration (lhs rhs : option N) : option N :=
  match lhs, rhs with
  | Some l, Some r => Some (N.max l r)
  | Some l, None => Some l
  | None, Some r => Some r
  | None, None => None
  end.

Definition stream_queue_snapshot (sc : option StreamController) (pc : option PlanStreamController) (now : N) : QueueSnapshot :=
  let queued := 0 in
  let oldest := None in
  let '(queued, oldest) :=
    match sc with
    | Some c => (queued + queued_len (state (core c)), max_duration oldest (oldest_queued_age (state (core c)) now))
    | None => (queued, oldest)
    end in
  let '(queued, oldest) :=
    match pc with
    | Some c => (queued + queued_len (state (plan_core c)), max_duration oldest (oldest_queued_age (state (plan_core c)) now))
    | None => (queued, oldest)
    end in
  mkSnapshot queued oldest.

Definition drain_stream_controller (c : StreamController) (plan : DrainPlan) : StreamController * option HistoryCell * bool :=
  match plan with
  | Single => on_commit_tick c
  | Batch max_lines => on_commit_tick_batch c max_lines
  end.

Definition drain_plan_stream_controller (c : PlanStreamController) (plan : DrainPlan)
    : PlanStreamController * option HistoryCell * bool :=
  match plan with
  | Single => plan_on_commit_tick c
  | Batch max_lines => plan_on_commit_tick_batch c max_lines
  end.

Definition push_cell (cs : list HistoryCell) (cell : option HistoryCell) : list HistoryCell :=
  match cell with Some cell => cs ++ [cell] | None => cs end.

Definition apply_commit_tick_plan (plan : DrainPlan) (sc : option StreamController) (pc : option PlanStreamController)
    : option StreamController * option PlanStreamController * CommitTickOutput :=
  let output := tick_output_default in
  let '(sc, output) :=
    match sc with
    | Some c =>
        let '(c, cell, is_idle) := drain_stream_controller c plan in
        (Some c, mkTickOutput (push_cell (cells output) cell) true (all_idle output && is_idle))
    | None => (None, output)
    end in
  let '(pc, output) :=
    match pc with
    | Some c =>
        let '(c, cell, is_idle) := drain_plan_stream_controller c plan in
        (Some c, mkTickOutput (push_cell (cells output) cell) true (all_idle output && is_idle))
    | None => (None, output)
    end in
  (sc, pc, output).

(** [run_commit_tick]; [resolve_chunking_plan] is [decide] and a trace. *)
Definition run_commit_tick (policy : AdaptiveChunkingPolicy) (sc : option StreamController) (pc : option PlanStreamController)
    (scope : CommitTickScope) (now : N)
    : AdaptiveChunkingPolicy * option StreamController * option PlanStreamController * CommitTickOutput :=
  let snapshot := stream_queue_snapshot sc pc now in
  let '(policy, decision) := decide_chunking policy snapshot now in
  match scope, decision_mode decision with
  | CatchUpOnly, Smooth => (policy, sc, pc, tick_output_default)
  | _, _ =>
      let '(sc, pc, output) := apply_commit_tick_plan (drain_plan decision) sc pc in
      (policy, sc, pc, output)
  end.

(** ** What a tick leaves *)

Definition queue_of (sc : option StreamController) : list QueuedLine :=
  match sc with Some c => state_queued_lines (state (core c)) | None => [] end.
Definition plan_queue_of (pc : option PlanStreamController) : list QueuedLine :=
  match pc with Some c => state_queued_lines (state (plan_core c)) | None => [] end.

(** How many lines of a queue of [n] lines a plan takes. *)
Definition plan_takes (plan : DrainPlan) (n : nat) : nat :=
  match plan with Single => Nat.min 1 n | Batch max_lines => Nat.min max_lines n end.

Lemma tick_queue c : state_queued_lines (state (core_tick c).1) = drop 1 (state_queued_lines (state c))
  /\ (core_tick c).2 = line <$> take 1 (state_queued_lines (state c)).
Proof. unfold core_tick, state_step. by destruct (state_queued_lines (state c)) eqn:Hq; cbn; rewrite ?Hq. Qed.

Lemma tick_batch_queue c n : 0 < n ->
  state_queued_lines (state (tick_batch c n).1) = drop (Nat.min n (length (state_queued_lines (state c)))) (state_queued_lines (state c))
  /\ (tick_batch c n).2 = line <$> take (Nat.min n (length (state_queued_lines (state c)))) (state_queued_lines (state c)).
Proof.
  intros Hn. unfold tick_batch, drain_n. rewrite (proj2 (Nat.eqb_neq _ _)) by lia. by destruct (is_empty _).
Qed.

Lemma drain_controller_queue c plan :
  plan <> Batch 0 ->
  let '(c', cell, idle) := drain_stream_controller c plan in
  let k := plan_takes plan (length (queue_of (Some c))) in
  queue_of (Some c') = drop k (queue_of (Some c))
  /\ cell = (if is_empty (take k (queue_of (Some c))) then None
             else Some (AgentMessageCell (line <$> take k (queue_of (Some c))) (negb (header_emitted c))))
  /\ idle = is_empty (queue_of (Some c')).
Proof.
  intros Hp. destruct plan as [|n]; cbn [drain_stream_controller plan_takes queue_of].
  - unfold on_commit_tick. destruct (tick_queue (core c)) as [Hq Hs]. destruct (core_tick (core c)) as [k step].
    cbn in Hq, Hs. subst step. cbn [queue_of].
    revert Hq. destruct (state_queued_lines (state (core c))) as [|q r]; cbn; unfold state_is_idle; intros Hq; by rewrite Hq.
  - unfold on_commit_tick_batch. destruct (tick_batch_queue (core c) n) as [Hq Hs]; [destruct n; [done|lia]|].
    destruct (tick_batch (core c) n) as [k step]. cbn in Hq, Hs. subst step. unfold emit.
    set (t := take _ _). unfold state_is_idle. destruct t; cbn; by rewrite Hq.
Qed.

Lemma drain_plan_controller_queue c plan :
  plan <> Batch 0 ->
  let '(c', cell, idle) := drain_plan_stream_controller c plan in
  let k := plan_takes plan (length (plan_queue_of (Some c))) in
  plan_queue_of (Some c') = drop k (plan_queue_of (Some c))
  /\ cell = (if is_empty (take k (plan_queue_of (Some c))) then None
             else Some (ProposedPlanStream (render_display_lines c (line <$> take k (plan_queue_of (Some c))) false) (plan_header_emitted c)))
  /\ idle = is_empty (plan_queue_of (Some c')).
Proof.
  intros Hp. destruct plan as [|n]; cbn [drain_plan_stream_controller plan_takes plan_queue_of].
  - unfold plan_on_commit_tick. destruct (tick_queue (plan_core c)) as [Hq Hs]. destruct (core_tick (plan_core c)) as [k step].
    cbn in Hq, Hs. subst step.
    revert Hq. destruct (state_queued_lines (state (plan_core c))) as [|q r]; cbn; unfold state_is_idle; intros Hq; by rewrite Hq.
  - unfold plan_on_commit_tick_batch. destruct (tick_batch_queue (plan_core c) n) as [Hq Hs]; [destruct n; [done|lia]|].
    destruct (tick_batch (plan_core c) n) as [k step]. cbn in Hq, Hs. subst step. unfold plan_emit.
    set (t := take _ _). unfold state_is_idle. destruct t; cbn; by rewrite Hq.
Qed.

(** Lines are queued in the order of the clock. *)
Definition in_order (q : list (QueuedLine (Line := Line))) : Prop := StronglySorted (fun a b => (enqueued_at a <= enqueued_at b)%N) q.

Definition waits_less_than (d now : N) (q : QueuedLine (Line := Line)) : Prop := (duration_since now (enqueued_at q) < d)%N.

Lemma oldest_is_head q now d :
  in_order q -> (forall age, (fun x => duration_since now (enqueued_at x)) <$> head q = Some age -> (age < d)%N) ->
  Forall (waits_less_than d now) q.
Proof.
  intros Hs Hh. destruct q as [|x q]; [done|]. inversion_clear Hs as [|? ? _ Hx]. specialize (Hh _ eq_refl).
  constructor; [done|]. eapply Forall_impl; [exact Hx|]. intros y Hy. unfold waits_less_than, duration_since in *. lia.
Qed.

(** The policy drains everything unless the backlog is small and young. *)
Lemma decide_cases p s now :
  queued_lines s <> 0 ->
  let '(_, d) := decide_chunking p s now in
  drain_plan d = Batch (queued_lines s)
  \/ drain_plan d = Single /\ queued_lines s < SEVERE_QUEUE_DEPTH_LINES
     /\ (forall age, oldest_age s = Some age -> (age < SEVERE_OLDEST_AGE)%N).
Proof.
  intros Hq. unfold decide_chunking. rewrite (proj2 (Nat.eqb_neq _ _) Hq).
  assert (Hcalm : is_severe_backlog s = false ->
     queued_lines s < SEVERE_QUEUE_DEPTH_LINES /\ (forall age, oldest_age s = Some age -> (age < SEVERE_OLDEST_AGE)%N)).
  { intros [H1%Nat.leb_gt H2]%orb_false_iff. split; [done|]. intros age Ha. rewrite Ha in H2. by apply N.leb_gt in H2. }
  assert (Hsmall : forall a b, queued_lines s < a -> (forall age, oldest_age s = Some age -> (age < b)%N) ->
     a <= SEVERE_QUEUE_DEPTH_LINES -> (b <= SEVERE_OLDEST_AGE)%N -> is_severe_backlog s = false).
  { intros a b Ha Hb Hla Hlb. apply orb_false_iff. split; [apply Nat.leb_gt; lia|].
    destruct (oldest_age s) as [age|]; [|done]. cbn. apply N.leb_gt. specialize (Hb age eq_refl). lia. }
  destruct (policy_mode p) eqn:Hm.
  - unfold maybe_enter_catch_up. destruct (should_enter_catch_up s) eqn:He; cbn [negb].
    + destruct (reentry_hold_active p now && negb (is_severe_backlog s)) eqn:Hh; cbn; rewrite ?Hm.
      * right. split; [done|]. apply andb_true_iff in Hh as [_ Hh%negb_true_iff]. by apply Hcalm.
      * left. f_equal. lia.
    + cbn. rewrite Hm. right. split; [done|]. apply orb_false_iff in He as [H1%Nat.leb_gt H2]. apply Hcalm.
      apply (Hsmall ENTER_QUEUE_DEPTH_LINES ENTER_OLDEST_AGE); [done| |by vm_compute; lia|by vm_compute].
      intros age Ha. rewrite Ha in H2. by apply N.leb_gt in H2.
  - unfold maybe_exit_catch_up. destruct (should_exit_catch_up s) eqn:He; cbn [negb].
    2:{ cbn. rewrite Hm. left. f_equal. lia. }
    destruct (below_exit_threshold_since p) as [since|] eqn:Hb; [|cbn; rewrite Hm; left; f_equal; lia].
    destruct (EXIT_HOLD <=? duration_since now since)%N; cbn; rewrite ?Hm; [|left; f_equal; lia].
    right. split; [done|]. apply andb_true_iff in He as [H1%Nat.leb_le H2]. apply Hcalm.
    apply (Hsmall (S EXIT_QUEUE_DEPTH_LINES) (N.succ EXIT_OLDEST_AGE)); [lia| |vm_compute; lia|by vm_compute].
    intros age Ha. rewrite Ha in H2. apply N.leb_le in H2. lia.
Qed.

Lemma snapshot_counts sc pc now :
  queued_lines (stream_queue_snapshot sc pc now) = length (queue_of sc) + length (plan_queue_of pc).
Proof. unfold stream_queue_snapshot. by destruct sc, pc; cbn; rewrite ?Nat.add_0_r. Qed.

Lemma snapshot_age sc pc now d :
  (forall age, oldest_age (stream_queue_snapshot sc pc now) = Some age -> (age < d)%N) ->
  forall q, q = queue_of sc \/ q = plan_queue_of pc ->
  forall age, (fun x => duration_since now (enqueued_at x)) <$> head q = Some age -> (age < d)%N.
Proof.
  intros Hd. unfold stream_queue_snapshot in Hd.
  assert (Hmax : forall a b, (forall age, max_duration (max_duration None a) b = Some age -> (age < d)%N) ->
     (forall x, a = Some x -> (x < d)%N) /\ (forall x, b = Some x -> (x < d)%N)).
  { intros [a|] [b|] H; cbn in H; (split; [intros x [= ->]|intros x [= ->]]); specialize (H _ eq_refl); lia. }
  intros q [-> | ->] age Ha; destruct sc as [c|], pc as [c'|]; try done; cbn in Hd; cbn [queue_of plan_queue_of] in Ha.
  - exact (proj1 (Hmax _ _ Hd) _ Ha).
  - apply Hd. unfold oldest_queued_age. by rewrite Ha.
  - exact (proj2 (Hmax _ _ Hd) _ Ha).
  - apply Hd. unfold oldest_queued_age. by rewrite Ha.
Qed.

Lemma apply_plan_queues plan sc pc :
  plan <> Batch 0 ->
  let '(sc', pc', output) := apply_commit_tick_plan plan sc pc in
  queue_of sc' = drop (plan_takes plan (length (queue_of sc))) (queue_of sc)
  /\ plan_queue_of pc' = drop (plan_takes plan (length (plan_queue_of pc))) (plan_queue_of pc)
  /\ all_idle output = is_empty (queue_of sc') && is_empty (plan_queue_of pc').
Proof.
  intros Hp. unfold apply_commit_tick_plan. destruct sc as [c|].
  - pose proof (drain_controller_queue c plan Hp) as Hd. destruct (drain_stream_controller c plan) as [[c1 cell] idle].
    destruct Hd as (Hq & _ & Hi). destruct pc as [c'|].
    + pose proof (drain_plan_controller_queue c' plan Hp) as Hd'. destruct (drain_plan_stream_controller c' plan) as [[c2 cell'] idle'].
      destruct Hd' as (Hq' & _ & Hi'). split; [exact Hq|]. split; [exact Hq'|]. cbn [all_idle]. by rewrite Hi, Hi'.
    + split; [exact Hq|]. split; [cbn; by rewrite drop_nil|]. cbn [all_idle]. by rewrite Hi, andb_true_r.
  - destruct pc as [c'|].
    + pose proof (drain_plan_controller_queue c' plan Hp) as Hd'. destruct (drain_plan_stream_controller c' plan) as [[c2 cell'] idle'].
      destruct Hd' as (Hq' & _ & Hi'). split; [cbn; by rewrite drop_nil|]. split; [exact Hq'|]. cbn [all_idle]. by rewrite Hi'.
    + split; [cbn; by rewrite drop_nil|]. split; [cbn; by rewrite drop_nil|done].
Qed.

(** C35: A tick takes lines from the front of the queues only, at least one if there is one,
    and leaves fewer than 64 lines behind, none of which has waited for 300 ms; it reports
    that all streams are idle exactly if nothing is queued. *)
Theorem backlog_is_bounded policy sc pc now :
  in_order (queue_of sc) -> in_order (plan_queue_of pc) ->
  let '(_, sc', pc', output) := run_commit_tick policy sc pc AnyMode now in
  (exists k k', queue_of sc' = drop k (queue_of sc) /\ plan_queue_of pc' = drop k' (plan_queue_of pc)
     /\ (queue_of sc <> [] -> 0 < k) /\ (plan_queue_of pc <> [] -> 0 < k'))
  /\ length (queue_of sc') + length (plan_queue_of pc') < SEVERE_QUEUE_DEPTH_LINES
  /\ Forall (waits_less_than SEVERE_OLDEST_AGE now) (queue_of sc' ++ plan_queue_of pc')
  /\ (all_idle output = true <-> queue_of sc' = [] /\ plan_queue_of pc' = []).
Proof.
  intros Hs Hp. unfold run_commit_tick. set (snap := stream_queue_snapshot sc pc now).
  pose proof (decide_cases policy snap now) as Hd. pose proof (snapshot_counts sc pc now) as Hn. fold snap in Hn.
  destruct (decide_chunking policy snap now) as [p' d] eqn:Hdec.
  replace (match decision_mode d with Smooth => _ | CatchUp => _ end)
    with (let '(sc1, pc1, output) := apply_commit_tick_plan (drain_plan d) sc pc in (p', sc1, pc1, output))
    by by destruct (decision_mode d).
  assert (Hplan : drain_plan d <> Batch 0).
  { destruct (Nat.eq_dec (queued_lines snap) 0) as [Hz|Hz].
    - unfold decide_chunking in Hdec. rewrite Hz in Hdec. cbn in Hdec. injection Hdec as _ <-. done.
    - destruct (Hd Hz) as [->|[-> _]]; [congruence|done]. }
  pose proof (apply_plan_queues (drain_plan d) sc pc Hplan) as Ha.
  destruct (apply_commit_tick_plan (drain_plan d) sc pc) as [[sc1 pc1] output]. destruct Ha as (Hq & Hq' & Hi).
  assert (Hpos : forall n, n <> 0 -> 0 < plan_takes (drain_plan d) n).
  { intros n Hz. destruct (drain_plan d) as [|[|m]]; unfold plan_takes; [lia|done|lia]. }
  split; [|split; [|split]].
  - eexists _, _. split; [exact Hq|]. split; [exact Hq'|].
    split; intros Hne; apply Hpos; by intros ?%nil_length_inv.
  - rewrite Hq, Hq', !length_drop. destruct (Nat.eq_dec (queued_lines snap) 0) as [Hz|Hz]; [unfold SEVERE_QUEUE_DEPTH_LINES; lia|].
    destruct (Hd Hz) as [->|(_ & Hlt & _)]; [unfold plan_takes, SEVERE_QUEUE_DEPTH_LINES; lia|lia].
  - rewrite Hq, Hq'. destruct (Nat.eq_dec (queued_lines snap) 0) as [Hz|Hz].
    { assert (queue_of sc = [] /\ plan_queue_of pc = []) as [-> ->] by (split; apply nil_length_inv; lia). by rewrite !drop_nil. }
    destruct (Hd Hz) as [->|(_ & _ & Hage)].
    { unfold plan_takes. rewrite !drop_ge by lia. done. }
    apply Forall_app. split; apply Forall_drop, oldest_is_head; try done; apply (snapshot_age sc pc now _ Hage); auto.
  - rewrite Hi, andb_true_iff, !is_empty_true. done.
Qed.
End ticks.

(** ** When the mode changes *)

(** The policy after a history of snapshots, and the policies on the way. *)
Definition decisions (p : AdaptiveChunkingPolicy) (h : list (QueueSnapshot * N)) : AdaptiveChunkingPolicy :=
  foldl (fun p '(s, now) => (decide_chunking p s now).1) p h.

Fixpoint policies (p : AdaptiveChunkingPolicy) (h : list (QueueSnapshot * N)) : list AdaptiveChunkingPolicy :=
  match h with
  | [] => []
  | (s, now) :: h => let p' := (decide_chunking p s now).1 in p' :: policies p' h
  end.

Definition calm (x : QueueSnapshot * N) : Prop := queued_lines x.1 <> 0 /\ should_exit_catch_up x.1 = true.

(** The pressure was low at every decision since the one at [t]. *)
Definition calm_since (t : N) (h : list (QueueSnapshot * N)) : Prop :=
  exists pre s0 rest, h = pre ++ (s0, t) :: rest /\ Forall calm ((s0, t) :: rest).

Lemma calm_since_snoc t h x : calm_since t h -> calm x -> calm_since t (h ++ [x]).
Proof.
  intros (pre & s0 & rest & -> & Hc) Hx. exists pre, s0, (rest ++ [x]). rewrite <- (assoc_L (++)). split; [done|].
  change ((s0, t) :: rest ++ [x]) with (((s0, t) :: rest) ++ [x]). apply Forall_app. split; [done|by constructor].
Qed.

Lemma below_threshold_calm h :
  (policy_mode (decisions policy_default h) = Smooth -> below_exit_threshold_since (decisions policy_default h) = None)
  /\ (forall t, below_exit_threshold_since (decisions policy_default h) = Some t -> calm_since t h).
Proof.
  induction h as [|[s now] h [IHs IHc]] using rev_ind; [done|].
  unfold decisions in *. rewrite foldl_app. cbn [foldl]. set (p := foldl _ _ h) in *.
  unfold decide_chunking. destruct (Nat.eqb_spec (queued_lines s) 0) as [Hz|Hz]; [done|].
  destruct (policy_mode p) eqn:Hm.
  - unfold maybe_enter_catch_up. destruct (negb (should_enter_catch_up s)); cbn [fst];
      [|destruct (_ && _); cbn [fst]]; rewrite ?(IHs eq_refl); done.
  - cbn [fst]. unfold maybe_exit_catch_up. destruct (should_exit_catch_up s) eqn:He; cbn [negb]; [|done].
    destruct (below_exit_threshold_since p) as [since|] eqn:Hb.
    + destruct (_ <=? _)%N; [done|]. rewrite Hm, Hb. split; [done|]. intros t [= <-].
      apply calm_since_snoc; [by apply IHc|done].
    + cbn. rewrite Hm. split; [done|]. intros t [= <-]. exists h, s, []. split; [done|]. by repeat constructor.
Qed.

(** Once catch-up was left, the time is kept until it is entered again. *)
Lemma exit_time_kept p h t :
  last_catch_up_exit_at p = Some t -> policy_mode p = Smooth ->
  Forall (fun p => policy_mode p = Smooth) (policies p h) ->
  last_catch_up_exit_at (decisions p h) = Some t /\ policy_mode (decisions p h) = Smooth.
Proof.
  revert p. induction h as [|[s now] h IH]; intros p Ht Hm; cbn [policies]; [done|]. intros Hall.
  inversion_clear Hall as [|? ? Hp Hps]. unfold decisions in *. cbn [foldl]. apply IH; [|done|done].
  revert Hp. unfold decide_chunking, note_catch_up_exit. destruct (queued_lines s =? 0); cbn [fst].
  - rewrite bool_decide_eq_false_2 by (rewrite Hm; done). done.
  - rewrite Hm. unfold maybe_enter_catch_up. destruct (negb _); [done|]. by destruct (_ && _).
Qed.

Lemma exit_time_set p s t :
  policy_mode p = CatchUp -> policy_mode (decide_chunking p s t).1 = Smooth ->
  last_catch_up_exit_at (decide_chunking p s t).1 = Some t.
Proof.
  intros Hm. unfold decide_chunking, note_catch_up_exit. destruct (queued_lines s =? 0); cbn [fst].
  { by rewrite bool_decide_eq_true_2. }
  rewrite Hm. cbn. unfold maybe_exit_catch_up. destruct (negb _); [by rewrite Hm|].
  destruct (below_exit_threshold_since p); [|by rewrite Hm]. destruct (_ <=? _)%N; [done|by rewrite Hm].
Qed.

(** The mode of the policy does not oscillate.  Whatever was seen before, catch-up is
    left only when nothing is queued, or when at every decision since one at least 250 ms
    ago at most two lines were queued and none had waited for more than 40 ms; and the next
    time it is entered is at least 250 ms after it was left, or 64 lines are queued or one
    has waited for 300 ms. *)
Theorem mode_changes_are_damped h s t h' s' t' :
  let p := decisions policy_default h in
  let p' := (decide_chunking p s t).1 in
  policy_mode p = CatchUp -> policy_mode p' = Smooth ->
  (queued_lines s <> 0 ->
   calm (s, t) /\ exists t0, calm_since t0 h /\ (EXIT_HOLD <= duration_since t t0)%N)
  /\ (Forall (fun p => policy_mode p = Smooth) (policies p' h') ->
      entered_catch_up (decide_chunking (decisions p' h') s' t').2 = true ->
      is_severe_backlog s' = true \/ (REENTER_CATCH_UP_HOLD <= duration_since t' t)%N).
Proof.
  intros p p' Hm Hm'. split.
  - intros Hz. pose proof (below_threshold_calm h) as [_ Hcalm]. fold p in Hcalm. unfold p', decide_chunking in Hm'.
    rewrite (proj2 (Nat.eqb_neq _ _) Hz), Hm in Hm'. cbn in Hm'. unfold maybe_exit_catch_up in Hm'.
    destruct (should_exit_catch_up s) eqn:He; cbn in Hm'; [|by rewrite Hm in Hm'].
    split; [done|]. destruct (below_exit_threshold_since p) as [since|]; [|cbn in Hm'; by rewrite Hm in Hm'].
    exists since. split; [by apply Hcalm|]. destruct (N.leb_spec EXIT_HOLD (duration_since t since)); [done|].
    by rewrite Hm in Hm'.
  - intros Hall He. destruct (exit_time_kept p' h' t) as [Hk Hs]; [by apply exit_time_set|done|done|].
    unfold decide_chunking in He. destruct (queued_lines s' =? 0); [done|]. rewrite Hs in He.
    unfold maybe_enter_catch_up in He. destruct (negb (should_enter_catch_up s')); [done|].
    destruct (reentry_hold_active (decisions p' h') t' && negb (is_severe_backlog s')) eqn:Hh; [done|].
    apply andb_false_iff in Hh as [Hh|Hh%negb_false_iff]; [right|by left].
    unfold reentry_hold_active in Hh. rewrite Hk in Hh. by apply N.ltb_ge in Hh.
Qed.
