(* ===== verification/StreamExamples.v ===== *)
(** * StreamExamples: a renderer, and the theorems on streams at concrete inputs

    A renderer that cuts every line of the source at the width and takes every line for a
    block satisfies the law of StreamLaws.v. *)

From Stdlib Require Import Lia NArith Sorting.Sorted.
From stdpp Require Import base list strings.
From S2P Require Import Prelude TextPos PasteBurst TableDetect TableHoldback StreamRender StreamController StreamLaws StreamRuns StreamTicks.

Open Scope rust_scope.

(** ** A renderer *)

Fixpoint cut_columns (n free : nat) (row s : rstr) : list rstr :=
  match s with
  | [] => [row]
  | c :: s =>
      match free with
      | 0 => row :: cut_columns n (n - 1) [c] s
      | S free => cut_columns n free (row ++ [c]) s
      end
  end.

Definition cut_line (w : option N) (l : rstr) : list rstr :=
  match w with None => [l] | Some w => cut_columns (N.to_nat w) (N.to_nat w) [] l end.

Definition cut_source (s : rstr) (w : option N) : list rstr :=
  concat (cut_line w <$> raw_lines_from_source id s).

Definition line_blocks (s : rstr) (w : option N) : StreamingMarkdownRender rstr :=
  let ls := split_inclusive c_lf s in
  mkStreamingMarkdownRender rstr (cut_source s w)
    (if 1 <? length ls then Some (str_len (concat (take (length ls - 1) ls))) else None) false true.

#[export] Instance line_renderer : Renderer rstr := {|
  blank_line := [];
  raw_line := id;
  render_markdown := cut_source;
  render_streaming_markdown := line_blocks;
  has_visualization_context := false;
  Highlighter := unit;
  highlighter_new := fun _ _ _ => None;
  highlighter_append := fun _ _ => None
|}.

#[export] Instance line_renderer_laws : RendererLaws line_renderer.
Proof.
  split. intros s w b. unfold render_streaming_markdown, line_renderer, line_blocks. cbn [last_top_level_block_start].
  destruct (1 <? length (split_inclusive c_lf s)); [|done]. intros [= <-].
  exists (concat (take (length (split_inclusive c_lf s) - 1) (split_inclusive c_lf s))),
    (concat (drop (length (split_inclusive c_lf s) - 1) (split_inclusive c_lf s))).
  split; [|done]. by rewrite <- concat_app, take_drop, concat_split_inclusive.
Qed.

#[export] Instance plain_plan : PlanStyle rstr := {|
  plan_header := lit "Proposed Plan";
  space_line := lit " ";
  style_plan_lines := fun ls => ls
|}.

Module Examples.
Definition revs : Revisions := mkRevisions 0 0 0.
Definition nl (s : rstr) : rstr := s ++ [c_lf].

(** Two lines in pieces, with ticks and a resize in between. *)
Definition two_lines : list StreamOp :=
  [OpPush (lit "first") revs 1; OpPush (nl (lit " line") ++ lit "sec") revs 2; OpTick; OpSetWidth (Some 4%N) 3;
   OpPush (nl (lit "ond")) revs 4; OpTickBatch 9; OpPush (lit "rest") revs 5].


Lemma raw_stream_shown_once_witness :
  exists c out src rest, stream_run (StreamCore_new (Some 5%N) Raw) two_lines = Done (c, out)
    /\ src ++ rest = pushed two_lines /\ complete src /\ no_lf rest
    /\ out ++ (line <$> state_queued_lines (state c)) ++ current_tail_lines c = raw_lines_from_source raw_line src
    /\ let '(_, remaining, source) := finalize_remaining c in
       source = pushed two_lines ++ (if is_empty rest then [] else [c_lf])
       /\ out ++ remaining = raw_lines_from_source raw_line source.
Proof. apply (raw_stream_shown_once (Some 5%N) two_lines); [by vm_compute|reflexivity]. Defined.

(** The lines of the example, in the mode without formatting. *)
Example two_lines_emitted :
  match stream_run (StreamCore_new (Some 5%N) Raw) two_lines with
  | Done (c, out) =>
      let '(_, remaining, source) := finalize_remaining c in
      out = [lit "first line"; lit "second"] /\ remaining = [lit "rest"]
  | _ => False
  end.
Proof. vm_compute. split; reflexivity. Qed.

(** A table after a line of prose. *)
Definition prose_and_header : list StreamOp := [OpPush (nl (lit "Sizes:") ++ nl (lit "| a | b |")) revs 1; OpTickBatch 9].

Definition table_run : run (StreamCore * list rstr) := stream_run (StreamCore_new (Some 20%N) Rich) prose_and_header.

Definition table_core : StreamCore :=
  match table_run with Done (c, _) => c | _ => StreamCore_new None Rich end.

Lemma tables_stay_mutable_witness :
  exists c' b src, core_push_delta table_core (nl (lit "|---|---|")) revs 2 = Done (c', b)
    /\ committed_source (collector (state c')) = Done src
    /\ enqueued_stable_len c' =
         Nat.max (stable_lines (render_mode c') (width c') src (length (render_lines (render c')))) (emitted_stable_len c').
Proof.
  apply (tables_stay_mutable (Some 20%N) Rich prose_and_header table_core [lit "Sizes:"]); [|by vm_compute|reflexivity].
  vm_compute. reflexivity.
Defined.

(** Only the prose is emitted, header and delimiter stay in the tail. *)
Example table_in_tail :
  match core_push_delta table_core (nl (lit "|---|---|")) revs 2 with
  | Done (c, _) => current_tail_lines c = [lit "| a | b |"; lit "|---|---|"] /\ emitted_stable_len c = 1
  | _ => False
  end.
Proof. vm_compute. split; reflexivity. Qed.

(** Twelve lines have waited for less than the time that starts catching up. *)
Definition waiting (n : nat) : StreamController :=
  mkStreamController
    (with_state (StreamCore_new None Raw)
       (enqueue (StreamState_new None) (from_millis 1000) (replicate n (lit "line")))) false.

Lemma waiting_in_order n : in_order (queue_of (Some (waiting n))).
Proof.
  cbn. induction n as [|n IH]; cbn; [constructor|]. constructor; [exact IH|].
  apply Forall_fmap, (proj2 (Forall_forall _ _)). intros x _. cbn. lia.
Qed.

Lemma backlog_is_bounded_witness :
  let '(_, sc', pc', output) := run_commit_tick policy_default (Some (waiting 12)) None AnyMode (from_millis 1010) in
  (exists k k', queue_of sc' = drop k (queue_of (Some (waiting 12))) /\ plan_queue_of pc' = drop k' (plan_queue_of None)
     /\ (queue_of (Some (waiting 12)) <> [] -> 0 < k) /\ (plan_queue_of (Line := rstr) None <> [] -> 0 < k'))
  /\ length (queue_of sc') + length (plan_queue_of pc') < SEVERE_QUEUE_DEPTH_LINES
  /\ Forall (waits_less_than SEVERE_OLDEST_AGE (from_millis 1010)) (queue_of sc' ++ plan_queue_of pc')
  /\ (all_idle output = true <-> queue_of sc' = [] /\ plan_queue_of pc' = []).
Proof.
  exact (backlog_is_bounded policy_default (Some (waiting 12)) None (from_millis 1010) (waiting_in_order 12) (SSorted_nil _)).
Defined.

(** Catch-up is entered with nine lines, left when the queue was short for 260 ms. *)
Definition busy_then_calm : list (QueueSnapshot * N) :=
  [(mkSnapshot 9 (Some (from_millis 10)), from_millis 1000); (mkSnapshot 2 (Some (from_millis 40)), from_millis 1200)].

Lemma mode_changes_are_damped_witness :
  let s := mkSnapshot 2 (Some (from_millis 40)) in
  let s' := mkSnapshot 9 (Some (from_millis 10)) in
  let p' := (decide_chunking (decisions policy_default busy_then_calm) s (from_millis 1460)).1 in
  (queued_lines s <> 0 ->
   calm (s, from_millis 1460)
   /\ exists t0, calm_since t0 busy_then_calm /\ (EXIT_HOLD <= duration_since (from_millis 1460) t0)%N)
  /\ (Forall (fun p => policy_mode p = Smooth) (policies p' []) ->
      entered_catch_up (decide_chunking (decisions p' []) s' (from_millis 1710)).2 = true ->
      is_severe_backlog s' = true \/ (REENTER_CATCH_UP_HOLD <= duration_since (from_millis 1710) (from_millis 1460))%N).
Proof.
  exact (mode_changes_are_damped busy_then_calm (mkSnapshot 2 (Some (from_millis 40))) (from_millis 1460) []
           (mkSnapshot 9 (Some (from_millis 10))) (from_millis 1710) eq_refl eq_refl).
Defined.

(** A line is emitted, the terminal becomes narrower: nothing is queued again, but at the
    end of the stream the second half of the line is emitted once more. *)
Theorem resize_replays_emitted_line :
  match stream_run (StreamCore_new (Some 8%N) Rich)
          [OpPush (nl (lit "abcdefgh")) revs 1; OpTick; OpSetWidth (Some 4%N) 2] with
  | Done (c, out) =>
      let '(_, remaining, _) := finalize_remaining c in
      out = [lit "abcdefgh"] /\ queued_len (state c) = 0 /\ remaining = [lit "efgh"]
  | _ => False
  end.
Proof. vm_compute. repeat split; reflexivity. Qed.
End Examples.
