(* ===== verification/NetAddr.v ===== *)
(** * NetAddr: IP addresses, and which of them are not public

    [std::net]: addresses, their textual forms as [str::parse] reads them, and
    the classification helpers; and the tests for non-public addresses of
    [codex-rs/network-proxy/src/policy.rs].

    The tests combine helpers that compare octets with masks of 32-bit words.
    [is_non_public_ipv4_ranges] relates them to intervals of addresses. *)

From Stdlib Require Import Lia ZArith ZifyBool ZifyN Btauto.
From stdpp Require Import base list.
From S2P Require Import Prelude.

#[local] Open Scope N_scope.

(** ** Addresses *)

(** [Ipv4Addr]: four octets. *)
Record Ipv4Addr := mkIpv4 { o1 : N; o2 : N; o3 : N; o4 : N }.

(** [Ipv6Addr]: eight segments of 16 bits. *)
Record Ipv6Addr := mkIpv6 {
  s1 : N; s2 : N; s3 : N; s4 : N; s5 : N; s6 : N; s7 : N; s8 : N
}.

Inductive IpAddr := V4 (ip : Ipv4Addr) | V6 (ip : Ipv6Addr).

#[export] Instance ipv4_eq_dec : EqDecision Ipv4Addr.
Proof. solve_decision. Defined.
#[export] Instance ipv6_eq_dec : EqDecision Ipv6Addr.
Proof. solve_decision. Defined.
#[export] Instance ip_eq_dec : EqDecision IpAddr.
Proof. solve_decision. Defined.

Definition u32_from (ip : Ipv4Addr) : N := ((o1 ip * 256 + o2 ip) * 256 + o3 ip) * 256 + o4 ip.

Definition ipv4_wf (ip : Ipv4Addr) : Prop := o1 ip < 256 /\ o2 ip < 256 /\ o3 ip < 256 /\ o4 ip < 256.

(** ** Parsing

    [core::net::parser]: each reader returns what it read and the rest of the
    text, and leaves the text alone when it fails. *)

(** [char::to_digit] *)
Definition to_digit (radix c : N) : option N :=
  let d := if is_ascii_digit c then Some (c - 48)
           else if (97 <=? c) && (c <=? 122) then Some (c - 87)
           else if (65 <=? c) && (c <=? 90) then Some (c - 55)
           else None in
  match d with Some d => if d <? radix then Some d else None | None => None end.

Fixpoint read_digits (radix : N) (s : rstr) : list N * rstr :=
  match s with
  | [] => ([], [])
  | c :: r =>
      match to_digit radix c with
      | Some d => let '(ds, rest) := read_digits radix r in (d :: ds, rest)
      | None => ([], s)
      end
  end.

Definition digits_value (radix : N) (ds : list N) : N := foldl (fun n d => n * radix + d) 0 ds.

(** [read_number] of a type with the given number of values. *)
Definition read_number (radix : N) (max_digits : nat) (allow_zero_prefix : bool) (values : N) (s : rstr)
  : option (N * rstr) :=
  let has_leading_zero := match s with c :: _ => c =? 48 | [] => false end in
  let '(ds, rest) := read_digits radix s in
  if (max_digits <? length ds)%nat then None
  else if is_empty ds then None
  else if negb allow_zero_prefix && has_leading_zero && (1 <? length ds)%nat then None
  else let n := digits_value radix ds in if n <? values then Some (n, rest) else None.

Definition read_given_char (c : N) (s : rstr) : option rstr :=
  match s with x :: r => if x =? c then Some r else None | [] => None end.

(** [read_separator]: the separator stands before every item but the first. *)
Definition read_separator {A} (sep : N) (index : nat) (inner : rstr -> option (A * rstr)) (s : rstr)
  : option (A * rstr) :=
  match index with
  | O => inner s
  | S _ => match read_given_char sep s with Some r => inner r | None => None end
  end.

Definition read_octet (index : nat) (s : rstr) : option (N * rstr) :=
  read_separator 46 index (read_number 10 3 false 256) s.

Definition read_ipv4_addr (s : rstr) : option (Ipv4Addr * rstr) :=
  '(a, s) ← read_octet 0 s;
  '(b, s) ← read_octet 1 s;
  '(c, s) ← read_octet 2 s;
  '(d, s) ← read_octet 3 s;
  Some (mkIpv4 a b c d, s).

(** [read_groups]: the groups from index [i] on, at most [left] of them; whether
    the last two came from an embedded IPv4 address. *)
Fixpoint read_groups (left i : nat) (s : rstr) : list N * bool * rstr :=
  match left with
  | O => ([], false, s)
  | S left' =>
      let ipv4 := if (0 <? left')%nat then read_separator 58 i read_ipv4_addr s else None in
      match ipv4 with
      | Some (v4, rest) => ([o1 v4 * 256 + o2 v4; o3 v4 * 256 + o4 v4], true, rest)
      | None =>
          match read_separator 58 i (read_number 16 4 true 65536) s with
          | Some (g, rest) =>
              let '(gs, is_v4, rest) := read_groups left' (S i) rest in (g :: gs, is_v4, rest)
          | None => ([], false, s)
          end
      end
  end.

Definition ipv6_from (gs : list N) : option Ipv6Addr :=
  match gs with
  | [a; b; c; d; e; f; g; h] => Some (mkIpv6 a b c d e f g h)
  | _ => None
  end.

Definition read_ipv6_addr (s : rstr) : option (Ipv6Addr * rstr) :=
  let '(head, head_ipv4, s) := read_groups 8 0 s in
  if (length head =? 8)%nat then ip ← ipv6_from head; Some (ip, s)
  else if head_ipv4 then None
  else
    s ← read_given_char 58 s;
    s ← read_given_char 58 s;
    let '(tail, _, s) := read_groups (7 - length head) 0 s in
    ip ← ipv6_from (head ++ replicate (8 - length head - length tail) 0 ++ tail);
    Some (ip, s).

Definition read_ip_addr (s : rstr) : option (IpAddr * rstr) :=
  match read_ipv4_addr s with
  | Some (ip, rest) => Some (V4 ip, rest)
  | None => match read_ipv6_addr s with Some (ip, rest) => Some (V6 ip, rest) | None => None end
  end.

(** [str::parse::<IpAddr>]: the whole text is one address. *)
Definition parse_ip (s : rstr) : option IpAddr :=
  match read_ip_addr s with Some (ip, []) => Some ip | _ => None end.

(** ** Classification in the standard library *)

Definition v4_is_loopback (ip : Ipv4Addr) : bool := o1 ip =? 127.
Definition v4_is_private (ip : Ipv4Addr) : bool :=
  (o1 ip =? 10)
  || (o1 ip =? 172) && (16 <=? o2 ip) && (o2 ip <=? 31)
  || (o1 ip =? 192) && (o2 ip =? 168).
Definition v4_is_link_local (ip : Ipv4Addr) : bool := (o1 ip =? 169) && (o2 ip =? 254).
Definition v4_is_unspecified (ip : Ipv4Addr) : bool := u32_from ip =? 0.
Definition v4_is_multicast (ip : Ipv4Addr) : bool := (224 <=? o1 ip) && (o1 ip <=? 239).
Definition v4_is_broadcast (ip : Ipv4Addr) : bool :=
  (o1 ip =? 255) && (o2 ip =? 255) && (o3 ip =? 255) && (o4 ip =? 255).

Definition segments (ip : Ipv6Addr) : list N := [s1 ip; s2 ip; s3 ip; s4 ip; s5 ip; s6 ip; s7 ip; s8 ip].

Definition v6_is_loopback (ip : Ipv6Addr) : bool := bool_decide (segments ip = [0; 0; 0; 0; 0; 0; 0; 1]).
Definition v6_is_unspecified (ip : Ipv6Addr) : bool := bool_decide (segments ip = [0; 0; 0; 0; 0; 0; 0; 0]).
Definition v6_is_multicast (ip : Ipv6Addr) : bool := N.land (s1 ip) 65280 =? 65280.
Definition v6_is_unique_local (ip : Ipv6Addr) : bool := N.land (s1 ip) 65024 =? 64512.
Definition v6_is_unicast_link_local (ip : Ipv6Addr) : bool := N.land (s1 ip) 65472 =? 65152.

(** [Ipv6Addr::to_ipv4]: IPv4-compatible and IPv4-mapped addresses. *)
Definition to_ipv4 (ip : Ipv6Addr) : option Ipv4Addr :=
  if (s1 ip =? 0) && (s2 ip =? 0) && (s3 ip =? 0) && (s4 ip =? 0) && (s5 ip =? 0)
     && ((s6 ip =? 0) || (s6 ip =? 65535))
  then Some (mkIpv4 (s7 ip / 256) (s7 ip mod 256) (s8 ip / 256) (s8 ip mod 256))
  else None.

Definition is_loopback (ip : IpAddr) : bool :=
  match ip with V4 ip => v4_is_loopback ip | V6 ip => v6_is_loopback ip end.

(** ** Non-public addresses, [policy.rs] *)

Definition u32_max : N := 2 ^ 32 - 1.
(** [<<] on [u32] *)
Definition u32_shl (a n : N) : N := N.land (N.shiftl a n) u32_max.

Definition ipv4_in_cidr (ip : Ipv4Addr) (base : Ipv4Addr) (prefix : N) : bool :=
  let mask := if prefix =? 0 then 0 else u32_shl u32_max (32 - prefix) in
  N.land (u32_from ip) mask =? N.land (u32_from base) mask.

Definition is_non_public_ipv4 (ip : Ipv4Addr) : bool :=
  v4_is_loopback ip || v4_is_private ip || v4_is_link_local ip || v4_is_unspecified ip
  || v4_is_multicast ip || v4_is_broadcast ip
  || ipv4_in_cidr ip (mkIpv4 0 0 0 0) 8
  || ipv4_in_cidr ip (mkIpv4 100 64 0 0) 10
  || ipv4_in_cidr ip (mkIpv4 192 0 0 0) 24
  || ipv4_in_cidr ip (mkIpv4 192 0 2 0) 24
  || ipv4_in_cidr ip (mkIpv4 198 18 0 0) 15
  || ipv4_in_cidr ip (mkIpv4 198 51 100 0) 24
  || ipv4_in_cidr ip (mkIpv4 203 0 113 0) 24
  || ipv4_in_cidr ip (mkIpv4 240 0 0 0) 4.

Definition is_non_public_ipv6 (ip : Ipv6Addr) : bool :=
  match to_ipv4 ip with
  | Some v4 => is_non_public_ipv4 v4 || v6_is_loopback ip
  | None =>
      v6_is_loopback ip || v6_is_unspecified ip || v6_is_multicast ip
      || v6_is_unique_local ip || v6_is_unicast_link_local ip
  end.

Definition is_non_public_ip (ip : IpAddr) : bool :=
  match ip with V4 ip => is_non_public_ipv4 ip | V6 ip => is_non_public_ipv6 ip end.

(** ** Masks and ranges *)

Lemma u32_from_lt ip : ipv4_wf ip -> u32_from ip < 2 ^ 32.
Proof. unfold ipv4_wf, u32_from. intros (? & ? & ? & ?). change (2 ^ 32) with 4294967296. lia. Qed.

Lemma u32_shl_max n : u32_shl u32_max n = N.ldiff (N.ones 32) (N.ones n).
Proof.
  unfold u32_shl. change u32_max with (N.ones 32). apply N.bits_inj. intros i.
  rewrite N.land_spec, N.ldiff_spec. destruct (N.le_gt_cases n i) as [Hle|Hlt].
  - rewrite N.shiftl_spec_high' by done. rewrite (N.ones_spec_high n i) by done.
    destruct (N.lt_ge_cases i 32).
    + by rewrite !N.ones_spec_low by lia.
    + rewrite (N.ones_spec_high 32 i) by done. by rewrite andb_false_r.
  - rewrite N.shiftl_spec_low by done. rewrite (N.ones_spec_low n i) by done. by rewrite andb_false_r.
Qed.

(** Masking with the high bits of a word clears its low bits. *)
Lemma land_high w n x :
  x < 2 ^ w -> N.land x (N.ldiff (N.ones w) (N.ones n)) = x / 2 ^ n * 2 ^ n.
Proof.
  intros Hx.
  replace (N.land x (N.ldiff (N.ones w) (N.ones n))) with (N.ldiff (N.land x (N.ones w)) (N.ones n))
    by (apply N.bits_inj; intros i; rewrite N.land_spec, !N.ldiff_spec, N.land_spec; by rewrite andb_assoc).
  rewrite N.land_ones, N.mod_small, N.ldiff_ones_r by done.
  by rewrite N.shiftl_mul_pow2, N.shiftr_div_pow2.
Qed.

Lemma land_prefix x n :
  x < 2 ^ 32 -> N.land x (u32_shl u32_max n) = x / 2 ^ n * 2 ^ n.
Proof. rewrite u32_shl_max. apply land_high. Qed.

(** A block holds the addresses that agree with its base above the prefix. *)
Lemma in_cidr_spec ip base prefix :
  ipv4_wf ip -> ipv4_wf base -> 0 < prefix -> prefix <= 32 ->
  ipv4_in_cidr ip base prefix = true
  <-> u32_from ip / 2 ^ (32 - prefix) = u32_from base / 2 ^ (32 - prefix).
Proof.
  intros Hi Hb H0 H32. unfold ipv4_in_cidr. rewrite (proj2 (N.eqb_neq prefix 0)) by lia.
  rewrite !land_prefix by (by apply u32_from_lt). rewrite N.eqb_eq.
  split; [|by intros ->]. intros H. apply N.mul_cancel_r in H; [done|]. by apply N.pow_nonzero.
Qed.

(** The first and last addresses of the special-purpose blocks. *)
Definition non_public_ranges : list (Ipv4Addr * Ipv4Addr) :=
  [(mkIpv4 0 0 0 0, mkIpv4 0 255 255 255);
   (mkIpv4 10 0 0 0, mkIpv4 10 255 255 255);
   (mkIpv4 100 64 0 0, mkIpv4 100 127 255 255);
   (mkIpv4 127 0 0 0, mkIpv4 127 255 255 255);
   (mkIpv4 169 254 0 0, mkIpv4 169 254 255 255);
   (mkIpv4 172 16 0 0, mkIpv4 172 31 255 255);
   (mkIpv4 192 0 0 0, mkIpv4 192 0 0 255);
   (mkIpv4 192 0 2 0, mkIpv4 192 0 2 255);
   (mkIpv4 192 168 0 0, mkIpv4 192 168 255 255);
   (mkIpv4 198 18 0 0, mkIpv4 198 19 255 255);
   (mkIpv4 198 51 100 0, mkIpv4 198 51 100 255);
   (mkIpv4 203 0 113 0, mkIpv4 203 0 113 255);
   (mkIpv4 224 0 0 0, mkIpv4 255 255 255 255)].

Definition in_range (ip : Ipv4Addr) (r : Ipv4Addr * Ipv4Addr) : bool :=
  (u32_from r.1 <=? u32_from ip) && (u32_from ip <=? u32_from r.2).

(** Every address of a block lies between its first and its last address. *)
Lemma div_interval x k q : x / 2 ^ k = q <-> q * 2 ^ k <= x /\ x < (q + 1) * 2 ^ k.
Proof.
  assert (2 ^ k <> 0) by (by apply N.pow_nonzero).
  pose proof (N.div_mod x (2 ^ k)). pose proof (N.mod_upper_bound x (2 ^ k)). split; [intros <-; nia|].
  intros [Hlo Hhi]. symmetry. apply (N.div_unique x (2 ^ k) q (x - q * 2 ^ k)); nia.
Qed.

(** A test on octets or on a prefix is a range of addresses. *)
Lemma cidr_range ip base prefix last :
  ipv4_wf ip -> ipv4_wf base -> 0 < prefix -> prefix <= 32 ->
  u32_from base mod 2 ^ (32 - prefix) = 0 ->
  u32_from last = u32_from base + (2 ^ (32 - prefix) - 1) ->
  ipv4_in_cidr ip base prefix = in_range ip (base, last).
Proof.
  intros Hi Hb H0 H32 Hmod Hlast. apply Bool.eq_iff_eq_true. rewrite in_cidr_spec by done.
  unfold in_range. cbn [fst snd]. rewrite Hlast, andb_true_iff, !N.leb_le, div_interval.
  pose proof (N.div_mod (u32_from base) (2 ^ (32 - prefix))) as Hdm.
  assert (2 ^ (32 - prefix) <> 0) by (by apply N.pow_nonzero). nia.
Qed.

Ltac octets ip :=
  let H := fresh in
  intros H; destruct ip as [a b c d]; unfold ipv4_wf in H; cbn [o1 o2 o3 o4] in H;
  apply Bool.eq_iff_eq_true; unfold in_range, u32_from;
  cbn [fst snd o1 o2 o3 o4]; rewrite ?orb_true_iff, ?andb_true_iff, ?N.eqb_eq, ?N.leb_le; lia.

Lemma loopback_range ip :
  ipv4_wf ip -> v4_is_loopback ip = in_range ip (mkIpv4 127 0 0 0, mkIpv4 127 255 255 255).
Proof. unfold v4_is_loopback. octets ip. Qed.

Lemma private_ranges ip :
  ipv4_wf ip ->
  v4_is_private ip = in_range ip (mkIpv4 10 0 0 0, mkIpv4 10 255 255 255)
                     || in_range ip (mkIpv4 172 16 0 0, mkIpv4 172 31 255 255)
                     || in_range ip (mkIpv4 192 168 0 0, mkIpv4 192 168 255 255).
Proof. unfold v4_is_private. octets ip. Qed.

Lemma link_local_range ip :
  ipv4_wf ip -> v4_is_link_local ip = in_range ip (mkIpv4 169 254 0 0, mkIpv4 169 254 255 255).
Proof. unfold v4_is_link_local. octets ip. Qed.

Lemma this_network_range ip :
  ipv4_wf ip ->
  in_range ip (mkIpv4 0 0 0 0, mkIpv4 0 255 255 255)
  = v4_is_unspecified ip || in_range ip (mkIpv4 0 0 0 0, mkIpv4 0 255 255 255).
Proof. unfold v4_is_unspecified. octets ip. Qed.

Lemma multicast_and_reserved_range ip :
  ipv4_wf ip ->
  in_range ip (mkIpv4 224 0 0 0, mkIpv4 255 255 255 255)
  = v4_is_multicast ip || v4_is_broadcast ip
    || in_range ip (mkIpv4 240 0 0 0, mkIpv4 255 255 255 255).
Proof. unfold v4_is_multicast, v4_is_broadcast. octets ip. Qed.

Lemma non_public_v4 ip : ipv4_wf ip -> is_non_public_ipv4 ip = existsb (in_range ip) non_public_ranges.
Proof.
  intros H. unfold is_non_public_ipv4, non_public_ranges. cbn [existsb].
  rewrite loopback_range, private_ranges, link_local_range by done.
  rewrite (cidr_range ip _ 8 (mkIpv4 0 255 255 255)), (cidr_range ip _ 10 (mkIpv4 100 127 255 255)),
    (cidr_range ip _ 24 (mkIpv4 192 0 0 255)), (cidr_range ip _ 24 (mkIpv4 192 0 2 255)),
    (cidr_range ip _ 15 (mkIpv4 198 19 255 255)), (cidr_range ip _ 24 (mkIpv4 198 51 100 255)),
    (cidr_range ip _ 24 (mkIpv4 203 0 113 255)), (cidr_range ip _ 4 (mkIpv4 255 255 255 255))
    by (first [done | repeat split; cbn; lia]).
  rewrite (multicast_and_reserved_range ip H), (this_network_range ip H). btauto.
Qed.

(** ** IPv6 *)

Definition ipv6_wf (ip : Ipv6Addr) : Prop := Forall (fun s => s < 65536) (segments ip).

Definition ip_wf (ip : IpAddr) : Prop :=
  match ip with V4 ip => ipv4_wf ip | V6 ip => ipv6_wf ip end.

Lemma read_number_lt radix digits zero values s n r :
  read_number radix digits zero values s = Some (n, r) -> n < values.
Proof.
  unfold read_number. destruct (read_digits radix s) as [ds rest]. intros H.
  destruct (_ <? length ds)%nat; [done|]. destruct (is_empty ds); [done|].
  destruct (_ && _ && _); [done|]. destruct (N.ltb_spec (digits_value radix ds) values); [|done].
  by simplify_eq.
Qed.

Lemma read_separator_inv {A} sep i (inner : rstr -> option (A * rstr)) s a r :
  read_separator sep i inner s = Some (a, r) -> exists s', inner s' = Some (a, r).
Proof.
  destruct i; cbn; [by eauto|]. destruct (read_given_char sep s) as [s'|]; [by eauto|done].
Qed.

Lemma read_octet_lt i s n r : read_octet i s = Some (n, r) -> n < 256.
Proof. intros [s' H]%read_separator_inv. by eapply read_number_lt. Qed.

Lemma read_ipv4_wf s ip r : read_ipv4_addr s = Some (ip, r) -> ipv4_wf ip.
Proof.
  unfold read_ipv4_addr. intros H.
  destruct (read_octet 0 s) as [[a s1']|] eqn:E1; [|done]. cbn [mbind option_bind] in H.
  destruct (read_octet 1 s1') as [[b s2']|] eqn:E2; [|done]. cbn [mbind option_bind] in H.
  destruct (read_octet 2 s2') as [[c s3']|] eqn:E3; [|done]. cbn [mbind option_bind] in H.
  destruct (read_octet 3 s3') as [[d s4']|] eqn:E4; [|done]. cbn [mbind option_bind] in H.
  simplify_eq. repeat split; cbn; eapply read_octet_lt; eassumption.
Qed.

Lemma read_groups_lt left i s gs is_v4 r :
  read_groups left i s = (gs, is_v4, r) -> Forall (fun g => g < 65536) gs.
Proof.
  revert i s gs is_v4 r. induction left as [|left IH]; intros i s gs is_v4 r; cbn [read_groups]; [by intros [= <- _ _]; constructor|].
  destruct (if (0 <? left)%nat then read_separator 58 i read_ipv4_addr s else None)
    as [[ip rest]|] eqn:E4.
  - intros [= <- _ _]. destruct (0 <? left)%nat; [|done].
    apply read_separator_inv in E4 as [s' Hw%read_ipv4_wf]. destruct Hw as (? & ? & ? & ?).
    repeat constructor; lia.
  - destruct (read_separator 58 i (read_number 16 4 true 65536) s) as [[g rest]|] eqn:Eg;
      [|by intros [= <- _ _]; constructor].
    destruct (read_groups left (S i) rest) as [[gs' v'] r'] eqn:Er. intros [= <- _ _].
    constructor; [|by eapply IH]. apply read_separator_inv in Eg as [s' Hg]. by eapply read_number_lt.
Qed.

Lemma ipv6_from_wf gs ip : Forall (fun g => g < 65536) gs -> ipv6_from gs = Some ip -> ipv6_wf ip.
Proof.
  intros H E. unfold ipv6_wf. replace (segments ip) with gs; [done|].
  destruct gs as [|a [|b [|c [|d [|e [|f [|g [|h [|? ?]]]]]]]]]; try discriminate E. by injection E as <-.
Qed.

Lemma read_ipv6_wf s ip r : read_ipv6_addr s = Some (ip, r) -> ipv6_wf ip.
Proof.
  unfold read_ipv6_addr. destruct (read_groups 8 0 s) as [[head v4] s'] eqn:Eh.
  apply read_groups_lt in Eh. destruct (length head =? 8)%nat.
  - intros H. destruct (ipv6_from head) as [ip'|] eqn:E; [|done].
    cbn in H. simplify_eq. by eapply ipv6_from_wf.
  - destruct v4; [done|]. intros H.
    destruct (read_given_char 58 s') as [s1'|]; [|done]. cbn [mbind option_bind] in H.
    destruct (read_given_char 58 s1') as [s2'|]; [|done]. cbn [mbind option_bind] in H.
    destruct (read_groups (7 - length head) 0 s2') as [[tail v6] s3'] eqn:Et. apply read_groups_lt in Et.
    destruct (ipv6_from _) as [ip'|] eqn:E; [|done]. cbn in H. simplify_eq.
    eapply ipv6_from_wf; [|exact E]. apply Forall_app_2; [done|]. apply Forall_app_2; [|done].
    by apply Forall_replicate.
Qed.

(** What is parsed is an address. *)
Lemma parse_ip_wf s ip : parse_ip s = Some ip -> ip_wf ip.
Proof.
  unfold parse_ip, read_ip_addr. destruct (read_ipv4_addr s) as [[v4 r]|] eqn:E4.
  - destruct r; [|done]. intros [= <-]. by eapply read_ipv4_wf.
  - destruct (read_ipv6_addr s) as [[v6 r]|] eqn:E6; [|done].
    destruct r; [|done]. intros [= <-]. by eapply read_ipv6_wf.
Qed.

Lemma to_ipv4_wf ip v4 : ipv6_wf ip -> to_ipv4 ip = Some v4 -> ipv4_wf v4.
Proof.
  unfold to_ipv4, ipv6_wf, segments. rewrite !Forall_cons.
  intros (_ & _ & _ & _ & _ & _ & H7 & H8 & _). destruct (_ && _); [|done]. intros [= <-].
  repeat split; cbn [o1 o2 o3 o4]; first [by apply N.mod_lt | apply N.Div0.div_lt_upper_bound; lia].
Qed.

(** The first segments of the local blocks: unique local, link local, multicast. *)
Definition local_segments : list (N * N) := [(64512, 65023); (65152, 65215); (65280, 65535)].

(** The specification: an address embedded in IPv6 counts as the IPv4 address it
    holds. *)
Definition non_public (ip : IpAddr) : Prop :=
  match ip with
  | V4 ip => exists r, r ∈ non_public_ranges /\ u32_from r.1 <= u32_from ip <= u32_from r.2
  | V6 ip =>
      match to_ipv4 ip with
      | Some v4 => exists r, r ∈ non_public_ranges /\ u32_from r.1 <= u32_from v4 <= u32_from r.2
      | None => exists r, r ∈ local_segments /\ r.1 <= s1 ip <= r.2
      end
  end.

Lemma in_ranges_spec ip :
  existsb (in_range ip) non_public_ranges = true
  <-> exists r, r ∈ non_public_ranges /\ u32_from r.1 <= u32_from ip <= u32_from r.2.
Proof.
  rewrite existsb_exists. unfold in_range. split.
  - intros (r & Hr%list_elem_of_In & [?%N.leb_le ?%N.leb_le]%andb_true_iff). by exists r.
  - intros (r & Hr%list_elem_of_In & ? & ?). exists r. split; [done|].
    rewrite andb_true_iff, !N.leb_le. done.
Qed.

Lemma segment_block x n m :
  x < 2 ^ 16 -> (N.land x (N.ldiff (N.ones 16) (N.ones n)) =? m * 2 ^ n) = true
  <-> m * 2 ^ n <= x <= m * 2 ^ n + (2 ^ n - 1).
Proof.
  intros Hx. rewrite land_high, N.eqb_eq by done. assert (2 ^ n <> 0) by (by apply N.pow_nonzero).
  rewrite N.mul_cancel_r by done. rewrite div_interval. nia.
Qed.

(** An address outside the embedded blocks is not the unspecified one. *)
Lemma loopback_v6_embedded ip :
  v6_is_loopback ip || v6_is_unspecified ip = true -> to_ipv4 ip <> None.
Proof.
  intros [H|H]%orb_true_iff; apply bool_decide_eq_true_1 in H; destruct ip as [a b c d e f g h];
    injection H as -> -> -> -> -> -> -> ->; discriminate.
Qed.

Lemma loopback_v6_non_public ip v4 :
  to_ipv4 ip = Some v4 -> v6_is_loopback ip = true -> is_non_public_ipv4 v4 = true.
Proof.
  intros E H%bool_decide_eq_true_1. destruct ip as [a b c d e f g h]. injection H as -> -> -> -> -> -> -> ->.
  vm_compute in E. injection E as <-. by vm_compute.
Qed.

Lemma non_public_v6_local ip :
  ipv6_wf ip -> to_ipv4 ip = None ->
  is_non_public_ipv6 ip = true <-> exists r, r ∈ local_segments /\ r.1 <= s1 ip <= r.2.
Proof.
  intros Hw E. unfold is_non_public_ipv6. rewrite E.
  destruct (v6_is_loopback ip || v6_is_unspecified ip) eqn:El; [by destruct (loopback_v6_embedded ip El)|].
  cbn [orb].
  unfold v6_is_multicast, v6_is_unique_local, v6_is_unicast_link_local. rewrite !orb_true_iff.
  assert (Hs : s1 ip < 2 ^ 16) by (unfold ipv6_wf in Hw; by inversion Hw).
  assert (Hmc : (N.land (s1 ip) 65280 =? 65280) = true <-> 65280 <= s1 ip <= 65535)
    by (exact (segment_block (s1 ip) 8 255 Hs)).
  assert (Hul : (N.land (s1 ip) 65024 =? 64512) = true <-> 64512 <= s1 ip <= 65023)
    by (exact (segment_block (s1 ip) 9 126 Hs)).
  assert (Hll : (N.land (s1 ip) 65472 =? 65152) = true <-> 65152 <= s1 ip <= 65215)
    by (exact (segment_block (s1 ip) 6 1018 Hs)).
  rewrite Hmc, Hul, Hll. unfold local_segments. split.
  - intros [[H|H]|H];
      [exists (65280, 65535)|exists (64512, 65023)|exists (65152, 65215)];
      (split; [|exact H]); rewrite !elem_of_cons; auto.
  - intros (r & Hr & H). rewrite !elem_of_cons, elem_of_nil in Hr.
    destruct Hr as [->|[->|[->|[]]]]; auto.
Qed.

(** Non-public addresses are those of the special-purpose blocks, in IPv4 and as
    embedded in IPv6, and the local blocks of IPv6. *)
Lemma is_non_public_spec ip : ip_wf ip -> is_non_public_ip ip = true <-> non_public ip.
Proof.
  destruct ip as [ip|ip]; cbn [ip_wf is_non_public_ip non_public]; intros Hw.
  - rewrite non_public_v4 by done. apply in_ranges_spec.
  - destruct (to_ipv4 ip) as [v4|] eqn:E; [|by apply non_public_v6_local].
    pose proof (to_ipv4_wf ip v4 Hw E) as Hw4. unfold is_non_public_ipv6. rewrite E.
    rewrite <- in_ranges_spec, <- (non_public_v4 v4 Hw4), orb_true_iff.
    split; [intros [H|H]; [done|by eapply loopback_v6_non_public]|by left].
Qed.
