(* ===== verification/NetHost.v ===== *)
(** * NetHost: host names and domain patterns

    [codex-rs/network-proxy/src/policy.rs]: the normalisation of hosts, the
    patterns of allow and deny lists, their compilation to globs and their
    comparison against managed patterns.

    Globs are those of the crate [globset] ([Globs] with [GlobLaws]); the parser
    of hosts of the crate [url] is an argument. *)

From Stdlib Require Import Lia.
From stdpp Require Import base list strings.
From S2P Require Import Prelude NetAddr.

(** ** Hosts *)

Definition unscoped_ip_literal (host : rstr) : option rstr :=
  match split_once c_percent host with
  | Some (ip, _) => if is_some (parse_ip ip) then Some ip else None
  | None => None
  end.

Definition scoped_with (delimiter host : rstr) : option rstr :=
  match split_once_str delimiter host with
  | Some (ip, scope) => if is_some (parse_ip ip) then Some (ip ++ [c_percent] ++ scope) else None
  | None => None
  end.

Definition normalize_ip_literal (host : rstr) : option rstr :=
  if is_some (parse_ip host) then Some host
  else find_map (fun delimiter => scoped_with delimiter host) [lit "%25"; lit "%"].

Definition normalize_dns_host_or_ip_literal (host : rstr) : rstr :=
  let host := trim_end_matches c_dot (to_ascii_lowercase host) in
  default host (normalize_ip_literal host).

(** The text between the brackets of a host that starts with one. *)
Definition bracketed (host : rstr) : option rstr :=
  match host with
  | c :: r => if (c =? 91)%N then fst <$> split_once 93 r else None
  | [] => None
  end.

Definition normalize_host (host : rstr) : rstr :=
  let host := trim host in
  match bracketed host with
  | Some inner => normalize_dns_host_or_ip_literal inner
  | None =>
      if count_char c_colon host =? 1
      then normalize_dns_host_or_ip_literal (default [] (head (split_on c_colon host)))
      else normalize_dns_host_or_ip_literal host
  end.

(** [Host::parse] *)
Definition parse_host (input : rstr) : option rstr :=
  let normalized := normalize_host input in if is_empty normalized then None else Some normalized.

Definition is_loopback_host (host : rstr) : bool :=
  let host := default host (unscoped_ip_literal host) in
  (host == lit "localhost")%rust
  || match parse_ip host with Some ip => is_loopback ip | None => false end.

(** ** Domain patterns *)

Inductive DomainPattern :=
| ApexAndSubdomains (domain : rstr)
| SubdomainsOnly (domain : rstr)
| Exact (domain : rstr).

Definition normalize_pattern (pattern : rstr) : rstr :=
  let pattern := trim pattern in
  if (pattern == lit "*")%rust then lit "*"
  else
    let '(prefix, remainder) :=
      match strip_prefix (lit "**.") pattern with
      | Some domain => (lit "**.", domain)
      | None =>
          match strip_prefix (lit "*.") pattern with
          | Some domain => (lit "*.", domain)
          | None => ([], pattern)
          end
      end in
    let remainder := normalize_host remainder in
    if is_empty prefix then remainder else prefix ++ remainder.

Definition parse_domain (domain : rstr) (build : rstr -> DomainPattern) : DomainPattern :=
  let domain := trim domain in if is_empty domain then Exact [] else build domain.

(** [DomainPattern::parse] *)
Definition domain_pattern_parse (input : rstr) : DomainPattern :=
  let input := trim input in
  if is_empty input then Exact []
  else match strip_prefix (lit "**.") input with
       | Some domain => parse_domain domain ApexAndSubdomains
       | None =>
           match strip_prefix (lit "*.") input with
           | Some domain => parse_domain domain SubdomainsOnly
           | None => Exact input
           end
       end.

Definition expand_domain_pattern (pattern : rstr) : list rstr :=
  match domain_pattern_parse pattern with
  | Exact domain => [domain]
  | SubdomainsOnly domain => [lit "?*." ++ domain]
  | ApexAndSubdomains domain => [domain; lit "?*." ++ domain]
  end.

Definition is_global_wildcard_domain_pattern (pattern : rstr) : bool :=
  existsb (fun candidate => (candidate == lit "*")%rust) (expand_domain_pattern (normalize_pattern pattern)).

Definition normalize_domain (domain : rstr) : rstr := to_ascii_lowercase (trim_end_matches c_dot domain).

Definition domain_eq (left right : rstr) : bool := (normalize_domain left == normalize_domain right)%rust.

Definition is_subdomain_or_equal (child parent : rstr) : bool :=
  let child := normalize_domain child in
  let parent := normalize_domain parent in
  (child == parent)%rust || ends_with (c_dot :: parent) child.

Definition is_strict_subdomain (child parent : rstr) : bool :=
  let child := normalize_domain child in
  let parent := normalize_domain parent in
  (child != parent)%rust && ends_with (c_dot :: parent) child.

(** [DomainPattern::allows] *)
Definition pattern_allows (managed candidate : DomainPattern) : bool :=
  match managed with
  | Exact domain =>
      match candidate with Exact candidate => domain_eq candidate domain | _ => false end
  | SubdomainsOnly domain =>
      match candidate with
      | Exact candidate => is_strict_subdomain candidate domain
      | SubdomainsOnly candidate => is_subdomain_or_equal candidate domain
      | ApexAndSubdomains candidate => is_strict_subdomain candidate domain
      end
  | ApexAndSubdomains domain =>
      match candidate with
      | Exact candidate | SubdomainsOnly candidate | ApexAndSubdomains candidate =>
          is_subdomain_or_equal candidate domain
      end
  end.

Section url_hosts.
(** [url::Host::parse], displayed *)
Context (url_host : rstr -> option rstr).

Definition parse_domain_for_constraints (domain : rstr) : rstr :=
  let domain := trim_end_matches c_dot (trim domain) in
  if is_empty domain then []
  else
    let host := if starts_with (lit "[") domain && ends_with (lit "]") domain
                then drop 1 (take (length domain - 1) domain) else domain in
    if contains_char c_star host || contains_char c_question host || contains_char c_percent host
    then domain
    else default [] (url_host host).

Definition parse_for_constraints (input : rstr) : DomainPattern :=
  let input := trim input in
  if is_empty input then Exact []
  else match strip_prefix (lit "**.") input with
       | Some domain => ApexAndSubdomains (parse_domain_for_constraints domain)
       | None =>
           match strip_prefix (lit "*.") input with
           | Some domain => SubdomainsOnly (parse_domain_for_constraints domain)
           | None => Exact (parse_domain_for_constraints input)
           end
       end.
End url_hosts.

(** ** Compilation to globs *)

(** [globset]: the globs of case-insensitive patterns, and sets of them. *)
Class Globs := {
  Glob : Type;
  GlobSet : Type;
  glob_build : rstr -> option Glob;
  glob_matches : Glob -> rstr -> bool;
  globset_build : list Glob -> option GlobSet;
  is_match : GlobSet -> rstr -> bool
}.

Inductive GlobalWildcard := AllowGlobal | RejectGlobal.

Inductive CompileError :=
| UnsupportedGlobalWildcard
| InvalidGlobPattern (candidate : rstr)
| GlobSetBuildError.

Section globs.
Context `{Globs}.

Fixpoint compile_candidates (candidates : list rstr) (seen : list rstr) (globs : list Glob)
  : result CompileError (list rstr * list Glob) :=
  match candidates with
  | [] => Ok (seen, globs)
  | candidate :: rest =>
      if bool_decide (candidate ∈ seen) then compile_candidates rest seen globs
      else match glob_build candidate with
           | None => Err (InvalidGlobPattern candidate)
           | Some glob => compile_candidates rest (candidate :: seen) (globs ++ [glob])
           end
  end.

Fixpoint compile_patterns (global_wildcard : GlobalWildcard) (patterns : list rstr)
    (seen : list rstr) (globs : list Glob) : result CompileError (list Glob) :=
  match patterns with
  | [] => Ok globs
  | pattern :: rest =>
      if match global_wildcard with
         | RejectGlobal => is_global_wildcard_domain_pattern pattern
         | AllowGlobal => false
         end
      then Err UnsupportedGlobalWildcard
      else
        match compile_candidates (expand_domain_pattern (normalize_pattern pattern)) seen globs with
        | Err e => Err e
        | Ok (seen, globs) => compile_patterns global_wildcard rest seen globs
        end
  end.

Definition compile_globset_with_policy (patterns : list rstr) (global_wildcard : GlobalWildcard)
  : result CompileError GlobSet :=
  globs ← compile_patterns global_wildcard patterns [] [];
  ok_or (globset_build globs) GlobSetBuildError.

Definition compile_allowlist_globset (patterns : list rstr) : result CompileError GlobSet :=
  compile_globset_with_policy patterns AllowGlobal.

Definition compile_denylist_globset (patterns : list rstr) : result CompileError GlobSet :=
  compile_globset_with_policy patterns RejectGlobal.

Definition globset_matches_host_or_unscoped (set : GlobSet) (host : rstr) : bool :=
  is_match set host || is_some_and (unscoped_ip_literal host) (is_match set).
End globs.

(** ** Normalised hosts are in lower case *)

Definition lower (s : rstr) : Prop := to_ascii_lowercase s = s.

Lemma lower_iff s : lower s <-> forall c, c ∈ s -> ~ (65 <= c <= 90)%N.
Proof.
  unfold lower. split.
  - intros <- c Hc. by apply to_ascii_lowercase_elem in Hc as [_ ?].
  - intros H. unfold to_ascii_lowercase. rewrite <- (list_fmap_id s) at 2. apply list_fmap_ext.
    intros i c Hc%list_elem_of_lookup_2. specialize (H c Hc).
    destruct (N.leb_spec 65 c), (N.leb_spec c 90); cbn; lia.
Qed.

Lemma lower_subset s t : lower s -> t ⊆ s -> lower t.
Proof. rewrite !lower_iff. intros H Ht c Hc. by apply H, Ht. Qed.

Lemma lower_lowercase s : lower (to_ascii_lowercase s).
Proof. apply lower_iff. intros c Hc. by apply to_ascii_lowercase_elem in Hc as [_ ?]. Qed.

Lemma split_once_str_Some p s a b : split_once_str p s = Some (a, b) -> s = a ++ p ++ b.
Proof.
  revert a. induction s as [|x s IH]; intros a; cbn [split_once_str].
  - destruct (strip_prefix p []) as [r|] eqn:E; [|done]. intros [= <- <-].
    exact (proj1 (strip_prefix_Some _ _ _) E).
  - destruct (strip_prefix p (x :: s)) as [r|] eqn:E; [intros [= <- <-]; exact (proj1 (strip_prefix_Some _ _ _) E)|].
    destruct (split_once_str p s) as [[a' b']|]; [|done]. intros [= <- <-].
    by rewrite (IH a' eq_refl).
Qed.

Lemma normalize_ip_literal_lower h ip : lower h -> normalize_ip_literal h = Some ip -> lower ip.
Proof.
  unfold normalize_ip_literal. intros Hl. destruct (is_some (parse_ip h)); [by intros [= <-]|].
  assert (Hs : forall d ip, scoped_with d h = Some ip -> lower ip).
  { clear ip. intros d ip. unfold scoped_with. destruct (split_once_str d h) as [[a b]|] eqn:E; [|done].
    destruct (is_some (parse_ip a)); [|done]. intros [= <-]. apply split_once_str_Some in E as ->.
    rewrite lower_iff in Hl. apply lower_iff. intros c Hc.
    rewrite elem_of_app, elem_of_cons in Hc. destruct Hc as [Hc|[->|Hc]]; [|unfold c_percent; lia|];
      apply Hl; rewrite !elem_of_app; auto. }
  cbn [find_map]. destruct (scoped_with (lit "%25") h) as [x|] eqn:E1; [intros [= <-]; by eapply Hs|].
  destruct (scoped_with (lit "%") h) as [x|] eqn:E2; [intros [= <-]; by eapply Hs|done].
Qed.

Lemma normalize_dns_lower h : lower (normalize_dns_host_or_ip_literal h).
Proof.
  unfold normalize_dns_host_or_ip_literal.
  assert (Hl : lower (trim_end_matches c_dot (to_ascii_lowercase h)))
    by (eapply lower_subset; [apply lower_lowercase|apply drop_while_end_subset]).
  destruct (normalize_ip_literal _) as [ip|] eqn:E; [by eapply normalize_ip_literal_lower|done].
Qed.

Lemma normalize_host_lower h : lower (normalize_host h).
Proof.
  unfold normalize_host. destruct (bracketed _); [apply normalize_dns_lower|].
  destruct (_ =? 1); apply normalize_dns_lower.
Qed.

#[export] Hint Resolve normalize_host_lower lower_lowercase : codex.

(** ** What patterns cover *)

(** The hosts that a pattern stands for. *)
Definition covers (p : DomainPattern) (host : rstr) : Prop :=
  match p with
  | Exact d => host = d
  | SubdomainsOnly d => exists l, l <> [] /\ host = l ++ c_dot :: d
  | ApexAndSubdomains d => host = d \/ exists l, l <> [] /\ host = l ++ c_dot :: d
  end.

Definition domain_of (p : DomainPattern) : rstr :=
  match p with Exact d | SubdomainsOnly d | ApexAndSubdomains d => d end.

(** The pattern that an entry of a list is compiled as. *)
Definition entry_pattern (entry : rstr) : DomainPattern := domain_pattern_parse (normalize_pattern entry).

(** Text without the special characters of globs. *)
Definition glob_plain (s : rstr) : Prop :=
  Forall (fun c => c ∉ [c_star; c_question; 91; 93; 123; 125; c_backslash]%N) s.

(** The documented meaning of the globs that entries expand to, on text in lower
    case; a set matches what one of its globs matches. *)
Class GlobLaws `{Globs} : Prop := {
  glob_literal d g h :
    glob_plain d -> lower d -> lower h -> glob_build d = Some g -> glob_matches g h = true <-> h = d;
  glob_subdomains d g h :
    glob_plain d -> lower d -> lower h -> glob_build (lit "?*." ++ d) = Some g ->
    glob_matches g h = true <-> exists l, l <> [] /\ h = l ++ c_dot :: d;
  globset_matches gs set h :
    globset_build gs = Some set -> is_match set h = existsb (fun g => glob_matches g h) gs
}.

Section compiled.
Context `{GlobLaws}.

(** The globs built so far are those of the candidates seen so far. *)
Definition built (seen : list rstr) (globs : list Glob) : Prop :=
  forall h, existsb (fun g => glob_matches g h) globs = true
            <-> exists c g, c ∈ seen /\ glob_build c = Some g /\ glob_matches g h = true.

Lemma compile_candidates_built cs seen globs seen' globs' :
  built seen globs -> compile_candidates cs seen globs = Ok (seen', globs') ->
  built seen' globs' /\ forall c, c ∈ seen' <-> c ∈ cs \/ c ∈ seen.
Proof.
  revert seen globs. induction cs as [|c cs IH]; intros seen globs Hb; cbn [compile_candidates].
  - intros [= <- <-]. split; [done|]. intros x. rewrite elem_of_nil. tauto.
  - case_bool_decide as Hin.
    + intros E. destruct (IH _ _ Hb E) as [Hb' Hs]. split; [done|]. intros x. rewrite Hs, elem_of_cons.
      split; [tauto|]. intros [[->|?]|?]; auto.
    + destruct (glob_build c) as [g|] eqn:Eg; [|done]. intros E. destruct (IH (c :: seen) (globs ++ [g])) as [Hb' Hs]; [|done|].
      * intros h. rewrite existsb_app, orb_true_iff, (Hb h). cbn [existsb]. rewrite orb_false_r. split.
        -- intros [(c' & g' & ? & ? & ?)|Hm]; [exists c', g'|exists c, g]; rewrite elem_of_cons; auto.
        -- intros (c' & g' & Hc & Hg & Hm). rewrite elem_of_cons in Hc.
           destruct Hc as [->|Hc]; [right; congruence|left; by exists c', g'].
      * split; [done|]. intros x. rewrite Hs, !elem_of_cons. tauto.
Qed.

Lemma compile_patterns_built gw ps seen globs globs' :
  built seen globs -> compile_patterns gw ps seen globs = Ok globs' ->
  exists seen', built seen' globs'
    /\ forall c, c ∈ seen' <-> (exists p, p ∈ ps /\ c ∈ expand_domain_pattern (normalize_pattern p)) \/ c ∈ seen.
Proof.
  revert seen globs. induction ps as [|p ps IH]; intros seen globs Hb; cbn [compile_patterns].
  - intros [= <-]. exists seen. split; [done|]. intros c. split; [auto|]. intros [(p & Hp & _)|?]; [|done].
    by rewrite elem_of_nil in Hp.
  - destruct (match gw with RejectGlobal => _ | AllowGlobal => _ end); [done|].
    destruct (compile_candidates _ seen globs) as [[seen1 globs1]|e] eqn:E1; [|done]. intros E.
    destruct (compile_candidates_built _ _ _ _ _ Hb E1) as [Hb1 Hs1].
    destruct (IH _ _ Hb1 E) as (seen' & Hb' & Hs'). exists seen'. split; [done|].
    intros c. rewrite Hs', Hs1. split.
    + intros [(q & Hq & Hc)|[Hc|Hc]]; [left; exists q|left; exists p|by right]; rewrite elem_of_cons; auto.
    + intros [(q & Hq & Hc)|Hc]; [|auto]. rewrite elem_of_cons in Hq.
      destruct Hq as [->|Hq]; [auto|left; by exists q].
Qed.

(** A compiled list matches what the candidates of its entries match. *)
Lemma compiled_matches gw ps set h :
  compile_globset_with_policy ps gw = Ok set ->
  is_match set h = true
  <-> exists p c g, p ∈ ps /\ c ∈ expand_domain_pattern (normalize_pattern p)
                    /\ glob_build c = Some g /\ glob_matches g h = true.
Proof.
  unfold compile_globset_with_policy. destruct (compile_patterns gw ps [] []) as [globs|e] eqn:E; [|done].
  cbn [mbind result_bind ok_or]. destruct (globset_build globs) as [set'|] eqn:Es; [|done].
  intros [= <-]. rewrite (globset_matches globs set' h Es).
  assert (Hb : built [] []).
  { intros h'. cbn. split; [done|]. intros (c & g & Hc & _). by rewrite elem_of_nil in Hc. }
  destruct (compile_patterns_built _ _ _ _ _ Hb E) as (seen & Hb' & Hs). rewrite (Hb' h). split.
  - intros (c & g & Hc & Hg & Hm). apply Hs in Hc as [(p & Hp & Hc)|Hc]; [|by rewrite elem_of_nil in Hc].
    by exists p, c, g.
  - intros (p & c & g & Hp & Hc & Hg & Hm). exists c, g. split; [apply Hs; left; by exists p|done].
Qed.

(** Compiled candidates exist. *)
Lemma compile_candidates_ok cs seen globs seen' globs' :
  compile_candidates cs seen globs = Ok (seen', globs') ->
  (forall c, c ∈ seen -> glob_build c <> None) -> forall c, c ∈ seen' -> glob_build c <> None.
Proof.
  revert seen globs. induction cs as [|c cs IH]; intros seen globs; cbn [compile_candidates].
  - by intros [= <- <-].
  - case_bool_decide; [apply IH|]. destruct (glob_build c) as [g|] eqn:Eg; [|done]. intros E Hs.
    eapply IH; [exact E|]. intros x Hx. rewrite elem_of_cons in Hx. destruct Hx as [->|Hx]; [congruence|auto].
Qed.

Lemma compile_patterns_ok gw ps seen globs globs' :
  compile_patterns gw ps seen globs = Ok globs' -> (forall c, c ∈ seen -> glob_build c <> None) ->
  built seen globs ->
  forall p c, p ∈ ps -> c ∈ expand_domain_pattern (normalize_pattern p) -> glob_build c <> None.
Proof.
  revert seen globs. induction ps as [|q ps IH]; intros seen globs E Hs Hb p c Hp Hc; [by rewrite elem_of_nil in Hp|].
  cbn [compile_patterns] in E. destruct (match gw with RejectGlobal => _ | AllowGlobal => _ end); [done|].
  destruct (compile_candidates _ seen globs) as [[seen1 globs1]|e] eqn:E1; [|done].
  pose proof (compile_candidates_ok _ _ _ _ _ E1 Hs) as Hs1.
  destruct (compile_candidates_built _ _ _ _ _ Hb E1) as [Hb1 Hseen].
  rewrite elem_of_cons in Hp. destruct Hp as [->|Hp]; [|by eapply IH].
  apply Hs1, Hseen. by left.
Qed.

Definition entry_plain (entry : rstr) : Prop := glob_plain (domain_of (entry_pattern entry)).

Lemma normalize_pattern_lower e : lower (normalize_pattern e).
Proof.
  unfold normalize_pattern. destruct (_ == _)%rust; [done|].
  assert (Hp : forall p d, lower p -> lower (if is_empty p then normalize_host d else p ++ normalize_host d)).
  { intros p d Hp. pose proof (normalize_host_lower d) as Hd. destruct (is_empty p); [done|].
    rewrite lower_iff in *. intros c. rewrite elem_of_app. intros [Hc|Hc]; auto. }
  destruct (strip_prefix (lit "**.") (trim e)); [by apply Hp|].
  destruct (strip_prefix (lit "*.") (trim e)); by apply Hp.
Qed.

Lemma strip_prefix_subset p s r : strip_prefix p s = Some r -> r ⊆ s.
Proof. rewrite strip_prefix_Some. intros -> c Hc. apply elem_of_app. by right. Qed.

Lemma parse_domain_subset d build s :
  d ⊆ s -> (forall x, domain_of (build x) = x) -> domain_of (parse_domain d build) ⊆ s.
Proof.
  intros Hd Hb. unfold parse_domain. destruct (is_empty (trim d)); [by intros c Hc%elem_of_nil|].
  rewrite Hb. intros c Hc. by apply Hd, trim_subset.
Qed.

Lemma domain_pattern_subset s : domain_of (domain_pattern_parse s) ⊆ s.
Proof.
  unfold domain_pattern_parse. pose proof (trim_subset s) as Ht.
  destruct (is_empty (trim s)); [by intros c Hc%elem_of_nil|].
  destruct (strip_prefix (lit "**.") (trim s)) as [d|] eqn:E.
  - apply parse_domain_subset; [|done]. intros c Hc. by eapply Ht, strip_prefix_subset.
  - destruct (strip_prefix (lit "*.") (trim s)) as [d|] eqn:E2; [|done].
    apply parse_domain_subset; [|done]. intros c Hc. by eapply Ht, strip_prefix_subset.
Qed.

Lemma entry_domain_lower e : lower (domain_of (entry_pattern e)).
Proof. eapply lower_subset; [apply normalize_pattern_lower|apply domain_pattern_subset]. Qed.

(** The candidates of an entry match the hosts that its pattern covers. *)
Lemma candidates_cover e h :
  entry_plain e -> lower h ->
  (forall c, c ∈ expand_domain_pattern (normalize_pattern e) -> glob_build c <> None) ->
  (exists c g, c ∈ expand_domain_pattern (normalize_pattern e) /\ glob_build c = Some g
               /\ glob_matches g h = true)
  <-> covers (entry_pattern e) h.
Proof.
  unfold entry_plain. pose proof (entry_domain_lower e) as Hl. revert Hl.
  unfold expand_domain_pattern, entry_pattern.
  destruct (domain_pattern_parse (normalize_pattern e)) as [d|d|d]; cbn [domain_of covers]; intros Hl Hp Hh Hok.
  - split.
    + intros (c & g & Hc & Hg & Hm). rewrite !elem_of_cons, elem_of_nil in Hc.
      destruct Hc as [->|[->|[]]]; [left|right]; [by eapply glob_literal|by eapply glob_subdomains].
    + intros Hcov. destruct (glob_build d) as [g|] eqn:Eg; [|by destruct (Hok d); [left|]].
      destruct (glob_build (lit "?*." ++ d)) as [g'|] eqn:Eg'; [|by destruct (Hok (lit "?*." ++ d)); [right; left|]].
      destruct Hcov as [Hcov|Hcov]; [exists d, g|exists (lit "?*." ++ d), g']; (split; [by rewrite !elem_of_cons; auto|]);
        (split; [done|]); [by eapply glob_literal|by eapply glob_subdomains].
  - split.
    + intros (c & g & ->%list_elem_of_singleton & Hg & Hm). by eapply glob_subdomains.
    + intros Hcov. destruct (glob_build (lit "?*." ++ d)) as [g|] eqn:Eg; [|by destruct (Hok (lit "?*." ++ d)); [left|]].
      exists (lit "?*." ++ d), g. split; [by apply list_elem_of_singleton|]. split; [done|]. by eapply glob_subdomains.
  - split.
    + intros (c & g & ->%list_elem_of_singleton & Hg & Hm). by eapply glob_literal.
    + intros Hcov. destruct (glob_build d) as [g|] eqn:Eg; [|by destruct (Hok d); [left|]].
      exists d, g. split; [by apply list_elem_of_singleton|]. split; [done|]. by eapply glob_literal.
Qed.

Lemma compiled_ok gw ps set p c :
  compile_globset_with_policy ps gw = Ok set -> p ∈ ps ->
  c ∈ expand_domain_pattern (normalize_pattern p) -> glob_build c <> None.
Proof.
  unfold compile_globset_with_policy. destruct (compile_patterns gw ps [] []) as [globs|e] eqn:E; [|done].
  intros _ Hp Hc. refine (compile_patterns_ok gw ps [] [] globs E _ _ p c Hp Hc).
  - intros x Hx. by rewrite elem_of_nil in Hx.
  - intros h'. cbn. split; [done|]. intros (x & g & Hx & _). by rewrite elem_of_nil in Hx.
Qed.

(** An entry of a compiled list matches the hosts that its pattern covers. *)
Lemma compiled_entry_matches gw ps set p h :
  compile_globset_with_policy ps gw = Ok set -> p ∈ ps -> entry_plain p -> lower h ->
  covers (entry_pattern p) h -> is_match set h = true.
Proof.
  intros Ec Hp Hplain Hl Hcov. apply (compiled_matches gw ps set h Ec).
  apply (candidates_cover p h Hplain Hl) in Hcov as (c & g & ? & ? & ?).
  - by exists p, c, g.
  - intros c Hc. by eapply compiled_ok.
Qed.

(** A compiled list of plain entries matches exactly what they cover. *)
Lemma compiled_covers gw ps set h :
  compile_globset_with_policy ps gw = Ok set -> Forall entry_plain ps -> lower h ->
  is_match set h = true <-> exists p, p ∈ ps /\ covers (entry_pattern p) h.
Proof.
  intros Ec Hplain Hl. split; [|intros (p & Hp & Hcov); eapply compiled_entry_matches; try done; by eapply Forall_forall in Hplain].
  rewrite (compiled_matches gw ps set h Ec). intros (p & c & g & Hp & Hc & Hg & Hm). exists p. split; [done|].
  apply candidates_cover; [by eapply Forall_forall in Hplain|done| |by exists c, g].
  intros c' Hc'. by eapply compiled_ok.
Qed.
End compiled.

(** ** Managed patterns *)

(** A pattern with its domain normalised. *)
Definition normalized (p : DomainPattern) : DomainPattern :=
  match p with
  | Exact d => Exact (normalize_domain d)
  | SubdomainsOnly d => SubdomainsOnly (normalize_domain d)
  | ApexAndSubdomains d => ApexAndSubdomains (normalize_domain d)
  end.

Lemma is_subdomain_or_equal_spec c p :
  is_subdomain_or_equal c p = true
  <-> normalize_domain c = normalize_domain p
      \/ exists l, normalize_domain c = l ++ c_dot :: normalize_domain p.
Proof.
  unfold is_subdomain_or_equal, ends_with. rewrite orb_true_iff, str_eqb_true.
  destruct (strip_suffix _ _) as [l|] eqn:E.
  - apply strip_suffix_Some in E. split; [by right; exists l|by auto].
  - split; [by intros [?|?]; [left|]|]. intros [?|[l Hl]]; [by left|].
    by rewrite (proj2 (strip_suffix_Some _ _ l)) in E.
Qed.

Lemma is_strict_subdomain_spec c p :
  is_strict_subdomain c p = true <-> exists l, normalize_domain c = l ++ c_dot :: normalize_domain p.
Proof.
  unfold is_strict_subdomain, ends_with, str_eqb. rewrite andb_true_iff, negb_true_iff, bool_decide_eq_false.
  split.
  - intros [_ H]. destruct (strip_suffix _ _) as [l|] eqn:E; [|done]. exists l. by apply strip_suffix_Some.
  - intros [l Hl]. rewrite (proj2 (strip_suffix_Some _ _ l) Hl). split; [|done].
    intros Heq. rewrite Heq in Hl. apply (f_equal length) in Hl. rewrite length_app in Hl. cbn in Hl. lia.
Qed.

(** A label of a host is not empty: its domain does not start with a dot. *)
Definition no_leading_dot (p : DomainPattern) : Prop :=
  forall r, normalize_domain (domain_of p) <> c_dot :: r.

Lemma subdomain_trans (l l' d : rstr) :
  l <> [] -> exists k, k <> [] /\ l ++ c_dot :: l' ++ c_dot :: d = k ++ c_dot :: d.
Proof.
  intros Hl. exists (l ++ c_dot :: l'). split; [|by rewrite <- app_assoc].
  by destruct l.
Qed.

(** A managed pattern covers every host that a pattern it allows covers. *)
Lemma pattern_allows_covers m c h :
  pattern_allows m c = true -> no_leading_dot c -> covers (normalized c) h -> covers (normalized m) h.
Proof.
  unfold no_leading_dot.
  assert (Hlabel : forall d e l, (forall r, normalize_domain e <> c_dot :: r) ->
            normalize_domain e = l ++ c_dot :: normalize_domain d -> l <> []).
  { intros d e l Hn He ->. by destruct (Hn (normalize_domain d)). }
  assert (Hequal : forall d e, (forall r, normalize_domain e <> c_dot :: r) ->
            is_subdomain_or_equal e d = true ->
            normalize_domain e = normalize_domain d
            \/ exists l, l <> [] /\ normalize_domain e = l ++ c_dot :: normalize_domain d).
  { intros d e Hn [He|[l Hl]]%is_subdomain_or_equal_spec; [by left|right]. exists l. split; [by eapply Hlabel|done]. }
  destruct m as [d|d|d], c as [e|e|e]; cbn [pattern_allows domain_of normalized covers]; intros Ha Hn Hc; try done.
  - destruct (Hequal d e Hn Ha) as [He|(l & Hl & He)]; rewrite He in Hc; [done|right].
    destruct Hc as [->|(k & Hk & ->)]; [by exists l|]. by apply subdomain_trans.
  - destruct (Hequal d e Hn Ha) as [He|(l & Hl & He)]; rewrite He in Hc; [by right|right].
    destruct Hc as (k & Hk & ->). by apply subdomain_trans.
  - destruct (Hequal d e Hn Ha) as [He|(l & Hl & He)]; rewrite He in Hc; [by left|right]. subst h. by exists l.
  - apply is_strict_subdomain_spec in Ha as [l Hl]. pose proof (Hlabel d e l Hn Hl). rewrite Hl in Hc.
    destruct Hc as [->|(k & Hk & ->)]; [by exists l|]. by apply subdomain_trans.
  - destruct (Hequal d e Hn Ha) as [He|(l & Hl & He)]; rewrite He in Hc; [done|].
    destruct Hc as (k & Hk & ->). by apply subdomain_trans.
  - apply is_strict_subdomain_spec in Ha as [l Hl]. pose proof (Hlabel d e l Hn Hl). subst h. by exists l.
  - unfold domain_eq in Ha. apply str_eqb_true in Ha. congruence.
Qed.

(** ** Ordinary names *)

(** Letters, digits, hyphens and inner dots, and not an address. *)
Definition name_char (c : N) : bool :=
  ((97 <=? c) && (c <=? 122) || (48 <=? c) && (c <=? 57) || (c =? 45) || (c =? c_dot))%N.

Definition dns_name (d : rstr) : Prop :=
  d <> [] /\ Forall (fun c => name_char c = true) d /\ head d <> Some c_dot /\ last d <> Some c_dot
  /\ parse_ip d = None.

#[export] Instance dns_name_dec d : Decision (dns_name d).
Proof. apply _. Defined.

Lemma name_char_spec c :
  name_char c = true ->
  is_whitespace c = false /\ ~ (65 <= c <= 90)%N
  /\ c <> 91%N /\ c <> c_colon /\ c <> c_percent /\ c <> c_star
  /\ c ∉ [c_star; c_question; 91; 93; 123; 125; c_backslash]%N.
Proof.
  unfold name_char, c_dot. rewrite !orb_true_iff, !andb_true_iff, !N.leb_le, !N.eqb_eq. intros H.
  assert (Hc : (c = 45 \/ c = 46 \/ 48 <= c <= 57 \/ 97 <= c <= 122)%N) by lia. clear H.
  unfold c_colon, c_percent, c_star, c_question, c_backslash. repeat split.
  - unfold is_whitespace. repeat (rewrite orb_false_iff); repeat split;
      rewrite ?andb_false_iff, ?N.leb_gt, ?N.eqb_neq; lia.
  - lia.
  - lia.
  - lia.
  - lia.
  - lia.
  - rewrite !elem_of_cons, elem_of_nil. lia.
Qed.

Lemma drop_while_head {A} (p : A -> bool) l : (forall c, head l = Some c -> p c = false) -> drop_while p l = l.
Proof. destruct l as [|c l]; [done|]. intros H. cbn. by rewrite (H c eq_refl). Qed.

Lemma drop_while_end_last {A} (p : A -> bool) l :
  (forall c, last l = Some c -> p c = false) -> drop_while_end p l = l.
Proof.
  intros H. unfold drop_while_end. rewrite drop_while_head; [by rewrite reverse_involutive|].
  intros c Hc. apply H. by rewrite <- head_reverse.
Qed.

Lemma trim_no_space s : (forall c, c ∈ s -> is_whitespace c = false) -> trim s = s.
Proof.
  intros H. unfold trim, trim_start, trim_end. rewrite drop_while_head.
  - apply drop_while_end_last. intros c Hc%last_Some_elem_of. by apply H.
  - intros c Hc%head_Some_elem_of. by apply H.
Qed.

Lemma trim_char (x : N) (s : rstr) : is_whitespace x = false -> x ∈ s -> x ∈ trim s.
Proof.
  intros Hx Hin.
  assert (Hd : forall l : rstr, x ∈ l -> x ∈ drop_while is_whitespace l).
  { induction l as [|y l IH]; cbn; [done|]. rewrite elem_of_cons.
    intros [<-|Hl]; [rewrite Hx; left|]. destruct (is_whitespace y); [by apply IH|by right]. }
  unfold trim, trim_end, trim_start, drop_while_end. rewrite elem_of_reverse. apply Hd.
  rewrite elem_of_reverse. by apply Hd.
Qed.

Lemma trim_idemp s : trim (trim s) = trim s.
Proof.
  unfold trim at 1. rewrite <- (trim_end_idemp (trim_start s)) at 2. f_equal.
  unfold trim_start at 1. apply drop_while_head. intros c Hc. unfold trim in Hc.
  assert (Ht : drop_while is_whitespace (trim_start s) = trim_start s) by apply drop_while_idemp.
  destruct (drop_while_end_prefix is_whitespace (trim_start s)) as (w & Hw & _).
  fold (trim_end (trim_start s)) in Hw. destruct (trim_start s) as [|x t]; [done|].
  destruct (trim_end (x :: t)) as [|y u]; [done|]. injection Hc as ->. injection Hw as -> _.
  cbn in Ht. destruct (is_whitespace c) eqn:E; [|done].
  destruct (drop_while_suffix is_whitespace t) as [l Hl]. rewrite Ht in Hl.
  apply (f_equal length) in Hl. rewrite length_app in Hl. cbn in Hl. lia.
Qed.

Section dns_names.
Context (d : rstr) (Hd : dns_name d).

Lemma dns_char c : c ∈ d -> name_char c = true.
Proof. destruct Hd as (_ & H & _). exact (proj1 (Forall_forall _ _) H c). Qed.

Lemma dns_trim : trim d = d.
Proof. apply trim_no_space. intros c Hc%dns_char%name_char_spec. tauto. Qed.

Lemma dns_trim_dots : trim_end_matches c_dot d = d.
Proof.
  destruct Hd as (_ & _ & _ & Hl & _). apply drop_while_end_last. intros c Hc.
  apply N.eqb_neq. intros <-. done.
Qed.

Lemma dns_lower : lower d.
Proof. apply lower_iff. intros c Hc%dns_char%name_char_spec. tauto. Qed.

Lemma dns_plain : glob_plain d.
Proof. apply Forall_forall. intros c Hc%dns_char%name_char_spec. tauto. Qed.

Lemma dns_normalize_domain : normalize_domain d = d.
Proof. unfold normalize_domain. rewrite dns_trim_dots. apply dns_lower. Qed.

Lemma dns_no_ip_literal : normalize_ip_literal d = None.
Proof.
  unfold normalize_ip_literal. destruct Hd as (_ & _ & _ & _ & ->). cbn [is_some].
  assert (Hs : forall r, scoped_with (c_percent :: r) d = None).
  { intros r. unfold scoped_with. destruct (split_once_str _ d) as [[a b]|] eqn:E; [|done].
    apply split_once_str_Some in E. exfalso.
    assert (Hp : c_percent ∈ d) by (rewrite E; apply elem_of_app; right; left).
    apply dns_char, name_char_spec in Hp. tauto. }
  cbn [find_map]. change (lit "%25") with (c_percent :: lit "25"). change (lit "%") with (c_percent :: []).
  by rewrite !Hs.
Qed.

Lemma dns_no_char c : name_char c = false -> count_char c d = 0.
Proof.
  intros Hc. unfold count_char. destruct (filter (eq c) d) as [|x l] eqn:E; [done|]. exfalso.
  assert (Hx : x ∈ filter (eq c) d) by (rewrite E; left).
  apply list_elem_of_filter in Hx as [<- Hx%dns_char]. congruence.
Qed.

(** Ordinary names are left alone by every normalisation. *)
Lemma dns_normalize_host : normalize_host d = d.
Proof.
  unfold normalize_host. rewrite dns_trim. rewrite (dns_no_char c_colon) by done. cbn [Nat.eqb].
  assert (Hb : bracketed d = None).
  { pose proof dns_char as Hc. unfold bracketed. destruct d as [|c r]; [done|].
    destruct (N.eqb_spec c 91) as [->|]; [|done].
    assert (H : name_char 91 = true) by (apply Hc; left). done. }
  rewrite Hb. unfold normalize_dns_host_or_ip_literal.
  pose proof dns_lower as Hl. unfold lower in Hl. rewrite Hl, dns_trim_dots, dns_no_ip_literal. done.
Qed.
End dns_names.

(** An entry that is an ordinary name, alone or under a wildcard. *)
Inductive regular : rstr -> DomainPattern -> Prop :=
| regular_exact d : dns_name d -> regular d (Exact d)
| regular_subdomains d : dns_name d -> regular (lit "*." ++ d) (SubdomainsOnly d)
| regular_apex d : dns_name d -> regular (lit "**." ++ d) (ApexAndSubdomains d).

(** How a regular entry is compiled and compared. *)
Record regular_facts (url_host : rstr -> option rstr) (e : rstr) (p : DomainPattern) : Prop := {
  regular_entry : entry_pattern e = p;
  regular_constraint : parse_for_constraints url_host e = p;
  regular_plain : entry_plain e;
  regular_normalized : normalized p = p;
  regular_leading : no_leading_dot p
}.

Lemma lit_wildcard : lit "*." = [c_star; c_dot] /\ lit "**." = [c_star; c_star; c_dot].
Proof. done. Qed.

Lemma trim_wildcard w d :
  dns_name d -> (forall c, c ∈ w -> c = c_star \/ c = c_dot) -> trim (w ++ d) = w ++ d.
Proof.
  intros Hd Hw. apply trim_no_space. intros c. rewrite elem_of_app.
  intros [[-> | ->]%Hw|Hc%(dns_char d Hd)%name_char_spec]; [done|done|tauto].
Qed.

Lemma wildcard_chars c : (c ∈ lit "*." \/ c ∈ lit "**.") -> c = c_star \/ c = c_dot.
Proof.
  destruct lit_wildcard as [-> ->]. rewrite !elem_of_cons, !elem_of_nil. tauto.
Qed.

Section regular_names.
Context (d : rstr) (Hd : dns_name d).

Lemma dns_no_wildcard r : strip_prefix (c_star :: r) d = None.
Proof.
  pose proof (dns_char d Hd) as Hc. destruct d as [|c t]; [done|]. apply strip_prefix_head_ne.
  intros <-. assert (H : name_char c_star = true) by (apply Hc; left). done.
Qed.

Lemma dns_no_wildcards : strip_prefix (lit "*.") d = None /\ strip_prefix (lit "**.") d = None.
Proof. destruct lit_wildcard as [-> ->]. split; apply dns_no_wildcard. Qed.

Lemma dns_not_star : (d == lit "*")%rust = false.
Proof.
  apply bool_decide_eq_false. intros E. pose proof (dns_no_wildcard []) as H. rewrite E in H. done.
Qed.

Lemma dns_not_empty : is_empty d = false.
Proof. destruct Hd as (Hne & _). by destruct d. Qed.

Lemma dns_parse_domain build : parse_domain d build = build d.
Proof. unfold parse_domain. by rewrite (dns_trim d Hd), dns_not_empty. Qed.

Lemma dns_parse_domain_for_constraints url_host :
  url_host d = Some d -> parse_domain_for_constraints url_host d = d.
Proof.
  intros Hu. unfold parse_domain_for_constraints.
  rewrite (dns_trim d Hd), (dns_trim_dots d Hd), dns_not_empty.
  assert (Hn : forall x, name_char x = false -> contains_char x d = false).
  { intros x Hx. apply contains_char_false. intros Hin%(dns_char d Hd). congruence. }
  replace (starts_with (lit "[") d) with false.
  - cbn [andb]. rewrite !Hn by done. cbn [orb]. by rewrite Hu.
  - pose proof (dns_char d Hd) as Hc. unfold starts_with. change (lit "[") with [91%N].
    destruct d as [|c t]; [done|]. rewrite strip_prefix_head_ne; [done|].
    intros <-. assert (H : name_char 91 = true) by (apply Hc; left). done.
Qed.

Lemma dns_leading r : normalize_domain d <> c_dot :: r.
Proof.
  rewrite (dns_normalize_domain d Hd). intros E. destruct Hd as (_ & _ & Hh & _). by rewrite E in Hh.
Qed.
End regular_names.

Lemma wildcard_not_star (w d : rstr) : 1 < length w -> (w ++ d == lit "*")%rust = false.
Proof.
  intros Hw. apply bool_decide_eq_false. intros E%(f_equal length). rewrite length_app in E.
  change (length (lit "*")) with 1 in E. lia.
Qed.

(** An entry under a wildcard, for its prefix and the pattern it builds. *)
Lemma wildcard_entry w d build :
  dns_name d -> (w = lit "*." /\ build = SubdomainsOnly \/ w = lit "**." /\ build = ApexAndSubdomains) ->
  entry_pattern (w ++ d) = build d
  /\ forall url_host, url_host d = Some d -> parse_for_constraints url_host (w ++ d) = build d.
Proof.
  intros Hd Hw.
  assert (Ht : trim (w ++ d) = w ++ d).
  { apply trim_wildcard; [done|]. intros c Hc. apply wildcard_chars.
    destruct Hw as [[-> _]|[-> _]]; auto. }
  assert (Hn : normalize_pattern (w ++ d) = w ++ d).
  { unfold normalize_pattern. rewrite Ht, wildcard_not_star by (apply Nat.ltb_lt; by destruct Hw as [[-> _]|[-> _]]).
    destruct Hw as [[-> _]|[-> _]].
    - replace (strip_prefix (lit "**.") (lit "*." ++ d)) with (@None rstr) by done.
      by rewrite strip_prefix_app, (dns_normalize_host d Hd).
    - by rewrite strip_prefix_app, (dns_normalize_host d Hd). }
  unfold entry_pattern, domain_pattern_parse, parse_for_constraints. rewrite Hn, Ht.
  replace (is_empty (w ++ d)) with false by (by destruct Hw as [[-> _]|[-> _]]).
  destruct Hw as [[-> ->]|[-> ->]].
  - replace (strip_prefix (lit "**.") (lit "*." ++ d)) with (@None rstr) by done.
    rewrite strip_prefix_app. split; [by apply dns_parse_domain|].
    intros url_host Hu. by rewrite (dns_parse_domain_for_constraints d Hd url_host Hu).
  - rewrite strip_prefix_app. split; [by apply dns_parse_domain|].
    intros url_host Hu. by rewrite (dns_parse_domain_for_constraints d Hd url_host Hu).
Qed.

Lemma exact_entry d :
  dns_name d ->
  entry_pattern d = Exact d
  /\ forall url_host, url_host d = Some d -> parse_for_constraints url_host d = Exact d.
Proof.
  intros Hd. destruct (dns_no_wildcards d Hd) as [H1 H2].
  assert (Hn : normalize_pattern d = d).
  { unfold normalize_pattern. rewrite (dns_trim d Hd), (dns_not_star d Hd), H1, H2. cbn [is_empty].
    by apply dns_normalize_host. }
  unfold entry_pattern, domain_pattern_parse, parse_for_constraints. rewrite Hn, (dns_trim d Hd), (dns_not_empty d Hd), H1, H2.
  split; [done|]. intros url_host Hu. by rewrite (dns_parse_domain_for_constraints d Hd url_host Hu).
Qed.

Lemma regular_ok (url_host : rstr -> option rstr) e p :
  regular e p -> url_host (domain_of p) = Some (domain_of p) -> regular_facts url_host e p.
Proof.
  intros Hr Hu. assert (Hd : dns_name (domain_of p)) by (by destruct Hr).
  assert (He : entry_pattern e = p /\ parse_for_constraints url_host e = p).
  { destruct Hr as [d _|d _|d _]; cbn in Hd, Hu.
    - destruct (exact_entry d Hd) as [? H]. auto.
    - destruct (wildcard_entry (lit "*.") d SubdomainsOnly Hd) as [? H]; auto.
    - destruct (wildcard_entry (lit "**.") d ApexAndSubdomains Hd) as [? H]; auto. }
  destruct He as [He Hc]. split; [done|done| | |].
  - unfold entry_plain. rewrite He. by apply dns_plain.
  - destruct p; cbn in *; by rewrite dns_normalize_domain.
  - intros r. by apply dns_leading.
Qed.
