(* ===== verification/NetConfig.v ===== *)
(** * NetConfig: the configuration of the network proxy

    [codex-rs/network-proxy/src/config.rs]: domain and socket entries, modes and
    the addresses to listen on; [state.rs]: the constraints of an administrator,
    the validation against them and the state built from a configuration.

    The URL parser, the texts of [Debug], the hooks of intercepted requests
    ([mitm_hook.rs]) and the state of the interception are arguments.  The
    [BTreeMap] of sockets is the list of its entries in the order of its keys. *)

From Stdlib Require Import Lia.
From stdpp Require Import base list strings gmap sorting.
From S2P Require Import Prelude AbsolutePath NetAddr NetHost.

(** ** Domain entries *)

Inductive NetworkDomainPermission := PermNone | PermAllow | PermDeny.

#[export] Instance permission_eq_dec : EqDecision NetworkDomainPermission.
Proof. solve_decision. Defined.

(** The derived order of the variants. *)
Definition permission_rank (p : NetworkDomainPermission) : nat :=
  match p with PermNone => 0 | PermAllow => 1 | PermDeny => 2 end.

Record NetworkDomainPermissionEntry := mkDomainEntry {
  pattern : rstr;
  permission : NetworkDomainPermission
}.

#[export] Instance domain_entry_eq_dec : EqDecision NetworkDomainPermissionEntry.
Proof. solve_decision. Defined.

(** [NetworkDomainPermissions], its entries *)
Abbreviation NetworkDomainPermissions := (list NetworkDomainPermissionEntry) (only parsing).

Fixpoint effective_loop (entries : NetworkDomainPermissions) (order : list rstr)
    (effective : gmap (list N) NetworkDomainPermission)
  : list rstr * gmap (list N) NetworkDomainPermission :=
  match entries with
  | [] => (order, effective)
  | e :: rest =>
      match effective !! pattern e with
      | None => effective_loop rest (order ++ [pattern e]) (<[pattern e := permission e]> effective)
      | Some p =>
          effective_loop rest order
            (if permission_rank p <? permission_rank (permission e)
             then <[pattern e := permission e]> effective else effective)
      end
  end.

Fixpoint take_entries (order : list rstr) (effective : gmap (list N) NetworkDomainPermission)
  : NetworkDomainPermissions :=
  match order with
  | [] => []
  | p :: rest =>
      match effective !! p with
      | Some perm => mkDomainEntry p perm :: take_entries rest (delete p effective)
      | None => take_entries rest effective
      end
  end.

Definition effective_entries (entries : NetworkDomainPermissions) : NetworkDomainPermissions :=
  let '(order, effective) := effective_loop entries [] ∅ in take_entries order effective.

(** ** Sockets *)

Inductive NetworkUnixSocketPermission := SocketAllow | SocketDeny.

#[export] Instance socket_permission_eq_dec : EqDecision NetworkUnixSocketPermission.
Proof. solve_decision. Defined.

(** The order of strings: UTF-8 keeps the order of code points. *)
Fixpoint str_ltb (a b : rstr) : bool :=
  match a, b with
  | _, [] => false
  | [], _ :: _ => true
  | x :: a, y :: b => (x <? y)%N || (x =? y)%N && str_ltb a b
  end.

Abbreviation NetworkUnixSocketPermissions := (list (rstr * NetworkUnixSocketPermission)) (only parsing).

(** [BTreeMap::insert] *)
Fixpoint btree_insert (k : rstr) (v : NetworkUnixSocketPermission) (m : NetworkUnixSocketPermissions)
  : NetworkUnixSocketPermissions :=
  match m with
  | [] => [(k, v)]
  | (k', v') :: rest =>
      if bool_decide (k = k') then (k, v) :: rest
      else if str_ltb k k' then (k, v) :: m
      else (k', v') :: btree_insert k v rest
  end.

(** ** Modes *)

Inductive NetworkMode := Limited | Full.

#[export] Instance network_mode_eq_dec : EqDecision NetworkMode.
Proof. solve_decision. Defined.

Definition allows_method (mode : NetworkMode) (method : rstr) : bool :=
  match mode with
  | Full => true
  | Limited => bool_decide (method ∈ [lit "GET"; lit "HEAD"; lit "OPTIONS"])
  end.

Definition network_mode_rank (mode : NetworkMode) : nat :=
  match mode with Limited => 0 | Full => 1 end.

(** ** The configuration *)

Record NetworkProxyConfig {HookConfig : Type} := mkConfig {
  enabled : bool;
  proxy_url : rstr;
  enable_socks5 : bool;
  socks_url : rstr;
  enable_socks5_udp : bool;
  allow_upstream_proxy : bool;
  dangerously_allow_non_loopback_proxy : bool;
  dangerously_allow_all_unix_sockets : bool;
  mode : NetworkMode;
  domains : option NetworkDomainPermissions;
  unix_sockets : option NetworkUnixSocketPermissions;
  allow_local_binding : bool;
  mitm : bool;
  credential_broker : bool;
  credential_broker_openai_host : option rstr;
  dangerously_allow_plaintext_credential_injection : bool;
  mitm_hooks : list HookConfig
}.
Arguments NetworkProxyConfig : clear implicits.
Arguments mkConfig {HookConfig}.

Section config.
Context {HookConfig : Type}.
#[local] Abbreviation Config := (NetworkProxyConfig HookConfig).

Definition default_proxy_url : rstr := lit "http://127.0.0.1:3128".
Definition default_socks_url : rstr := lit "http://127.0.0.1:8081".

Definition default_config : Config :=
  mkConfig false default_proxy_url true default_socks_url true true false false Full None None
    false false false None false [].

Definition with_domains (c : Config) (d : option NetworkDomainPermissions) : Config :=
  mkConfig (enabled c) (proxy_url c) (enable_socks5 c) (socks_url c) (enable_socks5_udp c)
    (allow_upstream_proxy c) (dangerously_allow_non_loopback_proxy c)
    (dangerously_allow_all_unix_sockets c) (mode c) d (unix_sockets c) (allow_local_binding c)
    (mitm c) (credential_broker c) (credential_broker_openai_host c)
    (dangerously_allow_plaintext_credential_injection c) (mitm_hooks c).

Definition with_unix_sockets (c : Config) (s : option NetworkUnixSocketPermissions) : Config :=
  mkConfig (enabled c) (proxy_url c) (enable_socks5 c) (socks_url c) (enable_socks5_udp c)
    (allow_upstream_proxy c) (dangerously_allow_non_loopback_proxy c)
    (dangerously_allow_all_unix_sockets c) (mode c) (domains c) s (allow_local_binding c)
    (mitm c) (credential_broker c) (credential_broker_openai_host c)
    (dangerously_allow_plaintext_credential_injection c) (mitm_hooks c).

Definition with_mode (c : Config) (m : NetworkMode) : Config :=
  mkConfig (enabled c) (proxy_url c) (enable_socks5 c) (socks_url c) (enable_socks5_udp c)
    (allow_upstream_proxy c) (dangerously_allow_non_loopback_proxy c)
    (dangerously_allow_all_unix_sockets c) m (domains c) (unix_sockets c) (allow_local_binding c)
    (mitm c) (credential_broker c) (credential_broker_openai_host c)
    (dangerously_allow_plaintext_credential_injection c) (mitm_hooks c).

Definition with_enabled_and_broker (c : Config) (e b i : bool) : Config :=
  mkConfig e (proxy_url c) (enable_socks5 c) (socks_url c) (enable_socks5_udp c)
    (allow_upstream_proxy c) (dangerously_allow_non_loopback_proxy c)
    (dangerously_allow_all_unix_sockets c) (mode c) (domains c) (unix_sockets c)
    (allow_local_binding c) i b (credential_broker_openai_host c)
    (dangerously_allow_plaintext_credential_injection c) (mitm_hooks c).

Definition set_credential_broker_enabled (c : Config) (on : bool) : Config :=
  with_enabled_and_broker c (enabled c) on (mitm c || on).

Definition domain_entries (c : Config) (p : NetworkDomainPermission) : option (list rstr) :=
  match domains c with
  | None => None
  | Some entries =>
      let l := pattern <$> filter (fun e => permission e = p) (effective_entries entries) in
      if is_empty l then None else Some l
  end.

Definition allowed_domains (c : Config) : option (list rstr) := domain_entries c PermAllow.
Definition denied_domains (c : Config) : option (list rstr) := domain_entries c PermDeny.

Definition allow_unix_sockets (c : Config) : list rstr :=
  match unix_sockets c with
  | None => []
  | Some entries => fst <$> filter (fun e => e.2 = SocketAllow) entries
  end.

(** [(!entries.is_empty()).then_some(entries)] *)
Definition some_unless_empty {A} (l : list A) : option (list A) := if is_empty l then None else Some l.

Fixpoint push_missing (p : NetworkDomainPermission) (entries : NetworkDomainPermissions) (new : list rstr)
  : NetworkDomainPermissions :=
  match new with
  | [] => entries
  | e :: rest =>
      if existsb (fun x => bool_decide (pattern x = e) && bool_decide (permission x = p)) entries
      then push_missing p entries rest
      else push_missing p (entries ++ [mkDomainEntry e p]) rest
  end.

Definition set_domain_entries (c : Config) (entries : list rstr) (p : NetworkDomainPermission) : Config :=
  let kept := filter (fun e => permission e <> p) (default [] (domains c)) in
  with_domains c (some_unless_empty (push_missing p kept entries)).

Definition set_allowed_domains (c : Config) (l : list rstr) : Config := set_domain_entries c l PermAllow.
Definition set_denied_domains (c : Config) (l : list rstr) : Config := set_domain_entries c l PermDeny.

Definition upsert_domain_permission (c : Config) (host : rstr) (p : NetworkDomainPermission)
    (normalize : rstr -> rstr) : Config :=
  let normalized_host := normalize host in
  let kept := filter (fun e => normalize (pattern e) <> normalized_host) (default [] (domains c)) in
  with_domains c (some_unless_empty (kept ++ [mkDomainEntry host p])).

Definition set_unix_socket_entries (c : Config) (entries : list rstr) (p : NetworkUnixSocketPermission)
  : Config :=
  let kept := filter (fun e => e.2 <> p) (default [] (unix_sockets c)) in
  with_unix_sockets c (some_unless_empty (foldl (fun m e => btree_insert e p m) kept entries)).

Definition set_allow_unix_sockets (c : Config) (l : list rstr) : Config :=
  set_unix_socket_entries c l SocketAllow.

(** ** The addresses to listen on *)

Record SocketAddr := mkSocketAddr { addr_ip : IpAddr; addr_port : N }.

Definition loopback_addr (port : N) : SocketAddr := mkSocketAddr (V4 (mkIpv4 127 0 0 1)) port.

Definition clamp_non_loopback (addr : SocketAddr) (allow_non_loopback : bool) : SocketAddr :=
  if is_loopback (addr_ip addr) then addr
  else if allow_non_loopback then addr
  else loopback_addr (addr_port addr).

Definition clamp_bind_addrs (http_addr socks_addr : SocketAddr) (c : Config) : SocketAddr * SocketAddr :=
  let http_addr := clamp_non_loopback http_addr (dangerously_allow_non_loopback_proxy c) in
  let socks_addr := clamp_non_loopback socks_addr (dangerously_allow_non_loopback_proxy c) in
  if is_empty (allow_unix_sockets c) && negb (dangerously_allow_all_unix_sockets c)
  then (http_addr, socks_addr)
  else (loopback_addr (addr_port http_addr), loopback_addr (addr_port socks_addr)).

Inductive ValidatedUnixSocketPath :=
| Native (path : AbsolutePathBuf)
| UnixStyleAbsolute (path : rstr).

Inductive SocketPathError := CannotNormalize (path : rstr) | ExpectedAbsolute (path : rstr).

Definition parse_unix_style (value : rstr) : option rstr :=
  if starts_with (lit "/") value then Some value else None.

(** [ValidatedUnixSocketPath::parse] *)
Definition parse_socket_path (env : path_env) (socket_path : rstr)
  : result SocketPathError ValidatedUnixSocketPath :=
  if is_absolute socket_path then
    Native <$> ok_or (from_absolute_path env socket_path) (CannotNormalize socket_path)
  else match parse_unix_style socket_path with
       | Some path => Ok (UnixStyleAbsolute path)
       | None => Err (ExpectedAbsolute socket_path)
       end.

Fixpoint validate_socket_paths (env : path_env) (index : nat) (paths : list rstr)
  : result (nat * SocketPathError) unit :=
  match paths with
  | [] => Ok tt
  | p :: rest =>
      match parse_socket_path env p with
      | Err e => Err (index, e)
      | Ok _ => validate_socket_paths env (S index) rest
      end
  end.

Definition validate_unix_socket_allowlist_paths (env : path_env) (c : Config)
  : result (nat * SocketPathError) unit :=
  validate_socket_paths env 0 (allow_unix_sockets c).

(** *** Host and port of a listener *)

Record SocketAddressParts := mkParts { part_host : rstr; part_port : N }.

(** [str::parse::<u16>] *)
Definition parse_u16 (s : rstr) : option N :=
  let digits := match s with c :: r => if (c =? 43)%N then r else s | [] => s end in
  if is_empty digits || negb (forallb is_ascii_digit digits) then None
  else let n := digits_value 10 (fmap (fun c => (c - 48)%N) digits) in if (n <? 65536)%N then Some n else None.

Definition parse_host_port_fallback (input : rstr) (default_port : N) : option SocketAddressParts :=
  let without_scheme := match split_once_str (lit "://") input with Some (_, r) => r | None => input end in
  let host_port := default without_scheme (head (split_on 47 without_scheme)) in
  let host_port := match rsplit_once 64 host_port with Some (_, r) => r | None => host_port end in
  match host_port with
  | c :: r =>
      match (if (c =? 91)%N then split_once 93 r else None) with
      | Some (host, after) =>
          let port := default default_port (port ← strip_prefix (lit ":") after; parse_u16 port) in
          if is_empty host then None else Some (mkParts host port)
      | None =>
          match (if count_char c_colon host_port =? 1 then rsplit_once c_colon host_port else None) with
          | Some (host, port) =>
              if is_empty host then None else Some (mkParts host (default default_port (parse_u16 port)))
          | None => Some (mkParts host_port default_port)
          end
      end
  | [] => None
  end.

Section urls.
(** [Url::parse]: the host and the port of a URL, if it has them. *)
Context (url_parse : rstr -> option (option rstr * option N)).

Definition is_bracket (c : N) : bool := ((c =? 91) || (c =? 93))%N.

Definition parse_host_port (url : rstr) (default_port : N) : option SocketAddressParts :=
  let trimmed := trim url in
  if is_empty trimmed then None
  else if match parse_ip trimmed with Some (V6 _) => true | _ => false end
          && negb (starts_with (lit "[") trimmed)
  then Some (mkParts trimmed default_port)
  else
    let candidate := if contains_str (lit "://") trimmed then trimmed else lit "http://" ++ trimmed in
    match url_parse candidate with
    | Some (Some host, port) =>
        let host := drop_while_end is_bracket (drop_while is_bracket host) in
        if is_empty host then None else Some (mkParts host (default default_port port))
    | _ => parse_host_port_fallback trimmed default_port
    end.

Definition resolve_addr (url : rstr) (default_port : N) : option SocketAddr :=
  parts ← parse_host_port url default_port;
  let host := if eq_ignore_ascii_case (part_host parts) (lit "localhost") then lit "127.0.0.1"
              else part_host parts in
  Some (match parse_ip host with
        | Some ip => mkSocketAddr ip (part_port parts)
        | None => loopback_addr (part_port parts)
        end).

Inductive RuntimeError :=
| InvalidSocketPath (index : nat) (e : SocketPathError)
| InvalidProxyUrl
| InvalidSocksUrl
| HttpPortNotFixed
| SocksPortNotFixed.

(** [RuntimeConfig]: the addresses of the HTTP and of the SOCKS listener. *)
Definition resolve_runtime (env : path_env) (c : Config) : result RuntimeError (SocketAddr * SocketAddr) :=
  _ ← map_err (fun e => InvalidSocketPath e.1 e.2) (validate_unix_socket_allowlist_paths env c);
  http_addr ← ok_or (resolve_addr (proxy_url c) 3128) InvalidProxyUrl;
  socks_addr ← ok_or (resolve_addr (socks_url c) 8081) InvalidSocksUrl;
  Ok (clamp_bind_addrs http_addr socks_addr c).

(** [sort_unstable] and [dedup] *)
Definition sort_dedup (ports : list N) : list N :=
  foldr (fun p acc => match acc with q :: _ => if (p =? q)%N then acc else p :: acc | [] => [p] end) []
    (merge_sort N.le ports).

Definition managed_proxy_ports (env : path_env) (c : Config) : result RuntimeError (list N) :=
  runtime ← resolve_runtime env c;
  if (addr_port runtime.1 =? 0)%N then Err HttpPortNotFixed
  else if enable_socks5 c && (addr_port runtime.2 =? 0)%N then Err SocksPortNotFixed
  else Ok (sort_dedup (addr_port runtime.1 :: if enable_socks5 c then [addr_port runtime.2] else [])).
End urls.
End config.

(** ** Constraints, [state.rs] *)

Record NetworkProxyConstraints := mkConstraints {
  max_enabled : option bool;
  max_mode : option NetworkMode;
  max_allow_upstream_proxy : option bool;
  max_allow_non_loopback_proxy : option bool;
  max_allow_all_unix_sockets : option bool;
  managed_allowed_domains : option (list rstr);
  allowlist_expansion_enabled : option bool;
  managed_denied_domains : option (list rstr);
  denylist_expansion_enabled : option bool;
  managed_allow_unix_sockets : option (list rstr);
  max_allow_local_binding : option bool
}.

#[export] Instance constraints_eq_dec : EqDecision NetworkProxyConstraints.
Proof. solve_decision. Defined.

Definition no_constraints : NetworkProxyConstraints :=
  mkConstraints None None None None None None None None None None None.

(** [NetworkProxyConstraintError::InvalidValue] *)
Record NetworkProxyConstraintError := InvalidValue {
  field_name : rstr;
  candidate : rstr;
  allowed : rstr
}.

Definition mode_debug (m : NetworkMode) : rstr :=
  match m with Limited => lit "Limited" | Full => lit "Full" end.

(** [HashSet] of the entries in lower case *)
Definition lowercase_set (l : list rstr) : gset (list N) := list_to_set (to_ascii_lowercase <$> l).

Definition disabled_by_managed : rstr := lit "false (disabled by managed config)".

Definition check_that (ok : bool) (e : NetworkProxyConstraintError) : result NetworkProxyConstraintError unit :=
  if ok then Ok tt else Err e.

(** A flag that may be set only if the constraint does not forbid it. *)
Definition validate_flag (name : rstr) (candidate : bool) (permitted : bool)
  : result NetworkProxyConstraintError unit :=
  check_that (negb (candidate && negb permitted)) (InvalidValue name (lit "true") disabled_by_managed).

Definition validate_non_global_wildcard_domain_patterns (name : rstr) (patterns : list rstr)
  : result NetworkProxyConstraintError unit :=
  match List.find is_global_wildcard_domain_pattern patterns with
  | Some pattern =>
      Err (InvalidValue name (trim pattern)
             (lit "exact hosts or scoped wildcards like *.example.com or **.example.com"))
  | None => Ok tt
  end.

Section constraints.
Context {HookConfig : Type}.
#[local] Abbreviation Config := (NetworkProxyConfig HookConfig).
(** [url::Host::parse], the [Debug] text of a list, [validate_mitm_hook_config] *)
Context (url_host : rstr -> option rstr) (debug_list : list rstr -> rstr)
  (validate_mitm_hook_config : Config -> result rstr unit).

Definition validate_allowed_domains (allowed_domains : list rstr) (expansion : option bool)
    (candidate denied : list rstr) : result NetworkProxyConstraintError unit :=
  let name := lit "network.allowed_domains" in
  let required_set := lowercase_set allowed_domains in
  let candidate_set := lowercase_set candidate in
  let overrides := lowercase_set denied in
  match expansion with
  | Some true =>
      let missing := elements (required_set ∖ candidate_set ∖ overrides) in
      check_that (is_empty missing)
        (InvalidValue name (lit "missing managed allowed_domains entries") (debug_list missing))
  | Some false =>
      check_that (bool_decide (candidate_set = required_set ∖ overrides))
        (InvalidValue name (debug_list candidate) (lit "must match managed allowed_domains"))
  | None =>
      let managed_patterns := parse_for_constraints url_host <$> allowed_domains in
      let invalid :=
        List.filter (fun entry =>
          negb (existsb (fun managed => pattern_allows managed (parse_for_constraints url_host entry))
                  managed_patterns)) candidate in
      check_that (is_empty invalid)
        (InvalidValue name (debug_list invalid) (lit "subset of managed allowed_domains"))
  end.

Definition validate_denied_domains (denied_domains : list rstr) (expansion : option bool)
    (candidate : list rstr) : result NetworkProxyConstraintError unit :=
  let name := lit "network.denied_domains" in
  let required_set := lowercase_set denied_domains in
  let candidate_set := lowercase_set candidate in
  match expansion with
  | Some false =>
      check_that (bool_decide (candidate_set = required_set))
        (InvalidValue name (debug_list candidate) (lit "must match managed denied_domains"))
  | Some true | None =>
      let missing := elements (required_set ∖ candidate_set) in
      check_that (is_empty missing)
        (InvalidValue name (lit "missing managed denied_domains entries") (debug_list missing))
  end.

Definition validate_unix_sockets (allow_unix_sockets candidate : list rstr)
  : result NetworkProxyConstraintError unit :=
  let allowed_set := lowercase_set allow_unix_sockets in
  let invalid := List.filter (fun entry => negb (bool_decide (to_ascii_lowercase entry ∈ allowed_set))) candidate in
  check_that (is_empty invalid)
    (InvalidValue (lit "network.allow_unix_sockets") (debug_list invalid)
       (lit "subset of managed allow_unix_sockets")).

Definition invalid_mitm_hook_configuration (err : rstr) : NetworkProxyConstraintError :=
  InvalidValue (lit "network.mitm_hooks") err (lit "valid MITM hook configuration").

Definition validate_policy_against_constraints (c : Config) (k : NetworkProxyConstraints)
  : result NetworkProxyConstraintError unit :=
  let config_allowed_domains := default [] (allowed_domains c) in
  let config_denied_domains := default [] (denied_domains c) in
  _ ← map_err invalid_mitm_hook_configuration (validate_mitm_hook_config c);
  _ ← validate_non_global_wildcard_domain_patterns (lit "network.denied_domains") config_denied_domains;
  _ ← match max_enabled k with
      | Some m => validate_flag (lit "network.enabled") (enabled c) m
      | None => Ok tt
      end;
  _ ← match max_mode k with
      | Some m =>
          check_that (network_mode_rank (mode c) <=? network_mode_rank m)
            (InvalidValue (lit "network.mode") (mode_debug (mode c))
               (mode_debug m ++ lit " or more restrictive"))
      | None => Ok tt
      end;
  _ ← validate_flag (lit "network.allow_upstream_proxy") (allow_upstream_proxy c)
        (default true (max_allow_upstream_proxy k));
  _ ← validate_flag (lit "network.dangerously_allow_non_loopback_proxy")
        (dangerously_allow_non_loopback_proxy c) (default true (max_allow_non_loopback_proxy k));
  _ ← validate_flag (lit "network.dangerously_allow_all_unix_sockets")
        (dangerously_allow_all_unix_sockets c)
        (default (negb (is_some (managed_allow_unix_sockets k))) (max_allow_all_unix_sockets k));
  _ ← match max_allow_local_binding k with
      | Some m => validate_flag (lit "network.allow_local_binding") (allow_local_binding c) m
      | None => Ok tt
      end;
  _ ← match managed_allowed_domains k with
      | Some managed =>
          _ ← validate_non_global_wildcard_domain_patterns (lit "network.allowed_domains") managed;
          validate_allowed_domains managed (allowlist_expansion_enabled k) config_allowed_domains
            config_denied_domains
      | None => Ok tt
      end;
  _ ← match managed_denied_domains k with
      | Some managed =>
          _ ← validate_non_global_wildcard_domain_patterns (lit "network.denied_domains") managed;
          validate_denied_domains managed (denylist_expansion_enabled k) config_denied_domains
      | None => Ok tt
      end;
  match managed_allow_unix_sockets k with
  | Some managed => validate_unix_sockets managed (allow_unix_sockets c)
  | None => Ok tt
  end.
End constraints.

(** ** Effective entries *)

(** The permission that a pattern ends up with: the strongest of its entries. *)
Definition strongest (entries : NetworkDomainPermissions) (p : rstr) (perm : NetworkDomainPermission) : Prop :=
  mkDomainEntry p perm ∈ entries
  /\ forall e, e ∈ entries -> pattern e = p -> permission_rank (permission e) <= permission_rank perm.

(** The loop has seen [seen] and knows the strongest permission of each pattern. *)
Record effective_inv (seen : NetworkDomainPermissions) (order : list rstr)
    (m : gmap (list N) NetworkDomainPermission) : Prop := {
  effective_order : NoDup order;
  effective_keys p : p ∈ order <-> is_Some (m !! p);
  effective_sound p perm : m !! p = Some perm -> strongest seen p perm;
  effective_complete e : e ∈ seen -> is_Some (m !! pattern e)
}.

Lemma strongest_snoc_other seen p perm e :
  pattern e <> p -> strongest seen p perm -> strongest (seen ++ [e]) p perm.
Proof.
  intros Hne [Hin Hmax]. split; [apply elem_of_app; by left|].
  intros x. rewrite elem_of_app, list_elem_of_singleton. intros [Hx| ->] Hp; [by apply Hmax|done].
Qed.

Lemma effective_step_inv seen order m e rest :
  effective_inv seen order m ->
  exists order' m', effective_loop (e :: rest) order m = effective_loop rest order' m'
                    /\ effective_inv (seen ++ [e]) order' m'.
Proof.
  intros [Ho Hk Hs Hc]. cbn [effective_loop]. destruct (m !! pattern e) as [p|] eqn:E.
  - eexists _, _. split; [reflexivity|].
    assert (Hnew : forall q, q <> permission e -> permission_rank q <= permission_rank (permission e) ->
              permission_rank q < permission_rank (permission e)).
    { intros q Hq Hle. destruct q, (permission e); cbn in *; try done; lia. }
    destruct (Nat.ltb_spec (permission_rank p) (permission_rank (permission e))) as [Hlt|Hge].
    + split; [done| | |].
      * intros q. rewrite Hk. destruct (decide (q = pattern e)) as [->|Hne];
          [rewrite lookup_insert_eq, E; by split|by rewrite lookup_insert_ne].
      * intros q perm. destruct (decide (q = pattern e)) as [->|Hne].
        -- rewrite lookup_insert_eq. intros [= <-]. split.
           ++ apply elem_of_app. right. apply list_elem_of_singleton. by destruct e.
           ++ intros x. rewrite elem_of_app, list_elem_of_singleton. intros [Hx| ->] Hp; [|done].
              destruct (Hs _ _ E) as [_ Hmax]. specialize (Hmax x Hx Hp). lia.
        -- rewrite lookup_insert_ne by done. intros Hq. apply strongest_snoc_other; [done|by apply Hs].
      * intros x. rewrite elem_of_app, list_elem_of_singleton. intros [Hx| ->].
        -- destruct (decide (pattern x = pattern e)) as [->|Hne]; [rewrite lookup_insert_eq; by eexists|].
           rewrite lookup_insert_ne by done. by apply Hc.
        -- rewrite lookup_insert_eq. by eexists.
    + split; [done|done| |].
      * intros q perm Hq. destruct (decide (pattern e = q)) as [<-|Hne]; [|by apply strongest_snoc_other, Hs].
        destruct (Hs _ _ Hq) as [Hin Hmax]. split; [apply elem_of_app; by left|].
        intros x. rewrite elem_of_app, list_elem_of_singleton. intros [Hx| ->] Hp; [by apply Hmax|congruence].
      * intros x. rewrite elem_of_app, list_elem_of_singleton. intros [Hx| ->]; [by apply Hc|by eexists].
  - eexists _, _. split; [reflexivity|].
    assert (Hnot : pattern e ∉ order) by (rewrite Hk, E; intros [? ?]; done).
    split.
    + rewrite NoDup_app. split; [done|]. split; [|apply NoDup_singleton].
      intros x Hx ->%list_elem_of_singleton. done.
    + intros q. rewrite elem_of_app, list_elem_of_singleton, Hk.
      destruct (decide (q = pattern e)) as [->|Hne].
      * rewrite lookup_insert_eq. split; [by eexists|by right].
      * rewrite lookup_insert_ne by done. split; [intros [?|?]; done|by left].
    + intros q perm. destruct (decide (q = pattern e)) as [->|Hne].
      * rewrite lookup_insert_eq. intros [= <-]. split.
        -- apply elem_of_app. right. apply list_elem_of_singleton. by destruct e.
        -- intros x. rewrite elem_of_app, list_elem_of_singleton. intros [Hx| ->] Hp; [|done].
           destruct (Hc x Hx) as [y Hy]. congruence.
      * rewrite lookup_insert_ne by done. intros Hq. apply strongest_snoc_other; [done|by apply Hs].
    + intros x. rewrite elem_of_app, list_elem_of_singleton. intros [Hx| ->].
      * destruct (decide (pattern x = pattern e)) as [->|Hne]; [rewrite lookup_insert_eq; by eexists|].
        rewrite lookup_insert_ne by done. by apply Hc.
      * rewrite lookup_insert_eq. by eexists.
Qed.

Lemma effective_loop_inv entries seen order m :
  effective_inv seen order m ->
  let '(order', m') := effective_loop entries order m in effective_inv (seen ++ entries) order' m'.
Proof.
  revert seen order m. induction entries as [|e rest IH]; intros seen order m Hi.
  - cbn. by rewrite app_nil_r.
  - destruct (effective_step_inv seen order m e rest Hi) as (order' & m' & -> & Hi').
    specialize (IH _ _ _ Hi'). by rewrite <- app_assoc in IH.
Qed.

Lemma take_entries_elem order m e :
  NoDup order -> e ∈ take_entries order m <-> pattern e ∈ order /\ m !! pattern e = Some (permission e).
Proof.
  revert m. induction order as [|p order IH]; intros m Hnd; cbn [take_entries].
  - rewrite !elem_of_nil. tauto.
  - apply NoDup_cons in Hnd as [Hp Hnd]. destruct (m !! p) as [perm|] eqn:E.
    + rewrite elem_of_cons, IH, elem_of_cons by done. split.
      * intros [->|[Hin Hl]]; cbn; [by split; [left|]|]. split; [by right|].
        rewrite lookup_delete_ne in Hl; [done|]. intros ->. done.
      * intros [[Hep|Hin] Hl].
        -- left. destruct e as [ep eperm]; cbn in *; subst. congruence.
        -- right. split; [done|]. rewrite lookup_delete_ne; [done|]. intros ->. done.
    + rewrite IH, elem_of_cons by done. split; [intros [? ?]; auto|].
      intros [[Hep|Hin] Hl]; [congruence|done].
Qed.

(** An effective entry is the strongest entry of its pattern. *)
Lemma effective_entries_spec entries e :
  e ∈ effective_entries entries <-> strongest entries (pattern e) (permission e).
Proof.
  unfold effective_entries.
  assert (Hi : effective_inv [] [] ∅).
  { split; [constructor| | |].
    - intros p. rewrite elem_of_nil, lookup_empty. split; [done|]. intros [? ?]. done.
    - intros p perm. by rewrite lookup_empty.
    - intros x Hx. by rewrite elem_of_nil in Hx. }
  pose proof (effective_loop_inv entries [] [] ∅ Hi) as H. cbn [app] in H.
  destruct (effective_loop entries [] ∅) as [order m]. destruct H as [Ho Hk Hs Hc].
  rewrite take_entries_elem by done. split.
  - intros [_ Hl]. by apply Hs.
  - intros [Hin Hmax]. specialize (Hc _ Hin). cbn in Hc. destruct Hc as [perm Hperm].
    split; [apply Hk; by eexists|]. destruct (Hs _ _ Hperm) as [Hin' Hmax'].
    specialize (Hmax' _ Hin eq_refl). specialize (Hmax _ Hin' eq_refl). cbn in *.
    rewrite Hperm. f_equal. destruct perm, (permission e); cbn in *; try done; lia.
Qed.

Section entries.
Context {HookConfig : Type}.
#[local] Abbreviation Config := (NetworkProxyConfig HookConfig).
Implicit Types c : Config.

Definition entries_of c : NetworkDomainPermissions := default [] (domains c).

Lemma domain_entries_elem c perm p :
  p ∈ default [] (domain_entries c perm) <-> strongest (entries_of c) p perm.
Proof.
  unfold domain_entries, entries_of. destruct (domains c) as [entries|]; cbn [default].
  - assert (Hl : p ∈ pattern <$> filter (fun e => permission e = perm) (effective_entries entries)
                 <-> strongest entries p perm).
    { rewrite list_elem_of_fmap. split.
      - intros (e & -> & He). apply list_elem_of_filter in He as [<- He]. by apply effective_entries_spec.
      - intros Hs. exists (mkDomainEntry p perm). split; [done|]. apply list_elem_of_filter.
        split; [done|]. by apply effective_entries_spec. }
    rewrite <- Hl. destruct (pattern <$> _) eqn:E; cbn [is_empty]; [|done]. by rewrite !elem_of_nil.
  - split; [intros H; by rewrite elem_of_nil in H|]. intros [Hin _]. by rewrite elem_of_nil in Hin.
Qed.

(** A pattern is denied when some entry denies it. *)
Lemma denied_domains_elem c p :
  p ∈ default [] (denied_domains c) <-> mkDomainEntry p PermDeny ∈ entries_of c.
Proof.
  unfold denied_domains. rewrite domain_entries_elem. split; [by intros [? _]|]. intros Hin. split; [done|].
  intros e _ _. destruct (permission e); cbn; lia.
Qed.

(** A pattern is allowed when some entry allows it and none denies it. *)
Lemma allowed_domains_elem c p :
  p ∈ default [] (allowed_domains c)
  <-> mkDomainEntry p PermAllow ∈ entries_of c /\ ~ mkDomainEntry p PermDeny ∈ entries_of c.
Proof.
  unfold allowed_domains. rewrite domain_entries_elem. split.
  - intros [Hin Hmax]. split; [done|]. intros Hd. specialize (Hmax _ Hd eq_refl). cbn in Hmax. lia.
  - intros [Hin Hd]. split; [done|]. intros [p' perm] He <-. destruct perm; cbn; try lia. done.
Qed.

Lemma allowed_none_iff c : allowed_domains c = None <-> default [] (allowed_domains c) = [].
Proof.
  unfold allowed_domains, domain_entries. destruct (domains c) as [entries|]; [|done].
  destruct (pattern <$> _); cbn; done.
Qed.

Lemma entries_with_domains c l : entries_of (with_domains c (some_unless_empty l)) = l.
Proof. unfold entries_of, some_unless_empty. cbn. by destruct l. Qed.

Lemma push_missing_elem perm entries new e :
  e ∈ push_missing perm entries new <-> e ∈ entries \/ permission e = perm /\ pattern e ∈ new.
Proof.
  revert entries. induction new as [|x new IH]; intros entries; cbn [push_missing].
  - rewrite elem_of_nil. tauto.
  - destruct (existsb _ entries) eqn:Ex.
    + rewrite IH, elem_of_cons. split; [intros [?|[? ?]]; auto|].
      intros [?|[Hp [Hx|?]]]; auto. left.
      apply existsb_exists in Ex as (y & Hy%list_elem_of_In & [H1 H2]%andb_true_iff).
      apply bool_decide_eq_true_1 in H1, H2. destruct e as [ep eperm], y as [yp yperm]; cbn in *; congruence.
    + rewrite IH, elem_of_app, list_elem_of_singleton, elem_of_cons. split.
      * intros [[?| ->]|[? ?]]; cbn; auto.
      * intros [?|[Hp [Hx|?]]]; auto. left. right. destruct e; cbn in *; congruence.
Qed.

(** Setting the entries of one permission leaves those of the others alone. *)
Lemma set_domain_entries_elem c new perm e :
  e ∈ entries_of (set_domain_entries c new perm)
  <-> (e ∈ entries_of c /\ permission e <> perm) \/ (permission e = perm /\ pattern e ∈ new).
Proof.
  unfold set_domain_entries. rewrite entries_with_domains, push_missing_elem, list_elem_of_filter.
  fold (entries_of c). tauto.
Qed.

(** An upserted host has one entry, up to normalisation. *)
Lemma upsert_elem c host perm normalize e :
  e ∈ entries_of (upsert_domain_permission c host perm normalize)
  <-> (e ∈ entries_of c /\ normalize (pattern e) <> normalize host) \/ e = mkDomainEntry host perm.
Proof.
  unfold upsert_domain_permission. rewrite entries_with_domains, elem_of_app, list_elem_of_filter,
    list_elem_of_singleton. fold (entries_of c). tauto.
Qed.

(** ** Listeners *)

(** The proxy listens on a loopback address unless the configuration asks for
    another one in so many words, and whenever it bridges to local sockets,
    whatever the configuration asks for. *)
Theorem listeners_stay_local url_parse env c http socks :
  resolve_runtime url_parse env c = Ok (http, socks) ->
  dangerously_allow_non_loopback_proxy c = false
  \/ allow_unix_sockets c <> [] \/ dangerously_allow_all_unix_sockets c = true ->
  is_loopback (addr_ip http) = true /\ is_loopback (addr_ip socks) = true.
Proof.
  unfold resolve_runtime. destruct (validate_unix_socket_allowlist_paths env c) as [[]|[i e]]; [|done].
  cbn [map_err mbind result_bind]. destruct (resolve_addr url_parse (proxy_url c) 3128) as [h|]; [|done].
  cbn [ok_or mbind result_bind]. destruct (resolve_addr url_parse (socks_url c) 8081) as [s|]; [|done].
  cbn [ok_or mbind result_bind]. intros [= Hc] Hwhy. unfold clamp_bind_addrs in Hc.
  assert (Hclamp : forall a, is_loopback (addr_ip (clamp_non_loopback a false)) = true).
  { intros a. unfold clamp_non_loopback. by destruct (is_loopback (addr_ip a)) eqn:E. }
  destruct (is_empty (allow_unix_sockets c) && negb (dangerously_allow_all_unix_sockets c)) eqn:E;
    [|by injection Hc as <- <-].
  apply andb_true_iff in E as [E1 E2%negb_true_iff].
  destruct Hwhy as [Hd|[Hne|Hall]]; [|by destruct (allow_unix_sockets c)|congruence].
  rewrite Hd in Hc. by injection Hc as <- <-.
Qed.
End entries.
