(* ===== verification/NetRuntime.v ===== *)
(** * NetRuntime: the decisions of the network proxy

    [codex-rs/network-proxy/src/state.rs] ([build_config_state]), [runtime.rs]
    (the decision on a host, the updates of the lists, the log of refused
    requests), [network_policy.rs] (the decision with the user's answer and its
    audit event) and [connect_policy.rs] (the check when a connection is made).

    [ProxyWorld] collects what is not modelled: globs, the URL parser, the texts
    of [Debug], the interception of requests and the environment of paths.  An
    operation takes the answer of the configuration reloader at its call, and a
    lookup takes the answer of the name server ([None] for an error or a
    timeout).  What an operation does under one lock is one definition, so that
    the interleavings of several tasks can be stated. *)

From Stdlib Require Import Lia.
From stdpp Require Import base list strings gmap.
From S2P Require Import Prelude AbsolutePath NetAddr NetHost NetConfig.

Class ProxyWorld := {
  HookConfig : Type;
  Hooks : Type;
  MitmState : Type;
  HookConfig_eq :: EqDecision HookConfig;
  world_globs :: Globs;
  url_host : rstr -> option rstr;
  debug_list : list rstr -> rstr;
  validate_mitm_hook_config : NetworkProxyConfig HookConfig -> result rstr unit;
  compile_mitm_hooks : NetworkProxyConfig HookConfig -> result rstr Hooks;
  mitm_state_new : bool -> result rstr MitmState;
  world_paths : path_env
}.

Inductive BuildError :=
| SocketPathInvalid (index : nat) (e : SocketPathError)
| BrokerRequiresMitm
| ConstraintError (e : NetworkProxyConstraintError)
| CannotCompile (e : CompileError)
| HooksInvalid (e : rstr)
| MitmFailed (e : rstr).

Inductive ProxyError :=
| ReloadFailed (e : rstr)
| InvalidNetworkHost
| Constrained (field : rstr) (e : NetworkProxyConstraintError)
| UpdateNotCompiled (list_name : rstr) (e : BuildError).

Record BlockedRequest := mkBlocked {
  blocked_host : rstr;
  blocked_reason : rstr;
  blocked_client : option rstr;
  blocked_method : option rstr;
  blocked_mode : option NetworkMode;
  blocked_protocol : rstr;
  blocked_execution_id : option rstr;
  blocked_decision : option rstr;
  blocked_source : option rstr;
  blocked_port : option N;
  blocked_timestamp : Z
}.

Definition MAX_BLOCKED_EVENTS : nat := 200.

Inductive HostBlockReason := Denied | NotAllowed | NotAllowedLocal.
Inductive HostBlockDecision := Allowed | Blocked (reason : HostBlockReason).

#[export] Instance host_block_reason_eq_dec : EqDecision HostBlockReason.
Proof. solve_decision. Defined.
#[export] Instance host_block_decision_eq_dec : EqDecision HostBlockDecision.
Proof. solve_decision. Defined.

Definition reason_str (r : HostBlockReason) : rstr :=
  match r with
  | Denied => lit "denied"
  | NotAllowed => lit "not_allowed"
  | NotAllowedLocal => lit "not_allowed_local"
  end.

Inductive DomainListKind := AllowList | DenyList.

Definition list_name (k : DomainListKind) : rstr :=
  match k with AllowList => lit "allowlist" | DenyList => lit "denylist" end.
Definition constraint_field (k : DomainListKind) : rstr :=
  match k with AllowList => lit "network.allowed_domains" | DenyList => lit "network.denied_domains" end.
Definition list_permission (k : DomainListKind) : NetworkDomainPermission :=
  match k with AllowList => PermAllow | DenyList => PermDeny end.

Section world.
Context `{W : ProxyWorld}.
#[local] Abbreviation Config := (NetworkProxyConfig HookConfig).

#[export] Instance config_eq_dec : EqDecision Config.
Proof. solve_decision. Defined.

Record ConfigState := mkConfigState {
  config : Config;
  brokerage_created_default_allowlist : bool;
  allow_set : GlobSet;
  deny_set : GlobSet;
  mitm_state : option MitmState;
  compiled_hooks : Hooks;
  constraints : NetworkProxyConstraints;
  blocked : list BlockedRequest;
  blocked_total : N
}.

Definition with_blocked (st : ConfigState) (b : list BlockedRequest) (total : N) : ConfigState :=
  mkConfigState (config st) (brokerage_created_default_allowlist st) (allow_set st) (deny_set st)
    (mitm_state st) (compiled_hooks st) (constraints st) b total.

Definition with_config (st : ConfigState) (c : Config) : ConfigState :=
  mkConfigState c (brokerage_created_default_allowlist st) (allow_set st) (deny_set st)
    (mitm_state st) (compiled_hooks st) (constraints st) (blocked st) (blocked_total st).

(** ** Building a state *)

(** The configuration with what the credential broker implies. *)
Definition brokered_config (c : Config) (k : NetworkProxyConstraints) : Config * bool :=
  let c := if bool_decide (max_enabled k = Some false)
           then with_enabled_and_broker c (enabled c) false (mitm c) else c in
  let brokerage_created_proxy := credential_broker c && negb (enabled c) in
  let default_allowlist :=
    brokerage_created_proxy && negb (is_some (allowed_domains c))
    && negb (is_some (managed_allowed_domains k)) in
  let c := if brokerage_created_proxy
           then with_enabled_and_broker c true (credential_broker c) (mitm c) else c in
  let c := if default_allowlist then set_allowed_domains c [lit "*"] else c in
  (c, default_allowlist).

Definition build_config_state (c : Config) (k : NetworkProxyConstraints) : result BuildError ConfigState :=
  let '(c, default_allowlist) := brokered_config c k in
  _ ← map_err (fun e => SocketPathInvalid e.1 e.2) (validate_unix_socket_allowlist_paths world_paths c);
  if credential_broker c && negb (mitm c) then Err BrokerRequiresMitm
  else
    let allowed := default [] (allowed_domains c) in
    let denied := default [] (denied_domains c) in
    _ ← map_err ConstraintError
          (validate_non_global_wildcard_domain_patterns (lit "network.denied_domains") denied);
    deny ← map_err CannotCompile (compile_denylist_globset denied);
    allow ← map_err CannotCompile (compile_allowlist_globset allowed);
    hooks ← map_err HooksInvalid (compile_mitm_hooks c);
    mitm ← (if mitm c then Some <$> map_err MitmFailed (mitm_state_new (allow_upstream_proxy c))
            else Ok None);
    Ok (mkConfigState c default_allowlist allow deny mitm hooks k [] 0).

Definition validate (c : Config) (k : NetworkProxyConstraints) : result NetworkProxyConstraintError unit :=
  validate_policy_against_constraints url_host debug_list validate_mitm_hook_config c k.

(** ** Reloading *)

(** The reloader's answer: nothing, or a state that was built from the files. *)
Definition reload_if_needed (answer : result rstr (option ConfigState)) (st : ConfigState)
  : result ProxyError ConfigState :=
  match answer with
  | Err e => Err (ReloadFailed e)
  | Ok None => Ok st
  | Ok (Some new_state) => Ok (with_blocked new_state (blocked st) (blocked_total st))
  end.

Definition force_reload (answer : result rstr ConfigState) (st : ConfigState)
  : result ProxyError unit * ConfigState :=
  match answer with
  | Ok new_state => (Ok tt, with_blocked new_state (blocked st) (blocked_total new_state))
  | Err e => (Err (ReloadFailed e), st)
  end.

Definition replace_config_state (answer : result rstr (option ConfigState)) (new_state st : ConfigState)
  : result ProxyError unit * ConfigState :=
  match reload_if_needed answer st with
  | Err e => (Err e, st)
  | Ok st => (Ok tt, with_blocked new_state (blocked st) (blocked_total st))
  end.

(** ** The decision on a host *)

Definition is_explicit_local_allowlisted (allowed : list rstr) (host : rstr) : bool :=
  let unscoped_host := unscoped_ip_literal host in
  existsb (fun pattern =>
    let pattern := trim pattern in
    if (pattern == lit "*")%rust || starts_with (lit "*.") pattern || starts_with (lit "**.") pattern
    then false
    else if contains_char c_star pattern || contains_char c_question pattern then false
    else
      let normalized_pattern := normalize_host pattern in
      (normalized_pattern == host)%rust
      || is_some_and unscoped_host (fun ip => (normalized_pattern == ip)%rust)) allowed.

Definition host_resolves_to_non_public_ip (host : rstr) (port : N)
    (lookup : rstr -> N -> option (list IpAddr)) : bool :=
  match parse_ip host with
  | Some ip => is_non_public_ip ip
  | None =>
      match lookup host port with
      | None => true
      | Some addrs => existsb is_non_public_ip addrs
      end
  end.

(** Whether a host is a loopback name or a non-public address. *)
Definition local_literal (host : rstr) : bool :=
  let host_no_scope := default host (unscoped_ip_literal host) in
  if is_loopback_host host then true
  else match parse_ip host_no_scope with Some ip => is_non_public_ip ip | None => false end.

Definition host_blocked_in (st : ConfigState) (lookup : rstr -> N -> option (list IpAddr))
    (host : rstr) (port : N) : HostBlockDecision :=
  match parse_host host with
  | None => Blocked NotAllowed
  | Some host =>
      let allowed := allowed_domains (config st) in
      let allowed_domains_empty := negb (is_some allowed) in
      if globset_matches_host_or_unscoped (deny_set st) host then Blocked Denied
      else
        let is_allowlisted := globset_matches_host_or_unscoped (allow_set st) host in
        let local_refused :=
          negb (allow_local_binding (config st))
          && (if local_literal host then negb (is_explicit_local_allowlisted (default [] allowed) host)
              else host_resolves_to_non_public_ip host port lookup) in
        if local_refused then Blocked NotAllowedLocal
        else if allowed_domains_empty || negb is_allowlisted then Blocked NotAllowed
        else Allowed
  end.

Definition host_blocked (answer : result rstr (option ConfigState))
    (lookup : rstr -> N -> option (list IpAddr)) (host : rstr) (port : N) (st : ConfigState)
  : result ProxyError (HostBlockDecision * ConfigState) :=
  st ← reload_if_needed answer st;
  Ok (host_blocked_in st lookup host port, st).

(** ** The log of refused requests *)

(** [push_back], and [pop_front] while there are too many. *)
Definition push_blocked (st : ConfigState) (entry : BlockedRequest) : ConfigState :=
  let l := blocked st ++ [entry] in
  with_blocked st (drop (length l - MAX_BLOCKED_EVENTS) l) (sat_add (blocked_total st) 1).

Definition with_execution_id (entry : BlockedRequest) (id : option rstr) : BlockedRequest :=
  mkBlocked (blocked_host entry) (blocked_reason entry) (blocked_client entry) (blocked_method entry)
    (blocked_mode entry) (blocked_protocol entry) id (blocked_decision entry) (blocked_source entry)
    (blocked_port entry) (blocked_timestamp entry).

(** The new state and what the observer is told. *)
Definition record_blocked (answer : result rstr (option ConfigState)) (execution_id : option rstr)
    (entry : BlockedRequest) (st : ConfigState) : result ProxyError (BlockedRequest * ConfigState) :=
  st ← reload_if_needed answer st;
  let entry := with_execution_id entry execution_id in
  Ok (entry, push_blocked st entry).

Definition drain_blocked (answer : result rstr (option ConfigState)) (st : ConfigState)
  : result ProxyError (list BlockedRequest * ConfigState) :=
  st ← reload_if_needed answer st;
  Ok (blocked st, with_blocked st [] (blocked_total st)).

(** ** Updates of the lists and of the mode *)

Definition list_entries (k : DomainListKind) (c : Config) : list rstr :=
  default [] (match k with AllowList => allowed_domains c | DenyList => denied_domains c end).
Definition opposite_entries (k : DomainListKind) (c : Config) : list rstr :=
  default [] (match k with AllowList => denied_domains c | DenyList => allowed_domains c end).

Definition has_host (host : rstr) (entries : list rstr) : bool :=
  existsb (fun entry => (normalize_host entry == host)%rust) entries.

(** What an attempt computes from the state it read: nothing to do, or the state
    to install. *)
Definition update_attempt (host : rstr) (k : DomainListKind) (read : ConfigState)
  : result ProxyError (option ConfigState) :=
  let target_contains := has_host host (list_entries k (config read)) in
  let opposite_contains := has_host host (opposite_entries k (config read)) in
  if target_contains && negb opposite_contains then Ok None
  else
    let candidate := upsert_domain_permission (config read) host (list_permission k) normalize_host in
    _ ← map_err (Constrained (constraint_field k)) (validate candidate (constraints read));
    new_state ← map_err (UpdateNotCompiled (list_name k)) (build_config_state candidate (constraints read));
    Ok (Some (with_blocked new_state (blocked read) (blocked_total read))).

(** Installing it, unless the policy changed since it was read. *)
Definition update_commit (read new_state current : ConfigState) : option ConfigState :=
  if bool_decide (constraints current = constraints read) && bool_decide (config current = config read)
  then Some new_state else None.

Definition update_domain_list (answer : result rstr (option ConfigState)) (host : rstr)
    (k : DomainListKind) (st : ConfigState) : result ProxyError unit * ConfigState :=
  match parse_host host with
  | None => (Err InvalidNetworkHost, st)
  | Some host =>
      match reload_if_needed answer st with
      | Err e => (Err e, st)
      | Ok st =>
          match update_attempt host k st with
          | Err e => (Err e, st)
          | Ok None => (Ok tt, st)
          | Ok (Some new_state) => (Ok tt, default st (update_commit st new_state st))
          end
      end
  end.

Definition add_allowed_domain answer host st := update_domain_list answer host AllowList st.
Definition add_denied_domain answer host st := update_domain_list answer host DenyList st.

Definition mode_attempt (m : NetworkMode) (read : ConfigState) : result ProxyError unit :=
  map_err (Constrained (lit "network.mode")) (validate (with_mode (config read) m) (constraints read)).

Definition mode_commit (m : NetworkMode) (read current : ConfigState) : option ConfigState :=
  if bool_decide (constraints current = constraints read)
  then Some (with_config current (with_mode (config current) m)) else None.

Definition set_network_mode (answer : result rstr (option ConfigState)) (m : NetworkMode) (st : ConfigState)
  : result ProxyError unit * ConfigState :=
  match reload_if_needed answer st with
  | Err e => (Err e, st)
  | Ok st =>
      match mode_attempt m st with
      | Err e => (Err e, st)
      | Ok _ => (Ok tt, default st (mode_commit m st st))
      end
  end.

(** ** Sockets *)

Definition socket_entry_allows (canonicalize : AbsolutePathBuf -> option AbsolutePathBuf)
    (requested : AbsolutePathBuf) (allowed : rstr) : bool :=
  match parse_socket_path world_paths allowed with
  | Ok (Native path) =>
      bool_decide (path = requested)
      || match canonicalize requested, canonicalize path with
         | Some r, Some p => bool_decide (p = r)
         | _, _ => false
         end
  | Ok (UnixStyleAbsolute _) | Err _ => false
  end.

Definition is_unix_socket_allowed (supported : bool)
    (canonicalize : AbsolutePathBuf -> option AbsolutePathBuf) (path : rstr) (st : ConfigState) : bool :=
  if negb supported then false
  else if negb (is_absolute path) then false
  else if dangerously_allow_all_unix_sockets (config st) then true
  else match from_absolute_path world_paths path with
       | None => false
       | Some requested => existsb (socket_entry_allows canonicalize requested) (allow_unix_sockets (config st))
       end.

(** ** The decision on a request, [network_policy.rs] *)

Inductive NetworkProtocol := Http | HttpsConnect | Socks5Tcp | Socks5Udp.
Inductive NetworkPolicyDecision := PolicyDeny | PolicyAsk.
Inductive NetworkDecisionSource := BaselinePolicy | ModeGuard | ProxyState | Decider.

Record NetworkPolicyRequest := mkRequest {
  protocol : NetworkProtocol;
  request_host : rstr;
  request_port : N;
  request_environment_id : option rstr;
  client_addr : option rstr;
  request_method : option rstr;
  command : option rstr;
  exec_policy_hint : option rstr;
  request_execution_id : option rstr
}.

Inductive NetworkDecision :=
| Allow
| Deny (reason : rstr) (source : NetworkDecisionSource) (decision : NetworkPolicyDecision).

Definition REASON_POLICY_DENIED : rstr := lit "policy_denied".

Definition deny_with_source (reason : rstr) (source : NetworkDecisionSource) : NetworkDecision :=
  Deny (if is_empty reason then REASON_POLICY_DENIED else reason) source PolicyDeny.

Definition ask_with_source (reason : rstr) (source : NetworkDecisionSource) : NetworkDecision :=
  Deny (if is_empty reason then REASON_POLICY_DENIED else reason) source PolicyAsk.

Definition map_decider_decision (d : NetworkDecision) : NetworkDecision :=
  match d with Allow => Allow | Deny reason _ decision => Deny reason Decider decision end.

(** The audit event of a decision, but for its time and the identity of the
    session. *)
Record AuditEvent := mkAudit {
  audit_decision : rstr;
  audit_source : NetworkDecisionSource;
  audit_reason : rstr;
  audit_protocol : NetworkProtocol;
  audit_host : rstr;
  audit_port : N;
  audit_method : option rstr;
  audit_client : option rstr;
  audit_execution_id : option rstr;
  policy_override : bool
}.

Definition policy_decision_str (d : NetworkPolicyDecision) : rstr :=
  match d with PolicyDeny => lit "deny" | PolicyAsk => lit "ask" end.

(** Who makes the request, as the proxy knows it. *)
Record Identity := mkIdentity { environment_id : option rstr; execution_id : option rstr }.

Definition request_for_decider (who : Identity) (r : NetworkPolicyRequest) : NetworkPolicyRequest :=
  mkRequest (protocol r) (request_host r) (request_port r)
    (match request_environment_id r with None => environment_id who | Some e => Some e end)
    (client_addr r) (request_method r) (command r) (exec_policy_hint r) (execution_id who).

(** The decision, and whether it overrides the policy. *)
Definition decide_host (who : Identity) (decider : option (NetworkPolicyRequest -> NetworkDecision))
    (r : NetworkPolicyRequest) (blocked : HostBlockDecision) : NetworkDecision * bool :=
  match blocked with
  | Allowed => (Allow, false)
  | Blocked NotAllowed =>
      match decider with
      | Some decide =>
          let d := map_decider_decision (decide (request_for_decider who r)) in
          (d, match d with Allow => true | Deny _ _ _ => false end)
      | None => (deny_with_source (reason_str NotAllowed) BaselinePolicy, false)
      end
  | Blocked reason => (deny_with_source (reason_str reason) BaselinePolicy, false)
  end.

Definition audit_of (who : Identity) (r : NetworkPolicyRequest) (d : NetworkDecision) (override : bool)
  : AuditEvent :=
  let '(text, source, reason) :=
    match d with
    | Allow =>
        (lit "allow", if override then Decider else BaselinePolicy,
         if override then reason_str NotAllowed else lit "allow")
    | Deny reason source decision => (policy_decision_str decision, source, reason)
    end in
  mkAudit text source reason (protocol r) (request_host r) (request_port r) (request_method r)
    (client_addr r) (execution_id who) override.

Definition evaluate_host_policy (answer : result rstr (option ConfigState))
    (lookup : rstr -> N -> option (list IpAddr)) (who : Identity)
    (decider : option (NetworkPolicyRequest -> NetworkDecision)) (r : NetworkPolicyRequest)
    (st : ConfigState) : result ProxyError (NetworkDecision * AuditEvent * ConfigState) :=
  '(blocked, st) ← host_blocked answer lookup (request_host r) (request_port r) st;
  let '(d, override) := decide_host who decider r blocked in
  Ok (d, audit_of who r d override, st).

(** ** The check at the connection, [connect_policy.rs] *)

(** [rama_net::address::Host] *)
Inductive TargetHost := HostName (name : rstr) | HostAddress (ip : IpAddr).

Definition is_localhost_name (name : rstr) : bool :=
  eq_ignore_ascii_case (trim_end_matches c_dot name) (lit "localhost").

Definition target_matches_non_public_addr (host : TargetHost) (addr : IpAddr) : bool :=
  match host with
  | HostAddress ip => bool_decide (ip = addr)
  | HostName name => is_localhost_name name && is_loopback addr
  end.

Definition is_non_public_target (host : TargetHost) : bool :=
  match host with HostAddress ip => is_non_public_ip ip | HostName name => is_localhost_name name end.

(** [Host::to_string], with the text of an address as the argument *)
Definition target_text (ip_text : IpAddr -> rstr) (host : TargetHost) : rstr :=
  match host with HostName name => name | HostAddress ip => ip_text ip end.

(** The answers of the reloader are those at the two reads of the state. *)
Definition allows_non_public_target (answer1 answer2 : result rstr (option ConfigState))
    (lookup : rstr -> N -> option (list IpAddr)) (ip_text : IpAddr -> rstr)
    (target : TargetHost) (port : N) (addr : IpAddr) (st : ConfigState)
  : result ProxyError (bool * ConfigState) :=
  st ← reload_if_needed answer1 st;
  if allow_local_binding (config st) then Ok (true, st)
  else if negb (target_matches_non_public_addr target addr) then Ok (false, st)
  else
    '(decision, st) ← host_blocked answer2 lookup (target_text ip_text target) port st;
    Ok (bool_decide (decision = Allowed), st).

(** Whether a stream to the address is opened. *)
Definition connect (answer1 answer2 : result rstr (option ConfigState))
    (lookup : rstr -> N -> option (list IpAddr)) (ip_text : IpAddr -> rstr)
    (target : TargetHost) (port : N) (addr : IpAddr) (st : ConfigState)
  : result ProxyError (bool * ConfigState) :=
  if negb (is_non_public_ip addr) then Ok (true, st)
  else allows_non_public_target answer1 answer2 lookup ip_text target port addr st.

End world.
