(* ===== verification/NetPolicy.v ===== *)
(** * NetPolicy: what the network proxy guarantees

    Theorems over NetRuntime.v: the decision on a host against its
    specification, the protection of local addresses across name resolution and
    connection, the constraints of an administrator, the updates of the lists by
    tasks that run at the same time, and the log of refusals. *)

From Stdlib Require Import Lia.
From stdpp Require Import base list strings gmap relations.
From S2P Require Import Prelude AbsolutePath NetAddr NetHost NetConfig NetRuntime.

(** ** Constraints *)

Lemma bind_unit_ok {E A} (r : result E unit) (k : unit -> result E A) a :
  (x ← r; k x) = Ok a <-> r = Ok tt /\ k tt = Ok a.
Proof. destruct r as [[]|e]; cbn; split; [done|by intros [_ ?]|done|by intros [? _]]. Qed.

Lemma check_that_ok b e : check_that b e = Ok tt <-> b = true.
Proof. unfold check_that. by destruct b. Qed.

Lemma no_global_ok name l :
  validate_non_global_wildcard_domain_patterns name l = Ok tt
  <-> forall p, p ∈ l -> is_global_wildcard_domain_pattern p = false.
Proof.
  unfold validate_non_global_wildcard_domain_patterns.
  destruct (List.find is_global_wildcard_domain_pattern l) as [p|] eqn:E.
  - apply find_some in E as [Hin Hp]. split; [done|]. intros H.
    rewrite (H p) in Hp; [done|by apply list_elem_of_In].
  - split; [|done]. intros _ p Hp. by apply (find_none _ _ E), list_elem_of_In.
Qed.

Lemma lowercase_set_ext l l' : (forall p, p ∈ l <-> p ∈ l') -> lowercase_set l = lowercase_set l'.
Proof.
  intros H. apply leibniz_equiv. intros x. unfold lowercase_set. rewrite !elem_of_list_to_set, !list_elem_of_fmap.
  split; intros (y & -> & Hy); exists y; (split; [done|]); by apply H.
Qed.

Section world.
Context `{W : ProxyWorld}.
#[local] Abbreviation Config := (NetworkProxyConfig HookConfig).
Implicit Types c : Config.
Implicit Types st : ConfigState.

Definition denied c : list rstr := default [] (denied_domains c).
Definition allowed c : list rstr := default [] (allowed_domains c).

(** The policy fields of a configuration satisfy the constraints. *)
Record constrained c (k : NetworkProxyConstraints) : Prop := {
  constrained_wildcards p : p ∈ denied c -> is_global_wildcard_domain_pattern p = false;
  constrained_enabled m : max_enabled k = Some m -> enabled c = true -> m = true;
  constrained_mode m : max_mode k = Some m -> network_mode_rank (mode c) <= network_mode_rank m;
  constrained_upstream : max_allow_upstream_proxy k = Some false -> allow_upstream_proxy c = false;
  constrained_listen : max_allow_non_loopback_proxy k = Some false ->
                       dangerously_allow_non_loopback_proxy c = false;
  constrained_all_sockets :
    default (negb (is_some (managed_allow_unix_sockets k))) (max_allow_all_unix_sockets k) = false ->
    dangerously_allow_all_unix_sockets c = false;
  constrained_local m : max_allow_local_binding k = Some m -> allow_local_binding c = true -> m = true;
  constrained_allowed managed :
    managed_allowed_domains k = Some managed ->
    (forall p, p ∈ managed -> is_global_wildcard_domain_pattern p = false)
    /\ validate_allowed_domains url_host debug_list managed (allowlist_expansion_enabled k)
         (allowed c) (denied c) = Ok tt;
  constrained_denied managed :
    managed_denied_domains k = Some managed ->
    validate_denied_domains debug_list managed (denylist_expansion_enabled k) (denied c) = Ok tt;
  constrained_sockets managed :
    managed_allow_unix_sockets k = Some managed ->
    validate_unix_sockets debug_list managed (allow_unix_sockets c) = Ok tt
}.

Lemma validate_flag_ok name b p : validate_flag name b p = Ok tt <-> (p = false -> b = false).
Proof. unfold validate_flag. rewrite check_that_ok. destruct b, p; cbn; intuition congruence. Qed.

(** A configuration that passes the validation satisfies the constraints. *)
Lemma validate_constrained c k : validate c k = Ok tt -> constrained c k.
Proof.
  unfold validate, validate_policy_against_constraints. rewrite !bind_unit_ok.
  intros (_ & Hw & He & Hm & Hu & Hl & Has & Hlb & Ha & Hd & Hs).
  rewrite validate_flag_ok in Hu, Hl, Has. split.
  - exact (proj1 (no_global_ok _ _) Hw).
  - intros m E Hen. rewrite E, validate_flag_ok, Hen in He. destruct m; [done|]. by specialize (He eq_refl).
  - intros m E. rewrite E, check_that_ok in Hm. by apply Nat.leb_le.
  - intros E. apply Hu. by rewrite E.
  - intros E. apply Hl. by rewrite E.
  - done.
  - intros m E Hen. rewrite E, validate_flag_ok, Hen in Hlb. destruct m; [done|]. by specialize (Hlb eq_refl).
  - intros managed E. rewrite E, bind_unit_ok in Ha. destruct Ha as [Hn Ha]. split; [exact (proj1 (no_global_ok _ _) Hn)|done].
  - intros managed E. rewrite E, bind_unit_ok in Hd. by destruct Hd.
  - intros managed E. by rewrite E in Hs.
Qed.

(** What the constraints look at, but for the mode and the lists. *)
Lemma constrained_ext c c' k :
  constrained c k -> (enabled c' = true -> max_enabled k <> Some false) ->
  mode c' = mode c -> allow_upstream_proxy c' = allow_upstream_proxy c ->
  dangerously_allow_non_loopback_proxy c' = dangerously_allow_non_loopback_proxy c ->
  dangerously_allow_all_unix_sockets c' = dangerously_allow_all_unix_sockets c ->
  allow_local_binding c' = allow_local_binding c -> unix_sockets c' = unix_sockets c ->
  (managed_allowed_domains k <> None -> allowed c' = allowed c) ->
  (forall p, p ∈ denied c' <-> p ∈ denied c) ->
  constrained c' k.
Proof.
  intros [H1 H2 H3 H4 H5 H6 H7 H8 H9 H10] He Hm Hu Hl Has Hlb Hs Ha Hd.
  assert (Hset : lowercase_set (denied c') = lowercase_set (denied c)) by (by apply lowercase_set_ext).
  split.
  - intros p Hp. by apply H1, Hd.
  - intros m E Hen. destruct m; [done|]. by destruct (He Hen).
  - by rewrite Hm.
  - by rewrite Hu.
  - by rewrite Hl.
  - by rewrite Has.
  - by rewrite Hlb.
  - intros managed E. destruct (H8 managed E) as [Hn Hv]. split; [done|]. rewrite Ha by congruence.
    revert Hv. unfold validate_allowed_domains. by rewrite Hset.
  - intros managed E. specialize (H9 managed E). revert H9. unfold validate_denied_domains. rewrite Hset.
    destruct (denylist_expansion_enabled k) as [[]|]; [done| |done]. rewrite !check_that_ok. done.
  - intros managed E. unfold allow_unix_sockets. rewrite Hs. by apply H10.
Qed.

(** What the credential broker implies stays within the constraints. *)
Lemma brokered_constrained c k : constrained c k -> constrained (brokered_config c k).1 k.
Proof.
  intros Hc. unfold brokered_config.
  set (c1 := if bool_decide (max_enabled k = Some false)
             then with_enabled_and_broker c (enabled c) false (mitm c) else c).
  assert (Hc1 : constrained c1 k /\ (credential_broker c1 = true -> max_enabled k <> Some false)).
  { subst c1. case_bool_decide as E; [|done]. split; [|done].
    apply (constrained_ext c); try done. intros Hen E'. by pose proof (constrained_enabled _ _ Hc false E' Hen). }
  destruct Hc1 as [Hc1 Hb]. clearbody c1.
  set (created := credential_broker c1 && negb (enabled c1)).
  assert (Hc2 : constrained (if created then with_enabled_and_broker c1 true (credential_broker c1) (mitm c1)
                             else c1) k).
  { destruct created eqn:E; [|done]. subst created. apply andb_true_iff in E as [E _].
    apply (constrained_ext c1); try done. intros _. by apply Hb. }
  destruct (created && _ && negb (is_some (managed_allowed_domains k))) eqn:E; [|done]. cbn [fst].
  apply andb_true_iff in E as [_ E]. destruct (managed_allowed_domains k) eqn:Em; [done|].
  revert Hc2. generalize (if created then with_enabled_and_broker c1 true (credential_broker c1) (mitm c1) else c1).
  intros c2 Hc2. apply (constrained_ext c2); try done.
  - cbn. intros Hen Hm. by pose proof (constrained_enabled _ _ Hc2 false Hm Hen).
  - intros p. unfold denied. rewrite !denied_domains_elem. unfold set_allowed_domains.
    rewrite set_domain_entries_elem. cbn. split; [intros [[? _]|[? _]]; done|by left].
Qed.

(** Another mode within the constraints. *)
Lemma mode_constrained c k m :
  constrained c k -> (forall x, max_mode k = Some x -> network_mode_rank m <= network_mode_rank x) ->
  constrained (with_mode c m) k.
Proof. intros [H1 H2 H3 H4 H5 H6 H7 H8 H9 H10] Hm. by split. Qed.

(** ** States *)

(** The compiled sets are those of the configuration. *)
Definition compiled st : Prop :=
  compile_denylist_globset (denied (config st)) = Ok (deny_set st)
  /\ compile_allowlist_globset (allowed (config st)) = Ok (allow_set st).

Definition sound st : Prop := compiled st /\ constrained (config st) (constraints st).

Lemma build_state c k st :
  build_config_state c k = Ok st ->
  compiled st /\ config st = (brokered_config c k).1 /\ constraints st = k
  /\ blocked st = [] /\ blocked_total st = 0%N.
Proof.
  unfold build_config_state. destruct (brokered_config c k) as [c' flag]. cbn [fst].
  destruct (validate_unix_socket_allowlist_paths world_paths c') as [[]|e]; [|done]. cbn [map_err mbind result_bind].
  destruct (credential_broker c' && negb (mitm c')); [done|].
  destruct (validate_non_global_wildcard_domain_patterns _ _) as [[]|e]; [|done]. cbn [map_err mbind result_bind].
  destruct (compile_denylist_globset (default [] (denied_domains c'))) as [deny|e] eqn:Ed; [|done].
  cbn [map_err mbind result_bind].
  destruct (compile_allowlist_globset (default [] (allowed_domains c'))) as [allow|e] eqn:Ea; [|done].
  cbn [map_err mbind result_bind].
  destruct (compile_mitm_hooks c') as [hooks|e]; [|done]. cbn [map_err mbind result_bind].
  destruct (if mitm c' then _ else _) as [m|e]; [|done]. cbn [mbind result_bind]. intros [= <-]. done.
Qed.

Lemma build_sound c k st : constrained c k -> build_config_state c k = Ok st -> sound st.
Proof.
  intros Hc Hb. destruct (build_state c k st Hb) as (Hcomp & Hcfg & Hk & _). split; [done|].
  rewrite Hcfg, Hk. by apply brokered_constrained.
Qed.

Lemma sound_with_blocked st b n : sound st -> sound (with_blocked st b n).
Proof. done. Qed.

Lemma update_attempt_ok h k read new :
  update_attempt h k read = Ok (Some new) ->
  let candidate := upsert_domain_permission (config read) h (list_permission k) normalize_host in
  constrained candidate (constraints read)
  /\ exists built, build_config_state candidate (constraints read) = Ok built
                   /\ new = with_blocked built (blocked read) (blocked_total read).
Proof.
  unfold update_attempt. destruct (_ && negb _); [done|]. cbn zeta.
  set (candidate := upsert_domain_permission _ _ _ _).
  destruct (validate candidate (constraints read)) as [[]|e] eqn:Ev; [|done]. cbn [map_err mbind result_bind].
  destruct (build_config_state candidate (constraints read)) as [built|e] eqn:Eb; [|done].
  cbn [map_err mbind result_bind]. intros [= <-]. split; [by apply validate_constrained|]. by exists built.
Qed.

(** ** Tasks that run at the same time *)

(** A task has read the state and is yet to write it. *)
Inductive task :=
| Reloading (new_state read : ConfigState)
| Updating (host : rstr) (k : DomainListKind) (read : ConfigState)
| Switching (m : NetworkMode) (read : ConfigState).

Record system := mkSystem { shared : ConfigState; tasks : list task }.

(** The reloader answers with states built from configurations that it has
    validated. *)
Definition reloadable st : Prop :=
  exists c k, validate c k = Ok tt /\ build_config_state c k = Ok st.

Inductive step : system -> system -> Prop :=
| step_reload_read s ts new_state :
    reloadable new_state -> step (mkSystem s ts) (mkSystem s (ts ++ [Reloading new_state s]))
| step_reload_write s l r new_state read :
    step (mkSystem s (l ++ Reloading new_state read :: r))
         (mkSystem (with_blocked new_state (blocked read) (blocked_total read)) (l ++ r))
| step_update_read s ts input host k :
    parse_host input = Some host -> step (mkSystem s ts) (mkSystem s (ts ++ [Updating host k s]))
| step_update_end s l r host k read :
    (forall new, update_attempt host k read <> Ok (Some new)) ->
    step (mkSystem s (l ++ Updating host k read :: r)) (mkSystem s (l ++ r))
| step_update_write s s' l r host k read new :
    update_attempt host k read = Ok (Some new) -> update_commit read new s = Some s' ->
    step (mkSystem s (l ++ Updating host k read :: r)) (mkSystem s' (l ++ r))
| step_update_retry s l r host k read new :
    update_attempt host k read = Ok (Some new) -> update_commit read new s = None ->
    step (mkSystem s (l ++ Updating host k read :: r)) (mkSystem s (l ++ Updating host k s :: r))
| step_mode_read s ts m : step (mkSystem s ts) (mkSystem s (ts ++ [Switching m s]))
| step_mode_end s l r m read e :
    mode_attempt m read = Err e -> step (mkSystem s (l ++ Switching m read :: r)) (mkSystem s (l ++ r))
| step_mode_write s s' l r m read :
    mode_attempt m read = Ok tt -> mode_commit m read s = Some s' ->
    step (mkSystem s (l ++ Switching m read :: r)) (mkSystem s' (l ++ r))
| step_mode_retry s l r m read :
    mode_attempt m read = Ok tt -> mode_commit m read s = None ->
    step (mkSystem s (l ++ Switching m read :: r)) (mkSystem s (l ++ Switching m s :: r))
| step_record s ts entry : step (mkSystem s ts) (mkSystem (push_blocked s entry) ts)
| step_drain s ts : step (mkSystem s ts) (mkSystem (with_blocked s [] (blocked_total s)) ts).

Definition task_ok (t : task) : Prop :=
  match t with Reloading new_state _ => sound new_state | _ => True end.

Definition system_ok (sys : system) : Prop := sound (shared sys) /\ Forall task_ok (tasks sys).

Lemma reloadable_sound st : reloadable st -> sound st.
Proof. intros (c & k & Hv & Hb). eapply build_sound; [by apply validate_constrained|done]. Qed.

Lemma update_commit_sound host k read new s s' :
  update_attempt host k read = Ok (Some new) -> update_commit read new s = Some s' -> sound s'.
Proof.
  intros Ha Hc. unfold update_commit in Hc. destruct (_ && _); [|done]. injection Hc as <-.
  destruct (update_attempt_ok host k read new Ha) as (Hk & b & Hb & ->).
  apply sound_with_blocked. by eapply build_sound.
Qed.

Lemma mode_commit_sound m read s s' :
  sound s -> mode_attempt m read = Ok tt -> mode_commit m read s = Some s' -> sound s'.
Proof.
  intros [Hcomp Hcon] Ha Hc. unfold mode_commit in Hc. case_bool_decide as E; [|done]. injection Hc as <-.
  split; [done|]. cbn. apply mode_constrained; [done|]. intros x Hx.
  unfold mode_attempt in Ha. destruct (validate _ _) as [[]|e] eqn:Ev; [|done].
  apply validate_constrained in Ev. rewrite E in Hx. exact (constrained_mode _ _ Ev x Hx).
Qed.

Lemma step_ok sys sys' : step sys sys' -> system_ok sys -> system_ok sys'.
Proof.
  intros Hs [Hsh Ht].
  destruct Hs as [s ts new Hr|s l r new read|s ts input host k Hp|s l r host k read Hn
                 |s s' l r host k read new Ha Hc|s l r host k read new Ha Hc|s ts m|s l r m read e He
                 |s s' l r m read Ha Hc|s l r m read Ha Hc|s ts entry|s ts]; cbn [shared tasks] in *;
    rewrite ?Forall_app, ?Forall_cons in Ht; (split; cbn [shared tasks];
      [|rewrite ?Forall_app, ?Forall_cons; cbn [task_ok]; intuition auto using Forall_nil_2, reloadable_sound]).
  all: try done.
  - destruct Ht as (_ & Hnew & _). by apply sound_with_blocked.
  - by eapply update_commit_sound.
  - by eapply mode_commit_sound.
Qed.

Lemma reachable_ok st sys : reloadable st -> rtc step (mkSystem st []) sys -> system_ok sys.
Proof.
  intros Hr Hsteps. assert (H0 : system_ok (mkSystem st [])) by (split; [by apply reloadable_sound|constructor]).
  induction Hsteps as [|x y z Hxy _ IH]; [done|]. by eapply IH, step_ok.
Qed.

(** C14: Whatever tasks reload the configuration, change the lists, change the mode
    and log refusals at the same time, the policy in force always satisfies its
    constraints and its compiled lists are those of its configuration. *)
Theorem policy_always_constrained st sys :
  reloadable st -> rtc step (mkSystem st []) sys ->
  constrained (config (shared sys)) (constraints (shared sys)) /\ compiled (shared sys).
Proof. intros Hr Hsteps. by destruct (reachable_ok st sys Hr Hsteps) as [[? ?] _]. Qed.

(** Updates of the lists linearise: an update that is installed, however long
    after its task read the state, has the effect on the policy of the whole
    update done at the moment of its installation. *)
Theorem update_linearises host k read new current st' :
  update_attempt host k read = Ok (Some new) -> update_commit read new current = Some st' ->
  update_attempt host k current = Ok (Some (with_blocked st' (blocked current) (blocked_total current))).
Proof.
  intros Ha Hc. unfold update_commit in Hc.
  destruct (bool_decide (constraints current = constraints read)) eqn:E1; [|done].
  destruct (bool_decide (config current = config read)) eqn:E2; [|done].
  apply bool_decide_eq_true_1 in E1, E2. cbn in Hc. injection Hc as <-.
  unfold update_attempt in *. rewrite E1, E2. destruct (_ && negb _); [done|]. cbn zeta in *.
  set (candidate := upsert_domain_permission _ _ _ _) in *.
  destruct (validate candidate (constraints read)) as [[]|e]; [|done]. cbn [map_err mbind result_bind] in *.
  destruct (build_config_state candidate (constraints read)) as [b|e]; [|done].
  cbn [map_err mbind result_bind] in *. by injection Ha as <-.
Qed.

(** ** The decision on a host *)

(** A list covers a host, or the address of a host with a scope. *)
Definition listed (entries : list rstr) (host : rstr) : Prop :=
  exists p, p ∈ entries
    /\ (covers (entry_pattern p) host
        \/ exists ip, unscoped_ip_literal host = Some ip /\ covers (entry_pattern p) ip).

(** The host itself is on the list, without a wildcard. *)
Definition listed_literally (entries : list rstr) (host : rstr) : Prop :=
  exists p, p ∈ entries /\ ~ c_star ∈ p /\ ~ c_question ∈ p
    /\ (normalize_host p = host \/ unscoped_ip_literal host = Some (normalize_host p)).

(** What keeps a host from the local network: a local literal must itself be
    listed, and a name must resolve, to public addresses only. *)
Definition stays_public (entries : list rstr) (lookup : rstr -> N -> option (list IpAddr))
    (host : rstr) (port : N) : Prop :=
  if local_literal host then listed_literally entries host
  else match parse_ip host with
       | Some ip => is_non_public_ip ip = false
       | None => exists addrs, lookup host port = Some addrs
                               /\ forall a, a ∈ addrs -> is_non_public_ip a = false
       end.

Lemma unscoped_lower host ip : lower host -> unscoped_ip_literal host = Some ip -> lower ip.
Proof.
  unfold unscoped_ip_literal. intros Hl. destruct (split_once c_percent host) as [[a b]|] eqn:E; [|done].
  destruct (is_some (parse_ip a)); [|done]. intros [= <-].
  eapply lower_subset; [exact Hl|]. by apply split_once_subset in E as [? _].
Qed.

Lemma parse_host_lower input host : parse_host input = Some host -> lower host.
Proof.
  unfold parse_host. destruct (is_empty _); [done|]. intros [= <-]. apply normalize_host_lower.
Qed.

Lemma set_matches_listed `{!GlobLaws} gw entries set host :
  compile_globset_with_policy entries gw = Ok set -> Forall entry_plain entries -> lower host ->
  globset_matches_host_or_unscoped set host = true <-> listed entries host.
Proof.
  intros Hc Hp Hl. unfold globset_matches_host_or_unscoped, listed. rewrite orb_true_iff.
  rewrite (compiled_covers gw entries set host Hc Hp Hl). split.
  - intros [(p & Hin & Hcov)|Hs]; [exists p; auto|].
    destruct (unscoped_ip_literal host) as [ip|] eqn:E; [|done]. cbn in Hs.
    apply (compiled_covers gw entries set ip Hc Hp (unscoped_lower host ip Hl E)) in Hs as (p & Hin & Hcov).
    exists p. split; [done|]. right. by exists ip.
  - intros (p & Hin & [Hcov|(ip & E & Hcov)]); [left; by exists p|right].
    rewrite E. cbn. apply (compiled_covers gw entries set ip Hc Hp (unscoped_lower host ip Hl E)). by exists p.
Qed.

Lemma set_matches_entry `{!GlobLaws} gw entries set p host :
  compile_globset_with_policy entries gw = Ok set -> p ∈ entries -> entry_plain p -> lower host ->
  (covers (entry_pattern p) host
   \/ exists ip, unscoped_ip_literal host = Some ip /\ covers (entry_pattern p) ip) ->
  globset_matches_host_or_unscoped set host = true.
Proof.
  intros Hc Hin Hp Hl Hcov. unfold globset_matches_host_or_unscoped. apply orb_true_iff.
  destruct Hcov as [Hcov|(ip & E & Hcov)]; [left; by eapply compiled_entry_matches|right].
  rewrite E. cbn. eapply compiled_entry_matches; try done. by eapply unscoped_lower.
Qed.

Lemma no_star_not_wildcard s :
  ~ c_star ∈ s -> ((s == lit "*")%rust || starts_with (lit "*.") s || starts_with (lit "**.") s) = false.
Proof.
  intros Hs. rewrite !orb_false_iff. unfold starts_with. destruct lit_wildcard as [-> ->]. repeat split.
  - apply bool_decide_eq_false. intros ->. apply Hs. left.
  - destruct (strip_prefix _ s) eqn:E; [|done]. apply strip_prefix_Some in E as ->. destruct Hs. left.
  - destruct (strip_prefix _ s) eqn:E; [|done]. apply strip_prefix_Some in E as ->. destruct Hs. left.
Qed.

Lemma explicit_listed entries host :
  is_explicit_local_allowlisted entries host = true <-> listed_literally entries host.
Proof.
  unfold is_explicit_local_allowlisted. rewrite existsb_exists.
  assert (Hn : forall p, normalize_host (trim p) = normalize_host p)
    by (intros p; unfold normalize_host; by rewrite trim_idemp).
  assert (Hmatch : forall p,
    ((normalize_host p == host)%rust
     || is_some_and (unscoped_ip_literal host) (fun ip => (normalize_host p == ip)%rust)) = true
    <-> normalize_host p = host \/ unscoped_ip_literal host = Some (normalize_host p)).
  { intros p. rewrite orb_true_iff, str_eqb_true. destruct (unscoped_ip_literal host) as [ip|]; cbn; [|intuition congruence].
    rewrite str_eqb_true. intuition congruence. }
  split.
  - intros (p & Hin%list_elem_of_In & Hp). rewrite Hn in Hp.
    destruct (_ || _ || _); [done|]. destruct (contains_char c_star (trim p)) eqn:Es; [done|]. cbn [orb] in Hp.
    destruct (contains_char c_question (trim p)) eqn:Eq; [done|].
    apply contains_char_false in Es, Eq. exists p. split; [done|].
    split; [intros Hx; apply Es; by apply trim_char|]. split; [intros Hx; apply Eq; by apply trim_char|].
    by apply Hmatch.
  - intros (p & Hin & Hs & Hq & Hp). exists p. split; [by apply list_elem_of_In|]. rewrite Hn.
    assert (Hs' : ~ c_star ∈ trim p) by (intros Hx; by apply Hs, trim_subset).
    assert (Hq' : ~ c_question ∈ trim p) by (intros Hx; by apply Hq, trim_subset).
    rewrite no_star_not_wildcard by done. apply contains_char_false in Hs', Hq'. rewrite Hs', Hq'. cbn [orb].
    by apply Hmatch.
Qed.

(** Whether the policy refuses a host as local. *)
Definition local_refused st lookup host port : bool :=
  negb (allow_local_binding (config st))
  && (if local_literal host then negb (is_explicit_local_allowlisted (allowed (config st)) host)
      else host_resolves_to_non_public_ip host port lookup).

Lemma local_refused_spec st lookup host port :
  local_refused st lookup host port = false
  <-> allow_local_binding (config st) = true \/ stays_public (allowed (config st)) lookup host port.
Proof.
  unfold local_refused, stays_public. destruct (allow_local_binding (config st)); cbn [negb andb]; [by split; [left|]|].
  transitivity (stays_public (allowed (config st)) lookup host port); [|unfold stays_public; by intuition].
  unfold stays_public. destruct (local_literal host).
  - rewrite negb_false_iff. apply explicit_listed.
  - unfold host_resolves_to_non_public_ip. destruct (parse_ip host); [done|].
    destruct (lookup host port) as [addrs|]; [|split; [done|by intros (? & ? & _)]]. split.
    + intros Hx. exists addrs. split; [done|]. intros a Ha. destruct (is_non_public_ip a) eqn:Ea; [|done].
      assert (existsb is_non_public_ip addrs = true); [|congruence].
      apply existsb_exists. exists a. split; [by apply list_elem_of_In|done].
    + intros (addrs' & [= <-] & Hpub). apply not_true_iff_false. intros (a & Ha%list_elem_of_In & Hn)%existsb_exists.
      rewrite (Hpub a Ha) in Hn. done.
Qed.

(** The decision, in the order of the comment in the source. *)
Inductive decision_spec st lookup input port : HostBlockDecision -> Prop :=
| spec_no_host : parse_host input = None -> decision_spec st lookup input port (Blocked NotAllowed)
| spec_denied host :
    parse_host input = Some host -> listed (denied (config st)) host ->
    decision_spec st lookup input port (Blocked Denied)
| spec_local host :
    parse_host input = Some host -> ~ listed (denied (config st)) host ->
    allow_local_binding (config st) = false -> ~ stays_public (allowed (config st)) lookup host port ->
    decision_spec st lookup input port (Blocked NotAllowedLocal)
| spec_unlisted host :
    parse_host input = Some host -> ~ listed (denied (config st)) host ->
    (allow_local_binding (config st) = true \/ stays_public (allowed (config st)) lookup host port) ->
    ~ listed (allowed (config st)) host -> decision_spec st lookup input port (Blocked NotAllowed)
| spec_allowed host :
    parse_host input = Some host -> ~ listed (denied (config st)) host ->
    (allow_local_binding (config st) = true \/ stays_public (allowed (config st)) lookup host port) ->
    listed (allowed (config st)) host -> decision_spec st lookup input port Allowed.

Lemma host_blocked_unfold st lookup input port :
  host_blocked_in st lookup input port =
  match parse_host input with
  | None => Blocked NotAllowed
  | Some host =>
      if globset_matches_host_or_unscoped (deny_set st) host then Blocked Denied
      else if local_refused st lookup host port then Blocked NotAllowedLocal
      else if negb (is_some (allowed_domains (config st)))
              || negb (globset_matches_host_or_unscoped (allow_set st) host)
      then Blocked NotAllowed else Allowed
  end.
Proof. done. Qed.

Lemma nothing_listed host : ~ listed [] host.
Proof. intros (p & Hp & _). by rewrite elem_of_nil in Hp. Qed.

(** C10: The decision on a host is exactly the documented one: a host on the deny
    list is refused, then a host that is local or that resolves to a local
    address, then a host that is not on the allow list; the rest is allowed.
    For lists whose entries are names, alone or under a wildcard. *)
Theorem host_decision_refines `{!GlobLaws} st lookup input port d :
  compiled st -> Forall entry_plain (denied (config st)) -> Forall entry_plain (allowed (config st)) ->
  host_blocked_in st lookup input port = d <-> decision_spec st lookup input port d.
Proof.
  intros [Hd Ha] Hpd Hpa. rewrite host_blocked_unfold.
  destruct (parse_host input) as [host|] eqn:Eh; [|split; [intros <-; by apply spec_no_host|inversion 1; congruence]].
  pose proof (parse_host_lower _ _ Eh) as Hl.
  pose proof (set_matches_listed _ _ _ host Hd Hpd Hl) as HD.
  pose proof (set_matches_listed _ _ _ host Ha Hpa Hl) as HA.
  pose proof (local_refused_spec st lookup host port) as HL.
  assert (Hempty : allowed_domains (config st) = None -> ~ listed (allowed (config st)) host).
  { intros E. unfold allowed. rewrite E. apply nothing_listed. }
  destruct (globset_matches_host_or_unscoped (deny_set st) host);
    [|destruct (local_refused st lookup host port) eqn:ER;
      [|destruct (allowed_domains (config st)) as [al|] eqn:EA; cbn [is_some negb orb];
        [destruct (globset_matches_host_or_unscoped (allow_set st) host) eqn:EM|]]]; cbn [negb].
  all: split; [intros <-|inversion 1; simplify_eq; intuition congruence].
  - eapply spec_denied; [done|by apply HD].
  - eapply spec_local; [done| | |]; [intuition congruence| |intuition congruence].
    unfold local_refused in ER. by destruct (allow_local_binding (config st)).
  - eapply spec_allowed; [done| | |]; intuition congruence.
  - eapply spec_unlisted; [done| | |]; intuition congruence.
  - eapply spec_unlisted; [done| | |]; intuition congruence.
Qed.
End world.
