(* ===== verification/NetSafety.v ===== *)
(** * NetSafety: requests, connections and updates of the network proxy

    Theorems over NetRuntime.v and NetPolicy.v: what no answer of a user can
    override, what keeps connections from the local network, the effect of an
    update of a list, and how far a managed allow list binds the configuration.
    The last part has the upstream proxies of the environment and the peers that
    requests are connected to. *)

From Stdlib Require Import Lia.
From stdpp Require Import base list strings gmap relations.
From S2P Require Import Prelude AbsolutePath NetAddr NetHost NetConfig NetRuntime NetPolicy.

(** ** Hosts that start with a wildcard *)

Lemma drop_while_end_head {A} (p : A -> bool) (x : A) l :
  p x = false -> exists l', drop_while_end p (x :: l) = x :: l'.
Proof.
  intros Hx. destruct (drop_while_end_prefix p (x :: l)) as (r & Hl & Hr).
  destruct (drop_while_end p (x :: l)) as [|y l'] eqn:E; cbn in Hl; [|injection Hl as <- _; by exists l'].
  subst r. apply Forall_cons_1 in Hr as [Hr _]. congruence.
Qed.

Lemma scoped_with_head d h ip : scoped_with d h = Some ip -> head ip = head h.
Proof.
  unfold scoped_with. destruct (split_once_str d h) as [[a b]|] eqn:E; [|done].
  apply split_once_str_Some in E as ->. destruct a as [|x a]; [done|].
  destruct (is_some _); [|done]. by intros [= <-].
Qed.

Lemma normalize_dns_head x l :
  x <> c_dot -> ~ (65 <= x <= 90)%N -> exists l', normalize_dns_host_or_ip_literal (x :: l) = x :: l'.
Proof.
  intros Hd Hx. unfold normalize_dns_host_or_ip_literal, trim_end_matches.
  assert (Hlow : to_ascii_lowercase (x :: l) = x :: to_ascii_lowercase l).
  { cbn. f_equal. destruct (N.leb_spec 65 x), (N.leb_spec x 90); cbn; lia. }
  rewrite Hlow. destruct (drop_while_end_head (N.eqb c_dot) x (to_ascii_lowercase l)) as [l' ->];
    [apply N.eqb_neq; congruence|].
  destruct (normalize_ip_literal (x :: l')) as [ip|] eqn:E; cbn [default]; [|by exists l'].
  assert (Hh : head ip = head (x :: l')).
  { revert E. unfold normalize_ip_literal. destruct (is_some _); [by intros [= <-]|]. cbn [find_map].
    destruct (scoped_with (lit "%25") (x :: l')) eqn:E1; [intros [= <-]; by eapply scoped_with_head|].
    destruct (scoped_with (lit "%") (x :: l')) eqn:E2; [intros [= <-]; by eapply scoped_with_head|done]. }
  destruct ip as [|y ip]; [done|]. injection Hh as ->. by exists ip.
Qed.

Lemma normalize_host_star e l : trim e = c_star :: l -> exists l', normalize_host e = c_star :: l'.
Proof.
  intros E. unfold normalize_host. rewrite E. cbn [bracketed].
  change ((c_star =? 91)%N) with false. cbn iota.
  destruct (count_char c_colon (c_star :: l) =? 1); [|by apply normalize_dns_head; unfold c_star, c_dot; lia].
  cbn [split_on]. change ((c_star =? c_colon)%N) with false. cbn iota.
  destruct (split_on c_colon l) as [|s ss]; cbn [head default]; apply normalize_dns_head; unfold c_star, c_dot; lia.
Qed.

(** An entry that names a host is compiled as that host. *)
Lemma named_entry e host : normalize_host e = host -> dns_name host -> entry_pattern e = Exact host.
Proof.
  intros En Hd.
  assert (Hs : forall r, strip_prefix (c_star :: r) (trim e) = None).
  { intros r. destruct (strip_prefix _ (trim e)) as [t|] eqn:E; [|done]. apply strip_prefix_Some in E. cbn in E.
    destruct (normalize_host_star e _ E) as [l' El]. rewrite <- En in Hd.
    pose proof (dns_char _ Hd c_star) as Hc. rewrite El in Hc. by specialize (Hc ltac:(left)). }
  assert (Hne : (trim e == lit "*")%rust = false).
  { apply bool_decide_eq_false. intros E. specialize (Hs []). rewrite E in Hs. done. }
  unfold entry_pattern, normalize_pattern. rewrite Hne. destruct lit_wildcard as [-> ->]. rewrite !Hs. cbn [is_empty].
  assert (Ht : normalize_host (trim e) = host) by (rewrite <- En; unfold normalize_host; by rewrite trim_idemp).
  rewrite Ht. destruct (exact_entry host Hd) as [Hx _]. unfold entry_pattern in Hx.
  revert Hx. unfold normalize_pattern. rewrite (dns_trim host Hd), (dns_not_star host Hd).
  destruct (dns_no_wildcards host Hd) as [-> ->]. cbn [is_empty]. by rewrite (dns_normalize_host host Hd).
Qed.

(** ** Names of the local host *)

Lemma drop_while_end_all {A} (p : A -> bool) l r :
  Forall (fun x => p x = true) r -> drop_while_end p (l ++ r) = drop_while_end p l.
Proof.
  induction r as [|x r IH] using rev_ind; [by rewrite app_nil_r|].
  intros [Hr Hx]%Forall_app. apply Forall_cons_1 in Hx as [Hx _].
  rewrite app_assoc, drop_while_end_snoc, Hx. by apply IH.
Qed.

(** A text whose lower case has only characters of names is not bracketed, padded
    or followed by a port. *)
Lemma normalize_name name :
  Forall (fun c => name_char c = true) (to_ascii_lowercase name) ->
  normalize_host name = normalize_dns_host_or_ip_literal name.
Proof.
  unfold to_ascii_lowercase. rewrite Forall_fmap. intros Hall.
  assert (Hc : forall c, c ∈ name -> is_whitespace c = false /\ c <> 91%N /\ c <> c_colon).
  { intros c Hin. pose proof (proj1 (Forall_forall _ _) Hall c Hin) as Hn. cbn in Hn.
    destruct (N.leb_spec 65 c), (N.leb_spec c 90); cbn [andb] in Hn;
      try (apply name_char_spec in Hn; tauto).
    unfold is_whitespace, c_colon. split; [|lia]. repeat (rewrite orb_false_iff); repeat split;
      rewrite ?andb_false_iff, ?N.leb_gt, ?N.eqb_neq; lia. }
  unfold normalize_host. rewrite trim_no_space by (intros c Hin; apply (Hc c Hin)).
  assert (Hb : bracketed name = None).
  { destruct name as [|c r]; [done|]. cbn. destruct (N.eqb_spec c 91) as [->|]; [|done].
    by destruct (Hc 91%N ltac:(left)) as (_ & ? & _). }
  assert (H0 : count_char c_colon name = 0).
  { unfold count_char. destruct (filter (eq c_colon) name) as [|x l] eqn:E; [done|].
    assert (Hx : x ∈ filter (eq c_colon) name) by (rewrite E; left).
    apply list_elem_of_filter in Hx as [<- Hx]. by destruct (Hc c_colon Hx) as (_ & _ & ?). }
  by rewrite Hb, H0.
Qed.

Lemma localhost_normalizes name : is_localhost_name name = true -> normalize_host name = lit "localhost".
Proof.
  unfold is_localhost_name, eq_ignore_ascii_case. rewrite str_eqb_true.
  change (to_ascii_lowercase (lit "localhost")) with (lit "localhost"). intros Hn.
  destruct (drop_while_end_prefix (N.eqb c_dot) name) as (dots & Hname & Hdots).
  fold (trim_end_matches c_dot name) in Hname.
  assert (Hdl : to_ascii_lowercase dots = dots).
  { apply lower_iff. intros c Hc. pose proof (proj1 (Forall_forall _ _) Hdots c Hc) as Hx.
    apply N.eqb_eq in Hx as <-. unfold c_dot. lia. }
  assert (Hlow : to_ascii_lowercase name = lit "localhost" ++ dots).
  { rewrite Hname at 1. unfold to_ascii_lowercase in *. by rewrite fmap_app, Hn, Hdl. }
  rewrite normalize_name.
  - unfold normalize_dns_host_or_ip_literal. rewrite Hlow. unfold trim_end_matches.
    by rewrite drop_while_end_all.
  - rewrite Hlow. apply Forall_app. split; [by apply (bool_decide_unpack _); vm_compute|].
    eapply Forall_impl; [exact Hdots|]. by intros c <-%N.eqb_eq.
Qed.

Section world.
Context `{W : ProxyWorld}.
Implicit Types st : ConfigState.

(** ** Requests *)

Lemma evaluate_host_policy_Ok answer lookup who decider r st res :
  evaluate_host_policy answer lookup who decider r st = Ok res ->
  exists st', reload_if_needed answer st = Ok st'
    /\ res = (let '(d, override) := decide_host who decider r
                (host_blocked_in st' lookup (request_host r) (request_port r)) in
              (d, audit_of who r d override, st')).
Proof.
  unfold evaluate_host_policy, host_blocked. destruct (reload_if_needed answer st) as [st'|e]; [|done].
  cbn [mbind result_bind]. destruct (decide_host _ _ _ _) as [d o] eqn:E. intros [= <-]. exists st'. by rewrite E.
Qed.

(** Only a refusal for want of an entry can be overridden. *)
Lemma decide_host_allow who decider r b o :
  decide_host who decider r b = (Allow, o) -> b = Allowed /\ o = false \/ b = Blocked NotAllowed /\ o = true.
Proof.
  unfold decide_host, deny_with_source. destruct b as [|[]]; [intros [= <-]; by left|done| |done].
  destruct decider as [decide|]; [|done].
  destruct (map_decider_decision _) as [|? ? ?]; [intros [= <-]; by right|done].
Qed.

(** C8: A request that is allowed never reaches the local network behind the back
    of the policy, whatever the user or a decider answers: unless local binding is
    on, a local name or address must be listed itself, and any other name must
    resolve, and to public addresses only.  What is allowed against the allow list
    is audited as an override. *)
Theorem local_network_protected answer lookup who decider r st audit st' host :
  evaluate_host_policy answer lookup who decider r st = Ok (Allow, audit, st') ->
  parse_host (request_host r) = Some host ->
  (allow_local_binding (config st') = true
   \/ stays_public (allowed (config st')) lookup host (request_port r))
  /\ globset_matches_host_or_unscoped (deny_set st') host = false
  /\ policy_override audit = negb (bool_decide (host_blocked_in st' lookup (request_host r) (request_port r) = Allowed)).
Proof.
  intros (s & _ & Hres)%evaluate_host_policy_Ok Hp.
  destruct (decide_host _ _ _ _) as [d o] eqn:Ed. injection Hres as <- -> ->.
  apply decide_host_allow in Ed. rewrite host_blocked_unfold, Hp in *. rewrite <- local_refused_spec.
  destruct (globset_matches_host_or_unscoped (deny_set s) host); [by destruct Ed as [[? _]|[? _]]|].
  destruct (local_refused s lookup host (request_port r)); [by destruct Ed as [[? _]|[? _]]|].
  split; [done|]. split; [done|]. destruct Ed as [[-> ->]|[-> ->]]; done.
Qed.

(** Whatever the tasks of the proxy have done, a host that an entry of the
    deny list in force covers is refused, and no decider is asked. *)
Theorem denied_host_refused `{!GlobLaws} st sys lookup who decider r host p :
  reloadable st -> rtc step (mkSystem st []) sys ->
  parse_host (request_host r) = Some host ->
  p ∈ denied (config (shared sys)) -> entry_plain p -> covers (entry_pattern p) host ->
  let d := Deny (lit "denied") BaselinePolicy PolicyDeny in
  evaluate_host_policy (Ok None) lookup who decider r (shared sys)
  = Ok (d, audit_of who r d false, shared sys).
Proof.
  intros Hr Hs Hp Hin Hplain Hcov d. destruct (reachable_ok st sys Hr Hs) as [[[Hd _] _] _].
  assert (Hm : globset_matches_host_or_unscoped (deny_set (shared sys)) host = true).
  { eapply set_matches_entry; [exact Hd|exact Hin|done|by eapply parse_host_lower|by left]. }
  unfold evaluate_host_policy, host_blocked, reload_if_needed. cbn [mbind result_bind].
  by rewrite host_blocked_unfold, Hp, Hm.
Qed.

(** ** Connections *)

(** The check of an address of the target: a non-public one is connected to only if
    local binding is on or the target is that address (or the local host) and is listed
    itself. *)
Lemma checked_connection a1 a2 lookup ip_text target port addr st st' :
  match target with HostAddress ip => parse_ip (normalize_host (ip_text ip)) = Some ip | HostName _ => True end ->
  is_non_public_ip addr = true ->
  connect a1 a2 lookup ip_text target port addr st = Ok (true, st') ->
  allow_local_binding (config st') = true
  \/ target_matches_non_public_addr target addr = true
     /\ listed_literally (allowed (config st')) (normalize_host (target_text ip_text target)).
Proof.
  intros Htext Hnp. unfold connect, allows_non_public_target. rewrite Hnp. cbn [negb].
  destruct (reload_if_needed a1 st) as [s1|e]; [|done]. cbn [mbind result_bind].
  destruct (allow_local_binding (config s1)) eqn:Elb; [intros [= <-]; by left|].
  destruct (target_matches_non_public_addr target addr) eqn:Em; [|done]. cbn [negb].
  unfold host_blocked. destruct (reload_if_needed a2 s1) as [s2|e]; [|done]. cbn [mbind result_bind].
  case_bool_decide as Ed; [|done]. intros [= <-].
  rewrite host_blocked_unfold in Ed. unfold parse_host in Ed.
  set (host := normalize_host (target_text ip_text target)) in *.
  destruct (is_empty host); [done|]. destruct (globset_matches_host_or_unscoped (deny_set s2) host); [done|].
  destruct (local_refused s2 lookup host port) eqn:El; [done|].
  apply local_refused_spec in El as [El|El]; [by left|right; split; [done|]].
  unfold stays_public in El. destruct (local_literal host) eqn:Ell; [done|]. exfalso.
  destruct target as [name|ip]; cbn in Em; subst host.
  - apply andb_true_iff in Em as [Em _]. cbn [target_text] in Ell.
    rewrite (localhost_normalizes name Em) in Ell. by vm_compute in Ell.
  - apply bool_decide_eq_true in Em as ->. cbn [target_text] in *. rewrite Htext in El. congruence.
Qed.

(** ** Updates of the lists *)

(** What the broker implies adds no refusals, and no entries to an allow list. *)
Lemma brokered_lists c k :
  (forall p, p ∈ denied (brokered_config c k).1 <-> p ∈ denied c)
  /\ (allowed_domains c <> None -> domains (brokered_config c k).1 = domains c).
Proof.
  unfold brokered_config. set (c1 := if bool_decide _ then _ else c).
  assert (Hc1 : domains c1 = domains c) by (subst c1; by case_bool_decide).
  assert (Ha : allowed_domains c1 = allowed_domains c) by (unfold allowed_domains, domain_entries; by rewrite Hc1).
  clearbody c1. set (created := credential_broker c1 && _).
  set (c2 := if created then _ else c1).
  assert (Hc2 : domains c2 = domains c) by (subst c2; by destruct created).
  clearbody c2. rewrite Ha. destruct (_ && _ && _) eqn:E; cbn [fst].
  - split; [|intros Hn; by destruct (allowed_domains c), created].
    intros p. unfold denied. rewrite !denied_domains_elem. unfold set_allowed_domains.
    rewrite set_domain_entries_elem. unfold entries_of. rewrite Hc2. cbn.
    split; [intros [[? _]|[? _]]; done|by left].
  - split; [|done]. intros p. unfold denied, denied_domains, domain_entries. by rewrite Hc2.
Qed.

Lemma has_host_true host entries :
  has_host host entries = true <-> exists e, e ∈ entries /\ normalize_host e = host.
Proof.
  unfold has_host. rewrite existsb_exists. setoid_rewrite str_eqb_true. setoid_rewrite list_elem_of_In. done.
Qed.

(** The compiled set of a list. *)
Definition list_set (k : DomainListKind) st : GlobSet :=
  match k with AllowList => allow_set st | DenyList => deny_set st end.

Lemma list_entries_compiled k st :
  compiled st -> exists gw, compile_globset_with_policy (list_entries k (config st)) gw = Ok (list_set k st).
Proof. intros [Hd Ha]. destruct k; [by exists AllowGlobal|by exists RejectGlobal]. Qed.

Lemma upserted_entries h k c c' :
  normalize_host h = h -> c' = upsert_domain_permission c h (list_permission k) normalize_host ->
  has_host h (list_entries k c') = true /\ has_host h (opposite_entries k c') = false.
Proof.
  intros Hn ->. split.
  - apply has_host_true. exists h. split; [|done]. destruct k; cbn [list_entries list_permission].
    + apply allowed_domains_elem. rewrite !upsert_elem. cbn. split; [by right|]. by intros [[_ ?]|?].
    + apply denied_domains_elem. rewrite upsert_elem. by right.
  - apply not_true_iff_false. rewrite has_host_true. intros (e & He & Hne).
    destruct k; cbn [opposite_entries list_permission] in He.
    + apply denied_domains_elem in He. rewrite upsert_elem in He. cbn in He.
      destruct He as [[_ ?]|?]; [congruence|done].
    + apply allowed_domains_elem in He as [He _]. rewrite upsert_elem in He. cbn in He.
      destruct He as [[_ ?]|?]; [congruence|done].
Qed.

Lemma brokered_has_host h k c kk :
  has_host h (list_entries k c) = true -> has_host h (opposite_entries k c) = false ->
  has_host h (list_entries k (brokered_config c kk).1) = true
  /\ (k = AllowList -> has_host h (opposite_entries k (brokered_config c kk).1) = false).
Proof.
  intros H1 H2. destruct (brokered_lists c kk) as [Hd Ha]. unfold list_entries, opposite_entries in *. destruct k; cbn iota in *.
  - assert (Hdom : domains (brokered_config c kk).1 = domains c).
    { apply Ha. intros E. by rewrite E in H1. }
    unfold allowed_domains, denied_domains, domain_entries in *. by rewrite Hdom.
  - split; [|done]. apply has_host_true in H1 as (e & He & Hn). apply has_host_true. exists e.
    split; [by apply Hd|done].
Qed.

(** A list that names a host matches it. *)
Lemma named_host_matches `{!GlobLaws} k st host :
  compiled st -> dns_name host -> has_host host (list_entries k (config st)) = true ->
  globset_matches_host_or_unscoped (list_set k st) host = true.
Proof.
  intros Hc Hd (e & He & Hn)%has_host_true. destruct (list_entries_compiled k st Hc) as [gw Hgw].
  pose proof (named_entry e host Hn Hd) as Hp. eapply set_matches_entry; [exact Hgw|exact He| | |].
  - unfold entry_plain. rewrite Hp. by apply dns_plain.
  - by apply dns_lower.
  - left. by rewrite Hp.
Qed.

Lemma parse_host_normalized input host : parse_host input = Some host -> normalize_host input = host.
Proof. unfold parse_host. destruct (is_empty _); [done|]. by intros [= <-]. Qed.

(** What an attempt leaves behind, whether it changes the state or not. *)
Lemma update_attempt_lists h k read st' :
  dns_name h -> compiled read ->
  match update_attempt h k read with
  | Ok (Some new) => st' = new | Ok None => st' = read | Err _ => False end ->
  compiled st' /\ has_host h (list_entries k (config st')) = true
  /\ (k = AllowList -> has_host h (opposite_entries k (config st')) = false).
Proof.
  intros Hd Hc. destruct (update_attempt h k read) as [[new|]|e] eqn:E; [| |done]; intros ->.
  - destruct (update_attempt_ok h k read new E) as (_ & b & Hb & ->).
    destruct (build_state _ _ _ Hb) as (Hcomp & Hcfg & _). split; [exact Hcomp|]. cbn [config with_blocked].
    rewrite Hcfg. apply brokered_has_host; by eapply upserted_entries; [apply dns_normalize_host|].
  - unfold update_attempt in E. destruct (has_host h (list_entries k (config read))) eqn:E1; cbn [andb] in E.
    + destruct (has_host h (opposite_entries k (config read))) eqn:E2; [|done]. cbn [negb] in E.
      destruct (validate _ _); [|done]. cbn [map_err mbind result_bind] in E. by destruct (build_config_state _ _).
    + destruct (validate _ _); [|done]. cbn [map_err mbind result_bind] in E. by destruct (build_config_state _ _).
Qed.

(** After an update that succeeded, in whatever way the host was written, the
    list matches the host: an added refusal refuses it from then on, an added
    permission is on the allow list and no entry of the deny list names it. *)
Theorem list_update_takes_effect `{!GlobLaws} answer input k st st' host :
  compiled st -> (forall s, answer = Ok (Some s) -> compiled s) ->
  parse_host input = Some host -> dns_name host ->
  update_domain_list answer input k st = (Ok tt, st') ->
  match k with
  | DenyList => forall lookup port, host_blocked_in st' lookup input port = Blocked Denied
  | AllowList => globset_matches_host_or_unscoped (allow_set st') host = true
                 /\ has_host host (default [] (denied_domains (config st'))) = false
  end.
Proof.
  intros Hc Ha Hp Hd. unfold update_domain_list. rewrite Hp.
  destruct (reload_if_needed answer st) as [read|e] eqn:Er; [|done].
  assert (Hread : compiled read).
  { unfold reload_if_needed in Er. destruct answer as [[s|]|]; simplify_eq; [|done]. by apply (Ha s). }
  intros Hu.
  destruct (update_attempt_lists host k read st' Hd Hread) as (Hcomp & Hin & Hout).
  { destruct (update_attempt host k read) as [[new|]|e]; simplify_eq; [|done].
    unfold update_commit. rewrite !bool_decide_eq_true_2 by done. done. }
  pose proof (named_host_matches k st' host Hcomp Hd Hin) as Hm.
  destruct k; cbn [list_set] in Hm; [split; [done|exact (Hout eq_refl)]|].
  intros lookup port. by rewrite host_blocked_unfold, Hp, Hm.
Qed.

(** ** Managed allow lists *)

(** C30: Under a managed allow list that users may not expand, every host that an
    entry of the allow list covers is covered by an entry of the managed list.
    For entries that are ordinary names, alone or under a wildcard. *)
Theorem managed_allowlist_contains c k managed e p host :
  constrained c k -> managed_allowed_domains k = Some managed -> allowlist_expansion_enabled k = None ->
  e ∈ allowed c -> regular e p -> url_host (domain_of p) = Some (domain_of p) ->
  (forall m, m ∈ managed -> exists q, regular m q /\ url_host (domain_of q) = Some (domain_of q)) ->
  covers (entry_pattern e) host ->
  exists m, m ∈ managed /\ covers (entry_pattern m) host.
Proof.
  intros Hc Hm Hx He Hreg Hu Hman Hcov.
  destruct (constrained_allowed _ _ Hc managed Hm) as [_ Hv]. unfold validate_allowed_domains in Hv.
  rewrite Hx, check_that_ok in Hv.
  destruct (regular_ok url_host e p Hreg Hu) as [Hentry Hconstr _ Hnorm Hlead].
  assert (Hex : existsb (fun m => pattern_allows m (parse_for_constraints url_host e))
                  (parse_for_constraints url_host <$> managed) = true).
  { destruct (existsb _ _) eqn:Eb; [done|].
    assert (Hin : e ∈ List.filter (fun entry =>
        negb (existsb (fun managed => pattern_allows managed (parse_for_constraints url_host entry))
                (parse_for_constraints url_host <$> managed))) (allowed c))
      by (apply list_elem_of_In, filter_In; rewrite Eb; split; [by apply list_elem_of_In|done]).
    destruct (List.filter _ _); [by rewrite elem_of_nil in Hin|done]. }
  apply existsb_exists in Hex as (mp & Hmp%list_elem_of_In & Hall).
  apply list_elem_of_fmap in Hmp as (m & -> & Hmin). destruct (Hman m Hmin) as (q & Hq & Huq).
  destruct (regular_ok url_host m q Hq Huq) as [Hentry' Hconstr' _ Hnorm' _].
  exists m. split; [done|]. rewrite Hentry', <- Hnorm'. rewrite Hconstr, Hconstr' in Hall.
  eapply pattern_allows_covers; [exact Hall|done|]. by rewrite Hnorm, <- Hentry.
Qed.
End world.

(** * Which addresses the network proxy connects to

    [codex-rs/network-proxy/src/connect_policy.rs] and [upstream.rs], with the dials of
    [http_proxy.rs], [mitm.rs] and [socks5.rs]: the upstream proxies that the environment
    names, the choice between one of them and the target, and the check of every
    address that a stream is opened to.

    The connector of the [rama] crate resolves the peer and calls the stream connector
    it was given for addresses of it, or opens the stream itself when it was given none;
    what is modelled is which of the two it is, and the answer of the stream connector
    for any address.  A proxy address is a value of that crate: its type, its parser and
    whether its protocol is HTTP are parameters. *)

(** ** Upstream proxies *)

Section upstream.
Context {ProxyAddress : Type} (proxy_try_from : rstr -> option ProxyAddress)
  (protocol_is_http : ProxyAddress -> option bool).
(** [std::env::var] *)
Context (env_var : rstr -> option rstr).

Record ProxyConfig := mkProxyConfig {
  http_proxy : option ProxyAddress;
  https_proxy : option ProxyAddress;
  all_proxy : option ProxyAddress
}.

Definition default_proxy_config : ProxyConfig := mkProxyConfig None None None.

Fixpoint read_proxy_env (keys : list rstr) : option ProxyAddress :=
  match keys with
  | [] => None
  | key :: keys =>
      match env_var key with
      | None => read_proxy_env keys
      | Some value =>
          let value := trim value in
          if is_empty value then read_proxy_env keys
          else match proxy_try_from value with
               | Some proxy => if default true (protocol_is_http proxy) then Some proxy else read_proxy_env keys
               | None => read_proxy_env keys
               end
      end
  end.

Definition from_env : ProxyConfig :=
  mkProxyConfig (read_proxy_env [lit "HTTP_PROXY"; lit "http_proxy"])
    (read_proxy_env [lit "HTTPS_PROXY"; lit "https_proxy"])
    (read_proxy_env [lit "ALL_PROXY"; lit "all_proxy"]).

(** [Option::or_else] *)
Definition or_else (a b : option ProxyAddress) : option ProxyAddress := match a with Some _ => a | None => b end.

Definition proxy_for_protocol (c : ProxyConfig) (is_secure : bool) : option ProxyAddress :=
  if is_secure then or_else (or_else (https_proxy c) (http_proxy c)) (all_proxy c)
  else or_else (http_proxy c) (all_proxy c).

Definition proxy_for_target (c : ProxyConfig) (host : TargetHost) (is_secure : bool) : option ProxyAddress :=
  if is_non_public_target host then None else proxy_for_protocol c is_secure.

Definition proxy_for_connect (host : TargetHost) : option ProxyAddress := proxy_for_target from_env host true.

(** ** The connector *)

Inductive ConnectError :=
| UnreadableTarget (e : rstr)
| MissingPort
| ConfigUnreadable (e : ProxyError).

(** What a stream is opened to: the upstream proxy, or the target with its check. *)
Inductive dialer := DialProxy (proxy : ProxyAddress) | DialTarget (host : TargetHost) (port : N).

(** The target of a request, as the transport reads it. *)
#[local] Abbreviation Target := (result rstr (option (TargetHost * N))).

(** [TargetCheckedTcpConnector::serve], with the proxy among the extensions of the
    request *)
Definition serve (proxy : option ProxyAddress) (target : Target) : result ConnectError dialer :=
  match proxy with
  | Some p => Ok (DialProxy p)
  | None =>
      match target with
      | Err e => Err (UnreadableTarget e)
      | Ok None => Err MissingPort
      | Ok (Some (host, port)) => Ok (DialTarget host port)
      end
  end.

Section world.
Context `{W : ProxyWorld}.

(** Whether a stream to an address is opened, the stream itself succeeding. *)
Definition dial (answer1 answer2 : result rstr (option ConfigState))
    (lookup : rstr -> N -> option (list IpAddr)) (ip_text : IpAddr -> rstr)
    (d : dialer) (addr : IpAddr) (st : ConfigState) : result ProxyError (bool * ConfigState) :=
  match d with
  | DialProxy _ => Ok (true, st)
  | DialTarget host port => connect answer1 answer2 lookup ip_text host port addr st
  end.

(** ** The dials of the proxy *)

(** [UpstreamClient::serve], the choice of the proxy; the context of the request is the
    host of its target and whether its protocol is secure. *)
Definition client_proxy (c : ProxyConfig) (context : option (TargetHost * bool)) : option ProxyAddress :=
  match context with
  | None => proxy_for_protocol c false
  | Some (host, secure) => proxy_for_target c host secure
  end.

(** [UpstreamClient::from_env_proxy] or [UpstreamClient::direct] *)
Definition client_config (allow_upstream_proxy : bool) : ProxyConfig :=
  if allow_upstream_proxy then from_env else default_proxy_config.

(** [forward_connect_tunnel], the plain HTTP requests of [http_plain_proxy], the
    requests inside a tunnel that is intercepted, with the setting it was created
    with, and [handle_socks5_tcp] *)
Inductive route :=
| ConnectTunnel (host : TargetHost) (port : N)
| PlainHttp (context : option (TargetHost * bool)) (target : Target)
| Intercepted (allow : bool) (context : option (TargetHost * bool)) (target : Target)
| SocksTcp (host : TargetHost) (port : N).

Definition route_target (r : route) : Target :=
  match r with
  | ConnectTunnel host port | SocksTcp host port => Ok (Some (host, port))
  | PlainHttp _ target | Intercepted _ _ target => target
  end.

(** The host that the choice of a proxy looks at. *)
Definition route_host (r : route) : option TargetHost :=
  match r with
  | ConnectTunnel host _ | SocksTcp host _ => Some host
  | PlainHttp context _ | Intercepted _ context _ => fst <$> context
  end.

(** The setting when it is read, with the state after that; a tunnel takes a setting
    that cannot be read to be off. *)
Definition tunnel_setting (answer : result rstr (option ConfigState)) (st : ConfigState) : bool * ConfigState :=
  match reload_if_needed answer st with
  | Ok st => (allow_upstream_proxy (config st), st)
  | Err _ => (false, st)
  end.

Definition route_dialer (answer : result rstr (option ConfigState)) (r : route) (st : ConfigState)
  : result ConnectError dialer * ConfigState :=
  match r with
  | ConnectTunnel host port =>
      let '(allow, st) := tunnel_setting answer st in
      (serve (if allow then proxy_for_connect host else None) (route_target r), st)
  | PlainHttp context target =>
      match reload_if_needed answer st with
      | Err e => (Err (ConfigUnreadable e), st)
      | Ok st => (serve (client_proxy (client_config (allow_upstream_proxy (config st))) context) target, st)
      end
  | Intercepted allow context target => (serve (client_proxy (client_config allow) context) target, st)
  | SocksTcp host port => (serve None (route_target r), st)
  end.

(** ** No way to the local network *)

(** The upstream proxies of the environment. *)
Definition env_proxies : list ProxyAddress :=
  option_list (http_proxy from_env) ++ option_list (https_proxy from_env) ++ option_list (all_proxy from_env).

(** Whether a route may go through an upstream proxy. *)
Definition upstream_allowed (r : route) (st : ConfigState) : bool :=
  match r with
  | ConnectTunnel _ _ | PlainHttp _ _ => allow_upstream_proxy (config st)
  | Intercepted allow _ _ => allow
  | SocksTcp _ _ => false
  end.

Definition public_host (host : option TargetHost) : Prop :=
  match host with Some h => is_non_public_target h = false | None => True end.

Lemma or_else_elem a b p : or_else a b = Some p -> p ∈ option_list a ++ option_list b.
Proof. destruct a, b; cbn; intros [= <-]; left. Qed.

Lemma proxy_for_protocol_env secure p : proxy_for_protocol from_env secure = Some p -> p ∈ env_proxies.
Proof.
  unfold proxy_for_protocol, env_proxies. destruct secure; intros H%or_else_elem;
    rewrite !elem_of_app in *; destruct H as [H|H]; [|tauto..].
  destruct (or_else _ _) as [q|] eqn:E; [|by apply elem_of_nil in H].
  apply list_elem_of_singleton in H as ->. apply or_else_elem in E. rewrite elem_of_app in E. tauto.
Qed.

Lemma proxy_for_target_env host secure p :
  proxy_for_target from_env host secure = Some p -> p ∈ env_proxies /\ is_non_public_target host = false.
Proof.
  unfold proxy_for_target. destruct (is_non_public_target host); [done|]. intros H. split; [by eapply proxy_for_protocol_env|done].
Qed.

(** No upstream proxy is taken when none is allowed. *)
Lemma client_proxy_env allow context p :
  client_proxy (client_config allow) context = Some p ->
  allow = true /\ p ∈ env_proxies /\ public_host (fst <$> context).
Proof.
  unfold client_proxy, client_config. destruct allow.
  - destruct context as [[host secure]|]; cbn [fst fmap option_fmap option_map public_host]; [|intros H; split_and!; [done|by eapply proxy_for_protocol_env|done]].
    intros H. split; [done|]. by apply (proxy_for_target_env host secure).
  - unfold proxy_for_target. destruct context as [[host secure]|]; [|done]. by destruct (is_non_public_target host), secure.
Qed.

Lemma serve_cases proxy target d :
  serve proxy target = Ok d ->
  (exists p, d = DialProxy p /\ proxy = Some p) \/ exists host port, d = DialTarget host port /\ target = Ok (Some (host, port)).
Proof.
  unfold serve. destruct proxy as [p|]; [intros [= <-]; eauto|].
  destruct target as [[[host port]|]|]; [|done..]. intros [= <-]. right. eauto.
Qed.

(** Which peer a route dials. *)
Lemma route_dialer_peer answer r st d st0 :
  route_dialer answer r st = (Ok d, st0) ->
  match d with
  | DialProxy p => upstream_allowed r st0 = true /\ p ∈ env_proxies /\ public_host (route_host r)
  | DialTarget host port => route_target r = Ok (Some (host, port))
  end.
Proof.
  destruct r as [host port|context target|allow context target|host port]; cbn [route_dialer].
  - destruct (tunnel_setting answer st) as [allow s] eqn:Es. intros [= Hd <-].
    apply serve_cases in Hd as [(p & -> & Hp)|(h & q & -> & Ht)]; [|exact Ht]. destruct allow; [|done].
    apply proxy_for_target_env in Hp as [Hp Hh]. split; [|done]. cbn. unfold tunnel_setting in Es.
    by destruct (reload_if_needed answer st); injection Es as ? <-.
  - destruct (reload_if_needed answer st) as [s|e]; [|done]. intros [= Hd <-].
    apply serve_cases in Hd as [(p & -> & Hp)|(h & q & -> & Ht)]; [|exact Ht]. by apply client_proxy_env in Hp.
  - intros [= Hd <-]. apply serve_cases in Hd as [(p & -> & Hp)|(h & q & -> & Ht)]; [|exact Ht]. by apply client_proxy_env in Hp.
  - intros [= <- _]. done.
Qed.

(** C15: No stream to a loopback, private or otherwise non-public address is opened
    for a request, whatever its route and however names resolved, but to an upstream
    proxy or to a permitted target.  To an upstream proxy only if upstream proxies are
    allowed when the route is chosen, the environment names it, and the target is not
    itself a non-public one; the address of that proxy is not checked.  To the target
    only if local binding is on or the target is that address (or the local host) and is
    listed itself, in the state in which the address is checked.  The text of the
    address of a target parses back to it. *)
Theorem no_connection_to_local_address answer r st d st0 a1 a2 lookup ip_text addr st1 st2 :
  match route_target r with
  | Ok (Some (HostAddress ip, _)) => parse_ip (normalize_host (ip_text ip)) = Some ip
  | _ => True
  end ->
  route_dialer answer r st = (Ok d, st0) ->
  is_non_public_ip addr = true ->
  dial a1 a2 lookup ip_text d addr st1 = Ok (true, st2) ->
  match d with
  | DialProxy p => upstream_allowed r st0 = true /\ p ∈ env_proxies /\ public_host (route_host r)
  | DialTarget host port =>
      route_target r = Ok (Some (host, port))
      /\ (allow_local_binding (config st2) = true
          \/ target_matches_non_public_addr host addr = true
             /\ listed_literally (allowed (config st2)) (normalize_host (target_text ip_text host)))
  end.
Proof.
  intros Htext Hroute Hnp Hdial. apply route_dialer_peer in Hroute. destruct d as [p|host port]; [done|].
  split; [done|]. rewrite Hroute in Htext. cbn [dial] in Hdial.
  by apply (checked_connection a1 a2 lookup ip_text host port addr st1 st2).
Qed.
End world.
End upstream.
