(* ===== verification/NetExamples.v ===== *)
(** * NetExamples: instances and examples for the network proxy

    A matcher of globs that satisfies [GlobLaws], a world for the parameters of
    NetRuntime.v, the theorems of NetPolicy.v and NetSafety.v at concrete inputs,
    and three behaviours that the sources do not intend. *)

From Stdlib Require Import Lia.
From stdpp Require Import base list strings gmap relations.
From S2P Require Import Prelude AbsolutePath NetAddr NetHost NetConfig NetRuntime NetPolicy NetSafety.

(** ** Globs *)

Fixpoint glob_run (p : rstr) (s : rstr) : bool :=
  match p with
  | [] => is_empty s
  | c :: p =>
      if (c =? c_star)%N then
        (fix any s := glob_run p s || match s with [] => false | _ :: s => any s end) s
      else match s with
           | [] => false
           | x :: s => ((c =? c_question)%N || (c =? x)%N) && glob_run p s
           end
  end.

#[export] Instance simple_globs : Globs := {|
  Glob := rstr;
  GlobSet := list rstr;
  glob_build p := Some p;
  glob_matches := glob_run;
  globset_build gs := Some gs;
  is_match gs h := existsb (fun g => glob_run g h) gs
|}.

Lemma glob_run_literal d h : glob_plain d -> glob_run d h = true <-> h = d.
Proof.
  revert h. induction d as [|c d IH]; intros h Hp; cbn [glob_run].
  - by destruct h.
  - apply Forall_cons in Hp as [Hc Hp]. rewrite !elem_of_cons in Hc.
    destruct (N.eqb_spec c c_star) as [->|_]; [tauto|]. destruct h as [|x h]; [done|].
    destruct (N.eqb_spec c c_question) as [->|_]; [tauto|]. cbn [orb].
    rewrite andb_true_iff, N.eqb_eq, (IH h Hp). split; [by intros [-> ->]|by intros [= -> ->]].
Qed.

Lemma glob_run_star p s :
  glob_run (c_star :: p) s = true <-> exists a b, s = a ++ b /\ glob_run p b = true.
Proof.
  cbn [glob_run]. change ((c_star =? c_star)%N) with true. cbn iota.
  induction s as [|x s IH]; rewrite orb_true_iff.
  - split; [intros [H|]; [by exists [], []|done]|]. intros (a & b & E & H). left.
    symmetry in E. apply app_eq_nil in E as [-> ->]. done.
  - rewrite IH. split.
    + intros [H|(a & b & -> & H)]; [by exists [], (x :: s)|by exists (x :: a), b].
    + intros ([|y a] & b & E & H); [left; cbn in E; by subst b|right]. injection E as -> ->. by exists a, b.
Qed.

#[export] Instance simple_glob_laws : GlobLaws.
Proof.
  split.
  - intros d g h Hp _ _ [= <-]. by apply glob_run_literal.
  - intros d g h Hp _ _ [= <-].
    transitivity (glob_run (c_question :: c_star :: c_dot :: d) h = true); [done|].
    assert (Hq : glob_run (c_question :: c_star :: c_dot :: d) h
                 = match h with [] => false | x :: s => glob_run (c_star :: c_dot :: d) s end) by done.
    rewrite Hq. destruct h as [|x s]; [split; [done|by intros ([] & ? & ?)]|].
    rewrite glob_run_star. assert (Hd : glob_plain (c_dot :: d)).
    { constructor; [|done]. rewrite !elem_of_cons, elem_of_nil. unfold c_dot, c_star, c_question, c_backslash. lia. }
    setoid_rewrite (glob_run_literal (c_dot :: d) _ Hd). split.
    + intros (a & b & -> & ->). by exists (x :: a).
    + intros ([|y l] & Hl & E); [done|]. injection E as -> ->. by exists l, (c_dot :: d).
  - by intros gs set h [= <-].
Qed.

#[export] Instance simple_world : ProxyWorld := {|
  HookConfig := unit;
  Hooks := unit;
  MitmState := unit;
  world_globs := simple_globs;
  url_host := Some;
  debug_list := fun _ => [];
  validate_mitm_hook_config := fun _ => Ok tt;
  compile_mitm_hooks := fun _ => Ok tt;
  mitm_state_new := fun _ => Ok tt;
  world_paths := mkPathEnv None (Some (lit "/home/u")) (Some (lit "/w"))
|}.

Module Examples.

Definition allow (p : string) : NetworkDomainPermissionEntry := mkDomainEntry (lit p) PermAllow.
Definition deny (p : string) : NetworkDomainPermissionEntry := mkDomainEntry (lit p) PermDeny.

Definition a_config (entries : NetworkDomainPermissions) : NetworkProxyConfig HookConfig :=
  with_domains (default_config (HookConfig := HookConfig)) (Some entries).

Definition empty_state : ConfigState :=
  mkConfigState (a_config []) false [] [] None tt no_constraints [] 0.

(** The state built from a configuration. *)
Definition a_state (c : NetworkProxyConfig HookConfig) (k : NetworkProxyConstraints) : ConfigState :=
  match build_config_state c k with Ok st => st | Err _ => empty_state end.

Definition lists : NetworkDomainPermissions :=
  [allow "*.example.com"; allow "localhost"; deny "bad.example.com"].
Definition state0 : ConfigState := a_state (a_config lists) no_constraints.

(** A name server with a name in the local network. *)
Definition server (host : rstr) (port : N) : option (list IpAddr) :=
  if (host == lit "api.example.com")%rust then Some [V4 (mkIpv4 93 184 216 34)]
  else if (host == lit "inside.example.com")%rust then Some [V4 (mkIpv4 10 0 0 7)]
  else None.

Lemma state0_reloadable : reloadable state0.
Proof. exists (a_config lists), no_constraints. by vm_compute. Qed.

Lemma state0_compiled : compiled state0.
Proof. by vm_compute. Qed.

Definition plain_entry (e : rstr) : bool :=
  forallb (fun c => negb (existsb (N.eqb c) [c_star; c_question; 91; 93; 123; 125; c_backslash]%N))
    (domain_of (entry_pattern e)).

Lemma plain_entry_ok e : plain_entry e = true -> entry_plain e.
Proof.
  unfold plain_entry, entry_plain, glob_plain. rewrite forallb_forall, Forall_forall. intros H c Hc.
  specialize (H c (proj1 (list_elem_of_In _ _) Hc)). intros Hin. apply negb_true_iff in H.
  assert (Ht : existsb (N.eqb c) [c_star; c_question; 91; 93; 123; 125; c_backslash]%N = true); [|congruence].
  apply existsb_exists. exists c. split; [by apply list_elem_of_In|by apply N.eqb_refl].
Qed.

Lemma plain_entries_ok l : forallb plain_entry l = true -> Forall entry_plain l.
Proof. rewrite forallb_forall, Forall_forall. intros H e He. by apply plain_entry_ok, H, list_elem_of_In. Qed.

(** The decisions on the hosts of the lists. *)
Lemma host_decision_refines_witness :
  decision_spec state0 server (lit "API.example.com.") 443 Allowed
  /\ decision_spec state0 server (lit "bad.example.com:80") 443 (Blocked Denied)
  /\ decision_spec state0 server (lit "inside.example.com") 443 (Blocked NotAllowedLocal)
  /\ decision_spec state0 server (lit "LocalHost") 443 Allowed.
Proof.
  pose proof (fun i d => proj1 (host_decision_refines state0 server i 443 d state0_compiled
    (plain_entries_ok (denied (config state0)) eq_refl) (plain_entries_ok (allowed (config state0)) eq_refl))) as H.
  repeat split; apply H; by vm_compute.
Defined.

Definition request (host : rstr) : NetworkPolicyRequest :=
  mkRequest HttpsConnect host 443 None None None None None None.
Definition nobody : Identity := mkIdentity None None.

(** The user lets a name through that is not listed and is public. *)
Lemma local_network_protected_witness :
  stays_public (allowed (config empty_state)) server (lit "api.example.com") 443.
Proof.
  destruct (local_network_protected (Ok None) server nobody (Some (fun _ => Allow))
    (request (lit "api.example.com")) empty_state
    (mkAudit (lit "allow") Decider (lit "not_allowed") HttpsConnect (lit "api.example.com") 443 None None None true)
    empty_state (lit "api.example.com") eq_refl eq_refl) as [[H|H] _]; [by vm_compute in H|exact H].
Defined.

Lemma denied_host_refused_witness :
  evaluate_host_policy (Ok None) server nobody (Some (fun _ => Allow)) (request (lit "BAD.example.com"))
    (push_blocked state0 (mkBlocked [] [] None None None [] None None None None 0))
  = Ok (Deny (lit "denied") BaselinePolicy PolicyDeny,
        audit_of nobody (request (lit "BAD.example.com")) (Deny (lit "denied") BaselinePolicy PolicyDeny) false,
        push_blocked state0 (mkBlocked [] [] None None None [] None None None None 0)).
Proof.
  refine (denied_host_refused state0 (mkSystem (push_blocked state0 (mkBlocked [] [] None None None [] None None None None 0)) [])
    server nobody (Some (fun _ => Allow)) (request (lit "BAD.example.com")) (lit "bad.example.com")
    (lit "bad.example.com") state0_reloadable _ eq_refl _ (plain_entry_ok (lit "bad.example.com") eq_refl) eq_refl).
  - apply rtc_once. constructor.
  - by apply (bool_decide_unpack _); vm_compute.
Defined.

(** An environment that names one upstream proxy, on the local host. *)
Definition proxy_env (key : rstr) : option rstr :=
  if (key == lit "HTTP_PROXY")%rust then Some (lit " 127.0.0.1:43128 ") else None.

(** A name that resolved to a private address is not connected to; the local host
    is, since it is listed; a public target is reached through the upstream proxy. *)
Lemma no_connection_to_local_address_witness :
  dial (Ok None) (Ok None) server (fun _ => []) (DialTarget (ProxyAddress := rstr) (HostName (lit "inside.example.com")) 443)
    (V4 (mkIpv4 10 0 0 7)) state0 = Ok (false, state0)
  /\ listed_literally (allowed (config state0)) (lit "localhost")
  /\ lit "127.0.0.1:43128" ∈ env_proxies (ProxyAddress := rstr) Some (fun _ => None) proxy_env.
Proof.
  split; [by vm_compute|]. split.
  - destruct (no_connection_to_local_address (ProxyAddress := rstr) Some (fun _ => None) proxy_env (Ok None)
      (ConnectTunnel (HostName (lit "localhost")) 443) state0 (DialTarget (HostName (lit "localhost")) 443) state0
      (Ok None) (Ok None) server (fun _ => []) (V4 (mkIpv4 127 0 0 1)) state0 state0 I) as [_ [H|[_ H]]];
      [by vm_compute|by vm_compute|by vm_compute|by vm_compute in H|exact H].
  - destruct (no_connection_to_local_address (ProxyAddress := rstr) Some (fun _ => None) proxy_env (Ok None)
      (ConnectTunnel (HostName (lit "api.example.com")) 443) state0 (DialProxy (lit "127.0.0.1:43128")) state0
      (Ok None) (Ok None) server (fun _ => []) (V4 (mkIpv4 127 0 0 1)) state0 state0 I) as (_ & H & _);
      [by vm_compute|by vm_compute|by vm_compute|exact H].
Defined.

Lemma policy_always_constrained_witness :
  constrained (config (push_blocked state0 (mkBlocked [] [] None None None [] None None None None 0)))
    no_constraints.
Proof.
  refine (proj1 (policy_always_constrained state0 (mkSystem (push_blocked state0 _) []) state0_reloadable _)).
  apply rtc_once. constructor.
Defined.

Definition after_deny : ConfigState := (update_domain_list (Ok None) (lit "Worse.com.") DenyList state0).2.

(** A task that read the state before a refusal was logged installs its update. *)
Lemma update_linearises_witness :
  update_attempt (lit "worse.com") DenyList
    (push_blocked state0 (mkBlocked [] [] None None None [] None None None None 0))
  = Ok (Some (push_blocked after_deny (mkBlocked [] [] None None None [] None None None None 0))).
Proof.
  exact (update_linearises (lit "worse.com") DenyList state0 after_deny
    (push_blocked state0 (mkBlocked [] [] None None None [] None None None None 0)) after_deny eq_refl eq_refl).
Defined.

Lemma list_update_takes_effect_witness :
  host_blocked_in after_deny server (lit "worse.com") 443 = Blocked Denied.
Proof.
  refine (list_update_takes_effect (Ok None) (lit "worse.com") DenyList state0 after_deny (lit "worse.com")
    state0_compiled _ _ _ _ server 443%N).
  - done.
  - by vm_compute.
  - by apply (bool_decide_unpack _); vm_compute.
  - by vm_compute.
Defined.

(** ** A managed allow list *)

Definition managed_to (l : list rstr) : NetworkProxyConstraints :=
  mkConstraints None None None None None (Some l) None None None None None.

Lemma managed_allowlist_contains_witness :
  exists m, m ∈ [lit "**.example.com"] /\ covers (entry_pattern m) (lit "a.b.example.com").
Proof.
  refine (managed_allowlist_contains (a_config [allow "*.b.example.com"]) (managed_to [lit "**.example.com"])
    [lit "**.example.com"] (lit "*.b.example.com") (SubdomainsOnly (lit "b.example.com")) (lit "a.b.example.com")
    _ eq_refl eq_refl _ _ eq_refl _ _).
  - apply validate_constrained. by vm_compute.
  - by apply (bool_decide_unpack _); vm_compute.
  - apply (regular_subdomains (lit "b.example.com")). by apply (bool_decide_unpack _); vm_compute.
  - intros m ->%list_elem_of_singleton. exists (ApexAndSubdomains (lit "example.com")). split; [|done].
    apply (regular_apex (lit "example.com")). by apply (bool_decide_unpack _); vm_compute.
  - exists (lit "a"). done.
Defined.

(** An entry with a port escapes a managed allow list: it is compared with
    the managed patterns as it is written, and it is compiled to the name before
    its port.  Under a managed list of the subdomains of example.com a user allows
    evil.com. *)
Theorem port_escapes_managed_allowlist :
  let c := a_config [allow "evil.com:*.example.com"] in
  let k := managed_to [lit "*.example.com"] in
  validate c k = Ok tt
  /\ host_blocked_in (a_state c k) (fun _ _ => Some []) (lit "evil.com") 443 = Allowed
  /\ ~ covers (entry_pattern (lit "*.example.com")) (lit "evil.com").
Proof.
  split; [by vm_compute|]. split; [by vm_compute|]. intros (l & _ & E).
  assert (H : ends_with (lit ".example.com") (lit "evil.com") = true); [|by vm_compute in H].
  change (lit ".example.com") with (c_dot :: lit "example.com").
  replace (lit "evil.com") with (l ++ c_dot :: lit "example.com") by (symmetry; exact E). apply ends_with_app.
Qed.

Definition a_refusal : BlockedRequest := mkBlocked (lit "x.com") (lit "not_allowed") None None None [] None None None None 0.

(** A refusal that is logged between the read and the write of an update of a
    list is lost, and so is its count. *)
Theorem refusal_lost_by_update :
  rtc step (mkSystem state0 [Updating (lit "worse.com") DenyList state0])
           (mkSystem after_deny [])
  /\ step (mkSystem state0 [Updating (lit "worse.com") DenyList state0])
          (mkSystem (push_blocked state0 a_refusal) [Updating (lit "worse.com") DenyList state0])
  /\ step (mkSystem (push_blocked state0 a_refusal) [Updating (lit "worse.com") DenyList state0])
          (mkSystem after_deny [])
  /\ blocked (push_blocked state0 a_refusal) = [a_refusal] /\ blocked after_deny = []
  /\ blocked_total after_deny = 0%N.
Proof.
  assert (H1 : step (mkSystem state0 [Updating (lit "worse.com") DenyList state0])
          (mkSystem (push_blocked state0 a_refusal) [Updating (lit "worse.com") DenyList state0])) by constructor.
  assert (H2 : step (mkSystem (push_blocked state0 a_refusal) [Updating (lit "worse.com") DenyList state0])
          (mkSystem after_deny [])).
  { apply (step_update_write _ _ [] [] _ _ _ after_deny); by vm_compute. }
  split; [eapply rtc_l; [exact H1|by apply rtc_once]|]. split; [exact H1|]. split; [exact H2|]. by vm_compute.
Qed.

(** A forced reload keeps the log of refusals and forgets how many there
    were; the other reloads keep both. *)
Theorem forced_reload_resets_total :
  let st := push_blocked state0 a_refusal in
  (let st' := (force_reload (Ok state0) st).2 in blocked st' = [a_refusal] /\ blocked_total st' = 0%N)
  /\ exists st', reload_if_needed (Ok (Some state0)) st = Ok st'
                 /\ blocked st' = [a_refusal] /\ blocked_total st' = 1%N.
Proof. split; [by vm_compute|]. eexists. split; [done|by vm_compute]. Qed.
End Examples.
