(* ===== verification/ConfigToml.v ===== *)
(** * ConfigToml: values of the configuration and how they are merged

    The merging of configuration values of [codex-rs/config/src/merge.rs], with the
    legacy names of keys ([key_aliases.rs]) and the overrides of the command line
    ([overrides.rs]), for the Unix build.

    A table of the [toml] crate is the list of its entries; its operations are the
    classes [MapOps] and [MapLaws] of JsonPatch.v.  Floats, datetimes and
    [str::to_lowercase] are arguments.

    Merging is specified on the view of a value: what is at the end of a path of keys,
    where a Boolean in the place of a structured feature stands for a table with that
    Boolean as [enabled]. *)

From Stdlib Require Import Lia ZArith.
From stdpp Require Import base list strings.
From S2P Require Import Prelude JsonPatch NetAddr NetHost.

Open Scope rust_scope.

Inductive TomlValue {Float Datetime : Type} :=
| TString (s : rstr)
| TInteger (z : Z)
| TFloat (f : Float)
| TBoolean (b : bool)
| TDatetime (d : Datetime)
| TArray (items : list TomlValue)
| TTable (t : list (rstr * TomlValue)).
Arguments TomlValue : clear implicits.

(** [str::to_lowercase] *)
Class Lowercase := to_lowercase : rstr -> rstr.
Class LowercaseLaws `{!Lowercase} := {
  to_lowercase_idem s : to_lowercase (to_lowercase s) = to_lowercase s
}.

(** ** Paths with a meaning *)

Definition k_policy := lit "shell_environment_policy".
Definition k_filters := lit "filters".
Definition k_exclude := lit "exclude".
Definition k_include_only := lit "include_only".
Definition k_enabled := lit "enabled".

Definition is_structured_feature (features feature : rstr) : bool :=
  (features == lit "features") && ((feature == lit "multi_agent_v2") || (feature == lit "network_proxy")).

Definition is_structured_feature_path (path : list rstr) : bool :=
  match path with
  | [profiles; _; features; feature] =>
      (profiles == lit "profiles") && is_structured_feature features feature
  | [features; feature] => is_structured_feature features feature
  | _ => false
  end.

Definition is_shell_environment_filters_path (path : list rstr) : bool :=
  match path with
  | [policy; filters] => (policy == k_policy) && (filters == k_filters)
  | _ => false
  end.

Definition is_permission_network_domains_path (path : list rstr) : bool :=
  match path with
  | [permissions; _; network; domains] =>
      (permissions == lit "permissions") && (network == lit "network") && (domains == lit "domains")
  | _ => false
  end.

Definition is_policy_path (path : list rstr) : bool :=
  match path with [policy] => policy == k_policy | _ => false end.

(** ** Legacy names of keys *)

Record ConfigKeyAlias := mkAlias {
  table_path : list rstr;
  legacy_key : rstr;
  canonical_key : rstr
}.

Definition CONFIG_KEY_ALIASES : list ConfigKeyAlias := [
  mkAlias [lit "memories"] (lit "no_memories_if_mcp_or_web_search") (lit "disable_on_external_context");
  mkAlias [lit "agents"] (lit "max_threads") (lit "max_concurrent_threads_per_session")].

Inductive FilterRepresentation := Filters | Legacy.

(** [ShellEnvironmentPolicyFilterRepresentation::displaced_fields] *)
Definition displaced_fields (r : FilterRepresentation) : list rstr :=
  match r with Filters => [k_exclude; k_include_only] | Legacy => [k_filters] end.

Section config.
Context {Float Datetime : Type} `{!MapOps (TomlValue Float Datetime)} {lowercase : Lowercase}.
#[local] Abbreviation TomlValue := (TomlValue Float Datetime).
#[local] Abbreviation TomlMap := (list (rstr * TomlValue)).
Implicit Types (v b o : TomlValue) (t : TomlMap) (path p : list rstr) (k : rstr).

(** [entry(k).or_insert(v)] *)
Definition or_insert t k v : TomlMap := if contains_key t k then t else map_insert t k v.

Definition apply_alias path t (a : ConfigKeyAlias) : TomlMap :=
  if bool_decide (path = table_path a) then
    match map_get t (legacy_key a) with
    | Some v => or_insert (map_remove t (legacy_key a)) (canonical_key a) v
    | None => t
    end
  else t.

Definition normalize_key_aliases path t : TomlMap := foldl (apply_alias path) t CONFIG_KEY_ALIASES.

Fixpoint normalized_with_key_aliases path v : TomlValue :=
  match v with
  | TTable t =>
      TTable (normalize_key_aliases path
        (fold_left (fun m e => map_insert m e.1 (normalized_with_key_aliases (path ++ [e.1]) e.2)) t []))
  | TArray items => TArray (List.map (normalized_with_key_aliases path) items)
  | v => v
  end.

(** ** Filters of the shell environment *)

(** [ShellEnvironmentPolicyFilterRepresentation::from_policy] *)
Definition from_policy v : option FilterRepresentation :=
  match v with
  | TTable policy =>
      if contains_key policy k_filters then Some Filters
      else if contains_key policy k_exclude || contains_key policy k_include_only then Some Legacy
      else None
  | _ => None
  end.

(** [ShellEnvironmentPolicyFilterRepresentation::from_path] and [from_edit]: the
    representation that an edit of the configuration selects. *)
Definition from_path path : option FilterRepresentation :=
  match path with
  | policy :: field :: _ =>
      if policy == k_policy then
        if field == k_filters then Some Filters
        else if (field == k_exclude) || (field == k_include_only) then Some Legacy else None
      else None
  | _ => None
  end.

Definition from_edit path v : option FilterRepresentation :=
  if is_policy_path path then from_policy v else from_path path.

(** The filter whose pattern is that of the path, up to case. *)
Definition shell_environment_filter_entry root path : option (rstr * TomlValue) :=
  match path, root with
  | [policy; filters; pattern], TTable t =>
      if (policy != k_policy) || (filters != k_filters) then None
      else match map_get t policy with
           | Some (TTable pt) =>
               match map_get pt filters with
               | Some (TTable ft) => List.find (fun e => to_lowercase e.1 == to_lowercase pattern) ft
               | _ => None
               end
           | _ => None
           end
  | _, _ => None
  end.

(** [replace_shell_environment_policy_filter_representation] *)
Definition replace_representation b o path : TomlValue :=
  if negb (is_policy_path path) then b
  else match from_policy o with
       | None => b
       | Some r =>
           match b with
           | TTable t => TTable (foldl map_remove t (displaced_fields r))
           | _ => b
           end
       end.

Definition rekey (f : rstr -> rstr) t : TomlMap := foldl (fun m e => map_insert m (f e.1) e.2) [] t.
Definition normalize_network_domain_keys t : TomlMap := rekey normalize_host t.
Definition normalize_case_insensitive_keys t : TomlMap := rekey to_lowercase t.

(** ** Merging *)

(** A Boolean and a table in the place of a structured feature; the flag says that
    the merge is done. *)
Definition merge_feature path b o : TomlValue * bool :=
  if is_structured_feature_path path then
    match b, o with
    | TBoolean enabled, TTable _ => (TTable (map_insert [] k_enabled (TBoolean enabled)), false)
    | TTable t, TBoolean enabled => (TTable (map_insert t k_enabled (TBoolean enabled)), true)
    | _, _ => (b, false)
    end
  else (b, false).

(** The keys of the two tables, before the entries are merged. *)
Definition normalize_tables path bt ot : TomlMap * TomlMap :=
  let bt := normalize_key_aliases path bt in
  let ot := normalize_key_aliases path ot in
  let '(bt, ot) :=
    if is_permission_network_domains_path path
    then (normalize_network_domain_keys bt, normalize_network_domain_keys ot) else (bt, ot) in
  if is_shell_environment_filters_path path
  then (normalize_case_insensitive_keys bt, normalize_case_insensitive_keys ot) else (bt, ot).

(** One entry of the overlay. *)
Definition merge_entry (merge : list rstr -> TomlValue -> TomlValue -> TomlValue) path bt (e : rstr * TomlValue)
  : TomlMap :=
  let '(key, value) := e in
  if contains_key bt key then map_alter (fun existing => merge (path ++ [key]) existing value) bt key
  else map_insert bt key (normalized_with_key_aliases (path ++ [key]) value).

(** [merge_toml_values_at_path]; the fuel bounds the depth of the overlay. *)
Fixpoint merge_at (fuel : nat) path b o : TomlValue :=
  match fuel with
  | 0 => b
  | S fuel =>
      let b := replace_representation b o path in
      let '(b, done) := merge_feature path b o in
      if done then b
      else match o, b with
           | TTable ot, TTable bt =>
               let '(bt, ot) := normalize_tables path bt ot in
               TTable (foldl (merge_entry (merge_at fuel) path) bt ot)
           | _, _ => normalized_with_key_aliases path o
           end
  end.

Fixpoint toml_depth v : nat :=
  match v with
  | TTable t => S (fold_right (fun e => Nat.max (toml_depth e.2)) 0 t)
  | _ => 1
  end.

Definition merge_toml_values b o : TomlValue := merge_at (toml_depth o) [] b o.

(** ** Overrides of the command line *)

Definition default_empty_table : TomlValue := TTable [].

(** The last segment of an override, in the table it belongs to. *)
Definition set_last (structured : bool) table segment value : TomlValue :=
  match (if structured then map_get table segment else None) with
  | Some (TTable feature) =>
      match value with
      | TBoolean enabled =>
          TTable (map_alter (fun _ => TTable (map_insert feature k_enabled (TBoolean enabled))) table segment)
      | TTable _ => TTable (map_alter (fun existing => merge_toml_values existing value) table segment)
      | _ => TTable (map_insert table segment value)
      end
  | Some (TBoolean enabled) =>
      match value with
      | TTable _ =>
          TTable (map_alter (fun _ => merge_toml_values (TTable (map_insert [] k_enabled (TBoolean enabled))) value)
                    table segment)
      | _ => TTable (map_insert table segment value)
      end
  | _ => TTable (map_insert table segment value)
  end.

Definition enabled_table (structured : bool) v : TomlValue :=
  match v with
  | TBoolean enabled => if structured then TTable (map_insert [] k_enabled (TBoolean enabled)) else v
  | _ => v
  end.

(** The loop of [apply_toml_override] over the segments of the path. *)
Fixpoint apply_segments (traversed : list rstr) (segments : list rstr) current value : TomlValue :=
  match segments with
  | [] => current
  | segment :: rest =>
      let traversed := traversed ++ [segment] in
      let structured := is_structured_feature_path traversed in
      match rest with
      | [] =>
          match current with
          | TTable table => set_last structured table segment value
          | _ => TTable (map_insert [] segment value)
          end
      | _ :: _ =>
          match current with
          | TTable table =>
              TTable (map_alter (fun c => apply_segments traversed rest (enabled_table structured c) value)
                        (or_insert table segment default_empty_table) segment)
          | _ => TTable (map_insert [] segment (apply_segments traversed rest default_empty_table value))
          end
      end
  end.

Definition apply_toml_override root (path : rstr) value : TomlValue :=
  apply_segments [] (split_on c_dot path) root value.

Definition build_cli_overrides_layer (cli_overrides : list (rstr * TomlValue)) : TomlValue :=
  foldl (fun root e => apply_toml_override root e.1 e.2) default_empty_table cli_overrides.

(** ** The view of a value *)

Inductive view := Absent | ATable | Leaf (v : TomlValue).

(** A Boolean in the place of a structured feature, as the table it stands for. *)
Definition as_feature_table path v : TomlValue :=
  match v with
  | TBoolean b => if is_structured_feature_path path then TTable [(k_enabled, TBoolean b)] else v
  | _ => v
  end.

(** What is found below [path], at the end of [p]. *)
Fixpoint look path v p {struct p} : view :=
  match p, as_feature_table path v with
  | [], TTable _ => ATable
  | [], v => Leaf v
  | k :: p, TTable t => match map_get t k with Some c => look (path ++ [k]) c p | None => Absent end
  | _ :: _, _ => Absent
  end.

Definition is_leaf (x : view) : bool := match x with Leaf _ => true | _ => false end.

(** A higher layer over a lower one: what it says counts, and a value that is not a
    table hides everything below its path. *)
Fixpoint hidden (o : list rstr -> view) p : bool :=
  match p with [] => false | k :: p => is_leaf (o []) || hidden (fun q => o (k :: q)) p end.

Definition overlay_view (b o : list rstr -> view) p : view :=
  match o p with
  | Absent => if hidden o p then Absent else b p
  | x => x
  end.

(** Paths whose keys are merged in a way of their own: filters of the shell
    environment and domains of a permission profile. *)
Definition special_path p : bool :=
  match p with
  | [] => false
  | policy :: field :: _ =>
      ((policy == k_policy) && ((field == k_filters) || (field == k_exclude) || (field == k_include_only)))
      || match p with
         | permissions :: _ :: network :: domains :: _ :: _ =>
             (permissions == lit "permissions") && (network == lit "network") && (domains == lit "domains")
         | _ => false
         end
  | _ => false
  end.

(** Keys of tables are distinct. *)
Fixpoint toml_wf v : Prop :=
  match v with
  | TTable t => NoDup t.*1 /\ fold_right (fun e P => toml_wf e.2 /\ P) True t
  | _ => True
  end.

(** No legacy key is left. *)
Definition settled path v : Prop :=
  forall a p, a ∈ CONFIG_KEY_ALIASES -> path ++ p = table_path a -> look path v (p ++ [legacy_key a]) = Absent.
End config.
