(* ===== verification/ConfigMerge.v ===== *)
(** * ConfigMerge: merging configuration values

    What merging does to the view of a value (ConfigToml.v), for every path whose keys
    have no merge of their own; and what an override of the command line does. *)

From Stdlib Require Import Lia ZArith.
From stdpp Require Import base list strings.
From S2P Require Import Prelude JsonPatch NetAddr NetHost ConfigToml.

Open Scope rust_scope.

Section merge.
Context {Float Datetime : Type} `{!MapOps (TomlValue Float Datetime)} `{!MapLaws (TomlValue Float Datetime)}
  {lowercase : Lowercase}.
#[local] Abbreviation TomlValue := (TomlValue Float Datetime).
#[local] Abbreviation TomlMap := (list (rstr * TomlValue)).
#[local] Abbreviation viewed := (list rstr -> view (Float := Float) (Datetime := Datetime)).
Implicit Types (v b o : TomlValue) (t : TomlMap) (path p : list rstr) (k : rstr).

Lemma toml_ind (P : TomlValue -> Prop) :
  (forall s, P (TString s)) -> (forall z, P (TInteger z)) -> (forall f, P (TFloat f)) ->
  (forall x, P (TBoolean x)) -> (forall d, P (TDatetime d)) ->
  (forall l, Forall P l -> P (TArray l)) -> (forall t, Forall (fun e => P e.2) t -> P (TTable t)) ->
  forall v, P v.
Proof.
  intros Hs Hz Hf Hb Hd Ha Ht. fix IH 1. intros [s|z|f|b|d|l|t]; [apply Hs|apply Hz|apply Hf|apply Hb|apply Hd| |].
  - apply Ha. induction l; constructor; auto.
  - apply Ht. induction t as [|[k v] t IHt]; constructor; [apply IH|exact IHt].
Qed.

(** ** Tables *)

Lemma toml_wf_table t : toml_wf (TTable t) <-> NoDup t.*1 /\ forall k c, (k, c) ∈ t -> toml_wf c.
Proof.
  cbn [toml_wf]. split; intros [H1 H2]; (split; [exact H1|]).
  - clear H1. induction t as [|[k0 c0] t IH]; intros k c; [by intros ?%elem_of_nil|]. destruct H2 as [H2 H3].
    intros [[= -> ->]|Hin]%elem_of_cons; [exact H2|]. by apply (IH H3 k).
  - clear H1. induction t as [|[k c] t IH]; [done|]. split; [apply (H2 k); left|].
    apply IH. intros k' c' Hin. apply (H2 k'). by right.
Qed.

Lemma wf_get t k c : toml_wf (TTable t) -> map_get t k = Some c -> toml_wf c.
Proof. intros [_ H]%toml_wf_table Hg. apply (H k), map_get_elem, Hg. Qed.

Lemma wf_keys t : toml_wf (TTable t) -> NoDup t.*1.
Proof. by intros [H _]%toml_wf_table. Qed.

(** A table whose entries all come from well-formed values. *)
Lemma wf_by_get t : NoDup t.*1 -> (forall k c, map_get t k = Some c -> toml_wf c) -> toml_wf (TTable t).
Proof. intros Hnd H. apply toml_wf_table. split; [done|]. intros k c Hin. apply (H k), elem_map_get; done. Qed.

Lemma contains_get t k : contains_key t k = is_some (map_get t k).
Proof. done. Qed.

(** Entries inserted one after the other. *)
Lemma insert_all_get (f : rstr * TomlValue -> TomlValue) t m k :
  NoDup t.*1 -> NoDup m.*1 ->
  let r := fold_left (fun m e => map_insert m e.1 (f e)) t m in
  NoDup r.*1
  /\ map_get r k = match map_get t k with Some v => Some (f (k, v)) | None => map_get m k end.
Proof.
  revert m. induction t as [|[k0 v0] t IH]; intros m Hnt Hnm; [done|]. cbn [fmap list_fmap fst] in Hnt.
  apply NoDup_cons in Hnt as [Hk Hnt]. cbn [fold_left fst]. destruct (IH (map_insert m k0 (f (k0, v0))) Hnt) as [H1 H2];
    [by apply map_insert_keys|]. split; [exact H1|]. rewrite H2. cbn [map_get].
  destruct (k0 == k) eqn:E.
  - apply str_eqb_true in E as <-. apply map_get_None in Hk. rewrite Hk. rewrite map_insert_get by done.
    by rewrite str_eqb_refl.
  - destruct (map_get t k); [done|]. rewrite map_insert_get by done. by rewrite E.
Qed.

Lemma map_removes_get t ks k :
  NoDup t.*1 ->
  NoDup (foldl map_remove t ks).*1
  /\ map_get (foldl map_remove t ks) k = if bool_decide (k ∈ ks) then None else map_get t k.
Proof.
  revert t. induction ks as [|k0 ks IH]; intros t Hnd; [done|]. cbn [foldl].
  destruct (IH (map_remove t k0)) as [H1 H2]; [by apply map_remove_keys|]. split; [exact H1|]. rewrite H2, map_remove_get by done.
  destruct (k0 == k) eqn:E.
  - apply str_eqb_true in E as ->. rewrite (bool_decide_true (k ∈ k :: ks)) by left. by destruct (bool_decide _).
  - apply str_eqb_ne in E. destruct (decide (k ∈ ks)) as [Hin|Hin].
    + rewrite !bool_decide_true; [done| |done]. by right.
    + rewrite !bool_decide_false; [done| |done]. intros [->|?]%elem_of_cons; done.
Qed.

(** ** Legacy keys *)

(** The lookup that an alias leaves. *)
Definition alias_get path (a : ConfigKeyAlias) (g : rstr -> option TomlValue) k : option TomlValue :=
  if bool_decide (path = table_path a) then
    if legacy_key a == k then None
    else if canonical_key a == k then match g k with Some v => Some v | None => g (legacy_key a) end
    else g k
  else g k.

Lemma aliases_shape a :
  a ∈ CONFIG_KEY_ALIASES -> length (table_path a) = 1 /\ (legacy_key a == canonical_key a) = false
    /\ special_path (table_path a ++ [legacy_key a]) = false
    /\ is_structured_feature_path (table_path a) = false.
Proof.
  unfold CONFIG_KEY_ALIASES. intros Ha. repeat (apply elem_of_cons in Ha as [->|Ha]; [by vm_compute|]).
  by apply elem_of_nil in Ha.
Qed.

Lemma apply_alias_get path t a k :
  a ∈ CONFIG_KEY_ALIASES -> NoDup t.*1 ->
  NoDup (apply_alias path t a).*1 /\ map_get (apply_alias path t a) k = alias_get path a (map_get t) k.
Proof.
  intros Ha Hnd. apply aliases_shape in Ha as (_ & Hne & _). unfold apply_alias, alias_get.
  destruct (bool_decide _); [|done]. destruct (map_get t (legacy_key a)) as [v|] eqn:E.
  - unfold or_insert. rewrite contains_get, map_remove_get by done. rewrite Hne.
    pose proof (map_remove_keys t (legacy_key a) Hnd) as Hnr. destruct (map_get t (canonical_key a)) as [w|] eqn:Ec; cbn [is_some].
    + split; [done|]. rewrite map_remove_get by done. destruct (legacy_key a == k); [done|].
      destruct (canonical_key a == k) eqn:Ek; [|done]. apply str_eqb_true in Ek as <-. by rewrite Ec.
    + split; [by apply map_insert_keys|]. rewrite map_insert_get, map_remove_get by done.
      destruct (canonical_key a == k) eqn:Ek; [|done].
      apply str_eqb_true in Ek as <-. by rewrite Hne, Ec.
  - split; [done|]. destruct (legacy_key a == k) eqn:El; [by apply str_eqb_true in El as <-|].
    destruct (canonical_key a == k); [|done]. by destruct (map_get t k).
Qed.

(** All the aliases; [g] is what the table held. *)
Definition aliases_get path (g : rstr -> option TomlValue) : rstr -> option TomlValue :=
  foldl (fun g a => alias_get path a g) g CONFIG_KEY_ALIASES.

Lemma alias_get_ext path a g g' k : (forall k, g k = g' k) -> alias_get path a g k = alias_get path a g' k.
Proof. intros H. unfold alias_get. by rewrite !H. Qed.

Lemma foldl_alias_get path (l : list ConfigKeyAlias) t g :
  l ⊆ CONFIG_KEY_ALIASES -> NoDup t.*1 -> (forall k, map_get t k = g k) ->
  NoDup (foldl (apply_alias path) t l).*1
  /\ forall k, map_get (foldl (apply_alias path) t l) k = foldl (fun g a => alias_get path a g) g l k.
Proof.
  revert t g. induction l as [|a l IH]; intros t g Hl Hnd Hg; [done|]. cbn [foldl].
  assert (Ha : a ∈ CONFIG_KEY_ALIASES) by (apply Hl; left).
  apply IH; [intros x Hx; apply Hl; by right|by apply (apply_alias_get path t a [])|].
  intros k. destruct (apply_alias_get path t a k Ha Hnd) as [_ ->]. by apply alias_get_ext.
Qed.

Lemma normalize_key_aliases_get path t k :
  NoDup t.*1 ->
  NoDup (normalize_key_aliases path t).*1 /\ map_get (normalize_key_aliases path t) k = aliases_get path (map_get t) k.
Proof.
  intros Hnd. destruct (foldl_alias_get path CONFIG_KEY_ALIASES t (map_get t)) as [H1 H2]; [done|done|done|].
  split; [exact H1|apply H2].
Qed.

(** A step of the aliases commutes with a function of the values that does not tell
    keys of the table apart. *)
Lemma alias_get_fmap path a (G : rstr -> TomlValue -> TomlValue) g g' k :
  (path = table_path a -> forall k k' v, G k v = G k' v) ->
  (forall k, g k = G k <$> g' k) -> alias_get path a g k = G k <$> alias_get path a g' k.
Proof.
  intros HG Hg. unfold alias_get. destruct (bool_decide_reflect (path = table_path a)) as [Hp|]; [|done].
  destruct (legacy_key a == k); [done|]. destruct (canonical_key a == k); [|done]. rewrite !Hg.
  destruct (g' k) as [v|]; [done|]. cbn. destruct (g' (legacy_key a)) as [v|]; [|done]. cbn. by rewrite (HG Hp _ k).
Qed.

Lemma aliases_deep path t : 2 <= length path -> normalize_key_aliases path t = t.
Proof.
  intros Hp. unfold normalize_key_aliases. assert (H : forall l, l ⊆ CONFIG_KEY_ALIASES -> foldl (apply_alias path) t l = t).
  { induction l as [|a l IH]; intros Hl; [done|]. cbn [foldl]. unfold apply_alias at 2. rewrite bool_decide_false.
    - apply IH. intros x Hx. apply Hl. by right.
    - intros ->. destruct (aliases_shape a) as [Hlen _]; [apply Hl; left|]. lia. }
  by apply H.
Qed.

Lemma normalized_deep path path' v :
  2 <= length path -> 2 <= length path' -> normalized_with_key_aliases path v = normalized_with_key_aliases path' v.
Proof.
  revert path path'. induction v as [s|z|f|x|d|l IH|t IH] using toml_ind; intros path path' Hp Hp'; try done;
    cbn [normalized_with_key_aliases].
  - f_equal. induction IH as [|v l Hv _ IHl]; [done|]. cbn. f_equal; [by apply Hv|exact IHl].
  - f_equal. rewrite !aliases_deep by done. generalize (@nil (rstr * TomlValue)).
    induction IH as [|[k v] t Hv _ IHt]; intros m; [done|]. cbn [fold_left fst snd]. cbn in Hv.
    rewrite (Hv (path ++ [k]) (path' ++ [k])) by (rewrite length_app; cbn; lia). apply IHt.
Qed.

(** The entries of a normalised table. *)
Lemma normalized_get path t k :
  NoDup t.*1 ->
  exists t', normalized_with_key_aliases path (TTable t) = TTable t' /\ NoDup t'.*1
    /\ map_get t' k = normalized_with_key_aliases (path ++ [k]) <$> map_get (normalize_key_aliases path t) k.
Proof.
  intros Hnd. cbn [normalized_with_key_aliases]. eexists. split; [reflexivity|].
  set (r := fold_left _ t []).
  assert (Hr : forall k, NoDup r.*1 /\ map_get r k = normalized_with_key_aliases (path ++ [k]) <$> map_get t k).
  { intros k'. destruct (insert_all_get (fun e => normalized_with_key_aliases (path ++ [e.1]) e.2) t [] k' Hnd)
      as [H1 H2]; [constructor|]. split; [exact H1|]. subst r. rewrite H2. by destruct (map_get t k'). }
  destruct (normalize_key_aliases_get path r k) as [H1 H2]; [apply (Hr [])|]. split; [exact H1|]. rewrite H2.
  destruct (normalize_key_aliases_get path t k Hnd) as [_ ->]. unfold aliases_get.
  assert (H : forall l g g', l ⊆ CONFIG_KEY_ALIASES ->
    (forall k, g k = normalized_with_key_aliases (path ++ [k]) <$> g' k) ->
    foldl (fun g a => alias_get path a g) g l k
    = normalized_with_key_aliases (path ++ [k]) <$> foldl (fun g a => alias_get path a g) g' l k).
  { induction l as [|a l IH]; intros g g' Hl Hg; [by cbn|]. cbn [foldl].
    apply IH; [intros x Hx; apply Hl; by right|]. intros k'. apply (alias_get_fmap path a (fun k => normalized_with_key_aliases (path ++ [k]))); [|done].
    intros Hp k1 k2 v. destruct (aliases_shape a) as [Hlen _]; [apply Hl; left|]. rewrite <- Hp in Hlen. apply normalized_deep; rewrite length_app; cbn; lia. }
  apply H; [done|]. intros k'. apply Hr.
Qed.

(** Normalising the keys adds no value. *)
Lemma aliases_get_source path g k v : aliases_get path g k = Some v -> exists k', g k' = Some v.
Proof.
  unfold aliases_get. generalize CONFIG_KEY_ALIASES. intros l. revert g.
  induction l as [|a l IH]; intros g; cbn [foldl]; [by exists k|]. intros (k' & Hk')%IH. revert Hk'. unfold alias_get.
  destruct (bool_decide _); [|by exists k']. destruct (_ == _); [done|]. destruct (_ == _); [|by exists k'].
  destruct (g k') eqn:E; [intros [= <-]; by exists k'|by exists (legacy_key a)].
Qed.

Lemma depth_entry t k v : map_get t k = Some v -> toml_depth v < toml_depth (TTable t).
Proof.
  cbn [toml_depth]. induction t as [|[k0 v0] t IH]; cbn [map_get fold_right snd]; [done|].
  destruct (k0 == k); [intros [= ->]; lia|]. intros Hg. specialize (IH Hg). lia.
Qed.

(** ** Merging tables *)

Lemma merge_entries_get merge path bt ot k :
  NoDup bt.*1 -> NoDup ot.*1 ->
  let r := foldl (merge_entry merge path) bt ot in
  NoDup r.*1
  /\ map_get r k
     = match map_get ot k with
       | Some v => Some (match map_get bt k with
                         | Some e => merge (path ++ [k]) e v
                         | None => normalized_with_key_aliases (path ++ [k]) v
                         end)
       | None => map_get bt k
       end.
Proof.
  revert bt. induction ot as [|[k0 v0] ot IH]; intros bt Hb Ho; [done|]. cbn [fmap list_fmap fst] in Ho.
  apply NoDup_cons in Ho as [Hk Ho]. cbn [foldl].
  set (bt' := merge_entry merge path bt (k0, v0)).
  assert (Hb' : NoDup bt'.*1 /\ forall k, map_get bt' k
    = if k0 == k then Some (match map_get bt k with
                            | Some e => merge (path ++ [k]) e v0
                            | None => normalized_with_key_aliases (path ++ [k]) v0 end) else map_get bt k).
  { subst bt'. unfold merge_entry. rewrite contains_get. destruct (map_get bt k0) as [e|] eqn:E; cbn [is_some].
    - rewrite map_alter_keys. split; [done|]. intros k'. rewrite map_alter_get. destruct (k0 == k') eqn:Ek; [|done].
      apply str_eqb_true in Ek as <-. by rewrite E.
    - split; [by apply map_insert_keys|]. intros k'. rewrite map_insert_get by done. destruct (k0 == k') eqn:Ek; [|done].
      apply str_eqb_true in Ek as <-. by rewrite E. }
  destruct Hb' as [Hn' Hg']. destruct (IH bt' Hn' Ho) as [H1 H2]. split; [exact H1|]. rewrite H2, Hg'. cbn [map_get].
  destruct (k0 == k) eqn:E; [|done]. apply str_eqb_true in E as <-. apply map_get_None in Hk. by rewrite Hk.
Qed.

(** ** Views *)

Lemma structured_child path k : is_structured_feature_path path = true -> is_structured_feature_path (path ++ [k]) = false.
Proof. destruct path as [|a [|b [|c [|d [|e path]]]]]; done. Qed.

Lemma look_table path t k p :
  look path (TTable t) (k :: p) = match map_get t k with Some c => look (path ++ [k]) c p | None => Absent end.
Proof. done. Qed.

(** Tables with the same entries have the same view. *)
Lemma look_table_ext path t t' p :
  (forall k q, p = k :: q -> map_get t k = map_get t' k) -> look path (TTable t) p = look path (TTable t') p.
Proof. intros H. destruct p as [|k p]; [done|]. by rewrite !look_table, (H k p). Qed.

Lemma look_enabled path x p :
  is_structured_feature_path path = true ->
  look path (TTable (map_insert [] k_enabled (TBoolean x))) p = look path (TBoolean x) p.
Proof.
  intros Hs. transitivity (look path (TTable [(k_enabled, TBoolean x)] : TomlValue) p).
  - apply look_table_ext. intros k q _. rewrite map_insert_get by constructor. done.
  - destruct p; cbn [look as_feature_table]; by rewrite Hs.
Qed.

Lemma look_enabled_below path x k p :
  is_structured_feature_path path = true ->
  look path (TBoolean x : TomlValue) (k :: p) = if k_enabled == k then look (path ++ [k]) (TBoolean x) p else Absent.
Proof. intros Hs. cbn [look as_feature_table]. rewrite Hs. cbn [map_get]. by destruct (k_enabled == k). Qed.

(** A value that is neither a table nor stands for one. *)
Definition leaf_at path v : bool := is_leaf (look path v []).

Lemma look_below_leaf path v k p : leaf_at path v = true -> look path v (k :: p) = Absent.
Proof.
  unfold leaf_at. cbn [look]. destruct (as_feature_table path v) eqn:E; cbn [is_leaf]; try done; intros _; cbn [look]; by rewrite E.
Qed.

Lemma leaf_at_other path v :
  match v with TTable _ => False | TBoolean _ => is_structured_feature_path path = false | _ => True end ->
  leaf_at path v = true.
Proof. unfold leaf_at. cbn. destruct v; cbn; try done. by intros ->. Qed.

Lemma hidden_absent (o : viewed) p : (forall q, o q = Absent) -> hidden o p = false.
Proof. revert o. induction p as [|k p IH]; intros o H; [done|]. cbn. rewrite H. cbn. by apply IH. Qed.

Lemma overlay_view_cons (b o : viewed) k p :
  is_leaf (o []) = false -> overlay_view b o (k :: p) = overlay_view (fun q => b (k :: q)) (fun q => o (k :: q)) p.
Proof. intros H. unfold overlay_view. cbn [hidden]. rewrite H. done. Qed.

(** Where the overlay replaces the base. *)
Lemma overlay_replaces (b o : viewed) p :
  (forall k q, p = k :: q -> b p = Absent \/ is_leaf (o []) = true) -> o [] <> Absent -> overlay_view b o p = o p.
Proof.
  intros Hb Ho. unfold overlay_view. destruct (o p) eqn:E; try done. destruct p as [|k p]; [done|].
  destruct (Hb k p eq_refl) as [->| Hl]; [by destruct (hidden _ _)|]. cbn [hidden]. by rewrite Hl.
Qed.

Lemma overlay_view_ext (b b' o o' : viewed) p :
  b p = b' p -> (forall q, o q = o' q) -> overlay_view b o p = overlay_view b' o' p.
Proof.
  intros Hb Ho. unfold overlay_view. rewrite Hb, Ho. assert (hidden o p = hidden o' p) as ->; [|done].
  clear Hb. revert o o' Ho. induction p as [|k p IH]; intros o o' Ho; [done|]. cbn. rewrite Ho. f_equal. by apply IH.
Qed.

(** ** The steps of a merge *)

Lemma displaced_special r k p : k ∈ displaced_fields r -> special_path (k_policy :: k :: p) = true.
Proof.
  destruct r; cbn [displaced_fields]; intros Hk; repeat (apply elem_of_cons in Hk as [->|Hk]; [done|]); by apply elem_of_nil in Hk.
Qed.

Lemma replace_representation_look b o path p :
  toml_wf b -> special_path (path ++ p) = false -> look path (replace_representation b o path) p = look path b p.
Proof.
  intros Hwf Hsp. unfold replace_representation. destruct (is_policy_path path) eqn:Ep; [|done]. cbn [negb].
  destruct path as [|policy [|? ?]]; try done. cbn in Ep. apply str_eqb_true in Ep as ->.
  destruct (from_policy o) as [r|]; [|done]. destruct b as [| | | | | |t]; try done. apply look_table_ext.
  intros k q ->. destruct (map_removes_get t (displaced_fields r) k (wf_keys _ Hwf)) as [_ ->].
  rewrite bool_decide_false; [done|]. intros Hk. apply (displaced_special r k q) in Hk. cbn [app] in Hsp. by rewrite Hk in Hsp.
Qed.

Lemma replace_representation_wf b o path : toml_wf b -> toml_wf (replace_representation b o path).
Proof.
  intros Hwf. unfold replace_representation. destruct (negb _); [done|]. destruct (from_policy o) as [r|]; [|done].
  destruct b as [| | | | | |t]; try done. apply wf_by_get; [by apply (map_removes_get t _ []), wf_keys|].
  intros k c. destruct (map_removes_get t (displaced_fields r) k (wf_keys _ Hwf)) as [_ ->].
  destruct (bool_decide _); [done|]. by apply wf_get.
Qed.

Lemma normalized_wf path o : toml_wf o -> toml_wf (normalized_with_key_aliases path o).
Proof.
  revert path. induction o as [s|z|f|x|d|l _|t IH] using toml_ind; intros path Hwf; try done.
  pose proof (wf_keys _ Hwf) as Hnd. destruct (normalized_get path t [] Hnd) as (t' & E & Hnd' & _). rewrite E.
  apply wf_by_get; [done|]. intros k c Hk. destruct (normalized_get path t k Hnd) as (t'' & E' & _ & Hg).
  rewrite E in E'. injection E' as <-. rewrite Hk in Hg. destruct (normalize_key_aliases_get path t k Hnd) as [_ Ha].
  rewrite Ha in Hg. destruct (aliases_get path (map_get t) k) as [v|] eqn:Ev; [|done]. injection Hg as ->.
  apply aliases_get_source in Ev as (k' & Hk'). apply (proj1 (Forall_forall _ _) IH (k', v)).
  - by apply map_get_elem.
  - by apply (wf_get _ _ _ Hwf Hk').
Qed.

(** A settled table has no legacy key. *)
Lemma settled_table path t : toml_wf (TTable t) -> settled path (TTable t) -> normalize_key_aliases path t = t.
Proof.
  intros Hwf Hs. unfold normalize_key_aliases.
  assert (H : forall l, l ⊆ CONFIG_KEY_ALIASES -> foldl (apply_alias path) t l = t); [|by apply H].
  induction l as [|a l IH]; intros Hl; [done|]. cbn [foldl].
  assert (Ha : a ∈ CONFIG_KEY_ALIASES) by (apply Hl; left).
  assert (apply_alias path t a = t) as ->; [|apply IH; intros x Hx; apply Hl; by right].
  unfold apply_alias. destruct (bool_decide_reflect (path = table_path a)) as [Hp|]; [|done].
  specialize (Hs a [] Ha). rewrite app_nil_r in Hs. specialize (Hs Hp). cbn [app] in Hs. rewrite look_table in Hs.
  destruct (map_get t (legacy_key a)) as [c|]; [|done]. exfalso. revert Hs. cbn [look].
  by destruct (as_feature_table _ c).
Qed.

Lemma settled_entry path t k c : settled path (TTable t) -> map_get t k = Some c -> settled (path ++ [k]) c.
Proof.
  intros Hs Hk a p Ha Hp. specialize (Hs a (k :: p) Ha). rewrite <- app_assoc in Hp. specialize (Hs Hp).
  cbn [app] in Hs. rewrite look_table, Hk in Hs. exact Hs.
Qed.

Lemma settled_look path b b' :
  (forall p, special_path (path ++ p) = false -> look path b p = look path b' p) -> settled path b -> settled path b'.
Proof.
  intros H Hs a p Ha Hp. rewrite <- H; [by apply Hs|]. rewrite app_assoc, Hp. by apply aliases_shape.
Qed.

(** No special path starts below an ordinary one. *)
Lemma ordinary_tables path k p bt ot :
  special_path (path ++ k :: p) = false ->
  normalize_tables path bt ot = (normalize_key_aliases path bt, normalize_key_aliases path ot).
Proof.
  intros Hsp. unfold normalize_tables.
  assert (is_permission_network_domains_path path = false) as ->.
  { destruct path as [|a [|b [|c [|d [|]]]]]; try done. cbn in *. by apply orb_false_iff in Hsp as [_ ?]. }
  assert (is_shell_environment_filters_path path = false) as ->; [|done].
  destruct path as [|a [|b [|]]]; try done. cbn -[lit] in *. apply orb_false_iff in Hsp as [Hsp _].
  apply andb_false_iff in Hsp as [->|Hsp]; [done|]. apply orb_false_iff in Hsp as [Hsp _].
  apply orb_false_iff in Hsp as [-> _]. by rewrite andb_false_r.
Qed.

(** ** The view of a merge *)

Lemma look_root path v : look path v [] <> Absent.
Proof. cbn [look]. by destruct (as_feature_table path v). Qed.

(** Both are tables. *)
Lemma merge_tables_look fuel path bt ot p :
  (forall path b o p, toml_depth o <= fuel -> toml_wf b -> toml_wf o -> settled path b ->
     special_path (path ++ p) = false ->
     look path (merge_at fuel path b o) p = overlay_view (look path b) (look path (normalized_with_key_aliases path o)) p) ->
  toml_depth (TTable ot) <= S fuel -> toml_wf (TTable bt) -> toml_wf (TTable ot) -> settled path (TTable bt) ->
  special_path (path ++ p) = false ->
  (let '(bt, ot) := normalize_tables path bt ot in
   look path (TTable (foldl (merge_entry (merge_at fuel) path) bt ot)) p)
  = overlay_view (look path (TTable bt)) (look path (normalized_with_key_aliases path (TTable ot))) p.
Proof.
  intros IH Hd Hwb Hwo Hs Hsp. pose proof (wf_keys _ Hwo) as Hno. pose proof (wf_keys _ Hwb) as Hnb.
  destruct p as [|k p]; [destruct (normalize_tables path bt ot); done|].
  rewrite (ordinary_tables path k p) by done. rewrite settled_table by done.
  destruct (normalize_key_aliases_get path ot k Hno) as [Hna Hga].
  destruct (merge_entries_get (merge_at fuel) path bt (normalize_key_aliases path ot) k Hnb Hna) as [_ Hg].
  rewrite look_table, Hg. destruct (normalized_get path ot k Hno) as (t' & Et & _ & Hgt).
  rewrite overlay_view_cons by (by rewrite Et).
  rewrite (overlay_view_ext _ (fun q => look path (TTable bt) (k :: q)) _
    (fun q => match map_get t' k with Some c => look (path ++ [k]) c q | None => Absent end)); [|done|by intros q; rewrite Et].
  rewrite Hgt. destruct (map_get (normalize_key_aliases path ot) k) as [v|] eqn:Ev; cbn [fmap option_fmap option_map].
  - assert (Hsrc : exists k', map_get ot k' = Some v) by (eapply (aliases_get_source path _ k); by rewrite <- Hga).
    destruct Hsrc as [k' Hk']. pose proof (depth_entry _ _ _ Hk').
    destruct (map_get bt k) as [e|] eqn:Ee.
    + rewrite IH; [|lia|exact (wf_get _ _ _ Hwb Ee)|exact (wf_get _ _ _ Hwo Hk')|exact (settled_entry _ _ _ _ Hs Ee)|by rewrite <- app_assoc].
      apply overlay_view_ext; [|done]. by rewrite look_table, Ee.
    + unfold overlay_view. rewrite look_table, Ee.
      destruct (look (path ++ [k]) (normalized_with_key_aliases (path ++ [k]) v) p) eqn:E; [|done|done].
      by destruct (hidden _ _).
  - unfold overlay_view. by rewrite hidden_absent.
Qed.

(** The base is replaced. *)
Lemma overlay_shadows (b o : viewed) p : (o p = Absent -> b p = Absent) -> overlay_view b o p = o p.
Proof. intros H. unfold overlay_view. destruct (o p); try done. rewrite H by done. by destruct (hidden o p). Qed.

Lemma merge_replaces_look path b o p :
  leaf_at path b = true \/ leaf_at path o = true ->
  look path (normalized_with_key_aliases path o) p
  = overlay_view (look path b) (look path (normalized_with_key_aliases path o)) p.
Proof.
  intros H. symmetry. apply overlay_replaces; [|apply look_root]. intros k q ->.
  destruct H as [Hb|Ho]; [left; by apply look_below_leaf|]. right. by destruct o.
Qed.

Lemma enabled_wf x : toml_wf (TTable (map_insert [] k_enabled (TBoolean x)) : TomlValue).
Proof.
  apply wf_by_get; [by apply map_insert_keys; constructor|]. intros k c. rewrite map_insert_get by constructor.
  destruct (_ == _); [by intros [= <-]|done].
Qed.

(** A Boolean over a table, in the place of a structured feature. *)
Lemma merge_enabled_look path t x p :
  NoDup t.*1 -> is_structured_feature_path path = true ->
  look path (TTable (map_insert t k_enabled (TBoolean x))) p
  = overlay_view (look path (TTable t)) (look path (TBoolean x)) p.
Proof.
  intros Hnd Hs. destruct p as [|k p].
  - unfold overlay_view. cbn [look as_feature_table]. by rewrite Hs.
  - rewrite overlay_view_cons by (cbn; by rewrite Hs).
    rewrite (overlay_view_ext _ (fun q => look path (TTable t) (k :: q)) _
      (fun q => if k_enabled == k then look (path ++ [k]) (TBoolean x) q else Absent));
      [|done|intros q; by apply look_enabled_below].
    rewrite look_table, map_insert_get by done. destruct (k_enabled == k).
    + symmetry. apply overlay_replaces; [|apply look_root]. intros k' q ->. right.
      apply leaf_at_other. by apply structured_child.
    + unfold overlay_view. by rewrite hidden_absent.
Qed.

Lemma boolean_look_absent path x y p : look path (TBoolean x : TomlValue) p = Absent -> look path (TBoolean y : TomlValue) p = Absent.
Proof.
  destruct p as [|k p]; cbn [look as_feature_table]; destruct (is_structured_feature_path path) eqn:Es; try done.
  cbn [map_get]. destruct (k_enabled == k); [|done]. destruct p as [|k' p]; cbn [look as_feature_table]; by rewrite structured_child.
Qed.

Lemma merge_look fuel path b o p :
  toml_depth o <= fuel -> toml_wf b -> toml_wf o -> settled path b -> special_path (path ++ p) = false ->
  look path (merge_at fuel path b o) p = overlay_view (look path b) (look path (normalized_with_key_aliases path o)) p.
Proof.
  revert path b o p. induction fuel as [|fuel IH]; intros path b o p Hd Hwb Hwo Hs Hsp; [destruct o; cbn in Hd; lia|].
  cbn [merge_at].
  assert (Hlr : forall p, special_path (path ++ p) = false -> look path (replace_representation b o path) p = look path b p)
    by (intros q Hq; by apply replace_representation_look).
  pose proof (replace_representation_wf b o path Hwb) as Hwr.
  assert (Hsr : settled path (replace_representation b o path))
    by (apply (settled_look path b); [intros q Hq; symmetry; by apply Hlr|done]).
  rewrite <- (overlay_view_ext (look path (replace_representation b o path)) _ _ _ _ (Hlr p Hsp) (fun q => eq_refl)).
  revert Hwr Hsr. generalize (replace_representation b o path). clear b Hwb Hs Hlr. intros b Hwb Hs.
  assert (Htab : forall bt ot, o = TTable ot -> toml_wf (TTable bt) -> settled path (TTable bt) ->
    look path (let '(bt, ot) := normalize_tables path bt ot in TTable (foldl (merge_entry (merge_at fuel) path) bt ot)) p
    = overlay_view (look path (TTable bt)) (look path (normalized_with_key_aliases path o)) p).
  { intros bt ot -> Hwt Hst. rewrite <- (merge_tables_look fuel) by done. by destruct (normalize_tables path bt ot). }
  unfold merge_feature. destruct (is_structured_feature_path path) eqn:Ef.
  - destruct o as [| | |x| | |ot]; destruct b as [| | |y| | |bt];
      try (apply merge_replaces_look; (left; by apply leaf_at_other) || (right; by apply leaf_at_other)).
    + symmetry. apply overlay_shadows. apply boolean_look_absent.
    + apply merge_enabled_look; [by apply wf_keys|done].
    + rewrite Htab; [|done|apply enabled_wf|].
      * apply overlay_view_ext; [by apply look_enabled|done].
      * apply (settled_look path (TBoolean y)); [|done]. intros q _. symmetry. by apply look_enabled.
    + by apply Htab.
  - destruct o as [| | |x| | |ot]; destruct b as [| | |y| | |bt];
      try (apply merge_replaces_look; (left; by apply leaf_at_other) || (right; by apply leaf_at_other)).
    by apply Htab.
Qed.

(** ** What a merge keeps *)

Lemma merge_entries_wf merge path bt ot :
  (forall path e v, toml_wf e -> toml_wf v -> toml_wf (merge path e v)) ->
  toml_wf (TTable bt) -> toml_wf (TTable ot) -> toml_wf (TTable (foldl (merge_entry merge path) bt ot)).
Proof.
  intros Hm Hb Ho. pose proof (wf_keys _ Hb) as Hnb. pose proof (wf_keys _ Ho) as Hno.
  apply wf_by_get; [by apply (merge_entries_get merge path bt ot [])|].
  intros k c. destruct (merge_entries_get merge path bt ot k Hnb Hno) as [_ ->].
  destruct (map_get ot k) as [v|] eqn:Ev; [|by apply wf_get]. pose proof (wf_get _ _ _ Ho Ev). intros [= <-].
  destruct (map_get bt k) as [e|] eqn:Ee; [apply Hm; [by apply (wf_get _ _ _ Hb Ee)|done]|by apply normalized_wf].
Qed.

Lemma normalize_key_aliases_wf path t : toml_wf (TTable t) -> toml_wf (TTable (normalize_key_aliases path t)).
Proof.
  intros Hwf. pose proof (wf_keys _ Hwf) as Hnd. apply wf_by_get; [by apply (normalize_key_aliases_get path t [])|].
  intros k c. destruct (normalize_key_aliases_get path t k Hnd) as [_ ->]. intros (k' & Hk')%aliases_get_source.
  by apply (wf_get _ _ _ Hwf Hk').
Qed.

Lemma rekey_wf f t : toml_wf (TTable t) -> toml_wf (TTable (rekey f t)).
Proof.
  intros [_ Ht]%toml_wf_table. unfold rekey.
  assert (H : forall m, toml_wf (TTable m) -> toml_wf (TTable (foldl (fun m e => map_insert m (f e.1) e.2) m t)));
    [|apply H; split; [constructor|done]].
  induction t as [|[k v] t IH]; intros m Hm; [done|]. cbn [foldl fst snd]. apply IH.
  - intros k' c Hin. apply (Ht k'). by right.
  - pose proof (wf_keys _ Hm) as Hnd. apply wf_by_get; [by apply map_insert_keys|]. intros k' c. rewrite map_insert_get by done.
    destruct (f k == k'); [intros [= <-]; apply (Ht k); left|by apply wf_get].
Qed.

Lemma normalize_tables_wf path bt ot :
  toml_wf (TTable bt) -> toml_wf (TTable ot) ->
  toml_wf (TTable (normalize_tables path bt ot).1) /\ toml_wf (TTable (normalize_tables path bt ot).2).
Proof.
  intros Hb%(normalize_key_aliases_wf path) Ho%(normalize_key_aliases_wf path). unfold normalize_tables.
  destruct (is_permission_network_domains_path path), (is_shell_environment_filters_path path); cbn [fst snd];
    split; repeat apply rekey_wf; done.
Qed.

Lemma merge_wf fuel path b o : toml_wf b -> toml_wf o -> toml_wf (merge_at fuel path b o).
Proof.
  revert path b o. induction fuel as [|fuel IH]; intros path b o Hb Ho; [done|]. cbn [merge_at].
  pose proof (replace_representation_wf b o path Hb) as Hr. revert Hr. generalize (replace_representation b o path).
  clear b Hb. intros b Hb.
  assert (Hf : toml_wf (merge_feature path b o).1).
  { unfold merge_feature. destruct (is_structured_feature_path path); [|done].
    destruct b as [| | |y| | |bt], o as [| | |x| | |ot]; try done; [apply enabled_wf|].
    pose proof (wf_keys _ Hb). apply wf_by_get; [by apply map_insert_keys|]. intros k c. rewrite map_insert_get by done.
    destruct (_ == _); [by intros [= <-]|by apply wf_get]. }
  destruct (merge_feature path b o) as [b' [|]]; [done|]. cbn [fst] in Hf.
  destruct o as [| | | | | |ot]; try (by apply normalized_wf). destruct b' as [| | | | | |bt]; try (by apply normalized_wf).
  destruct (normalize_tables_wf path bt ot Hf Ho) as [H1 H2].
  destruct (normalize_tables path bt ot) as [bt' ot']. by apply merge_entries_wf.
Qed.

Lemma normalized_settled path o : toml_wf o -> settled path (normalized_with_key_aliases path o).
Proof.
  intros Hwf.
  assert (Hone : forall path o a, toml_wf o -> a ∈ CONFIG_KEY_ALIASES -> path = table_path a ->
    look path (normalized_with_key_aliases path o) [legacy_key a] = Absent).
  { clear path o Hwf. intros path o a Hwf Ha Hp. destruct (aliases_shape a Ha) as (_ & _ & _ & Hf). rewrite <- Hp in Hf.
    destruct o as [| | |x| | |t]; try done; [by cbn; rewrite Hf|]. pose proof (wf_keys _ Hwf) as Hnd.
    destruct (normalized_get path t (legacy_key a) Hnd) as (t' & -> & _ & Hg). rewrite look_table, Hg.
    destruct (normalize_key_aliases_get path t (legacy_key a) Hnd) as [_ ->].
    assert (aliases_get path (map_get t) (legacy_key a) = None) as ->; [|done].
    generalize (map_get t). clear -Ha Hp. subst path. intros g. unfold CONFIG_KEY_ALIASES in Ha.
    repeat (apply elem_of_cons in Ha as [->|Ha]; [by cbv -[lit]|]). by apply elem_of_nil in Ha. }
  intros a p Ha Hp. pose proof (proj1 (aliases_shape a Ha)) as Hlen. destruct p as [|k p].
  - rewrite app_nil_r in Hp. by apply Hone.
  - rewrite <- Hp, length_app in Hlen. cbn in Hlen. destruct path; [|cbn in Hlen; lia]. destruct p; [|cbn in Hlen; lia].
    cbn [app] in *. destruct o as [| | | | | |t]; try done. pose proof (wf_keys _ Hwf) as Hnd.
    destruct (normalized_get [] t k Hnd) as (t' & -> & _ & Hg). rewrite look_table, Hg.
    destruct (map_get (normalize_key_aliases [] t) k) as [v|] eqn:Ev; [|done]. cbn [fmap option_fmap option_map app].
    apply Hone; [|done|done]. pose proof (normalize_key_aliases_wf [] t Hwf) as Hw. by apply (wf_get _ _ _ Hw Ev).
Qed.

Lemma merge_settled b o :
  toml_wf b -> toml_wf o -> settled [] b -> settled [] (merge_toml_values b o).
Proof.
  intros Hb Ho Hs a p Ha Hp. unfold merge_toml_values. rewrite merge_look; [|done|done|done|done|].
  - unfold overlay_view. rewrite (normalized_settled [] o Ho a p Ha Hp), (Hs a p Ha Hp). by destruct (hidden _ _).
  - cbn [app] in *. rewrite Hp. by apply aliases_shape.
Qed.

(** ** Overrides *)

(** A value put at the end of the path [s]: it is found there, the tables on the way
    exist, and everything else is as it was. *)
Fixpoint override_view (s : list rstr) (value base : viewed) p : view :=
  match s, p with
  | [], _ => value p
  | _ :: _, [] => ATable
  | k :: s, k' :: p => if k == k' then override_view s value (fun q => base (k :: q)) p else base (k' :: p)
  end.

Lemma override_view_ext s value base base' p :
  s <> [] -> (forall k q, base (k :: q) = base' (k :: q)) -> override_view s value base p = override_view s value base' p.
Proof.
  revert base base' p. induction s as [|k s IH]; intros base base' p Hs Hb; [done|].
  destruct p as [|k' p]; [done|]. cbn. destruct (k == k'); [|apply Hb]. destruct s as [|k2 s]; [done|].
  apply IH; [done|]. intros. apply Hb.
Qed.

Lemma enabled_table_look path v p :
  look path (enabled_table (is_structured_feature_path path) v) p = look path v p.
Proof.
  destruct v; try done. cbn [enabled_table]. destruct (is_structured_feature_path path) eqn:E; [|done]. by apply look_enabled.
Qed.

Lemma or_insert_get t k v :
  NoDup t.*1 -> NoDup (or_insert t k v).*1
  /\ forall k', map_get (or_insert t k v) k' = if k == k' then Some (default v (map_get t k)) else map_get t k'.
Proof.
  intros Hnd. unfold or_insert. rewrite contains_get. destruct (map_get t k) as [c|] eqn:E; cbn [is_some from_option].
  - split; [done|]. intros k'. destruct (k == k') eqn:Ek; [|done]. by apply str_eqb_true in Ek as <-.
  - split; [by apply map_insert_keys|]. intros k'. by rewrite map_insert_get.
Qed.

Lemma not_feature_leaf path v :
  match v with TTable _ => False | TBoolean _ => is_structured_feature_path path = false | _ => True end ->
  forall k p, look path v (k :: p) = Absent.
Proof. intros H k p. by apply look_below_leaf, leaf_at_other. Qed.

(** A Boolean is not left in the place of a feature on the way. *)
Definition on_the_way path v : Prop := match v with TBoolean _ => is_structured_feature_path path = false | _ => True end.

Lemma empty_wf : toml_wf (TTable [] : TomlValue).
Proof. by split; [constructor|]. Qed.

(** The last segment is entered into the table [t]. *)
Lemma override_last_look path cur t k value p :
  (forall k' q, look path cur (k' :: q) = look path (TTable t) (k' :: q)) -> NoDup t.*1 ->
  look path (TTable (map_insert t k value)) p = override_view [k] (look (path ++ [k]) value) (look path cur) p.
Proof.
  intros Ht Hnd. destruct p as [|k' p]; [done|]. cbn [override_view]. rewrite Ht, !look_table, map_insert_get by done.
  destruct (k == k') eqn:Ek; [|done]. by apply str_eqb_true in Ek as <-.
Qed.

(** The entry [k] of the table [t] is replaced by [c'], which is [c] with the override
    of the remaining segments. *)
Lemma override_next_look path cur t r k s value c c' p :
  s <> [] -> (forall k' q, look path cur (k' :: q) = look path (TTable t) (k' :: q)) ->
  (forall k', map_get r k' = if k == k' then Some c' else map_get t k') ->
  (forall q, look (path ++ [k]) c' q = override_view s (look (path ++ k :: s) value) (look (path ++ [k]) c) q) ->
  (forall k' q, look (path ++ [k]) c (k' :: q) = look path (TTable t) (k :: k' :: q)) ->
  look path (TTable r) p = override_view (k :: s) (look (path ++ k :: s) value) (look path cur) p.
Proof.
  intros Hs Ht Hr Hc' Hc. destruct p as [|k' p]; [done|]. rewrite look_table, Hr. cbn [override_view].
  destruct (k == k') eqn:Ek; [|by rewrite Ht, look_table]. apply str_eqb_true in Ek as <-. rewrite Hc'.
  apply override_view_ext; [done|]. intros k' q. by rewrite Hc, <- Ht.
Qed.

Lemma enabled_table_ok path c :
  toml_wf c -> toml_wf (enabled_table (is_structured_feature_path path) c)
    /\ on_the_way path (enabled_table (is_structured_feature_path path) c).
Proof.
  intros Hc. destruct c as [| | |x| | |]; try done. cbn. destruct (is_structured_feature_path path) eqn:E; [|done].
  split; [apply enabled_wf|done].
Qed.

Lemma apply_segments_look traversed segments cur value p :
  segments <> [] -> toml_wf cur -> on_the_way traversed cur -> is_structured_feature_path (traversed ++ segments) = false ->
  look traversed (apply_segments traversed segments cur value) p
  = override_view segments (look (traversed ++ segments) value) (look traversed cur) p.
Proof.
  revert traversed cur p. induction segments as [|k segments IH]; intros traversed cur p Hne Hwf Hway Hs; [done|].
  assert (Hcur : match cur with TTable _ => False | _ => True end ->
    forall k' q, look traversed cur (k' :: q) = look traversed (TTable [] : TomlValue) (k' :: q)).
  { intros Hc k' q. rewrite not_feature_leaf; [done|]. by destruct cur. }
  destruct segments as [|k2 segments]; cbn [apply_segments].
  - unfold set_last. rewrite Hs. destruct cur as [| | | | | |t];
      try (apply override_last_look; [by apply Hcur|constructor]). by apply override_last_look; [|apply wf_keys].
  - set (st := is_structured_feature_path (traversed ++ [k])).
    assert (Hrest : forall c, toml_wf c -> on_the_way (traversed ++ [k]) c -> forall q,
      look (traversed ++ [k]) (apply_segments (traversed ++ [k]) (k2 :: segments) c value) q
      = override_view (k2 :: segments) (look (traversed ++ k :: k2 :: segments) value) (look (traversed ++ [k]) c) q).
    { intros c Hc Hw q. rewrite IH; [|done|done|done|by rewrite <- app_assoc]. by rewrite <- app_assoc. }
    destruct cur as [| | |x| | |t];
      try (eapply override_next_look; [done|by apply Hcur|intros k'; by rewrite map_insert_get by constructor
                                      |by apply Hrest; [apply empty_wf|]|done]).
    destruct (or_insert_get t k default_empty_table (wf_keys _ Hwf)) as [_ Hg].
    set (c0 := default default_empty_table (map_get t k)) in *.
    assert (Hwc : toml_wf c0).
    { subst c0. destruct (map_get t k) as [c|] eqn:E; [by apply (wf_get _ _ _ Hwf E)|apply empty_wf]. }
    destruct (enabled_table_ok (traversed ++ [k]) c0 Hwc) as [H1 H2].
    eapply (override_next_look _ _ t); [done|done| |by apply (Hrest (enabled_table st c0))|].
    + intros k'. rewrite map_alter_get, !Hg, str_eqb_refl. by destruct (k == k').
    + intros k' q. subst st. rewrite enabled_table_look, look_table. subst c0. by destruct (map_get t k).
Qed.

(** An override of the command line, as [a.b.c=value], makes its value the one at
    the end of its path, creates the tables on the way, and changes nothing else;
    what it replaces is a value that is not a table, or the old value at that path. *)
Theorem override_takes_effect (root : TomlValue) (path : rstr) (value : TomlValue) (p : list rstr) :
  toml_wf root -> is_structured_feature_path (split_on c_dot path) = false ->
  look [] (apply_toml_override root path value) p
  = override_view (split_on c_dot path) (look (split_on c_dot path) value) (look [] root) p.
Proof.
  intros Hwf Hs. unfold apply_toml_override. apply apply_segments_look; [|done|by destruct root|done].
  destruct path as [|x path]; [done|]. cbn. destruct (x =? c_dot)%N; [done|]. by destruct (split_on c_dot path).
Qed.
End merge.
