(* ===== verification/ConfigLayers.v ===== *)
(** * ConfigLayers: the layers of the configuration

    [codex-rs/config/src/state.rs] with [config_layer_source.rs], [fingerprint.rs] and
    the validation of [shell_environment_policy.rs]: the configuration of a session is
    merged from layers in the order of their precedence.

    The version of a layer (a hash of its JSON) and the decoder of [serde] for the
    action of a filter are arguments. *)

From Stdlib Require Import Lia ZArith.
From stdpp Require Import base list gmap strings sorting.
From S2P Require Import Prelude JsonPatch AbsolutePath NetAddr NetHost ConfigToml ConfigMerge.

Open Scope rust_scope.

Inductive ConfigLayerSource :=
| PackagedDefaults (file : AbsolutePathBuf)
| Mdm (domain key : rstr)
| System (file : AbsolutePathBuf)
| EnterpriseManaged (id name : rstr)
| User (file : AbsolutePathBuf) (profile : option rstr)
| Project (dot_codex_folder : AbsolutePathBuf)
| SessionFlags
| LegacyManagedConfigTomlFromFile (file : AbsolutePathBuf)
| LegacyManagedConfigTomlFromMdm.

Definition precedence (s : ConfigLayerSource) : Z :=
  match s with
  | PackagedDefaults _ => -10
  | Mdm _ _ => 0
  | System _ => 10
  | EnterpriseManaged _ _ => 15
  | User _ profile => if is_some profile then 21 else 20
  | Project _ => 25
  | SessionFlags => 30
  | LegacyManagedConfigTomlFromFile _ => 40
  | LegacyManagedConfigTomlFromMdm => 50
  end.

Record ConfigLayerMetadata := mkLayerMetadata { metadata_name : ConfigLayerSource; metadata_version : rstr }.

Inductive ShellEnvironmentPolicyFilter := IncludeVariable | ExcludeVariable.

Inductive ConfigError :=
| NotDecoded
| MixedFilters
| DuplicateFilter
| NotInPrecedenceOrder
| NoParentDirectory
| NotRootToCwd.

(** [ProfileV2Name::from_str] *)
Definition is_ascii_alnum (c : N) : bool :=
  ((48 <=? c) && (c <=? 57) || (65 <=? c) && (c <=? 90) || (97 <=? c) && (c <=? 122))%N.
Definition is_profile_byte (c : N) : bool := is_ascii_alnum c || (c =? 95)%N || (c =? 45)%N.
Definition parse_profile_name (value : rstr) : option rstr :=
  if is_empty value || negb (forallb is_profile_byte value) then None else Some value.

(** [Path::ancestors] *)
Fixpoint ancestors_from (fuel : nat) (p : AbsolutePathBuf) : list AbsolutePathBuf :=
  p :: match fuel with
       | 0 => []
       | S fuel => match parent p with Some q => ancestors_from fuel q | None => [] end
       end.
Definition ancestors (p : AbsolutePathBuf) : list AbsolutePathBuf := ancestors_from (length p) p.


Section layers.
Context {Float Datetime : Type} `{!MapOps (TomlValue Float Datetime)} {lowercase : Lowercase}.
#[local] Abbreviation TomlValue := (TomlValue Float Datetime).

(** What [serde] makes of the action of a filter, and [version_for_toml]. *)
Context (decode_filter : TomlValue -> option ShellEnvironmentPolicyFilter)
  (version_for_toml : TomlValue -> rstr).

(** ** Validation of the filters of the shell environment *)

Definition as_str (v : TomlValue) : option rstr := match v with TString s => Some s | _ => None end.
Definition decode_strings (v : TomlValue) : option (list rstr) :=
  match v with TArray items => mapM as_str items | _ => None end.

(** [Option<Vec<String>>] and [Option<BTreeMap<String, ShellEnvironmentPolicyFilter>>] *)
Definition decode_strings_field (v : option TomlValue) : result ConfigError (option (list rstr)) :=
  match v with
  | None => Ok None
  | Some v => match decode_strings v with Some l => Ok (Some l) | None => Err NotDecoded end
  end.

Definition decode_entry (e : rstr * TomlValue) : option (rstr * ShellEnvironmentPolicyFilter) :=
  f ← decode_filter e.2; Some (e.1, f).

Definition decode_filters_field (v : option TomlValue)
  : result ConfigError (option (list (rstr * ShellEnvironmentPolicyFilter))) :=
  match v with
  | None => Ok None
  | Some (TTable t) => match mapM decode_entry t with Some l => Ok (Some l) | None => Err NotDecoded end
  | Some _ => Err NotDecoded
  end.

(** The fields that decide which variables a command sees. *)
Record FilterFields := mkFilterFields {
  exclude : option (list rstr);
  include_only : option (list rstr);
  filters : option (list (rstr * ShellEnvironmentPolicyFilter))
}.

(** [ShellEnvironmentPolicyToml::deserialize], the fields of the filters *)
Definition decode_filter_fields (policy : list (rstr * TomlValue)) : result ConfigError FilterFields :=
  exclude ← decode_strings_field (map_get policy k_exclude);
  include_only ← decode_strings_field (map_get policy k_include_only);
  filters ← decode_filters_field (map_get policy k_filters);
  if is_some filters && (is_some exclude || is_some include_only) then Err MixedFilters
  else match filters with
       | Some l => if bool_decide (NoDup (to_lowercase <$> l.*1)) then Ok (mkFilterFields exclude include_only filters)
                   else Err DuplicateFilter
       | None => Ok (mkFilterFields exclude include_only filters)
       end.

Definition validate_shell_environment_policy_filter_config (value : TomlValue) : result ConfigError unit :=
  match value with
  | TTable t =>
      match map_get t k_policy with
      | Some (TTable policy) => _ ← decode_filter_fields policy; Ok tt
      | _ => Ok tt
      end
  | _ => Err NotDecoded
  end.

(** ** Layers

    The raw text of a layer and the folder of its hooks, which are carried along, are
    left out. *)

Record ConfigLayerEntry := mkLayer {
  layer_name : ConfigLayerSource;
  config : TomlValue;
  version : rstr;
  disabled_reason : option rstr
}.

Definition new_layer (name : ConfigLayerSource) (config : TomlValue) : ConfigLayerEntry :=
  mkLayer name config (version_for_toml config) None.

Definition is_disabled (l : ConfigLayerEntry) : bool := is_some (disabled_reason l).
Definition metadata (l : ConfigLayerEntry) : ConfigLayerMetadata := mkLayerMetadata (layer_name l) (version l).

Definition is_user (s : ConfigLayerSource) : bool := match s with User _ _ => true | _ => false end.
Definition is_user_of (config_toml : AbsolutePathBuf) (l : ConfigLayerEntry) : bool :=
  match layer_name l with User file _ => bool_decide (file = config_toml) | _ => false end.

Fixpoint validate_enabled_config_layers (layers : list ConfigLayerEntry) : result ConfigError unit :=
  match layers with
  | [] => Ok tt
  | l :: layers =>
      if is_disabled l then validate_enabled_config_layers layers
      else _ ← validate_shell_environment_policy_filter_config (config l); validate_enabled_config_layers layers
  end.

Fixpoint is_sorted (l : list Z) : bool :=
  match l with
  | x :: (y :: _) as l => (x <=? y)%Z && is_sorted l
  | _ => true
  end.

(** The project layers go from the root to the working directory. *)
Fixpoint verify_projects (previous : option AbsolutePathBuf) (layers : list ConfigLayerEntry) : result ConfigError unit :=
  match layers with
  | [] => Ok tt
  | l :: layers =>
      match layer_name l with
      | Project current =>
          match previous with
          | None => verify_projects (Some current) layers
          | Some previous =>
              match parent previous with
              | None => Err NoParentDirectory
              | Some p =>
                  if bool_decide (previous = current) || negb (bool_decide (p ∈ ancestors current)) then Err NotRootToCwd
                  else verify_projects (Some current) layers
              end
          end
      | _ => verify_projects previous layers
      end
  end.

Definition verify_layer_ordering (layers : list ConfigLayerEntry) : result ConfigError unit :=
  if negb (is_sorted ((fun l => precedence (layer_name l)) <$> layers)) then Err NotInPrecedenceOrder
  else verify_projects None layers.

(** [ConfigLayerStack::new]; the requirements and warnings of a stack are kept as they
    are. *)
Definition new_stack (layers : list ConfigLayerEntry) : result ConfigError (list ConfigLayerEntry) :=
  _ ← validate_enabled_config_layers layers;
  _ ← verify_layer_ordering layers;
  Ok layers.

Definition layers_low_to_high (layers : list ConfigLayerEntry) : list ConfigLayerEntry :=
  List.filter (fun l => negb (is_disabled l)) layers.

Definition get_active_user_layer (layers : list ConfigLayerEntry) : option ConfigLayerEntry :=
  List.find (fun l => is_user (layer_name l)) (rev layers).

(** Before the first layer of higher precedence. *)
Fixpoint insert_layer (l : ConfigLayerEntry) (layers : list ConfigLayerEntry) : list ConfigLayerEntry :=
  match layers with
  | [] => [l]
  | x :: layers' =>
      if (precedence (layer_name l) <? precedence (layer_name x))%Z then l :: layers
      else x :: insert_layer l layers'
  end.

Fixpoint remove_first (f : ConfigLayerEntry -> bool) (layers : list ConfigLayerEntry) : list ConfigLayerEntry :=
  match layers with
  | [] => []
  | x :: layers => if f x then layers else x :: remove_first f layers
  end.

Definition with_user_config_profile (config_toml : AbsolutePathBuf) (profile : option rstr) (user_config : TomlValue)
    (layers : list ConfigLayerEntry) : result ConfigError (list ConfigLayerEntry) :=
  let user_layer := new_layer (User config_toml profile) user_config in
  _ ← validate_enabled_config_layers [user_layer];
  Ok (insert_layer user_layer (remove_first (is_user_of config_toml) layers)).

(** [find_map]: the first profile that is found. *)
Fixpoint profile_of (config_toml : AbsolutePathBuf) (layers : list ConfigLayerEntry) : option rstr :=
  match layers with
  | [] => None
  | l :: layers =>
      match (match layer_name l with
             | User file profile => if bool_decide (file = config_toml) then profile ≫= parse_profile_name else None
             | _ => None
             end) with
      | Some p => Some p
      | None => profile_of config_toml layers
      end
  end.

Definition with_user_config (config_toml : AbsolutePathBuf) (user_config : TomlValue) (layers : list ConfigLayerEntry)
  : result ConfigError (list ConfigLayerEntry) :=
  with_user_config_profile config_toml (profile_of config_toml layers) user_config layers.

Definition with_user_layer_from (other layers : list ConfigLayerEntry) : list ConfigLayerEntry :=
  foldl (fun layers l => insert_layer l layers)
    (List.filter (fun l => negb (is_user (layer_name l))) layers)
    (List.filter (fun l => is_user (layer_name l)) other).

Definition merge_layers (layers : list ConfigLayerEntry) : TomlValue :=
  foldl (fun merged l => merge_toml_values merged (config l)) (TTable []) layers.

Definition effective_config (layers : list ConfigLayerEntry) : TomlValue := merge_layers (layers_low_to_high layers).

Definition effective_user_config (layers : list ConfigLayerEntry) : option TomlValue :=
  let user_layers := List.filter (fun l => is_user (layer_name l)) (layers_low_to_high layers) in
  if is_empty user_layers then None else Some (merge_layers user_layers).

(** ** Origins *)

Definition join_path (path : list rstr) : rstr := join [c_dot] path.

(** A value that is neither a table nor an array. *)
Definition record_scalar (is_bool : bool) (meta : ConfigLayerMetadata) (path : list rstr)
    (origins : gmap rstr ConfigLayerMetadata) : gmap rstr ConfigLayerMetadata :=
  if is_empty path then origins
  else if is_bool && is_structured_feature_path path then
    let origins :=
      if is_some_and (last path) (fun feature => feature == lit "network_proxy")
      then <[join_path path := meta]> origins else origins in
    <[join_path (path ++ [k_enabled]) := meta]> origins
  else <[join_path path := meta]> origins.

Fixpoint record_origins (value : TomlValue) (meta : ConfigLayerMetadata) (path : list rstr)
    (origins : gmap rstr ConfigLayerMetadata) : gmap rstr ConfigLayerMetadata :=
  match value with
  | TTable t => fold_left (fun o e => record_origins e.2 meta (path ++ [e.1]) o) t origins
  | TArray items =>
      snd (fold_left (fun s item => (S s.1, record_origins item meta (path ++ [decimal (N.of_nat s.1)]) s.2)) items (0, origins))
  | TBoolean _ => record_scalar true meta path origins
  | _ => record_scalar false meta path origins
  end.

Definition origins (layers : list ConfigLayerEntry) : gmap rstr ConfigLayerMetadata :=
  foldl (fun o l => record_origins (normalized_with_key_aliases [] (config l)) (metadata l) [] o) ∅
    (layers_low_to_high layers).
End layers.
