(* ===== verification/ConfigLaws.v ===== *)
(** * ConfigLaws: what the configuration of a session is

    Theorems on the stack of layers (ConfigLayers.v): the layer that decides a value,
    the origin that is reported for it, the order of the layers, and the validity of
    what is merged. *)

From Stdlib Require Import Lia ZArith.
From stdpp Require Import base list gmap strings sorting.
From S2P Require Import Prelude JsonPatch AbsolutePath NetAddr NetHost ConfigToml ConfigMerge ConfigLayers.

Open Scope rust_scope.

Section laws.
Context {Float Datetime : Type} `{!MapOps (TomlValue Float Datetime)} `{!MapLaws (TomlValue Float Datetime)}
  {lowercase : Lowercase}.
#[local] Abbreviation TomlValue := (TomlValue Float Datetime).
#[local] Abbreviation Layer := (@ConfigLayerEntry Float Datetime).
Implicit Types (l : Layer) (layers ls : list Layer) (p : list rstr).

(** ** The layer that decides *)

(** What a layer says of a path, after its legacy keys are renamed. *)
Definition says l p := look [] (normalized_with_key_aliases [] (config l)) p.

(** A layer that says nothing of a path and hides nothing there. *)
Definition silent p l : Prop := says l p = Absent /\ hidden (says l) p = false.

Definition decides p l layers : Prop :=
  exists below above, layers = below ++ l :: above /\ Forall (silent p) above.

Lemma merge_layers_snoc ls l : merge_layers (ls ++ [l]) = merge_toml_values (merge_layers ls) (config l).
Proof. unfold merge_layers. by rewrite foldl_app. Qed.

Lemma merge_layers_ok ls :
  Forall (fun l => toml_wf (config l)) ls -> toml_wf (merge_layers ls) /\ settled [] (merge_layers ls).
Proof.
  induction ls as [|l ls IH] using rev_ind; intros H.
  - split; [by split; [constructor|]|]. intros a p _ _. unfold merge_layers. cbn. by destruct p.
  - apply Forall_app in H as [H Hl]. apply Forall_cons in Hl as [Hl _]. destruct (IH H) as [H1 H2].
    rewrite merge_layers_snoc. split; [by apply merge_wf|by apply merge_settled].
Qed.

Lemma merge_layers_look ls l p :
  Forall (fun l => toml_wf (config l)) (ls ++ [l]) -> special_path p = false ->
  look [] (merge_layers (ls ++ [l])) p = overlay_view (look [] (merge_layers ls)) (says l) p.
Proof.
  intros [H Hl]%Forall_app Hp. apply Forall_cons in Hl as [Hl _]. destruct (merge_layers_ok ls H) as [H1 H2].
  rewrite merge_layers_snoc. unfold merge_toml_values. by rewrite merge_look.
Qed.

Lemma decides_snoc p l ls l' :
  decides p l (ls ++ [l']) <-> l = l' \/ (decides p l ls /\ silent p l').
Proof.
  split.
  - intros (below & above & E & Ha). destruct above as [|x above _] using rev_ind.
    + left. by apply app_inj_tail in E as [_ ->].
    + right. rewrite app_comm_cons, app_assoc in E. apply app_inj_tail in E as [-> ->].
      apply Forall_app in Ha as [Ha Hx]. apply Forall_cons in Hx as [Hx _]. split; [|done]. by exists below, above.
  - intros [->|[(below & above & -> & Ha) Hs]].
    + exists ls, []. split; [done|constructor].
    + exists below, (above ++ [l']). split; [by rewrite <- app_assoc|]. apply Forall_app. split; [done|by constructor].
Qed.

Lemma merge_layers_decided ls p v :
  Forall (fun l => toml_wf (config l)) ls -> special_path p = false ->
  look [] (merge_layers ls) p = Leaf v <-> exists l, decides p l ls /\ says l p = Leaf v.
Proof.
  intros Hwf Hp. induction ls as [|l ls IH] using rev_ind.
  - split; [by destruct p|]. intros (l & (below & above & E & _) & _). by destruct below.
  - rewrite merge_layers_look by done. apply Forall_app in Hwf as [Hwf _]. specialize (IH Hwf). unfold overlay_view.
    destruct (says l p) as [| |w] eqn:E; [destruct (hidden (says l) p) eqn:Eh|..].
    + split; [done|]. intros (l' & [->|[_ [_ Hs]]]%decides_snoc & Hv); congruence.
    + rewrite IH. split; intros (l' & Hd & Hv).
      * exists l'. split; [|done]. apply decides_snoc. right. by split; [|split].
      * apply decides_snoc in Hd as [->|[Hd _]]; [congruence|]. by exists l'.
    + split; [done|]. intros (l' & [->|[_ [Hs _]]]%decides_snoc & Hv); congruence.
    + split.
      * intros [= ->]. exists l. split; [|done]. apply decides_snoc. by left.
      * intros (l' & [->|[_ [Hs _]]]%decides_snoc & Hv); congruence.
Qed.

Lemma effective_decided layers p v :
  Forall (fun l => toml_wf (config l)) layers -> special_path p = false ->
  look [] (effective_config layers) p = Leaf v
  <-> exists l, decides p l (layers_low_to_high layers) /\ says l p = Leaf v.
Proof.
  intros Hwf Hp. apply merge_layers_decided; [|done]. unfold layers_low_to_high. apply Forall_forall. intros l Hl.
  apply list_elem_of_In, filter_In in Hl as [Hl _]. apply (proj1 (Forall_forall _ _) Hwf). by apply list_elem_of_In.
Qed.

(** C16: The value of a setting is the one of the highest enabled layer that says
    something of it: no enabled layer above that one sets it, makes a table of it, or
    replaces a table it belongs to.  Legacy keys count under their new name, and a
    Boolean in the place of a structured feature as its [enabled].  The settings are
    all but the filters of the shell environment ([filters], [exclude] and
    [include_only]), where one representation displaces another, and the domains of
    the network of a permission profile, whose keys are renamed; there the claim is
    false. *)
Theorem effective_value_is_highest layers p v :
  Forall (fun l => toml_wf (config l)) layers -> special_path p = false ->
  look [] (effective_config layers) p = Leaf v
  <-> exists l, decides p l (layers_low_to_high layers) /\ says l p = Leaf v.
Proof. apply effective_decided. Qed.

(** ** Origins *)

(** The paths at which a layer records its name. *)
Definition scalar_keys (is_bool : bool) (path : list rstr) : list (list rstr) :=
  if is_empty path then []
  else if is_bool && is_structured_feature_path path
  then (if is_some_and (last path) (fun feature => feature == lit "network_proxy") then [path] else [])
       ++ [path ++ [k_enabled]]
  else [path].

Fixpoint recorded_keys (v : TomlValue) (path : list rstr) : list (list rstr) :=
  match v with
  | TTable t => List.concat (List.map (fun e => recorded_keys e.2 (path ++ [e.1])) t)
  | TArray items =>
      (fix go (i : nat) (items : list TomlValue) :=
         match items with
         | [] => []
         | item :: items => recorded_keys item (path ++ [decimal (N.of_nat i)]) ++ go (S i) items
         end) 0 items
  | TBoolean _ => scalar_keys true path
  | _ => scalar_keys false path
  end.

Definition record_keys (meta : ConfigLayerMetadata) (keys : list (list rstr)) (o : gmap rstr ConfigLayerMetadata) :=
  foldl (fun o k => <[join_path k := meta]> o) o keys.

Lemma record_scalar_keys b meta path o : record_scalar b meta path o = record_keys meta (scalar_keys b path) o.
Proof.
  unfold record_scalar, scalar_keys. destruct (is_empty path); [done|]. destruct (b && _); [|done].
  by destruct (is_some_and _ _).
Qed.

Lemma record_origins_keys v meta path o : record_origins v meta path o = record_keys meta (recorded_keys v path) o.
Proof.
  revert path o. induction v as [s|z|f|x|d|items IH|t IH] using toml_ind; intros path o;
    try apply record_scalar_keys; cbn [record_origins recorded_keys].
  - generalize 0. revert o. induction IH as [|item items Hi _ IHl]; intros o n; [done|]. cbn [fold_left fst snd].
    rewrite IHl, Hi. unfold record_keys. by rewrite foldl_app.
  - revert o. induction IH as [|[k v] t Hv _ IHt]; intros o; [done|]. cbn [fold_left List.map List.concat fst snd].
    rewrite IHt. cbn in Hv. rewrite Hv. unfold record_keys. by rewrite foldl_app.
Qed.

(** Keys without dots, so that joined paths can be told apart. *)
Fixpoint dotless (v : TomlValue) : Prop :=
  match v with
  | TTable t => fold_right (fun e P => (c_dot ∉ e.1) /\ dotless e.2 /\ P) True t
  | TArray items => fold_right (fun item P => dotless item /\ P) True items
  | _ => True
  end.

Lemma decimal_dotless n : c_dot ∉ decimal n.
Proof. intros H. by apply (proj1 (Forall_forall _ _) (decimal_digits n)) in H. Qed.

Lemma scalar_keys_shape b path k :
  k ∈ scalar_keys b path ->
  k <> [] /\ (k = path \/ (b = true /\ is_structured_feature_path path = true /\ k = path ++ [k_enabled])).
Proof.
  unfold scalar_keys. destruct path as [|a path]; cbn [is_empty]; [by intros ?%elem_of_nil|].
  destruct b, (is_structured_feature_path (a :: path)); cbn [andb]; try (intros ->%list_elem_of_singleton; by auto).
  intros [Hk| ->%list_elem_of_singleton]%elem_of_app; [|by auto]. destruct (is_some_and _ _); [|by apply elem_of_nil in Hk].
  apply list_elem_of_singleton in Hk as ->. by auto.
Qed.

(** A path that is recorded starts with the path of the value. *)
Lemma recorded_keys_start v path k :
  k ∈ recorded_keys v path ->
  k <> [] /\ exists q, k = path ++ q /\ (dotless v -> Forall (fun s => c_dot ∉ s) q).
Proof.
  assert (Hscalar : forall b path, k ∈ scalar_keys b path ->
    k <> [] /\ exists q, k = path ++ q /\ (True -> Forall (fun s => c_dot ∉ s) q)).
  { intros b path' [Hne Hk]%scalar_keys_shape. split; [done|]. destruct Hk as [->|(_ & _ & ->)].
    - exists []. by rewrite app_nil_r.
    - exists [k_enabled]. split; [done|]. intros _. repeat constructor. by apply (bool_decide_unpack _); vm_compute. }
  revert path. induction v as [s|z|f|x|d|items IH|t IH] using toml_ind; intros path Hk;
    try (eapply Hscalar; exact Hk); cbn [recorded_keys dotless] in *.
  - revert Hk. generalize 0. induction IH as [|item items Hi _ IHl]; intros n Hk; [by apply elem_of_nil in Hk|].
    apply elem_of_app in Hk as [Hk|Hk].
    + destruct (Hi _ Hk) as (Hne & q & -> & Hq). split; [done|]. rewrite <- app_assoc. eexists. split; [reflexivity|].
      intros [Hd _]. constructor; [apply decimal_dotless|by apply Hq].
    + destruct (IHl _ Hk) as (Hne & q & -> & Hq). split; [done|]. exists q. split; [done|]. intros [_ Hd]. by apply Hq.
  - revert Hk. induction IH as [|[k0 v0] t Hv _ IHt]; intros Hk; [by apply elem_of_nil in Hk|].
    cbn [List.map List.concat fst snd] in Hk. apply elem_of_app in Hk as [Hk|Hk].
    + cbn in Hv. destruct (Hv _ Hk) as (Hne & q & -> & Hq). split; [done|]. rewrite <- app_assoc. eexists. split; [reflexivity|].
      intros (Hdot & Hd & _). constructor; [done|by apply Hq].
    + destruct (IHt Hk) as (Hne & q & -> & Hq). split; [done|]. exists q. split; [done|]. intros (_ & _ & Hd). by apply Hq.
Qed.

Lemma recorded_table t path k :
  k ∈ recorded_keys (TTable t) path <-> exists k0 v0, (k0, v0) ∈ t /\ k ∈ recorded_keys v0 (path ++ [k0]).
Proof.
  cbn [recorded_keys]. induction t as [|[k1 v1] t IH]; cbn [List.map List.concat fst snd].
  - split; [by intros ?%elem_of_nil|]. intros (? & ? & H%elem_of_nil & _). done.
  - rewrite elem_of_app, IH. split.
    + intros [Hk|(k0 & v0 & Hin & Hk)]; [exists k1, v1; split; [left|done]|]. exists k0, v0. split; [by right|done].
    + intros (k0 & v0 & [[= -> ->]|Hin]%elem_of_cons & Hk); [by left|]. right. by exists k0, v0.
Qed.

Lemma hidden_ext (o o' : list rstr -> view (Float := Float) (Datetime := Datetime)) p :
  (forall q, o q = o' q) -> hidden o p = hidden o' p.
Proof. revert o o'. induction p as [|k p IH]; intros o o' H; [done|]. cbn. rewrite H. f_equal. by apply IH. Qed.

(** Nothing is recorded where a value is silent. *)
Lemma recorded_not_silent v path k :
  toml_wf v -> k ∈ recorded_keys v path ->
  exists q, k = path ++ q /\ (look path v q <> Absent \/ hidden (look path v) q = true).
Proof.
  assert (Hscalar : forall b path (w : TomlValue),
    (b = true -> exists x, w = TBoolean x) -> k ∈ scalar_keys b path ->
    exists q, k = path ++ q /\ (look path w q <> Absent \/ hidden (look path w) q = true)).
  { intros b path' w Hb [_ [->|(-> & Hs & ->)]]%scalar_keys_shape.
    - exists []. split; [by rewrite app_nil_r|]. left. apply look_root.
    - exists [k_enabled]. split; [done|]. left. destruct (Hb eq_refl) as [x ->].
      rewrite look_enabled_below by done. rewrite str_eqb_refl. apply look_root. }
  revert path. induction v as [s|z|f|x|d|items _|t IH] using toml_ind; intros path Hwf Hk;
    try (apply (Hscalar false); [done|exact Hk]).
  - apply (Hscalar true); [by eexists|exact Hk].
  - apply recorded_keys_start in Hk as (_ & q & -> & _). exists q. split; [done|].
    destruct q; [left; apply look_root|by right].
  - apply recorded_table in Hk as (k0 & v0 & Hin & Hk). pose proof (elem_map_get _ _ _ (wf_keys _ Hwf) Hin) as Hg.
    destruct (proj1 (Forall_forall _ _) IH (k0, v0) Hin (path ++ [k0]) (wf_get _ _ _ Hwf Hg) Hk) as (q & -> & Hq).
    exists (k0 :: q). split; [by rewrite <- app_assoc|]. rewrite look_table, Hg. destruct Hq as [Hq|Hq]; [by left|right].
    cbn [hidden]. rewrite <- Hq. apply hidden_ext. intros q'. by rewrite look_table, Hg.
Qed.

Definition is_array (v : TomlValue) : bool := match v with TArray _ => true | _ => false end.

Lemma leaf_recorded v path p w :
  look path v p = Leaf w -> is_array w = false -> path ++ p <> [] -> path ++ p ∈ recorded_keys v path.
Proof.
  revert path v. induction p as [|k p IH]; intros path v Hl Hw Hne.
  - rewrite app_nil_r in *. cbn [look] in Hl. unfold as_feature_table in Hl.
    destruct v as [| | |x| | |]; cbn [recorded_keys]; unfold scalar_keys; try (destruct path; [done|]; cbn; by left).
    + destruct path as [|a path]; [done|]. cbn [is_empty]. destruct (is_structured_feature_path (a :: path)); [done|]. by left.
    + injection Hl as <-. done.
    + done.
  - destruct v as [| | |x| | |t]; try done.
    + destruct (is_structured_feature_path path) eqn:Es; [|cbn in Hl; by rewrite Es in Hl].
      rewrite look_enabled_below in Hl by done. destruct (k_enabled == k) eqn:Ek; [|done]. apply str_eqb_true in Ek as <-.
      destruct p as [|k' p]; [|cbn in Hl; by rewrite structured_child in Hl].
      cbn [recorded_keys]. unfold scalar_keys. destruct path; [done|]. cbn [is_empty]. rewrite Es. cbn [andb].
      apply elem_of_app. right. by apply list_elem_of_singleton.
    + rewrite look_table in Hl. destruct (map_get t k) as [c|] eqn:Ec; [|done]. apply recorded_table. exists k, c.
      split; [by apply map_get_elem|]. replace (path ++ k :: p) with ((path ++ [k]) ++ p) by (by rewrite <- app_assoc).
      apply IH; [done|done|]. rewrite <- app_assoc. by destruct path.
Qed.

Lemma record_keys_get meta keys o j :
  record_keys meta keys o !! j = if bool_decide (j ∈ join_path <$> keys) then Some meta else o !! j.
Proof.
  unfold record_keys. revert o. induction keys as [|k keys IH]; intros o; [done|]. cbn [foldl fmap list_fmap]. rewrite IH.
  destruct (decide (j = join_path k)) as [->|Hne].
  - rewrite (bool_decide_true (join_path k ∈ join_path k :: _)) by left. rewrite lookup_insert_eq. by destruct (bool_decide _).
  - rewrite lookup_insert_ne by done. destruct (bool_decide_reflect (j ∈ join_path <$> keys)) as [Hin|Hin].
    + rewrite bool_decide_true; [done|]. by right.
    + rewrite bool_decide_false; [done|]. intros [?|?]%elem_of_cons; done.
Qed.

Lemma join_path_inj (a b : list rstr) :
  a <> [] -> b <> [] -> Forall (fun s => c_dot ∉ s) a -> Forall (fun s => c_dot ∉ s) b -> join_path a = join_path b -> a = b.
Proof.
  intros Ha Hb Hda Hdb E. unfold join_path in E. apply (f_equal (split_on c_dot)) in E. by rewrite !split_on_join in E.
Qed.

(** What one layer does to the origin of a path. *)
Lemma layer_origin l p o :
  toml_wf (config l) -> dotless (normalized_with_key_aliases [] (config l)) -> p <> [] -> Forall (fun s => c_dot ∉ s) p ->
  silent p l ->
  record_origins (normalized_with_key_aliases [] (config l)) (metadata l) [] o !! join_path p = o !! join_path p.
Proof.
  intros Hwf Hd Hne Hdp [Ha Hh]. rewrite record_origins_keys, record_keys_get, bool_decide_false; [done|].
  intros (k & E & Hk)%list_elem_of_fmap. destruct (recorded_keys_start _ _ _ Hk) as (Hk0 & q & -> & Hq).
  cbn [app] in *. apply join_path_inj in E as ->; [|done|done|done|by apply Hq].
  destruct (recorded_not_silent _ _ _ (normalized_wf [] _ Hwf) Hk) as (q' & E & Hs). cbn [app] in E. subst q'.
  destruct Hs as [Hs|Hs]; [by apply Hs|]. change (hidden (says l) q = true) in Hs. congruence.
Qed.

(** C23: The origin that is reported for a setting is the layer that decides it, when
    no key of the configuration has a dot in it.  The setting is not an array, whose
    elements have origins of their own, and not one of the filters of the shell
    environment or of the domains of a permission profile, whose keys are displaced or
    renamed by the merge while their origins are recorded as they were spelled. *)
Theorem origins_name_deciding_layer layers p v :
  Forall (fun l => toml_wf (config l) /\ dotless (normalized_with_key_aliases [] (config l))) layers ->
  special_path p = false -> p <> [] -> is_array v = false ->
  look [] (effective_config layers) p = Leaf v ->
  exists l, decides p l (layers_low_to_high layers) /\ says l p = Leaf v
            /\ origins layers !! join_path p = Some (metadata l).
Proof.
  intros Hall Hp Hne Hv Hl. assert (Hwf : Forall (fun l => toml_wf (config l)) layers)
    by (eapply Forall_impl; [exact Hall|]; by intros ? [? _]).
  apply effective_decided in Hl as (l & (below & above & E & Ha) & Hs); [|done|done].
  exists l. split; [by exists below, above|]. split; [done|].
  assert (Hen : Forall (fun l => toml_wf (config l) /\ dotless (normalized_with_key_aliases [] (config l))) (below ++ l :: above)).
  { rewrite <- E. apply Forall_forall. intros x Hx. apply list_elem_of_In, filter_In in Hx as [Hx _].
    apply (proj1 (Forall_forall _ _) Hall). by apply list_elem_of_In. }
  apply Forall_app in Hen as [_ Hen]. apply Forall_cons in Hen as [[_ Hdl] Hen].
  pose proof (leaf_recorded _ [] p v Hs Hv Hne) as Hrec. cbn [app] in Hrec.
  destruct (recorded_keys_start _ _ _ Hrec) as (_ & q & Eq & Hq). cbn [app] in Eq. subst q. specialize (Hq Hdl).
  unfold origins. rewrite E, foldl_app. cbn [foldl]. revert Ha Hen. clear E Hall Hwf.
  induction above as [|x above IH] using rev_ind; intros Ha Hen.
  - cbn [foldl]. rewrite record_origins_keys, record_keys_get, bool_decide_true; [done|].
    apply list_elem_of_fmap. by exists p.
  - apply Forall_app in Ha as [Ha Hx]. apply Forall_cons in Hx as [Hx _].
    apply Forall_app in Hen as [Hen Hxx]. apply Forall_cons in Hxx as [[Hwx Hdx] _].
    rewrite foldl_app. cbn [foldl]. rewrite layer_origin by done. by apply IH.
Qed.

(** ** The order of the layers *)

Definition project_folder l : option AbsolutePathBuf :=
  match layer_name l with Project folder => Some folder | _ => None end.

Fixpoint folders_ordered (previous : option AbsolutePathBuf) (folders : list AbsolutePathBuf) : result ConfigError unit :=
  match folders with
  | [] => Ok tt
  | current :: folders =>
      match previous with
      | None => folders_ordered (Some current) folders
      | Some previous =>
          match parent previous with
          | None => Err NoParentDirectory
          | Some p =>
              if bool_decide (previous = current) || negb (bool_decide (p ∈ ancestors current)) then Err NotRootToCwd
              else folders_ordered (Some current) folders
          end
      end
  end.

Lemma verify_projects_folders previous ls : verify_projects previous ls = folders_ordered previous (omap project_folder ls).
Proof.
  revert previous. induction ls as [|l ls IH]; intros previous; [done|]. cbn [verify_projects omap list_omap].
  unfold project_folder at 1. destruct (layer_name l); try apply IH. cbn [folders_ordered].
  destruct previous as [previous|]; [|apply IH]. destruct (parent previous); [|done]. destruct (_ || _); [done|apply IH].
Qed.

Definition ranked ls : Prop := Sorted Z.le ((fun l => precedence (layer_name l)) <$> ls).

Lemma is_sorted_spec (zs : list Z) : is_sorted zs = true <-> Sorted Z.le zs.
Proof.
  induction zs as [|x zs IH]; [split; [constructor|done]|]. destruct zs as [|y zs].
  - split; [repeat constructor|done].
  - cbn [is_sorted]. rewrite andb_true_iff, Z.leb_le. rewrite IH. split.
    + intros [? ?]. constructor; [done|by constructor].
    + intros [Hs Hh]%Sorted_inv. split; [by apply HdRel_inv in Hh|done].
Qed.

Lemma verify_layer_ordering_spec ls :
  verify_layer_ordering ls = Ok tt <-> ranked ls /\ folders_ordered None (omap project_folder ls) = Ok tt.
Proof.
  unfold verify_layer_ordering, ranked. rewrite <- is_sorted_spec, verify_projects_folders.
  destruct (is_sorted _); cbn [negb]; [by split; [|intros [_ ?]]|]. by split; [|intros [? _]].
Qed.

Lemma ranked_cons l ls : ranked (l :: ls) <-> Forall (fun x => precedence (layer_name l) <= precedence (layer_name x))%Z ls /\ ranked ls.
Proof.
  unfold ranked. cbn [fmap list_fmap]. split.
  - intros H%Sorted_StronglySorted; [|intros ???; lia]. apply StronglySorted_inv in H as [H1 H2].
    split; [by rewrite Forall_fmap in H2|by apply StronglySorted_Sorted].
  - intros [H1 H2]. constructor; [done|]. destruct ls as [|x ls]; [constructor|]. cbn. constructor. by apply Forall_cons in H1 as [? _].
Qed.

Lemma ranked_sublist ls ls' : sublist ls' ls -> ranked ls -> ranked ls'.
Proof.
  induction 1 as [|x ls' ls Hs IH|x ls' ls Hs IH]; [done|..]; intros [H1 H2]%ranked_cons.
  - apply ranked_cons. split; [|by apply IH]. apply Forall_forall. intros y Hy.
    apply (proj1 (Forall_forall _ _) H1). by apply (elem_of_sublist ls').
  - by apply IH.
Qed.

Lemma insert_layer_ranked l ls : ranked ls -> ranked (insert_layer l ls).
Proof.
  induction ls as [|x ls IH]; intros H; [unfold ranked; repeat constructor|]. cbn [insert_layer].
  apply ranked_cons in H as [H1 H2]. destruct (Z.ltb_spec (precedence (layer_name l)) (precedence (layer_name x))) as [Hlt|Hge].
  - apply ranked_cons. split; [|by apply ranked_cons]. constructor; [lia|]. eapply Forall_impl; [exact H1|]. cbn. lia.
  - apply ranked_cons. split; [|by apply IH]. clear -H1 Hge. induction ls as [|y ls IH]; [by repeat constructor|].
    cbn [insert_layer]. apply Forall_cons in H1 as [Hy H1]. destruct (_ <? _)%Z; repeat constructor; auto.
Qed.

(** An inserted layer is somewhere among the others. *)
Lemma insert_layer_split l ls : exists below above, ls = below ++ above /\ insert_layer l ls = below ++ l :: above.
Proof.
  induction ls as [|x ls (below & above & -> & E)]; [by exists [], []|]. cbn [insert_layer].
  destruct (_ <? _)%Z; [by exists [], (x :: below ++ above)|]. exists (x :: below), above. by rewrite E.
Qed.

Lemma insert_layer_folders l ls :
  project_folder l = None -> omap project_folder (insert_layer l ls) = omap project_folder ls.
Proof.
  intros Hl. destruct (insert_layer_split l ls) as (below & above & -> & ->). rewrite !omap_app. cbn. by rewrite Hl.
Qed.

Lemma remove_first_split f ls :
  (remove_first f ls = ls /\ Forall (fun l => f l = false) ls)
  \/ exists below x above, ls = below ++ x :: above /\ remove_first f ls = below ++ above /\ f x = true.
Proof.
  induction ls as [|x ls IH]; [by left|]. cbn [remove_first]. destruct (f x) eqn:E; [right; by exists [], x, ls|].
  destruct IH as [[-> Hf]|(below & y & above & -> & -> & Hy)]; [left; by repeat constructor|]. right. by exists (x :: below), y, above.
Qed.

Lemma sublist_remove_first f ls : sublist (remove_first f ls) ls.
Proof.
  destruct (remove_first_split f ls) as [[-> _]|(below & x & above & -> & -> & _)]; [done|].
  apply sublist_app; [done|by apply sublist_cons].
Qed.

Lemma omap_none {A B} (f : A -> option B) (xs ys : list A) x : f x = None -> omap f (xs ++ x :: ys) = omap f (xs ++ ys).
Proof. intros H. rewrite !omap_app. cbn. by rewrite H. Qed.

Lemma user_of_not_project file l : is_user_of file l = true -> project_folder l = None.
Proof. unfold is_user_of, project_folder. by destruct (layer_name l). Qed.

Lemma remove_user_folders file ls : omap project_folder (remove_first (is_user_of file) ls) = omap project_folder ls.
Proof.
  destruct (remove_first_split (is_user_of file) ls) as [[-> _]|(below & x & above & -> & -> & Hx)]; [done|].
  symmetry. by apply omap_none, (user_of_not_project file).
Qed.

Lemma filter_sublist (f : Layer -> bool) ls : sublist (List.filter f ls) ls.
Proof. induction ls as [|x ls IH]; [constructor|]. cbn. destruct (f x); by constructor. Qed.

Lemma non_user_folders ls : omap project_folder (List.filter (fun l => negb (is_user (layer_name l))) ls) = omap project_folder ls.
Proof.
  induction ls as [|l ls IH]; [done|]. cbn [List.filter]. destruct (is_user (layer_name l)) eqn:E; cbn [negb].
  - rewrite IH. cbn. assert (project_folder l = None) as ->; [|done]. unfold project_folder. by destruct (layer_name l).
  - cbn. by rewrite IH.
Qed.

Section updates.
Context (decode_filter : TomlValue -> option ShellEnvironmentPolicyFilter) (version_for_toml : TomlValue -> rstr).

(** Replacing the configuration of the user, or taking it over from another
    session, keeps the layers in the order of their precedence and the project layers
    from the root to the working directory.  Replacing it puts the new configuration
    in the place of the first layer of that file, or among the others where its
    precedence belongs, and touches no other layer. *)
Theorem layer_order_kept layers :
  verify_layer_ordering layers = Ok tt ->
  (forall other, verify_layer_ordering (with_user_layer_from other layers) = Ok tt)
  /\ forall file profile cfg layers',
       with_user_config_profile decode_filter version_for_toml file profile cfg layers = Ok layers' ->
       verify_layer_ordering layers' = Ok tt
       /\ exists below above, below ++ above = remove_first (is_user_of file) layers
            /\ layers' = below ++ new_layer version_for_toml (User file profile) cfg :: above.
Proof.
  intros [Hr Hf]%verify_layer_ordering_spec. split.
  - intros other. apply verify_layer_ordering_spec. unfold with_user_layer_from.
    assert (H : forall us ls, Forall (fun l => is_user (layer_name l) = true) us -> ranked ls ->
      ranked (foldl (fun ls l => insert_layer l ls) ls us)
      /\ omap project_folder (foldl (fun ls l => insert_layer l ls) ls us) = omap project_folder ls).
    { induction us as [|u us IH]; intros ls Hu Hls; [done|]. apply Forall_cons in Hu as [Hu Hus]. cbn [foldl].
      destruct (IH (insert_layer u ls) Hus) as [H1 ->]; [by apply insert_layer_ranked|]. split; [done|].
      apply insert_layer_folders. unfold project_folder. by destruct (layer_name u). }
    destruct (H (List.filter (fun l => is_user (layer_name l)) other)
      (List.filter (fun l => negb (is_user (layer_name l))) layers)) as [H1 H2].
    + apply Forall_forall. intros l Hl. by apply list_elem_of_In, filter_In in Hl as [_ ?].
    + by apply (ranked_sublist layers); [apply filter_sublist|].
    + split; [exact H1|]. by rewrite H2, non_user_folders.
  - intros file profile cfg layers' E. unfold with_user_config_profile in E.
    destruct (validate_enabled_config_layers _ _); [|done]. cbn in E. injection E as <-.
    split; [apply verify_layer_ordering_spec; split|].
    + apply insert_layer_ranked, (ranked_sublist layers); [apply sublist_remove_first|done].
    + rewrite insert_layer_folders by done. by rewrite remove_user_folders.
    + destruct (insert_layer_split (new_layer version_for_toml (User file profile) cfg)
        (remove_first (is_user_of file) layers)) as (below & above & -> & ->). by exists below, above.
Qed.
End updates.
End laws.
