(* ===== verification/ConfigValid.v ===== *)
(** * ConfigValid: merging keeps the filters of the shell environment valid

    The layers of a configuration are validated one by one (ConfigLayers.v).  Their
    filters of the shell environment come in two representations, which must not be
    mixed, and their patterns must be distinct up to case; what is merged from valid
    layers is valid. *)

From Stdlib Require Import Lia ZArith.
From stdpp Require Import base list gmap strings.
From S2P Require Import Prelude JsonPatch AbsolutePath NetAddr NetHost ConfigToml ConfigMerge ConfigLayers.

Open Scope rust_scope.

Section valid.
Context {Float Datetime : Type} `{!MapOps (TomlValue Float Datetime)} `{!MapLaws (TomlValue Float Datetime)}
  {lowercase : Lowercase} {lowercase_laws : LowercaseLaws}.
#[local] Abbreviation TomlValue := (TomlValue Float Datetime).
#[local] Abbreviation TomlMap := (list (rstr * TomlValue)).
Context (decode_filter : TomlValue -> option ShellEnvironmentPolicyFilter).
Implicit Types (v b o : TomlValue) (t pt qt : TomlMap) (path : list rstr) (k : rstr).

(** A value of a filter that is written as a string. *)
Definition filter_value v : Prop := exists s f, v = TString s /\ decode_filter v = Some f.

Definition filter_table v : Prop :=
  exists t, v = TTable t /\ (forall k c, (k, c) ∈ t -> filter_value c) /\ NoDup (to_lowercase <$> t.*1).

Definition string_list v : Prop := is_some (decode_strings v) = true.

Definition policy_ok pt : Prop :=
  (forall v, map_get pt k_exclude = Some v -> string_list v)
  /\ (forall v, map_get pt k_include_only = Some v -> string_list v)
  /\ (forall v, map_get pt k_filters = Some v -> filter_table v)
  /\ (map_get pt k_filters = None \/ (map_get pt k_exclude = None /\ map_get pt k_include_only = None)).

Definition config_ok v : Prop :=
  exists t, v = TTable t /\ forall pt, map_get t k_policy = Some (TTable pt) -> policy_ok pt.

(** The filters are written as strings. *)
Definition string_filters v : Prop :=
  forall t pt ft k c, v = TTable t -> map_get t k_policy = Some (TTable pt) -> map_get pt k_filters = Some (TTable ft) ->
    (k, c) ∈ ft -> exists s, c = TString s.

Lemma decode_entries_spec t :
  match mapM (decode_entry decode_filter) t with
  | Some l => l.*1 = t.*1 /\ forall k c, (k, c) ∈ t -> is_some (decode_filter c) = true
  | None => exists k c, (k, c) ∈ t /\ decode_filter c = None
  end.
Proof.
  induction t as [|[k c] t IH]; [split; [done|]; by intros k c Hin%elem_of_nil|]. cbn.
  change (decode_entry decode_filter (k, c)) with (f ← decode_filter c; Some (k, f)).
  destruct (decode_filter c) as [f|] eqn:Ef; cbn; [|exists k, c; split; [left|done]].
  destruct (mapM (decode_entry decode_filter) t) as [l|]; cbn.
  - destruct IH as [E H]. split; [by f_equal|]. intros k' c' [[= -> ->]|Hin]%elem_of_cons; [by rewrite Ef|by apply (H k')].
  - destruct IH as (k' & c' & Hin & Hn). exists k', c'. split; [by right|done].
Qed.

Lemma strings_field_some (v : option TomlValue) :
  match decode_strings_field v with
  | Ok x => is_some x = is_some v /\ forall w, v = Some w -> string_list w
  | Err _ => exists w, v = Some w /\ ~ string_list w
  end.
Proof.
  destruct v as [v|]; [|by split]. cbn. unfold string_list. destruct (decode_strings v) eqn:E; cbn.
  - split; [done|]. intros w [= <-]. by rewrite E.
  - exists v. split; [done|]. by rewrite E.
Qed.

Lemma filters_field_spec (v : option TomlValue) :
  (forall t k c, v = Some (TTable t) -> (k, c) ∈ t -> exists s, c = TString s) ->
  match decode_filters_field decode_filter v with
  | Ok x => match x with
            | Some l => exists t, v = Some (TTable t) /\ l.*1 = t.*1 /\ forall k c, (k, c) ∈ t -> filter_value c
            | None => v = None
            end
  | Err _ => exists w, v = Some w /\ ~ filter_table w
  end.
Proof.
  intros Hs. destruct v as [v|]; [|done]. cbn [decode_filters_field].
  destruct v as [| | | | | |t]; try (eexists; split; [done|]; by intros (? & ? & _)).
  pose proof (decode_entries_spec t) as H. destruct (mapM _ t) as [l|].
  - destruct H as [E H]. exists t. split; [done|]. split; [done|]. intros k c Hin. destruct (Hs t k c eq_refl Hin) as [s ->].
    specialize (H k _ Hin). destruct (decode_filter (TString s)) as [f|] eqn:Ef; [|done]. by exists s, f.
  - eexists. split; [done|]. intros (t' & [= <-] & Ht & _). destruct H as (k & c & Hin & Hn).
    destruct (Ht k c Hin) as (s & f & _ & Hf). congruence.
Qed.

(** The decoder accepts exactly the policies that are all right. *)
Lemma decode_filter_fields_spec pt :
  (forall t k c, map_get pt k_filters = Some (TTable t) -> (k, c) ∈ t -> exists s, c = TString s) ->
  (exists r, decode_filter_fields decode_filter pt = Ok r) <-> policy_ok pt.
Proof.
  intros Hs. unfold decode_filter_fields, policy_ok.
  pose proof (strings_field_some (map_get pt k_exclude)) as He. pose proof (strings_field_some (map_get pt k_include_only)) as Hi.
  pose proof (filters_field_spec (map_get pt k_filters) Hs) as Hf.
  destruct (decode_strings_field (map_get pt k_exclude)) as [e|]; cbn [mbind result_bind];
    [|destruct He as (w & E & Hw); split; [by intros [? ?]|]; intros (H & _); by destruct (Hw (H w E))].
  destruct (decode_strings_field (map_get pt k_include_only)) as [i|]; cbn [mbind result_bind];
    [|destruct Hi as (w & E & Hw); split; [by intros [? ?]|]; intros (_ & H & _); by destruct (Hw (H w E))].
  destruct (decode_filters_field decode_filter (map_get pt k_filters)) as [f|]; cbn [mbind result_bind];
    [|destruct Hf as (w & E & Hw); split; [by intros [? ?]|]; intros (_ & _ & H & _); by destruct (Hw (H w E))].
  destruct He as [Ee He], Hi as [Ei Hi]. rewrite Ee, Ei. destruct f as [l|]; cbn [is_some andb].
  - destruct Hf as (t & Et & El & Hf). rewrite Et.
    destruct (map_get pt k_exclude); cbn [is_some orb]; [split; [by intros [? ?]|]; by intros (_ & _ & _ & [?|[? _]])|].
    destruct (map_get pt k_include_only); cbn [is_some]; [split; [by intros [? ?]|]; by intros (_ & _ & _ & [?|[_ ?]])|].
    rewrite El. destruct (bool_decide_reflect (NoDup (to_lowercase <$> t.*1))) as [Hn|Hn].
    + split; [|by eexists]. intros _. split; [done|]. split; [done|]. split; [|by right]. intros v [= <-]. by exists t.
    + split; [by intros [? ?]|]. intros (_ & _ & H & _). destruct (H _ eq_refl) as (t' & [= <-] & _ & ?). done.
  - rewrite Hf. split; [|by eexists]. intros _. by repeat split; [..|left].
Qed.

Lemma validate_spec v :
  string_filters v -> validate_shell_environment_policy_filter_config decode_filter v = Ok tt <-> config_ok v.
Proof.
  intros Hs. unfold validate_shell_environment_policy_filter_config, config_ok.
  destruct v as [| | | | | |t]; try (split; [done|]; by intros (? & ? & _)).
  destruct (map_get t k_policy) as [[| | | | | |pt]|] eqn:E; try (split; [|done]; intros _; exists t; split; [done|]; intros pt' E'; by rewrite E in E').
  assert (Hp : (exists r, decode_filter_fields decode_filter pt = Ok r) <-> policy_ok pt)
    by (apply decode_filter_fields_spec; intros ft k c Ek Hin; by eapply (Hs t pt ft)).
  destruct (decode_filter_fields decode_filter pt) as [r|] eqn:Er; cbn.
  - split; [|done]. intros _. exists t. split; [done|]. intros pt' E'. rewrite E in E'. injection E' as <-.
    apply Hp. by exists r.
  - split; [done|]. intros (t' & [= <-] & Hpt). destruct (proj2 Hp) as [r Hr]; [by apply Hpt|done].
Qed.

(** ** Renaming legacy keys changes nothing *)

Lemma string_list_normalized path v : string_list v -> normalized_with_key_aliases path v = v.
Proof.
  unfold string_list. destruct v as [| | | | |items|]; try done. cbn [decode_strings normalized_with_key_aliases]. intros Hs.
  f_equal. destruct (mapM as_str items) as [l|] eqn:E; [|done]. apply mapM_Some in E. clear Hs.
  induction E as [|item s items l Hi _ IH]; [done|]. cbn. f_equal; [|exact IH]. by destruct item.
Qed.

Lemma normalized_deep_get path t :
  2 <= length path -> NoDup t.*1 ->
  exists t', normalized_with_key_aliases path (TTable t) = TTable t' /\ NoDup t'.*1
    /\ forall k, map_get t' k = normalized_with_key_aliases (path ++ [k]) <$> map_get t k.
Proof.
  intros Hp Hnd. destruct (normalized_get path t [] Hnd) as (t' & E & Hn & _). exists t'. split; [done|]. split; [done|].
  intros k'. destruct (normalized_get path t k' Hnd) as (t'' & E' & _ & Hg). rewrite E in E'. injection E' as <-.
  by rewrite Hg, aliases_deep.
Qed.

Lemma filter_table_normalized path v :
  2 <= length path -> toml_wf v -> filter_table v -> filter_table (normalized_with_key_aliases path v).
Proof.
  intros Hp Hwf (t & -> & Ht & Hnd). pose proof (wf_keys _ Hwf) as Hk.
  destruct (normalized_deep_get path t Hp Hk) as (t' & -> & Hk' & Hg). exists t'. split; [done|]. split.
  - intros k c Hin. apply elem_map_get in Hin; [|done]. rewrite Hg in Hin.
    destruct (map_get t k) as [c0|] eqn:E; [|done]. cbn in Hin. injection Hin as <-.
    destruct (Ht k c0 (map_get_elem _ _ _ E)) as (s & f & -> & Hf). by exists s, f.
  - assert (Hperm : t'.*1 ≡ₚ t.*1); [|by rewrite Hperm]. apply NoDup_Permutation; [done|done|]. intros k.
    rewrite <- !contains_key_spec. unfold contains_key. rewrite Hg. by destruct (map_get t k).
Qed.

(** ** Merging filters *)

Lemma rekey_entries (f : rstr -> rstr) t :
  NoDup (rekey f t).*1 /\ forall k c, (k, c) ∈ rekey f t -> exists k0, k = f k0 /\ (k0, c) ∈ t.
Proof.
  unfold rekey. assert (H : forall m, NoDup m.*1 -> (forall k c, (k, c) ∈ m -> exists k0, k = f k0 /\ (k0, c) ∈ t) ->
    forall s, s ⊆ t -> NoDup (foldl (fun m e => map_insert m (f e.1) e.2) m s).*1
      /\ forall k c, (k, c) ∈ foldl (fun m e => map_insert m (f e.1) e.2) m s -> exists k0, k = f k0 /\ (k0, c) ∈ t).
  { intros m Hn Hm s. revert m Hn Hm. induction s as [|[k1 c1] s IH]; intros m Hn Hm Hs; [done|]. cbn [foldl fst snd]. apply IH.
    - by apply map_insert_keys.
    - intros k c Hin. apply elem_map_get in Hin; [|by apply map_insert_keys]. rewrite map_insert_get in Hin by done.
      destruct (f k1 == k) eqn:E.
      + apply str_eqb_true in E as <-. injection Hin as ->. exists k1. split; [done|]. apply Hs. left.
      + apply Hm. by apply map_get_elem.
    - intros x Hx. apply Hs. by right. }
  apply H; [constructor|by intros k c Hin%elem_of_nil|done].
Qed.

Lemma filter_value_merge fuel path b o : filter_value b -> filter_value o -> filter_value (merge_at fuel path b o).
Proof.
  intros (s & f & -> & Hf) (s' & f' & -> & Hf'). destruct fuel as [|fuel]; [by exists s, f|]. cbn [merge_at].
  unfold replace_representation. destruct (negb _); cbn [from_policy]; unfold merge_feature;
    destruct (is_structured_feature_path path); by exists s', f'.
Qed.

Lemma filter_table_merge fuel b o :
  toml_wf b -> toml_wf o -> filter_table b -> filter_table o -> filter_table (merge_at fuel [k_policy; k_filters] b o).
Proof.
  intros Hwb Hwo Hb Ho. destruct fuel as [|fuel]; [done|]. destruct Hb as (bt & -> & Hb & _), Ho as (ot & -> & Ho & _).
  cbn [merge_at]. assert (replace_representation (TTable bt) (TTable ot) [k_policy; k_filters] = TTable bt) as -> by done.
  assert (merge_feature [k_policy; k_filters] (TTable bt) (TTable ot) = (TTable bt, false)) as -> by done.
  assert (normalize_tables [k_policy; k_filters] bt ot = (rekey to_lowercase bt, rekey to_lowercase ot)) as ->.
  { unfold normalize_tables. rewrite !aliases_deep by done. done. }
  destruct (rekey_entries to_lowercase bt) as [Hnb Hbe]. destruct (rekey_entries to_lowercase ot) as [Hno Hoe].
  set (r := foldl _ _ _). exists r. split; [done|].
  assert (Hr : NoDup r.*1) by (by apply (merge_entries_get (merge_at fuel) [k_policy; k_filters] _ _ [])).
  assert (Hent : forall k c, (k, c) ∈ r -> filter_value c /\ exists k0, k = to_lowercase k0).
  { intros k c Hin. apply elem_map_get in Hin; [|done].
    destruct (merge_entries_get (merge_at fuel) [k_policy; k_filters] _ _ k Hnb Hno) as [_ Hg]. fold r in Hg. rewrite Hg in Hin.
    destruct (map_get (rekey to_lowercase ot) k) as [v|] eqn:Ev.
    - apply map_get_elem, Hoe in Ev as (k0 & -> & Hv%Ho). split; [|by exists k0]. injection Hin as <-.
      destruct (map_get (rekey to_lowercase bt) (to_lowercase k0)) as [e|] eqn:Ee.
      + apply map_get_elem, Hbe in Ee as (k1 & _ & He%Hb). by apply filter_value_merge.
      + by destruct Hv as (s & f & -> & Hf); exists s, f.
    - apply map_get_elem, Hbe in Hin as (k0 & -> & Hc%Hb). split; [done|by exists k0]. }
  split; [intros k c Hin; by apply (Hent k)|].
  assert (to_lowercase <$> r.*1 = r.*1) as ->; [|done]. rewrite <- list_fmap_compose, <- (list_fmap_id r.*1), <- list_fmap_compose.
  apply list_fmap_ext. intros i [k c] Hi. cbn. destruct (Hent k c) as [_ [k0 ->]]; [by apply list_elem_of_lookup_2 in Hi|].
  apply to_lowercase_idem.
Qed.

Lemma string_list_merge fuel path b o : string_list b -> string_list o -> string_list (merge_at fuel path b o).
Proof.
  intros Hb Ho. destruct fuel as [|fuel]; [done|]. cbn [merge_at]. destruct o as [| | | | |items|]; try done.
  assert (Hf : forall b, merge_feature path b (TArray items) = (b, false)).
  { intros b'. unfold merge_feature. destruct (is_structured_feature_path path); [|done]. by destruct b'. }
  rewrite Hf. by rewrite string_list_normalized.
Qed.

(** ** The policy *)

Lemma policy_aliases t : normalize_key_aliases [k_policy] t = t.
Proof. unfold normalize_key_aliases, CONFIG_KEY_ALIASES. cbn [foldl]. unfold apply_alias. by rewrite !bool_decide_false. Qed.

Lemma root_aliases t : normalize_key_aliases [] t = t.
Proof. unfold normalize_key_aliases, CONFIG_KEY_ALIASES. cbn [foldl]. unfold apply_alias. by rewrite !bool_decide_false. Qed.

(** The three fields, each computed on its own. *)
Lemma policy_ok_by_fields pt qt (g : rstr -> TomlValue -> TomlValue) :
  policy_ok pt -> (forall k, map_get qt k = g k <$> map_get pt k) ->
  (forall k v, string_list v -> string_list (g k v)) ->
  (forall v, map_get pt k_filters = Some v -> filter_table v -> filter_table (g k_filters v)) -> policy_ok qt.
Proof.
  intros (H1 & H2 & H3 & H4) Hg Hs Hf. unfold policy_ok. rewrite !Hg. repeat split.
  - intros v. destruct (map_get pt k_exclude) as [w|]; [|done]. intros [= <-]. by apply Hs, H1.
  - intros v. destruct (map_get pt k_include_only) as [w|]; [|done]. intros [= <-]. by apply Hs, H2.
  - intros v. destruct (map_get pt k_filters) as [w|] eqn:E; [|done]. intros [= <-]. apply Hf; [done|by apply H3].
  - destruct H4 as [->|[-> ->]]; [by left|by right].
Qed.

Lemma policy_normalized pt :
  toml_wf (TTable pt) -> policy_ok pt ->
  exists qt, normalized_with_key_aliases [k_policy] (TTable pt) = TTable qt /\ policy_ok qt.
Proof.
  intros Hwf Hok. pose proof (wf_keys _ Hwf) as Hnd. destruct (normalized_get [k_policy] pt [] Hnd) as (qt & E & _ & _).
  exists qt. split; [done|]. apply (policy_ok_by_fields pt qt (fun k => normalized_with_key_aliases ([k_policy] ++ [k]))); [done|..].
  - intros k. destruct (normalized_get [k_policy] pt k Hnd) as (qt' & E' & _ & Hg). rewrite E in E'. injection E' as <-.
    by rewrite Hg, policy_aliases.
  - intros k v Hv. by rewrite string_list_normalized.
  - intros v Hv Hft. apply filter_table_normalized; [done|by apply (wf_get _ _ _ Hwf Hv)|done].
Qed.

(** The base of a merge of policies, without what the overlay displaces. *)
Definition remaining pt qt : TomlMap :=
  match from_policy (TTable qt) with Some r => foldl map_remove pt (displaced_fields r) | None => pt end.

Lemma policy_merge_get fuel pt qt :
  toml_wf (TTable pt) -> toml_wf (TTable qt) ->
  exists rt, merge_at (S fuel) [k_policy] (TTable pt) (TTable qt) = TTable rt
    /\ forall k, map_get rt k
       = match map_get qt k with
         | Some v => Some (match map_get (remaining pt qt) k with
                           | Some e => merge_at fuel [k_policy; k] e v
                           | None => normalized_with_key_aliases [k_policy; k] v
                           end)
         | None => map_get (remaining pt qt) k
         end.
Proof.
  intros Hp Hq. cbn [merge_at].
  assert (replace_representation (TTable pt) (TTable qt) [k_policy] = TTable (remaining pt qt)) as ->.
  { unfold replace_representation, remaining. cbn [is_policy_path]. rewrite str_eqb_refl. cbn [negb].
    by destruct (from_policy (TTable qt)). }
  assert (merge_feature [k_policy] (TTable (remaining pt qt)) (TTable qt) = (TTable (remaining pt qt), false)) as -> by done.
  assert (normalize_tables [k_policy] (remaining pt qt) qt = (remaining pt qt, qt)) as ->
    by (unfold normalize_tables; by rewrite !policy_aliases).
  eexists. split; [reflexivity|]. intros k. apply merge_entries_get; [|by apply wf_keys].
  unfold remaining. destruct (from_policy _); [|by apply wf_keys]. by apply (map_removes_get pt _ []), wf_keys.
Qed.

Lemma remaining_get pt qt k :
  toml_wf (TTable pt) ->
  map_get (remaining pt qt) k
  = match from_policy (TTable qt) with
    | Some r => if bool_decide (k ∈ displaced_fields r) then None else map_get pt k
    | None => map_get pt k
    end.
Proof.
  intros Hp. unfold remaining. destruct (from_policy (TTable qt)) as [r|]; [|done]. by apply map_removes_get, wf_keys.
Qed.

Lemma remaining_sub pt qt k e : toml_wf (TTable pt) -> map_get (remaining pt qt) k = Some e -> map_get pt k = Some e.
Proof. intros Hp. rewrite remaining_get by done. destruct (from_policy _); [|done]. by destruct (bool_decide _). Qed.

Lemma policy_merge fuel pt qt :
  toml_wf (TTable pt) -> toml_wf (TTable qt) -> policy_ok pt -> policy_ok qt ->
  exists rt, merge_at (S fuel) [k_policy] (TTable pt) (TTable qt) = TTable rt /\ policy_ok rt.
Proof.
  intros Hwp Hwq Hp Hq. destruct (policy_merge_get fuel pt qt Hwp Hwq) as (rt & E & Hg). exists rt. split; [done|].
  assert (Hfield : forall k (P : TomlValue -> Prop),
    (forall v, map_get pt k = Some v -> P v) -> (forall v, map_get qt k = Some v -> P v) ->
    (forall e v, toml_wf e -> toml_wf v -> P e -> P v -> P (merge_at fuel [k_policy; k] e v)) ->
    (forall v, toml_wf v -> P v -> P (normalized_with_key_aliases [k_policy; k] v)) -> forall v, map_get rt k = Some v -> P v).
  { intros k P Hpk Hqk Hm Hn v. rewrite Hg. destruct (map_get qt k) as [w|] eqn:Ew.
    - pose proof (wf_get _ _ _ Hwq Ew) as Hww. intros [= <-]. destruct (map_get (remaining pt qt) k) as [e|] eqn:Ee.
      + apply remaining_sub in Ee; [|done]. pose proof (wf_get _ _ _ Hwp Ee). apply Hm; auto.
      + apply Hn; auto.
    - intros Ee%remaining_sub; [|done]. by apply Hpk. }
  destruct Hp as (P1 & P2 & P3 & P4), Hq as (Q1 & Q2 & Q3 & Q4). split; [|split; [|split]].
  - apply (Hfield _ _ P1 Q1); [intros e v _ _; apply string_list_merge|]. intros v _ Hv. by rewrite string_list_normalized.
  - apply (Hfield _ _ P2 Q2); [intros e v _ _; apply string_list_merge|]. intros v _ Hv. by rewrite string_list_normalized.
  - apply (Hfield _ _ P3 Q3); [intros e v; apply filter_table_merge|]. intros v. by apply filter_table_normalized.
  - rewrite !Hg, !remaining_get by done. cbn [from_policy]. unfold contains_key.
    destruct (map_get qt k_filters) as [w|] eqn:Ew; cbn [is_some].
    + right. destruct Q4 as [?|[-> ->]]; [done|]. by rewrite !bool_decide_true by (apply (bool_decide_unpack _); by vm_compute).
    + destruct (map_get qt k_exclude) as [x|] eqn:Ex; cbn [is_some orb].
      { left. by rewrite bool_decide_true by (apply (bool_decide_unpack _); by vm_compute). }
      destruct (map_get qt k_include_only) as [y|] eqn:Ey; cbn [is_some]; [|done].
      left. by rewrite bool_decide_true by (apply (bool_decide_unpack _); by vm_compute).
Qed.

(** ** The whole configuration *)

Lemma config_merge b o : toml_wf b -> toml_wf o -> config_ok b -> config_ok o -> config_ok (merge_toml_values b o).
Proof.
  intros Hwb Hwo (bt & -> & Hb) (ot & -> & Ho). unfold merge_toml_values. destruct (toml_depth (TTable ot)) as [|fuel] eqn:Ed; [done|].
  cbn [merge_at]. assert (replace_representation (TTable bt) (TTable ot) [] = TTable bt) as -> by done.
  assert (merge_feature [] (TTable bt) (TTable ot) = (TTable bt, false)) as -> by done.
  assert (normalize_tables [] bt ot = (bt, ot)) as -> by (unfold normalize_tables; by rewrite !root_aliases).
  eexists. split; [reflexivity|]. intros pt.
  destruct (merge_entries_get (merge_at fuel) [] bt ot k_policy (wf_keys _ Hwb) (wf_keys _ Hwo)) as [_ ->].
  destruct (map_get ot k_policy) as [v|] eqn:Ev; [|apply Hb]. pose proof (wf_get _ _ _ Hwo Ev) as Hwv.
  assert (Hnorm : forall pt, normalized_with_key_aliases [k_policy] v = TTable pt -> policy_ok pt).
  { intros pt' En. destruct v as [| | | | | |qt]; try done. destruct (policy_normalized qt Hwv (Ho qt eq_refl)) as (q' & E' & Hq').
    rewrite E' in En. by injection En as <-. }
  destruct (map_get bt k_policy) as [e|] eqn:Ee; [|intros [= Hpt]; by apply Hnorm].
  pose proof (wf_get _ _ _ Hwb Ee) as Hwe. intros [= Hpt]. cbn [app] in Hpt. pose proof (depth_entry _ _ _ Ev) as Hd. rewrite Ed in Hd.
  destruct fuel as [|fuel]; [destruct v; cbn in Hd; lia|].
  destruct v as [| | |x| | |qt]; try (by destruct e).
  assert (Hother : match e with TTable _ => False | _ => True end -> policy_ok pt).
  { intros He. apply Hnorm. rewrite <- Hpt. cbn [merge_at]. assert (replace_representation e (TTable qt) [k_policy] = e) as ->.
    { unfold replace_representation. cbn [is_policy_path]. rewrite str_eqb_refl. cbn [negb].
      destruct (from_policy (TTable qt)); [|done]. by destruct e. }
    by destruct e. }
  destruct e as [| | |y| | |et]; try (by apply Hother).
  destruct (policy_merge fuel et qt Hwe Hwv (Hb et eq_refl) (Ho qt eq_refl)) as (rt & E & Hrt). rewrite E in Hpt. by injection Hpt as <-.
Qed.

Lemma config_ok_strings v : config_ok v -> string_filters v.
Proof.
  intros (t & -> & Ht) t' pt ft k c [= <-] Hp Hf Hin. destruct (Ht pt Hp) as (_ & _ & Hft & _).
  destruct (Hft _ Hf) as (ft' & [= <-] & Hv & _). destruct (Hv k c Hin) as (s & _ & -> & _). by exists s.
Qed.

Lemma validated_layers (layers : list ConfigLayerEntry) :
  validate_enabled_config_layers decode_filter layers = Ok tt ->
  Forall (fun l => validate_shell_environment_policy_filter_config decode_filter (config l) = Ok tt) (layers_low_to_high layers).
Proof.
  induction layers as [|l layers IH]; [by constructor|]. cbn [validate_enabled_config_layers layers_low_to_high List.filter].
  destruct (is_disabled l); cbn [negb]; [exact IH|].
  destruct (validate_shell_environment_policy_filter_config decode_filter (config l)) as [[]|] eqn:E; cbn; [|done].
  intros H. constructor; [done|by apply IH].
Qed.

(** C22: What is merged from the layers of a stack that was accepted would be accepted
    itself: the two representations of the filters of the shell environment are not
    mixed by it, and its patterns stay distinct up to case.  The values of filters
    are strings. *)
Theorem merged_configuration_valid (layers layers' : list ConfigLayerEntry) :
  new_stack decode_filter layers = Ok layers' ->
  Forall (fun l => toml_wf (config l) /\ string_filters (config l)) layers ->
  validate_shell_environment_policy_filter_config decode_filter (effective_config layers') = Ok tt.
Proof.
  intros Hn Hl. unfold new_stack in Hn. destruct (validate_enabled_config_layers decode_filter layers) as [[]|] eqn:Ev; [|done].
  cbn in Hn. destruct (verify_layer_ordering layers); [|done]. cbn in Hn. injection Hn as <-.
  apply validated_layers in Ev. assert (Hall : Forall (fun l => toml_wf (config l) /\ config_ok (config l)) (layers_low_to_high layers)).
  { apply Forall_forall. intros l Hin. pose proof (proj1 (Forall_forall _ _) Ev l Hin) as Hv.
    apply list_elem_of_In, filter_In in Hin as [Hin%list_elem_of_In _].
    destruct (proj1 (Forall_forall _ _) Hl l Hin) as [Hw Hs]. split; [done|]. by apply validate_spec. }
  assert (H : config_ok (effective_config layers)); [|by apply validate_spec; [apply config_ok_strings|]].
  unfold effective_config, merge_layers. revert Hall. generalize (layers_low_to_high layers). intros ls Hall.
  assert (H : forall b, toml_wf b -> config_ok b ->
    toml_wf (foldl (fun m l => merge_toml_values m (config l)) b ls) /\ config_ok (foldl (fun m l => merge_toml_values m (config l)) b ls)).
  { induction Hall as [|l ls [Hw Hok] _ IH]; intros b Hb Hcb; [done|]. cbn [foldl]. apply IH; [by apply merge_wf|by apply config_merge]. }
  apply H; [by split; [constructor|]|]. exists []. by split.
Qed.
End valid.
