(* ===== verification/ShellEnv.v ===== *)
(** * ShellEnv: the environment of a command

    [codex-rs/protocol/src/shell_environment.rs] and [config_types.rs] (the policy),
    [codex-rs/config/src/shell_environment_policy.rs] (the policy from the
    configuration) and [codex-rs/core/src/exec_env.rs] (what is added for a session),
    for the Unix build: which variables of its own environment the agent passes on to
    a command that the model proposed.

    Matching a pattern against a name is the [wildmatch] crate's, an argument. *)

From Stdlib Require Import Lia.
From stdpp Require Import base list gmap strings.
From S2P Require Import Prelude JsonPatch ConfigToml ConfigLayers.

Open Scope rust_scope.

(** [WildMatchPattern::new_case_insensitive] and [matches] *)
Class WildMatch := wild_match : rstr -> rstr -> bool.

Definition contains_ignore_case (needle name : rstr) : Prop :=
  exists a b c, name = a ++ b ++ c /\ eq_ignore_ascii_case b needle = true.

(** A pattern between two stars matches what contains it. *)
Class WildMatchLaws `{!WildMatch} := {
  wild_match_contains needle name :
    c_star ∉ needle -> c_question ∉ needle -> contains_ignore_case needle name ->
    wild_match (c_star :: needle ++ [c_star]) name = true
}.

Definition CODEX_SESSION_ID_ENV_VAR : rstr := lit "CODEX_SESSION_ID".
Definition CODEX_THREAD_ID_ENV_VAR : rstr := lit "CODEX_THREAD_ID".
Definition CODEX_PERMISSION_PROFILE_ENV_VAR : rstr := lit "CODEX_PERMISSION_PROFILE".
Definition CODEX_APPLY_PATCH_PRESERVE_LINE_ENDINGS_ENV_VAR : rstr :=
  lit "CODEX_APPLY_PATCH_PRESERVE_LINE_ENDINGS".

Definition NON_INHERITABLE_ENV_VARS : list rstr := [
  lit "CODEX_EXEC_SERVER_NOISE_AUTH_TOKEN";
  lit "NODE_REPL_AUTH_TOKEN";
  lit "OPENAI_FEDERATION_RULE_ID";
  lit "OPENAI_IDENTITY_TOKEN_FILE";
  lit "OPENAI_WORKLOAD_IDENTITY_CONTEXT"].

Definition is_non_inheritable_env_var (name : rstr) : bool :=
  existsb (fun restricted => eq_ignore_ascii_case restricted name) NON_INHERITABLE_ENV_VARS.

Definition UNIX_CORE_ENV_VARS : list rstr := [
  lit "PATH"; lit "SHELL"; lit "TMPDIR"; lit "TEMP"; lit "TMP"; lit "HOME"; lit "LANG"; lit "LC_ALL"; lit "LC_CTYPE";
  lit "LOGNAME"; lit "USER"].

Inductive ShellEnvironmentPolicyInherit := InheritCore | InheritAll | InheritNone.

Record ShellEnvironmentPolicy := mkPolicy {
  policy_inherit : ShellEnvironmentPolicyInherit;
  policy_ignore_default_excludes : bool;
  policy_exclude : list rstr;
  policy_set : gmap rstr rstr;
  policy_include_only : list rstr;
  policy_use_profile : bool
}.

Definition default_policy : ShellEnvironmentPolicy := mkPolicy InheritAll true [] ∅ [] false.

(** ** The policy of the configuration *)

Record ShellEnvironmentPolicyToml := mkPolicyToml {
  toml_inherit : option ShellEnvironmentPolicyInherit;
  toml_ignore_default_excludes : option bool;
  toml_set : option (gmap rstr rstr);
  toml_filter_fields : FilterFields;
  toml_use_profile : option bool
}.

(** The fold over the filters, which sorts the patterns into the two lists. *)
Definition sort_filter (lists : list rstr * list rstr) (e : rstr * ShellEnvironmentPolicyFilter) : list rstr * list rstr :=
  match e.2 with
  | IncludeVariable => (lists.1, lists.2 ++ [e.1])
  | ExcludeVariable => (lists.1 ++ [e.1], lists.2)
  end.

Definition filter_lists (f : FilterFields) : list rstr * list rstr :=
  match filters f with
  | Some l => foldl sort_filter ([], []) l
  | None => (default [] (exclude f), default [] (include_only f))
  end.

(** [From<ShellEnvironmentPolicyToml> for ShellEnvironmentPolicy] *)
Definition policy_from_toml (toml : ShellEnvironmentPolicyToml) : ShellEnvironmentPolicy :=
  let '(exclude, include_only) := filter_lists (toml_filter_fields toml) in
  mkPolicy (default InheritAll (toml_inherit toml)) (default true (toml_ignore_default_excludes toml)) exclude
    (default ∅ (toml_set toml)) include_only (default false (toml_use_profile toml)).

Section env.
Context {wildmatch : WildMatch}.

(** ** The environment *)

Definition matches_any (name : rstr) (patterns : list rstr) : bool := existsb (fun p => wild_match p name) patterns.

Definition default_excludes : list rstr := [lit "*KEY*"; lit "*SECRET*"; lit "*TOKEN*"].

(** [collect] into a [HashMap]: the last value of a name counts. *)
Definition collect (vars : list (rstr * rstr)) : gmap rstr rstr := foldl (fun m e => <[e.1 := e.2]> m) ∅ vars.

Definition retain (keep : rstr -> bool) (env : gmap rstr rstr) : gmap rstr rstr :=
  filter (fun e => keep e.1 = true) env.

Definition is_core_var (name : rstr) : bool :=
  existsb (fun allowed => eq_ignore_ascii_case allowed name) UNIX_CORE_ENV_VARS.

Definition inherited_vars (vars : list (rstr * rstr)) (inherit : ShellEnvironmentPolicyInherit) : gmap rstr rstr :=
  match inherit with
  | InheritAll => collect vars
  | InheritNone => ∅
  | InheritCore => collect (List.filter (fun e => is_core_var e.1) vars)
  end.

Definition populate_env (vars : list (rstr * rstr)) (policy : ShellEnvironmentPolicy) (thread_id : option rstr)
  : gmap rstr rstr :=
  let env_map := inherited_vars vars (policy_inherit policy) in
  let env_map :=
    if negb (policy_ignore_default_excludes policy)
    then retain (fun k => negb (matches_any k default_excludes)) env_map else env_map in
  let env_map :=
    if negb (is_empty (policy_exclude policy))
    then retain (fun k => negb (matches_any k (policy_exclude policy))) env_map else env_map in
  let env_map := policy_set policy ∪ env_map in
  let env_map :=
    if negb (is_empty (policy_include_only policy))
    then retain (fun k => matches_any k (policy_include_only policy)) env_map else env_map in
  let env_map :=
    match thread_id with
    | Some thread_id => <[CODEX_THREAD_ID_ENV_VAR := thread_id]> env_map
    | None => env_map
    end in
  retain (fun name => negb (is_non_inheritable_env_var name)) env_map.

Definition create_env_from_vars := populate_env.

(** ** What a session adds *)

Definition inject_session_id_env (env : gmap rstr rstr) (session_id : rstr) : gmap rstr rstr :=
  <[CODEX_SESSION_ID_ENV_VAR := session_id]> env.

Definition inject_permission_profile_env (env : gmap rstr rstr) (active_profile : option rstr) : gmap rstr rstr :=
  let env := delete CODEX_PERMISSION_PROFILE_ENV_VAR env in
  match active_profile with
  | Some id => <[CODEX_PERMISSION_PROFILE_ENV_VAR := id]> env
  | None => env
  end.

Definition inject_apply_patch_env (env : gmap rstr rstr) (preserve_line_endings : bool) : gmap rstr rstr :=
  let env := retain (fun key => negb (eq_ignore_ascii_case key CODEX_APPLY_PATCH_PRESERVE_LINE_ENDINGS_ENV_VAR)) env in
  if preserve_line_endings then <[CODEX_APPLY_PATCH_PRESERVE_LINE_ENDINGS_ENV_VAR := lit "1"]> env else env.

(** ** Theorems *)

Lemma retain_lookup keep env name :
  retain keep env !! name = if keep name then env !! name else None.
Proof.
  unfold retain. destruct (keep name) eqn:E.
  - destruct (env !! name) as [v|] eqn:Ev.
    + apply map_lookup_filter_Some. by split.
    + apply map_lookup_filter_None. by left.
  - apply map_lookup_filter_None. right. intros v _. cbn. by rewrite E.
Qed.

Lemma matches_none name : matches_any name [] = false.
Proof. done. Qed.

(** What a command finds under a name, decided by the documented steps in reverse:
    a restricted name is never passed on; the thread's identifier is given; an
    include list keeps only what it matches; a value that the policy sets counts;
    anything else is inherited unless an exclude pattern matches. *)
Theorem environment_decided vars policy thread_id name :
  populate_env vars policy thread_id !! name
  = if is_non_inheritable_env_var name then None
    else match (if bool_decide (name = CODEX_THREAD_ID_ENV_VAR) then thread_id else None) with
    | Some id => Some id
    | None =>
        if negb (is_empty (policy_include_only policy)) && negb (matches_any name (policy_include_only policy)) then None
        else match policy_set policy !! name with
        | Some v => Some v
        | None =>
            if (negb (policy_ignore_default_excludes policy) && matches_any name default_excludes)
               || matches_any name (policy_exclude policy) then None
            else inherited_vars vars (policy_inherit policy) !! name
        end
    end.
Proof.
  unfold populate_env. set (e1 := inherited_vars _ _). set (e2 := if negb (policy_ignore_default_excludes policy) then _ else _).
  set (e3 := if negb (is_empty (policy_exclude policy)) then _ else _).
  set (e5 := if negb (is_empty (policy_include_only policy)) then _ else _).
  assert (H3 : e3 !! name = if (negb (policy_ignore_default_excludes policy) && matches_any name default_excludes)
    || matches_any name (policy_exclude policy) then None else e1 !! name).
  { assert (H2 : e2 !! name = if negb (policy_ignore_default_excludes policy) && matches_any name default_excludes
      then None else e1 !! name).
    { subst e2. destruct (policy_ignore_default_excludes policy); cbn [negb andb]; [done|]. rewrite retain_lookup.
      by destruct (matches_any name default_excludes). }
    subst e3. destruct (policy_exclude policy) as [|x l]; cbn [is_empty negb]; [by rewrite matches_none, orb_false_r|].
    rewrite retain_lookup, H2. by destruct (matches_any name (x :: l)), (_ && _). }
  assert (H5 : e5 !! name = if negb (is_empty (policy_include_only policy)) && negb (matches_any name (policy_include_only policy))
    then None else match policy_set policy !! name with Some v => Some v | None => e3 !! name end).
  { assert (H4 : (policy_set policy ∪ e3) !! name = match policy_set policy !! name with Some v => Some v | None => e3 !! name end).
    { rewrite lookup_union. by destruct (policy_set policy !! name), (e3 !! name). }
    subst e5. destruct (negb (is_empty (policy_include_only policy))); cbn [andb]; [|done]. rewrite retain_lookup, H4.
    by destruct (matches_any name (policy_include_only policy)). }
  rewrite retain_lookup. destruct (is_non_inheritable_env_var name); [done|]. cbn [negb].
  rewrite <- H3, <- H5. destruct thread_id as [id|]; [|by destruct (bool_decide _)].
  destruct (bool_decide_reflect (name = CODEX_THREAD_ID_ENV_VAR)) as [->|Hne]; [by rewrite lookup_insert_eq|].
  by rewrite lookup_insert_ne.
Qed.
End env.

Section leaks.
Context {wildmatch : WildMatch} {laws : WildMatchLaws}.

Lemma default_exclude_matches name needle :
  needle ∈ [lit "KEY"; lit "SECRET"; lit "TOKEN"] -> contains_ignore_case needle name -> matches_any name default_excludes = true.
Proof.
  intros Hn Hc. unfold matches_any. apply existsb_exists. exists (c_star :: needle ++ [c_star]). split.
  - repeat (apply elem_of_cons in Hn as [->|Hn]; [vm_compute; tauto|]). by apply elem_of_nil in Hn.
  - apply wild_match_contains; [..|done];
      repeat (apply elem_of_cons in Hn as [->|Hn]; [by apply (bool_decide_unpack _); vm_compute|]); by apply elem_of_nil in Hn.
Qed.

(** C17: Whatever the environment of the agent and whatever a policy sets, no command
    gets a variable of the agent's own launch context, in any case of letters; and
    with the default excludes in force a variable whose name contains KEY, SECRET or
    TOKEN, in any case, reaches a command only if the policy itself sets it. *)
Theorem secrets_not_inherited vars policy thread_id name v :
  populate_env vars policy thread_id !! name = Some v ->
  (forall restricted, restricted ∈ NON_INHERITABLE_ENV_VARS -> eq_ignore_ascii_case restricted name = false)
  /\ (policy_ignore_default_excludes policy = false ->
      (exists needle, needle ∈ [lit "KEY"; lit "SECRET"; lit "TOKEN"] /\ contains_ignore_case needle name) ->
      policy_set policy !! name = Some v \/ name = CODEX_THREAD_ID_ENV_VAR).
Proof.
  rewrite environment_decided. destruct (is_non_inheritable_env_var name) eqn:En; [done|]. intros Hv. split.
  - intros restricted Hr. destruct (eq_ignore_ascii_case restricted name) eqn:E; [|done].
    assert (is_non_inheritable_env_var name = true); [|congruence]. apply existsb_exists. exists restricted.
    split; [by apply list_elem_of_In|done].
  - intros Hd (needle & Hn & Hc). destruct (bool_decide_reflect (name = CODEX_THREAD_ID_ENV_VAR)); [by right|left].
    destruct (_ && negb (matches_any name (policy_include_only policy))); [done|].
    destruct (policy_set policy !! name); [done|]. by rewrite Hd, (default_exclude_matches name needle) in Hv.
Qed.

Lemma sort_filters_spec l acc :
  (forall pat, pat ∈ (foldl sort_filter acc l).1 <-> pat ∈ acc.1 \/ (pat, ExcludeVariable) ∈ l)
  /\ (forall pat, pat ∈ (foldl sort_filter acc l).2 <-> pat ∈ acc.2 \/ (pat, IncludeVariable) ∈ l).
Proof.
  revert acc. induction l as [|[p f] l IH]; intros acc; cbn [foldl].
  - split; intros pat; (split; [by left|]; intros [?|Hin%elem_of_nil]; done).
  - destruct (IH (sort_filter acc (p, f))) as [H1 H2]. split; intros pat; [rewrite H1|rewrite H2]; clear IH H1 H2;
      destruct f; cbn [sort_filter snd fst]; rewrite ?elem_of_app, ?elem_of_cons, ?elem_of_nil;
      split; intros H; repeat match goal with H : _ \/ _ |- _ => destruct H end; simplify_eq; tauto.
Qed.

(** The filters of the configuration are obeyed: a variable that an [exclude]
    filter matches is passed on only with a value that the policy sets, and when there
    is an [include] filter every variable but the thread's identifier matches one. *)
Theorem configured_filters_obeyed vars toml l thread_id name v :
  filters (toml_filter_fields toml) = Some l ->
  populate_env vars (policy_from_toml toml) thread_id !! name = Some v -> name <> CODEX_THREAD_ID_ENV_VAR ->
  ((exists pat, (pat, ExcludeVariable) ∈ l /\ wild_match pat name = true) -> default ∅ (toml_set toml) !! name = Some v)
  /\ ((exists pat, (pat, IncludeVariable) ∈ l) -> exists pat, (pat, IncludeVariable) ∈ l /\ wild_match pat name = true).
Proof.
  intros Hl Hv Hne. rewrite environment_decided, bool_decide_false in Hv by done.
  unfold policy_from_toml, filter_lists in Hv. rewrite Hl in Hv.
  destruct (sort_filters_spec l ([], [])) as [H1 H2]. destruct (foldl sort_filter ([], []) l) as [ex inc]. cbn [fst snd] in *.
  cbn [policy_include_only policy_set policy_exclude policy_inherit policy_ignore_default_excludes] in Hv.
  destruct (is_non_inheritable_env_var name); [done|].
  destruct (negb (is_empty inc) && negb (matches_any name inc)) eqn:Ei; [done|]. split.
  - intros (pat & Hin & Hm). destruct (default ∅ (toml_set toml) !! name); [done|].
    assert (matches_any name ex = true) as Hex; [|by rewrite Hex, orb_true_r in Hv].
    apply existsb_exists. exists pat. split; [|done]. apply list_elem_of_In, H1. by right.
  - intros (pat & Hin). assert (Hp : pat ∈ inc) by (apply H2; by right). destruct inc as [|x inc]; [by apply elem_of_nil in Hp|].
    cbn [is_empty negb andb] in Ei. apply negb_false_iff, existsb_exists in Ei as (p & Hp'%list_elem_of_In & Hm).
    exists p. split; [|done]. apply H2 in Hp' as [?%elem_of_nil|?]; done.
Qed.
End leaks.
