(* ===== verification/ConfigExamples.v ===== *)
(** * ConfigExamples: instances and examples for the configuration

    Tables that keep the order of insertion, ASCII lowercasing and a matcher of
    wildcards that satisfy the laws of ConfigToml.v and ShellEnv.v; the theorems on the
    configuration at concrete inputs; and two behaviours of [origins] that the sources
    do not intend. *)

From Stdlib Require Import Lia ZArith.
From stdpp Require Import base list gmap strings.
From S2P Require Import Prelude JsonPatch AbsolutePath NetAddr NetHost NetExamples ConfigToml ConfigMerge ConfigLayers ConfigLaws ConfigValid ShellEnv.

Open Scope rust_scope.

(** ** Instances *)

#[export] Instance toml_index_map {Float Datetime} : MapOps (TomlValue Float Datetime) := index_map _.
#[export] Instance ascii_lowercase : Lowercase := to_ascii_lowercase.

#[export] Instance ascii_lowercase_laws : LowercaseLaws.
Proof. split. intros s. apply lower_lowercase. Qed.

Definition wildcard_run (pattern name : rstr) : bool := glob_run (to_ascii_lowercase pattern) (to_ascii_lowercase name).
#[export] Instance simple_wildmatch : WildMatch := wildcard_run.

Lemma glob_run_prefix l p s :
  c_star ∉ l -> c_question ∉ l -> glob_run (l ++ p) (l ++ s) = glob_run p s.
Proof.
  induction l as [|x l IH]; intros Hs Hq; [done|]. apply not_elem_of_cons in Hs as [Hs1 Hs], Hq as [Hq1 Hq]. cbn [app glob_run].
  rewrite (proj2 (N.eqb_neq x c_star)), (proj2 (N.eqb_neq x c_question)), N.eqb_refl by congruence. by apply IH.
Qed.

Lemma lowercase_app a b : to_ascii_lowercase (a ++ b) = to_ascii_lowercase a ++ to_ascii_lowercase b.
Proof. apply fmap_app. Qed.

Lemma lowercase_not_elem c s : ~ (97 <= c <= 122)%N -> c ∉ s -> c ∉ to_ascii_lowercase s.
Proof. intros Hc Hs Hin. apply to_ascii_lowercase_elem in Hin as [[?|?] _]; [done|lia]. Qed.

#[export] Instance simple_wildmatch_laws : WildMatchLaws.
Proof.
  split. intros needle name Hs Hq (a & b & c & -> & Hb). unfold wild_match, simple_wildmatch, wildcard_run.
  change (c_star :: needle ++ [c_star]) with ([c_star] ++ needle ++ [c_star]). rewrite !lowercase_app.
  change (to_ascii_lowercase [c_star]) with [c_star]. cbn [app]. apply glob_run_star. eexists _, _. split; [reflexivity|].
  unfold eq_ignore_ascii_case in Hb. apply str_eqb_true in Hb. rewrite Hb.
  rewrite glob_run_prefix; [|apply lowercase_not_elem; [unfold c_star; lia|done]|apply lowercase_not_elem; [unfold c_question; lia|done]].
  apply glob_run_star. exists (to_ascii_lowercase c), []. by rewrite app_nil_r.
Qed.

Module Examples.

#[local] Abbreviation Value := (TomlValue unit unit).
#[local] Abbreviation Entry := (@ConfigLayerEntry unit unit).

Definition table (l : list (string * Value)) : Value := TTable ((fun e => (lit e.1, e.2)) <$> l).
Definition number (n : Z) : Value := TInteger n.
Definition text (s : string) : Value := TString (lit s).

Definition decode_filter (v : Value) : option ShellEnvironmentPolicyFilter :=
  match v with
  | TString s => if s == lit "include" then Some IncludeVariable else if s == lit "exclude" then Some ExcludeVariable else None
  | _ => None
  end.
Definition no_version (v : Value) : rstr := [].

Definition home : AbsolutePathBuf := [RootDir; Normal (lit "h")].

(** A user who limits the agents under the old name of the setting, and turns a
    feature on; a project that raises the limit and configures the feature. *)
Definition user_layer : Entry := new_layer no_version (User home None) (table [
  ("agents", table [("max_threads", number 4); ("depth", number 1)]);
  ("features", table [("network_proxy", TBoolean true)]);
  ("shell_environment_policy", table [("exclude", TArray [text "AWS_*"])])]%string).
Definition project_layer : Entry := new_layer no_version (Project home) (table [
  ("agents", table [("max_concurrent_threads_per_session", number 8)]);
  ("features", table [("network_proxy", table [("mode", text "limited")])]);
  ("shell_environment_policy", table [("filters", table [("*_PAT", text "exclude")])])]%string).
Definition stack : list Entry := [user_layer; project_layer].

Lemma stack_ok : Forall (fun l : Entry => toml_wf (config l)) stack.
Proof.
  apply Forall_cons; split; [|apply Forall_cons; split; [|constructor]]; vm_compute; repeat split;
    apply (bool_decide_unpack _); by vm_compute.
Qed.

Example effective_example :
  effective_config stack = table [
    ("agents", table [("depth", number 1); ("max_concurrent_threads_per_session", number 8)]);
    ("features", table [("network_proxy", table [("enabled", TBoolean true); ("mode", text "limited")])]);
    ("shell_environment_policy", table [("filters", table [("*_PAT", text "exclude")])])]%string.
Proof. by vm_compute. Qed.

Definition limit_path : list rstr := [lit "agents"; lit "max_concurrent_threads_per_session"].
Definition enabled_path : list rstr := [lit "features"; lit "network_proxy"; lit "enabled"].

(** The feature that the user turned on stays on, although the project has a table in
    its place. *)
Lemma effective_value_is_highest_witness :
  exists l, decides enabled_path l (layers_low_to_high stack) /\ says l enabled_path = Leaf (TBoolean true).
Proof. apply (proj1 (effective_value_is_highest stack enabled_path (TBoolean true) stack_ok eq_refl)). by vm_compute. Defined.

#[local] Ltac no_dot :=
  let Hin := fresh in
  intros Hin; repeat (apply elem_of_cons in Hin as [Hin|Hin]; [discriminate|]); by apply elem_of_nil in Hin.

Lemma stack_dotless :
  Forall (fun l : Entry => toml_wf (config l) /\ dotless (normalized_with_key_aliases [] (config l))) stack.
Proof.
  pose proof stack_ok as Hok. apply Forall_cons in Hok as [H1 Hok]. apply Forall_cons in Hok as [H2 _].
  apply Forall_cons. split; [|apply Forall_cons; split; [|constructor]].
  - split; [done|]. vm_compute. repeat split; no_dot.
  - split; [done|]. vm_compute. repeat split; no_dot.
Qed.

Lemma origins_name_deciding_layer_witness :
  exists l, decides enabled_path l (layers_low_to_high stack) /\ says l enabled_path = Leaf (TBoolean true)
            /\ origins stack !! join_path enabled_path = Some (metadata l).
Proof.
  apply (origins_name_deciding_layer stack enabled_path (TBoolean true) stack_dotless); [done|done|done|by vm_compute].
Defined.

Lemma layer_order_kept_witness :
  forall other : list Entry, verify_layer_ordering (with_user_layer_from other stack) = Ok tt.
Proof. apply (proj1 (layer_order_kept decode_filter no_version stack ltac:(by vm_compute))). Defined.

Lemma stack_filters : Forall (fun l : Entry => toml_wf (config l) /\ string_filters (config l)) stack.
Proof.
  pose proof stack_ok as Hok. apply Forall_cons in Hok as [H1 Hok]. apply Forall_cons in Hok as [H2 _].
  apply Forall_cons. split; [|apply Forall_cons; split; [|constructor]]; (split; [done|]); intros t pt ft k c [= <-].
  - change (Some (table [("exclude", TArray [text "AWS_*"])]%string) = Some (TTable pt) ->
      map_get pt k_filters = Some (TTable ft) -> (k, c) ∈ ft -> exists s, c = TString s). intros [= <-]. done.
  - change (Some (table [("filters", table [("*_PAT", text "exclude")])]%string) = Some (TTable pt) ->
      map_get pt k_filters = Some (TTable ft) -> (k, c) ∈ ft -> exists s, c = TString s). intros [= <-].
    change (Some (table [("*_PAT", text "exclude")]%string) = Some (TTable ft) -> (k, c) ∈ ft -> exists s, c = TString s).
    intros [= <-] [= -> ->]%list_elem_of_singleton. by eexists.
Qed.

Lemma merged_configuration_valid_witness :
  validate_shell_environment_policy_filter_config decode_filter (effective_config stack) = Ok tt.
Proof. apply (merged_configuration_valid decode_filter stack stack); [by vm_compute|apply stack_filters]. Defined.

Lemma override_takes_effect_witness :
  look [] (apply_toml_override (table [("model", text "a")]%string) (lit "agents.depth") (number 2)) [lit "agents"; lit "depth"]
  = Leaf (number 2).
Proof.
  rewrite (override_takes_effect (table [("model", text "a")]%string) (lit "agents.depth") (number 2)); [by vm_compute| |by vm_compute].
  vm_compute. repeat split. apply (bool_decide_unpack _). by vm_compute.
Defined.

(** A policy that sets one token itself. *)
Definition careful_policy : ShellEnvironmentPolicy :=
  mkPolicy InheritAll false [] {[lit "CI_TOKEN" := lit "t"]} [] false.
Definition agent_vars : list (rstr * rstr) := [(lit "PATH", lit "/bin"); (lit "github_token", lit "s"); (lit "CI_TOKEN", lit "x")].

Example environment_example :
  map_to_list (populate_env agent_vars careful_policy None) ≡ₚ [(lit "PATH", lit "/bin"); (lit "CI_TOKEN", lit "t")].
Proof. by apply (bool_decide_unpack _); vm_compute. Qed.

Lemma secrets_not_inherited_witness : policy_set careful_policy !! lit "CI_TOKEN" = Some (lit "t") \/ lit "CI_TOKEN" = CODEX_THREAD_ID_ENV_VAR.
Proof.
  assert (Hv : populate_env agent_vars careful_policy None !! lit "CI_TOKEN" = Some (lit "t")) by (by vm_compute).
  destruct (secrets_not_inherited agent_vars careful_policy None (lit "CI_TOKEN") (lit "t") Hv) as [_ Hs].
  apply Hs; [reflexivity|]. exists (lit "TOKEN"). split; [by apply (bool_decide_unpack _); vm_compute|]. exists (lit "CI_"), (lit "TOKEN"), [].
  split; [reflexivity|reflexivity].
Defined.

Definition filter_toml : ShellEnvironmentPolicyToml :=
  mkPolicyToml None None None (mkFilterFields None None (Some [(lit "*_token", ExcludeVariable); (lit "P*", IncludeVariable)])) None.

Lemma configured_filters_obeyed_witness :
  exists pat, (pat, IncludeVariable) ∈ [(lit "*_token", ExcludeVariable); (lit "P*", IncludeVariable)]
    /\ wild_match pat (lit "PATH") = true.
Proof.
  assert (Hv : populate_env agent_vars (policy_from_toml filter_toml) None !! lit "PATH" = Some (lit "/bin")) by (by vm_compute).
  assert (Hne : lit "PATH" <> CODEX_THREAD_ID_ENV_VAR) by (by apply (bool_decide_unpack _); vm_compute).
  destruct (configured_filters_obeyed agent_vars filter_toml _ None (lit "PATH") (lit "/bin") eq_refl Hv Hne) as [_ Hi].
  apply Hi. exists (lit "P*"). right. left.
Defined.

(** ** Origins of what is not there *)

Definition nested_layer : Entry := new_layer no_version (User home None) (table [("a", table [("b", number 1)])]%string).
Definition flat_layer : Entry := new_layer no_version SessionFlags (table [("a", number 2)]%string).
Definition dotted_layer : Entry := new_layer no_version (User home None) (table [("a.b", number 1)]%string).
Definition other_layer : Entry := new_layer no_version SessionFlags (table [("a", table [("b", number 2)])]%string).

(** An origin is reported for a setting that the merged configuration does not
    have, because a higher layer replaced the table it was in. *)
Theorem origin_of_replaced_setting :
  look [] (effective_config [nested_layer; flat_layer]) [lit "a"; lit "b"] = Absent
  /\ origins [nested_layer; flat_layer] !! lit "a.b" = Some (metadata nested_layer).
Proof. by vm_compute. Qed.

(** The value of a key with a dot in it comes from the user's configuration, and
    its origin is reported to be the session. *)
Theorem dotted_key_has_wrong_origin :
  look [] (effective_config [dotted_layer; other_layer]) [lit "a.b"] = Leaf (number 1)
  /\ origins [dotted_layer; other_layer] !! join_path [lit "a.b"] = Some (metadata other_layer).
Proof. by vm_compute. Qed.
End Examples.
