(* ===== verification/InputQueue.v ===== *)
(** * InputQueue: input that waits for a turn

    [codex-rs/core/src/session/input_queue.rs]: the mailbox of a session, the input
    that is steered into its running turn, and their delivery to requests of the
    model; with the delivery phase of [codex-rs/core/src/state/turn.rs] and the root
    lineage of [codex-rs/core/src/turn_metadata.rs].

    The states of turns are shared objects: they live in a store, and the active
    turn points to one.  What is done under one lock is one definition; a read of the
    pending input is two of them.  [Value] is a JSON schema, [Program] a cyber
    treatment; of the waiters of a turn only that they are dropped matters, and they
    are left out. *)

From Stdlib Require Import Lia.
From stdpp Require Import base list strings gmap relations.
From S2P Require Import Prelude ResponseItems Compact Rollout.

Section queue.
Context {Extra Json Value Program : Type}.
#[local] Abbreviation Communication := (@InterAgentCommunication Extra Json).
#[local] Abbreviation Item := (ResponseItem Extra Json).
#[local] Abbreviation Envelope := (ResponseItemEnvelope Extra Json).

(** ** Data *)

Inductive TurnInput :=
| UserInputTurn (content : list UserInput) (client_id : option rstr)
| FunctionCallOutputTurn (i : Item)
| ResponseItemTurn (e : Envelope)
| CommunicationTurn (c : Communication).

Inductive InputQueueActivity := ActivityMailbox | ActivitySteer.

Inductive MailboxDeliveryPhase := CurrentTurn | NextTurn.

Record TurnStartOptions := mkStartOptions {
  turn_trigger : option rstr;
  final_output_json_schema : option Value;
  service_tier : option rstr;
  parent_turn_id : option rstr;
  root_turn_id : option rstr;
  cyber_access_program : option Program
}.

Definition default_start_options : TurnStartOptions := mkStartOptions None None None None None None.

Record PendingMailboxCommunication := mkMail {
  communication : Communication;
  start_options : TurnStartOptions
}.

Record TurnState := mkTurnState {
  pending_input : list TurnInput;
  mailbox_delivery_phase : MailboxDeliveryPhase
}.

Definition default_turn_state : TurnState := mkTurnState [] CurrentTurn.

(** The root lineage of the task of a turn. *)
Record TurnMetadataState := mkTurnMetadata {
  metadata_root_turn_id : option rstr;
  root_turn_ambiguous : bool
}.

(** The active turn: the place of its state, and its task by its id and metadata. *)
Record ActiveTurn := mkActive {
  turn_state : N;
  task : option (rstr * TurnMetadataState)
}.

Record session := mkSession {
  activity : InputQueueActivity;
  mailbox_pending_mails : list PendingMailboxCommunication;
  turn_states : gmap N TurnState;
  active_turn : option ActiveTurn
}.

Definition with_mailbox (s : session) (m : list PendingMailboxCommunication) : session :=
  mkSession (activity s) m (turn_states s) (active_turn s).
Definition with_activity (s : session) (a : InputQueueActivity) : session :=
  mkSession a (mailbox_pending_mails s) (turn_states s) (active_turn s).
Definition with_states (s : session) (t : gmap N TurnState) : session :=
  mkSession (activity s) (mailbox_pending_mails s) t (active_turn s).
Definition with_active (s : session) (a : option ActiveTurn) : session :=
  mkSession (activity s) (mailbox_pending_mails s) (turn_states s) a.

(** The state at a place; a turn starts with the default one. *)
Definition state_at (s : session) (p : N) : TurnState := default default_turn_state (turn_states s !! p).
Definition set_state (s : session) (p : N) (t : TurnState) : session := with_states s (<[p := t]> (turn_states s)).

(** ** Turn states *)

Definition accepts_mailbox_delivery_for_current_turn (t : TurnState) : bool :=
  match mailbox_delivery_phase t with CurrentTurn => true | NextTurn => false end.

Definition set_mailbox_delivery_phase (t : TurnState) (phase : MailboxDeliveryPhase) : TurnState :=
  mkTurnState (pending_input t) phase.

(** [TurnInputQueue::has_pending_input] *)
Definition is_steer (i : TurnInput) : bool :=
  match i with UserInputTurn _ _ | FunctionCallOutputTurn _ => true | _ => false end.
Definition has_pending_steer (t : TurnState) : bool := existsb is_steer (pending_input t).

(** [TurnMetadataState::root_turn_id] *)
Definition known_root_turn_id (m : TurnMetadataState) : option rstr :=
  if root_turn_ambiguous m then None else metadata_root_turn_id m.

Definition mark_root_turn_ambiguous (m : TurnMetadataState) : TurnMetadataState :=
  mkTurnMetadata (metadata_root_turn_id m) true.

(** ** The mailbox *)

Definition enqueue_mailbox_communication (c : Communication) (o : TurnStartOptions) (s : session) : session :=
  with_activity (with_mailbox s (mailbox_pending_mails s ++ [mkMail c o])) ActivityMailbox.

Definition has_pending_mailbox_items (s : session) : bool := negb (is_empty (mailbox_pending_mails s)).

Definition triggers (m : PendingMailboxCommunication) : bool := trigger_turn (communication m).

Definition has_trigger_turn_mailbox_items (s : session) : bool := existsb triggers (mailbox_pending_mails s).

(** [Iterator::reduce] with the agreement of two ids *)
Definition agree (expected candidate : option rstr) : option rstr :=
  match expected with
  | Some id => if bool_decide (candidate = Some id) then Some id else None
  | None => None
  end.
Definition reduce_agree (l : list (option rstr)) : option (option rstr) :=
  match l with [] => None | x :: l => Some (foldl agree x l) end.

Definition not_blank (id : rstr) : bool := negb (is_empty (trim id)).
Definition filter_id (p : rstr -> bool) (o : option rstr) : option rstr :=
  match o with Some id => if p id then Some id else None | None => None end.

Definition common_id (l : list (option rstr)) : option rstr := reduce_agree l ≫= filter_id not_blank.

Definition root_candidate (o : TurnStartOptions) : option rstr :=
  match filter_id not_blank (parent_turn_id o) with Some _ => root_turn_id o | None => None end.

Definition with_lineage (o : TurnStartOptions) (parent root : option rstr) : TurnStartOptions :=
  mkStartOptions (turn_trigger o) (final_output_json_schema o) (service_tier o) parent root (cyber_access_program o).

Definition mailbox_start_options (mails : list PendingMailboxCommunication) : TurnStartOptions :=
  let options := start_options <$> List.filter triggers mails in
  with_lineage (default default_start_options (last options))
    (common_id (parent_turn_id <$> options)) (common_id (root_candidate <$> options)).

Definition drain_mailbox_input_items (s : session) : (list TurnInput * TurnStartOptions) * session :=
  let pending_mails := mailbox_pending_mails s in
  (((fun m => CommunicationTurn (communication m)) <$> pending_mails, mailbox_start_options pending_mails),
   with_mailbox s []).

(** ** Turns *)

Definition turn_state_for_sub_id (s : session) (sub_id : rstr) : option N :=
  match active_turn s with
  | Some a =>
      match task a with
      | Some (id, _) => if (id == sub_id)%rust then Some (turn_state a) else None
      | None => None
      end
  | None => None
  end.

Definition clear_pending (p : N) (s : session) : session :=
  set_state s p (mkTurnState [] (mailbox_delivery_phase (state_at s p))).

Definition is_queued_mail (i : TurnInput) : bool :=
  match i with CommunicationTurn c => negb (trigger_turn c) | _ => false end.

(** [defer_mailbox_delivery_to_next_turn], from where it holds the state *)
Definition defer_at (p : N) (s : session) : session :=
  let t := state_at s p in
  if existsb (fun i => negb (is_queued_mail i)) (pending_input t) then s
  else set_state s p (set_mailbox_delivery_phase t NextTurn).

Definition defer_mailbox_delivery_to_next_turn (sub_id : rstr) (s : session) : session :=
  match turn_state_for_sub_id s sub_id with Some p => defer_at p s | None => s end.

Definition accept_mailbox_delivery_for_turn_state (p : N) (s : session) : session :=
  set_state s p (set_mailbox_delivery_phase (state_at s p) CurrentTurn).

Definition accept_mailbox_delivery_for_current_turn (sub_id : rstr) (s : session) : session :=
  match turn_state_for_sub_id s sub_id with
  | Some p => accept_mailbox_delivery_for_turn_state p s
  | None => s
  end.

Definition extend_pending_input_for_turn_state (p : N) (input : list TurnInput) (s : session) : session :=
  let t := state_at s p in set_state s p (mkTurnState (pending_input t ++ input) (mailbox_delivery_phase t)).

Definition extend_pending_input_and_accept_mailbox_delivery_for_turn_state (p : N) (input : list TurnInput)
    (s : session) : session :=
  with_activity (accept_mailbox_delivery_for_turn_state p (extend_pending_input_for_turn_state p input s))
    ActivitySteer.

Definition take_pending_input_for_turn_state (p : N) (s : session) : list TurnInput * session :=
  let t := state_at s p in (pending_input t, set_state s p (mkTurnState [] (mailbox_delivery_phase t))).

(** ** Reading the pending input *)

(** The first part of [get_pending_input], under the lock of the active turn: the
    input of the turn, whether mail may follow, and the place of the turn. *)
Definition take_turn_input (s : session) : (list TurnInput * bool) * session :=
  match active_turn s with
  | Some a =>
      let t := state_at s (turn_state a) in
      if accepts_mailbox_delivery_for_current_turn t
      then ((pending_input t, true), set_state s (turn_state a) (mkTurnState [] (mailbox_delivery_phase t)))
      else (([], false), s)
  | None => (([], true), s)
  end.

Definition is_trigger (i : TurnInput) : bool :=
  match i with CommunicationTurn c => trigger_turn c | _ => false end.

(** The metadata of the task after the mail was drained. *)
Definition lineage_after (mail : list TurnInput) (o : TurnStartOptions) (m : TurnMetadataState)
  : TurnMetadataState :=
  if existsb is_trigger mail
     && (negb (is_some (root_turn_id o)) || negb (bool_decide (known_root_turn_id m = root_turn_id o)))
  then mark_root_turn_ambiguous m else m.

(** The second part, with the metadata of the task that was active. *)
Definition drain_for_turn (pending : list TurnInput) (metadata : option TurnMetadataState) (s : session)
  : (list TurnInput * TurnStartOptions) * option TurnMetadataState * session :=
  let '((mail, o), s) := drain_mailbox_input_items s in
  ((if is_empty pending then mail else pending ++ mail, o), lineage_after mail o <$> metadata, s).

Definition task_metadata (s : session) : option TurnMetadataState :=
  match active_turn s with Some a => snd <$> task a | None => None end.

(** [get_pending_input], when no other task comes in between *)
Definition get_pending_input (s : session)
  : (list TurnInput * TurnStartOptions) * option TurnMetadataState * session :=
  let metadata := task_metadata s in
  let '((pending, accepts), s) := take_turn_input s in
  if accepts then drain_for_turn pending metadata s
  else ((pending, default_start_options), metadata, s).

Definition has_pending_input (s : session) : bool :=
  let '(has_turn_pending_input, accepts) :=
    match active_turn s with
    | Some a =>
        let t := state_at s (turn_state a) in
        (negb (is_empty (pending_input t)), accepts_mailbox_delivery_for_current_turn t)
    | None => (false, true)
    end in
  if negb accepts then false
  else if has_turn_pending_input then true
  else has_pending_mailbox_items s.

(** [subscribe_activity], the activity that is pending *)
Definition pending_activity (p : option N) (s : session) : option InputQueueActivity :=
  if match p with Some p => has_pending_steer (state_at s p) | None => false end then Some ActivitySteer
  else if has_pending_mailbox_items s then Some ActivityMailbox
  else None.

Implicit Types s : session.

(** ** What a read returns *)

(** The mail of a session as input. *)
Definition mail_input (mails : list PendingMailboxCommunication) : list TurnInput :=
  (fun m => CommunicationTurn (communication m)) <$> mails.

Definition pending_of_turn s : list TurnInput :=
  match active_turn s with Some a => pending_input (state_at s (turn_state a)) | None => [] end.

Definition turn_accepts s : bool :=
  match active_turn s with
  | Some a => accepts_mailbox_delivery_for_current_turn (state_at s (turn_state a))
  | None => true
  end.

Lemma get_pending_input_items s :
  (get_pending_input s).1.1.1
  = if turn_accepts s then pending_of_turn s ++ mail_input (mailbox_pending_mails s) else [].
Proof.
  unfold get_pending_input, take_turn_input, turn_accepts, pending_of_turn. destruct (active_turn s) as [a|]; [|done].
  destruct (accepts_mailbox_delivery_for_current_turn _); [|done]. cbn.
  by destruct (pending_input (state_at s (turn_state a))).
Qed.

(** A session says that input is pending exactly when reading it would return
    some. *)
Theorem pending_input_announced s : has_pending_input s = true <-> (get_pending_input s).1.1.1 <> [].
Proof.
  rewrite get_pending_input_items. unfold has_pending_input, turn_accepts, pending_of_turn, has_pending_mailbox_items.
  destruct (active_turn s) as [a|].
  - destruct (accepts_mailbox_delivery_for_current_turn _); cbn [negb]; [|done].
    destruct (pending_input _); cbn; [|done]. by destruct (mailbox_pending_mails s).
  - cbn. by destruct (mailbox_pending_mails s).
Qed.

Lemma set_state_at s p t : state_at (set_state s p t) p = t.
Proof. unfold state_at, set_state. cbn. by rewrite lookup_insert_eq. Qed.

(** When a turn has shown its answer, mail that asks for no turn waits for the
    next one: it is not read and not lost, and a prompt that is steered into the turn
    brings it in, after what was pending and in order.  Input that was put into the
    turn on purpose keeps the turn open. *)
Theorem deferred_mail_waits s sub_id a metadata input :
  active_turn s = Some a -> task a = Some (sub_id, metadata) ->
  let s1 := defer_mailbox_delivery_to_next_turn sub_id s in
  let p := turn_state a in
  if existsb (fun i => negb (is_queued_mail i)) (pending_input (state_at s p)) then s1 = s
  else get_pending_input s1 = (([], default_start_options), Some metadata, s1)
       /\ (get_pending_input (extend_pending_input_and_accept_mailbox_delivery_for_turn_state p input s1)).1.1.1
          = pending_input (state_at s p) ++ input ++ mail_input (mailbox_pending_mails s).
Proof.
  intros Ha Ht s1 p. subst s1. unfold defer_mailbox_delivery_to_next_turn, turn_state_for_sub_id.
  rewrite Ha, Ht, str_eqb_refl. unfold defer_at. fold p. destruct (existsb _ _); [done|]. split.
  - unfold get_pending_input, take_turn_input, task_metadata. cbn. rewrite Ha. cbn. rewrite Ht.
    fold p. change (with_states s (<[p := ?t]> (turn_states s))) with (set_state s p t).
    rewrite set_state_at. done.
  - rewrite get_pending_input_items. unfold turn_accepts, pending_of_turn.
    unfold extend_pending_input_and_accept_mailbox_delivery_for_turn_state, accept_mailbox_delivery_for_turn_state,
      extend_pending_input_for_turn_state. rewrite !set_state_at. cbn [active_turn with_activity set_state with_states].
    rewrite Ha. fold p. cbn. unfold state_at. cbn. rewrite lookup_insert_eq. cbn. by rewrite <- app_assoc.
Qed.

(** ** Lineage *)

Lemma foldl_agree x l : foldl agree x l = x /\ Forall (eq x) l \/ foldl agree x l = None /\ ~ Forall (eq x) l.
Proof.
  assert (Hnone : forall l, foldl agree None l = None) by (intros k; by induction k).
  revert x. induction l as [|y l IH]; intros x; cbn; [by left|]. rewrite Forall_cons.
  destruct x as [id|]; cbn.
  - case_bool_decide as E; [|right; rewrite Hnone; split; [done|]; intros [? _]; congruence].
    destruct (IH (Some id)) as [[H1 H2]|[H1 H2]]; [left|right]; (split; [done|]); intuition congruence.
  - rewrite Hnone. destruct (decide (Forall (eq None) (y :: l))) as [H|H]; [left|right]; rewrite Forall_cons in H; done.
Qed.

Lemma common_id_spec l id :
  common_id l = Some id <-> l <> [] /\ Forall (eq (Some id)) l /\ not_blank id = true.
Proof.
  unfold common_id, reduce_agree. destruct l as [|x l]; cbn; [split; [done|by intros [? _]]|].
  rewrite Forall_cons. destruct (foldl_agree x l) as [[-> Hl]|[-> Hl]].
  - destruct x as [y|]; cbn.
    + destruct (not_blank y) eqn:E; split.
      * by intros [= <-].
      * by intros (_ & [-> _] & _).
      * done.
      * intros (_ & [[= <-] _] & Hb). congruence.
    + split; [done|]. by intros (_ & [? _] & _).
  - split; [done|]. intros (_ & [<- Hall] & _). done.
Qed.

(** A turn that mail starts is given a parent, or a root, only if all the mail
    that asks for a turn names the same one; a root counts only from mail that names
    its parent.  The other options are those of the last such mail. *)
Theorem mail_lineage_unanimous mails id :
  let asking := start_options <$> List.filter triggers mails in
  let o := mailbox_start_options mails in
  (parent_turn_id o = Some id
   <-> asking <> [] /\ Forall (fun x => parent_turn_id x = Some id) asking /\ not_blank id = true)
  /\ (root_turn_id o = Some id
      <-> asking <> [] /\ Forall (fun x => root_turn_id x = Some id
                                  /\ exists p, parent_turn_id x = Some p /\ not_blank p = true) asking
          /\ not_blank id = true)
  /\ o = with_lineage (default default_start_options (last asking)) (parent_turn_id o) (root_turn_id o).
Proof.
  intros asking o. subst o. unfold mailbox_start_options. fold asking. cbn [parent_turn_id root_turn_id with_lineage].
  rewrite !common_id_spec, !Forall_fmap.
  assert (Hne : forall f : TurnStartOptions -> option rstr, f <$> asking <> [] <-> asking <> []).
  { intros f. by destruct asking. }
  rewrite !Hne. split; [|split; [|done]].
  - assert (Hf : Forall (eq (Some id) ∘ parent_turn_id) asking <-> Forall (fun x => parent_turn_id x = Some id) asking).
    { apply Forall_iff. intros x. cbn. by split. }
    by rewrite Hf.
  - assert (Hf : Forall (eq (Some id) ∘ root_candidate) asking
                 <-> Forall (fun x => root_turn_id x = Some id
                                      /\ exists p, parent_turn_id x = Some p /\ not_blank p = true) asking).
    { apply Forall_iff. intros x. cbn. unfold root_candidate, filter_id. destruct (parent_turn_id x) as [q|].
      - destruct (not_blank q) eqn:E; split; [intros <-; eauto|by intros [-> _]|done|intros [_ (? & [= <-] & ?)]; congruence].
      - split; [done|]. by intros [_ (? & ? & _)]. }
    by rewrite Hf.
Qed.

(** ** Tasks that run at the same time *)

(** How input left a turn.  A read took it from the turn that was active, and has
    returned a result or is yet to drain the mailbox; [take_pending_input_for_turn_state]
    returned it; or it was cleared, and no one sees it. *)
Inductive departure :=
| ReadBy (from : option N) (took : list TurnInput) (metadata : option TurnMetadataState)
    (returned : option (list TurnInput))
| TakenFrom (p : N) (items : list TurnInput)
| ClearedAt (p : N) (items : list TurnInput).

(** A session, what was put into its mailbox and into the turn at each place, the
    departures in the order in which they happened, and the mail that was returned:
    by a drain, or by a read after the input of its turn.  Departures and returned
    mail are the values the operations returned. *)
Record run := mkRun {
  the_session : session;
  sent : list Communication;
  returned_mail : list TurnInput;
  entered : gmap N (list TurnInput);
  departures : list departure
}.

Definition log_at (m : gmap N (list TurnInput)) (p : N) : list TurnInput := default [] (m !! p).
Definition log (m : gmap N (list TurnInput)) (p : N) (l : list TurnInput) : gmap N (list TurnInput) :=
  <[p := log_at m p ++ l]> m.

(** What a departure took from the turn at a place. *)
Definition left_from (p : N) (d : departure) : list TurnInput :=
  match d with
  | ReadBy from took _ _ => if decide (from = Some p) then took else []
  | TakenFrom q items | ClearedAt q items => if decide (q = p) then items else []
  end.

Definition place_read s : option N := turn_state <$> active_turn s.

Inductive run_step : run -> run -> Prop :=
| run_mail s i o e d c opts :
    run_step (mkRun s i o e d) (mkRun (enqueue_mailbox_communication c opts s) (i ++ [c]) o e d)
| run_put s i o e d p input :
    run_step (mkRun s i o e d) (mkRun (extend_pending_input_for_turn_state p input s) i o (log e p input) d)
| run_steer s i o e d p input :
    run_step (mkRun s i o e d)
      (mkRun (extend_pending_input_and_accept_mailbox_delivery_for_turn_state p input s) i o (log e p input) d)
| run_take s s' i o e d p items :
    take_pending_input_for_turn_state p s = (items, s') ->
    run_step (mkRun s i o e d) (mkRun s' i o e (d ++ [TakenFrom p items]))
| run_clear s i o e d p :
    run_step (mkRun s i o e d)
      (mkRun (clear_pending p s) i o e (d ++ [ClearedAt p (pending_input (state_at s p))]))
| run_defer s i o e d p : run_step (mkRun s i o e d) (mkRun (defer_at p s) i o e d)
| run_accept s i o e d p :
    run_step (mkRun s i o e d) (mkRun (accept_mailbox_delivery_for_turn_state p s) i o e d)
| run_activate s i o e d a : run_step (mkRun s i o e d) (mkRun (with_active s a) i o e d)
| run_read s s' i o e d took accepts :
    take_turn_input s = ((took, accepts), s') ->
    run_step (mkRun s i o e d)
      (mkRun s' i o e (d ++ [ReadBy (place_read s) took (task_metadata s) (if accepts then None else Some took)]))
| run_return s s' i o e d k from took metadata items opts metadata' :
    d !! k = Some (ReadBy from took metadata None) ->
    drain_for_turn took metadata s = ((items, opts), metadata', s') ->
    run_step (mkRun s i o e d)
      (mkRun s' i (o ++ drop (length took) items) e (<[k := ReadBy from took metadata (Some items)]> d))
| run_drain s s' i o e d items opts :
    drain_mailbox_input_items s = ((items, opts), s') ->
    run_step (mkRun s i o e d) (mkRun s' i (o ++ items) e d).

(** A read that returned has returned what it took. *)
Definition returned_whole (d : departure) : Prop :=
  match d with ReadBy _ took _ (Some items) => took `prefix_of` items | _ => True end.

Record balanced (x : run) : Prop := mkBalanced {
  mail_balanced : CommunicationTurn <$> sent x = returned_mail x ++ mail_input (mailbox_pending_mails (the_session x));
  input_balanced p :
    log_at (entered x) p = concat (left_from p <$> departures x) ++ pending_input (state_at (the_session x) p);
  reads_whole : Forall returned_whole (departures x)
}.

Lemma log_at_log m p l q : log_at (log m p l) q = log_at m q ++ (if decide (p = q) then l else []).
Proof.
  unfold log, log_at. destruct (decide (p = q)) as [->|Hne]; [by rewrite lookup_insert_eq|].
  by rewrite lookup_insert_ne, app_nil_r.
Qed.

Lemma set_state_pending s p t q :
  pending_input (state_at (set_state s p t) q)
  = if decide (p = q) then pending_input t else pending_input (state_at s q).
Proof.
  unfold state_at, set_state. cbn. destruct (decide (p = q)) as [->|Hne]; [by rewrite lookup_insert_eq|].
  by rewrite lookup_insert_ne.
Qed.

(** Adding to the input of one turn, and a departure that takes all of it. *)
Lemma put_balanced m (out : N -> list TurnInput) s s' p l q :
  log_at m q = out q ++ pending_input (state_at s q) ->
  pending_input (state_at s' q) = (if decide (p = q) then pending_input (state_at s p) ++ l else pending_input (state_at s q)) ->
  log_at (log m p l) q = out q ++ pending_input (state_at s' q).
Proof.
  intros H ->. rewrite log_at_log, H. destruct (decide (p = q)) as [->|_]; [by rewrite app_assoc|by rewrite app_nil_r].
Qed.

Lemma depart_balanced m d s p phase x q :
  left_from q x = (if decide (p = q) then pending_input (state_at s p) else []) ->
  log_at m q = concat (left_from q <$> d) ++ pending_input (state_at s q) ->
  log_at m q = concat (left_from q <$> (d ++ [x])) ++ pending_input (state_at (set_state s p (mkTurnState [] phase)) q).
Proof.
  intros Hx ->. rewrite fmap_app, concat_app. cbn. rewrite Hx, set_state_pending.
  destruct (decide (p = q)) as [->|_]; cbn; by rewrite ?app_nil_r.
Qed.

(** A read that returns leaves what it took as it was. *)
Lemma return_left (d : list departure) (k : nat) from took metadata items p :
  d !! k = Some (ReadBy from took metadata None) ->
  left_from p <$> <[k := ReadBy from took metadata (Some items)]> d = left_from p <$> d.
Proof.
  intros Hk. rewrite list_fmap_insert. apply list_insert_id. by rewrite list_lookup_fmap, Hk.
Qed.

(** What is read of a turn: all its input, or nothing. *)
Lemma take_turn_input_left s took accepts s' x q m d :
  take_turn_input s = ((took, accepts), s') ->
  left_from q x = (if decide (place_read s = Some q) then took else []) ->
  log_at m q = concat (left_from q <$> d) ++ pending_input (state_at s q) ->
  log_at m q = concat (left_from q <$> (d ++ [x])) ++ pending_input (state_at s' q).
Proof.
  unfold take_turn_input, place_read. intros E Hx H.
  assert (Hnil : left_from q x = [] -> log_at m q = concat (left_from q <$> (d ++ [x])) ++ pending_input (state_at s q)).
  { intros Hn. rewrite fmap_app, concat_app. cbn. by rewrite Hn, !app_nil_r. }
  destruct (active_turn s) as [a|]; [|simplify_eq; apply Hnil; by rewrite Hx].
  cbn in Hx. destruct (accepts_mailbox_delivery_for_current_turn _); simplify_eq.
  - apply depart_balanced; [|done]. rewrite Hx. destruct (decide (turn_state a = q)) as [->|Hne]; [by rewrite decide_True|].
    rewrite decide_False; [done|]. congruence.
  - apply Hnil. rewrite Hx. by destruct (decide _).
Qed.

Lemma drain_for_turn_items took metadata s items opts metadata' s' :
  drain_for_turn took metadata s = ((items, opts), metadata', s') ->
  items = took ++ mail_input (mailbox_pending_mails s) /\ s' = with_mailbox s [].
Proof.
  unfold drain_for_turn. cbn. destruct took; cbn; intros E; by simplify_eq.
Qed.

Lemma run_step_balanced x y : run_step x y -> balanced x -> balanced y.
Proof.
  intros Hs [Hm Hp Hr]. destruct Hs as [s i o e d c opts|s i o e d p input|s i o e d p input
    |s s' i o e d p items E|s i o e d p|s i o e d p|s i o e d p|s i o e d a
    |s s' i o e d took accepts E|s s' i o e d k from took metadata items opts metadata' Ek E|s s' i o e d items opts E];
    constructor; cbn [the_session sent returned_mail entered departures] in *; try done.
  - unfold mail_input in *. cbn. by rewrite !fmap_app, Hm, app_assoc.
  - intros q. apply (put_balanced _ (fun q => concat (left_from q <$> d)) s); [apply Hp|]. apply set_state_pending.
  - intros q. apply (put_balanced _ (fun q => concat (left_from q <$> d)) s); [apply Hp|].
    unfold extend_pending_input_and_accept_mailbox_delivery_for_turn_state, accept_mailbox_delivery_for_turn_state.
    change (state_at (with_activity ?x _) q) with (state_at x q). rewrite set_state_pending.
    unfold extend_pending_input_for_turn_state. rewrite set_state_at. cbn.
    destruct (decide (p = q)) as [->|Hne]; [done|]. rewrite set_state_pending. by rewrite decide_False.
  - by injection E as _ <-.
  - injection E as <- <-. intros q. by apply depart_balanced.
  - apply Forall_app. by repeat constructor.
  - intros q. by apply depart_balanced.
  - apply Forall_app. by repeat constructor.
  - unfold defer_at. by destruct (existsb _ _).
  - unfold defer_at. destruct (existsb _ _); [done|]. intros q. rewrite Hp, set_state_pending. cbn.
    by destruct (decide (p = q)) as [->|].
  - intros q. rewrite Hp. unfold accept_mailbox_delivery_for_turn_state. rewrite set_state_pending. cbn.
    by destruct (decide (p = q)) as [->|].
  - rewrite Hm. f_equal. unfold take_turn_input in E. destruct (active_turn s); [|by simplify_eq].
    by destruct (accepts_mailbox_delivery_for_current_turn _); simplify_eq.
  - intros q. by eapply take_turn_input_left.
  - apply Forall_app. split; [done|]. constructor; [|done]. destruct accepts; [done|]. cbn. reflexivity.
  - destruct (drain_for_turn_items _ _ _ _ _ _ _ E) as [-> ->]. cbn. by rewrite drop_app_length, app_nil_r.
  - intros q. rewrite (return_left _ _ _ _ _ _ _ Ek). destruct (drain_for_turn_items _ _ _ _ _ _ _ E) as [_ ->]. apply Hp.
  - apply Forall_insert; [done|]. cbn. destruct (drain_for_turn_items _ _ _ _ _ _ _ E) as [-> _]. by apply prefix_app_r.
  - injection E as <- _ <-. cbn. by rewrite app_nil_r.
  - by injection E as _ _ <-.
Qed.

Definition idle_session : session := mkSession ActivityMailbox [] ∅ None.
Definition first_run : run := mkRun idle_session [] [] ∅ [].

(** C18: However the tasks of a session interleave: the mail that reads and drains
    have returned, followed by the mailbox, is the mail that was sent, in order; what
    reads took, calls of [take_pending_input_for_turn_state] returned and clearing
    dropped of a turn, in the order in which they did, followed by its pending input,
    is the input that entered it; and a read that has returned has returned all it took
    from the turn, first and in order. *)
Theorem input_delivered_once x :
  rtc run_step first_run x ->
  CommunicationTurn <$> sent x = returned_mail x ++ mail_input (mailbox_pending_mails (the_session x))
  /\ (forall p, log_at (entered x) p
        = concat (left_from p <$> departures x) ++ pending_input (state_at (the_session x) p))
  /\ (forall from took metadata items, ReadBy from took metadata (Some items) ∈ departures x ->
        took `prefix_of` items).
Proof.
  intros Hs. assert (H0 : balanced first_run) by (by constructor).
  assert (Hx : balanced x).
  { induction Hs as [|y z w Hyz _ IH]; [done|]. by eapply IH, run_step_balanced. }
  destruct Hx as [Hm Hp Hr]. split_and!; [done..|]. intros from took metadata items Hin.
  exact (proj1 (Forall_forall _ _) Hr _ Hin).
Qed.
End queue.

Module Examples.
#[local] Abbreviation mail_of t := (mkCommunication (Extra := unit) (Json := unit) None [] [] t None None false).
#[local] Abbreviation hi := (mail_of (lit "hi")).
#[local] Abbreviation steered := (UserInputTurn [] None).

(** A prompt is steered into the turn at 3 and read; mail comes in before the read
    drains the mailbox. *)
Definition turn_3 : @session unit unit unit unit :=
  with_active idle_session (Some (mkActive 3 None)).
Definition steered_3 := extend_pending_input_and_accept_mailbox_delivery_for_turn_state 3 [steered] turn_3.
Definition read_3 := (take_turn_input steered_3).2.
Definition mail_3 := enqueue_mailbox_communication hi default_start_options read_3.
Definition after_read : @run unit unit unit unit :=
  mkRun (with_mailbox mail_3 []) [hi] [CommunicationTurn hi] (log ∅ 3 [steered])
    [ReadBy (Some 3%N) [steered] None (Some [steered; CommunicationTurn hi])].

Lemma after_read_reached : rtc run_step first_run after_read.
Proof.
  eapply rtc_l; [apply (run_activate _ _ _ _ _ (Some (mkActive 3 None)))|].
  eapply rtc_l; [apply (run_steer _ _ _ _ _ 3 [steered])|].
  eapply rtc_l; [apply (run_read _ read_3 _ _ _ _ [steered] true); reflexivity|].
  eapply rtc_l; [apply (run_mail _ _ _ _ _ hi default_start_options)|].
  apply rtc_once.
  exact (run_return mail_3 _ [hi] [] _ [ReadBy (Some 3%N) [steered] None None] 0 (Some 3%N) [steered] None
    [steered; CommunicationTurn hi] default_start_options None eq_refl eq_refl).
Qed.

Lemma input_delivered_once_witness :
  log_at (entered after_read) 3 = [steered] /\ [steered] `prefix_of` [steered; CommunicationTurn hi].
Proof.
  destruct (input_delivered_once after_read after_read_reached) as (_ & Hp & Hr).
  split; [rewrite Hp; reflexivity|]. apply (Hr (Some 3%N) _ None). by apply list_elem_of_singleton.
Defined.

Lemma deferred_mail_waits_witness :
  let s := mkSession (Value := unit) (Program := unit) ActivityMailbox
             [mkMail (mail_of (lit "late")) default_start_options] ∅
             (Some (mkActive 3 (Some (lit "turn-1", mkTurnMetadata None false)))) in
  (get_pending_input (extend_pending_input_and_accept_mailbox_delivery_for_turn_state 3
     [UserInputTurn [] None] (defer_mailbox_delivery_to_next_turn (lit "turn-1") s))).1.1.1
  = [UserInputTurn [] None; CommunicationTurn (mail_of (lit "late"))].
Proof.
  intros s.
  exact (proj2 (deferred_mail_waits s (lit "turn-1") (mkActive 3 (Some (lit "turn-1", mkTurnMetadata None false)))
    (mkTurnMetadata None false) [UserInputTurn [] None] eq_refl eq_refl)).
Defined.
End Examples.
