(* ===== verification/AgentPath.v ===== *)
(** * AgentPath: the names of agents

    [codex-rs/protocol/src/agent_path.rs]: the paths by which the agents of a
    session are addressed, their validation, joining and resolution; and
    [agent_matches_prefix] of [codex-rs/core/src/agent/control.rs].  A path is its
    text; an error is the constructor of its message. *)

From Stdlib Require Import Lia.
From stdpp Require Import base list strings.
From S2P Require Import Prelude AbsolutePath.

Inductive AgentPathError :=
| NameEmpty
| NameIsRoot
| NameReserved (agent_name : rstr)
| NameHasSlash
| NameCharacters
| NotRooted
| AbsolutePathEmpty
| AbsoluteEndsWithSlash
| RelativeEndsWithSlash
| ReferenceEmpty.

Abbreviation AgentPath := rstr (only parsing).

Definition ROOT : AgentPath := lit "/root".
Definition MORPHEUS : AgentPath := lit "/morpheus".
Definition ROOT_SEGMENT : rstr := lit "root".

Definition name_character (ch : N) : bool :=
  ((97 <=? ch) && (ch <=? 122) || is_ascii_digit ch || (ch =? 95))%N.

Definition validate_agent_name (agent_name : rstr) : result AgentPathError unit :=
  if is_empty agent_name then Err NameEmpty
  else if (agent_name == ROOT_SEGMENT)%rust then Err NameIsRoot
  else if (agent_name == lit ".")%rust || (agent_name == lit "..")%rust then Err (NameReserved agent_name)
  else if contains_char c_slash agent_name then Err NameHasSlash
  else if negb (forallb name_character agent_name) then Err NameCharacters
  else Ok tt.

Fixpoint validate_segments (segments : list rstr) : result AgentPathError unit :=
  match segments with
  | [] => Ok tt
  | segment :: rest => _ ← validate_agent_name segment; validate_segments rest
  end.

Definition validate_absolute_path (path : rstr) : result AgentPathError unit :=
  if (path == MORPHEUS)%rust then Ok tt
  else match strip_prefix [c_slash] path with
       | None => Err NotRooted
       | Some stripped =>
           match split_on c_slash stripped with
           | [] => Err AbsolutePathEmpty
           | root :: segments =>
               if (root != ROOT_SEGMENT)%rust then Err NotRooted
               else if ends_with [c_slash] stripped then Err AbsoluteEndsWithSlash
               else validate_segments segments
           end
       end.

Definition validate_relative_reference (reference : rstr) : result AgentPathError unit :=
  if ends_with [c_slash] reference then Err RelativeEndsWithSlash
  else validate_segments (split_on c_slash reference).

Definition from_string (path : rstr) : result AgentPathError AgentPath :=
  _ ← validate_absolute_path path; Ok path.

Definition is_root (p : AgentPath) : bool := (p == ROOT)%rust.

Definition agent_name (p : AgentPath) : rstr :=
  if is_root p then ROOT_SEGMENT
  else match last (split_on c_slash p) with
       | Some segment => if is_empty segment then ROOT_SEGMENT else segment
       | None => ROOT_SEGMENT
       end.

(** [AgentPath::join] *)
Definition join_agent (p : AgentPath) (agent_name : rstr) : result AgentPathError AgentPath :=
  _ ← validate_agent_name agent_name; from_string (p ++ [c_slash] ++ agent_name).

(** [AgentPath::resolve] *)
Definition resolve_agent (p : AgentPath) (reference : rstr) : result AgentPathError AgentPath :=
  if is_empty reference then Err ReferenceEmpty
  else if (reference == ROOT)%rust then Ok ROOT
  else if starts_with [c_slash] reference then from_string reference
  else _ ← validate_relative_reference reference; from_string (p ++ [c_slash] ++ reference).

Definition agent_matches_prefix (agent_path : option AgentPath) (prefix : AgentPath) : bool :=
  if is_root prefix then true
  else is_some_and agent_path (fun agent_path =>
         (agent_path == prefix)%rust
         || is_some_and (strip_prefix prefix agent_path) (starts_with [c_slash])).

(** ** Splitting *)

Lemma split_on_app c a b : c ∉ a -> split_on c (a ++ c :: b) = a :: split_on c b.
Proof.
  induction a as [|x a IH]; intros Ha; cbn [app split_on]; [by rewrite N.eqb_refl|].
  rewrite not_elem_of_cons in Ha. destruct Ha as [Hx Ha].
  destruct (N.eqb_spec x c) as [->|_]; [done|]. by rewrite (IH Ha).
Qed.

Lemma split_on_none c a : c ∉ a -> split_on c a = [a].
Proof.
  induction a as [|x a IH]; intros Ha; cbn [split_on]; [done|].
  rewrite not_elem_of_cons in Ha. destruct Ha as [Hx Ha].
  destruct (N.eqb_spec x c) as [->|_]; [done|]. by rewrite (IH Ha).
Qed.

(** ** Paths as lists of names *)

Definition valid_name (n : rstr) : Prop := validate_agent_name n = Ok tt.

#[export] Instance valid_name_dec n : Decision (valid_name n).
Proof.
  unfold valid_name. destruct (validate_agent_name n) as [[]|e]; [by left|by right].
Defined.

(** Names, each after a slash. *)
Definition slashed (ns : list rstr) : rstr := concat ((fun n => c_slash :: n) <$> ns).

(** The path of an agent below the root. *)
Definition path_of (ns : list rstr) : AgentPath := ROOT ++ slashed ns.

Lemma valid_name_spec n :
  valid_name n ->
  n <> [] /\ (c_slash ∉ n) /\ n <> ROOT_SEGMENT /\ Forall (fun c => name_character c = true) n.
Proof.
  unfold valid_name, validate_agent_name. destruct (is_empty n) eqn:E1; [done|].
  destruct (n == ROOT_SEGMENT)%rust eqn:E2; [done|]. destruct (_ || _); [done|].
  destruct (contains_char c_slash n) eqn:E4; [done|]. destruct (forallb name_character n) eqn:E5; [|done].
  intros _. split; [by apply is_empty_false|]. split; [by apply contains_char_false|].
  split; [intros ->; by rewrite str_eqb_refl in E2|]. by apply Forall_forall; intros c Hc%list_elem_of_In;
    eapply forallb_forall in E5.
Qed.

Lemma validate_segments_ok ns : validate_segments ns = Ok tt <-> Forall valid_name ns.
Proof.
  induction ns as [|n ns IH]; cbn [validate_segments]; [by split|]. rewrite Forall_cons.
  unfold valid_name at 1. destruct (validate_agent_name n) as [[]|e]; cbn; [by rewrite IH; intuition|by split; [|intros []]].
Qed.

Lemma slashed_cons n ns : slashed (n :: ns) = c_slash :: n ++ slashed ns.
Proof. done. Qed.

Lemma slashed_app ns ms : slashed (ns ++ ms) = slashed ns ++ slashed ms.
Proof. unfold slashed. by rewrite fmap_app, concat_app. Qed.

Lemma split_slashed a ns :
  c_slash ∉ a -> Forall valid_name ns -> split_on c_slash (a ++ slashed ns) = a :: ns.
Proof.
  revert a. induction ns as [|n ns IH]; intros a Ha Hns; [rewrite app_nil_r; by apply split_on_none|].
  apply Forall_cons in Hns as [Hn Hns]. rewrite slashed_cons, (split_on_app c_slash a _ Ha). f_equal.
  apply IH; [|done]. by destruct (valid_name_spec n Hn) as (_ & ? & _).
Qed.

(** Every text is its pieces, each after the first behind a separator. *)
Lemma split_on_slashed s : exists a ns, split_on c_slash s = a :: ns /\ s = a ++ slashed ns /\ c_slash ∉ a.
Proof.
  induction s as [|x s (a & ns & Hs & -> & Ha)]; cbn [split_on]; [exists [], []; split; [done|]; split; [done|]; apply not_elem_of_nil|].
  rewrite Hs. destruct (N.eqb_spec x c_slash) as [->|Hx].
  - exists [], (a :: ns). split; [done|]. split; [done|]. apply not_elem_of_nil.
  - exists (x :: a), ns. rewrite not_elem_of_cons. done.
Qed.

Lemma ends_with_slash_last s : ends_with [c_slash] s = true <-> last s = Some c_slash.
Proof.
  unfold ends_with. destruct (strip_suffix [c_slash] s) as [r|] eqn:E.
  - apply strip_suffix_Some in E as ->. by rewrite last_snoc.
  - split; [done|]. intros Hl. destruct s as [|x s _] using rev_ind; [done|].
    rewrite last_snoc in Hl. injection Hl as ->. by rewrite (proj2 (strip_suffix_Some [c_slash] _ s) eq_refl) in E.
Qed.

Lemma slashed_last a ns :
  c_slash ∉ a -> a <> [] -> Forall valid_name ns -> ends_with [c_slash] (a ++ slashed ns) = false.
Proof.
  intros Ha Hne Hns. apply not_true_iff_false. rewrite ends_with_slash_last.
  destruct ns as [|n ns _] using rev_ind.
  - rewrite app_nil_r. intros Hl%last_Some_elem_of. done.
  - apply Forall_app in Hns as [_ Hn]. apply Forall_cons in Hn as [Hn _].
    destruct (valid_name_spec n Hn) as (Hn0 & Hn1 & _). rewrite slashed_app. cbn. rewrite app_nil_r.
    rewrite app_assoc. replace (c_slash :: n) with ([c_slash] ++ n) by done. rewrite app_assoc, last_app.
    destruct (last n) as [x|] eqn:E; [|by apply last_None in E]. intros [= ->]. by apply last_Some_elem_of in E.
Qed.

(** The texts that are accepted as agent paths are exactly [/morpheus] and
    [/root] followed by valid names, each behind a slash. *)
Theorem agent_path_grammar p :
  from_string p = Ok p <-> p = MORPHEUS \/ exists ns, Forall valid_name ns /\ p = path_of ns.
Proof.
  unfold from_string. transitivity (validate_absolute_path p = Ok tt).
  { by destruct (validate_absolute_path p) as [[]|e]; cbn. }
  unfold validate_absolute_path. destruct (p == MORPHEUS)%rust eqn:Em; [apply str_eqb_true in Em; by split; [left|]|].
  assert (Hm : p <> MORPHEUS) by (intros ->; by rewrite str_eqb_refl in Em).
  transitivity (exists ns, Forall valid_name ns /\ p = path_of ns); [|by split; [right|intros [?|?]]].
  split.
  - destruct (strip_prefix [c_slash] p) as [s|] eqn:Es; [|done]. apply strip_prefix_Some in Es as ->.
    destruct (split_on_slashed s) as (a & ns & Hs & -> & Ha). rewrite Hs.
    destruct (a == ROOT_SEGMENT)%rust eqn:Er; [|done]. apply str_eqb_true in Er as ->. cbn [negb].
    destruct (ends_with _ _); [done|]. intros Hv%validate_segments_ok. by exists ns.
  - intros (ns & Hns & ->). change (path_of ns) with ([c_slash] ++ ROOT_SEGMENT ++ slashed ns).
    rewrite strip_prefix_app. assert (Hr : c_slash ∉ ROOT_SEGMENT) by by apply (bool_decide_unpack _); vm_compute.
    rewrite (split_slashed ROOT_SEGMENT ns Hr Hns), str_eqb_refl. cbn [negb].
    rewrite (slashed_last ROOT_SEGMENT ns Hr) by done. by apply validate_segments_ok.
Qed.

(** ** Joining and resolving *)

Lemma path_of_valid ns : Forall valid_name ns -> from_string (path_of ns) = Ok (path_of ns).
Proof. intros H. apply agent_path_grammar. right. by exists ns. Qed.

Lemma path_of_app ns ms : path_of (ns ++ ms) = path_of ns ++ slashed ms.
Proof. unfold path_of. by rewrite slashed_app, app_assoc. Qed.

Lemma split_path_of ns : Forall valid_name ns -> split_on c_slash (path_of ns) = [] :: ROOT_SEGMENT :: ns.
Proof.
  intros Hns. change (path_of ns) with ([] ++ c_slash :: (ROOT_SEGMENT ++ slashed ns)).
  rewrite (split_on_app c_slash []) by apply not_elem_of_nil. f_equal. apply split_slashed; [|done].
  by apply (bool_decide_unpack _); vm_compute.
Qed.

Lemma path_of_inj ns ms : Forall valid_name ns -> Forall valid_name ms -> path_of ns = path_of ms -> ns = ms.
Proof. intros Hn Hm E%(f_equal (split_on c_slash)). rewrite !split_path_of in E by done. by injection E. Qed.

(** The reference to the agent [ms] below an agent. *)
Definition reference_of (ms : list rstr) : rstr := drop 1 (slashed ms).

Lemma reference_of_cons m ms : reference_of (m :: ms) = m ++ slashed ms.
Proof. done. Qed.

Lemma agent_name_path_of ns n : Forall valid_name (ns ++ [n]) -> agent_name (path_of (ns ++ [n])) = n.
Proof.
  intros H. unfold agent_name. rewrite (split_path_of _ H). rewrite !app_comm_cons, last_snoc.
  apply Forall_app in H as [Hns Hn]. apply Forall_cons in Hn as [Hn _].
  destruct (valid_name_spec n Hn) as (Hne & _). apply is_empty_false in Hne. rewrite Hne.
  destruct (is_root (path_of (ns ++ [n]))) eqn:E; [|done]. apply str_eqb_true in E.
  apply (path_of_inj (ns ++ [n]) []) in E; [by destruct ns|by apply Forall_app; split; [|constructor]|constructor].
Qed.

(** References resolve as they are written: a relative one below the agent
    that uses it, an absolute one to itself; the name of a child is the name it was
    given. *)
Theorem agent_references_resolve ns ms n :
  Forall valid_name ns -> Forall valid_name ms -> valid_name n -> ms <> [] ->
  resolve_agent (path_of ns) (reference_of ms) = Ok (path_of (ns ++ ms))
  /\ resolve_agent (path_of ns) (path_of ms) = Ok (path_of ms)
  /\ join_agent (path_of ns) n = Ok (path_of (ns ++ [n]))
  /\ agent_name (path_of (ns ++ [n])) = n.
Proof.
  intros Hns Hms Hn Hne. assert (Hnn : Forall valid_name (ns ++ [n])) by (apply Forall_app; split; [done|by constructor]).
  repeat split.
  - destruct ms as [|m ms]; [done|]. pose proof Hms as [Hm Hms']%Forall_cons.
    destruct (valid_name_spec m Hm) as (Hm0 & Hm1 & Hm2 & _). rewrite reference_of_cons.
    destruct m as [|c m]; [done|]. assert (Hc : c <> c_slash) by (intros ->; apply Hm1; left).
    unfold resolve_agent. cbn [app is_empty]. unfold starts_with. rewrite !strip_prefix_head_ne by congruence. cbn iota.
    assert (Hr : (c :: m ++ slashed ms == ROOT)%rust = false)
      by (apply bool_decide_eq_false; intros [= Hx _]; by apply Hc).
    rewrite Hr. unfold validate_relative_reference. change (c :: m ++ slashed ms) with ((c :: m) ++ slashed ms).
    rewrite slashed_last, split_slashed by done. rewrite (proj2 (validate_segments_ok _) Hms). cbn [mbind result_bind].
    pose proof (path_of_valid (ns ++ (c :: m) :: ms) ltac:(by apply Forall_app)) as H.
    rewrite path_of_app, slashed_cons in *. exact H.
  - unfold resolve_agent. assert (Hr : (path_of ms == ROOT)%rust = false).
    { apply bool_decide_eq_false. intros E. change ROOT with (path_of []) in E. by apply path_of_inj in E. }
    change (is_empty (path_of ms)) with false. rewrite Hr. change (starts_with [c_slash] (path_of ms)) with true.
    by apply path_of_valid.
  - unfold join_agent. rewrite Hn. cbn [mbind result_bind].
    replace (path_of ns ++ [c_slash] ++ n) with (path_of (ns ++ [n])); [by apply path_of_valid|].
    rewrite path_of_app. unfold slashed. cbn. by rewrite app_nil_r.
  - by apply agent_name_path_of.
Qed.

(** ** Prefixes *)

Lemma slashed_prefix ms ns s :
  Forall valid_name ms -> Forall valid_name ns -> slashed ns = slashed ms ++ c_slash :: s ->
  ms `prefix_of` ns.
Proof.
  revert ns. induction ms as [|m ms IH]; intros ns Hms Hns E; [by exists ns|].
  apply Forall_cons in Hms as [Hm Hms]. destruct ns as [|n ns]; [done|]. apply Forall_cons in Hns as [Hn Hns].
  rewrite !slashed_cons in E. cbn in E. injection E as E. rewrite <- app_assoc in E.
  destruct (valid_name_spec m Hm) as (_ & Hm1 & _). destruct (valid_name_spec n Hn) as (_ & Hn1 & _).
  assert (Hsplit : split_on c_slash (n ++ slashed ns) = split_on c_slash (m ++ slashed ms ++ c_slash :: s)) by by rewrite E.
  rewrite (split_slashed n ns Hn1 Hns) in Hsplit.
  assert (Hhead : n = m /\ slashed ns = slashed ms ++ c_slash :: s).
  { destruct ms as [|m' ms]; cbn [slashed fmap list_fmap concat app] in *.
    - rewrite (split_on_app c_slash m s Hm1) in Hsplit. injection Hsplit as -> _. split; [done|]. by apply app_inv_head in E.
    - rewrite (split_on_app c_slash m _ Hm1) in Hsplit. injection Hsplit as -> _. split; [done|]. by apply app_inv_head in E. }
  destruct Hhead as [-> E']. destruct (IH ns Hms Hns E') as [k ->]. by exists k.
Qed.

(** An agent matches a prefix exactly when it is the agent of the prefix or
    one below it. *)
Theorem agent_prefix_is_subtree ns ms :
  Forall valid_name ns -> Forall valid_name ms ->
  agent_matches_prefix (Some (path_of ns)) (path_of ms) = true <-> ms `prefix_of` ns.
Proof.
  intros Hns Hms. unfold agent_matches_prefix. destruct (is_root (path_of ms)) eqn:Er.
  { apply str_eqb_true in Er. change ROOT with (path_of []) in Er. apply path_of_inj in Er as ->; [|done|constructor].
    split; [|done]. intros _. by exists ns. }
  cbn [is_some_and]. rewrite orb_true_iff, str_eqb_true. split.
  - intros [E|H]; [apply path_of_inj in E as ->; done|].
    destruct (strip_prefix (path_of ms) (path_of ns)) as [s|] eqn:Es; [|done]. cbn in H.
    unfold starts_with in H. destruct (strip_prefix [c_slash] s) as [t|] eqn:Et; [|done].
    apply strip_prefix_Some in Es, Et. subst s. unfold path_of in Es. rewrite <- app_assoc in Es.
    apply app_inv_head in Es. by eapply slashed_prefix.
  - intros [[|k ks] ->]; [left; by rewrite app_nil_r|right].
    rewrite path_of_app, strip_prefix_app. done.
Qed.

Module Examples.
Lemma agent_references_resolve_witness :
  resolve_agent (lit "/root/researcher") (lit "worker") = Ok (lit "/root/researcher/worker")
  /\ agent_name (lit "/root/researcher/reader") = lit "reader".
Proof.
  destruct (agent_references_resolve [lit "researcher"] [lit "worker"] (lit "reader")) as (H1 & _ & _ & H2).
  - by apply (bool_decide_unpack _); vm_compute.
  - by apply (bool_decide_unpack _); vm_compute.
  - by vm_compute.
  - done.
  - split; [exact H1|exact H2].
Defined.

Lemma agent_prefix_is_subtree_witness :
  agent_matches_prefix (Some (lit "/root/a/b")) (lit "/root/a") = true.
Proof.
  apply (agent_prefix_is_subtree [lit "a"; lit "b"] [lit "a"]).
  - by apply (bool_decide_unpack _); vm_compute.
  - by apply (bool_decide_unpack _); vm_compute.
  - by exists [lit "b"].
Defined.
End Examples.
