(* ===== verification/AgentRegistry.v ===== *)
(** * AgentRegistry: the agents of a session

    [codex-rs/core/src/agent/registry.rs]: the registry that the agents of one
    session share, with its limit on sub-agents, the reservations of slots, paths
    and nicknames, and the registered threads.

    What is done under one lock, or by one atomic instruction, is one definition;
    [try_increment_spawned], [release_spawned_thread] and the drop of a reservation
    take several of them, and are also given as a whole, for a task that nobody
    interferes with.  AgentRuns.v interleaves the parts.
    Counters are 64 bits wide and wrap.  The text of a thread id and the random
    index into a list of names are arguments. *)

From Stdlib Require Import Lia.
From stdpp Require Import base list strings gmap.
From S2P Require Import Prelude AgentPath.

#[local] Open Scope N_scope.

Abbreviation ThreadId := N (only parsing).

Record AgentMetadata := mkMetadata {
  agent_id : option ThreadId;
  agent_path : option AgentPath;
  agent_nickname : option rstr;
  agent_role : option rstr
}.

Definition default_metadata : AgentMetadata := mkMetadata None None None None.

Definition usize_size : N := 18446744073709551616.

(** [AtomicUsize::fetch_add(1)] and [fetch_sub(1)] *)
Definition count_add (n : N) : N := (n + 1) mod usize_size.
Definition count_sub (n : N) : N := (n + (usize_size - 1)) mod usize_size.

(** ** Nicknames *)

Definition ordinal_suffix (value : N) : rstr :=
  let tens := value mod 100 in
  if (11 <=? tens) && (tens <=? 13) then lit "th"
  else match value mod 10 with
       | 1 => lit "st"
       | 2 => lit "nd"
       | 3 => lit "rd"
       | _ => lit "th"
       end.

Definition format_agent_nickname (name : rstr) (nickname_reset_count : N) : rstr :=
  match nickname_reset_count with
  | 0 => name
  | reset_count =>
      let value := reset_count + 1 in name ++ lit " the " ++ decimal value ++ ordinal_suffix value
  end.

(** ** Depth *)

(** [SessionSource], as far as the depth goes *)
Inductive SessionSource := ThreadSpawn (depth : Z) | OtherSubAgent | NotSubAgent.

Definition i32_max : Z := 2147483647.

Definition session_depth (s : SessionSource) : Z :=
  match s with ThreadSpawn depth => depth | OtherSubAgent => 0%Z | NotSubAgent => 0%Z end.

Definition next_thread_spawn_depth (s : SessionSource) : Z := Z.min (session_depth s + 1) i32_max.

Definition exceeds_thread_spawn_depth_limit (depth max_depth : Z) : bool := (max_depth <? depth)%Z.

(** ** The registry *)

Section registry.
(** The selection of an environment, and the text of a thread id *)
Context {Env : Type} (thread_text : ThreadId -> rstr).

Record RegisteredAgent := mkRegistered {
  path : rstr;
  evicted : option (list Env)
}.

Definition new_registered (p : rstr) : RegisteredAgent := mkRegistered p None.

Record AgentRegistry := mkRegistry {
  agent_tree : gmap (list N) AgentMetadata;
  thread_paths : gmap N RegisteredAgent;
  used_agent_nicknames : gset (list N);
  nickname_reset_count : N;
  total_count : N
}.

Definition default_registry : AgentRegistry := mkRegistry ∅ ∅ ∅ 0 0.

Definition with_tree (r : AgentRegistry) (t : gmap (list N) AgentMetadata) : AgentRegistry :=
  mkRegistry t (thread_paths r) (used_agent_nicknames r) (nickname_reset_count r) (total_count r).
Definition with_threads (r : AgentRegistry) (t : gmap N RegisteredAgent) : AgentRegistry :=
  mkRegistry (agent_tree r) t (used_agent_nicknames r) (nickname_reset_count r) (total_count r).
Definition with_nicknames (r : AgentRegistry) (used : gset (list N)) (resets : N) : AgentRegistry :=
  mkRegistry (agent_tree r) (thread_paths r) used resets (total_count r).
Definition with_count (r : AgentRegistry) (n : N) : AgentRegistry :=
  mkRegistry (agent_tree r) (thread_paths r) (used_agent_nicknames r) (nickname_reset_count r) n.

(** A turn of the loop of [try_increment_spawned] after it read the count:
    refused, or the exchange, which fails if the count has changed. *)
Inductive increment := Refused | Incremented (count : N) | Again (current : N).

Definition try_increment_turn (max_threads current count : N) : increment :=
  if max_threads <=? current then Refused
  else if count =? current then Incremented (count_add current)
  else Again count.

(** The whole of it, when nobody interferes. *)
Definition try_increment_spawned (max_threads : N) (r : AgentRegistry) : bool * AgentRegistry :=
  match try_increment_turn max_threads (total_count r) (total_count r) with
  | Incremented n => (true, with_count r n)
  | Refused | Again _ => (false, r)
  end.

Definition md_is_root (m : AgentMetadata) : bool := is_some_and (agent_path m) is_root.

(** [release_spawned_thread], what it does under the lock: whether it removed an
    agent that counts. *)
Definition remove_spawned_thread (thread_id : ThreadId) (r : AgentRegistry) : bool * AgentRegistry :=
  match thread_paths r !! thread_id with
  | None => (false, r)
  | Some agent =>
      let r := with_threads r (delete thread_id (thread_paths r)) in
      match agent_tree r !! path agent with
      | None => (false, r)
      | Some metadata => (negb (md_is_root metadata), with_tree r (delete (path agent) (agent_tree r)))
      end
  end.

(** [total_count.fetch_sub(1)] *)
Definition decrement_spawned (r : AgentRegistry) : AgentRegistry := with_count r (count_sub (total_count r)).

(** The whole of it, when nobody interferes. *)
Definition release_spawned_thread (thread_id : ThreadId) (r : AgentRegistry) : AgentRegistry :=
  let '(removed_counted_agent, r) := remove_spawned_thread thread_id r in
  if removed_counted_agent then decrement_spawned r else r.

Definition register_root_thread (thread_id : ThreadId) (r : AgentRegistry) : AgentRegistry :=
  let metadata :=
    default (mkMetadata (Some thread_id) (Some ROOT) None None) (agent_tree r !! ROOT) in
  let r := with_tree r (<[ROOT := metadata]> (agent_tree r)) in
  match agent_id metadata with
  | Some root_thread_id => with_threads r (<[root_thread_id := new_registered ROOT]> (thread_paths r))
  | None => r
  end.

Definition agent_id_for_path (p : AgentPath) (r : AgentRegistry) : option ThreadId :=
  agent_tree r !! p ≫= agent_id.

Definition agent_metadata_for_thread (thread_id : ThreadId) (r : AgentRegistry) : option AgentMetadata :=
  thread_paths r !! thread_id ≫= fun agent => agent_tree r !! path agent.

Definition save_evicted_environments (thread_id : ThreadId) (environments : list Env) (r : AgentRegistry)
  : AgentRegistry :=
  with_threads r (alter (fun a => mkRegistered (path a) (Some environments)) thread_id (thread_paths r)).

Definition evicted_environments (thread_id : ThreadId) (r : AgentRegistry) : option (list Env) :=
  thread_paths r !! thread_id ≫= evicted.

Definition clear_evicted_environments (thread_id : ThreadId) (r : AgentRegistry) : AgentRegistry :=
  with_threads r (alter (fun a => mkRegistered (path a) None) thread_id (thread_paths r)).

Definition is_live (m : AgentMetadata) : bool := is_some (agent_id m) && negb (md_is_root m).

Definition live_agents (r : AgentRegistry) : list AgentMetadata :=
  filter (fun m => is_live m = true) ((map_to_list (agent_tree r)).*2).

Definition registry_key (m : AgentMetadata) (thread_id : ThreadId) : rstr :=
  default (lit "thread:" ++ thread_text thread_id) (agent_path m).

Definition register_spawned_thread (m : AgentMetadata) (r : AgentRegistry) : AgentRegistry :=
  match agent_id m with
  | None => r
  | Some thread_id =>
      let key := registry_key m thread_id in
      let r := match agent_nickname m with
               | Some n => with_nicknames r ({[n]} ∪ used_agent_nicknames r) (nickname_reset_count r)
               | None => r
               end in
      let previous_agent := thread_paths r !! thread_id in
      let r := with_threads r (<[thread_id := new_registered key]> (thread_paths r)) in
      let r := match previous_agent with
               | Some previous =>
                   if bool_decide (path previous <> key)
                   then with_tree r (delete (path previous) (agent_tree r)) else r
               | None => r
               end in
      let previous_metadata := agent_tree r !! key in
      let r := with_tree r (<[key := m]> (agent_tree r)) in
      match previous_metadata ≫= agent_id with
      | Some previous_thread_id =>
          if bool_decide (previous_thread_id <> thread_id)
          then with_threads r (delete previous_thread_id (thread_paths r)) else r
      | None => r
      end
  end.

(** [choose] with its random index *)
Definition choose (pick : nat) (l : list rstr) : option rstr := l !! (pick mod length l)%nat.

Definition reserve_agent_nickname (names : list rstr) (preferred : option rstr) (pick : nat)
    (r : AgentRegistry) : option rstr * AgentRegistry :=
  let '(nickname, r) :=
    match preferred with
    | Some preferred => (Some preferred, r)
    | None =>
        if is_empty names then (None, r)
        else
          let available_names :=
            filter (fun name => name ∉ used_agent_nicknames r)
              ((fun name => format_agent_nickname name (nickname_reset_count r)) <$> names) in
          match choose pick available_names with
          | Some name => (Some name, r)
          | None =>
              let r := with_nicknames r ∅ (nickname_reset_count r + 1) in
              ((fun name => format_agent_nickname name (nickname_reset_count r)) <$> choose pick names, r)
          end
    end in
  match nickname with
  | Some n => (Some n, with_nicknames r ({[n]} ∪ used_agent_nicknames r) (nickname_reset_count r))
  | None => (None, r)
  end.

Inductive AgentError :=
| AgentLimitReached (max_threads : N)
| PathExists (p : AgentPath)
| NoNicknames.

Definition reserve_agent_path (p : AgentPath) (r : AgentRegistry) : result AgentError AgentRegistry :=
  match agent_tree r !! p with
  | Some _ => Err (PathExists p)
  | None => Ok (with_tree r (<[p := mkMetadata None (Some p) None None]> (agent_tree r)))
  end.

Definition release_reserved_agent_path (p : AgentPath) (r : AgentRegistry) : AgentRegistry :=
  match agent_tree r !! p with
  | Some m => if is_some (agent_id m) then r else with_tree r (delete p (agent_tree r))
  | None => r
  end.

(** ** Reservations *)

Record SpawnReservation := mkReservation {
  reserved_agent_nickname : option rstr;
  reserved_agent_path : option AgentPath
}.

Definition new_reservation : SpawnReservation := mkReservation None None.

Definition reserve_spawn_slot (max_threads : option N) (r : AgentRegistry)
  : result AgentError SpawnReservation * AgentRegistry :=
  match max_threads with
  | Some max_threads =>
      match try_increment_spawned max_threads r with
      | (true, r) => (Ok new_reservation, r)
      | (false, r) => (Err (AgentLimitReached max_threads), r)
      end
  | None => (Ok new_reservation, with_count r (count_add (total_count r)))
  end.

(** Methods of an active reservation, with the reservation after them. *)
Definition reserve_nickname_with_preference (names : list rstr) (preferred : option rstr) (pick : nat)
    (s : SpawnReservation) (r : AgentRegistry)
  : result AgentError rstr * SpawnReservation * AgentRegistry :=
  match reserve_agent_nickname names preferred pick r with
  | (Some n, r) => (Ok n, mkReservation (Some n) (reserved_agent_path s), r)
  | (None, r) => (Err NoNicknames, s, r)
  end.

Definition reservation_reserve_path (p : AgentPath) (s : SpawnReservation) (r : AgentRegistry)
  : result AgentError unit * SpawnReservation * AgentRegistry :=
  match reserve_agent_path p r with
  | Ok r => (Ok tt, mkReservation (reserved_agent_nickname s) (Some p), r)
  | Err e => (Err e, s, r)
  end.

(** [commit]: the reservation is not active when it is dropped after it. *)
Definition commit (m : AgentMetadata) (r : AgentRegistry) : AgentRegistry := register_spawned_thread m r.

(** [Drop] of a reservation that is still active: what it does under the lock, and
    the whole of it when nobody interferes *)
Definition release_reservation_path (s : SpawnReservation) (r : AgentRegistry) : AgentRegistry :=
  match reserved_agent_path s with
  | Some p => release_reserved_agent_path p r
  | None => r
  end.

Definition drop_reservation (s : SpawnReservation) (r : AgentRegistry) : AgentRegistry :=
  decrement_spawned (release_reservation_path s r).

(** [AgentControl::prepare_agent_metadata], with the candidates of the role *)
Definition prepare_agent_metadata (candidates : list rstr) (p : option AgentPath) (role : option rstr)
    (preferred : option rstr) (pick : nat) (s : SpawnReservation) (r : AgentRegistry)
  : result AgentError AgentMetadata * SpawnReservation * AgentRegistry :=
  let '(e, s, r) :=
    match p with Some p => reservation_reserve_path p s r | None => (Ok tt, s, r) end in
  match e with
  | Err e => (Err e, s, r)
  | Ok _ =>
      match reserve_nickname_with_preference candidates preferred pick s r with
      | (Ok n, s, r) => (Ok (mkMetadata None p (Some n) role), s, r)
      | (Err e, s, r) => (Err e, s, r)
      end
  end.
End registry.
