(* ===== verification/AgentRuns.v ===== *)
(** * AgentRuns: what the registry of agents guarantees

    Theorems over AgentRegistry.v: the slots of a session are accounted for and
    limited in every interleaving of the tasks that spawn, fail to spawn, resume and
    release agents, where a step is what is done under one lock or by one atomic
    instruction; the two indexes of the registry agree, a failed spawn leaves no trace,
    and nicknames are not given twice. *)

From Stdlib Require Import Lia.
From stdpp Require Import base list strings gmap relations.
From S2P Require Import Prelude AbsolutePath AgentPath AgentRegistry.

#[local] Open Scope N_scope.

(** ** Counters *)

Lemma count_add_mod n : count_add (n mod usize_size) = (n + 1) mod usize_size.
Proof. unfold count_add. by rewrite N.Div0.add_mod_idemp_l. Qed.

Lemma count_sub_mod n : count_sub ((n + 1) mod usize_size) = n mod usize_size.
Proof.
  unfold count_sub. rewrite N.Div0.add_mod_idemp_l.
  replace (n + 1 + (usize_size - 1)) with (n + 1 * usize_size) by (unfold usize_size; lia).
  by rewrite N.Div0.mod_add.
Qed.

Section registry.
Context {Env : Type} (thread_text : ThreadId -> rstr).
#[local] Abbreviation Registry := (@AgentRegistry Env).
Implicit Types r : Registry.

(** ** Live agents *)

Definition live_list (t : gmap (list N) AgentMetadata) : list AgentMetadata :=
  filter (fun m => is_live m = true) ((map_to_list t).*2).

Lemma live_list_insert t k m :
  t !! k = None -> live_list (<[k := m]> t) ≡ₚ (if is_live m then [m] else []) ++ live_list t.
Proof.
  intros H. unfold live_list. rewrite (map_to_list_insert t k m H), fmap_cons, filter_cons. cbn [snd].
  destruct (is_live m) eqn:E; case_decide; (congruence || done).
Qed.

Lemma live_list_delete t k m :
  t !! k = Some m -> live_list t ≡ₚ (if is_live m then [m] else []) ++ live_list (delete k t).
Proof.
  intros H. rewrite <- (insert_delete_id t k m H) at 1. apply live_list_insert. apply lookup_delete_eq.
Qed.

(** ** Tasks *)

(** A task is in the loop of an increment, with the count it read, or holds a
    reservation, or has given back what it held under the lock and is yet to
    decrement the count. *)
Inductive task :=
| Incrementing (max_threads current : N)
| Holding (s : SpawnReservation)
| Decrementing.

(** [displaced] counts the registrations of sub-agents that were replaced by a later
    registration of the same thread. *)
Record system := mkSystem { registry : Registry; tasks : list task; displaced : nat }.

Definition reservations (ts : list task) : list SpawnReservation :=
  omap (fun t => match t with Holding s => Some s | _ => None end) ts.

Definition is_decrementing (t : task) : bool := match t with Decrementing => true | _ => false end.
Definition decrements (ts : list task) : nat := length (List.filter is_decrementing ts).

(** The slots that tasks have. *)
Definition task_slot (t : task) : nat := match t with Incrementing _ _ => 0 | Holding _ | Decrementing => 1 end.
Definition task_slots (ts : list task) : nat := sum_list_with task_slot ts.

(** Whether a thread is registered as a sub-agent. *)
Definition counted_thread (thread_id : ThreadId) r : bool :=
  match agent_metadata_for_thread thread_id r with Some m => negb (md_is_root m) | None => false end.

Definition reserved_paths (ts : list task) : list AgentPath := omap reserved_agent_path (reservations ts).

(** The limits that spawns are started with. *)
Context (limits : option N -> Prop).

(** What the callers do: a reservation takes at most one path, which is that of a
    sub-agent, and is committed with that path; the root is not a registered
    sub-agent.  A thread that is resumed may still be registered. *)
Inductive step : system -> system -> Prop :=
| step_load r ts d max :
    limits (Some max) -> step (mkSystem r ts d) (mkSystem r (ts ++ [Incrementing max (total_count r)]) d)
| step_refused r l l' d max current :
    try_increment_turn max current (total_count r) = Refused ->
    step (mkSystem r (l ++ Incrementing max current :: l') d) (mkSystem r (l ++ l') d)
| step_incremented r l l' d max current n :
    try_increment_turn max current (total_count r) = Incremented n ->
    step (mkSystem r (l ++ Incrementing max current :: l') d)
         (mkSystem (with_count r n) (l ++ Holding new_reservation :: l') d)
| step_again r l l' d max current :
    (* a weak exchange may also fail for no reason *)
    try_increment_turn max current (total_count r) <> Refused ->
    step (mkSystem r (l ++ Incrementing max current :: l') d)
         (mkSystem r (l ++ Incrementing max (total_count r) :: l') d)
| step_unlimited r ts d :
    limits None ->
    step (mkSystem r ts d) (mkSystem (with_count r (count_add (total_count r))) (ts ++ [Holding new_reservation]) d)
| step_path r r' l l' d s s' p :
    reserved_agent_path s = None -> from_string p = Ok p -> is_root p = false ->
    reservation_reserve_path p s r = (Ok tt, s', r') ->
    step (mkSystem r (l ++ Holding s :: l') d) (mkSystem r' (l ++ Holding s' :: l') d)
| step_nickname r r' l l' d s s' names preferred pick e :
    reserve_nickname_with_preference names preferred pick s r = (e, s', r') ->
    step (mkSystem r (l ++ Holding s :: l') d) (mkSystem r' (l ++ Holding s' :: l') d)
| step_commit r l l' d s m thread_id :
    agent_id m = Some thread_id -> agent_path m = reserved_agent_path s ->
    step (mkSystem r (l ++ Holding s :: l') d)
         (mkSystem (commit thread_text m r) (l ++ l') (Nat.b2n (counted_thread thread_id r) + d))
| step_drop r l l' d s :
    step (mkSystem r (l ++ Holding s :: l') d) (mkSystem (release_reservation_path s r) (l ++ Decrementing :: l') d)
| step_release r r' ts d thread_id removed :
    remove_spawned_thread thread_id r = (removed, r') ->
    step (mkSystem r ts d) (mkSystem r' (ts ++ (if removed : bool then [Decrementing] else [])) d)
| step_decrement r l l' d :
    step (mkSystem r (l ++ Decrementing :: l') d) (mkSystem (decrement_spawned r) (l ++ l') d)
| step_root r ts d thread_id :
    (forall a, thread_paths r !! thread_id = Some a -> path a = ROOT) ->
    step (mkSystem r ts d) (mkSystem (register_root_thread thread_id r) ts d)
| step_evict r ts d thread_id environments :
    step (mkSystem r ts d) (mkSystem (save_evicted_environments thread_id environments r) ts d)
| step_restore r ts d thread_id :
    step (mkSystem r ts d) (mkSystem (clear_evicted_environments thread_id r) ts d).

(** ** The invariant *)

Record consistent (r : Registry) (ts : list task) (d : nat) : Prop := {
  consistent_thread t a :
    thread_paths r !! t = Some a -> exists m, agent_tree r !! path a = Some m /\ agent_id m = Some t;
  consistent_tree k m t :
    agent_tree r !! k = Some m -> agent_id m = Some t -> exists a, thread_paths r !! t = Some a /\ path a = k;
  consistent_key k m :
    agent_tree r !! k = Some m ->
    match agent_path m with
    | Some p => k = p /\ from_string p = Ok p
    | None => exists t, agent_id m = Some t /\ k = lit "thread:" ++ thread_text t
    end;
  consistent_pending k m : agent_tree r !! k = Some m -> agent_id m = None -> k ∈ reserved_paths ts;
  consistent_reserved p :
    p ∈ reserved_paths ts ->
    exists m, agent_tree r !! p = Some m /\ agent_id m = None /\ is_root p = false;
  consistent_nodup : NoDup (reserved_paths ts);
  consistent_count :
    total_count r = N.of_nat (task_slots ts + length (live_agents r) + d) mod usize_size
}.

Lemma reservations_app l l' : reservations (l ++ l') = reservations l ++ reservations l'.
Proof. apply omap_app. Qed.

Lemma reserved_paths_app l l' : reserved_paths (l ++ l') = reserved_paths l ++ reserved_paths l'.
Proof. unfold reserved_paths. by rewrite reservations_app, omap_app. Qed.

Lemma task_slots_middle l t l' : task_slots (l ++ t :: l') = (task_slot t + task_slots (l ++ l'))%nat.
Proof. unfold task_slots. rewrite !sum_list_with_app. cbn. lia. Qed.

Lemma task_slots_split ts : task_slots ts = (length (reservations ts) + decrements ts)%nat.
Proof.
  unfold task_slots, decrements. induction ts as [|t ts IH]; [done|]. cbn [sum_list_with]. rewrite IH.
  destruct t as [max c|s|].
  - done.
  - done.
  - change (reservations (Decrementing :: ts)) with (reservations ts). cbn. lia.
Qed.

(** How tasks change what is reserved. *)
Lemma reserved_middle l s l' :
  reservations (l ++ Holding s :: l') ≡ₚ s :: reservations (l ++ l')
  /\ reserved_paths (l ++ Holding s :: l') ≡ₚ option_list (reserved_agent_path s) ++ reserved_paths (l ++ l').
Proof.
  assert (H : reservations (l ++ Holding s :: l') ≡ₚ s :: reservations (l ++ l')).
  { rewrite !reservations_app. cbn. by rewrite Permutation_middle. }
  split; [done|]. unfold reserved_paths. rewrite H. cbn. by destruct (reserved_agent_path s).
Qed.

Lemma not_holding_middle l t l' :
  (forall s, t <> Holding s) -> reserved_paths (l ++ t :: l') = reserved_paths (l ++ l').
Proof. intros Ht. unfold reserved_paths. rewrite !reservations_app. by destruct t as [| s |]; [|destruct (Ht s)|]. Qed.

(** The invariant looks at the indexes, the count and the reservations only. *)
Lemma consistent_ext r r' ts ts' d d' :
  consistent r ts d -> agent_tree r' = agent_tree r ->
  (forall t, path <$> thread_paths r' !! t = path <$> thread_paths r !! t) ->
  reserved_paths ts' ≡ₚ reserved_paths ts ->
  total_count r' = N.of_nat (task_slots ts' + length (live_agents r) + d') mod usize_size ->
  consistent r' ts' d'.
Proof.
  intros [H1 H2 H3 H4 H5 H6 H7] Ht Hp Hr Hc.
  assert (Hp' : forall t a, thread_paths r' !! t = Some a -> exists b, thread_paths r !! t = Some b /\ path b = path a).
  { intros t a E. specialize (Hp t). rewrite E in Hp. destruct (thread_paths r !! t) as [b|]; [|done].
    exists b. split; [done|]. by injection Hp. }
  split; rewrite ?Ht.
  - intros t a E. destruct (Hp' t a E) as (b & Eb & <-). by apply (H1 t b).
  - intros k m t E Ei. destruct (H2 k m t E Ei) as (a & Ea & <-). specialize (Hp t). rewrite Ea in Hp.
    destruct (thread_paths r' !! t) as [b|]; [|done]. exists b. split; [done|]. by injection Hp.
  - exact H3.
  - intros k m E Ei. rewrite Hr. by eapply H4.
  - intros p Hin. rewrite Hr in Hin. by apply H5.
  - by rewrite Hr.
  - rewrite Hc. unfold live_agents. by rewrite Ht.
Qed.

(** A task gives up a slot, and the count is decremented. *)
Lemma slot_count_sub r ts n d :
  total_count r = N.of_nat (S (task_slots ts) + n + d) mod usize_size ->
  count_sub (total_count r) = N.of_nat (task_slots ts + n + d) mod usize_size.
Proof.
  intros ->. replace (N.of_nat (S (task_slots ts) + n + d)) with (N.of_nat (task_slots ts + n + d) + 1) by lia.
  apply count_sub_mod.
Qed.

(** *** Operations *)

Lemma not_live_pending m : agent_id m = None -> is_live m = false.
Proof. intros E. unfold is_live. by rewrite E. Qed.

Lemma reserve_path_consistent r r' l l' d s s' p :
  consistent r (l ++ Holding s :: l') d -> reserved_agent_path s = None ->
  from_string p = Ok p -> is_root p = false -> reservation_reserve_path p s r = (Ok tt, s', r') ->
  consistent r' (l ++ Holding s' :: l') d.
Proof.
  intros [H1 H2 H3 H4 H5 H6 H7] Es Hp Hroot. unfold reservation_reserve_path, reserve_agent_path.
  destruct (agent_tree r !! p) as [m0|] eqn:Ep; [done|]. intros [= <- <-].
  destruct (reserved_middle l s l') as [Hn Hr]. rewrite Es in Hr. cbn in Hr.
  destruct (reserved_middle l (mkReservation (reserved_agent_nickname s) (Some p)) l') as [Hn' Hr']. cbn in Hr'.
  assert (Hfresh : p ∉ reserved_paths (l ++ l')).
  { intros Hin. rewrite <- Hr in Hin. destruct (H5 p Hin) as (m & Em & _). congruence. }
  split; cbn [agent_tree thread_paths with_tree total_count].
  - intros t a E. destruct (H1 t a E) as (m & Em & Ei). exists m. rewrite lookup_insert_ne by congruence. done.
  - intros k m t E Ei. destruct (decide (k = p)) as [->|Hne].
    + rewrite lookup_insert_eq in E. by injection E as <-.
    + rewrite lookup_insert_ne in E by done. by eapply H2.
  - intros k m E. destruct (decide (k = p)) as [->|Hne].
    + rewrite lookup_insert_eq in E. by injection E as <-.
    + rewrite lookup_insert_ne in E by done. by eapply H3.
  - intros k m E Ei. rewrite Hr'. destruct (decide (k = p)) as [->|Hne]; [by left|].
    rewrite lookup_insert_ne in E by done. right. rewrite <- Hr. by eapply H4.
  - intros q Hq. rewrite Hr', elem_of_cons in Hq. destruct Hq as [->|Hq].
    + eexists. by rewrite lookup_insert_eq.
    + rewrite <- Hr in Hq. destruct (H5 q Hq) as (m & Em & ?). exists m.
      rewrite lookup_insert_ne by congruence. done.
  - rewrite Hr'. constructor; [done|]. by rewrite <- Hr.
  - rewrite H7, !task_slots_middle. cbn [task_slot]. do 2 f_equal. f_equal. f_equal.
    apply Permutation_length. symmetry. exact (live_list_insert _ _ _ Ep).
Qed.

Lemma drop_consistent r l l' d s :
  consistent r (l ++ Holding s :: l') d -> consistent (release_reservation_path s r) (l ++ Decrementing :: l') d.
Proof.
  intros Hc. destruct (reserved_middle l s l') as [_ Hr]. unfold release_reservation_path.
  assert (Hr' : reserved_paths (l ++ Decrementing :: l') = reserved_paths (l ++ l')) by (by apply not_holding_middle).
  assert (Hslots : task_slots (l ++ Decrementing :: l') = task_slots (l ++ Holding s :: l'))
    by (by rewrite !task_slots_middle).
  destruct (reserved_agent_path s) as [p|] eqn:Es; cbn in Hr.
  - destruct Hc as [H1 H2 H3 H4 H5 H6 H7]. rewrite Hr in H6. apply NoDup_cons in H6 as [Hp H6].
    destruct (H5 p) as (m & Em & Ei & Hroot); [rewrite Hr; left|].
    unfold release_reserved_agent_path. rewrite Em, Ei. cbn [is_some].
    split; rewrite ?Hr', ?Hslots; cbn [agent_tree thread_paths with_tree total_count].
    + intros t a E. destruct (H1 t a E) as (m' & Em' & Ei'). exists m'.
      rewrite lookup_delete_ne by congruence. done.
    + intros k m' t E Ei'. apply lookup_delete_Some in E as [_ E]. by eapply H2.
    + intros k m' E. apply lookup_delete_Some in E as [_ E]. by apply H3.
    + intros k m' E Ei'. apply lookup_delete_Some in E as [Hne E]. specialize (H4 k m' E Ei').
      rewrite Hr, elem_of_cons in H4. destruct H4 as [->|]; done.
    + intros q Hq. destruct (H5 q) as (m' & Em' & ?); [rewrite Hr; by right|]. exists m'.
      rewrite lookup_delete_ne; [done|]. by intros ->.
    + done.
    + rewrite H7. do 4 f_equal. apply Permutation_length.
      pose proof (live_list_delete _ _ _ Em) as Hl. rewrite (not_live_pending m Ei) in Hl. exact Hl.
  - apply (consistent_ext r _ (l ++ Holding s :: l') _ d); [done|done|done|by rewrite Hr, Hr'|].
    rewrite Hslots. apply (consistent_count _ _ _ Hc).
Qed.

Lemma decrement_consistent r l l' d :
  consistent r (l ++ Decrementing :: l') d -> consistent (decrement_spawned r) (l ++ l') d.
Proof.
  intros Hc. apply (consistent_ext r _ (l ++ Decrementing :: l') _ d); [done..| |].
  - by rewrite (not_holding_middle l Decrementing l').
  - cbn [total_count decrement_spawned with_count]. apply slot_count_sub.
    rewrite (consistent_count _ _ _ Hc), task_slots_middle. done.
Qed.

(** What is removed under the lock leaves the tree, and its slot is owed. *)
Lemma remove_live r ts d thread_id removed r' :
  consistent r ts d -> remove_spawned_thread thread_id r = (removed, r') ->
  removed = counted_thread thread_id r
  /\ length (live_agents r) = (Nat.b2n removed + length (live_agents r'))%nat.
Proof.
  intros Hc. unfold remove_spawned_thread, counted_thread, agent_metadata_for_thread.
  destruct (thread_paths r !! thread_id) as [a|] eqn:Ea; [|by intros [= <- <-]]. cbn [agent_tree with_threads mbind option_bind].
  destruct (consistent_thread _ _ _ Hc thread_id a Ea) as (m & Em & Ei). rewrite Em. intros [= <- <-]. split; [done|].
  transitivity (length ((if is_live m then [m] else []) ++ live_list (delete (path a) (agent_tree r)))).
  - apply Permutation_length. exact (live_list_delete _ _ _ Em).
  - unfold is_live. rewrite Ei. cbn. by destruct (md_is_root m).
Qed.

Lemma remove_consistent r ts d thread_id removed r' :
  consistent r ts d -> remove_spawned_thread thread_id r = (removed, r') ->
  consistent r' ts (Nat.b2n removed + d) /\ thread_paths r' !! thread_id = None.
Proof.
  intros Hc E. destruct (remove_live _ _ _ _ _ _ Hc E) as [_ Hlive]. revert E.
  pose proof Hc as [H1 H2 H3 H4 H5 H6 H7]. unfold remove_spawned_thread.
  destruct (thread_paths r !! thread_id) as [a|] eqn:Ea; [|by intros [= <- <-]]. cbn [agent_tree with_threads].
  destruct (H1 thread_id a Ea) as (m & Em & Ei). rewrite Em. intros [= <- <-].
  split; [|cbn; apply lookup_delete_eq].
  split; cbn [agent_tree thread_paths with_tree with_threads total_count].
  - intros t b E. apply lookup_delete_Some in E as [Hne E]. destruct (H1 t b E) as (m' & Em' & Ei').
    exists m'. rewrite lookup_delete_ne; [done|]. intros Hp. rewrite <- Hp, Em in Em'. congruence.
  - intros k m' t E Ei'. apply lookup_delete_Some in E as [Hne E]. destruct (H2 k m' t E Ei') as (b & Eb & <-).
    exists b. split; [|done]. rewrite lookup_delete_ne; [done|]. intros <-. congruence.
  - intros k m' E. apply lookup_delete_Some in E as [_ E]. by apply H3.
  - intros k m' E Ei'. apply lookup_delete_Some in E as [_ E]. by eapply H4.
  - intros q Hq. destruct (H5 q Hq) as (m' & Em' & Ei' & ?). exists m'.
    rewrite lookup_delete_ne; [done|]. intros <-. congruence.
  - done.
  - rewrite H7, Hlive. do 2 f_equal. lia.
Qed.

Lemma release_consistent r ts d thread_id removed r' :
  consistent r ts d -> remove_spawned_thread thread_id r = (removed, r') ->
  consistent r' (ts ++ (if removed then [Decrementing] else [])) d.
Proof.
  intros Hc E. destruct (remove_consistent _ _ _ _ _ _ Hc E) as [Hc' _].
  destruct removed; [|by rewrite app_nil_r].
  apply (consistent_ext r' _ ts _ _ _ Hc'); [done|done| |].
  - by rewrite not_holding_middle, app_nil_r.
  - rewrite (consistent_count _ _ _ Hc'), task_slots_middle, app_nil_r. cbn [task_slot Nat.b2n]. do 2 f_equal. lia.
Qed.

Lemma agent_path_slash p : from_string p = Ok p -> exists s, p = c_slash :: s.
Proof. intros [->|(ns & _ & ->)]%agent_path_grammar; eexists; reflexivity. Qed.

Lemma root_consistent r ts d thread_id :
  consistent r ts d -> (forall a, thread_paths r !! thread_id = Some a -> path a = ROOT) ->
  consistent (register_root_thread thread_id r) ts d.
Proof.
  intros Hc Hfree. pose proof Hc as [H1 H2 H3 H4 H5 H6 H7]. unfold register_root_thread. cbn zeta.
  destruct (agent_tree r !! ROOT) as [m|] eqn:Er; cbn [from_option id].
  - destruct (agent_id m) as [t|] eqn:Ei.
    + destruct (H2 ROOT m t Er Ei) as (a & Ea & Hp). apply (consistent_ext r _ ts _ d); [done| | |done|exact H7].
      * cbn. by apply insert_id.
      * cbn. intros t'. destruct (decide (t' = t)) as [->|Hne]; [|by rewrite lookup_insert_ne].
        rewrite lookup_insert_eq, Ea. cbn. by rewrite Hp.
    + destruct (H5 ROOT) as (m' & _ & _ & Hroot); [by eapply H4|done].
  - assert (Hnone : thread_paths r !! thread_id = None).
    { destruct (thread_paths r !! thread_id) as [a|] eqn:Ea; [|done].
      destruct (H1 _ _ Ea) as (m & Em & _). rewrite (Hfree a eq_refl) in Em. congruence. }
    cbn [agent_id]. split; cbn [agent_tree thread_paths with_tree with_threads total_count].
    + intros t a E. destruct (decide (t = thread_id)) as [->|Hne].
      * rewrite lookup_insert_eq in E. injection E as <-. eexists. by rewrite lookup_insert_eq.
      * rewrite lookup_insert_ne in E by done. destruct (H1 t a E) as (m & Em & Ei). exists m.
        rewrite lookup_insert_ne; [done|]. intros Hk. congruence.
    + intros k m t E Ei. destruct (decide (k = ROOT)) as [->|Hne].
      * rewrite lookup_insert_eq in E. injection E as <-. injection Ei as <-. eexists. by rewrite lookup_insert_eq.
      * rewrite lookup_insert_ne in E by done. destruct (H2 k m t E Ei) as (a & Ea & Hp). exists a. split; [|done].
        rewrite lookup_insert_ne; [done|]. intros <-. congruence.
    + intros k m E. destruct (decide (k = ROOT)) as [->|Hne].
      * rewrite lookup_insert_eq in E. by injection E as <-.
      * rewrite lookup_insert_ne in E by done. by apply H3.
    + intros k m E Ei. destruct (decide (k = ROOT)) as [->|Hne].
      * rewrite lookup_insert_eq in E. by injection E as <-.
      * rewrite lookup_insert_ne in E by done. by eapply H4.
    + intros q Hq. destruct (H5 q Hq) as (m & Em & Ei & Hroot). exists m.
      rewrite lookup_insert_ne; [done|]. intros <-. congruence.
    + done.
    + rewrite H7. do 4 f_equal. apply Permutation_length. symmetry. exact (live_list_insert _ _ _ Er).
Qed.

Lemma alter_path_consistent r ts d f thread_id :
  consistent r ts d -> (forall a, path (f a) = path a) ->
  consistent (with_threads r (alter f thread_id (thread_paths r))) ts d.
Proof.
  intros Hc Hf. apply (consistent_ext r _ ts _ d); [done|done| |done|apply (consistent_count _ _ _ Hc)].
  intros t. cbn. destruct (decide (t = thread_id)) as [->|Hne]; [|by rewrite lookup_alter_ne].
  rewrite lookup_alter_eq. destruct (thread_paths r !! thread_id); cbn; [by rewrite Hf|done].
Qed.

(** Reserving a nickname changes nothing else. *)
Lemma nickname_frame names preferred pick r n r' :
  reserve_agent_nickname names preferred pick r = (n, r') ->
  agent_tree r' = agent_tree r /\ thread_paths r' = thread_paths r /\ total_count r' = total_count r.
Proof.
  unfold reserve_agent_nickname. intros H. repeat break_match_in H; simplify_eq; done.
Qed.

Lemma holding_swap r l l' d s s' :
  consistent r (l ++ Holding s :: l') d -> reserved_agent_path s' = reserved_agent_path s ->
  consistent r (l ++ Holding s' :: l') d.
Proof.
  intros Hc E. destruct (reserved_middle l s l') as [_ Hr], (reserved_middle l s' l') as [_ Hr'].
  apply (consistent_ext r _ (l ++ Holding s :: l') _ d); [done|done|done|by rewrite Hr, Hr', E|].
  rewrite (consistent_count _ _ _ Hc), !task_slots_middle. done.
Qed.

Section committing.
Hypothesis thread_text_inj : forall a b, thread_text a = thread_text b -> a = b.

(** The place of a thread in the tree is vacant, or reserved for it. *)
Lemma commit_place r ts d s m thread_id :
  consistent r ts d -> option_list (reserved_agent_path s) ⊆ reserved_paths ts ->
  agent_id m = Some thread_id -> agent_path m = reserved_agent_path s ->
  thread_paths r !! thread_id = None ->
  let key := registry_key thread_text m thread_id in
  match reserved_agent_path s with
  | Some p => key = p /\ exists m0, agent_tree r !! p = Some m0 /\ agent_id m0 = None
                                   /\ is_root p = false /\ from_string p = Ok p
  | None => key = lit "thread:" ++ thread_text thread_id /\ agent_tree r !! key = None
  end.
Proof.
  intros [H1 H2 H3 H4 H5 H6 H7] Hsub Ei Ep Et key. subst key. unfold registry_key. rewrite Ep.
  destruct (reserved_agent_path s) as [p|]; cbn [default].
  - split; [done|]. destruct (H5 p) as (m0 & Em & Ei0 & Hroot); [apply Hsub; left|].
    exists m0. split; [done|]. split; [done|]. split; [done|]. specialize (H3 p m0 Em).
    destruct (agent_path m0) as [q|]; [by destruct H3 as [-> ?]|]. destruct H3 as (t & ? & _). congruence.
  - split; [done|]. destruct (agent_tree r !! (lit "thread:" ++ thread_text thread_id)) as [m0|] eqn:E; [|done].
    exfalso. specialize (H3 _ m0 E). destruct (agent_path m0) as [q|].
    + destruct H3 as [<- Hq]. apply agent_path_slash in Hq as [x Hx]. done.
    + destruct H3 as (t & Eit & Hk). apply app_inv_head, thread_text_inj in Hk as <-.
      destruct (H2 _ _ _ E Eit) as (a & Ea & _). congruence.
Qed.

(** Registering a thread that is not registered. *)
Lemma commit_new_consistent r l l' d s m thread_id :
  consistent r (l ++ Holding s :: l') d -> agent_id m = Some thread_id ->
  agent_path m = reserved_agent_path s -> thread_paths r !! thread_id = None ->
  consistent (commit thread_text m r) (l ++ l') d.
Proof.
  intros Hc Ei Ep Et. destruct (reserved_middle l s l') as [Hn Hr].
  pose proof (commit_place r _ d s m thread_id Hc ltac:(rewrite Hr; apply list_subseteq_app_l; done) Ei Ep Et) as Hplace.
  unfold commit, register_spawned_thread. rewrite Ei. set (key := registry_key thread_text m thread_id) in *.
  set (r0 := match agent_nickname m with Some n => _ | None => r end).
  assert (Hr0 : agent_tree r0 = agent_tree r /\ thread_paths r0 = thread_paths r /\ total_count r0 = total_count r)
    by (subst r0; by destruct (agent_nickname m)).
  destruct Hr0 as (Htree & Hthreads & Hcount). rewrite Hthreads, Et. cbn [agent_tree with_threads with_tree thread_paths].
  rewrite Htree.
  assert (Hold : agent_tree r !! key ≫= agent_id = None).
  { destruct (reserved_agent_path s); destruct Hplace as [Hk Hp]; [|by rewrite Hp].
    destruct Hp as (m0 & Em & Ei0 & _). rewrite Hk, Em. exact Ei0. }
  rewrite Hold. destruct Hc as [H1 H2 H3 H4 H5 H6 H7].
  assert (Hlive : is_live m = true).
  { unfold is_live, md_is_root. rewrite Ei, Ep. destruct (reserved_agent_path s); [|done].
    destruct Hplace as (_ & m0 & _ & _ & Hroot & _). cbn. by rewrite Hroot. }
  assert (Hlen : length (live_list (<[key := m]> (agent_tree r))) = S (length (live_agents r))).
  { destruct (reserved_agent_path s); destruct Hplace as [Hk Hp].
    - destruct Hp as (m0 & Em & Ei0 & _). rewrite <- Hk in Em.
      rewrite <- insert_delete_eq, (live_list_insert _ _ _ (lookup_delete_eq _ _)), Hlive. cbn. f_equal.
      pose proof (live_list_delete _ _ _ Em) as Hl. rewrite (not_live_pending m0 Ei0) in Hl.
      symmetry. apply Permutation_length. exact Hl.
    - rewrite (live_list_insert _ _ _ Hp), Hlive. done. }
  assert (Hkeys : forall t a, thread_paths r !! t = Some a -> path a <> key).
  { intros t a Ea Hk. destruct (H1 t a Ea) as (m' & Em' & Ei'). rewrite Hk in Em'. rewrite Em' in Hold. cbn in Hold. congruence. }
  split; cbn [agent_tree thread_paths with_tree with_threads total_count].
  - intros t a E. destruct (decide (t = thread_id)) as [->|Hne].
    + rewrite lookup_insert_eq in E. injection E as <-. exists m. by rewrite lookup_insert_eq.
    + rewrite lookup_insert_ne in E by done. destruct (H1 t a E) as (m' & Em' & Ei'). exists m'.
      rewrite lookup_insert_ne; [done|]. intros Hk. by apply (Hkeys t a E).
  - intros k m' t E Ei'. destruct (decide (k = key)) as [->|Hne].
    + rewrite lookup_insert_eq in E. injection E as <-. assert (t = thread_id) as -> by congruence.
      exists (new_registered key). by rewrite lookup_insert_eq.
    + rewrite lookup_insert_ne in E by done. destruct (H2 k m' t E Ei') as (a & Ea & Hp). exists a. split; [|done].
      rewrite lookup_insert_ne; [done|]. intros <-. congruence.
  - intros k m' E. destruct (decide (k = key)) as [->|Hne].
    + rewrite lookup_insert_eq in E. injection E as <-. rewrite Ep.
      destruct (reserved_agent_path s); destruct Hplace as [Hk Hp]; [by destruct Hp as (? & ? & ? & ? & ?)|by exists thread_id].
    + rewrite lookup_insert_ne in E by done. by apply H3.
  - intros k m' E Ei'. destruct (decide (k = key)) as [->|Hne].
    + rewrite lookup_insert_eq in E. injection E as <-. congruence.
    + rewrite lookup_insert_ne in E by done. specialize (H4 k m' E Ei'). rewrite Hr, elem_of_app in H4.
      destruct H4 as [H4|]; [|done]. destruct (reserved_agent_path s) as [p|]; [|by apply elem_of_nil in H4].
      apply list_elem_of_singleton in H4 as ->. by destruct Hplace as [-> _].
  - rewrite Hr in H6. apply NoDup_app in H6 as (_ & Hdisj & _). intros q Hq.
    destruct (H5 q) as (m' & Em' & Ei' & Hroot'); [rewrite Hr; apply elem_of_app; by right|]. exists m'.
    rewrite lookup_insert_ne; [done|]. intros <-. destruct (reserved_agent_path s) as [p|]; destruct Hplace as [Hk Hp].
    + apply (Hdisj key); [rewrite Hk; left|done].
    + congruence.
  - rewrite Hr in H6. by apply NoDup_app in H6 as (_ & _ & ?).
  - change (live_agents _) with (live_list (<[key := m]> (agent_tree r))). rewrite Hlen, Hcount, H7, task_slots_middle. cbn [task_slot].
    do 2 f_equal. lia.
Qed.

(** Registering a thread again is removing it and registering it. *)
Lemma commit_again r ts d m thread_id removed r' :
  consistent r ts d -> agent_id m = Some thread_id -> remove_spawned_thread thread_id r = (removed, r') ->
  commit thread_text m r = commit thread_text m r'.
Proof.
  intros Hc Ei. unfold remove_spawned_thread, commit, register_spawned_thread. rewrite Ei.
  destruct (thread_paths r !! thread_id) as [a|] eqn:Ea; [|by intros [= _ <-]].
  destruct (consistent_thread _ _ _ Hc thread_id a Ea) as (m0 & Em & Ei0). cbn [agent_tree with_threads]. rewrite Em.
  intros [= _ <-]. set (key := registry_key thread_text m thread_id).
  destruct r as [tree threads used resets count]. cbn [agent_tree thread_paths] in *.
  destruct (agent_nickname m) as [n|]; cbn; rewrite Ea, lookup_delete_eq, insert_delete_eq;
    (case_bool_decide as Hk; cbn; [done|]; rewrite Hk in Em |- *;
     rewrite Em, lookup_delete_eq, insert_delete_eq; cbn; rewrite Ei0; by rewrite bool_decide_eq_false_2 by (by intros [])).
Qed.

Lemma commit_consistent r l l' d s m thread_id :
  consistent r (l ++ Holding s :: l') d -> agent_id m = Some thread_id ->
  agent_path m = reserved_agent_path s ->
  consistent (commit thread_text m r) (l ++ l') (Nat.b2n (counted_thread thread_id r) + d).
Proof.
  intros Hc Ei Ep. destruct (remove_spawned_thread thread_id r) as [removed r'] eqn:E.
  rewrite (commit_again _ _ _ _ _ _ _ Hc Ei E). destruct (remove_live _ _ _ _ _ _ Hc E) as [<- _].
  destruct (remove_consistent _ _ _ _ _ _ Hc E) as [Hc' Hnone]. by eapply commit_new_consistent.
Qed.

Lemma increment_turn_inv max current count n :
  try_increment_turn max current count = Incremented n -> current < max /\ count = current /\ n = count_add current.
Proof.
  unfold try_increment_turn. destruct (N.leb_spec max current); [done|].
  destruct (N.eqb_spec count current); [|done]. by intros [= <-].
Qed.

Lemma reserved_count r ts ts' d :
  consistent r ts d -> reserved_paths ts' ≡ₚ reserved_paths ts ->
  task_slots ts' = S (task_slots ts) ->
  consistent (with_count r (count_add (total_count r))) ts' d.
Proof.
  intros Hc Hr Hn. apply (consistent_ext r _ ts _ d _ Hc); [done|done|done|].
  cbn [total_count with_count]. rewrite (consistent_count _ _ _ Hc), count_add_mod, Hn. f_equal. lia.
Qed.

(** Tasks that change without touching the registry. *)
Lemma tasks_consistent r ts ts' d :
  consistent r ts d -> reserved_paths ts' ≡ₚ reserved_paths ts -> task_slots ts' = task_slots ts -> consistent r ts' d.
Proof.
  intros Hc Hr Hn. apply (consistent_ext r _ ts _ d _ Hc); [done|done|done|]. rewrite Hn. apply (consistent_count _ _ _ Hc).
Qed.

Definition good (sys : system) : Prop := consistent (registry sys) (tasks sys) (displaced sys).

Lemma step_consistent sys sys' : step sys sys' -> good sys -> good sys'.
Proof.
  intros Hs. destruct Hs as [r ts d max|r l l' d max current H|r l l' d max current n H|r l l' d max current H|r ts d
    |r r' l l' d s s' p Hnone Hp Hroot H|r r' l l' d s s' names preferred pick e H|r l l' d s m t Ei Ep|r l l' d s
    |r r' ts d t removed H|r l l' d|r ts d t H|r ts d t environments|r ts d t];
    unfold good; cbn [registry tasks displaced]; intros Hc.
  - apply (tasks_consistent _ _ _ _ Hc); [by rewrite not_holding_middle, app_nil_r|by rewrite task_slots_middle, app_nil_r].
  - apply (tasks_consistent _ _ _ _ Hc); [by rewrite (not_holding_middle l _ l')|by rewrite (task_slots_middle l _ l')].
  - apply increment_turn_inv in H as (_ & <- & ->). destruct (reserved_middle l new_reservation l') as [_ Hr'].
    apply (reserved_count r _ _ _ Hc); [by rewrite Hr', not_holding_middle|by rewrite !task_slots_middle].
  - apply (tasks_consistent _ _ _ _ Hc); [by rewrite !not_holding_middle|by rewrite !task_slots_middle].
  - destruct (reserved_middle ts new_reservation []) as [_ Hr]. rewrite app_nil_r in Hr.
    apply (reserved_count r _ _ _ Hc); [by rewrite Hr|by rewrite task_slots_middle, app_nil_r].
  - by eapply reserve_path_consistent.
  - unfold reserve_nickname_with_preference in H. destruct (reserve_agent_nickname _ _ _ _) as [n rn] eqn:E.
    destruct (nickname_frame _ _ _ _ _ _ E) as (Ht & Hp & Hcount).
    assert (Hrn : consistent rn (l ++ Holding s :: l') d).
    { apply (consistent_ext r _ _ _ d _ Hc); [done|by intros t; rewrite Hp|done|]. rewrite Hcount. apply (consistent_count _ _ _ Hc). }
    destruct n as [n|]; simplify_eq; [by eapply holding_swap|done].
  - by eapply commit_consistent.
  - by apply drop_consistent.
  - by eapply release_consistent.
  - by apply decrement_consistent.
  - by apply root_consistent.
  - by apply alter_path_consistent.
  - by apply alter_path_consistent.
Qed.

Lemma default_consistent : consistent default_registry [] 0.
Proof. split; cbn; try done. - intros p Hp. by apply elem_of_nil in Hp. - constructor. Qed.

Definition start : system := mkSystem default_registry [] 0.

Lemma reachable_consistent sys : rtc step start sys -> good sys.
Proof.
  assert (H0 : good start) by apply default_consistent. revert H0.
  generalize start. intros s0 H0 Hs. induction Hs as [|x y z Hxy _ IH]; [done|]. by eapply IH, step_consistent.
Qed.
End committing.

(** C19: In every interleaving of the tasks of a session the count of sub-agents is
    the number of reservations that are held, of sub-agents that are registered, and of
    slots that were given up and are yet to be decremented: by a task between the
    removal under the lock and the decrement, and of registrations that a later one of
    the same thread replaced, whose slots are not given back.  Failed spawns and
    released agents give their slots back. *)
Theorem slots_accounted_for sys :
  (forall a b, thread_text a = thread_text b -> a = b) -> rtc step start sys ->
  total_count (registry sys)
  = N.of_nat (length (reservations (tasks sys)) + length (live_agents (registry sys))
              + decrements (tasks sys) + displaced sys) mod usize_size.
Proof.
  intros Hinj Hs. rewrite (consistent_count _ _ _ (reachable_consistent Hinj sys Hs)), task_slots_split.
  do 2 f_equal. lia.
Qed.

(** The two indexes of the registry agree in every reachable state: the thread
    of a path is the one whose metadata has that path. *)
Theorem agent_indexes_agree sys p t :
  (forall a b, thread_text a = thread_text b -> a = b) -> rtc step start sys -> from_string p = Ok p ->
  agent_id_for_path p (registry sys) = Some t
  <-> exists m, agent_metadata_for_thread t (registry sys) = Some m /\ agent_path m = Some p.
Proof.
  intros Hinj Hs Hp. destruct (reachable_consistent Hinj sys Hs) as [H1 H2 H3 _ _ _ _].
  unfold agent_id_for_path, agent_metadata_for_thread. split.
  - destruct (agent_tree (registry sys) !! p) as [m|] eqn:E; [|done]. cbn. intros Ei.
    destruct (H2 p m t E Ei) as (a & -> & Hpa). exists m. cbn. rewrite Hpa. split; [done|].
    specialize (H3 p m E). destruct (agent_path m) as [q|]; [by destruct H3 as [-> _]|].
    destruct H3 as (t' & _ & Hk). apply agent_path_slash in Hp as [x ->]. done.
  - intros (m & Hm & Hpm). destruct (thread_paths (registry sys) !! t) as [a|] eqn:Ea; [|done]. cbn in Hm.
    destruct (H1 t a Ea) as (m' & Em' & Ei). assert (m' = m) as -> by congruence.
    specialize (H3 _ m Hm). rewrite Hpm in H3. destruct H3 as [Hk _]. rewrite <- Hk, Hm. exact Ei.
Qed.
End registry.

(** ** The limit *)

Lemma live_list_insert_le t k m :
  (length (live_list (<[k := m]> t)) <= (if is_live m then 1 else 0) + length (live_list t))%nat.
Proof.
  destruct (t !! k) as [m0|] eqn:E.
  - rewrite <- insert_delete_eq, (live_list_insert _ _ _ (lookup_delete_eq _ _)), (live_list_delete _ _ _ E), !length_app.
    destruct (is_live m), (is_live m0); cbn; lia.
  - rewrite (live_list_insert _ _ _ E), length_app. by destruct (is_live m).
Qed.

Lemma live_list_delete_le t k : (length (live_list (delete k t)) <= length (live_list t))%nat.
Proof.
  destruct (t !! k) as [m|] eqn:E; [rewrite (live_list_delete _ _ _ E), length_app; lia|].
  by rewrite (delete_id _ _ E).
Qed.

Section limit.
Context {Env : Type} (thread_text : ThreadId -> rstr) (limits : option N -> Prop).
Implicit Types r : @AgentRegistry Env.

(** The slots that are taken, or not yet given back. *)
Definition slots_of (sys : @system Env) : nat :=
  (task_slots (tasks sys) + length (live_agents (registry sys)) + displaced sys)%nat.

Lemma commit_live m r : (length (live_agents (commit thread_text m r)) <= S (length (live_agents r)))%nat.
Proof.
  unfold commit, register_spawned_thread. destruct (agent_id m) as [t|]; [|lia].
  set (r0 := match agent_nickname m with Some n => _ | None => r end).
  assert (Hr0 : agent_tree r0 = agent_tree r) by (subst r0; by destruct (agent_nickname m)).
  set (r1 := match thread_paths r0 !! t with Some _ => _ | None => _ end).
  assert (Hr1 : (length (live_list (agent_tree r1)) <= length (live_list (agent_tree r)))%nat).
  { subst r1. destruct (thread_paths r0 !! t) as [a|]; [|cbn; by rewrite Hr0].
    case_bool_decide; cbn; rewrite Hr0; [apply live_list_delete_le|done]. }
  transitivity (length (live_list (<[registry_key thread_text m t := m]> (agent_tree r1)))).
  - destruct (agent_tree r1 !! _ ≫= agent_id) as [t'|]; [|done]. by case_bool_decide.
  - etransitivity; [apply live_list_insert_le|]. change (live_agents r) with (live_list (agent_tree r)).
    destruct (is_live m); lia.
Qed.

(** A step takes at most one slot more, and only by an increment. *)
Lemma step_slots sys sys' :
  step thread_text limits sys sys' -> good thread_text sys ->
  (slots_of sys' <= slots_of sys)%nat
  \/ limits None
  \/ exists max current, Incrementing max current ∈ tasks sys /\ total_count (registry sys) < max
       /\ slots_of sys' = S (slots_of sys).
Proof.
  intros Hs. unfold slots_of. destruct Hs as [r ts d max|r l l' d max current H|r l l' d max current n H
    |r l l' d max current H|r ts d|r r' l l' d s s' p Hnone Hp Hroot H|r r' l l' d s s' names preferred pick e H
    |r l l' d s m t Ei Ep|r l l' d s|r r' ts d t removed H|r l l' d|r ts d t H|r ts d t environments|r ts d t];
    unfold good; cbn [registry tasks displaced]; intros Hc.
  - left. by rewrite task_slots_middle, app_nil_r.
  - left. by rewrite (task_slots_middle l _ l').
  - right. right. apply increment_turn_inv in H as (Hlt & <- & ->). exists max, (total_count r).
    split; [apply elem_of_app; right; left|]. split; [done|]. by rewrite !task_slots_middle.
  - left. by rewrite !task_slots_middle.
  - right. by left.
  - left. unfold reservation_reserve_path, reserve_agent_path in H.
    destruct (agent_tree r !! p); [done|]. injection H as <- <-. rewrite !task_slots_middle.
    pose proof (live_list_insert_le (agent_tree r) p (mkMetadata None (Some p) None None)) as Hl. cbn in Hl.
    apply Nat.add_le_mono_r, Nat.add_le_mono_l. exact Hl.
  - left. unfold reserve_nickname_with_preference in H. destruct (reserve_agent_nickname _ _ _ _) as [n rn] eqn:E.
    destruct (nickname_frame _ _ _ _ _ _ E) as (Ht & _ & _). rewrite !task_slots_middle.
    unfold live_agents. destruct n; simplify_eq; by rewrite Ht.
  - left. destruct (remove_spawned_thread t r) as [removed r'] eqn:E.
    rewrite (commit_again _ _ _ _ _ _ _ _ Hc Ei E). destruct (remove_live _ _ _ _ _ _ _ Hc E) as [<- Hl].
    rewrite task_slots_middle, Hl. cbn [task_slot]. pose proof (commit_live m r'). lia.
  - left. rewrite !task_slots_middle. apply Nat.add_le_mono_r, Nat.add_le_mono_l.
    unfold release_reservation_path. destruct (reserved_agent_path s) as [p|]; [|done]. unfold release_reserved_agent_path.
    destruct (agent_tree r !! p) as [m|]; [|done]. destruct (is_some (agent_id m)); [done|]. apply live_list_delete_le.
  - left. destruct (remove_live _ _ _ _ _ _ _ Hc H) as [_ Hl]. rewrite Hl.
    destruct removed; rewrite ?task_slots_middle, app_nil_r; cbn [task_slot Nat.b2n]; lia.
  - left. rewrite (task_slots_middle l _ l'). cbn [task_slot]. change (live_agents (decrement_spawned r)) with (live_agents r). lia.
  - left. apply Nat.add_le_mono_r, Nat.add_le_mono_l. unfold register_root_thread. cbn zeta.
    transitivity (length (live_list (<[ROOT := from_option id (mkMetadata (Some t) (Some ROOT) None None) (agent_tree r !! ROOT)]> (agent_tree r)))).
    { by destruct (agent_id _). }
    destruct (agent_tree r !! ROOT) as [m|] eqn:E; cbn [from_option id]; [by rewrite insert_id|].
    etransitivity; [apply live_list_insert_le|]. done.
  - by left.
  - by left.
Qed.
End limit.

Lemma step_limits {Env} thread_text (max : N) (sys sys' : @system Env) :
  step thread_text (fun l => l = Some max) sys sys' ->
  (forall m c, Incrementing m c ∈ tasks sys -> m = max) -> forall m c, Incrementing m c ∈ tasks sys' -> m = max.
Proof.
  intros Hs H m c. assert (Hsub : forall l l' t, Incrementing m c ∈ l ++ l' -> Incrementing m c ∈ l ++ t :: l').
  { intros l l' t. rewrite !elem_of_app, elem_of_cons. tauto. }
  destruct Hs as [r ts d max'|r l l' d max' current E|r l l' d max' current n E|r l l' d max' current E|r ts d
    |r r' l l' d s s' p Hnone Hp Hroot E|r r' l l' d s s' names preferred pick e E|r l l' d s m' t Ei Ep|r l l' d s
    |r r' ts d t removed E|r l l' d|r ts d t E|r ts d t environments|r ts d t]; cbn [tasks] in *;
    rewrite ?elem_of_app, ?elem_of_cons, ?elem_of_nil.
  - intros [Hin|[[= -> ->]|[]]]; [by eapply H|]. congruence.
  - intros Hin. apply (H m c), Hsub. by apply elem_of_app.
  - intros [Hin|[?|Hin]]; [|done|]; (apply (H m c), Hsub, elem_of_app; auto).
  - intros [Hin|[[= -> ->]|Hin]]; [apply (H m c), Hsub, elem_of_app; auto| |apply (H m c), Hsub, elem_of_app; auto].
    apply (H max' current), elem_of_app. right. left.
  - intros [Hin|[?|[]]]; [by eapply H|done].
  - intros [Hin|[?|Hin]]; [|done|]; (apply (H m c), Hsub, elem_of_app; auto).
  - intros [Hin|[?|Hin]]; [|done|]; (apply (H m c), Hsub, elem_of_app; auto).
  - intros Hin. apply (H m c), Hsub. by apply elem_of_app.
  - intros [Hin|[?|Hin]]; [|done|]; (apply (H m c), Hsub, elem_of_app; auto).
  - intros [Hin|Hin]; [by eapply H|]. destruct removed; [|by apply elem_of_nil in Hin].
    by apply list_elem_of_singleton in Hin.
  - intros Hin. apply (H m c), Hsub. by apply elem_of_app.
  - apply H.
  - apply H.
  - apply H.
Qed.

(** C34: When every spawn is started with the same limit, the reservations that are
    held and the sub-agents that are registered never exceed it, however the
    increments of several tasks interleave. *)
Theorem agent_limit_respected {Env} thread_text (max : N) (sys : @system Env) :
  (forall a b, thread_text a = thread_text b -> a = b) -> max < usize_size ->
  rtc (step thread_text (fun l => l = Some max)) start sys ->
  N.of_nat (length (reservations (tasks sys)) + length (live_agents (registry sys))) <= max.
Proof.
  intros Hinj Hmax Hs.
  assert (Hall : good thread_text sys /\ (forall m c, Incrementing m c ∈ tasks sys -> m = max)
    /\ N.of_nat (slots_of sys) <= max).
  { assert (H0 : good thread_text (@start Env) /\ (forall m c, Incrementing m c ∈ tasks (@start Env) -> m = max)
      /\ N.of_nat (slots_of (@start Env)) <= max).
    { split; [apply default_consistent|]. split; [intros m c Hin; by apply elem_of_nil in Hin|]. apply N.le_0_l. }
    revert H0. generalize dependent (@start Env). intros s0 Hs. induction Hs as [|x y z Hxy _ IH]; [done|].
    intros (Hc & Ht & Hn). apply IH. split; [by eapply step_consistent|]. split; [by eapply step_limits|].
    destruct (step_slots _ _ _ _ Hxy Hc) as [Hle|[?|(m & c & Hin & Hlt & Heq)]]; [lia|done|].
    rewrite (Ht m c Hin), (consistent_count _ _ _ _ Hc), N.mod_small in Hlt by (unfold slots_of in Hn; lia).
    rewrite Heq. unfold slots_of in *. lia. }
  destruct Hall as (_ & _ & Hn). unfold slots_of in Hn. rewrite task_slots_split in Hn. lia.
Qed.

(** ** Failed spawns *)

Lemma count_sub_add n : n < usize_size -> count_sub (count_add n) = n.
Proof.
  intros H. unfold count_add. rewrite count_sub_mod. by apply N.mod_small.
Qed.

Lemma reserve_spawn_slot_Ok {Env} limit (r : @AgentRegistry Env) s r1 :
  reserve_spawn_slot limit r = (Ok s, r1) -> s = new_reservation /\ r1 = with_count r (count_add (total_count r)).
Proof.
  unfold reserve_spawn_slot. destruct limit as [max|]; [|by intros [= <- <-]].
  destruct (try_increment_spawned max r) as [b r'] eqn:E. destruct b; [|done]. intros [= <- <-].
  unfold try_increment_spawned in E. destruct (try_increment_turn _ _ _) as [|n|] eqn:Et; simplify_eq.
  by apply increment_turn_inv in Et as (_ & _ & ->).
Qed.

(** C32: A spawn that fails after its slot, path and nickname were reserved leaves
    the registered agents and the count as they were, whatever step it failed at;
    only the nickname stays used. *)
Theorem failed_spawn_leaves_no_trace {Env} limit candidates p role preferred pick
    (r : @AgentRegistry Env) s r1 res s2 r2 :
  total_count r < usize_size -> reserve_spawn_slot limit r = (Ok s, r1) ->
  prepare_agent_metadata candidates p role preferred pick s r1 = (res, s2, r2) ->
  agent_tree (drop_reservation s2 r2) = agent_tree r
  /\ thread_paths (drop_reservation s2 r2) = thread_paths r
  /\ total_count (drop_reservation s2 r2) = total_count r.
Proof.
  intros Hlt Hslot Hprep. apply reserve_spawn_slot_Ok in Hslot as [-> ->]. unfold prepare_agent_metadata in Hprep.
  set (r0 := with_count r (count_add (total_count r))) in *.
  assert (Hnick : forall s0 (q : @AgentRegistry Env) e s1 q1,
    reserve_nickname_with_preference candidates preferred pick s0 q = (e, s1, q1) ->
    agent_tree q1 = agent_tree q /\ thread_paths q1 = thread_paths q /\ total_count q1 = total_count q
    /\ reserved_agent_path s1 = reserved_agent_path s0).
  { intros s0 q e s1 q1. unfold reserve_nickname_with_preference.
    destruct (reserve_agent_nickname _ _ _ _) as [n q'] eqn:E. apply nickname_frame in E as (? & ? & ?).
    destruct n; by intros [= _ <- <-]. }
  destruct p as [p|].
  - unfold reservation_reserve_path, reserve_agent_path in Hprep.
    destruct (agent_tree r0 !! p) as [m|] eqn:Ep; cbn [from_option] in Hprep.
    + simplify_eq. cbn. by rewrite count_sub_add.
    + destruct (reserve_nickname_with_preference _ _ _ _ _) as [[e s1] q1] eqn:E. apply Hnick in E as (Ht & Hp & Hc & Hs).
      assert (s2 = s1 /\ r2 = q1) as [-> ->] by (by destruct e; simplify_eq).
      unfold drop_reservation, release_reservation_path. rewrite Hs. cbn [reserved_agent_path]. unfold release_reserved_agent_path.
      rewrite Ht. cbn [agent_tree with_tree]. rewrite lookup_insert_eq. cbn.
      rewrite Hp, Hc. cbn. rewrite delete_insert_id, count_sub_add by done. done.
  - destruct (reserve_nickname_with_preference _ _ _ _ _) as [[e s1] q1] eqn:E. apply Hnick in E as (Ht & Hp & Hc & Hs).
    assert (s2 = s1 /\ r2 = q1) as [-> ->] by (by destruct e; simplify_eq).
    unfold drop_reservation, release_reservation_path. rewrite Hs. cbn. rewrite Ht, Hp, Hc. cbn. by rewrite count_sub_add.
Qed.

(** ** Nicknames *)

(** A single word. *)
Definition plain_nickname (n : rstr) : Prop := 32%N ∉ n.

Lemma before_space (a b x y : rstr) :
  plain_nickname a -> plain_nickname b -> a ++ 32%N :: x = b ++ 32%N :: y -> a = b /\ x = y.
Proof.
  revert b. induction a as [|c a IH]; intros [|d b] Ha Hb E; cbn in E.
  - by injection E.
  - injection E as <- _. destruct Hb. left.
  - injection E as -> _. destruct Ha. left.
  - injection E as -> E. unfold plain_nickname in *. rewrite not_elem_of_cons in Ha, Hb.
    destruct (IH b) as [-> ->]; [tauto|tauto|done|done].
Qed.

Lemma digits_then_letters (a b x y : rstr) :
  Forall (fun c => is_ascii_digit c = true) a -> Forall (fun c => is_ascii_digit c = true) b ->
  (forall c, head x = Some c -> is_ascii_digit c = false) -> (forall c, head y = Some c -> is_ascii_digit c = false) ->
  a ++ x = b ++ y -> a = b.
Proof.
  intros Ha Hb Hx Hy. revert b Hb. induction a as [|c a IH]; intros [|d b] Hb E; cbn in E; [done| | |].
  - apply Forall_cons in Hb as [Hd _]. rewrite (Hx d) in Hd; [done|by rewrite E].
  - apply Forall_cons in Ha as [Hc _]. rewrite (Hy c) in Hc; [done|by rewrite <- E].
  - injection E as -> E. apply Forall_cons in Ha as [_ Ha]. apply Forall_cons in Hb as [_ Hb]. by rewrite (IH Ha b Hb E).
Qed.

Lemma ordinal_suffix_head v c : head (ordinal_suffix v) = Some c -> is_ascii_digit c = false.
Proof.
  unfold ordinal_suffix. destruct (_ && _); [by intros [= <-]|].
  destruct (v mod 10) as [|[[p|p|]|[p|p|]|]]; by intros [= <-].
Qed.

Lemma format_split name k :
  k <> 0 -> format_agent_nickname name k = name ++ 32%N :: (lit "the " ++ decimal (k + 1) ++ ordinal_suffix (k + 1)).
Proof. by destruct k. Qed.

Lemma format_agent_nickname_inj a b j k :
  plain_nickname a -> plain_nickname b -> format_agent_nickname a j = format_agent_nickname b k -> a = b /\ j = k.
Proof.
  intros Ha Hb. destruct (N.eq_dec j 0) as [->|Hj], (N.eq_dec k 0) as [->|Hk].
  - done.
  - rewrite (format_split b k Hk). cbn. intros ->. destruct Ha. apply elem_of_app. right. left.
  - rewrite (format_split a j Hj). cbn. intros <-. destruct Hb. apply elem_of_app. right. left.
  - rewrite (format_split a j Hj), (format_split b k Hk). intros E. apply before_space in E as [-> E]; [|done|done].
    split; [done|]. apply app_inv_head in E.
    apply digits_then_letters in E; [|apply decimal_digits|apply decimal_digits|apply ordinal_suffix_head|apply ordinal_suffix_head].
    apply decimal_inj in E. lia.
Qed.

(** The operations that use nicknames. *)
Inductive nickname_op :=
| AskNickname (names : list rstr) (pick : nat)
| TakeNickname (preferred : rstr)
| RegisterAgent (m : AgentMetadata)
| ReleaseAgent (thread_id : ThreadId).

Section nicknames.
Context {Env : Type} (thread_text : ThreadId -> rstr).
Implicit Types r : @AgentRegistry Env.

Definition run_nickname_op (o : nickname_op) r : option rstr * AgentRegistry :=
  match o with
  | AskNickname names pick => reserve_agent_nickname names None pick r
  | TakeNickname n => (None, (reserve_agent_nickname [] (Some n) 0 r).2)
  | RegisterAgent m => (None, register_spawned_thread thread_text m r)
  | ReleaseAgent t => (None, release_spawned_thread t r)
  end.

(** The nicknames that were chosen, in order. *)
Fixpoint chosen_nicknames (os : list nickname_op) r : list rstr :=
  match os with
  | [] => []
  | o :: os => let '(n, r) := run_nickname_op o r in option_list n ++ chosen_nicknames os r
  end.

(** The chosen nicknames belong to a round of the pool; those of this round are
    marked as used. *)
Definition nicknames_inv (given : list rstr) r : Prop :=
  forall n, n ∈ given -> exists a k, plain_nickname a /\ n = format_agent_nickname a k
    /\ k <= nickname_reset_count r /\ (k = nickname_reset_count r -> n ∈ used_agent_nicknames r).

Lemma nicknames_inv_grow given r r' :
  nicknames_inv given r -> nickname_reset_count r' = nickname_reset_count r ->
  used_agent_nicknames r ⊆ used_agent_nicknames r' -> nicknames_inv given r'.
Proof.
  intros Hi Hc Hu n Hn. destruct (Hi n Hn) as (a & k & Ha & -> & Hk & Hin). exists a, k. rewrite Hc.
  split; [done|]. split; [done|]. split; [done|]. intros E. by apply Hu, Hin.
Qed.

Lemma choose_elem pick l n : choose pick l = Some n -> n ∈ l.
Proof. apply list_elem_of_lookup_2. Qed.

Lemma choose_None pick l : choose pick l = None -> l = [].
Proof.
  unfold choose. destruct l as [|x l]; [done|]. intros E%lookup_ge_None_1.
  pose proof (Nat.mod_upper_bound pick (length (x :: l)) ltac:(done)). lia.
Qed.

Lemma ask_nickname_inv names pick given r n r' :
  Forall plain_nickname names -> nicknames_inv given r -> reserve_agent_nickname names None pick r = (n, r') ->
  nicknames_inv (option_list n ++ given) r' /\ (forall x, n = Some x -> x ∉ given).
Proof.
  intros Hp Hi. unfold reserve_agent_nickname. destruct (is_empty names) eqn:En; [by intros [= <- <-]|].
  set (k := nickname_reset_count r).
  assert (Hnew : forall a r1 c, a ∈ names -> nickname_reset_count r1 = c ->
    (forall x, x ∈ given -> exists b j, plain_nickname b /\ x = format_agent_nickname b j /\ j <= c
               /\ (j = c -> x ∈ used_agent_nicknames r1)) ->
    format_agent_nickname a c ∉ used_agent_nicknames r1 ->
    nicknames_inv (format_agent_nickname a c :: given)
      (with_nicknames r1 ({[format_agent_nickname a c]} ∪ used_agent_nicknames r1) c)
    /\ forall x, Some (format_agent_nickname a c) = Some x -> x ∉ given).
  { intros a r1 c Ha Hc Hold Hfresh. pose proof (proj1 (Forall_forall _ _) Hp a Ha) as Hpa. split.
    - intros x. rewrite elem_of_cons. intros [->|Hx]; cbn.
      + exists a, c. split; [done|]. split; [done|]. split; [lia|]. intros _. apply elem_of_union. left. by apply elem_of_singleton.
      + destruct (Hold x Hx) as (b & j & Hb & -> & Hj & Hin). exists b, j. split; [done|]. split; [done|]. split; [done|].
        intros E. apply elem_of_union. right. by apply Hin.
    - intros x [= <-] Hx. destruct (Hold _ Hx) as (b & j & Hb & E & Hj & Hin).
      apply format_agent_nickname_inj in E as [-> ->]; [|done|done]. by apply Hfresh, Hin. }
  destruct (choose pick (filter _ _)) as [x|] eqn:Ex.
  - intros [= <- <-]. apply choose_elem, list_elem_of_filter in Ex as [Hf Hx].
    apply list_elem_of_fmap in Hx as (a & -> & Ha). cbn [option_list app].
    exact (Hnew a r k Ha eq_refl Hi Hf).
  - cbn [nickname_reset_count with_nicknames]. destruct (choose pick names) as [a|] eqn:Ea.
    + cbn [fmap option_fmap option_map]. intros [= <- <-]. apply choose_elem in Ea. cbn [option_list app].
      apply (Hnew a (with_nicknames r ∅ (k + 1)) (k + 1) Ea eq_refl); [|apply not_elem_of_empty].
      intros x Hx. destruct (Hi x Hx) as (b & j & Hb & -> & Hj & _). exists b, j. subst k.
      split; [done|]. split; [done|]. split; [lia|]. intros E. lia.
    + apply choose_None in Ea. by rewrite Ea in En.
Qed.

Lemma other_nickname_ops o r :
  (forall names pick, o <> AskNickname names pick) ->
  (run_nickname_op o r).1 = None
  /\ nickname_reset_count (run_nickname_op o r).2 = nickname_reset_count r
  /\ used_agent_nicknames r ⊆ used_agent_nicknames (run_nickname_op o r).2.
Proof.
  intros Ho. destruct o as [names pick|n|m|t]; cbn [run_nickname_op fst snd]; [by destruct (Ho names pick)| | |].
  - split; [done|]. split; [done|]. cbn. apply union_subseteq_r.
  - split; [done|]. unfold register_spawned_thread. destruct (agent_id m) as [t|]; [|done].
    set (r0 := match agent_nickname m with Some n => _ | None => r end).
    assert (H0 : nickname_reset_count r0 = nickname_reset_count r /\ used_agent_nicknames r ⊆ used_agent_nicknames r0).
    { subst r0. destruct (agent_nickname m); [|done]. cbn. split; [done|]. apply union_subseteq_r. }
    clearbody r0. cbn zeta. repeat break_match; exact H0.
  - split; [done|]. unfold release_spawned_thread, remove_spawned_thread. repeat break_match; done.
Qed.

Lemma chosen_nicknames_fresh os given r :
  (forall names pick, AskNickname names pick ∈ os -> Forall plain_nickname names) ->
  nicknames_inv given r -> NoDup (chosen_nicknames os r) /\ forall n, n ∈ chosen_nicknames os r -> n ∉ given.
Proof.
  revert given r. induction os as [|o os IH]; intros given r Hp Hi; cbn [chosen_nicknames].
  { split; [constructor|]. intros n Hn. by apply elem_of_nil in Hn. }
  assert (Hp' : forall names pick, AskNickname names pick ∈ os -> Forall plain_nickname names).
  { intros names pick Hin. apply (Hp names pick). by right. }
  destruct (run_nickname_op o r) as [n r'] eqn:Eo.
  assert (Hstep : nicknames_inv (option_list n ++ given) r' /\ forall x, n = Some x -> x ∉ given).
  { destruct o as [names pick|n0|m|t]; [eapply ask_nickname_inv; [apply (Hp names pick); left|done|exact Eo]| | |];
      (edestruct other_nickname_ops as (H1 & H2 & H3); [|rewrite Eo in H1, H2, H3; cbn in H1, H2, H3]; [done|];
       rewrite H1; cbn; split; [by eapply nicknames_inv_grow|done]). }
  destruct Hstep as [Hi' Hn]. destruct (IH _ _ Hp' Hi') as [Hnd Hdis]. destruct n as [x|]; cbn [option_list app] in *.
  - split.
    + constructor; [|done]. intros Hx. apply (Hdis x Hx). left.
    + intros y Hy. apply elem_of_cons in Hy as [->|Hy]; [by apply Hn|]. intros Hg. apply (Hdis y Hy). by right.
  - split; [done|exact Hdis].
Qed.

(** No nickname is chosen twice in a session, however agents come and go and
    however often the pool is used up; the names of the pool are single words. *)
Theorem nicknames_distinct os :
  (forall names pick, AskNickname names pick ∈ os -> Forall plain_nickname names) ->
  NoDup (chosen_nicknames os default_registry).
Proof.
  intros Hp. apply (chosen_nicknames_fresh os [] default_registry Hp). intros n Hn. by apply elem_of_nil in Hn.
Qed.
End nicknames.

Module Examples.
#[local] Abbreviation registry0 := (@default_registry unit).

Definition scout : AgentMetadata := mkMetadata (Some 7) (Some (lit "/root/scout")) (Some (lit "Euclid")) None.

Definition reserved_registry : @AgentRegistry unit :=
  with_tree (with_count registry0 1) {[lit "/root/scout" := mkMetadata None (Some (lit "/root/scout")) None None]}.

Definition spawned : @system unit := mkSystem (commit decimal scout reserved_registry) [] 0.

(** A slot and a path are reserved, and the agent is registered. *)
Lemma spawned_reachable : rtc (step decimal (fun l => l = Some 1)) (@start unit) spawned.
Proof.
  eapply rtc_l; [by apply (step_load decimal _ registry0 [] 0 1)|].
  eapply rtc_l; [apply (step_incremented decimal _ registry0 [] [] 0 1 0 1); by vm_compute|].
  eapply rtc_l.
  - apply (step_path decimal _ (with_count registry0 1) reserved_registry [] [] 0 new_reservation
      (mkReservation None (Some (lit "/root/scout"))) (lit "/root/scout")); by vm_compute.
  - apply rtc_once. by apply (step_commit decimal _ reserved_registry [] [] 0 _ scout 7).
Qed.

(** The agent is removed, and its slot is not given back yet. *)
Definition releasing : @system unit :=
  mkSystem (remove_spawned_thread 7 (registry spawned)).2 [Decrementing] 0.

Lemma releasing_reachable : rtc (step decimal (fun l => l = Some 1)) (@start unit) releasing.
Proof.
  eapply rtc_r; [exact spawned_reachable|].
  by apply (step_release decimal _ (registry spawned) _ [] 0 7 true).
Qed.

Lemma slots_accounted_for_witness :
  total_count (registry releasing) = 1 /\ length (live_agents (registry releasing)) = 0%nat.
Proof.
  split; [|by vm_compute].
  rewrite (slots_accounted_for decimal (fun l => l = Some 1) releasing decimal_inj releasing_reachable). by vm_compute.
Defined.

Lemma agent_indexes_agree_witness :
  exists m, agent_metadata_for_thread 7 (registry spawned) = Some m /\ agent_path m = Some (lit "/root/scout").
Proof.
  apply (agent_indexes_agree decimal (fun l => l = Some 1) spawned (lit "/root/scout") 7 decimal_inj spawned_reachable);
    by vm_compute.
Defined.

Lemma agent_limit_respected_witness :
  N.of_nat (length (reservations (tasks spawned)) + length (live_agents (registry spawned))) <= 1.
Proof. apply (agent_limit_respected decimal 1 spawned decimal_inj); [by vm_compute|exact spawned_reachable]. Defined.

(** The path of a registered agent is taken. *)
Lemma failed_spawn_leaves_no_trace_witness :
  let r := registry spawned in
  let '(res, s, r') := prepare_agent_metadata [lit "Ada"] (Some (lit "/root/scout")) None None 0 new_reservation
                         (with_count r 2) in
  res = Err (PathExists (lit "/root/scout")) /\ agent_tree (drop_reservation s r') = agent_tree r
  /\ total_count (drop_reservation s r') = 1.
Proof.
  cbn zeta. destruct (prepare_agent_metadata [lit "Ada"] (Some (lit "/root/scout")) None None 0 new_reservation
    (with_count (registry spawned) 2)) as [[res s] r'] eqn:E.
  destruct (failed_spawn_leaves_no_trace (Some 5) [lit "Ada"] (Some (lit "/root/scout")) None None 0 (registry spawned)
    new_reservation (with_count (registry spawned) 2) res s r') as (H1 & _ & H3); [by vm_compute|by vm_compute|exact E|].
  split; [|split; [exact H1|rewrite H3; by vm_compute]].
  vm_compute in E. injection E as <- _ _. done.
Defined.

(** Two names for three agents. *)
Lemma nicknames_distinct_witness :
  NoDup (chosen_nicknames decimal
    [AskNickname [lit "Ada"; lit "Euclid"] 0; AskNickname [lit "Ada"; lit "Euclid"] 0; ReleaseAgent 7;
     AskNickname [lit "Ada"; lit "Euclid"] 1] registry0)
  /\ chosen_nicknames decimal
    [AskNickname [lit "Ada"; lit "Euclid"] 0; AskNickname [lit "Ada"; lit "Euclid"] 0; ReleaseAgent 7;
     AskNickname [lit "Ada"; lit "Euclid"] 1] registry0 = [lit "Ada"; lit "Euclid"; lit "Euclid the 2nd"].
Proof.
  split; [|by vm_compute]. apply (nicknames_distinct decimal). intros names pick Hin.
  rewrite !elem_of_cons, elem_of_nil in Hin.
  assert (names = [lit "Ada"; lit "Euclid"]) as ->
    by (destruct Hin as [Hin|[Hin|[Hin|[Hin|[]]]]]; congruence).
  by apply (bool_decide_unpack _); vm_compute.
Defined.
End Examples.
