(* ===== verification/AgentResidency.v ===== *)
(** * AgentResidency: which agents stay loaded

    [codex-rs/core/src/agent/control/residency.rs]: the least recently used order
    of the loaded sub-agents, the slots for agents that are being loaded, and the
    unloading that makes room for them.

    What happens to a candidate for unloading (whether the thread manager has it,
    whether it is idle, whether its shutdown succeeds) is an argument.  What is done
    under one lock is one definition; the tasks that run at the same time are a
    step relation. *)

From Stdlib Require Import Lia.
From stdpp Require Import base list gmap relations.
From S2P Require Import Prelude AgentRegistry.

Record V2ResidencyState := mkResidency {
  residents : list ThreadId;
  pending_slots : N
}.

Definition default_residency : V2ResidencyState := mkResidency [] 0.

(** [usize::saturating_add] and [saturating_sub] *)
Definition resident_total (s : V2ResidencyState) : N := sat_add (N.of_nat (length (residents s))) (pending_slots s).
Definition less_one (s : V2ResidencyState) : N := (pending_slots s - 1)%N.

Definition try_reserve_pending_slot (capacity : N) (s : V2ResidencyState) : bool * V2ResidencyState :=
  if (capacity <=? resident_total s)%N then (false, s)
  else (true, mkResidency (residents s) (pending_slots s + 1)).

Fixpoint pop_loop (candidates_to_scan : nat) (protected : option ThreadId) (l : list ThreadId)
  : option ThreadId * list ThreadId :=
  match candidates_to_scan with
  | O => (None, l)
  | S n =>
      match l with
      | [] => (None, [])
      | candidate :: rest =>
          if bool_decide (Some candidate = protected) then pop_loop n protected (rest ++ [candidate])
          else (Some candidate, rest)
      end
  end.

Definition pop_lru_candidate (protected : option ThreadId) (s : V2ResidencyState)
  : option ThreadId * V2ResidencyState :=
  let '(c, l) := pop_loop (length (residents s)) protected (residents s) in
  (c, mkResidency l (pending_slots s)).

Definition touch_resident (l : list ThreadId) (thread_id : ThreadId) : list ThreadId :=
  filter (fun x => x <> thread_id) l ++ [thread_id].

Definition touch (thread_id : ThreadId) (s : V2ResidencyState) : V2ResidencyState :=
  mkResidency (touch_resident (residents s) thread_id) (pending_slots s).

Definition remove_resident (thread_id : ThreadId) (s : V2ResidencyState) : V2ResidencyState :=
  mkResidency (filter (fun x => x <> thread_id) (residents s)) (pending_slots s).

Definition commit_slot (thread_id : ThreadId) (s : V2ResidencyState) : V2ResidencyState :=
  mkResidency (touch_resident (residents s) thread_id) (less_one s).

Definition release_pending_slot (s : V2ResidencyState) : V2ResidencyState :=
  mkResidency (residents s) (less_one s).

(** What becomes of a candidate: not a loaded sub-agent, busy or not to be shut
    down, or unloaded. *)
Inductive verdict := NotCandidate | Kept | Unloaded.

(** [try_unload_one_resident], when no other task interferes *)
Fixpoint unload_loop (candidates_to_scan : nat) (protected : option ThreadId) (judge : ThreadId -> verdict)
    (s : V2ResidencyState) : bool * V2ResidencyState :=
  match candidates_to_scan with
  | O => (false, s)
  | S n =>
      match pop_lru_candidate protected s with
      | (None, s) => (false, s)
      | (Some candidate, s) =>
          match judge candidate with
          | NotCandidate => unload_loop n protected judge s
          | Kept => unload_loop n protected judge (touch candidate s)
          | Unloaded => (true, s)
          end
      end
  end.

Definition try_unload_one_resident (protected : option ThreadId) (judge : ThreadId -> verdict)
    (s : V2ResidencyState) : bool * V2ResidencyState :=
  unload_loop (length (residents s)) protected judge s.

(** [reserve_slot]; [None] when the fuel is used up.  A verdict is asked for anew
    in every round. *)
Fixpoint reserve_slot (fuel : nat) (capacity : N) (protected : option ThreadId)
    (judge : nat -> ThreadId -> verdict) (s : V2ResidencyState)
  : option (result AgentError unit * V2ResidencyState) :=
  match fuel with
  | O => None
  | S fuel =>
      match try_reserve_pending_slot capacity s with
      | (true, s) => Some (Ok tt, s)
      | (false, s) =>
          match try_unload_one_resident protected (judge fuel) s with
          | (true, s) => reserve_slot fuel capacity protected judge s
          | (false, s) => Some (Err (AgentLimitReached capacity), s)
          end
      end
  end.

(** ** The queue *)

(** What a pop does to a queue without duplicates: it skips the protected thread,
    which goes to the end, and takes the first other one. *)
Lemma pop_spec protected s c s' :
  NoDup (residents s) -> pop_lru_candidate protected s = (c, s') ->
  pending_slots s' = pending_slots s
  /\ match c with
     | None => residents s' = residents s /\ forall x, x ∈ residents s -> protected = Some x
     | Some c => protected <> Some c
                 /\ exists a b, residents s = a ++ c :: b /\ residents s' = b ++ a
                                /\ forall x, x ∈ a -> protected = Some x
     end.
Proof.
  destruct s as [l pending]. unfold pop_lru_candidate. cbn [residents pending_slots commit_slot release_pending_slot]. intros Hnd.
  destruct l as [|x l]; cbn [length pop_loop].
  { intros [= <- <-]. split; [done|]. split; [done|]. intros x Hx. by apply elem_of_nil in Hx. }
  case_bool_decide as Hx.
  - destruct l as [|y l]; cbn [length pop_loop app].
    + intros [= <- <-]. split; [done|]. split; [done|]. intros z ->%list_elem_of_singleton. done.
    + rewrite bool_decide_eq_false_2.
      * intros [= <- <-]. split; [done|]. split.
        -- intros Hy. apply NoDup_cons in Hnd as [Hni _]. apply Hni. rewrite <- Hx in Hy. injection Hy as ->. left.
        -- exists [x], l. split; [done|]. split; [done|]. intros z ->%list_elem_of_singleton. done.
      * intros Hy. apply NoDup_cons in Hnd as [Hni _]. apply Hni. rewrite <- Hx in Hy. injection Hy as ->. left.
  - intros [= <- <-]. split; [done|]. split; [congruence|]. exists [], l. split; [done|].
    split; [by rewrite app_nil_r|]. intros z Hz. by apply elem_of_nil in Hz.
Qed.

Lemma touch_fresh l c : c ∉ l -> touch_resident l c = l ++ [c].
Proof.
  intros Hc. unfold touch_resident. f_equal. induction l as [|x l IH]; [done|].
  rewrite not_elem_of_cons in Hc. rewrite filter_cons_True by (intros ->; tauto). by rewrite IH by tauto.
Qed.

Lemma touch_NoDup l c : NoDup l -> NoDup (touch_resident l c).
Proof.
  intros Hl. unfold touch_resident. apply NoDup_app. split; [by apply NoDup_filter|].
  split; [|apply NoDup_singleton]. intros x [Hx _]%list_elem_of_filter ->%list_elem_of_singleton. done.
Qed.

Lemma popped_NoDup (a d : list ThreadId) c : NoDup (a ++ c :: d) -> NoDup (d ++ a) /\ c ∉ d ++ a.
Proof.
  intros Hnd. assert (Hp : a ++ c :: d ≡ₚ c :: d ++ a)
    by (rewrite <- Permutation_middle, (Permutation_app_comm a d); done).
  rewrite Hp in Hnd. by apply NoDup_cons in Hnd as [? ?].
Qed.

(** A round of unloading: what it keeps of the queue, and that it finds a thread
    that can be unloaded. *)
Definition kept_by (judge : ThreadId -> verdict) (protected : option ThreadId) (x : ThreadId) : Prop :=
  protected = Some x \/ judge x = Kept.

Lemma unload_loop_spec n protected judge s b s' :
  NoDup (residents s) -> unload_loop n protected judge s = (b, s') ->
  pending_slots s' = pending_slots s /\ NoDup (residents s') /\ residents s' ⊆ residents s
  /\ (length (residents s') <= length (residents s))%nat
  /\ (forall x, x ∈ residents s -> kept_by judge protected x -> x ∈ residents s')
  /\ (b = true -> length (residents s') < length (residents s))%nat.
Proof.
  revert s. induction n as [|n IH]; intros s Hnd; cbn [unload_loop].
  { intros [= <- <-]. repeat split; try done. }
  destruct (pop_lru_candidate protected s) as [c s1] eqn:Ep. destruct (pop_spec _ _ _ _ Hnd Ep) as [Hpend Hpop].
  destruct c as [c|].
  2:{ destruct Hpop as [Hr _]. intros [= <- <-]. rewrite Hr. repeat split; try done. }
  destruct Hpop as (Hpc & a & d & Hr & Hr1 & Ha).
  assert (Hnd1 : NoDup (residents s1) /\ c ∉ residents s1).
  { rewrite Hr1. apply popped_NoDup. by rewrite <- Hr. }
  destruct Hnd1 as [Hnd1 Hc1].
  assert (Hel : forall x, x ∈ residents s <-> x = c \/ x ∈ residents s1)
    by (intros x; rewrite Hr, Hr1, !elem_of_app, elem_of_cons; tauto).
  assert (Hlen : length (residents s) = S (length (residents s1)))
    by (rewrite Hr, Hr1, !length_app; cbn; lia).
  destruct (judge c) eqn:Ej.
  - intros E. destruct (IH s1 Hnd1 E) as (H1 & H2 & H3 & H4 & H5 & H6). repeat split; [congruence|done| |lia| |].
    + intros x Hx. apply Hel. right. by apply H3.
    + intros x Hx Hk. apply Hel in Hx as [->|Hx]; [|by apply H5]. destruct Hk; congruence.
    + intros Hb. specialize (H6 Hb). lia.
  - intros E. assert (Ht : residents (touch c s1) = residents s1 ++ [c]) by (by apply touch_fresh).
    destruct (IH (touch c s1)) as (H1 & H2 & H3 & H4 & H5 & H6); [by apply touch_NoDup|done|].
    rewrite Ht in *. rewrite length_app in *. cbn [length pending_slots touch] in *. repeat split; [congruence|done| |lia| |].
    + intros x Hx. apply Hel. apply H3, elem_of_app in Hx as [?|?%list_elem_of_singleton]; auto.
    + intros x Hx Hk. apply H5; [|done]. apply elem_of_app. rewrite list_elem_of_singleton. apply Hel in Hx as [->|Hx]; auto.
    + intros Hb. specialize (H6 Hb). lia.
  - intros [= <- <-]. repeat split; [done|done| |lia| |lia].
    + intros x Hx. apply Hel. by right.
    + intros x Hx Hk. apply Hel in Hx as [->|Hx]; [|done]. destruct Hk; congruence.
Qed.

Lemma unload_loop_finds n protected judge s a x d :
  NoDup (residents s) -> residents s = a ++ x :: d -> (length a < n)%nat ->
  protected <> Some x -> judge x = Unloaded -> (unload_loop n protected judge s).1 = true.
Proof.
  revert s a d. induction n as [|n IH]; intros s a d Hnd Hr Hn Hpx Hj; [lia|]. cbn [unload_loop].
  destruct (pop_lru_candidate protected s) as [c s1] eqn:Ep. destruct (pop_spec _ _ _ _ Hnd Ep) as [_ Hpop].
  destruct c as [c|].
  2:{ destruct Hpop as [_ Hall]. destruct Hpx. apply Hall. rewrite Hr. apply elem_of_app. right. left. }
  destruct Hpop as (Hpc & a' & d' & Hr' & Hr1 & Ha').
  destruct (decide (c = x)) as [->|Hne]; [by rewrite Hj|].
  (* the popped thread is before the one looked for *)
  assert (Hpos : exists a1 d1, residents s1 = a1 ++ x :: d1 /\ (length a1 < n)%nat
                               /\ NoDup (residents s1) /\ c ∉ residents s1).
  { assert (Hnd1 : NoDup (residents s1) /\ c ∉ residents s1).
    { rewrite Hr1. apply popped_NoDup. by rewrite <- Hr'. }
    rewrite Hr in Hr'. clear Hr Hnd. rewrite Hr1 in *. clear Hr1 Ep s1.
    assert (Hxa : x ∉ a') by (intros Hx; by apply Hpx, Ha').
    destruct (app_eq_inv _ _ _ _ Hr') as [(k & -> & E)|(k & -> & E)].
    - destruct k as [|k0 k]; [injection E as -> _; done|]. injection E as -> ->. exists (k), (d ++ a').
      split; [by rewrite <- app_assoc|]. split; [|done]. rewrite length_app in Hn. cbn in Hn. lia.
    - destruct k as [|k0 k]; [injection E as -> _; done|]. injection E as -> ->. destruct Hxa.
      apply elem_of_app. right. left. }
  destruct Hpos as (a1 & d1 & Hr2 & Hn1 & Hnd1 & Hc1). destruct (judge c) eqn:Ejc; [|  |done].
  - by apply (IH s1 a1 d1).
  - apply (IH (touch c s1) a1 (d1 ++ [c])); [by apply touch_NoDup| |done|done|done].
    cbn [residents touch]. rewrite touch_fresh by done. rewrite Hr2, <- app_assoc. done.
Qed.

(** ** Reserving a slot *)

Definition occupied (s : V2ResidencyState) : N := (N.of_nat (length (residents s)) + pending_slots s)%N.

Lemma try_reserve_spec capacity s :
  (capacity <= usize_max)%N ->
  try_reserve_pending_slot capacity s
  = if (capacity <=? occupied s)%N then (false, s) else (true, mkResidency (residents s) (pending_slots s + 1)).
Proof.
  intros Hc. unfold try_reserve_pending_slot, resident_total, sat_add.
  fold (occupied s). destruct (N.leb_spec capacity (N.min (occupied s) usize_max)),
    (N.leb_spec capacity (occupied s)); (done || lia).
Qed.

Lemma reserve_slot_spec fuel capacity protected judge s :
  (capacity <= usize_max)%N -> NoDup (residents s) -> (length (residents s) < fuel)%nat ->
  exists res s', reserve_slot fuel capacity protected judge s = Some (res, s')
    /\ NoDup (residents s') /\ residents s' ⊆ residents s
    /\ (forall x, x ∈ residents s -> (forall k, kept_by (judge k) protected x) -> x ∈ residents s')
    /\ match res with
       | Ok _ => pending_slots s' = (pending_slots s + 1)%N /\ (occupied s' <= capacity)%N
       | Err e => e = AgentLimitReached capacity /\ pending_slots s' = pending_slots s
                  /\ exists k, forall x, x ∈ residents s' -> protected = Some x \/ judge k x <> Unloaded
       end.
Proof.
  intros Hcap. revert s. induction fuel as [|fuel IH]; intros s Hnd Hf; [lia|]. cbn [reserve_slot].
  rewrite (try_reserve_spec capacity s Hcap). destruct (N.leb_spec capacity (occupied s)) as [Hle|Hlt].
  - destruct (try_unload_one_resident protected (judge fuel) s) as [b s1] eqn:Eu. unfold try_unload_one_resident in Eu.
    destruct (unload_loop_spec _ _ _ _ _ _ Hnd Eu) as (H1 & H2 & H3 & H4 & H5 & H6). destruct b.
    + specialize (H6 eq_refl). destruct (IH s1 H2 ltac:(lia)) as (res & s' & E & G1 & G2 & G3 & G4).
      exists res, s'. split; [done|]. split; [done|]. split; [by etransitivity|].
      split; [intros x Hx Hk; apply G3; [by apply H5|done]|]. by rewrite <- H1.
    + exists (Err (AgentLimitReached capacity)), s1. split; [done|]. split; [done|]. split; [done|].
      split; [intros x Hx Hk; by apply H5|]. split; [done|]. split; [done|]. exists fuel. intros x Hx.
      destruct (decide (protected = Some x)) as [Hp|Hp]; [by left|right]. intros Hj.
      apply H3 in Hx. apply list_elem_of_split in Hx as (a & d & Hr).
      assert (Ht : (unload_loop (length (residents s)) protected (judge fuel) s).1 = true).
      { apply (unload_loop_finds _ _ _ _ a x d); try done. rewrite Hr, length_app. cbn. lia. }
      by rewrite Eu in Ht.
  - eexists _, _. split; [done|]. split; [done|]. split; [done|]. split; [done|]. split; [done|].
    unfold occupied in *. cbn. lia.
Qed.

(** C33: A slot is always decided on, after at most as many unloads as there are
    loaded agents: it is granted within the capacity, or refused when no loaded agent
    but the protected one can be unloaded.  Only loaded agents are unloaded, and
    neither the protected one nor one that is busy. *)
Theorem residency_slot_decided capacity protected judge s :
  (capacity <= usize_max)%N -> NoDup (residents s) ->
  exists res s', reserve_slot (S (length (residents s))) capacity protected (fun _ => judge) s = Some (res, s')
    /\ residents s' ⊆ residents s
    /\ (forall x, x ∈ residents s -> protected = Some x \/ judge x = Kept -> x ∈ residents s')
    /\ match res with
       | Ok _ => (occupied s' <= capacity)%N
       | Err e => e = AgentLimitReached capacity
                  /\ forall x, x ∈ residents s' -> protected = Some x \/ judge x <> Unloaded
       end.
Proof.
  intros Hcap Hnd. destruct (reserve_slot_spec (S (length (residents s))) capacity protected (fun _ => judge) s Hcap Hnd)
    as (res & s' & E & _ & H2 & H3 & H4); [lia|]. exists res, s'. split; [done|]. split; [done|].
  split; [intros x Hx Hk; by apply H3|]. destruct res; [by destruct H4|]. by destruct H4 as (-> & _ & k & Hall).
Qed.

(** ** Tasks that run at the same time *)

(** A task holds a slot for an agent that is being loaded, or has popped a
    candidate and looks whether it can be unloaded. *)
Inductive residency_task := Loading | Judging (candidate : ThreadId).

Record residency_system := mkResidencySystem {
  residency : V2ResidencyState;
  residency_tasks : list residency_task
}.

Definition is_judging (t : residency_task) : bool := match t with Judging _ => true | Loading => false end.

Definition loading_count (ts : list residency_task) : nat := length (List.filter (fun t => negb (is_judging t)) ts).
Definition judging_count (ts : list residency_task) : nat := length (List.filter is_judging ts).

(** At most [scans] tasks judge at the same time. *)
Inductive residency_step (capacity : N) (scans : nat) : residency_system -> residency_system -> Prop :=
| residency_reserve s s' ts :
    try_reserve_pending_slot capacity s = (true, s') ->
    residency_step capacity scans (mkResidencySystem s ts) (mkResidencySystem s' (ts ++ [Loading]))
| residency_loaded s l r thread_id :
    residency_step capacity scans (mkResidencySystem s (l ++ Loading :: r))
      (mkResidencySystem (commit_slot thread_id s) (l ++ r))
| residency_failed s l r :
    residency_step capacity scans (mkResidencySystem s (l ++ Loading :: r))
      (mkResidencySystem (release_pending_slot s) (l ++ r))
| residency_pop s s' ts protected candidate :
    pop_lru_candidate protected s = (Some candidate, s') -> (judging_count ts < scans)%nat ->
    residency_step capacity scans (mkResidencySystem s ts) (mkResidencySystem s' (ts ++ [Judging candidate]))
| residency_gone s l r candidate :
    residency_step capacity scans (mkResidencySystem s (l ++ Judging candidate :: r)) (mkResidencySystem s (l ++ r))
| residency_keep s l r candidate :
    residency_step capacity scans (mkResidencySystem s (l ++ Judging candidate :: r))
      (mkResidencySystem (touch candidate s) (l ++ r))
| residency_touch s ts thread_id :
    thread_id ∈ residents s ->
    residency_step capacity scans (mkResidencySystem s ts) (mkResidencySystem (touch thread_id s) ts)
| residency_forget s ts thread_id :
    residency_step capacity scans (mkResidencySystem s ts) (mkResidencySystem (remove_resident thread_id s) ts).

Record residency_inv (capacity : N) (scans : nat) (sys : residency_system) : Prop := {
  residency_nodup : NoDup (residents (residency sys));
  residency_pending : pending_slots (residency sys) = N.of_nat (loading_count (residency_tasks sys));
  residency_judging : (judging_count (residency_tasks sys) <= scans)%nat;
  residency_bound :
    (occupied (residency sys) + N.of_nat (judging_count (residency_tasks sys)) <= capacity + N.of_nat scans)%N
}.

Lemma tasks_counts l t r :
  loading_count (l ++ t :: r) = ((if is_judging t then 0 else 1) + loading_count (l ++ r))%nat
  /\ judging_count (l ++ t :: r) = ((if is_judging t then 1 else 0) + judging_count (l ++ r))%nat.
Proof.
  unfold loading_count, judging_count. rewrite !List.filter_app, !length_app. cbn. destruct (is_judging t); cbn; lia.
Qed.

Lemma filter_other_length (l : list ThreadId) t : (length (filter (fun x => x <> t) l) <= length l)%nat.
Proof. apply length_filter. Qed.

Lemma touch_length_in l t : t ∈ l -> (length (touch_resident l t) <= length l)%nat.
Proof.
  intros Ht. unfold touch_resident. rewrite length_app. cbn.
  apply list_elem_of_split in Ht as (a & b & ->). rewrite filter_app, filter_cons_False by (intros H; by apply H).
  rewrite !length_app. cbn. pose proof (filter_other_length a t). pose proof (filter_other_length b t). lia.
Qed.

(** Counts of a changed state. *)
Ltac residency_count :=
  cbn [residency residency_tasks];
  unfold occupied, touch, remove_resident, commit_slot, release_pending_slot, less_one;
  cbn [residents pending_slots]; unfold touch_resident in *; rewrite ?length_app in *; cbn [length] in *; lia.

Lemma residency_step_inv capacity scans sys sys' :
  (capacity <= usize_max)%N -> residency_step capacity scans sys sys' ->
  residency_inv capacity scans sys -> residency_inv capacity scans sys'.
Proof.
  intros Hcap Hs [Hnd Hp Hj Hb]. unfold occupied in *.
  destruct Hs as [s s' ts E|s l r t|s l r|s s' ts protected c E Hn|s l r c|s l r c|s ts t Hin|s ts t];
    cbn [residency residency_tasks] in *.
  - rewrite (try_reserve_spec capacity s Hcap) in E. unfold occupied in E.
    destruct (N.leb_spec capacity (N.of_nat (length (residents s)) + pending_slots s)); simplify_eq.
    destruct (tasks_counts ts Loading []) as [H1 H2]. rewrite app_nil_r in *. cbn [is_judging] in *.
    split; [done|residency_count..].
  - destruct (tasks_counts l Loading r) as [H1 H2]. cbn [is_judging] in *.
    pose proof (filter_other_length (residents s) t). split; [by apply touch_NoDup|residency_count..].
  - destruct (tasks_counts l Loading r) as [H1 H2]. cbn [is_judging] in *. split; [done|residency_count..].
  - destruct (pop_spec _ _ _ _ Hnd E) as (Hpend & _ & a & b & Hr & Hr' & _).
    destruct (tasks_counts ts (Judging c) []) as [H1 H2]. rewrite app_nil_r in *. cbn [is_judging] in *.
    rewrite Hr in *. destruct (popped_NoDup a b c Hnd) as [Hnd' _].
    split; cbn [residency]; rewrite ?Hr'; [done|residency_count|residency_count|].
    unfold occupied. rewrite Hr'. residency_count.
  - destruct (tasks_counts l (Judging c) r) as [H1 H2]. cbn [is_judging] in *. split; [done|residency_count..].
  - destruct (tasks_counts l (Judging c) r) as [H1 H2]. cbn [is_judging] in *.
    pose proof (filter_other_length (residents s) c). split; [by apply touch_NoDup|residency_count..].
  - pose proof (touch_length_in (residents s) t Hin). split; [by apply touch_NoDup|residency_count..].
  - pose proof (filter_other_length (residents s) t). split; [by apply NoDup_filter|residency_count..].
Qed.

(** In every interleaving the slots of agents that are being loaded are those
    that tasks hold, no agent is loaded twice, and the capacity is exceeded at most by
    the number of tasks that look for an agent to unload at the same time. *)
Theorem residency_overshoot_bounded capacity scans sys :
  (capacity <= usize_max)%N ->
  rtc (residency_step capacity scans) (mkResidencySystem default_residency []) sys ->
  NoDup (residents (residency sys))
  /\ pending_slots (residency sys) = N.of_nat (loading_count (residency_tasks sys))
  /\ (occupied (residency sys) <= capacity + N.of_nat scans)%N.
Proof.
  intros Hcap Hs. assert (Hi : residency_inv capacity scans sys).
  { assert (H0 : residency_inv capacity scans (mkResidencySystem default_residency [])).
    { split; cbn; [constructor|done|lia|unfold occupied; cbn; lia]. }
    revert H0. induction Hs as [|x y z Hxy _ IH]; [done|]. intros H0. by eapply IH, residency_step_inv. }
  destruct Hi as [? ? ? ?]. split; [done|]. split; [done|]. lia.
Qed.

Module Examples.
Definition loaded_one : residency_system := mkResidencySystem (mkResidency [1%N] 0) [].

(** With room for one agent: a task looks whether agent 1 can be unloaded, meanwhile
    another one gets the slot, and agent 1 is kept. *)
Lemma capacity_exceeded_run :
  rtc (residency_step 1 1) loaded_one (mkResidencySystem (mkResidency [1; 2]%N 0) [])
  /\ rtc (residency_step 1 1) loaded_one (mkResidencySystem (mkResidency [1%N] 1) [Loading]).
Proof.
  assert (Hmid : rtc (residency_step 1 1) loaded_one (mkResidencySystem (mkResidency [1%N] 1) [Loading])).
  { eapply rtc_l; [apply (residency_pop 1 1 _ (mkResidency [] 0) [] None 1%N); [done|cbn; lia]|].
    eapply rtc_l; [apply (residency_reserve 1 1 (mkResidency [] 0) (mkResidency [] 1)); by vm_compute|].
    apply rtc_once. apply (residency_keep 1 1 (mkResidency [] 1) [] [Loading] 1%N). }
  split; [|done]. eapply rtc_r; [exact Hmid|]. apply (residency_loaded 1 1 (mkResidency [1%N] 1) [] [] 2%N).
Qed.

Lemma loaded_one_reachable : rtc (residency_step 1 1) (mkResidencySystem default_residency []) loaded_one.
Proof.
  eapply rtc_l; [apply (residency_reserve 1 1 (mkResidency [] 0) (mkResidency [] 1)); by vm_compute|].
  apply rtc_once. apply (residency_loaded 1 1 (mkResidency [] 1) [] [] 1%N).
Qed.

(** The capacity for loaded agents can be exceeded: while one task has taken a
    busy agent out of the queue to look at it, another task is granted its place. *)
Theorem residency_capacity_exceeded :
  exists sys, rtc (residency_step 1 1) (mkResidencySystem default_residency []) sys
    /\ residency_tasks sys = [] /\ residents (residency sys) = [1; 2]%N /\ occupied (residency sys) = 2%N.
Proof.
  eexists. split; [etransitivity; [apply loaded_one_reachable|exact (proj1 capacity_exceeded_run)]|]. done.
Qed.

Lemma residency_overshoot_bounded_witness : (occupied (residency loaded_one) <= 1 + 1)%N.
Proof.
  refine (proj2 (proj2 (residency_overshoot_bounded 1 1 loaded_one _ loaded_one_reachable))). by vm_compute.
Defined.

(** Agent 1 is protected and agent 2 busy: agent 3 makes room. *)
Lemma residency_slot_decided_witness :
  exists res s', reserve_slot 4 3 (Some 1%N)
    (fun _ x => if (x =? 2)%N then Kept else Unloaded) (mkResidency [1; 2; 3]%N 0) = Some (res, s')
    /\ residents s' ⊆ [1; 2; 3]%N.
Proof.
  destruct (residency_slot_decided 3 (Some 1%N) (fun x => if (x =? 2)%N then Kept else Unloaded)
    (mkResidency [1; 2; 3]%N 0)) as (res & s' & E & H & _).
  - by vm_compute.
  - by apply (bool_decide_unpack _); vm_compute.
  - exists res, s'. split; [exact E|exact H].
Defined.
End Examples.
