(* ===== verification/ThreadItems.v ===== *)
(** * ThreadItems: the items of a thread as the app server shows them

    [codex-rs/app-server-protocol/src/protocol/v2/item.rs] (the items and
    their conversion from the core's turn items),
    [app-server-protocol/src/protocol/item_builders.rs] (items built from
    events) and [protocol/src/review_format.rs].

    Where the app server copies an enumeration of the core constructor by
    constructor, one type serves both.  Fields that no modelled function
    reads are left out of the events and core items.  Durations are their
    [as_millis].  A [HashMap] is the list of its entries in iteration order.
    The classes [Presentation] and [ThreadIds] hold what other crates do:
    redaction of secrets, quoting and parsing of commands, path URIs, thread
    ids. *)

From Stdlib Require Import ZArith Lia.
From stdpp Require Import base list strings.
From S2P Require Import Prelude AbsolutePath Truncate ResponseItems JsonPatch ContextFragments.

Open Scope rust_scope.

(** ** Sorting *)

Section sort.
Context {A : Type} (leb : A -> A -> bool).

Fixpoint insert_sorted (x : A) (l : list A) : list A :=
  match l with
  | [] => [x]
  | y :: l' => if leb x y then x :: l else y :: insert_sorted x l'
  end.

(** [slice::sort_by], stable *)
Definition sort_by (l : list A) : list A := foldr insert_sorted [] l.
End sort.

Definition str_leb (a b : rstr) : bool := negb (str_ltb b a).

(** ** Data *)

Inductive CommandExecutionStatus := CommandInProgress | CommandCompleted | CommandFailed | CommandDeclined.
Inductive ExecCommandStatus := ExecCompleted | ExecFailed | ExecDeclined.
Inductive PatchApplyStatus := PatchInProgress | PatchCompleted | PatchFailed | PatchDeclined.
Inductive CorePatchApplyStatus := CorePatchCompleted | CorePatchFailed | CorePatchDeclined.
Inductive McpToolCallStatus := McpInProgress | McpCompleted | McpFailed.
Inductive DynamicToolCallStatus := DynamicInProgress | DynamicCompleted | DynamicFailed.
Inductive CollabAgentToolCallStatus := CollabInProgress | CollabCompleted | CollabFailed | CollabInterrupted.
Inductive CommandExecutionSource := Agent | UserShell | UnifiedExecStartup | UnifiedExecInteraction.
Inductive CollabAgentTool :=
| SpawnAgent | SendInput | ResumeAgent | Wait | CloseAgent | SendMessage | FollowupTask
| InterruptAgent | ListAgents.
Inductive SubAgentActivityKind := ActivityStarted | ActivityInteracted | ActivityInterrupted | ActivityCompleted.
Inductive AgentMessageDelivery := Async.
Inductive ReasoningEffort :=
| EffortNone | Minimal | Low | Medium | High | XHigh | Max | Ultra | Persistent | Custom (value : rstr).

Inductive AgentStatus :=
| PendingInit
| Running
| AgentInterrupted
| AgentCompleted (message : option rstr)
| Errored (message : rstr)
| Shutdown
| AgentNotFound.

Inductive CollabAgentStatus :=
| StatusPendingInit | StatusRunning | StatusInterrupted | StatusCompleted | StatusErrored
| StatusShutdown | StatusNotFound.

Record CollabAgentState := mkAgentState {
  agent_status : CollabAgentStatus;
  agent_message : option rstr
}.

Definition collab_agent_state_from (s : AgentStatus) : CollabAgentState :=
  match s with
  | PendingInit => mkAgentState StatusPendingInit None
  | Running => mkAgentState StatusRunning None
  | AgentInterrupted => mkAgentState StatusInterrupted None
  | AgentCompleted message => mkAgentState StatusCompleted message
  | Errored message => mkAgentState StatusErrored (Some message)
  | Shutdown => mkAgentState StatusShutdown None
  | AgentNotFound => mkAgentState StatusNotFound None
  end.

Definition command_status_from_exec (s : ExecCommandStatus) : CommandExecutionStatus :=
  match s with
  | ExecCompleted => CommandCompleted
  | ExecFailed => CommandFailed
  | ExecDeclined => CommandDeclined
  end.

Definition patch_status_from (s : CorePatchApplyStatus) : PatchApplyStatus :=
  match s with
  | CorePatchCompleted => PatchCompleted
  | CorePatchFailed => PatchFailed
  | CorePatchDeclined => PatchDeclined
  end.

Inductive ParsedCommand :=
| ParsedRead (cmd name path : rstr)
| ParsedListFiles (cmd : rstr) (path : option rstr)
| ParsedSearch (cmd : rstr) (query path : option rstr)
| ParsedUnknown (cmd : rstr).

(** A [LegacyAppPathString] is its text. *)
Inductive CommandAction :=
| ActionRead (command name path : rstr)
| ActionListFiles (command : rstr) (path : option rstr)
| ActionSearch (command : rstr) (query path : option rstr)
| ActionUnknown (command : rstr).

Inductive FileChange :=
| AddFileChange (content : rstr)
| DeleteFileChange (content : rstr)
| UpdateFileChange (unified_diff : rstr) (move_path : option rstr).

Inductive PatchChangeKind := KindAdd | KindDelete | KindUpdate (move_path : option rstr).

Record FileUpdateChange := mkFileUpdateChange {
  change_path : rstr;
  change_kind : PatchChangeKind;
  change_diff : rstr
}.

Record MemoryCitationEntry := mkCitationEntry {
  citation_path : rstr;
  line_start : N;
  line_end : N;
  note : rstr
}.

(** [thread_ids] of the app server, [rollout_ids] of the core *)
Record MemoryCitation := mkMemoryCitation {
  citation_entries : list MemoryCitationEntry;
  citation_thread_ids : list rstr
}.

Record TextElement := mkTextElement {
  element_start : N;
  element_end : N;
  placeholder : option rstr
}.

Inductive UserInput :=
| TextInput (text : rstr) (text_elements : list TextElement)
| ImageInput (url : rstr) (detail : option ImageDetail)
| LocalImageInput (path : rstr) (detail : option ImageDetail)
| AudioInput (url : rstr)
| LocalAudioInput (path : rstr)
| SkillInput (name path : rstr)
| MentionInput (name path : rstr).

Record HookPromptFragment := mkHookFragment { fragment_text : rstr; hook_run_id : rstr }.

Inductive DynamicToolCallOutputContentItem :=
| DynamicInputText (text : rstr)
| DynamicInputImage (image_url : rstr)
| DynamicInputAudio (audio_url : rstr).

Inductive WebSearchAction :=
| WebSearchQuery (query : option rstr) (queries : option (list rstr))
| OpenPage (url : option rstr)
| FindInPage (url pattern : option rstr)
| OtherSearch.

Record SleepItem := mkSleepItem { sleep_id : rstr; sleep_duration_ms : N }.

Record McpToolCallAppContext := mkAppContext {
  app_connector_id : rstr;
  app_link_id : option rstr;
  app_resource_uri : option rstr;
  app_app_name : option rstr;
  app_action_name : option rstr
}.

Record McpToolCallError := mkMcpError { mcp_error_message : rstr }.

(** *** Reviews, [review_format.rs] *)

Record ReviewFinding := mkFinding {
  title : rstr;
  finding_body : rstr;
  absolute_file_path : rstr;
  line_range_start : N;
  line_range_end : N
}.

Record ReviewOutputEvent := mkReviewOutput {
  findings : list ReviewFinding;
  overall_explanation : rstr
}.

Definition format_location (item : ReviewFinding) : rstr :=
  absolute_file_path item ++ lit ":" ++ decimal (line_range_start item) ++ lit "-"
  ++ decimal (line_range_end item).

Definition REVIEW_FALLBACK_MESSAGE : rstr := lit "Reviewer failed to output a response.".

Definition em_dash : rstr := [8212%N].

(** The lines of one finding; [selection] is the flag of its index. *)
Definition format_finding (selection : option (list bool)) (idx : nat) (item : ReviewFinding) : list rstr :=
  [ []; match selection with
        | Some flags =>
            lit "- " ++ (if default true (flags !! idx) then lit "[x]" else lit "[ ]") ++ lit " "
            ++ title item ++ lit " " ++ em_dash ++ lit " " ++ format_location item
        | None => lit "- " ++ title item ++ lit " " ++ em_dash ++ lit " " ++ format_location item
        end ]
  ++ ((fun body_line => lit "  " ++ body_line) <$> lines (finding_body item)).

Definition format_review_findings_block (findings : list ReviewFinding) (selection : option (list bool))
  : rstr :=
  join [c_lf]
    ([ []; if 1 <? length findings then lit "Full review comments:" else lit "Review comment:" ]
     ++ concat (imap (format_finding selection) findings)).

Definition render_review_output_text (output : ReviewOutputEvent) : rstr :=
  let explanation := trim (overall_explanation output) in
  let sections := if is_empty explanation then [] else [explanation] in
  let sections :=
    if is_empty (findings output) then sections
    else
      let trimmed := trim (format_review_findings_block (findings output) None) in
      if is_empty trimmed then sections else sections ++ [trimmed] in
  if is_empty sections then REVIEW_FALLBACK_MESSAGE else join [c_lf; c_lf] sections.

Definition review_output_text (output : option ReviewOutputEvent) : rstr :=
  match output with Some output => render_review_output_text output | None => REVIEW_FALLBACK_MESSAGE end.

(** *** File changes *)

Definition map_patch_change_kind (change : FileChange) : PatchChangeKind :=
  match change with
  | AddFileChange _ => KindAdd
  | DeleteFileChange _ => KindDelete
  | UpdateFileChange _ move_path => KindUpdate move_path
  end.

Definition format_file_change_diff (change : FileChange) : rstr :=
  match change with
  | AddFileChange content => content
  | DeleteFileChange content => content
  | UpdateFileChange unified_diff (Some path) =>
      unified_diff ++ [c_lf; c_lf] ++ lit "Moved to: " ++ path
  | UpdateFileChange unified_diff None => unified_diff
  end.

Definition convert_patch_changes (changes : list (rstr * FileChange)) : list FileUpdateChange :=
  sort_by (fun a b => str_leb (change_path a) (change_path b))
    ((fun e => mkFileUpdateChange e.1 (map_patch_change_kind e.2) (format_file_change_diff e.2))
     <$> changes).

(** [i64::try_from] of a duration in milliseconds *)
Definition i64_max : Z := 9223372036854775807.

Definition millis_i64 (millis : N) : option Z :=
  if (Z.of_N millis <=? i64_max)%Z then Some (Z.of_N millis) else None.

(** ** What other crates do *)

Class Presentation (PathUri : Type) := {
  (** [codex_secrets::redact_secrets] *)
  redact_secrets : rstr -> rstr;
  (** [codex_shell_command::parse_command::shlex_join] and [parse_command] *)
  shlex_join : list rstr -> rstr;
  parse_command : list rstr -> list ParsedCommand;
  (** [PathUri::join], [LegacyAppPathString::from] *)
  path_uri_join : PathUri -> rstr -> option PathUri;
  legacy_path : PathUri -> rstr;
  (** the environment of [AbsolutePathBuf::join] *)
  presentation_env : path_env
}.

(** Thread ids, and the text of one ([ThreadId::to_string]) *)
Class ThreadIds (ThreadId : Type) := thread_id_text : ThreadId -> rstr.

(** ** Items *)

Section items.
Context {Json Failure PathUri ThreadId : Type} `{!Presentation PathUri} `{!ThreadIds ThreadId}.

(** [Failure] is [ImageGenerationFailure]. *)
Record ImageGenerationItem := mkImageGeneration {
  image_id : rstr;
  image_status : rstr;
  revised_prompt : option rstr;
  image_result : rstr;
  transparent_background : option bool;
  image_failure : option Failure;
  saved_path : option AbsolutePathBuf;
  imagegen_request_id : option rstr
}.

Record WebSearchItem := mkWebSearch {
  search_id : rstr;
  search_query : rstr;
  search_action : option WebSearchAction;
  search_results : option (list Json)
}.

Record McpToolCallResult := mkMcpResult {
  mcp_content : list Json;
  structured_content : option Json;
  mcp_meta : option Json
}.

(** [CallToolResult] of the core: with [is_error] *)
Record CallToolResult := mkCallToolResult {
  call_result : McpToolCallResult;
  is_error : option bool
}.

Inductive ThreadItem :=
| UserMessage (id : rstr) (client_id : option rstr) (content : list UserInput)
| HookPrompt (id : rstr) (fragments : list HookPromptFragment)
| AgentMessage (id text : rstr) (phase : option MessagePhase) (memory_citation : option MemoryCitation)
    (delivery : option AgentMessageDelivery)
| FunctionCallOutput (id name : rstr) (namespace : option rstr) (output : FunctionCallOutputBody)
| Plan (id text : rstr)
| Reasoning (id : rstr) (summary content : list rstr)
| CommandExecution (id : rstr) (plugin_id script_path : option rstr) (command cwd : rstr)
    (process_id : option rstr) (source : CommandExecutionSource) (status : CommandExecutionStatus)
    (command_actions : list CommandAction) (aggregated_output : option rstr)
    (exit_code : option Z) (duration_ms : option Z)
| FileChangeItem (id : rstr) (changes : list FileUpdateChange) (status : PatchApplyStatus)
| McpToolCall (id server tool : rstr) (status : McpToolCallStatus) (arguments : Json)
    (app_context : option McpToolCallAppContext) (mcp_app_resource_uri plugin_id : option rstr)
    (read_only_hint : option bool) (result : option McpToolCallResult)
    (error : option McpToolCallError) (duration_ms : option Z)
| DynamicToolCall (id : rstr) (namespace : option rstr) (tool : rstr) (arguments : Json)
    (status : DynamicToolCallStatus) (content_items : option (list DynamicToolCallOutputContentItem))
    (success : option bool) (duration_ms : option Z)
| CollabAgentToolCall (id : rstr) (tool : CollabAgentTool) (status : CollabAgentToolCallStatus)
    (sender_thread_id : rstr) (receiver_thread_ids : list rstr) (prompt model : option rstr)
    (reasoning_effort : option ReasoningEffort) (agents_states : list (rstr * CollabAgentState))
| SubAgentActivity (id : rstr) (kind : SubAgentActivityKind) (agent_thread_id agent_path : rstr)
| WebSearch (item : WebSearchItem)
| ImageView (id path : rstr)
| Sleep (item : SleepItem)
| ImageGeneration (item : ImageGenerationItem)
| EnteredReviewMode (id review : rstr)
| ExitedReviewMode (id review : rstr)
| ContextCompaction (id : rstr).

Definition item_id (i : ThreadItem) : rstr :=
  match i with
  | UserMessage id _ _ | HookPrompt id _ | AgentMessage id _ _ _ _ | FunctionCallOutput id _ _ _
  | Plan id _ | Reasoning id _ _ | CommandExecution id _ _ _ _ _ _ _ _ _ _ _ | FileChangeItem id _ _
  | McpToolCall id _ _ _ _ _ _ _ _ _ _ _ | DynamicToolCall id _ _ _ _ _ _ _
  | CollabAgentToolCall id _ _ _ _ _ _ _ _ | SubAgentActivity id _ _ _ | ImageView id _
  | EnteredReviewMode id _ | ExitedReviewMode id _ | ContextCompaction id => id
  | WebSearch item => search_id item
  | Sleep item => sleep_id item
  | ImageGeneration item => image_id item
  end.

(** *** Commands *)

Definition command_action_for_path_uri (cwd : PathUri) (parsed : ParsedCommand) : option CommandAction :=
  match parsed with
  | ParsedRead cmd name path =>
      match path_uri_join cwd path with
      | Some path => Some (ActionRead (redact_secrets cmd) name (legacy_path path))
      | None => None
      end
  | ParsedListFiles cmd path => Some (ActionListFiles (redact_secrets cmd) path)
  | ParsedSearch cmd query path => Some (ActionSearch (redact_secrets cmd) (redact_secrets <$> query) path)
  | ParsedUnknown cmd => Some (ActionUnknown (redact_secrets cmd))
  end.

Definition command_actions_for_path_uri (parsed_cmd : list ParsedCommand) (cwd : PathUri)
  : list CommandAction := omap (command_action_for_path_uri cwd) parsed_cmd.

Definition from_core_with_cwd (value : ParsedCommand) (cwd : AbsolutePathBuf) : CommandAction :=
  match value with
  | ParsedRead cmd name path =>
      ActionRead cmd name (as_text (resolve_path_against_base presentation_env path (as_text cwd)))
  | ParsedListFiles cmd path => ActionListFiles cmd path
  | ParsedSearch cmd query path => ActionSearch cmd query path
  | ParsedUnknown cmd => ActionUnknown cmd
  end.

(** [CommandExecutionPresentation::from_raw] *)
Definition presentation_from_raw (command : list rstr) (parsed_cmd : list ParsedCommand) (cwd : PathUri)
  : rstr * list CommandAction :=
  (redact_secrets (shlex_join command), command_actions_for_path_uri parsed_cmd cwd).

(** ** Events *)

Record ExecCommandBeginEvent := mkExecBegin {
  eb_call_id : rstr;
  eb_plugin_id : option rstr;
  eb_script_path : option rstr;
  eb_process_id : option rstr;
  eb_turn_id : rstr;
  eb_command : list rstr;
  eb_cwd : PathUri;
  eb_parsed_cmd : list ParsedCommand;
  eb_source : CommandExecutionSource
}.

Record ExecCommandEndEvent := mkExecEnd {
  ee_call_id : rstr;
  ee_plugin_id : option rstr;
  ee_script_path : option rstr;
  ee_process_id : option rstr;
  ee_turn_id : rstr;
  ee_command : list rstr;
  ee_cwd : PathUri;
  ee_parsed_cmd : list ParsedCommand;
  ee_source : CommandExecutionSource;
  ee_aggregated_output : rstr;
  ee_exit_code : Z;
  ee_duration : N;
  ee_status : ExecCommandStatus
}.

Inductive GuardianAssessmentStatus :=
| GuardianInProgress | GuardianApproved | GuardianDenied | GuardianTimedOut | GuardianAborted.

(** The actions from which an item is built, and the others. *)
Inductive GuardianAssessmentAction :=
| GuardianCommand (command : rstr) (cwd : AbsolutePathBuf)
| GuardianExecve (program : rstr) (argv : list rstr) (cwd : AbsolutePathBuf)
| GuardianWriteStdin
| GuardianApplyPatch
| GuardianNetworkAccess
| GuardianMcpToolCall
| GuardianRequestPermissions.

Record GuardianAssessmentEvent := mkGuardian {
  ga_target_item_id : option rstr;
  ga_plugin_id : option rstr;
  ga_script_path : option rstr;
  ga_turn_id : rstr;
  ga_status : GuardianAssessmentStatus;
  ga_action : GuardianAssessmentAction
}.

(** [ApplyPatchApprovalRequestEvent], [PatchApplyBeginEvent] *)
Record PatchApplyBeginEvent := mkPatchBegin {
  pb_call_id : rstr;
  pb_turn_id : rstr;
  pb_changes : list (rstr * FileChange)
}.

Record PatchApplyEndEvent := mkPatchEnd {
  pe_call_id : rstr;
  pe_turn_id : rstr;
  pe_changes : list (rstr * FileChange);
  pe_status : CorePatchApplyStatus
}.

(** *** Builders *)

Definition build_file_change_approval_request_item (p : PatchApplyBeginEvent) : ThreadItem :=
  FileChangeItem (pb_call_id p) (convert_patch_changes (pb_changes p)) PatchInProgress.

Definition build_file_change_begin_item (p : PatchApplyBeginEvent) : ThreadItem :=
  FileChangeItem (pb_call_id p) (convert_patch_changes (pb_changes p)) PatchInProgress.

Definition build_file_change_end_item (p : PatchApplyEndEvent) : ThreadItem :=
  FileChangeItem (pe_call_id p) (convert_patch_changes (pe_changes p)) (patch_status_from (pe_status p)).

Definition build_command_execution_begin_item (p : ExecCommandBeginEvent) : ThreadItem :=
  let '(command, command_actions) := presentation_from_raw (eb_command p) (eb_parsed_cmd p) (eb_cwd p) in
  CommandExecution (eb_call_id p) (eb_plugin_id p) (eb_script_path p) command (legacy_path (eb_cwd p))
    (eb_process_id p) (eb_source p) CommandInProgress command_actions None None None.

Definition build_command_execution_end_item (p : ExecCommandEndEvent) : ThreadItem :=
  let aggregated_output :=
    if is_empty (ee_aggregated_output p) then None else Some (ee_aggregated_output p) in
  let duration_ms := default i64_max (millis_i64 (ee_duration p)) in
  let '(command, command_actions) := presentation_from_raw (ee_command p) (ee_parsed_cmd p) (ee_cwd p) in
  CommandExecution (ee_call_id p) (ee_plugin_id p) (ee_script_path p) command (legacy_path (ee_cwd p))
    (ee_process_id p) (ee_source p) (command_status_from_exec (ee_status p)) command_actions
    aggregated_output (Some (ee_exit_code p)) (Some duration_ms).

Definition guardian_command_item (a : GuardianAssessmentEvent) (status : CommandExecutionStatus)
    (id command : rstr) (cwd : AbsolutePathBuf) (command_actions : list CommandAction) : ThreadItem :=
  CommandExecution id (ga_plugin_id a) (ga_script_path a) command (as_text cwd) None Agent status
    command_actions None None None.

Definition build_item_from_guardian_event (a : GuardianAssessmentEvent) (status : CommandExecutionStatus)
  : option ThreadItem :=
  match ga_action a with
  | GuardianCommand command cwd =>
      match ga_target_item_id a with
      | None => None
      | Some id => Some (guardian_command_item a status id command cwd [ActionUnknown command])
      end
  | GuardianExecve program argv cwd =>
      match ga_target_item_id a with
      | None => None
      | Some id =>
          let argv := if is_empty argv then [program] else program :: drop 1 argv in
          let command := shlex_join argv in
          let parsed_cmd := parse_command argv in
          let command_actions :=
            if is_empty parsed_cmd then [ActionUnknown command]
            else (fun parsed => from_core_with_cwd parsed cwd) <$> parsed_cmd in
          Some (guardian_command_item a status id command cwd command_actions)
      end
  | GuardianWriteStdin | GuardianApplyPatch | GuardianNetworkAccess | GuardianMcpToolCall
  | GuardianRequestPermissions => None
  end.

(** ** Turn items of the core *)

Record CommandExecutionItem := mkCommandItem {
  ci_id : rstr;
  ci_plugin_id : option rstr;
  ci_script_path : option rstr;
  ci_process_id : option rstr;
  ci_command : list rstr;
  ci_cwd : PathUri;
  ci_parsed_cmd : list ParsedCommand;
  ci_source : CommandExecutionSource;
  ci_status : CommandExecutionStatus;
  ci_aggregated_output : option rstr;
  ci_exit_code : option Z;
  ci_duration : option N
}.

Record McpToolCallItem := mkMcpItem {
  mi_id : rstr;
  mi_server : rstr;
  mi_tool : rstr;
  mi_arguments : Json;
  mi_connector_id : option rstr;
  mi_mcp_app_resource_uri : option rstr;
  mi_link_id : option rstr;
  mi_app_name : option rstr;
  mi_action_name : option rstr;
  mi_plugin_id : option rstr;
  mi_read_only_hint : option bool;
  mi_status : McpToolCallStatus;
  mi_result : option CallToolResult;
  mi_error : option McpToolCallError;
  mi_duration : option N
}.

Inductive ExtensionItem :=
| ExtensionImageGeneration (item : ImageGenerationItem)
| ExtensionSleep (item : SleepItem)
| ExtensionWebSearch (item : WebSearchItem).

(** An [AgentPath] is its text; the content of an agent message is the list
    of its texts. *)
Inductive TurnItem :=
| CoreUserMessage (id : rstr) (client_id : option rstr) (content : list UserInput)
| CoreFunctionCallOutput (id name : rstr) (namespace : option rstr) (output : FunctionCallOutputBody)
| CoreHookPrompt (id : rstr) (fragments : list HookPromptFragment)
| CoreAgentMessage (id : rstr) (content : list rstr) (phase : option MessagePhase)
    (memory_citation : option MemoryCitation) (delivery : option AgentMessageDelivery)
| CorePlan (id text : rstr)
| CoreReasoning (id : rstr) (summary_text raw_content : list rstr)
| CoreCommandExecution (command : CommandExecutionItem)
| CoreDynamicToolCall (id : rstr) (namespace : option rstr) (tool : rstr) (arguments : Json)
    (status : DynamicToolCallStatus) (content_items : option (list DynamicToolCallOutputContentItem))
    (success : option bool) (duration : option N)
| CoreCollabAgentToolCall (id : rstr) (tool : CollabAgentTool) (status : CollabAgentToolCallStatus)
    (sender_thread_id : ThreadId) (receiver_thread_ids : list ThreadId) (prompt model : option rstr)
    (reasoning_effort : option ReasoningEffort) (agents_states : list (ThreadId * AgentStatus))
| CoreSubAgentActivity (id : rstr) (kind : SubAgentActivityKind) (agent_thread_id : ThreadId)
    (agent_path : rstr)
| CoreWebSearch (id query : rstr) (action : WebSearchAction) (results : option (list Json))
| CoreImageView (id : rstr) (path : PathUri)
| CoreExtension (item : ExtensionItem)
| CoreImageGeneration (id status : rstr) (revised_prompt : option rstr) (result : rstr)
    (saved_path : option AbsolutePathBuf)
| CoreEnteredReviewMode (id user_facing_hint : rstr)
| CoreExitedReviewMode (id : rstr) (review_output : option ReviewOutputEvent)
| CoreFileChange (id : rstr) (changes : list (rstr * FileChange)) (status : option CorePatchApplyStatus)
| CoreMcpToolCall (item : McpToolCallItem)
| CoreContextCompaction (id : rstr).

Definition app_context_from (connector_id link_id mcp_app_resource_uri app_name action_name : option rstr)
  : option McpToolCallAppContext :=
  (fun connector_id => mkAppContext connector_id link_id mcp_app_resource_uri app_name action_name)
  <$> connector_id.

Definition states_from (agents_states : list (ThreadId * AgentStatus)) : list (rstr * CollabAgentState) :=
  (fun e => (thread_id_text e.1, collab_agent_state_from e.2)) <$> agents_states.

Definition from_core_command (c : CommandExecutionItem) : ThreadItem :=
  let '(command, command_actions) := presentation_from_raw (ci_command c) (ci_parsed_cmd c) (ci_cwd c) in
  CommandExecution (ci_id c) (ci_plugin_id c) (ci_script_path c) command (legacy_path (ci_cwd c))
    (ci_process_id c) (ci_source c) (ci_status c) command_actions
    (match ci_aggregated_output c with
     | Some output => if is_empty output then None else Some output
     | None => None
     end)
    (ci_exit_code c) (ci_duration c ≫= millis_i64).

Definition from_core_mcp (m : McpToolCallItem) : ThreadItem :=
  McpToolCall (mi_id m) (mi_server m) (mi_tool m) (mi_status m) (mi_arguments m)
    (app_context_from (mi_connector_id m) (mi_link_id m) (mi_mcp_app_resource_uri m) (mi_app_name m)
       (mi_action_name m))
    (mi_mcp_app_resource_uri m) (mi_plugin_id m) (mi_read_only_hint m) (call_result <$> mi_result m)
    (mi_error m) (mi_duration m ≫= millis_i64).

Definition thread_item_from (value : TurnItem) : ThreadItem :=
  match value with
  | CoreUserMessage id client_id content => UserMessage id client_id content
  | CoreHookPrompt id fragments => HookPrompt id fragments
  | CoreAgentMessage id content phase memory_citation delivery =>
      AgentMessage id (concat content) phase memory_citation delivery
  | CoreFunctionCallOutput id name namespace output => FunctionCallOutput id name namespace output
  | CorePlan id text => Plan id text
  | CoreReasoning id summary_text raw_content => Reasoning id summary_text raw_content
  | CoreCommandExecution command => from_core_command command
  | CoreDynamicToolCall id namespace tool arguments status content_items success duration =>
      DynamicToolCall id namespace tool arguments status content_items success (duration ≫= millis_i64)
  | CoreCollabAgentToolCall id tool status sender receivers prompt model effort agents_states =>
      CollabAgentToolCall id tool status (thread_id_text sender) (thread_id_text <$> receivers) prompt
        model effort (states_from agents_states)
  | CoreSubAgentActivity id kind agent_thread_id agent_path =>
      SubAgentActivity id kind (thread_id_text agent_thread_id) agent_path
  | CoreWebSearch id query action results => WebSearch (mkWebSearch id query (Some action) results)
  | CoreImageView id path => ImageView id (legacy_path path)
  | CoreExtension (ExtensionImageGeneration item) => ImageGeneration item
  | CoreExtension (ExtensionSleep item) => Sleep item
  | CoreExtension (ExtensionWebSearch item) => WebSearch item
  | CoreImageGeneration id status revised_prompt result saved_path =>
      ImageGeneration (mkImageGeneration id status revised_prompt result None None saved_path None)
  | CoreEnteredReviewMode id user_facing_hint => EnteredReviewMode id user_facing_hint
  | CoreExitedReviewMode id review_output => ExitedReviewMode id (review_output_text review_output)
  | CoreFileChange id changes status =>
      FileChangeItem id (convert_patch_changes changes)
        (default PatchInProgress (patch_status_from <$> status))
  | CoreMcpToolCall item => from_core_mcp item
  | CoreContextCompaction id => ContextCompaction id
  end.
End items.

Arguments ImageGenerationItem : clear implicits.
Arguments WebSearchItem : clear implicits.
Arguments McpToolCallResult : clear implicits.
Arguments CallToolResult : clear implicits.
Arguments ThreadItem : clear implicits.
Arguments ExecCommandBeginEvent : clear implicits.
Arguments ExecCommandEndEvent : clear implicits.
Arguments CommandExecutionItem : clear implicits.
Arguments McpToolCallItem : clear implicits.
Arguments ExtensionItem : clear implicits.
Arguments TurnItem : clear implicits.
