(* ===== verification/ThreadHistory.v ===== *)
(** * ThreadHistory: [codex-rs/app-server-protocol/src/protocol/thread_history.rs]

    The turns of a thread, rebuilt from the persisted rollout or tracked from
    the events of a running session, and the incremental changes that tell a
    client what one input changed.

    The state is [ThreadHistoryBuilder]; an input is one call of
    [handle_rollout_item] or [handle_event].  Random ids ([Uuid::now_v7]) are
    the values of [new_uuid] in turn; [uuids_drawn] counts them.  The counter
    [next_item_index] is an [i64]: it grows by one per input at most, so its
    overflow is out of reach. *)

From Stdlib Require Import ZArith Lia.
From stdpp Require Import base list strings.
From S2P Require Import Prelude AbsolutePath Truncate ResponseItems JsonPatch ContextFragments ThreadItems.

Open Scope rust_scope.

(** ** Turns *)

Inductive NonSteerableTurnKind := ReviewTurn | CompactTurn.

Inductive CodexErrorInfo :=
| ContextWindowExceeded
| SessionBudgetExceeded
| UsageLimitExceeded
| RateLimitExceeded
| ServerOverloaded
| CyberPolicy
| MisalignmentPolicyViolation
| HttpConnectionFailed (http_status_code : option N)
| ResponseStreamConnectionFailed (http_status_code : option N)
| InternalServerError
| Unauthorized
| BadRequest
| SandboxError
| ResponseStreamDisconnected (http_status_code : option N)
| ResponseTooManyFailedAttempts (http_status_code : option N)
| ActiveTurnNotSteerable (turn_kind : NonSteerableTurnKind)
| ThreadRollbackFailed
| OtherError.

Definition info_affects_turn_status (i : CodexErrorInfo) : bool :=
  match i with
  | ThreadRollbackFailed | ActiveTurnNotSteerable _ => false
  | _ => true
  end.

Record MisalignmentErrorDetails := mkMisalignment {
  error_type : option rstr;
  detailed_explanation : option rstr;
  steer : option rstr
}.

Record ErrorEvent := mkErrorEvent {
  error_message : rstr;
  error_codex_info : option CodexErrorInfo;
  error_misalignment : option MisalignmentErrorDetails
}.

Definition affects_turn_status (e : ErrorEvent) : bool :=
  match error_codex_info e with Some info => info_affects_turn_status info | None => true end.

Inductive TurnStatus := TurnCompleted | TurnInterrupted | TurnFailed | TurnInProgress.
Inductive TurnItemsView := NotLoaded | Summary | Full.

Record TurnError := mkTurnError {
  turn_error_message : rstr;
  turn_codex_error_info : option CodexErrorInfo;
  additional_details : option rstr;
  turn_misalignment : option MisalignmentErrorDetails
}.

(** [V2TurnError { .. }] of an error event *)
Definition turn_error_from (e : ErrorEvent) : TurnError :=
  mkTurnError (error_message e) (error_codex_info e) None (error_misalignment e).

Section history.
Context {Json Failure PathUri ThreadId Extra RJson : Type}.
Context `{!Presentation PathUri} `{!ThreadIds ThreadId}.
Context (json_null : Json) (new_uuid : nat -> rstr) (from_xml : rstr -> option (rstr * rstr)).
Abbreviation ThreadItem := (ThreadItem Json Failure).
Abbreviation TurnItem := (TurnItem Json Failure PathUri ThreadId).

Record Turn := mkTurn {
  turn_id : rstr;
  turn_items : list ThreadItem;
  items_view : TurnItemsView;
  turn_status : TurnStatus;
  turn_error : option TurnError;
  turn_started_at : option Z;
  turn_completed_at : option Z;
  turn_duration_ms : option Z
}.

Record PendingTurn := mkPending {
  pending_id : rstr;
  pending_items : list ThreadItem;
  pending_error : option TurnError;
  pending_status : TurnStatus;
  pending_started_at : option Z;
  pending_completed_at : option Z;
  pending_duration_ms : option Z;
  opened_explicitly : bool;
  saw_compaction : bool;
  rollout_start_index : nat
}.

Definition turn_from (t : PendingTurn) : Turn :=
  mkTurn (pending_id t) (pending_items t) Full (pending_status t) (pending_error t)
    (pending_started_at t) (pending_completed_at t) (pending_duration_ms t).

Definition set_pending_items (t : PendingTurn) (items : list ThreadItem) : PendingTurn :=
  mkPending (pending_id t) items (pending_error t) (pending_status t) (pending_started_at t)
    (pending_completed_at t) (pending_duration_ms t) (opened_explicitly t) (saw_compaction t)
    (rollout_start_index t).

Definition set_turn_items (t : Turn) (items : list ThreadItem) : Turn :=
  mkTurn (turn_id t) items (items_view t) (turn_status t) (turn_error t) (turn_started_at t)
    (turn_completed_at t) (turn_duration_ms t).

(** ** Changes *)

Record ThreadHistoryItemChange := mkItemChange {
  change_turn_id : rstr;
  change_item : ThreadItem;
  started_at_ms : option Z;
  completed_at_ms : option Z
}.

Record ThreadHistoryTurnChange := mkTurnChange {
  changed_turn_id : rstr;
  changed_status : TurnStatus;
  changed_error : option TurnError;
  changed_started_at : option Z;
  changed_completed_at : option Z;
  changed_duration_ms : option Z
}.

Record ThreadHistoryChangeSet := mkChangeSet {
  changed_items : list ThreadHistoryItemChange;
  changed_turns : list ThreadHistoryTurnChange;
  removed_turn_ids : list rstr
}.

Definition default_change_set : ThreadHistoryChangeSet := mkChangeSet [] [] [].

Definition change_set_is_empty (c : ThreadHistoryChangeSet) : bool :=
  is_empty (changed_items c) && is_empty (changed_turns c) && is_empty (removed_turn_ids c).

Definition from_pending_turn (t : PendingTurn) : ThreadHistoryTurnChange :=
  mkTurnChange (pending_id t) (pending_status t) (pending_error t) (pending_started_at t)
    (pending_completed_at t) (pending_duration_ms t).

Definition change_from_turn (t : Turn) : ThreadHistoryTurnChange :=
  mkTurnChange (turn_id t) (turn_status t) (turn_error t) (turn_started_at t) (turn_completed_at t)
    (turn_duration_ms t).

(** ** The accumulator of a batch

    The index maps are association lists with at most one entry per key. *)

Record ThreadHistoryChangeAccumulator := mkAccumulator {
  acc_items : list (option ThreadHistoryItemChange);
  acc_item_indexes : list (rstr * rstr * nat);
  acc_turns : list (option ThreadHistoryTurnChange);
  acc_turn_indexes : list (rstr * nat);
  acc_removed : list rstr;
  acc_removed_indexes : list (rstr * nat)
}.

Definition default_accumulator : ThreadHistoryChangeAccumulator := mkAccumulator [] [] [] [] [] [].

(** [HashMap::get] and [HashMap::remove] *)
Fixpoint index_get {K} `{!EqDecision K} (m : list (K * nat)) (k : K) : option nat :=
  match m with
  | [] => None
  | (k', n) :: m' => if decide (k' = k) then Some n else index_get m' k
  end.

Definition index_remove {K} `{!EqDecision K} (m : list (K * nat)) (k : K) : list (K * nat) :=
  List.filter (fun e => negb (bool_decide (e.1 = k))) m.

Definition push_item_change (a : ThreadHistoryChangeAccumulator) (c : ThreadHistoryItemChange)
  : ThreadHistoryChangeAccumulator :=
  let key := (change_turn_id c, item_id (change_item c)) in
  match index_get (acc_item_indexes a) key with
  | Some index =>
      mkAccumulator (<[index := Some c]> (acc_items a)) (acc_item_indexes a) (acc_turns a)
        (acc_turn_indexes a) (acc_removed a) (acc_removed_indexes a)
  | None =>
      mkAccumulator (acc_items a ++ [Some c]) ((key, length (acc_items a)) :: acc_item_indexes a)
        (acc_turns a) (acc_turn_indexes a) (acc_removed a) (acc_removed_indexes a)
  end.

Definition push_turn_change (a : ThreadHistoryChangeAccumulator) (c : ThreadHistoryTurnChange)
  : ThreadHistoryChangeAccumulator :=
  match index_get (acc_turn_indexes a) (changed_turn_id c) with
  | Some index =>
      mkAccumulator (acc_items a) (acc_item_indexes a) (<[index := Some c]> (acc_turns a))
        (acc_turn_indexes a) (acc_removed a) (acc_removed_indexes a)
  | None =>
      mkAccumulator (acc_items a) (acc_item_indexes a) (acc_turns a ++ [Some c])
        ((changed_turn_id c, length (acc_turns a)) :: acc_turn_indexes a) (acc_removed a)
        (acc_removed_indexes a)
  end.

(** The loop over the keys of the items of a removed turn. *)
Definition forget_items (keys : list (rstr * rstr))
    (st : list (option ThreadHistoryItemChange) * list (rstr * rstr * nat))
  : list (option ThreadHistoryItemChange) * list (rstr * rstr * nat) :=
  foldl (fun '(items, indexes) key =>
    match index_get indexes key with
    | Some index => (<[index := None]> items, index_remove indexes key)
    | None => (items, indexes)
    end) st keys.

Definition push_removed_turn_id (a : ThreadHistoryChangeAccumulator) (turn_id : rstr)
  : ThreadHistoryChangeAccumulator :=
  let '(removed, removed_indexes) :=
    match index_get (acc_removed_indexes a) turn_id with
    | None => (acc_removed a ++ [turn_id], (turn_id, length (acc_removed a)) :: acc_removed_indexes a)
    | Some _ => (acc_removed a, acc_removed_indexes a)
    end in
  let '(turns, turn_indexes) :=
    match index_get (acc_turn_indexes a) turn_id with
    | Some index => (<[index := None]> (acc_turns a), index_remove (acc_turn_indexes a) turn_id)
    | None => (acc_turns a, acc_turn_indexes a)
    end in
  let removed_item_keys := List.filter (fun key => key.1 == turn_id) (acc_item_indexes a).*1 in
  let '(items, item_indexes) := forget_items removed_item_keys (acc_items a, acc_item_indexes a) in
  mkAccumulator items item_indexes turns turn_indexes removed removed_indexes.

Definition accumulator_push (a : ThreadHistoryChangeAccumulator) (c : ThreadHistoryChangeSet)
  : ThreadHistoryChangeAccumulator :=
  let a := foldl push_removed_turn_id a (removed_turn_ids c) in
  let a := foldl push_item_change a (changed_items c) in
  foldl push_turn_change a (changed_turns c).

Definition accumulator_finish (a : ThreadHistoryChangeAccumulator) : ThreadHistoryChangeSet :=
  mkChangeSet (omap id (acc_items a)) (omap id (acc_turns a)) (acc_removed a).

(** ** The builder *)

Record ThreadHistoryBuilder := mkBuilder {
  turns : list Turn;
  current_turn : option PendingTurn;
  next_item_index : Z;
  current_rollout_index : nat;
  next_rollout_index : nat;
  active_change_set : option ThreadHistoryChangeSet;
  uuids_drawn : nat
}.

Definition new_builder : ThreadHistoryBuilder := mkBuilder [] None 1 0 0 None 0.

Definition set_turns (b : ThreadHistoryBuilder) (ts : list Turn) : ThreadHistoryBuilder :=
  mkBuilder ts (current_turn b) (next_item_index b) (current_rollout_index b) (next_rollout_index b)
    (active_change_set b) (uuids_drawn b).

Definition set_current_turn (b : ThreadHistoryBuilder) (t : option PendingTurn) : ThreadHistoryBuilder :=
  mkBuilder (turns b) t (next_item_index b) (current_rollout_index b) (next_rollout_index b)
    (active_change_set b) (uuids_drawn b).

Definition set_active_change_set (b : ThreadHistoryBuilder) (c : option ThreadHistoryChangeSet)
  : ThreadHistoryBuilder :=
  mkBuilder (turns b) (current_turn b) (next_item_index b) (current_rollout_index b)
    (next_rollout_index b) c (uuids_drawn b).

Definition set_next_item_index (b : ThreadHistoryBuilder) (n : Z) : ThreadHistoryBuilder :=
  mkBuilder (turns b) (current_turn b) n (current_rollout_index b) (next_rollout_index b)
    (active_change_set b) (uuids_drawn b).

(** *** Queries *)

Definition active_turn_snapshot (b : ThreadHistoryBuilder) : option Turn :=
  match current_turn b with Some t => Some (turn_from t) | None => last (turns b) end.

Definition active_turn_id (b : ThreadHistoryBuilder) : option rstr :=
  match current_turn b with Some t => Some (pending_id t) | None => turn_id <$> last (turns b) end.

(** [iter().find(|turn| turn.id == id)] *)
Fixpoint find_turn (id : rstr) (ts : list Turn) : option Turn :=
  match ts with
  | [] => None
  | t :: ts' => if turn_id t == id then Some t else find_turn id ts'
  end.

Definition is_current (b : ThreadHistoryBuilder) (id : rstr) : bool :=
  match current_turn b with Some t => pending_id t == id | None => false end.

Definition turn_snapshot (b : ThreadHistoryBuilder) (id : rstr) : option Turn :=
  match current_turn b with
  | Some t => if pending_id t == id then Some (turn_from t) else find_turn id (turns b)
  | None => find_turn id (turns b)
  end.

Definition active_turn_position (b : ThreadHistoryBuilder) : option nat :=
  match current_turn b with
  | Some _ => Some (length (turns b))
  | None => if is_empty (turns b) then None else Some (length (turns b) - 1)
  end.

Definition has_active_turn (b : ThreadHistoryBuilder) : bool := is_some (current_turn b).

Definition active_turn_id_if_explicit (b : ThreadHistoryBuilder) : option rstr :=
  match current_turn b with
  | Some t => if opened_explicitly t then Some (pending_id t) else None
  | None => None
  end.

Definition active_turn_start_index (b : ThreadHistoryBuilder) : option nat :=
  rollout_start_index <$> current_turn b.

(** *** Recording changes *)

Definition is_tracking_changes (b : ThreadHistoryBuilder) : bool := is_some (active_change_set b).

Definition record_changed_item (b : ThreadHistoryBuilder) (turn_id : rstr) (item : ThreadItem)
  : ThreadHistoryBuilder :=
  match active_change_set b with
  | Some c =>
      set_active_change_set b
        (Some (mkChangeSet (changed_items c ++ [mkItemChange turn_id item None None])
                 (changed_turns c) (removed_turn_ids c)))
  | None => b
  end.

Definition record_changed_turn (b : ThreadHistoryBuilder) (t : ThreadHistoryTurnChange)
  : ThreadHistoryBuilder :=
  match active_change_set b with
  | Some c =>
      set_active_change_set b
        (Some (mkChangeSet (changed_items c) (changed_turns c ++ [t]) (removed_turn_ids c)))
  | None => b
  end.

Definition record_changed_pending_turn (b : ThreadHistoryBuilder) (t : PendingTurn)
  : ThreadHistoryBuilder :=
  if is_tracking_changes b then record_changed_turn b (from_pending_turn t) else b.

Definition record_removed_turn_ids (b : ThreadHistoryBuilder) (ids : list rstr)
  : ThreadHistoryBuilder :=
  match active_change_set b with
  | Some c =>
      set_active_change_set b
        (Some (mkChangeSet (changed_items c) (changed_turns c) (removed_turn_ids c ++ ids)))
  | None => b
  end.

(** *** Turns and items *)

Definition finish_current_turn (b : ThreadHistoryBuilder) : ThreadHistoryBuilder :=
  match current_turn b with
  | Some t =>
      let b := set_current_turn b None in
      if is_empty (pending_items t) && negb (opened_explicitly t) && negb (saw_compaction t) then b
      else set_turns b (turns b ++ [turn_from t])
  | None => b
  end.

Definition finish (b : ThreadHistoryBuilder) : list Turn := turns (finish_current_turn b).

Definition draw_uuid (b : ThreadHistoryBuilder) : rstr * ThreadHistoryBuilder :=
  (new_uuid (uuids_drawn b),
   mkBuilder (turns b) (current_turn b) (next_item_index b) (current_rollout_index b)
     (next_rollout_index b) (active_change_set b) (S (uuids_drawn b))).

Definition rollout_turn_id (index : nat) : rstr := lit "rollout-" ++ decimal (N.of_nat index).

Definition new_turn (b : ThreadHistoryBuilder) (id : option rstr) : PendingTurn * ThreadHistoryBuilder :=
  let '(id, b) :=
    match id with
    | Some id => (id, b)
    | None =>
        if next_rollout_index b =? 0 then draw_uuid b
        else (rollout_turn_id (current_rollout_index b), b)
    end in
  (mkPending id [] None TurnCompleted None None None false false (current_rollout_index b), b).

Definition with_status (t : PendingTurn) (s : TurnStatus) : PendingTurn :=
  mkPending (pending_id t) (pending_items t) (pending_error t) s (pending_started_at t)
    (pending_completed_at t) (pending_duration_ms t) (opened_explicitly t) (saw_compaction t)
    (rollout_start_index t).

Definition with_started_at (t : PendingTurn) (started_at : option Z) : PendingTurn :=
  mkPending (pending_id t) (pending_items t) (pending_error t) (pending_status t) started_at
    (pending_completed_at t) (pending_duration_ms t) (opened_explicitly t) (saw_compaction t)
    (rollout_start_index t).

(** [PendingTurn::opened_explicitly] *)
Definition open_explicitly (t : PendingTurn) : PendingTurn :=
  mkPending (pending_id t) (pending_items t) (pending_error t) (pending_status t)
    (pending_started_at t) (pending_completed_at t) (pending_duration_ms t) true (saw_compaction t)
    (rollout_start_index t).

(** The turn that [ensure_turn] returns, and the builder that holds it. *)
Definition ensure_turn (b : ThreadHistoryBuilder) : PendingTurn * ThreadHistoryBuilder :=
  match current_turn b with
  | Some t => (t, b)
  | None =>
      let '(t, b) := new_turn b None in
      (t, set_current_turn (record_changed_pending_turn b t) (Some t))
  end.

Fixpoint upsert_turn_item (items : list ThreadItem) (item : ThreadItem) : list ThreadItem :=
  match items with
  | [] => [item]
  | existing :: items' =>
      if item_id existing == item_id item then item :: items'
      else existing :: upsert_turn_item items' item
  end.

Definition push_item_in_current_turn (b : ThreadHistoryBuilder) (item : ThreadItem)
  : ThreadHistoryBuilder :=
  let '(t, b) := ensure_turn b in
  let b := set_current_turn b (Some (set_pending_items t (pending_items t ++ [item]))) in
  record_changed_item b (pending_id t) item.

(** The first turn with an id, replaced. *)
Fixpoint alter_turn (id : rstr) (f : Turn -> Turn) (ts : list Turn) : list Turn :=
  match ts with
  | [] => []
  | t :: ts' => if turn_id t == id then f t :: ts' else t :: alter_turn id f ts'
  end.

Definition upsert_item_in_turn_id (b : ThreadHistoryBuilder) (id : rstr) (item : ThreadItem)
  : ThreadHistoryBuilder :=
  let in_turns :=
    match find_turn id (turns b) with
    | Some t =>
        let b := set_turns b
          (alter_turn id (fun t => set_turn_items t (upsert_turn_item (turn_items t) item)) (turns b)) in
        record_changed_item b (turn_id t) item
    | None => b
    end in
  match current_turn b with
  | Some t =>
      if pending_id t == id then
        let b := set_current_turn b
          (Some (set_pending_items t (upsert_turn_item (pending_items t) item))) in
        record_changed_item b (pending_id t) item
      else in_turns
  | None => in_turns
  end.

Definition upsert_item_in_current_turn (b : ThreadHistoryBuilder) (item : ThreadItem)
  : ThreadHistoryBuilder :=
  let '(t, b) := ensure_turn b in
  let b := set_current_turn b (Some (set_pending_items t (upsert_turn_item (pending_items t) item))) in
  record_changed_item b (pending_id t) item.

(** [if payload.turn_id.is_empty() { .. } else { .. }] *)
Definition upsert_item_in_turn_or_current (b : ThreadHistoryBuilder) (id : rstr) (item : ThreadItem)
  : ThreadHistoryBuilder :=
  if is_empty id then upsert_item_in_current_turn b item else upsert_item_in_turn_id b id item.

Definition generated_item_id (index : Z) : rstr := lit "item-" ++ decimal (Z.to_N index).

Definition next_item_id (b : ThreadHistoryBuilder) : rstr * ThreadHistoryBuilder :=
  (generated_item_id (next_item_index b), set_next_item_index b (next_item_index b + 1)).

Definition push_generated (b : ThreadHistoryBuilder) (item : rstr -> ThreadItem) : ThreadHistoryBuilder :=
  let '(id, b) := next_item_id b in push_item_in_current_turn b (item id).

(** ** Messages and reasoning *)

Record UserMessageEvent := mkUserMessage {
  um_client_id : option rstr;
  um_message : rstr;
  um_images : option (list rstr);
  um_image_details : list (option ImageDetail);
  um_local_images : list rstr;
  um_local_image_details : list (option ImageDetail);
  um_audio : option (list rstr);
  um_local_audio : list rstr;
  um_text_elements : list TextElement
}.

Record AgentMessageEvent := mkAgentMessage {
  am_message : rstr;
  am_phase : option MessagePhase;
  am_memory_citation : option MemoryCitation;
  am_delivery : option AgentMessageDelivery
}.

(** [details.get(idx).copied().flatten()] *)
Definition detail_at (details : list (option ImageDetail)) (idx : nat) : option ImageDetail :=
  mjoin (details !! idx).

Definition build_user_inputs (p : UserMessageEvent) : list UserInput :=
  (if is_empty (trim (um_message p)) then [] else [TextInput (um_message p) (um_text_elements p)])
  ++ imap (fun idx image => ImageInput image (detail_at (um_image_details p) idx))
       (default [] (um_images p))
  ++ imap (fun idx path => LocalImageInput path (detail_at (um_local_image_details p) idx))
       (um_local_images p)
  ++ (AudioInput <$> default [] (um_audio p))
  ++ (LocalAudioInput <$> um_local_audio p).

Definition handle_user_message (b : ThreadHistoryBuilder) (p : UserMessageEvent) : ThreadHistoryBuilder :=
  let b :=
    match current_turn b with
    | Some t =>
        if negb (opened_explicitly t) && negb (saw_compaction t && is_empty (pending_items t))
        then finish_current_turn b else b
    | None => b
    end in
  push_generated b (fun id => UserMessage id (um_client_id p) (build_user_inputs p)).

Definition handle_agent_message (b : ThreadHistoryBuilder) (p : AgentMessageEvent) : ThreadHistoryBuilder :=
  if is_empty (am_message p) then b
  else push_generated b (fun id =>
         AgentMessage id (am_message p) (am_phase p) (am_memory_citation p) (am_delivery p)).

Definition replace_last {A} (l : list A) (x : A) : list A := removelast l ++ [x].

Definition handle_agent_reasoning (b : ThreadHistoryBuilder) (text : rstr) : ThreadHistoryBuilder :=
  if is_empty text then b
  else
    let '(t, b) := ensure_turn b in
    match last (pending_items t) with
    | Some (Reasoning id summary content) =>
        let item := Reasoning id (summary ++ [text]) content in
        let b := set_current_turn b (Some (set_pending_items t (replace_last (pending_items t) item))) in
        record_changed_item b (pending_id t) item
    | _ => push_generated b (fun id => Reasoning id [text] [])
    end.

Definition handle_agent_reasoning_raw_content (b : ThreadHistoryBuilder) (text : rstr)
  : ThreadHistoryBuilder :=
  if is_empty text then b
  else
    let '(t, b) := ensure_turn b in
    match last (pending_items t) with
    | Some (Reasoning id summary content) =>
        let item := Reasoning id summary (content ++ [text]) in
        let b := set_current_turn b (Some (set_pending_items t (replace_last (pending_items t) item))) in
        record_changed_item b (pending_id t) item
    | _ => push_generated b (fun id => Reasoning id [] [text])
    end.

(** [HookPromptItem::from_fragments] of the parsed content, with its id. *)
Definition parse_hook_prompt_message (content : list ContentItem) : option (list HookPromptFragment) :=
  match mapM (fun c =>
          match c with
          | MsgInputText text =>
              (fun e => mkHookFragment e.1 e.2) <$> parse_hook_prompt_fragment from_xml text
          | _ => None
          end) content with
  | None | Some [] => None
  | Some fragments => Some fragments
  end.

Definition handle_response_item (b : ThreadHistoryBuilder) (i : ResponseItem Extra RJson)
  : ThreadHistoryBuilder :=
  match i with
  | Message id role content _ _ =>
      if role != lit "user" then b
      else
        match parse_hook_prompt_message content with
        | None => b
        | Some fragments =>
            let '(id, b) := match id with Some id => (id, b) | None => draw_uuid b end in
            push_item_in_current_turn b (HookPrompt id fragments)
        end
  | _ => b
  end.

(** ** Items with a lifecycle *)

Definition upsert_review_mode_item (b : ThreadHistoryBuilder) (turn_id : option rstr) (item : ThreadItem)
  : ThreadHistoryBuilder :=
  match turn_id with
  | None => upsert_item_in_current_turn b item
  | Some id =>
      let b :=
        if negb (is_current b id) && negb (is_some (find_turn id (turns b))) then
          let '(t, b) := new_turn (finish_current_turn b) (Some id) in
          set_current_turn (record_changed_pending_turn b t) (Some t)
        else b in
      upsert_item_in_turn_id b id item
  end.

Definition is_review_mode_item (item : TurnItem) : bool :=
  match item with CoreEnteredReviewMode _ _ | CoreExitedReviewMode _ _ => true | _ => false end.

Definition should_upsert (item : TurnItem) : bool :=
  match item with
  | CorePlan _ text => negb (is_empty text)
  | CoreHookPrompt _ _ | CoreFunctionCallOutput _ _ _ _ | CoreCommandExecution _
  | CoreDynamicToolCall _ _ _ _ _ _ _ _ | CoreCollabAgentToolCall _ _ _ _ _ _ _ _ _
  | CoreSubAgentActivity _ _ _ _ | CoreExtension _ | CoreEnteredReviewMode _ _
  | CoreExitedReviewMode _ _ => true
  | CoreUserMessage _ _ _ | CoreAgentMessage _ _ _ _ _ | CoreReasoning _ _ _ | CoreWebSearch _ _ _ _
  | CoreImageView _ _ | CoreImageGeneration _ _ _ _ _ | CoreFileChange _ _ _ | CoreMcpToolCall _
  | CoreContextCompaction _ => false
  end.

Definition handle_materialized_item_lifecycle (b : ThreadHistoryBuilder) (turn_id : rstr) (item : TurnItem)
  : ThreadHistoryBuilder :=
  if should_upsert item then
    if is_review_mode_item item then upsert_review_mode_item b (Some turn_id) (thread_item_from item)
    else upsert_item_in_turn_id b turn_id (thread_item_from item)
  else b.

Definition handle_item_started (b : ThreadHistoryBuilder) (turn_id : rstr) (item : TurnItem)
  : ThreadHistoryBuilder := handle_materialized_item_lifecycle b turn_id item.

Definition handle_item_completed (b : ThreadHistoryBuilder) (turn_id : rstr) (item : TurnItem)
  : ThreadHistoryBuilder := handle_materialized_item_lifecycle b turn_id item.

Definition handle_web_search_begin (b : ThreadHistoryBuilder) (call_id : rstr) : ThreadHistoryBuilder :=
  upsert_item_in_current_turn b (WebSearch (mkWebSearch call_id [] None None)).

Definition handle_web_search_end (b : ThreadHistoryBuilder) (call_id query : rstr) (action : WebSearchAction)
    (results : option (list Json)) : ThreadHistoryBuilder :=
  upsert_item_in_current_turn b (WebSearch (mkWebSearch call_id query (Some action) results)).

Definition handle_exec_command_begin (b : ThreadHistoryBuilder) (p : ExecCommandBeginEvent PathUri)
  : ThreadHistoryBuilder :=
  upsert_item_in_turn_id b (eb_turn_id p) (build_command_execution_begin_item p).

Definition handle_exec_command_end (b : ThreadHistoryBuilder) (p : ExecCommandEndEvent PathUri)
  : ThreadHistoryBuilder :=
  upsert_item_in_turn_id b (ee_turn_id p) (build_command_execution_end_item p).

Definition guardian_item_status (s : GuardianAssessmentStatus) : option CommandExecutionStatus :=
  match s with
  | GuardianInProgress => Some CommandInProgress
  | GuardianDenied | GuardianAborted => Some CommandDeclined
  | GuardianTimedOut => Some CommandFailed
  | GuardianApproved => None
  end.

Definition handle_guardian_assessment (b : ThreadHistoryBuilder) (p : GuardianAssessmentEvent)
  : ThreadHistoryBuilder :=
  match guardian_item_status (ga_status p) with
  | None => b
  | Some status =>
      match build_item_from_guardian_event p status with
      | None => b
      | Some item => upsert_item_in_turn_or_current b (ga_turn_id p) item
      end
  end.

Definition handle_apply_patch_approval_request (b : ThreadHistoryBuilder) (p : PatchApplyBeginEvent)
  : ThreadHistoryBuilder :=
  upsert_item_in_turn_or_current b (pb_turn_id p) (build_file_change_approval_request_item p).

Definition handle_patch_apply_begin (b : ThreadHistoryBuilder) (p : PatchApplyBeginEvent)
  : ThreadHistoryBuilder :=
  upsert_item_in_turn_or_current b (pb_turn_id p) (build_file_change_begin_item p).

Definition handle_patch_apply_end (b : ThreadHistoryBuilder) (p : PatchApplyEndEvent)
  : ThreadHistoryBuilder :=
  upsert_item_in_turn_or_current b (pe_turn_id p) (build_file_change_end_item p).

Record DynamicToolCallRequest := mkDynamicRequest {
  dr_call_id : rstr;
  dr_turn_id : rstr;
  dr_namespace : option rstr;
  dr_tool : rstr;
  dr_arguments : Json
}.

Record DynamicToolCallResponseEvent := mkDynamicResponse {
  ds_request : DynamicToolCallRequest;
  ds_content_items : list DynamicToolCallOutputContentItem;
  ds_success : bool;
  ds_duration : N
}.

Definition convert_dynamic_tool_content_items (items : list DynamicToolCallOutputContentItem)
  : list DynamicToolCallOutputContentItem :=
  (fun item =>
     match item with
     | DynamicInputText text => DynamicInputText text
     | DynamicInputImage image_url => DynamicInputImage image_url
     | DynamicInputAudio audio_url => DynamicInputAudio audio_url
     end) <$> items.

Definition handle_dynamic_tool_call_request (b : ThreadHistoryBuilder) (p : DynamicToolCallRequest)
  : ThreadHistoryBuilder :=
  upsert_item_in_turn_or_current b (dr_turn_id p)
    (DynamicToolCall (dr_call_id p) (dr_namespace p) (dr_tool p) (dr_arguments p) DynamicInProgress
       None None None).

Definition handle_dynamic_tool_call_response (b : ThreadHistoryBuilder) (p : DynamicToolCallResponseEvent)
  : ThreadHistoryBuilder :=
  let r := ds_request p in
  upsert_item_in_turn_or_current b (dr_turn_id r)
    (DynamicToolCall (dr_call_id r) (dr_namespace r) (dr_tool r) (dr_arguments r)
       (if ds_success p then DynamicCompleted else DynamicFailed)
       (Some (convert_dynamic_tool_content_items (ds_content_items p))) (Some (ds_success p)) (millis_i64 (ds_duration p))).

Record McpToolCallBeginEvent := mkMcpBegin {
  mb_call_id : rstr;
  mb_server : rstr;
  mb_tool : rstr;
  mb_arguments : option Json;
  mb_connector_id : option rstr;
  mb_mcp_app_resource_uri : option rstr;
  mb_link_id : option rstr;
  mb_app_name : option rstr;
  mb_action_name : option rstr;
  mb_plugin_id : option rstr;
  mb_read_only_hint : option bool
}.

Record McpToolCallEndEvent := mkMcpEnd {
  me_begin : McpToolCallBeginEvent;
  me_duration : N;
  me_result : result rstr (CallToolResult Json)
}.

Definition is_success (p : McpToolCallEndEvent) : bool :=
  match me_result p with Ok result => negb (default false (is_error result)) | Err _ => false end.

Definition mcp_item (p : McpToolCallBeginEvent) (status : McpToolCallStatus)
    (result : option (McpToolCallResult Json)) (error : option McpToolCallError) (duration_ms : option Z)
  : ThreadItem :=
  McpToolCall (mb_call_id p) (mb_server p) (mb_tool p) status (default json_null (mb_arguments p))
    (app_context_from (mb_connector_id p) (mb_link_id p) (mb_mcp_app_resource_uri p) (mb_app_name p)
       (mb_action_name p))
    (mb_mcp_app_resource_uri p) (mb_plugin_id p) (mb_read_only_hint p) result error duration_ms.

Definition handle_mcp_tool_call_begin (b : ThreadHistoryBuilder) (p : McpToolCallBeginEvent)
  : ThreadHistoryBuilder :=
  upsert_item_in_current_turn b (mcp_item p McpInProgress None None None).

Definition handle_mcp_tool_call_end (b : ThreadHistoryBuilder) (p : McpToolCallEndEvent)
  : ThreadHistoryBuilder :=
  let status := if is_success p then McpCompleted else McpFailed in
  let '(result, error) :=
    match me_result p with
    | Ok value => (Some (call_result value), None)
    | Err message => (None, Some (mkMcpError message))
    end in
  upsert_item_in_current_turn b (mcp_item (me_begin p) status result error (millis_i64 (me_duration p))).

Definition handle_view_image_tool_call (b : ThreadHistoryBuilder) (call_id : rstr) (path : PathUri)
  : ThreadHistoryBuilder := upsert_item_in_current_turn b (ImageView call_id (legacy_path path)).

Definition handle_image_generation_begin (b : ThreadHistoryBuilder) (call_id : rstr)
  : ThreadHistoryBuilder :=
  upsert_item_in_current_turn b
    (ImageGeneration (mkImageGeneration call_id [] None [] None None None None)).

(** [ImageGenerationEndEvent] has the fields of the item but the request id. *)
Definition handle_image_generation_end (b : ThreadHistoryBuilder) (p : ImageGenerationItem Failure)
  : ThreadHistoryBuilder :=
  upsert_item_in_current_turn b
    (ImageGeneration (mkImageGeneration (image_id p) (image_status p) (revised_prompt p) (image_result p)
       (transparent_background p) (image_failure p) (saved_path p) None)).

(** ** Agents *)

Definition agent_failed (s : AgentStatus) : bool :=
  match s with Errored _ | AgentNotFound => true | _ => false end.

Definition collab_end_status (s : AgentStatus) : CollabAgentToolCallStatus :=
  if agent_failed s then CollabFailed else CollabCompleted.

Definition handle_collab_agent_spawn_begin (b : ThreadHistoryBuilder) (call_id : rstr) (sender : ThreadId)
    (prompt model : rstr) (effort : ReasoningEffort) : ThreadHistoryBuilder :=
  upsert_item_in_current_turn b
    (CollabAgentToolCall call_id SpawnAgent CollabInProgress (thread_id_text sender) [] (Some prompt)
       (Some model) (Some effort) []).

Definition handle_collab_agent_spawn_end (b : ThreadHistoryBuilder) (call_id : rstr) (sender : ThreadId)
    (new_thread_id : option ThreadId) (prompt model : rstr) (effort : ReasoningEffort)
    (agent : AgentStatus) : ThreadHistoryBuilder :=
  let status :=
    if agent_failed agent then CollabFailed
    else if is_some new_thread_id then CollabCompleted else CollabFailed in
  let '(receivers, states) :=
    match new_thread_id with
    | Some id => ([thread_id_text id], [(thread_id_text id, collab_agent_state_from agent)])
    | None => ([], [])
    end in
  upsert_item_in_current_turn b
    (CollabAgentToolCall call_id SpawnAgent status (thread_id_text sender) receivers (Some prompt)
       (Some model) (Some effort) states).

Definition collab_begin (b : ThreadHistoryBuilder) (tool : CollabAgentTool) (call_id : rstr)
    (sender receiver : ThreadId) (prompt : option rstr) : ThreadHistoryBuilder :=
  upsert_item_in_current_turn b
    (CollabAgentToolCall call_id tool CollabInProgress (thread_id_text sender) [thread_id_text receiver]
       prompt None None []).

Definition collab_end (b : ThreadHistoryBuilder) (tool : CollabAgentTool) (call_id : rstr)
    (sender receiver : ThreadId) (prompt : option rstr) (agent : AgentStatus) : ThreadHistoryBuilder :=
  upsert_item_in_current_turn b
    (CollabAgentToolCall call_id tool (collab_end_status agent) (thread_id_text sender)
       [thread_id_text receiver] prompt None None
       [(thread_id_text receiver, collab_agent_state_from agent)]).

Definition handle_collab_agent_interaction_begin b call_id sender receiver (prompt : rstr) :=
  collab_begin b SendInput call_id sender receiver (Some prompt).
Definition handle_collab_agent_interaction_end b call_id sender receiver (prompt : rstr) agent :=
  collab_end b SendInput call_id sender receiver (Some prompt) agent.
Definition handle_collab_close_begin b call_id sender receiver :=
  collab_begin b CloseAgent call_id sender receiver None.
Definition handle_collab_close_end b call_id sender receiver agent :=
  collab_end b CloseAgent call_id sender receiver None agent.
Definition handle_collab_resume_begin b call_id sender receiver :=
  collab_begin b ResumeAgent call_id sender receiver None.
Definition handle_collab_resume_end b call_id sender receiver agent :=
  collab_end b ResumeAgent call_id sender receiver None agent.

Definition handle_sub_agent_activity (b : ThreadHistoryBuilder) (event_id : rstr)
    (kind : SubAgentActivityKind) (agent_thread_id : ThreadId) (agent_path : rstr) : ThreadHistoryBuilder :=
  upsert_item_in_current_turn b
    (SubAgentActivity event_id kind (thread_id_text agent_thread_id) agent_path).

Definition handle_collab_waiting_begin (b : ThreadHistoryBuilder) (call_id : rstr) (sender : ThreadId)
    (receivers : list ThreadId) : ThreadHistoryBuilder :=
  upsert_item_in_current_turn b
    (CollabAgentToolCall call_id Wait CollabInProgress (thread_id_text sender)
       (thread_id_text <$> receivers) None None None []).

Definition handle_collab_waiting_end (b : ThreadHistoryBuilder) (call_id : rstr) (sender : ThreadId)
    (statuses : list (ThreadId * AgentStatus)) : ThreadHistoryBuilder :=
  let status := if existsb (fun e => agent_failed e.2) statuses then CollabFailed else CollabCompleted in
  upsert_item_in_current_turn b
    (CollabAgentToolCall call_id Wait status (thread_id_text sender)
       (sort_by str_leb ((fun e => thread_id_text e.1) <$> statuses)) None None None
       (states_from statuses)).

(** ** Review, errors and the ends of turns *)

Definition handle_context_compacted (b : ThreadHistoryBuilder) : ThreadHistoryBuilder :=
  push_generated b (fun id => ContextCompaction id).

(** [item_id.clone().unwrap_or_else(|| self.next_item_id())] *)
Definition item_id_or_next (b : ThreadHistoryBuilder) (id : option rstr) : rstr * ThreadHistoryBuilder :=
  match id with Some id => (id, b) | None => next_item_id b end.

Definition handle_entered_review_mode (b : ThreadHistoryBuilder) (user_facing_hint turn_id item : option rstr)
  : ThreadHistoryBuilder :=
  let review := default (lit "Review requested.") user_facing_hint in
  let '(id, b) := item_id_or_next b item in
  upsert_review_mode_item b turn_id (EnteredReviewMode id review).

Definition handle_exited_review_mode (b : ThreadHistoryBuilder) (turn_id item : option rstr)
    (review_output : option ReviewOutputEvent) : ThreadHistoryBuilder :=
  let review := review_output_text review_output in
  let '(id, b) := item_id_or_next b item in
  upsert_review_mode_item b turn_id (ExitedReviewMode id review).

Definition set_pending_outcome (t : PendingTurn) (status : TurnStatus) (error : option TurnError)
    (completed_at duration_ms : option Z) : PendingTurn :=
  mkPending (pending_id t) (pending_items t) error status (pending_started_at t) completed_at duration_ms
    (opened_explicitly t) (saw_compaction t) (rollout_start_index t).

Definition set_turn_outcome (t : Turn) (status : TurnStatus) (error : option TurnError)
    (completed_at duration_ms : option Z) : Turn :=
  mkTurn (turn_id t) (turn_items t) (items_view t) status error (turn_started_at t) completed_at
    duration_ms.

Definition handle_error (b : ThreadHistoryBuilder) (p : ErrorEvent) : ThreadHistoryBuilder :=
  if negb (affects_turn_status p) then b
  else
    match current_turn b with
    | Some t =>
        let t := set_pending_outcome t TurnFailed (Some (turn_error_from p)) (pending_completed_at t)
                   (pending_duration_ms t) in
        record_changed_turn (set_current_turn b (Some t)) (from_pending_turn t)
    | None => b
    end.

Definition apply_abort (t : PendingTurn) (completed_at duration_ms : option Z) : PendingTurn :=
  set_pending_outcome t TurnInterrupted (pending_error t) completed_at duration_ms.

Definition handle_turn_aborted (b : ThreadHistoryBuilder) (turn_id : option rstr)
    (completed_at duration_ms : option Z) : ThreadHistoryBuilder :=
  let abort_current :=
    match current_turn b with
    | Some t =>
        let t := apply_abort t completed_at duration_ms in
        record_changed_turn (set_current_turn b (Some t)) (from_pending_turn t)
    | None => b
    end in
  match turn_id with
  | Some id =>
      if is_current b id then abort_current
      else
        match find_turn id (turns b) with
        | Some t =>
            let abort t := set_turn_outcome t TurnInterrupted (turn_error t) completed_at duration_ms in
            record_changed_turn (set_turns b (alter_turn id abort (turns b))) (change_from_turn (abort t))
        | None => abort_current
        end
  | None => abort_current
  end.

Definition handle_turn_started (b : ThreadHistoryBuilder) (turn_id : rstr) (started_at : option Z)
  : ThreadHistoryBuilder :=
  let '(t, b) := new_turn (finish_current_turn b) (Some turn_id) in
  let t := open_explicitly (with_started_at (with_status t TurnInProgress) started_at) in
  set_current_turn (record_changed_pending_turn b t) (Some t).

(** The status and error that a completion leaves. *)
Definition completion_outcome (terminal_error : option TurnError) (status : TurnStatus)
    (error : option TurnError) : TurnStatus * option TurnError :=
  match terminal_error with
  | Some terminal => (TurnFailed, Some terminal)
  | None =>
      (match status with TurnCompleted | TurnInProgress => TurnCompleted | status => status end, error)
  end.

Definition apply_completion (t : PendingTurn) (terminal_error : option TurnError)
    (completed_at duration_ms : option Z) : PendingTurn :=
  let '(status, error) := completion_outcome terminal_error (pending_status t) (pending_error t) in
  set_pending_outcome t status error completed_at duration_ms.

Definition apply_turn_completion (t : Turn) (terminal_error : option TurnError)
    (completed_at duration_ms : option Z) : Turn :=
  let '(status, error) := completion_outcome terminal_error (turn_status t) (turn_error t) in
  set_turn_outcome t status error completed_at duration_ms.

Definition handle_turn_complete (b : ThreadHistoryBuilder) (turn_id : rstr) (error : option ErrorEvent)
    (completed_at duration_ms : option Z) : ThreadHistoryBuilder :=
  let terminal_error := turn_error_from <$> error in
  let complete_current :=
    match current_turn b with
    | Some t =>
        let t := apply_completion t terminal_error completed_at duration_ms in
        finish_current_turn
          (record_changed_turn (set_current_turn b (Some t)) (from_pending_turn t))
    | None => b
    end in
  if is_current b turn_id then complete_current
  else
    match find_turn turn_id (turns b) with
    | Some t =>
        let complete t := apply_turn_completion t terminal_error completed_at duration_ms in
        record_changed_turn (set_turns b (alter_turn turn_id complete (turns b)))
          (change_from_turn (complete t))
    | None => complete_current
    end.

Definition handle_compacted (b : ThreadHistoryBuilder) : ThreadHistoryBuilder :=
  let '(t, b) := ensure_turn b in
  set_current_turn b
    (Some (mkPending (pending_id t) (pending_items t) (pending_error t) (pending_status t)
             (pending_started_at t) (pending_completed_at t) (pending_duration_ms t)
             (opened_explicitly t) true (rollout_start_index t))).

Definition item_count (ts : list Turn) : nat := sum_list ((fun t => length (turn_items t)) <$> ts).

Definition handle_thread_rollback (b : ThreadHistoryBuilder) (num_turns : N) : ThreadHistoryBuilder :=
  let b := finish_current_turn b in
  let n := N.to_nat num_turns in
  let len := length (turns b) in
  let removed :=
    if len <=? n then turn_id <$> turns b
    else if n =? 0 then [] else turn_id <$> drop (len - n) (turns b) in
  let b := record_removed_turn_ids b removed in
  let b := set_turns b (if len <=? n then [] else take (len - n) (turns b)) in
  set_next_item_index b (Z.min (Z.of_nat (item_count (turns b)) + 1) i64_max).

(** ** Events and rollouts *)

Inductive EventMsg :=
| EvUserMessage (p : UserMessageEvent)
| EvAgentMessage (p : AgentMessageEvent)
| EvAgentReasoning (text : rstr)
| EvAgentReasoningRawContent (text : rstr)
| EvWebSearchBegin (call_id : rstr)
| EvWebSearchEnd (call_id query : rstr) (action : WebSearchAction) (results : option (list Json))
| EvExecCommandBegin (p : ExecCommandBeginEvent PathUri)
| EvExecCommandEnd (p : ExecCommandEndEvent PathUri)
| EvGuardianAssessment (p : GuardianAssessmentEvent)
| EvApplyPatchApprovalRequest (p : PatchApplyBeginEvent)
| EvPatchApplyBegin (p : PatchApplyBeginEvent)
| EvPatchApplyEnd (p : PatchApplyEndEvent)
| EvDynamicToolCallRequest (p : DynamicToolCallRequest)
| EvDynamicToolCallResponse (p : DynamicToolCallResponseEvent)
| EvMcpToolCallBegin (p : McpToolCallBeginEvent)
| EvMcpToolCallEnd (p : McpToolCallEndEvent)
| EvViewImageToolCall (call_id : rstr) (path : PathUri)
| EvImageGenerationBegin (call_id : rstr)
| EvImageGenerationEnd (p : ImageGenerationItem Failure)
| EvCollabAgentSpawnBegin (call_id : rstr) (sender : ThreadId) (prompt model : rstr)
    (effort : ReasoningEffort)
| EvCollabAgentSpawnEnd (call_id : rstr) (sender : ThreadId) (new_thread_id : option ThreadId)
    (prompt model : rstr) (effort : ReasoningEffort) (agent : AgentStatus)
| EvCollabAgentInteractionBegin (call_id : rstr) (sender receiver : ThreadId) (prompt : rstr)
| EvCollabAgentInteractionEnd (call_id : rstr) (sender receiver : ThreadId) (prompt : rstr)
    (agent : AgentStatus)
| EvSubAgentActivity (event_id : rstr) (kind : SubAgentActivityKind) (agent_thread_id : ThreadId)
    (agent_path : rstr)
| EvCollabWaitingBegin (call_id : rstr) (sender : ThreadId) (receivers : list ThreadId)
| EvCollabWaitingEnd (call_id : rstr) (sender : ThreadId) (statuses : list (ThreadId * AgentStatus))
| EvCollabCloseBegin (call_id : rstr) (sender receiver : ThreadId)
| EvCollabCloseEnd (call_id : rstr) (sender receiver : ThreadId) (agent : AgentStatus)
| EvCollabResumeBegin (call_id : rstr) (sender receiver : ThreadId)
| EvCollabResumeEnd (call_id : rstr) (sender receiver : ThreadId) (agent : AgentStatus)
| EvContextCompacted
| EvEnteredReviewMode (user_facing_hint turn_id item : option rstr)
| EvExitedReviewMode (turn_id item : option rstr) (review_output : option ReviewOutputEvent)
| EvItemStarted (turn_id : rstr) (item : TurnItem)
| EvItemCompleted (turn_id : rstr) (item : TurnItem)
| EvError (p : ErrorEvent)
| EvThreadRolledBack (num_turns : N)
| EvTurnAborted (turn_id : option rstr) (completed_at duration_ms : option Z)
| EvTurnStarted (turn_id : rstr) (started_at : option Z)
| EvTurnComplete (turn_id : rstr) (error : option ErrorEvent) (completed_at duration_ms : option Z)
| EvOther.

Definition handle_event (b : ThreadHistoryBuilder) (event : EventMsg) : ThreadHistoryBuilder :=
  match event with
  | EvUserMessage p => handle_user_message b p
  | EvAgentMessage p => handle_agent_message b p
  | EvAgentReasoning text => handle_agent_reasoning b text
  | EvAgentReasoningRawContent text => handle_agent_reasoning_raw_content b text
  | EvWebSearchBegin call_id => handle_web_search_begin b call_id
  | EvWebSearchEnd call_id query action results => handle_web_search_end b call_id query action results
  | EvExecCommandBegin p => handle_exec_command_begin b p
  | EvExecCommandEnd p => handle_exec_command_end b p
  | EvGuardianAssessment p => handle_guardian_assessment b p
  | EvApplyPatchApprovalRequest p => handle_apply_patch_approval_request b p
  | EvPatchApplyBegin p => handle_patch_apply_begin b p
  | EvPatchApplyEnd p => handle_patch_apply_end b p
  | EvDynamicToolCallRequest p => handle_dynamic_tool_call_request b p
  | EvDynamicToolCallResponse p => handle_dynamic_tool_call_response b p
  | EvMcpToolCallBegin p => handle_mcp_tool_call_begin b p
  | EvMcpToolCallEnd p => handle_mcp_tool_call_end b p
  | EvViewImageToolCall call_id path => handle_view_image_tool_call b call_id path
  | EvImageGenerationBegin call_id => handle_image_generation_begin b call_id
  | EvImageGenerationEnd p => handle_image_generation_end b p
  | EvCollabAgentSpawnBegin call_id sender prompt model effort =>
      handle_collab_agent_spawn_begin b call_id sender prompt model effort
  | EvCollabAgentSpawnEnd call_id sender new_thread_id prompt model effort agent =>
      handle_collab_agent_spawn_end b call_id sender new_thread_id prompt model effort agent
  | EvCollabAgentInteractionBegin call_id sender receiver prompt =>
      handle_collab_agent_interaction_begin b call_id sender receiver prompt
  | EvCollabAgentInteractionEnd call_id sender receiver prompt agent =>
      handle_collab_agent_interaction_end b call_id sender receiver prompt agent
  | EvSubAgentActivity event_id kind agent_thread_id agent_path =>
      handle_sub_agent_activity b event_id kind agent_thread_id agent_path
  | EvCollabWaitingBegin call_id sender receivers => handle_collab_waiting_begin b call_id sender receivers
  | EvCollabWaitingEnd call_id sender statuses => handle_collab_waiting_end b call_id sender statuses
  | EvCollabCloseBegin call_id sender receiver => handle_collab_close_begin b call_id sender receiver
  | EvCollabCloseEnd call_id sender receiver agent => handle_collab_close_end b call_id sender receiver agent
  | EvCollabResumeBegin call_id sender receiver => handle_collab_resume_begin b call_id sender receiver
  | EvCollabResumeEnd call_id sender receiver agent =>
      handle_collab_resume_end b call_id sender receiver agent
  | EvContextCompacted => handle_context_compacted b
  | EvEnteredReviewMode hint turn_id item => handle_entered_review_mode b hint turn_id item
  | EvExitedReviewMode turn_id item review_output => handle_exited_review_mode b turn_id item review_output
  | EvItemStarted turn_id item => handle_item_started b turn_id item
  | EvItemCompleted turn_id item => handle_item_completed b turn_id item
  | EvError p => handle_error b p
  | EvThreadRolledBack num_turns => handle_thread_rollback b num_turns
  | EvTurnAborted turn_id completed_at duration_ms => handle_turn_aborted b turn_id completed_at duration_ms
  | EvTurnStarted turn_id started_at => handle_turn_started b turn_id started_at
  | EvTurnComplete turn_id error completed_at duration_ms =>
      handle_turn_complete b turn_id error completed_at duration_ms
  | EvOther => b
  end.

(** The rollout items that the builder handles, and the others. *)
Inductive RolloutItem :=
| RolloutEvent (event : EventMsg)
| RolloutCompacted
| RolloutResponse (item : ResponseItem Extra RJson)
| RolloutOther.

Definition advance_rollout (b : ThreadHistoryBuilder) : ThreadHistoryBuilder :=
  mkBuilder (turns b) (current_turn b) (next_item_index b) (next_rollout_index b)
    (S (next_rollout_index b)) (active_change_set b) (uuids_drawn b).

Definition handle_rollout_item (b : ThreadHistoryBuilder) (item : RolloutItem) : ThreadHistoryBuilder :=
  let b := advance_rollout b in
  match item with
  | RolloutEvent event => handle_event b event
  | RolloutCompacted => handle_compacted b
  | RolloutResponse item => handle_response_item b item
  | RolloutOther => b
  end.

Definition build_turns_from_rollout_items (items : list RolloutItem) : list Turn :=
  finish (foldl handle_rollout_item new_builder items).

(** The changes, and the builder after them. *)
Definition collect_changes (b : ThreadHistoryBuilder) (handle : ThreadHistoryBuilder -> ThreadHistoryBuilder)
  : ThreadHistoryChangeSet * ThreadHistoryBuilder :=
  let b := handle (set_active_change_set b (Some default_change_set)) in
  (default default_change_set (active_change_set b), set_active_change_set b None).

Definition handle_event_with_changes (b : ThreadHistoryBuilder) (event : EventMsg)
  : ThreadHistoryChangeSet * ThreadHistoryBuilder := collect_changes b (fun b => handle_event b event).

Definition handle_rollout_item_with_changes (b : ThreadHistoryBuilder) (item : RolloutItem)
  : ThreadHistoryChangeSet * ThreadHistoryBuilder := collect_changes b (fun b => handle_rollout_item b item).

Definition batch_step (st : ThreadHistoryChangeAccumulator * ThreadHistoryBuilder) (item : RolloutItem)
  : ThreadHistoryChangeAccumulator * ThreadHistoryBuilder :=
  let '(changes, b) := handle_rollout_item_with_changes st.2 item in
  (accumulator_push st.1 changes, b).

Definition handle_rollout_items_with_changes (b : ThreadHistoryBuilder) (items : list RolloutItem)
  : ThreadHistoryChangeSet * ThreadHistoryBuilder :=
  let '(a, b) := foldl batch_step (default_accumulator, b) items in
  (accumulator_finish a, b).
End history.
