(* ===== verification/ThreadProjection.v ===== *)
(** * ThreadProjection: what the changes of [ThreadHistoryBuilder] tell a client

    A client keeps a view of the thread, a list of turns with their items, and
    applies each change set to it.  The view it holds is the view of the
    builder, for one input and for a batch, as long as inputs name fresh turns
    and items ([input_ok]); under the same condition ids stay unique. *)

From Stdlib Require Import ZArith Lia Decimal DecimalN.
From stdpp Require Import base list strings.
From S2P Require Import Prelude AbsolutePath Truncate ResponseItems JsonPatch ContextFragments ThreadItems ThreadHistory.

Open Scope rust_scope.

(** ** Lists with keys *)

Section upsert.
Context {A K : Type} `{!EqDecision K} (key : A -> K).

(** The first element with the key of [new] is altered, or [new] appended. *)
Fixpoint upsert (f : A -> A) (new : A) (l : list A) : list A :=
  match l with
  | [] => [new]
  | x :: l' => if decide (key x = key new) then f x :: l' else x :: upsert f new l'
  end.

Definition keeps (f : A -> A) (k : K) : Prop := forall x, key x = k -> key (f x) = k.

Lemma keys_upsert f new l :
  keeps f (key new) ->
  key <$> upsert f new l
  = if decide (key new ∈ key <$> l) then key <$> l else (key <$> l) ++ [key new].
Proof.
  intros Hf. induction l as [|x l IH]; [done|]. cbn [upsert].
  destruct (decide (key x = key new)) as [E|E].
  - rewrite !fmap_cons, (Hf x E), E. by rewrite decide_True by left.
  - rewrite !fmap_cons, IH. destruct (decide (key new ∈ key <$> l)).
    + by rewrite decide_True by by right.
    + rewrite decide_False; [done|]. rewrite elem_of_cons. intros [?|?]; congruence.
Qed.

Lemma elem_of_keys_upsert f new l k :
  keeps f (key new) -> k ∈ key <$> upsert f new l <-> k ∈ key <$> l \/ k = key new.
Proof.
  intros Hf. rewrite keys_upsert by done. destruct (decide _).
  - split; [by left|by intros [?| ->]].
  - by rewrite elem_of_app, list_elem_of_singleton.
Qed.

Lemma NoDup_keys_upsert f new l :
  keeps f (key new) -> NoDup (key <$> l) -> NoDup (key <$> upsert f new l).
Proof.
  intros Hf Hl. rewrite keys_upsert by done. destruct (decide _); [done|].
  apply NoDup_app. split_and!; [done| |apply NoDup_singleton].
  intros x Hx ->%list_elem_of_singleton. done.
Qed.

Lemma upsert_fresh f new l : key new ∉ key <$> l -> upsert f new l = l ++ [new].
Proof.
  induction l as [|x l IH]; [done|]. cbn [upsert fmap list_fmap]. rewrite not_elem_of_cons.
  intros [Hx Hl]. rewrite decide_False by done. by rewrite IH.
Qed.

Lemma upsert_app f new l r :
  upsert f new (l ++ r)
  = if decide (key new ∈ key <$> l) then upsert f new l ++ r else l ++ upsert f new r.
Proof.
  induction l as [|x l IH]; [done|]. cbn [app upsert fmap list_fmap].
  destruct (decide (key x = key new)) as [E|E].
  - by rewrite decide_True by (rewrite E; left).
  - rewrite IH. destruct (decide (key new ∈ key <$> l)).
    + by rewrite decide_True by by right.
    + rewrite decide_False; [done|]. rewrite elem_of_cons. intros [?|?]; congruence.
Qed.

Lemma upsert_absorb f g new new' l :
  key new' = key new -> keeps f (key new) -> keeps g (key new) ->
  upsert g new' (upsert f new l) = upsert (g ∘ f) (g new) l.
Proof.
  intros E Hf Hg. assert (Hgn : key (g new) = key new) by by apply Hg.
  induction l as [|x l IH]; cbn [upsert].
  - by rewrite decide_True by congruence.
  - rewrite Hgn. destruct (decide (key x = key new)) as [Hx|Hx]; cbn [upsert].
    + by rewrite decide_True by (rewrite E; by apply Hf).
    + by rewrite E, decide_False, IH by done.
Qed.

Lemma upsert_same_new f g new new' l :
  key new = key new' -> key new ∈ key <$> l -> (forall x, f x = g x) -> upsert f new l = upsert g new' l.
Proof.
  intros E Hin Hfg. induction l as [|x l IH]; [by apply elem_of_nil in Hin|]. cbn [upsert]. rewrite <- E.
  destruct (decide (key x = key new)); [by rewrite Hfg|]. rewrite IH; [done|].
  apply elem_of_cons in Hin as [?|?]; [congruence|done].
Qed.

(** A present element can be altered before or after other elements. *)
Lemma upsert_commute f g new new' l :
  key new <> key new' -> key new ∈ key <$> l -> keeps f (key new) -> keeps g (key new') ->
  upsert f new (upsert g new' l) = upsert g new' (upsert f new l).
Proof.
  intros Hne Hin Hf Hg. induction l as [|x l IH]; [by apply elem_of_nil in Hin|].
  cbn [upsert]. destruct (decide (key x = key new)) as [E|E].
  - rewrite decide_False by congruence. cbn [upsert]. rewrite decide_True by done.
    by rewrite decide_False by (rewrite Hf; done).
  - destruct (decide (key x = key new')) as [E'|E']; cbn [upsert].
    + rewrite (decide_False (P := key (g x) = key new)) by (rewrite Hg; [intros Heq; congruence|done]).
      by rewrite (decide_True (P := key x = key new')) by done.
    + rewrite (decide_False (P := key x = key new)) by done.
      rewrite (decide_False (P := key x = key new')) by done. rewrite IH; [done|].
      apply elem_of_cons in Hin as [?|?]; [congruence|done].
Qed.

Lemma filter_upsert (P : A -> bool) f new l :
  keeps f (key new) -> (forall x y, key x = key y -> P x = P y) ->
  List.filter P (upsert f new l)
  = if P new then upsert f new (List.filter P l) else List.filter P l.
Proof.
  intros Hf HP. induction l as [|x l IH]; cbn [upsert List.filter].
  - by destruct (P new).
  - destruct (decide (key x = key new)) as [E|E]; cbn [List.filter].
    + rewrite (HP (f x) new) by (apply Hf, E). rewrite (HP x new E).
      destruct (P new); [|done]. cbn [upsert]. by rewrite decide_True by done.
    + rewrite IH. destruct (P x); destruct (P new); try done. cbn [upsert].
      by rewrite decide_False by done.
Qed.

Lemma upsert_split f new l :
  key new ∈ key <$> l ->
  exists l1 x l2, l = l1 ++ x :: l2 /\ key x = key new /\ (key new ∉ key <$> l1)
    /\ upsert f new l = l1 ++ f x :: l2.
Proof.
  induction l as [|x l IH]; [by intros ?%elem_of_nil|]. intros Hin. cbn [upsert].
  destruct (decide (key x = key new)) as [E|E].
  - exists [], x, l. split_and!; try done. by apply not_elem_of_nil.
  - rewrite fmap_cons in Hin. apply elem_of_cons in Hin as [?|Hin]; [congruence|].
    destruct (IH Hin) as (l1 & y & l2 & -> & Hy & Hn & Hu). exists (x :: l1), y, l2.
    split_and!; [done|done| |by rewrite Hu].
    rewrite fmap_cons. apply not_elem_of_cons. by split; [congruence|].
Qed.
End upsert.

(** ** The view of a client *)

Section projection.
Context {Json Failure : Type}.
Abbreviation ThreadItem := (ThreadItem Json Failure).
Abbreviation ItemChange := (ThreadHistoryItemChange (Json := Json) (Failure := Failure)).
Abbreviation ChangeSet := (ThreadHistoryChangeSet (Json := Json) (Failure := Failure)).
Abbreviation Accumulator := (ThreadHistoryChangeAccumulator (Json := Json) (Failure := Failure)).

Record TurnView := mkView {
  view_turn : ThreadHistoryTurnChange;
  view_items : list ThreadItem
}.

Definition view_id (v : TurnView) : rstr := changed_turn_id (view_turn v).

Definition set_view_turn (m : ThreadHistoryTurnChange) (v : TurnView) : TurnView := mkView m (view_items v).

Definition apply_turn_change (v : list TurnView) (m : ThreadHistoryTurnChange) : list TurnView :=
  upsert view_id (set_view_turn m) (mkView m []) v.

Definition set_view_item (item : ThreadItem) (v : TurnView) : TurnView :=
  mkView (view_turn v) (upsert item_id (fun _ => item) item (view_items v)).

(** A change of an item of a turn that the client does not know is dropped. *)
Fixpoint alter_view (id : rstr) (f : TurnView -> TurnView) (v : list TurnView) : list TurnView :=
  match v with
  | [] => []
  | t :: v' => if decide (view_id t = id) then f t :: v' else t :: alter_view id f v'
  end.

Definition apply_item_change (v : list TurnView) (c : ItemChange) : list TurnView :=
  alter_view (change_turn_id c) (set_view_item (change_item c)) v.

Definition kept_views (removed : list rstr) (v : list TurnView) : list TurnView :=
  List.filter (fun t => negb (bool_decide (view_id t ∈ removed))) v.

Definition apply_changes (v : list TurnView) (c : ChangeSet) : list TurnView :=
  foldl apply_item_change
    (foldl apply_turn_change (kept_views (removed_turn_ids c) v) (changed_turns c)) (changed_items c).

(** *** Altering a view *)

Lemma set_view_turn_keeps m : keeps view_id (set_view_turn m) (changed_turn_id m).
Proof. by intros x Hx. Qed.

Lemma set_view_item_id item v : view_id (set_view_item item v) = view_id v.
Proof. done. Qed.

Lemma alter_view_ids id f v : (forall x, view_id (f x) = view_id x) -> view_id <$> alter_view id f v = view_id <$> v.
Proof.
  intros Hf. induction v as [|t v IH]; [done|]. cbn [alter_view]. destruct (decide _).
  - by rewrite !fmap_cons, Hf.
  - by rewrite !fmap_cons, IH.
Qed.

Lemma alter_view_unknown id f v : id ∉ view_id <$> v -> alter_view id f v = v.
Proof.
  induction v as [|t v IH]; [done|]. rewrite fmap_cons, not_elem_of_cons. intros [Ht Hv]. cbn [alter_view].
  rewrite decide_False by congruence. by rewrite IH.
Qed.

Lemma alter_view_app_r id f v w : id ∉ view_id <$> v -> alter_view id f (v ++ w) = v ++ alter_view id f w.
Proof.
  induction v as [|t v IH]; [done|]. rewrite fmap_cons, not_elem_of_cons. intros [Ht Hv]. cbn [app alter_view].
  rewrite decide_False by congruence. by rewrite IH.
Qed.

Lemma alter_view_app_l id f v w :
  id ∉ view_id <$> w -> alter_view id f (v ++ w) = alter_view id f v ++ w.
Proof.
  intros Hw. induction v as [|t v IH]; cbn [app alter_view]; [by rewrite alter_view_unknown|].
  destruct (decide _); [done|]. by rewrite IH.
Qed.

Lemma alter_view_twice id f g v :
  (forall x, view_id (f x) = view_id x) -> alter_view id g (alter_view id f v) = alter_view id (g ∘ f) v.
Proof.
  intros Hf. induction v as [|t v IH]; [done|]. cbn [alter_view].
  destruct (decide (view_id t = id)) as [E|E]; cbn [alter_view].
  - by rewrite decide_True by (by rewrite Hf).
  - by rewrite decide_False, IH by done.
Qed.

Lemma alter_view_ext id f g v :
  (forall x, x ∈ v -> view_id x = id -> f x = g x) -> alter_view id f v = alter_view id g v.
Proof.
  intros Hfg. induction v as [|t v IH]; [done|]. cbn [alter_view]. destruct (decide _).
  - by rewrite Hfg by (done || left).
  - rewrite IH; [done|]. intros x Hx. apply Hfg. by right.
Qed.

Lemma alter_view_commute id id' f g v :
  id <> id' -> (forall x, view_id (f x) = view_id x) -> (forall x, view_id (g x) = view_id x) ->
  alter_view id f (alter_view id' g v) = alter_view id' g (alter_view id f v).
Proof.
  intros Hne Hf Hg. induction v as [|t v IH]; [done|]. cbn [alter_view].
  destruct (decide (view_id t = id)) as [E|E], (decide (view_id t = id')) as [E'|E']; cbn [alter_view];
    rewrite ?Hf, ?Hg; rewrite ?(decide_True (P := view_id t = id)), ?(decide_True (P := view_id t = id')),
      ?(decide_False (P := view_id t = id)), ?(decide_False (P := view_id t = id')) by done; congruence.
Qed.

Lemma alter_view_turn_change id f v m :
  (forall x, view_id (f x) = view_id x) -> (forall x, f (set_view_turn m x) = set_view_turn m (f x)) ->
  id ∈ view_id <$> v ->
  alter_view id f (apply_turn_change v m) = apply_turn_change (alter_view id f v) m.
Proof.
  intros Hf Hm. unfold apply_turn_change. induction v as [|t v IH]; [by intros ?%elem_of_nil|].
  rewrite fmap_cons, elem_of_cons. intros Hin. cbn [alter_view upsert].
  change (view_id (mkView m [])) with (changed_turn_id m) in *.
  destruct (decide (view_id t = changed_turn_id m)) as [E|E], (decide (view_id t = id)) as [E'|E'];
    cbn [alter_view upsert]; change (view_id (mkView m [])) with (changed_turn_id m);
    change (view_id (set_view_turn m t)) with (changed_turn_id m).
  - rewrite decide_True by congruence. rewrite Hf, decide_True by congruence. by rewrite Hm.
  - rewrite decide_False by congruence. by rewrite decide_True by done.
  - rewrite decide_True by done. by rewrite decide_False by (rewrite Hf; done).
  - rewrite decide_False by done. rewrite decide_False by done. rewrite IH; [done|].
    destruct Hin; [congruence|done].
Qed.

Lemma kept_views_alter removed id f v :
  (forall x, view_id (f x) = view_id x) ->
  kept_views removed (alter_view id f v)
  = if bool_decide (id ∈ removed) then kept_views removed v else alter_view id f (kept_views removed v).
Proof.
  intros Hf. unfold kept_views. induction v as [|t v IH]; [by destruct (bool_decide _)|].
  cbn [alter_view List.filter]. destruct (decide (view_id t = id)) as [E|E]; cbn [List.filter].
  - rewrite Hf, E. destruct (bool_decide (id ∈ removed)); [done|]. cbn [negb alter_view].
    by rewrite decide_True by done.
  - rewrite IH. destruct (bool_decide (view_id t ∈ removed)), (bool_decide (id ∈ removed)); cbn [negb alter_view];
      try done. by rewrite decide_False by done.
Qed.
End projection.

(** ** Slots with an index *)

Section indexed.
Context {A K : Type} `{!EqDecision K} (key : A -> K).

(** Each used slot is found by the key of its content, and nothing else is. *)
Definition indexed (slots : list (option A)) (m : list (K * nat)) : Prop :=
  forall k n, index_get m k = Some n <-> exists c, slots !! n = Some (Some c) /\ key c = k.

Lemma indexed_empty : indexed [] [].
Proof. intros k n. split; [done|]. by intros (c & Hc & _). Qed.

Lemma elem_of_used (slots : list (option A)) c : c ∈ omap id slots <-> exists n, slots !! n = Some (Some c).
Proof.
  rewrite list_elem_of_omap. split.
  - intros (o & (n & Hn)%list_elem_of_lookup & Ho). cbv [id] in Ho. subst o. by exists n.
  - intros (n & Hn). exists (Some c). split; [|done]. by eapply list_elem_of_lookup_2.
Qed.

Lemma indexed_get slots m k :
  indexed slots m -> index_get m k = None <-> k ∉ key <$> omap id slots.
Proof.
  intros Hi. split.
  - intros Hn (c & -> & (n & Hc)%elem_of_used)%list_elem_of_fmap.
    assert (index_get m (key c) = Some n) by (apply Hi; by exists c). congruence.
  - intros Hn. destruct (index_get m k) as [n|] eqn:E; [|done]. apply Hi in E as (c & Hc & <-).
    destruct Hn. apply list_elem_of_fmap_2, elem_of_used. by exists n.
Qed.

Lemma indexed_unique slots m n n' c c' :
  indexed slots m -> slots !! n = Some (Some c) -> slots !! n' = Some (Some c') -> key c = key c' -> n = n'.
Proof.
  intros Hi Hn Hn' E.
  assert (H1 : index_get m (key c) = Some n) by (apply Hi; by exists c).
  assert (H2 : index_get m (key c) = Some n') by (apply Hi; by exists c'). congruence.
Qed.

Lemma indexed_nodup slots m : indexed slots m -> NoDup (key <$> omap id slots).
Proof.
  intros Hi. assert (Hu : forall n n' c c', slots !! n = Some (Some c) -> slots !! n' = Some (Some c') ->
    key c = key c' -> n = n') by (intros *; by apply (indexed_unique _ m)).
  clear Hi. induction slots as [|o slots IH]; [apply NoDup_nil_2|].
  assert (Hrec : NoDup (key <$> omap id slots)).
  { apply IH. intros n n' c c' Hn Hn' E. by injection (Hu (S n) (S n') c c' Hn Hn' E). }
  destruct o as [c|]; [|exact Hrec]. cbn. apply NoDup_cons. split; [|exact Hrec].
  intros (d & Hd & (n & Hn)%elem_of_used)%list_elem_of_fmap. by specialize (Hu 0 (S n) c d eq_refl Hn Hd).
Qed.

Lemma omap_insert_some (slots : list (option A)) n c c' :
  slots !! n = Some (Some c) -> key c' = key c ->
  (forall i d, i < n -> slots !! i = Some (Some d) -> key d <> key c) ->
  omap id (<[n := Some c']> slots) = upsert key (fun _ => c') c' (omap id slots).
Proof.
  revert n. induction slots as [|o slots IH]; intros n Hn E Hlt; [done|].
  destruct n as [|n]; cbn in Hn.
  - injection Hn as ->. cbn. by rewrite decide_True by done.
  - assert (Hrec : omap id (<[n := Some c']> slots) = upsert key (fun _ => c') c' (omap id slots)).
    { apply IH; [done|done|]. intros i d Hi Hd. apply (Hlt (S i) d); [lia|done]. }
    destruct o as [d|]; cbn; [|apply Hrec].
    rewrite decide_False; [by rewrite <- Hrec|]. rewrite E. apply (Hlt 0 d); [lia|done].
Qed.

Lemma filter_keys_none (k : K) (l : list A) :
  k ∉ key <$> l -> List.filter (fun c => negb (bool_decide (key c = k))) l = l.
Proof.
  induction l as [|c l IH]; [done|]. rewrite fmap_cons, not_elem_of_cons. intros [Hc Hl]. cbn [List.filter].
  rewrite bool_decide_eq_false_2 by congruence. cbn [negb]. by rewrite IH.
Qed.

Lemma omap_insert_none (slots : list (option A)) n c :
  slots !! n = Some (Some c) ->
  (forall i d, i <> n -> slots !! i = Some (Some d) -> key d <> key c) ->
  omap id (<[n := None]> slots)
  = List.filter (fun d => negb (bool_decide (key d = key c))) (omap id slots).
Proof.
  revert n. induction slots as [|o slots IH]; intros n Hn Hne; [done|].
  destruct n as [|n]; cbn in Hn.
  - injection Hn as ->. cbn. rewrite bool_decide_eq_true_2 by done. cbn [negb].
    rewrite filter_keys_none; [done|]. intros (d & Hk & (i & Hd)%elem_of_used)%list_elem_of_fmap.
    apply (Hne (S i) d); [lia|done|done].
  - assert (Hrec : omap id (<[n := None]> slots)
      = List.filter (fun d => negb (bool_decide (key d = key c))) (omap id slots)).
    { apply IH; [done|]. intros i d Hi Hd. apply (Hne (S i) d); [lia|done]. }
    destruct o as [d|]; cbn; [|apply Hrec].
    rewrite bool_decide_eq_false_2; [by cbn [negb]; rewrite <- Hrec|]. apply (Hne 0 d); [lia|done].
Qed.

Lemma indexed_replace slots m n c :
  indexed slots m -> index_get m (key c) = Some n ->
  indexed (<[n := Some c]> slots) m
  /\ omap id (<[n := Some c]> slots) = upsert key (fun _ => c) c (omap id slots).
Proof.
  intros Hi Hg. pose proof (proj1 (Hi _ _) Hg) as (d & Hd & E).
  assert (Hlen : n < length slots) by by eapply lookup_lt_Some. split.
  - intros k n'. rewrite (Hi k n'). destruct (decide (n = n')) as [<-|Hne].
    + rewrite list_lookup_insert_eq by done. rewrite Hd. split; intros (x & [= <-] & <-).
      * by exists c.
      * by exists d.
    + by rewrite list_lookup_insert_ne by done.
  - apply (omap_insert_some _ _ d); [done|done|]. intros i x Hlt Hx Hk.
    pose proof (indexed_unique _ _ _ _ _ _ Hi Hx Hd Hk). lia.
Qed.

Lemma indexed_append slots m c :
  indexed slots m -> index_get m (key c) = None ->
  indexed (slots ++ [Some c]) ((key c, length slots) :: m)
  /\ omap id (slots ++ [Some c]) = upsert key (fun _ => c) c (omap id slots).
Proof.
  intros Hi Hg. split.
  - intros k n. cbn [index_get]. destruct (decide (key c = k)) as [<-|Hk].
    + split.
      * intros [= <-]. exists c. by rewrite list_lookup_middle.
      * intros (d & Hd & E). apply lookup_app_Some in Hd as [Hd|[Hlen Hd]].
        { exfalso. assert (index_get m (key c) = Some n) by (apply Hi; by exists d). congruence. }
        apply list_lookup_singleton_Some in Hd as [Hz _]. f_equal. lia.
    + rewrite (Hi k n). split; intros (d & Hd & E); exists d; (split; [|done]).
      * by apply lookup_app_l_Some.
      * apply lookup_app_Some in Hd as [Hd|[_ Hd]]; [done|].
        apply list_lookup_singleton_Some in Hd as [_ [= ->]]. done.
  - rewrite omap_app. cbn. rewrite upsert_fresh; [done|]. by apply (indexed_get _ m).
Qed.

Lemma index_get_remove (m : list (K * nat)) k k' :
  index_get (index_remove m k) k' = if decide (k' = k) then None else index_get m k'.
Proof.
  induction m as [|[x n] m IH]; cbn; [by destruct (decide _)|].
  destruct (decide (x = k)) as [->|Hx].
  - rewrite bool_decide_eq_true_2 by done. cbn [negb]. fold (index_remove m k). rewrite IH.
    destruct (decide (k' = k)) as [->|]; [done|]. by rewrite decide_False by done.
  - rewrite bool_decide_eq_false_2 by done. cbn [negb index_get]. fold (index_remove m k).
    destruct (decide (x = k')) as [->|].
    + by rewrite decide_False by done.
    + apply IH.
Qed.

Lemma indexed_remove slots m k n :
  indexed slots m -> index_get m k = Some n ->
  indexed (<[n := None]> slots) (index_remove m k)
  /\ omap id (<[n := None]> slots) = List.filter (fun d => negb (bool_decide (key d = k))) (omap id slots).
Proof.
  intros Hi Hg. pose proof (proj1 (Hi _ _) Hg) as (d & Hd & <-).
  assert (Hlen : n < length slots) by by eapply lookup_lt_Some. split.
  - intros k' n'. rewrite index_get_remove. destruct (decide (k' = key d)) as [->|Hk].
    + split; [done|]. intros (c & Hc & E). destruct (decide (n = n')) as [<-|Hne].
      * by rewrite list_lookup_insert_eq in Hc.
      * rewrite list_lookup_insert_ne in Hc by done. destruct Hne. by eapply indexed_unique.
    + rewrite (Hi k' n'). destruct (decide (n = n')) as [<-|Hne].
      * rewrite list_lookup_insert_eq, Hd by done. split; [intros (x & [= <-] & <-); done|by intros (? & ? & _)].
      * by rewrite list_lookup_insert_ne by done.
  - apply omap_insert_none; [done|]. intros i x Hne Hx Hk. destruct Hne. by eapply indexed_unique.
Qed.
End indexed.

(** ** Batches *)

Section batch.
Context {Json Failure : Type}.
Abbreviation ItemChange := (ThreadHistoryItemChange (Json := Json) (Failure := Failure)).
Abbreviation ChangeSet := (ThreadHistoryChangeSet (Json := Json) (Failure := Failure)).
Abbreviation Accumulator := (ThreadHistoryChangeAccumulator (Json := Json) (Failure := Failure)).
Abbreviation TurnView := (TurnView (Json := Json) (Failure := Failure)).

Definition item_key (c : ItemChange) : rstr * rstr := (change_turn_id c, item_id (change_item c)).

Definition view_ids (v : list TurnView) : list rstr := view_id <$> v.

Lemma item_change_ids (v : list TurnView) l : view_ids (foldl apply_item_change v l) = view_ids v.
Proof.
  revert v. induction l as [|c l IH]; intros v; [done|]. cbn [foldl]. rewrite IH.
  by apply alter_view_ids.
Qed.

Lemma turn_change_ids (v : list TurnView) m id :
  id ∈ view_ids (apply_turn_change v m) <-> id ∈ view_ids v \/ id = changed_turn_id m.
Proof. exact (elem_of_keys_upsert view_id (set_view_turn m) (mkView m []) v id (set_view_turn_keeps m)). Qed.

Lemma turn_changes_ids (v : list TurnView) l id :
  id ∈ view_ids (foldl apply_turn_change v l) <-> id ∈ view_ids v \/ id ∈ changed_turn_id <$> l.
Proof.
  revert v. induction l as [|m l IH]; intros v; cbn [foldl fmap list_fmap]; [rewrite elem_of_nil; tauto|].
  rewrite IH, turn_change_ids, elem_of_cons. tauto.
Qed.

Lemma turn_changes_nodup (v : list TurnView) l :
  NoDup (view_ids v) -> NoDup (view_ids (foldl apply_turn_change v l)).
Proof.
  revert v. induction l as [|m l IH]; intros v Hv; [done|]. apply IH.
  apply NoDup_keys_upsert; [apply set_view_turn_keeps|done].
Qed.

Lemma kept_views_ids removed (v : list TurnView) id :
  id ∈ view_ids (kept_views removed v) <-> id ∈ view_ids v /\ id ∉ removed.
Proof.
  unfold view_ids, kept_views. rewrite !list_elem_of_fmap. split.
  - intros (x & -> & Hx%list_elem_of_In%filter_In). destruct Hx as [Hx Hb]. split.
    + exists x. split; [done|]. by apply list_elem_of_In.
    + by destruct (bool_decide_reflect (view_id x ∈ removed)).
  - intros [(x & -> & Hx) Hn]. exists x. split; [done|]. apply list_elem_of_In, filter_In. split; [by apply list_elem_of_In|].
    by rewrite bool_decide_eq_false_2 by done.
Qed.

Lemma kept_views_nodup removed (v : list TurnView) : NoDup (view_ids v) -> NoDup (view_ids (kept_views removed v)).
Proof.
  unfold view_ids, kept_views. induction v as [|x v IH]; [done|]. rewrite fmap_cons, NoDup_cons. intros [Hx Hv].
  cbn [List.filter]. destruct (negb _); [|by apply IH]. rewrite fmap_cons. apply NoDup_cons. split; [|by apply IH].
  intros Hin. destruct Hx. by eapply (proj1 (kept_views_ids removed v _)).
Qed.

(** *** Items *)

(** The item that a change names is there, if its turn is. *)
Definition settled (v : list TurnView) (c : ItemChange) : Prop :=
  forall x, x ∈ v -> view_id x = change_turn_id c -> item_id (change_item c) ∈ item_id <$> view_items x.

Lemma set_view_item_absorb (a b : ThreadItem Json Failure) x :
  item_id a = item_id b -> set_view_item b (set_view_item a x) = set_view_item b x.
Proof.
  intros E. unfold set_view_item. cbn [view_turn view_items]. f_equal. rewrite upsert_absorb; [done|done|by intros y _|by intros y _].
Qed.

Lemma item_change_absorb (v : list TurnView) c d :
  item_key c = item_key d -> apply_item_change (apply_item_change v c) d = apply_item_change v d.
Proof.
  intros [= Et Ei]. unfold apply_item_change. rewrite <- Et, alter_view_twice by done.
  apply alter_view_ext. intros x _ _. by apply set_view_item_absorb.
Qed.

Lemma item_change_commute (v : list TurnView) c d :
  item_key c <> item_key d -> settled v c ->
  apply_item_change (apply_item_change v d) c = apply_item_change (apply_item_change v c) d.
Proof.
  intros Hne Hs. unfold apply_item_change.
  destruct (decide (change_turn_id c = change_turn_id d)) as [E|E].
  - rewrite <- E, !alter_view_twice by done. apply alter_view_ext. intros x Hx Hid.
    unfold set_view_item, compose. cbn [view_turn view_items]. f_equal. apply upsert_commute.
    + intros Hi. apply Hne. unfold item_key. congruence.
    + by apply Hs.
    + done.
    + done.
  - by apply alter_view_commute.
Qed.

Lemma elem_of_alter_view (v : list TurnView) id f x :
  x ∈ alter_view id f v -> x ∈ v \/ exists y, y ∈ v /\ view_id y = id /\ x = f y.
Proof.
  induction v as [|t v IH]; [by intros ?%elem_of_nil|]. cbn [alter_view].
  destruct (decide (view_id t = id)) as [E|E]; rewrite !elem_of_cons.
  - intros [->|?]; [right|by left; right]. exists t. by split_and!; [left| |].
  - intros [->|Hx]; [by left; left|]. destruct (IH Hx) as [?|(y & ? & ? & ->)]; [by left; right|right].
    exists y. by split_and!; [right| |].
Qed.

Lemma settled_step (v : list TurnView) c d : settled v c -> settled (apply_item_change v d) c.
Proof.
  intros Hs x Hx Hid. apply elem_of_alter_view in Hx as [Hx|(y & Hy & Hyd & ->)]; [by apply Hs|].
  rewrite set_view_item_id in Hid. cbn [set_view_item view_items].
  apply elem_of_keys_upsert; [done|]. left. by apply Hs.
Qed.

Lemma settled_after (v : list TurnView) c d :
  NoDup (view_ids v) -> item_key c = item_key d -> settled (apply_item_change v d) c.
Proof.
  intros Hv [= Et Ei] x Hx Hid. unfold apply_item_change in Hx. rewrite Et in Hid. rewrite Ei.
  revert Hv Hx. unfold view_ids. induction v as [|t v IH]; [by intros _ ?%elem_of_nil|].
  rewrite fmap_cons, NoDup_cons. intros [Ht Hv]. cbn [alter_view].
  destruct (decide (view_id t = change_turn_id d)) as [E|E]; rewrite elem_of_cons.
  - intros [->|Hx].
    + cbn [set_view_item view_items]. apply elem_of_keys_upsert; [done|by right].
    + destruct Ht. rewrite E, <- Hid. by apply list_elem_of_fmap_2.
  - intros [->|Hx]; [done|by apply IH].
Qed.

Lemma item_change_past (v : list TurnView) c l :
  settled v c -> item_key c ∉ item_key <$> l ->
  apply_item_change (foldl apply_item_change v l) c = foldl apply_item_change (apply_item_change v c) l.
Proof.
  revert v. induction l as [|d l IH]; intros v Hs Hl; [done|]. rewrite fmap_cons, not_elem_of_cons in Hl.
  destruct Hl as [Hd Hl]. cbn [foldl]. rewrite IH by (done || by apply settled_step).
  by rewrite item_change_commute.
Qed.

Lemma fold_items_upsert (v : list TurnView) c l :
  NoDup (view_ids v) -> NoDup (item_key <$> l) ->
  foldl apply_item_change v (upsert item_key (fun _ => c) c l)
  = apply_item_change (foldl apply_item_change v l) c.
Proof.
  revert v. induction l as [|d l IH]; intros v Hv Hl; [done|]. rewrite fmap_cons, NoDup_cons in Hl.
  destruct Hl as [Hd Hl]. cbn [upsert]. destruct (decide (item_key d = item_key c)) as [E|E]; cbn [foldl].
  - rewrite item_change_past; [by rewrite item_change_absorb| |by rewrite <- E]. by apply settled_after.
  - apply IH; [|done]. unfold view_ids, apply_item_change. by rewrite alter_view_ids.
Qed.

(** *** Turns *)

Lemma turn_change_absorb (v : list TurnView) m d :
  changed_turn_id d = changed_turn_id m -> apply_turn_change (apply_turn_change v d) m = apply_turn_change v m.
Proof.
  intros E. unfold apply_turn_change. rewrite upsert_absorb; [|by unfold view_id; cbn|by intros x Hx|by intros x Hx].
  done.
Qed.

Lemma turn_change_past (v : list TurnView) m l :
  changed_turn_id m ∈ view_ids v -> changed_turn_id m ∉ changed_turn_id <$> l ->
  apply_turn_change (foldl apply_turn_change v l) m = foldl apply_turn_change (apply_turn_change v m) l.
Proof.
  revert v. induction l as [|d l IH]; intros v Hv Hl; [done|]. rewrite fmap_cons, not_elem_of_cons in Hl.
  destruct Hl as [Hd Hl]. cbn [foldl]. rewrite IH by (done || (apply turn_change_ids; by left)).
  f_equal. unfold apply_turn_change. apply upsert_commute; [done|done|apply set_view_turn_keeps..].
Qed.

Lemma fold_turns_upsert (v : list TurnView) m l :
  NoDup (changed_turn_id <$> l) ->
  foldl apply_turn_change v (upsert changed_turn_id (fun _ => m) m l)
  = apply_turn_change (foldl apply_turn_change v l) m.
Proof.
  revert v. induction l as [|d l IH]; intros v Hl; [done|]. rewrite fmap_cons, NoDup_cons in Hl.
  destruct Hl as [Hd Hl]. cbn [upsert]. destruct (decide (changed_turn_id d = changed_turn_id m)) as [E|E]; cbn [foldl].
  - rewrite turn_change_past; [by rewrite turn_change_absorb| |by rewrite <- E].
    apply turn_change_ids. by right.
  - by apply IH.
Qed.

Definition covered (v : list TurnView) (l : list ItemChange) : Prop :=
  Forall (fun c => change_turn_id c ∈ view_ids v) l.

Lemma covered_ids v w l : view_ids v ⊆ view_ids w -> covered v l -> covered w l.
Proof. intros Hs Hc. eapply Forall_impl; [exact Hc|]. intros c. apply Hs. Qed.

Lemma turn_change_before_items (v : list TurnView) m l :
  covered v l -> apply_turn_change (foldl apply_item_change v l) m = foldl apply_item_change (apply_turn_change v m) l.
Proof.
  revert v. induction l as [|c l IH]; intros v Hc; [done|]. apply Forall_cons in Hc as [Hc Hl]. cbn [foldl].
  rewrite IH.
  - f_equal. symmetry. by apply alter_view_turn_change.
  - eapply covered_ids; [|done]. unfold view_ids, apply_item_change. by rewrite alter_view_ids.
Qed.

Lemma turn_changes_before_items (v : list TurnView) ms l :
  covered v l ->
  foldl apply_turn_change (foldl apply_item_change v l) ms = foldl apply_item_change (foldl apply_turn_change v ms) l.
Proof.
  revert v. induction ms as [|m ms IH]; intros v Hc; [done|]. cbn [foldl].
  rewrite turn_change_before_items by done. apply IH. eapply covered_ids; [|done].
  intros id Hid. apply turn_change_ids. by left.
Qed.

(** *** Removed turns *)

Definition not_turn (id : rstr) (c : ItemChange) : bool := negb (bool_decide (change_turn_id c = id)).
Definition other_turn (id : rstr) (m : ThreadHistoryTurnChange) : bool :=
  negb (bool_decide (changed_turn_id m = id)).

Lemma kept_views_item id (v : list TurnView) c :
  kept_views [id] (apply_item_change v c)
  = if not_turn id c then apply_item_change (kept_views [id] v) c else kept_views [id] v.
Proof.
  unfold apply_item_change, not_turn. rewrite kept_views_alter by done.
  rewrite (bool_decide_ext (change_turn_id c ∈ [id]) (change_turn_id c = id)) by apply list_elem_of_singleton.
  by destruct (bool_decide _).
Qed.

Lemma kept_views_turn id (v : list TurnView) m :
  kept_views [id] (apply_turn_change v m)
  = if other_turn id m then apply_turn_change (kept_views [id] v) m else kept_views [id] v.
Proof.
  unfold kept_views, apply_turn_change, other_turn.
  rewrite filter_upsert; [|apply set_view_turn_keeps|by intros x y ->].
  change (view_id (mkView m [])) with (changed_turn_id m).
  by rewrite (bool_decide_ext (changed_turn_id m ∈ [id]) (changed_turn_id m = id)) by apply list_elem_of_singleton.
Qed.

Lemma kept_views_items id (v : list TurnView) l :
  kept_views [id] (foldl apply_item_change v l)
  = foldl apply_item_change (kept_views [id] v) (List.filter (not_turn id) l).
Proof.
  revert v. induction l as [|c l IH]; intros v; [done|]. cbn [foldl List.filter].
  rewrite IH, kept_views_item. by destruct (not_turn id c).
Qed.

Lemma kept_views_turns id (v : list TurnView) l :
  kept_views [id] (foldl apply_turn_change v l)
  = foldl apply_turn_change (kept_views [id] v) (List.filter (other_turn id) l).
Proof.
  revert v. induction l as [|m l IH]; intros v; [done|]. cbn [foldl List.filter].
  rewrite IH, kept_views_turn. by destruct (other_turn id m).
Qed.

Lemma kept_views_app (a b : list rstr) (v : list TurnView) : kept_views (a ++ b) v = kept_views b (kept_views a v).
Proof.
  unfold kept_views. induction v as [|x v IH]; [done|]. cbn [List.filter].
  destruct (bool_decide_reflect (view_id x ∈ a)) as [Ha|Ha].
  - by rewrite bool_decide_eq_true_2 by (apply elem_of_app; by left).
  - cbn [negb List.filter]. destruct (bool_decide_reflect (view_id x ∈ b)) as [Hb|Hb].
    + by rewrite bool_decide_eq_true_2 by (apply elem_of_app; by right).
    + rewrite bool_decide_eq_false_2 by (rewrite elem_of_app; by intros [?|?]). cbn [negb]. by rewrite IH.
Qed.

Lemma kept_views_known id (removed : list rstr) (v : list TurnView) :
  id ∈ removed -> kept_views [id] (kept_views removed v) = kept_views removed v.
Proof.
  intros Hid. rewrite <- kept_views_app. unfold kept_views. apply List.filter_ext. intros x. f_equal.
  apply bool_decide_ext. rewrite elem_of_app, list_elem_of_singleton. split; [by intros [?| ->]|by left].
Qed.

(** *** The accumulator *)

Definition removed_change (s : ChangeSet) (id : rstr) : ChangeSet :=
  mkChangeSet (List.filter (not_turn id) (changed_items s)) (List.filter (other_turn id) (changed_turns s))
    (if decide (id ∈ removed_turn_ids s) then removed_turn_ids s else removed_turn_ids s ++ [id]).

Lemma removed_change_applied (v : list TurnView) s id :
  apply_changes v (removed_change s id) = kept_views [id] (apply_changes v s).
Proof.
  unfold apply_changes, removed_change. cbn [removed_turn_ids changed_items changed_turns].
  rewrite kept_views_items, kept_views_turns. do 2 f_equal.
  destruct (decide (id ∈ removed_turn_ids s)); [by rewrite kept_views_known|by rewrite kept_views_app].
Qed.

Definition acc_ok (a : Accumulator) : Prop :=
  indexed item_key (acc_items a) (acc_item_indexes a)
  /\ indexed changed_turn_id (acc_turns a) (acc_turn_indexes a)
  /\ (forall id, index_get (acc_removed_indexes a) id = None <-> id ∉ acc_removed a).

Lemma default_acc_ok : acc_ok default_accumulator.
Proof. split_and!; [apply indexed_empty..|]. intros id. split; [intros _; apply not_elem_of_nil|done]. Qed.

Lemma push_item_ok a c :
  acc_ok a ->
  acc_ok (push_item_change a c)
  /\ changed_items (accumulator_finish (push_item_change a c))
     = upsert item_key (fun _ => c) c (changed_items (accumulator_finish a))
  /\ changed_turns (accumulator_finish (push_item_change a c)) = changed_turns (accumulator_finish a)
  /\ removed_turn_ids (accumulator_finish (push_item_change a c)) = removed_turn_ids (accumulator_finish a).
Proof.
  intros (Hi & Ht & Hr). unfold push_item_change. change (change_turn_id c, item_id (change_item c)) with (item_key c).
  destruct (index_get (acc_item_indexes a) (item_key c)) as [n|] eqn:E.
  - destruct (indexed_replace item_key _ _ _ _ Hi E) as [Hi' Hu]. by split_and!.
  - destruct (indexed_append item_key _ _ _ Hi E) as [Hi' Hu]. by split_and!.
Qed.

Lemma push_turn_ok a c :
  acc_ok a ->
  acc_ok (push_turn_change a c)
  /\ changed_items (accumulator_finish (push_turn_change a c)) = changed_items (accumulator_finish a)
  /\ changed_turns (accumulator_finish (push_turn_change a c))
     = upsert changed_turn_id (fun _ => c) c (changed_turns (accumulator_finish a))
  /\ removed_turn_ids (accumulator_finish (push_turn_change a c)) = removed_turn_ids (accumulator_finish a).
Proof.
  intros (Hi & Ht & Hr). unfold push_turn_change.
  destruct (index_get (acc_turn_indexes a) (changed_turn_id c)) as [n|] eqn:E.
  - destruct (indexed_replace changed_turn_id _ _ _ _ Ht E) as [Ht' Hu]. by split_and!.
  - destruct (indexed_append changed_turn_id _ _ _ Ht E) as [Ht' Hu]. by split_and!.
Qed.

Lemma forget_items_ok keys slots m :
  indexed item_key slots m ->
  indexed item_key (forget_items keys (slots, m)).1 (forget_items keys (slots, m)).2
  /\ omap id (forget_items keys (slots, m)).1
     = List.filter (fun c => negb (bool_decide (item_key c ∈ keys))) (omap id slots).
Proof.
  revert slots m. induction keys as [|k keys IH]; intros slots m Hi.
  - split; [done|]. cbn. induction (omap id slots) as [|c l IHl]; [done|]. cbn [List.filter].
    rewrite bool_decide_eq_false_2 by apply not_elem_of_nil. cbn [negb]. by rewrite <- IHl.
  - unfold forget_items in *. cbn [foldl].
    assert (Hstep : exists slots' m', match index_get m k with
        | Some index => (<[index := None]> slots, index_remove m k) | None => (slots, m) end = (slots', m')
        /\ indexed item_key slots' m'
        /\ omap id slots' = List.filter (fun d => negb (bool_decide (item_key d = k))) (omap id slots)).
    { destruct (index_get m k) as [n|] eqn:E.
      - eexists _, _. split; [reflexivity|]. by apply indexed_remove.
      - eexists _, _. split; [reflexivity|]. split; [done|]. rewrite filter_keys_none; [done|]. by apply (indexed_get _ _ m). }
    destruct Hstep as (slots' & m' & -> & Hi' & Ho). destruct (IH slots' m' Hi') as [H1 H2]. split; [exact H1|].
    rewrite H2, Ho. clear. induction (omap id slots) as [|c l IHl]; [done|]. cbn [List.filter].
    destruct (bool_decide_reflect (item_key c = k)) as [Ek|Ek]; cbn [negb List.filter].
    + rewrite bool_decide_eq_true_2 by (rewrite Ek; left). exact IHl.
    + rewrite IHl. f_equal. rewrite (bool_decide_ext (item_key c ∈ k :: keys) (item_key c ∈ keys)); [done|].
      rewrite elem_of_cons. tauto.
Qed.

Lemma push_removed_ok a tid :
  acc_ok a ->
  acc_ok (push_removed_turn_id a tid)
  /\ accumulator_finish (push_removed_turn_id a tid) = removed_change (accumulator_finish a) tid.
Proof.
  intros (Hi & Ht & Hr). unfold push_removed_turn_id.
  set (keys := List.filter _ _). destruct (forget_items keys _) as [items' m'] eqn:Ef.
  destruct (forget_items_ok keys _ _ Hi) as [Hi' Ho]. rewrite Ef in Hi', Ho. cbn [fst snd] in Hi', Ho.
  assert (Hitems : omap id items' = List.filter (not_turn tid) (omap id (acc_items a))).
  { rewrite Ho. assert (Hall : forall c, c ∈ omap id (acc_items a) ->
      bool_decide (item_key c ∈ keys) = bool_decide (change_turn_id c = tid)).
    { intros c Hc. apply bool_decide_ext. subst keys. rewrite list_elem_of_In, filter_In, <- list_elem_of_In.
      unfold str_eqb. rewrite bool_decide_eq_true. split; [by intros [_ E]|]. intros E. split; [|done].
      apply elem_of_used in Hc as (n & Hn).
      assert (Hg : index_get (acc_item_indexes a) (item_key c) = Some n) by (apply Hi; by exists c).
      revert Hg. clear. induction (acc_item_indexes a) as [|[k x] m IH]; [done|]. cbn [index_get].
      rewrite fmap_cons, elem_of_cons. destruct (decide (k = item_key c)) as [->|]; [by left|].
      intros ?%IH. by right. }
    revert Hall. clear. unfold not_turn. induction (omap id (acc_items a)) as [|c l IH]; [done|]. intros Hall.
    cbn [List.filter]. rewrite Hall by left. rewrite IH; [done|]. intros d Hd. apply Hall. by right. }
  assert (Hturns : exists turns' ti', match index_get (acc_turn_indexes a) tid with
      | Some index => (<[index := None]> (acc_turns a), index_remove (acc_turn_indexes a) tid)
      | None => (acc_turns a, acc_turn_indexes a) end = (turns', ti')
      /\ indexed changed_turn_id turns' ti' /\ omap id turns' = List.filter (other_turn tid) (omap id (acc_turns a))).
  { destruct (index_get (acc_turn_indexes a) tid) as [n|] eqn:E.
    - eexists _, _. split; [reflexivity|]. by apply indexed_remove.
    - eexists _, _. split; [reflexivity|]. split; [done|]. unfold other_turn. rewrite filter_keys_none; [done|].
      by apply (indexed_get _ _ (acc_turn_indexes a)). }
  destruct Hturns as (turns' & ti' & -> & Ht' & Hto).
  unfold removed_change, accumulator_finish, acc_ok. cbn [changed_items changed_turns removed_turn_ids].
  destruct (index_get (acc_removed_indexes a) tid) as [n|] eqn:E;
    cbn [acc_items acc_item_indexes acc_turns acc_turn_indexes acc_removed acc_removed_indexes]; rewrite Hitems, Hto.
  - split; [by split_and!|]. rewrite decide_True; [done|]. destruct (decide (tid ∈ acc_removed a)) as [|Hn]; [done|].
    apply Hr in Hn. congruence.
  - split; [|by rewrite decide_False by by apply Hr]. split_and!; [done|done|]. intros k. cbn [index_get].
    rewrite elem_of_app, list_elem_of_singleton. destruct (decide (tid = k)) as [->|Hk].
    + split; [done|]. intros []. by right.
    + rewrite (Hr k). split; [|tauto]. intros Hn [?|?]; [done|congruence].
Qed.

Definition turns_applied (v : list TurnView) (s : ChangeSet) : list TurnView :=
  foldl apply_turn_change (kept_views (removed_turn_ids s) v) (changed_turns s).

Lemma acc_items_nodup a : acc_ok a -> NoDup (item_key <$> changed_items (accumulator_finish a)).
Proof. intros (Hi & _). by eapply indexed_nodup. Qed.

Lemma acc_turns_nodup a : acc_ok a -> NoDup (changed_turn_id <$> changed_turns (accumulator_finish a)).
Proof. intros (_ & Ht & _). by eapply indexed_nodup. Qed.

Lemma push_removed_all v ids a :
  acc_ok a -> covered (turns_applied v (accumulator_finish a)) (changed_items (accumulator_finish a)) ->
  let a' := foldl push_removed_turn_id a ids in
  acc_ok a' /\ apply_changes v (accumulator_finish a') = kept_views ids (apply_changes v (accumulator_finish a))
  /\ covered (turns_applied v (accumulator_finish a')) (changed_items (accumulator_finish a')).
Proof.
  revert a. induction ids as [|i ids IH]; intros a Ha Hc; cbn [foldl].
  - split_and!; [done| |done]. unfold kept_views. induction (apply_changes _ _) as [|x w IHw]; [done|].
    cbn [List.filter]. rewrite bool_decide_eq_false_2 by apply not_elem_of_nil. cbn [negb]. by rewrite <- IHw.
  - destruct (push_removed_ok a i Ha) as [Ha' Hf]. destruct (IH _ Ha') as (H1 & H2 & H3).
    + rewrite Hf. assert (Ht : turns_applied v (removed_change (accumulator_finish a) i)
        = kept_views [i] (turns_applied v (accumulator_finish a))).
      { pose proof (removed_change_applied v (mkChangeSet [] (changed_turns (accumulator_finish a))
          (removed_turn_ids (accumulator_finish a))) i) as Hr. exact Hr. }
      rewrite Ht. unfold covered in *. rewrite Forall_forall in Hc |- *. intros c.
      cbn [removed_change changed_items]. rewrite list_elem_of_In, filter_In, <- list_elem_of_In.
      intros [Hin Hn]. apply kept_views_ids. split; [by apply Hc|]. unfold not_turn in Hn.
      rewrite list_elem_of_singleton. by destruct (bool_decide_reflect (change_turn_id c = i)).
    + split_and!; [done| |done]. rewrite H2, Hf, removed_change_applied.
      by rewrite <- (kept_views_app [i] ids).
Qed.

Lemma push_items_all cs a :
  acc_ok a ->
  let a' := foldl push_item_change a cs in
  acc_ok a'
  /\ changed_items (accumulator_finish a')
     = foldl (fun l c => upsert item_key (fun _ => c) c l) (changed_items (accumulator_finish a)) cs
  /\ changed_turns (accumulator_finish a') = changed_turns (accumulator_finish a)
  /\ removed_turn_ids (accumulator_finish a') = removed_turn_ids (accumulator_finish a).
Proof.
  revert a. induction cs as [|c cs IH]; intros a Ha; [done|]. cbn [foldl].
  destruct (push_item_ok a c Ha) as (Ha' & Hi & Ht & Hr).
  destruct (IH _ Ha') as (H1 & H2 & H3 & H4). by rewrite H2, H3, H4, Hi, Ht, Hr.
Qed.

Lemma push_turns_all cs a :
  acc_ok a ->
  let a' := foldl push_turn_change a cs in
  acc_ok a'
  /\ changed_items (accumulator_finish a') = changed_items (accumulator_finish a)
  /\ changed_turns (accumulator_finish a')
     = foldl (fun l c => upsert changed_turn_id (fun _ => c) c l) (changed_turns (accumulator_finish a)) cs
  /\ removed_turn_ids (accumulator_finish a') = removed_turn_ids (accumulator_finish a).
Proof.
  revert a. induction cs as [|c cs IH]; intros a Ha; [done|]. cbn [foldl].
  destruct (push_turn_ok a c Ha) as (Ha' & Hi & Ht & Hr).
  destruct (IH _ Ha') as (H1 & H2 & H3 & H4). by rewrite H2, H3, H4, Hi, Ht, Hr.
Qed.

Lemma fold_items_upserts (v : list TurnView) cs l :
  NoDup (view_ids v) -> NoDup (item_key <$> l) ->
  foldl apply_item_change v (foldl (fun l c => upsert item_key (fun _ => c) c l) l cs)
  = foldl apply_item_change (foldl apply_item_change v l) cs.
Proof.
  intros Hv. revert l. induction cs as [|c cs IH]; intros l Hl; [done|]. cbn [foldl].
  rewrite IH by (by apply NoDup_keys_upsert). by rewrite fold_items_upsert.
Qed.

Lemma fold_turns_upserts (v : list TurnView) cs l :
  NoDup (changed_turn_id <$> l) ->
  foldl apply_turn_change v (foldl (fun l c => upsert changed_turn_id (fun _ => c) c l) l cs)
  = foldl apply_turn_change (foldl apply_turn_change v l) cs.
Proof.
  revert l. induction cs as [|c cs IH]; intros l Hl; [done|]. cbn [foldl].
  rewrite IH by (by apply NoDup_keys_upsert). by rewrite fold_turns_upsert.
Qed.

Lemma elem_of_upserts c cs l :
  c ∈ foldl (fun l c => upsert item_key (fun _ => c) c l) l cs -> c ∈ l \/ c ∈ cs.
Proof.
  revert l. induction cs as [|d cs IH]; intros l; [by left|]. cbn [foldl]. intros [Hc|?]%IH; [|by right; right].
  revert Hc. clear. induction l as [|x l IHl]; cbn [upsert].
  - intros ->%list_elem_of_singleton. right. left.
  - destruct (decide _); rewrite !elem_of_cons; [by intros [->|?]; [right; left|left; right]|].
    intros [->|[?|?]%IHl]; [by left; left|by left; right|right]. by apply elem_of_cons.
Qed.

(** Applying what a batch has accumulated is applying its parts in order. *)
Lemma accumulator_push_applied (v : list TurnView) a c :
  NoDup (view_ids v) -> acc_ok a ->
  covered (turns_applied v (accumulator_finish a)) (changed_items (accumulator_finish a)) ->
  covered (turns_applied (apply_changes v (accumulator_finish a)) c) (changed_items c) ->
  let a' := accumulator_push a c in
  acc_ok a'
  /\ apply_changes v (accumulator_finish a') = apply_changes (apply_changes v (accumulator_finish a)) c
  /\ covered (turns_applied v (accumulator_finish a')) (changed_items (accumulator_finish a')).
Proof.
  intros Hv Ha Hcov Hc. unfold accumulator_push.
  destruct (push_removed_all v (removed_turn_ids c) a Ha Hcov) as (Ha1 & H1 & Hcov1).
  set (a1 := foldl push_removed_turn_id a (removed_turn_ids c)) in *.
  destruct (push_items_all (changed_items c) a1 Ha1) as (Ha2 & Hi2 & Ht2 & Hr2).
  set (a2 := foldl push_item_change a1 (changed_items c)) in *.
  destruct (push_turns_all (changed_turns c) a2 Ha2) as (Ha3 & Hi3 & Ht3 & Hr3).
  set (a3 := foldl push_turn_change a2 (changed_turns c)) in *.
  assert (HT : turns_applied v (accumulator_finish a3)
    = foldl apply_turn_change (turns_applied v (accumulator_finish a1)) (changed_turns c)).
  { unfold turns_applied. rewrite Ht3, Ht2, Hr3, Hr2. apply fold_turns_upserts. by apply acc_turns_nodup. }
  assert (Hn : NoDup (view_ids (turns_applied v (accumulator_finish a3)))).
  { unfold turns_applied. by apply turn_changes_nodup, kept_views_nodup. }
  assert (Happ : apply_changes v (accumulator_finish a3)
    = apply_changes (apply_changes v (accumulator_finish a)) c).
  { unfold apply_changes at 1. fold (turns_applied v (accumulator_finish a3)). rewrite Hi3, Hi2.
    rewrite fold_items_upserts by (done || by apply acc_items_nodup). rewrite HT.
    rewrite <- turn_changes_before_items by done. unfold apply_changes at 1. do 2 f_equal. exact H1. }
  split_and!; [done|exact Happ|]. rewrite Hi3, Hi2. unfold covered in *. rewrite Forall_forall in Hcov1, Hc |- *.
  intros d [Hd|Hd]%elem_of_upserts.
  - rewrite HT. apply turn_changes_ids. left. by apply Hcov1.
  - apply Hc in Hd. rewrite HT. apply turn_changes_ids. unfold turns_applied in Hd. rewrite turn_changes_ids in Hd.
    destruct Hd as [Hd|Hd]; [left|by right]. rewrite <- H1 in Hd. unfold apply_changes in Hd.
    by rewrite item_change_ids in Hd.
Qed.
End batch.
