(* ===== verification/ThreadRuns.v ===== *)
(** * ThreadRuns: runs of [ThreadHistoryBuilder]

    Recording changes does not influence the turns; ids stay unique; the
    changes of an input, and those of a batch, keep a client's view equal to
    the view of the builder ([ThreadProjection]).

    [input_ok] is what the inputs of a run have to satisfy: a turn that is
    opened has a new id, an item that is pushed with an id from outside is new
    in its turn, and ids from outside do not have the form of generated ones. *)

From Stdlib Require Import ZArith Lia.
From stdpp Require Import base list strings.
From S2P Require Import Prelude AbsolutePath Truncate ResponseItems JsonPatch ContextFragments ThreadItems ThreadHistory ThreadProjection.

Open Scope rust_scope.

(** ** Generated ids *)

Lemma generated_item_id_inj m n : (0 <= m)%Z -> (0 <= n)%Z -> generated_item_id m = generated_item_id n -> m = n.
Proof. intros Hm Hn H%app_inv_head%decimal_inj. lia. Qed.

Lemma rollout_turn_id_inj m n : rollout_turn_id m = rollout_turn_id n -> m = n.
Proof. intros H%app_inv_head%decimal_inj. lia. Qed.

(** An id that has not the form of a generated one. *)
Definition external_item (id : rstr) : bool := negb (starts_with (lit "item-") id).
Definition external_turn (id : rstr) : bool := negb (starts_with (lit "rollout-") id).

Lemma starts_with_prefix (p s : rstr) : starts_with p (p ++ s) = true.
Proof. unfold starts_with. by rewrite strip_prefix_app. Qed.

Lemma external_item_not id n : external_item id = true -> id <> generated_item_id n.
Proof. intros H ->. unfold external_item, generated_item_id in H. by rewrite starts_with_prefix in H. Qed.

Lemma external_turn_not id n : external_turn id = true -> id <> rollout_turn_id n.
Proof. intros H ->. unfold external_turn, rollout_turn_id in H. by rewrite starts_with_prefix in H. Qed.

Section runs.
Context {Json Failure PathUri ThreadId Extra RJson : Type}.
Context `{!Presentation PathUri} `{!ThreadIds ThreadId}.
Context (json_null : Json) (new_uuid : nat -> rstr) (from_xml : rstr -> option (rstr * rstr)).
Abbreviation ThreadItem := (ThreadItem Json Failure).
Abbreviation Builder := (ThreadHistoryBuilder (Json := Json) (Failure := Failure)).
Abbreviation ChangeSet := (ThreadHistoryChangeSet (Json := Json) (Failure := Failure)).
Abbreviation Turn := (Turn (Json := Json) (Failure := Failure)).
Abbreviation PendingTurn := (PendingTurn (Json := Json) (Failure := Failure)).
Abbreviation EventMsg := (EventMsg (Json := Json) (Failure := Failure) (PathUri := PathUri) (ThreadId := ThreadId)).
Abbreviation RolloutItem := (RolloutItem (Json := Json) (Failure := Failure) (PathUri := PathUri)
  (ThreadId := ThreadId) (Extra := Extra) (RJson := RJson)).
Abbreviation TurnView := (TurnView (Json := Json) (Failure := Failure)).

(** ** The view of a builder *)

Definition view_of_turn (t : Turn) : TurnView := mkView (change_from_turn t) (turn_items t).

(** The turns with the open one. *)
Definition all_turns (b : Builder) : list Turn :=
  turns b ++ match current_turn b with Some t => [turn_from t] | None => [] end.

Definition view (b : Builder) : list TurnView := view_of_turn <$> all_turns b.

Definition track (b : Builder) (c : ChangeSet) : Builder := set_active_change_set b (Some c).

Definition joined (c d : ChangeSet) : ChangeSet :=
  mkChangeSet (changed_items c ++ changed_items d) (changed_turns c ++ changed_turns d)
    (removed_turn_ids c ++ removed_turn_ids d).

Definition turn_delta (m : ThreadHistoryTurnChange) : ChangeSet := mkChangeSet [] [m] [].
Definition item_delta (id : rstr) (item : ThreadItem) : ChangeSet :=
  mkChangeSet [mkItemChange id item None None] [] [].

(** [h] behaves the same whether changes are tracked or not, and when they
    are, it adds [d] to them. *)
Definition emits (h : Builder -> Builder) (b : Builder) (d : ChangeSet) : Prop :=
  active_change_set (h b) = None /\ forall c, h (track b c) = track (h b) (joined c d).

(** ... and [d] tells a client what changed. *)
Definition projects (h : Builder -> Builder) (b : Builder) : Prop :=
  exists d, emits h b d /\ view (h b) = apply_changes (view b) d
    /\ covered (turns_applied (view b) d) (changed_items d).

Lemma track_eta b c : active_change_set b = Some c -> track b c = b.
Proof. by destruct b; cbn; intros ->. Qed.

Lemma joined_nil c : joined c default_change_set = c.
Proof. destruct c. unfold joined. cbn. by rewrite !app_nil_r. Qed.

Lemma apply_nothing (v : list TurnView) : apply_changes v default_change_set = v.
Proof.
  unfold apply_changes. cbn. unfold kept_views. induction v as [|x v IH]; [done|]. cbn [List.filter].
  rewrite bool_decide_eq_false_2 by apply not_elem_of_nil. cbn [negb]. by rewrite IH.
Qed.

Lemma projects_nothing h b :
  emits h b default_change_set -> view (h b) = view b -> projects h b.
Proof.
  intros He Hv. exists default_change_set. split_and!; [done|by rewrite apply_nothing|apply Forall_nil_2].
Qed.

(** ** Invariant *)

(** [good m b]: no changes are being tracked, ids are unique, and the
    generated ones are below their counters ([m] for turns). *)
Record good (m : nat) (b : Builder) : Prop := {
  good_idle : active_change_set b = None;
  good_turns : NoDup (view_ids (view b));
  good_items : Forall (fun t => NoDup (item_id <$> view_items t)) (view b);
  good_generated : forall t n, current_turn b = Some t -> (0 <= n)%Z ->
    generated_item_id n ∈ item_id <$> pending_items t -> (n < next_item_index b)%Z;
  good_counter : (1 <= next_item_index b)%Z;
  good_rollout : forall k, rollout_turn_id k ∈ view_ids (view b) -> k < m
}.

(** The open turn is one that [finish_current_turn] keeps. *)
Definition droppable (t : PendingTurn) : bool :=
  is_empty (pending_items t) && negb (opened_explicitly t) && negb (saw_compaction t).

Definition kept_open (b : Builder) : Prop := forall t, current_turn b = Some t -> droppable t = false.

(** Between [advance_rollout] and the handler of rollout item [m]. *)
Definition ready (m : nat) (b : Builder) : Prop :=
  good m b /\ kept_open b /\ current_rollout_index b = m /\ next_rollout_index b = S m.

(** What each handler establishes. *)
Definition handled (m : nat) (h : Builder -> Builder) (b : Builder) : Prop :=
  good (S m) (h b) /\ kept_open (h b) /\ projects h b
  /\ current_rollout_index (h b) = m /\ next_rollout_index (h b) = S m.

Lemma good_mono m m' b : m <= m' -> good m b -> good m' b.
Proof. intros Hm [H1 H2 H3 H4 H5 H6]. split; try done. intros k Hk. apply H6 in Hk. lia. Qed.

Lemma handled_nothing m h b :
  ready m b -> h b = b -> (forall c, h (track b c) = track b c) -> handled m h b.
Proof.
  intros (Hg & Hk & Hc & Hn) Hh Ht. unfold handled. rewrite Hh.
  split_and!; [by eapply good_mono; [|done]; lia|done| |done|done].
  apply projects_nothing; [|by rewrite Hh]. split; [rewrite Hh; by apply (good_idle m)|].
  intros c. by rewrite Ht, Hh, joined_nil.
Qed.

(** A function that changes neither the view nor the changes, before another. *)
Lemma projects_after (f h : Builder -> Builder) b :
  (forall c, f (track b c) = track (f b) c) -> view (f b) = view b ->
  projects h (f b) -> projects (fun b => h (f b)) b.
Proof.
  intros Hf Hv (d & [He1 He2] & Hd & Hc). exists d. rewrite <- Hv. split_and!; [split; [done|]|done|done].
  intros c. by rewrite Hf, He2.
Qed.

(** *** Views of the turns *)

Lemma view_open b t : current_turn b = Some t -> view b = (view_of_turn <$> turns b) ++ [view_of_turn (turn_from t)].
Proof. intros H. unfold view, all_turns. by rewrite H, fmap_app. Qed.

Lemma view_closed b : current_turn b = None -> view b = view_of_turn <$> turns b.
Proof. intros H. unfold view, all_turns. by rewrite H, app_nil_r. Qed.

Lemma view_of_turn_id t : view_id (view_of_turn t) = turn_id t.
Proof. done. Qed.

Lemma turns_ids (ts : list Turn) : view_ids (view_of_turn <$> ts) = turn_id <$> ts.
Proof. unfold view_ids. by rewrite <- list_fmap_compose. Qed.

Lemma open_turn_new m b t :
  good m b -> current_turn b = Some t -> pending_id t ∉ view_ids (view_of_turn <$> turns b).
Proof.
  intros Hg Ht. pose proof (good_turns m b Hg) as Hn. rewrite (view_open b t Ht) in Hn. unfold view_ids in *.
  rewrite fmap_app in Hn. apply NoDup_app in Hn as (_ & Hd & _). intros Hin. apply (Hd _ Hin).
  by apply list_elem_of_singleton.
Qed.

Lemma upsert_turn_item_eq (items : list ThreadItem) item :
  upsert_turn_item items item = upsert item_id (fun _ => item) item items.
Proof.
  induction items as [|x items IH]; [done|]. cbn [upsert_turn_item upsert]. unfold str_eqb.
  rewrite IH. by case_bool_decide; case_decide.
Qed.

(** *** Tracking *)

Lemma record_item_track b c id item :
  record_changed_item (track b c) id item = track b (joined c (item_delta id item)).
Proof. unfold track, joined, item_delta. cbn. by rewrite !app_nil_r. Qed.

Lemma record_turn_track b c m : record_changed_turn (track b c) m = track b (joined c (turn_delta m)).
Proof. unfold track, joined, turn_delta. cbn. by rewrite !app_nil_r. Qed.

Lemma record_item_idle (b : Builder) id item : active_change_set b = None -> record_changed_item b id item = b.
Proof. unfold record_changed_item. by intros ->. Qed.

Lemma record_turn_idle (b : Builder) m : active_change_set b = None -> record_changed_turn b m = b.
Proof. unfold record_changed_turn. by intros ->. Qed.

Lemma record_pending_eq (b : Builder) t : record_changed_pending_turn b t = record_changed_turn b (from_pending_turn t).
Proof.
  unfold record_changed_pending_turn, is_tracking_changes, record_changed_turn.
  by destruct (active_change_set b).
Qed.

Lemma apply_joined_item (v : list TurnView) d id item :
  apply_changes v (joined d (item_delta id item))
  = apply_item_change (apply_changes v d) (mkItemChange id item None None).
Proof. unfold apply_changes, joined, item_delta. cbn. by rewrite !app_nil_r, foldl_app. Qed.

Lemma apply_turn_delta (v : list TurnView) m : apply_changes v (turn_delta m) = apply_turn_change v m.
Proof.
  rewrite <- (apply_nothing v) at 2. unfold apply_changes, turn_delta. cbn. done.
Qed.

Lemma joined_assoc a b c : joined (joined a b) c = joined a (joined b c).
Proof. unfold joined. cbn. by rewrite <- !app_assoc. Qed.

(** ** Items in the open turn *)

Lemma store_current m b t item items' :
  good m b -> current_turn b = Some t ->
  items' = upsert item_id (fun _ => item) item (pending_items t) ->
  (forall n, (0 <= n)%Z -> item_id item = generated_item_id n -> (n < next_item_index b)%Z) ->
  let b' := set_current_turn b (Some (set_pending_items t items')) in
  good m b' /\ kept_open b'
  /\ view b' = apply_item_change (view b) (mkItemChange (pending_id t) item None None)
  /\ pending_id t ∈ view_ids (view b).
Proof.
  intros Hg Ht -> Hgen b'. set (t' := set_pending_items t _) in b'.
  assert (Hnew := open_turn_new m b t Hg Ht).
  assert (Hv : view b' = apply_item_change (view b) (mkItemChange (pending_id t) item None None)).
  { rewrite (view_open b t Ht), (view_open b' t' eq_refl). unfold apply_item_change. cbn [change_turn_id change_item].
    rewrite alter_view_app_r by done. cbn [alter_view]. by rewrite decide_True by done. }
  assert (Hids : view_ids (view b') = view_ids (view b)) by (rewrite Hv; by apply alter_view_ids).
  split_and!; [| |done|].
  - split.
    + apply (good_idle m b Hg).
    + rewrite Hids. apply (good_turns m b Hg).
    + pose proof (good_items m b Hg) as Hi. rewrite (view_open b t Ht), Forall_app, Forall_singleton in Hi.
      rewrite (view_open b' t' eq_refl), Forall_app, Forall_singleton. destruct Hi as [Hi1 Hi2]. split; [done|].
      cbn [view_of_turn turn_from turn_items view_items t' set_pending_items pending_items].
      by apply NoDup_keys_upsert.
    + intros t0 n [= <-] Hn. cbn [t' set_pending_items pending_items]. rewrite elem_of_keys_upsert by done.
      intros [Hin|Heq]; [by apply (good_generated m b Hg t n)|]. by apply Hgen.
    + apply (good_counter m b Hg).
    + rewrite Hids. apply (good_rollout m b Hg).
  - intros t0 [= <-]. unfold droppable. cbn [t' set_pending_items pending_items].
    assert (Hne : upsert item_id (fun _ => item) item (pending_items t) <> []).
    { destruct (pending_items t); cbn [upsert]; [done|]. by destruct (decide _). }
    by destruct (upsert _ _ _ _).
  - rewrite (view_open b t Ht). unfold view_ids. rewrite fmap_app, elem_of_app. right.
    by apply list_elem_of_singleton.
Qed.

(** ** Opening and closing turns *)

Lemma open_new m m' b t :
  good m b -> m <= m' -> current_turn b = None -> pending_items t = [] -> pending_id t ∉ view_ids (view b) ->
  (forall k, pending_id t = rollout_turn_id k -> k < m') ->
  let b' := set_current_turn b (Some t) in
  good m' b' /\ view b' = apply_changes (view b) (turn_delta (from_pending_turn t)).
Proof.
  intros Hg Hm Ht Hnil Hnew Hk b'.
  assert (Hv : view b' = view b ++ [view_of_turn (turn_from t)]).
  { by rewrite (view_open b' t eq_refl), (view_closed b Ht). }
  split.
  - split.
    + apply (good_idle m b Hg).
    + rewrite Hv. unfold view_ids. rewrite fmap_app. apply NoDup_app.
      split_and!; [apply (good_turns m b Hg)| |apply NoDup_singleton]. intros x Hx ->%list_elem_of_singleton. done.
    + rewrite Hv, Forall_app, Forall_singleton. split; [apply (good_items m b Hg)|]. cbn. rewrite Hnil. apply NoDup_nil_2.
    + intros t0 n [= <-] _ Hin. rewrite Hnil in Hin. by apply elem_of_nil in Hin.
    + apply (good_counter m b Hg).
    + intros k. rewrite Hv. unfold view_ids. rewrite fmap_app, fmap_cons, fmap_nil, elem_of_app, list_elem_of_singleton.
      intros [Hin|E]; [apply (good_rollout m b Hg) in Hin; lia|by apply Hk].
  - rewrite Hv, apply_turn_delta. unfold apply_turn_change. rewrite upsert_fresh; [|exact Hnew].
    unfold view_of_turn. cbn. by rewrite Hnil.
Qed.

Lemma finish_ok m b :
  good m b -> kept_open b ->
  good m (finish_current_turn b) /\ view (finish_current_turn b) = view b
  /\ current_turn (finish_current_turn b) = None
  /\ (forall c, finish_current_turn (track b c) = track (finish_current_turn b) c)
  /\ next_item_index (finish_current_turn b) = next_item_index b
  /\ current_rollout_index (finish_current_turn b) = current_rollout_index b
  /\ next_rollout_index (finish_current_turn b) = next_rollout_index b.
Proof.
  intros Hg Hk. unfold finish_current_turn. cbn [track set_active_change_set current_turn].
  destruct (current_turn b) as [t|] eqn:Ht; [|done]. specialize (Hk t Ht). unfold droppable in Hk. rewrite Hk.
  set (b' := set_turns _ _). assert (Hv : view b' = view b).
  { rewrite (view_open b t Ht), (view_closed b' eq_refl). exact (fmap_app view_of_turn (turns b) [turn_from t]). }
  split_and!; try done. destruct Hg as [H1 H2 H3 H4 H5 H6]. split; try rewrite Hv; done.
Qed.

Lemma ready_finish m b : ready m b -> ready m (finish_current_turn b).
Proof.
  intros (Hg & Hk & Hc & Hn). destruct (finish_ok m b Hg Hk) as (H1 & H2 & H3 & H4 & H5 & H6 & H7).
  split_and!; [done|intros t; congruence|congruence|congruence].
Qed.

(** *** [ensure_turn] *)

Definition ensured (b : Builder) : PendingTurn := (ensure_turn new_uuid b).1.
Definition ensure (b : Builder) : Builder := (ensure_turn new_uuid b).2.

Definition ensure_delta (b : Builder) : ChangeSet :=
  match current_turn b with Some _ => default_change_set | None => turn_delta (from_pending_turn (ensured b)) end.

Lemma ensure_eq b : ensure_turn new_uuid b = (ensured b, ensure b).
Proof. unfold ensured, ensure. by destruct (ensure_turn new_uuid b). Qed.

Lemma ensure_track b c :
  active_change_set b = None ->
  ensure_turn new_uuid (track b c) = (ensured b, track (ensure b) (joined c (ensure_delta b)))
  /\ active_change_set (ensure b) = None /\ current_turn (ensure b) = Some (ensured b).
Proof.
  intros Hi. unfold ensure_delta, ensured, ensure, ensure_turn. cbn [track set_active_change_set current_turn].
  destruct (current_turn b) as [t|] eqn:Ht; cbn [fst snd].
  - by rewrite joined_nil.
  - unfold new_turn, draw_uuid. cbn [next_rollout_index]. destruct b as [ts cur n ci ni act u]. cbn in *. subst act.
    destruct (ni =? 0); cbn; unfold joined, turn_delta, track; cbn; by rewrite !app_nil_r.
Qed.

Lemma ensure_good m b :
  ready m b ->
  good (S m) (ensure b) /\ view (ensure b) = apply_changes (view b) (ensure_delta b)
  /\ next_item_index (ensure b) = next_item_index b
  /\ current_rollout_index (ensure b) = m /\ next_rollout_index (ensure b) = S m
  /\ (current_turn b = None -> pending_items (ensured b) = []).
Proof.
  intros (Hg & _ & Hc & Hn). unfold ensure, ensured, ensure_delta, ensured, ensure_turn.
  destruct (current_turn b) as [t|] eqn:Ht; cbn [fst snd].
  - split_and!; [by eapply good_mono; [|done]; lia|by rewrite apply_nothing|done..].
  - unfold new_turn. rewrite Hn, Hc. cbn [Nat.eqb fst snd]. rewrite record_pending_eq, record_turn_idle by apply (good_idle m b Hg).
    set (t := mkPending _ _ _ _ _ _ _ _ _ _).
    destruct (open_new m (S m) b t Hg) as [Hg' Hv']; [lia|done|done| | |by split_and!].
    + intros Hk. apply (good_rollout m b Hg) in Hk. lia.
    + intros k ->%rollout_turn_id_inj. lia.
Qed.

(** [upsert_item_in_current_turn] and [push_item_in_current_turn] *)
Definition store_in_current (store : list ThreadItem -> list ThreadItem) (item : ThreadItem) (b : Builder) : Builder :=
  let '(t, b) := ensure_turn new_uuid b in
  let b := set_current_turn b (Some (set_pending_items t (store (pending_items t)))) in
  record_changed_item b (pending_id t) item.

Lemma store_in_current_ok m b store item :
  ready m b ->
  (forall n, (0 <= n)%Z -> item_id item = generated_item_id n -> (n < next_item_index b)%Z) ->
  (forall items, items = pending_items (ensured b) ->
     store items = upsert item_id (fun _ => item) item items) ->
  handled m (store_in_current store item) b.
Proof.
  intros Hr Hgen Hstore. assert (Hi := good_idle m b (proj1 Hr)).
  destruct (ensure_good m b Hr) as (Hg1 & Hv1 & Hn1 & Hc1 & Hx1 & _).
  destruct (ensure_track b default_change_set Hi) as (_ & Ha1 & Ht1).
  set (t := ensured b) in *. set (b1 := ensure b) in *.
  destruct (store_current (S m) b1 t item (store (pending_items t)) Hg1 Ht1) as (Hg2 & Hk2 & Hv2 & Hin2).
  { by apply Hstore. }
  { intros n Hn E. rewrite Hn1. by apply Hgen. }
  set (b2 := set_current_turn b1 _) in *.
  assert (Heq : store_in_current store item b = b2).
  { unfold store_in_current. rewrite ensure_eq. fold t b1. by rewrite record_item_idle. }
  unfold handled, projects, emits. rewrite Heq. split_and!; [done|done| |done|done].
  exists (joined (ensure_delta b) (item_delta (pending_id t) item)). split_and!; [done| | |].
  - intros c. unfold store_in_current. destruct (ensure_track b c Hi) as (-> & _ & _). fold t b1.
    change (set_current_turn (track b1 (joined c (ensure_delta b))) (Some (set_pending_items t (store (pending_items t)))))
      with (track b2 (joined c (ensure_delta b))). by rewrite record_item_track, joined_assoc.
  - by rewrite apply_joined_item, <- Hv1.
  - assert (Hitems : changed_items (ensure_delta b) = []) by (unfold ensure_delta; by destruct (current_turn b)).
    unfold covered, joined, item_delta. cbn [changed_items]. rewrite Hitems. apply Forall_singleton. cbn [change_turn_id].
    rewrite Hv1 in Hin2. unfold apply_changes in Hin2. rewrite item_change_ids in Hin2. unfold turns_applied. cbn.
    by rewrite !app_nil_r.
Qed.

(** The id of an item that the builder can have generated. *)
Definition below (b : Builder) (id : rstr) : Prop :=
  forall n, (0 <= n)%Z -> id = generated_item_id n -> (n < next_item_index b)%Z.

Lemma external_below b id : external_item id = true -> below b id.
Proof. intros He n _ E. by apply (external_item_not _ n) in He. Qed.

Lemma upsert_current_ok m b item :
  ready m b -> below b (item_id item) -> handled m (fun b => upsert_item_in_current_turn new_uuid b item) b.
Proof.
  intros Hr He. apply (store_in_current_ok m b (fun items => upsert_turn_item items item) item Hr); [done|].
  intros items _. apply upsert_turn_item_eq.
Qed.

Lemma push_current_ok m b item :
  ready m b -> below b (item_id item) ->
  (forall t, current_turn b = Some t -> item_id item ∉ item_id <$> pending_items t) ->
  handled m (fun b => push_item_in_current_turn new_uuid b item) b.
Proof.
  intros Hr Hgen Hf. apply (store_in_current_ok m b (fun items => items ++ [item]) item Hr Hgen).
  intros items ->. symmetry. apply upsert_fresh. unfold ensured, ensure_turn.
  destruct (current_turn b) as [t|] eqn:Ht; [by apply Hf|].
  destruct (ensure_good m b Hr) as (_ & _ & _ & _ & _ & Hnil). unfold ensured, ensure_turn in Hnil. rewrite Ht in Hnil.
  rewrite Hnil by done. apply not_elem_of_nil.
Qed.

(** *** Generated ids *)

Lemma ready_next m b n : ready m b -> (next_item_index b <= n)%Z -> ready m (set_next_item_index b n).
Proof.
  intros ([H1 H2 H3 H4 H5 H6] & Hk & Hc & Hn) Hle. split_and!; [|done|done|done]. split; try done.
  - intros t k Ht H0 Hin. cbn in *. specialize (H4 t k Ht H0 Hin). lia.
  - cbn. lia.
Qed.

Lemma handled_after m f h b :
  (forall c, f (track b c) = track (f b) c) -> view (f b) = view b ->
  handled m h (f b) -> handled m (fun b => h (f b)) b.
Proof. intros Hf Hv (H1 & H2 & H3 & H4). split_and!; try done; [by apply projects_after|apply H4..]. Qed.

Lemma push_generated_ok m b (item : rstr -> ThreadItem) :
  ready m b -> (forall id, item_id (item id) = id) -> handled m (fun b => push_generated new_uuid b item) b.
Proof.
  intros Hr Hid. set (n := next_item_index b). assert (Hn : (1 <= n)%Z) by apply (good_counter m b (proj1 Hr)).
  set (push := fun b => push_item_in_current_turn new_uuid b (item (generated_item_id n))).
  pose (f := fun b : Builder => set_next_item_index b (n + 1)).
  assert (H : handled m (fun b => push (f b)) b).
  { apply handled_after; [done|done|]. apply push_current_ok.
    - apply ready_next; [done|lia].
    - intros k Hk. rewrite Hid. intros E%generated_item_id_inj; [|lia|done]. cbn. lia.
    - intros t Ht Hin. rewrite Hid in Hin. apply (good_generated m b (proj1 Hr) t n Ht) in Hin; lia. }
  destruct H as (H1 & H2 & (d & [He1 He2] & Hd & Hc) & H4). split_and!; try done; [|apply H4..].
  exists d. by split_and!.
Qed.

(** ** Finished turns *)

Lemma find_turn_Some id (ts : list Turn) t : find_turn id ts = Some t -> turn_id t = id /\ t ∈ ts.
Proof.
  induction ts as [|x ts IH]; [done|]. cbn [find_turn]. unfold str_eqb. case_bool_decide as E.
  - intros [= <-]. split; [done|left].
  - intros [? ?]%IH. split; [done|by right].
Qed.

Lemma find_turn_None id (ts : list Turn) : find_turn id ts = None <-> id ∉ view_ids (view_of_turn <$> ts).
Proof.
  rewrite turns_ids. induction ts as [|x ts IH]; [split; [intros _; apply not_elem_of_nil|done]|].
  cbn [find_turn]. rewrite fmap_cons, not_elem_of_cons. unfold str_eqb. case_bool_decide as E.
  - split; [done|]. intros [H _]. by destruct H.
  - rewrite IH. split; [intros ?; split; [congruence|done]|by intros [_ ?]].
Qed.

Lemma alter_turn_view id f g (ts : list Turn) :
  (forall t, find_turn id ts = Some t -> view_of_turn (f t) = g (view_of_turn t)) ->
  view_of_turn <$> alter_turn id f ts = alter_view id g (view_of_turn <$> ts).
Proof.
  intros Hfg. induction ts as [|x ts IH]; [done|]. cbn [alter_turn find_turn] in *.
  rewrite fmap_cons. cbn [alter_view]. change (view_id (view_of_turn x)) with (turn_id x).
  unfold str_eqb in *. destruct (decide (turn_id x = id)) as [E|E].
  - rewrite bool_decide_eq_true_2 in Hfg |- * by done. rewrite fmap_cons. by rewrite Hfg.
  - rewrite bool_decide_eq_false_2 in Hfg |- * by done. rewrite fmap_cons. by rewrite IH.
Qed.

Lemma finished_not_open m b id t :
  good m b -> find_turn id (turns b) = Some t -> forall p, current_turn b = Some p -> pending_id p <> id.
Proof.
  intros Hg Hf p Hp <-. apply (open_turn_new m b p Hg Hp). destruct (find_turn_Some _ _ _ Hf) as [<- Hin].
  rewrite turns_ids. by apply list_elem_of_fmap_2.
Qed.

(** Altering a finished turn, seen as altering its view. *)
Lemma alter_finished m b id t f g :
  good m b -> find_turn id (turns b) = Some t ->
  view_of_turn (f t) = g (view_of_turn t) -> (forall v, view_id v = id -> view_id (g v) = id) ->
  (NoDup (item_id <$> turn_items t) -> NoDup (item_id <$> turn_items (f t))) ->
  let b' := set_turns b (alter_turn id f (turns b)) in
  good m b' /\ (kept_open b -> kept_open b') /\ view b' = alter_view id g (view b)
  /\ view_ids (view b') = view_ids (view b) /\ id ∈ view_ids (view b).
Proof.
  intros Hg Hf Hfg Hid Hnd b'. destruct (find_turn_Some _ _ _ Hf) as [Et Hin].
  assert (Hv : view b' = alter_view id g (view b)).
  { unfold view, all_turns. cbn [b' set_turns turns current_turn]. rewrite !fmap_app, (alter_turn_view id f g).
    - symmetry. apply alter_view_app_l. destruct (current_turn b) as [p|] eqn:Hp; [|apply not_elem_of_nil].
      rewrite fmap_cons, fmap_nil. intros E%list_elem_of_singleton. by eapply (finished_not_open m b id t).
    - intros t' Ht'. by simplify_eq. }
  assert (Hids : view_ids (view b') = view_ids (view b)).
  { rewrite Hv. unfold view_ids. generalize (view b). intros v. induction v as [|x v IH]; [done|]. cbn [alter_view].
    destruct (decide (view_id x = id)) as [E|E]; rewrite !fmap_cons; [by rewrite Hid, E|by rewrite IH]. }
  assert (Hidin : id ∈ view_ids (view b)).
  { unfold view, all_turns, view_ids. rewrite !fmap_app, elem_of_app. left. rewrite <- Et.
    rewrite <- (view_of_turn_id t). do 2 apply list_elem_of_fmap_2. done. }
  split_and!; [|done|done|done|done].
  split; try apply (good_idle m b Hg); try (rewrite Hids; apply Hg); try apply Hg.
  rewrite Hv, Forall_forall. pose proof (good_items m b Hg) as Hi. rewrite Forall_forall in Hi.
  pose proof (good_turns m b Hg) as Hnds.
  intros x [Hx|(y & Hy & Hyid & ->)]%elem_of_alter_view; [by apply Hi|].
  assert (y = view_of_turn t) as ->; [|rewrite <- Hfg; apply Hnd, (Hi _ Hy)].
  assert (Htv : view_of_turn t ∈ view b).
  { unfold view, all_turns. rewrite fmap_app, elem_of_app. left. by apply list_elem_of_fmap_2. }
  revert Hy Htv. revert Hnds. generalize (view b). intros v. unfold view_ids. induction v as [|z v IH].
  { by intros _ ?%elem_of_nil. }
  rewrite fmap_cons, NoDup_cons, !elem_of_cons. intros [Hz Hv'] [->|Hy] [E|Htv]; try done; [..|by apply IH].
  - destruct Hz. rewrite Hyid, <- Et, <- view_of_turn_id. by apply list_elem_of_fmap_2.
  - destruct Hz. rewrite <- E, view_of_turn_id, Et, <- Hyid. by apply list_elem_of_fmap_2.
Qed.

Lemma handled_delta m (h : Builder -> Builder) b b' d :
  ready m b -> h b = b' -> (forall c, h (track b c) = track b' (joined c d)) ->
  good m b' -> kept_open b' -> current_rollout_index b' = m -> next_rollout_index b' = S m ->
  view b' = apply_changes (view b) d -> covered (turns_applied (view b) d) (changed_items d) ->
  handled m h b.
Proof.
  intros Hr Hh Ht Hg Hk Hc Hn Hv Hcov. unfold handled, projects, emits. rewrite Hh.
  split_and!; [by eapply good_mono; [|done]; lia|done| |done|done]. exists d. split_and!; [|done|done|done].
  apply (good_idle m b' Hg).
Qed.

Lemma apply_item_delta (v : list TurnView) id item :
  apply_changes v (item_delta id item) = apply_item_change v (mkItemChange id item None None).
Proof. rewrite <- (apply_nothing v) at 2. by rewrite <- apply_joined_item. Qed.

Lemma item_delta_covered (v : list TurnView) id item :
  id ∈ view_ids v -> covered (turns_applied v (item_delta id item)) (changed_items (item_delta id item)).
Proof.
  intros Hid. apply Forall_singleton. cbn [change_turn_id]. unfold turns_applied. cbn.
  apply kept_views_ids. split; [done|apply not_elem_of_nil].
Qed.

Definition open_id (b : Builder) (id : rstr) : Prop := exists t, current_turn b = Some t /\ pending_id t = id.

Lemma is_current_spec (b : Builder) id : is_current b id = true <-> open_id b id.
Proof.
  unfold is_current, open_id, str_eqb. destruct (current_turn b) as [t|].
  - rewrite bool_decide_eq_true. split; [by exists t|]. by intros (? & [= <-] & ?).
  - split; [done|]. by intros (? & ? & _).
Qed.

Lemma upsert_not_open (b : Builder) id item :
  ~ open_id b id ->
  upsert_item_in_turn_id b id item
  = match find_turn id (turns b) with
    | Some t =>
        record_changed_item
          (set_turns b (alter_turn id (fun t => set_turn_items t (upsert_turn_item (turn_items t) item)) (turns b)))
          (turn_id t) item
    | None => b
    end.
Proof.
  intros Hno. unfold upsert_item_in_turn_id. destruct (current_turn b) as [t|] eqn:Ht; [|done].
  unfold str_eqb. rewrite bool_decide_eq_false_2; [done|]. intros E. destruct Hno. by exists t.
Qed.

Lemma upsert_in_turn_ok m b id item :
  ready m b -> below b (item_id item) ->
  handled m (fun b => upsert_item_in_turn_id b id item) b.
Proof.
  intros Hr He. pose proof Hr as (Hg & Hk & Hc & Hn). assert (Hi := good_idle m b Hg).
  destruct (is_current b id) eqn:Hopen.
  - apply is_current_spec in Hopen as (t & Ht & E).
    destruct (store_current m b t item (upsert_turn_item (pending_items t) item) Hg Ht) as (Hg2 & Hk2 & Hv2 & Hin2);
      [apply upsert_turn_item_eq|exact He|].
    eapply (handled_delta m _ b _ (item_delta (pending_id t) item)); [done| | |exact Hg2|exact Hk2|done|done| |].
    + unfold upsert_item_in_turn_id. rewrite Ht. unfold str_eqb. rewrite bool_decide_eq_true_2 by done.
      by rewrite record_item_idle.
    + intros c. unfold upsert_item_in_turn_id. cbn [track set_active_change_set current_turn]. rewrite Ht.
      unfold str_eqb. rewrite bool_decide_eq_true_2 by done.
      exact (record_item_track (set_current_turn b _) c _ _).
    + by rewrite apply_item_delta.
    + by apply item_delta_covered.
  - assert (Hno : ~ open_id b id) by (intros ?%is_current_spec; congruence).
    assert (Hup := fun c => upsert_not_open (track b c) id item Hno).
    destruct (find_turn id (turns b)) as [ft|] eqn:Hf.
    + destruct (alter_finished m b id ft (fun t => set_turn_items t (upsert_turn_item (turn_items t) item))
        (set_view_item item) Hg Hf) as (Hg2 & Hk2 & Hv2 & _ & Hin2).
      { unfold view_of_turn, set_view_item. cbn. by rewrite upsert_turn_item_eq. }
      { done. }
      { cbn. rewrite upsert_turn_item_eq. by apply NoDup_keys_upsert. }
      destruct (find_turn_Some _ _ _ Hf) as [Eft _].
      eapply (handled_delta m _ b _ (item_delta id item)); [done| | |exact Hg2|by apply Hk2|done|done| |].
      * rewrite upsert_not_open, Hf by done. by rewrite record_item_idle.
      * intros c. rewrite Hup. change (turns (track b c)) with (turns b). rewrite Hf, Eft.
        exact (record_item_track (set_turns b _) c _ _).
      * by rewrite apply_item_delta.
      * by apply item_delta_covered.
    + apply handled_nothing; [done| |intros c].
      * by rewrite upsert_not_open, Hf by done.
      * rewrite Hup. change (turns (track b c)) with (turns b). by rewrite Hf.
Qed.

Lemma upsert_turn_or_current_ok m b id item :
  ready m b -> below b (item_id item) ->
  handled m (fun b => upsert_item_in_turn_or_current new_uuid b id item) b.
Proof.
  intros Hr He. unfold upsert_item_in_turn_or_current.
  destruct (is_empty id); [by apply upsert_current_ok|by apply upsert_in_turn_ok].
Qed.

(** ** Outcomes of turns *)

Lemma alter_is_turn_change (v : list TurnView) m :
  changed_turn_id m ∈ view_ids v -> alter_view (changed_turn_id m) (set_view_turn m) v = apply_turn_change v m.
Proof.
  unfold apply_turn_change, view_ids. induction v as [|x v IH]; [by intros ?%elem_of_nil|].
  rewrite fmap_cons, elem_of_cons. intros Hin. cbn [alter_view upsert].
  change (view_id (mkView m [])) with (changed_turn_id m). destruct (decide _) as [E|E]; [done|].
  rewrite IH; [done|]. destruct Hin; [congruence|done].
Qed.

Lemma turn_delta_covered (v : list TurnView) m : covered (turns_applied v (turn_delta m)) (changed_items (turn_delta m)).
Proof. apply Forall_nil_2. Qed.

(** The open turn with another outcome: the same id, items and flags. *)
Definition same_turn (t t' : PendingTurn) : Prop :=
  pending_id t' = pending_id t /\ pending_items t' = pending_items t
  /\ opened_explicitly t' = opened_explicitly t /\ saw_compaction t' = saw_compaction t.

Lemma outcome_current m b t t' :
  good m b -> kept_open b -> current_turn b = Some t -> same_turn t t' ->
  let b' := set_current_turn b (Some t') in
  good m b' /\ kept_open b' /\ view b' = apply_changes (view b) (turn_delta (from_pending_turn t')).
Proof.
  intros Hg Hk Ht (Hid & Hit & Hex & Hco) b'. assert (Hnew := open_turn_new m b t Hg Ht).
  assert (Hv : view b' = alter_view (pending_id t') (set_view_turn (from_pending_turn t')) (view b)).
  { rewrite (view_open b t Ht), (view_open b' t' eq_refl), alter_view_app_r by by rewrite Hid.
    cbn [alter_view]. rewrite decide_True by done. unfold view_of_turn, set_view_turn. cbn. by rewrite Hit. }
  assert (Hids : view_ids (view b') = view_ids (view b)).
  { rewrite (view_open b t Ht), (view_open b' t' eq_refl). unfold view_ids. rewrite !fmap_app. f_equal. cbn.
    unfold view_id. cbn. by rewrite Hid. }
  split_and!.
  - destruct Hg as [H1 H2 H3 H4 H5 H6]. split; rewrite ?Hids; try done.
    + rewrite (view_open b t Ht), Forall_app, Forall_singleton in H3.
      rewrite (view_open b' t' eq_refl), Forall_app, Forall_singleton. cbn. by rewrite Hit.
    + intros t0 n [= <-]. rewrite Hit. by apply H4.
  - intros t0 [= <-]. unfold droppable. rewrite Hit, Hex, Hco. by apply Hk.
  - rewrite Hv, apply_turn_delta. apply (alter_is_turn_change (view b) (from_pending_turn t')). cbn.
    rewrite Hid, (view_open b t Ht). unfold view_ids. rewrite fmap_app, elem_of_app. right. by apply list_elem_of_singleton.
Qed.

Lemma outcome_current_ok m b (h : Builder -> Builder) t t' :
  ready m b -> current_turn b = Some t -> same_turn t t' ->
  (forall b', current_turn b' = current_turn b -> turns b' = turns b ->
     h b' = record_changed_turn (set_current_turn b' (Some t')) (from_pending_turn t')) ->
  handled m h b.
Proof.
  intros Hr Ht Hs Hh. pose proof Hr as (Hg & Hk & Hc & Hn).
  destruct (outcome_current m b t t' Hg Hk Ht Hs) as (Hg' & Hk' & Hv').
  eapply handled_delta; [done| | |exact Hg'|done|done|done|exact Hv'|apply turn_delta_covered].
  - rewrite (Hh b eq_refl eq_refl). apply record_turn_idle, (good_idle m b Hg).
  - intros c. rewrite (Hh (track b c) eq_refl eq_refl). exact (record_turn_track (set_current_turn b (Some t')) c _).
Qed.

Lemma outcome_finished_ok m b (h : Builder -> Builder) id t f :
  ready m b -> find_turn id (turns b) = Some t ->
  (forall t, turn_id (f t) = turn_id t /\ turn_items (f t) = turn_items t) ->
  (forall b', current_turn b' = current_turn b -> turns b' = turns b ->
     h b' = record_changed_turn (set_turns b' (alter_turn id f (turns b'))) (change_from_turn (f t))) ->
  handled m h b.
Proof.
  intros Hr Hf Hkeep Hh. pose proof Hr as (Hg & Hk & Hc & Hn). destruct (find_turn_Some _ _ _ Hf) as [Et _].
  set (mc := change_from_turn (f t)). assert (Emc : changed_turn_id mc = id) by (cbn; by rewrite (proj1 (Hkeep t))).
  destruct (alter_finished m b id t f (set_view_turn mc) Hg Hf) as (Hg2 & Hk2 & Hv2 & Hids & Hin).
  { unfold view_of_turn, set_view_turn. cbn. by rewrite (proj2 (Hkeep t)). }
  { by intros v _. }
  { by rewrite (proj2 (Hkeep t)). }
  eapply handled_delta; [done| | |exact Hg2|by apply Hk2|done|done| |apply turn_delta_covered].
  - rewrite (Hh b eq_refl eq_refl). apply record_turn_idle, (good_idle m b Hg).
  - intros c. rewrite (Hh (track b c) eq_refl eq_refl).
    exact (record_turn_track (set_turns b (alter_turn id f (turns b))) c mc).
  - rewrite Hv2, apply_turn_delta, <- Emc. apply alter_is_turn_change. by rewrite Emc.
Qed.

Lemma error_ok m b p : ready m b -> handled m (fun b => handle_error b p) b.
Proof.
  intros Hr. unfold handle_error. destruct (negb (affects_turn_status p)); [by apply handled_nothing|].
  destruct (current_turn b) as [t|] eqn:Ht.
  - eapply (outcome_current_ok m b _ t); [done|done| |]; [|intros b' Hb' _; rewrite Hb', Ht; reflexivity]. done.
  - apply handled_nothing; [done| |intros c; cbn]; by rewrite Ht.
Qed.

Lemma aborted_ok m b id completed duration :
  ready m b -> handled m (fun b => handle_turn_aborted b id completed duration) b.
Proof.
  intros Hr.
  assert (Hcur : forall h : Builder -> Builder,
    (forall b', current_turn b' = current_turn b -> turns b' = turns b ->
       h b' = match current_turn b' with
              | Some t => record_changed_turn (set_current_turn b' (Some (apply_abort t completed duration)))
                            (from_pending_turn (apply_abort t completed duration))
              | None => b'
              end) -> handled m h b).
  { intros h Hh. destruct (current_turn b) as [t|] eqn:Ht.
    - eapply (outcome_current_ok m b h t); [done|done| |]; [|intros b' Hb' Hts; rewrite Ht in Hb'; rewrite Hh, Hb' by done; reflexivity]. done.
    - apply handled_nothing; [done| |intros c]; rewrite Hh by done; [by rewrite Ht|cbn; by rewrite Ht]. }
  unfold handle_turn_aborted. destruct id as [id|]; [|by apply Hcur].
  destruct (is_current b id) eqn:Hopen.
  - apply Hcur. intros b' Hb' Hts. unfold is_current in *. rewrite Hb'. by destruct (current_turn b) as [t|]; [rewrite Hopen|].
  - destruct (find_turn id (turns b)) as [ft|] eqn:Hf.
    + apply (outcome_finished_ok m b _ id ft
               (fun t => set_turn_outcome t TurnInterrupted (turn_error t) completed duration)); [done..|].
      intros b' Hb' Hts. unfold is_current in *. rewrite Hb'.
      destruct (current_turn b) as [t|]; [rewrite Hopen|]; by rewrite Hts, Hf.
    + apply Hcur. intros b' Hb' Hts. unfold is_current in *. rewrite Hb'.
      destruct (current_turn b) as [t|]; [rewrite Hopen|]; by rewrite Hts, Hf.
Qed.

Lemma completed_ok m b id error completed duration :
  ready m b -> handled m (fun b => handle_turn_complete b id error completed duration) b.
Proof.
  intros Hr. set (term := turn_error_from <$> error).
  assert (Hcur : forall h : Builder -> Builder,
    (forall b', current_turn b' = current_turn b -> turns b' = turns b ->
       h b' = match current_turn b' with
              | Some t => finish_current_turn
                  (record_changed_turn (set_current_turn b' (Some (apply_completion t term completed duration)))
                            (from_pending_turn (apply_completion t term completed duration)))
              | None => b'
              end) -> handled m h b).
  { intros h Hh. pose proof Hr as (Hg & Hk & Hc & Hn). destruct (current_turn b) as [t|] eqn:Ht.
    - set (t' := apply_completion t term completed duration).
      assert (Hs : same_turn t t') by (unfold t', apply_completion; by destruct (completion_outcome _ _ _)).
      destruct (outcome_current m b t t' Hg Hk Ht Hs) as (Hg' & Hk' & Hv').
      destruct (finish_ok m _ Hg' Hk') as (Hg2 & Hv2 & Hcur2 & Htr & Hi2 & Hc2 & Hn2).
      eapply handled_delta; [done| | |exact Hg2| |by rewrite Hc2|by rewrite Hn2| |apply turn_delta_covered].
      + rewrite Hh, Ht by done. f_equal. apply record_turn_idle, (good_idle m b Hg).
      + intros c. rewrite Hh by done. change (current_turn (track b c)) with (current_turn b). rewrite Ht.
        rewrite <- Htr. f_equal. exact (record_turn_track (set_current_turn b (Some t')) c _).
      + intros t0. congruence.
      + by rewrite Hv2.
    - apply handled_nothing; [done| |intros c]; rewrite Hh by done; [by rewrite Ht|cbn; by rewrite Ht]. }
  unfold handle_turn_complete. fold term. destruct (is_current b id) eqn:Hopen.
  - apply Hcur. intros b' Hb' Hts. unfold is_current in *. rewrite Hb'. by destruct (current_turn b) as [t|]; [rewrite Hopen|].
  - destruct (find_turn id (turns b)) as [ft|] eqn:Hf.
    + apply (outcome_finished_ok m b _ id ft (fun t => apply_turn_completion t term completed duration)); [done..| |].
      * intros t. unfold apply_turn_completion. by destruct (completion_outcome _ _ _).
      * intros b' Hb' Hts. unfold is_current in *. rewrite Hb'.
        destruct (current_turn b) as [t|]; [rewrite Hopen|]; by rewrite Hts, Hf.
    + apply Hcur. intros b' Hb' Hts. unfold is_current in *. rewrite Hb'.
      destruct (current_turn b) as [t|]; [rewrite Hopen|]; by rewrite Hts, Hf.
Qed.

(** ** The other handlers *)

Lemma started_ok m b id started_at :
  ready m b -> id ∉ view_ids (view b) -> external_turn id = true ->
  handled m (fun b => handle_turn_started new_uuid b id started_at) b.
Proof.
  intros Hr Hnew Hext. pose proof Hr as (Hg & Hk & Hc & Hn).
  destruct (finish_ok m b Hg Hk) as (Hg1 & Hv1 & Hcur1 & Htr1 & Hi1 & Hc1 & Hn1).
  apply (handled_after m finish_current_turn (fun b =>
    let t := mkPending id [] None TurnInProgress started_at None None true false (current_rollout_index b) in
    set_current_turn (record_changed_pending_turn b t) (Some t))); [done|done|].
  set (b1 := finish_current_turn b) in *. set (t := mkPending id [] None TurnInProgress started_at None None true false m : PendingTurn).
  assert (Hc' : current_rollout_index b1 = m) by congruence.
  destruct (open_new m m b1 t Hg1) as [Hg2 Hv2]; [lia|done|done|by rewrite Hv1|by intros k E; apply (external_turn_not _ k) in Hext|].
  eapply handled_delta; [by apply ready_finish| | |exact Hg2| |done| |exact Hv2|apply turn_delta_covered].
  - cbn zeta. rewrite Hc', record_pending_eq, record_turn_idle; [done|]. apply (good_idle m b1 Hg1).
  - intros c. cbn zeta. change (current_rollout_index (track b1 c)) with (current_rollout_index b1).
    rewrite Hc', record_pending_eq, record_turn_track. done.
  - by intros t0 [= <-].
  - cbn. congruence.
Qed.

Lemma review_ok m b id item :
  ready m b -> below b (item_id item) ->
  (forall i, id = Some i -> i ∉ view_ids (view b) -> external_turn i = true) ->
  handled m (fun b => upsert_review_mode_item new_uuid b id item) b.
Proof.
  intros Hr He Hext. unfold upsert_review_mode_item. destruct id as [i|]; [|by apply upsert_current_ok].
  pose proof Hr as (Hg & Hk & Hc & Hn). specialize (Hext i eq_refl).
  destruct (negb (is_current b i) && negb (is_some (find_turn i (turns b)))) eqn:Hunknown.
  - apply andb_true_iff in Hunknown as [Hnc Hnf].
    assert (Hnew : i ∉ view_ids (view b)).
    { unfold view, all_turns, view_ids. rewrite !fmap_app, elem_of_app. intros [Hin|Hin].
      - destruct (find_turn i (turns b)) eqn:Hf; [done|]. by apply find_turn_None in Hf.
      - unfold is_current in Hnc. destruct (current_turn b) as [t|]; [|by apply elem_of_nil in Hin].
        rewrite !fmap_cons, !fmap_nil in Hin. apply list_elem_of_singleton in Hin. cbn in Hin. subst i.
        unfold str_eqb in Hnc. by rewrite bool_decide_eq_true_2 in Hnc. }
    destruct (finish_ok m b Hg Hk) as (Hg1 & Hv1 & Hcur1 & Htr1 & Hi1 & Hc1 & Hn1).
    set (b1 := finish_current_turn b) in *. set (t := mkPending i [] None TurnCompleted None None None false false m : PendingTurn).
    assert (Hc' : current_rollout_index b1 = m) by congruence.
    destruct (open_new m m b1 t Hg1) as [Hg2 Hv2]; [lia|done|done|by rewrite Hv1|by intros k E; apply (external_turn_not _ k) in Hext|].
    set (b2 := set_current_turn b1 (Some t)) in *.
    destruct (store_current m b2 t item (upsert_turn_item (pending_items t) item) Hg2 eq_refl) as (Hg3 & Hk3 & Hv3 & Hin3);
      [apply upsert_turn_item_eq|by intros k; cbn; rewrite Hi1; apply He|].
    eapply (handled_delta m _ b _ (joined (turn_delta (from_pending_turn t)) (item_delta i item)));
      [done| | |exact Hg3|exact Hk3|done|cbn; congruence| |].
    + rewrite Hnc, Hnf. cbn [andb new_turn]. fold b1. rewrite Hc'. fold t.
      rewrite record_pending_eq, record_turn_idle by apply (good_idle m b1 Hg1). fold b2.
      unfold upsert_item_in_turn_id. cbn [b2 set_current_turn current_turn pending_id t]. unfold str_eqb.
      rewrite bool_decide_eq_true_2 by done. rewrite record_item_idle; [done|]. apply (good_idle m b1 Hg1).
    + intros c. change (is_current (track b c) i) with (is_current b i). change (turns (track b c)) with (turns b).
      rewrite Hnc, Hnf. cbn [andb new_turn]. rewrite Htr1. fold b1.
      change (current_rollout_index (track b1 c)) with (current_rollout_index b1). rewrite Hc'. fold t.
      rewrite record_pending_eq, record_turn_track. rewrite <- joined_assoc.
      change (set_current_turn (track b1 (joined c (turn_delta (from_pending_turn t)))) (Some t))
        with (track b2 (joined c (turn_delta (from_pending_turn t)))).
      unfold upsert_item_in_turn_id. cbn [track set_active_change_set b2 set_current_turn current_turn pending_id t].
      unfold str_eqb. rewrite bool_decide_eq_true_2 by done.
      exact (record_item_track
        (set_current_turn b2 (Some (set_pending_items t (upsert_turn_item (pending_items t) item))))
        (joined c (turn_delta (from_pending_turn t))) i item).
    + by rewrite apply_joined_item, <- Hv1, <- Hv2.
    + apply Forall_singleton. cbn [change_turn_id]. unfold turns_applied. cbn. rewrite <- Hv1.
      rewrite Hv2, apply_turn_delta in Hin3. apply turn_change_ids in Hin3. apply turn_change_ids.
      right. done.
  - assert (H := upsert_in_turn_ok m b i item Hr He).
    assert (Heq : forall b', is_current b' i = is_current b i -> turns b' = turns b ->
      upsert_item_in_turn_id (if negb (is_current b' i) && negb (is_some (find_turn i (turns b')))
        then let '(t, b) := new_turn new_uuid (finish_current_turn b') (Some i) in
             set_current_turn (record_changed_pending_turn b t) (Some t) else b') i item
      = upsert_item_in_turn_id b' i item) by (intros b' -> ->; by rewrite Hunknown).
    destruct H as (H1 & H2 & (d & [He1 He2] & Hd & Hcov) & H4 & H5). unfold handled, projects, emits.
    rewrite (Heq b eq_refl eq_refl). split_and!; [done|done| |done|done]. exists d. split_and!; [done| |done|done].
    intros c. rewrite (Heq (track b c) eq_refl eq_refl). apply He2.
Qed.

Lemma push_generated_ensured b (item : rstr -> ThreadItem) :
  push_generated new_uuid (ensure b) item = push_generated new_uuid b item.
Proof.
  unfold ensure, ensure_turn. destruct (current_turn b) as [t|] eqn:Ht; [done|].
  destruct b as [ts cur n ci ni act u]. cbn in Ht. subst cur. unfold new_turn, draw_uuid. cbn [next_rollout_index].
  by destruct act as [c|]; destruct ni.
Qed.

Lemma replace_last_eq (l : list ThreadItem) old item :
  NoDup (item_id <$> l) -> last l = Some old -> item_id old = item_id item ->
  replace_last l item = upsert item_id (fun _ => item) item l.
Proof.
  intros Hn (l' & ->)%last_Some E. unfold replace_last. rewrite (List.removelast_last l' old).
  rewrite fmap_app in Hn. apply NoDup_app in Hn as (_ & Hd & _). rewrite upsert_app, decide_False.
  - cbn [upsert]. by rewrite decide_True by done.
  - rewrite <- E. intros Hin. apply (Hd _ Hin). by apply list_elem_of_singleton.
Qed.

(** Both kinds of reasoning: extend the last item, or push a new one. *)
Lemma reasoning_ok m b (h : Builder -> Builder) (extend : ThreadItem -> option ThreadItem)
    (fresh : rstr -> ThreadItem) :
  ready m b -> (forall id, item_id (fresh id) = id) ->
  (forall old item, extend old = Some item -> item_id item = item_id old) ->
  (forall b', h b' =
     let '(t, b') := ensure_turn new_uuid b' in
     match last (pending_items t) ≫= extend with
     | Some item =>
         record_changed_item (set_current_turn b' (Some (set_pending_items t (replace_last (pending_items t) item))))
           (pending_id t) item
     | None => push_generated new_uuid b' fresh
     end) ->
  handled m h b.
Proof.
  intros Hr Hid Hext Hh. pose proof Hr as (Hg & Hk & Hc & Hn). assert (Hi := good_idle m b Hg).
  destruct (last (pending_items (ensured b)) ≫= extend) as [item|] eqn:Hlast.
  - destruct (current_turn b) as [t|] eqn:Ht; cycle 1.
    { destruct (ensure_good m b Hr) as (_ & _ & _ & _ & _ & Hnil). by rewrite Hnil in Hlast. }
    assert (Ens : forall b', current_turn b' = Some t -> ensure_turn new_uuid b' = (t, b')).
    { intros b' Hb'. unfold ensure_turn. by rewrite Hb'. }
    assert (Et : ensured b = t) by (unfold ensured; by rewrite Ens). rewrite Et in Hlast.
    destruct (last (pending_items t)) as [old|] eqn:Hl; [|done]. cbn in Hlast.
    assert (Hold : old ∈ pending_items t) by by apply last_Some_elem_of.
    pose proof (good_items m b Hg) as Hit. rewrite (view_open b t Ht), Forall_app, Forall_singleton in Hit.
    destruct (store_current m b t item (replace_last (pending_items t) item) Hg Ht) as (Hg2 & Hk2 & Hv2 & Hin2).
    { apply (replace_last_eq _ old); [apply Hit|done|by symmetry; apply Hext]. }
    { intros n H0 E. apply (good_generated m b Hg t n Ht H0). rewrite <- E, (Hext old item Hlast).
      by apply list_elem_of_fmap_2. }
    eapply (handled_delta m _ b _ (item_delta (pending_id t) item)); [done| | |exact Hg2|exact Hk2|done|done| |].
    + rewrite Hh, Ens, Hl by done. cbn. rewrite Hlast. by rewrite record_item_idle.
    + intros c. rewrite Hh, (Ens (track b c)), Hl by done. cbn [mbind option_bind]. rewrite Hlast.
      exact (record_item_track (set_current_turn b _) c _ _).
    + by rewrite apply_item_delta.
    + by apply item_delta_covered.
  - assert (Hpush : forall b', ensured b' = ensured b -> h b' = push_generated new_uuid b' fresh).
    { intros b' Hb'. rewrite Hh, ensure_eq, Hb', Hlast. apply push_generated_ensured. }
    destruct (push_generated_ok m b fresh Hr Hid) as (H1 & H2 & (d & [He1 He2] & Hd & Hcov) & H4 & H5).
    unfold handled, projects, emits. rewrite (Hpush b eq_refl). split_and!; [done|done| |done|done].
    exists d. split_and!; [done| |done|done]. intros c. rewrite Hpush; [apply He2|].
    destruct (ensure_track b c Hi) as (E & _). unfold ensured at 1. by rewrite E.
Qed.

Lemma agent_reasoning_ok m b text : ready m b -> handled m (fun b => handle_agent_reasoning new_uuid b text) b.
Proof.
  intros Hr. unfold handle_agent_reasoning. destruct (is_empty text); [by apply handled_nothing|].
  apply (reasoning_ok m b _ (fun i => match i with Reasoning id s c => Some (Reasoning id (s ++ [text]) c) | _ => None end)
    (fun id => Reasoning id [text] [])); [done|done| |].
  - intros old new E. destruct old; by simplify_eq/=.
  - intros b'. destruct (ensure_turn new_uuid b') as [t b1]. by destruct (last (pending_items t)) as [[]|].
Qed.

Lemma raw_reasoning_ok m b text :
  ready m b -> handled m (fun b => handle_agent_reasoning_raw_content new_uuid b text) b.
Proof.
  intros Hr. unfold handle_agent_reasoning_raw_content. destruct (is_empty text); [by apply handled_nothing|].
  apply (reasoning_ok m b _ (fun i => match i with Reasoning id s c => Some (Reasoning id s (c ++ [text])) | _ => None end)
    (fun id => Reasoning id [] [text])); [done|done| |].
  - intros old new E. destruct old; by simplify_eq/=.
  - intros b'. destruct (ensure_turn new_uuid b') as [t b1]. by destruct (last (pending_items t)) as [[]|].
Qed.

Lemma compacted_ok m b : ready m b -> handled m (fun b => handle_compacted new_uuid b) b.
Proof.
  intros Hr. assert (Hi := good_idle m b (proj1 Hr)).
  destruct (ensure_good m b Hr) as (Hg1 & Hv1 & Hn1 & Hc1 & Hx1 & _).
  destruct (ensure_track b default_change_set Hi) as (_ & Ha1 & Ht1).
  set (mark := fun t : PendingTurn => mkPending (pending_id t) (pending_items t) (pending_error t) (pending_status t)
    (pending_started_at t) (pending_completed_at t) (pending_duration_ms t) (opened_explicitly t) true
    (rollout_start_index t)).
  set (b2 := set_current_turn (ensure b) (Some (mark (ensured b)))).
  assert (Hv2 : view b2 = view (ensure b)) by by rewrite (view_open b2 _ eq_refl), (view_open _ _ Ht1).
  assert (Heq : handle_compacted new_uuid b = b2) by (unfold handle_compacted; by rewrite ensure_eq).
  unfold handled, projects, emits. rewrite Heq. split_and!; [| | |done|done].
  - destruct Hg1 as [H1 H2 H3 H4 H5 H6]. split; try rewrite Hv2; try done. intros t n [= <-]. exact (H4 (ensured b) n Ht1).
  - intros t [= <-]. unfold droppable. cbn. apply andb_false_r.
  - exists (ensure_delta b). split_and!; [done| |by rewrite Hv2|].
    + intros c. unfold handle_compacted. by destruct (ensure_track b c Hi) as (-> & _ & _).
    + unfold ensure_delta. destruct (current_turn b); apply Forall_nil_2.
Qed.

Lemma kept_views_suffix (v w : list TurnView) : NoDup (view_ids (v ++ w)) -> kept_views (view_ids w) (v ++ w) = v.
Proof.
  unfold view_ids. rewrite fmap_app. intros (_ & Hd & _)%NoDup_app. unfold kept_views. rewrite List.filter_app.
  assert (Hw : List.filter (fun t => negb (bool_decide (view_id t ∈ view_id <$> w))) w = []).
  { assert (Hall : forall x, x ∈ w -> view_id x ∈ view_id <$> w) by (intros x; apply list_elem_of_fmap_2).
    revert Hall. generalize (view_id <$> w). intros ids. induction w as [|x w IH]; [done|]. intros Hall. cbn [List.filter].
    rewrite bool_decide_eq_true_2 by (apply Hall; left). apply IH; [|intros y Hy; apply Hall; by right].
    intros y Hy Hin. apply (Hd y Hy). by right. }
  rewrite Hw, app_nil_r. clear Hw. induction v as [|x v IH]; [done|]. cbn [List.filter].
  rewrite bool_decide_eq_false_2 by (apply Hd; left). cbn [negb]. rewrite IH; [done|]. intros y Hy. apply Hd. by right.
Qed.

Definition rolled_back (n : nat) (b : Builder) : Builder :=
  let ts := take (length (turns b) - n) (turns b) in
  set_next_item_index (set_turns (record_removed_turn_ids b (turn_id <$> drop (length (turns b) - n) (turns b))) ts)
    (Z.min (Z.of_nat (item_count ts) + 1) i64_max).

Lemma rollback_eq b n : handle_thread_rollback b n = rolled_back (N.to_nat n) (finish_current_turn b).
Proof.
  unfold handle_thread_rollback, rolled_back. set (b1 := finish_current_turn b). set (k := N.to_nat n).
  assert (E1 : (if length (turns b1) <=? k then turn_id <$> turns b1
    else if k =? 0 then [] else turn_id <$> drop (length (turns b1) - k) (turns b1))
    = turn_id <$> drop (length (turns b1) - k) (turns b1)).
  { destruct (Nat.leb_spec (length (turns b1)) k).
    - by replace (length (turns b1) - k) with 0 by lia.
    - destruct (Nat.eqb_spec k 0) as [->|]; [|done]. by rewrite Nat.sub_0_r, drop_all. }
  assert (E2 : forall ts : list Turn, (if length ts <=? k then [] else take (length ts - k) ts) = take (length ts - k) ts).
  { intros ts. destruct (Nat.leb_spec (length ts) k); [|done]. by replace (length ts - k) with 0 by lia. }
  rewrite E1. destruct (active_change_set b1) as [c|] eqn:Ha; unfold record_removed_turn_ids; rewrite Ha; cbn; by rewrite E2.
Qed.

Lemma finish_closed (b : Builder) : current_turn (finish_current_turn b) = None.
Proof. unfold finish_current_turn. destruct (current_turn b) eqn:Ht; [|done]. by destruct (_ && _ && _). Qed.

Lemma rolled_back_finish (b : Builder) k :
  current_turn b = None -> turns (finish_current_turn (rolled_back k b)) = take (length (turns b) - k) (turns b).
Proof.
  intros Ht. unfold finish_current_turn, rolled_back, record_removed_turn_ids.
  destruct (active_change_set b); cbn; by rewrite Ht.
Qed.

Lemma rollback_ok m b n : ready m b -> handled m (fun b => handle_thread_rollback b n) b.
Proof.
  intros Hr. pose proof Hr as (Hg & Hk & Hc & Hn).
  destruct (finish_ok m b Hg Hk) as (Hg1 & Hv1 & Hcur1 & Htr1 & Hi1 & Hc1 & Hn1).
  assert (H : handled m (fun b => rolled_back (N.to_nat n) (finish_current_turn b)) b).
  { apply handled_after; [done|done|]. set (b1 := finish_current_turn b) in *. set (k := length (turns b1) - N.to_nat n).
    pose (b2 := set_next_item_index (set_turns b1 (take k (turns b1)))
      (Z.min (Z.of_nat (item_count (take k (turns b1))) + 1) i64_max)).
    assert (Hsplit : view b1 = (view_of_turn <$> take k (turns b1)) ++ (view_of_turn <$> drop k (turns b1))).
    { rewrite (view_closed b1 Hcur1), <- fmap_app. by rewrite take_drop. }
    assert (Hv2 : view b2 = view_of_turn <$> take k (turns b1)) by by rewrite view_closed.
    assert (Hrem : kept_views (turn_id <$> drop k (turns b1)) (view b1) = view b2).
    { rewrite Hv2, <- turns_ids, Hsplit. apply kept_views_suffix. rewrite <- Hsplit. apply (good_turns m b1 Hg1). }
    eapply (handled_delta m _ b1 b2 (mkChangeSet [] [] (turn_id <$> drop k (turns b1))));
      [by apply ready_finish| | | | |cbn; congruence|cbn; congruence|by symmetry|apply Forall_nil_2].
    - unfold rolled_back, record_removed_turn_ids. fold k. by rewrite (good_idle m b1 Hg1).
    - intros c. unfold rolled_back, joined. cbn. by rewrite !app_nil_r.
    - destruct Hg1 as [H1 H2 H3 H4 H5 H6].
      assert (Hsub : forall x, x ∈ view b2 -> x ∈ view b1) by (intros x Hx; rewrite Hsplit, elem_of_app; left; by rewrite <- Hv2).
      split; try done.
      + rewrite <- Hrem. by apply kept_views_nodup.
      + rewrite Forall_forall in H3 |- *. intros x Hx. by apply H3, Hsub.
      + intros t x Ht. cbn in Ht. congruence.
      + cbn. unfold i64_max. lia.
      + intros x Hx. apply H6. unfold view_ids in *. apply list_elem_of_fmap in Hx as (y & -> & Hy).
        by apply list_elem_of_fmap_2, Hsub.
    - intros t Ht. cbn in Ht. congruence. }
  destruct H as (H1 & H2 & (d & [He1 He2] & Hd & Hcov) & H4 & H5). unfold handled, projects, emits.
  rewrite rollback_eq. split_and!; [done|done| |done|done]. exists d. split_and!; [done| |done|done].
  intros c. rewrite !rollback_eq. apply He2.
Qed.

Lemma user_message_ok m b p : ready m b -> handled m (fun b => handle_user_message new_uuid b p) b.
Proof.
  intros Hr. pose proof Hr as (Hg & Hk & Hc & Hn).
  destruct (finish_ok m b Hg Hk) as (Hg1 & Hv1 & Hcur1 & Htr1 & Hi1 & Hc1 & Hn1).
  unfold handle_user_message.
  apply (handled_after m (fun b => match current_turn b with
      | Some t => if negb (opened_explicitly t) && negb (saw_compaction t && is_empty (pending_items t))
                  then finish_current_turn b else b
      | None => b end)
    (fun b => push_generated new_uuid b (fun id => UserMessage id (um_client_id p) (build_user_inputs p)))).
  - intros c. change (current_turn (track b c)) with (current_turn b). destruct (current_turn b) as [t|]; [|done].
    by destruct (_ && _).
  - destruct (current_turn b) as [t|]; [|done]. by destruct (_ && _).
  - apply push_generated_ok; [|done]. destruct (current_turn b) as [t|]; [|done].
    destruct (_ && _); [by apply ready_finish|done].
Qed.

(** ** Inputs *)

Definition current_item_ids (b : Builder) : list rstr :=
  match current_turn b with Some t => item_id <$> pending_items t | None => [] end.

Definition fresh_item (b : Builder) (id : rstr) : bool :=
  external_item id && negb (bool_decide (id ∈ current_item_ids b)).

Definition fresh_turn (b : Builder) (id : rstr) : bool :=
  external_turn id && negb (bool_decide (id ∈ view_ids (view b))).

Definition known_or_external_turn (b : Builder) (id : rstr) : bool :=
  external_turn id || bool_decide (id ∈ view_ids (view b)).

Definition none_or (p : rstr -> bool) (id : option rstr) : bool :=
  match id with Some id => p id | None => true end.

Definition event_ok (b : Builder) (e : EventMsg) : bool :=
  match e with
  | EvWebSearchBegin id | EvWebSearchEnd id _ _ _ | EvViewImageToolCall id _ | EvImageGenerationBegin id
  | EvCollabAgentSpawnBegin id _ _ _ _ | EvCollabAgentSpawnEnd id _ _ _ _ _ _
  | EvCollabAgentInteractionBegin id _ _ _ | EvCollabAgentInteractionEnd id _ _ _ _
  | EvSubAgentActivity id _ _ _ | EvCollabWaitingBegin id _ _ | EvCollabWaitingEnd id _ _
  | EvCollabCloseBegin id _ _ | EvCollabCloseEnd id _ _ _ | EvCollabResumeBegin id _ _
  | EvCollabResumeEnd id _ _ _ => external_item id
  | EvExecCommandBegin p => external_item (eb_call_id p)
  | EvExecCommandEnd p => external_item (ee_call_id p)
  | EvGuardianAssessment p => none_or external_item (ga_target_item_id p)
  | EvApplyPatchApprovalRequest p | EvPatchApplyBegin p => external_item (pb_call_id p)
  | EvPatchApplyEnd p => external_item (pe_call_id p)
  | EvDynamicToolCallRequest p => external_item (dr_call_id p)
  | EvDynamicToolCallResponse p => external_item (dr_call_id (ds_request p))
  | EvMcpToolCallBegin p => external_item (mb_call_id p)
  | EvMcpToolCallEnd p => external_item (mb_call_id (me_begin p))
  | EvImageGenerationEnd p => external_item (image_id p)
  | EvEnteredReviewMode _ turn item | EvExitedReviewMode turn item _ =>
      none_or external_item item && none_or (known_or_external_turn b) turn
  | EvItemStarted turn item | EvItemCompleted turn item =>
      external_item (item_id (thread_item_from item))
      && (negb (is_review_mode_item item) || known_or_external_turn b turn)
  | EvTurnStarted id _ => fresh_turn b id
  | EvUserMessage _ | EvAgentMessage _ | EvAgentReasoning _ | EvAgentReasoningRawContent _
  | EvContextCompacted | EvError _ | EvThreadRolledBack _ | EvTurnAborted _ _ _ | EvTurnComplete _ _ _ _
  | EvOther => true
  end.

Definition input_ok (b : Builder) (i : RolloutItem) : bool :=
  match i with
  | RolloutEvent e => event_ok b e
  | RolloutResponse (Message id role content _ _) =>
      negb ((role == lit "user") && is_some (parse_hook_prompt_message from_xml content))
      || fresh_item b (default (new_uuid (uuids_drawn b)) id)
  | RolloutResponse _ | RolloutCompacted | RolloutOther => true
  end.

Fixpoint run_ok (b : Builder) (items : list RolloutItem) : bool :=
  match items with
  | [] => true
  | i :: items' => input_ok b i && run_ok (handle_rollout_item json_null new_uuid from_xml b i) items'
  end.

Lemma known_or_external b i :
  known_or_external_turn b i = true -> i ∉ view_ids (view b) -> external_turn i = true.
Proof. unfold known_or_external_turn. intros [?|?%bool_decide_eq_true]%orb_true_iff ?; done. Qed.

Lemma generated_review m b turn (item : rstr -> ThreadItem) :
  ready m b -> (forall id, item_id (item id) = id) -> none_or (known_or_external_turn b) turn = true ->
  handled m (fun b => let '(id, b) := next_item_id b in upsert_review_mode_item new_uuid b turn (item id)) b.
Proof.
  intros Hr Hid Hturn. set (n := next_item_index b). assert (Hn : (1 <= n)%Z) by apply (good_counter m b (proj1 Hr)).
  assert (H : handled m (fun b => upsert_review_mode_item new_uuid (set_next_item_index b (n + 1)) turn
                                   (item (generated_item_id n))) b).
  { apply (handled_after m (fun b => set_next_item_index b (n + 1))
      (fun b => upsert_review_mode_item new_uuid b turn (item (generated_item_id n)))); [done|done|].
    apply review_ok; [apply ready_next; [done|lia]| |].
    - intros k Hk. rewrite Hid. intros E%generated_item_id_inj; [|lia|done]. cbn. lia.
    - intros i -> Hi. cbn in Hturn. by eapply known_or_external. }
  destruct H as (H1 & H2 & (d & [He1 He2] & Hd & Hc) & H4). split_and!; try done; [|apply H4..].
  exists d. by split_and!.
Qed.

Lemma lifecycle_ok m b turn (item : TurnItem Json Failure PathUri ThreadId) :
  ready m b -> external_item (item_id (thread_item_from item)) = true ->
  negb (is_review_mode_item item) || known_or_external_turn b turn = true ->
  handled m (fun b => handle_materialized_item_lifecycle new_uuid b turn item) b.
Proof.
  intros Hr Hitem Hturn. unfold handle_materialized_item_lifecycle.
  destruct (should_upsert item); [|by apply handled_nothing].
  destruct (is_review_mode_item item).
  - apply review_ok; [done|by apply external_below|]. intros i [= <-]. by apply known_or_external.
  - apply upsert_in_turn_ok; [done|by apply external_below].
Qed.

Lemma event_handled m b e :
  ready m b -> event_ok b e = true -> handled m (fun b => handle_event json_null new_uuid b e) b.
Proof.
  intros Hr He. destruct e; cbn [handle_event event_ok] in *;
    try (apply upsert_current_ok; [done|by apply external_below]);
    try (apply upsert_in_turn_ok; [done|by apply external_below]);
    try (apply upsert_turn_or_current_ok; [done|by apply external_below]).
  - by apply user_message_ok.
  - unfold handle_agent_message. destruct (is_empty _); [by apply handled_nothing|by apply push_generated_ok].
  - by apply agent_reasoning_ok.
  - by apply raw_reasoning_ok.
  - unfold handle_guardian_assessment. destruct (guardian_item_status (ga_status p)) as [s|]; [|by apply handled_nothing].
    destruct (build_item_from_guardian_event p s) as [i|] eqn:Hi; [|by apply handled_nothing].
    apply upsert_turn_or_current_ok; [done|]. apply external_below. unfold build_item_from_guardian_event in Hi.
    destruct (ga_action p), (ga_target_item_id p) as [id|]; try done; by injection Hi as <-.
  - unfold handle_mcp_tool_call_end. destruct (me_result p); apply upsert_current_ok; (done || by apply external_below).
  - unfold handle_collab_agent_spawn_end. destruct new_thread_id; apply upsert_current_ok; (done || by apply external_below).
  - by apply push_generated_ok.
  - apply andb_true_iff in He as [Hitem Hturn]. unfold handle_entered_review_mode, item_id_or_next.
    destruct item as [id|].
    + apply review_ok; [done|by apply external_below|]. intros i -> Hi. by eapply known_or_external.
    + by apply generated_review.
  - apply andb_true_iff in He as [Hitem Hturn]. unfold handle_exited_review_mode, item_id_or_next.
    destruct item as [id|].
    + apply review_ok; [done|by apply external_below|]. intros i -> Hi. by eapply known_or_external.
    + by apply generated_review.
  - apply andb_true_iff in He as [H1 H2]. by apply lifecycle_ok.
  - apply andb_true_iff in He as [H1 H2]. by apply lifecycle_ok.
  - by apply error_ok.
  - by apply rollback_ok.
  - by apply aborted_ok.
  - apply andb_true_iff in He as [Hext Hnew]. apply started_ok; [done| |done].
    by destruct (bool_decide_reflect (turn_id ∈ view_ids (view b))).
  - by apply completed_ok.
  - by apply handled_nothing.
Qed.

Lemma hook_prompt_ok m b id fragments :
  ready m b -> fresh_item b id = true -> handled m (fun b => push_item_in_current_turn new_uuid b (HookPrompt id fragments)) b.
Proof.
  intros Hr [Hext Hnew]%andb_true_iff. apply push_current_ok; [done|by apply external_below|].
  intros t Ht. unfold current_item_ids in Hnew. rewrite Ht in Hnew.
  by destruct (bool_decide_reflect (id ∈ item_id <$> pending_items t)).
Qed.

Lemma response_handled m b (i : ResponseItem Extra RJson) :
  ready m b -> input_ok b (RolloutResponse i) = true -> handled m (fun b => handle_response_item new_uuid from_xml b i) b.
Proof.
  intros Hr Hi. destruct i as [| id role content phase meta| | | | | | | | | | | | | | |]; try by apply handled_nothing.
  cbn [handle_response_item input_ok] in *. destruct (role == lit "user"); cbn [negb andb] in *; [|by apply handled_nothing].
  destruct (parse_hook_prompt_message from_xml content) as [fragments|]; cbn [is_some negb orb] in *; [|by apply handled_nothing].
  destruct id as [id|]; [by apply hook_prompt_ok|].
  apply (handled_after m (fun b => (draw_uuid new_uuid b).2)
    (fun b' => push_item_in_current_turn new_uuid b' (HookPrompt (new_uuid (uuids_drawn b)) fragments))); [done|done|].
  apply hook_prompt_ok; [|done]. destruct Hr as ([H1 H2 H3 H4 H5 H6] & Hk & Hc & Hn). by split_and!.
Qed.

(** ** Runs *)

Abbreviation handle := (handle_rollout_item json_null new_uuid from_xml).

Definition settled_builder (b : Builder) : Prop := good (next_rollout_index b) b /\ kept_open b.

Lemma new_builder_settled : settled_builder new_builder.
Proof.
  split; [|done]. split; [done|apply NoDup_nil_2|apply Forall_nil_2|done|cbn; lia|].
  intros k Hk. by apply elem_of_nil in Hk.
Qed.

Lemma rollout_step b i :
  settled_builder b -> input_ok b i = true ->
  settled_builder (handle b i) /\ projects (fun b => handle b i) b.
Proof.
  intros [Hg Hk] Hi. set (m := next_rollout_index b).
  assert (Hr : ready m (advance_rollout b)).
  { split_and!; try done. destruct Hg as [H1 H2 H3 H4 H5 H6]. by split. }
  assert (H : handled m (fun b => handle b i) b).
  { apply (handled_after m advance_rollout (fun b =>
      match i with
      | RolloutEvent event => handle_event json_null new_uuid b event
      | RolloutCompacted => handle_compacted new_uuid b
      | RolloutResponse item => handle_response_item new_uuid from_xml b item
      | RolloutOther => b
      end)); [done|done|].
    destruct i; [by apply event_handled|by apply compacted_ok|by apply response_handled|by apply handled_nothing]. }
  destruct H as (H1 & H2 & H3 & H4 & H5). split; [|done]. split; [by rewrite H5|done].
Qed.

Lemma tracked_step b i :
  settled_builder b -> input_ok b i = true ->
  let '(changes, b') := handle_rollout_item_with_changes json_null new_uuid from_xml b i in
  b' = handle b i /\ view b' = apply_changes (view b) changes
  /\ covered (turns_applied (view b) changes) (changed_items changes).
Proof.
  intros Hs Hi. destruct (rollout_step b i Hs Hi) as [Hs' (d & [He1 He2] & Hd & Hc)].
  assert (E : handle_rollout_item_with_changes json_null new_uuid from_xml b i = (d, handle b i)).
  { unfold handle_rollout_item_with_changes, collect_changes. fold (track b default_change_set). rewrite He2.
    f_equal; [by destruct d|]. destruct (handle b i) as [? ? ? ? ? act ?]. cbn in He1. by subst act. }
  by rewrite E.
Qed.

Lemma run_ok_app b xs ys : run_ok b (xs ++ ys) = run_ok b xs && run_ok (foldl handle b xs) ys.
Proof. revert b. induction xs as [|x xs IH]; intros b; [done|]. cbn [run_ok app foldl]. by rewrite IH, andb_assoc. Qed.

Lemma run_settled b items : settled_builder b -> run_ok b items = true -> settled_builder (foldl handle b items).
Proof.
  revert b. induction items as [|i items IH]; intros b Hs Hok; [done|]. cbn [run_ok foldl] in *.
  apply andb_true_iff in Hok as [Hi Hok]. apply IH; [|done]. by apply rollout_step.
Qed.

Lemma finish_view b : settled_builder b -> view_of_turn <$> finish b = view b.
Proof.
  intros [Hg Hk]. destruct (finish_ok _ b Hg Hk) as (_ & Hv & Hc & _). unfold finish.
  by rewrite <- Hv, (view_closed _ Hc).
Qed.

Lemma batch_applied v b a items :
  settled_builder b -> run_ok b items = true -> NoDup (view_ids v) -> acc_ok a ->
  view b = apply_changes v (accumulator_finish a) ->
  covered (turns_applied v (accumulator_finish a)) (changed_items (accumulator_finish a)) ->
  let '(a', b') := foldl (batch_step json_null new_uuid from_xml) (a, b) items in
  b' = foldl handle b items /\ view b' = apply_changes v (accumulator_finish a').
Proof.
  revert a b. induction items as [|i items IH]; intros a b Hs Hok Hn Ha Hv Hc; [done|]. cbn [run_ok foldl] in *.
  apply andb_true_iff in Hok as [Hi Hok]. pose proof (tracked_step b i Hs Hi) as Ht.
  destruct (rollout_step b i Hs Hi) as [Hs' _].
  unfold batch_step at 2. cbn [fst snd].
  destruct (handle_rollout_item_with_changes json_null new_uuid from_xml b i) as [changes b1].
  destruct Ht as (-> & Hv1 & Hc1). rewrite Hv in Hv1, Hc1.
  destruct (accumulator_push_applied v a changes Hn Ha Hc Hc1) as (Ha' & Hv' & Hc').
  apply IH; try done. by rewrite Hv'.
Qed.
End runs.

(** ** Theorems *)

Section theorems.
Context {Json Failure PathUri ThreadId Extra RJson : Type}.
Context `{!Presentation PathUri} `{!ThreadIds ThreadId}.
Context (json_null : Json) (new_uuid : nat -> rstr) (from_xml : rstr -> option (rstr * rstr)).
Abbreviation RolloutItem := (RolloutItem (Json := Json) (Failure := Failure) (PathUri := PathUri)
  (ThreadId := ThreadId) (Extra := Extra) (RJson := RJson)).
Abbreviation handle := (handle_rollout_item json_null new_uuid from_xml).
Abbreviation build := (build_turns_from_rollout_items json_null new_uuid from_xml).
Abbreviation run_ok := (run_ok json_null new_uuid from_xml).

(** C7: A client that applies the change set of a batch of rollout items to
    the turns it knew knows the turns after the batch, whatever came before
    and however long the batch is; recording the changes does not influence
    the turns.  The ids of turns and items that the rollout brings are fresh where
    they must be ([run_ok]). *)
Theorem batch_changes_project (before batch : list RolloutItem) :
  run_ok new_builder (before ++ batch) = true ->
  let b := foldl handle new_builder before in
  let '(changes, b') := handle_rollout_items_with_changes json_null new_uuid from_xml b batch in
  b' = foldl handle b batch
  /\ view_of_turn <$> build (before ++ batch) = apply_changes (view_of_turn <$> build before) changes.
Proof.
  rewrite run_ok_app. intros [H1 H2]%andb_true_iff b.
  assert (Hs : settled_builder b) by (apply run_settled; [apply new_builder_settled|done]).
  pose proof (batch_applied json_null new_uuid from_xml (view b) b default_accumulator batch Hs H2) as H.
  unfold handle_rollout_items_with_changes.
  destruct (foldl (batch_step _ _ _) _ batch) as [a b'] eqn:Ef. destruct H as [-> Hv].
  - exact (good_turns _ b (proj1 Hs)).
  - apply default_acc_ok.
  - exact (eq_sym (apply_nothing _)).
  - apply Forall_nil_2.
  - split; [done|]. unfold build_turns_from_rollout_items. rewrite foldl_app. fold b.
    rewrite !finish_view; [done|done|]. by apply run_settled.
Qed.

(** The turns of a rollout have distinct ids, and so have the items of
    each turn, whether the ids were generated or given.  The snapshot of the
    active turn is at its reported position in the finished list. *)
Theorem rollout_ids_unique (items : list RolloutItem) :
  run_ok new_builder items = true ->
  NoDup (turn_id <$> build items)
  /\ Forall (fun t => NoDup (item_id <$> turn_items t)) (build items)
  /\ let b := foldl handle new_builder items in
     active_turn_snapshot b = match active_turn_position b with Some n => build items !! n | None => None end.
Proof.
  intros Hok. set (b := foldl handle new_builder items).
  assert (Hs : settled_builder b) by (apply run_settled; [apply new_builder_settled|done]).
  pose proof (finish_view b Hs) as Hv. pose proof Hs as [Hg Hk]. split_and!.
  - rewrite <- turns_ids. unfold build_turns_from_rollout_items. fold b. rewrite Hv. apply (good_turns _ b Hg).
  - pose proof (good_items _ b Hg) as Hi. rewrite <- Hv in Hi. apply Forall_forall. intros t Ht.
    apply (proj1 (Forall_forall _ _) Hi (view_of_turn t)). by apply list_elem_of_fmap_2.
  - cbn zeta. fold b. unfold build_turns_from_rollout_items, active_turn_snapshot, active_turn_position. fold b.
    unfold finish, finish_current_turn. destruct (current_turn b) as [t|] eqn:Ht.
    + specialize (Hk t Ht). unfold droppable in Hk. rewrite Hk. cbn. by rewrite list_lookup_middle.
    + rewrite last_lookup. destruct (turns b) as [|t ts] eqn:Ets; [done|]. cbn [is_empty length].
      f_equal. lia.
Qed.

(** A rollback of [n] turns leaves the turns of the rollout before it but
    the last [n], whatever the inputs were, and reports the others as removed. *)
Theorem rollback_drops_last_turns (items : list RolloutItem) n :
  let b := foldl handle new_builder items in
  let kept := length (build items) - N.to_nat n in
  build (items ++ [RolloutEvent (EvThreadRolledBack n)]) = take kept (build items)
  /\ (handle_event_with_changes json_null new_uuid b (EvThreadRolledBack n)).1
     = mkChangeSet [] [] (turn_id <$> drop kept (build items)).
Proof.
  intros b. unfold build_turns_from_rollout_items. rewrite foldl_app. fold b. cbn [foldl].
  unfold handle_rollout_item. cbn [handle_event]. rewrite rollback_eq. split.
  - assert (E : turns (finish_current_turn (advance_rollout b)) = turns (finish_current_turn b)).
    { unfold finish_current_turn. cbn [advance_rollout current_turn]. destruct (current_turn b) as [t|]; [|done].
      by destruct (_ && _ && _). }
    unfold finish. rewrite <- E. apply rolled_back_finish, finish_closed.
  - unfold handle_event_with_changes, collect_changes. cbn [handle_event]. rewrite rollback_eq.
    unfold rolled_back, finish, finish_current_turn. cbn [set_active_change_set current_turn].
    destruct (current_turn b) as [t|]; [destruct (_ && _ && _)|]; reflexivity.
Qed.
End theorems.

(** ** Examples *)

Module Examples.
#[local] Instance plain_presentation : Presentation rstr := {
  redact_secrets := fun s => s;
  shlex_join := join (lit " ");
  parse_command := fun _ => [];
  path_uri_join := fun cwd path => Some (cwd ++ lit "/" ++ path);
  legacy_path := fun path => path;
  presentation_env := mkPathEnv None None None
}.
#[local] Instance text_ids : ThreadIds rstr := fun id => id.

Abbreviation Item := (RolloutItem (Json := unit) (Failure := unit) (PathUri := rstr) (ThreadId := rstr)
  (Extra := unit) (RJson := unit)).

Definition started (id : rstr) : Item := RolloutEvent (EvTurnStarted id None).
Definition completed (id : rstr) : Item := RolloutEvent (EvTurnComplete id None None None).
Definition says (text : rstr) : Item :=
  RolloutEvent (EvUserMessage (mkUserMessage None text None [] [] [] None [] [])).
Definition thinks (text : rstr) : Item := RolloutEvent (EvAgentReasoning text).
Definition runs (call turn : rstr) : Item :=
  RolloutEvent (EvExecCommandBegin (mkExecBegin call None None None turn [lit "sleep"] (lit "/w") [] Agent)).
Definition exits (call turn : rstr) : Item :=
  RolloutEvent (EvExecCommandEnd
    (mkExecEnd call None None None turn [lit "sleep"] (lit "/w") [] Agent [] 0%Z 1500 ExecCompleted)).

Definition t1 : rstr := lit "t1".
Definition t2 : rstr := lit "t2".

(** A command of the first turn that exits during the second, which goes on
    and is followed by a turn that is rolled back. *)
Definition before : list Item := [started t1; says (lit "hi"); runs (lit "call-1") t1; completed t1; started t2].
Definition batch : list Item :=
  [ says (lit "go"); thinks (lit "a"); thinks (lit "b"); exits (lit "call-1") t1; completed t2;
    says (lit "more"); RolloutEvent (EvThreadRolledBack 1) ].

Abbreviation run := (run_ok tt (fun _ => []) (fun _ => None) new_builder).
Abbreviation build := (build_turns_from_rollout_items tt (fun _ => []) (fun _ => None)).

Example late_exit_goes_to_its_turn :
  (fun t => (turn_id t, item_id <$> turn_items t)) <$> build (before ++ batch)
  = [ (t1, [lit "item-1"; lit "call-1"]); (t2, [lit "item-2"; lit "item-3"]) ].
Proof. vm_compute. reflexivity. Qed.

Lemma batch_changes_project_witness :
  let b := foldl (handle_rollout_item tt (fun _ => []) (fun _ => None)) new_builder before in
  let '(changes, b') := handle_rollout_items_with_changes tt (fun _ => []) (fun _ => None) b batch in
  b' = foldl (handle_rollout_item tt (fun _ => []) (fun _ => None)) b batch
  /\ view_of_turn <$> build (before ++ batch) = apply_changes (view_of_turn <$> build before) changes.
Proof.
  apply (batch_changes_project tt (fun _ => []) (fun _ => None) before batch). vm_compute. reflexivity.
Defined.

Lemma rollout_ids_unique_witness :
  run (before ++ batch) = true /\ NoDup (turn_id <$> build (before ++ batch)).
Proof.
  split; [vm_compute; reflexivity|].
  apply (rollout_ids_unique tt (fun _ => []) (fun _ => None) (before ++ batch)). vm_compute. reflexivity.
Defined.
End Examples.
