(* ===== verification/ExecApproval.v ===== *)
(** * Approval of commands

    [core/src/exec_policy.rs] with [exec_policy/model_policy.rs] and
    [exec_policy/executable_identity.rs]: whether a command runs at once, asks
    the user or is refused, and how an answer changes the policy; the sandbox
    override of [core/src/tools/sandboxing.rs]; the settings they read
    ([AskForApproval], [SandboxPermissions] of
    [protocol/src]).  The branches of the Unix build.

    The parser of shell scripts and [shlex::try_join] are arguments.  The
    manager's policy is explicit state; its lock makes updates sequential, and
    a closed lock or a cancelled blocking task are not modelled. *)

From Stdlib Require Import Lia.
From stdpp Require Import base list gmap strings.
From S2P Require Import Prelude AbsolutePath ExecRule ExecPolicy ExecPolicyParser ExecAmend.
From S2P Require Import ShellCommand Permissions PermissionProfiles.

Open Scope rust_scope.

(** ** Settings *)

Record GranularApprovalConfig := mkGranular {
  sandbox_approval : bool;
  rules_approval : bool;
  skill_approval : bool;
  request_permissions : bool;
  mcp_elicitations : bool
}.

Inductive AskForApproval :=
| UnlessTrusted
| OnRequest
| Granular (config : GranularApprovalConfig)
| Never.

Inductive SandboxPermissions := UseDefault | RequireEscalated | WithAdditionalPermissions.

#[export] Instance sandbox_permissions_eq_dec : EqDecision SandboxPermissions.
Proof. solve_decision. Defined.

Definition requires_escalated_permissions (s : SandboxPermissions) : bool :=
  match s with RequireEscalated => true | _ => false end.

Definition requests_sandbox_override (s : SandboxPermissions) : bool :=
  match s with UseDefault => false | _ => true end.

Definition uses_additional_permissions (s : SandboxPermissions) : bool :=
  match s with WithAdditionalPermissions => true | _ => false end.

(** [ExecPolicyAmendment] is a newtype around its command. *)
Record ExecPolicyAmendment := mkAmendment { amendment_command : list rstr }.

Inductive ExecApprovalRequirement :=
| Skip (bypass_sandbox : bool) (proposed : option ExecPolicyAmendment)
| NeedsApproval (reason : option rstr) (proposed : option ExecPolicyAmendment)
| Refused (reason : rstr).

Definition proposed_execpolicy_amendment (r : ExecApprovalRequirement)
  : option ExecPolicyAmendment :=
  match r with
  | NeedsApproval _ (Some prefix) | Skip _ (Some prefix) => Some prefix
  | _ => None
  end.

Inductive AllowPrefixRules := Honor | IgnoreForCyberModel.

#[export] Instance allow_prefix_rules_eq_dec : EqDecision AllowPrefixRules.
Proof. solve_decision. Defined.

(** ** Reasons *)

Definition PROMPT_CONFLICT_REASON : rstr :=
  lit "approval required by policy, but AskForApproval is set to Never".
Definition REJECT_SANDBOX_APPROVAL_REASON : rstr :=
  lit "approval required by policy, but AskForApproval::Granular.sandbox_approval is false".
Definition REJECT_RULES_APPROVAL_REASON : rstr :=
  lit "approval required by policy rule, but AskForApproval::Granular.rules is false".

Definition BANNED_PREFIX_SUGGESTIONS : list (list rstr) :=
  List.map (List.map lit) [
    ["/bin/bash"]; ["/bin/bash"; "-c"]; ["/bin/bash"; "-lc"]; ["/bin/sh"]; ["/bin/sh"; "-c"];
    ["/bin/sh"; "-lc"]; ["/bin/zsh"]; ["/bin/zsh"; "-c"]; ["/bin/zsh"; "-lc"]; ["Rscript"];
    ["bash"]; ["bash"; "-c"]; ["bash"; "-lc"]; ["bun"]; ["bun"; "-e"]; ["bun"; "run"]; ["cmd"];
    ["cmd"; "/c"]; ["cmd"; "/k"]; ["cmd.exe"]; ["cmd.exe"; "/c"]; ["cmd.exe"; "/k"]; ["dash"];
    ["dash"; "-c"]; ["deno"]; ["deno"; "eval"]; ["env"]; ["fish"]; ["fish"; "-c"]; ["git"];
    ["julia"]; ["julia"; "-e"]; ["ksh"]; ["ksh"; "-c"]; ["lua"]; ["lua"; "-e"]; ["node"];
    ["node"; "-e"]; ["nodejs"]; ["nodejs"; "-e"]; ["npm"; "run"]; ["osascript"]; ["perl"];
    ["perl"; "-e"]; ["php"]; ["php"; "-r"]; ["pnpm"; "run"]; ["powershell"];
    ["powershell"; "-Command"]; ["powershell"; "-EncodedCommand"]; ["powershell"; "-File"];
    ["powershell"; "-c"]; ["powershell.exe"]; ["powershell.exe"; "-Command"];
    ["powershell.exe"; "-EncodedCommand"]; ["powershell.exe"; "-File"];
    ["powershell.exe"; "-c"]; ["pwsh"]; ["pwsh"; "-Command"]; ["pwsh"; "-EncodedCommand"];
    ["pwsh"; "-File"]; ["pwsh"; "-c"]; ["pwsh"; "-e"]; ["pwsh"; "-ec"]; ["pwsh"; "-f"]; ["py"];
    ["py"; "-3"]; ["pypy"]; ["pypy3"]; ["python"]; ["python"; "-"]; ["python"; "-c"];
    ["python3"]; ["python3"; "-"]; ["python3"; "-c"]; ["pythonw"]; ["pyw"]; ["rm"]; ["ruby"];
    ["ruby"; "-e"]; ["sh"]; ["sh"; "-c"]; ["sh"; "-lc"]; ["sudo"]; ["yarn"; "run"]; ["zsh"];
    ["zsh"; "-c"]; ["zsh"; "-lc"]]%string.

Definition is_policy_match (m : RuleMatch) : bool :=
  match m with PrefixRuleMatch _ _ _ _ => true | HeuristicsRuleMatch _ _ => false end.

Definition prompt_is_rejected_by_policy (approval_policy : AskForApproval) (prompt_is_rule : bool)
  : option rstr :=
  match approval_policy with
  | Never => Some PROMPT_CONFLICT_REASON
  | OnRequest | UnlessTrusted => None
  | Granular config =>
      if prompt_is_rule then
        if negb (rules_approval config) then Some REJECT_RULES_APPROVAL_REASON else None
      else if negb (sandbox_approval config) then Some REJECT_SANDBOX_APPROVAL_REASON
      else None
  end.

Section rendering.
Context (try_join : list rstr -> option rstr).

Definition render_shlex_command (args : list rstr) : rstr :=
  default (join (lit " ") args) (try_join args).

Definition quoted (s : rstr) : rstr := lit "`" ++ s ++ lit "`".

(** The matched prefix and justification of the matching rules of one
    decision, longest prefix last. *)
Definition most_specific (d : Decision) (ms : list RuleMatch) : option (list rstr * option rstr) :=
  max_by (fun a b => length a.1 <=? length b.1)
    (omap (fun m => match m with
                    | PrefixRuleMatch matched_prefix decision _ justification =>
                        if bool_decide (decision = d) then Some (matched_prefix, justification)
                        else None
                    | HeuristicsRuleMatch _ _ => None
                    end) ms).

Definition derive_prompt_reason (command_args : list rstr) (evaluation : Evaluation) : option rstr :=
  let command := render_shlex_command command_args in
  match most_specific Prompt (matched_rules evaluation) with
  | Some (_, Some justification) =>
      Some (quoted command ++ lit " requires approval: " ++ justification)
  | Some (_, None) => Some (quoted command ++ lit " requires approval by policy")
  | None => None
  end.

Definition dangerous_command_rejection_reason (m : DangerousCommandMatch) : rstr :=
  match m with
  | ForcedRm => lit "rm -f style commands are not permitted. Use a safer approach"
  | Other => lit "blocked by policy"
  end.

Definition derive_forbidden_reason (command_args : list rstr) (evaluation : Evaluation)
    (dangerous : option DangerousCommandMatch) : rstr :=
  let command := render_shlex_command command_args in
  match most_specific Forbidden (matched_rules evaluation) with
  | Some (_, Some justification) => quoted command ++ lit " rejected: " ++ justification
  | Some (matched_prefix, None) =>
      quoted command ++ lit " rejected: policy forbids commands starting with "
      ++ quoted (render_shlex_command matched_prefix)
  | None =>
      match dangerous with
      | Some m => quoted command ++ lit " rejected: " ++ dangerous_command_rejection_reason m
      | None => quoted command ++ lit " rejected: blocked by policy"
      end
  end.

Definition derive_rejected_prompt_reason (fallback_reason : rstr)
    (dangerous : option DangerousCommandMatch) : rstr :=
  match dangerous with
  | Some ForcedRm => dangerous_command_rejection_reason ForcedRm
  | Some Other | None => fallback_reason
  end.
End rendering.

(** ** Unmatched commands *)

Section approval.
Context {U : Type} `{!PathUriLexical U}.
Context (env : path_env) (try_parse_shell : rstr -> option Tree)
  (try_join : list rstr -> option rstr).

Record UnmatchedCommandContext := mkUnmatched {
  um_approval_policy : AskForApproval;
  um_permission_profile : PermissionProfile U;
  um_sandbox_permissions : SandboxPermissions
}.

Definition render_decision_for_unmatched_command (command : list rstr)
    (context : UnmatchedCommandContext) : Decision :=
  let approval_policy := um_approval_policy context in
  let kind := fs_kind (file_system_sandbox_policy (um_permission_profile context)) in
  let when_restricted :=
    match kind with
    | Unrestricted | ExternalSandbox => Allow
    | Restricted =>
        if requests_sandbox_override (um_sandbox_permissions context) then Prompt else Allow
    end in
  if is_some (dangerous_command_match try_parse_shell command) then
    match approval_policy with
    | Never => Forbidden
    | OnRequest | UnlessTrusted | Granular _ => Prompt
    end
  else match approval_policy with
       | Never => Allow
       | UnlessTrusted => Prompt
       | OnRequest | Granular _ => when_restricted
       end.

(** The dangerous match of the first heuristics match of the decision. *)
Definition dangerous_command_match_for_heuristics (evaluation : Evaluation) (d : Decision)
  : option DangerousCommandMatch :=
  find_map (fun m => match m with
                     | HeuristicsRuleMatch command decision =>
                         if bool_decide (decision = d)
                         then dangerous_command_match try_parse_shell command else None
                     | PrefixRuleMatch _ _ _ _ => None
                     end) (matched_rules evaluation).

Definition commands_for_exec_policy (command : list rstr) : list (list rstr) :=
  match parse_shell_lc_plain_commands try_parse_shell command with
  | Some commands => if negb (is_empty commands) then commands else [command]
  | None => [command]
  end.

(** ** Amendments *)

Definition try_derive_execpolicy_amendment_for_prompt_rules (matched_rules : list RuleMatch)
  : option ExecPolicyAmendment :=
  if existsb (fun m => is_policy_match m && bool_decide (match_decision m = Prompt)) matched_rules
  then None
  else find_map (fun m => match m with
                          | HeuristicsRuleMatch command Prompt => Some (mkAmendment command)
                          | _ => None
                          end) matched_rules.

Definition try_derive_execpolicy_amendment_for_allow_rules (matched_rules : list RuleMatch)
  : option ExecPolicyAmendment :=
  if existsb is_policy_match matched_rules then None
  else find_map (fun m => match m with
                          | HeuristicsRuleMatch command Allow => Some (mkAmendment command)
                          | _ => None
                          end) matched_rules.

Fixpoint all_commands_allowed (policy : Policy) (commands : list (list rstr))
    (fallback : list rstr -> Decision) (options : MatchOptions) : outcome unit bool :=
  match commands with
  | [] => Done true
  | command :: r =>
      evaluation ← check_with_options env policy command fallback options;
      if bool_decide (eval_decision evaluation = Allow)
      then all_commands_allowed policy r fallback options else Done false
  end.

Definition prefix_rule_would_approve_all_commands (exec_policy : Policy) (prefix_rule : list rstr)
    (commands : list (list rstr)) (fallback : list rstr -> Decision) (options : MatchOptions)
  : outcome unit bool :=
  match add_prefix_rule prefix_rule Allow exec_policy with
  | Err _ => Done false
  | Ok policy_with_prefix_rule =>
      all_commands_allowed policy_with_prefix_rule commands fallback options
  end.

Definition derive_requested_execpolicy_amendment_from_prefix_rule (prefix_rule : option (list rstr))
    (matched_rules : list RuleMatch) (exec_policy : Policy) (commands : list (list rstr))
    (fallback : list rstr -> Decision) (options : MatchOptions)
  : outcome unit (option ExecPolicyAmendment) :=
  match prefix_rule with
  | None => Done None
  | Some prefix_rule =>
      if is_empty prefix_rule then Done None
      else if existsb (fun banned => bool_decide (prefix_rule = banned)) BANNED_PREFIX_SUGGESTIONS
      then Done None
      else if existsb is_policy_match matched_rules then Done None
      else
        approved ← prefix_rule_would_approve_all_commands exec_policy prefix_rule commands
                     fallback options;
        Done (if approved : bool then Some (mkAmendment prefix_rule) else None)
  end.

(** ** The manager

    [ExecPolicyManager] is its current policy. *)

Definition is_allow_prefix (rule : RuleRef) : bool := bool_decide (decision rule = Allow).

Definition without_allow_prefixes (rules : list RuleRef) : option (list RuleRef) :=
  match List.filter (fun rule => negb (is_allow_prefix rule)) rules with
  | [] => None
  | kept => Some kept
  end.

Definition current_for_prefix_rules (current : Policy) (allow_prefix_rules : AllowPrefixRules)
  : Policy :=
  match allow_prefix_rules with
  | Honor => current
  | IgnoreForCyberModel =>
      mkPolicy (omap without_allow_prefixes (rules_by_program current)) (network_rules current)
        (host_executables_by_name current)
  end.

Definition current_for_environment (current : Policy) (environment_policy : option Policy)
    (allow_prefix_rules : AllowPrefixRules) : Policy :=
  let policy := current_for_prefix_rules current allow_prefix_rules in
  match environment_policy with
  | Some environment_policy => merge_overlay policy environment_policy
  | None => policy
  end.

Record ExecApprovalRequest := mkRequest {
  req_command : list rstr;
  req_approval_policy : AskForApproval;
  req_permission_profile : PermissionProfile U;
  req_environment_policy : option Policy;
  req_sandbox_permissions : SandboxPermissions;
  req_prefix_rule : option (list rstr);
  req_allow_prefix_rules : AllowPrefixRules
}.

Definition approval_options : MatchOptions := mkMatchOptions true.

Definition exec_policy_fallback (req : ExecApprovalRequest) (cmd : list rstr) : Decision :=
  render_decision_for_unmatched_command cmd
    (mkUnmatched (req_approval_policy req) (req_permission_profile req)
       (req_sandbox_permissions req)).

Definition explicitly_allowed (policy : Policy) (command : list rstr) : bool :=
  existsb (fun m => is_policy_match m && bool_decide (match_decision m = Allow))
    (matches_for_command_with_options env policy command None approval_options).

(** The [match evaluation.decision] at the end. *)
Definition requirement_of (req : ExecApprovalRequest) (exec_policy : Policy)
    (commands : list (list rstr)) (evaluation : Evaluation)
    (requested_amendment : option ExecPolicyAmendment) : ExecApprovalRequirement :=
  let auto_amendment_allowed := bool_decide (req_allow_prefix_rules req = Honor) in
  let rules := matched_rules evaluation in
  match eval_decision evaluation with
  | Forbidden =>
      Refused (derive_forbidden_reason try_join (req_command req) evaluation
                 (dangerous_command_match_for_heuristics evaluation Forbidden))
  | Prompt =>
      let prompt_is_rule :=
        existsb (fun m => is_policy_match m && bool_decide (match_decision m = Prompt)) rules in
      match prompt_is_rejected_by_policy (req_approval_policy req) prompt_is_rule with
      | Some reason =>
          if prompt_is_rule then Refused reason
          else Refused (derive_rejected_prompt_reason reason
                          (dangerous_command_match_for_heuristics evaluation Prompt))
      | None =>
          NeedsApproval (derive_prompt_reason try_join (req_command req) evaluation)
            (match requested_amendment with
             | Some amendment => Some amendment
             | None => if auto_amendment_allowed
                       then try_derive_execpolicy_amendment_for_prompt_rules rules else None
             end)
      end
  | Allow =>
      Skip (forallb (explicitly_allowed exec_policy) commands)
        (if auto_amendment_allowed
         then try_derive_execpolicy_amendment_for_allow_rules rules else None)
  end.

Definition create_exec_approval_requirement_for_parsed_commands (current : Policy)
    (req : ExecApprovalRequest) (commands : list (list rstr))
  : outcome unit ExecApprovalRequirement :=
  let exec_policy :=
    current_for_environment current (req_environment_policy req) (req_allow_prefix_rules req) in
  let fallback := exec_policy_fallback req in
  evaluation ← check_multiple_with_options env exec_policy commands fallback approval_options;
  requested_amendment ←
    (if bool_decide (req_allow_prefix_rules req = Honor)
     then derive_requested_execpolicy_amendment_from_prefix_rule (req_prefix_rule req)
            (matched_rules evaluation) exec_policy commands fallback approval_options
     else Done None);
  Done (requirement_of req exec_policy commands evaluation requested_amendment).

Definition create_exec_approval_requirement_for_command (current : Policy)
    (req : ExecApprovalRequest) : outcome unit ExecApprovalRequirement :=
  create_exec_approval_requirement_for_parsed_commands current req
    (commands_for_exec_policy (req_command req)).

(** *** The executable of a shell invocation *)

Inductive UnifiedExecShellMode := Direct | ZshFork.

Definition shell_approval_command (command : list rstr) (configured_shell : rstr)
    (shell_mode : UnifiedExecShellMode) : list rstr :=
  match command with
  | [] => command
  | executable :: _ =>
      let is_system_shell :=
        is_some_and (parent (components executable))
          (fun parent => bool_decide (parent = components (lit "/bin"))
                         || bool_decide (parent = components (lit "/usr/bin"))) in
      let is_configured_shell :=
        bool_decide (components executable = components configured_shell) in
      if is_configured_shell || is_system_shell
         || match shell_mode with ZshFork => true | Direct => false end
      then command else [executable]
  end.

Definition with_command (req : ExecApprovalRequest) (command : list rstr) : ExecApprovalRequest :=
  mkRequest command (req_approval_policy req) (req_permission_profile req)
    (req_environment_policy req) (req_sandbox_permissions req) (req_prefix_rule req)
    (req_allow_prefix_rules req).

Definition create_exec_approval_requirement_for_shell (current : Policy)
    (req : ExecApprovalRequest) (configured_shell : rstr) (shell_mode : UnifiedExecShellMode)
  : outcome unit ExecApprovalRequirement :=
  let command := req_command req in
  let executable := shell_approval_command command configured_shell shell_mode in
  if length executable =? length command then
    create_exec_approval_requirement_for_command current req
  else
    create_exec_approval_requirement_for_parsed_commands current (with_command req executable)
      (executable :: commands_for_exec_policy command).

(** ** The sandbox of the first attempt ([tools/sandboxing.rs]) *)

Definition default_exec_approval_requirement (policy : AskForApproval)
    (fs : FileSystemSandboxPolicy U) : ExecApprovalRequirement :=
  let needs_approval :=
    match policy with
    | Never => false
    | OnRequest | Granular _ => is_restricted (fs_kind fs)
    | UnlessTrusted => true
    end in
  if needs_approval && match policy with
                       | Granular config => negb (sandbox_approval config) | _ => false end
  then Refused (lit "approval policy disallowed sandbox approval prompt")
  else if needs_approval then NeedsApproval None None
  else Skip false None.

Inductive SandboxOverride := NoOverride | BypassSandboxFirstAttempt.

Definition unsandboxed_execution_allowed (fs : FileSystemSandboxPolicy U) : bool :=
  negb (has_denied_read_restrictions fs).

Definition sandbox_override_for_first_attempt (sandbox_permissions : SandboxPermissions)
    (requirement : ExecApprovalRequirement) (fs : FileSystemSandboxPolicy U) : SandboxOverride :=
  if negb (unsandboxed_execution_allowed fs) then NoOverride
  else match requirement with
       | Skip true _ => BypassSandboxFirstAttempt
       | _ => if requires_escalated_permissions sandbox_permissions
              then BypassSandboxFirstAttempt else NoOverride
       end.

Definition sandbox_permissions_preserving_denied_reads (sandbox_permissions : SandboxPermissions)
    (fs : FileSystemSandboxPolicy U) : SandboxPermissions :=
  if requires_escalated_permissions sandbox_permissions && negb (unsandboxed_execution_allowed fs)
  then UseDefault else sandbox_permissions.
End approval.

Arguments ExecApprovalRequest U : clear implicits.
Arguments UnmatchedCommandContext U : clear implicits.

(** ** Updating the policy *)

Section update.
Context {FS Path : Type} `{!PolicyFileOps FS Path}.
Context (env : path_env) (to_json : rstr -> result rstr rstr).

Inductive ExecPolicyUpdateError :=
| AppendRule (path : Path) (source : AmendError Path)
| AddRule (source : Error).

Definition default_policy_path (codex_home : Path) : Path :=
  pf_join (pf_join codex_home (lit "rules")) (lit "default.rules").

Definition already_allowed (e : Evaluation) : bool :=
  bool_decide (eval_decision e = Allow)
  && existsb (fun m => is_policy_match m && bool_decide (match_decision m = Allow))
       (matched_rules e).

Definition append_amendment_and_update (codex_home : Path) (amendment : ExecPolicyAmendment)
    (current : Policy) (fs : FS) : outcome ExecPolicyUpdateError unit * Policy * FS :=
  let policy_path := default_policy_path codex_home in
  match blocking_append_allow_prefix_rule to_json policy_path (amendment_command amendment) fs with
  | (Err source, fs) => (Fail (AppendRule policy_path source), current, fs)
  | (Ok _, fs) =>
      match check_multiple_with_options env current [amendment_command amendment]
              (fun _ => Forbidden) approval_options with
      | Panic | Fail _ => (Panic, current, fs)
      | Done existing_evaluation =>
          if already_allowed existing_evaluation then (Done tt, current, fs)
          else match add_prefix_rule (amendment_command amendment) Allow current with
               | Err source => (Fail (AddRule source), current, fs)
               | Ok updated_policy => (Done tt, updated_policy, fs)
               end
      end
  end.

Definition append_network_rule_and_update (codex_home : Path) (host : rstr)
    (protocol : NetworkRuleProtocol) (d : Decision) (justification : option rstr)
    (current : Policy) (fs : FS) : outcome ExecPolicyUpdateError unit * Policy * FS :=
  let policy_path := default_policy_path codex_home in
  match blocking_append_network_rule to_json policy_path host protocol d justification fs with
  | (Err source, fs) => (Fail (AppendRule policy_path source), current, fs)
  | (Ok _, fs) =>
      match add_network_rule host protocol d justification current with
      | Err source => (Fail (AddRule source), current, fs)
      | Ok updated_policy => (Done tt, updated_policy, fs)
      end
  end.
End update.

(** ** Facts *)

Lemma explicit_matches env p cmd f options :
  matches_for_command_with_options env p cmd None options <> [] ->
  matches_for_command_with_options env p cmd (Some f) options =
  matches_for_command_with_options env p cmd None options.
Proof. unfold matches_for_command_with_options. by destruct (default [] _). Qed.

Lemma unmatched_fallback env p cmd f options :
  matches_for_command_with_options env p cmd None options = [] ->
  matches_for_command_with_options env p cmd (Some f) options = [HeuristicsRuleMatch cmd (f cmd)].
Proof. unfold matches_for_command_with_options. by destruct (default [] _). Qed.

(** The evaluation of several commands. *)
Lemma check_multiple_done env p cmds f options :
  cmds <> [] ->
  exists ev, check_multiple_with_options env p cmds f options = Done ev
    /\ matched_rules ev =
       (cmds ≫= fun c => matches_for_command_with_options env p c (Some f) options)
    /\ (exists m, m ∈ matched_rules ev /\ match_decision m = eval_decision ev)
    /\ forall m, m ∈ matched_rules ev -> severity (match_decision m) <= severity (eval_decision ev).
Proof.
  intros Hne. unfold check_multiple_with_options.
  destruct (from_matches_spec
    (cmds ≫= fun c => matches_for_command_with_options env p c (Some f) options))
    as (d & -> & Hin & Hmax).
  { destruct cmds as [|c cmds]; [done|]. rewrite bind_cons. intros [H _]%app_nil.
    by apply matches_fallback_non_empty in H. }
  by exists (mkEvaluation d (cmds ≫= fun c =>
       matches_for_command_with_options env p c (Some f) options)).
Qed.

Section decisions.
Context {U : Type} `{!PathUriLexical U}.
Context (env : path_env) (parse : rstr -> option Tree) (try_join : list rstr -> option rstr).
Implicit Types (req : ExecApprovalRequest U).

Lemma commands_for_exec_policy_ne command : commands_for_exec_policy parse command <> [].
Proof.
  unfold commands_for_exec_policy. destruct (parse_shell_lc_plain_commands parse command) as [cs|];
    [|done]. by destruct cs.
Qed.

Lemma check_with_options_done p cmd f options :
  exists ev, check_with_options env p cmd f options = Done ev
    /\ matched_rules ev = matches_for_command_with_options env p cmd (Some f) options.
Proof.
  unfold check_with_options.
  destruct (from_matches_spec _ (matches_fallback_non_empty env p cmd f options))
    as (d & -> & _). by eexists.
Qed.

Lemma all_commands_allowed_done p cmds f options :
  exists b, all_commands_allowed env p cmds f options = Done b
    /\ (b = true -> forall c, c ∈ cmds -> exists ev,
          check_with_options env p c f options = Done ev /\ eval_decision ev = Allow).
Proof.
  induction cmds as [|c cmds (b & Hb & IH)]; cbn [all_commands_allowed].
  { exists true. split; [done|]. by intros _ c ?%elem_of_nil. }
  destruct (check_with_options_done p c f options) as (ev & Hev & _). rewrite Hev. cbn [mbind outcome_bind].
  case_bool_decide as Hd; [|by exists false].
  exists b. split; [done|]. intros -> c' [->|Hc]%elem_of_cons; eauto.
Qed.

Lemma derive_requested_done prefix ms p cmds f options :
  exists am, derive_requested_execpolicy_amendment_from_prefix_rule env prefix ms p cmds f options
             = Done am.
Proof.
  unfold derive_requested_execpolicy_amendment_from_prefix_rule,
    prefix_rule_would_approve_all_commands.
  destruct prefix as [prefix|]; [|by eexists]. repeat (case_match; [by eexists|]).
  case_match; [|by eexists].
  match goal with |- context [all_commands_allowed env ?q cmds f options] =>
    destruct (all_commands_allowed_done q cmds f options) as (b & -> & _) end.
  by eexists.
Qed.

(** The requirement, as a function of the evaluation. *)
Lemma requirement_spec current req cmds :
  cmds <> [] ->
  let policy := current_for_environment current (req_environment_policy req)
                  (req_allow_prefix_rules req) in
  exists ev am,
    create_exec_approval_requirement_for_parsed_commands env parse try_join current req cmds
      = Done (requirement_of env parse try_join req policy cmds ev am)
    /\ check_multiple_with_options env policy cmds (exec_policy_fallback parse req) approval_options
       = Done ev
    /\ (req_allow_prefix_rules req = IgnoreForCyberModel -> am = None).
Proof.
  intros Hne policy.
  destruct (check_multiple_done env policy cmds (exec_policy_fallback parse req) approval_options Hne)
    as (ev & Hev & _).
  unfold create_exec_approval_requirement_for_parsed_commands. fold policy. rewrite Hev.
  cbn [mbind outcome_bind]. case_bool_decide as Hh.
  - destruct (derive_requested_done (req_prefix_rule req) (matched_rules ev) policy cmds
      (exec_policy_fallback parse req) approval_options) as [am ->].
    exists ev, am. split; [done|]. split; [done|]. rewrite Hh. done.
  - by exists ev, None.
Qed.

Lemma severity_allow d : severity d <= severity Allow -> d = Allow.
Proof. destruct d; simpl; lia || done. Qed.

(** What each requirement says about the evaluation. *)
Lemma requirement_of_cases req policy cmds ev am :
  match requirement_of env parse try_join req policy cmds ev am with
  | Skip bypass _ =>
      eval_decision ev = Allow /\ bypass = forallb (explicitly_allowed env policy) cmds
  | NeedsApproval _ _ => eval_decision ev = Prompt /\ exists prompt_is_rule,
      prompt_is_rejected_by_policy (req_approval_policy req) prompt_is_rule = None
  | Refused _ => eval_decision ev <> Allow
  end.
Proof.
  unfold requirement_of. destruct (eval_decision ev); try done.
  destruct (prompt_is_rejected_by_policy _ _) eqn:E; [by destruct (existsb _ _)|eauto].
Qed.
End decisions.

Section ignoring.
Context (env : path_env).

Lemma without_allow_lookup p k rule :
  rule ∈ default [] (rules_by_program (current_for_prefix_rules p IgnoreForCyberModel) !! k) ->
  decision rule <> Allow.
Proof.
  cbn [current_for_prefix_rules rules_by_program]. rewrite lookup_omap.
  destruct (rules_by_program p !! k) as [rules|]; cbn [mbind option_bind default];
    [|by intros ?%elem_of_nil].
  unfold without_allow_prefixes.
  assert (forall r, r ∈ List.filter (fun rule => negb (is_allow_prefix rule)) rules ->
    decision r <> Allow) as H.
  { intros r [_ Hr]%list_elem_of_In%List.filter_In. unfold is_allow_prefix in Hr.
    by apply negb_true_iff, bool_decide_eq_false in Hr. }
  destruct (List.filter _ rules); [by intros ?%elem_of_nil|]. apply H.
Qed.

Lemma rule_matches_decision rule cmd m :
  rule_matches rule cmd = Some m -> match_decision m = decision rule.
Proof. unfold rule_matches. destruct (matches_prefix _ _); [|done]. by intros [= <-]. Qed.

Lemma omap_rule_matches_not_allow (rules : list RuleRef) cmd m :
  (forall r, r ∈ rules -> decision r <> Allow) ->
  m ∈ omap (fun rule => rule_matches rule cmd) rules -> match_decision m <> Allow.
Proof.
  intros Hr (r & Hin & Hm)%list_elem_of_omap. rewrite (rule_matches_decision _ _ _ Hm). auto.
Qed.

(** Every rule match of a policy without allow rules asks or forbids. *)
Lemma not_explicitly_allowed p cmd :
  (forall k rule, rule ∈ default [] (rules_by_program p !! k) -> decision rule <> Allow) ->
  explicitly_allowed env p cmd = false.
Proof.
  intros Hp. destruct (explicitly_allowed env p cmd) eqn:E; [|done]. exfalso.
  apply existsb_elem in E as (m & Hm & Ha). apply andb_true_iff in Ha as [_ Ha].
  apply bool_decide_eq_true in Ha. revert Hm Ha.
  assert (forall ms, ms = match_exact_rules p cmd
            \/ ms = Some (match_host_executable_rules env p cmd) ->
          m ∈ default [] ms -> match_decision m <> Allow) as Hall.
  { intros ms [-> | ->]; cbn [default].
    - destruct cmd as [|c cmd]; [by intros ?%elem_of_nil|]. rewrite match_exact_lookup. cbn [default].
      apply omap_rule_matches_not_allow, Hp.
    - unfold match_host_executable_rules. destruct cmd as [|c cmd]; [by intros ?%elem_of_nil|].
      cbn [head]. destruct (from_absolute_path env c) as [prog|]; [|by intros ?%elem_of_nil].
      destruct (executable_path_lookup_key prog) as [name|]; [|by intros ?%elem_of_nil].
      pose proof (Hp name) as Hn. destruct (rules_by_program p !! name) as [rules|];
        [|by intros ?%elem_of_nil].
      case_match; [by intros ?%elem_of_nil|]. intros (m' & -> & Hm')%list_elem_of_fmap.
      apply omap_rule_matches_not_allow in Hm'; [|done]. by destruct m'. }
  unfold matches_for_command_with_options, or_else_fn. cbn [resolve_host_executables approval_options].
  intros Hm Ha. destruct (match_exact_rules p cmd) as [[|x l]|] eqn:Ex; cbn [non_empty] in Hm.
  - destruct (match_host_executable_rules env p cmd) as [|y k] eqn:Ey; cbn [non_empty default] in Hm.
    + by apply elem_of_nil in Hm.
    + by apply (Hall (Some (y :: k))); [right|exact Hm|].
  - by apply (Hall (Some (x :: l))); [left|exact Hm|].
  - destruct (match_host_executable_rules env p cmd) as [|y k] eqn:Ey; cbn [non_empty default] in Hm.
    + by apply elem_of_nil in Hm.
    + by apply (Hall (Some (y :: k))); [right|exact Hm|].
Qed.
End ignoring.

(** ** Theorems *)

Section theorems.
Context {U : Type} `{!PathUriLexical U}.
Context (env : path_env) (parse : rstr -> option Tree) (try_join : list rstr -> option rstr).
Implicit Types (req : ExecApprovalRequest U).

Definition policy_for (current : Policy) req : Policy :=
  current_for_environment current (req_environment_policy req) (req_allow_prefix_rules req).

(** C5: A command that holds a dangerous part for which no policy rule matches
    is never run without asking: the requirement is to ask, or to refuse, and
    with approvals set to [Never] it is to refuse. *)
Theorem dangerous_command_needs_consent current req part :
  part ∈ commands_for_exec_policy parse (req_command req) ->
  matches_for_command_with_options env (policy_for current req) part None approval_options = [] ->
  dangerous_command_match parse part <> None ->
  exists requirement,
    create_exec_approval_requirement_for_command env parse try_join current req = Done requirement
    /\ match requirement with
       | Skip _ _ => False
       | NeedsApproval _ _ => req_approval_policy req <> Never
       | Refused _ => True
       end.
Proof.
  intros Hin Hno Hd. pose proof (commands_for_exec_policy_ne parse (req_command req)) as Hne.
  destruct (requirement_spec env parse try_join current req _ Hne) as (ev & am & Hr & Hev & _).
  fold (policy_for current req) in *. eexists. split; [exact Hr|].
  destruct (check_multiple_done env (policy_for current req) _ (exec_policy_fallback parse req)
    approval_options Hne) as (ev' & Hev' & Hms & _ & Hmax).
  rewrite Hev in Hev'. injection Hev' as <-.
  assert (severity (exec_policy_fallback parse req part) <= severity (eval_decision ev)) as Hsev.
  { apply (Hmax (HeuristicsRuleMatch part _)). rewrite Hms. apply list_elem_of_bind.
    exists part. split; [|done]. rewrite unmatched_fallback by done. by apply list_elem_of_singleton. }
  unfold exec_policy_fallback, render_decision_for_unmatched_command in Hsev.
  cbn [um_approval_policy] in Hsev.
  destruct (dangerous_command_match parse part); [|done]. cbn [is_some] in Hsev.
  pose proof (requirement_of_cases env parse try_join req (policy_for current req)
    (commands_for_exec_policy parse (req_command req)) ev am) as Hc.
  destruct (requirement_of _ _ _ _ _ _ _ _); [| |done].
  - destruct Hc as [Ha _]. rewrite Ha in Hsev. by destruct (req_approval_policy req); simpl in Hsev; lia.
  - destruct Hc as [Hp _]. rewrite Hp in Hsev. intros Hn. rewrite Hn in Hsev. simpl in Hsev. lia.
Qed.

(** Every request has an answer (nothing panics), and the user is asked
    only when the approval setting lets prompts through: never under
    [Never], and under granular approvals only if rule prompts or sandbox
    prompts are enabled. *)
Theorem approval_setting_respected current req :
  exists requirement,
    create_exec_approval_requirement_for_command env parse try_join current req = Done requirement
    /\ forall reason amendment, requirement = NeedsApproval reason amendment ->
         match req_approval_policy req with
         | Never => False
         | Granular config => rules_approval config = true \/ sandbox_approval config = true
         | OnRequest | UnlessTrusted => True
         end.
Proof.
  pose proof (commands_for_exec_policy_ne parse (req_command req)) as Hne.
  destruct (requirement_spec env parse try_join current req _ Hne) as (ev & am & Hr & _).
  eexists. split; [exact Hr|]. intros reason amendment Hq.
  pose proof (requirement_of_cases env parse try_join req (policy_for current req)
    (commands_for_exec_policy parse (req_command req)) ev am) as Hc.
  unfold policy_for in Hc. rewrite Hq in Hc. destruct Hc as (_ & b & Hb).
  unfold prompt_is_rejected_by_policy in Hb. destruct (req_approval_policy req) as [| |config|]; try done.
  destruct b; [destruct (rules_approval config); auto; done|destruct (sandbox_approval config); auto; done].
Qed.

(** C11: A first attempt runs outside the sandbox only if the policy denies no
    reads and either escalation was requested or every part of the command is
    allowed by an explicit rule while no rule on any part asks or forbids. *)
Theorem sandbox_bypass_is_justified current req requirement sandbox_permissions
    (fs : FileSystemSandboxPolicy U) :
  create_exec_approval_requirement_for_command env parse try_join current req = Done requirement ->
  sandbox_override_for_first_attempt sandbox_permissions requirement fs = BypassSandboxFirstAttempt ->
  has_denied_read_restrictions fs = false
  /\ (sandbox_permissions = RequireEscalated
      \/ forall part, part ∈ commands_for_exec_policy parse (req_command req) ->
           explicitly_allowed env (policy_for current req) part = true
           /\ forall m, m ∈ matches_for_command_with_options env (policy_for current req) part None
                              approval_options -> match_decision m = Allow).
Proof.
  intros Hr Hs. unfold sandbox_override_for_first_attempt, unsandboxed_execution_allowed in Hs.
  destruct (has_denied_read_restrictions fs); [done|]. cbn [negb] in Hs. split; [done|].
  assert (
    (if requires_escalated_permissions sandbox_permissions then BypassSandboxFirstAttempt
     else NoOverride) = BypassSandboxFirstAttempt -> sandbox_permissions = RequireEscalated) as Hesc.
  { by destruct sandbox_permissions. }
  destruct requirement as [[|] am'|reason am'|reason]; [right|left; auto..].
  pose proof (commands_for_exec_policy_ne parse (req_command req)) as Hne.
  destruct (requirement_spec env parse try_join current req _ Hne) as (ev & am & Hr' & Hev & _).
  fold (policy_for current req) in *.
  unfold create_exec_approval_requirement_for_command in Hr. rewrite Hr in Hr'. injection Hr' as Hr'.
  pose proof (requirement_of_cases env parse try_join req (policy_for current req)
    (commands_for_exec_policy parse (req_command req)) ev am) as Hc.
  rewrite <- Hr' in Hc. destruct Hc as [Ha Hb]. intros part Hin.
  assert (explicitly_allowed env (policy_for current req) part = true) as Hex.
  { symmetry in Hb. rewrite forallb_forall in Hb. by apply Hb, list_elem_of_In. }
  split; [done|]. intros m Hm.
  destruct (check_multiple_done env (policy_for current req) _ (exec_policy_fallback parse req)
    approval_options Hne) as (ev' & Hev' & Hms & _ & Hmax).
  rewrite Hev in Hev'. injection Hev' as <-. apply severity_allow. rewrite <- Ha. apply Hmax.
  rewrite Hms. apply list_elem_of_bind. exists part. split; [|done].
  rewrite explicit_matches; [done|]. intros Hnil. rewrite Hnil in Hm. by apply elem_of_nil in Hm.
Qed.

(** A prefix rule requested by the model is proposed to the user only if
    it is not one of the banned prefixes, no rule matched yet, and adding it
    would allow every part of the command. *)
Theorem proposed_prefix_approves_command prefix ms policy commands f options amendment :
  derive_requested_execpolicy_amendment_from_prefix_rule env prefix ms policy commands f options
    = Done (Some amendment) ->
  prefix = Some (amendment_command amendment)
  /\ ~ (amendment_command amendment ∈ BANNED_PREFIX_SUGGESTIONS)
  /\ (forall m, m ∈ ms -> is_policy_match m = false)
  /\ exists policy', add_prefix_rule (amendment_command amendment) Allow policy = Ok policy'
       /\ forall c, c ∈ commands -> exists ev,
            check_with_options env policy' c f options = Done ev /\ eval_decision ev = Allow.
Proof.
  unfold derive_requested_execpolicy_amendment_from_prefix_rule,
    prefix_rule_would_approve_all_commands.
  destruct prefix as [prefix|]; [|done]. destruct (is_empty prefix); [done|].
  destruct (existsb _ BANNED_PREFIX_SUGGESTIONS) eqn:Eb; [done|].
  destruct (existsb is_policy_match ms) eqn:Em; [done|].
  destruct (add_prefix_rule prefix Allow policy) as [policy'|e] eqn:Ea; [|done].
  destruct (all_commands_allowed_done env policy' commands f options) as (b & -> & Hb).
  cbn [mbind outcome_bind]. destruct b; [|done]. intros [= <-]. cbn [amendment_command].
  split; [done|]. split.
  { intros Hin. apply (existsb_elem_false _ _ _ Eb) in Hin. by apply bool_decide_eq_false in Hin. }
  split; [intros m Hm; by apply (existsb_elem_false _ _ _ Em)|]. eauto.
Qed.

(** For a model whose allow rules are ignored, no command bypasses the
    sandbox and no reusable approval is offered, whatever the policy holds. *)
Theorem ignored_allow_rules_grant_nothing current req :
  req_allow_prefix_rules req = IgnoreForCyberModel -> req_environment_policy req = None ->
  exists requirement,
    create_exec_approval_requirement_for_command env parse try_join current req = Done requirement
    /\ proposed_execpolicy_amendment requirement = None
    /\ forall amendment, requirement <> Skip true amendment.
Proof.
  intros Hi Henv. pose proof (commands_for_exec_policy_ne parse (req_command req)) as Hne.
  destruct (requirement_spec env parse try_join current req _ Hne) as (ev & am & Hr & _ & Ham).
  eexists. split; [exact Hr|]. rewrite (Ham Hi). split.
  - unfold requirement_of. rewrite Hi, bool_decide_false by done.
    destruct (eval_decision ev); try done.
    destruct (prompt_is_rejected_by_policy _ _); [|done]. by destruct (existsb _ _).
  - intros amendment Hq.
    pose proof (requirement_of_cases env parse try_join req (policy_for current req)
      (commands_for_exec_policy parse (req_command req)) ev None) as Hc.
    unfold policy_for in Hc. rewrite Hq in Hc. destruct Hc as [_ Hb].
    destruct (commands_for_exec_policy parse (req_command req)) as [|c cs]; [done|].
    cbn [forallb] in Hb. unfold current_for_environment in Hb. rewrite Henv, Hi in Hb.
    rewrite not_explicitly_allowed in Hb; [done|]. apply without_allow_lookup.
Qed.

(** When a script is run by an unfamiliar executable, the decision on the
    executable itself is a lower bound: if it is not allowed the command is
    not skipped, if it is forbidden the command is refused, and the sandbox is
    bypassed only if the executable is explicitly allowed. *)
Theorem unfamiliar_executable_not_trusted current req shell mode ev :
  let executable := shell_approval_command (req_command req) shell mode in
  length executable <> length (req_command req) ->
  check_with_options env (policy_for current req) executable (exec_policy_fallback parse req)
    approval_options = Done ev ->
  exists requirement,
    create_exec_approval_requirement_for_shell env parse try_join current req shell mode
      = Done requirement
    /\ match requirement with
       | Skip bypass _ =>
           eval_decision ev = Allow
           /\ (bypass = true -> explicitly_allowed env (policy_for current req) executable = true)
       | NeedsApproval _ _ => eval_decision ev <> Forbidden
       | Refused _ => True
       end.
Proof.
  intros executable Hlen Hev. unfold create_exec_approval_requirement_for_shell.
  fold executable. rewrite (proj2 (Nat.eqb_neq _ _) Hlen).
  set (cmds := executable :: commands_for_exec_policy parse (req_command req)).
  assert (cmds <> []) as Hne by done.
  destruct (requirement_spec env parse try_join current (with_command req executable) cmds Hne)
    as (ev' & am & Hr & Hev' & _).
  change (current_for_environment current _ _) with (policy_for current req) in Hr, Hev'.
  change (exec_policy_fallback parse (with_command req executable))
    with (exec_policy_fallback parse req) in Hev'.
  eexists. split; [exact Hr|].
  destruct (check_multiple_done env (policy_for current req) _ (exec_policy_fallback parse req)
    approval_options Hne) as (ev2 & Hev2 & Hms & _ & Hmax).
  rewrite Hev' in Hev2. injection Hev2 as <-.
  assert (severity (eval_decision ev) <= severity (eval_decision ev')) as Hle.
  { unfold check_with_options in Hev.
    destruct (from_matches_spec _ (matches_fallback_non_empty env (policy_for current req) executable
      (exec_policy_fallback parse req) approval_options)) as (d & Hd & (m & Hm & Hmd) & _).
    rewrite Hd in Hev. injection Hev as <-. cbn [eval_decision]. rewrite <- Hmd. apply Hmax.
    rewrite Hms. apply list_elem_of_bind. exists executable. split; [done|].
    apply elem_of_cons. by left. }
  pose proof (requirement_of_cases env parse try_join (with_command req executable)
    (policy_for current req) cmds ev' am) as Hc.
  destruct (requirement_of _ _ _ _ _ _ _ _) as [bypass ?|? ?|?]; [| |done].
  - destruct Hc as [Ha Hb]. split; [apply severity_allow; by rewrite Ha in Hle|].
    intros ->. symmetry in Hb. cbn [cmds forallb] in Hb. by apply andb_true_iff in Hb as [? _].
  - destruct Hc as [Hp _]. rewrite Hp in Hle. intros Hf. rewrite Hf in Hle. simpl in Hle. lia.
Qed.
End theorems.

Section update_theorem.
Context {FS Path : Type} `{!PolicyFileOps FS Path}.

Lemma explicit_allow_match env p cmd m :
  m ∈ matches_for_command_with_options env p cmd None approval_options ->
  is_policy_match m = true -> match_decision m = Allow -> explicitly_allowed env p cmd = true.
Proof.
  intros Hm Hp Ha. apply existsb_elem. exists m. split; [done|].
  by rewrite Hp, Ha.
Qed.

(** Accepting an amendment never panics; when it succeeds the command is
    explicitly allowed by a rule of the new policy, and when it fails (the
    file could not be written, the prefix is empty) the policy in memory is the
    old one. *)
Theorem accepted_amendment_takes_effect env to_json (codex_home : Path) amendment current (fs : FS) :
  match append_amendment_and_update env to_json codex_home amendment current fs with
  | (Done _, policy, _) => explicitly_allowed env policy (amendment_command amendment) = true
  | (Fail _, policy, _) => policy = current
  | (Panic, _, _) => False
  end.
Proof.
  unfold append_amendment_and_update. set (cmd := amendment_command amendment).
  destruct (blocking_append_allow_prefix_rule _ _ _ _) as [[u|e] fs']; [|done].
  destruct (check_multiple_done env current [cmd] (fun _ => Forbidden) approval_options)
    as (ev & -> & Hms & _); [done|].
  destruct (already_allowed ev) eqn:Ea.
  - apply andb_true_iff in Ea as [_ Ea]. apply existsb_elem in Ea as (m & Hm & Hx).
    destruct_bools. rewrite Hms, bind_cons in Hm. cbn [mbind list_bind] in Hm.
    rewrite app_nil_r in Hm. eapply explicit_allow_match; [|done|done].
    destruct (decide (matches_for_command_with_options env current cmd None approval_options = []))
      as [Hn|Hn].
    + rewrite (unmatched_fallback env current cmd _ _ Hn) in Hm.
      apply list_elem_of_singleton in Hm as ->. done.
    + by rewrite (explicit_matches env current cmd _ _ Hn) in Hm.
  - destruct (add_prefix_rule cmd Allow current) as [policy|e] eqn:Ep; [|done].
    pose proof (added_prefix_rule_matches env _ _ _ _ [] None approval_options Ep) as Hm.
    rewrite app_nil_r in Hm. by eapply explicit_allow_match.
Qed.
End update_theorem.

(** ** A concrete request *)
Module Examples.
Definition rm_command : list rstr := [lit "rm"; lit "-rf"; lit "x"].
Definition no_parse (script : rstr) : option Tree := None.
Definition join_words (args : list rstr) : option rstr := None.
Definition profile : PermissionProfile (list rstr) := Disabled.

Definition request (command : list rstr) (a : AskForApproval) (rules : AllowPrefixRules)
  : ExecApprovalRequest (list rstr) :=
  mkRequest command a profile None UseDefault (Some [lit "make"]) rules.

Definition git_log : list rstr := [lit "git"; lit "log"; lit "-1"].
Definition allow_git : Policy :=
  match add_prefix_rule [lit "git"] Allow empty_policy with Ok p => p | Err _ => empty_policy end.
Definition script_run : list rstr := [lit "/opt/odd"; lit "-c"; lit "true"].
End Examples.

Lemma dangerous_command_needs_consent_witness :
  exists requirement,
    create_exec_approval_requirement_for_command example_env Examples.no_parse Examples.join_words
      git_policy (Examples.request Examples.rm_command Never Honor) = Done requirement
    /\ match requirement with Refused _ => True | _ => False end.
Proof.
  destruct (dangerous_command_needs_consent example_env Examples.no_parse Examples.join_words
    git_policy (Examples.request Examples.rm_command Never Honor) Examples.rm_command)
    as (r & Hr & Hc).
  - constructor.
  - vm_compute. reflexivity.
  - vm_compute. discriminate.
  - exists r. split; [exact Hr|]. destruct r; [exact Hc|by apply Hc|exact I].
Defined.

Lemma sandbox_bypass_is_justified_witness :
  explicitly_allowed example_env Examples.allow_git Examples.git_log = true.
Proof.
  destruct (sandbox_bypass_is_justified example_env Examples.no_parse Examples.join_words
    Examples.allow_git
    (Examples.request Examples.git_log OnRequest Honor) (Skip true None) UseDefault
    (read_only (U := list rstr))) as (_ & [H|H]).
  - vm_compute. reflexivity.
  - vm_compute. reflexivity.
  - discriminate.
  - apply (H Examples.git_log). constructor.
Defined.

Lemma proposed_prefix_approves_command_witness :
  exists policy', add_prefix_rule [lit "make"] Allow git_policy = Ok policy'
    /\ exists ev, check_with_options example_env policy' [lit "make"; lit "all"] (fun _ => Prompt)
                    approval_options = Done ev /\ eval_decision ev = Allow.
Proof.
  destruct (proposed_prefix_approves_command example_env (Some [lit "make"])
    [HeuristicsRuleMatch [lit "make"; lit "all"] Prompt] git_policy [[lit "make"; lit "all"]]
    (fun _ => Prompt) approval_options (mkAmendment [lit "make"]))
    as (_ & _ & _ & policy' & Ha & Hc).
  - vm_compute. reflexivity.
  - exists policy'. split; [exact Ha|]. apply Hc. constructor.
Defined.

Lemma ignored_allow_rules_grant_nothing_witness :
  exists requirement,
    create_exec_approval_requirement_for_command example_env Examples.no_parse Examples.join_words
      Examples.allow_git (Examples.request Examples.git_log OnRequest IgnoreForCyberModel) = Done requirement
    /\ proposed_execpolicy_amendment requirement = None
    /\ forall amendment, requirement <> Skip true amendment.
Proof.
  apply (ignored_allow_rules_grant_nothing example_env Examples.no_parse Examples.join_words
    Examples.allow_git (Examples.request Examples.git_log OnRequest IgnoreForCyberModel));
    reflexivity.
Defined.

Lemma unfamiliar_executable_not_trusted_witness :
  exists requirement,
    create_exec_approval_requirement_for_shell example_env Examples.no_parse Examples.join_words
      git_policy (Examples.request Examples.script_run UnlessTrusted Honor) (lit "/bin/bash") Direct
      = Done requirement
    /\ forall bypass amendment, requirement <> Skip bypass amendment.
Proof.
  destruct (unfamiliar_executable_not_trusted example_env Examples.no_parse Examples.join_words
    git_policy (Examples.request Examples.script_run UnlessTrusted Honor) (lit "/bin/bash") Direct
    (mkEvaluation Prompt [HeuristicsRuleMatch [lit "/opt/odd"] Prompt])) as (r & Hr & Hc).
  - vm_compute. discriminate.
  - vm_compute. reflexivity.
  - exists r. split; [exact Hr|]. intros bypass am Hs. rewrite Hs in Hc. by destruct Hc.
Defined.
